(* ===== verification/_CoqProject ===== *)
-Q . S2P
Prelude.v
Utf8.v
Ir.v
Identity.v
Recorder.v
Graph.v
Plan.v
Fingerprint.v
Replay.v
Packet.v
Visibility.v
Pm4.v
Bindings.v
Selection.v
SlotPool.v
Scheduler.v
Admission.v
Prefix.v
SessionTable.v
Swap.v
HipLower.v
HipBackend.v
HipOrder.v
HipBatch.v
Queue.v
AqlGraph.v
AqlOrder.v
AqlBatch.v
AqlPlan.v
AqlSound.v
AqlClaims.v
AqlRefresh.v
AqlLife.v
AqlRecorded.v
AqlTotal.v
AqlPrepare.v
EosFilter.v
EosSound.v
KvAdaptive.v
Shard.v
F32.v
Spec.v
SpecHost.v
CohereEmit.v
NgramMod.v
LoopGuard.v
WeightPager.v
DdTree.v
DdWalk.v
DdTopk.v
DdSwor.v
Dflash.v
Text.v
Bpe.v
Gguf.v
Tokenizer.v
Pretok.v
TokenSound.v
PromptNorm.v
Reap.v
BlockCtl.v
