(* ===== verification/Prelude.v ===== *)
(** Verification of hipfire's dispatch stack, session runtime and decode loop.

    ** The program

    hipfire is an inference engine for AMD GPUs. Four layers of it carry its own
    logic and are modelled here.

    The Redline dispatcher (src/crates/redline-dispatch, src/crates/redline-rocr)
    records the kernels of a decoding step as a graph, compiles the graph into a
    plan of dispatches on lanes, and replays the plan for many tokens through one
    of several backends: HIP streams and events, hardware (AQL) queues driven
    directly, or raw PM4 command buffers. A backend must keep the order and the
    memory visibility that the graph asks for while it drops every wait it can.

    The session runtime (src/crates/hipfire-runtime, hipfire-arch-qwen35,
    rdna-compute) shares one model among sessions: slots of a key-value arena, an
    admission ledger, prompt-cache planning, a chunked prefill scheduler and a
    store for sessions that were swapped out.

    The decode loop (src/crates/hipfire-runtime) drafts tokens, has the model verify
    them, keeps what agrees and streams it to the client through filters and
    emitters that may stop a turn or force tokens; around it sit the adaptive
    precision of the cache and the tensor-parallel split of the model.

    The text layer (src/crates/hipfire-runtime) reads vocabulary and merge rules from a
    model file, normalises a prompt, cuts it at special tokens, encodes the rest by
    byte-pair merges or longest match, and decodes tokens to bytes.

    ** Files

    Prelude           outcomes of Rust code (Ok, Err, Panic), checked machine
                      arithmetic, ordered maps and sets, byte encodings, prefix
                      codes, the tactics and hint databases
    Utf8              characters, UTF-8 encoding, validation and lossy decoding
    Ir                ir.rs: identities, regions, accesses, launches
    Identity          identity.rs: kernarg layouts, digests, artifact catalogue
    Recorder          recorder.rs: the recorder, its cycle check, its invariant
    Graph             plan.rs: topological order, reachability, hazards
    Plan              plan.rs, backend.rs: compile, lane scheduling, queries
    Fingerprint       plan.rs: the hashed byte stream
    Replay            plan.rs, backend.rs, mock.rs: replay over the backend
                      interface (a type class) and its mock instance
    Packet            redline-rocr/packet.rs, abi.rs: AQL packets and images
    Visibility        visibility.rs: barriers and fences for AQL queues
    Pm4               redline-rocr/pm4.rs: the PM4 builder with register elision
    Bindings          bindings.rs: bindings, validation, prepared-plan stamps
    Selection         selection.rs: backend choice, the prepared-plan cache
    SlotPool          rdna-compute/slot_pool.rs, kv_slots.rs: slots and tiles
    Scheduler         slot_batch.rs, scheduler.rs: prefill batches
    Admission         admission.rs: memory budgets
    Prefix            prefix.rs, cache_plan.rs: prompt-cache plans
    SessionTable      session_table.rs and the eviction steps of serve_engine.rs
    Swap              swap/snapshot.rs, store.rs, mod.rs: snapshots and the store
    HipLower          hip.rs: [lower_plan], frontiers and event slots
    HipBackend        hip.rs: the multi-stream backend as state passing over the
                      outcomes of the HIP calls, with a log of the calls made
    HipOrder          executions of such a log and the order they respect
    HipBatch          the theorems about serialized batches and the life cycle
    Queue             redline-rocr/runtime.rs: hardware queues store by store, signals,
                      queue sets over the HSA calls (a class with laws)
    AqlGraph          aql/replay.rs: recorded graphs, two-queue batches and their
                      submission state machine
    AqlOrder          executions of packets on queues (the HSA packet rules)
    AqlBatch          two-queue batches: every packet and its place
    AqlPlan           aql/generic.rs: lowering a plan to phases, headers,
                      kernargs; preparation and rebinding
    AqlSound          a prepared plan keeps the order and visibility of the graph
    AqlClaims         the theorems about prepared plans and argument packing
    AqlRefresh        rebinding, and which dispatch's arguments it packs
    AqlLife           submission, waiting and cancellation
    AqlRecorded       graphs with explicit dependencies on any number of queues
    AqlTotal          constructions of batches do not panic
    AqlPrepare        preparation does not panic
    EosFilter         eos_filter.rs: the byte filter between decoder and client
    EosSound          the filter equals one scan of the whole stream
    KvAdaptive        kv_adaptive.rs: the precision tiers of the cache
    Shard             tp_shard.rs: heads, rows and experts of a rank
    F32               single-precision numbers and heaps, for the samplers
    Spec              spec.rs, spec_ngram.rs: acceptance, the chain speculator over
                      the drafter and target interfaces (classes), n-gram drafts
    SpecHost          examples/daemon.rs: the decode loop [generate_spec] over the
                      emitter interface (a class)
    CohereEmit        hipfire-arch-cohere2moe/spec_emit.rs: one emitter
    NgramMod          ngram_mod.rs: the n-gram pool with its rolling hash
    LoopGuard         loop_guard.rs: the repetition guard
    WeightPager       weight_pager.rs: weights paged in and out of device memory
    DdTree            ddtree.rs: construction of draft trees
    DdWalk            ddtree.rs: layout, walks and samplers
    DdTopk            ddtree.rs: the most likely tokens of a draft position
    DdSwor            ddtree.rs: sampling a tree without replacement
    Dflash            dflash_generic.rs: the block-diffusion speculator over the
                      draft and target interfaces (classes with contracts)
    Text              strings and JSON documents
    Bpe               tokenizer.rs: byte-pair merges with a priority queue, against the
                      plain algorithm
    Gguf              gguf.rs: the reader of model files, against the format
    Tokenizer         tokenizer.rs: constructors, encoding, decoding, signature
    Pretok            tokenizer.rs: the pattern that cuts text into chunks
    TokenSound        the theorems about tokenizers and round trips
    PromptNorm        tokenizer.rs: prompt normalisation, merge ranks
    Reap              hipfire-reap: plans that prune experts, gathering of rows
    BlockCtl          dspark_block_controller.rs: the size of draft blocks

    ** How the code is modelled

    A fallible function returns [result E A]; [Panic] is an index out of range, a
    failed [expect] or assertion, or an overflow in a build that checks it, so a
    theorem that excludes it is a proof of its absence. Integers are [Z] with
    their width written out ([checked_add U64_MAX], [wrap64]); positions and
    counts that index vectors are [nat]. [BTreeMap] and [BTreeSet] are sorted
    association lists, [HashMap] is [gmap]. Loops with [?] are [try_fold],
    [try_map] and [for_each]. Mutation is state passing; where an operation can
    fail half way, it returns the state it leaves behind next to the error.

    Code outside the repository is a parameter: SHA-256 (a function, injective on
    the inputs compared where a theorem needs it), the memory left on the device,
    the file system, how each HIP call ends, how HSA queues, signals and
    allocations are created (outcomes as arguments), and the queue indices,
    doorbells and signals of a running device (classes [HsaQueues],
    [HsaIndices], [HsaLaws]), how a cache transcode or a weight transfer ends, the
    tokenizer of an emitter, the JSON parser, the regular expression engine (with the
    leftmost-first matching it documents as a hypothesis) and its Unicode classes, the
    sizes of two Rust types, the cancellation flag of a request, the iteration order of a
    hash map, the verifying model (classes [SpecTarget] and [DflashTarget], with the
    documented contracts [TargetContract] and [DflashContract]), the kernels of the draft
    model behind its assertions (class [DraftModel] with [DraftContract]), and the
    exponential and logarithm of the samplers. Devices are described by the executions they may
    have: HipOrder and AqlOrder state what streams, events and packet processors
    promise, and the theorems hold for every such execution.

    ** What is proved

    Recording and compiling: every recorder is well formed and acyclic; the cycle
    check and the topological sort are exact and terminate; a graph compiles
    exactly when no two conflicting dispatches are unordered, and the plan is the
    greedy schedule of the specification; the fingerprint identifies a plan.
    Backends: the mock backend sees the specified trace; frontier lowering, the
    HIP batches, the derived AQL barriers and fences, the recorded graphs and the
    prepared AQL plans keep every dependency and conflict in every execution,
    run each dispatch once per token and never block, with agent fences on the
    packets of reads after writes of a token and on barriers between tokens; register elision leaves
    what the command processor sees unchanged; publishing to hardware queues
    refines appending to them, the header of a packet stored last; packets have the bytes HSA prescribes.
    Validity: bindings, stamps, argument packing, rebinding, backend selection and
    its cache, without panics. Life cycles: failures of the HIP backend and of
    AQL graphs end in a drained or an unusable state.
    Sessions: slots are disjoint and agree with the table and with the ledger in
    every reachable state; admission keeps its budget; opening, turns and
    eviction are exact; prompts are fed in order; snapshots round-trip, corruption
    is detected, and the two-tier store implements a map.
    Decoding: the text a client sees does not depend on how the stream is cut; a
    greedy speculative turn leaves the cache on the decoded tokens, of which only tokens
    without client events can be missing, keeps the tokens with events as conversation,
    and decodes what the model alone would if nothing is forced; in every mode it ends;
    with the Cohere emitter cache and conversation agree up to end tokens; lowering the cache precision
    never lets a write pass the end of a buffer; experts are split exactly; the
    rolling hash agrees with hashing afresh; the guard fires exactly on loops; a
    working set of weights that fits is resident when it is used. Draft trees: the
    selection of candidates, the tree and its mask are exact, and verifying a tree or a
    chain emits what the target would have drawn alone with the same generator. The
    block-diffusion speculator keeps cache and hidden rows aligned with the tokens
    processed through prefills, steps and forced tokens, wherever a tree forward put
    its rows, without panics within its capacities, and a step emits what the target
    would draw alone unless a tree is sampled.
    Text: opening a model file accepts exactly the format, and panics exactly on counts no
    vector can hold and on an alignment of zero; what a tokenizer's constructors guarantee,
    always and for documents with distinct ids; the priority queue merges like the plain
    algorithm; byte-level vocabularies give every text back; the SentencePiece encoder is
    the longest-match encoder, and gives back the texts it has tokens for; prompt
    normalisation equals the composition of its rewrites and is idempotent. Examples
    record streams, documents and vocabularies on which the code does not do what a
    comment says.
    Around the model: a pruning plan that loads fits the model, and gathering puts the
    named expert into each slot; the
    controller of draft blocks stays in its bounds, sweeps all sizes and settles on the
    one of greatest score.

    ** Fuel

    Functions with fuel have theorems that the fuel given suffices: the search for
    a path runs at most |edges| + 2 rounds, the topological sort one round per
    node and a last one, the walk over a command tape one per word, the tile list
    one per tile and slot, chunks one per element. The polling loops of the
    hardware queues take the number of rounds until the timeout as fuel, and the
    theorems hold for every finite timeout with that many rounds and one more. The
    filter scans at most one round per buffered byte and one more, and the decode
    loop takes at most as many windows as the context has positions and one more. A draft tree is built in
    at most one round per node and one more, and walked one slot at a time. Merging a
    chunk pops at most three entries per byte; encoding a text, the longest-match loop and
    the search for chunks take at most one round per character; the arrays of a model file
    nest at most as deep as it has bytes, and each of their elements takes a byte.

    ** What is not modelled

    Texts of errors; failed allocations, which abort; the [Drop] implementations that cancel; agent discovery and
    code-object loading of the ROCr runtime; the graphs of PM4 indirect buffers
    and the single-queue batches of aql/replay.rs; pm4_gfx10.rs; the direct driver
    interface, the bridges and the kernels (their arithmetic runs on the device);
    forward passes, weight formats, quantisation, downloads, configuration, user
    interfaces and the HTTP front end (I/O and glue); of the decode loop, cache
    eviction, rollback of failed turns and the drafters with device state; the
    distribution of sampling without replacement, which is tested, not proved. Left
    for later: the GFX10 tapes, queue placement and the tensor names of quantised overlays. *)

From Stdlib Require Export ZArith Lia.
From stdpp Require Export prelude gmap strings sorting.

(** ** Outcomes of Rust code

    [Ok] and [Err] are the two constructors of [core::result::Result]; [Panic]
    is what an out-of-range index, a failed [expect], an [assert!] or an
    arithmetic underflow in a checked build does. *)
Inductive result (E A : Type) : Type :=
| Ok (a : A)
| Err (e : E)
| Panic.
Arguments Ok {E A} a.
Arguments Err {E A} e.
Arguments Panic {E A}.

#[export] Instance result_ret E : MRet (result E) := λ A a, Ok a.
#[export] Instance result_bind E : MBind (result E) := λ A B f m,
  match m with Ok a => f a | Err e => Err e | Panic => Panic end.

Section result_ops.
Context {E A : Type}.

(** [Option::ok_or]. *)
Definition ok_or (e : E) (o : option A) : result E A :=
  match o with Some a => Ok a | None => Err e end.

(** [slice[i]]: panics out of range. *)
Definition index (l : list A) (i : nat) : result E A :=
  match l !! i with Some a => Ok a | None => Panic end.

(** [Option::expect]. *)
Definition expect (o : option A) : result E A :=
  match o with Some a => Ok a | None => Panic end.

(** [if b { return Err(e) }]. *)
Definition err_if (b : bool) (e : E) : result E unit :=
  if b then Err e else Ok tt.

(** [assert!(b)]. *)
Definition assert (b : bool) : result E unit := if b then Ok tt else Panic.

(** [slice[i] = a]: panics out of range. *)
Definition store (l : list A) (i : nat) (a : A) : result E (list A) :=
  if bool_decide (i < length l) then Ok (<[i := a]> l) else Panic.
End result_ops.

(** [Result::map_err]. *)
Definition map_err {E F A} (f : E → F) (m : result E A) : result F A :=
  match m with Ok a => Ok a | Err e => Err (f e) | Panic => Panic end.

(** [for x in l { f(x)?; }]. *)
Fixpoint for_each {E A} (f : A → result E unit) (l : list A) : result E unit :=
  match l with
  | [] => Ok tt
  | x :: l => f x ;; for_each f l
  end.

(** A loop that threads a mutable state and may leave early with [?]. *)
Fixpoint try_fold {E A S} (f : S → A → result E S) (s : S) (l : list A)
    : result E S :=
  match l with
  | [] => Ok s
  | x :: l => s' ← f s x; try_fold f s' l
  end.

(** [iter.map(f).collect()] where [f] may leave early. *)
Fixpoint try_map {E A B} (f : A → result E B) (l : list A) : result E (list B) :=
  match l with
  | [] => Ok []
  | x :: l => y ← f x; ys ← try_map f l; Ok (y :: ys)
  end.

Section result_lemmas.
Context {E : Type}.

Lemma Ok_inj {A} (x y : A) : Ok (E := E) x = Ok y → x = y.
Proof. by intros [= ->]. Qed.

Lemma bind_Ok {A B} (m : result E A) (f : A → result E B) b :
  m ≫= f = Ok b ↔ ∃ a, m = Ok a ∧ f a = Ok b.
Proof. destruct m; cbn; naive_solver. Qed.

Lemma bind_Err {A B} (m : result E A) (f : A → result E B) e :
  m ≫= f = Err e ↔ m = Err e ∨ ∃ a, m = Ok a ∧ f a = Err e.
Proof. destruct m; cbn; naive_solver. Qed.

Lemma bind_Panic {A B} (m : result E A) (f : A → result E B) :
  m ≫= f = Panic ↔ m = Panic ∨ ∃ a, m = Ok a ∧ f a = Panic.
Proof. destruct m; cbn; naive_solver. Qed.

Lemma index_Ok {A} (l : list A) i a :
  index (E:=E) l i = Ok a ↔ l !! i = Some a.
Proof. unfold index. destruct (l !! i); naive_solver. Qed.

Lemma ok_or_Ok {A} (e : E) (o : option A) a : ok_or e o = Ok a ↔ o = Some a.
Proof. destruct o; naive_solver. Qed.

Lemma expect_Ok {A} (o : option A) a : expect (E:=E) o = Ok a ↔ o = Some a.
Proof. destruct o; naive_solver. Qed.

Lemma err_if_Ok b (e : E) u : err_if b e = Ok u ↔ b = false.
Proof. destruct b, u; naive_solver. Qed.

Lemma assert_Ok b u : assert (E:=E) b = Ok u ↔ b = true.
Proof. destruct b, u; naive_solver. Qed.

Lemma store_Ok {A} (l l' : list A) i a :
  store (E:=E) l i a = Ok l' ↔ i < length l ∧ l' = <[i := a]> l.
Proof. unfold store. case_bool_decide; naive_solver. Qed.

Lemma for_each_Ok {A} (f : A → result E unit) l :
  for_each f l = Ok tt ↔ ∀ x, x ∈ l → f x = Ok tt.
Proof.
  induction l as [|x l IH]; cbn; [set_solver|].
  rewrite bind_Ok. setoid_rewrite elem_of_cons. split.
  - intros ([] & Hx & Hl) y [->|Hy]; [done|]. exact (proj1 IH Hl y Hy).
  - intros H. exists tt. split; [auto|]. apply IH. auto.
Qed.

Lemma for_each_Err {A} (f : A → result E unit) l e :
  for_each f l = Err e → ∃ x, x ∈ l ∧ f x = Err e.
Proof.
  induction l as [|x l IH]; cbn; [done|].
  rewrite bind_Err. intros [H|([] & Hx & H)]; [set_solver|].
  destruct (IH H) as (y & ? & ?). exists y. set_solver.
Qed.

Lemma for_each_no_panic {A} (f : A → result E unit) l :
  (∀ x, x ∈ l → f x ≠ Panic) → for_each f l ≠ Panic.
Proof.
  induction l as [|x l IH]; cbn; [done|]. intros H.
  rewrite bind_Panic. intros [Hp|([] & _ & Hp)]; [set_solver|].
  apply IH in Hp; set_solver.
Qed.

Lemma try_fold_cons {A S} (f : S → A → result E S) s x l :
  try_fold f s (x :: l) = f s x ≫= λ s', try_fold f s' l.
Proof. done. Qed.

Lemma try_fold_app {A S} (f : S → A → result E S) s l k :
  try_fold f s (l ++ k) = s' ← try_fold f s l; try_fold f s' k.
Proof.
  revert s. induction l as [|x l IH]; intros s; cbn; [done|].
  destruct (f s x); cbn; [apply IH|done|done].
Qed.

(** Invariant rule for a loop over a list: [I done s] holds when the
    elements [done] have been processed. *)
Lemma try_fold_inv {A S} (I : list A → S → Prop) (f : S → A → result E S) l :
  ∀ pre s s',
    I pre s →
    (∀ d x r s1 s2, pre ++ l = d ++ x :: r → I d s1 → f s1 x = Ok s2 →
      I (d ++ [x]) s2) →
    try_fold f s l = Ok s' → I (pre ++ l) s'.
Proof.
  induction l as [|x l IH]; intros pre s s' HI Hstep; cbn.
  - intros [= <-]. by rewrite app_nil_r.
  - rewrite bind_Ok. intros (s1 & Hx & Hl).
    replace (pre ++ x :: l) with ((pre ++ [x]) ++ l) in * by by rewrite <- app_assoc.
    eapply IH; [|exact Hstep|exact Hl].
    eapply (Hstep pre x l); [by rewrite <- app_assoc|done|done].
Qed.

(** Totality rule: the loop reaches [Ok] when each iteration does under
    the invariant. *)
Lemma try_fold_total {A S} (I : list A → S → Prop) (f : S → A → result E S) l :
  ∀ pre s,
    I pre s →
    (∀ d x r s1, pre ++ l = d ++ x :: r → I d s1 →
      ∃ s2, f s1 x = Ok s2 ∧ I (d ++ [x]) s2) →
    ∃ s', try_fold f s l = Ok s' ∧ I (pre ++ l) s'.
Proof.
  induction l as [|x l IH]; intros pre s HI Hstep; cbn.
  - exists s. by rewrite app_nil_r.
  - destruct (Hstep pre x l s) as (s2 & Hx & HI2); [done..|].
    rewrite Hx. cbn.
    replace (pre ++ x :: l) with ((pre ++ [x]) ++ l) in * by by rewrite <- app_assoc.
    apply IH; done.
Qed.

Lemma try_map_Ok {A B} (f : A → result E B) l ys :
  try_map f l = Ok ys ↔ Forall2 (λ x y, f x = Ok y) l ys.
Proof.
  revert ys. induction l as [|x l IH]; intros ys; cbn.
  - split; [by intros [= <-]|]. by inversion 1.
  - rewrite bind_Ok. setoid_rewrite bind_Ok. setoid_rewrite IH. split.
    + intros (y & Hy & ys' & Hl & [= <-]). by constructor.
    + inversion 1; naive_solver.
Qed.
End result_lemmas.

#[export] Instance result_eq_dec {E A} `{!EqDecision E, !EqDecision A} :
  EqDecision (result E A).
Proof. solve_decision. Defined.

(** [iter.enumerate()]. *)
Definition enumerate {A} (l : list A) : list (nat * A) := imap pair l.

Lemma elem_of_enumerate {A} (l : list A) i x : (i, x) ∈ enumerate l ↔ l !! i = Some x.
Proof.
  unfold enumerate. rewrite list_elem_of_lookup. setoid_rewrite list_lookup_imap_Some. split.
  - by intros (j & y & Hy & [= -> ->]).
  - intros H. by exists i, x.
Qed.

Lemma length_enumerate {A} (l : list A) : length (enumerate l) = length l.
Proof. apply length_imap. Qed.

Lemma tc_flip_1 {A} (R : relation A) x y : tc (flip R) x y → tc R y x.
Proof. induction 1 as [x y H|x y z H _ IH]; [by constructor|by eapply tc_r]. Qed.

(** ** Machine integers

    Unsigned w-bit integers are [Z]; the ranges and the checked, saturating
    and wrapping operations are written out. *)
Definition U16_MAX : Z := 65535.
Definition U32_MAX : Z := 4294967295.
Definition U64_MAX : Z := 18446744073709551615.

Definition is_u8 (x : Z) : Prop := (0 ≤ x < 256)%Z.
Definition is_u16 (x : Z) : Prop := (0 ≤ x ≤ U16_MAX)%Z.
Definition is_u32 (x : Z) : Prop := (0 ≤ x ≤ U32_MAX)%Z.
Definition is_u64 (x : Z) : Prop := (0 ≤ x ≤ U64_MAX)%Z.

Definition wrap16 (x : Z) : Z := x `mod` 65536.
Definition wrap32 (x : Z) : Z := x `mod` 4294967296.
Definition wrap64 (x : Z) : Z := x `mod` 18446744073709551616.

(** [x as i32] *)
Definition as_i32 (x : Z) : Z := ((x + 2147483648) `mod` 4294967296 - 2147483648)%Z.

Lemma as_i32_small x : (-2147483648 ≤ x < 2147483648)%Z → as_i32 x = x.
Proof. intros H. unfold as_i32. rewrite Z.mod_small; lia. Qed.

(** [a..b] on [i32] *)
Definition i32_range (a b : Z) : list Z := (λ k, (a + Z.of_nat k)%Z) <$> seq 0 (Z.to_nat (b - a)).

Definition checked_add (max a b : Z) : option Z :=
  if (a + b <=? max)%Z then Some (a + b)%Z else None.
Definition checked_mul (max a b : Z) : option Z :=
  if (a * b <=? max)%Z then Some (a * b)%Z else None.
Definition saturating_add (max a b : Z) : Z := Z.min max (a + b).
Definition saturating_sub (a b : Z) : Z := Z.max 0 (a - b).

(** [x.is_power_of_two()]. *)
Definition is_power_of_two (x : Z) : bool :=
  ((0 <? x) && (x =? 2 ^ Z.log2 x))%Z.

Ltac unfold_ints :=
  unfold is_u8, is_u16, is_u32, is_u64, U16_MAX, U32_MAX, U64_MAX,
    saturating_add, saturating_sub in *.
Ltac ulia := unfold_ints; lia.

Lemma checked_add_Some max a b c :
  checked_add max a b = Some c ↔ (c = a + b ∧ a + b ≤ max)%Z.
Proof. unfold checked_add. destruct (Z.leb_spec (a + b) max); naive_solver lia. Qed.

Lemma checked_mul_Some max a b c :
  checked_mul max a b = Some c ↔ (c = a * b ∧ a * b ≤ max)%Z.
Proof. unfold checked_mul. destruct (Z.leb_spec (a * b) max); naive_solver lia. Qed.

(** Or-ing a shifted value with bits below the shift adds them. *)
Lemma lor_shiftl_add n a b :
  (0 ≤ n → 0 ≤ b < 2 ^ n → Z.lor (Z.shiftl a n) b = a * 2 ^ n + b)%Z.
Proof.
  intros Hn Hb. rewrite <- Z.shiftl_mul_pow2 by done.
  assert (Z.land (Z.shiftl a n) b = 0)%Z as Hland.
  { apply Z.bits_inj'. intros i Hi. rewrite Z.land_spec, Z.bits_0.
    destruct (Z.lt_ge_cases i n) as [Hlt|Hge]; [by rewrite Z.shiftl_spec_low|].
    assert (2 ^ n ≤ 2 ^ i)%Z by (apply Z.pow_le_mono_r; lia).
    assert (Z.testbit b i = false) as ->; [|by rewrite andb_false_r].
    apply Z.testbit_false; [lia|]. by rewrite Z.div_small by lia. }
  rewrite <- Z.lxor_lor, <- Z.add_nocarry_lxor by done. done.
Qed.

(** Bitwise or stays within the width of its operands. *)
Lemma lor_bound n a b :
  (0 ≤ n → 0 ≤ a < 2 ^ n → 0 ≤ b < 2 ^ n → 0 ≤ Z.lor a b < 2 ^ n)%Z.
Proof.
  intros Hn Ha Hb. split; [apply Z.lor_nonneg; lia|].
  destruct (decide (Z.lor a b = 0)%Z) as [->|Hne]; [apply Z.pow_pos_nonneg; lia|].
  assert (0 ≤ Z.lor a b)%Z by (apply Z.lor_nonneg; lia).
  apply Z.log2_lt_pow2; [lia|]. rewrite Z.log2_lor by lia.
  assert (∀ x, 0 ≤ x < 2 ^ n → x = 0 ∨ Z.log2 x < n)%Z as Hl.
  { intros x Hx. destruct (decide (x = 0)%Z); [by left|right]. apply Z.log2_lt_pow2; lia. }
  destruct (Hl a Ha) as [->|?], (Hl b Hb) as [->|?]; cbn;
    rewrite ?Z.lor_0_l, ?Z.lor_0_r in *; try done; try lia.
  - pose proof (Z.log2_nonneg b). lia.
  - pose proof (Z.log2_nonneg a). lia.
Qed.

(** ** Bytes and little-endian encodings *)

(** [x.to_le_bytes()] of an [n]-byte integer. *)
Fixpoint le_bytes (n : nat) (x : Z) : list Z :=
  match n with
  | O => []
  | S n => (x `mod` 256)%Z :: le_bytes n (x / 256)
  end.

(** The inverse reading of a little-endian byte sequence. *)
Fixpoint le_value (bs : list Z) : Z :=
  match bs with
  | [] => 0
  | b :: bs => b + 256 * le_value bs
  end%Z.

Lemma length_le_bytes n x : length (le_bytes n x) = n.
Proof. revert x. induction n; intros; cbn; auto. Qed.

Lemma le_bytes_u8 n x : Forall is_u8 (le_bytes n x).
Proof.
  revert x. induction n; intros x; cbn; constructor; [|auto].
  apply Z.mod_pos_bound. lia.
Qed.

Lemma le_value_bytes n x : le_value (le_bytes n x) = (x `mod` 256 ^ Z.of_nat n)%Z.
Proof.
  revert x. induction n as [|n IH]; intros x.
  - cbn. by rewrite Z.mod_1_r.
  - cbn [le_bytes le_value]. rewrite IH, Nat2Z.inj_succ, Z.pow_succ_r by lia.
    rewrite Z.rem_mul_r; lia.
Qed.

Lemma le_bytes_inj n x y :
  (0 ≤ x < 256 ^ Z.of_nat n)%Z → (0 ≤ y < 256 ^ Z.of_nat n)%Z →
  le_bytes n x = le_bytes n y → x = y.
Proof.
  intros Hx Hy H. apply (f_equal le_value) in H. rewrite !le_value_bytes in H.
  by rewrite !Z.mod_small in H.
Qed.

Definition ascii_value (c : Ascii.ascii) : Z := Z.of_N (Ascii.N_of_ascii c).

(** [s.as_bytes()]; a Rust [str] is the [string] of its UTF-8 bytes. *)
Fixpoint str_bytes (s : string) : list Z :=
  match s with
  | EmptyString => []
  | String c s => ascii_value c :: str_bytes s
  end.

Lemma str_bytes_inj s t : str_bytes s = str_bytes t → s = t.
Proof.
  revert t. induction s as [|c s IH]; intros [|d t]; cbn; try done.
  intros [= Hc Hs]. f_equal; [|by apply IH].
  unfold ascii_value in Hc. apply N2Z.inj in Hc.
  rewrite <- (Ascii.ascii_N_embedding c), <- (Ascii.ascii_N_embedding d). by rewrite Hc.
Qed.

Lemma str_bytes_u8 s : Forall is_u8 (str_bytes s).
Proof.
  induction s as [|c s IH]; cbn; constructor; [|done]. unfold ascii_value, is_u8. pose proof (Ascii.N_ascii_bounded c). lia.
Qed.

(** [s.trim().is_empty()]: every character is Unicode [White_Space]. The
    multi-byte cases are the UTF-8 encodings of U+0085, U+00A0, U+1680,
    U+2000..U+200A, U+2028, U+2029, U+202F, U+205F and U+3000. *)
Fixpoint white_bytes (bs : list Z) : bool :=
  match bs with
  | [] => true
  | b :: bs =>
    if ((9 <=? b) && (b <=? 13) || (b =? 32))%Z then white_bytes bs
    else match bs with
    | c :: bs =>
      if ((b =? 194) && ((c =? 133) || (c =? 160)))%Z then white_bytes bs
      else match bs with
      | d :: bs =>
        if ((b =? 225) && (c =? 154) && (d =? 128)
            || (b =? 226) && (c =? 128) &&
               ((128 <=? d) && (d <=? 138) || (d =? 168) || (d =? 169) || (d =? 175))
            || (b =? 226) && (c =? 129) && (d =? 159)
            || (b =? 227) && (c =? 128) && (d =? 128))%Z
        then white_bytes bs else false
      | [] => false
      end
    | [] => false
    end
  end.

Definition trim_is_empty (s : string) : bool := white_bytes (str_bytes s).

(** The rows one prefill launch may hold ([llama.rs]). *)
Definition PREFILL_MAX_BATCH : nat := 256.

(** ** Ordered keys, [BTreeSet] and [BTreeMap] *)

(** What a key type's [Ord] implementation promises. *)
Class OrdKey (K : Type) := {
  kcmp : K → K → comparison;
  kcmp_eq a b : kcmp a b = Eq ↔ a = b;
  kcmp_opp a b : kcmp b a = CompOpp (kcmp a b);
  kcmp_trans a b c : kcmp a b = Lt → kcmp b c = Lt → kcmp a c = Lt }.

Definition klt `{OrdKey K} (a b : K) : Prop := kcmp a b = Lt.

#[export] Program Instance Z_key : OrdKey Z := {| kcmp := Z.compare |}.
Next Obligation. intros. apply Z.compare_eq_iff. Qed.
Next Obligation. intros. apply Z.compare_antisym. Qed.
Next Obligation. intros ???. rewrite !Z.compare_lt_iff. lia. Qed.

#[export] Program Instance nat_key : OrdKey nat := {| kcmp := Nat.compare |}.
Next Obligation. intros. apply Nat.compare_eq_iff. Qed.
Next Obligation. intros. apply Nat.compare_antisym. Qed.
Next Obligation. intros ???. rewrite !Nat.compare_lt_iff. lia. Qed.

(** Tuples and derived [Ord] on structs compare field by field. *)
Definition lex_cmp (c d : comparison) : comparison :=
  match c with Eq => d | _ => c end.

#[export] Program Instance prod_key `{OrdKey A, OrdKey B} : OrdKey (A * B) :=
  {| kcmp x y := lex_cmp (kcmp x.1 y.1) (kcmp x.2 y.2) |}.
Next Obligation.
  intros A HA B HB [a b] [c d]. cbn. pose proof (kcmp_eq a c). pose proof (kcmp_eq b d).
  destruct (kcmp a c), (kcmp b d); cbn; naive_solver.
Qed.
Next Obligation.
  intros A HA B HB [a b] [c d]. cbn. rewrite (kcmp_opp a c), (kcmp_opp b d).
  by destruct (kcmp a c).
Qed.
Next Obligation.
  intros A HA B HB [a b] [c d] [e f]. cbn.
  destruct (kcmp a c) eqn:E1, (kcmp c e) eqn:E2; cbn; try done.
  - apply kcmp_eq in E1 as ->, E2 as ->. intros.
    assert (kcmp e e = Eq) as -> by by apply kcmp_eq. cbn. by eapply kcmp_trans.
  - apply kcmp_eq in E1 as ->. by rewrite E2.
  - apply kcmp_eq in E2 as ->. by rewrite E1.
  - intros _ _. by rewrite (kcmp_trans _ _ _ E1 E2).
Qed.

(** Slices and strings compare lexicographically. *)
Fixpoint list_cmp `{OrdKey A} (l k : list A) : comparison :=
  match l, k with
  | [], [] => Eq
  | [], _ :: _ => Lt
  | _ :: _, [] => Gt
  | x :: l, y :: k => lex_cmp (kcmp x y) (list_cmp l k)
  end.

#[export] Program Instance list_key `{OrdKey A} : OrdKey (list A) :=
  {| kcmp := list_cmp |}.
Next Obligation.
  intros A HA l. induction l as [|x l IH]; intros [|y k]; cbn; try naive_solver.
  pose proof (kcmp_eq x y). specialize (IH k).
  destruct (kcmp x y), (list_cmp l k); cbn; naive_solver.
Qed.
Next Obligation.
  intros A HA l. induction l as [|x l IH]; intros [|y k]; cbn; try done.
  rewrite (kcmp_opp x y), IH. by destruct (kcmp x y).
Qed.
Next Obligation.
  intros A HA l. induction l as [|x l IH]; intros [|y k] [|z m]; cbn; try done.
  destruct (kcmp x y) eqn:E1, (kcmp y z) eqn:E2; cbn; try done.
  - apply kcmp_eq in E1 as ->, E2 as ->. intros.
    assert (kcmp z z = Eq) as -> by by apply kcmp_eq. cbn. by eapply IH.
  - apply kcmp_eq in E1 as ->. by rewrite E2.
  - apply kcmp_eq in E2 as ->. by rewrite E1.
  - intros _ _. by rewrite (kcmp_trans _ _ _ E1 E2).
Qed.

(** A key compared through an injective view of its fields. *)
Program Definition key_via {A} `{OrdKey B} (f : A → B) (Hf : ∀ x y, f x = f y → x = y) : OrdKey A :=
  {| kcmp x y := kcmp (f x) (f y) |}.
Next Obligation. intros A B HB f Hf a b. rewrite kcmp_eq. naive_solver. Qed.
Next Obligation. intros. apply kcmp_opp. Qed.
Next Obligation. intros A B HB f Hf a b c. apply kcmp_trans. Qed.

#[export] Instance string_key : OrdKey string := key_via str_bytes str_bytes_inj.

Section btree.
Context `{OrdKey K}.

Lemma klt_irrefl (a : K) : ¬ klt a a.
Proof. unfold klt. assert (kcmp a a = Eq) as -> by by apply kcmp_eq. done. Qed.

Lemma kcmp_Gt (a b : K) : kcmp a b = Gt → klt b a.
Proof. unfold klt. rewrite (kcmp_opp a b). by intros ->. Qed.

(** [BTreeSet::insert] on the ascending list of the elements. *)
Fixpoint bset_insert (k : K) (s : list K) : list K :=
  match s with
  | [] => [k]
  | x :: s' =>
    match kcmp k x with
    | Lt => k :: s
    | Eq => s
    | Gt => x :: bset_insert k s'
    end
  end.

Definition bset_sorted (s : list K) : Prop := StronglySorted klt s.

Lemma elem_of_bset_insert k s x : x ∈ bset_insert k s ↔ x = k ∨ x ∈ s.
Proof.
  induction s as [|y s IH]; cbn; [set_solver|].
  destruct (kcmp k y) eqn:E; [apply kcmp_eq in E as ->| |]; set_solver.
Qed.

Lemma bset_insert_sorted k s : bset_sorted s → bset_sorted (bset_insert k s).
Proof.
  unfold bset_sorted. induction 1 as [|y s Hs IH Hy]; cbn; [by repeat constructor|].
  destruct (kcmp k y) eqn:E.
  - by constructor.
  - constructor; [by constructor|]. constructor; [done|].
    eapply Forall_impl; [exact Hy|]. intros z Hz. by eapply kcmp_trans.
  - constructor; [done|]. apply Forall_forall. intros z.
    rewrite elem_of_bset_insert. intros [->|Hz]; [by apply kcmp_Gt|].
    by eapply Forall_forall.
Qed.

Lemma bset_sorted_NoDup s : bset_sorted s → NoDup s.
Proof.
  induction 1 as [|y s Hs IH Hy]; constructor; [|done].
  intros Hin. rewrite Forall_forall in Hy. by eapply klt_irrefl, Hy.
Qed.

Lemma bset_sorted_tail x s : bset_sorted (x :: s) → bset_sorted s.
Proof. by inversion 1. Qed.

Context {V : Type}.

(** [BTreeMap::insert] and [BTreeMap::get] on the ascending list of entries. *)
Fixpoint bmap_insert (k : K) (v : V) (m : list (K * V)) : list (K * V) :=
  match m with
  | [] => [(k, v)]
  | (x, w) :: m' =>
    match kcmp k x with
    | Lt => (k, v) :: m
    | Eq => (k, v) :: m'
    | Gt => (x, w) :: bmap_insert k v m'
    end
  end.

Fixpoint bmap_get (k : K) (m : list (K * V)) : option V :=
  match m with
  | [] => None
  | (x, w) :: m' => match kcmp k x with Eq => Some w | _ => bmap_get k m' end
  end.

(** [BTreeMap::remove]. *)
Fixpoint bmap_remove (k : K) (m : list (K * V)) : list (K * V) :=
  match m with
  | [] => []
  | (x, w) :: m' =>
    match kcmp k x with Eq => m' | _ => (x, w) :: bmap_remove k m' end
  end.

Definition bmap_sorted (m : list (K * V)) : Prop := StronglySorted klt m.*1.

Lemma bmap_get_insert k v m k' :
  bmap_get k' (bmap_insert k v m) =
    match kcmp k' k with Eq => Some v | _ => bmap_get k' m end.
Proof.
  induction m as [|[x w] m IH]; cbn; [done|].
  destruct (kcmp k x) eqn:E; cbn; [|done|].
  - apply kcmp_eq in E as ->. by destruct (kcmp k' x).
  - destruct (kcmp k' x) eqn:E'; [|done..].
    apply kcmp_eq in E' as ->. apply kcmp_Gt in E. unfold klt in E. by rewrite E.
Qed.

Lemma bmap_get_insert_eq k v m : bmap_get k (bmap_insert k v m) = Some v.
Proof.
  rewrite bmap_get_insert. by assert (kcmp k k = Eq) as -> by by apply kcmp_eq.
Qed.

Lemma bmap_get_insert_ne k v m k' :
  k' ≠ k → bmap_get k' (bmap_insert k v m) = bmap_get k' m.
Proof.
  rewrite bmap_get_insert. destruct (kcmp k' k) eqn:E; [|done..].
  by apply kcmp_eq in E.
Qed.

Lemma elem_of_keys_insert k v m x :
  x ∈ (bmap_insert k v m).*1 ↔ x = k ∨ x ∈ m.*1.
Proof.
  induction m as [|[y w] m IH]; cbn; [set_solver|].
  destruct (kcmp k y) eqn:E; cbn; [apply kcmp_eq in E as ->| |]; set_solver.
Qed.

Lemma bmap_insert_sorted k v m : bmap_sorted m → bmap_sorted (bmap_insert k v m).
Proof.
  unfold bmap_sorted. induction m as [|[y w] m IH]; cbn; [by repeat constructor|].
  inversion 1 as [|? ? Hs Hy]; subst.
  destruct (kcmp k y) eqn:E; cbn.
  - apply kcmp_eq in E as ->. by constructor.
  - constructor; [done|]. constructor; [done|].
    eapply Forall_impl; [exact Hy|]. intros z Hz. by eapply kcmp_trans.
  - constructor; [auto|]. apply Forall_forall. intros z.
    rewrite elem_of_keys_insert. intros [->|Hz]; [by apply kcmp_Gt|].
    by eapply Forall_forall.
Qed.

Lemma bmap_sorted_NoDup m : bmap_sorted m → NoDup m.*1.
Proof. apply bset_sorted_NoDup. Qed.

Lemma bmap_get_Some_elem k v m : bmap_get k m = Some v → (k, v) ∈ m.
Proof.
  induction m as [|[x w] m IH]; cbn; [done|].
  destruct (kcmp k x) eqn:E; [|set_solver..].
  apply kcmp_eq in E as ->. intros [= ->]. set_solver.
Qed.

Lemma bmap_elem_get k v m : bmap_sorted m → (k, v) ∈ m → bmap_get k m = Some v.
Proof.
  intros Hs%bmap_sorted_NoDup. induction m as [|[x w] m IH]; cbn; [set_solver|].
  cbn in Hs. apply NoDup_cons in Hs as [Hx Hs].
  rewrite elem_of_cons. intros [[= -> ->]|Hin].
  - by assert (kcmp x x = Eq) as -> by by apply kcmp_eq.
  - destruct (kcmp k x) eqn:E; [|by apply IH..].
    apply kcmp_eq in E as ->. destruct Hx. apply list_elem_of_fmap. by exists (x, v).
Qed.

Lemma bmap_get_None k m : bmap_get k m = None ↔ k ∉ m.*1.
Proof.
  induction m as [|[x w] m IH]; cbn; [set_solver|].
  rewrite not_elem_of_cons, <- IH. destruct (kcmp k x) eqn:E.
  - apply kcmp_eq in E. naive_solver.
  - split; [|naive_solver]. intros. split; [|done]. intros ->.
    by eapply klt_irrefl.
  - split; [|naive_solver]. intros. split; [|done]. intros ->.
    assert (kcmp x x = Eq) by by apply kcmp_eq. congruence.
Qed.

Lemma bmap_get_remove k m k' : bmap_sorted m →
  bmap_get k' (bmap_remove k m) = if bool_decide (kcmp k' k = Eq) then None else bmap_get k' m.
Proof.
  unfold bmap_sorted. induction m as [|[x w] m IH]; cbn; intros Hs; [by case_bool_decide|].
  inversion Hs as [|? ? Hm Hx]; subst. specialize (IH Hm).
  destruct (kcmp k x) eqn:E; cbn.
  - apply kcmp_eq in E as ->. case_bool_decide as E'; [|by destruct (kcmp k' x)].
    apply kcmp_eq in E' as ->. apply bmap_get_None. intros Hin.
    rewrite Forall_forall in Hx. by eapply klt_irrefl, Hx.
  - rewrite IH. case_bool_decide as E'; [|done]. apply kcmp_eq in E' as ->. by rewrite E.
  - rewrite IH. case_bool_decide as E'; [|done]. apply kcmp_eq in E' as ->. by rewrite E.
Qed.

Lemma bmap_remove_sorted k m : bmap_sorted m → bmap_sorted (bmap_remove k m).
Proof.
  unfold bmap_sorted. induction m as [|[x w] m IH]; [done|]. cbn. inversion 1 as [|? ? Hs Hx]; subst.
  destruct (kcmp k x); [done|..]; cbn; (constructor; [by apply IH|]); apply Forall_forall;
    intros y Hy; rewrite Forall_forall in Hx; apply Hx; revert Hy; clear;
    (induction m as [|[z v] m IH]; [done|]); cbn;
    (destruct (kcmp k z); cbn; [intros; by right|..]; (intros [->|?]%elem_of_cons; [left|right; auto])).
Qed.
End btree.

(** ** Prefix-free encodings

    [PrefixFree P R enc] says that, on values satisfying [P], the encoder can
    be read back from the front of a byte stream up to the equivalence [R]:
    the encoded values agree and the rests of the two streams agree. *)
Class PrefixFree {A} (P : A → Prop) (R : A → A → Prop) (enc : A → list Z) :=
  prefix_free a b r s : P a → P b → enc a ++ r = enc b ++ s → R a b ∧ r = s.

Section prefix_free.
Lemma pf_fixed n {A} (enc : A → list Z) (P : A → Prop) (R : A → A → Prop) :
  (∀ a, P a → length (enc a) = n) →
  (∀ a b, P a → P b → enc a = enc b → R a b) → PrefixFree P R enc.
Proof.
  intros Hn HR a b r s Ha Hb H.
  apply app_inj_1 in H as [He Hr]; [|by rewrite !Hn]. auto.
Qed.

Lemma pf_le n :
  PrefixFree (λ x, 0 ≤ x < 256 ^ Z.of_nat n)%Z (=) (le_bytes n).
Proof.
  apply (pf_fixed n); [intros; apply length_le_bytes|]. intros. by eapply le_bytes_inj.
Qed.

Lemma pf_u32 : PrefixFree is_u32 (=) (le_bytes 4).
Proof.
  intros a b r s Ha Hb. apply pf_le; cbn; ulia.
Qed.

Lemma pf_u64 : PrefixFree is_u64 (=) (le_bytes 8).
Proof.
  intros a b r s Ha Hb. apply pf_le; cbn; ulia.
Qed.

Lemma pf_tag : PrefixFree (λ _, True) (=) (λ t : Z, [t]).
Proof. intros a b r s _ _ [= -> ->]. done. Qed.

Lemma pf_app {A} (P : A → Prop) R1 R2 e1 e2 :
  PrefixFree P R1 e1 → PrefixFree P R2 e2 →
  PrefixFree P (λ a b, R1 a b ∧ R2 a b) (λ a, e1 a ++ e2 a).
Proof.
  intros H1 H2 a b r s Ha Hb H. rewrite <- !app_assoc in H.
  apply H1 in H as [? H]; [|done..]. apply H2 in H as [? ->]; [|done..]. done.
Qed.

(** Encoding a field of a larger value. *)
Lemma pf_on {A B} (f : A → B) (Q : A → Prop) P R enc :
  PrefixFree P R enc → (∀ a, Q a → P (f a)) →
  PrefixFree Q (λ a b, R (f a) (f b)) (λ a, enc (f a)).
Proof. intros H HQ a b r s Ha Hb. apply H; auto. Qed.

Lemma pf_mono {A} (P Q : A → Prop) (R S : A → A → Prop) enc :
  PrefixFree P R enc → (∀ a, Q a → P a) →
  (∀ a b, Q a → Q b → R a b → S a b) → PrefixFree Q S enc.
Proof.
  intros H HQ HS a b r s Ha Hb He. apply H in He as [? ->]; auto.
Qed.

Lemma pf_concat {A} (P : A → Prop) R enc :
  PrefixFree P R enc → ∀ n,
  PrefixFree (λ l, length l = n ∧ Forall P l) (Forall2 R) (λ l, concat (enc <$> l)).
Proof.
  intros H n. induction n as [|n IH]; intros [|a l] [|b k] r s [Hl Ha] [Hk Hb];
    try done; cbn.
  rewrite <- !app_assoc. intros He. inversion Ha; inversion Hb; subst.
  apply H in He as [? He]; [|done..].
  apply IH in He as [? ->]; [|split; [cbn in *; lia|done]..]. by split; [constructor|].
Qed.

(** A length-prefixed sequence. *)
Lemma pf_counted {A} (P : A → Prop) R enc :
  PrefixFree P R enc →
  PrefixFree (λ l, is_u64 (Z.of_nat (length l)) ∧ Forall P l) (Forall2 R)
    (λ l, le_bytes 8 (Z.of_nat (length l)) ++ concat (enc <$> l)).
Proof.
  intros H l k r s [Hl Ha] [Hk Hb]. rewrite <- !app_assoc. intros He.
  apply pf_u64 in He as [Hn He]; [|done..]. apply Nat2Z.inj in Hn.
  eapply (pf_concat _ _ _ H (length l)) in He; [done|split; auto..].
Qed.

Lemma pf_self {A} (P : A → Prop) (R : A → A → Prop) enc a b :
  PrefixFree P R enc → P a → P b → enc a = enc b → R a b.
Proof.
  intros H Ha Hb He. by apply (H a b [] []); rewrite ?app_nil_r.
Qed.
End prefix_free.

(** ** Positions in a concatenation of blocks *)

Definition block_offset {A} (bs : list (list A)) (m : nat) : nat := length (concat (take m bs)).

Lemma block_offset_S {A} (bs : list (list A)) m b : bs !! m = Some b →
  block_offset bs (S m) = block_offset bs m + length b.
Proof.
  intros Hm. unfold block_offset. rewrite (take_S_r _ _ _ Hm), concat_app, length_app. cbn. by rewrite app_nil_r.
Qed.

Lemma block_offset_mono {A} (bs : list (list A)) m m' : m ≤ m' → block_offset bs m ≤ block_offset bs m'.
Proof.
  intros Hm. induction Hm as [|m' Hm IH]; [done|]. destruct (bs !! m') as [b|] eqn:Hb.
  - rewrite (block_offset_S bs m' b Hb). lia.
  - apply lookup_ge_None in Hb. unfold block_offset in *.
    rewrite (take_ge bs m') in IH by lia. by rewrite (take_ge bs (S m')) by lia.
Qed.

Lemma block_lookup {A} (bs : list (list A)) m b k : bs !! m = Some b → k < length b →
  concat bs !! (block_offset bs m + k) = b !! k.
Proof.
  intros Hm Hk. assert (concat bs = concat (take m bs) ++ b ++ concat (drop (S m) bs)) as ->.
  { rewrite <- (take_drop_middle bs m b Hm) at 1. by rewrite concat_app. }
  unfold block_offset. rewrite lookup_app_r by lia.
  replace (length (concat (take m bs)) + k - length (concat (take m bs))) with k by lia.
  by apply lookup_app_l.
Qed.

Lemma bind_seq_lookup {A} (f : nat → list A) n T t i : (∀ t, length (f t) = n) → t < T → i < n →
  (t ← seq 0 T; f t) !! (t * n + i) = f t !! i.
Proof.
  intros Hlen. assert (∀ a k, t < k → i < n → (t ← seq a k; f t) !! (t * n + i) = f (a + t) !! i) as H.
  { revert t. intros t a k. revert t a. induction k as [|k IH]; intros t a Ht Hi; [lia|]. cbn.
    destruct t as [|t].
    - rewrite lookup_app_l by (rewrite Hlen; lia). by rewrite Nat.add_0_r.
    - rewrite lookup_app_r by (rewrite Hlen; nia). rewrite Hlen.
      replace (S t * n + i - n) with (t * n + i) by nia. rewrite IH by lia. by replace (S a + t) with (a + S t) by lia. }
  intros Ht Hi. by apply (H 0).
Qed.

Lemma concat_singletons {A B} (f : A → B) l : concat ((λ x, [f x]) <$> l) = f <$> l.
Proof. induction l as [|x l IH]; [done|]. cbn. by rewrite IH. Qed.

Lemma omap_unique {A B} (f : A → option B) l i j x y v : NoDup (omap f l) →
  l !! i = Some x → l !! j = Some y → f x = Some v → f y = Some v → i = j.
Proof.
  revert i j. induction l as [|z l IH]; intros i j Hnd Hi Hj Hx Hy; [done|]. cbn in Hnd.
  assert (∀ k w, l !! k = Some w → f w = Some v → v ∈ omap f l) as Hin.
  { intros k w Hk Hw. apply list_elem_of_omap. exists w. split; [by eapply list_elem_of_lookup_2|done]. }
  destruct i as [|i], j as [|j]; cbn in Hi, Hj; [done| | |].
  - injection Hi as ->. rewrite Hx in Hnd. apply NoDup_cons in Hnd as [Hn _]. by destruct Hn; eapply Hin.
  - injection Hj as ->. rewrite Hy in Hnd. apply NoDup_cons in Hnd as [Hn _]. by destruct Hn; eapply Hin.
  - f_equal. apply IH; [|done..]. destruct (f z); [by apply NoDup_cons in Hnd as [_ ?]|done].
Qed.

(** ** Automation of the development *)

Create HintDb hipfire.
#[export] Hint Resolve elem_of_bset_insert bset_insert_sorted bset_sorted_NoDup
  bmap_insert_sorted bmap_get_insert_eq length_le_bytes le_bytes_u8 : hipfire.

(** Invert every monadic equation [m = Ok _] in the context into the results
    of its sub-computations. *)
Ltac inv_ok_step :=
  match goal with
  | H : Ok _ = Ok _ |- _ => injection H as H; subst
  | H : Err _ = Ok _ |- _ => discriminate H
  | H : Panic = Ok _ |- _ => discriminate H
  | H : mret _ = Ok _ |- _ => injection H as H; subst
  | H : _ ≫= _ = Ok _ |- _ =>
    let x := fresh "x" in let Hx := fresh "Hx" in
    apply bind_Ok in H as (x & Hx & H)
  | H : err_if _ _ = Ok _ |- _ => apply err_if_Ok in H
  | H : assert _ = Ok _ |- _ => apply assert_Ok in H
  | H : index _ _ = Ok _ |- _ => apply index_Ok in H
  | H : ok_or _ _ = Ok _ |- _ => apply ok_or_Ok in H
  | H : expect _ = Ok _ |- _ => apply expect_Ok in H
  | H : store _ _ _ = Ok _ |- _ => apply store_Ok in H as [? ->]
  end.
Ltac inv_ok := repeat inv_ok_step.

(** Turn boolean tests on [Z] and [nat] into propositions. *)
Ltac to_prop :=
  repeat match goal with
  | H : _ && _ = true |- _ => apply andb_true_iff in H as [? ?]
  | H : _ || _ = false |- _ => apply orb_false_iff in H as [? ?]
  | H : negb _ = true |- _ => apply negb_true_iff in H
  | H : negb _ = false |- _ => apply negb_false_iff in H
  | H : (_ =? _)%Z = true |- _ => apply Z.eqb_eq in H
  | H : (_ =? _)%Z = false |- _ => apply Z.eqb_neq in H
  | H : (_ <? _)%Z = true |- _ => apply Z.ltb_lt in H
  | H : (_ <? _)%Z = false |- _ => apply Z.ltb_ge in H
  | H : (_ <=? _)%Z = true |- _ => apply Z.leb_le in H
  | H : (_ <=? _)%Z = false |- _ => apply Z.leb_gt in H
  | H : bool_decide _ = true |- _ => apply bool_decide_eq_true in H
  | H : bool_decide _ = false |- _ => apply bool_decide_eq_false in H
  end.

Lemma filter_ext_in {A} (P Q : A → Prop) `{!∀ x, Decision (P x)} `{!∀ x, Decision (Q x)} (l : list A) : (∀ x, x ∈ l → P x ↔ Q x) → filter P l = filter Q l.
Proof.
  intros Hl. induction l as [|x l IH]; [done|]. rewrite !filter_cons, IH by (intros y Hy; apply Hl; by right). pose proof (Hl x ltac:(left)).
  destruct (decide (P x)), (decide (Q x)); tauto.
Qed.

Lemma filter_none {A} (P : A → Prop) `{!∀ x, Decision (P x)} (l : list A) : (∀ x, x ∈ l → ¬ P x) → filter P l = [].
Proof. induction l as [|x l IH]; intros HP; [done|]. rewrite filter_cons_False by (apply HP; left). apply IH. intros; apply HP. by right. Qed.
