(* ===== verification/Utf8.v ===== *)
(** Characters and UTF-8.

    A Rust [char] is its scalar value, a [String] or [str] the list of its characters; the
    bytes of a string are [utf8]. [utf8_char] is how [core::str] validates one sequence,
    [from_utf8_lossy] the conversion that replaces every maximal invalid sequence by
    U+FFFD. Proved here: decoding inverts encoding, and what single bytes of an encoded
    string say about its characters, which code that scans bytes relies on. *)

From S2P Require Import Prelude.

Definition within (lo hi x : Z) : bool := (lo <=? x)%Z && (x <=? hi)%Z.
Definition continuation_byte (x : Z) : bool := within 0x80 0xBF x.

(** The length of the UTF-8 sequence at the front, as [core::str] validates it. *)
Definition utf8_char (l : list Z) : option nat :=
  match l with
  | [] => None
  | a :: l =>
      if within 0 0x7F a then Some 1
      else if within 0xC2 0xDF a then
        match l with b :: _ => if continuation_byte b then Some 2 else None | _ => None end
      else if within 0xE0 0xEF a then
        match l with
        | b :: c :: _ =>
            if ((within 0xE0 0xE0 a && within 0xA0 0xBF b) || (within 0xE1 0xEC a && continuation_byte b) ||
                (within 0xED 0xED a && within 0x80 0x9F b) || (within 0xEE 0xEF a && continuation_byte b)) && continuation_byte c
            then Some 3 else None
        | _ => None
        end
      else if within 0xF0 0xF4 a then
        match l with
        | b :: c :: d :: _ =>
            if ((within 0xF0 0xF0 a && within 0x90 0xBF b) || (within 0xF1 0xF3 a && continuation_byte b) ||
                (within 0xF4 0xF4 a && within 0x80 0x8F b)) && continuation_byte c && continuation_byte d
            then Some 4 else None
        | _ => None
        end
      else None
  end.

(** A Unicode scalar value. *)
Definition is_char (c : Z) : Prop := (0 ≤ c < 0xD800)%Z ∨ (0xE000 ≤ c < 0x110000)%Z.
#[export] Instance is_char_dec c : Decision (is_char c).
Proof. unfold is_char. apply _. Defined.

(** [char::encode_utf8] *)
Definition encode_utf8 (c : Z) : list Z :=
  if (c <? 0x80)%Z then [c]
  else if (c <? 0x800)%Z then [0xC0 + c / 64; 0x80 + c `mod` 64]%Z
  else if (c <? 0x10000)%Z then [0xE0 + c / 4096; 0x80 + (c / 64) `mod` 64; 0x80 + c `mod` 64]%Z
  else [0xF0 + c / 262144; 0x80 + (c / 4096) `mod` 64; 0x80 + (c / 64) `mod` 64; 0x80 + c `mod` 64]%Z.

(** [str::as_bytes] and [str::len] *)
Definition utf8 (s : list Z) : list Z := concat (encode_utf8 <$> s).
Definition str_len (s : list Z) : nat := length (utf8 s).

(** The scalar value of a validated sequence. *)
Definition scalar_value (l : list Z) : Z :=
  match l with
  | [a] => a
  | [a; b] => (a - 0xC0) * 64 + (b - 0x80)
  | [a; b; c] => (a - 0xE0) * 4096 + (b - 0x80) * 64 + (c - 0x80)
  | [a; b; c; d] => (a - 0xF0) * 262144 + (b - 0x80) * 4096 + (c - 0x80) * 64 + (d - 0x80)
  | _ => 0
  end%Z.

Definition REPLACEMENT : Z := 0xFFFD.

(** How many bytes at the front are an invalid sequence: those that a valid one could have
    started with, and at least one. *)
Definition invalid_len (l : list Z) : nat :=
  match l with
  | a :: b :: l =>
      if (within 0xE0 0xE0 a && within 0xA0 0xBF b) || (within 0xE1 0xEC a && continuation_byte b) || (within 0xED 0xED a && within 0x80 0x9F b) || (within 0xEE 0xEF a && continuation_byte b) then 2
      else if (within 0xF0 0xF0 a && within 0x90 0xBF b) || (within 0xF1 0xF3 a && continuation_byte b) || (within 0xF4 0xF4 a && within 0x80 0x8F b) then
        match l with c :: _ => if continuation_byte c then 3 else 2 | [] => 2 end
      else 1
  | _ => 1
  end.

(** [String::from_utf8_lossy] *)
Fixpoint lossy (fuel : nat) (l : list Z) : list Z :=
  match fuel, l with
  | 0, _ | _, [] => []
  | S fuel, _ =>
      match utf8_char l with
      | Some n => scalar_value (take n l) :: lossy fuel (drop n l)
      | None => REPLACEMENT :: lossy fuel (drop (invalid_len l) l)
      end
  end.
Definition from_utf8_lossy (l : list Z) : list Z := lossy (length l) l.

(** [String::from_utf8] *)
Fixpoint strict (fuel : nat) (l : list Z) : option (list Z) :=
  match fuel, l with
  | _, [] => Some []
  | 0, _ => None
  | S fuel, _ => n ← utf8_char l; cs ← strict fuel (drop n l); Some (scalar_value (take n l) :: cs)
  end.
Definition from_utf8 (l : list Z) : option (list Z) := strict (length l) l.

(** ** Encoding one character *)

Ltac within_lia := unfold continuation_byte, within; repeat match goal with |- context [(?a <=? ?b)%Z] => destruct (Z.leb_spec a b); try lia; cbn [andb orb] end; first [done | exfalso; lia].

(** The four shapes of an encoded character. *)
Lemma encode_cases c : is_char c →
  (0 ≤ c < 0x80 ∧ encode_utf8 c = [c])%Z ∨
  (∃ a b, encode_utf8 c = [a; b] ∧ 0xC2 ≤ a ≤ 0xDF ∧ 0x80 ≤ b ≤ 0xBF ∧ c = (a - 0xC0) * 64 + (b - 0x80))%Z ∨
  (∃ a b d, encode_utf8 c = [a; b; d] ∧ 0xE0 ≤ a ≤ 0xEF ∧ 0x80 ≤ b ≤ 0xBF ∧ 0x80 ≤ d ≤ 0xBF ∧ c = (a - 0xE0) * 4096 + (b - 0x80) * 64 + (d - 0x80) ∧
     (a = 0xE0 → 0xA0 ≤ b) ∧ (a = 0xED → b ≤ 0x9F))%Z ∨
  (∃ a b d e, encode_utf8 c = [a; b; d; e] ∧ 0xF0 ≤ a ≤ 0xF4 ∧ 0x80 ≤ b ≤ 0xBF ∧ 0x80 ≤ d ≤ 0xBF ∧ 0x80 ≤ e ≤ 0xBF ∧
     c = (a - 0xF0) * 262144 + (b - 0x80) * 4096 + (d - 0x80) * 64 + (e - 0x80) ∧ (a = 0xF0 → 0x90 ≤ b) ∧ (a = 0xF4 → b ≤ 0x8F))%Z.
Proof.
  unfold is_char, encode_utf8. intros Hc. destruct (Z.ltb_spec c 0x80); [left; split; [lia|done]|]. right. pose proof (Z.mod_pos_bound c 64 ltac:(lia)). pose proof (Z.div_mod c 64 ltac:(lia)).
  destruct (Z.ltb_spec c 0x800); [left; eexists _, _; split; [done|]; lia|]. right. pose proof (Z.mod_pos_bound (c / 64) 64 ltac:(lia)). pose proof (Z.div_mod (c / 64) 64 ltac:(lia)). assert (c / 4096 = c / 64 / 64)%Z as Hq by (rewrite Z.div_div by lia; done).
  destruct (Z.ltb_spec c 0x10000); [left; eexists _, _, _; split; [done|]; rewrite Hq; lia|]. right. pose proof (Z.mod_pos_bound (c / 4096) 64 ltac:(lia)). pose proof (Z.div_mod (c / 4096) 64 ltac:(lia)). assert (c / 262144 = c / 4096 / 64)%Z as Hq' by (rewrite Z.div_div by lia; done).
  eexists _, _, _, _; split; [done|]. rewrite Hq'. lia.
Qed.

Lemma encode_utf8_decodes c rest : is_char c → utf8_char (encode_utf8 c ++ rest) = Some (length (encode_utf8 c)) ∧ scalar_value (encode_utf8 c) = c.
Proof.
  intros Hc. destruct (encode_cases c Hc) as [(? & ->)|[(a & b & -> & ? & ? & ->)|[(a & b & d & -> & ? & ? & ? & -> & H1 & H2)|(a & b & d & e & -> & ? & ? & ? & ? & -> & H1 & H2)]]]; (split; [|done]); cbn -[Z.leb]; within_lia.
Qed.

(** ** Encoding a string *)

Lemma utf8_cons c s : utf8 (c :: s) = encode_utf8 c ++ utf8 s.
Proof. done. Qed.
Lemma utf8_app s t : utf8 (s ++ t) = utf8 s ++ utf8 t.
Proof. unfold utf8. by rewrite fmap_app, concat_app. Qed.

Lemma encode_nonempty c : 1 ≤ length (encode_utf8 c).
Proof. unfold encode_utf8. repeat case_match; cbn; lia. Qed.

Lemma utf8_length s : length s ≤ length (utf8 s).
Proof. induction s as [|c s IH]; [done|]. rewrite utf8_cons, length_app. pose proof (encode_nonempty c). cbn. lia. Qed.

Lemma utf8_bytes s : Forall is_char s → Forall is_u8 (utf8 s).
Proof.
  induction 1 as [|c s Hc _ IH]; [constructor|]. rewrite utf8_cons. apply Forall_app. split; [|done].
  destruct (encode_cases c Hc) as [(? & ->)|[(a & b & -> & ? & ? & _)|[(a & b & d & -> & ? & ? & ? & _)|(a & b & d & e & -> & ? & ? & ? & ? & _)]]]; repeat constructor; ulia.
Qed.

Lemma utf8_char_cons c s : is_char c → utf8_char (utf8 (c :: s)) = Some (length (encode_utf8 c)) ∧ scalar_value (take (length (encode_utf8 c)) (utf8 (c :: s))) = c ∧ drop (length (encode_utf8 c)) (utf8 (c :: s)) = utf8 s.
Proof. intros Hc. destruct (encode_utf8_decodes c (utf8 s) Hc) as [Hl Hv]. rewrite utf8_cons, take_app_length, drop_app_length. done. Qed.

Lemma lossy_utf8 s : Forall is_char s → ∀ fuel, length s ≤ fuel → lossy fuel (utf8 s) = s.
Proof.
  induction 1 as [|c s Hc _ IH]; intros fuel Hf; [by destruct fuel|]. destruct fuel as [|fuel]; [cbn in Hf; lia|]. destruct (utf8_char_cons c s Hc) as (Hl & Hv & Hd). cbn [lossy].
  destruct (utf8 (c :: s)) as [|x l] eqn:Hu; [done|]. rewrite Hl, Hv, Hd, IH by (cbn in Hf; lia). done.
Qed.

Lemma from_utf8_lossy_utf8 s : Forall is_char s → from_utf8_lossy (utf8 s) = s.
Proof. intros Hs. apply lossy_utf8; [done|]. apply utf8_length. Qed.

Lemma strict_utf8 s : Forall is_char s → ∀ fuel, length s ≤ fuel → strict fuel (utf8 s) = Some s.
Proof.
  induction 1 as [|c s Hc _ IH]; intros fuel Hf; [by destruct fuel|]. destruct fuel as [|fuel]; [cbn in Hf; lia|]. destruct (utf8_char_cons c s Hc) as (Hl & Hv & Hd). cbn [strict].
  destruct (utf8 (c :: s)) as [|x l] eqn:Hu; [done|]. rewrite Hl. cbn. rewrite Hd, IH, Hv by (cbn in Hf; lia). done.
Qed.

Lemma from_utf8_utf8 s : Forall is_char s → from_utf8 (utf8 s) = Some s.
Proof. intros Hs. apply strict_utf8; [done|]. apply utf8_length. Qed.

Lemma utf8_inj s t : Forall is_char s → Forall is_char t → utf8 s = utf8 t → s = t.
Proof. intros Hs Ht H. by rewrite <- (from_utf8_lossy_utf8 s Hs), H, (from_utf8_lossy_utf8 t Ht). Qed.

(** ** Validated sequences are encoded characters *)

Lemma within_true lo hi x : within lo hi x = true ↔ (lo ≤ x ≤ hi)%Z.
Proof. unfold within. rewrite andb_true_iff, !Z.leb_le. done. Qed.

Lemma utf8_char_sound l n : utf8_char l = Some n → is_char (scalar_value (take n l)) ∧ encode_utf8 (scalar_value (take n l)) = take n l ∧ n ≤ length l.
Proof.
  assert (∀ a b, (0x80 ≤ b ≤ 0xBF → (a * 64 + (b - 0x80)) / 64 = a ∧ (a * 64 + (b - 0x80)) `mod` 64 = b - 0x80)%Z) as Hdm.
  { intros a b Hb. split; [rewrite Z.add_comm, Z.div_add, Z.div_small by lia; lia|rewrite Z.add_comm, Z_mod_plus_full, Z.mod_small by lia; done]. }
  unfold utf8_char. destruct l as [|a l]; [done|]. destruct (within 0 0x7F a) eqn:Ha; [|destruct (within 0xC2 0xDF a) eqn:Ha2; [|destruct (within 0xE0 0xEF a) eqn:Ha3; [|destruct (within 0xF0 0xF4 a) eqn:Ha4; [|done]]]].
  - intros [= <-]. apply within_true in Ha. cbn [take]; rewrite take_0; cbn [scalar_value length]. unfold is_char, encode_utf8. rewrite (proj2 (Z.ltb_lt _ 0x80)) by lia. split_and!; [lia|done|lia].
  - destruct l as [|b l]; [done|]. destruct (continuation_byte b) eqn:Hb; [|done]. intros [= <-]. apply within_true in Ha2, Hb. cbn [take]; rewrite take_0; cbn [scalar_value length]. destruct (Hdm (a - 0xC0)%Z b Hb) as [Hd Hm]. unfold is_char, encode_utf8.
    rewrite (proj2 (Z.ltb_ge _ 0x80)), (proj2 (Z.ltb_lt _ 0x800)), Hd, Hm by lia. split_and!; [lia|do 2 f_equal; lia|lia].
  - destruct l as [|b [|c l]]; [done..|]. destruct (_ && continuation_byte c) eqn:Hbc; [|done]. intros [= <-]. apply andb_true_iff in Hbc as [Hb Hc]. apply within_true in Ha3, Hc. rewrite !orb_true_iff, !andb_true_iff in Hb. unfold continuation_byte in Hb. rewrite !within_true in Hb. cbn [take]; rewrite take_0; cbn [scalar_value length].
    replace ((a - 0xE0) * 4096 + (b - 0x80) * 64 + (c - 0x80))%Z with (((a - 0xE0) * 64 + (b - 0x80)) * 64 + (c - 0x80))%Z by lia. destruct (Hdm ((a - 0xE0) * 64 + (b - 0x80))%Z c Hc) as [Hd Hm]. destruct (Hdm (a - 0xE0)%Z b ltac:(lia)) as [Hd' Hm']. unfold is_char, encode_utf8.
    rewrite (proj2 (Z.ltb_ge _ 0x80)), (proj2 (Z.ltb_ge _ 0x800)), (proj2 (Z.ltb_lt _ 0x10000)) by lia. change 4096%Z with (64 * 64)%Z. rewrite <- Z.div_div, Hd, Hm, Hd', Hm' by lia. split_and!; [lia|repeat f_equal; lia|lia].
  - destruct l as [|b [|c [|d l]]]; [done..|]. destruct (_ && continuation_byte c && continuation_byte d) eqn:Hbc; [|done]. intros [= <-]. apply andb_true_iff in Hbc as [Hbc Hd0]. apply andb_true_iff in Hbc as [Hb Hc]. apply within_true in Ha4, Hc, Hd0. rewrite !orb_true_iff, !andb_true_iff in Hb. unfold continuation_byte in Hb. rewrite !within_true in Hb. cbn [take]; rewrite take_0; cbn [scalar_value length].
    replace ((a - 0xF0) * 262144 + (b - 0x80) * 4096 + (c - 0x80) * 64 + (d - 0x80))%Z with ((((a - 0xF0) * 64 + (b - 0x80)) * 64 + (c - 0x80)) * 64 + (d - 0x80))%Z by lia.
    destruct (Hdm (((a - 0xF0) * 64 + (b - 0x80)) * 64 + (c - 0x80))%Z d Hd0) as [Hd Hm]. destruct (Hdm ((a - 0xF0) * 64 + (b - 0x80))%Z c Hc) as [Hd' Hm']. destruct (Hdm (a - 0xF0)%Z b ltac:(lia)) as [Hd'' Hm'']. unfold is_char, encode_utf8.
    rewrite (proj2 (Z.ltb_ge _ 0x80)), (proj2 (Z.ltb_ge _ 0x800)), (proj2 (Z.ltb_ge _ 0x10000)) by lia. change 262144%Z with (64 * 64 * 64)%Z. change 4096%Z with (64 * 64)%Z. rewrite <- !Z.div_div, Hd, Hm, Hd', Hm', Hd'', Hm'' by lia. split_and!; [lia|repeat f_equal; lia|lia].
Qed.

Lemma from_utf8_sound l s : from_utf8 l = Some s → l = utf8 s ∧ Forall is_char s.
Proof.
  unfold from_utf8. generalize (length l) as fuel. intros fuel. revert l s. induction fuel as [|fuel IH]; intros l s Hs; cbn [strict] in Hs.
  - destruct l; [|done]. simplify_eq. split; [done|constructor].
  - destruct l as [|a l]; [simplify_eq; split; [done|constructor]|]. destruct (utf8_char (a :: l)) as [n|] eqn:Hn; [|done]. cbn [mbind option_bind] in Hs. destruct (strict fuel (drop n (a :: l))) as [cs|] eqn:Hcs; [|done]. cbn in Hs. simplify_eq.
    destruct (utf8_char_sound _ _ Hn) as (Hc & He & _). destruct (IH _ _ Hcs) as [Hu Hf]. rewrite utf8_cons, He, <- Hu, take_drop. split; [done|by constructor].
Qed.
