(* ===== verification/Ir.v ===== *)
(** Backend-neutral data of the Redline recorder
    (src/crates/redline-dispatch/src/ir.rs and the error type of recorder.rs):
    node and resource identities, byte regions of device allocations, declared
    memory accesses, launch dimensions and kernel arguments.

    An index of the source ([u32], used only to index vectors) is a [nat]; the
    guard that keeps it within [u32] is written out where the code has it.
    Byte offsets, lengths and owners are [Z]. *)

From S2P Require Import Prelude.

(** ** Identities *)

Record NodeId := mkNodeId { node_owner : Z; node_index : nat }.
Record ResourceId := mkResourceId { resource_owner : Z; resource_index : nat }.
(** Identifier of a scalar value patched at replay time. *)
Record ScalarSlotId := mkScalarSlotId { slot_index : Z }.

#[export] Instance NodeId_eq_dec : EqDecision NodeId.
Proof. solve_decision. Defined.
#[export] Instance ResourceId_eq_dec : EqDecision ResourceId.
Proof. solve_decision. Defined.
#[export] Instance ScalarSlotId_eq_dec : EqDecision ScalarSlotId.
Proof. solve_decision. Defined.

(** The derived [Ord] compares the owner first, then the index. *)
#[export] Program Instance NodeId_key : OrdKey NodeId :=
  key_via (λ n, (node_owner n, node_index n)) _.
Next Obligation. by intros [??] [??] [= -> ->]. Qed.
#[export] Program Instance ResourceId_key : OrdKey ResourceId :=
  key_via (λ n, (resource_owner n, resource_index n)) _.
Next Obligation. by intros [??] [??] [= -> ->]. Qed.
#[export] Program Instance ScalarSlotId_key : OrdKey ScalarSlotId :=
  key_via slot_index _.
Next Obligation. by intros [?] [?] [= ->]. Qed.

(** ** Errors of the recording interface *)

Inductive RecordError : Type :=
| EmptyKernelKey
| ZeroLaunchDimension (x y z : Z)
| EmptyResourceLabel
| EmptyResource
| EmptyRegion
| EmptyScalarSlot (slot : ScalarSlotId)
| RegionAddressOverflow (offset len : Z)
| RegionOutOfBounds (resource : ResourceId) (offset len size : Z)
| ResourceArgumentOutOfBounds (resource : ResourceId) (offset size : Z)
| UndeclaredResourceArgument (resource : ResourceId) (offset : Z)
| ForeignResource (resource : ResourceId)
| UnknownResource (resource : ResourceId)
| ForeignNode (node : NodeId)
| UnknownNode (node : NodeId)
| DependencyCycle (node prerequisite : NodeId)
| TooManyResources
| TooManyNodes.

(** ** Regions *)

(** A byte range within one logical device allocation. *)
Record DeviceRegion := mkDeviceRegion {
  region_resource : ResourceId;
  region_offset : Z;
  region_len : Z }.

#[export] Instance DeviceRegion_eq_dec : EqDecision DeviceRegion.
Proof. solve_decision. Defined.

(** [DeviceRegion::new] *)
Definition DeviceRegion_new (resource : ResourceId) (offset len : Z)
    : result RecordError DeviceRegion :=
  err_if (len =? 0)%Z EmptyRegion ;;
  ok_or (RegionAddressOverflow offset len) (checked_add U64_MAX offset len) ;;
  Ok (mkDeviceRegion resource offset len).

(** [DeviceRegion::end] *)
Definition region_end (r : DeviceRegion) : Z := (region_offset r + region_len r)%Z.

(** [DeviceRegion::overlaps] *)
Definition overlaps (a b : DeviceRegion) : bool :=
  bool_decide (region_resource a = region_resource b)
  && (region_offset a <? region_end b)%Z
  && (region_offset b <? region_end a)%Z.

(** [DeviceRegion::intersection] *)
Definition intersection (a b : DeviceRegion) : option DeviceRegion :=
  if negb (overlaps a b) then None
  else
    let offset := Z.max (region_offset a) (region_offset b) in
    let stop := Z.min (region_end a) (region_end b) in
    Some (mkDeviceRegion (region_resource a) offset (stop - offset)).

(** ** Accesses *)

Inductive AccessMode := Read | Write.

#[export] Instance AccessMode_eq_dec : EqDecision AccessMode.
Proof. solve_decision. Defined.

(** One declared memory effect of a dispatch. *)
Record Access := mkAccess { access_region : DeviceRegion; access_mode : AccessMode }.

#[export] Instance Access_eq_dec : EqDecision Access.
Proof. solve_decision. Defined.

(** [Access::read], [Access::write] *)
Definition Access_read (r : DeviceRegion) : Access := mkAccess r Read.
Definition Access_write (r : DeviceRegion) : Access := mkAccess r Write.

(** ** Launch dimensions and arguments *)

Record Dim3 := mkDim3 { dim_x : Z; dim_y : Z; dim_z : Z }.

#[export] Instance Dim3_eq_dec : EqDecision Dim3.
Proof. solve_decision. Defined.

(** [Dim3::new] *)
Definition Dim3_new (x y z : Z) : result RecordError Dim3 :=
  err_if ((x =? 0) || (y =? 0) || (z =? 0))%Z (ZeroLaunchDimension x y z) ;;
  Ok (mkDim3 x y z).

(** [Dim3::x] *)
Definition Dim3_x (x : Z) : result RecordError Dim3 := Dim3_new x 1 1.

(** A backend-neutral kernel argument. *)
Inductive KernelArg : Type :=
| Scalar (bytes : list Z)
| ScalarSlot (slot : ScalarSlotId) (size : Z)
| Resource_arg (resource : ResourceId) (byte_offset : Z).

#[export] Instance KernelArg_eq_dec : EqDecision KernelArg.
Proof. solve_decision. Defined.

(** [KernelArg::scalar_slot] *)
Definition KernelArg_scalar_slot (slot : ScalarSlotId) (size : Z)
    : result RecordError KernelArg :=
  err_if (size =? 0)%Z (EmptyScalarSlot slot) ;;
  Ok (ScalarSlot slot size).

(** ** Lemmas *)

(** What [DeviceRegion::new] establishes. *)
Definition region_wf (r : DeviceRegion) : Prop :=
  (0 ≤ region_offset r ∧ 0 < region_len r ∧ region_end r ≤ U64_MAX)%Z.

(** The byte of [resource] at [addr] lies in the region. *)
Definition in_region (r : DeviceRegion) (resource : ResourceId) (addr : Z) : Prop :=
  region_resource r = resource ∧ (region_offset r ≤ addr < region_end r)%Z.

Lemma DeviceRegion_new_wf resource offset len r :
  is_u64 offset → is_u64 len →
  DeviceRegion_new resource offset len = Ok r →
  r = mkDeviceRegion resource offset len ∧ region_wf r.
Proof.
  intros Ho Hl H. unfold DeviceRegion_new in H. inv_ok. to_prop.
  rewrite checked_add_Some in Hx0. split; [done|]. unfold region_wf, region_end; cbn. ulia.
Qed.

Lemma overlaps_spec a b :
  overlaps a b = true ↔
    region_resource a = region_resource b ∧
    (region_offset a < region_end b)%Z ∧ (region_offset b < region_end a)%Z.
Proof.
  unfold overlaps. rewrite !andb_true_iff, bool_decide_eq_true, !Z.ltb_lt. tauto.
Qed.

Lemma overlaps_sym a b : overlaps a b = overlaps b a.
Proof.
  apply eq_true_iff_eq. rewrite !overlaps_spec. naive_solver.
Qed.

Lemma intersection_Some a b r :
  intersection a b = Some r ↔
    overlaps a b = true ∧ r = mkDeviceRegion (region_resource a)
      (Z.max (region_offset a) (region_offset b))
      (Z.min (region_end a) (region_end b) - Z.max (region_offset a) (region_offset b)).
Proof. unfold intersection. destruct (overlaps a b); naive_solver. Qed.

Lemma intersection_None a b : intersection a b = None ↔ overlaps a b = false.
Proof. unfold intersection. destruct (overlaps a b); naive_solver. Qed.

Lemma overlaps_bytes a b :
  region_wf a → region_wf b →
  overlaps a b = true ↔ ∃ res addr, in_region a res addr ∧ in_region b res addr.
Proof.
  intros Ha Hb. rewrite overlaps_spec. unfold in_region, region_wf, region_end in *. split.
  - intros (Hr & H1 & H2).
    exists (region_resource a), (Z.max (region_offset a) (region_offset b)).
    rewrite Hr. split; (split; [done|lia]).
  - intros (res & addr & [<- H1] & [Hr H2]). split; [done|lia].
Qed.

(** The intersection of two device regions is exactly the set of bytes
    both cover: it exists when and only when some byte lies in both, it
    contains a byte iff both regions do, and it is itself a valid non-empty
    region whose end does not overflow. *)
Theorem intersection_exact a b :
  region_wf a → region_wf b →
  match intersection a b with
  | Some r => region_wf r ∧
      ∀ res addr, in_region r res addr ↔ in_region a res addr ∧ in_region b res addr
  | None => ∀ res addr, ¬ (in_region a res addr ∧ in_region b res addr)
  end.
Proof.
  intros Ha Hb. destruct (intersection a b) as [r|] eqn:E.
  - apply intersection_Some in E as [Ho ->]. apply overlaps_spec in Ho as (Hr & H1 & H2).
    unfold in_region, region_wf, region_end in *. cbn. split; [lia|].
    intros res addr. rewrite Hr. split.
    + intros [-> ?]. split; (split; [done|lia]).
    + intros [[-> ?] [? ?]]. split; [done|lia].
  - intros res addr H. apply intersection_None in E.
    assert (overlaps a b = true) as Ht by (apply overlaps_bytes; eauto). congruence.
Qed.

Lemma intersection_exact_witness :
  let a := mkDeviceRegion (mkResourceId 1 0) 0 64 in
  let b := mkDeviceRegion (mkResourceId 1 0) 48 64 in
  match intersection a b with
  | Some r => region_wf r ∧
      ∀ res addr, in_region r res addr ↔ in_region a res addr ∧ in_region b res addr
  | None => False
  end.
Proof.
  intros a b. apply (intersection_exact a b); vm_compute; intuition congruence.
Defined.
