(* ===== verification/Identity.v ===== *)
(** Kernel argument layouts and artifact identities
    (src/crates/redline-dispatch/src/identity.rs).

    SHA-256 comes from the [sha2] crate: it is the parameter [sha256] of the
    definitions that hash, from a byte sequence to its digest bytes. What the
    code itself is responsible for, the byte sequence it hands to the hash, is
    modelled in full ([abi_preimage]) and shown to determine the layout. *)

From S2P Require Import Prelude Ir.

Definition DEVICE_POINTER_BYTES : Z := 8.

(** [Sha256Digest]: 32 bytes. *)
Record Sha256Digest := mkDigest { digest_bytes : list Z }.

#[export] Instance Sha256Digest_eq_dec : EqDecision Sha256Digest.
Proof. solve_decision. Defined.

Inductive KernargAbiError : Type :=
| EmptyField
| InvalidAlignment (alignment : Z)
| InvalidSegmentAlignment (alignment : Z)
| MisalignedField (offset alignment : Z)
| FieldAddressOverflow (offset size : Z)
| FieldExceedsSegmentAlignment (index : nat) (field_alignment segment_alignment : Z)
| FieldOutOfBounds (index : nat) (stop segment_size : Z)
| OverlappingFields (first second : nat)
| ArgumentCount (fields arguments : nat)
| ArgumentSize (index : nat) (expected actual : Z).

(** ** Fields *)

Record KernargField := mkKernargField {
  field_offset : Z; field_size : Z; field_alignment : Z }.

#[export] Instance KernargField_eq_dec : EqDecision KernargField.
Proof. solve_decision. Defined.

(** [KernargField::new] *)
Definition KernargField_new (offset size alignment : Z)
    : result KernargAbiError KernargField :=
  err_if (size =? 0)%Z EmptyField ;;
  err_if ((alignment =? 0)%Z || negb (is_power_of_two alignment))
    (InvalidAlignment alignment) ;;
  err_if (negb (offset `mod` alignment =? 0)%Z) (MisalignedField offset alignment) ;;
  ok_or (FieldAddressOverflow offset size) (checked_add U32_MAX offset size) ;;
  Ok (mkKernargField offset size alignment).

(** [KernargField::end] *)
Definition field_end (f : KernargField) : Z := (field_offset f + field_size f)%Z.

(** The overlap test of [KernargAbi::new]. *)
Definition fields_overlap (field other : KernargField) : bool :=
  ((field_offset field <? field_end other) && (field_offset other <? field_end field))%Z.

(** ** Layouts *)

Record KernargAbi := mkKernargAbi {
  segment_size : Z;
  segment_alignment : Z;
  abi_fields : list KernargField;
  abi_hash : Sha256Digest }.

#[export] Instance KernargAbi_eq_dec : EqDecision KernargAbi.
Proof. solve_decision. Defined.

(** The domain separator, with its terminating zero byte. *)
Definition abi_domain : list Z := str_bytes "redline-kernarg-abi-v1" ++ [0%Z].

Definition field_preimage (f : KernargField) : list Z :=
  le_bytes 4 (field_offset f) ++ le_bytes 4 (field_size f) ++ le_bytes 4 (field_alignment f).

(** The bytes [hash_abi] feeds to the hasher. *)
Definition abi_preimage (segment_size segment_alignment : Z) (fields : list KernargField)
    : list Z :=
  abi_domain ++ le_bytes 4 segment_size ++ le_bytes 4 segment_alignment ++
  le_bytes 8 (Z.of_nat (length fields)) ++ concat (field_preimage <$> fields).

(** One iteration of the validation loop of [KernargAbi::new]. *)
Definition check_field (segment_size segment_alignment : Z) (fields : list KernargField)
    (entry : nat * KernargField) : result KernargAbiError unit :=
  let '(index, field) := entry in
  err_if (segment_alignment <? field_alignment field)%Z
    (FieldExceedsSegmentAlignment index (field_alignment field) segment_alignment) ;;
  err_if (segment_size <? field_end field)%Z
    (FieldOutOfBounds index (field_end field) segment_size) ;;
  for_each (λ '(other_index, other),
      err_if (fields_overlap field other) (OverlappingFields other_index index))
    (take index (enumerate fields)).

Section hashing.
Context (sha256 : list Z → list Z).

(** [Sha256Digest::digest] *)
Definition Sha256Digest_digest (bytes : list Z) : Sha256Digest := mkDigest (sha256 bytes).

(** [hash_abi] *)
Definition hash_abi (segment_size segment_alignment : Z) (fields : list KernargField)
    : Sha256Digest :=
  mkDigest (sha256 (abi_preimage segment_size segment_alignment fields)).

(** [KernargAbi::new] *)
Definition KernargAbi_new (segment_size segment_alignment : Z) (fields : list KernargField)
    : result KernargAbiError KernargAbi :=
  err_if ((segment_alignment =? 0)%Z || negb (is_power_of_two segment_alignment))
    (InvalidSegmentAlignment segment_alignment) ;;
  for_each (check_field segment_size segment_alignment fields) (enumerate fields) ;;
  Ok (mkKernargAbi segment_size segment_alignment fields
        (hash_abi segment_size segment_alignment fields)).
End hashing.

(** The byte size an argument occupies; a scalar longer than [u32::MAX]
    saturates. *)
Definition argument_size (a : KernelArg) : Z :=
  match a with
  | Scalar bytes =>
      if (Z.of_nat (length bytes) <=? U32_MAX)%Z then Z.of_nat (length bytes) else U32_MAX
  | ScalarSlot _ size => size
  | Resource_arg _ _ => DEVICE_POINTER_BYTES
  end.

(** [KernargAbi::validate_arguments] *)
Definition validate_arguments (abi : KernargAbi) (arguments : list KernelArg)
    : result KernargAbiError unit :=
  err_if (negb (bool_decide (length arguments = length (abi_fields abi))))
    (ArgumentCount (length (abi_fields abi)) (length arguments)) ;;
  for_each (λ '(index, (argument, field)),
      err_if (negb (argument_size argument =? field_size field)%Z)
        (ArgumentSize index (field_size field) (argument_size argument)))
    (enumerate (zip arguments (abi_fields abi))).

(** ** Artifacts *)

Record KernelArtifactIdentity := mkArtifact {
  code_object : Sha256Digest;
  symbol_text : Sha256Digest;
  generation : Z }.

#[export] Instance KernelArtifactIdentity_eq_dec : EqDecision KernelArtifactIdentity.
Proof. solve_decision. Defined.

(** [KernelArtifactIdentity::from_bytes] *)
Definition KernelArtifactIdentity_from_bytes (sha256 : list Z → list Z)
    (code_object symbol_text : list Z) (generation : Z) : KernelArtifactIdentity :=
  mkArtifact (Sha256Digest_digest sha256 code_object)
    (Sha256Digest_digest sha256 symbol_text) generation.

Inductive ArtifactCatalogError := EmptyKernel.

Record ArtifactCatalog := mkCatalog {
  catalog_entries : list (string * KernelArtifactIdentity) }.

(** [ArtifactCatalog::new] *)
Definition ArtifactCatalog_new : ArtifactCatalog := mkCatalog [].

(** [ArtifactCatalog::insert] *)
Definition ArtifactCatalog_insert (c : ArtifactCatalog) (kernel : string)
    (identity : KernelArtifactIdentity) : result ArtifactCatalogError ArtifactCatalog :=
  err_if (trim_is_empty kernel) EmptyKernel ;;
  Ok (mkCatalog (bmap_insert kernel identity (catalog_entries c))).

(** [ArtifactCatalog::get] *)
Definition ArtifactCatalog_get (c : ArtifactCatalog) (kernel : string)
    : option KernelArtifactIdentity :=
  bmap_get kernel (catalog_entries c).

(** ** Lemmas *)

(** What [KernargField::new] establishes. *)
Definition field_wf (f : KernargField) : Prop :=
  (0 ≤ field_offset f ∧ 0 < field_size f ∧ field_end f ≤ U32_MAX ∧
   is_power_of_two (field_alignment f) = true ∧
   is_u32 (field_alignment f) ∧
   field_offset f `mod` field_alignment f = 0)%Z.

Lemma is_power_of_two_pos x : is_power_of_two x = true → (0 < x)%Z.
Proof. unfold is_power_of_two. intros. to_prop. lia. Qed.

Lemma KernargField_new_Ok offset size alignment f :
  is_u32 offset → is_u32 size → is_u32 alignment →
  KernargField_new offset size alignment = Ok f ↔
    f = mkKernargField offset size alignment ∧ field_wf f.
Proof.
  intros Ho Hs Ha. unfold KernargField_new, field_wf, field_end. split.
  - intros H. inv_ok. to_prop. rewrite checked_add_Some in Hx2. cbn.
    split; [done|]. repeat split; try done; ulia.
  - intros (-> & H1 & H2 & H3 & H4 & H5 & H6). cbn in *.
    pose proof (is_power_of_two_pos _ H4).
    destruct (Z.eqb_spec size 0); [lia|]. destruct (Z.eqb_spec alignment 0); [lia|].
    rewrite H4, H6. cbn. unfold checked_add.
    by destruct (Z.leb_spec (offset + size) U32_MAX); [|lia].
Qed.

Lemma check_field_Ok ss sa fields i f :
  check_field ss sa fields (i, f) = Ok tt ↔
    (field_alignment f ≤ sa)%Z ∧ (field_end f ≤ ss)%Z ∧
    ∀ j g, j < i → fields !! j = Some g → fields_overlap f g = false.
Proof.
  unfold check_field. rewrite bind_Ok. setoid_rewrite bind_Ok.
  setoid_rewrite err_if_Ok. setoid_rewrite for_each_Ok. split.
  - intros ([] & H1 & [] & H2 & H3). to_prop. repeat split; [lia..|].
    intros j g Hj Hg.
    assert ((j, g) ∈ take i (enumerate fields)) as Hin.
    { apply list_elem_of_lookup. exists j. rewrite lookup_take_lt by done.
      unfold enumerate. rewrite list_lookup_imap, Hg. done. }
    apply H3, err_if_Ok in Hin. done.
  - intros (H1 & H2 & H3). exists tt. split; [by apply Z.ltb_ge|].
    exists tt. split; [by apply Z.ltb_ge|].
    intros [j g] [k Hk]%list_elem_of_lookup. apply lookup_take_Some in Hk as [Hk Hki].
    unfold enumerate in Hk. apply list_lookup_imap_Some in Hk as (y & Hy & [= -> ->]).
    apply err_if_Ok. eauto.
Qed.

Lemma fields_overlap_sym f g : fields_overlap f g = fields_overlap g f.
Proof. unfold fields_overlap. by rewrite andb_comm. Qed.

(** [KernargAbi::new] accepts a layout exactly when the segment alignment
    is a power of two, every field's alignment is at most the segment's, every
    field ends within the segment and no two distinct fields share a byte; the
    accepted value carries the fields unchanged. *)
Theorem KernargAbi_new_exact sha256 ss sa fields abi :
  KernargAbi_new sha256 ss sa fields = Ok abi ↔
    abi = mkKernargAbi ss sa fields (hash_abi sha256 ss sa fields) ∧
    is_power_of_two sa = true ∧
    (∀ i f, fields !! i = Some f → field_alignment f ≤ sa ∧ field_end f ≤ ss)%Z ∧
    (∀ i j f g, fields !! i = Some f → fields !! j = Some g → i ≠ j →
       fields_overlap f g = false).
Proof.
  unfold KernargAbi_new. rewrite bind_Ok. setoid_rewrite bind_Ok.
  setoid_rewrite err_if_Ok. split.
  - intros ([] & H1 & [] & H2 & [= <-]). to_prop.
    rewrite for_each_Ok in H2.
    assert (∀ i f, fields !! i = Some f → check_field ss sa fields (i, f) = Ok tt) as Hc.
    { intros i f Hf. by apply H2, elem_of_enumerate. }
    split; [done|]. split; [done|]. split.
    + intros i f Hf. apply Hc, check_field_Ok in Hf. tauto.
    + intros i j f g Hf Hg Hij. destruct (Nat.lt_total i j) as [?|[?|?]]; [|done|].
      * rewrite fields_overlap_sym. eapply check_field_Ok; [by apply Hc|..]; eauto.
      * eapply check_field_Ok; [by apply Hc|..]; eauto.
  - intros (-> & Hp & Hb & Ho). exists tt. split.
    { rewrite Hp. pose proof (is_power_of_two_pos _ Hp).
      by destruct (Z.eqb_spec sa 0); [lia|]. }
    exists tt. split; [|done]. apply for_each_Ok.
    intros [i f] Hf%elem_of_enumerate. apply check_field_Ok.
    destruct (Hb i f Hf). repeat split; [done..|]. intros j g Hj Hg.
    eapply Ho; eauto. lia.
Qed.

Lemma validate_arguments_Ok abi args :
  validate_arguments abi args = Ok tt ↔
    Forall2 (λ a f, argument_size a = field_size f) args (abi_fields abi).
Proof.
  unfold validate_arguments. rewrite bind_Ok. setoid_rewrite err_if_Ok.
  setoid_rewrite for_each_Ok. rewrite Forall2_lookup. split.
  - intros ([] & Hl & H) i. to_prop.
    destruct (args !! i) as [a|] eqn:Ea, (abi_fields abi !! i) as [f|] eqn:Ef;
      [constructor|exfalso|exfalso|constructor].
    + assert ((i, (a, f)) ∈ enumerate (zip args (abi_fields abi))) as Hin.
      { apply elem_of_enumerate, lookup_zip_Some. done. }
      apply H, err_if_Ok in Hin. to_prop. done.
    + apply lookup_lt_Some in Ea. apply lookup_ge_None in Ef. lia.
    + apply lookup_lt_Some in Ef. apply lookup_ge_None in Ea. lia.
  - intros H. assert (length args = length (abi_fields abi)) as Hl.
    { apply (Forall2_length (λ a f, argument_size a = field_size f)), Forall2_lookup, H. }
    exists tt. split; [by rewrite bool_decide_eq_true_2|].
    intros [i [a f]] [Ha Hf]%elem_of_enumerate%lookup_zip_Some. apply err_if_Ok.
    specialize (H i). rewrite Ha, Hf in H. inversion H; subst.
    apply negb_false_iff, Z.eqb_eq. done.
Qed.

(** Layout values as [KernargField::new] produces them. *)
Lemma pf_field : PrefixFree field_wf (=) field_preimage.
Proof.
  eapply pf_mono; [|intros ? H; exact H|].
  - unfold field_preimage.
    apply pf_app; [|apply pf_app].
    + apply (pf_on field_offset field_wf _ _ _ pf_u32). unfold field_wf, field_end. ulia.
    + apply (pf_on field_size field_wf _ _ _ pf_u32). unfold field_wf, field_end. ulia.
    + apply (pf_on field_alignment field_wf _ _ _ pf_u32). unfold field_wf. tauto.
  - intros [] [] _ _ (? & ? & ?). cbn in *. congruence.
Qed.

Lemma abi_preimage_inj ss sa fs ss' sa' fs' :
  is_u32 ss → is_u32 sa → is_u64 (Z.of_nat (length fs)) → Forall field_wf fs →
  is_u32 ss' → is_u32 sa' → is_u64 (Z.of_nat (length fs')) → Forall field_wf fs' →
  abi_preimage ss sa fs = abi_preimage ss' sa' fs' → ss = ss' ∧ sa = sa' ∧ fs = fs'.
Proof.
  intros ???? ????. unfold abi_preimage. intros He.
  apply app_inj_1 in He as [_ He]; [|done].
  apply pf_u32 in He as [-> He]; [|done..]. apply pf_u32 in He as [-> He]; [|done..].
  apply (pf_self _ _ _ _ _ (pf_counted _ _ _ pf_field)) in He; [|done..].
  by apply list_eq_Forall2 in He as ->.
Qed.
