(* ===== verification/Recorder.v ===== *)
(** Kernel launches and the dispatch recorder
    (src/crates/redline-dispatch/src/ir.rs, [KernelLaunch], and
    src/crates/redline-dispatch/src/recorder.rs).

    The recorder is explicit state: an operation takes the recorder and returns
    the new one with its result, or the error that leaves it unchanged. The
    process-wide identity counter is passed to [Recorder_new]. The depth-first
    search of [path_exists] runs on fuel; [path_exists_total] shows that the
    fuel given, one more than the pushes that can ever happen, is enough. *)

From S2P Require Import Prelude Ir Identity.

(** ** Kernel launches *)

Record KernelLaunch := mkKernelLaunch {
  kernel : string;
  grid : Dim3;
  block : Dim3;
  dynamic_shared_bytes : Z;
  arguments : list KernelArg;
  kernarg_abi : option KernargAbi;
  artifact_identity : option KernelArtifactIdentity;
  estimated_work : Z }.

#[export] Instance KernelLaunch_eq_dec : EqDecision KernelLaunch.
Proof. solve_decision. Defined.

(** [KernelLaunch::new] *)
Definition KernelLaunch_new (kernel : string) (grid block : Dim3)
    : result RecordError KernelLaunch :=
  err_if (trim_is_empty kernel) EmptyKernelKey ;;
  Ok (mkKernelLaunch kernel grid block 0 [] None None 1).

(** [KernelLaunch::with_dynamic_shared_bytes] *)
Definition with_dynamic_shared_bytes (l : KernelLaunch) (bytes : Z) : KernelLaunch :=
  mkKernelLaunch (kernel l) (grid l) (block l) bytes (arguments l)
    (kernarg_abi l) (artifact_identity l) (estimated_work l).

(** [KernelLaunch::with_arguments] *)
Definition with_arguments (l : KernelLaunch) (args : list KernelArg) : KernelLaunch :=
  mkKernelLaunch (kernel l) (grid l) (block l) (dynamic_shared_bytes l)
    (arguments l ++ args) (kernarg_abi l) (artifact_identity l) (estimated_work l).

(** [KernelLaunch::with_kernarg_abi] *)
Definition with_kernarg_abi (l : KernelLaunch) (abi : KernargAbi) : KernelLaunch :=
  mkKernelLaunch (kernel l) (grid l) (block l) (dynamic_shared_bytes l)
    (arguments l) (Some abi) (artifact_identity l) (estimated_work l).

(** [KernelLaunch::with_artifact_identity] *)
Definition with_artifact_identity (l : KernelLaunch) (identity : KernelArtifactIdentity)
    : KernelLaunch :=
  mkKernelLaunch (kernel l) (grid l) (block l) (dynamic_shared_bytes l)
    (arguments l) (kernarg_abi l) (Some identity) (estimated_work l).

(** [KernelLaunch::with_estimated_work] *)
Definition with_estimated_work (l : KernelLaunch) (work : Z) : KernelLaunch :=
  mkKernelLaunch (kernel l) (grid l) (block l) (dynamic_shared_bytes l)
    (arguments l) (kernarg_abi l) (artifact_identity l) work.

(** ** Recorder state *)

Record Resource := mkResource { resource_label : string; resource_size : Z }.
Record Node := mkNode {
  node_id : NodeId; node_launch : KernelLaunch; node_accesses : list Access }.

Record Recorder := mkRecorder {
  owner : Z;
  resources : list Resource;
  nodes : list Node;
  (** [BTreeSet] of [(prerequisite, dependent)], ascending. *)
  edges : list (NodeId * NodeId) }.

(** [Recorder::new]: takes and returns the static identity counter. *)
Definition Recorder_new (next_recorder_id : Z) : result RecordError (Recorder * Z) :=
  assert (negb (next_recorder_id =? U64_MAX)%Z) ;;
  Ok (mkRecorder next_recorder_id [] [] [], wrap64 (next_recorder_id + 1)).

(** [Recorder::resource] *)
Definition Recorder_resource (r : Recorder) (label : string) (size : Z)
    : result RecordError (Recorder * ResourceId) :=
  err_if (trim_is_empty label) EmptyResourceLabel ;;
  err_if (size =? 0)%Z EmptyResource ;;
  let index := length (resources r) in
  err_if (U32_MAX <? Z.of_nat index)%Z TooManyResources ;;
  Ok (mkRecorder (owner r) (resources r ++ [mkResource label size]) (nodes r) (edges r),
      mkResourceId (owner r) index).

(** [Recorder::resource_entry] *)
Definition resource_entry (r : Recorder) (resource : ResourceId)
    : result RecordError Resource :=
  err_if (negb (resource_owner resource =? owner r)%Z) (ForeignResource resource) ;;
  ok_or (UnknownResource resource) (resources r !! resource_index resource).

(** [Recorder::validate_region] *)
Definition validate_region (r : Recorder) (region : DeviceRegion)
    : result RecordError unit :=
  resource ← resource_entry r (region_resource region);
  err_if (resource_size resource <? region_end region)%Z
    (RegionOutOfBounds (region_resource region) (region_offset region)
       (region_len region) (resource_size resource)).

(** [Recorder::region] *)
Definition Recorder_region (r : Recorder) (resource : ResourceId) (offset len : Z)
    : result RecordError DeviceRegion :=
  region ← DeviceRegion_new resource offset len;
  validate_region r region ;;
  Ok region.

(** The declared access covers the argument's first byte. *)
Definition access_covers (resource : ResourceId) (byte_offset : Z) (access : Access) : bool :=
  let region := access_region access in
  bool_decide (region_resource region = resource)
  && (region_offset region <=? byte_offset)%Z
  && (byte_offset <? region_end region)%Z.

(** One argument of the loop in [Recorder::dispatch]. *)
Definition check_argument (r : Recorder) (accesses : list Access) (argument : KernelArg)
    : result RecordError unit :=
  match argument with
  | Resource_arg resource byte_offset =>
      entry ← resource_entry r resource;
      err_if (resource_size entry <=? byte_offset)%Z
        (ResourceArgumentOutOfBounds resource byte_offset (resource_size entry)) ;;
      err_if (negb (existsb (access_covers resource byte_offset) accesses))
        (UndeclaredResourceArgument resource byte_offset)
  | ScalarSlot slot slot_size => err_if (slot_size =? 0)%Z (EmptyScalarSlot slot)
  | Scalar _ => Ok tt
  end.

(** [Recorder::dispatch] *)
Definition Recorder_dispatch (r : Recorder) (launch : KernelLaunch) (accesses : list Access)
    : result RecordError (Recorder * NodeId) :=
  for_each (λ access, validate_region r (access_region access)) accesses ;;
  for_each (check_argument r accesses) (arguments launch) ;;
  let index := length (nodes r) in
  err_if (U32_MAX <? Z.of_nat index)%Z TooManyNodes ;;
  let id := mkNodeId (owner r) index in
  Ok (mkRecorder (owner r) (resources r) (nodes r ++ [mkNode id launch accesses]) (edges r), id).

(** [Recorder::validate_node] *)
Definition validate_node (r : Recorder) (node : NodeId) : result RecordError unit :=
  err_if (negb (node_owner node =? owner r)%Z) (ForeignNode node) ;;
  match nodes r !! node_index node with
  | None => Err (UnknownNode node)
  | Some _ => Ok tt
  end.

(** The targets of the edges leaving [node], in the set's order. *)
Definition successors (edges : list (NodeId * NodeId)) (node : NodeId) : list NodeId :=
  omap (λ '(source, target), if bool_decide (source = node) then Some target else None) edges.

(** The [while let] loop of [Recorder::path_exists]; the last element pushed
    is the head of [stack]. *)
Fixpoint path_search (edges : list (NodeId * NodeId)) (target : NodeId) (fuel : nat)
    (stack : list NodeId) (seen : list bool) : result RecordError bool :=
  match fuel with
  | O => Panic
  | S fuel =>
    match stack with
    | [] => Ok false
    | node :: stack =>
      if bool_decide (node = target) then Ok true
      else
        was_seen ← index seen (node_index node);
        let seen := <[node_index node := true]> seen in
        if was_seen : bool then path_search edges target fuel stack seen
        else path_search edges target fuel (reverse (successors edges node) ++ stack) seen
    end
  end.

(** [Recorder::path_exists] *)
Definition path_exists (r : Recorder) (source target : NodeId) : result RecordError bool :=
  path_search (edges r) target (length (edges r) + 2) [source]
    (replicate (length (nodes r)) false).

(** [Recorder::depends_on] *)
Definition Recorder_depends_on (r : Recorder) (node prerequisite : NodeId)
    : result RecordError Recorder :=
  validate_node r node ;;
  validate_node r prerequisite ;;
  cyclic ← (if bool_decide (node = prerequisite) then Ok true
            else path_exists r node prerequisite);
  err_if cyclic (DependencyCycle node prerequisite) ;;
  Ok (mkRecorder (owner r) (resources r) (nodes r)
        (bset_insert (prerequisite, node) (edges r))).

(** ** Reachability in the dependency graph *)

Definition edge (es : list (NodeId * NodeId)) (a b : NodeId) : Prop := (a, b) ∈ es.

Definition acyclic (es : list (NodeId * NodeId)) : Prop := ∀ n, ¬ tc (edge es) n n.

(** A node of this recorder. *)
Definition valid_node (r : Recorder) (n : NodeId) : Prop :=
  node_owner n = owner r ∧ node_index n < length (nodes r).

Lemma validate_node_Ok r n : validate_node r n = Ok tt ↔ valid_node r n.
Proof.
  unfold validate_node, valid_node. rewrite bind_Ok. setoid_rewrite err_if_Ok. split.
  - intros ([] & H & Hn). to_prop. destruct (nodes r !! node_index n) eqn:E; [|done].
    apply lookup_lt_Some in E. done.
  - intros [Ho Hi]. exists tt. split.
    + by apply negb_false_iff, Z.eqb_eq.
    + apply lookup_lt_is_Some in Hi as [? ->]. done.
Qed.

Lemma validate_node_no_panic r n : validate_node r n ≠ Panic.
Proof.
  unfold validate_node. destruct (negb _); cbn; [done|].
  by destruct (nodes r !! node_index n).
Qed.

Lemma elem_of_successors es n m : m ∈ successors es n ↔ edge es n m.
Proof.
  unfold successors, edge. rewrite list_elem_of_omap. split.
  - intros ([a b] & Hin & H). case_bool_decide; naive_solver.
  - intros Hin. exists (n, m). split; [done|]. by rewrite bool_decide_eq_true_2.
Qed.

Lemma successors_cons a b es n :
  successors ((a, b) :: es) n =
    (if bool_decide (a = n) then [b] else []) ++ successors es n.
Proof. unfold successors. cbn. by case_bool_decide. Qed.

Lemma NoDup_successors es n : NoDup es → NoDup (successors es n).
Proof.
  unfold successors. induction 1 as [|[a b] es Hin Hes IH]; cbn; [constructor|].
  case_bool_decide as Ha; [|done]. constructor; [|done].
  subst. rewrite list_elem_of_omap. intros ([c d] & Hcd & H).
  case_bool_decide; naive_solver.
Qed.

Section path_search.
Context (es : list (NodeId * NodeId)) (own : Z) (target : NodeId).

(** Edges whose source has not been expanded yet. *)
Definition unexpanded (seen : list bool) : nat :=
  length (filter (λ e, seen !! node_index e.1 = Some false) es).

Context (count : nat).
Context (Hes : ∀ a b, edge es a b →
  node_owner a = own ∧ node_index a < count ∧ node_owner b = own ∧ node_index b < count).

Lemma unexpanded_mark seen n :
  node_owner n = own → seen !! node_index n = Some false →
  unexpanded seen =
    unexpanded (<[node_index n := true]> seen) + length (successors es n).
Proof using Hes.
  intros Hown Hseen. unfold unexpanded. unfold edge in Hes.
  induction es as [|[a b] l IH]; [done|].
  assert (node_owner a = own) as Ha by (apply (Hes a b); set_solver).
  assert (∀ c d, (c, d) ∈ l → node_owner c = own ∧ node_index c < count ∧
    node_owner d = own ∧ node_index d < count) as Hl.
  { intros c d Hcd. apply Hes. set_solver. }
  specialize (IH Hl). rewrite !filter_cons, successors_cons, length_app. simpl.
  destruct (decide (a = n)) as [->|Hne].
  - rewrite bool_decide_eq_true_2 by done. rewrite decide_True by done.
    rewrite decide_False.
    + simpl. lia.
    + rewrite list_lookup_insert_eq; [done|]. by eapply lookup_lt_Some.
  - rewrite bool_decide_eq_false_2 by done.
    rewrite list_lookup_insert_ne.
    + case_decide; simpl; lia.
    + destruct a, n; cbn in *; naive_solver.
Qed.

(** The loop invariant: pending nodes are reachable from the source, the
    target has not been expanded, and expanded nodes have all their
    successors expanded or pending. *)
Record search_inv (source : NodeId) (stack : list NodeId) (seen : list bool) : Prop := {
  si_len : length seen = count;
  si_stack n : n ∈ stack → node_owner n = own ∧ node_index n < count ∧ rtc (edge es) source n;
  si_target : node_owner target = own → seen !! node_index target ≠ Some true;
  si_closed a b : node_owner a = own → seen !! node_index a = Some true → edge es a b →
    seen !! node_index b = Some true ∨ b ∈ stack;
  si_source : seen !! node_index source = Some true ∨ source ∈ stack }.

Lemma search_inv_drop source n stack seen :
  search_inv source (n :: stack) seen → seen !! node_index n = Some true →
  search_inv source stack (<[node_index n := true]> seen).
Proof using Hes.
  intros [H1 H2 H3 H4 H5] Hn. rewrite list_insert_id by done. split; [done|set_solver|done|..].
  - intros a b Ha Hs Hab. destruct (H4 a b Ha Hs Hab) as [|[->|]%elem_of_cons]; auto.
  - destruct H5 as [|[->|]%elem_of_cons]; auto.
Qed.

Lemma search_inv_expand source n stack seen :
  search_inv source (n :: stack) seen → n ≠ target →
  search_inv source (reverse (successors es n) ++ stack) (<[node_index n := true]> seen).
Proof using Hes.
  intros [H1 H2 H3 H4 H5] Hne.
  destruct (H2 n) as (Hown & Hlt & Hreach); [set_solver|].
  assert (∀ m, m ∈ reverse (successors es n) ++ stack ↔ edge es n m ∨ m ∈ stack) as Hst.
  { intros m. rewrite elem_of_app, elem_of_reverse, elem_of_successors. done. }
  assert (∀ m, node_owner m = own → node_index m = node_index n → m = n) as Hidx.
  { intros [] ?. destruct n. cbn in *. congruence. }
  assert (<[node_index n := true]> seen !! node_index n = Some true) as Hset.
  { apply list_lookup_insert_eq. lia. }
  split.
  - by rewrite length_insert.
  - intros m [Hm|Hm]%Hst; [|apply H2; set_solver].
    destruct (Hes _ _ Hm) as (_ & _ & ? & ?). split; [done|]. split; [done|].
    eapply rtc_r; eauto.
  - intros Ht. rewrite list_lookup_insert_ne; [by apply H3|].
    intros Heq. apply Hne. symmetry. by apply Hidx.
  - intros a b Ha Hs Hab. rewrite Hst.
    destruct (decide (a = n)) as [->|Han]; [by auto|].
    assert (node_index n ≠ node_index a) by naive_solver.
    rewrite list_lookup_insert_ne in Hs by done.
    destruct (H4 a b Ha Hs Hab) as [Hb|[->|Hb]%elem_of_cons]; [|by auto..].
    left. destruct (decide (node_index n = node_index b)) as [<-|]; [done|].
    by rewrite list_lookup_insert_ne.
  - rewrite Hst. destruct H5 as [Hb|[->|Hb]%elem_of_cons]; [|by auto..].
    left. destruct (decide (node_index n = node_index source)) as [<-|]; [done|].
    by rewrite list_lookup_insert_ne.
Qed.

Lemma path_search_correct source fuel : ∀ stack seen,
  node_owner source = own → node_owner target = own →
  search_inv source stack seen →
  length stack + unexpanded seen < fuel →
  ∃ b, path_search es target fuel stack seen = Ok b ∧
    (b = true ↔ rtc (edge es) source target).
Proof using Hes.
  induction fuel as [|fuel IH]; intros stack seen Hs Ht Hinv Hfuel; [lia|].
  destruct stack as [|n stack]; cbn.
  - exists false. split; [done|]. split; [done|]. intros Hr. exfalso.
    destruct Hinv as [H1 H2 H3 H4 [H5|H5]]; [|set_solver].
    apply (H3 Ht). revert Ht. pattern target. eapply rtc_ind_r; [done| |exact Hr].
    intros y z _ Hyz Hy Hz. destruct (Hes _ _ Hyz) as (Hyo & _).
    destruct (H4 y z) as [|?]; [done|auto|done|done|set_solver].
  - case_bool_decide as Hn.
    + subst. exists true. split; [done|]. split; [|done]. intros _.
      apply (si_stack _ _ _ Hinv). set_solver.
    + destruct (si_stack _ _ _ Hinv n) as (Hno & Hlt & _); [set_solver|].
      assert (is_Some (seen !! node_index n)) as [was Hwas].
      { apply lookup_lt_is_Some. by rewrite (si_len _ _ _ Hinv). }
      unfold index. rewrite Hwas. cbn. cbn in Hfuel. destruct was.
      * apply IH; [done..|by apply search_inv_drop|].
        rewrite list_insert_id by done. lia.
      * apply IH; [done..|by apply search_inv_expand|].
        rewrite (unexpanded_mark seen n) in Hfuel by done.
        rewrite length_app, length_reverse. lia.
Qed.
End path_search.

(** ** Acyclicity under insertion *)

Lemma tc_bset_insert es p n x y :
  tc (edge (bset_insert (p, n) es)) x y →
  tc (edge es) x y ∨ (rtc (edge es) x p ∧ rtc (edge es) n y).
Proof.
  intros H. induction H as [x y H|x y z H _ IH]; unfold edge in H;
    apply elem_of_bset_insert in H as [[= -> ->]|H].
  - right. split; constructor.
  - left. by constructor.
  - right. split; [constructor|]. destruct IH as [H|[_ H]]; [by apply tc_rtc|done].
  - destruct IH as [IH|[H1 H2]].
    + left. by eapply tc_l.
    + right. split; [by eapply rtc_l|done].
Qed.

Lemma acyclic_insert es p n :
  acyclic es → ¬ rtc (edge es) n p → acyclic (bset_insert (p, n) es).
Proof.
  intros Ha Hn x [H|[H1 H2]]%tc_bset_insert; [by eapply Ha|].
  apply Hn. by etrans.
Qed.

(** ** Typing and the recorder invariant *)

(** Values of the Rust types involved, as their constructors build them. *)
Definition arg_typed (a : KernelArg) : Prop :=
  match a with
  | Scalar bytes => Forall is_u8 bytes ∧ is_u64 (Z.of_nat (length bytes))
  | ScalarSlot slot size => is_u32 (slot_index slot) ∧ is_u32 size
  | Resource_arg res offset => is_u64 offset
  end.

Definition dim_typed (d : Dim3) : Prop :=
  (0 < dim_x d ≤ U32_MAX ∧ 0 < dim_y d ≤ U32_MAX ∧ 0 < dim_z d ≤ U32_MAX)%Z.

Definition digest_typed (d : Sha256Digest) : Prop := length (digest_bytes d) = 32.

Definition artifact_typed (i : KernelArtifactIdentity) : Prop :=
  digest_typed (code_object i) ∧ digest_typed (symbol_text i) ∧ is_u64 (generation i).

Definition launch_typed (l : KernelLaunch) : Prop :=
  trim_is_empty (kernel l) = false ∧
  is_u64 (Z.of_nat (length (str_bytes (kernel l)))) ∧
  dim_typed (grid l) ∧ dim_typed (block l) ∧
  is_u32 (dynamic_shared_bytes l) ∧
  Forall arg_typed (arguments l) ∧
  is_u64 (Z.of_nat (length (arguments l))) ∧
  (∀ abi, kernarg_abi l = Some abi → digest_typed (abi_hash abi)) ∧
  (∀ i, artifact_identity l = Some i → artifact_typed i) ∧
  (0 < estimated_work l ≤ U32_MAX)%Z.

(** The region lies within a resource of the recorder. *)
Definition region_in_bounds (r : Recorder) (region : DeviceRegion) : Prop :=
  region_wf region ∧
  resource_owner (region_resource region) = owner r ∧
  ∃ res, resources r !! resource_index (region_resource region) = Some res ∧
    (region_end region ≤ resource_size res)%Z.

(** A resource argument points into a declared access. *)
Definition arg_declared (accs : list Access) (a : KernelArg) : Prop :=
  match a with
  | Resource_arg res offset =>
      ∃ acc, acc ∈ accs ∧ in_region (access_region acc) res offset
  | ScalarSlot _ size => size ≠ 0%Z
  | Scalar _ => True
  end.

Record rec_wf (r : Recorder) : Prop := {
  wf_owner : is_u64 (owner r);
  wf_resources res : res ∈ resources r →
    trim_is_empty (resource_label res) = false ∧
    is_u64 (Z.of_nat (length (str_bytes (resource_label res)))) ∧
    (0 < resource_size res ≤ U64_MAX)%Z;
  wf_resource_count : (Z.of_nat (length (resources r)) ≤ U32_MAX + 1)%Z;
  wf_node_count : (Z.of_nat (length (nodes r)) ≤ U32_MAX + 1)%Z;
  wf_node_ids i n : nodes r !! i = Some n → node_id n = mkNodeId (owner r) i;
  wf_launch n : n ∈ nodes r → launch_typed (node_launch n);
  wf_access_count n : n ∈ nodes r → is_u64 (Z.of_nat (length (node_accesses n)));
  wf_accesses n acc : n ∈ nodes r → acc ∈ node_accesses n →
    region_in_bounds r (access_region acc);
  wf_arguments n a : n ∈ nodes r → a ∈ arguments (node_launch n) →
    arg_declared (node_accesses n) a;
  wf_edges_sorted : bset_sorted (edges r);
  wf_edges a b : edge (edges r) a b → valid_node r a ∧ valid_node r b;
  wf_acyclic : acyclic (edges r) }.

(** The public operations that change a recorder. *)
Inductive rec_step (r : Recorder) : Recorder → Prop :=
| step_resource label size r' i :
    is_u64 size → is_u64 (Z.of_nat (length (str_bytes label))) →
    Recorder_resource r label size = Ok (r', i) → rec_step r r'
| step_dispatch launch accs r' i :
    launch_typed launch →
    is_u64 (Z.of_nat (length accs)) →
    Forall (λ acc, region_wf (access_region acc)) accs →
    Recorder_dispatch r launch accs = Ok (r', i) → rec_step r r'
| step_depends_on node prerequisite r' :
    Recorder_depends_on r node prerequisite = Ok r' → rec_step r r'.

(** A recorder some program can obtain through the public interface. *)
Definition recorded (r : Recorder) : Prop :=
  ∃ counter r0 counter', is_u64 counter ∧
    Recorder_new counter = Ok (r0, counter') ∧ rtc rec_step r0 r.

Lemma path_exists_total r a b :
  rec_wf r → valid_node r a → valid_node r b →
  ∃ res, path_exists r a b = Ok res ∧ (res = true ↔ rtc (edge (edges r)) a b).
Proof.
  intros Hwf [Ha1 Ha2] [Hb1 Hb2]. unfold path_exists.
  eapply (path_search_correct (edges r) (owner r) b (length (nodes r))).
  - intros x y [[??] [??]]%(wf_edges r Hwf). done.
  - done.
  - done.
  - split.
    + by rewrite length_replicate.
    + intros n ->%list_elem_of_singleton. repeat split; [done..|constructor].
    + intros _ [= H%lookup_replicate_1]. naive_solver.
    + intros x y _ [? _]%lookup_replicate_1. done.
    + right. set_solver.
  - unfold unexpanded. cbn.
    pose proof (length_filter (λ e, replicate (length (nodes r)) false !! node_index e.1
      = Some false) (edges r)). lia.
Qed.

Lemma resource_entry_Ok r i res :
  resource_entry r i = Ok res ↔
    resource_owner i = owner r ∧ resources r !! resource_index i = Some res.
Proof.
  unfold resource_entry. rewrite bind_Ok. setoid_rewrite err_if_Ok.
  setoid_rewrite ok_or_Ok. split.
  - intros ([] & H & Hr). to_prop. done.
  - intros [Ho Hr]. exists tt. split; [by apply negb_false_iff, Z.eqb_eq|done].
Qed.

Lemma validate_region_Ok r region :
  region_wf region →
  validate_region r region = Ok tt ↔ region_in_bounds r region.
Proof.
  intros Hw. unfold validate_region, region_in_bounds. rewrite bind_Ok.
  setoid_rewrite resource_entry_Ok. setoid_rewrite err_if_Ok. split.
  - intros (res & [Hown Hres] & Hle). to_prop. eauto.
  - intros (_ & Ho & res & Hres & Hend). exists res. split; [done|]. by apply Z.ltb_ge.
Qed.

Lemma check_argument_Ok r accs a :
  check_argument r accs a = Ok tt → arg_declared accs a.
Proof.
  destruct a as [|slot size|res off]; cbn; intros H.
  - done.
  - apply err_if_Ok in H. by to_prop.
  - inv_ok. to_prop. apply existsb_exists in H as (acc & Hin & Hc).
    unfold access_covers in Hc. to_prop. exists acc. split; [by apply list_elem_of_In|].
    split; [done|lia].
Qed.

(** Regions and arguments stay valid as resources are appended. *)
Lemma region_in_bounds_mono r r' region :
  owner r' = owner r → resources r `prefix_of` resources r' →
  region_in_bounds r region → region_in_bounds r' region.
Proof.
  intros Ho Hp (Hw & Hr & res & Hres & Hend).
  split; [done|]. rewrite Ho. split; [done|]. exists res. split; [|done].
  eapply prefix_lookup_Some; eauto.
Qed.

Lemma rec_wf_resource r label size r' i :
  is_u64 size → is_u64 (Z.of_nat (length (str_bytes label))) →
  rec_wf r → Recorder_resource r label size = Ok (r', i) → rec_wf r'.
Proof.
  intros Hs Hlab [] H. unfold Recorder_resource in H. inv_ok. to_prop.
  split; cbn; try done.
  - intros res [?| ->%list_elem_of_singleton]%elem_of_app; [by auto|]. cbn. split; [done|]. split; [done|ulia].
  - rewrite length_app. cbn. lia.
  - intros n acc Hn Hacc. eapply region_in_bounds_mono; [..|by eauto]; [done|].
    by apply prefix_app_r.
Qed.

Lemma rec_wf_dispatch r launch accs r' i :
  launch_typed launch → is_u64 (Z.of_nat (length accs)) →
  Forall (λ acc, region_wf (access_region acc)) accs →
  rec_wf r → Recorder_dispatch r launch accs = Ok (r', i) → rec_wf r'.
Proof.
  intros Hl Hn Hacc [] H. unfold Recorder_dispatch in H.
  apply bind_Ok in H as ([] & Hv & H). apply bind_Ok in H as ([] & Hargs & H).
  rewrite for_each_Ok in Hv. rewrite for_each_Ok in Hargs. rewrite Forall_forall in Hacc. inv_ok. to_prop.
  split; cbn; try done.
  - rewrite length_app. cbn. lia.
  - intros j n [Hj|[Hj Hnew]]%lookup_app_Some; [by auto|].
    apply list_lookup_singleton_Some in Hnew as [Hj0 <-]. cbn. f_equal. lia.
  - intros n [?| ->%list_elem_of_singleton]%elem_of_app; by auto.
  - intros n [?| ->%list_elem_of_singleton]%elem_of_app; by auto.
  - intros n acc [?| ->%list_elem_of_singleton]%elem_of_app Ha; [by eauto|]. cbn in Ha.
    apply validate_region_Ok; auto. apply (Hv _ Ha).
  - intros n a [?| ->%list_elem_of_singleton]%elem_of_app Ha; [by eauto|]. cbn in *.
    eapply check_argument_Ok, Hargs, Ha.
  - intros a b Hab. unfold valid_node. cbn. rewrite length_app.
    destruct (wf_edges0 a b Hab) as [[??] [??]]. repeat split; try done; lia.
Qed.

Lemma depends_on_Ok r node prereq r' :
  rec_wf r → Recorder_depends_on r node prereq = Ok r' →
  valid_node r node ∧ valid_node r prereq ∧
  node ≠ prereq ∧ ¬ rtc (edge (edges r)) node prereq ∧
  r' = mkRecorder (owner r) (resources r) (nodes r) (bset_insert (prereq, node) (edges r)).
Proof.
  intros Hwf H. unfold Recorder_depends_on in H. inv_ok. destruct x, x0.
  rewrite validate_node_Ok in Hx, Hx0.
  destruct (path_exists_total r node prereq) as (b & Hb & Hiff); [done..|].
  case_bool_decide; [by simplify_eq|]. rewrite Hb in Hx1. inv_ok. naive_solver.
Qed.

Lemma validate_node_Err r n e :
  validate_node r n = Err e → ¬ valid_node r n ∧ (e = ForeignNode n ∨ e = UnknownNode n).
Proof.
  intros H. split.
  - intros Hv%validate_node_Ok. congruence.
  - unfold validate_node in H. destruct (negb _); cbn in H; [naive_solver|].
    destruct (nodes r !! node_index n); naive_solver.
Qed.

Lemma depends_on_Err r node prereq e :
  rec_wf r → Recorder_depends_on r node prereq = Err e →
  match e with
  | DependencyCycle n p => n = node ∧ p = prereq ∧
      valid_node r node ∧ valid_node r prereq ∧ rtc (edge (edges r)) node prereq
  | _ => ¬ (valid_node r node ∧ valid_node r prereq)
  end.
Proof.
  intros Hwf H. unfold Recorder_depends_on in H.
  apply bind_Err in H as [H|([] & Hn & H)]; [apply validate_node_Err in H; naive_solver|].
  apply bind_Err in H as [H|([] & Hp & H)]; [apply validate_node_Err in H; naive_solver|].
  apply validate_node_Ok in Hn, Hp.
  destruct (path_exists_total r node prereq) as (b & Hb & Hiff); [done..|].
  case_bool_decide as Heq; [|rewrite Hb in H].
  - cbn in H. injection H as <-. subst. repeat split; try apply Hn. constructor.
  - cbn in H. destruct b; cbn in H; [|done]. injection H as <-. naive_solver.
Qed.

Lemma depends_on_no_panic r node prereq :
  rec_wf r → Recorder_depends_on r node prereq ≠ Panic.
Proof.
  intros Hwf H. unfold Recorder_depends_on in H.
  apply bind_Panic in H as [H|([] & Hn & H)]; [by apply validate_node_no_panic in H|].
  apply bind_Panic in H as [H|([] & Hp & H)]; [by apply validate_node_no_panic in H|].
  apply validate_node_Ok in Hn, Hp.
  destruct (path_exists_total r node prereq) as (b & Hb & _); [done..|].
  case_bool_decide; [|rewrite Hb in H]; cbn in H; [|destruct b]; done.
Qed.

Lemma rec_wf_depends_on r node prereq r' :
  rec_wf r → Recorder_depends_on r node prereq = Ok r' → rec_wf r'.
Proof.
  intros Hwf H. apply depends_on_Ok in H as (Hn & Hp & Hne & Hnr & ->); [|done].
  destruct Hwf. split; cbn; try done.
  - by apply bset_insert_sorted.
  - intros a b [[= -> ->]|?]%elem_of_bset_insert; [done|]. by apply wf_edges0.
  - by apply acyclic_insert.
Qed.

Lemma rec_step_wf r r' : rec_wf r → rec_step r r' → rec_wf r'.
Proof.
  intros Hwf []; eauto using rec_wf_resource, rec_wf_dispatch, rec_wf_depends_on.
Qed.

Lemma Recorder_new_wf c r c' : is_u64 c → Recorder_new c = Ok (r, c') → rec_wf r.
Proof.
  intros Hc H. unfold Recorder_new in H. inv_ok.
  split; cbn; try done; try set_solver.
  - constructor.
  - intros n Hn. inversion Hn as [? ? He|? ? ? He]; by apply not_elem_of_nil in He.
Qed.

Lemma recorded_rec_wf r : recorded r → rec_wf r.
Proof.
  intros (c & r0 & c' & Hc & H0 & Hs). apply Recorder_new_wf in H0; [|done].
  induction Hs; eauto using rec_step_wf.
Qed.

(** Every recorder reachable through the public operations is well formed:
    node [i] carries identity [i] of this recorder, every edge joins two
    recorded nodes, the dependency graph has no cycle, every declared access
    is a valid region inside one of the recorder's own resources and every
    resource argument lies inside a declared access. *)
Theorem recorded_wf r : recorded r → rec_wf r.
Proof. apply recorded_rec_wf. Qed.

(** [depends_on] never panics on recorded state, rejects an edge exactly
    when one end is not a node of the recorder or the edge would close a cycle
    (reporting which), and otherwise adds precisely the edge
    [prerequisite -> node] and nothing else. *)
Theorem depends_on_exact r node prerequisite :
  recorded r →
  match Recorder_depends_on r node prerequisite with
  | Ok r' => valid_node r node ∧ valid_node r prerequisite ∧
      ¬ rtc (edge (edges r)) node prerequisite ∧
      owner r' = owner r ∧ resources r' = resources r ∧ nodes r' = nodes r ∧
      (∀ a b, edge (edges r') a b ↔ (a = prerequisite ∧ b = node) ∨ edge (edges r) a b)
  | Err (DependencyCycle n p) => n = node ∧ p = prerequisite ∧
      valid_node r node ∧ valid_node r prerequisite ∧ rtc (edge (edges r)) node prerequisite
  | Err _ => ¬ (valid_node r node ∧ valid_node r prerequisite)
  | Panic => False
  end.
Proof.
  intros Hwf%recorded_rec_wf.
  destruct (Recorder_depends_on r node prerequisite) as [r'|e|] eqn:E.
  - apply depends_on_Ok in E as (Hn & Hp & Hne & Hnr & ->); [|done]. cbn.
    do 6 (split; [done|]). intros a b. split.
    + intros [[= -> ->]|?]%elem_of_bset_insert; auto.
    + intros [[-> ->]|?]; apply elem_of_bset_insert; auto.
  - eapply depends_on_Err; eauto.
  - eapply depends_on_no_panic; eauto.
Qed.

(** ** A concrete recording

    The example of the crate's documentation: a projection writes the second
    half of a buffer, a consumer reads it, and the consumer waits for it. *)
Definition demo_launch (name : string) (work : Z) : KernelLaunch :=
  mkKernelLaunch name (mkDim3 32 1 1) (mkDim3 64 1 1) 0 [] None None work.

Definition demo_resource : ResourceId := mkResourceId 1 0.
Definition demo_input : DeviceRegion := mkDeviceRegion demo_resource 0 2048.
Definition demo_output : DeviceRegion := mkDeviceRegion demo_resource 2048 2048.
Definition demo_project : NodeId := mkNodeId 1 0.
Definition demo_consume : NodeId := mkNodeId 1 1.

Definition demo_unordered : Recorder :=
  mkRecorder 1 [mkResource "activations" 4096]
    [mkNode demo_project (demo_launch "project" 3)
       [Access_read demo_input; Access_write demo_output];
     mkNode demo_consume (demo_launch "consume" 1) [Access_read demo_output]] [].

Definition demo : Recorder :=
  mkRecorder 1 (resources demo_unordered) (nodes demo_unordered)
    [(demo_project, demo_consume)].

Lemma demo_launch_typed name work :
  trim_is_empty name = false → is_u64 (Z.of_nat (length (str_bytes name))) →
  (0 < work ≤ U32_MAX)%Z → launch_typed (demo_launch name work).
Proof.
  intros. unfold launch_typed, demo_launch, dim_typed; cbn. repeat split; try done; try ulia.
Qed.

Lemma demo_unordered_recorded : recorded demo_unordered.
Proof.
  exists 1%Z, (mkRecorder 1 [] [] []), 2%Z. split; [ulia|]. split; [reflexivity|].
  eapply rtc_l.
  { eapply (step_resource _ "activations" 4096); [ulia|cbn; ulia|vm_compute; reflexivity]. }
  eapply rtc_l.
  { eapply (step_dispatch _ (demo_launch "project" 3)
      [Access_read demo_input; Access_write demo_output]);
      [apply demo_launch_typed; done| |repeat constructor; done|vm_compute; reflexivity].
    cbn; ulia. }
  eapply rtc_l.
  { eapply (step_dispatch _ (demo_launch "consume" 1) [Access_read demo_output]);
      [apply demo_launch_typed; done| |repeat constructor; done|vm_compute; reflexivity].
    cbn; ulia. }
  constructor.
Qed.

Lemma demo_recorded : recorded demo.
Proof.
  destruct demo_unordered_recorded as (c & r0 & c' & Hc & H0 & Hs).
  exists c, r0, c'. split; [done|]. split; [done|]. eapply rtc_r; [exact Hs|].
  eapply (step_depends_on _ demo_consume demo_project). vm_compute. reflexivity.
Qed.

Lemma recorded_wf_witness : recorded demo ∧ rec_wf demo.
Proof. split; [exact demo_recorded|]. exact (recorded_wf demo demo_recorded). Defined.

(** Closing the cycle is refused with the two nodes named. *)
Lemma depends_on_exact_witness :
  Recorder_depends_on demo demo_project demo_consume =
    Err (DependencyCycle demo_project demo_consume) ∧
  rtc (edge (edges demo)) demo_project demo_consume.
Proof.
  split; [vm_compute; reflexivity|].
  pose proof (depends_on_exact demo demo_project demo_consume demo_recorded) as H.
  vm_compute in H. apply H.
Defined.
