(* ===== verification/Graph.v ===== *)
(** Ordering the recorded dispatches
    (src/crates/redline-dispatch/src/plan.rs: [topological_order],
    [reachability], [unordered_hazards] and the error type).

    [topological_order] is Kahn's algorithm over a [BTreeSet] of ready nodes.
    Its loop runs on fuel, one more than the number of nodes: every iteration
    emits a node not emitted before. The theorems show that on recorded graphs
    it neither panics nor reports a cycle, and that what it returns is a
    permutation of the nodes in dependency order; that the reachability matrix
    is the transitive closure of the edges; and that the hazard list is empty
    exactly when every conflicting pair of dispatches is ordered. *)

From S2P Require Import Prelude Ir Identity Recorder.

Inductive HazardKind := ReadAfterWrite | WriteAfterRead | WriteAfterWrite.

#[export] Instance HazardKind_eq_dec : EqDecision HazardKind.
Proof. solve_decision. Defined.

Record Hazard := mkHazard {
  hazard_first : NodeId;
  hazard_second : NodeId;
  hazard_kind : HazardKind;
  hazard_overlap : DeviceRegion }.

#[export] Instance Hazard_eq_dec : EqDecision Hazard.
Proof. solve_decision. Defined.

Inductive CompileError : Type :=
| Cycle (nodes : list NodeId)
| UnorderedHazards (hazards : list Hazard)
| InvalidKernargAbi (kernel : string) (cause : KernargAbiError)
| ConflictingScalarSlotSize (slot : ScalarSlotId) (first second : Z)
| ConflictingKernelIdentity (kernel : string).

(** ** Topological order *)

(** The loop counting incoming edges. *)
Definition count_indegree (r : Recorder) : result CompileError (list nat) :=
  try_fold (λ indegree '(_, target),
      degree ← index indegree (node_index target);
      store indegree (node_index target) (S degree))
    (replicate (length (nodes r)) 0) (edges r).

(** The nodes without incoming edges, collected into the ready set. *)
Definition initial_ready (r : Recorder) (indegree : list nat)
    : result CompileError (list NodeId) :=
  try_fold (λ ready node,
      degree ← index indegree (node_index (node_id node));
      Ok (if bool_decide (degree = 0) then bset_insert (node_id node) ready else ready))
    [] (nodes r).

(** The body of the inner [for] loop: one outgoing edge of the emitted node.
    [*degree -= 1] on zero is an arithmetic overflow. *)
Definition relax (s : list nat * list NodeId) (target : NodeId)
    : result CompileError (list nat * list NodeId) :=
  let '(indegree, ready) := s in
  degree ← index indegree (node_index target);
  match degree with
  | O => Panic
  | S degree =>
      indegree ← store indegree (node_index target) degree;
      Ok (indegree, if bool_decide (degree = 0) then bset_insert target ready else ready)
  end.

(** The [while let Some(node) = ready.pop_first()] loop. *)
Fixpoint kahn (edges : list (NodeId * NodeId)) (fuel : nat)
    (indegree : list nat) (ready order : list NodeId)
    : result CompileError (list nat * list NodeId) :=
  match fuel with
  | O => Panic
  | S fuel =>
    match ready with
    | [] => Ok (indegree, order)
    | node :: ready =>
        '(indegree, ready) ← try_fold relax (indegree, ready) (successors edges node);
        kahn edges fuel indegree ready (order ++ [node])
    end
  end.

(** The nodes a cycle error names. *)
Definition stuck_nodes (r : Recorder) (indegree : list nat) : result CompileError (list NodeId) :=
  try_fold (λ stuck node,
      degree ← index indegree (node_index (node_id node));
      Ok (if bool_decide (degree = 0) then stuck else stuck ++ [node_id node]))
    [] (nodes r).

(** [topological_order] *)
Definition topological_order (r : Recorder) : result CompileError (list NodeId) :=
  indegree ← count_indegree r;
  ready ← initial_ready r indegree;
  '(indegree, order) ← kahn (edges r) (S (length (nodes r))) indegree ready [];
  if bool_decide (length order = length (nodes r)) then Ok order
  else stuck ← stuck_nodes r indegree; Err (Cycle stuck).

(** ** Reachability *)

(** [for (x, y) in row.iter_mut().zip(descendants) { *x |= y }] *)
Fixpoint or_into (row descendants : list bool) : list bool :=
  match row, descendants with
  | x :: row, y :: descendants => (x || y) :: or_into row descendants
  | row, _ => row
  end.

(** One outgoing edge of [node] in the loop of [reachability]. *)
Definition absorb {E} (node : NodeId) (reachable : list (list bool)) (target : NodeId)
    : result E (list (list bool)) :=
  row ← index reachable (node_index node);
  row ← store row (node_index target) true;
  let reachable := <[node_index node := row]> reachable in
  descendants ← index reachable (node_index target);
  store reachable (node_index node) (or_into row descendants).

(** [reachability] *)
Definition reachability (r : Recorder) (order : list NodeId)
    : result CompileError (list (list bool)) :=
  let count := length (nodes r) in
  try_fold (λ reachable node, try_fold (absorb node) reachable (successors (edges r) node))
    (replicate count (replicate count false)) (reverse order).

(** ** Hazards *)

(** The match on the two access modes; two reads do not conflict. *)
Definition conflict_kind (first second : AccessMode) : option HazardKind :=
  match first, second with
  | Read, Read => None
  | Write, Read => Some ReadAfterWrite
  | Read, Write => Some WriteAfterRead
  | Write, Write => Some WriteAfterWrite
  end.

(** The conflicts between the accesses of two dispatches, in loop order. *)
Definition access_conflicts (first second : list Access) : list (HazardKind * DeviceRegion) :=
  first ≫= λ a, second ≫= λ b,
    match intersection (access_region a) (access_region b) with
    | None => []
    | Some overlap =>
        match conflict_kind (access_mode a) (access_mode b) with
        | None => []
        | Some kind => [(kind, overlap)]
        end
    end.

(** The body of the double loop of [unordered_hazards] for one pair. *)
Definition pair_hazards (r : Recorder) (first_index second_index : nat)
    (first_reachable second_reachable : list bool) : result CompileError (list Hazard) :=
  forward ← index first_reachable second_index;
  backward ← (if forward : bool then Ok true else index second_reachable first_index);
  if backward : bool then Ok []
  else
    first ← index (nodes r) first_index;
    second ← index (nodes r) second_index;
    Ok ((λ '(kind, overlap), mkHazard (node_id first) (node_id second) kind overlap)
          <$> access_conflicts (node_accesses first) (node_accesses second)).

(** [unordered_hazards] *)
Definition unordered_hazards (r : Recorder) (reachable : list (list bool))
    : result CompileError (list Hazard) :=
  try_fold (λ hazards '(first_index, first_reachable),
      try_fold (λ hazards '(second_index, second_reachable),
          found ← pair_hazards r first_index second_index first_reachable second_reachable;
          Ok (hazards ++ found))
        hazards (drop (S first_index) (enumerate reachable)))
    [] (enumerate reachable).

(** ** Correctness of the topological order *)

(** [order] lists every prerequisite before its dependents. *)
Definition dependency_order (es : list (NodeId * NodeId)) (order : list NodeId) : Prop :=
  ∀ i v u, order !! i = Some v → edge es u v → ∃ j, j < i ∧ order !! j = Some u.

Section kahn_proof.
Context (es : list (NodeId * NodeId)) (own : Z) (n : nat).

Definition vnode (v : NodeId) : Prop := node_owner v = own ∧ node_index v < n.

Context (Hes : ∀ a b, edge es a b → vnode a ∧ vnode b) (Hnd : NoDup es).

(** Edges of [l] into [v] whose source has not been emitted. *)
Definition in_count (l : list (NodeId * NodeId)) (order : list NodeId) (v : NodeId) : nat :=
  length (filter (λ e, e.2 = v ∧ e.1 ∉ order) l).

Lemma vnode_eq u v : vnode u → vnode v → node_index u = node_index v → u = v.
Proof using Type. intros [Hu _] [Hv _] Hi. destruct u, v. cbn in *. congruence. Qed.

Lemma vnode_bound (l : list NodeId) : NoDup l → Forall vnode l → length l ≤ n.
Proof using Type.
  clear Hes Hnd.
  intros Hl Hv. rewrite Forall_forall in Hv.
  assert (NoDup (node_index <$> l)) as Hi.
  { apply NoDup_fmap_2_strong; [|done]. intros x y Hx Hy. apply vnode_eq; auto. }
  pose proof (submseteq_length (node_index <$> l) (seq 0 n)) as Hle.
  rewrite length_fmap, length_seq in Hle. apply Hle, NoDup_submseteq; [done|].
  intros i (v & -> & Hin)%list_elem_of_fmap. apply elem_of_seq.
  destruct (Hv v Hin). lia.
Qed.

Lemma vnode_complete (l : list NodeId) v :
  NoDup l → Forall vnode l → length l = n → vnode v → v ∈ l.
Proof using Type.
  clear Hes Hnd.
  intros Hl Hv Hlen Hvn. destruct (decide (v ∈ l)) as [|Hin]; [done|].
  pose proof (vnode_bound (v :: l)) as H. cbn in H.
  assert (S (length l) ≤ n); [|lia]. apply H; constructor; auto.
Qed.

Lemma in_count_snoc l e order v :
  in_count (l ++ [e]) order v =
    in_count l order v + (if bool_decide (e.2 = v ∧ e.1 ∉ order) then 1 else 0).
Proof using Type.
  clear Hes Hnd.
  unfold in_count. rewrite filter_app, length_app. f_equal.
  rewrite filter_cons, filter_nil. case_bool_decide; case_decide; done.
Qed.

Lemma in_count_0 order v u :
  in_count es order v = 0 → edge es u v → u ∈ order.
Proof using Type.
  clear Hes Hnd.
  intros H Huv. destruct (decide (u ∈ order)) as [|Hu]; [done|].
  apply length_zero_iff_nil in H.
  assert ((u, v) ∈ filter (λ e, e.2 = v ∧ e.1 ∉ order) es) as Hin.
  { apply list_elem_of_filter. done. }
  rewrite H in Hin. by apply not_elem_of_nil in Hin.
Qed.

Lemma in_count_pos order v :
  (0 < in_count es order v) ↔ (∃ u, edge es u v ∧ u ∉ order).
Proof using Type.
  clear Hes Hnd.
  split.
  - unfold in_count. destruct (filter _ es) as [|[u w] l] eqn:E; cbn; [lia|]. intros _.
    assert ((u, w) ∈ filter (λ e, e.2 = v ∧ e.1 ∉ order) es) as Hin by (rewrite E; set_solver).
    apply list_elem_of_filter in Hin as [[Hw Hu] Hin]. cbn in *. subst. by exists u.
  - intros (u & Huv & Hu). destruct (decide (in_count es order v = 0)) as [H|]; [|lia].
    by eapply in_count_0 in H.
Qed.

(** Emitting a node removes its edge, if any, from the count. *)
Lemma in_count_emit order node v : node ∉ order →
  in_count es order v =
    in_count es (order ++ [node]) v +
    (if bool_decide (v ∈ successors es node) then 1 else 0).
Proof using Hnd.
  intros Hn. unfold in_count. clear Hes.
  induction Hnd as [|[a b] l Hin Hl IH]; [done|]. specialize (IH Hl).
  rewrite !filter_cons, successors_cons. cbn [fst snd].
  destruct (decide (a = node)) as [->|Ha].
  - rewrite (bool_decide_eq_true_2 (node = node)) by done.
    rewrite (decide_False (P := b = v ∧ node ∉ order ++ [node])) by set_solver.
    destruct (decide (b = v)) as [->|Hb].
    + rewrite decide_True by done. cbn [length].
      assert (v ∉ successors l node) as Hv by (rewrite elem_of_successors; done).
      rewrite (bool_decide_eq_false_2 (v ∈ successors l node)) in IH by done.
      rewrite bool_decide_eq_true_2 by set_solver. lia.
    + rewrite decide_False by naive_solver.
      rewrite IH. f_equal. apply f_equal with (f := λ b : bool, if b then 1 else 0).
      apply bool_decide_ext. set_solver.
  - rewrite (bool_decide_eq_false_2 (a = node)) by done. cbn [app].
    destruct (decide (b = v ∧ a ∉ order)) as [H1|H1],
      (decide (b = v ∧ a ∉ order ++ [node])) as [H2|H2];
      cbn [length]; [lia|set_solver..|lia].
Qed.

(** The state of the loop between iterations. *)
Record kahn_inv (indegree : list nat) (ready order : list NodeId) : Prop := {
  ki_len : length indegree = n;
  ki_count v : vnode v → indegree !! node_index v = Some (in_count es order v);
  ki_sorted : bset_sorted ready;
  ki_ready v : v ∈ ready ↔ vnode v ∧ v ∉ order ∧ in_count es order v = 0;
  ki_order : Forall vnode order;
  ki_nodup : NoDup order;
  ki_topo : dependency_order es order }.

(** What the inner loop does to degrees and the ready set. *)
Lemma relax_all ts : NoDup ts → Forall vnode ts → ∀ indegree ready,
  length indegree = n → bset_sorted ready →
  (∀ v, v ∈ ts → ∃ d, indegree !! node_index v = Some (S d)) →
  ∃ indegree' ready',
    try_fold relax (indegree, ready) ts = Ok (indegree', ready') ∧
    length indegree' = n ∧ bset_sorted ready' ∧
    (∀ v d, vnode v → indegree !! node_index v = Some d →
      indegree' !! node_index v = Some (if bool_decide (v ∈ ts) then pred d else d)) ∧
    (∀ v, v ∈ ready' ↔ v ∈ ready ∨ (v ∈ ts ∧ indegree !! node_index v = Some 1)).
Proof using Type.
  clear Hes Hnd.
  induction ts as [|t ts IH]; intros Hts Hvs indegree ready Hlen Hsort Hpos.
  - exists indegree, ready. split; [done|]. split; [done|]. split; [done|].
    split; [|set_solver]. intros v d _ Hd. by rewrite bool_decide_eq_false_2 by set_solver.
  - apply NoDup_cons in Hts as [Ht Hts]. apply Forall_cons in Hvs as [Hvt Hvs].
    destruct (Hpos t) as [d Hd]; [set_solver|].
    assert (node_index t < length indegree) as Hlt by by eapply lookup_lt_Some.
    set (ready1 := if bool_decide (d = 0) then bset_insert t ready else ready).
    assert (relax (indegree, ready) t = Ok (<[node_index t := d]> indegree, ready1)) as Hr.
    { unfold relax, index, store. rewrite Hd. cbn.
      by rewrite (bool_decide_eq_true_2 (node_index t < length indegree)). }
    rewrite Forall_forall in Hvs.
    assert (∀ v, vnode v → v ≠ t → node_index t ≠ node_index v) as Hidx.
    { intros v Hv Hne Heq. apply Hne. symmetry. by apply vnode_eq. }
    destruct (IH Hts (proj2 (Forall_forall _ _) Hvs) (<[node_index t := d]> indegree) ready1)
      as (i' & r' & Hf & Hl' & Hs' & Hc' & Hr').
    + by rewrite length_insert.
    + subst ready1. case_bool_decide; [by apply bset_insert_sorted|done].
    + intros v Hv. rewrite list_lookup_insert_ne; [apply Hpos; set_solver|].
      apply Hidx; [auto|]. by intros ->.
    + exists i', r'. split; [rewrite try_fold_cons, Hr; exact Hf|]. split; [done|]. split; [done|].
      split.
      * intros v e Hv He. destruct (decide (v = t)) as [->|Hne].
        -- rewrite bool_decide_eq_true_2 by set_solver.
           rewrite (Hc' t d Hvt) by by apply list_lookup_insert_eq.
           rewrite bool_decide_eq_false_2 by done. naive_solver.
        -- rewrite (Hc' v e Hv) by (rewrite list_lookup_insert_ne by auto; done).
           f_equal. apply f_equal with (f := λ b : bool, if b then pred e else e).
           apply bool_decide_ext. set_solver.
      * intros v. rewrite Hr', elem_of_cons. subst ready1.
        destruct (decide (v = t)) as [->|Hne].
        -- rewrite Hd. case_bool_decide; [rewrite elem_of_bset_insert|]; subst; naive_solver.
        -- assert (v ∈ ts ∧ <[node_index t := d]> indegree !! node_index v = Some 1 ↔
             v ∈ ts ∧ indegree !! node_index v = Some 1) as ->.
           { split; intros [Hv Hi]; (split; [done|]);
               (rewrite list_lookup_insert_ne in * by auto; done). }
           case_bool_decide; [rewrite elem_of_bset_insert|]; tauto.
Qed.

Lemma dependency_order_snoc order v :
  dependency_order es order → (∀ u, edge es u v → u ∈ order) →
  dependency_order es (order ++ [v]).
Proof using Type.
  clear Hes Hnd.
  intros Ho Hv i w u Hi Hu. apply lookup_app_Some in Hi as [Hi|[Hi Hi']].
  - destruct (Ho i w u Hi Hu) as (j & Hj & Hjo). exists j. split; [done|].
    by apply lookup_app_l_Some.
  - apply list_lookup_singleton_Some in Hi' as [Hi0 <-].
    apply Hv, list_elem_of_lookup in Hu as [j Hj]. exists j.
    split; [apply lookup_lt_Some in Hj; lia|]. by apply lookup_app_l_Some.
Qed.

Lemma kahn_step indegree node ready order :
  kahn_inv indegree (node :: ready) order →
  ∃ indegree' ready',
    try_fold relax (indegree, ready) (successors es node) = Ok (indegree', ready') ∧
    kahn_inv indegree' ready' (order ++ [node]).
Proof using Hes Hnd.
  intros [Hlen Hcount Hsort Hready Hord Hdup Htopo].
  destruct (proj1 (Hready node)) as (Hvn & Hno & Hz); [set_solver|].
  assert (∀ v, v ∈ successors es node → vnode v) as Hsv.
  { intros v Hv%elem_of_successors. by apply (Hes node v). }
  assert (∀ v, v ∈ successors es node → 0 < in_count es order v) as Hsp.
  { intros v Hv%elem_of_successors. apply in_count_pos. eauto. }
  destruct (relax_all (successors es node)) with (indegree := indegree) (ready := ready)
    as (i' & r' & Hf & Hl' & Hs' & Hc' & Hr').
  - by apply NoDup_successors.
  - apply Forall_forall. auto.
  - done.
  - by eapply bset_sorted_tail.
  - intros v Hv. rewrite Hcount by auto. specialize (Hsp v Hv).
    exists (pred (in_count es order v)). f_equal. lia.
  - assert (∀ v, in_count es order v = in_count es (order ++ [node]) v +
      (if bool_decide (v ∈ successors es node) then 1 else 0)) as He.
    { intros v. by apply in_count_emit. }
    assert (node ∉ ready) as Hnr.
    { apply bset_sorted_NoDup in Hsort. by inversion Hsort. }
    exists i', r'. split; [done|]. split; [done|..]; try done.
    + intros v Hv. rewrite (Hc' v _ Hv (Hcount v Hv)). f_equal. rewrite (He v).
      case_bool_decide; lia.
    + intros v. rewrite Hr'. specialize (Hready v). specialize (He v).
      rewrite elem_of_cons in Hready. rewrite elem_of_app, list_elem_of_singleton. split.
      * intros [Hv|[Hv Hone]].
        -- destruct (proj1 Hready) as (Hvv & Hvo & Hv0); [auto|].
           split; [done|]. split; [naive_solver|]. lia.
        -- rewrite Hcount in Hone by auto. specialize (Hsv v Hv).
           rewrite bool_decide_eq_true_2 in He by done. injection Hone as Hone.
           split; [done|]. split; [|lia]. intros [Hvo| ->]; [|lia].
           apply elem_of_successors in Hv.
           apply list_elem_of_lookup in Hvo as [i Hi].
           destruct (Htopo i v node Hi Hv) as (j & _ & Hj).
           apply Hno. apply list_elem_of_lookup. eauto.
      * intros (Hvv & Hvo & Hv0). case_bool_decide as Hvs.
        -- right. split; [done|]. rewrite Hcount by done. f_equal. lia.
        -- left. destruct (proj2 Hready) as [->|]; [|tauto|done].
           split; [done|]. split; [tauto|lia].
    + apply Forall_app. split; [done|]. by constructor.
    + apply NoDup_app. split; [done|]. split; [|apply NoDup_singleton].
      intros v Hv ->%list_elem_of_singleton. done.
    + apply dependency_order_snoc; [done|]. intros u Hu. by eapply in_count_0.
Qed.

Lemma kahn_total fuel : ∀ indegree ready order,
  kahn_inv indegree ready order → n < fuel + length order →
  ∃ indegree' order', kahn es fuel indegree ready order = Ok (indegree', order') ∧
    kahn_inv indegree' [] order'.
Proof using Hes Hnd.
  induction fuel as [|fuel IH]; intros indegree ready order Hinv Hfuel.
  - destruct Hinv. pose proof (vnode_bound order). cbn in Hfuel. intuition lia.
  - cbn. destruct ready as [|node ready]; [eauto|].
    destruct (kahn_step _ _ _ _ Hinv) as (i' & r' & Hf & Hinv'). rewrite Hf. cbn.
    apply IH; [done|]. rewrite length_app. cbn. lia.
Qed.

(** In an acyclic graph nothing stays behind. *)
Lemma kahn_complete indegree order :
  acyclic es → kahn_inv indegree [] order → length order = n.
Proof using Hes Hnd.
  intros Hac Hinv. destruct (decide (length order = n)) as [|Hne]; [done|]. exfalso.
  assert (∀ v, vnode v → v ∉ order → False) as Hnone.
  { intros v Hv Hvo.
    assert (sn (flip (edge es)) v) as Hsn.
    { apply tc_finite_sn.
      - intros x Hx. apply (Hac x). by apply tc_flip_1 in Hx.
      - exists es.*1. intros x Hx.
        assert (∃ y, edge es x y) as [y Hxy].
        { apply tc_flip_1 in Hx. inversion Hx; eauto. }
        apply list_elem_of_fmap. by exists (x, y). }
    induction Hsn as [v _ IH].
    assert (0 < in_count es order v) as Hpos.
    { destruct (decide (in_count es order v = 0)) as [H0|]; [|lia].
      assert (v ∈ @nil NodeId) as Hin by by apply (ki_ready _ _ _ Hinv).
      by apply not_elem_of_nil in Hin. }
    apply in_count_pos in Hpos as (u & Huv & Huo).
    apply (IH u Huv); [|done]. by apply (Hes u v). }
  destruct Hinv as [_ _ _ _ Hord Hdup _].
  pose proof (vnode_bound order Hdup Hord) as Hle.
  assert (length ((λ i, mkNodeId own i) <$> seq 0 n) ≤ length order) as Hge.
  { apply submseteq_length, NoDup_submseteq.
    - apply NoDup_fmap_2_strong; [by intros ? ? _ _ [= ->]|apply NoDup_seq].
    - intros v (i & -> & Hi%elem_of_seq)%list_elem_of_fmap.
      destruct (decide (mkNodeId own i ∈ order)) as [|Hvo]; [done|].
      exfalso. eapply Hnone; [|done]. split; cbn; [done|lia]. }
  rewrite length_fmap, length_seq in Hge. lia.
Qed.
End kahn_proof.

Section topological_order.
Context (r : Recorder) (Hwf : rec_wf r).
Let n := length (nodes r).

Lemma edge_vnodes a b : edge (edges r) a b → vnode (owner r) n a ∧ vnode (owner r) n b.
Proof using Hwf. apply (wf_edges r Hwf). Qed.

Lemma edges_NoDup : NoDup (edges r).
Proof using Hwf. apply bset_sorted_NoDup, (wf_edges_sorted r Hwf). Qed.

Lemma node_id_vnode i nd : nodes r !! i = Some nd →
  vnode (owner r) n (node_id nd) ∧ node_index (node_id nd) = i.
Proof using Hwf.
  intros Hi. rewrite (wf_node_ids r Hwf i nd Hi). split; [|done]. split; cbn; [done|].
  by eapply lookup_lt_Some.
Qed.

Lemma vnode_lookup v : vnode (owner r) n v →
  ∃ nd, nodes r !! node_index v = Some nd ∧ node_id nd = v.
Proof using Hwf.
  intros [Ho Hi]. apply lookup_lt_is_Some in Hi as [nd Hnd]. exists nd. split; [done|].
  rewrite (wf_node_ids r Hwf _ _ Hnd). destruct v. cbn in *. by subst.
Qed.

Lemma count_indegree_total :
  ∃ indegree, count_indegree r = Ok indegree ∧ length indegree = n ∧
    ∀ v, vnode (owner r) n v → indegree !! node_index v = Some (in_count (edges r) [] v).
Proof using Hwf.
  unfold count_indegree.
  destruct (try_fold_total (E := CompileError) (λ l s, length s = n ∧
      ∀ v, vnode (owner r) n v → s !! node_index v = Some (in_count l [] v))
    (λ indegree '(_, target), degree ← index indegree (node_index target);
      store indegree (node_index target) (S degree))
    (edges r) [] (replicate n 0)) as (s & Hs & Hlen & Hc).
  - split; [apply length_replicate|]. intros v [_ Hv]. by apply lookup_replicate_2.
  - intros d [a b] rest s Heq [Hlen Hc]. cbn in Heq.
    assert (vnode (owner r) n b) as Hb.
    { apply (edge_vnodes a b). unfold edge. rewrite Heq. set_solver. }
    exists (<[node_index b := S (in_count d [] b)]> s). split; [|split].
    + unfold index. rewrite Hc by done. cbn. apply store_Ok. split; [|done].
      destruct Hb. lia.
    + by rewrite length_insert.
    + intros v Hv. rewrite in_count_snoc. cbn.
      destruct (decide (b = v)) as [->|Hne].
      * rewrite bool_decide_eq_true_2 by set_solver. rewrite Nat.add_1_r.
        apply list_lookup_insert_eq. destruct Hv. lia.
      * rewrite bool_decide_eq_false_2 by naive_solver. rewrite Nat.add_0_r.
        rewrite list_lookup_insert_ne; [by apply Hc|].
        intros Hi. apply Hne. by apply (vnode_eq (owner r) n).
  - exists s. done.
Qed.

Lemma initial_ready_total indegree :
  length indegree = n →
  (∀ v, vnode (owner r) n v → indegree !! node_index v = Some (in_count (edges r) [] v)) →
  ∃ ready, initial_ready r indegree = Ok ready ∧ bset_sorted ready ∧
    ∀ v, v ∈ ready ↔ vnode (owner r) n v ∧ in_count (edges r) [] v = 0.
Proof using Hwf.
  intros Hlen Hc. unfold initial_ready.
  destruct (try_fold_total (E := CompileError) (λ l s, bset_sorted s ∧
      ∀ v, v ∈ s ↔ v ∈ (node_id <$> l) ∧ in_count (edges r) [] v = 0)
    (λ ready node, degree ← index indegree (node_index (node_id node));
      Ok (if bool_decide (degree = 0) then bset_insert (node_id node) ready else ready))
    (nodes r) [] []) as (s & Hs & Hsort & Hin).
  - split; [constructor|]. set_solver.
  - intros d nd rest s Heq [Hsort Hin]. cbn in Heq.
    assert (nodes r !! length d = Some nd) as Hnd by (rewrite Heq; by apply list_lookup_middle).
    destruct (node_id_vnode _ _ Hnd) as [Hv _].
    unfold index. rewrite Hc by done. cbn. eexists. split; [done|].
    rewrite fmap_app. change (node_id <$> [nd]) with [node_id nd].
    case_bool_decide as Hz.
    + split; [by apply bset_insert_sorted|]. intros v.
      rewrite elem_of_bset_insert, Hin, elem_of_app, list_elem_of_singleton. naive_solver.
    + split; [done|]. intros v.
      rewrite Hin, elem_of_app, list_elem_of_singleton. naive_solver.
  - exists s. split; [done|]. split; [done|]. intros v. rewrite Hin. cbn.
    rewrite list_elem_of_fmap. split.
    + intros [(nd & -> & [i Hi]%list_elem_of_lookup) Hz]. split; [|done].
      by eapply node_id_vnode.
    + intros [Hv Hz]. split; [|done]. destruct (vnode_lookup v Hv) as (nd & Hi & <-).
      exists nd. split; [done|]. by eapply list_elem_of_lookup_2.
Qed.

Lemma topological_order_Ok :
  ∃ order, topological_order r = Ok order ∧ NoDup order ∧
    length order = length (nodes r) ∧
    (∀ v, v ∈ order ↔ valid_node r v) ∧ dependency_order (edges r) order.
Proof using Hwf.
  destruct count_indegree_total as (indeg & Hi & Hlen & Hc).
  destruct (initial_ready_total indeg Hlen Hc) as (ready & Hr & Hsort & Hin).
  assert (kahn_inv (edges r) (owner r) n indeg ready []) as Hinv.
  { split; try done; [|by constructor..]. intros v. rewrite Hin. set_solver. }
  destruct (kahn_total _ _ _ edge_vnodes edges_NoDup (S n) _ _ _ Hinv)
    as (i' & order & Hk & Hinv'); [cbn; lia|].
  pose proof (kahn_complete _ _ _ edge_vnodes edges_NoDup _ _ (wf_acyclic r Hwf) Hinv') as Hcomp.
  exists order. unfold topological_order. rewrite Hi. cbn [mbind result_bind].
  rewrite Hr. cbn [mbind result_bind]. fold n. rewrite Hk. cbn [mbind result_bind].
  rewrite bool_decide_eq_true_2 by done.
  destruct Hinv' as [_ _ _ _ Hord Hdup Htopo].
  split; [done|]. split; [done|]. split; [done|]. split; [|done]. intros v. split.
  - rewrite Forall_forall in Hord. apply Hord.
  - intros Hv. by apply (vnode_complete (owner r) n).
Qed.
End topological_order.

(** C23: on every recorder the public interface can build, the topological sort
    terminates without panic and without reporting a cycle, and its result
    lists every recorded node exactly once with each prerequisite before its
    dependents. *)
Theorem topological_order_correct r :
  recorded r →
  ∃ order, topological_order r = Ok order ∧ NoDup order ∧
    length order = length (nodes r) ∧
    (∀ v, v ∈ order ↔ valid_node r v) ∧ dependency_order (edges r) order.
Proof. intros Hr. apply topological_order_Ok, recorded_rec_wf, Hr. Qed.

Lemma topological_order_correct_witness :
  topological_order demo = Ok [demo_project; demo_consume] ∧
  dependency_order (edges demo) [demo_project; demo_consume].
Proof.
  split; [vm_compute; reflexivity|].
  destruct (topological_order_correct demo demo_recorded) as (o & Ho & _ & _ & _ & Hd).
  vm_compute in Ho. injection Ho as <-. exact Hd.
Defined.

(** ** Correctness of the reachability matrix *)

(** Entry [(u, w)] of the matrix is set. *)
Definition reach (M : list (list bool)) (u w : NodeId) : Prop :=
  ∃ row, M !! node_index u = Some row ∧ row !! node_index w = Some true.

Definition square (n : nat) (M : list (list bool)) : Prop :=
  length M = n ∧ ∀ i row, M !! i = Some row → length row = n.

Lemma length_or_into row ds : length (or_into row ds) = length row.
Proof. revert ds. induction row; intros [|]; cbn; auto. Qed.

Lemma or_into_true row ds i : length row = length ds →
  or_into row ds !! i = Some true ↔ row !! i = Some true ∨ ds !! i = Some true.
Proof.
  revert ds i. induction row as [|x row IH]; intros [|y ds] [|i] Hl; try discriminate Hl; cbn.
  - naive_solver.
  - naive_solver.
  - destruct x, y; naive_solver.
  - apply IH. cbn in Hl. lia.
Qed.

Section reach_proof.
Context {E : Type} (own : Z) (n : nat).
Local Abbreviation vn := (vnode own n).

Lemma absorb_one M v t : vn v → vn t → v ≠ t → square n M →
  ∃ M', absorb (E := E) v M t = Ok M' ∧ square n M' ∧
    (∀ u w, vn u → u ≠ v → reach M' u w ↔ reach M u w) ∧
    (∀ w, vn w → reach M' v w ↔ reach M v w ∨ w = t ∨ reach M t w).
Proof.
  intros Hv Ht Hne [HM Hrows]. pose proof Hv as [_ Hvi]. pose proof Ht as [_ Hti].
  destruct (lookup_lt_is_Some_2 M (node_index v)) as [row Hrow]; [lia|].
  destruct (lookup_lt_is_Some_2 M (node_index t)) as [trow Htrow]; [lia|].
  pose proof (Hrows _ _ Hrow) as Hlrow. pose proof (Hrows _ _ Htrow) as Hltrow.
  assert (node_index v ≠ node_index t) as Hidx.
  { intros Heq. apply Hne. by apply (vnode_eq own n). }
  set (row' := or_into (<[node_index t := true]> row) trow).
  assert (∀ u, vn u → u ≠ v → <[node_index v := row']> M !! node_index u = M !! node_index u)
    as Hother.
  { intros u Hu Huv. apply list_lookup_insert_ne. intros Heq. apply Huv.
    by apply (vnode_eq own n). }
  exists (<[node_index v := row']> M). split; [|split; [split|split]].
  - unfold absorb, index. rewrite Hrow. cbn. unfold store.
    rewrite (bool_decide_eq_true_2 (node_index t < length row)) by lia. cbn.
    rewrite list_lookup_insert_ne, Htrow by done. cbn.
    rewrite length_insert, bool_decide_eq_true_2 by lia.
    by rewrite list_insert_insert_eq.
  - by rewrite length_insert.
  - intros i rw Hi. apply list_lookup_insert_Some in Hi as [(_ & <- & _)|[_ Hi]]; [|by eauto].
    unfold row'. by rewrite length_or_into, length_insert.
  - intros u w Hu Huv. unfold reach. by rewrite Hother.
  - intros w Hw. unfold reach.
    assert (or_into (<[node_index t := true]> row) trow !! node_index w = Some true ↔
      row !! node_index w = Some true ∨ w = t ∨ trow !! node_index w = Some true) as Hor.
    { rewrite or_into_true by (rewrite length_insert; lia).
      destruct (decide (w = t)) as [->|Hwt].
      - rewrite list_lookup_insert_eq by lia. tauto.
      - rewrite list_lookup_insert_ne; [tauto|].
        intros Heq. apply Hwt. symmetry. by apply (vnode_eq own n). }
    rewrite list_lookup_insert_eq, Hrow, Htrow by lia. fold row' in Hor. naive_solver.
Qed.

Lemma absorb_all v ts M : vn v → Forall vn ts → v ∉ ts → square n M →
  ∃ M', try_fold (absorb (E := E) v) M ts = Ok M' ∧ square n M' ∧
    (∀ u w, vn u → u ≠ v → reach M' u w ↔ reach M u w) ∧
    (∀ w, vn w → reach M' v w ↔ reach M v w ∨ ∃ t, t ∈ ts ∧ (w = t ∨ reach M t w)).
Proof.
  revert M. induction ts as [|t ts IH]; intros M Hv Hts Hin Hsq.
  - exists M. split; [done|]. split; [done|]. split; [done|]. set_solver.
  - apply Forall_cons in Hts as [Ht Hts]. apply not_elem_of_cons in Hin as [Hvt Hin].
    destruct (absorb_one M v t) as (M1 & H1 & Hsq1 & Ho1 & Hr1); [done..|].
    destruct (IH M1) as (M2 & H2 & Hsq2 & Ho2 & Hr2); [done..|].
    exists M2. split; [rewrite try_fold_cons, H1; exact H2|]. split; [done|]. split.
    + intros u w Hu Huv. by rewrite Ho2, Ho1.
    + intros w Hw. rewrite Hr2, Hr1 by done. setoid_rewrite elem_of_cons.
      rewrite Forall_forall in Hts. split.
      * intros [[|[|]]|(t' & Ht' & [|Hw'])]; [by auto|by eauto 6..|].
        right. exists t'. split; [by auto|]. right. apply Ho1 in Hw'; [done|by auto|].
        by intros ->.
      * intros [|(t' & [->|Ht'] & Hw')]; [by auto|by tauto|].
        right. exists t'. split; [done|]. destruct Hw' as [|Hw']; [by auto|]. right.
        apply Ho1; [by auto| |done]. by intros ->.
Qed.
End reach_proof.

(** Later nodes of a dependency order are the only ones an edge can reach. *)
Lemma dependency_order_later es order d v t rest :
  dependency_order es order → NoDup order → t ∈ order → edge es v t →
  reverse order = d ++ v :: rest → t ∈ d.
Proof.
  intros Hdep Hnd Ht Hvt Hrev.
  assert (order = reverse rest ++ v :: reverse d) as Ho.
  { rewrite <- (reverse_involutive order), Hrev, reverse_app, reverse_cons, <- app_assoc. done. }
  apply list_elem_of_lookup in Ht as [i Hi].
  destruct (Hdep i t v Hi Hvt) as (j & Hji & Hj).
  assert (order !! length (reverse rest) = Some v) as Hv.
  { rewrite Ho. by apply list_lookup_middle. }
  assert (j = length (reverse rest)) as -> by (eapply NoDup_lookup; eauto).
  rewrite Ho in Hi. rewrite lookup_app_r, lookup_cons_ne_0 in Hi by lia.
  apply list_elem_of_lookup_2 in Hi. by rewrite elem_of_reverse in Hi.
Qed.

Lemma tc_first {A} (R : relation A) x z : tc R x z ↔ ∃ y, R x y ∧ (z = y ∨ tc R y z).
Proof.
  split.
  - inversion 1; subst; eauto.
  - intros (y & Hxy & [->|Hyz]); [by constructor|by eapply tc_l].
Qed.

Lemma reachability_Ok r order :
  rec_wf r → NoDup order → (∀ v, v ∈ order ↔ valid_node r v) →
  dependency_order (edges r) order →
  ∃ M, reachability r order = Ok M ∧ square (length (nodes r)) M ∧
    ∀ u w, valid_node r u → valid_node r w → reach M u w ↔ tc (edge (edges r)) u w.
Proof.
  intros Hwf Hnd Hall Hdep. unfold reachability. set (n := length (nodes r)).
  set (zero := replicate n (replicate n false)).
  assert (square n zero) as Hzero.
  { split; [apply length_replicate|]. intros i row [-> _]%lookup_replicate_1. apply length_replicate. }
  assert (∀ u w, ¬ reach zero u w) as Hempty.
  { intros u w (row & Hrow & Hw). apply lookup_replicate_1 in Hrow as [-> _].
    apply lookup_replicate_1 in Hw as [? _]. done. }
  destruct (try_fold_total (E := CompileError) (λ done M, square n M ∧
      (∀ u w, u ∈ done → valid_node r u → valid_node r w → reach M u w ↔ tc (edge (edges r)) u w) ∧
      (∀ u w, u ∉ done → valid_node r u → valid_node r w → ¬ reach M u w))
    (λ M node, try_fold (absorb node) M (successors (edges r) node)) (reverse order) [] zero)
    as (M & HM & Hsq & Hdone & _).
  - split; [done|]. split; [set_solver|]. auto.
  - intros d v rest M Heq (Hsq & Hd & Hu). cbn in Heq.
    assert (v ∈ order) as Hvo by (rewrite <- elem_of_reverse, Heq; set_solver).
    assert (valid_node r v) as Hv by by apply Hall.
    assert (v ∉ d) as Hvd.
    { rewrite <- (reverse_Permutation order), Heq in Hnd. apply NoDup_app in Hnd as (_ & H & _).
      intros Hin. apply (H v Hin). set_solver. }
    assert (∀ t, edge (edges r) v t → t ∈ d ∧ valid_node r t) as Hsucc.
    { intros t Hvt. assert (valid_node r t) as Ht by by apply (wf_edges r Hwf v t).
      split; [|done]. eapply dependency_order_later; eauto. by apply Hall. }
    destruct (absorb_all (E := CompileError) (owner r) n v (successors (edges r) v) M)
      as (M' & HM' & Hsq' & Ho & Hr).
    + done.
    + apply Forall_forall. intros t Ht%elem_of_successors. by apply Hsucc.
    + intros Ht%elem_of_successors. apply Hvd. by apply Hsucc.
    + done.
    + exists M'. split; [done|]. split; [done|]. split.
      * intros u w Hu' Huv Hwv. destruct (decide (u = v)) as [->|Hne].
        -- rewrite Hr by done. rewrite tc_first. split.
           ++ intros [H|(t & Ht%elem_of_successors & H)]; [by apply Hu in H|].
              exists t. split; [done|]. destruct H as [|H]; [by auto|]. right.
              apply Hd in H; [done|by apply Hsucc|by apply Hsucc|done].
           ++ intros (t & Hvt & H). right. exists t. rewrite elem_of_successors.
              split; [done|]. destruct H as [|H]; [by auto|]. right.
              apply Hd; [by apply Hsucc|by apply Hsucc|done|done].
        -- rewrite Ho by done. apply Hd; [|done..]. set_solver.
      * intros u w Hu' Huv Hwv. rewrite Ho; [apply Hu; [set_solver|done..]|done|set_solver].
  - exists M. split; [done|]. split; [done|]. intros u w Hu Hw. apply Hdone; [|done..].
    cbn. rewrite elem_of_reverse. by apply Hall.
Qed.

(** ** Correctness of the hazard list *)

(** Two access lists touch a common byte and one of the two writes it. *)
Definition conflicting (first second : list Access) : Prop :=
  ∃ a b, a ∈ first ∧ b ∈ second ∧
    overlaps (access_region a) (access_region b) = true ∧
    (access_mode a = Write ∨ access_mode b = Write).

Lemma elem_of_access_conflicts first second kind ov :
  (kind, ov) ∈ access_conflicts first second ↔
    ∃ a b, a ∈ first ∧ b ∈ second ∧
      intersection (access_region a) (access_region b) = Some ov ∧
      conflict_kind (access_mode a) (access_mode b) = Some kind.
Proof.
  unfold access_conflicts. rewrite list_elem_of_bind. setoid_rewrite list_elem_of_bind. split.
  - intros (a & (b & Hin & Hb) & Ha). exists a, b.
    destruct (intersection _ _) as [o|]; [|by apply not_elem_of_nil in Hin].
    destruct (conflict_kind _ _) as [k|]; [|by apply not_elem_of_nil in Hin].
    apply list_elem_of_singleton in Hin. naive_solver.
  - intros (a & b & Ha & Hb & Hi & Hk). exists a. split; [|done]. exists b. split; [|done].
    rewrite Hi, Hk. set_solver.
Qed.

Lemma conflict_kind_None a b : conflict_kind a b = None ↔ ¬ (a = Write ∨ b = Write).
Proof. destruct a, b; naive_solver. Qed.

Lemma conflicting_iff first second :
  conflicting first second ↔ ∃ c, c ∈ access_conflicts first second.
Proof.
  split.
  - intros (a & b & Ha & Hb & Ho & Hw).
    destruct (intersection (access_region a) (access_region b)) as [ov|] eqn:Ei;
      [|apply intersection_None in Ei; congruence].
    destruct (conflict_kind (access_mode a) (access_mode b)) as [k|] eqn:Ek;
      [|by apply conflict_kind_None in Ek].
    exists (k, ov). apply elem_of_access_conflicts. eauto 10.
  - intros [[k ov] (a & b & Ha & Hb & Hi & Hk)%elem_of_access_conflicts].
    exists a, b. apply intersection_Some in Hi as [Ho _]. do 3 (split; [done|]).
    destruct (access_mode a), (access_mode b); naive_solver.
Qed.

Lemma conflicting_sym first second : conflicting first second → conflicting second first.
Proof.
  intros (a & b & Ha & Hb & Ho & Hw). exists b, a. rewrite overlaps_sym. naive_solver.
Qed.

(** [h] reports a conflict of the nodes at [i] and [j]. *)
Definition reports (r : Recorder) (i j : nat) (h : Hazard) : Prop :=
  ∃ ni nj, nodes r !! i = Some ni ∧ nodes r !! j = Some nj ∧
    hazard_first h = node_id ni ∧ hazard_second h = node_id nj ∧
    (hazard_kind h, hazard_overlap h) ∈ access_conflicts (node_accesses ni) (node_accesses nj).

Definition entry (M : list (list bool)) (i j : nat) : Prop :=
  ∃ row, M !! i = Some row ∧ row !! j = Some true.

Section hazards.
Context (r : Recorder) (M : list (list bool)).
Context (Hsq : square (length (nodes r)) M).

Lemma pair_hazards_Ok i j ri rj :
  M !! i = Some ri → M !! j = Some rj →
  ∃ l, pair_hazards r i j ri rj = Ok l ∧
    ∀ h, h ∈ l ↔ ¬ entry M i j ∧ ¬ entry M j i ∧ reports r i j h.
Proof using Hsq.
  destruct Hsq as [HM Hrows]. intros Hi Hj. unfold entry. rewrite Hi, Hj.
  pose proof (lookup_lt_Some _ _ _ Hi) as Hil. pose proof (lookup_lt_Some _ _ _ Hj) as Hjl.
  pose proof (Hrows _ _ Hi) as Hri. pose proof (Hrows _ _ Hj) as Hrj.
  destruct (lookup_lt_is_Some_2 ri j) as [fwd Hf]; [lia|].
  destruct (lookup_lt_is_Some_2 rj i) as [bwd Hb]; [lia|].
  destruct (lookup_lt_is_Some_2 (nodes r) i) as [ni Hni]; [lia|].
  destruct (lookup_lt_is_Some_2 (nodes r) j) as [nj Hnj]; [lia|].
  unfold pair_hazards, index. rewrite Hf. cbn.
  destruct fwd; cbn; [exists []; set_solver|]. rewrite Hb. cbn.
  destruct bwd; cbn; [exists []; set_solver|]. rewrite Hni, Hnj. cbn.
  eexists. split; [done|]. intros h. rewrite list_elem_of_fmap. unfold reports. split.
  - intros ([k ov] & -> & Hin). split; [naive_solver|]. split; [naive_solver|].
    exists ni, nj. done.
  - intros (_ & _ & ni' & nj' & Hni' & Hnj' & H1 & H2 & Hin). simplify_eq.
    exists (hazard_kind h, hazard_overlap h). destruct h; cbn in *; subst. done.
Qed.

Lemma hazard_row_Ok i ri hs :
  M !! i = Some ri →
  ∃ hs', try_fold (λ hazards '(second_index, second_reachable),
        found ← pair_hazards r i second_index ri second_reachable;
        Ok (hazards ++ found)) hs (drop (S i) (enumerate M)) = Ok hs' ∧
    ∀ h, h ∈ hs' ↔ h ∈ hs ∨
      ∃ j, i < j ∧ ¬ entry M i j ∧ ¬ entry M j i ∧ reports r i j h.
Proof using Hsq.
  intros Hi.
  destruct (try_fold_total (E := CompileError) (λ d s, ∀ h, h ∈ s ↔ h ∈ hs ∨
      ∃ j rj, (j, rj) ∈ d ∧ ¬ entry M i j ∧ ¬ entry M j i ∧ reports r i j h)
    (λ hazards '(second_index, second_reachable),
        found ← pair_hazards r i second_index ri second_reachable;
        Ok (hazards ++ found)) (drop (S i) (enumerate M)) [] hs) as (s & Hs & Hin).
  - set_solver.
  - intros d [j rj] rest s Heq Hs. cbn in Heq.
    assert ((j, rj) ∈ enumerate M) as Hj.
    { assert ((j, rj) ∈ drop (S i) (enumerate M)) as Hd by (rewrite Heq; set_solver).
      apply list_elem_of_lookup in Hd as [k Hk]. rewrite lookup_drop in Hk.
      by eapply list_elem_of_lookup_2. }
    apply elem_of_enumerate in Hj.
    destruct (pair_hazards_Ok i j ri rj Hi Hj) as (l & Hl & Hh). rewrite Hl. cbn.
    eexists. split; [done|]. intros h. rewrite elem_of_app, Hs, Hh.
    setoid_rewrite elem_of_app. setoid_rewrite list_elem_of_singleton. split.
    + intros [[|(j' & rj' & Hd & HQ)]|HQ]; [by auto|right; exists j', rj'; by auto|].
      right. exists j, rj. by auto.
    + intros [|(j' & rj' & [Hd|[= -> ->]] & HQ)]; [by auto| |by auto].
      left. right. exists j', rj'. by auto.
  - exists s. split; [done|]. intros h. rewrite Hin. cbn. f_equiv. split.
    + intros (j & rj & Hd & H). exists j. split; [|done].
      apply list_elem_of_lookup in Hd as [k Hk]. rewrite lookup_drop in Hk.
      unfold enumerate in Hk. apply list_lookup_imap_Some in Hk as (? & _ & [= -> _]). lia.
    + intros (j & Hij & H).
      destruct H as (H1 & H2 & ni & nj & Hni & Hnj & H3).
      destruct (lookup_lt_is_Some_2 M j) as [rj Hrj].
      { destruct Hsq. apply lookup_lt_Some in Hnj. lia. }
      exists j, rj. split; [|by unfold reports; eauto 10].
      apply list_elem_of_lookup. exists (j - S i). rewrite lookup_drop.
      replace (S i + (j - S i)) with j by lia.
      unfold enumerate. by rewrite list_lookup_imap, Hrj.
Qed.

Lemma unordered_hazards_Ok :
  ∃ hs, unordered_hazards r M = Ok hs ∧
    ∀ h, h ∈ hs ↔ ∃ i j, i < j ∧ ¬ entry M i j ∧ ¬ entry M j i ∧ reports r i j h.
Proof using Hsq.
  unfold unordered_hazards.
  destruct (try_fold_total (E := CompileError) (λ d s, ∀ h, h ∈ s ↔
      ∃ i ri, (i, ri) ∈ d ∧ ∃ j, i < j ∧ ¬ entry M i j ∧ ¬ entry M j i ∧ reports r i j h)
    (λ hazards '(first_index, first_reachable),
      try_fold (λ hazards '(second_index, second_reachable),
        found ← pair_hazards r first_index second_index first_reachable second_reachable;
        Ok (hazards ++ found))
      hazards (drop (S first_index) (enumerate M))) (enumerate M) [] []) as (s & Hs & Hin).
  - set_solver.
  - intros d [i ri] rest s Heq Hs. cbn in Heq.
    assert ((i, ri) ∈ enumerate M) as Hi by (rewrite Heq; set_solver).
    apply elem_of_enumerate in Hi.
    destruct (hazard_row_Ok i ri s Hi) as (s' & Hs' & Hh). exists s'. split; [done|].
    intros h. rewrite Hh, Hs. setoid_rewrite elem_of_app. setoid_rewrite list_elem_of_singleton.
    split.
    + intros [(i' & ri' & Hd & HQ)|HQ]; [exists i', ri'; by auto|]. exists i, ri. by auto.
    + intros (i' & ri' & [Hd|[= -> ->]] & HQ); [|by auto]. left. exists i', ri'. by auto.
  - exists s. split; [done|]. intros h. rewrite Hin. cbn. split.
    { intros (i & ri & _ & j & HQ). by exists i, j. }
    intros (i & j & H). destruct H as (Hij & H1 & H2 & ni & nj & Hni & H3).
    destruct (lookup_lt_is_Some_2 M i) as [ri Hri].
    { destruct Hsq. apply lookup_lt_Some in Hni. lia. }
    exists i, ri. split; [by apply elem_of_enumerate|].
    exists j. unfold reports. eauto 10.
Qed.
End hazards.
