(* ===== verification/Plan.v ===== *)
(** Compiling a recorded graph into a plan
    (src/crates/redline-dispatch/src/plan.rs and the replay modes of
    src/crates/redline-dispatch/src/backend.rs).

    [compile] validates the kernel contracts, orders the nodes, refuses
    unordered memory hazards and then assigns every dispatch to a lane with a
    greedy list schedule. Lane numbers index a vector and are [nat]; estimated
    times are 64-bit and saturate. The fingerprint is the hash of
    [plan_preimage]; the hash function is the parameter [sha256]. *)

From S2P Require Import Prelude Ir Identity Recorder Graph.

(** ** Options and replay modes *)

(** Replay semantics selected when a plan is compiled. *)
Inductive ReplayMode : Type :=
| TokenLatency
| Throughput (max_tokens_in_flight : Z).

#[export] Instance ReplayMode_eq_dec : EqDecision ReplayMode.
Proof. solve_decision. Defined.

(** [ReplayMode::throughput] *)
Definition ReplayMode_throughput (max_tokens_in_flight : Z) : option ReplayMode :=
  if (max_tokens_in_flight =? 0)%Z then None else Some (Throughput max_tokens_in_flight).

Record ReplayToken := mkReplayToken { token_value : Z }.

#[export] Instance ReplayToken_eq_dec : EqDecision ReplayToken.
Proof. solve_decision. Defined.

Record CompileOptions := mkCompileOptions {
  option_lane_count : nat;
  option_replay_mode : ReplayMode }.

(** [CompileOptions::lanes] *)
Definition CompileOptions_lanes (lane_count : nat) (replay_mode : ReplayMode)
    : option CompileOptions :=
  if bool_decide (lane_count = 0) then None
  else Some (mkCompileOptions lane_count replay_mode).

(** ** Plans *)

Record PlannedResource := mkPlannedResource {
  planned_id : ResourceId;
  planned_label : string;
  planned_size : Z }.

Record PlannedDispatch := mkPlannedDispatch {
  planned_node : NodeId;
  planned_lane : nat;
  planned_launch : KernelLaunch;
  planned_accesses : list Access;
  planned_dependencies : list NodeId;
  estimated_start : Z;
  estimated_end : Z }.

Record CompiledPlan := mkCompiledPlan {
  plan_resources : list PlannedResource;
  plan_dispatches : list PlannedDispatch;
  plan_terminals : list NodeId;
  plan_lane_count : nat;
  plan_replay_mode : ReplayMode;
  plan_fingerprint : list Z }.

(** ** Kernel contracts *)

Definition kernel_identity (l : KernelLaunch)
    : option Sha256Digest * option KernelArtifactIdentity :=
  (abi_hash <$> kernarg_abi l, artifact_identity l).

(** One argument of the slot loop of [validate_kernel_contracts]. *)
Definition check_slot (slots : list (ScalarSlotId * Z)) (argument : KernelArg)
    : result CompileError (list (ScalarSlotId * Z)) :=
  match argument with
  | ScalarSlot slot size =>
      match bmap_get slot slots with
      | Some previous =>
          err_if (negb (previous =? size)%Z) (ConflictingScalarSlotSize slot previous size)
      | None => Ok tt
      end ;;
      Ok (bmap_insert slot size slots)
  | _ => Ok slots
  end.

(** The layout check of [validate_kernel_contracts]. *)
Definition check_abi (launch : KernelLaunch) : result CompileError unit :=
  match kernarg_abi launch with
  | Some abi =>
      map_err (InvalidKernargAbi (kernel launch)) (validate_arguments abi (arguments launch))
  | None => Ok tt
  end.

Abbreviation contract_state :=
  (list (ScalarSlotId * Z) *
   list (string * (option Sha256Digest * option KernelArtifactIdentity)))%type.

(** One node of the loop of [validate_kernel_contracts]. *)
Definition check_contract (s : contract_state) (node : Node)
    : result CompileError contract_state :=
  let '(slots, kernels) := s in
  let launch := node_launch node in
  check_abi launch ;;
  slots ← try_fold check_slot slots (arguments launch);
  match bmap_get (kernel launch) kernels with
  | Some previous =>
      err_if (negb (bool_decide (previous = kernel_identity launch)))
        (ConflictingKernelIdentity (kernel launch))
  | None => Ok tt
  end ;;
  Ok (slots, bmap_insert (kernel launch) (kernel_identity launch) kernels).

(** [validate_kernel_contracts] *)
Definition validate_kernel_contracts (r : Recorder) : result CompileError unit :=
  try_fold check_contract ([], []) (nodes r) ;; Ok tt.

(** ** Lane assignment *)

(** The prerequisites of [node], in the edge set's order. *)
Definition predecessors (edges : list (NodeId * NodeId)) (node : NodeId) : list NodeId :=
  omap (λ '(source, target), if bool_decide (target = node) then Some source else None) edges.

(** [iter.max().unwrap_or(0)] *)
Definition max_or_zero (l : list Z) : Z := foldr Z.max 0%Z l.

(** The candidate [(lane, start, end)] of one lane. *)
Definition lane_candidate (dependency_finish work : Z) (entry : nat * Z) : nat * Z * Z :=
  let '(lane, available) := entry in
  let start := Z.max available dependency_finish in
  (lane, start, saturating_add U64_MAX start work).

(** The key of [min_by_key]: end, then start, then lane. *)
Definition candidate_key (c : nat * Z * Z) : Z * (Z * nat) :=
  let '(lane, start, stop) := c in (stop, (start, lane)).

(** [iter.min_by_key(key)]: the first of the least elements. *)
Fixpoint min_by_key {A K} `{OrdKey K} (key : A → K) (l : list A) : option A :=
  match l with
  | [] => None
  | x :: l =>
    match min_by_key key l with
    | None => Some x
    | Some y => match kcmp (key y) (key x) with Lt => Some y | _ => Some x end
    end
  end.

Record sched := mkSched {
  lane_available : list Z;
  node_finish : list Z;
  scheduled : list PlannedDispatch }.

(** The body of the scheduling loop of [compile]. *)
Definition schedule_node (r : Recorder) (s : sched) (node : NodeId)
    : result CompileError sched :=
  entry ← index (nodes r) (node_index node);
  let dependencies := predecessors (edges r) node in
  finishes ← try_map (λ dependency, index (node_finish s) (node_index dependency)) dependencies;
  let dependency_finish := max_or_zero finishes in
  let work := estimated_work (node_launch entry) in
  '(lane, start, stop) ← expect (min_by_key candidate_key
    (lane_candidate dependency_finish work <$> enumerate (lane_available s)));
  available ← store (lane_available s) lane stop;
  finish ← store (node_finish s) (node_index node) stop;
  Ok (mkSched available finish
        (scheduled s ++ [mkPlannedDispatch node lane (node_launch entry)
           (node_accesses entry) dependencies start stop])).

Definition schedule (r : Recorder) (lane_count : nat) (order : list NodeId)
    : result CompileError sched :=
  try_fold (schedule_node r)
    (mkSched (replicate lane_count 0%Z) (replicate (length (nodes r)) 0%Z) []) order.

(** The nodes without dependents, in recording order. *)
Definition terminals (r : Recorder) : list NodeId :=
  node_id <$> filter (λ node,
    existsb (λ '(source, _), bool_decide (source = node_id node)) (edges r) = false) (nodes r).

Definition planned_resources (r : Recorder) : list PlannedResource :=
  imap (λ i res, mkPlannedResource (mkResourceId (owner r) i)
    (resource_label res) (resource_size res)) (resources r).

(** ** Fingerprint *)

Definition put_u32 (x : Z) : list Z := le_bytes 4 x.
Definition put_u64 (x : Z) : list Z := le_bytes 8 x.
Definition put_usize (n : nat) : list Z := put_u64 (Z.of_nat n).
Definition put_bytes (bs : list Z) : list Z := put_usize (length bs) ++ bs.
Definition put_dim3 (d : Dim3) : list Z :=
  put_u32 (dim_x d) ++ put_u32 (dim_y d) ++ put_u32 (dim_z d).

Definition plan_domain : list Z := str_bytes "redline-compiled-plan-v1" ++ [0%Z].

Definition put_mode (m : ReplayMode) : list Z :=
  match m with
  | TokenLatency => [0%Z]
  | Throughput max_tokens_in_flight => 1%Z :: put_u64 max_tokens_in_flight
  end.

Definition put_resource (res : PlannedResource) : list Z :=
  put_u32 (Z.of_nat (resource_index (planned_id res))) ++
  put_bytes (str_bytes (planned_label res)) ++ put_u64 (planned_size res).

Definition put_abi (abi : option KernargAbi) : list Z :=
  match abi with
  | Some abi => 1%Z :: digest_bytes (abi_hash abi)
  | None => [0%Z]
  end.

Definition put_identity (identity : option KernelArtifactIdentity) : list Z :=
  match identity with
  | Some i => 1%Z :: digest_bytes (code_object i) ++ digest_bytes (symbol_text i) ++
      put_u64 (generation i)
  | None => [0%Z]
  end.

Definition put_argument (a : KernelArg) : list Z :=
  match a with
  | Scalar bytes => 0%Z :: put_bytes bytes
  | ScalarSlot slot size => 1%Z :: put_u32 (slot_index slot) ++ put_u32 size
  | Resource_arg res byte_offset =>
      2%Z :: put_u32 (Z.of_nat (resource_index res)) ++ put_u64 byte_offset
  end.

Definition put_access (a : Access) : list Z :=
  (match access_mode a with Read => 0 | Write => 1 end)%Z ::
  put_u32 (Z.of_nat (resource_index (region_resource (access_region a)))) ++
  put_u64 (region_offset (access_region a)) ++ put_u64 (region_len (access_region a)).

Definition put_node (n : NodeId) : list Z := put_u32 (Z.of_nat (node_index n)).

(** A counted loop over a vector. *)
Definition put_list {A} (put : A → list Z) (l : list A) : list Z :=
  put_usize (length l) ++ concat (put <$> l).

Definition put_launch (l : KernelLaunch) : list Z :=
  put_bytes (str_bytes (kernel l)) ++ put_dim3 (grid l) ++ put_dim3 (block l) ++
  put_u32 (dynamic_shared_bytes l) ++ put_u32 (estimated_work l) ++
  put_abi (kernarg_abi l) ++ put_identity (artifact_identity l) ++
  put_list put_argument (arguments l).

Definition put_dispatch (d : PlannedDispatch) : list Z :=
  put_node (planned_node d) ++ put_usize (planned_lane d) ++ put_launch (planned_launch d) ++
  put_list put_access (planned_accesses d) ++ put_list put_node (planned_dependencies d).

(** The bytes [fingerprint] feeds to the hasher. *)
Definition plan_preimage (p : CompiledPlan) : list Z :=
  plan_domain ++ put_usize (plan_lane_count p) ++ put_mode (plan_replay_mode p) ++
  put_list put_resource (plan_resources p) ++ put_list put_dispatch (plan_dispatches p) ++
  put_list put_node (plan_terminals p).

Section compile.
Context (sha256 : list Z → list Z).

(** [fingerprint] *)
Definition fingerprint (p : CompiledPlan) : list Z := sha256 (plan_preimage p).

(** [CompiledPlan::compile] *)
Definition compile (r : Recorder) (options : CompileOptions)
    : result CompileError CompiledPlan :=
  validate_kernel_contracts r ;;
  order ← topological_order r;
  reachable ← reachability r order;
  hazards ← unordered_hazards r reachable;
  err_if (negb (bool_decide (hazards = []))) (UnorderedHazards hazards) ;;
  s ← schedule r (option_lane_count options) order;
  let plan := mkCompiledPlan (planned_resources r) (scheduled s) (terminals r)
    (option_lane_count options) (option_replay_mode options) (replicate 32 0%Z) in
  Ok (mkCompiledPlan (plan_resources plan) (plan_dispatches plan) (plan_terminals plan)
        (plan_lane_count plan) (plan_replay_mode plan) (fingerprint plan)).
End compile.

(** [CompiledPlan::scalar_slots] *)
Definition scalar_slots (p : CompiledPlan) : list (ScalarSlotId * Z) :=
  foldl (λ slots dispatch,
      foldl (λ slots argument,
          match argument with
          | ScalarSlot slot size => bmap_insert slot size slots
          | _ => slots
          end) slots (arguments (planned_launch dispatch)))
    [] (plan_dispatches p).

(** [CompiledPlan::artifact_identities] *)
Definition artifact_identities (p : CompiledPlan) : list (string * KernelArtifactIdentity) :=
  foldl (λ artifacts dispatch,
      match artifact_identity (planned_launch dispatch) with
      | Some identity => bmap_insert (kernel (planned_launch dispatch)) identity artifacts
      | None => artifacts
      end) [] (plan_dispatches p).

(** [CompileError::hazards] *)
Definition CompileError_hazards (e : CompileError) : list Hazard :=
  match e with UnorderedHazards hazards => hazards | _ => [] end.

(** ** Correctness of the lane assignment *)

Section min_by_key.
Context {A K} `{OrdKey K} (key : A → K).

Lemma kcmp_not_Lt_trans (a b c : K) :
  kcmp b a ≠ Lt → kcmp c b ≠ Lt → kcmp c a ≠ Lt.
Proof.
  intros Hba Hcb Hca. destruct (kcmp b a) eqn:E1; [|done|].
  - apply kcmp_eq in E1. by subst.
  - apply kcmp_Gt in E1. apply Hcb. by eapply kcmp_trans.
Qed.

Lemma min_by_key_Some l x :
  min_by_key key l = Some x → x ∈ l ∧ ∀ y, y ∈ l → kcmp (key y) (key x) ≠ Lt.
Proof.
  revert x. induction l as [|z l IH]; intros x; cbn; [done|].
  assert (∀ k : K, kcmp k k ≠ Lt) as Hirr by (intros k; apply klt_irrefl).
  destruct (min_by_key key l) as [m|] eqn:E.
  - destruct (IH m eq_refl) as [Hm Hmin].
    destruct (kcmp (key m) (key z)) eqn:Ec; intros [= <-]; (split; [set_solver|]);
      intros y [->|Hy]%elem_of_cons; try done; try by auto.
    + eapply kcmp_not_Lt_trans; [|by apply Hmin]. by rewrite Ec.
    + intros Hlt. eapply (klt_irrefl (key m)), kcmp_trans; [exact Ec|exact Hlt].
    + apply kcmp_not_Lt_trans with (key m); [by rewrite Ec|by apply Hmin].
  - intros [= <-]. split; [set_solver|]. intros y [->|Hy]%elem_of_cons; [done|].
    destruct l as [|w l]; [set_solver|]. cbn in E.
    destruct (min_by_key key l); [destruct (kcmp _ _)|]; done.
Qed.

Lemma min_by_key_total l : l ≠ [] → ∃ x, min_by_key key l = Some x.
Proof.
  destruct l as [|x l]; [done|]. intros _. cbn.
  destruct (min_by_key key l); [destruct (kcmp _ _)|]; eauto.
Qed.
End min_by_key.

Lemma max_or_zero_app l k : max_or_zero (l ++ k) = Z.max (max_or_zero l) (max_or_zero k).
Proof. unfold max_or_zero. induction l as [|x l IH]; cbn; [|rewrite IH]; [|lia].
  induction k; cbn; lia.
Qed.

Lemma max_or_zero_nonneg l : (0 ≤ max_or_zero l)%Z.
Proof. unfold max_or_zero. induction l; cbn; lia. Qed.

Lemma max_or_zero_elem l x : x ∈ l → (x ≤ max_or_zero l)%Z.
Proof. unfold max_or_zero. induction 1; cbn; lia. Qed.

Lemma max_or_zero_le l m : (0 ≤ m)%Z → (∀ x, x ∈ l → (x ≤ m)%Z) → (max_or_zero l ≤ m)%Z.
Proof.
  intros Hm. unfold max_or_zero. induction l as [|x l IH]; cbn; [done|]. intros Hl.
  assert (x ≤ m)%Z by (apply Hl; set_solver). specialize (IH ltac:(set_solver)). lia.
Qed.

Lemma elem_of_predecessors es n m : m ∈ predecessors es n ↔ edge es m n.
Proof.
  unfold predecessors, edge. rewrite list_elem_of_omap. split.
  - intros ([a b] & Hin & H). case_bool_decide; naive_solver.
  - intros Hin. exists (m, n). split; [done|]. by rewrite bool_decide_eq_true_2.
Qed.

(** The abstract list schedule: when a lane becomes free and when a node has
    finished, read off the dispatches already placed. *)
Definition lane_free (ds : list PlannedDispatch) (lane : nat) : Z :=
  max_or_zero (estimated_end <$> filter (λ d, planned_lane d = lane) ds).

Definition finish_of (ds : list PlannedDispatch) (v : NodeId) : Z :=
  max_or_zero (estimated_end <$> filter (λ d, planned_node d = v) ds).

Definition ready_time (ds : list PlannedDispatch) (deps : list NodeId) : Z :=
  max_or_zero (finish_of ds <$> deps).

(** Running [d] next on [lane] would occupy this interval. *)
Definition placement (ds : list PlannedDispatch) (deps : list NodeId) (work : Z) (lane : nat)
    : nat * Z * Z :=
  lane_candidate (ready_time ds deps) work (lane, lane_free ds lane).

(** [d] is the greedy continuation of [ds]: it sits on the lane with the least
    [(end, start, lane)] and occupies that lane's interval. *)
Record greedy (r : Recorder) (lanes : nat) (ds : list PlannedDispatch) (d : PlannedDispatch)
    : Prop := {
  gr_node : ∃ nd, nodes r !! node_index (planned_node d) = Some nd ∧
    planned_launch d = node_launch nd ∧ planned_accesses d = node_accesses nd;
  gr_deps : planned_dependencies d = predecessors (edges r) (planned_node d);
  gr_lane : planned_lane d < lanes;
  gr_place : placement ds (planned_dependencies d) (estimated_work (planned_launch d))
      (planned_lane d) = (planned_lane d, estimated_start d, estimated_end d);
  gr_best lane : lane < lanes →
    kcmp (candidate_key (placement ds (planned_dependencies d)
            (estimated_work (planned_launch d)) lane))
         (candidate_key (planned_lane d, estimated_start d, estimated_end d)) ≠ Lt }.

Definition greedy_schedule (r : Recorder) (lanes : nat) (ds : list PlannedDispatch) : Prop :=
  ∀ pre d post, ds = pre ++ d :: post → greedy r lanes pre d.

Definition ends_bounded (ds : list PlannedDispatch) : Prop :=
  ∀ d, d ∈ ds → (0 ≤ estimated_end d ≤ U64_MAX)%Z.

Lemma lane_free_snoc ds d lane :
  lane_free (ds ++ [d]) lane =
    if bool_decide (planned_lane d = lane) then Z.max (lane_free ds lane) (Z.max (estimated_end d) 0)
    else lane_free ds lane.
Proof.
  unfold lane_free. rewrite filter_app, fmap_app, max_or_zero_app, filter_cons, filter_nil.
  case_bool_decide; case_decide; try done. cbn [fmap list_fmap max_or_zero foldr].
  pose proof (max_or_zero_nonneg (estimated_end <$> filter (λ d, planned_lane d = lane) ds)). lia.
Qed.

Lemma finish_of_snoc ds d v :
  finish_of (ds ++ [d]) v =
    if bool_decide (planned_node d = v) then Z.max (finish_of ds v) (Z.max (estimated_end d) 0)
    else finish_of ds v.
Proof.
  unfold finish_of. rewrite filter_app, fmap_app, max_or_zero_app, filter_cons, filter_nil.
  case_bool_decide; case_decide; try done. cbn [fmap list_fmap max_or_zero foldr].
  pose proof (max_or_zero_nonneg (estimated_end <$> filter (λ d, planned_node d = v) ds)). lia.
Qed.

Lemma finish_of_fresh ds v : v ∉ (planned_node <$> ds) → finish_of ds v = 0%Z.
Proof.
  intros Hv. unfold finish_of. replace (filter (λ d, planned_node d = v) ds) with
    (@nil PlannedDispatch); [done|]. symmetry. induction ds as [|d ds IH]; [done|].
  rewrite fmap_cons, not_elem_of_cons in Hv. rewrite filter_cons, decide_False by naive_solver.
  apply IH. naive_solver.
Qed.

Lemma finish_of_bound ds v : ends_bounded ds → (0 ≤ finish_of ds v ≤ U64_MAX)%Z.
Proof.
  intros Hb. split; [apply max_or_zero_nonneg|]. apply max_or_zero_le; [done|].
  intros x (d & -> & [_ Hd]%list_elem_of_filter)%list_elem_of_fmap. by apply Hb.
Qed.

Lemma lane_free_bound ds lane : ends_bounded ds → (0 ≤ lane_free ds lane ≤ U64_MAX)%Z.
Proof.
  intros Hb. split; [apply max_or_zero_nonneg|]. apply max_or_zero_le; [done|].
  intros x (d & -> & [_ Hd]%list_elem_of_filter)%list_elem_of_fmap. by apply Hb.
Qed.

Lemma ready_time_bound ds deps : ends_bounded ds → (0 ≤ ready_time ds deps ≤ U64_MAX)%Z.
Proof.
  intros Hb. split; [apply max_or_zero_nonneg|]. apply max_or_zero_le; [done|].
  intros x (v & -> & _)%list_elem_of_fmap. by apply finish_of_bound.
Qed.

Section schedule.
Context (r : Recorder) (Hwf : rec_wf r) (lanes : nat) (Hlanes : lanes ≠ 0).
Let n := length (nodes r).

Record sched_inv (done : list NodeId) (s : sched) : Prop := {
  sc_nodes : planned_node <$> scheduled s = done;
  sc_bounded : ends_bounded (scheduled s);
  sc_lanes : lane_available s = lane_free (scheduled s) <$> seq 0 lanes;
  sc_len : length (node_finish s) = n;
  sc_finish v : valid_node r v →
    node_finish s !! node_index v = Some (finish_of (scheduled s) v);
  sc_greedy : greedy_schedule r lanes (scheduled s) }.

Lemma dependency_finishes done s v :
  sched_inv done s →
  try_map (E := CompileError) (λ dependency, index (node_finish s) (node_index dependency))
    (predecessors (edges r) v) =
  Ok (finish_of (scheduled s) <$> predecessors (edges r) v).
Proof using Hwf.
  intros Hinv. apply try_map_Ok. apply Forall2_fmap_r, Forall_Forall2_diag, Forall_forall.
  intros u Hu%elem_of_predecessors. apply index_Ok, (sc_finish _ _ Hinv).
  by apply (wf_edges r Hwf) in Hu as [? _].
Qed.

Lemma candidates_eq ds deps work :
  lane_candidate (ready_time ds deps) work <$> enumerate (lane_free ds <$> seq 0 lanes) =
  placement ds deps work <$> seq 0 lanes.
Proof using Type.
  clear Hlanes. apply list_eq. intros i. rewrite !list_lookup_fmap. unfold enumerate.
  rewrite list_lookup_imap, list_lookup_fmap.
  destruct (seq 0 lanes !! i) as [l|] eqn:E; cbn; [|done].
  apply lookup_seq in E as [-> _]. done.
Qed.

Lemma greedy_schedule_snoc ds d :
  greedy_schedule r lanes ds → greedy r lanes ds d → greedy_schedule r lanes (ds ++ [d]).
Proof using Type.
  clear Hlanes. intros Hs Hd pre x post Heq.
  destruct post as [|y post _] using rev_ind.
  - apply app_inj_tail in Heq as [-> ->]. done.
  - rewrite app_comm_cons, app_assoc in Heq. apply app_inj_tail in Heq as [-> _].
    by eapply Hs.
Qed.

Lemma schedule_node_total done s v :
  sched_inv done s → valid_node r v → v ∉ done →
  ∃ s', schedule_node r s v = Ok s' ∧ sched_inv (done ++ [v]) s'.
Proof using Hwf Hlanes.
  intros Hinv Hv Hnew. pose proof Hinv as [Hn Hb Hl Hlen Hf Hg]. unfold schedule_node.
  destruct (vnode_lookup r Hwf v Hv) as (nd & Hnd & Hid).
  assert (launch_typed (node_launch nd)) as Hty.
  { apply (wf_launch r Hwf). by eapply list_elem_of_lookup_2. }
  assert (0 < estimated_work (node_launch nd))%Z as Hwork.
  { unfold launch_typed in Hty. tauto. }
  rewrite (proj2 (index_Ok _ _ _) Hnd). cbn [mbind result_bind].
  rewrite (dependency_finishes done s v Hinv). cbn [mbind result_bind].
  rewrite Hl. fold (ready_time (scheduled s) (predecessors (edges r) v)). rewrite candidates_eq.
  set (deps := predecessors (edges r) v) in *. set (work := estimated_work (node_launch nd)) in *.
  destruct (min_by_key_total candidate_key (placement (scheduled s) deps work <$> seq 0 lanes))
    as [[[lane start] stop] Hmin].
  { destruct lanes; [done|]. done. }
  pose proof Hmin as Hmin'. apply min_by_key_Some in Hmin' as [Hin Hbest].
  apply list_elem_of_fmap in Hin as (l' & Hpl & [_ Hl']%elem_of_seq).
  assert (l' = lane) as -> by (cbn in Hpl; naive_solver).
  rewrite Hmin. cbn [expect mbind result_bind]. unfold store.
  rewrite length_fmap, length_seq, (bool_decide_eq_true_2 (lane < lanes)) by lia.
  cbn [mbind result_bind]. destruct Hv as [Hvo Hvi].
  rewrite Hlen, bool_decide_eq_true_2 by done. cbn [mbind result_bind].
  eexists. split; [done|].
  set (d := mkPlannedDispatch v lane (node_launch nd) (node_accesses nd) deps start stop).
  pose proof (ready_time_bound (scheduled s) deps Hb) as Hrt.
  pose proof (lane_free_bound (scheduled s) lane Hb) as Hlf.
  assert (start = Z.max (lane_free (scheduled s) lane) (ready_time (scheduled s) deps) ∧
    stop = Z.min U64_MAX (start + work)) as [Hstart Hstop].
  { cbn in Hpl. injection Hpl as Hs1 Hs2. unfold saturating_add in Hs2.
    split; [done|]. rewrite Hs2, Hs1. done. }
  assert (start ≤ stop ≤ U64_MAX)%Z as Hss by ulia.
  split; cbn [lane_available node_finish scheduled].
  - by rewrite fmap_app, Hn.
  - intros x [Hx| ->%list_elem_of_singleton]%elem_of_app; [by apply Hb|]. cbn. lia.
  - apply list_eq. intros i. rewrite list_lookup_fmap.
    destruct (decide (i < lanes)) as [Hi|Hi].
    + rewrite lookup_seq_lt by done. cbn. rewrite lane_free_snoc. cbn.
      destruct (decide (i = lane)) as [->|Hne].
      * rewrite list_lookup_insert_eq by by rewrite length_fmap, length_seq.
        rewrite bool_decide_eq_true_2 by done. f_equal. lia.
      * rewrite list_lookup_insert_ne by done. rewrite bool_decide_eq_false_2 by done.
        by rewrite list_lookup_fmap, lookup_seq_lt.
    + rewrite lookup_seq_ge, (lookup_ge_None_2 _ i) by
        (rewrite ?length_insert, ?length_fmap, ?length_seq; lia). done.
  - by rewrite length_insert.
  - intros w Hw. rewrite finish_of_snoc. cbn. case_bool_decide as Heq.
    + subst w. rewrite list_lookup_insert_eq by lia.
      rewrite finish_of_fresh by by rewrite Hn. f_equal. lia.
    + rewrite list_lookup_insert_ne; [by apply Hf|]. intros Hi. apply Heq.
      by apply (vnode_eq (owner r) n).
  - apply greedy_schedule_snoc; [done|]. split; cbn; try done.
    + by exists nd.
    + intros l Hlt. apply (Hbest (placement (scheduled s) deps work l)).
      apply list_elem_of_fmap. exists l. split; [done|]. apply elem_of_seq. lia.
Qed.

Lemma schedule_total order :
  NoDup order → (∀ v, v ∈ order → valid_node r v) →
  ∃ s, schedule r lanes order = Ok s ∧ sched_inv order s.
Proof using Hwf Hlanes.
  intros Hnd Hval. unfold schedule.
  apply (try_fold_total sched_inv (schedule_node r) order []).
  - split; cbn; try done.
    + intros d Hd. by apply not_elem_of_nil in Hd.
    + clear. induction lanes as [|l IH] using nat_ind; [done|].
      rewrite replicate_S_end, IH, seq_S, fmap_app. done.
    + apply length_replicate.
    + intros v [_ Hv]. by apply lookup_replicate_2.
    + intros pre d post Heq. by destruct pre.
  - intros d v rest s Heq Hinv. cbn in Heq. apply schedule_node_total; [done|..].
    + apply Hval. rewrite Heq. set_solver.
    + rewrite Heq in Hnd. apply NoDup_app in Hnd as (_ & H & _).
      intros Hin. apply (H v Hin). set_solver.
Qed.
End schedule.

(** ** Contracts *)

(** What the contract check promises of a recorder: argument lists match the
    declared layouts, a scalar slot has one size, a kernel key one identity. *)
Definition slot_use (r : Recorder) (slot : ScalarSlotId) (size : Z) : Prop :=
  ∃ nd, nd ∈ nodes r ∧ ScalarSlot slot size ∈ arguments (node_launch nd).

Record contracts_ok (r : Recorder) : Prop := {
  co_abi nd abi : nd ∈ nodes r → kernarg_abi (node_launch nd) = Some abi →
    Forall2 (λ a f, argument_size a = field_size f) (arguments (node_launch nd)) (abi_fields abi);
  co_slots slot size size' : slot_use r slot size → slot_use r slot size' → size = size';
  co_kernels nd nd' : nd ∈ nodes r → nd' ∈ nodes r →
    kernel (node_launch nd) = kernel (node_launch nd') →
    kernel_identity (node_launch nd) = kernel_identity (node_launch nd') }.

(** A map that records each use of a list of uses, all of which agree. *)
Definition records {K V} `{OrdKey K} (uses : K → V → Prop) (m : list (K * V)) : Prop :=
  (∀ k v, uses k v → bmap_get k m = Some v) ∧ (∀ k v, bmap_get k m = Some v → uses k v).

Lemma records_insert {K V} `{OrdKey K} (uses uses' : K → V → Prop) m k v :
  records uses m →
  (∀ w, bmap_get k m = Some w → w = v) →
  (∀ k' v', uses' k' v' ↔ uses k' v' ∨ (k' = k ∧ v' = v)) →
  records uses' (bmap_insert k v m).
Proof.
  intros [H1 H2] Hk Hu. split; intros k' v'; rewrite bmap_get_insert;
    destruct (kcmp k' k) eqn:E; rewrite ?kcmp_eq in E; subst.
  - intros [Hu'|[_ ->]]%Hu; [|done]. f_equal. symmetry. apply Hk, H1, Hu'.
  - intros [Hu'|[-> _]]%Hu; [by auto|]. by apply klt_irrefl in E.
  - intros [Hu'|[-> _]]%Hu; [by auto|].
    assert (kcmp k k = Eq) by by apply kcmp_eq. congruence.
  - intros [= ->]. apply Hu. auto.
  - intros. apply Hu. auto.
  - intros. apply Hu. auto.
Qed.

Lemma records_ext {K V} `{OrdKey K} (uses uses' : K → V → Prop) m :
  (∀ k v, uses' k v ↔ uses k v) → records uses m → records uses' m.
Proof. intros Hu [H1 H2]. split; intros k v; rewrite Hu; auto. Qed.

Lemma check_slots_Ok args : ∀ uses slots slots',
  records uses slots → try_fold check_slot slots args = Ok slots' →
  records (λ slot size, uses slot size ∨ ScalarSlot slot size ∈ args) slots'.
Proof.
  induction args as [|a args IH]; intros uses slots slots' Hr.
  - intros [= <-]. eapply records_ext; [|exact Hr]. intros. cbn. set_solver.
  - rewrite try_fold_cons. intros (s1 & H1 & H2)%bind_Ok.
    assert (records (λ slot size, uses slot size ∨ ScalarSlot slot size = a) s1) as Hs1.
    { destruct a as [bytes|slot size|res off]; cbn in H1.
      - injection H1 as <-. eapply records_ext; [|exact Hr]. naive_solver.
      - apply bind_Ok in H1 as ([] & Hp & [= <-]).
        eapply records_insert; [exact Hr| |naive_solver].
        intros w Hw. rewrite Hw in Hp. apply err_if_Ok in Hp. by to_prop.
      - injection H1 as <-. eapply records_ext; [|exact Hr]. naive_solver. }
    eapply records_ext; [|by eapply IH]. intros. cbn. rewrite elem_of_cons. naive_solver.
Qed.

(** The uses of slots and kernel keys in a list of nodes. *)
Definition slots_in (l : list Node) (slot : ScalarSlotId) (size : Z) : Prop :=
  ∃ nd, nd ∈ l ∧ ScalarSlot slot size ∈ arguments (node_launch nd).
Definition kernels_in (l : list Node) (k : string)
    (i : option Sha256Digest * option KernelArtifactIdentity) : Prop :=
  ∃ nd, nd ∈ l ∧ kernel (node_launch nd) = k ∧ kernel_identity (node_launch nd) = i.

Lemma check_contract_Ok done nd s s' :
  records (slots_in done) s.1 → records (kernels_in done) s.2 →
  check_contract s nd = Ok s' →
  records (slots_in (done ++ [nd])) s'.1 ∧ records (kernels_in (done ++ [nd])) s'.2 ∧
  ∀ abi, kernarg_abi (node_launch nd) = Some abi →
    Forall2 (λ a f, argument_size a = field_size f) (arguments (node_launch nd)) (abi_fields abi).
Proof.
  destruct s as [slots kernels]. cbn. intros Hs Hk H. inv_ok. cbn. split; [|split].
  - eapply records_ext; [|eapply check_slots_Ok; [exact Hs|exact Hx0]].
    intros slot size. unfold slots_in. setoid_rewrite elem_of_app.
    setoid_rewrite list_elem_of_singleton. split.
    + intros (x' & [?| ->] & Hin); [left; by exists x'|by right].
    + intros [(x' & ? & ?)|?]; [exists x'; by auto|exists nd; by auto].
  - eapply records_insert; [exact Hk| |].
    + intros w Hw. rewrite Hw in Hx1. apply err_if_Ok in Hx1. by to_prop.
    + intros k' v'. unfold kernels_in. setoid_rewrite elem_of_app.
      setoid_rewrite list_elem_of_singleton. split.
      * intros (x' & [?| ->] & <- & <-); [left; by exists x'|by right].
      * intros [(x' & ? & ? & ?)|[-> ->]]; [exists x'; by auto|exists nd; by auto].
  - intros abi Habi. unfold check_abi in Hx. rewrite Habi in Hx. apply validate_arguments_Ok.
    destruct (validate_arguments abi _) as [[]| |]; done.
Qed.

Lemma validate_kernel_contracts_sound r :
  validate_kernel_contracts r = Ok tt → contracts_ok r.
Proof.
  unfold validate_kernel_contracts. intros ([slots kernels] & Hf & _)%bind_Ok.
  pose proof (try_fold_inv (λ d s, records (slots_in d) s.1 ∧ records (kernels_in d) s.2 ∧
      ∀ nd abi, nd ∈ d → kernarg_abi (node_launch nd) = Some abi →
        Forall2 (λ a f, argument_size a = field_size f)
          (arguments (node_launch nd)) (abi_fields abi))
    check_contract (nodes r) [] ([], []) (slots, kernels)) as Hinv. cbn in Hinv.
  destruct Hinv as ((Hs1 & Hs2) & (Hk1 & Hk2) & Habi).
  - split; [|split]; [split..|]; cbn; try done.
    + by intros k v (nd & Hin%not_elem_of_nil & _).
    + by intros k v (nd & Hin%not_elem_of_nil & _).
    + intros nd abi Hin. by apply not_elem_of_nil in Hin.
  - intros d nd rest s1 s2 _ (Hs & Hk & Ha) Hc.
    destruct (check_contract_Ok d nd s1 s2 Hs Hk Hc) as (? & ? & Hnew).
    split; [done|]. split; [done|].
    intros x abi [?| ->%list_elem_of_singleton]%elem_of_app; by eauto.
  - done.
  - split.
    + by eauto.
    + intros slot size size' H1 H2. apply Hs1 in H1. apply Hs1 in H2. congruence.
    + intros nd nd' Hin Hin' Hkey.
      assert (bmap_get (kernel (node_launch nd)) kernels = Some (kernel_identity (node_launch nd)))
        as H1 by (apply Hk1; by exists nd).
      assert (bmap_get (kernel (node_launch nd)) kernels = Some (kernel_identity (node_launch nd')))
        as H2 by (apply Hk1; by exists nd').
      congruence.
Qed.

Lemma check_slots_complete args uses : ∀ slots,
  records uses slots →
  (∀ slot s s', (uses slot s ∨ ScalarSlot slot s ∈ args) →
    (uses slot s' ∨ ScalarSlot slot s' ∈ args) → s = s') →
  ∃ slots', try_fold check_slot slots args = Ok slots'.
Proof.
  revert uses. induction args as [|a args IH]; intros uses slots Hr Hag; [by exists slots|].
  rewrite try_fold_cons.
  assert (∃ s1, check_slot slots a = Ok s1) as [s1 Hs1].
  { destruct a as [|slot size|]; cbn; [eauto| |eauto].
    destruct (bmap_get slot slots) as [p|] eqn:E; cbn; [|eauto].
    assert (p = size) as ->; [|rewrite Z.eqb_refl; cbn; eauto].
    apply (Hag slot); [left; by apply Hr|right; set_solver]. }
  rewrite Hs1. apply (IH (λ slot size, uses slot size ∨ ScalarSlot slot size ∈ [a])).
  - eapply check_slots_Ok; [exact Hr|]. cbn. by rewrite Hs1.
  - intros slot s s' H1 H2. apply (Hag slot); set_solver.
Qed.

Lemma validate_kernel_contracts_complete r :
  contracts_ok r → validate_kernel_contracts r = Ok tt.
Proof.
  intros [Habi Hslots Hkern]. unfold validate_kernel_contracts.
  destruct (try_fold_total (E := CompileError) (λ d s, records (slots_in d) s.1 ∧ records (kernels_in d) s.2)
    check_contract (nodes r) [] ([], [])) as (s & Hs & _).
  - split; split; cbn; try done.
    + by intros k v (nd & Hin%not_elem_of_nil & _).
    + by intros k v (nd & Hin%not_elem_of_nil & _).
  - intros d nd rest [slots kernels] Heq [Hs Hk]. cbn in Heq, Hs, Hk.
    assert (nd ∈ nodes r) as Hnd by (rewrite Heq; set_solver).
    assert (∀ x, x ∈ d → x ∈ nodes r) as Hd by (rewrite Heq; set_solver).
    assert (∃ s', check_contract (slots, kernels) nd = Ok s') as [s' Hs'].
    { destruct (check_slots_complete (arguments (node_launch nd)) (slots_in d) slots Hs)
        as [slots' Hslots'].
      { intros slot z z' H1 H2. apply (Hslots slot); unfold slot_use, slots_in in *; naive_solver. }
      assert (check_abi (node_launch nd) = Ok tt) as Ha.
      { unfold check_abi. destruct (kernarg_abi (node_launch nd)) as [abi|] eqn:Ea; [|done].
        by rewrite (proj2 (validate_arguments_Ok abi _)) by by eauto. }
      unfold check_contract. rewrite Ha. cbn. rewrite Hslots'. cbn.
      destruct (bmap_get (kernel (node_launch nd)) kernels) as [p|] eqn:Ek; cbn; [|eauto].
      apply Hk in Ek as (nd' & Hin' & Hkey & <-). rewrite bool_decide_eq_true_2; cbn; eauto. }
    exists s'. split; [done|]. by apply (check_contract_Ok d nd (slots, kernels)) in Hs' as (? & ? & _).
  - by rewrite Hs.
Qed.

Lemma check_slot_kind slots a :
  check_slot slots a ≠ Panic ∧
  ∀ e, check_slot slots a = Err e → ∃ slot x y, e = ConflictingScalarSlotSize slot x y.
Proof.
  destruct a as [|slot size|]; cbn; try done.
  destruct (bmap_get slot slots) as [p|]; cbn; [|done].
  destruct (negb (p =? size)%Z); cbn; naive_solver.
Qed.

(** The errors of the contract check; it never panics. *)
Definition contract_error (e : CompileError) : Prop :=
  match e with
  | InvalidKernargAbi _ _ | ConflictingScalarSlotSize _ _ _ | ConflictingKernelIdentity _ => True
  | Cycle _ | UnorderedHazards _ => False
  end.

Lemma try_fold_outcomes {E A S} (Q : E → Prop) (f : S → A → result E S) l :
  (∀ s x, f s x ≠ Panic ∧ ∀ e, f s x = Err e → Q e) →
  ∀ s, try_fold f s l ≠ Panic ∧ ∀ e, try_fold f s l = Err e → Q e.
Proof.
  intros Hf. induction l as [|x l IH]; intros s; [done|]. rewrite try_fold_cons.
  destruct (Hf s x) as [Hp He]. destruct (f s x) as [s'|e|]; cbn; [apply IH| |done].
  split; [done|]. intros e' [= <-]. by apply He.
Qed.

Lemma validate_arguments_no_panic abi args : validate_arguments abi args ≠ Panic.
Proof.
  unfold validate_arguments. destruct (negb _); cbn; [done|].
  apply for_each_no_panic. intros [i [a f]] _. by destruct (negb _).
Qed.

Lemma check_contract_outcomes s nd :
  check_contract s nd ≠ Panic ∧ ∀ e, check_contract s nd = Err e → contract_error e.
Proof.
  destruct s as [slots kernels]. unfold check_contract.
  pose proof (try_fold_outcomes contract_error check_slot (arguments (node_launch nd))) as Hs.
  destruct Hs with (s := slots) as [Hp He].
  { intros s x. destruct (check_slot_kind s x) as [? H]. split; [done|].
    intros e (? & ? & ? & ->)%H. done. }
  assert (check_abi (node_launch nd) ≠ Panic ∧
    ∀ e, check_abi (node_launch nd) = Err e → contract_error e) as [Hap Hae].
  { unfold check_abi. destruct (kernarg_abi (node_launch nd)) as [abi|]; [|done].
    pose proof (validate_arguments_no_panic abi (arguments (node_launch nd))).
    destruct (validate_arguments abi _) as [[]|e|]; cbn; [done| |done].
    split; [done|]. by intros e' [= <-]. }
  destruct (check_abi (node_launch nd)) as [[]|e|]; cbn;
    [|split; [done|]; intros e' [= <-]; by apply Hae|done].
  destruct (try_fold check_slot slots _) as [slots'|e|]; cbn; [| |done].
  - destruct (bmap_get _ kernels) as [p|]; cbn; [|done].
    destruct (negb _); cbn; [|done]. split; [done|]. by intros e [= <-].
  - split; [done|]. intros e' [= <-]. by apply He.
Qed.

Lemma validate_kernel_contracts_outcomes r :
  match validate_kernel_contracts r with
  | Ok _ => contracts_ok r
  | Err e => contract_error e ∧ ¬ contracts_ok r
  | Panic => False
  end.
Proof.
  destruct (validate_kernel_contracts r) as [[]|e|] eqn:E.
  - by apply validate_kernel_contracts_sound.
  - split; [|intros Hc%validate_kernel_contracts_complete; congruence].
    unfold validate_kernel_contracts in E.
    apply bind_Err in E as [E|(? & _ & ?)]; [|done].
    by eapply (try_fold_outcomes contract_error check_contract), E; apply check_contract_outcomes.
  - unfold validate_kernel_contracts in E.
    apply bind_Panic in E as [E|(? & _ & ?)]; [|done].
    by eapply (try_fold_outcomes contract_error check_contract), E; apply check_contract_outcomes.
Qed.

(** ** Correctness of compilation *)

(** The dependency graph orders the two nodes one way or the other. *)
Definition ordered (r : Recorder) (u v : NodeId) : Prop :=
  tc (edge (edges r)) u v ∨ tc (edge (edges r)) v u.

(** Two dispatches that touch a common byte, one of them writing it, without
    an ordering between them; [h] describes one such pair of accesses. *)
Definition unordered_conflict (r : Recorder) (h : Hazard) : Prop :=
  ∃ i j, i < j ∧ ¬ ordered r (mkNodeId (owner r) i) (mkNodeId (owner r) j) ∧ reports r i j h.

(** The plan realises the recorded graph. *)
Record plan_of (r : Recorder) (options : CompileOptions) (p : CompiledPlan) : Prop := {
  po_nodes : NoDup (planned_node <$> plan_dispatches p);
  po_count : length (plan_dispatches p) = length (nodes r);
  po_all v : v ∈ planned_node <$> plan_dispatches p ↔ valid_node r v;
  po_order : dependency_order (edges r) (planned_node <$> plan_dispatches p);
  po_greedy : greedy_schedule r (option_lane_count options) (plan_dispatches p);
  po_terminals v : v ∈ plan_terminals p ↔ valid_node r v ∧ ∀ w, ¬ edge (edges r) v w;
  po_terminals_once : NoDup (plan_terminals p);
  po_resources : plan_resources p = planned_resources r;
  po_lanes : plan_lane_count p = option_lane_count options;
  po_mode : plan_replay_mode p = option_replay_mode options }.

Lemma entry_iff r order M i j :
  rec_wf r → i < length (nodes r) → j < length (nodes r) →
  reachability r order = Ok M →
  (∀ u w, valid_node r u → valid_node r w → reach M u w ↔ tc (edge (edges r)) u w) →
  entry M i j ↔ tc (edge (edges r)) (mkNodeId (owner r) i) (mkNodeId (owner r) j).
Proof.
  intros Hwf Hi Hj _ HM. rewrite <- HM; [done|split; [done|]..]; done.
Qed.

Lemma elem_of_terminals r v : rec_wf r →
  v ∈ terminals r ↔ valid_node r v ∧ ∀ w, ¬ edge (edges r) v w.
Proof.
  intros Hwf. unfold terminals. rewrite list_elem_of_fmap.
  setoid_rewrite list_elem_of_filter.
  assert (∀ u, existsb (λ '(source, _), bool_decide (source = u)) (edges r) = false ↔
    ∀ w, ¬ edge (edges r) u w) as Hex.
  { intros u. rewrite <- not_true_iff_false, existsb_exists. split.
    - intros H w Hw. apply H. exists (u, w). split; [by apply list_elem_of_In|].
      by apply bool_decide_eq_true_2.
    - intros H ([a b] & Hin%list_elem_of_In & Ha%bool_decide_eq_true). subst. by eapply H. }
  split.
  - intros (nd & -> & He & [i Hi]%list_elem_of_lookup). pose proof (proj1 (Hex (node_id nd)) He).
    split; [|done]. by eapply node_id_vnode.
  - intros [Hv Hw]. destruct (vnode_lookup r Hwf v Hv) as (nd & Hnd & <-).
    exists nd. split; [done|]. split; [by apply Hex|]. by eapply list_elem_of_lookup_2.
Qed.

Lemma NoDup_terminals r : rec_wf r → NoDup (terminals r).
Proof.
  intros Hwf. unfold terminals.
  assert (node_id <$> nodes r = mkNodeId (owner r) <$> seq 0 (length (nodes r))) as Hids.
  { apply list_eq. intros i. rewrite !list_lookup_fmap.
    destruct (nodes r !! i) as [nd|] eqn:E; cbn.
    - rewrite lookup_seq_lt by by eapply lookup_lt_Some. cbn. f_equal.
      by apply (wf_node_ids r Hwf).
    - rewrite lookup_seq_ge by by apply lookup_ge_None. done. }
  eapply sublist_NoDup; [|apply fmap_sublist, sublist_filter].
  rewrite Hids. apply NoDup_fmap_2_strong; [by intros ? ? _ _ [= ->]|apply NoDup_seq].
Qed.

Section compile_proof.
Context (sha256 : list Z → list Z) (r : Recorder) (options : CompileOptions).
Context (Hwf : rec_wf r) (Hlanes : option_lane_count options ≠ 0).

(** The hazard stage of [compile]. *)
Lemma hazards_stage :
  ∃ order M hs,
    topological_order r = Ok order ∧ reachability r order = Ok M ∧
    unordered_hazards r M = Ok hs ∧
    NoDup order ∧ length order = length (nodes r) ∧
    (∀ v, v ∈ order ↔ valid_node r v) ∧ dependency_order (edges r) order ∧
    ∀ h, h ∈ hs ↔ unordered_conflict r h.
Proof using Hwf.
  destruct (topological_order_Ok r Hwf) as (order & Ho & Hnd & Hlen & Hall & Hdep).
  destruct (reachability_Ok r order Hwf Hnd Hall Hdep) as (M & HM & Hsq & Hreach).
  destruct (unordered_hazards_Ok r M Hsq) as (hs & Hhs & Hin).
  exists order, M, hs. do 7 (split; [done|]). intros h. rewrite Hin.
  unfold unordered_conflict, ordered. split.
  - intros (i & j & Hij & H1 & H2 & Hrep). pose proof Hrep as (ni & nj & Hni & Hnj & _).
    apply lookup_lt_Some in Hni, Hnj. exists i, j. split; [done|]. split; [|done].
    rewrite (entry_iff r order M) in H1 by done.
    rewrite (entry_iff r order M) in H2 by done. tauto.
  - intros (i & j & Hij & Hno & Hrep). pose proof Hrep as (ni & nj & Hni & Hnj & _).
    apply lookup_lt_Some in Hni, Hnj. exists i, j. split; [done|].
    rewrite !(entry_iff r order M) by done. tauto.
Qed.

Lemma compile_outcomes :
  match compile sha256 r options with
  | Ok p => contracts_ok r ∧ (∀ h, ¬ unordered_conflict r h) ∧ plan_of r options p ∧
      plan_fingerprint p = sha256 (plan_preimage p)
  | Err (UnorderedHazards hs) => contracts_ok r ∧ hs ≠ [] ∧ ∀ h, h ∈ hs ↔ unordered_conflict r h
  | Err (Cycle _) => False
  | Err _ => ¬ contracts_ok r
  | Panic => False
  end.
Proof using Hwf Hlanes.
  unfold compile. pose proof (validate_kernel_contracts_outcomes r) as Hc.
  destruct (validate_kernel_contracts r) as [[]|e|]; cbn [mbind result_bind];
    [|by destruct Hc, e|done].
  destruct hazards_stage as (order & M & hs & Ho & HM & Hh & Hnd & Hlen & Hall & Hdep & Hhs).
  rewrite Ho. cbn [mbind result_bind]. rewrite HM. cbn [mbind result_bind].
  rewrite Hh. cbn [mbind result_bind]. case_bool_decide as He; cbn [negb err_if mbind result_bind].
  2: { by split. }
  subst hs. destruct (schedule_total r Hwf _ Hlanes order Hnd) as (s & Hs & Hinv).
  { intros v. apply Hall. }
  rewrite Hs. cbn [mbind result_bind plan_fingerprint]. destruct Hinv.
  split; [done|]. split; [intros h Hu%Hhs; by apply not_elem_of_nil in Hu|].
  split; [|done]. split; cbn; rewrite ?sc_nodes0; try done.
  - by rewrite <- (length_fmap planned_node), sc_nodes0.
  - intros v. by apply elem_of_terminals.
  - by apply NoDup_terminals.
Qed.
End compile_proof.

(** What the greedy schedule implies of the intervals. *)
Section intervals.
Context (r : Recorder) (lanes : nat) (ds : list PlannedDispatch).
Context (Hwf : rec_wf r) (Hg : greedy_schedule r lanes ds).
Context (Hnd : NoDup (planned_node <$> ds)) (Hdep : dependency_order (edges r) (planned_node <$> ds)).

Lemma greedy_at i d : ds !! i = Some d → greedy r lanes (take i ds) d.
Proof using Hg. intros Hi. eapply Hg. symmetry. by apply take_drop_middle. Qed.

Lemma greedy_place i d : ds !! i = Some d →
  estimated_start d = Z.max (lane_free (take i ds) (planned_lane d))
    (ready_time (take i ds) (planned_dependencies d)) ∧
  estimated_end d = saturating_add U64_MAX (estimated_start d) (estimated_work (planned_launch d)).
Proof using Hg.
  intros Hi. destruct (greedy_at i d Hi) as [_ _ _ Hp _]. unfold placement, lane_candidate in Hp.
  injection Hp as Hs He. rewrite Hs in He. done.
Qed.

Lemma take_elem {A} (l : list A) i j (x : A) : i < j → l !! i = Some x → x ∈ take j l.
Proof using Type.
  clear. intros Hij Hi. apply list_elem_of_lookup. exists i. by rewrite lookup_take_lt.
Qed.

Lemma same_lane_disjoint i j di dj :
  i < j → ds !! i = Some di → ds !! j = Some dj → planned_lane di = planned_lane dj →
  (estimated_end di ≤ estimated_start dj)%Z.
Proof using Hg.
  intros Hij Hi Hj Hl. rewrite (proj1 (greedy_place j dj Hj)).
  etrans; [|apply Z.le_max_l]. apply max_or_zero_elem, list_elem_of_fmap.
  exists di. split; [done|]. apply list_elem_of_filter. split; [done|]. by eapply take_elem.
Qed.

Lemma dependency_finishes_first i j di dj :
  ds !! i = Some di → ds !! j = Some dj → edge (edges r) (planned_node di) (planned_node dj) →
  i < j ∧ (estimated_end di ≤ estimated_start dj)%Z.
Proof using Hg Hnd Hdep.
  intros Hi Hj He.
  assert ((planned_node <$> ds) !! i = Some (planned_node di)) as Hi'
    by by rewrite list_lookup_fmap, Hi.
  destruct (Hdep j (planned_node dj) (planned_node di)) as (k & Hk & Hkl);
    [by rewrite list_lookup_fmap, Hj|done|].
  assert (k = i) as -> by (eapply NoDup_lookup; eauto). split; [done|].
  rewrite (proj1 (greedy_place j dj Hj)). etrans; [|apply Z.le_max_r].
  etrans; [|apply max_or_zero_elem, list_elem_of_fmap; exists (planned_node di); split; [done|]].
  - apply max_or_zero_elem, list_elem_of_fmap. exists di. split; [done|].
    apply list_elem_of_filter. split; [done|]. by eapply take_elem.
  - destruct (greedy_at j dj Hj) as [_ -> _ _ _]. by apply elem_of_predecessors.
Qed.

Lemma start_bounds i d : ds !! i = Some d →
  (0 ≤ estimated_start d ≤ estimated_end d ∧ estimated_end d ≤ U64_MAX)%Z.
Proof using Hwf Hg.
  revert d. induction i as [i IH] using lt_wf_ind. intros d Hi.
  destruct (greedy_place i d Hi) as [Hs He].
  assert (ends_bounded (take i ds)) as Hb.
  { intros x [k Hk]%list_elem_of_lookup. apply lookup_take_Some in Hk as [Hk Hlt].
    destruct (IH k Hlt x Hk). lia. }
  destruct (greedy_at i d Hi) as [(nd & Hnd' & Hl & _) _ _ _ _].
  assert (launch_typed (planned_launch d)) as Hty.
  { rewrite Hl. apply (wf_launch r Hwf). by eapply list_elem_of_lookup_2. }
  assert (0 < estimated_work (planned_launch d))%Z by (unfold launch_typed in Hty; tauto).
  pose proof (lane_free_bound (take i ds) (planned_lane d) Hb).
  pose proof (ready_time_bound (take i ds) (planned_dependencies d) Hb). ulia.
Qed.

Lemma ordered_finishes_first u v :
  tc (edge (edges r)) u v → ∀ i j di dj,
  ds !! i = Some di → ds !! j = Some dj → planned_node di = u → planned_node dj = v →
  (∀ w, valid_node r w → w ∈ planned_node <$> ds) →
  i < j ∧ (estimated_end di ≤ estimated_start dj)%Z.
Proof using Hwf Hg Hnd Hdep.
  intros Ht. induction Ht as [u v He|u w v He Ht IH]; intros i j di dj Hi Hj <- <- Hall.
  - by apply dependency_finishes_first.
  - assert (valid_node r w) as Hw by by apply (wf_edges r Hwf _ w He).
    apply Hall, list_elem_of_fmap in Hw as (dk & Hkw & [k Hk]%list_elem_of_lookup). subst w.
    destruct (dependency_finishes_first i k di dk) as [? ?]; [done..|].
    destruct (IH k j dk dj) as [? ?]; [done..|].
    pose proof (start_bounds k dk Hk). lia.
Qed.
End intervals.

Lemma reach_or_not M u w : reach M u w ∨ ¬ reach M u w.
Proof.
  unfold reach. destruct (M !! node_index u) as [row|]; [|right; by intros (? & ? & _)].
  destruct (row !! node_index w) as [[]|] eqn:E; [left; eauto|right..];
    intros (row' & [= <-] & Hw); congruence.
Qed.

Lemma ordered_or_not r u v :
  rec_wf r → valid_node r u → valid_node r v → ordered r u v ∨ ¬ ordered r u v.
Proof.
  intros Hwf Hu Hv.
  destruct (topological_order_Ok r Hwf) as (order & Ho & Hnd & _ & Hall & Hdep).
  destruct (reachability_Ok r order Hwf Hnd Hall Hdep) as (M & HM & Hsq & Hreach).
  unfold ordered. rewrite <- !Hreach by done.
  destruct (reach_or_not M u v), (reach_or_not M v u); tauto.
Qed.

(** The ordering of a conflicting pair of dispatches. *)
Lemma conflict_ordered r options p di dj :
  rec_wf r → plan_of r options p → (∀ h, ¬ unordered_conflict r h) →
  di ∈ plan_dispatches p → dj ∈ plan_dispatches p → planned_node di ≠ planned_node dj →
  conflicting (planned_accesses di) (planned_accesses dj) →
  ordered r (planned_node di) (planned_node dj).
Proof.
  intros Hwf [_ _ Hall _ Hg _ _ _ _ _] Hno Hdi Hdj Hne Hc.
  assert (∀ d, d ∈ plan_dispatches p → valid_node r (planned_node d) ∧
    ∃ nd, nodes r !! node_index (planned_node d) = Some nd ∧ planned_accesses d = node_accesses nd)
    as Hd.
  { intros d Hd. split; [apply Hall, list_elem_of_fmap; by exists d|].
    apply list_elem_of_lookup in Hd as [i Hi].
    destruct (greedy_at _ _ _ Hg i d Hi) as [(nd & ? & _ & ?) _ _ _ _]. eauto. }
  destruct (Hd di Hdi) as (Hvi & ni & Hni & Hai). destruct (Hd dj Hdj) as (Hvj & nj & Hnj & Haj).
  rewrite Hai, Haj in Hc. clear Hd.
  assert (∀ v, valid_node r v → v = mkNodeId (owner r) (node_index v)) as Hv.
  { intros [] [? _]. cbn in *. by subst. }
  assert (∀ u v nu nv, valid_node r u → valid_node r v →
    nodes r !! node_index u = Some nu → nodes r !! node_index v = Some nv →
    node_index u < node_index v →
    conflicting (node_accesses nu) (node_accesses nv) → ¬ ¬ ordered r u v) as Hgo.
  { intros u v nu nv Hu Hv' Hnu Hnv Hlt [[k ov] Hin]%conflicting_iff Hnot.
    apply (Hno (mkHazard (node_id nu) (node_id nv) k ov)).
    exists (node_index u), (node_index v). split; [done|].
    rewrite <- (Hv u Hu), <- (Hv v Hv'). split; [done|]. by exists nu, nv. }
  destruct (ordered_or_not r (planned_node di) (planned_node dj)) as [|Hnot]; [done..|].
  exfalso. destruct (Nat.lt_total (node_index (planned_node di)) (node_index (planned_node dj)))
    as [Hlt|[Heq|Hlt]].
  - by apply (Hgo (planned_node di) (planned_node dj) ni nj).
  - apply Hne. by apply (vnode_eq (owner r) (length (nodes r))).
  - apply (Hgo (planned_node dj) (planned_node di) nj ni); [done..|by apply conflicting_sym|].
    unfold ordered in *. tauto.
Qed.

(** C16: compiling a recorded graph never panics and never reports a cycle. It
    succeeds exactly when the kernel contracts hold and no conflicting pair is
    unordered: a hazard error lists precisely the unordered conflicts (and at
    least one), a contract error is returned only when a contract is broken,
    and the plan then contains every recorded node once, in dependency order,
    with its launch, accesses and prerequisites, the terminals being the nodes
    without dependents. *)
Theorem compile_exact sha256 r options :
  recorded r → option_lane_count options ≠ 0 →
  match compile sha256 r options with
  | Ok p => contracts_ok r ∧ (∀ h, ¬ unordered_conflict r h) ∧ plan_of r options p ∧
      plan_fingerprint p = sha256 (plan_preimage p)
  | Err (UnorderedHazards hs) => contracts_ok r ∧ hs ≠ [] ∧ ∀ h, h ∈ hs ↔ unordered_conflict r h
  | Err (Cycle _) => False
  | Err _ => ¬ contracts_ok r
  | Panic => False
  end.
Proof. intros Hr. apply compile_outcomes, recorded_rec_wf, Hr. Qed.

(** A compiled plan comes with the facts of [compile_outcomes]. *)
Lemma compile_Ok sha256 r options p :
  recorded r → option_lane_count options ≠ 0 → compile sha256 r options = Ok p →
  rec_wf r ∧ (∀ h, ¬ unordered_conflict r h) ∧ plan_of r options p ∧
  plan_fingerprint p = sha256 (plan_preimage p).
Proof.
  intros Hr%recorded_rec_wf Hl Hc. pose proof (compile_outcomes sha256 r options Hr Hl) as H.
  rewrite Hc in H. tauto.
Qed.

Lemma conflict_precedes sha256 r options p i j di dj :
  recorded r → option_lane_count options ≠ 0 → compile sha256 r options = Ok p →
  i < j → plan_dispatches p !! i = Some di → plan_dispatches p !! j = Some dj →
  conflicting (planned_accesses di) (planned_accesses dj) →
  tc (edge (edges r)) (planned_node di) (planned_node dj) ∧
  (estimated_end di ≤ estimated_start dj)%Z.
Proof.
  intros Hr Hl Hc Hij Hi Hj Hcon.
  destruct (compile_Ok _ _ _ _ Hr Hl Hc) as (Hwf & Hno & Hp & _).
  assert (ordered r (planned_node di) (planned_node dj)) as Hord.
  { eapply conflict_ordered; eauto using list_elem_of_lookup_2. intros Heq.
    assert (i = j); [|lia]. eapply (NoDup_lookup _ _ _ _ (po_nodes _ _ _ Hp));
      rewrite list_lookup_fmap, ?Hi, ?Hj; [done|]. cbn. by rewrite Heq. }
  assert (∀ w, valid_node r w → w ∈ planned_node <$> plan_dispatches p) as Hall.
  { intros w. apply (po_all _ _ _ Hp). }
  destruct Hord as [Ht|Ht].
  - split; [done|]. by eapply (ordered_finishes_first r _ _ Hwf (po_greedy _ _ _ Hp)
      (po_nodes _ _ _ Hp) (po_order _ _ _ Hp) _ _ Ht i j).
  - destruct (ordered_finishes_first r _ _ Hwf (po_greedy _ _ _ Hp)
      (po_nodes _ _ _ Hp) (po_order _ _ _ Hp) _ _ Ht j i dj di); [done..|lia].
Qed.

(** C3: no compiled plan has a data race. Of two planned dispatches that touch
    a common byte, one of them writing it, the one submitted first precedes the
    other in the dependency graph, and its estimated interval ends before the
    other's starts. *)
Theorem compile_race_free sha256 r options p i j di dj :
  recorded r → option_lane_count options ≠ 0 → compile sha256 r options = Ok p →
  i < j → plan_dispatches p !! i = Some di → plan_dispatches p !! j = Some dj →
  conflicting (planned_accesses di) (planned_accesses dj) →
  tc (edge (edges r)) (planned_node di) (planned_node dj) ∧
  (estimated_end di ≤ estimated_start dj)%Z.
Proof. apply conflict_precedes. Qed.

(** The lane assignment is a list schedule. Every dispatch is placed on a
    lane below the lane count, at the interval that lane allows after its
    prerequisites, on the lane of least (end, start, lane); dispatches of one
    lane occupy disjoint intervals in submission order, every prerequisite ends
    before its dependent starts, and no time exceeds 64 bits. *)
Theorem compile_schedule sha256 r options p :
  recorded r → option_lane_count options ≠ 0 → compile sha256 r options = Ok p →
  greedy_schedule r (option_lane_count options) (plan_dispatches p) ∧
  (∀ i j di dj, plan_dispatches p !! i = Some di → plan_dispatches p !! j = Some dj →
    (i < j → planned_lane di = planned_lane dj → (estimated_end di ≤ estimated_start dj)%Z) ∧
    (edge (edges r) (planned_node di) (planned_node dj) →
      i < j ∧ (estimated_end di ≤ estimated_start dj)%Z) ∧
    (0 ≤ estimated_start di ≤ estimated_end di ∧ estimated_end di ≤ U64_MAX)%Z).
Proof.
  intros Hr Hl Hc. destruct (compile_Ok _ _ _ _ Hr Hl Hc) as (Hwf & _ & Hp & _).
  destruct Hp as [Hnd _ _ Hdep Hg _ _ _ _ _]. split; [done|]. intros i j di dj Hi Hj.
  split; [|split].
  - intros Hij Hlane. by eapply (same_lane_disjoint r _ _ Hg i j).
  - intros He. by eapply (dependency_finishes_first r _ _ Hg Hnd Hdep i j).
  - by eapply (start_bounds r _ _ Hwf Hg i).
Qed.

(** ** The concrete recording, compiled *)

Definition demo_sha256 (bytes : list Z) : list Z := take 32 (bytes ++ replicate 32 0%Z).
Definition demo_options : CompileOptions := mkCompileOptions 2 TokenLatency.

Definition demo_dispatches : list PlannedDispatch :=
  [mkPlannedDispatch demo_project 0 (demo_launch "project" 3)
     [Access_read demo_input; Access_write demo_output] [] 0 3;
   mkPlannedDispatch demo_consume 0 (demo_launch "consume" 1)
     [Access_read demo_output] [demo_project] 3 4].

Definition demo_plan : CompiledPlan :=
  let plan := mkCompiledPlan [mkPlannedResource demo_resource "activations" 4096]
    demo_dispatches [demo_consume] 2 TokenLatency [] in
  mkCompiledPlan (plan_resources plan) (plan_dispatches plan) (plan_terminals plan)
    (plan_lane_count plan) (plan_replay_mode plan) (demo_sha256 (plan_preimage plan)).

Lemma demo_compiles : compile demo_sha256 demo demo_options = Ok demo_plan.
Proof. vm_compute. reflexivity. Qed.

(** The same recording without its edge is refused with the one hazard. *)
Lemma compile_exact_witness :
  let h := mkHazard demo_project demo_consume ReadAfterWrite demo_output in
  compile demo_sha256 demo_unordered demo_options = Err (UnorderedHazards [h]) ∧
  unordered_conflict demo_unordered h.
Proof.
  intros h. assert (compile demo_sha256 demo_unordered demo_options =
    Err (UnorderedHazards [h])) as E by (vm_compute; reflexivity).
  split; [exact E|].
  assert (option_lane_count demo_options ≠ 0) as Hl by discriminate.
  pose proof (compile_exact demo_sha256 demo_unordered demo_options demo_unordered_recorded Hl) as H.
  rewrite E in H. apply H. left.
Defined.

Lemma compile_race_free_witness :
  tc (edge (edges demo)) demo_project demo_consume ∧ (3 ≤ 3)%Z.
Proof.
  refine (compile_race_free demo_sha256 demo demo_options demo_plan 0 1
    _ _ demo_recorded _ demo_compiles _ eq_refl eq_refl _).
  - discriminate.
  - lia.
  - exists (Access_write demo_output), (Access_read demo_output).
    split; [right; left|]. split; [left|]. split; [reflexivity|]. left. reflexivity.
Defined.

Lemma compile_schedule_witness :
  greedy_schedule demo 2 (plan_dispatches demo_plan).
Proof.
  refine (proj1 (compile_schedule demo_sha256 demo demo_options demo_plan
    demo_recorded _ demo_compiles)). discriminate.
Defined.
