(* ===== verification/Fingerprint.v ===== *)
(** What a plan fingerprint identifies
    (src/crates/redline-dispatch/src/plan.rs: [fingerprint] and the [put_*]
    functions, defined in Plan.v).

    The bytes hashed are a prefix-free encoding. [anon_plan] erases what the
    fingerprint is meant to ignore: the identity of the recorder, the estimated
    times, and everything of a kernarg layout except its own hash. Two compiled
    plans have the same bytes exactly when they agree up to that erasure, which
    makes the fingerprint a key for the replay caches that use it. *)

From S2P Require Import Prelude Ir Identity Recorder Graph Plan.

#[local] Arguments put_u32 _ : simpl never.
#[local] Arguments put_u64 _ : simpl never.
#[local] Arguments put_usize _ : simpl never.
#[local] Arguments put_bytes _ : simpl never.
#[local] Arguments put_list {_} _ _ : simpl never.

(** ** Erasing the recorder *)

Definition anon_node (n : NodeId) : NodeId := mkNodeId 0 (node_index n).
Definition anon_resource (i : ResourceId) : ResourceId := mkResourceId 0 (resource_index i).

Definition anon_argument (a : KernelArg) : KernelArg :=
  match a with
  | Resource_arg res offset => Resource_arg (anon_resource res) offset
  | _ => a
  end.

Definition anon_access (a : Access) : Access :=
  mkAccess (mkDeviceRegion (anon_resource (region_resource (access_region a)))
    (region_offset (access_region a)) (region_len (access_region a))) (access_mode a).

Definition anon_abi (abi : KernargAbi) : KernargAbi := mkKernargAbi 0 0 [] (abi_hash abi).

Definition anon_launch (l : KernelLaunch) : KernelLaunch :=
  mkKernelLaunch (kernel l) (grid l) (block l) (dynamic_shared_bytes l)
    (anon_argument <$> arguments l) (anon_abi <$> kernarg_abi l)
    (artifact_identity l) (estimated_work l).

Definition anon_dispatch (d : PlannedDispatch) : PlannedDispatch :=
  mkPlannedDispatch (anon_node (planned_node d)) (planned_lane d) (anon_launch (planned_launch d))
    (anon_access <$> planned_accesses d) (anon_node <$> planned_dependencies d) 0 0.

Definition anon_planned (res : PlannedResource) : PlannedResource :=
  mkPlannedResource (anon_resource (planned_id res)) (planned_label res) (planned_size res).

Definition anon_plan (p : CompiledPlan) : CompiledPlan :=
  mkCompiledPlan (anon_planned <$> plan_resources p) (anon_dispatch <$> plan_dispatches p)
    (anon_node <$> plan_terminals p) (plan_lane_count p) (plan_replay_mode p) [].

(** Equality up to the erased parts. *)
Definition same {A} (anon : A → A) (a b : A) : Prop := anon a = anon b.

#[export] Instance same_equivalence {A} (anon : A → A) : Equivalence (same anon).
Proof. unfold same. split; [by intros ?|by intros ??|intros ???; congruence]. Qed.

Lemma Forall2_same {A} (anon : A → A) l k :
  Forall2 (same anon) l k ↔ anon <$> l = anon <$> k.
Proof.
  rewrite list_eq_Forall2, Forall2_fmap. done.
Qed.

(** ** The encoders read back *)

Definition node_typed (n : NodeId) : Prop := is_u32 (Z.of_nat (node_index n)).
Definition resource_id_typed (i : ResourceId) : Prop := is_u32 (Z.of_nat (resource_index i)).

Definition arg_indexed (a : KernelArg) : Prop :=
  arg_typed a ∧ match a with Resource_arg res _ => resource_id_typed res | _ => True end.

Definition access_typed (a : Access) : Prop :=
  resource_id_typed (region_resource (access_region a)) ∧
  is_u64 (region_offset (access_region a)) ∧ is_u64 (region_len (access_region a)).

Lemma cons_inv {A} (x y : A) l k : x :: l = y :: k → x = y ∧ l = k.
Proof. by intros [= -> ->]. Qed.

Definition counted {A} (P : A → Prop) (l : list A) : Prop :=
  is_u64 (Z.of_nat (length l)) ∧ Forall P l.

Lemma pf_put_u32 : PrefixFree is_u32 (=) put_u32.
Proof. apply pf_u32. Qed.
Lemma pf_put_u64 : PrefixFree is_u64 (=) put_u64.
Proof. apply pf_u64. Qed.

Lemma pf_put_usize : PrefixFree (λ n, is_u64 (Z.of_nat n)) (=) put_usize.
Proof.
  intros a b r s Ha Hb. unfold put_usize. intros [Hn ->]%pf_put_u64; [|done..].
  by apply Nat2Z.inj in Hn.
Qed.

Lemma pf_put_list {A} (P : A → Prop) (anon : A → A) put :
  PrefixFree P (same anon) put →
  PrefixFree (counted P) (λ l k, anon <$> l = anon <$> k) (put_list put).
Proof.
  intros H l k r s Hl Hk He. apply (pf_counted P (same anon) put H) in He as [HF ->]; [|done..].
  split; [|done]. by apply Forall2_same.
Qed.

Lemma pf_put_bytes : PrefixFree (λ bs, is_u64 (Z.of_nat (length bs))) (=) put_bytes.
Proof.
  intros a b r s Ha Hb. unfold put_bytes. rewrite <- !app_assoc.
  intros [Hn He]%pf_put_usize; [|done..]. by apply app_inj_1 in He.
Qed.

Lemma pf_put_str :
  PrefixFree (λ s, is_u64 (Z.of_nat (length (str_bytes s)))) (=) (λ s, put_bytes (str_bytes s)).
Proof.
  eapply pf_mono; [apply (pf_on str_bytes _ _ _ _ pf_put_bytes); intros a Ha; exact Ha|done|].
  intros a b _ _. apply str_bytes_inj.
Qed.

Lemma pf_put_node : PrefixFree node_typed (same anon_node) put_node.
Proof.
  intros a b r s Ha Hb. unfold put_node. intros [Hn ->]%pf_put_u32; [|done..].
  split; [|done]. unfold same, anon_node. f_equal. lia.
Qed.

Lemma pf_put_dim3 : PrefixFree dim_typed (=) put_dim3.
Proof.
  intros [x y z] [x' y' z'] r s (Hx & Hy & Hz) (Hx' & Hy' & Hz'). cbn in *.
  unfold put_dim3; cbn. rewrite <- !app_assoc.
  intros [-> He]%pf_put_u32; [|ulia..]. apply pf_put_u32 in He as [-> He]; [|ulia..].
  by apply pf_put_u32 in He as [-> ->]; [|ulia..].
Qed.

Definition mode_typed (m : ReplayMode) : Prop :=
  match m with TokenLatency => True | Throughput k => (0 < k ≤ U64_MAX)%Z end.

Lemma pf_put_mode : PrefixFree mode_typed (=) put_mode.
Proof.
  intros [|x] [|y] r s Hx Hy; cbn in *; intros He; [by apply cons_inv in He as [_ ->]|done..|].
  apply cons_inv in He as [_ He]. by apply pf_put_u64 in He as [-> ->]; [|ulia..].
Qed.

Lemma digest_split (d d' : Sha256Digest) r s :
  digest_typed d → digest_typed d' →
  digest_bytes d ++ r = digest_bytes d' ++ s → d = d' ∧ r = s.
Proof.
  unfold digest_typed. intros Hd Hd' He. apply app_inj_1 in He as [Hb ->]; [|congruence].
  destruct d, d'. cbn in *. by subst.
Qed.

Lemma pf_put_abi :
  PrefixFree (λ o, ∀ abi, o = Some abi → digest_typed (abi_hash abi))
    (λ o o', anon_abi <$> o = anon_abi <$> o') put_abi.
Proof.
  intros [a|] [b|] r s Ha Hb; cbn; intros He; [|done..|by apply cons_inv in He as [_ ->]].
  apply cons_inv in He as [_ He]. apply digest_split in He as [Heq ->]; [|by auto..].
  unfold anon_abi. by rewrite Heq.
Qed.

Lemma pf_put_identity :
  PrefixFree (λ o, ∀ i, o = Some i → artifact_typed i) (=) put_identity.
Proof.
  intros [[c t g]|] [[c' t' g']|] r s Ha Hb; cbn; intros He; [|done..|by apply cons_inv in He as [_ ->]].
  apply cons_inv in He as [_ He]. destruct (Ha _ eq_refl) as (? & ? & ?), (Hb _ eq_refl) as (? & ? & ?).
  cbn in *. rewrite <- !app_assoc in He.
  apply digest_split in He as [-> He]; [|done..]. apply digest_split in He as [-> He]; [|done..].
  by apply pf_put_u64 in He as [-> ->]; [|done..].
Qed.

Lemma pf_put_argument : PrefixFree arg_indexed (same anon_argument) put_argument.
Proof.
  unfold same.
  intros [bs|sl sz|[o i] off] [bs'|sl' sz'|[o' i'] off'] r s [Ha Hai] [Hb Hbi];
    cbn [arg_typed put_argument app] in *; intros He; try discriminate He; apply cons_inv in He as [_ He].
  - apply pf_put_bytes in He as [-> ->]; [done|tauto..].
  - destruct Ha, Hb. rewrite <- !app_assoc in He. apply pf_put_u32 in He as [Hs He]; [|done..].
    apply pf_put_u32 in He as [-> ->]; [|done..]. destruct sl, sl'. cbn in *. by subst.
  - rewrite <- !app_assoc in He. apply pf_put_u32 in He as [Hs He]; [|done..].
    apply pf_put_u64 in He as [-> ->]; [|done..]. split; [|done].
    cbn. unfold anon_resource. cbn. repeat f_equal. cbn in Hs. lia.
Qed.

Lemma pf_put_access : PrefixFree access_typed (same anon_access) put_access.
Proof.
  intros [[[o i] off len] m] [[[o' i'] off' len'] m'] r s (H1 & H2 & H3) (H4 & H5 & H6).
  cbn in *. intros [Hm He]%cons_inv. rewrite <- !app_assoc in He.
  apply pf_put_u32 in He as [Hi He]; [|done..]. apply pf_put_u64 in He as [-> He]; [|done..].
  apply pf_put_u64 in He as [-> ->]; [|done..]. split; [|done].
  assert (m = m') as -> by (by destruct m, m').
  unfold same, anon_access, anon_resource. cbn. repeat f_equal. lia.
Qed.

Definition launch_indexed (l : KernelLaunch) : Prop :=
  launch_typed l ∧ Forall arg_indexed (arguments l).

Lemma pf_put_launch : PrefixFree launch_indexed (same anon_launch) put_launch.
Proof.
  intros a b r s [(_ & Ha1 & Ha2 & Ha3 & Ha4 & Ha5 & Ha6 & Ha7 & Ha8 & Ha9) HaI]
    [(_ & Hb1 & Hb2 & Hb3 & Hb4 & Hb5 & Hb6 & Hb7 & Hb8 & Hb9) HbI].
  unfold put_launch. rewrite <- !app_assoc. intros He.
  apply pf_put_str in He as [E1 He]; [|done..]. apply pf_put_dim3 in He as [E2 He]; [|done..].
  apply pf_put_dim3 in He as [E3 He]; [|done..]. apply pf_put_u32 in He as [E4 He]; [|done..].
  apply pf_put_u32 in He as [E5 He]; [|ulia..]. apply pf_put_abi in He as [E6 He]; [|done..].
  apply pf_put_identity in He as [E7 He]; [|done..].
  apply (pf_put_list _ _ _ pf_put_argument) in He as [E8 ->]; [|split; done..].
  split; [|done]. unfold same, anon_launch. congruence.
Qed.

Record dispatch_typed (d : PlannedDispatch) : Prop := {
  dt_node : node_typed (planned_node d);
  dt_lane : is_u64 (Z.of_nat (planned_lane d));
  dt_launch : launch_indexed (planned_launch d);
  dt_accesses : counted access_typed (planned_accesses d);
  dt_deps : counted node_typed (planned_dependencies d) }.

Lemma pf_put_dispatch : PrefixFree dispatch_typed (same anon_dispatch) put_dispatch.
Proof.
  intros a b r s [] []. unfold put_dispatch. rewrite <- !app_assoc. intros He.
  apply pf_put_node in He as [E1 He]; [|done..]. apply pf_put_usize in He as [E2 He]; [|done..].
  apply pf_put_launch in He as [E3 He]; [|done..].
  apply (pf_put_list _ _ _ pf_put_access) in He as [E4 He]; [|done..].
  apply (pf_put_list _ _ _ pf_put_node) in He as [E5 ->]; [|done..].
  split; [|done]. unfold same, anon_dispatch in *. congruence.
Qed.

Definition planned_typed (res : PlannedResource) : Prop :=
  resource_id_typed (planned_id res) ∧
  is_u64 (Z.of_nat (length (str_bytes (planned_label res)))) ∧ is_u64 (planned_size res).

Lemma pf_put_resource : PrefixFree planned_typed (same anon_planned) put_resource.
Proof.
  intros [[o i] lab sz] [[o' i'] lab' sz'] r s (H1 & H2 & H3) (H4 & H5 & H6).
  unfold put_resource. cbn in *. rewrite <- !app_assoc. intros He.
  apply pf_put_u32 in He as [Hi He]; [|done..]. apply pf_put_str in He as [-> He]; [|done..].
  apply pf_put_u64 in He as [-> ->]; [|done..]. split; [|done].
  unfold same, anon_planned, anon_resource. cbn. repeat f_equal. lia.
Qed.

Record plan_typed (p : CompiledPlan) : Prop := {
  pt_lanes : is_u64 (Z.of_nat (plan_lane_count p));
  pt_mode : mode_typed (plan_replay_mode p);
  pt_resources : counted planned_typed (plan_resources p);
  pt_dispatches : counted dispatch_typed (plan_dispatches p);
  pt_terminals : counted node_typed (plan_terminals p) }.

Lemma plan_preimage_inj p q :
  plan_typed p → plan_typed q → plan_preimage p = plan_preimage q → anon_plan p = anon_plan q.
Proof.
  intros [] []. unfold plan_preimage. intros He.
  apply app_inj_1 in He as [_ He]; [|done].
  apply pf_put_usize in He as [E1 He]; [|done..]. apply pf_put_mode in He as [E2 He]; [|done..].
  apply (pf_put_list _ _ _ pf_put_resource) in He as [E3 He]; [|done..].
  apply (pf_put_list _ _ _ pf_put_dispatch) in He as [E4 He]; [|done..].
  apply (pf_self _ _ _ _ _ (pf_put_list _ _ _ pf_put_node)) in He as E5; [|done..].
  unfold anon_plan. congruence.
Qed.

(** ** The bytes depend on nothing that is erased *)

Lemma put_list_anon {A} (anon : A → A) (put : A → list Z) l :
  (∀ a, put (anon a) = put a) → put_list put (anon <$> l) = put_list put l.
Proof.
  intros H. unfold put_list. rewrite length_fmap. f_equal.
  rewrite <- list_fmap_compose. f_equal. apply list_fmap_ext. intros i x _. apply H.
Qed.

Lemma put_launch_anon l : put_launch (anon_launch l) = put_launch l.
Proof.
  unfold put_launch. cbn [anon_launch kernel grid block dynamic_shared_bytes estimated_work
    kernarg_abi artifact_identity arguments].
  rewrite (put_list_anon anon_argument) by (intros [| |[]]; reflexivity).
  by destruct (kernarg_abi l).
Qed.

Lemma put_dispatch_anon d : put_dispatch (anon_dispatch d) = put_dispatch d.
Proof.
  unfold put_dispatch. cbn. rewrite put_launch_anon, !put_list_anon by done. done.
Qed.

Lemma plan_preimage_anon p : plan_preimage (anon_plan p) = plan_preimage p.
Proof.
  unfold plan_preimage. cbn [anon_plan plan_lane_count plan_replay_mode plan_resources
    plan_dispatches plan_terminals].
  rewrite (put_list_anon anon_planned) by done.
  rewrite (put_list_anon anon_dispatch) by exact put_dispatch_anon.
  by rewrite (put_list_anon anon_node) by done.
Qed.

#[export] Instance plan_preimage_proper : Proper (same anon_plan ==> (=)) plan_preimage.
Proof. intros p q H. rewrite <- (plan_preimage_anon p), H. apply plan_preimage_anon. Qed.

(** ** Compiled plans are within the encoders' ranges *)

Definition options_typed (o : CompileOptions) : Prop :=
  option_lane_count o ≠ 0 ∧ is_u64 (Z.of_nat (option_lane_count o)) ∧
  mode_typed (option_replay_mode o).

Section typed.
Context (r : Recorder) (Hwf : rec_wf r).

Lemma valid_node_typed v : valid_node r v → node_typed v.
Proof using Hwf.
  intros [_ Hi]. pose proof (wf_node_count r Hwf). unfold node_typed. ulia.
Qed.

Lemma nodes_counted l : NoDup l → (∀ v, v ∈ l → valid_node r v) → counted node_typed l.
Proof using Hwf.
  intros Hnd Hv. split.
  - pose proof (vnode_bound (owner r) (length (nodes r)) l Hnd
      (proj2 (Forall_forall _ _) Hv)). pose proof (wf_node_count r Hwf). ulia.
  - apply Forall_forall. intros v Hin. by apply valid_node_typed, Hv.
Qed.

Lemma NoDup_predecessors v : NoDup (predecessors (edges r) v).
Proof using Hwf.
  unfold predecessors. induction (edges_NoDup r Hwf) as [|[a b] es Hin Hes IH]; cbn;
    [constructor|].
  case_bool_decide as Hb; [|done]. constructor; [|done]. subst.
  rewrite list_elem_of_omap. intros ([c d] & Hcd & H). case_bool_decide; naive_solver.
Qed.

Lemma region_typed region : region_in_bounds r region →
  resource_id_typed (region_resource region) ∧
  is_u64 (region_offset region) ∧ is_u64 (region_len region).
Proof using Hwf.
  intros ((H1 & H2 & H3) & _ & res & Hres & _). unfold region_end in *.
  apply lookup_lt_Some in Hres. pose proof (wf_resource_count r Hwf).
  unfold resource_id_typed. ulia.
Qed.

Lemma launch_indexed_of nd : nd ∈ nodes r → launch_indexed (node_launch nd).
Proof using Hwf.
  intros Hnd. pose proof (wf_launch r Hwf nd Hnd) as Hty. split; [done|].
  unfold launch_typed in Hty. destruct Hty as (_ & _ & _ & _ & _ & Hargs & _).
  rewrite Forall_forall in Hargs. apply Forall_forall. intros a Ha. split; [by auto|].
  pose proof (wf_arguments r Hwf nd a Hnd Ha) as Hd. destruct a as [| |res off]; [done..|].
  destruct Hd as (acc & Hacc & <- & _).
  by apply region_typed, (wf_accesses r Hwf nd acc).
Qed.

Lemma plan_of_typed options p : options_typed options → plan_of r options p → plan_typed p.
Proof using Hwf.
  intros (_ & Hlanes & Hmode) [Hnd _ Hall Hord Hg Hterm Htnd Hres Hl Hm].
  split; [by rewrite Hl|by rewrite Hm|..].
  - rewrite Hres. unfold planned_resources. split.
    + rewrite length_imap. pose proof (wf_resource_count r Hwf). ulia.
    + apply Forall_forall. intros x [i Hi]%list_elem_of_lookup.
      apply list_lookup_imap_Some in Hi as (res & Hi & ->).
      destruct (wf_resources r Hwf res) as (_ & ? & ?); [by eapply list_elem_of_lookup_2|].
      apply lookup_lt_Some in Hi. pose proof (wf_resource_count r Hwf).
      unfold planned_typed, resource_id_typed. cbn. ulia.
  - assert (counted node_typed (planned_node <$> plan_dispatches p)) as [Hlen _].
    { apply nodes_counted; [done|]. intros v. apply Hall. }
    rewrite length_fmap in Hlen. split; [done|].
    apply Forall_forall. intros d Hd.
    assert (valid_node r (planned_node d)) as Hv.
    { apply Hall, list_elem_of_fmap. by exists d. }
    apply list_elem_of_lookup in Hd as [i Hi].
    destruct (greedy_at _ _ _ Hg i d Hi) as [(nd & Hnd' & Hlaunch & Hacc) Hdeps Hlane _ _].
    assert (nd ∈ nodes r) as Hin by by eapply list_elem_of_lookup_2.
    split.
    + by apply valid_node_typed.
    + ulia.
    + rewrite Hlaunch. by apply launch_indexed_of.
    + rewrite Hacc. split; [by apply (wf_access_count r Hwf)|].
      apply Forall_forall. intros a Ha. by apply region_typed, (wf_accesses r Hwf nd a).
    + rewrite Hdeps. apply nodes_counted; [apply NoDup_predecessors|].
      intros v Hv'%elem_of_predecessors. by apply (wf_edges r Hwf v (planned_node d)).
  - apply nodes_counted; [done|]. intros v Hv. by apply Hterm.
Qed.
End typed.

(** C21: the fingerprint identifies a compiled plan. For plans compiled from any
    two recorders, the hashed bytes agree exactly when the plans agree up to
    the recorder's identity, the estimated times and the details behind a
    kernarg layout's own hash: lane count, replay mode, resources, launches,
    arguments, accesses, lanes, dependencies and terminals all agree. *)
Theorem fingerprint_identifies sha256 r r' o o' p p' :
  recorded r → recorded r' → options_typed o → options_typed o' →
  compile sha256 r o = Ok p → compile sha256 r' o' = Ok p' →
  plan_preimage p = plan_preimage p' ↔ anon_plan p = anon_plan p'.
Proof.
  intros Hr Hr' Ho Ho' Hp Hp'.
  destruct (compile_Ok _ _ _ _ Hr (proj1 Ho) Hp) as (Hwf & _ & Hof & _).
  destruct (compile_Ok _ _ _ _ Hr' (proj1 Ho') Hp') as (Hwf' & _ & Hof' & _).
  split; [|apply plan_preimage_proper].
  apply plan_preimage_inj; [exact (plan_of_typed r Hwf o p Ho Hof)|exact (plan_of_typed r' Hwf' o' p' Ho' Hof')].
Qed.

Definition demo_wide_options : CompileOptions := mkCompileOptions 3 (Throughput 2).

Definition demo_wide_plan : CompiledPlan :=
  let plan := mkCompiledPlan (plan_resources demo_plan) demo_dispatches [demo_consume]
    3 (Throughput 2) [] in
  mkCompiledPlan (plan_resources plan) (plan_dispatches plan) (plan_terminals plan)
    (plan_lane_count plan) (plan_replay_mode plan) (demo_sha256 (plan_preimage plan)).

(** The same graph compiled for other lanes and another mode hashes other bytes. *)
Lemma fingerprint_identifies_witness : plan_preimage demo_plan ≠ plan_preimage demo_wide_plan.
Proof.
  assert (options_typed demo_options) as Ho.
  { split; [discriminate|]. split; [vm_compute; intuition congruence|exact I]. }
  assert (options_typed demo_wide_options) as Ho'.
  { split; [discriminate|]. split; vm_compute; intuition congruence. }
  assert (compile demo_sha256 demo demo_wide_options = Ok demo_wide_plan) as Hc
    by (vm_compute; reflexivity).
  intros H. apply (fingerprint_identifies demo_sha256 demo demo demo_options demo_wide_options
    demo_plan demo_wide_plan demo_recorded demo_recorded Ho Ho' demo_compiles Hc) in H.
  discriminate H.
Defined.
