(* ===== verification/Replay.v ===== *)
(** Replaying a compiled plan through a backend
    (src/crates/redline-dispatch/src/plan.rs: [CompiledPlan::replay],
    src/crates/redline-dispatch/src/backend.rs and mock.rs).

    The [DispatchBackend] trait is a class over the backend's state; an
    operation returns the new state with its outcome, so that a failing call
    keeps whatever it did. [replay] is proved correct against the class, for
    every backend; [MockBackend] is one instance, for which the recorded
    command trace is computed exactly. *)

From S2P Require Import Prelude Ir Identity Recorder Graph Plan.

(** ** The interface *)

Record BeginReplay := mkBeginReplay {
  begin_token : ReplayToken; begin_mode : ReplayMode; begin_lane_count : nat }.

Record DispatchRequest (Signal : Type) := mkDispatchRequest {
  request_token : ReplayToken;
  request_node : NodeId;
  request_lane : nat;
  request_launch : KernelLaunch;
  request_accesses : list Access;
  request_signals : list Signal }.
Arguments mkDispatchRequest {Signal}.
Arguments request_token {Signal}.
Arguments request_node {Signal}.
Arguments request_lane {Signal}.
Arguments request_launch {Signal}.
Arguments request_accesses {Signal}.
Arguments request_signals {Signal}.

Record EndReplay (Signal : Type) := mkEndReplay {
  end_token : ReplayToken; end_mode : ReplayMode; end_signals : list Signal }.
Arguments mkEndReplay {Signal}.
Arguments end_token {Signal}.
Arguments end_mode {Signal}.
Arguments end_signals {Signal}.

(** [trait DispatchBackend] over a backend state [B]. *)
Class DispatchBackend (B Signal Completion Failure : Type) := {
  begin_replay : B → BeginReplay → B * result Failure unit;
  dispatch : B → DispatchRequest Signal → B * result Failure Signal;
  end_replay : B → EndReplay Signal → B * result Failure Completion }.

(** [call?] on a backend: continue with the new state, or leave with it. *)
Definition and_then {B E A C} (m : B * result E A) (k : B → A → B * result E C)
    : B * result E C :=
  let '(b, r) := m in
  match r with Ok a => k b a | Err e => (b, Err e) | Panic => (b, Panic) end.

(** ** Replay *)

Section replay.
Context `{DispatchBackend B Signal Completion Failure}.

(** The signals of [nodes], each of which must have been submitted. *)
Definition signals_of (signals : list (option Signal)) (nodes : list NodeId)
    : result Failure (list Signal) :=
  try_map (λ node, signal ← index signals (node_index node); expect signal) nodes.

(** The submission loop. *)
Fixpoint submit (token : ReplayToken) (b : B) (signals : list (option Signal))
    (ds : list PlannedDispatch) : B * result Failure (list (option Signal)) :=
  match ds with
  | [] => (b, Ok signals)
  | d :: ds =>
      and_then (b, signals_of signals (planned_dependencies d)) (λ b dependency_signals,
      and_then (dispatch b (mkDispatchRequest token (planned_node d) (planned_lane d)
        (planned_launch d) (planned_accesses d) dependency_signals)) (λ b signal,
      and_then (b, store signals (node_index (planned_node d)) (Some signal)) (λ b signals,
      submit token b signals ds)))
  end.

(** [CompiledPlan::replay] *)
Definition replay (p : CompiledPlan) (b : B) (token : ReplayToken)
    : B * result Failure Completion :=
  and_then (begin_replay b (mkBeginReplay token (plan_replay_mode p) (plan_lane_count p)))
    (λ b _,
  and_then (submit token b (replicate (length (plan_dispatches p)) None) (plan_dispatches p))
    (λ b signals,
  and_then (b, signals_of signals (plan_terminals p)) (λ b terminal_signals,
  end_replay b (mkEndReplay token (plan_replay_mode p) terminal_signals)))).

(** ** The abstract replay

    What a backend observes: the dispatches in plan order, each carrying the
    signals earlier calls returned for exactly its prerequisites, in order,
    until a call fails; at the end the signals of the terminals. [env] lists
    the signal of every node submitted so far. *)
Definition signals_for (env : list (NodeId * Signal)) (nodes : list NodeId)
    (sigs : list Signal) : Prop :=
  Forall2 (λ v s, (v, s) ∈ env) nodes sigs.

Inductive observed (p : CompiledPlan) (token : ReplayToken)
    : B → list (NodeId * Signal) → list PlannedDispatch → B * result Failure Completion → Prop :=
| obs_end b env sigs :
    signals_for env (plan_terminals p) sigs →
    observed p token b env [] (end_replay b (mkEndReplay token (plan_replay_mode p) sigs))
| obs_dispatch b b' env d ds sigs s out :
    signals_for env (planned_dependencies d) sigs →
    dispatch b (mkDispatchRequest token (planned_node d) (planned_lane d)
      (planned_launch d) (planned_accesses d) sigs) = (b', Ok s) →
    planned_node d ∉ env.*1 →
    observed p token b' (env ++ [(planned_node d, s)]) ds out →
    observed p token b env (d :: ds) out
| obs_error b b' env d ds sigs e :
    signals_for env (planned_dependencies d) sigs →
    dispatch b (mkDispatchRequest token (planned_node d) (planned_lane d)
      (planned_launch d) (planned_accesses d) sigs) = (b', Err e) →
    observed p token b env (d :: ds) (b', Err e)
| obs_panic b b' env d ds sigs :
    signals_for env (planned_dependencies d) sigs →
    dispatch b (mkDispatchRequest token (planned_node d) (planned_lane d)
      (planned_launch d) (planned_accesses d) sigs) = (b', Panic) →
    observed p token b env (d :: ds) (b', Panic).

Section proof.
Context (r : Recorder) (options : CompileOptions) (p : CompiledPlan).
Context (Hwf : rec_wf r) (Hp : plan_of r options p) (token : ReplayToken).

(** The vector of signals holds exactly the submitted nodes' signals. *)
Record signals_inv (env : list (NodeId * Signal)) (signals : list (option Signal)) : Prop := {
  sg_len : length signals = length (nodes r);
  sg_nodes v : v ∈ env.*1 → valid_node r v;
  sg_get v s : (v, s) ∈ env → signals !! node_index v = Some (Some s) }.

Lemma signals_of_Ok env signals ns :
  signals_inv env signals → (∀ v, v ∈ ns → v ∈ env.*1) →
  ∃ sigs, signals_of signals ns = Ok sigs ∧ signals_for env ns sigs.
Proof using Type.
  clear Hp Hwf. intros Hinv. induction ns as [|v ns IH]; intros Hns.
  - exists []. split; [done|constructor].
  - destruct IH as (sigs & Hs & Hf); [set_solver|].
    assert (v ∈ env.*1) as Hv by (apply Hns; set_solver).
    apply list_elem_of_fmap in Hv as ([v' s] & -> & Hin).
    exists (s :: sigs). split; [|by constructor].
    unfold signals_of in *. cbn [try_map fst].
    rewrite (proj2 (index_Ok _ _ _) (sg_get _ _ Hinv _ _ Hin)).
    cbn [mbind result_bind expect]. by rewrite Hs.
Qed.

Lemma signals_inv_snoc env signals v s :
  signals_inv env signals → valid_node r v → v ∉ env.*1 →
  signals_inv (env ++ [(v, s)]) (<[node_index v := Some s]> signals).
Proof using Type.
  clear Hp Hwf. intros [H1 H2 H3] Hv Hnew. split.
  - by rewrite length_insert.
  - intros w. rewrite fmap_app, elem_of_app. cbn. rewrite list_elem_of_singleton.
    intros [?| ->]; auto.
  - intros w t [Hin|[= -> ->]%list_elem_of_singleton]%elem_of_app.
    + rewrite list_lookup_insert_ne; [by apply H3|]. intros Hi. apply Hnew.
      assert (w ∈ env.*1) as Hw by (apply list_elem_of_fmap; by exists (w, t)).
      replace v with w; [done|]. apply (vnode_eq (owner r) (length (nodes r))); [by apply H2|done..].
    + apply list_lookup_insert_eq. destruct Hv. lia.
Qed.

Lemma submit_observed ds : ∀ pre b env signals,
  plan_dispatches p = pre ++ ds → env.*1 = planned_node <$> pre → signals_inv env signals →
  observed p token b env ds
    (and_then (submit token b signals ds) (λ b signals,
     and_then (b, signals_of signals (plan_terminals p)) (λ b terminal_signals,
     end_replay b (mkEndReplay token (plan_replay_mode p) terminal_signals)))).
Proof using Hwf Hp.
  destruct Hp as [Hnd Hcount Hall Hord Hg Hterm _ _ _ _].
  induction ds as [|d ds IH]; intros pre b env signals Hpre Henv Hinv.
  - rewrite app_nil_r in Hpre.
    destruct (signals_of_Ok env signals (plan_terminals p) Hinv) as (sigs & Hs & Hf).
    { intros v [Hv _]%Hterm. rewrite Henv, <- Hpre. by apply Hall. }
    cbn. rewrite Hs. by constructor.
  - assert (plan_dispatches p !! length pre = Some d) as Hd.
    { rewrite Hpre. by apply list_lookup_middle. }
    assert (valid_node r (planned_node d)) as Hv.
    { apply Hall, list_elem_of_fmap. exists d. split; [done|]. by eapply list_elem_of_lookup_2. }
    assert (planned_node d ∉ env.*1) as Hnew.
    { rewrite Henv. intros Hin. rewrite Hpre, fmap_app, fmap_cons in Hnd.
      apply NoDup_app in Hnd as (_ & Hdis & _). apply (Hdis _ Hin). set_solver. }
    destruct (signals_of_Ok env signals (planned_dependencies d) Hinv) as (sigs & Hs & Hf).
    { intros v Hdep. destruct (greedy_at _ _ _ Hg _ _ Hd) as [_ Hdeps _ _ _].
      rewrite Hdeps in Hdep. apply elem_of_predecessors in Hdep.
      destruct (Hord (length pre) (planned_node d) v) as (j & Hj & Hjv); [|done|].
      { by rewrite list_lookup_fmap, Hd. }
      rewrite Henv. apply list_elem_of_lookup. exists j.
      rewrite Hpre, fmap_app, lookup_app_l in Hjv; [done|]. by rewrite length_fmap. }
    cbn [submit]. rewrite Hs. cbn [and_then].
    destruct (dispatch b _) as [b' [s|e|]] eqn:Edisp; cbn [and_then].
    + unfold store. rewrite bool_decide_eq_true_2
        by (rewrite (sg_len _ _ Hinv); by destruct Hv). cbn [and_then].
      eapply obs_dispatch; [exact Hf|exact Edisp|done|].
      apply (IH (pre ++ [d])).
      * by rewrite <- app_assoc.
      * by rewrite !fmap_app, Henv.
      * by apply signals_inv_snoc.
    + eapply obs_error; eauto.
    + eapply obs_panic; eauto.
Qed.

Lemma replay_observed b :
  match begin_replay b (mkBeginReplay token (plan_replay_mode p) (plan_lane_count p)) with
  | (b1, Ok _) => observed p token b1 [] (plan_dispatches p) (replay p b token)
  | (b1, Err e) => replay p b token = (b1, Err e)
  | (b1, Panic) => replay p b token = (b1, Panic)
  end.
Proof using Hwf Hp.
  unfold replay. destruct (begin_replay b _) as [b1 [[]|e|]]; cbn [and_then]; [|done..].
  apply (submit_observed (plan_dispatches p) []); [done..|].
  split.
  - rewrite length_replicate. apply (po_count _ _ _ Hp).
  - intros v Hv. by apply not_elem_of_nil in Hv.
  - intros v s Hv. by apply not_elem_of_nil in Hv.
Qed.
End proof.
End replay.

(** Replaying a compiled plan, on any backend, begins once, then submits
    every dispatch of the plan in order, each with exactly the signals the
    backend returned for that dispatch's prerequisites, and ends with the
    signals of the terminal nodes; it stops at the first call that fails and
    returns that failure. No lookup of a signal can panic. *)
Theorem replay_refines sha256 r options p
    `{DispatchBackend B Signal Completion Failure} (b : B) token :
  recorded r → option_lane_count options ≠ 0 → compile sha256 r options = Ok p →
  match begin_replay b (mkBeginReplay token (plan_replay_mode p) (plan_lane_count p)) with
  | (b1, Ok _) => observed p token b1 [] (plan_dispatches p) (replay p b token)
  | (b1, Err e) => replay p b token = (b1, Err e)
  | (b1, Panic) => replay p b token = (b1, Panic)
  end.
Proof.
  intros Hr Hl Hc. destruct (compile_Ok _ _ _ _ Hr Hl Hc) as (Hwf & _ & Hp & _).
  by eapply replay_observed.
Qed.

(** ** The mock backend *)

Record MockSignal := mkMockSignal { signal_value : Z }.

Record MockCompletion := mkMockCompletion {
  completion_token : ReplayToken;
  completion_mode : ReplayMode;
  completion_signals : list MockSignal }.

Inductive MockCommand : Type :=
| MockBegin (token : ReplayToken) (mode : ReplayMode) (lane_count : nat)
| MockDispatch (token : ReplayToken) (node : NodeId) (lane : nat) (kernel : string)
    (dependencies : list MockSignal) (signal : MockSignal)
| MockEnd (completion : MockCompletion).

Inductive MockError : Type :=
| ReplayAlreadyActive (token : ReplayToken)
| ReplayNotActive (token : ReplayToken).

Record MockBackend := mkMockBackend {
  mock_commands : list MockCommand;
  mock_next_signal : Z;
  mock_active : option ReplayToken }.

(** [MockBackend::default] *)
Definition MockBackend_default : MockBackend := mkMockBackend [] 0 None.

Definition mock_begin (b : MockBackend) (replay : BeginReplay)
    : MockBackend * result MockError unit :=
  match mock_active b with
  | Some active => (b, Err (ReplayAlreadyActive active))
  | None =>
      (mkMockBackend (mock_commands b ++
         [MockBegin (begin_token replay) (begin_mode replay) (begin_lane_count replay)])
         (mock_next_signal b) (Some (begin_token replay)), Ok tt)
  end.

(** The counter increment overflows at [u64::MAX]. *)
Definition mock_dispatch (b : MockBackend) (request : DispatchRequest MockSignal)
    : MockBackend * result MockError MockSignal :=
  if negb (bool_decide (mock_active b = Some (request_token request)))
  then (b, Err (ReplayNotActive (request_token request)))
  else
    let signal := mkMockSignal (mock_next_signal b) in
    match checked_add U64_MAX (mock_next_signal b) 1 with
    | None => (b, Panic)
    | Some next =>
        (mkMockBackend (mock_commands b ++
           [MockDispatch (request_token request) (request_node request) (request_lane request)
              (kernel (request_launch request)) (request_signals request) signal])
           next (mock_active b), Ok signal)
    end.

Definition mock_end (b : MockBackend) (replay : EndReplay MockSignal)
    : MockBackend * result MockError MockCompletion :=
  if negb (bool_decide (mock_active b = Some (end_token replay)))
  then (b, Err (ReplayNotActive (end_token replay)))
  else
    let completion := mkMockCompletion (end_token replay) (end_mode replay) (end_signals replay) in
    (mkMockBackend (mock_commands b ++ [MockEnd completion]) (mock_next_signal b) None,
     Ok completion).

#[export] Instance MockBackend_backend :
  DispatchBackend MockBackend MockSignal MockCompletion MockError := {|
    begin_replay := mock_begin;
    dispatch := mock_dispatch;
    end_replay := mock_end |}.

(** The signal a replay starting at counter [base] gives to node [v]: the
    position of [v] in the plan. *)
Definition position (order : list NodeId) (v : NodeId) : nat :=
  match list_find (λ w, w = v) order with Some (i, _) => i | None => 0 end.

Definition mock_signal (p : CompiledPlan) (base : Z) (v : NodeId) : MockSignal :=
  mkMockSignal (base + Z.of_nat (position (planned_node <$> plan_dispatches p) v)).

Definition mock_trace (p : CompiledPlan) (base : Z) (token : ReplayToken) : list MockCommand :=
  MockBegin token (plan_replay_mode p) (plan_lane_count p) ::
  ((λ d, MockDispatch token (planned_node d) (planned_lane d) (kernel (planned_launch d))
       (mock_signal p base <$> planned_dependencies d) (mock_signal p base (planned_node d)))
     <$> plan_dispatches p) ++
  [MockEnd (mkMockCompletion token (plan_replay_mode p) (mock_signal p base <$> plan_terminals p))].

Lemma position_lookup order i v : NoDup order → order !! i = Some v → position order v = i.
Proof.
  intros Hnd Hi. unfold position.
  destruct (list_find (λ w, w = v) order) as [[j w]|] eqn:E.
  - apply list_find_Some in E as (Hj & -> & _). by eapply NoDup_lookup.
  - apply list_find_None in E. rewrite Forall_forall in E.
    destruct (E v); [by eapply list_elem_of_lookup_2|done].
Qed.

Section mock.
Context (p : CompiledPlan) (token : ReplayToken) (base : Z).
Context (Hnd : NoDup (planned_node <$> plan_dispatches p)).
Context (Hbase : (0 ≤ base)%Z).
Context (Hroom : (base + Z.of_nat (length (plan_dispatches p)) ≤ U64_MAX)%Z).

Definition mock_env (env : list (NodeId * MockSignal)) : Prop :=
  ∀ v s, (v, s) ∈ env → s = mock_signal p base v.

Lemma signals_for_mock env vs sigs :
  mock_env env → signals_for env vs sigs → sigs = mock_signal p base <$> vs.
Proof using Type.
  clear Hnd Hbase Hroom. intros He. unfold signals_for.
  induction 1 as [|v s vs sigs Hin _ IH]; [done|]. cbn. f_equal; [by apply He|done].
Qed.

Lemma mock_observed ds : ∀ pre cmds env out,
  plan_dispatches p = pre ++ ds → mock_env env →
  observed p token (mkMockBackend cmds (base + Z.of_nat (length pre)) (Some token)) env ds out →
  out = (mkMockBackend (cmds ++
     ((λ d, MockDispatch token (planned_node d) (planned_lane d) (kernel (planned_launch d))
         (mock_signal p base <$> planned_dependencies d) (mock_signal p base (planned_node d)))
       <$> ds) ++
     [MockEnd (mkMockCompletion token (plan_replay_mode p)
        (mock_signal p base <$> plan_terminals p))])
     (base + Z.of_nat (length (plan_dispatches p))) None,
   Ok (mkMockCompletion token (plan_replay_mode p) (mock_signal p base <$> plan_terminals p))).
Proof using Hnd Hbase Hroom.
  induction ds as [|d ds IH]; intros pre cmds env out Hpre Henv Hobs.
  - inversion Hobs as [? ? sigs Hf| | |]; subst.
    apply (signals_for_mock env) in Hf; [|done]. subst. cbn. unfold mock_end. cbn.
    rewrite bool_decide_eq_true_2 by done. cbn. rewrite app_nil_r in Hpre. by rewrite Hpre.
  - assert ((planned_node <$> plan_dispatches p) !! length pre = Some (planned_node d)) as Hpos.
    { rewrite Hpre, list_lookup_fmap, list_lookup_middle by done. done. }
    apply position_lookup in Hpos; [|done].
    assert (checked_add U64_MAX (base + Z.of_nat (length pre)) 1 =
      Some (base + Z.of_nat (length (pre ++ [d])))%Z) as Hadd.
    { apply checked_add_Some. rewrite Hpre in Hroom. rewrite length_app in *. cbn in *. lia. }
    assert (∀ sigs, mock_dispatch (mkMockBackend cmds (base + Z.of_nat (length pre)) (Some token))
      (mkDispatchRequest token (planned_node d) (planned_lane d) (planned_launch d)
        (planned_accesses d) sigs) =
      (mkMockBackend (cmds ++ [MockDispatch token (planned_node d) (planned_lane d)
         (kernel (planned_launch d)) sigs (mock_signal p base (planned_node d))])
         (base + Z.of_nat (length (pre ++ [d]))) (Some token),
       Ok (mock_signal p base (planned_node d)))) as Hdisp.
    { intros sigs. unfold mock_dispatch, mock_signal. cbn.
      rewrite bool_decide_eq_true_2 by done. cbn. by rewrite Hadd, Hpos. }
    inversion Hobs as [|? b' ? ? ? sigs s ? Hf Hd _ Hrest|? b' ? ? ? sigs e Hf Hd|? b' ? ? ? sigs Hf Hd];
      subst; cbn [dispatch MockBackend_backend] in Hd; rewrite Hdisp in Hd; [|done..].
    injection Hd as <- <-. apply (signals_for_mock env) in Hf; [|done]. subst.
    apply (IH (pre ++ [d])) in Hrest.
    + rewrite Hrest. by rewrite <- !app_assoc.
    + by rewrite <- app_assoc.
    + intros v s [Hin|[= -> ->]%list_elem_of_singleton]%elem_of_app; by auto.
Qed.
End mock.

(** On an idle mock backend whose signal counter has room, replaying a
    compiled plan succeeds, leaves the backend idle, and appends exactly the
    begin command, one dispatch command per node carrying the signals of its
    prerequisites, and the end command carrying the terminals' signals; the
    signals are consecutive in submission order. *)
Theorem mock_replay_trace sha256 r options p cmds base token :
  recorded r → option_lane_count options ≠ 0 → compile sha256 r options = Ok p →
  (0 ≤ base)%Z → (base + Z.of_nat (length (plan_dispatches p)) ≤ U64_MAX)%Z →
  replay p (mkMockBackend cmds base None) token =
    (mkMockBackend (cmds ++ mock_trace p base token)
       (base + Z.of_nat (length (plan_dispatches p))) None,
     Ok (mkMockCompletion token (plan_replay_mode p) (mock_signal p base <$> plan_terminals p))).
Proof.
  intros Hr Hl Hc Hb Hroom. destruct (compile_Ok _ _ _ _ Hr Hl Hc) as (Hwf & _ & Hp & _).
  pose proof (replay_observed r options p Hwf Hp token (mkMockBackend cmds base None)) as Hobs.
  cbn [begin_replay MockBackend_backend mock_begin mock_active mock_commands mock_next_signal
    begin_token begin_mode begin_lane_count] in Hobs.
  rewrite <- (Z.add_0_r base) in Hobs at 1. 
  eapply (mock_observed p token base (po_nodes _ _ _ Hp) Hb Hroom _ []) in Hobs as ->.
  - unfold mock_trace. by rewrite <- app_assoc.
  - done.
  - intros v s Hin. by apply not_elem_of_nil in Hin.
Qed.

Lemma replay_refines_witness :
  observed demo_plan (mkReplayToken 7)
    (mkMockBackend [MockBegin (mkReplayToken 7) TokenLatency 2] 0 (Some (mkReplayToken 7)))
    [] (plan_dispatches demo_plan) (replay demo_plan MockBackend_default (mkReplayToken 7)).
Proof.
  refine (replay_refines demo_sha256 demo demo_options demo_plan MockBackend_default
    (mkReplayToken 7) demo_recorded _ demo_compiles). discriminate.
Defined.

Lemma mock_replay_trace_witness :
  replay demo_plan MockBackend_default (mkReplayToken 7) =
    (mkMockBackend
       [MockBegin (mkReplayToken 7) TokenLatency 2;
        MockDispatch (mkReplayToken 7) demo_project 0 "project" [] (mkMockSignal 0);
        MockDispatch (mkReplayToken 7) demo_consume 0 "consume" [mkMockSignal 0] (mkMockSignal 1);
        MockEnd (mkMockCompletion (mkReplayToken 7) TokenLatency [mkMockSignal 1])] 2 None,
     Ok (mkMockCompletion (mkReplayToken 7) TokenLatency [mkMockSignal 1])).
Proof.
  refine (mock_replay_trace demo_sha256 demo demo_options demo_plan [] 0 (mkReplayToken 7)
    demo_recorded _ demo_compiles _ _); [discriminate|lia|vm_compute; congruence].
Defined.
