(* ===== verification/Packet.v ===== *)
(** AQL packets (src/crates/redline-rocr/src/packet.rs and the packet
    constants of src/crates/redline-rocr/src/abi.rs).

    A packet struct is a record; its 64-byte image is the concatenation of its
    fields in declaration order, little-endian, which is what copying a
    padding-free [repr(C)] struct on this host produces ([repr_c]). Pointers and
    signal handles are 64-bit integers, null being zero. *)

From S2P Require Import Prelude Ir.

Definition AQL_PACKET_BYTES : nat := 64.
Definition BARRIER_DEPENDENCY_CAPACITY : nat := 5.

Definition PACKET_TYPE_KERNEL_DISPATCH : Z := 2.
Definition PACKET_TYPE_BARRIER_AND : Z := 3.
Definition PACKET_HEADER_TYPE : Z := 0.
Definition PACKET_HEADER_BARRIER : Z := 8.
Definition PACKET_HEADER_SCACQUIRE_FENCE_SCOPE : Z := 9.
Definition PACKET_HEADER_SCRELEASE_FENCE_SCOPE : Z := 11.
Definition KERNEL_DISPATCH_SETUP_DIMENSIONS : Z := 0.

(** ** Headers *)

Inductive FenceScope := ScopeNone | ScopeAgent | ScopeSystem.

#[export] Instance FenceScope_eq_dec : EqDecision FenceScope.
Proof. solve_decision. Defined.

(** [scope as u16] *)
Definition scope_value (s : FenceScope) : Z :=
  match s with ScopeNone => 0 | ScopeAgent => 1 | ScopeSystem => 2 end.

Record HeaderPolicy := mkHeaderPolicy {
  policy_barrier : bool; policy_acquire : FenceScope; policy_release : FenceScope }.

#[export] Instance HeaderPolicy_eq_dec : EqDecision HeaderPolicy.
Proof. solve_decision. Defined.

Definition RECORDED_DISPATCH := mkHeaderPolicy true ScopeSystem ScopeSystem.
Definition CROSS_QUEUE_BARRIER := mkHeaderPolicy true ScopeSystem ScopeSystem.
Definition TWO_QUEUE_DISPATCH := mkHeaderPolicy true ScopeSystem ScopeAgent.
Definition SAME_AGENT_DISPATCH := mkHeaderPolicy true ScopeAgent ScopeAgent.
Definition TWO_QUEUE_DEPENDENCY := mkHeaderPolicy true ScopeNone ScopeNone.
Definition TWO_QUEUE_HOST_TERMINAL := mkHeaderPolicy true ScopeNone ScopeSystem.
Definition BATCH_BOUNDARY_FIRST_SERIAL := mkHeaderPolicy true ScopeSystem ScopeNone.
Definition BATCH_BOUNDARY_INTERNAL_SERIAL := mkHeaderPolicy true ScopeNone ScopeNone.
Definition BATCH_INTERNAL_RELEASE_AGENT := mkHeaderPolicy true ScopeNone ScopeAgent.
Definition BATCH_INTERNAL_ACQUIRE_AGENT := mkHeaderPolicy true ScopeAgent ScopeNone.
Definition BATCH_INTERNAL_RELEASE_SYSTEM := mkHeaderPolicy true ScopeNone ScopeSystem.
Definition BATCH_INTERNAL_ACQUIRE_SYSTEM := mkHeaderPolicy true ScopeSystem ScopeNone.
Definition BATCH_BOUNDARY_FIRST_INDEPENDENT := mkHeaderPolicy false ScopeSystem ScopeNone.
Definition BATCH_BOUNDARY_INTERNAL_INDEPENDENT := mkHeaderPolicy false ScopeNone ScopeNone.

(** [packet_header] *)
Definition packet_header (packet_type : Z) (policy : HeaderPolicy) : Z :=
  let header := wrap16 (Z.shiftl packet_type PACKET_HEADER_TYPE) in
  let header := if policy_barrier policy
    then Z.lor header (Z.shiftl 1 PACKET_HEADER_BARRIER) else header in
  let header := Z.lor header
    (wrap16 (Z.shiftl (scope_value (policy_acquire policy)) PACKET_HEADER_SCACQUIRE_FENCE_SCOPE)) in
  Z.lor header
    (wrap16 (Z.shiftl (scope_value (policy_release policy)) PACKET_HEADER_SCRELEASE_FENCE_SCOPE)).

(** ** Errors *)

Inductive PacketError : Type :=
| ZeroDimension (axis : nat)
| WorkgroupExceedsGrid (axis : nat) (workgroup grid : Z)
| InactiveDimensionNotOne (axis : nat)
| GridDimensionOverflow (axis : nat) (workgroups workgroup : Z)
| NullKernelObject
| NullKernarg (required : Z)
| DynamicCallstackNeedsPrivateSize
| DynamicGroupSegmentOverflow (static_bytes dynamic_bytes : Z)
| TooManyBarrierDependencies (count capacity : nat)
| InvalidIndirectBufferAddress (address : Z)
| InvalidIndirectBufferSize (dwords : Z).

(** ** Launch geometry *)

Record LaunchGeometry := mkLaunchGeometry {
  grid_workitems : Dim3;
  workgroup : Dim3;
  dimensions : Z }.

(** The three axes of two 3-element arrays. *)
Definition axes (a b : Dim3) : list (nat * (Z * Z)) :=
  [(0, (dim_x a, dim_x b)); (1, (dim_y a, dim_y b)); (2, (dim_z a, dim_z b))].

(** [LaunchGeometry::new] *)
Definition LaunchGeometry_new (grid wg : Dim3) : result PacketError LaunchGeometry :=
  for_each (λ '(axis, (g, w)),
      err_if ((g =? 0) || (w =? 0))%Z (ZeroDimension axis) ;;
      err_if (g <? w)%Z (WorkgroupExceedsGrid axis w g)) (axes grid wg) ;;
  let z_active := (negb (dim_z grid =? 1) || negb (dim_z wg =? 1))%Z in
  let y_active := (negb (dim_y grid =? 1) || negb (dim_y wg =? 1))%Z in
  let dims := (if z_active then 3 else if y_active then 2 else 1)%Z in
  err_if ((dims <? 3)%Z && z_active) (InactiveDimensionNotOne 2) ;;
  err_if ((dims <? 2)%Z && y_active) (InactiveDimensionNotOne 1) ;;
  Ok (mkLaunchGeometry grid wg dims).

(** [LaunchGeometry::from_workgroups] *)
Definition from_workgroups (workgroups wg : Dim3) : result PacketError LaunchGeometry :=
  items ← try_map (λ '(axis, (n, w)),
      ok_or (GridDimensionOverflow axis n w) (checked_mul U32_MAX n w)) (axes workgroups wg);
  match items with
  | [x; y; z] => LaunchGeometry_new (mkDim3 x y z) wg
  | _ => Panic
  end.

(** [LaunchGeometry::from_hip_workgroups] *)
Definition from_hip_workgroups (workgroups wg : Dim3) : result PacketError LaunchGeometry :=
  geometry ← from_workgroups workgroups wg;
  Ok (mkLaunchGeometry (grid_workitems geometry) (workgroup geometry) 3).

(** ** Packets *)

Record KernelMetadata := mkKernelMetadata {
  kernel_object : Z;
  kernarg_segment_size : Z;
  kernarg_segment_alignment : Z;
  group_segment_size : Z;
  private_segment_size : Z;
  dynamic_callstack : bool }.

Record KernelDispatchPacket := mkKernelDispatchPacket {
  kdp_full_header : Z;
  kdp_workgroup : Dim3;
  kdp_reserved0 : Z;
  kdp_grid : Dim3;
  kdp_private_segment_size : Z;
  kdp_group_segment_size : Z;
  kdp_kernel_object : Z;
  kdp_kernarg_address : Z;
  kdp_reserved2 : Z;
  kdp_completion_signal : Z }.

(** [KernelDispatchPacket::new_with_policy] *)
Definition KernelDispatchPacket_new_with_policy (m : KernelMetadata) (g : LaunchGeometry)
    (dynamic_group_bytes kernarg_address completion_signal : Z) (policy : HeaderPolicy)
    : result PacketError KernelDispatchPacket :=
  err_if (kernel_object m =? 0)%Z NullKernelObject ;;
  err_if (dynamic_callstack m) DynamicCallstackNeedsPrivateSize ;;
  err_if (negb (kernarg_segment_size m =? 0)%Z && (kernarg_address =? 0)%Z)
    (NullKernarg (kernarg_segment_size m)) ;;
  group ← ok_or (DynamicGroupSegmentOverflow (group_segment_size m) dynamic_group_bytes)
    (checked_add U32_MAX (group_segment_size m) dynamic_group_bytes);
  let setup := wrap16 (Z.shiftl (dimensions g) KERNEL_DISPATCH_SETUP_DIMENSIONS) in
  let header := packet_header PACKET_TYPE_KERNEL_DISPATCH policy in
  Ok (mkKernelDispatchPacket (Z.lor header (wrap32 (Z.shiftl setup 16)))
        (workgroup g) 0 (grid_workitems g) (private_segment_size m) group
        (kernel_object m) kernarg_address 0 completion_signal).

(** [KernelDispatchPacket::new] *)
Definition KernelDispatchPacket_new m g dynamic_group_bytes kernarg_address completion_signal :=
  KernelDispatchPacket_new_with_policy m g dynamic_group_bytes kernarg_address
    completion_signal RECORDED_DISPATCH.

(** [KernelDispatchPacket::new_two_queue] *)
Definition KernelDispatchPacket_new_two_queue m g dynamic_group_bytes kernarg_address
    completion_signal :=
  KernelDispatchPacket_new_with_policy m g dynamic_group_bytes kernarg_address
    completion_signal TWO_QUEUE_DISPATCH.

Record BarrierAndPacket := mkBarrierAndPacket {
  bap_full_header : Z;
  bap_reserved1 : Z;
  bap_dependency_signals : list Z;
  bap_reserved2 : Z;
  bap_completion_signal : Z }.

(** [BarrierAndPacket::new_with_policy] *)
Definition BarrierAndPacket_new_with_policy (dependencies : list Z) (completion_signal : Z)
    (policy : HeaderPolicy) : result PacketError BarrierAndPacket :=
  err_if (bool_decide (BARRIER_DEPENDENCY_CAPACITY < length dependencies))
    (TooManyBarrierDependencies (length dependencies) BARRIER_DEPENDENCY_CAPACITY) ;;
  let zeros := replicate BARRIER_DEPENDENCY_CAPACITY 0%Z in
  let dependency_signals := dependencies ++ drop (length dependencies) zeros in
  let header := packet_header PACKET_TYPE_BARRIER_AND policy in
  Ok (mkBarrierAndPacket header 0 dependency_signals 0 completion_signal).

(** [BarrierAndPacket::new] and the two-queue constructors. *)
Definition BarrierAndPacket_new (dependencies : list Z) (completion_signal : Z) :=
  BarrierAndPacket_new_with_policy dependencies completion_signal CROSS_QUEUE_BARRIER.
Definition new_two_queue_dependency (dependencies : list Z) :=
  BarrierAndPacket_new_with_policy dependencies 0 TWO_QUEUE_DEPENDENCY.
Definition new_two_queue_host_terminal (dependencies : list Z) (completion_signal : Z) :=
  BarrierAndPacket_new_with_policy dependencies completion_signal TWO_QUEUE_HOST_TERMINAL.

(** ** Images *)

Record PacketImage := mkPacketImage { image_bytes : list Z; header_word : Z }.

(** The bytes of a padding-free struct: each field with its size. *)
Definition repr_c (fields : list (nat * Z)) : list Z :=
  concat ((λ '(size, value), le_bytes size value) <$> fields).

Definition kernel_fields (p : KernelDispatchPacket) : list (nat * Z) :=
  [(4, kdp_full_header p);
   (2, dim_x (kdp_workgroup p)); (2, dim_y (kdp_workgroup p)); (2, dim_z (kdp_workgroup p));
   (2, kdp_reserved0 p);
   (4, dim_x (kdp_grid p)); (4, dim_y (kdp_grid p)); (4, dim_z (kdp_grid p));
   (4, kdp_private_segment_size p); (4, kdp_group_segment_size p);
   (8, kdp_kernel_object p); (8, kdp_kernarg_address p);
   (8, kdp_reserved2 p); (8, kdp_completion_signal p)].

Definition barrier_fields (p : BarrierAndPacket) : list (nat * Z) :=
  [(4, bap_full_header p); (4, bap_reserved1 p)] ++
  (pair 8 <$> bap_dependency_signals p) ++
  [(8, bap_reserved2 p); (8, bap_completion_signal p)].

(** [PacketImage::kernel] *)
Definition PacketImage_kernel (p : KernelDispatchPacket) : PacketImage :=
  mkPacketImage (repr_c (kernel_fields p)) (kdp_full_header p).

(** [PacketImage::barrier] *)
Definition PacketImage_barrier (p : BarrierAndPacket) : PacketImage :=
  mkPacketImage (repr_c (barrier_fields p)) (bap_full_header p).

(** [bytes[off..off + src.len()].copy_from_slice(src)] *)
Definition put_slice (bytes : list Z) (off : nat) (src : list Z) : list Z :=
  take off bytes ++ src ++ drop (off + length src) bytes.

Definition PACKET3_INDIRECT_BUFFER : Z := 63.
Definition IB_VALID : Z := Z.shiftl 1 23.
Definition IB_TEMPORAL_LU : Z := Z.shiftl 3 28.

(** [PacketImage::pm4_indirect_buffer] *)
Definition pm4_indirect_buffer (address dwords completion_signal : Z)
    : result PacketError PacketImage :=
  err_if ((address =? 0)%Z || negb (Z.land address 3 =? 0)%Z)
    (InvalidIndirectBufferAddress address) ;;
  err_if ((dwords =? 0) || (1048575 <? dwords))%Z (InvalidIndirectBufferSize dwords) ;;
  let pm4_header := Z.lor (Z.lor (Z.shiftl 3 30) (Z.shiftl 2 16))
    (Z.shiftl PACKET3_INDIRECT_BUFFER 8) in
  let aql_header := Z.shiftl 1 PACKET_HEADER_BARRIER in
  let bytes := replicate AQL_PACKET_BYTES 0%Z in
  let bytes := put_slice bytes 0 (le_bytes 2 aql_header) in
  let bytes := put_slice bytes 2 (le_bytes 2 1) in
  let bytes := put_slice bytes 4 (le_bytes 4 pm4_header) in
  let bytes := put_slice bytes 8 (le_bytes 4 (Z.land (wrap32 address) 4294967292)) in
  let bytes := put_slice bytes 12 (le_bytes 4 (wrap32 (Z.shiftr address 32))) in
  let bytes := put_slice bytes 16 (le_bytes 4 (Z.lor (Z.lor dwords IB_VALID) IB_TEMPORAL_LU)) in
  let bytes := put_slice bytes 20 (le_bytes 4 10) in
  let bytes := put_slice bytes 56 (le_bytes 8 completion_signal) in
  Ok (mkPacketImage bytes (Z.lor aql_header (Z.shiftl 1 16))).

(** ** Reading an image *)

(** The [n]-byte little-endian field at byte [off]. *)
Definition field (bytes : list Z) (off n : nat) : Z := le_value (take n (drop off bytes)).

(** The offset of field [i] of a struct. *)
Definition offset_of (fields : list (nat * Z)) (i : nat) : nat := sum_list (take i fields).*1.

Lemma length_repr_c fields : length (repr_c fields) = sum_list fields.*1.
Proof.
  unfold repr_c. induction fields as [|[n x] fs IH]; [done|].
  cbn. by rewrite length_app, length_le_bytes, IH.
Qed.

Lemma repr_c_field fields i n x :
  fields !! i = Some (n, x) →
  field (repr_c fields) (offset_of fields i) n = (x `mod` 256 ^ Z.of_nat n)%Z.
Proof.
  unfold field, offset_of, repr_c. revert i.
  induction fields as [|[m y] fs IH]; intros [|i] Hi; [done..| |]; rewrite fmap_cons, concat_cons.
  - injection Hi as -> ->. rewrite firstn_O, fmap_nil, drop_0.
    rewrite take_app_length' by (by rewrite length_le_bytes). apply le_value_bytes.
  - rewrite <- (IH i Hi), firstn_cons, fmap_cons. f_equal. f_equal. cbn [fst sum_list fold_right].
    change (sum_list (m :: (take i fs).*1)) with (m + sum_list (take i fs).*1).
    rewrite <- drop_drop. by rewrite drop_app_length' by (by rewrite length_le_bytes).
Qed.

(** A field whose value fits its size is read back. *)
Lemma repr_c_field_fits fields i n x :
  fields !! i = Some (n, x) → (0 ≤ x < 256 ^ Z.of_nat n)%Z →
  field (repr_c fields) (offset_of fields i) n = x.
Proof. intros Hi Hx. rewrite (repr_c_field _ _ _ _ Hi). by apply Z.mod_small. Qed.

(** ** Header decoding *)

Definition header_type (h : Z) : Z := Z.land h 255.
Definition header_barrier (h : Z) : bool := Z.testbit h PACKET_HEADER_BARRIER.
Definition header_acquire (h : Z) : Z :=
  Z.land (Z.shiftr h PACKET_HEADER_SCACQUIRE_FENCE_SCOPE) 3.
Definition header_release (h : Z) : Z :=
  Z.land (Z.shiftr h PACKET_HEADER_SCRELEASE_FENCE_SCOPE) 3.

(** The header [h] of a packet of type [ty] states exactly the policy. *)
Definition header_states (h ty : Z) (policy : HeaderPolicy) : Prop :=
  header_type h = ty ∧ header_barrier h = policy_barrier policy ∧
  header_acquire h = scope_value (policy_acquire policy) ∧
  header_release h = scope_value (policy_release policy) ∧ (0 ≤ h < 65536)%Z.

Lemma packet_header_states ty policy :
  ty = PACKET_TYPE_KERNEL_DISPATCH ∨ ty = PACKET_TYPE_BARRIER_AND →
  header_states (packet_header ty policy) ty policy.
Proof.
  unfold header_states.
  destruct policy as [[] [] []]; intros [-> | ->]; vm_compute; intuition congruence.
Qed.

(** ** Typed inputs *)

Definition dim_u16 (d : Dim3) : Prop :=
  is_u16 (dim_x d) ∧ is_u16 (dim_y d) ∧ is_u16 (dim_z d).
Definition dim_u32 (d : Dim3) : Prop :=
  is_u32 (dim_x d) ∧ is_u32 (dim_y d) ∧ is_u32 (dim_z d).

Definition metadata_typed (m : KernelMetadata) : Prop :=
  is_u64 (kernel_object m) ∧ is_u32 (kernarg_segment_size m) ∧
  is_u32 (kernarg_segment_alignment m) ∧ is_u32 (group_segment_size m) ∧
  is_u32 (private_segment_size m).

Definition geometry_typed (g : LaunchGeometry) : Prop :=
  dim_u32 (grid_workitems g) ∧ dim_u16 (workgroup g) ∧ (1 ≤ dimensions g ≤ 3)%Z.

(** ** Geometry *)

Lemma axis_check_Ok g w axis :
  (err_if ((g =? 0) || (w =? 0))%Z (ZeroDimension axis) ;;
   err_if (g <? w)%Z (WorkgroupExceedsGrid axis w g)) = Ok tt ↔
  (g ≠ 0 ∧ w ≠ 0 ∧ w ≤ g)%Z.
Proof.
  destruct (Z.eqb_spec g 0), (Z.eqb_spec w 0); cbn; try naive_solver.
  destruct (Z.ltb_spec g w); cbn; naive_solver lia.
Qed.

(** The number of dimensions an AQL packet needs for a launch. *)
Definition needed_dimensions (g w : Dim3) : Z :=
  if decide (dim_z g = 1 ∧ dim_z w = 1)%Z
  then if decide (dim_y g = 1 ∧ dim_y w = 1)%Z then 1 else 2
  else 3.

Definition axis_fits (g w : Z) : Prop := (g ≠ 0 ∧ w ≠ 0 ∧ w ≤ g)%Z.
Definition fits (g w : Dim3) : Prop :=
  axis_fits (dim_x g) (dim_x w) ∧ axis_fits (dim_y g) (dim_y w) ∧ axis_fits (dim_z g) (dim_z w).

Lemma LaunchGeometry_new_cases g w :
  match LaunchGeometry_new g w with
  | Ok geo => fits g w ∧ geo = mkLaunchGeometry g w (needed_dimensions g w)
  | Err (ZeroDimension axis) => ∃ gi wi, (axis, (gi, wi)) ∈ axes g w ∧ (gi = 0 ∨ wi = 0)%Z
  | Err (WorkgroupExceedsGrid axis wi gi) =>
      (axis, (gi, wi)) ∈ axes g w ∧ gi ≠ 0%Z ∧ wi ≠ 0%Z ∧ (gi < wi)%Z
  | _ => False
  end.
Proof.
  unfold LaunchGeometry_new.
  destruct (for_each _ (axes g w)) as [[]|e|] eqn:E.
  - cbn [mbind result_bind].
    assert (fits g w) as Hf.
    { pose proof (proj1 (for_each_Ok _ _) E) as Hall. unfold axes in Hall.
      split; [|split]; [apply (axis_check_Ok _ _ 0), (Hall (0, (_, _)))|
        apply (axis_check_Ok _ _ 1), (Hall (1, (_, _)))|apply (axis_check_Ok _ _ 2), (Hall (2, (_, _)))];
        set_solver. }
    unfold needed_dimensions.
    destruct (Z.eqb_spec (dim_z g) 1), (Z.eqb_spec (dim_z w) 1),
      (Z.eqb_spec (dim_y g) 1), (Z.eqb_spec (dim_y w) 1); cbn;
      repeat case_decide; naive_solver.
  - cbn [mbind result_bind].
    apply for_each_Err in E as ([axis [gi wi]] & Hin & He).
    destruct (Z.eqb_spec gi 0), (Z.eqb_spec wi 0), (Z.ltb_spec gi wi); cbn in He;
      try discriminate He; injection He as <-; eauto.
  - exfalso. eapply for_each_no_panic, E. intros [axis [gi wi]] _.
    destruct ((gi =? 0) || (wi =? 0))%Z; cbn; [done|]. by destruct (gi <? wi)%Z.
Qed.

(** Work-group counts times sizes, when they fit 32 bits. *)
Definition scaled (n w : Dim3) : Dim3 :=
  mkDim3 (dim_x n * dim_x w) (dim_y n * dim_y w) (dim_z n * dim_z w).

Lemma mul_ge_r a b : (a * b ≠ 0 → 0 ≤ a → 0 ≤ b → b ≤ a * b)%Z.
Proof. intros Hab Ha Hb. assert (a ≠ 0)%Z by (intros ->; lia). nia. Qed.

Lemma checked_items n w :
  match try_map (λ '(axis, (n, w)),
      ok_or (GridDimensionOverflow axis n w) (checked_mul U32_MAX n w)) (axes n w) with
  | Ok items => items = [dim_x (scaled n w); dim_y (scaled n w); dim_z (scaled n w)] ∧
      (dim_x (scaled n w) ≤ U32_MAX ∧ dim_y (scaled n w) ≤ U32_MAX ∧ dim_z (scaled n w) ≤ U32_MAX)%Z
  | Err (GridDimensionOverflow axis a b) => (U32_MAX < a * b)%Z ∧ (axis, (a, b)) ∈ axes n w
  | _ => False
  end.
Proof.
  unfold axes, scaled, checked_mul. cbn.
  destruct (Z.leb_spec (dim_x n * dim_x w) U32_MAX); cbn; [|by split; [done|left]].
  destruct (Z.leb_spec (dim_y n * dim_y w) U32_MAX); cbn; [|by split; [done|right; left]].
  destruct (Z.leb_spec (dim_z n * dim_z w) U32_MAX); cbn; [done|].
  by split; [done|right; right; left].
Qed.

(** A HIP launch becomes an AQL geometry exactly when every extent is
    non-zero and every product of work-group count and size fits 32 bits; the
    grid is then that product per axis, the packet always has three
    dimensions, and the only other outcomes are the overflow of a named axis
    or a zero axis. *)
Theorem from_hip_workgroups_exact n w :
  dim_u32 n → dim_u16 w →
  match from_hip_workgroups n w with
  | Ok g => g = mkLaunchGeometry (scaled n w) w 3 ∧ geometry_typed g ∧ fits (scaled n w) w
  | Err (GridDimensionOverflow axis a b) => (U32_MAX < a * b)%Z ∧ (axis, (a, b)) ∈ axes n w
  | Err (ZeroDimension _) =>
      ∃ axis a b, (axis, (a, b)) ∈ axes n w ∧ (a = 0 ∨ b = 0)%Z
  | _ => False
  end.
Proof.
  intros (Hn1 & Hn2 & Hn3) (Hw1 & Hw2 & Hw3). unfold from_hip_workgroups, from_workgroups.
  pose proof (checked_items n w) as Hi. destruct (try_map _ (axes n w)) as [items|e|];
    cbn [mbind result_bind]; [|by destruct e|done].
  destruct Hi as (-> & H1 & H2 & H3).
  change (mkDim3 (dim_x (scaled n w)) (dim_y (scaled n w)) (dim_z (scaled n w))) with (scaled n w).
  pose proof (LaunchGeometry_new_cases (scaled n w) w) as Hg.
  destruct (LaunchGeometry_new (scaled n w) w) as [geo|e|]; cbn [mbind result_bind]; [|..|done].
  - destruct Hg as [Hf ->]. split; [done|]. split; [|done].
    unfold geometry_typed, dim_u32, dim_u16, scaled in *. cbn in *. ulia.
  - destruct e as [axis|axis wi gi| | | | | | | | |]; try done.
    + destruct Hg as (gi & wi & Hin & Hz). unfold axes in Hin. cbn in Hin.
      rewrite !elem_of_cons in Hin. unfold axes.
      destruct Hin as [[= -> -> ->]|[[= -> -> ->]|[[= -> -> ->]|Hin%not_elem_of_nil]]]; [..|done];
        [exists 0, (dim_x n), (dim_x w)|exists 1, (dim_y n), (dim_y w)|exists 2, (dim_z n), (dim_z w)];
        (split; [set_solver|]); (destruct Hz as [Hz|Hz]; [by apply Z.mul_eq_0 in Hz|by right]).
    + destruct Hg as (Hin & Hg0 & Hw0 & Hlt). unfold axes in Hin. cbn in Hin.
      rewrite !elem_of_cons in Hin. unfold_ints.
      destruct Hin as [[= -> -> ->]|[[= -> -> ->]|[[= -> -> ->]|Hin%not_elem_of_nil]]];
        [apply mul_ge_r in Hg0; lia..|done].
Qed.

Lemma from_hip_workgroups_exact_witness :
  from_hip_workgroups (mkDim3 32 1 1) (mkDim3 256 1 1) =
    Ok (mkLaunchGeometry (mkDim3 8192 1 1) (mkDim3 256 1 1) 3) ∧
  fits (mkDim3 8192 1 1) (mkDim3 256 1 1).
Proof.
  split; [reflexivity|].
  assert (dim_u32 (mkDim3 32 1 1)) as Hn by (repeat split; vm_compute; congruence).
  assert (dim_u16 (mkDim3 256 1 1)) as Hw by (repeat split; vm_compute; congruence).
  exact (proj2 (proj2 (from_hip_workgroups_exact (mkDim3 32 1 1) (mkDim3 256 1 1) Hn Hw))).
Defined.

(** ** The packet images *)

Lemma new_with_policy_Ok m g dyn ka sig policy p :
  KernelDispatchPacket_new_with_policy m g dyn ka sig policy = Ok p ↔
    kernel_object m ≠ 0%Z ∧ dynamic_callstack m = false ∧
    (kernarg_segment_size m = 0 ∨ ka ≠ 0)%Z ∧ (group_segment_size m + dyn ≤ U32_MAX)%Z ∧
    p = mkKernelDispatchPacket
      (Z.lor (packet_header PACKET_TYPE_KERNEL_DISPATCH policy)
         (wrap32 (Z.shiftl (wrap16 (Z.shiftl (dimensions g) 0)) 16)))
      (workgroup g) 0 (grid_workitems g) (private_segment_size m)
      (group_segment_size m + dyn) (kernel_object m) ka 0 sig.
Proof.
  unfold KernelDispatchPacket_new_with_policy. split.
  - intros H. inv_ok. to_prop. rewrite checked_add_Some in Hx2. destruct Hx2 as [-> ?].
    split; [done|]. split; [done|]. split; [|done].
    apply andb_false_iff in Hx1 as [?|?]; to_prop; auto.
  - intros (Ho & Hc & Hk & Hg & ->). rewrite Hc.
    destruct (Z.eqb_spec (kernel_object m) 0); [done|]. cbn.
    destruct (Z.eqb_spec (kernarg_segment_size m) 0), (Z.eqb_spec ka 0); cbn; try naive_solver;
      unfold checked_add; destruct (Z.leb_spec (group_segment_size m + dyn) U32_MAX); try lia; done.
Qed.

(** The published word: header in the low half, dimensions in the high half. *)
Lemma published_word policy d : (1 ≤ d ≤ 3)%Z →
  let w := Z.lor (packet_header PACKET_TYPE_KERNEL_DISPATCH policy)
    (wrap32 (Z.shiftl (wrap16 (Z.shiftl d 0)) 16)) in
  header_states (Z.land w 65535) PACKET_TYPE_KERNEL_DISPATCH policy ∧
  Z.shiftr w 16 = d ∧ is_u32 w.
Proof.
  intros Hd w. assert (d = 1 ∨ d = 2 ∨ d = 3)%Z as Hc by lia. unfold w, header_states.
  destruct policy as [[] [] []], Hc as [->|[->| ->]]; vm_compute; intuition congruence.
Qed.

(** What the HSA packet processor reads from a 64-byte kernel-dispatch packet
    (the offsets of [hsa_kernel_dispatch_packet_t]). *)
Record kernel_packet_reads (bytes : list Z) (m : KernelMetadata) (g : LaunchGeometry)
    (dyn ka sig : Z) (policy : HeaderPolicy) : Prop := {
  kr_size : length bytes = AQL_PACKET_BYTES;
  kr_header : header_states (field bytes 0 2) PACKET_TYPE_KERNEL_DISPATCH policy;
  kr_setup : field bytes 2 2 = dimensions g;
  kr_workgroup : mkDim3 (field bytes 4 2) (field bytes 6 2) (field bytes 8 2) = workgroup g;
  kr_grid : mkDim3 (field bytes 12 4) (field bytes 16 4) (field bytes 20 4) = grid_workitems g;
  kr_private : field bytes 24 4 = private_segment_size m;
  kr_group : field bytes 28 4 = (group_segment_size m + dyn)%Z;
  kr_object : field bytes 32 8 = kernel_object m;
  kr_kernarg : field bytes 40 8 = ka;
  kr_signal : field bytes 56 8 = sig;
  kr_reserved : field bytes 10 2 = 0%Z ∧ field bytes 48 8 = 0%Z }.

(** The low and high halves of a 4-byte field. *)
Lemma field_halves bytes x :
  (0 ≤ x < 4294967296)%Z → take 4 bytes = le_bytes 4 x →
  field bytes 0 2 = Z.land x 65535 ∧ field bytes 2 2 = Z.shiftr x 16.
Proof.
  intros Hx Ht. destruct bytes as [|b0 [|b1 [|b2 [|b3 rest]]]]; try discriminate Ht.
  injection Ht as -> -> -> ->.
  change (field _ 0 2) with (le_value (le_bytes 2 x)).
  change (field _ 2 2) with (le_value (le_bytes 2 (x / 256 / 256))).
  rewrite !le_value_bytes. change 65535%Z with (Z.ones 16).
  rewrite Z.land_ones, Z.shiftr_div_pow2, Z.div_div by lia. split; [done|].
  change (256 ^ Z.of_nat 2)%Z with 65536%Z. change (2 ^ 16)%Z with 65536%Z.
  apply Z.mod_small. split; [apply Z.div_pos; lia|]. apply Z.div_lt_upper_bound; lia.
Qed.

Lemma kernel_image_reads m g dyn ka sig policy p :
  metadata_typed m → geometry_typed g → is_u32 dyn → is_u64 ka → is_u64 sig →
  KernelDispatchPacket_new_with_policy m g dyn ka sig policy = Ok p →
  kernel_packet_reads (image_bytes (PacketImage_kernel p)) m g dyn ka sig policy ∧
  header_word (PacketImage_kernel p) = field (image_bytes (PacketImage_kernel p)) 0 4.
Proof.
  destruct g as [[gx gy gz] [wx wy wz] dims].
  intros (Hm1 & Hm2 & Hm3 & Hm4 & Hm5) ((Hg1 & Hg2 & Hg3) & (Hw1 & Hw2 & Hw3) & Hd) Hdyn Hka Hsig.
  cbn [grid_workitems workgroup dimensions dim_x dim_y dim_z] in *.
  intros (Ho & Hc & Hk & Hgr & ->)%new_with_policy_Ok.
  destruct (published_word policy dims Hd) as (Hh & Hs & Hw). cbn zeta in *.
  cbn [PacketImage_kernel image_bytes header_word kdp_full_header].
  set (w := Z.lor _ _) in *. set (p := mkKernelDispatchPacket _ _ _ _ _ _ _ _ _ _).
  set (fs := kernel_fields p).
  destruct (field_halves (repr_c fs) w) as [Hlo Hhi]; [ulia|reflexivity|].
  assert (∀ i n x, fs !! i = Some (n, x) → (0 ≤ x < 256 ^ Z.of_nat n)%Z →
    field (repr_c fs) (offset_of fs i) n = x) as Hf by apply repr_c_field_fits.
  unfold_ints. split; [|symmetry; apply (Hf 0 4); [done|cbn; lia]]. split.
  - apply length_repr_c.
  - by rewrite Hlo.
  - by rewrite Hhi.
  - cbn [workgroup grid_workitems]. f_equal;
      [apply (Hf 1 2)|apply (Hf 2 2)|apply (Hf 3 2)]; (done || (cbn; lia)).
  - cbn [workgroup grid_workitems]. f_equal;
      [apply (Hf 5 4)|apply (Hf 6 4)|apply (Hf 7 4)]; (done || (cbn; lia)).
  - apply (Hf 8 4); [done|cbn; lia].
  - apply (Hf 9 4); [done|cbn; lia].
  - apply (Hf 10 8); [done|cbn; lia].
  - apply (Hf 11 8); [done|cbn; lia].
  - apply (Hf 13 8); [done|cbn; lia].
  - split; [apply (Hf 4 2)|apply (Hf 12 8)]; (done || (cbn; lia)).
Qed.

(** The image of an accepted kernel-dispatch packet is what the HSA packet
    processor expects: 64 bytes whose header states the requested type,
    barrier bit and fence scopes, with the dimensions, work-group and grid
    sizes, segment sizes, kernel object, kernarg address and completion signal
    at the architected offsets and every reserved field zero; the word
    published last is exactly the first four bytes. *)
Theorem kernel_image_hsa_layout m g dyn ka sig policy p :
  metadata_typed m → geometry_typed g → is_u32 dyn → is_u64 ka → is_u64 sig →
  KernelDispatchPacket_new_with_policy m g dyn ka sig policy = Ok p →
  kernel_packet_reads (image_bytes (PacketImage_kernel p)) m g dyn ka sig policy ∧
  header_word (PacketImage_kernel p) = field (image_bytes (PacketImage_kernel p)) 0 4.
Proof. apply kernel_image_reads. Qed.

Definition demo_metadata : KernelMetadata := mkKernelMetadata 7 0 16 32 64 false.
Definition demo_geometry : LaunchGeometry :=
  mkLaunchGeometry (mkDim3 1024 1 1) (mkDim3 64 1 1) 1.
Definition demo_packet : KernelDispatchPacket :=
  mkKernelDispatchPacket 70914 (mkDim3 64 1 1) 0 (mkDim3 1024 1 1) 64 48 7 0 0 9.

Lemma kernel_image_hsa_layout_witness :
  KernelDispatchPacket_new demo_metadata demo_geometry 16 0 9 = Ok demo_packet ∧
  kernel_packet_reads (image_bytes (PacketImage_kernel demo_packet)) demo_metadata demo_geometry
    16 0 9 RECORDED_DISPATCH.
Proof.
  split; [reflexivity|].
  refine (proj1 (kernel_image_hsa_layout demo_metadata demo_geometry 16 0 9 RECORDED_DISPATCH
    demo_packet _ _ _ _ _ eq_refl)); repeat split; vm_compute; congruence.
Defined.

(** ** Indirect-buffer packets *)

Lemma land_low_bits x : (0 ≤ x)%Z → Z.land x 3 = 0%Z → Z.land x 4294967292 = wrap32 x.
Proof.
  intros Hx H. unfold wrap32. change 4294967296%Z with (2 ^ 32)%Z.
  rewrite <- Z.land_ones by lia.
  change (Z.ones 32) with (Z.lor 4294967292 3). rewrite Z.land_lor_distr_r, H. by rewrite Z.lor_0_r.
Qed.

Lemma land_wrap x m : (0 ≤ m < 4294967296)%Z → Z.land (wrap32 x) m = Z.land x m.
Proof.
  intros Hm. unfold wrap32. change 4294967296%Z with (2 ^ 32)%Z in *.
  rewrite <- Z.land_ones, <- Z.land_assoc by lia. f_equal.
  rewrite Z.land_comm, Z.land_ones by lia. apply Z.mod_small. lia.
Qed.

(** The same packet field by field. *)
Definition indirect_fields (lo hi size sig : Z) : list (nat * Z) :=
  [(4, 65792%Z); (4, 3221372672%Z); (4, lo); (4, hi); (4, size); (4, 10%Z);
   (8, 0%Z); (8, 0%Z); (8, 0%Z); (8, 0%Z); (8, sig)].

(** The PM4 indirect-buffer packet is accepted exactly for a non-null
    4-byte-aligned address and a size of 1 to 0xfffff dwords; its 64 bytes then
    give back the address (low and high words), the size (low 20 bits of the
    size word), the vendor header, the PM4 opcode and the completion signal,
    and everything else is zero. *)
Theorem pm4_indirect_buffer_exact address dwords sig :
  is_u64 address → is_u32 dwords → is_u64 sig →
  match pm4_indirect_buffer address dwords sig with
  | Ok image =>
      let bytes := image_bytes image in
      address ≠ 0%Z ∧ (address `mod` 4 = 0)%Z ∧ (1 ≤ dwords ≤ 1048575)%Z ∧
      length bytes = AQL_PACKET_BYTES ∧
      (field bytes 8 4 + 4294967296 * field bytes 12 4)%Z = address ∧
      Z.land (field bytes 16 4) 1048575 = dwords ∧
      field bytes 0 4 = header_word image ∧ field bytes 4 4 = 3221372672%Z ∧
      field bytes 20 4 = 10%Z ∧ field bytes 56 8 = sig ∧
      take 32 (drop 24 bytes) = replicate 32 0%Z
  | Err (InvalidIndirectBufferAddress a) => a = address ∧ (address = 0 ∨ address `mod` 4 ≠ 0)%Z
  | Err (InvalidIndirectBufferSize d) => d = dwords ∧ ¬ (1 ≤ dwords ≤ 1048575)%Z
  | _ => False
  end.
Proof.
  intros Ha Hd Hs. unfold pm4_indirect_buffer.
  assert (Z.land address 3 = address `mod` 4)%Z as Hal.
  { change 3%Z with (Z.ones 2). by rewrite Z.land_ones by lia. }
  destruct (Z.eqb_spec address 0) as [|Hnz]; cbn [orb err_if mbind result_bind]; [by auto|].
  destruct (Z.eqb_spec (Z.land address 3) 0) as [Hz|Hz]; cbn [negb err_if mbind result_bind];
    [|split; [done|right; congruence]].
  destruct (Z.eqb_spec dwords 0); cbn [orb err_if mbind result_bind]; [split; [done|lia]|].
  destruct (Z.ltb_spec 1048575 dwords); cbn [err_if mbind result_bind]; [split; [done|lia]|].
  cbn [image_bytes header_word].
  set (lo := Z.land (wrap32 address) 4294967292). set (hi := wrap32 (Z.shiftr address 32)).
  set (size := Z.lor (Z.lor dwords IB_VALID) IB_TEMPORAL_LU).
  set (fs := indirect_fields lo hi size sig).
  match goal with |- context [put_slice ?b 56 ?s] => change (put_slice b 56 s) with (repr_c fs) end.
  assert (∀ i n x, fs !! i = Some (n, x) → (0 ≤ x < 256 ^ Z.of_nat n)%Z →
    field (repr_c fs) (offset_of fs i) n = x) as Hf by apply repr_c_field_fits.
  assert (lo = address `mod` 4294967296)%Z as Hlo.
  { unfold lo. rewrite land_wrap by lia. by apply land_low_bits; [ulia|]. }
  assert (hi = address / 4294967296)%Z as Hhi.
  { unfold hi, wrap32. rewrite Z.shiftr_div_pow2 by lia. change (2 ^ 32)%Z with 4294967296%Z.
    apply Z.mod_small. split; [apply Z.div_pos; ulia|]. apply Z.div_lt_upper_bound; ulia. }
  assert (Z.land size 1048575 = dwords ∧ 0 ≤ size < 4294967296)%Z as [Hsz Hszr].
  { unfold size. rewrite <- Z.lor_assoc. change (Z.lor IB_VALID IB_TEMPORAL_LU) with 813694976%Z.
    split.
    - rewrite Z.land_lor_distr_l. change (Z.land 813694976 1048575) with 0%Z.
      rewrite Z.lor_0_r. change 1048575%Z with (Z.ones 20). rewrite Z.land_ones by lia.
      apply Z.mod_small. ulia.
    - pose proof (lor_bound 32 dwords 813694976). ulia. }
  pose proof (Z.mod_pos_bound address 4294967296 ltac:(lia)) as Hmb.
  pose proof (Z.div_mod address 4294967296 ltac:(lia)) as Hdm.
  assert (0 ≤ hi < 4294967296)%Z as Hhb.
  { rewrite Hhi. split; [apply Z.div_pos; ulia|]. apply Z.div_lt_upper_bound; ulia. }
  unfold_ints. split; [done|]. split; [congruence|]. split; [lia|].
  split; [apply length_repr_c|].
  assert (field (repr_c fs) 8 4 = lo) as -> by (apply (Hf 2); [done|cbn; lia]).
  assert (field (repr_c fs) 12 4 = hi) as -> by (apply (Hf 3); [done|cbn; lia]).
  assert (field (repr_c fs) 16 4 = size) as -> by (apply (Hf 4); [done|cbn; lia]).
  split; [lia|]. split; [done|]. split; [by apply (Hf 0)|]. split; [by apply (Hf 1)|].
  split; [by apply (Hf 5)|]. split; [apply (Hf 10); [done|cbn; lia]|]. reflexivity.
Qed.

Lemma pm4_indirect_buffer_exact_witness :
  match pm4_indirect_buffer 20015998341120 801 6153737369414576827 with
  | Ok image => header_word image = 65792%Z ∧ field (image_bytes image) 16 4 = 813695777%Z ∧
      Z.land (field (image_bytes image) 16 4) 1048575 = 801%Z
  | _ => False
  end.
Proof.
  pose proof (pm4_indirect_buffer_exact 20015998341120 801 6153737369414576827
    ltac:(vm_compute; split; congruence) ltac:(vm_compute; split; congruence)
    ltac:(vm_compute; split; congruence)) as H.
  split; [reflexivity|]. split; [reflexivity|]. apply H.
Defined.
