(* ===== verification/Visibility.v ===== *)
(** Packet ordering and cache visibility derived from a plan
    (src/crates/redline-dispatch/src/visibility.rs).

    [derive_aql_visibility] decides, for every dispatch of a compiled plan, the
    barrier bit and the fence scopes of its AQL packet. The loop state is the
    record [vis_state]; the reason vectors are taken from it as the code takes
    them. The last part of the file gives the packets a timed semantics and
    proves that the derived bits suffice: every ordered pair of dispatches
    executes in order, and every write that a later dispatch reads is released
    and acquired. *)

From S2P Require Import Prelude Ir Identity Recorder Graph Plan Packet.

(** ** Boundaries and reasons *)

Inductive EntryBoundary := HostToAql | HipToAql | EntryAqlToAql.
Inductive ExitBoundary := AqlToHost | AqlToHip | ExitAqlToAql.

Record ApiBoundary := mkApiBoundary { entry_boundary : EntryBoundary; exit_boundary : ExitBoundary }.

(** [ApiBoundary::default] *)
Definition ApiBoundary_default : ApiBoundary := mkApiBoundary HostToAql AqlToHost.

#[export] Instance EntryBoundary_eq_dec : EqDecision EntryBoundary.
Proof. solve_decision. Defined.
#[export] Instance ExitBoundary_eq_dec : EqDecision ExitBoundary.
Proof. solve_decision. Defined.

Inductive VisibilityReason : Type :=
| EntryReason (boundary : EntryBoundary)
| RawProducer (consumer : NodeId) (overlap : DeviceRegion)
| RawConsumer (producer : NodeId) (overlap : DeviceRegion)
| ExitReason (boundary : ExitBoundary).

Inductive OrderReason : Type :=
| OrderedAfter (node : NodeId)
| CrossLaneDependency (node : NodeId)
| MemoryConflict (with_node : NodeId) (kind : HazardKind) (overlap : DeviceRegion).

#[export] Instance OrderReason_eq_dec : EqDecision OrderReason.
Proof. solve_decision. Defined.

Inductive BarrierDecision : Type :=
| Required (reasons : list OrderReason)
| Elided (adjacent_predecessor : option NodeId) (independent_of_open_epoch : list NodeId).

Record DerivedDispatchPolicy := mkDerivedDispatchPolicy {
  ddp_node : NodeId;
  ddp_lane : nat;
  ddp_header : HeaderPolicy;
  ddp_barrier : BarrierDecision;
  ddp_acquire_reasons : list VisibilityReason;
  ddp_release_reasons : list VisibilityReason }.

Record LaneConsolidationPolicy := mkLaneConsolidationPolicy {
  lcp_lane : nat; lcp_header : HeaderPolicy; lcp_covered_nodes : list NodeId }.

Record TerminalVisibilityPolicy := mkTerminalVisibilityPolicy {
  tvp_header : HeaderPolicy; tvp_lanes : list nat; tvp_reason : VisibilityReason }.

Record DerivedVisibilityPlan := mkDerivedVisibilityPlan {
  dvp_boundary : ApiBoundary;
  dvp_dispatches : list DerivedDispatchPolicy;
  dvp_lane_consolidations : list LaneConsolidationPolicy;
  dvp_terminal : TerminalVisibilityPolicy }.

Inductive VisibilityError : Type :=
| EmptyPlan
| UnorderedConflict (first second : NodeId) (kind : HazardKind) (overlap : DeviceRegion).

(** ** Helpers *)

Definition entry_scope (boundary : EntryBoundary) : FenceScope :=
  match boundary with HostToAql | HipToAql => ScopeSystem | EntryAqlToAql => ScopeAgent end.

Definition exit_scope (boundary : ExitBoundary) : FenceScope :=
  match boundary with AqlToHost | AqlToHip => ScopeSystem | ExitAqlToAql => ScopeAgent end.

Definition max_scope (left right : FenceScope) : FenceScope :=
  if (scope_value right <=? scope_value left)%Z then left else right.

(** [reachability] of visibility.rs, over planned dispatches. *)
Definition plan_reachability (ds : list PlannedDispatch)
    : result VisibilityError (list (list bool)) :=
  let count := length ds in
  try_fold (λ reachable d,
      try_fold (λ reachable dependency, absorb dependency reachable (planned_node d))
        reachable (planned_dependencies d))
    (replicate count (replicate count false)) (reverse ds).

(** [conflicts] *)
Definition conflicts (first second : PlannedDispatch) : list (HazardKind * DeviceRegion) :=
  access_conflicts (planned_accesses first) (planned_accesses second).

(** [reachable[a.node().index()][b.node().index()]] *)
Definition reachable_at (reachable : list (list bool)) (a b : NodeId)
    : result VisibilityError bool :=
  row ← index reachable (node_index a); index row (node_index b).

(** The pairs [(first, second)] of the two nested index loops. *)
Definition index_pairs (n : nat) : list (nat * nat) :=
  seq 0 n ≫= λ first, pair first <$> seq (S first) (n - S first).

(** [validate_ordered_conflicts] *)
Definition validate_ordered_conflicts (ds : list PlannedDispatch) (reachable : list (list bool))
    : result VisibilityError unit :=
  for_each (λ '(first, second),
      a ← index ds first;
      b ← index ds second;
      for_each (λ '(kind, overlap),
          ordered ← reachable_at reachable (planned_node a) (planned_node b);
          err_if (negb ordered)
            (UnorderedConflict (planned_node a) (planned_node b) kind overlap))
        (conflicts a b))
    (index_pairs (length ds)).

Abbreviation reasons := (list (list VisibilityReason)).

(** [values[i].push(value)] *)
Definition push_at {E A} (values : list (list A)) (i : nat) (value : A)
    : result E (list (list A)) :=
  old ← index values i; store values i (old ++ [value]).

(** [derive_raw_visibility]: the acquire and the release reasons. *)
Definition derive_raw_visibility (ds : list PlannedDispatch) (reachable : list (list bool))
    (init : reasons * reasons) : result VisibilityError (reasons * reasons) :=
  try_fold (λ s '(first, second),
      a ← index ds first;
      b ← index ds second;
      ordered ← reachable_at reachable (planned_node a) (planned_node b);
      if negb ordered then Ok s
      else try_fold (λ '(acquire, release) '(kind, overlap),
          if bool_decide (kind ≠ ReadAfterWrite) then Ok (acquire, release)
          else
            release ← push_at release first (RawProducer (planned_node b) overlap);
            acquire ← push_at acquire second (RawConsumer (planned_node a) overlap);
            Ok (acquire, release))
        s (conflicts a b))
    init (index_pairs (length ds)).

(** [push_unique] *)
Definition push_unique {A} `{EqDecision A} (values : list A) (value : A) : list A :=
  if bool_decide (value ∈ values) then values else values ++ [value].

(** ** The derivation loop *)

Record vis_state := mkVisState {
  lane_epochs : list (list nat);
  lane_nodes : list (list NodeId);
  lane_previous : list (option NodeId);
  acquire_reasons : reasons;
  release_reasons : reasons;
  derived : list DerivedDispatchPolicy }.

(** [lane_by_node]: the lane of every node, by node index. *)
Definition lanes_by_node (ds : list PlannedDispatch) : result VisibilityError (list nat) :=
  try_fold (λ lanes d, store lanes (node_index (planned_node d)) (planned_lane d))
    (replicate (length ds) 0) ds.

(** The reasons from the dispatch's own dependencies. *)
Definition dependency_reasons (lane_by_node : list nat) (d : PlannedDispatch)
    : result VisibilityError (list OrderReason) :=
  try_fold (λ rs dependency,
      lane ← index lane_by_node (node_index dependency);
      Ok (if bool_decide (lane = planned_lane d) then rs
          else push_unique rs (CrossLaneDependency dependency)))
    [] (planned_dependencies d).

(** The reasons from one packet of the open epoch. *)
Definition epoch_reason (ds : list PlannedDispatch) (reachable : list (list bool))
    (d : PlannedDispatch) (rs : list OrderReason) (prior_index : nat)
    : result VisibilityError (list OrderReason) :=
  prior ← index ds prior_index;
  ordered ← reachable_at reachable (planned_node prior) (planned_node d);
  let rs := if ordered : bool then push_unique rs (OrderedAfter (planned_node prior)) else rs in
  Ok (foldl (λ rs '(kind, overlap),
        push_unique rs (MemoryConflict (planned_node prior) kind overlap)) rs (conflicts prior d)).

(** The barrier bit and its justification. *)
Definition barrier_decision (order_reasons : list OrderReason) (previous : option NodeId)
    (epoch_nodes : list NodeId) : bool * BarrierDecision :=
  match order_reasons with
  | [] => (false, Elided previous epoch_nodes)
  | _ => (true, Required order_reasons)
  end.

Definition scope_of (rs : list VisibilityReason) : FenceScope :=
  match rs with [] => ScopeNone | _ => ScopeAgent end.

(** One iteration of the main loop of [derive_aql_visibility]. *)
Definition derive_one (ds : list PlannedDispatch) (reachable : list (list bool))
    (lane_by_node : list nat) (boundary : ApiBoundary) (s : vis_state)
    (entry : nat * PlannedDispatch) : result VisibilityError vis_state :=
  let '(dispatch_index, d) := entry in
  let lane := planned_lane d in
  epoch ← index (lane_epochs s) lane;
  rs ← dependency_reasons lane_by_node d;
  rs ← try_fold (epoch_reason ds reachable d) rs epoch;
  previous ← index (lane_previous s) lane;
  epoch_nodes ← try_map (λ i, prior ← index ds i; Ok (planned_node prior)) epoch;
  let '(barrier, decision) := barrier_decision rs previous epoch_nodes in
  acquire_here ← index (acquire_reasons s) dispatch_index;
  release_here ← index (release_reasons s) dispatch_index;
  nodes_here ← index (lane_nodes s) lane;
  let '(acquire, acquire_here) :=
    match nodes_here with
    | [] => (max_scope (scope_of acquire_here) (entry_scope (entry_boundary boundary)),
             EntryReason (entry_boundary boundary) :: acquire_here)
    | _ => (scope_of acquire_here, acquire_here)
    end in
  let release := scope_of release_here in
  acquire_reasons' ← store (acquire_reasons s) dispatch_index [];
  release_reasons' ← store (release_reasons s) dispatch_index [];
  let policy := mkDerivedDispatchPolicy (planned_node d) lane
    (mkHeaderPolicy barrier acquire release) decision acquire_here release_here in
  let epoch := if barrier then [] else epoch in
  epochs ← store (lane_epochs s) lane (epoch ++ [dispatch_index]);
  nodes ← store (lane_nodes s) lane (nodes_here ++ [planned_node d]);
  previous ← store (lane_previous s) lane (Some (planned_node d));
  Ok (mkVisState epochs nodes previous acquire_reasons' release_reasons' (derived s ++ [policy])).

Definition consolidation_header : HeaderPolicy := mkHeaderPolicy true ScopeNone ScopeNone.

(** The consolidation packets of the non-empty lanes. *)
Definition consolidations (lane_nodes : list (list NodeId)) : list LaneConsolidationPolicy :=
  omap (λ '(lane, covered),
      match covered with
      | [] => None
      | _ => Some (mkLaneConsolidationPolicy lane consolidation_header covered)
      end) (enumerate lane_nodes).

(** [derive_aql_visibility] *)
Definition derive_aql_visibility (plan : CompiledPlan) (boundary : ApiBoundary)
    : result VisibilityError DerivedVisibilityPlan :=
  let ds := plan_dispatches plan in
  err_if (bool_decide (length ds = 0)) EmptyPlan ;;
  reachable ← plan_reachability ds;
  validate_ordered_conflicts ds reachable ;;
  let n := length ds in
  '(acquire, release) ← derive_raw_visibility ds reachable (replicate n [], replicate n []);
  let lanes := plan_lane_count plan in
  lane_by_node ← lanes_by_node ds;
  s ← try_fold (derive_one ds reachable lane_by_node boundary)
    (mkVisState (replicate lanes []) (replicate lanes []) (replicate lanes None)
       acquire release []) (enumerate ds);
  let cs := consolidations (lane_nodes s) in
  let terminal := mkTerminalVisibilityPolicy
    (mkHeaderPolicy true ScopeNone (exit_scope (exit_boundary boundary)))
    (lcp_lane <$> cs) (ExitReason (exit_boundary boundary)) in
  Ok (mkDerivedVisibilityPlan boundary (derived s) cs terminal).

(** ** The reachability matrix *)

Section plan_reachability.
Context (r : Recorder) (options : CompileOptions) (p : CompiledPlan).
Context (Hwf : rec_wf r) (Hp : plan_of r options p).
Let ds := plan_dispatches p.
Let n := length ds.
Local Abbreviation vn := (vnode (owner r) n).

Lemma plan_vnode v : vn v ↔ valid_node r v.
Proof using Hp.
  unfold vnode, valid_node, n, ds. by rewrite (po_count _ _ _ Hp).
Qed.

Lemma planned_valid d : d ∈ ds → valid_node r (planned_node d).
Proof using Hp. intros Hd. apply (po_all _ _ _ Hp), list_elem_of_fmap. by exists d. Qed.

Lemma planned_deps d : d ∈ ds → planned_dependencies d = predecessors (edges r) (planned_node d).
Proof using Hp.
  intros [i Hi]%list_elem_of_lookup.
  by destruct (greedy_at _ _ _ (po_greedy _ _ _ Hp) i d Hi) as [_ ? _ _ _].
Qed.

Lemma planned_lane_lt d : d ∈ ds → planned_lane d < plan_lane_count p.
Proof using Hp.
  intros [i Hi]%list_elem_of_lookup. rewrite (po_lanes _ _ _ Hp).
  by destruct (greedy_at _ _ _ (po_greedy _ _ _ Hp) i d Hi) as [_ _ ? _ _].
Qed.

(** Absorbing the row of [v] into the rows of several other nodes. *)
Lemma absorb_into v us : vn v → Forall vn us → v ∉ us → ∀ M, square n M →
  ∃ M', try_fold (E := VisibilityError) (λ M u, absorb u M v) M us = Ok M' ∧ square n M' ∧
    (∀ u w, vn u → vn w →
      reach M' u w ↔ reach M u w ∨ (u ∈ us ∧ (w = v ∨ reach M v w))).
Proof using Type.
  clear Hp Hwf. intros Hv. induction us as [|u us IH]; intros Hus Hin M Hsq.
  - exists M. split; [done|]. split; [done|]. set_solver.
  - apply Forall_cons in Hus as [Hu Hus]. apply not_elem_of_cons in Hin as [Hvu Hin].
    destruct (absorb_one (E := VisibilityError) (owner r) n M u v) as (M1 & H1 & Hsq1 & Ho1 & Hr1);
      [done..|].
    destruct (IH Hus Hin M1 Hsq1) as (M2 & H2 & Hsq2 & Hr2).
    exists M2. split; [rewrite try_fold_cons, H1; exact H2|]. split; [done|].
    intros x w Hx Hw. rewrite Hr2, elem_of_cons, (Ho1 v w) by done.
    destruct (decide (x = u)) as [->|Hne].
    + rewrite Hr1 by done. naive_solver.
    + rewrite Ho1 by done. naive_solver.
Qed.

Lemma plan_reachability_Ok :
  ∃ M, plan_reachability ds = Ok M ∧ square n M ∧
    ∀ u w, valid_node r u → valid_node r w → reach M u w ↔ tc (edge (edges r)) u w.
Proof using Hwf Hp.
  unfold plan_reachability. fold n. set (zero := replicate n (replicate n false)).
  assert (square n zero) as Hzero.
  { split; [apply length_replicate|]. intros i row [-> _]%lookup_replicate_1. apply length_replicate. }
  destruct (try_fold_total (E := VisibilityError) (λ done M, square n M ∧
      ∀ u w, vn u → vn w → reach M u w ↔
        ∃ t, t ∈ planned_node <$> done ∧ edge (edges r) u t ∧ (w = t ∨ tc (edge (edges r)) t w))
    (λ M d, try_fold (λ M dep, absorb dep M (planned_node d)) M (planned_dependencies d))
    (reverse ds) [] zero) as (M & HM & Hsq & Hreach).
  - split; [done|]. intros u w _ _. split; [|intros (t & Ht & _); by apply not_elem_of_nil in Ht].
    intros (row & Hrow & Hw). apply lookup_replicate_1 in Hrow as [-> _].
    by apply lookup_replicate_1 in Hw as [? _].
  - intros d x rest M Heq [Hsq Hinv]. cbn in Heq.
    assert (x ∈ ds) as Hx by (rewrite <- elem_of_reverse, Heq; set_solver).
    pose proof (planned_valid x Hx) as Hv. apply plan_vnode in Hv as Hvn.
    assert (∀ t, edge (edges r) (planned_node x) t → t ∈ planned_node <$> d) as Hsucc.
    { intros t Ht. assert (reverse (planned_node <$> ds) = (planned_node <$> d) ++
        planned_node x :: (planned_node <$> rest)) as Hrev.
      { rewrite <- fmap_reverse, Heq, fmap_app, fmap_cons. done. }
      eapply dependency_order_later; [exact (po_order _ _ _ Hp)|exact (po_nodes _ _ _ Hp)| |
        exact Ht|exact Hrev].
      apply (po_all _ _ _ Hp). by apply (wf_edges r Hwf _ t Ht). }
    destruct (absorb_into (planned_node x) (planned_dependencies x)) with (M := M)
      as (M' & HM' & Hsq' & Hr').
    + done.
    + apply Forall_forall. intros u Hu. rewrite (planned_deps x Hx) in Hu.
      apply elem_of_predecessors in Hu. by apply plan_vnode, (wf_edges r Hwf u (planned_node x)).
    + rewrite (planned_deps x Hx), elem_of_predecessors. intros Hself.
      apply (wf_acyclic r Hwf (planned_node x)). by constructor.
    + done.
    + exists M'. split; [done|]. split; [done|]. intros u w Hu Hw.
      rewrite Hr', !Hinv, (planned_deps x Hx), elem_of_predecessors by done.
      rewrite fmap_app. setoid_rewrite elem_of_app. setoid_rewrite list_elem_of_singleton.
      split.
      * intros [(t & ? & ? & ?)|(He & Hc)]; [exists t; by auto|]. exists (planned_node x).
        split; [by auto|]. split; [done|]. destruct Hc as [|(t & _ & ? & ?)]; [by auto|right].
        apply tc_first. by exists t.
      * intros (t & [?| ->] & He & Hc); [left; by exists t|]. right. split; [done|].
        destruct Hc as [|Hc]; [by auto|right]. apply tc_first in Hc as (t & Ht & ?).
        exists t. split; [by apply Hsucc|done].
  - exists M. split; [done|]. split; [done|]. intros u w Hu Hw.
    rewrite Hreach by (by apply plan_vnode). rewrite tc_first. cbn. split.
    + intros (t & _ & ? & ?). by exists t.
    + intros (t & Ht & ?). exists t. split; [|done]. rewrite fmap_reverse, elem_of_reverse.
      apply (po_all _ _ _ Hp). by apply (wf_edges r Hwf u t).
Qed.
End plan_reachability.

(** ** Conflicts and read-after-write reasons *)

Lemma elem_of_index_pairs n i j : (i, j) ∈ index_pairs n ↔ i < j < n.
Proof.
  unfold index_pairs. rewrite list_elem_of_bind. split.
  - intros (k & (m & [= -> ->] & Hm%elem_of_seq)%list_elem_of_fmap & Hk%elem_of_seq). lia.
  - intros Hij. exists i. split; [|apply elem_of_seq; lia].
    apply list_elem_of_fmap. exists j. split; [done|]. apply elem_of_seq. lia.
Qed.

(** Membership in an entry of a vector of reason lists. *)
Definition entry_has (l : reasons) (i : nat) (x : VisibilityReason) : Prop :=
  ∃ v, l !! i = Some v ∧ x ∈ v.

Lemma push_at_Ok (l : reasons) i x : i < length l →
  ∃ l', push_at (E := VisibilityError) l i x = Ok l' ∧ length l' = length l ∧
    ∀ k y, entry_has l' k y ↔ entry_has l k y ∨ (k = i ∧ y = x).
Proof.
  intros Hi. destruct (lookup_lt_is_Some_2 l i Hi) as [v Hv].
  exists (<[i := v ++ [x]]> l). split; [|split].
  - unfold push_at. rewrite (proj2 (index_Ok _ _ _) Hv). cbn. by apply store_Ok.
  - apply length_insert.
  - intros k y. unfold entry_has. destruct (decide (k = i)) as [->|Hne].
    + rewrite list_lookup_insert_eq, Hv by done. split.
      * intros (w & [= <-] & [?|?%list_elem_of_singleton]%elem_of_app); eauto.
      * intros [(w & [= <-] & Hin)|[_ ->]]; eexists; (split; [done|]); set_solver.
    + rewrite list_lookup_insert_ne by done. naive_solver.
Qed.

Section raw.
Context (r : Recorder) (options : CompileOptions) (p : CompiledPlan) (M : list (list bool)).
Context (Hwf : rec_wf r) (Hp : plan_of r options p) (Hno : ∀ h, ¬ unordered_conflict r h).
Let ds := plan_dispatches p.
Let n := length ds.
Context (Hsq : square n M).
Context (HM : ∀ u w, valid_node r u → valid_node r w → reach M u w ↔ tc (edge (edges r)) u w).

Lemma reachable_at_Ok a b : a ∈ ds → b ∈ ds →
  ∃ o, reachable_at M (planned_node a) (planned_node b) = Ok o ∧
    (o = true ↔ tc (edge (edges r)) (planned_node a) (planned_node b)).
Proof using Hp Hsq HM.
  intros Ha Hb. apply (planned_valid _ _ _ Hp) in Ha. apply (planned_valid _ _ _ Hp) in Hb.
  pose proof (proj2 (plan_vnode _ _ _ Hp _) Ha) as [_ Hai].
  pose proof (proj2 (plan_vnode _ _ _ Hp _) Hb) as [_ Hbi].
  destruct Hsq as [HlM Hrows].
  destruct (lookup_lt_is_Some_2 M (node_index (planned_node a))) as [row Hrow];
    [unfold n, ds in HlM; lia|].
  pose proof (Hrows _ _ Hrow) as Hlr.
  destruct (lookup_lt_is_Some_2 row (node_index (planned_node b))) as [o Ho];
    [unfold n, ds in Hlr; lia|].
  exists o. split.
  - unfold reachable_at. rewrite (proj2 (index_Ok _ _ _) Hrow). cbn. by apply index_Ok.
  - rewrite <- HM by done. unfold reach. rewrite Hrow. split; [intros ->; eauto|naive_solver].
Qed.

(** In plan order, a conflict implies the dependency. *)
Lemma conflict_forward i j a b c :
  i < j → ds !! i = Some a → ds !! j = Some b → c ∈ conflicts a b →
  tc (edge (edges r)) (planned_node a) (planned_node b).
Proof using Hwf Hp Hno.
  intros Hij Ha Hb Hc.
  assert (conflicting (planned_accesses a) (planned_accesses b)) as Hcon
    by (apply conflicting_iff; by exists c).
  destruct (conflict_ordered r options p a b) as [Ht|Ht];
    eauto using list_elem_of_lookup_2.
  - intros Heq. assert (i = j); [|lia]. eapply (NoDup_lookup _ _ _ _ (po_nodes _ _ _ Hp));
      rewrite list_lookup_fmap; fold ds; rewrite ?Ha, ?Hb; [done|]. cbn. by rewrite Heq.
  - destruct (ordered_finishes_first r _ _ Hwf (po_greedy _ _ _ Hp) (po_nodes _ _ _ Hp)
      (po_order _ _ _ Hp) _ _ Ht j i b a); [done..| |lia].
    intros w. apply (po_all _ _ _ Hp).
Qed.

Lemma pair_lookup i j : i < j < n →
  ∃ a b, ds !! i = Some a ∧ ds !! j = Some b ∧ a ∈ ds ∧ b ∈ ds.
Proof using Type.
  clear Hp Hno HM Hsq Hwf. intros Hij.
  destruct (lookup_lt_is_Some_2 ds i) as [a Ha]; [unfold n in *; lia|].
  destruct (lookup_lt_is_Some_2 ds j) as [b Hb]; [unfold n in *; lia|].
  exists a, b. split_and!; eauto using list_elem_of_lookup_2.
Qed.

Lemma validate_ordered_conflicts_Ok : validate_ordered_conflicts ds M = Ok tt.
Proof using Hwf Hp Hno Hsq HM.
  unfold validate_ordered_conflicts. apply for_each_Ok.
  intros [i j] Hij%elem_of_index_pairs.
  destruct (pair_lookup i j Hij) as (a & b & Ha & Hb & Hina & Hinb).
  rewrite (proj2 (index_Ok _ _ _) Ha). cbn [mbind result_bind].
  rewrite (proj2 (index_Ok _ _ _) Hb). cbn [mbind result_bind].
  apply for_each_Ok. intros [k ov] Hc.
  destruct (reachable_at_Ok a b Hina Hinb) as (o & -> & Ho). cbn.
  rewrite (proj2 Ho); [done|]. by eapply (conflict_forward i j a b _ (proj1 Hij)).
Qed.

(** Dispatch [i] writes bytes that dispatch [j] reads afterwards. *)
Definition raw (i j : nat) (ov : DeviceRegion) : Prop :=
  ∃ a b, ds !! i = Some a ∧ ds !! j = Some b ∧ i < j ∧ (ReadAfterWrite, ov) ∈ conflicts a b.

Definition node_at (i : nat) (v : NodeId) : Prop := ∃ d, ds !! i = Some d ∧ planned_node d = v.

(** The reasons collected from the pairs [done]. *)
Record raw_inv (done : list (nat * nat)) (s : reasons * reasons) : Prop := {
  ri_acq_len : length s.1 = n;
  ri_rel_len : length s.2 = n;
  ri_acq j x : entry_has s.1 j x ↔
    ∃ i ov v, (i, j) ∈ done ∧ raw i j ov ∧ node_at i v ∧ x = RawConsumer v ov;
  ri_rel i x : entry_has s.2 i x ↔
    ∃ j ov v, (i, j) ∈ done ∧ raw i j ov ∧ node_at j v ∧ x = RawProducer v ov }.

(** The inner loop over the conflicts of one pair. *)
Lemma raw_inner i j a b cs acq rel :
  i < n → j < n → length acq = n → length rel = n →
  ∃ acq' rel', try_fold (E := VisibilityError) (λ '(acquire, release) '(kind, overlap),
      if bool_decide (kind ≠ ReadAfterWrite) then Ok (acquire, release)
      else
        release ← push_at release i (RawProducer (planned_node b) overlap);
        acquire ← push_at acquire j (RawConsumer (planned_node a) overlap);
        Ok (acquire, release)) (acq, rel) cs = Ok (acq', rel') ∧
    length acq' = n ∧ length rel' = n ∧
    (∀ k x, entry_has acq' k x ↔ entry_has acq k x ∨
      (k = j ∧ ∃ ov, (ReadAfterWrite, ov) ∈ cs ∧ x = RawConsumer (planned_node a) ov)) ∧
    (∀ k x, entry_has rel' k x ↔ entry_has rel k x ∨
      (k = i ∧ ∃ ov, (ReadAfterWrite, ov) ∈ cs ∧ x = RawProducer (planned_node b) ov)).
Proof using Type.
  clear Hp Hno HM Hsq Hwf. intros Hi Hj. revert acq rel.
  induction cs as [|[k ov] cs IH]; intros acq rel Hla Hlr.
  - exists acq, rel. split; [done|]. split; [done|]. split; [done|]. split; set_solver.
  - rewrite try_fold_cons. case_bool_decide as Hk.
    + destruct (IH acq rel Hla Hlr) as (acq' & rel' & Hf & H1 & H2 & Ha & Hr).
      exists acq', rel'. split; [exact Hf|]. split; [done|]. split; [done|].
      setoid_rewrite elem_of_cons.
      split; intros m x; [rewrite Ha|rewrite Hr]; naive_solver.
    + assert (k = ReadAfterWrite) as -> by (destruct k; try done; exfalso; by apply Hk).
      destruct (push_at_Ok rel i (RawProducer (planned_node b) ov)) as (rel1 & Hr1 & Hl1 & He1);
        [lia|].
      destruct (push_at_Ok acq j (RawConsumer (planned_node a) ov)) as (acq1 & Ha1 & Hl2 & He2);
        [lia|].
      destruct (IH acq1 rel1) as (acq' & rel' & Hf & H1 & H2 & Ha & Hr); [lia..|].
      exists acq', rel'. rewrite Hr1. cbn [mbind result_bind]. rewrite Ha1. cbn [mbind result_bind].
      split; [exact Hf|]. split; [done|]. split; [done|]. setoid_rewrite elem_of_cons.
      split; intros m x; [rewrite Ha, He2|rewrite Hr, He1]; naive_solver.
Qed.

(** One pair processed: [cs] are its conflicts that count. *)
Lemma raw_inv_step done i j a b (cs : list (HazardKind * DeviceRegion)) acq rel acq' rel' :
  raw_inv done (acq, rel) → ds !! i = Some a → ds !! j = Some b →
  (∀ ov, raw i j ov ↔ (ReadAfterWrite, ov) ∈ cs) → length acq' = n → length rel' = n →
  (∀ k x, entry_has acq' k x ↔ entry_has acq k x ∨
    (k = j ∧ ∃ ov, (ReadAfterWrite, ov) ∈ cs ∧ x = RawConsumer (planned_node a) ov)) →
  (∀ k x, entry_has rel' k x ↔ entry_has rel k x ∨
    (k = i ∧ ∃ ov, (ReadAfterWrite, ov) ∈ cs ∧ x = RawProducer (planned_node b) ov)) →
  raw_inv (done ++ [(i, j)]) (acq', rel').
Proof using Type.
  clear Hp Hno HM Hsq Hwf. intros [_ _ Ha Hr] Hai Hbj Hraw H1 H2 H3 H4. cbn in Ha, Hr.
  assert (∀ v, node_at i v ↔ v = planned_node a) as Hni
    by (intros v; unfold node_at; rewrite Hai; naive_solver).
  assert (∀ v, node_at j v ↔ v = planned_node b) as Hnj
    by (intros v; unfold node_at; rewrite Hbj; naive_solver).
  split; cbn; [done..| |]; intros k x; [rewrite H3, Ha|rewrite H4, Hr];
    setoid_rewrite elem_of_app; setoid_rewrite list_elem_of_singleton; split.
  - intros [(i' & ov & v & ? & ? & ? & ?)|(-> & ov & Hin & ->)]; [exists i', ov, v; by auto|].
    exists i, ov, (planned_node a). rewrite Hraw, Hni. auto.
  - intros (i' & ov & v & [?|[= -> ->]] & Hx & Hv & ->); [left; exists i', ov, v; by auto|].
    right. split; [done|]. exists ov. rewrite Hraw in Hx. rewrite Hni in Hv. by subst.
  - intros [(j' & ov & v & ? & ? & ? & ?)|(-> & ov & Hin & ->)]; [exists j', ov, v; by auto|].
    exists j, ov, (planned_node b). rewrite Hraw, Hnj. auto.
  - intros (j' & ov & v & [?|[= -> ->]] & Hx & Hv & ->); [left; exists j', ov, v; by auto|].
    right. split; [done|]. exists ov. rewrite Hraw in Hx. rewrite Hnj in Hv. by subst.
Qed.

Lemma derive_raw_visibility_Ok :
  ∃ s, derive_raw_visibility ds M (replicate n [], replicate n []) = Ok s ∧
    raw_inv (index_pairs n) s.
Proof using Hp Hsq HM Hwf Hno.
  unfold derive_raw_visibility. fold n.
  match goal with |- context [try_fold ?f _ _] =>
    apply (try_fold_total raw_inv f (index_pairs n) []) end.
  - assert (∀ k x, ¬ entry_has (replicate n []) k x) as He.
    { intros k x (v & Hv & Hx). apply lookup_replicate_1 in Hv as [-> _].
      by apply not_elem_of_nil in Hx. }
    split; cbn; rewrite ?length_replicate; try done;
      (intros j x; split; [by intros ?%He|by intros (? & ? & ? & ?%not_elem_of_nil & _)]).
  - intros done [i j] rest [acq rel] Heq Hinv. cbn in Heq.
    assert ((i, j) ∈ index_pairs n) as Hij by (rewrite Heq; set_solver).
    apply elem_of_index_pairs in Hij.
    destruct (pair_lookup i j Hij) as (a & b & Hai & Hbj & Hina & Hinb).
    rewrite (proj2 (index_Ok _ _ _) Hai). cbn [mbind result_bind].
    rewrite (proj2 (index_Ok _ _ _) Hbj). cbn [mbind result_bind].
    destruct (reachable_at_Ok a b Hina Hinb) as (o & -> & Ho). cbn [mbind result_bind].
    assert (∀ ov, raw i j ov ↔ (ReadAfterWrite, ov) ∈ conflicts a b) as Hraw.
    { intros ov. unfold raw. rewrite Hai, Hbj. split; [naive_solver|].
      intros ?. exists a, b. split; [done|]. split; [done|]. split; [lia|done]. }
    pose proof Hinv as [Hla Hlr _ _]. cbn in Hla, Hlr.
    destruct (raw_inner i j a b (conflicts a b) acq rel) as (acq' & rel' & Hf & H1 & H2 & H3 & H4);
      [lia..|done|done|].
    destruct o; cbn [negb].
    + exists (acq', rel'). split; [exact Hf|].
      by eapply (raw_inv_step done i j a b (conflicts a b)).
    + exists (acq, rel). split; [done|].
      eapply (raw_inv_step done i j a b []); try done; [|set_solver..].
      intros ov. split; [|set_solver]. intros Hx%Hraw.
      assert (tc (edge (edges r)) (planned_node a) (planned_node b)) as Ht
        by (by eapply (conflict_forward i j a b _ (proj1 Hij))). by apply Ho in Ht.
Qed.
End raw.

(** ** The reasons of one dispatch *)

Lemma elem_of_push_unique {A} `{EqDecision A} (l : list A) x y :
  y ∈ push_unique l x ↔ y ∈ l ∨ y = x.
Proof. unfold push_unique. case_bool_decide; set_solver. Qed.

Lemma enumerate_split {A} (l : list A) pre i x post :
  enumerate l = pre ++ (i, x) :: post → i = length pre ∧ l !! i = Some x.
Proof.
  intros H. assert (enumerate l !! length pre = Some (i, x)) as Hl.
  { rewrite H. by apply list_lookup_middle. }
  unfold enumerate in Hl. apply list_lookup_imap_Some in Hl as (y & Hy & [= -> ->]). done.
Qed.

(** A barriered packet of [lane] sits after position [i], at or before [j]. *)
Definition fenced (pols : list DerivedDispatchPolicy) (i j lane : nat) : Prop :=
  ∃ b pol, i < b ≤ j ∧ pols !! b = Some pol ∧ ddp_lane pol = lane ∧
    policy_barrier (ddp_header pol) = true.

Lemma fenced_mono pols pols' i j j' lane :
  pols `prefix_of` pols' → j ≤ j' → fenced pols i j lane → fenced pols' i j' lane.
Proof.
  intros Hpre Hj (b & pol & Hb & Hl & Hlane & Hbar). exists b, pol.
  split; [lia|]. split; [by eapply prefix_lookup_Some|done].
Qed.

Section derive.
Context (r : Recorder) (options : CompileOptions) (p : CompiledPlan) (M : list (list bool)).
Context (Hwf : rec_wf r) (Hp : plan_of r options p) (Hno : ∀ h, ¬ unordered_conflict r h).
Let ds := plan_dispatches p.
Let n := length ds.
Let lanes := plan_lane_count p.
Context (Hsq : square n M).
Context (HM : ∀ u w, valid_node r u → valid_node r w → reach M u w ↔ tc (edge (edges r)) u w).

(** The graph orders dispatch [a] before [b]. *)
Definition before (a b : PlannedDispatch) : Prop :=
  tc (edge (edges r)) (planned_node a) (planned_node b).

Lemma lanes_by_node_Ok :
  ∃ L, lanes_by_node ds = Ok L ∧ length L = n ∧
    ∀ d, d ∈ ds → L !! node_index (planned_node d) = Some (planned_lane d).
Proof using Hwf Hp Hno Hsq HM.
  unfold lanes_by_node. fold n.
  destruct (try_fold_total (E := VisibilityError) (λ dn L, length L = n ∧
      ∀ d, d ∈ dn → L !! node_index (planned_node d) = Some (planned_lane d))
    (λ lanes d, store lanes (node_index (planned_node d)) (planned_lane d)) ds []
    (replicate n 0)) as (L & HL & Hlen & Hin).
  - split; [apply length_replicate|]. intros d Hd. by apply not_elem_of_nil in Hd.
  - intros dn x rest L Heq [Hlen Hin]. cbn in Heq.
    assert (x ∈ ds) as Hx by (rewrite Heq; set_solver).
    pose proof (proj2 (plan_vnode _ _ _ Hp _) (planned_valid _ _ _ Hp x Hx)) as [_ Hi].
    exists (<[node_index (planned_node x) := planned_lane x]> L). split; [|split].
    + apply store_Ok. split; [unfold n, ds in *; lia|done].
    + by rewrite length_insert.
    + intros d [Hd| ->%list_elem_of_singleton]%elem_of_app.
      * rewrite list_lookup_insert_ne; [by apply Hin|]. intros Hidx.
        pose proof (po_nodes _ _ _ Hp) as Hnd. fold ds in Hnd. rewrite Heq, fmap_app in Hnd.
        apply NoDup_app in Hnd as (_ & Hdis & _).
        apply (Hdis (planned_node d)); [apply list_elem_of_fmap; by exists d|].
        replace (planned_node d) with (planned_node x); [set_solver|].
        assert (d ∈ ds) as Hdd by (rewrite Heq; set_solver).
        apply (vnode_eq (owner r) (length (nodes r)));
          [by apply (planned_valid _ _ _ Hp)..|done].
      * apply list_lookup_insert_eq. unfold n, ds in *. lia.
  - exists L. done.
Qed.

Lemma dependency_planned d v : d ∈ ds → v ∈ planned_dependencies d →
  ∃ e, e ∈ ds ∧ planned_node e = v ∧ edge (edges r) v (planned_node d).
Proof using Hwf Hp Hno Hsq HM.
  intros Hd Hv. rewrite (planned_deps _ _ _ Hp d Hd) in Hv. apply elem_of_predecessors in Hv.
  assert (v ∈ planned_node <$> plan_dispatches p) as Hin.
  { apply (po_all _ _ _ Hp). by apply (wf_edges r Hwf v (planned_node d)). }
  apply list_elem_of_fmap in Hin as (e & -> & He). by exists e.
Qed.

Lemma dependency_reasons_Ok L d : d ∈ ds →
  (∀ d, d ∈ ds → L !! node_index (planned_node d) = Some (planned_lane d)) →
  ∃ rs, dependency_reasons L d = Ok rs ∧
    ∀ x, x ∈ rs ↔ ∃ e, e ∈ ds ∧ planned_node e ∈ planned_dependencies d ∧
      planned_lane e ≠ planned_lane d ∧ x = CrossLaneDependency (planned_node e).
Proof using Hwf Hp Hno Hsq HM.
  intros Hd HL. unfold dependency_reasons.
  destruct (try_fold_total (E := VisibilityError) (λ dn rs, ∀ x, x ∈ rs ↔
      ∃ e, e ∈ ds ∧ planned_node e ∈ dn ∧ planned_lane e ≠ planned_lane d ∧
        x = CrossLaneDependency (planned_node e))
    (λ rs dependency, lane ← index L (node_index dependency);
      Ok (if bool_decide (lane = planned_lane d) then rs
          else push_unique rs (CrossLaneDependency dependency)))
    (planned_dependencies d) [] []) as (rs & Hrs & Hin).
  - intros x. split; [by intros ?%not_elem_of_nil|by intros (? & _ & ?%not_elem_of_nil & _)].
  - intros dn v rest rs Heq Hin. cbn in Heq.
    destruct (dependency_planned d v Hd) as (e & He & <- & _); [rewrite Heq; set_solver|].
    rewrite (proj2 (index_Ok _ _ _) (HL e He)). cbn [mbind result_bind].
    eexists. split; [done|]. intros x. setoid_rewrite elem_of_app.
    setoid_rewrite list_elem_of_singleton.
    case_bool_decide as Hl; [rewrite Hin|rewrite elem_of_push_unique, Hin]; split.
    + intros (f & ? & ? & ? & ?). exists f. by auto.
    + intros (f & Hf & [?|Hfe] & Hfl & ->); [exists f; by auto|].
      destruct Hfl. pose proof (HL f Hf) as H1. rewrite Hfe, (HL e He) in H1. congruence.
    + intros [(f & ? & ? & ? & ?)| ->]; [exists f; by auto|exists e; by auto].
    + intros (f & Hf & [?|Hfe] & Hfl & ->); [left; exists f; by auto|]. right. by rewrite Hfe.
  - exists rs. done.
Qed.

Lemma epoch_reasons_Ok d epoch rs : d ∈ ds → (∀ i, i ∈ epoch → i < n) →
  ∃ rs', try_fold (epoch_reason ds M d) rs epoch = Ok rs' ∧
    ∀ x, x ∈ rs' ↔ x ∈ rs ∨ ∃ i a, i ∈ epoch ∧ ds !! i = Some a ∧
      ((before a d ∧ x = OrderedAfter (planned_node a)) ∨
       ∃ k ov, (k, ov) ∈ conflicts a d ∧ x = MemoryConflict (planned_node a) k ov).
Proof using Hwf Hp Hno Hsq HM.
  intros Hd Hep.
  destruct (try_fold_total (E := VisibilityError) (λ dn rs', ∀ x, x ∈ rs' ↔ x ∈ rs ∨
      ∃ i a, i ∈ dn ∧ ds !! i = Some a ∧
      ((before a d ∧ x = OrderedAfter (planned_node a)) ∨
       ∃ k ov, (k, ov) ∈ conflicts a d ∧ x = MemoryConflict (planned_node a) k ov))
    (epoch_reason ds M d) epoch [] rs) as (rs' & Hrs & Hin).
  - intros x. split; [by auto|]. by intros [?|(? & ? & ?%not_elem_of_nil & _)].
  - intros dn i rest s Heq Hin. cbn in Heq.
    destruct (lookup_lt_is_Some_2 ds i) as [a Ha]; [apply Hep; rewrite Heq; set_solver|].
    unfold epoch_reason. rewrite (proj2 (index_Ok _ _ _) Ha). cbn [mbind result_bind].
    destruct (reachable_at_Ok r options p M Hp Hsq HM a d) as (o & -> & Ho);
      [by eapply list_elem_of_lookup_2|done|]. cbn [mbind result_bind].
    eexists. split; [done|]. intros x.
    assert (∀ (cs : list (HazardKind * DeviceRegion)) s',
      x ∈ foldl (λ rs '(kind, overlap),
        push_unique rs (MemoryConflict (planned_node a) kind overlap)) s' cs ↔
      x ∈ s' ∨ ∃ k ov, (k, ov) ∈ cs ∧ x = MemoryConflict (planned_node a) k ov) as Hfold.
    { induction cs as [|[k ov] cs IH]; intros s'; cbn [foldl]; [set_solver|].
      rewrite IH, elem_of_push_unique. setoid_rewrite elem_of_cons. naive_solver. }
    rewrite Hfold. setoid_rewrite elem_of_app. setoid_rewrite list_elem_of_singleton.
    assert (x ∈ (if o then push_unique s (OrderedAfter (planned_node a)) else s) ↔
      x ∈ s ∨ (before a d ∧ x = OrderedAfter (planned_node a))) as ->.
    { unfold before. rewrite <- Ho. destruct o; [rewrite elem_of_push_unique|]; naive_solver. }
    rewrite Hin. split.
    + intros [[[?|(i' & a' & ? & ? & HQ)]|HQ]|HQ]; [by auto|..]; right;
        [exists i', a'; by auto|exists i, a; by auto..].
    + intros [?|(i' & a' & [?| ->] & Ha' & HQ)]; [by auto|left; left; right; exists i', a'; by auto|].
      rewrite Ha in Ha'. injection Ha' as <-. destruct HQ; by auto.
  - exists rs'. done.
Qed.

(** The barrier bit and decision, from the collected reasons. *)
Lemma barrier_decision_spec rs prev nodes :
  let '(b, dec) := barrier_decision rs prev nodes in
  (b = true ↔ rs ≠ []) ∧
  match dec with Required rs' => rs' = rs ∧ rs ≠ [] ∧ b = true | Elided _ _ => b = false end.
Proof using Type. by destruct rs. Qed.

(** A reason implies an ordering with an earlier dispatch. *)
Lemma reason_before d k (epoch : list nat) (rs : list OrderReason) : d ∈ ds → ds !! k = Some d → (∀ i, i ∈ epoch → i < k) →
  (∀ x, x ∈ rs ↔
    (∃ e, e ∈ ds ∧ planned_node e ∈ planned_dependencies d ∧
      planned_lane e ≠ planned_lane d ∧ x = CrossLaneDependency (planned_node e)) ∨
    (∃ i a, i ∈ epoch ∧ ds !! i = Some a ∧
      ((before a d ∧ x = OrderedAfter (planned_node a)) ∨
       ∃ k ov, (k, ov) ∈ conflicts a d ∧ x = MemoryConflict (planned_node a) k ov))) →
  rs ≠ [] → ∃ e, e ∈ ds ∧ before e d.
Proof using Hwf Hp Hno Hsq HM.
  intros Hd Hk Hep H2 Hne. destruct rs as [|x rs]; [done|].
  destruct (proj1 (H2 x)) as [(e & He & Hdep & _)|(i & a & Hi & Ha & HQ)]; [set_solver|..].
  - exists e. split; [done|].
    destruct (dependency_planned d _ Hd Hdep) as (f & _ & _ & Hedge).
    by apply tc_once.
  - exists a. split; [by eapply list_elem_of_lookup_2|].
    destruct HQ as [[? _]|(kd & ov & Hc & _)]; [done|].
    eapply (conflict_forward r options p Hwf Hp Hno i k a d); [by apply Hep|done..].
Qed.

(** ** The loop *)

Context (boundary : ApiBoundary) (acq0 rel0 : reasons).
Context (Hacq0 : length acq0 = n) (Hrel0 : length rel0 = n).

(** The nodes of [lane] among the first [k] dispatches. *)
Definition lane_prefix (k lane : nat) : list NodeId :=
  planned_node <$> filter (λ d, planned_lane d = lane) (take k ds).

(** What the derived policy of dispatch [j] promises. *)
Record policy_ok (pols : list DerivedDispatchPolicy) (j : nat) (d : PlannedDispatch)
    (pol : DerivedDispatchPolicy) : Prop := {
  pk_node : ddp_node pol = planned_node d;
  pk_lane : ddp_lane pol = planned_lane d;
  pk_cross e : e ∈ ds → planned_node e ∈ planned_dependencies d →
    planned_lane e ≠ planned_lane d →
    ∃ rs, ddp_barrier pol = Required rs ∧ CrossLaneDependency (planned_node e) ∈ rs;
  pk_same i a : i < j → ds !! i = Some a → planned_lane a = planned_lane d → before a d →
    fenced pols i j (planned_lane d);
  pk_reason : policy_barrier (ddp_header pol) = true → ∃ e, e ∈ ds ∧ before e d;
  pk_decision : match ddp_barrier pol with
    | Required rs => rs ≠ [] ∧ policy_barrier (ddp_header pol) = true
    | Elided _ _ => policy_barrier (ddp_header pol) = false end;
  pk_acquire acq : acq0 !! j = Some acq →
    policy_acquire (ddp_header pol) =
      match lane_prefix j (planned_lane d) with
      | [] => max_scope (scope_of acq) (entry_scope (entry_boundary boundary))
      | _ => scope_of acq end;
  pk_release rel : rel0 !! j = Some rel → policy_release (ddp_header pol) = scope_of rel;
  pk_reasons acq x : acq0 !! j = Some acq → x ∈ acq → x ∈ ddp_acquire_reasons pol }.

Record vis_inv (k : nat) (s : vis_state) : Prop := {
  vi_epochs : length (lane_epochs s) = lanes;
  vi_previous : length (lane_previous s) = lanes;
  vi_nodes : lane_nodes s = lane_prefix k <$> seq 0 lanes;
  vi_members l ep i : lane_epochs s !! l = Some ep → i ∈ ep → i < k;
  vi_members_n l ep i : lane_epochs s !! l = Some ep → i ∈ ep → i < n;
  vi_covered i a : i < k → ds !! i = Some a →
    (∃ ep, lane_epochs s !! planned_lane a = Some ep ∧ i ∈ ep) ∨
    fenced (derived s) i (k - 1) (planned_lane a);
  vi_acq : length (acquire_reasons s) = n ∧
    ∀ j, k ≤ j → acquire_reasons s !! j = acq0 !! j;
  vi_rel : length (release_reasons s) = n ∧
    ∀ j, k ≤ j → release_reasons s !! j = rel0 !! j;
  vi_len : length (derived s) = k;
  vi_policy j d pol : ds !! j = Some d → derived s !! j = Some pol →
    policy_ok (derived s) j d pol }.

Lemma policy_ok_mono pols pols' j d pol :
  pols `prefix_of` pols' → policy_ok pols j d pol → policy_ok pols' j d pol.
Proof using Type.
  clear Hacq0 Hrel0. intros Hpre []. split; try done. intros i a Hi Ha Hl Hb.
  eapply fenced_mono; [done|reflexivity|]. by eapply pk_same0.
Qed.

Lemma lane_prefix_S k lane d : ds !! k = Some d →
  lane_prefix (S k) lane =
    lane_prefix k lane ++ (if bool_decide (planned_lane d = lane) then [planned_node d] else []).
Proof using Type.
  intros Hd. unfold lane_prefix. rewrite (take_S_r _ _ _ Hd), filter_app, fmap_app. f_equal.
  rewrite filter_cons, filter_nil. case_bool_decide; case_decide; done.
Qed.

(** What one iteration does to the state; [rs] are the collected reasons. *)
Record derive_step (k : nat) (d : PlannedDispatch) (s s' : vis_state) (epoch : list nat)
    (rs : list OrderReason) (pol : DerivedDispatchPolicy) : Prop := {
  st_epoch : lane_epochs s !! planned_lane d = Some epoch;
  st_epochs : lane_epochs s' = <[planned_lane d :=
    (if policy_barrier (ddp_header pol) then [] else epoch) ++ [k]]> (lane_epochs s);
  st_previous : length (lane_previous s') = lanes;
  st_nodes : lane_nodes s' =
    <[planned_lane d := lane_prefix k (planned_lane d) ++ [planned_node d]]> (lane_nodes s);
  st_acq : acquire_reasons s' = <[k := []]> (acquire_reasons s);
  st_rel : release_reasons s' = <[k := []]> (release_reasons s);
  st_derived : derived s' = derived s ++ [pol];
  st_node : ddp_node pol = planned_node d;
  st_lane : ddp_lane pol = planned_lane d;
  st_barrier : policy_barrier (ddp_header pol) = true ↔ rs ≠ [];
  st_decision : match ddp_barrier pol with
    | Required rs' => rs' = rs ∧ rs ≠ [] ∧ policy_barrier (ddp_header pol) = true
    | Elided _ _ => policy_barrier (ddp_header pol) = false end;
  st_reasons x : x ∈ rs ↔
    (∃ e, e ∈ ds ∧ planned_node e ∈ planned_dependencies d ∧
      planned_lane e ≠ planned_lane d ∧ x = CrossLaneDependency (planned_node e)) ∨
    (∃ i a, i ∈ epoch ∧ ds !! i = Some a ∧
      ((before a d ∧ x = OrderedAfter (planned_node a)) ∨
       ∃ k ov, (k, ov) ∈ conflicts a d ∧ x = MemoryConflict (planned_node a) k ov));
  st_acquire acq : acq0 !! k = Some acq →
    policy_acquire (ddp_header pol) =
      match lane_prefix k (planned_lane d) with
      | [] => max_scope (scope_of acq) (entry_scope (entry_boundary boundary))
      | _ => scope_of acq end;
  st_release rel : rel0 !! k = Some rel → policy_release (ddp_header pol) = scope_of rel;
  st_acquire_reasons acq x : acq0 !! k = Some acq → x ∈ acq → x ∈ ddp_acquire_reasons pol }.

Lemma epoch_nodes_Ok (epoch : list nat) : (∀ i, i ∈ epoch → i < n) →
  ∃ ns, try_map (E := VisibilityError)
    (λ i, prior ← index ds i; Ok (planned_node prior)) epoch = Ok ns.
Proof using Type.
  clear Hacq0 Hrel0 Hsq HM Hno Hp Hwf. induction epoch as [|i ep IH]; intros Hep; [by exists []|].
  destruct IH as [ns Hns]; [set_solver|].
  destruct (lookup_lt_is_Some_2 ds i) as [a Ha]; [apply Hep; set_solver|].
  exists (planned_node a :: ns). cbn [try_map].
  rewrite (proj2 (index_Ok _ _ _) Ha). cbn [mbind result_bind]. by rewrite Hns.
Qed.

Lemma derive_one_Ok L k d s :
  (∀ d, d ∈ ds → L !! node_index (planned_node d) = Some (planned_lane d)) →
  vis_inv k s → ds !! k = Some d →
  ∃ s' epoch rs pol, derive_one ds M L boundary s (k, d) = Ok s' ∧
    derive_step k d s s' epoch rs pol.
Proof.
  intros HL Hinv Hk. pose proof Hinv as [He Hprev Hnodes Hmem Hmemn Hcov [Hal Ha] [Hrl Hr] Hlen Hpol].
  assert (d ∈ ds) as Hd by by eapply list_elem_of_lookup_2.
  assert (k < n) as Hkn by by eapply lookup_lt_Some.
  assert (planned_lane d < lanes) as Hlane by by apply (planned_lane_lt _ _ _ Hp).
  set (lane := planned_lane d) in *.
  destruct (lookup_lt_is_Some_2 (lane_epochs s) lane) as [epoch Hep]; [lia|].
  destruct (lookup_lt_is_Some_2 (lane_previous s) lane) as [prev Hpv]; [lia|].
  destruct (lookup_lt_is_Some_2 (acquire_reasons s) k) as [acq Hacq]; [lia|].
  destruct (lookup_lt_is_Some_2 (release_reasons s) k) as [rel Hrel]; [lia|].
  assert (lane_nodes s !! lane = Some (lane_prefix k lane)) as Hln.
  { by rewrite Hnodes, list_lookup_fmap, lookup_seq_lt. }
  destruct (dependency_reasons_Ok L d Hd HL) as (rs1 & Hrs1 & Hin1).
  destruct (epoch_reasons_Ok d epoch rs1 Hd) as (rs & Hrs & Hin); [by eauto|].
  destruct (epoch_nodes_Ok epoch) as [ns Hns]; [by eauto|].
  unfold derive_one. fold lane.
  rewrite (proj2 (index_Ok _ _ _) Hep). cbn [mbind result_bind].
  rewrite Hrs1. cbn [mbind result_bind]. rewrite Hrs. cbn [mbind result_bind].
  rewrite (proj2 (index_Ok _ _ _) Hpv). cbn [mbind result_bind]. rewrite Hns. cbn [mbind result_bind].
  pose proof (barrier_decision_spec rs prev ns) as Hbd.
  destruct (barrier_decision rs prev ns) as [b dec]. destruct Hbd as [Hb Hdec].
  rewrite (proj2 (index_Ok _ _ _) Hacq). cbn [mbind result_bind].
  rewrite (proj2 (index_Ok _ _ _) Hrel). cbn [mbind result_bind].
  rewrite (proj2 (index_Ok _ _ _) Hln). cbn [mbind result_bind].
  destruct (match lane_prefix k lane with [] => _ | _ => _ end) as [acquire acq'] eqn:Hacquire.
  unfold store. rewrite Hal, Hrl, He, Hprev, !(bool_decide_eq_true_2 (k < n)) by done.
  cbn [mbind result_bind]. rewrite (bool_decide_eq_true_2 (lane < lanes)) by done.
  cbn [mbind result_bind]. rewrite (bool_decide_eq_true_2 (lane < length (lane_nodes s)))
    by (by eapply lookup_lt_Some). cbn [mbind result_bind].
  eexists _, epoch, rs, (mkDerivedDispatchPolicy (planned_node d) lane
    (mkHeaderPolicy b acquire (scope_of rel)) dec acq' rel). split; [done|].
  split; cbn [lane_epochs lane_previous lane_nodes acquire_reasons release_reasons derived
    ddp_node ddp_lane ddp_header ddp_barrier policy_barrier policy_acquire policy_release];
    try done.
  - by rewrite length_insert.
  - intros x. by rewrite Hin, Hin1.
  - intros acq1 Hacq1. rewrite <- (Ha k), Hacq in Hacq1 by done. injection Hacq1 as <-. fold lane.
    destruct (lane_prefix k lane); by injection Hacquire.
  - intros rel1 Hrel1. rewrite <- (Hr k), Hrel in Hrel1 by done. by injection Hrel1 as <-.
  - intros acq1 x Hacq1 Hx. rewrite <- (Ha k), Hacq in Hacq1 by done. injection Hacq1 as <-. cbn.
    destruct (lane_prefix k lane); injection Hacquire as _ <-; [by right|done].
Qed.

Section step.
Context (k : nat) (d : PlannedDispatch) (s s' : vis_state) (epoch : list nat)
  (rs : list OrderReason) (pol : DerivedDispatchPolicy).
Context (Hinv : vis_inv k s) (Hk : ds !! k = Some d).
Context (Hst : derive_step k d s s' epoch rs pol).

Lemma step_policy : (derived s ++ [pol]) !! k = Some pol.
Proof. rewrite <- (vi_len _ _ Hinv). by apply list_lookup_middle. Qed.

Lemma step_fenced i : i < k → policy_barrier (ddp_header pol) = true →
  fenced (derived s') i k (planned_lane d).
Proof.
  intros Hi Hb. exists k, pol. rewrite (st_derived _ _ _ _ _ _ _ Hst). split; [lia|].
  split; [apply step_policy|]. split; [apply (st_lane _ _ _ _ _ _ _ Hst)|done].
Qed.

Lemma step_prefix : derived s `prefix_of` derived s'.
Proof. rewrite (st_derived _ _ _ _ _ _ _ Hst). by apply prefix_app_r. Qed.

Lemma step_covered i a : i < S k → ds !! i = Some a →
  (∃ ep, lane_epochs s' !! planned_lane a = Some ep ∧ i ∈ ep) ∨
  fenced (derived s') i (S k - 1) (planned_lane a).
Proof.
  intros Hi Ha. rewrite (st_epochs _ _ _ _ _ _ _ Hst). cbn [Nat.sub]. rewrite Nat.sub_0_r.
  assert (planned_lane d < length (lane_epochs s)) as Hl.
  { eapply lookup_lt_Some, (st_epoch _ _ _ _ _ _ _ Hst). }
  destruct (decide (i = k)) as [->|Hne].
  - assert (a = d) as -> by congruence. left. rewrite list_lookup_insert_eq by done.
    eexists. split; [done|]. set_solver.
  - destruct (vi_covered _ _ Hinv i a) as [(ep & Hep & Hin)|Hf]; [lia|done| |].
    + destruct (decide (planned_lane d = planned_lane a)) as [Heq|Hneq].
      * rewrite <- Heq in *. rewrite (st_epoch _ _ _ _ _ _ _ Hst) in Hep. injection Hep as <-.
        rewrite list_lookup_insert_eq by done.
        destruct (policy_barrier (ddp_header pol)) eqn:Eb.
        -- right. apply step_fenced; [lia|done].
        -- left. eexists. split; [done|]. set_solver.
      * left. rewrite list_lookup_insert_ne by done. eauto.
    + right. eapply fenced_mono; [apply step_prefix| |exact Hf]. lia.
Qed.

Lemma step_new_policy : policy_ok (derived s') k d pol.
Proof.
  assert (d ∈ ds) as Hd by by eapply list_elem_of_lookup_2.
  pose proof Hst as [Hep _ _ _ _ _ Hder Hn Hl Hb Hdec Hrs Hacq Hrel Hreasons]. split; try done.
  - intros e He Hdep Hne. assert (CrossLaneDependency (planned_node e) ∈ rs) as Hin.
    { apply Hrs. left. by exists e. }
    destruct (ddp_barrier pol) as [rs'|].
    + exists rs'. destruct Hdec as [-> _]. done.
    + assert (rs ≠ []) as Hnil%Hb by (intros ->; by apply not_elem_of_nil in Hin). congruence.
  - intros i a Hi Ha Hlane Hbef.
    destruct (vi_covered _ _ Hinv i a Hi Ha) as [(ep & Hep' & Hin)|Hf].
    + rewrite Hlane, Hep in Hep'. injection Hep' as <-. apply step_fenced; [done|]. apply Hb.
      assert (OrderedAfter (planned_node a) ∈ rs) as Hx.
      { apply Hrs. right. exists i, a. by auto. }
      intros ->. by apply not_elem_of_nil in Hx.
    + rewrite Hlane in Hf. eapply fenced_mono; [apply step_prefix| |exact Hf]. lia.
  - intros Hbar%Hb. eapply (reason_before d k epoch rs); [done|done| |done|done].
    intros i. by apply (vi_members _ _ Hinv _ _ _ Hep).
  - destruct (ddp_barrier pol); [by destruct Hdec as (-> & ? & ?)|done].
Qed.

Lemma step_inv : vis_inv (S k) s'.
Proof.
  pose proof Hinv as [He Hprev Hnodes Hmem Hmemn _ [Hal Ha] [Hrl Hr] Hlen Hpol].
  pose proof Hst as [Hep Hes Hps Hns Hacq Hrel Hder _ _ _ _ _ _ _ _].
  assert (k < n) as Hkn by by eapply lookup_lt_Some.
  split; try done.
  - by rewrite Hes, length_insert.
  - rewrite Hns. apply list_eq. intros l. rewrite list_lookup_fmap.
    destruct (decide (l < lanes)) as [Hl|Hl].
    + rewrite lookup_seq_lt by done. cbn. rewrite (lane_prefix_S k l d Hk).
      destruct (decide (planned_lane d = l)) as [<-|Hne].
      * rewrite list_lookup_insert_eq by (by rewrite Hnodes, length_fmap, length_seq).
        by rewrite bool_decide_eq_true_2.
      * rewrite list_lookup_insert_ne by done. rewrite bool_decide_eq_false_2, app_nil_r by done.
        by rewrite Hnodes, list_lookup_fmap, lookup_seq_lt.
    + rewrite lookup_seq_ge by lia. cbn. apply lookup_ge_None_2.
      rewrite length_insert, Hnodes, length_fmap, length_seq. lia.
  - intros l ep i Hl Hi. rewrite Hes in Hl.
    apply list_lookup_insert_Some in Hl as [(<- & <- & _)|[_ Hl]];
      [|pose proof (Hmem _ _ _ Hl Hi); lia].
    apply elem_of_app in Hi as [Hi| ->%list_elem_of_singleton]; [|lia].
    destruct (policy_barrier _); [by apply not_elem_of_nil in Hi|].
    pose proof (Hmem _ _ _ Hep Hi). lia.
  - intros l ep i Hl Hi. rewrite Hes in Hl.
    apply list_lookup_insert_Some in Hl as [(<- & <- & _)|[_ Hl]]; [|by eauto].
    apply elem_of_app in Hi as [Hi| ->%list_elem_of_singleton]; [|lia].
    destruct (policy_barrier _); [by apply not_elem_of_nil in Hi|]. by eauto.
  - apply step_covered.
  - rewrite Hacq, length_insert. split; [done|]. intros j Hj.
    rewrite list_lookup_insert_ne by lia. apply Ha. lia.
  - rewrite Hrel, length_insert. split; [done|]. intros j Hj.
    rewrite list_lookup_insert_ne by lia. apply Hr. lia.
  - rewrite Hder, length_app. cbn. lia.
  - intros j x polj Hj Hpolj. destruct (decide (j < k)) as [Hjk|Hjk].
    + rewrite Hder, lookup_app_l in Hpolj by lia.
      eapply policy_ok_mono; [apply step_prefix|]. by eauto.
    + assert (j = k) as ->.
      { apply lookup_lt_Some in Hpolj. rewrite Hder, length_app in Hpolj. cbn in Hpolj. lia. }
      rewrite Hder, step_policy in Hpolj. injection Hpolj as <-.
      assert (x = d) as -> by congruence. apply step_new_policy.
Qed.
End step.

Lemma derive_loop_Ok L :
  (∀ d, d ∈ ds → L !! node_index (planned_node d) = Some (planned_lane d)) →
  ∃ s, try_fold (derive_one ds M L boundary)
    (mkVisState (replicate lanes []) (replicate lanes []) (replicate lanes None) acq0 rel0 [])
    (enumerate ds) = Ok s ∧ vis_inv n s.
Proof.
  intros HL.
  destruct (try_fold_total (λ dn s, vis_inv (length dn) s) (derive_one ds M L boundary)
    (enumerate ds) [] (mkVisState (replicate lanes []) (replicate lanes [])
      (replicate lanes None) acq0 rel0 [])) as (s & Hs & Hinv).
  - split; cbn; try done; try lia; rewrite ?length_replicate; try done.
    + clear. induction lanes as [|l IH] using nat_ind; [done|].
      rewrite replicate_S_end, IH, seq_S, fmap_app. f_equal.
    + intros l ep i [-> _]%lookup_replicate_1 Hi. by apply not_elem_of_nil in Hi.
    + intros l ep i [-> _]%lookup_replicate_1 Hi. by apply not_elem_of_nil in Hi.
  - intros dn [k d] rest s Heq Hinv. cbn in Heq.
    apply enumerate_split in Heq as [-> Hk].
    destruct (derive_one_Ok L _ d s HL Hinv Hk) as (s' & epoch & rs & pol & Hs' & Hst).
    exists s'. split; [done|]. rewrite length_app. cbn. rewrite Nat.add_1_r.
    by eapply step_inv.
  - exists s. split; [done|]. cbn in Hinv. by rewrite length_enumerate in Hinv.
Qed.
End derive.

(** ** What the derivation guarantees *)

Record visibility_ok (r : Recorder) (p : CompiledPlan) (boundary : ApiBoundary)
    (acq rel : reasons) (v : DerivedVisibilityPlan) : Prop := {
  vo_boundary : dvp_boundary v = boundary;
  vo_len : length (dvp_dispatches v) = length (plan_dispatches p);
  vo_policy j d pol : plan_dispatches p !! j = Some d → dvp_dispatches v !! j = Some pol →
    policy_ok r p boundary acq rel (dvp_dispatches v) j d pol;
  vo_consolidations : dvp_lane_consolidations v =
    consolidations (lane_prefix p (length (plan_dispatches p)) <$> seq 0 (plan_lane_count p));
  vo_terminal : dvp_terminal v = mkTerminalVisibilityPolicy
    (mkHeaderPolicy true ScopeNone (exit_scope (exit_boundary boundary)))
    (lcp_lane <$> dvp_lane_consolidations v) (ExitReason (exit_boundary boundary)) }.

Lemma derive_total r options p boundary :
  rec_wf r → plan_of r options p → (∀ h, ¬ unordered_conflict r h) →
  match derive_aql_visibility p boundary with
  | Ok v => plan_dispatches p ≠ [] ∧ ∃ acq rel,
      raw_inv p (index_pairs (length (plan_dispatches p))) (acq, rel) ∧
      visibility_ok r p boundary acq rel v
  | Err EmptyPlan => plan_dispatches p = []
  | _ => False
  end.
Proof.
  intros Hwf Hp Hno. unfold derive_aql_visibility.
  case_bool_decide as Hlen; cbn [err_if mbind result_bind]; [by apply length_zero_iff_nil|].
  destruct (plan_reachability_Ok r options p Hwf Hp) as (M & HM & Hsq & Hreach).
  rewrite HM. cbn [mbind result_bind].
  rewrite (validate_ordered_conflicts_Ok r options p M Hwf Hp Hno Hsq Hreach). cbn [mbind result_bind].
  destruct (derive_raw_visibility_Ok r options p M Hwf Hp Hno Hsq Hreach) as ([acq rel] & Hraw & Hri).
  rewrite Hraw. cbn [mbind result_bind].
  destruct (lanes_by_node_Ok r options p M Hwf Hp Hno Hsq Hreach) as (L & HL & _ & HLd).
  rewrite HL. cbn [mbind result_bind].
  destruct (derive_loop_Ok r options p M Hwf Hp Hno Hsq Hreach boundary acq rel
    (ri_acq_len _ _ _ Hri) (ri_rel_len _ _ _ Hri) L HLd) as (s & Hs & Hinv).
  rewrite Hs. cbn [mbind result_bind]. split; [intros Hnil; by rewrite Hnil in Hlen|]. exists acq, rel. split; [done|].
  destruct Hinv. split; cbn; try done. by rewrite vi_nodes0.
Qed.

(** ** Executing the packets

    An execution of the derived packets assigns to the dispatch at every
    position the times it starts and ends. A queue launches its packets in
    order, and a packet with the barrier bit starts only after every earlier
    packet of its queue has completed. Nothing is assumed between queues. *)
Record execution (p : CompiledPlan) (v : DerivedVisibilityPlan) (start stop : nat → Z) : Prop := {
  ex_duration i : (start i ≤ stop i)%Z;
  ex_launch i j pi pj : i < j → dvp_dispatches v !! i = Some pi → dvp_dispatches v !! j = Some pj →
    ddp_lane pi = ddp_lane pj → (start i ≤ start j)%Z;
  ex_barrier i j pi pj : i < j → dvp_dispatches v !! i = Some pi → dvp_dispatches v !! j = Some pj →
    ddp_lane pi = ddp_lane pj → policy_barrier (ddp_header pj) = true → (stop i ≤ start j)%Z }.

Section execution.
Context (r : Recorder) (options : CompileOptions) (p : CompiledPlan) (boundary : ApiBoundary).
Context (acq rel : reasons) (v : DerivedVisibilityPlan) (start stop : nat → Z).
Context (Hwf : rec_wf r) (Hp : plan_of r options p).
Context (Hv : visibility_ok r p boundary acq rel v) (Hex : execution p v start stop).

Lemma policy_at i d : plan_dispatches p !! i = Some d →
  ∃ pol, dvp_dispatches v !! i = Some pol ∧
    policy_ok r p boundary acq rel (dvp_dispatches v) i d pol.
Proof using Hv.
  intros Hi. destruct (lookup_lt_is_Some_2 (dvp_dispatches v) i) as [pol Hpol].
  { rewrite (vo_len _ _ _ _ _ _ Hv). by eapply lookup_lt_Some. }
  exists pol. split; [done|]. by eapply (vo_policy _ _ _ _ _ _ Hv).
Qed.

(** Same-lane order through a barriered packet in between. *)
Lemma fenced_order i j di dj :
  plan_dispatches p !! i = Some di → plan_dispatches p !! j = Some dj → i < j →
  planned_lane di = planned_lane dj →
  fenced (dvp_dispatches v) i j (planned_lane dj) → (stop i ≤ start j)%Z.
Proof using Hv Hex.
  intros Hi Hj Hij Hl (b & pb & Hb & Hpb & Hlb & Hbar).
  destruct (policy_at i di Hi) as (pi & Hpi & Hoki). destruct (policy_at j dj Hj) as (pj & Hpj & Hokj).
  assert (ddp_lane pi = ddp_lane pb) as Hib by (rewrite (pk_lane _ _ _ _ _ _ _ _ _ Hoki); congruence).
  assert (stop i ≤ start b)%Z as H1 by (eapply (ex_barrier _ _ _ _ Hex i b); eauto; lia).
  destruct (decide (b = j)) as [->|Hne]; [done|].
  assert (start b ≤ start j)%Z as H2; [|lia].
  eapply (ex_launch _ _ _ _ Hex b j); [lia|done|done|].
  rewrite (pk_lane _ _ _ _ _ _ _ _ _ Hokj). done.
Qed.

(** A path of the graph between two dispatches of one lane. *)
Lemma same_lane_order i j di dj :
  plan_dispatches p !! i = Some di → plan_dispatches p !! j = Some dj → i < j → planned_lane di = planned_lane dj →
  tc (edge (edges r)) (planned_node di) (planned_node dj) → (stop i ≤ start j)%Z.
Proof using Hv Hex.
  intros Hi Hj Hij Hl Htc. destruct (policy_at j dj Hj) as (pj & Hpj & Hokj).
  eapply fenced_order; eauto. eapply (pk_same _ _ _ _ _ _ _ _ _ Hokj); eauto.
Qed.

(** A path goes forward in the list of dispatches. *)
Lemma tc_index u w : tc (edge (edges r)) u w → ∀ i j di dj,
  plan_dispatches p !! i = Some di → plan_dispatches p !! j = Some dj → planned_node di = u → planned_node dj = w → i < j.
Proof using Hwf Hp.
  assert (∀ i j di dj, plan_dispatches p !! i = Some di → plan_dispatches p !! j = Some dj →
    edge (edges r) (planned_node di) (planned_node dj) → i < j) as Hedge.
  { intros i j di dj Hi Hj He. by destruct (dependency_finishes_first r _ _ (po_greedy _ _ _ Hp) (po_nodes _ _ _ Hp)
      (po_order _ _ _ Hp) i j di dj Hi Hj He) as [? _]. }
  induction 1 as [u w He|u x w He Ht IH]; intros i j di dj Hi Hj <- <-; [by eapply Hedge|].
  assert (x ∈ planned_node <$> plan_dispatches p) as Hx by (apply (po_all _ _ _ Hp); by apply (wf_edges r Hwf _ x He)).
  apply list_elem_of_fmap in Hx as (dk & -> & [k Hk]%list_elem_of_lookup).
  pose proof (Hedge i k di dk Hi Hk He). pose proof (IH k j dk dj Hk Hj eq_refl eq_refl). lia.
Qed.

(** An edge between two lanes is a reason of the later dispatch's barrier. *)
Lemma cross_reason i j di dj :
  plan_dispatches p !! i = Some di → plan_dispatches p !! j = Some dj → planned_lane di ≠ planned_lane dj →
  edge (edges r) (planned_node di) (planned_node dj) → ∃ pj rs, dvp_dispatches v !! j = Some pj ∧
    policy_barrier (ddp_header pj) = true ∧ ddp_barrier pj = Required rs ∧ CrossLaneDependency (planned_node di) ∈ rs.
Proof using Hp Hv.
  intros Hi Hj Hl He. destruct (policy_at j dj Hj) as (pj & Hpj & Hokj).
  destruct (pk_cross _ _ _ _ _ _ _ _ _ Hokj di) as (rs & Hrs & Hin); [by eapply list_elem_of_lookup_2| |done|].
  - rewrite (planned_deps _ _ _ Hp dj) by by eapply list_elem_of_lookup_2. by apply elem_of_predecessors.
  - exists pj, rs. split; [done|]. split; [|done]. pose proof (pk_decision _ _ _ _ _ _ _ _ _ Hokj) as Hdec. rewrite Hrs in Hdec. apply Hdec.
Qed.
End execution.

(** C12: the barrier bits that are left after elision order a lane by themselves.
    In every execution of the packets of a compiled plan that follows the two
    HSA rules of a queue (packets start in order, one with the barrier bit waits
    for its queue), a dispatch that precedes another one of its lane in the
    dependency graph, directly or through other lanes, ends before the other
    starts, and so does the earlier of any two dispatches of a lane that conflict
    on memory. Of a dependency on another lane nothing is claimed here but that
    the dispatch gets a barrier and names the dependency as a reason for it. *)
Theorem derived_order_sound sha256 r options p boundary v i j di dj :
  recorded r → option_lane_count options ≠ 0 → compile sha256 r options = Ok p →
  derive_aql_visibility p boundary = Ok v →
  plan_dispatches p !! i = Some di → plan_dispatches p !! j = Some dj →
  (planned_lane di = planned_lane dj →
    tc (edge (edges r)) (planned_node di) (planned_node dj) ∨
      (i < j ∧ conflicting (planned_accesses di) (planned_accesses dj)) →
    ∀ start stop, execution p v start stop → (stop i ≤ start j)%Z) ∧
  (planned_lane di ≠ planned_lane dj → edge (edges r) (planned_node di) (planned_node dj) →
    ∃ pj rs, dvp_dispatches v !! j = Some pj ∧ policy_barrier (ddp_header pj) = true ∧
      ddp_barrier pj = Required rs ∧ CrossLaneDependency (planned_node di) ∈ rs).
Proof.
  intros Hr Hl Hc Hd Hi Hj.
  destruct (compile_Ok _ _ _ _ Hr Hl Hc) as (Hwf & Hno & Hp & _).
  pose proof (derive_total r options p boundary Hwf Hp Hno) as Ht. rewrite Hd in Ht.
  destruct Ht as (_ & acq & rel & _ & Hv). split; [|by eapply cross_reason].
  intros Hlane Hord start stop Hex.
  assert (tc (edge (edges r)) (planned_node di) (planned_node dj)) as Htc.
  { destruct Hord as [?|[Hij [c Hcc]%conflicting_iff]]; [done|].
    by eapply (conflict_forward r options p Hwf Hp Hno i j di dj c). }
  eapply same_lane_order; eauto. by eapply tc_index.
Qed.

Lemma scope_of_nonempty rs (x : VisibilityReason) : x ∈ rs → scope_of rs = ScopeAgent.
Proof. destruct rs; [by intros ?%not_elem_of_nil|done]. Qed.

Lemma max_scope_le a b :
  (scope_value a ≤ scope_value (max_scope a b) ∧ scope_value b ≤ scope_value (max_scope a b))%Z.
Proof. unfold max_scope. destruct (Z.leb_spec (scope_value b) (scope_value a)); lia. Qed.

(** The fences of a dispatch that writes and one that reads afterwards. *)
Lemma raw_policies r p boundary acq rel v i j ov di dj pi pj :
  raw_inv p (index_pairs (length (plan_dispatches p))) (acq, rel) → visibility_ok r p boundary acq rel v →
  raw p i j ov → plan_dispatches p !! i = Some di → plan_dispatches p !! j = Some dj →
  dvp_dispatches v !! i = Some pi → dvp_dispatches v !! j = Some pj →
  policy_release (ddp_header pi) = ScopeAgent ∧
  (scope_value ScopeAgent ≤ scope_value (policy_acquire (ddp_header pj)))%Z ∧
  RawConsumer (planned_node di) ov ∈ ddp_acquire_reasons pj.
Proof.
  intros Hri Hv Hraw Hi Hj Hpi Hpj. pose proof (vo_policy _ _ _ _ _ _ Hv i di pi Hi Hpi) as Hok.
  pose proof (vo_policy _ _ _ _ _ _ Hv j dj pj Hj Hpj) as Hokj. pose proof (lookup_lt_Some _ _ _ Hi) as Hin.
  pose proof (lookup_lt_Some _ _ _ Hj) as Hjn.
  pose proof (ri_acq_len _ _ _ Hri) as Hal. pose proof (ri_rel_len _ _ _ Hri) as Hrl. cbn [fst snd] in Hal, Hrl.
  destruct (lookup_lt_is_Some_2 acq j) as [aj Haj]; [by rewrite Hal|].
  destruct (lookup_lt_is_Some_2 rel i) as [ri Hri']; [by rewrite Hrl|].
  assert ((i, j) ∈ index_pairs (length (plan_dispatches p))) as Hpair.
  { destruct Hraw as (_ & _ & _ & _ & Hij & _). apply elem_of_index_pairs. lia. }
  destruct (proj2 (ri_acq _ _ _ Hri j (RawConsumer (planned_node di) ov))) as (l & Hl' & Hx).
  { exists i, ov, (planned_node di). split; [done|]. split; [done|]. split; [|done]. by exists di. }
  cbn in Hl'. rewrite Haj in Hl'. injection Hl' as <-. split; [|split].
  - rewrite (pk_release _ _ _ _ _ _ _ _ _ Hok ri Hri').
    destruct (proj2 (ri_rel _ _ _ Hri i (RawProducer (planned_node dj) ov))) as (l & Hl' & Hy).
    { exists j, ov, (planned_node dj). split; [done|]. split; [done|]. split; [|done]. by exists dj. }
    cbn in Hl'. rewrite Hri' in Hl'. injection Hl' as <-. by eapply scope_of_nonempty.
  - rewrite (pk_acquire _ _ _ _ _ _ _ _ _ Hokj aj Haj), (scope_of_nonempty _ _ Hx).
    destruct (lane_prefix p j (planned_lane dj)); [apply max_scope_le|done].
  - by apply (pk_reasons _ _ _ _ _ _ _ _ _ Hokj aj).
Qed.

Lemma overlap_raw p i j di dj a b : i < j → plan_dispatches p !! i = Some di → plan_dispatches p !! j = Some dj →
  a ∈ planned_accesses di → b ∈ planned_accesses dj → access_mode a = Write → access_mode b = Read →
  overlaps (access_region a) (access_region b) = true → ∃ ov, raw p i j ov.
Proof.
  intros Hij Hi Hj Ha Hb Hma Hmb Hov.
  destruct (intersection (access_region a) (access_region b)) as [ov|] eqn:Eint; [|apply intersection_None in Eint; congruence].
  exists ov, di, dj. split; [done|]. split; [done|]. split; [done|]. apply elem_of_access_conflicts. exists a, b. by rewrite Hma, Hmb.
Qed.

(** C13: the derived fences publish what is read. When a dispatch writes a
    region that a later dispatch of the plan reads, the writer's packet
    releases and the reader's packet acquires at least at agent scope; the
    first packet of every lane acquires at least at the entry boundary's scope;
    and a packet releases only if some later dispatch reads what it writes. *)
Theorem derived_fences_sound sha256 r options p boundary v i di pi :
  recorded r → option_lane_count options ≠ 0 → compile sha256 r options = Ok p →
  derive_aql_visibility p boundary = Ok v →
  plan_dispatches p !! i = Some di → dvp_dispatches v !! i = Some pi →
  (∀ j dj pj a b, i < j → plan_dispatches p !! j = Some dj → dvp_dispatches v !! j = Some pj →
    a ∈ planned_accesses di → b ∈ planned_accesses dj →
    access_mode a = Write → access_mode b = Read →
    overlaps (access_region a) (access_region b) = true →
    policy_release (ddp_header pi) = ScopeAgent ∧
    (scope_value ScopeAgent ≤ scope_value (policy_acquire (ddp_header pj)))%Z) ∧
  (lane_prefix p i (planned_lane di) = [] →
    (scope_value (entry_scope (entry_boundary boundary))
      ≤ scope_value (policy_acquire (ddp_header pi)))%Z) ∧
  (policy_release (ddp_header pi) ≠ ScopeNone → ∃ j ov, raw p i j ov).
Proof.
  intros Hr Hl Hc Hd Hi Hpi.
  destruct (compile_Ok _ _ _ _ Hr Hl Hc) as (Hwf & Hno & Hp & _).
  pose proof (derive_total r options p boundary Hwf Hp Hno) as Ht. rewrite Hd in Ht.
  destruct Ht as (_ & acq & rel & Hri & Hv).
  pose proof (vo_policy _ _ _ _ _ _ Hv i di pi Hi Hpi) as Hok.
  pose proof (lookup_lt_Some _ _ _ Hi) as Hin.
  pose proof (ri_acq_len _ _ _ Hri) as Hal. pose proof (ri_rel_len _ _ _ Hri) as Hrl.
  cbn [fst snd] in Hal, Hrl.
  destruct (lookup_lt_is_Some_2 acq i) as [ai Hai]; [by rewrite Hal|].
  destruct (lookup_lt_is_Some_2 rel i) as [ri Hri']; [by rewrite Hrl|].
  split; [|split].
  - intros j dj pj a b Hij Hj Hpj Ha Hb Hma Hmb Hov.
    destruct (overlap_raw p i j di dj a b) as [ov Hraw]; [done..|].
    destruct (raw_policies _ _ _ _ _ _ _ _ _ _ _ _ _ Hri Hv Hraw Hi Hj Hpi Hpj) as (? & ? & _). done.
  - intros Hnil. rewrite (pk_acquire _ _ _ _ _ _ _ _ _ Hok ai Hai), Hnil. apply max_scope_le.
  - rewrite (pk_release _ _ _ _ _ _ _ _ _ Hok ri Hri'). destruct ri as [|x ri]; [done|]. intros _.
    destruct (proj1 (ri_rel _ _ _ Hri i x)) as (j & ov & w & _ & Hraw & _).
    { exists (x :: ri). split; [done|]. left. }
    by exists j, ov.
Qed.

Lemma elem_of_consolidations l c :
  c ∈ consolidations l ↔ ∃ covered, l !! lcp_lane c = Some covered ∧ covered ≠ [] ∧
    c = mkLaneConsolidationPolicy (lcp_lane c) consolidation_header covered.
Proof.
  unfold consolidations. rewrite list_elem_of_omap. split.
  - intros ([lane [|x covered]] & Hin%elem_of_enumerate & H); [done|]. injection H as <-.
    exists (x :: covered). done.
  - intros (covered & Hl & Hne & Hc). exists (lcp_lane c, covered).
    split; [by apply elem_of_enumerate|]. destruct covered; [done|]. by rewrite <- Hc.
Qed.

(** Deriving the visibility of a compiled plan never panics and never
    reports an unordered conflict; it fails only for an empty plan. Every
    dispatch is covered by the consolidation packet of its lane, which is
    barriered and lists exactly that lane's nodes in submission order, and the
    terminal packet waits for every such lane and releases at the exit
    boundary's scope. *)
Theorem derive_total_and_covers sha256 r options p boundary :
  recorded r → option_lane_count options ≠ 0 → compile sha256 r options = Ok p →
  match derive_aql_visibility p boundary with
  | Ok v =>
      (∀ d, d ∈ plan_dispatches p → ∃ c, c ∈ dvp_lane_consolidations v ∧
        lcp_lane c = planned_lane d ∧ planned_node d ∈ lcp_covered_nodes c) ∧
      (∀ c, c ∈ dvp_lane_consolidations v →
        lcp_header c = consolidation_header ∧
        lcp_covered_nodes c = planned_node <$>
          filter (λ d, planned_lane d = lcp_lane c) (plan_dispatches p) ∧
        lcp_lane c ∈ tvp_lanes (dvp_terminal v)) ∧
      tvp_header (dvp_terminal v) =
        mkHeaderPolicy true ScopeNone (exit_scope (exit_boundary boundary))
  | Err EmptyPlan => plan_dispatches p = []
  | _ => False
  end.
Proof.
  intros Hr Hl Hc. destruct (compile_Ok _ _ _ _ Hr Hl Hc) as (Hwf & Hno & Hp & _).
  pose proof (derive_total r options p boundary Hwf Hp Hno) as Ht.
  destruct (derive_aql_visibility p boundary) as [v|e|]; [|by destruct e|done].
  destruct Ht as (_ & acq & rel & _ & [_ _ _ Hcon Hterm]).
  assert (∀ lane, lane < plan_lane_count p →
    (lane_prefix p (length (plan_dispatches p)) <$> seq 0 (plan_lane_count p)) !! lane =
    Some (planned_node <$> filter (λ d, planned_lane d = lane) (plan_dispatches p))) as Hlook.
  { intros lane Hlane. rewrite list_lookup_fmap, lookup_seq_lt by done. cbn.
    unfold lane_prefix. by rewrite firstn_all. }
  rewrite Hterm. cbn [tvp_lanes tvp_header]. split; [|split; [|done]].
  - intros d Hd. pose proof (planned_lane_lt _ _ _ Hp d Hd) as Hlane.
    assert (planned_node d ∈ planned_node <$>
      filter (λ d', planned_lane d' = planned_lane d) (plan_dispatches p)) as Hin.
    { apply list_elem_of_fmap. exists d. split; [done|]. by apply list_elem_of_filter. }
    exists (mkLaneConsolidationPolicy (planned_lane d) consolidation_header
      (planned_node <$> filter (λ d', planned_lane d' = planned_lane d) (plan_dispatches p))).
    split; [|done]. rewrite Hcon. apply elem_of_consolidations. cbn. eexists.
    split; [by apply Hlook|]. split; [|done]. intros Hnil. rewrite Hnil in Hin.
    by apply not_elem_of_nil in Hin.
  - intros c Hin. split; [|split; [|apply list_elem_of_fmap; by exists c]];
      rewrite Hcon in Hin; apply elem_of_consolidations in Hin as (covered & Hlk & _ & ->).
    + done.
    + cbn. pose proof (lookup_lt_Some _ _ _ Hlk) as Hlt. rewrite length_fmap, length_seq in Hlt.
      rewrite Hlook in Hlk by done. by injection Hlk as <-.
Qed.

(** ** The concrete plan *)

Definition demo_visibility : DerivedVisibilityPlan :=
  mkDerivedVisibilityPlan ApiBoundary_default
    [mkDerivedDispatchPolicy demo_project 0 (mkHeaderPolicy false ScopeSystem ScopeAgent)
       (Elided None []) [EntryReason HostToAql] [RawProducer demo_consume demo_output];
     mkDerivedDispatchPolicy demo_consume 0 (mkHeaderPolicy true ScopeAgent ScopeNone)
       (Required [OrderedAfter demo_project; MemoryConflict demo_project ReadAfterWrite demo_output])
       [RawConsumer demo_project demo_output] []]
    [mkLaneConsolidationPolicy 0 consolidation_header [demo_project; demo_consume]]
    (mkTerminalVisibilityPolicy (mkHeaderPolicy true ScopeNone ScopeSystem) [0]
       (ExitReason AqlToHost)).

Lemma demo_derives : derive_aql_visibility demo_plan ApiBoundary_default = Ok demo_visibility.
Proof. vm_compute. reflexivity. Qed.

Lemma derived_fences_sound_witness : ∃ j ov, raw demo_plan 0 j ov.
Proof.
  refine (proj2 (proj2 (derived_fences_sound demo_sha256 demo demo_options demo_plan
    ApiBoundary_default demo_visibility 0 _ _ demo_recorded _ demo_compiles demo_derives
    eq_refl eq_refl)) _); discriminate.
Defined.

Lemma derive_total_and_covers_witness :
  tvp_header (dvp_terminal demo_visibility) = mkHeaderPolicy true ScopeNone ScopeSystem.
Proof.
  assert (option_lane_count demo_options ≠ 0) as Hl by discriminate.
  pose proof (derive_total_and_covers demo_sha256 demo demo_options demo_plan ApiBoundary_default
    demo_recorded Hl demo_compiles) as H.
  rewrite demo_derives in H. apply H.
Defined.
