(* ===== verification/Pm4.v ===== *)
(** PM4 command buffers (src/crates/redline-rocr/src/pm4.rs).

    A command buffer is the vector of 32-bit command words with the register
    values it knows to be live. [set_sh_regs] omits writes of values that are
    already live; the packet walk of the timestamp and attribution passes is
    [walk], on fuel one more than the number of words (every packet consumes at
    least one). The second half of the file gives the words a meaning, a
    register file and the sequence of dispatches and other commands the command
    processor sees, and proves that the omissions are invisible. *)

From S2P Require Import Prelude Ir Packet.

Definition PACKET3_SET_SH_REG : Z := 0x76.
Definition PACKET3_DISPATCH_DIRECT : Z := 0x15.
Definition PACKET3_COPY_DATA : Z := 0x40.
Definition PACKET3_RELEASE_MEM : Z := 0x49.
Definition PACKET3_EVENT_WRITE : Z := 0x46.
Definition PACKET3_ACQUIRE_MEM : Z := 0x58.

Definition COMPUTE_NUM_THREAD_X : Z := 0x207.
Definition COMPUTE_PGM_LO : Z := 0x20c.
Definition COMPUTE_PGM_RSRC1 : Z := 0x212.
Definition COMPUTE_RESOURCE_LIMITS : Z := 0x215.
Definition COMPUTE_TMPRING_SIZE : Z := 0x216.
Definition COMPUTE_PGM_RSRC3_GFX12 : Z := 0x223.
Definition COMPUTE_STATIC_THREAD_MGMT_SE0 : Z := 0x230.
Definition COMPUTE_USER_DATA_0 : Z := 0x240.

Definition LDS_SIZE_MASK : Z := 0x00ff8000.
Definition LDS_SIZE_SHIFT : Z := 15.
Definition GFX12_LDS_GRANULE : Z := 512.

Definition ENABLE_SGPR_KERNARG_SEGMENT_PTR : Z := Z.shiftl 1 3.
Definition ENABLE_WAVEFRONT_SIZE32 : Z := Z.shiftl 1 10.
Definition SUPPORTED_KERNEL_PROPERTIES : Z :=
  Z.lor ENABLE_SGPR_KERNARG_SEGMENT_PTR ENABLE_WAVEFRONT_SIZE32.
Definition DISPATCH_INITIATOR_BASE : Z :=
  Z.lor (Z.lor (Z.shiftl 1 0) (Z.shiftl 1 2)) (Z.shiftl 1 5).
Definition DISPATCH_INITIATOR_CS_W32_EN : Z := Z.shiftl 1 15.

Inductive Pm4BuildError : Type :=
| MissingKernelDescriptor
| ScratchUnsupported (private_bytes : Z) (has_dynamic_callstack : bool)
| UnsupportedKernelProperties (bits : Z)
| NullKernargPointer
| GroupSegmentOverflow
| GroupSegmentTooLarge (bytes : Z)
| MalformedStream (dword : nat).

(** [KernelPm4Metadata] (src/crates/redline-rocr/src/runtime.rs) *)
Record KernelPm4Metadata := mkKernelPm4Metadata {
  code_entry : Z;
  compute_pgm_rsrc1 : Z;
  compute_pgm_rsrc2 : Z;
  compute_pgm_rsrc3 : Z;
  kernel_code_properties : Z }.

(** ** The command buffer *)

Record Gfx12Pm4CommandBuffer := mkBuffer {
  dwords : list Z;
  (** [BTreeMap] of the live register values, when they are tracked. *)
  register_state : option (list (Z * Z));
  cache_dynamic_registers : bool }.

(** [Gfx12Pm4CommandBuffer::new], [new_stateful], [new_static_stateful] *)
Definition Buffer_new : Gfx12Pm4CommandBuffer := mkBuffer [] None false.
Definition Buffer_new_stateful : Gfx12Pm4CommandBuffer := mkBuffer [] (Some []) true.
Definition Buffer_new_static_stateful : Gfx12Pm4CommandBuffer := mkBuffer [] (Some []) false.

(** [self.dwords.extend_from_slice(words)] *)
Definition extend_dwords (b : Gfx12Pm4CommandBuffer) (words : list Z) : Gfx12Pm4CommandBuffer :=
  mkBuffer (dwords b ++ words) (register_state b) (cache_dynamic_registers b).

(** [packet3] *)
Definition packet3 (opcode body_dwords : Z) (compute : bool) : Z :=
  Z.lor (Z.lor (Z.lor (Z.shiftl 3 30) (wrap32 (Z.shiftl (body_dwords - 1) 16)))
    (wrap32 (Z.shiftl opcode 8))) (if compute then Z.shiftl 1 1 else 0).

(** [dispatch_initiator] *)
Definition dispatch_initiator (wave32 : bool) : Z :=
  Z.lor DISPATCH_INITIATOR_BASE (if wave32 then DISPATCH_INITIATOR_CS_W32_EN else 0).

(** [emit_acquire_gcr] *)
Definition emit_acquire_gcr (b : Gfx12Pm4CommandBuffer) (gcr_cntl : Z) : Gfx12Pm4CommandBuffer :=
  extend_dwords b [packet3 PACKET3_ACQUIRE_MEM 7 false; 0; U32_MAX; 0xff; 0; 0; 4; gcr_cntl]%Z.

(** [acquire_system] *)
Definition acquire_system (b : Gfx12Pm4CommandBuffer) : Gfx12Pm4CommandBuffer :=
  extend_dwords b [packet3 PACKET3_ACQUIRE_MEM 7 false; 0; U32_MAX; 0xff; 0; 0; 4;
    Z.lor (Z.lor (Z.lor (Z.lor (Z.lor (Z.lor (Z.lor (Z.lor (Z.lor
      (Z.shiftl 1 16) (Z.shiftl 1 15)) (Z.shiftl 1 14)) (Z.shiftl 1 9)) (Z.shiftl 1 8))
      (Z.shiftl 1 7)) (Z.shiftl 1 6)) (Z.shiftl 1 5)) (Z.shiftl 1 4)) 1]%Z.

(** [acquire_system_gfx12], [acquire_inter_node_gfx12] *)
Definition acquire_system_gfx12 (b : Gfx12Pm4CommandBuffer) := emit_acquire_gcr b 0x1c1d1.
Definition acquire_inter_node_gfx12 (b : Gfx12Pm4CommandBuffer) := emit_acquire_gcr b 0x10180.

(** [wait_compute_idle] *)
Definition wait_compute_idle (b : Gfx12Pm4CommandBuffer) : Gfx12Pm4CommandBuffer :=
  extend_dwords b [packet3 PACKET3_EVENT_WRITE 1 false; 0x407%Z].

(** [copy_gpu_timestamp], [release_gpu_timestamp] *)
Definition copy_gpu_timestamp (b : Gfx12Pm4CommandBuffer) (address : Z) : Gfx12Pm4CommandBuffer :=
  extend_dwords b [packet3 PACKET3_COPY_DATA 5 false;
    Z.lor (Z.lor (Z.lor 9 (Z.shiftl 5 8)) (Z.shiftl 1 16)) (Z.shiftl 1 20);
    0; 0; wrap32 address; wrap32 (Z.shiftr address 32)]%Z.

Definition release_gpu_timestamp (b : Gfx12Pm4CommandBuffer) (address : Z)
    : Gfx12Pm4CommandBuffer :=
  extend_dwords b [packet3 PACKET3_RELEASE_MEM 7 false; Z.lor 40 (Z.shiftl 5 8);
    Z.lor (Z.shiftl 3 24) (Z.shiftl 3 29); wrap32 address; wrap32 (Z.shiftr address 32);
    0; 0; 0]%Z.

(** [with_gpu_timestamps] *)
Definition with_gpu_timestamps (b : Gfx12Pm4CommandBuffer) (start_address end_address : Z)
    : Gfx12Pm4CommandBuffer :=
  release_gpu_timestamp (extend_dwords (copy_gpu_timestamp Buffer_new start_address) (dwords b))
    end_address.

(** ** Register writes *)

(** [emit_set_sh_regs] *)
Definition emit_set_sh_regs (b : Gfx12Pm4CommandBuffer) (first : Z) (values : list Z)
    : Gfx12Pm4CommandBuffer :=
  extend_dwords b (packet3 PACKET3_SET_SH_REG (1 + Z.of_nat (length values)) true :: first :: values).

(** The loop state of [set_sh_regs]: live values, the open run, closed runs. *)
Record run_state := mkRunState {
  live : list (Z * Z);
  run_first : option Z;
  run_values : list Z;
  changed_runs : list (Z * list Z) }.

(** One value of the loop of [set_sh_regs]. *)
Definition track_value (first : Z) (s : run_state) (entry : nat * Z) : run_state :=
  let '(offset, value) := entry in
  let register := (first + Z.of_nat offset)%Z in
  if bool_decide (bmap_get register (live s) = Some value) then
    match run_first s with
    | Some rf => mkRunState (live s) None [] (changed_runs s ++ [(rf, run_values s)])
    | None => s
    end
  else
    mkRunState (bmap_insert register value (live s))
      (Some (default register (run_first s))) (run_values s ++ [value]) (changed_runs s).

(** Closing the last run. *)
Definition all_runs (s : run_state) : list (Z * list Z) :=
  match run_first s with
  | Some rf => changed_runs s ++ [(rf, run_values s)]
  | None => changed_runs s
  end.

Definition is_static_register (first : Z) : bool :=
  ((first =? COMPUTE_TMPRING_SIZE) || (first =? COMPUTE_RESOURCE_LIMITS)
   || (first =? COMPUTE_STATIC_THREAD_MGMT_SE0))%Z.

(** [set_sh_regs] *)
Definition set_sh_regs (b : Gfx12Pm4CommandBuffer) (first : Z) (values : list Z)
    : Gfx12Pm4CommandBuffer :=
  if negb (cache_dynamic_registers b) && negb (is_static_register first)
  then emit_set_sh_regs b first values
  else
    match register_state b with
    | None => emit_set_sh_regs b first values
    | Some state =>
        let s := foldl (track_value first) (mkRunState state None [] []) (enumerate values) in
        foldl (λ b '(rf, rv), emit_set_sh_regs b rf rv)
          (mkBuffer (dwords b) (Some (live s)) (cache_dynamic_registers b)) (all_runs s)
    end.

(** ** Dispatch *)

(** [x.div_ceil(y)] *)
Definition div_ceil (x y : Z) : Z := ((x + y - 1) / y)%Z.

(** The group-segment field of [COMPUTE_PGM_RSRC2]. *)
Definition encode_lds (rsrc2 lds_blocks : Z) : Z :=
  Z.lor (Z.ldiff rsrc2 LDS_SIZE_MASK) (wrap32 (Z.shiftl lds_blocks LDS_SIZE_SHIFT)).

(** [dispatch] *)
Definition Buffer_dispatch (b : Gfx12Pm4CommandBuffer) (loader : KernelMetadata)
    (kernel_pm4 : option KernelPm4Metadata) (geometry : LaunchGeometry)
    (dynamic_group_bytes kernarg_address : Z) : result Pm4BuildError Gfx12Pm4CommandBuffer :=
  err_if (negb (private_segment_size loader =? 0)%Z || dynamic_callstack loader)
    (ScratchUnsupported (private_segment_size loader) (dynamic_callstack loader)) ;;
  pm4 ← ok_or MissingKernelDescriptor kernel_pm4;
  let unsupported := Z.ldiff (kernel_code_properties pm4) SUPPORTED_KERNEL_PROPERTIES in
  err_if (negb (unsupported =? 0)%Z) (UnsupportedKernelProperties unsupported) ;;
  let wave32 := negb (Z.land (kernel_code_properties pm4) ENABLE_WAVEFRONT_SIZE32 =? 0)%Z in
  let needs_kernarg :=
    negb (Z.land (kernel_code_properties pm4) ENABLE_SGPR_KERNARG_SEGMENT_PTR =? 0)%Z in
  err_if (needs_kernarg && (kernarg_address =? 0)%Z) NullKernargPointer ;;
  total_group_bytes ← ok_or GroupSegmentOverflow
    (checked_add U32_MAX (group_segment_size loader) dynamic_group_bytes);
  let lds_blocks := div_ceil total_group_bytes GFX12_LDS_GRANULE in
  err_if (Z.shiftr LDS_SIZE_MASK LDS_SIZE_SHIFT <? lds_blocks)%Z
    (GroupSegmentTooLarge total_group_bytes) ;;
  let rsrc2 := encode_lds (compute_pgm_rsrc2 pm4) lds_blocks in
  let b := set_sh_regs b COMPUTE_PGM_LO
    [wrap32 (Z.shiftr (code_entry pm4) 8); wrap32 (Z.shiftr (code_entry pm4) 40)] in
  let b := set_sh_regs b COMPUTE_PGM_RSRC1 [compute_pgm_rsrc1 pm4; rsrc2] in
  let b := set_sh_regs b COMPUTE_PGM_RSRC3_GFX12 [compute_pgm_rsrc3 pm4] in
  let b := set_sh_regs b COMPUTE_TMPRING_SIZE [0%Z] in
  let b := set_sh_regs b COMPUTE_NUM_THREAD_X
    [dim_x (workgroup geometry); dim_y (workgroup geometry); dim_z (workgroup geometry)] in
  let b := set_sh_regs b COMPUTE_RESOURCE_LIMITS [0x3ff%Z] in
  let b := set_sh_regs b COMPUTE_STATIC_THREAD_MGMT_SE0 (replicate 4 U32_MAX) in
  let b := if needs_kernarg
    then set_sh_regs b COMPUTE_USER_DATA_0
      [wrap32 kernarg_address; wrap32 (Z.shiftr kernarg_address 32)]
    else b in
  Ok (extend_dwords b [packet3 PACKET3_DISPATCH_DIRECT 4 true;
    dim_x (grid_workitems geometry); dim_y (grid_workitems geometry);
    dim_z (grid_workitems geometry); dispatch_initiator wave32]).

(** ** The packet walk *)

(** The header at [cursor] and the end of its packet. *)
Definition packet_at (words : list Z) (cursor : nat) : result Pm4BuildError (Z * nat) :=
  header ← index words cursor;
  err_if (negb (Z.shiftr header 30 =? 3)%Z) (MalformedStream cursor) ;;
  let body := Z.to_nat (Z.land (Z.shiftr header 16) 0x3fff) + 1 in
  let next := cursor + (1 + body) in
  err_if (bool_decide (length words < next)) (MalformedStream cursor) ;;
  Ok (header, next).

(** [while cursor < words.len() { ... cursor = next; }], with the body [f] on
    the state, the header and the words of the packet. *)
Fixpoint walk {S} (f : S → Z → list Z → result Pm4BuildError S) (words : list Z) (fuel : nat)
    (cursor : nat) (s : S) : result Pm4BuildError S :=
  match fuel with
  | O => Panic
  | S fuel =>
    if bool_decide (cursor < length words) then
      '(header, next) ← packet_at words cursor;
      s ← f s header (take (next - cursor) (drop cursor words));
      walk f words fuel next s
    else Ok s
  end.

Definition opcode_of (header : Z) : Z := Z.land (Z.shiftr header 8) 0xff.

(** [timestamp_slot_count] *)
Definition timestamp_slot_count (b : Gfx12Pm4CommandBuffer) : result Pm4BuildError nat :=
  walk (λ slots header _,
      Ok (if (opcode_of header =? PACKET3_DISPATCH_DIRECT)%Z then S slots else slots))
    (dwords b) (S (length (dwords b))) 0 1.

(** [base_address + slot * 8] on [u64]. *)
Definition slot_address (base_address : Z) (slot : nat) : result Pm4BuildError Z :=
  expect (checked_add U64_MAX base_address (Z.of_nat slot * 8)).

(** One packet of the loop of [with_per_dispatch_timestamps]. *)
Definition stamp_packet (base_address : Z) (s : Gfx12Pm4CommandBuffer * nat) (header : Z)
    (words : list Z) : result Pm4BuildError (Gfx12Pm4CommandBuffer * nat) :=
  let '(timed, slot) := s in
  let timed := extend_dwords timed words in
  if (opcode_of header =? PACKET3_DISPATCH_DIRECT)%Z then
    address ← slot_address base_address slot;
    Ok (copy_gpu_timestamp timed address, S slot)
  else Ok (timed, slot).

(** [with_per_dispatch_timestamps] *)
Definition with_per_dispatch_timestamps (b : Gfx12Pm4CommandBuffer) (base_address : Z)
    : result Pm4BuildError Gfx12Pm4CommandBuffer :=
  '(timed, _) ← walk (stamp_packet base_address) (dwords b) (S (length (dwords b))) 0
    (copy_gpu_timestamp Buffer_new base_address, 1);
  Ok timed.

Record Pm4DispatchSpanAttribution := mkSpan {
  entry_acquire : bool; span_wait_compute_idle : bool; acquire_inter_node : bool }.

Definition span_default : Pm4DispatchSpanAttribution := mkSpan false false false.

(** One packet of the loop of [dispatch_span_attributions]. *)
Definition attribute_packet
    (s : list Pm4DispatchSpanAttribution * Pm4DispatchSpanAttribution * bool) (header : Z)
    : list Pm4DispatchSpanAttribution * Pm4DispatchSpanAttribution * bool :=
  let '(attributions, pending, saw_dispatch) := s in
  let op := opcode_of header in
  if (op =? PACKET3_DISPATCH_DIRECT)%Z then (attributions ++ [pending], span_default, true)
  else if (op =? PACKET3_EVENT_WRITE)%Z then
    (attributions, mkSpan (entry_acquire pending) true (acquire_inter_node pending), saw_dispatch)
  else if (op =? PACKET3_ACQUIRE_MEM)%Z && negb saw_dispatch then
    (attributions, mkSpan true (span_wait_compute_idle pending) (acquire_inter_node pending),
     saw_dispatch)
  else if (op =? PACKET3_ACQUIRE_MEM)%Z then
    (attributions, mkSpan (entry_acquire pending) (span_wait_compute_idle pending) true,
     saw_dispatch)
  else s.

(** [dispatch_span_attributions] *)
Definition dispatch_span_attributions (b : Gfx12Pm4CommandBuffer)
    : result Pm4BuildError (list Pm4DispatchSpanAttribution) :=
  '(attributions, _, _) ← walk (λ s header _, Ok (attribute_packet s header))
    (dwords b) (S (length (dwords b))) 0 ([], span_default, false);
  Ok attributions.

(** [as_bytes], [len_dwords] *)
Definition as_bytes (b : Gfx12Pm4CommandBuffer) : list Z := dwords b ≫= le_bytes 4.
Definition len_dwords (b : Gfx12Pm4CommandBuffer) : Z := wrap32 (Z.of_nat (length (dwords b))).

(** ** Packets of a stream *)

(** A packet is its header word followed by the body its header announces. *)
Definition packet_wf (pk : list Z) : Prop :=
  ∃ h body, pk = h :: body ∧ Z.shiftr h 30 = 3%Z ∧
    length body = Z.to_nat (Z.land (Z.shiftr h 16) 0x3fff) + 1.

Definition header_of (pk : list Z) : Z := default 0%Z (head pk).

Lemma packet3_fields op body compute :
  (0 ≤ op < 256 → 1 ≤ body ≤ 16384 →
   Z.shiftr (packet3 op body compute) 30 = 3 ∧
   Z.land (Z.shiftr (packet3 op body compute) 16) 0x3fff = body - 1 ∧
   opcode_of (packet3 op body compute) = op)%Z.
Proof.
  intros Hop Hb. unfold packet3, opcode_of.
  set (c := if compute then Z.shiftl 1 1 else 0%Z).
  assert (0 ≤ c < 2 ^ 8)%Z as Hc by (subst c; destruct compute; vm_compute; intuition congruence).
  assert (∀ x, 0 ≤ x < 4294967296 → wrap32 x = x)%Z as Hw by (intros; by apply Z.mod_small).
  assert (Z.shiftl (body - 1) 16 = (body - 1) * 65536 ∧ Z.shiftl op 8 = op * 256)%Z as [Hs1 Hs2]
    by (by rewrite !Z.shiftl_mul_pow2 by lia).
  rewrite !Hw by lia.
  rewrite <- !Z.lor_assoc, (lor_shiftl_add 8 op c), (lor_shiftl_add 16 (body - 1)),
    (lor_shiftl_add 30 3) by lia.
  rewrite !Z.shiftr_div_pow2 by lia. change 0x3fff%Z with (Z.ones 14). change 0xff%Z with (Z.ones 8).
  rewrite !Z.land_ones by lia.
  split; [|split]; Z.div_mod_to_equations; lia.
Qed.

Lemma packet3_wf op compute body :
  (0 ≤ op < 256)%Z → 1 ≤ length body → (Z.of_nat (length body) ≤ 16384)%Z →
  packet_wf (packet3 op (Z.of_nat (length body)) compute :: body).
Proof.
  intros Hop H1 H2. destruct (packet3_fields op (Z.of_nat (length body)) compute) as (Ha & Hb & _);
    [lia..|].
  eexists _, body. split; [done|]. split; [done|]. rewrite Hb. lia.
Qed.

(** Prefix [words] of the stream at [cursor] is a packet, or the walk stops. *)
Lemma packet_at_wf done pk rest :
  packet_wf pk →
  packet_at (done ++ pk ++ rest) (length done) = Ok (header_of pk, length done + length pk).
Proof.
  intros (h & body & -> & Hh & Hl). unfold packet_at.
  assert ((done ++ (h :: body) ++ rest) !! length done = Some h) as Hlk
    by by apply list_lookup_middle.
  rewrite (proj2 (index_Ok _ _ _) Hlk). cbn [mbind result_bind]. rewrite Hh. cbn [Z.eqb negb err_if mbind result_bind].
  rewrite <- Hl, bool_decide_eq_false_2 by (rewrite !length_app; cbn; lia). done.
Qed.

Lemma walk_packets {S} (f : S → Z → list Z → result Pm4BuildError S) pks : ∀ done rest fuel s,
  Forall packet_wf pks → length pks < fuel →
  walk f (done ++ concat pks ++ rest) fuel (length done) s =
    s ← try_fold (λ s pk, f s (header_of pk) pk) s pks;
    walk f (done ++ concat pks ++ rest) (fuel - length pks) (length done + length (concat pks)) s.
Proof.
  induction pks as [|pk pks IH]; intros done rest fuel s Hwf Hfuel.
  - cbn. by rewrite Nat.add_0_r, Nat.sub_0_r.
  - inversion Hwf as [|? ? Hpk Hpks]; subst. rewrite concat_cons, try_fold_cons.
    destruct fuel as [|fuel]; [cbn in Hfuel; lia|]. cbn [walk].
    pose proof Hpk as (h & body & Heq & _).
    rewrite bool_decide_eq_true_2 by (rewrite !length_app, Heq; cbn; lia).
    rewrite <- !app_assoc. rewrite (packet_at_wf done pk (concat pks ++ rest) Hpk).
    cbn [mbind result_bind].
    replace (length done + length pk - length done) with (length pk) by lia.
    rewrite drop_app_length, take_app_length.
    destruct (f s (header_of pk) pk) as [s'|e|]; cbn [mbind result_bind]; [|done..].
    replace (length done + length pk) with (length (done ++ pk)) by by rewrite length_app.
    rewrite (app_assoc done pk). rewrite (IH (done ++ pk) rest fuel s' Hpks) by (cbn in Hfuel; lia).
    rewrite !length_app. cbn [length Nat.sub]. by rewrite Nat.add_assoc.
Qed.

(** Walking a whole stream folds its packets. *)
Lemma walk_stream {S} (f : S → Z → list Z → result Pm4BuildError S) pks s :
  Forall packet_wf pks →
  walk f (concat pks) (1 + length (concat pks)) 0 s =
    try_fold (λ s pk, f s (header_of pk) pk) s pks.
Proof.
  intros Hwf.
  assert (length pks ≤ length (concat pks)) as Hlen.
  { induction Hwf as [|pk pks (h & body & -> & _) _ IH]; [done|].
    rewrite concat_cons, length_app. cbn [length]. lia. }
  pose proof (walk_packets f pks [] [] (1 + length (concat pks)) s Hwf) as H.
  cbn [app length] in H. rewrite app_nil_r, Nat.add_0_l in H. rewrite H by lia.
  destruct (try_fold _ s pks) as [s'|e|]; cbn [mbind result_bind]; [|done..].
  destruct (1 + length (concat pks) - length pks) as [|n] eqn:E; [lia|]. cbn [walk].
  by rewrite bool_decide_eq_false_2 by lia.
Qed.

(** ** What the command processor does *)

(** The register file; [upd] writes one register. *)
Definition upd (regs : Z → Z) (r v : Z) : Z → Z := λ x, if (x =? r)%Z then v else regs x.

Fixpoint write_regs (regs : Z → Z) (first : Z) (values : list Z) : Z → Z :=
  match values with
  | [] => regs
  | v :: values => write_regs (upd regs first v) (first + 1) values
  end.

(** What is observable: each dispatch with the registers in [watch] and its
    operands, and every other command. *)
Inductive event :=
| EvDispatch (snapshot : list Z) (operands : list Z)
| EvCommand (opcode : Z) (operands : list Z).

Definition exec_packet (watch : list Z) (st : (Z → Z) * list event) (pk : list Z)
    : (Z → Z) * list event :=
  let '(regs, evs) := st in
  match pk with
  | [] => st
  | h :: body =>
    if (opcode_of h =? PACKET3_SET_SH_REG)%Z then
      match body with
      | [] => st
      | first :: values => (write_regs regs first values, evs)
      end
    else if (opcode_of h =? PACKET3_DISPATCH_DIRECT)%Z then
      (regs, evs ++ [EvDispatch (regs <$> watch) body])
    else (regs, evs ++ [EvCommand (opcode_of h) body])
  end.

Definition exec (watch : list Z) (regs : Z → Z) (pks : list (list Z)) : (Z → Z) * list event :=
  foldl (exec_packet watch) (regs, []) pks.

(** Equal register files and equal observations. *)
Definition same_state (a b : (Z → Z) * list event) : Prop :=
  (∀ x, a.1 x = b.1 x) ∧ a.2 = b.2.

#[export] Instance same_state_equiv : Equivalence same_state.
Proof.
  split; [by intros ?|intros ?? [? ?]; split; auto|].
  intros ??? [H1 H2] [H3 H4]. split; [intros; by rewrite H1|congruence].
Qed.

Lemma upd_same regs r x : upd regs r (regs r) x = regs x.
Proof. unfold upd. by destruct (Z.eqb_spec x r) as [->|]. Qed.

Lemma write_regs_ext values : ∀ first regs regs',
  (∀ x, regs x = regs' x) → ∀ x, write_regs regs first values x = write_regs regs' first values x.
Proof.
  induction values as [|v values IH]; intros first regs regs' H x; cbn; [done|].
  apply IH. intros y. unfold upd. by destruct (y =? first)%Z.
Qed.

Lemma write_regs_snoc values : ∀ first regs v x,
  write_regs regs first (values ++ [v]) x =
    upd (write_regs regs first values) (first + Z.of_nat (length values)) v x.
Proof.
  induction values as [|w values IH]; intros first regs v x; cbn [write_regs app length].
  - by rewrite Z.add_0_r.
  - rewrite IH. f_equal. lia.
Qed.

Lemma write_regs_outside values : ∀ first regs x,
  (x < first ∨ first + Z.of_nat (length values) ≤ x)%Z → write_regs regs first values x = regs x.
Proof.
  induction values as [|w values IH]; intros first regs x Hx; cbn [write_regs length] in *; [done|].
  rewrite IH by lia. unfold upd. destruct (Z.eqb_spec x first); [lia|done].
Qed.

#[export] Instance exec_packet_proper watch :
  Proper (same_state ==> (=) ==> same_state) (exec_packet watch).
Proof.
  intros [ra ea] [rb eb] [Hr He] pk ? <-. cbn in Hr, He. subst eb.
  unfold exec_packet. destruct pk as [|h body]; [done|].
  destruct (opcode_of h =? PACKET3_SET_SH_REG)%Z.
  - destruct body as [|first values]; [done|]. split; cbn; [|done]. by apply write_regs_ext.
  - destruct (opcode_of h =? PACKET3_DISPATCH_DIRECT)%Z; split; cbn; try done.
    by rewrite (list_fmap_ext ra rb watch) by (intros; apply Hr).
Qed.

Lemma exec_foldl_proper watch pks : ∀ a b,
  same_state a b → same_state (foldl (exec_packet watch) a pks) (foldl (exec_packet watch) b pks).
Proof.
  induction pks as [|pk pks IH]; intros a b H; cbn; [done|]. apply IH. by rewrite H.
Qed.

Lemma exec_app watch regs ps qs :
  exec watch regs (ps ++ qs) = foldl (exec_packet watch) (exec watch regs ps) qs.
Proof. unfold exec. by rewrite foldl_app. Qed.

(** ** Omitted writes are invisible *)

Definition write_runs (regs : Z → Z) (runs : list (Z * list Z)) : Z → Z :=
  foldl (λ regs '(rf, rv), write_regs regs rf rv) regs runs.

Section track.
Context (first : Z) (regs : Z → Z) (live0 : list (Z * Z)) (count : nat).
Context (Hlive : ∀ r v, bmap_get r live0 = Some v → regs r = v).

(** The loop of [set_sh_regs] after the values [done]. *)
Record track_inv (done : list Z) (s : run_state) : Prop := {
  tr_writes x : write_runs regs (all_runs s) x = write_regs regs first done x;
  tr_open : match run_first s with
    | Some rf => (rf + Z.of_nat (length (run_values s)) = first + Z.of_nat (length done))%Z ∧
        1 ≤ length (run_values s) ≤ length done
    | None => run_values s = [] end;
  tr_closed rf rv : (rf, rv) ∈ changed_runs s → 1 ≤ length rv ≤ length done;
  tr_live r v : bmap_get r (live s) = Some v → write_regs regs first done r = v;
  tr_keys r v : bmap_get r (live s) = Some v → bmap_get r live0 = Some v ∨
    (first ≤ r < first + Z.of_nat (length done))%Z }.

Lemma write_runs_snoc runs rf rv x :
  write_runs regs (runs ++ [(rf, rv)]) x = write_regs (write_runs regs runs) rf rv x.
Proof. unfold write_runs. by rewrite foldl_app. Qed.

Lemma track_step done s v :
  track_inv done s → track_inv (done ++ [v]) (track_value first s (length done, v)).
Proof.
  intros [Hw Ho Hc Hl Hk]. unfold track_value. set (r := (first + Z.of_nat (length done))%Z).
  case_bool_decide as Helide.
  - assert (∀ x, write_regs regs first (done ++ [v]) x = write_regs regs first done x) as Hsame.
    { intros x. rewrite write_regs_snoc. rewrite <- (Hl r v Helide). apply upd_same. }
    assert (∀ s', all_runs s' = all_runs s → live s' = live s → run_first s' = None →
      run_values s' = [] → (∀ rf rv, (rf, rv) ∈ changed_runs s' → 1 ≤ length rv ≤ length done) →
      track_inv (done ++ [v]) s') as Hgen.
    { intros s' Hr Hlv Hf Hv Hcl. split.
      - intros x. by rewrite Hr, Hsame.
      - by rewrite Hf.
      - intros rf rv Hin%Hcl. rewrite length_app. lia.
      - intros k w. rewrite Hlv, Hsame. apply Hl.
      - intros k w Hkw. rewrite Hlv in Hkw. destruct (Hk k w Hkw); [by auto|].
        right. rewrite length_app. cbn. lia. }
    destruct (run_first s) as [rf|] eqn:Ef.
    + apply Hgen; try done.
      * unfold all_runs. by rewrite Ef.
      * cbn. intros rf' rv' [Hin|[= -> ->]%list_elem_of_singleton]%elem_of_app; [by eauto|].
        apply Ho.
    + apply Hgen; try done.
  - assert (∀ x, write_regs regs first (done ++ [v]) x =
      upd (write_regs regs first done) r v x) as Hupd by (intros; apply write_regs_snoc).
    split; cbn [live run_first run_values changed_runs].
    + intros x. rewrite Hupd. unfold all_runs. cbn [run_first run_values changed_runs].
      rewrite write_runs_snoc, write_regs_snoc.
      assert (default r (run_first s) + Z.of_nat (length (run_values s)) = r)%Z as ->.
      { destruct (run_first s); cbn; [by destruct Ho|]. rewrite Ho. cbn. lia. }
      unfold upd. destruct (x =? r)%Z; [done|]. rewrite <- Hw. unfold all_runs.
      destruct (run_first s); cbn [default]; [by rewrite write_runs_snoc|]. by rewrite Ho.
    + rewrite !length_app. cbn [length]. destruct (run_first s); unfold default; cbn; [lia|].
      rewrite Ho. cbn. unfold r. lia.
    + intros rf rv Hin%Hc. rewrite length_app. lia.
    + intros k w. rewrite bmap_get_insert, Hupd. unfold upd.
      destruct (kcmp k r) eqn:E; [apply kcmp_eq in E as ->; rewrite Z.eqb_refl; by intros [= ->]|..];
        (destruct (Z.eqb_spec k r) as [->|]; [by rewrite (proj2 (kcmp_eq r r) eq_refl) in E|]);
        apply Hl.
    + intros k w. rewrite bmap_get_insert, length_app. cbn [length].
      destruct (kcmp k r) eqn:E; [apply kcmp_eq in E as ->; right; unfold r; lia|..];
        (intros Hkw; destruct (Hk k w Hkw); [by auto|right; lia]).
Qed.
End track.

(** ** Buffers as packet sequences *)

Definition set_packet (first : Z) (values : list Z) : list Z :=
  packet3 PACKET3_SET_SH_REG (1 + Z.of_nat (length values)) true :: first :: values.

Lemma set_packet_wf first values :
  (Z.of_nat (length values) ≤ 16383)%Z → packet_wf (set_packet first values).
Proof.
  intros Hl. unfold set_packet.
  replace (1 + Z.of_nat (length values))%Z with (Z.of_nat (length (first :: values)))
    by (cbn [length]; lia).
  apply packet3_wf; [done|cbn; lia|cbn [length]; lia].
Qed.

Lemma exec_set_packet watch st first values : (Z.of_nat (length values) ≤ 16383)%Z →
  exec_packet watch st (set_packet first values) = (write_regs st.1 first values, st.2).
Proof.
  intros Hl. destruct st as [regs evs]. unfold set_packet, exec_packet.
  destruct (packet3_fields PACKET3_SET_SH_REG (1 + Z.of_nat (length values)) true) as (_ & _ & ->);
    [done|lia|]. by rewrite Z.eqb_refl.
Qed.

Lemma foldl_emit runs : ∀ b,
  foldl (λ b '(rf, rv), emit_set_sh_regs b rf rv) b runs =
    extend_dwords b (concat ((λ '(rf, rv), set_packet rf rv) <$> runs)).
Proof.
  induction runs as [|[rf rv] runs IH]; intros b.
  - destruct b. unfold extend_dwords. cbn. by rewrite app_nil_r.
  - cbn [foldl]. rewrite IH. unfold emit_set_sh_regs, extend_dwords. cbn [dwords register_state
      cache_dynamic_registers]. rewrite fmap_cons, concat_cons, <- app_assoc. done.
Qed.

Lemma exec_runs watch runs : ∀ st,
  (∀ rf rv, (rf, rv) ∈ runs → (Z.of_nat (length rv) ≤ 16383)%Z) →
  foldl (exec_packet watch) st ((λ '(rf, rv), set_packet rf rv) <$> runs) =
    (write_runs st.1 runs, st.2).
Proof.
  induction runs as [|[rf rv] runs IH]; intros st Hl; [by destruct st|].
  rewrite fmap_cons. cbn [foldl].
  rewrite exec_set_packet by (eapply Hl; left). rewrite IH; [done|].
  intros rf' rv' Hin. eapply Hl. by right.
Qed.

(** Registers that a buffer caching only queue-global state may track. *)
Definition static_key (r : Z) : Prop :=
  (r = COMPUTE_TMPRING_SIZE ∨ r = COMPUTE_RESOURCE_LIMITS ∨
   COMPUTE_STATIC_THREAD_MGMT_SE0 ≤ r < COMPUTE_STATIC_THREAD_MGMT_SE0 + 4)%Z.

(** A write either stays within the static registers or avoids them. *)
Definition separated (first : Z) (values : list Z) : Prop :=
  ∀ r, (first ≤ r < first + Z.of_nat (length values))%Z →
    static_key r ↔ is_static_register first = true.

(** Buffer [b] denotes the packets [pks], and the values it believes live are. *)
Record denotes (b : Gfx12Pm4CommandBuffer) (pks : list (list Z)) : Prop := {
  dn_words : dwords b = concat pks;
  dn_wf : Forall packet_wf pks;
  dn_live state r v : register_state b = Some state → bmap_get r state = Some v →
    ∀ watch regs, (exec watch regs pks).1 r = v;
  dn_static state r v : register_state b = Some state → cache_dynamic_registers b = false →
    bmap_get r state = Some v → static_key r }.

(** The two streams cannot be told apart. *)
Definition equivalent (ps qs : list (list Z)) : Prop :=
  ∀ watch regs, same_state (exec watch regs ps) (exec watch regs qs).

#[export] Instance equivalent_equiv : Equivalence equivalent.
Proof.
  split.
  - intros ps watch regs. reflexivity.
  - intros ps qs H watch regs. symmetry. exact (H watch regs).
  - intros ps qs rs H1 H2 watch regs. etrans; [exact (H1 watch regs)|exact (H2 watch regs)].
Qed.

Lemma equivalent_app ps qs pk : equivalent ps qs → equivalent (ps ++ [pk]) (qs ++ [pk]).
Proof.
  intros H watch regs. rewrite !exec_app. cbn [foldl].
  apply exec_packet_proper; [exact (H watch regs)|done].
Qed.

(** Appending a command that writes no register. *)
Lemma denotes_extend b pks pk :
  denotes b pks → packet_wf pk → opcode_of (header_of pk) ≠ PACKET3_SET_SH_REG →
  denotes (extend_dwords b pk) (pks ++ [pk]).
Proof.
  intros [Hw Hwf Hl Hs] Hpk Hop. split; cbn.
  - rewrite Hw, concat_app. cbn. by rewrite app_nil_r.
  - apply Forall_app. by repeat constructor.
  - intros state r v Hst Hg watch regs. rewrite exec_app. cbn [foldl].
    rewrite <- (Hl state r v Hst Hg watch regs).
    destruct (exec watch regs pks) as [rg ev]. unfold exec_packet.
    destruct Hpk as (h & body & -> & _). cbn in Hop.
    destruct (Z.eqb_spec (opcode_of h) PACKET3_SET_SH_REG); [done|].
    by destruct (opcode_of h =? PACKET3_DISPATCH_DIRECT)%Z.
  - exact Hs.
Qed.

(** Emitting the whole write, tracked values being untouched by it. *)
Lemma denotes_emit b pks first values :
  denotes b pks → (Z.of_nat (length values) ≤ 16383)%Z →
  (∀ state r v, register_state b = Some state → bmap_get r state = Some v →
    ¬ (first ≤ r < first + Z.of_nat (length values))%Z) →
  denotes (emit_set_sh_regs b first values) (pks ++ [set_packet first values]).
Proof.
  intros [Hw Hwf Hl Hs] Hlen Hout. split; cbn.
  - rewrite Hw, concat_app. cbn. by rewrite app_nil_r.
  - apply Forall_app. split; [done|]. constructor; [by apply set_packet_wf|done].
  - intros state r v Hst Hg watch regs. rewrite exec_app. cbn [foldl].
    rewrite exec_set_packet by done. cbn.
    rewrite write_regs_outside; [by eapply Hl|]. pose proof (Hout state r v Hst Hg). lia.
  - exact Hs.
Qed.

Section set_sh_regs.
Context (first : Z) (values : list Z) (Hlen : (Z.of_nat (length values) ≤ 16383)%Z).

Lemma track_all regs state :
  (∀ r v, bmap_get r state = Some v → regs r = v) →
  track_inv first regs state values
    (foldl (track_value first) (mkRunState state None [] []) (enumerate values)).
Proof using Type.
  intros Hlive. clear Hlen.
  assert (∀ l done s, track_inv first regs state done s →
    track_inv first regs state (done ++ l)
      (foldl (track_value first) s (imap (λ i, pair (length done + i)) l))) as Hgo.
  { induction l as [|v l IH]; intros done s Hs; [by rewrite app_nil_r|].
    cbn [imap foldl]. rewrite Nat.add_0_r.
    assert (imap ((λ i, pair (length done + i)) ∘ S) l =
      imap (λ i, pair (length (done ++ [v]) + i)) l) as ->.
    { apply imap_ext. intros i x _. cbn. rewrite length_app. cbn. f_equal. lia. }
    replace (done ++ v :: l) with ((done ++ [v]) ++ l) by by rewrite <- app_assoc.
    by apply IH, track_step. }
  apply (Hgo values [] (mkRunState state None [] [])). split; cbn; try done.
  - intros rf rv Hin. by apply not_elem_of_nil in Hin.
  - by left.
Qed.

(** Emitting only the changed runs. *)
Lemma denotes_tracked b pks state :
  denotes b pks → register_state b = Some state →
  (cache_dynamic_registers b = false → is_static_register first = true) →
  separated first values →
  let s := foldl (track_value first) (mkRunState state None [] []) (enumerate values) in
  let pks' := pks ++ ((λ '(rf, rv), set_packet rf rv) <$> all_runs s) in
  denotes (extend_dwords (mkBuffer (dwords b) (Some (live s)) (cache_dynamic_registers b))
    (concat ((λ '(rf, rv), set_packet rf rv) <$> all_runs s))) pks' ∧
  equivalent pks' (pks ++ [set_packet first values]).
Proof using Hlen.
  intros [Hw Hwf Hl Hs] Hst Hcache Hsep s pks'.
  assert (∀ watch regs, track_inv first (exec watch regs pks).1 state values s) as Htr.
  { intros watch regs. apply track_all. intros r v Hg. by eapply Hl. }
  assert (∀ rf rv, (rf, rv) ∈ all_runs s → (Z.of_nat (length rv) ≤ 16383)%Z) as Hruns.
  { intros rf rv Hin. destruct (Htr [] (λ _, 0%Z)) as [_ Ho Hc _ _]. unfold all_runs in Hin.
    destruct (run_first s) as [rf0|].
    - apply elem_of_app in Hin as [Hin|[= -> ->]%list_elem_of_singleton]; [|lia].
      apply Hc in Hin. lia.
    - apply Hc in Hin. lia. }
  assert (∀ watch regs, exec watch regs pks' =
    (write_runs (exec watch regs pks).1 (all_runs s), (exec watch regs pks).2)) as Hexec.
  { intros watch regs. unfold pks'. rewrite exec_app. by apply exec_runs. }
  split; [split; cbn|].
  - unfold pks'. by rewrite Hw, concat_app.
  - apply Forall_app. split; [done|]. apply Forall_fmap, Forall_forall.
    intros [rf rv] Hin. by eapply set_packet_wf, Hruns.
  - intros state' r v [= <-] Hg watch regs. rewrite Hexec. cbn.
    rewrite (tr_writes _ _ _ _ _ (Htr watch regs)). by apply (tr_live _ _ _ _ _ (Htr watch regs)).
  - intros state' r v [= <-] Hc Hg.
    destruct (tr_keys _ _ _ _ _ (Htr [] (λ _, 0%Z)) r v Hg) as [H0|Hr].
    + by eapply Hs.
    + apply Hsep; auto.
  - intros watch regs. rewrite Hexec, exec_app. cbn [foldl]. rewrite exec_set_packet by done.
    split; cbn; [|done]. intros x. apply (tr_writes _ _ _ _ _ (Htr watch regs)).
Qed.

Lemma set_sh_regs_denotes b pks :
  denotes b pks → separated first values →
  ∃ pks', denotes (set_sh_regs b first values) pks' ∧
    equivalent pks' (pks ++ [set_packet first values]).
Proof using Hlen.
  intros Hd Hsep. unfold set_sh_regs.
  assert ((register_state b = None ∨
      (cache_dynamic_registers b = false ∧ is_static_register first = false)) →
    ∃ pks', denotes (emit_set_sh_regs b first values) pks' ∧
      equivalent pks' (pks ++ [set_packet first values])) as Hemit.
  { intros Hcase. eexists. split; [|reflexivity]. apply denotes_emit; [done..|].
    intros state r v Hst Hg Hr. destruct Hcase as [?|[Hc Hns]]; [congruence|].
    pose proof (dn_static _ _ Hd state r v Hst Hc Hg) as Hk. apply Hsep in Hk; [|done]. congruence. }
  destruct (negb (cache_dynamic_registers b) && negb (is_static_register first)) eqn:Ec.
  - apply Hemit. right. by apply andb_true_iff in Ec as [?%negb_true_iff ?%negb_true_iff].
  - destruct (register_state b) as [state|] eqn:Est; [|by auto]. cbn zeta.
    rewrite foldl_emit. eexists. apply denotes_tracked; [done..| |done].
    intros Hc. rewrite Hc in Ec. cbn in Ec. by apply negb_false_iff in Ec.
Qed.
End set_sh_regs.

(** ** Building tapes *)

(** The public operations that append to a tape. *)
Inductive tape_op : Type :=
| OpDispatch (loader : KernelMetadata) (pm4 : option KernelPm4Metadata) (g : LaunchGeometry)
    (dynamic_group_bytes kernarg_address : Z)
| OpAcquireSystem
| OpAcquireSystemGfx12
| OpAcquireInterNode
| OpWaitComputeIdle.

Definition run_op (b : Gfx12Pm4CommandBuffer) (op : tape_op)
    : result Pm4BuildError Gfx12Pm4CommandBuffer :=
  match op with
  | OpDispatch loader pm4 g dyn ka => Buffer_dispatch b loader pm4 g dyn ka
  | OpAcquireSystem => Ok (acquire_system b)
  | OpAcquireSystemGfx12 => Ok (acquire_system_gfx12 b)
  | OpAcquireInterNode => Ok (acquire_inter_node_gfx12 b)
  | OpWaitComputeIdle => Ok (wait_compute_idle b)
  end.

Definition build (b : Gfx12Pm4CommandBuffer) (ops : list tape_op)
    : result Pm4BuildError Gfx12Pm4CommandBuffer := try_fold run_op b ops.

(** Two buffers that the command processor cannot tell apart. *)
Definition indistinguishable (b c : Gfx12Pm4CommandBuffer) : Prop :=
  ∃ ps qs, denotes b ps ∧ denotes c qs ∧ equivalent ps qs.

Lemma indistinguishable_set b c first values :
  (Z.of_nat (length values) ≤ 16383)%Z → separated first values →
  indistinguishable b c →
  indistinguishable (set_sh_regs b first values) (set_sh_regs c first values).
Proof.
  intros Hl Hsep (ps & qs & Hb & Hc & Heq).
  destruct (set_sh_regs_denotes first values Hl b ps Hb Hsep) as (ps' & Hb' & Hps).
  destruct (set_sh_regs_denotes first values Hl c qs Hc Hsep) as (qs' & Hc' & Hqs).
  exists ps', qs'. split; [done|]. split; [done|].
  rewrite Hps, Hqs. by apply equivalent_app.
Qed.

Lemma indistinguishable_extend b c pk :
  packet_wf pk → opcode_of (header_of pk) ≠ PACKET3_SET_SH_REG →
  indistinguishable b c → indistinguishable (extend_dwords b pk) (extend_dwords c pk).
Proof.
  intros Hpk Hop (ps & qs & Hb & Hc & Heq). exists (ps ++ [pk]), (qs ++ [pk]).
  split; [by apply denotes_extend|]. split; [by apply denotes_extend|]. by apply equivalent_app.
Qed.

Ltac separated :=
  unfold separated, static_key, is_static_register, COMPUTE_TMPRING_SIZE, COMPUTE_RESOURCE_LIMITS,
    COMPUTE_STATIC_THREAD_MGMT_SE0, COMPUTE_PGM_LO, COMPUTE_PGM_RSRC1, COMPUTE_PGM_RSRC3_GFX12,
    COMPUTE_NUM_THREAD_X, COMPUTE_USER_DATA_0;
  cbn; intros r Hr; split; [intros; lia|intros; lia || discriminate].

(** Dispatch, after its checks. *)
Lemma indistinguishable_dispatch b c loader pm4 g dyn ka :
  indistinguishable b c →
  match Buffer_dispatch b loader pm4 g dyn ka, Buffer_dispatch c loader pm4 g dyn ka with
  | Ok b', Ok c' => indistinguishable b' c'
  | Err e, Err e' => e = e'
  | _, _ => False
  end.
Proof.
  intros H. unfold Buffer_dispatch.
  destruct (negb (private_segment_size loader =? 0)%Z || dynamic_callstack loader); cbn [err_if mbind result_bind]; [done|].
  destruct pm4 as [pm4|]; cbn [ok_or mbind result_bind]; [|done].
  destruct (negb (Z.ldiff _ _ =? 0)%Z); cbn [err_if mbind result_bind]; [done|].
  destruct (negb _ && _)%bool; cbn [err_if mbind result_bind]; [done|].
  destruct (checked_add _ _ _) as [total|]; cbn [ok_or mbind result_bind]; [|done].
  destruct (_ <? _)%Z; cbn [err_if mbind result_bind]; [done|].
  apply indistinguishable_extend; [by eexists _, _|vm_compute; discriminate|].
  destruct (negb (Z.land _ ENABLE_SGPR_KERNARG_SEGMENT_PTR =? 0)%Z);
    repeat (apply indistinguishable_set; [cbn; lia|separated|]); done.
Qed.

Lemma indistinguishable_op b c op :
  indistinguishable b c →
  match run_op b op, run_op c op with
  | Ok b', Ok c' => indistinguishable b' c'
  | Err e, Err e' => e = e'
  | _, _ => False
  end.
Proof.
  intros H. destruct op; cbn [run_op]; [by apply indistinguishable_dispatch|..];
    (apply indistinguishable_extend; [by eexists _, _|vm_compute; discriminate|done]).
Qed.

Lemma indistinguishable_build ops : ∀ b c,
  indistinguishable b c →
  match build b ops, build c ops with
  | Ok b', Ok c' => indistinguishable b' c'
  | Err e, Err e' => e = e'
  | _, _ => False
  end.
Proof.
  induction ops as [|op ops IH]; intros b c H; [done|]. unfold build. rewrite !try_fold_cons.
  pose proof (indistinguishable_op b c op H) as Hop.
  destruct (run_op b op), (run_op c op); cbn [mbind result_bind]; try done. by apply IH.
Qed.

Lemma denotes_empty state cache : state = None ∨ state = Some [] →
  denotes (mkBuffer [] state cache) [].
Proof. intros [->| ->]; split; cbn; try done; naive_solver. Qed.

(** ** What each operation appends *)

(** [c] is [b] with the packets [pks] appended, up to elided register writes. *)
Definition appends (b c : Gfx12Pm4CommandBuffer) (pks : list (list Z)) : Prop :=
  ∀ ps, denotes b ps → ∃ ps', denotes c ps' ∧ equivalent ps' (ps ++ pks).

Lemma equivalent_apps ps qs pks : equivalent ps qs → equivalent (ps ++ pks) (qs ++ pks).
Proof.
  intros H. revert ps qs H. induction pks as [|pk pks IH]; intros ps qs H; [by rewrite !app_nil_r|].
  rewrite !(cons_middle pk), !app_assoc. by apply IH, equivalent_app.
Qed.

Lemma appends_trans b c d ps qs : appends b c ps → appends c d qs → appends b d (ps ++ qs).
Proof.
  intros H1 H2 ks Hb. destruct (H1 ks Hb) as (ks1 & Hc & E1). destruct (H2 ks1 Hc) as (ks2 & Hd & E2).
  exists ks2. split; [done|]. etrans; [exact E2|]. rewrite app_assoc. by apply equivalent_apps.
Qed.

Lemma appends_set b first values :
  (Z.of_nat (length values) ≤ 16383)%Z → separated first values →
  appends b (set_sh_regs b first values) [set_packet first values].
Proof. intros Hl Hs ps Hb. by apply set_sh_regs_denotes. Qed.

Lemma appends_extend b pk :
  packet_wf pk → opcode_of (header_of pk) ≠ PACKET3_SET_SH_REG → appends b (extend_dwords b pk) [pk].
Proof. intros Hw Ho ps Hb. exists (ps ++ [pk]). split; [by apply denotes_extend|done]. Qed.

(** The register writes of a dispatch, in order, and its command. *)
Definition dispatch_writes (loader : KernelMetadata) (pm4 : KernelPm4Metadata) (g : LaunchGeometry)
    (dyn ka : Z) : list (Z * list Z) :=
  [ (COMPUTE_PGM_LO, [wrap32 (Z.shiftr (code_entry pm4) 8); wrap32 (Z.shiftr (code_entry pm4) 40)]);
    (COMPUTE_PGM_RSRC1, [compute_pgm_rsrc1 pm4;
       encode_lds (compute_pgm_rsrc2 pm4)
         (div_ceil (group_segment_size loader + dyn) GFX12_LDS_GRANULE)]);
    (COMPUTE_PGM_RSRC3_GFX12, [compute_pgm_rsrc3 pm4]);
    (COMPUTE_TMPRING_SIZE, [0%Z]);
    (COMPUTE_NUM_THREAD_X, [dim_x (workgroup g); dim_y (workgroup g); dim_z (workgroup g)]);
    (COMPUTE_RESOURCE_LIMITS, [0x3ff%Z]);
    (COMPUTE_STATIC_THREAD_MGMT_SE0, replicate 4 U32_MAX) ] ++
  (if negb (Z.land (kernel_code_properties pm4) ENABLE_SGPR_KERNARG_SEGMENT_PTR =? 0)%Z
   then [(COMPUTE_USER_DATA_0, [wrap32 ka; wrap32 (Z.shiftr ka 32)])] else []).

Definition dispatch_command (pm4 : KernelPm4Metadata) (g : LaunchGeometry) : list Z :=
  [packet3 PACKET3_DISPATCH_DIRECT 4 true; dim_x (grid_workitems g); dim_y (grid_workitems g);
   dim_z (grid_workitems g);
   dispatch_initiator (negb (Z.land (kernel_code_properties pm4) ENABLE_WAVEFRONT_SIZE32 =? 0)%Z)].

(** Everything an operation stands for. *)
Definition op_packets (op : tape_op) : list (list Z) :=
  match op with
  | OpDispatch loader (Some pm4) g dyn ka =>
      ((λ '(rf, rv), set_packet rf rv) <$> dispatch_writes loader pm4 g dyn ka) ++
      [dispatch_command pm4 g]
  | OpDispatch _ None _ _ _ => []
  | OpAcquireSystem => [dwords (acquire_system Buffer_new)]
  | OpAcquireSystemGfx12 => [dwords (acquire_system_gfx12 Buffer_new)]
  | OpAcquireInterNode => [dwords (acquire_inter_node_gfx12 Buffer_new)]
  | OpWaitComputeIdle => [dwords (wait_compute_idle Buffer_new)]
  end.

Lemma appends_cons b c d p qs : appends b c [p] → appends c d qs → appends b d (p :: qs).
Proof. intros H1 H2. exact (appends_trans b c d [p] qs H1 H2). Qed.

(** A dispatch that is accepted, with the facts its checks established. *)
Lemma dispatch_appends b c loader pm4 g dyn ka :
  Buffer_dispatch b loader pm4 g dyn ka = Ok c →
  appends b c (op_packets (OpDispatch loader pm4 g dyn ka)) ∧
  (∃ p, pm4 = Some p) ∧ (group_segment_size loader + dyn ≤ U32_MAX)%Z ∧
  (div_ceil (group_segment_size loader + dyn) GFX12_LDS_GRANULE
     ≤ Z.shiftr LDS_SIZE_MASK LDS_SIZE_SHIFT)%Z.
Proof.
  unfold Buffer_dispatch.
  destruct (negb (private_segment_size loader =? 0)%Z || dynamic_callstack loader); cbn [err_if mbind result_bind]; [done|].
  destruct pm4 as [pm4|]; cbn [ok_or mbind result_bind]; [|done].
  destruct (negb (Z.ldiff _ _ =? 0)%Z); cbn [err_if mbind result_bind]; [done|].
  destruct (negb _ && _)%bool; cbn [err_if mbind result_bind]; [done|].
  destruct (checked_add _ _ _) as [total|] eqn:Et; cbn [ok_or mbind result_bind]; [|done].
  apply checked_add_Some in Et as [-> Hmax].
  destruct (_ <? _)%Z eqn:El; cbn [err_if mbind result_bind]; [done|].
  intros [= <-]. split; [|split; [by eexists|split; [lia|by apply Z.ltb_ge in El]]].
  cbn [op_packets]. unfold dispatch_writes.
  destruct (negb (Z.land _ ENABLE_SGPR_KERNARG_SEGMENT_PTR =? 0)%Z);
    cbn [app fmap list_fmap];
    repeat lazymatch goal with
    | |- appends _ _ (set_packet _ _ :: _) =>
        eapply appends_cons; [apply appends_set; [cbn; lia|separated]|]
    end;
    (apply appends_extend; [by eexists _, _|vm_compute; discriminate]).
Qed.

Lemma op_appends b c op : run_op b op = Ok c → appends b c (op_packets op).
Proof.
  destruct op; cbn [run_op op_packets]; [by intros H; apply dispatch_appends in H as [H _]|..]; intros [= <-];
    (apply appends_extend; [by eexists _, _|vm_compute; discriminate]).
Qed.

Lemma build_appends ops : ∀ b c, build b ops = Ok c → appends b c (ops ≫= op_packets).
Proof.
  induction ops as [|op ops IH]; intros b c; unfold build.
  - intros [= <-] ps Hb. exists ps. by rewrite app_nil_r.
  - rewrite try_fold_cons. destruct (run_op b op) as [b'|e|] eqn:E; cbn [mbind result_bind]; [|done..].
    intros Hc. rewrite bind_cons. eapply appends_trans; [by apply op_appends|by apply IH].
Qed.

(** The three ways a tape starts. *)
Definition tape_starts : list Gfx12Pm4CommandBuffer :=
  [Buffer_new; Buffer_new_stateful; Buffer_new_static_stateful].

Lemma start_denotes b : b ∈ tape_starts → denotes b [].
Proof.
  intros Hb. repeat (apply elem_of_cons in Hb as [->|Hb]; [apply denotes_empty; auto|]).
  by apply not_elem_of_nil in Hb.
Qed.

Lemma built_stream b ops c : b ∈ tape_starts → build b ops = Ok c →
  ∃ ps, denotes c ps ∧ equivalent ps (ops ≫= op_packets).
Proof. intros Hb Hc. exact (build_appends ops b c Hc [] (start_denotes b Hb)). Qed.

(** Counting dispatches, of packets and of observations. *)
Definition is_dispatch (pk : list Z) : bool := (opcode_of (header_of pk) =? PACKET3_DISPATCH_DIRECT)%Z.
Definition dispatch_count (pks : list (list Z)) : nat := length (filter is_dispatch pks).

Definition is_dispatch_event (e : event) : bool :=
  match e with EvDispatch _ _ => true | EvCommand _ _ => false end.

Lemma exec_dispatch_count watch pks : ∀ st,
  Forall packet_wf pks →
  length (filter is_dispatch_event (foldl (exec_packet watch) st pks).2) =
    length (filter is_dispatch_event st.2) + dispatch_count pks.
Proof.
  induction pks as [|pk pks IH]; intros st Hwf; [cbn; lia|].
  inversion Hwf as [|? ? (h & body & -> & _ & Hl) Hpks]; subst. cbn [foldl]. rewrite IH by done.
  unfold dispatch_count. rewrite filter_cons. destruct st as [regs evs]. unfold exec_packet, is_dispatch.
  cbn [header_of head default from_option id].
  destruct (Z.eqb_spec (opcode_of h) PACKET3_SET_SH_REG) as [->|].
  - destruct body; [cbn in Hl; lia|]. cbn. done.
  - destruct (opcode_of h =? PACKET3_DISPATCH_DIRECT)%Z; cbn [snd];
      rewrite filter_app, length_app; cbn; repeat case_decide; cbn; (done || lia).
Qed.

Lemma equivalent_dispatch_count ps qs :
  Forall packet_wf ps → Forall packet_wf qs → equivalent ps qs →
  dispatch_count ps = dispatch_count qs.
Proof.
  intros Hp Hq H. destruct (H [] (λ _, 0%Z)) as [_ He]. unfold exec in He.
  pose proof (exec_dispatch_count [] ps (λ _, 0%Z, []) Hp) as H1.
  pose proof (exec_dispatch_count [] qs (λ _, 0%Z, []) Hq) as H2. rewrite He in H1.
  cbn in H1, H2. congruence.
Qed.

Definition is_dispatch_op (op : tape_op) : bool :=
  match op with OpDispatch _ _ _ _ _ => true | _ => false end.

Lemma dispatch_count_app ps qs : dispatch_count (ps ++ qs) = dispatch_count ps + dispatch_count qs.
Proof. unfold dispatch_count. by rewrite filter_app, length_app. Qed.

Lemma set_packets_count ws : Forall (λ w, Z.of_nat (length w.2) ≤ 16383)%Z ws →
  Forall packet_wf ((λ '(rf, rv), set_packet rf rv) <$> ws) ∧
  dispatch_count ((λ '(rf, rv), set_packet rf rv) <$> ws) = 0.
Proof.
  induction 1 as [|[rf rv] ws Hl _ [IH1 IH2]]; [done|]. rewrite fmap_cons. split.
  - constructor; [by apply set_packet_wf|done].
  - unfold dispatch_count in *. rewrite filter_cons_False; [done|].
    unfold is_dispatch, set_packet. cbn [header_of head default from_option id].
    destruct (packet3_fields PACKET3_SET_SH_REG (1 + Z.of_nat (length rv)) true) as (_ & _ & ->);
      [done|cbn in Hl; lia|]. auto.
Qed.

Lemma dispatch_writes_short loader pm4 g dyn ka :
  Forall (λ w, Z.of_nat (length w.2) ≤ 16383)%Z (dispatch_writes loader pm4 g dyn ka).
Proof.
  unfold dispatch_writes. apply Forall_app. split; [repeat constructor; cbn; lia|].
  destruct (negb _); repeat constructor; cbn; lia.
Qed.

Lemma op_packets_count op b c : run_op b op = Ok c →
  Forall packet_wf (op_packets op) ∧
  dispatch_count (op_packets op) = if is_dispatch_op op then 1 else 0.
Proof.
  intros H. destruct op as [loader pm4 g dyn ka| | | |]; cbn [op_packets is_dispatch_op].
  2-5: by split; [repeat constructor; by eexists _, _|].
  apply dispatch_appends in H as (_ & (p & ->) & _).
  destruct (set_packets_count _ (dispatch_writes_short loader p g dyn ka)) as [H1 H2].
  rewrite dispatch_count_app, H2. split; [|done].
  apply Forall_app. split; [done|]. repeat constructor. by eexists _, _.
Qed.

Lemma build_count ops : ∀ b c, build b ops = Ok c →
  Forall packet_wf (ops ≫= op_packets) ∧
  dispatch_count (ops ≫= op_packets) = length (filter is_dispatch_op ops).
Proof.
  induction ops as [|op ops IH]; intros b c; unfold build; [done|].
  rewrite try_fold_cons. destruct (run_op b op) as [b'|e|] eqn:E; cbn [mbind result_bind]; [|done..].
  intros Hc. destruct (op_packets_count _ _ _ E) as [H1 H2]. destruct (IH _ _ Hc) as [H3 H4].
  rewrite bind_cons. split; [by apply Forall_app|]. rewrite dispatch_count_app, H2, H4, filter_cons.
  by destruct (is_dispatch_op op).
Qed.

(** ** Claims *)

(** C20: register elision is sound. Building the same operations into a plain,
    a stateful or a static-stateful buffer fails with the same error, or gives
    streams of well-formed packets that leave equal registers and show the
    command processor equal dispatches (with the values of any watched
    registers) and commands, from any initial register file. *)
Theorem register_elision_sound start ops :
  start ∈ tape_starts →
  match build Buffer_new ops, build start ops with
  | Ok b, Ok c => ∃ ps qs, dwords b = concat ps ∧ dwords c = concat qs ∧
      Forall packet_wf ps ∧ Forall packet_wf qs ∧
      ∀ watch regs, same_state (exec watch regs ps) (exec watch regs qs)
  | Err e, Err e' => e = e'
  | _, _ => False
  end.
Proof.
  intros Hs.
  assert (indistinguishable Buffer_new start) as H.
  { exists [], []. split; [apply denotes_empty; auto|]. by split; [apply start_denotes|]. }
  pose proof (indistinguishable_build ops _ _ H) as Hb.
  destruct (build Buffer_new ops) as [b|e|], (build start ops) as [c|e'|]; try done.
  destruct Hb as (ps & qs & [Hw Hf _ _] & [Hw' Hf' _ _] & Heq). by exists ps, qs.
Qed.

(** What the timestamped stream contains from slot [slot] on. *)
Fixpoint timed_packets (base : Z) (slot : nat) (pks : list (list Z)) : list (list Z) :=
  match pks with
  | [] => []
  | pk :: pks =>
      if is_dispatch pk
      then pk :: dwords (copy_gpu_timestamp Buffer_new (base + Z.of_nat slot * 8))
             :: timed_packets base (S slot) pks
      else pk :: timed_packets base slot pks
  end.

Lemma count_slots pks : ∀ n,
  try_fold (E := Pm4BuildError) (λ slots pk,
      Ok (if (opcode_of (header_of pk) =? PACKET3_DISPATCH_DIRECT)%Z then S slots else slots)) n pks =
    Ok (n + dispatch_count pks).
Proof.
  induction pks as [|pk pks IH]; intros n; [by cbn; rewrite Nat.add_0_r|].
  rewrite try_fold_cons. cbn [mbind result_bind]. rewrite IH. f_equal.
  unfold dispatch_count. rewrite filter_cons. unfold is_dispatch at 2.
  destruct (opcode_of _ =? _)%Z eqn:E; case_decide as Hd; unfold is_dispatch in Hd; rewrite E in Hd;
    cbn in *; (done || lia).
Qed.

Lemma slot_address_Ok base slot : (base + Z.of_nat slot * 8 ≤ U64_MAX)%Z →
  slot_address base slot = Ok (base + Z.of_nat slot * 8)%Z.
Proof.
  intros H. unfold slot_address.
  by rewrite (proj2 (checked_add_Some _ _ _ _) (conj eq_refl H)).
Qed.

Lemma stamp_packet_Ok base timed slot pk :
  (base + Z.of_nat slot * 8 ≤ U64_MAX)%Z →
  stamp_packet base (timed, slot) (header_of pk) pk =
    Ok (if is_dispatch pk
        then (copy_gpu_timestamp (extend_dwords timed pk) (base + Z.of_nat slot * 8), S slot)
        else (extend_dwords timed pk, slot)).
Proof.
  intros H. unfold stamp_packet, is_dispatch. rewrite slot_address_Ok by done.
  by destruct (_ =? _)%Z.
Qed.

Lemma stamp_slots base pks : ∀ timed slot,
  (base + Z.of_nat (slot + dispatch_count pks) * 8 ≤ U64_MAX)%Z →
  ∃ timed' slot',
    try_fold (λ s pk, stamp_packet base s (header_of pk) pk) (timed, slot) pks = Ok (timed', slot') ∧
    dwords timed' = dwords timed ++ concat (timed_packets base slot pks).
Proof.
  induction pks as [|pk pks IH]; intros timed slot Hb.
  - exists timed, slot. split; [done|]. cbn. by rewrite app_nil_r.
  - rewrite try_fold_cons. cbn [timed_packets].
    assert (dispatch_count (pk :: pks) = (if is_dispatch pk then 1 else 0) + dispatch_count pks) as Hc.
    { unfold dispatch_count. rewrite filter_cons. destruct (is_dispatch pk); done. }
    rewrite Hc in Hb. rewrite stamp_packet_Ok by lia.
    destruct (is_dispatch pk); cbn [mbind result_bind].
    + destruct (IH (copy_gpu_timestamp (extend_dwords timed pk) (base + Z.of_nat slot * 8)) (S slot))
        as (timed' & slot' & -> & Hd); [lia|].
      exists timed', slot'. split; [done|]. rewrite Hd. rewrite !concat_cons.
      unfold copy_gpu_timestamp, extend_dwords. cbn [dwords]. by rewrite <- !app_assoc.
    + destruct (IH (extend_dwords timed pk) slot) as (timed' & slot' & -> & Hd); [lia|].
      exists timed', slot'. split; [done|]. rewrite Hd, concat_cons. cbn [extend_dwords dwords].
      by rewrite <- app_assoc.
Qed.

(** Per-dispatch timestamps. On every built tape, the slot count is one
    more than the number of dispatches, and when the slots fit the address
    space the timestamped stream is the baseline timestamp followed by the
    packets of the tape, each dispatch packet followed by exactly one copy to
    the next 8-byte slot. *)
Theorem per_dispatch_timestamps_exact start ops b base :
  start ∈ tape_starts → build start ops = Ok b →
  (base + Z.of_nat (1 + length (filter is_dispatch_op ops)) * 8 ≤ U64_MAX)%Z →
  timestamp_slot_count b = Ok (1 + length (filter is_dispatch_op ops)) ∧
  ∃ ps timed, dwords b = concat ps ∧ Forall packet_wf ps ∧
    with_per_dispatch_timestamps b base = Ok timed ∧
    dwords timed = dwords (copy_gpu_timestamp Buffer_new base) ++ concat (timed_packets base 1 ps).
Proof.
  intros Hs Hb Hroom. destruct (built_stream _ _ _ Hs Hb) as (ps & [Hw Hf _ _] & Heq).
  destruct (build_count _ _ _ Hb) as [Hwf Hcount].
  rewrite <- (equivalent_dispatch_count _ _ Hf Hwf Heq) in Hcount. rewrite <- Hcount in *. split.
  - unfold timestamp_slot_count. rewrite Hw, walk_stream by done. apply count_slots.
  - destruct (stamp_slots base ps (copy_gpu_timestamp Buffer_new base) 1 Hroom)
      as (timed & slot & Hfold & Hd).
    exists ps, timed. split; [done|]. split; [done|]. split; [|done].
    unfold with_per_dispatch_timestamps. rewrite Hw, walk_stream by done.
    by rewrite Hfold.
Qed.

(** ** The registers a dispatch runs with *)

Lemma encode_lds_fields rsrc2 blocks :
  (0 ≤ rsrc2 → 0 ≤ blocks ≤ Z.shiftr LDS_SIZE_MASK LDS_SIZE_SHIFT →
   Z.shiftr (Z.land (encode_lds rsrc2 blocks) LDS_SIZE_MASK) LDS_SIZE_SHIFT = blocks ∧
   Z.ldiff (encode_lds rsrc2 blocks) LDS_SIZE_MASK = Z.ldiff rsrc2 LDS_SIZE_MASK)%Z.
Proof.
  change (Z.shiftr LDS_SIZE_MASK LDS_SIZE_SHIFT) with 511%Z. unfold encode_lds, LDS_SIZE_SHIFT.
  intros H2 Hb.
  assert (wrap32 (Z.shiftl blocks 15) = Z.shiftl blocks 15) as ->.
  { rewrite Z.shiftl_mul_pow2 by lia. apply Z.mod_small. lia. }
  assert (Z.land (Z.shiftl blocks 15) LDS_SIZE_MASK = Z.shiftl blocks 15) as Hin.
  { change LDS_SIZE_MASK with (Z.shiftl (Z.ones 9) 15). rewrite <- Z.shiftl_land, Z.land_ones by lia.
    by rewrite Z.mod_small by lia. }
  split.
  - rewrite Z.land_lor_distr_l, Hin, Z.land_ldiff.
    rewrite Z.lor_0_l, Z.shiftr_shiftl_l by lia. by rewrite Z.sub_diag, Z.shiftl_0_r.
  - rewrite <- Hin. apply Z.bits_inj'. intros n Hn.
    rewrite !Z.ldiff_spec, Z.lor_spec, Z.ldiff_spec, Z.land_spec.
    by destruct (Z.testbit rsrc2 n), (Z.testbit LDS_SIZE_MASK n), (Z.testbit _ n).
Qed.

Lemma exec_dispatch watch regs ps loader pm4 g dyn ka :
  let regs' := write_runs (exec watch regs ps).1 (dispatch_writes loader pm4 g dyn ka) in
  exec watch regs (ps ++ op_packets (OpDispatch loader (Some pm4) g dyn ka)) =
    (regs', (exec watch regs ps).2 ++ [EvDispatch (regs' <$> watch) (tail (dispatch_command pm4 g))]).
Proof.
  intros regs'. cbn [op_packets]. rewrite exec_app, foldl_app.
  rewrite exec_runs; [done|]. intros rf rv Hin.
  exact (proj1 (Forall_forall _ _) (dispatch_writes_short loader pm4 g dyn ka) (rf, rv) Hin).
Qed.

(** The registers every dispatch of a tape runs with, whatever was elided
    before it. After the last dispatch of a built tape, from any initial
    register file, the program address, resource words, thread counts, limits
    and kernarg pointer are those of that dispatch; the LDS field of the second
    resource word is the group segment in 512-byte blocks rounded up and its
    other bits are the kernel's; and the command seen last is the dispatch of
    the work-item grid. *)
Theorem dispatch_registers_exact start ops loader pm4 g dyn ka c :
  start ∈ tape_starts →
  build start (ops ++ [OpDispatch loader (Some pm4) g dyn ka]) = Ok c →
  (0 ≤ compute_pgm_rsrc2 pm4)%Z → (0 ≤ group_segment_size loader + dyn)%Z →
  ∃ ps, dwords c = concat ps ∧ Forall packet_wf ps ∧ ∀ watch regs,
    let '(rf, evs) := exec watch regs ps in
    (rf COMPUTE_PGM_LO = wrap32 (Z.shiftr (code_entry pm4) 8) ∧
     rf (COMPUTE_PGM_LO + 1) = wrap32 (Z.shiftr (code_entry pm4) 40) ∧
     rf COMPUTE_PGM_RSRC1 = compute_pgm_rsrc1 pm4 ∧
     (let blocks := Z.shiftr (Z.land (rf (COMPUTE_PGM_RSRC1 + 1)) LDS_SIZE_MASK) LDS_SIZE_SHIFT in
      (blocks - 1) * 512 < group_segment_size loader + dyn ≤ blocks * 512) ∧
     Z.ldiff (rf (COMPUTE_PGM_RSRC1 + 1)) LDS_SIZE_MASK =
       Z.ldiff (compute_pgm_rsrc2 pm4) LDS_SIZE_MASK ∧
     rf COMPUTE_PGM_RSRC3_GFX12 = compute_pgm_rsrc3 pm4 ∧
     rf COMPUTE_TMPRING_SIZE = 0 ∧ rf COMPUTE_RESOURCE_LIMITS = 0x3ff ∧
     (rf COMPUTE_NUM_THREAD_X, rf (COMPUTE_NUM_THREAD_X + 1), rf (COMPUTE_NUM_THREAD_X + 2)) =
       (dim_x (workgroup g), dim_y (workgroup g), dim_z (workgroup g)) ∧
     (Z.land (kernel_code_properties pm4) ENABLE_SGPR_KERNARG_SEGMENT_PTR ≠ 0 →
      rf COMPUTE_USER_DATA_0 = wrap32 ka ∧ rf (COMPUTE_USER_DATA_0 + 1) = wrap32 (Z.shiftr ka 32)))%Z ∧
    last evs = Some (EvDispatch (rf <$> watch)
      [dim_x (grid_workitems g); dim_y (grid_workitems g); dim_z (grid_workitems g);
       dispatch_initiator
         (negb (Z.land (kernel_code_properties pm4) ENABLE_WAVEFRONT_SIZE32 =? 0)%Z)]).
Proof.
  intros Hs Hb Hr2 Hd. destruct (built_stream _ _ _ Hs Hb) as (ps & [Hw Hf _ _] & Heq).
  unfold build in Hb. rewrite try_fold_app in Hb.
  destruct (try_fold run_op start ops) as [b|e|] eqn:Eb; cbn [mbind result_bind] in Hb; [|done..].
  assert (Buffer_dispatch b loader (Some pm4) g dyn ka = Ok c) as Hdisp.
  { cbn in Hb. by destruct (Buffer_dispatch _ _ _ _ _ _). }
  apply dispatch_appends in Hdisp as (_ & _ & _ & Hblocks).
  exists ps. split; [done|]. split; [done|]. intros watch regs.
  pose proof (Heq watch regs) as [Hregs Hevs]. rewrite bind_app in Hregs, Hevs.
  rewrite bind_singleton, exec_dispatch in Hregs, Hevs. cbn [fst snd] in Hregs, Hevs.
  destruct (exec watch regs ps) as [rf evs] eqn:Ex. cbn [fst snd] in Hregs, Hevs.
  set (blocks := div_ceil (group_segment_size loader + dyn) GFX12_LDS_GRANULE) in *.
  assert ((blocks - 1) * 512 < group_segment_size loader + dyn ≤ blocks * 512)%Z as Hceil.
  { unfold blocks, div_ceil, GFX12_LDS_GRANULE. Z.div_mod_to_equations. lia. }
  destruct (encode_lds_fields (compute_pgm_rsrc2 pm4) blocks) as [Hl1 Hl2]; [done|lia|].
  assert (rf (COMPUTE_PGM_RSRC1 + 1)%Z = encode_lds (compute_pgm_rsrc2 pm4) blocks) as Hrsrc2.
  { rewrite Hregs. unfold dispatch_writes. by destruct (negb _). }
  split.
  - rewrite Hrsrc2, Hl1, Hl2. cbn zeta.
    repeat (split; [try done; rewrite ?Hregs; unfold dispatch_writes; by destruct (negb _)|]).
    intros Hka%Z.eqb_neq. rewrite !Hregs. unfold dispatch_writes. by rewrite Hka.
  - rewrite Hevs, last_snoc. do 2 f_equal. apply list_fmap_ext. intros ? x _. symmetry. apply Hregs.
Qed.

(** ** Witnesses *)

Definition demo_loader : KernelMetadata := mkKernelMetadata 7 16 16 600 0 false.
Definition demo_pm4 : KernelPm4Metadata := mkKernelPm4Metadata 0x123456789a00 0xa1 0xb2 0xc3 0x408.
Definition demo_dispatch_op (ka : Z) : tape_op :=
  OpDispatch demo_loader (Some demo_pm4)
    (mkLaunchGeometry (mkDim3 256 2 1) (mkDim3 64 1 1) 2) 100 ka.
Definition demo_tape : list tape_op :=
  [OpAcquireSystem; demo_dispatch_op 0x5000; OpWaitComputeIdle; OpAcquireInterNode; demo_dispatch_op 0x6000].

Definition built (start : Gfx12Pm4CommandBuffer) (ops : list tape_op) : Gfx12Pm4CommandBuffer :=
  match build start ops with Ok b => b | _ => start end.

(** The second dispatch of the stateful tape writes only the low kernarg word. *)
Lemma demo_elided :
  length (dwords (built Buffer_new demo_tape)) = 92 ∧
  length (dwords (built Buffer_new_stateful demo_tape)) = 63 ∧
  length (dwords (built Buffer_new_static_stateful demo_tape)) = 80.
Proof. by vm_compute. Qed.

Lemma register_elision_sound_witness :
  Buffer_new_stateful ∈ tape_starts ∧
  match build Buffer_new demo_tape, build Buffer_new_stateful demo_tape with
  | Ok b, Ok c => ∃ ps qs, dwords b = concat ps ∧ dwords c = concat qs ∧
      Forall packet_wf ps ∧ Forall packet_wf qs ∧
      ∀ watch regs, same_state (exec watch regs ps) (exec watch regs qs)
  | Err e, Err e' => e = e'
  | _, _ => False
  end.
Proof.
  assert (Buffer_new_stateful ∈ tape_starts) as H by (right; left).
  split; [exact H|]. exact (register_elision_sound Buffer_new_stateful demo_tape H).
Defined.

Lemma dispatch_registers_exact_witness :
  ∃ ps, dwords (built Buffer_new_stateful demo_tape) = concat ps ∧
    ∀ regs, (exec [] regs ps).1 COMPUTE_USER_DATA_0 = 0x6000%Z.
Proof.
  assert (Buffer_new_stateful ∈ tape_starts) as H by (right; left).
  destruct (dispatch_registers_exact Buffer_new_stateful (take 4 demo_tape) demo_loader demo_pm4
    (mkLaunchGeometry (mkDim3 256 2 1) (mkDim3 64 1 1) 2) 100 0x6000
    (built Buffer_new_stateful demo_tape) H) as (ps & Hw & _ & Hx);
    [vm_compute; reflexivity|vm_compute; discriminate|vm_compute; discriminate|].
  exists ps. split; [exact Hw|]. intros regs. specialize (Hx [] regs).
  destruct (exec [] regs ps) as [rf evs]. destruct Hx as [Hx _].
  destruct Hx as (_ & _ & _ & _ & _ & _ & _ & _ & _ & Hx). apply Hx. vm_compute. discriminate.
Defined.

Lemma per_dispatch_timestamps_exact_witness :
  timestamp_slot_count (built Buffer_new_stateful demo_tape) = Ok 3 ∧
  ∃ ps timed, dwords (built Buffer_new_stateful demo_tape) = concat ps ∧ Forall packet_wf ps ∧
    with_per_dispatch_timestamps (built Buffer_new_stateful demo_tape) 0x9000 = Ok timed ∧
    dwords timed = dwords (copy_gpu_timestamp Buffer_new 0x9000) ++
      concat (timed_packets 0x9000 1 ps).
Proof.
  assert (Buffer_new_stateful ∈ tape_starts) as H by (right; left).
  refine (per_dispatch_timestamps_exact Buffer_new_stateful demo_tape
    (built Buffer_new_stateful demo_tape) 0x9000 H _ _);
    [vm_compute; reflexivity|vm_compute; discriminate].
Defined.
