(* ===== verification/Bindings.v ===== *)
(** Replay bindings and prepared-plan stamps
    (src/crates/redline-dispatch/src/bindings.rs).

    A replay binds every resource of a compiled plan to an allocation and every
    scalar slot to bytes. An address is a [Z]; [usize] has 64 bits. The
    [BTreeMap]s are ascending lists; indexing one with an absent key panics, as
    does an overflowing [usize] addition.

    Proved here: validation accepts exactly the complete, disjoint bindings;
    under validated bindings the ordering guarantee of the compiler holds for
    absolute device addresses; and a prepared plan is declared current exactly
    when nothing it was prepared from has changed. *)

From S2P Require Import Prelude Ir Identity Recorder Graph Plan.

Inductive AllocationPolicy := HipCoarse | HsaCoarse | HsaFine | Uncached | External.

#[export] Instance AllocationPolicy_eq_dec : EqDecision AllocationPolicy.
Proof. solve_decision. Defined.

(** [AllocationPolicy::tag] *)
Definition policy_tag (p : AllocationPolicy) : Z :=
  match p with HipCoarse => 0 | HsaCoarse => 1 | HsaFine => 2 | Uncached => 3 | External => 4 end.

Record BindingRevision := mkRevision { revision_value : Z }.

#[export] Instance BindingRevision_eq_dec : EqDecision BindingRevision.
Proof. solve_decision. Defined.

Inductive ReplayBindingError : Type :=
| NullResourcePointer
| EmptyResourceBinding
| ResourceAddressOverflow (size : Z)
| ResourceNotBound (resource : ResourceId)
| ResourceTooSmall (resource : ResourceId) (required bound : Z)
| AliasingResources (first second : ResourceId)
| ScalarNotBound (slot : ScalarSlotId)
| ScalarSize (slot : ScalarSlotId) (expected : Z) (actual : nat).

Record ResourceBinding := mkBinding {
  binding_base : Z;
  binding_size : Z;
  binding_revision : BindingRevision;
  binding_policy : AllocationPolicy }.

(** [ResourceBinding::new] *)
Definition ResourceBinding_new (base size : Z) (revision : BindingRevision)
    (policy : AllocationPolicy) : result ReplayBindingError ResourceBinding :=
  err_if (base =? 0)%Z NullResourcePointer ;;
  err_if (size =? 0)%Z EmptyResourceBinding ;;
  err_if (U64_MAX <? size)%Z (ResourceAddressOverflow size) ;;
  ok_or (ResourceAddressOverflow size) (checked_add U64_MAX base size) ;;
  Ok (mkBinding base size revision policy).

Record ReplayBindings := mkReplayBindings {
  bound_resources : list (ResourceId * ResourceBinding);
  bound_scalars : list (ScalarSlotId * list Z) }.

(** [ReplayBindings::new], [bind_resource], [bind_scalar] *)
Definition ReplayBindings_new : ReplayBindings := mkReplayBindings [] [].

Definition bind_resource (b : ReplayBindings) (resource : ResourceId) (binding : ResourceBinding)
    : ReplayBindings :=
  mkReplayBindings (bmap_insert resource binding (bound_resources b)) (bound_scalars b).

Definition bind_scalar (b : ReplayBindings) (slot : ScalarSlotId) (bytes : list Z)
    : ReplayBindings :=
  mkReplayBindings (bound_resources b) (bmap_insert slot bytes (bound_scalars b)).

(** [ReplayBindings::resource], [ReplayBindings::scalar] *)
Definition Bindings_resource (b : ReplayBindings) (resource : ResourceId) : option ResourceBinding :=
  bmap_get resource (bound_resources b).

Definition Bindings_scalar (b : ReplayBindings) (slot : ScalarSlotId) : option (list Z) :=
  bmap_get slot (bound_scalars b).

(** [self.resources[&id]] *)
Definition resource_at {E} (b : ReplayBindings) (id : ResourceId) : result E ResourceBinding :=
  expect (Bindings_resource b id).

(** ** Validation *)

(** The first loop of [validate]. *)
Definition check_bound (b : ReplayBindings) (planned : PlannedResource)
    : result ReplayBindingError unit :=
  binding ← ok_or (ResourceNotBound (planned_id planned)) (Bindings_resource b (planned_id planned));
  err_if (binding_size binding <? planned_size planned)%Z
    (ResourceTooSmall (planned_id planned) (planned_size planned) (binding_size binding)).

(** The second loop. *)
Definition check_scalar (b : ReplayBindings) (entry : ScalarSlotId * Z)
    : result ReplayBindingError unit :=
  let '(slot, expected) := entry in
  bytes ← ok_or (ScalarNotBound slot) (Bindings_scalar b slot);
  err_if (negb (Z.of_nat (length bytes) =? expected)%Z) (ScalarSize slot expected (length bytes)).

(** The bounds of a binding, [start + size] checked. *)
Definition extent (b : ReplayBindings) (id : ResourceId) : result ReplayBindingError (Z * Z) :=
  binding ← resource_at b id;
  stop ← expect (checked_add U64_MAX (binding_base binding) (binding_size binding));
  Ok (binding_base binding, stop).

(** The body of the third loop. *)
Definition check_alias (b : ReplayBindings) (resources : list PlannedResource)
    (entry : nat * PlannedResource) : result ReplayBindingError unit :=
  let '(index, first) := entry in
  '(first_start, first_end) ← extent b (planned_id first);
  for_each (λ second,
      '(second_start, second_end) ← extent b (planned_id second);
      err_if ((first_start <? second_end) && (second_start <? first_end))%Z
        (AliasingResources (planned_id first) (planned_id second)))
    (drop (index + 1) resources).

(** [ReplayBindings::validate] *)
Definition Bindings_validate (b : ReplayBindings) (plan : CompiledPlan)
    : result ReplayBindingError unit :=
  for_each (check_bound b) (plan_resources plan) ;;
  for_each (check_scalar b) (scalar_slots plan) ;;
  for_each (check_alias b (plan_resources plan)) (enumerate (plan_resources plan)).

(** ** Layout fingerprint *)

Definition layout_domain : list Z := str_bytes "redline-binding-layout-v1" ++ [0%Z].

(** One resource of the hashed bytes. *)
Definition layout_resource (b : ReplayBindings) (planned : PlannedResource)
    : result ReplayBindingError (list Z) :=
  binding ← resource_at b (planned_id planned);
  Ok (put_u32 (Z.of_nat (resource_index (planned_id planned))) ++ put_u64 (planned_size planned)
      ++ [policy_tag (binding_policy binding)]).

Definition layout_slot (entry : ScalarSlotId * Z) : list Z :=
  put_u32 (slot_index entry.1) ++ put_u32 entry.2.

(** The bytes [layout_fingerprint] hashes, after validation. *)
Definition layout_preimage (b : ReplayBindings) (plan : CompiledPlan)
    : result ReplayBindingError (list Z) :=
  rows ← try_map (layout_resource b) (plan_resources plan);
  Ok (layout_domain ++ put_usize (length (plan_resources plan)) ++ concat rows ++
      concat (layout_slot <$> scalar_slots plan)).

Inductive PreparedPlanState : Type :=
| Current
| NeedsRebind (changed : list ResourceId).

Inductive PreparedPlanInvalidation : Type :=
| PlanChanged (prepared current : list Z)
| InvalidBindings (error : ReplayBindingError)
| BindingLayoutChanged (prepared current : list Z)
| ArtifactMissing (kernel : string)
| ArtifactChanged (kernel : string) (prepared current : KernelArtifactIdentity).

Record PreparedPlanStamp := mkStamp {
  stamp_plan : list Z;
  stamp_layout : list Z;
  (** [BTreeMap<u32, BindingRevision>] *)
  stamp_revisions : list (nat * BindingRevision);
  (** [BTreeMap<String, KernelArtifactIdentity>] *)
  stamp_artifacts : list (string * KernelArtifactIdentity) }.

Section stamps.
Context (sha256 : list Z → list Z).

(** [ReplayBindings::layout_fingerprint] *)
Definition layout_fingerprint (b : ReplayBindings) (plan : CompiledPlan)
    : result ReplayBindingError (list Z) :=
  Bindings_validate b plan ;;
  bytes ← layout_preimage b plan;
  Ok (sha256 bytes).

(** [iter.collect::<BTreeMap<_, _>>()] *)
Definition collect_map {K V} `{OrdKey K} (l : list (K * V)) : list (K * V) :=
  foldl (λ m '(k, v), bmap_insert k v m) [] l.

(** [PreparedPlanStamp::capture] *)
Definition Stamp_capture (plan : CompiledPlan) (b : ReplayBindings)
    : result ReplayBindingError PreparedPlanStamp :=
  binding_layout ← layout_fingerprint b plan;
  revisions ← try_map (λ planned,
      binding ← resource_at b (planned_id planned);
      Ok (resource_index (planned_id planned), binding_revision binding)) (plan_resources plan);
  Ok (mkStamp (plan_fingerprint plan) binding_layout (collect_map revisions)
        (collect_map (artifact_identities plan))).

(** The artifact loop of [PreparedPlanStamp::validate]. *)
Definition check_artifact (artifacts : ArtifactCatalog) (entry : string * KernelArtifactIdentity)
    : result PreparedPlanInvalidation unit :=
  let '(kernel, expected) := entry in
  current ← ok_or (ArtifactMissing kernel) (ArtifactCatalog_get artifacts kernel);
  err_if (negb (bool_decide (expected = current))) (ArtifactChanged kernel expected current).

(** The revision loop. *)
Definition collect_changed (s : PreparedPlanStamp) (b : ReplayBindings)
    (changed : list ResourceId) (planned : PlannedResource)
    : result PreparedPlanInvalidation (list ResourceId) :=
  binding ← resource_at b (planned_id planned);
  Ok (if bool_decide (bmap_get (resource_index (planned_id planned)) (stamp_revisions s)
                      = Some (binding_revision binding))
      then changed else changed ++ [planned_id planned]).

(** [PreparedPlanStamp::validate] *)
Definition Stamp_validate (s : PreparedPlanStamp) (plan : CompiledPlan) (b : ReplayBindings)
    (artifacts : ArtifactCatalog) : result PreparedPlanInvalidation PreparedPlanState :=
  err_if (negb (bool_decide (stamp_plan s = plan_fingerprint plan)))
    (PlanChanged (stamp_plan s) (plan_fingerprint plan)) ;;
  current_layout ← map_err InvalidBindings (layout_fingerprint b plan);
  err_if (negb (bool_decide (stamp_layout s = current_layout)))
    (BindingLayoutChanged (stamp_layout s) current_layout) ;;
  for_each (check_artifact artifacts) (stamp_artifacts s) ;;
  changed ← try_fold (collect_changed s b) [] (plan_resources plan);
  Ok (match changed with [] => Current | _ => NeedsRebind changed end).
End stamps.

(** ** What validation establishes *)

(** What [ResourceBinding::new] establishes. *)
Definition binding_wf (bd : ResourceBinding) : Prop :=
  (0 < binding_base bd ∧ 0 < binding_size bd ∧ binding_base bd + binding_size bd ≤ U64_MAX)%Z.

(** Bindings the public interface can build. *)
Inductive bindings_built : ReplayBindings → Prop :=
| built_new : bindings_built ReplayBindings_new
| built_resource b id base size revision policy bd :
    bindings_built b → is_u64 base → is_u64 size →
    ResourceBinding_new base size revision policy = Ok bd →
    bindings_built (bind_resource b id bd)
| built_scalar b slot bytes : bindings_built b → bindings_built (bind_scalar b slot bytes).

Lemma ResourceBinding_new_wf base size revision policy bd :
  is_u64 base → is_u64 size → ResourceBinding_new base size revision policy = Ok bd →
  bd = mkBinding base size revision policy ∧ binding_wf bd.
Proof.
  intros Hb Hs H. unfold ResourceBinding_new in H. inv_ok. to_prop.
  rewrite checked_add_Some in Hx2. split; [done|]. unfold binding_wf; cbn. ulia.
Qed.

Lemma built_wf b : bindings_built b →
  ∀ id bd, Bindings_resource b id = Some bd → binding_wf bd.
Proof.
  induction 1 as [|b id base size rev pol bd Hb IH H1 H2 Hnew|b slot bytes Hb IH]; [done| |done].
  intros id' bd'. unfold Bindings_resource, bind_resource. cbn. rewrite bmap_get_insert.
  destruct (kcmp id' id); [|by apply IH..]. intros [= <-].
  by destruct (ResourceBinding_new_wf _ _ _ _ _ H1 H2 Hnew).
Qed.

(** The bytes of two bindings have no common address. *)
Definition disjoint_bindings (a b : ResourceBinding) : Prop :=
  (binding_base a + binding_size a ≤ binding_base b ∨
   binding_base b + binding_size b ≤ binding_base a)%Z.

#[export] Instance disjoint_bindings_dec a b : Decision (disjoint_bindings a b).
Proof. unfold disjoint_bindings. apply _. Defined.

(** Everything the plan names is bound, large enough and apart. *)
Record valid_bindings (b : ReplayBindings) (plan : CompiledPlan) : Prop := {
  vb_resources pr : pr ∈ plan_resources plan → ∃ bd,
    Bindings_resource b (planned_id pr) = Some bd ∧ (planned_size pr ≤ binding_size bd)%Z;
  vb_scalars slot size : (slot, size) ∈ scalar_slots plan → ∃ bytes,
    Bindings_scalar b slot = Some bytes ∧ Z.of_nat (length bytes) = size;
  vb_disjoint i j p q : i < j →
    plan_resources plan !! i = Some p → plan_resources plan !! j = Some q →
    ∀ bp bq, Bindings_resource b (planned_id p) = Some bp →
      Bindings_resource b (planned_id q) = Some bq → disjoint_bindings bp bq }.

Lemma check_bound_Ok b pr : check_bound b pr = Ok tt ↔
  ∃ bd, Bindings_resource b (planned_id pr) = Some bd ∧ (planned_size pr ≤ binding_size bd)%Z.
Proof.
  unfold check_bound. destruct (Bindings_resource _ _) as [bd|]; cbn [ok_or mbind result_bind];
    [|naive_solver].
  rewrite err_if_Ok, Z.ltb_ge. naive_solver.
Qed.

Lemma check_scalar_Ok b slot size : check_scalar b (slot, size) = Ok tt ↔
  ∃ bytes, Bindings_scalar b slot = Some bytes ∧ Z.of_nat (length bytes) = size.
Proof.
  unfold check_scalar. destruct (Bindings_scalar _ _) as [bd|]; cbn [ok_or mbind result_bind];
    [|naive_solver].
  rewrite err_if_Ok, negb_false_iff, Z.eqb_eq. naive_solver.
Qed.

Lemma extent_Ok b id bd : Bindings_resource b id = Some bd → binding_wf bd →
  extent b id = Ok (binding_base bd, binding_base bd + binding_size bd)%Z.
Proof.
  intros H (_ & _ & Hw). unfold extent, resource_at. rewrite H. cbn [expect mbind result_bind].
  by rewrite (proj2 (checked_add_Some _ _ _ _) (conj eq_refl Hw)).
Qed.

Section alias.
Context (b : ReplayBindings) (plan : CompiledPlan) (Hb : bindings_built b).
Context (Hall : ∀ pr, pr ∈ plan_resources plan → check_bound b pr = Ok tt).

Lemma bound_extent i p : plan_resources plan !! i = Some p → ∃ bd,
  Bindings_resource b (planned_id p) = Some bd ∧ binding_wf bd ∧
  extent b (planned_id p) = Ok (binding_base bd, binding_base bd + binding_size bd)%Z.
Proof using Hall Hb.
  intros Hp. destruct (proj1 (check_bound_Ok b p)) as (bd & Hbd & _).
  { eapply Hall, list_elem_of_lookup_2, Hp. }
  exists bd. split; [done|]. assert (binding_wf bd) by by eapply built_wf.
  by eauto using extent_Ok.
Qed.

(** The test of two resources decides whether their bindings are apart. *)
Lemma check_alias_pair i j p q bp bq :
  plan_resources plan !! i = Some p → plan_resources plan !! j = Some q →
  Bindings_resource b (planned_id p) = Some bp → Bindings_resource b (planned_id q) = Some bq →
  ('(second_start, second_end) ← extent b (planned_id q);
   err_if ((binding_base bp <? second_end) &&
           (second_start <? binding_base bp + binding_size bp))%Z
     (AliasingResources (planned_id p) (planned_id q))) =
  if bool_decide (disjoint_bindings bp bq) then Ok tt
  else Err (AliasingResources (planned_id p) (planned_id q)).
Proof using Hall Hb.
  intros Hp Hq Hbp Hbq. destruct (bound_extent j q Hq) as (bq' & Hbq' & Hw & ->).
  rewrite Hbq in Hbq'. injection Hbq' as <-. cbn [mbind result_bind].
  unfold err_if, disjoint_bindings.
  repeat match goal with |- context [(?x <? ?y)%Z] => destruct (Z.ltb_spec x y) end;
    case_bool_decide; cbn; (done || lia).
Qed.

Lemma check_alias_Ok i p bp :
  plan_resources plan !! i = Some p → Bindings_resource b (planned_id p) = Some bp →
  check_alias b (plan_resources plan) (i, p) ≠ Panic ∧
  (check_alias b (plan_resources plan) (i, p) = Ok tt ↔
   ∀ j q bq, i < j → plan_resources plan !! j = Some q →
     Bindings_resource b (planned_id q) = Some bq → disjoint_bindings bp bq).
Proof using Hall Hb.
  intros Hp Hbp. unfold check_alias.
  destruct (bound_extent i p Hp) as (bp' & Hbp' & _ & ->).
  rewrite Hbp in Hbp'. injection Hbp' as <-. cbn [mbind result_bind].
  assert (∀ q, q ∈ drop (i + 1) (plan_resources plan) ↔
    ∃ j, i < j ∧ plan_resources plan !! j = Some q) as Hdrop.
  { intros q. rewrite list_elem_of_lookup. setoid_rewrite lookup_drop. split.
    - intros [k Hk]. exists (i + 1 + k). split; [lia|done].
    - intros (j & Hj & Hq). exists (j - (i + 1)). by replace (i + 1 + (j - (i + 1))) with j by lia. }
  split.
  - apply for_each_no_panic. intros q (j & Hj & Hq)%Hdrop.
    destruct (bound_extent j q Hq) as (bq & Hbq & _ & _).
    rewrite (check_alias_pair i j p q bp bq Hp Hq Hbp Hbq). by case_bool_decide.
  - rewrite for_each_Ok. setoid_rewrite Hdrop. split.
    + intros H j q bq Hj Hq Hbq. specialize (H q ltac:(by exists j)).
      rewrite (check_alias_pair i j p q bp bq Hp Hq Hbp Hbq) in H. by case_bool_decide.
    + intros H q (j & Hj & Hq). destruct (bound_extent j q Hq) as (bq & Hbq & _ & _).
      rewrite (check_alias_pair i j p q bp bq Hp Hq Hbp Hbq).
      rewrite bool_decide_eq_true_2; [done|]. by eapply H.
Qed.
End alias.

Lemma validate_spec b plan : bindings_built b →
  Bindings_validate b plan ≠ Panic ∧ (Bindings_validate b plan = Ok tt ↔ valid_bindings b plan).
Proof.
  intros Hb. unfold Bindings_validate.
  assert (for_each (check_bound b) (plan_resources plan) ≠ Panic) as N1.
  { apply for_each_no_panic. intros pr _. unfold check_bound.
    destruct (Bindings_resource _ _); cbn; [by destruct (_ <? _)%Z|done]. }
  assert (for_each (check_scalar b) (scalar_slots plan) ≠ Panic) as N2.
  { apply for_each_no_panic. intros [slot size] _. unfold check_scalar.
    destruct (Bindings_scalar _ _); cbn; [by destruct (negb _)|done]. }
  destruct (for_each (check_bound b) _) as [[]|e|] eqn:E1; cbn [mbind result_bind]; [| |done].
  2: { split; [done|]. split; [done|]. intros [H _ _]. exfalso.
       assert (for_each (check_bound b) (plan_resources plan) = Ok tt) as E; [|congruence].
       apply for_each_Ok. intros pr Hpr. apply check_bound_Ok, H, Hpr. }
  pose proof (proj1 (for_each_Ok _ _) E1) as Hall.
  destruct (for_each (check_scalar b) _) as [[]|e|] eqn:E2; cbn [mbind result_bind]; [| |done].
  2: { split; [done|]. split; [done|]. intros [_ H _]. exfalso.
       assert (for_each (check_scalar b) (scalar_slots plan) = Ok tt) as E; [|congruence].
       apply for_each_Ok. intros [slot size] Hpr. apply check_scalar_Ok, H, Hpr. }
  assert (∀ i p, plan_resources plan !! i = Some p → ∃ bp,
    Bindings_resource b (planned_id p) = Some bp) as Hsome.
  { intros i p Hp. destruct (bound_extent b plan Hb Hall i p Hp) as (bd & ? & _). eauto. }
  split.
  - apply for_each_no_panic. intros [i p] Hp%elem_of_enumerate. destruct (Hsome i p Hp) as [bp Hbp].
    by apply (check_alias_Ok b plan Hb Hall i p bp).
  - rewrite for_each_Ok. split.
    + intros H. split.
      * intros pr Hpr. by apply check_bound_Ok, Hall.
      * intros slot size Hin. apply check_scalar_Ok. by eapply for_each_Ok in E2.
      * intros i j p q Hij Hp Hq bp bq Hbp Hbq.
        specialize (H (i, p) (proj2 (elem_of_enumerate _ _ _) Hp)).
        by eapply (proj1 (proj2 (check_alias_Ok b plan Hb Hall i p bp Hp Hbp)) H).
    + intros [_ _ H] [i p] Hp%elem_of_enumerate. destruct (Hsome i p Hp) as [bp Hbp].
      apply (check_alias_Ok b plan Hb Hall i p bp Hp Hbp). intros j q bq Hj Hq Hbq. by eapply H.
Qed.

(** ** Claims *)

(** Validation is exact and total. On bindings built through the public
    interface it never panics, and it accepts them exactly when every planned
    resource is bound to an allocation that is large enough, every scalar slot
    to bytes of its size, and no two planned resources share an address. *)
Theorem validate_exact b plan :
  bindings_built b →
  Bindings_validate b plan ≠ Panic ∧ (Bindings_validate b plan = Ok tt ↔ valid_bindings b plan).
Proof. apply validate_spec. Qed.

(** The device address [x] belongs to the access under the bindings. *)
Definition at_device (b : ReplayBindings) (a : Access) (x : Z) : Prop :=
  ∃ bd, Bindings_resource b (region_resource (access_region a)) = Some bd ∧
    (binding_base bd + region_offset (access_region a) ≤ x
       < binding_base bd + region_end (access_region a))%Z.

(** Accesses of a plan lie in its resources. *)
Lemma access_planned r options p d a :
  rec_wf r → plan_of r options p → d ∈ plan_dispatches p → a ∈ planned_accesses d →
  ∃ i pr, plan_resources p !! i = Some pr ∧ planned_id pr = region_resource (access_region a) ∧
    i = resource_index (region_resource (access_region a)) ∧
    (0 ≤ region_offset (access_region a) ∧ region_end (access_region a) ≤ planned_size pr)%Z.
Proof.
  intros Hwf Hp [i Hd]%list_elem_of_lookup Ha.
  destruct (greedy_at _ _ _ (po_greedy _ _ _ Hp) i d Hd) as [(nd & Hnd & _ & Hacc) _ _ _ _].
  rewrite Hacc in Ha. apply list_elem_of_lookup_2 in Hnd.
  destruct (wf_accesses r Hwf nd a Hnd Ha) as ((H0 & _) & Hown & res & Hres & Hend).
  eexists _, _. rewrite (po_resources _ _ _ Hp). unfold planned_resources.
  rewrite list_lookup_imap, Hres. split; [done|]. cbn. split; [|done].
  destruct (region_resource _). by cbn in Hown |- *; subst.
Qed.

Lemma device_conflict r options p b d e a c x :
  rec_wf r → plan_of r options p → bindings_built b → Bindings_validate b p = Ok tt →
  d ∈ plan_dispatches p → e ∈ plan_dispatches p →
  a ∈ planned_accesses d → c ∈ planned_accesses e → at_device b a x → at_device b c x →
  overlaps (access_region a) (access_region c) = true.
Proof.
  intros Hwf Hp Hb Hval Hd He Ha Hc (ba & Hba & Hxa) (bc & Hbc & Hxc).
  apply (validate_spec b p Hb) in Hval.
  destruct (access_planned _ _ _ _ _ Hwf Hp Hd Ha) as (i & pi & Hi & Hidi & Hii & Hbi).
  destruct (access_planned _ _ _ _ _ Hwf Hp He Hc) as (j & pj & Hj & Hidj & Hij & Hbj).
  pose proof (vb_resources _ _ Hval pi (list_elem_of_lookup_2 _ _ _ Hi)) as (bi & Hbi' & Hsi).
  pose proof (vb_resources _ _ Hval pj (list_elem_of_lookup_2 _ _ _ Hj)) as (bj & Hbj' & Hsj).
  rewrite Hidi, Hba in Hbi'. injection Hbi' as <-. rewrite Hidj, Hbc in Hbj'. injection Hbj' as <-.
  rewrite <- Hidi in Hba. rewrite <- Hidj in Hbc.
  assert (region_resource (access_region a) = region_resource (access_region c)) as Hsame.
  { rewrite <- Hidi, <- Hidj. destruct (lt_eq_lt_dec i j) as [[Hlt| ->]|Hlt].
    - destruct (vb_disjoint _ _ Hval i j pi pj Hlt Hi Hj ba bc Hba Hbc); lia.
    - congruence.
    - destruct (vb_disjoint _ _ Hval j i pj pi Hlt Hj Hi bc ba Hbc Hba); lia. }
  unfold overlaps. rewrite bool_decide_eq_true_2 by done. cbn [andb].
  rewrite Hidi, Hsame, <- Hidj, Hbc in Hba. injection Hba as <-.
  apply andb_true_iff. rewrite !Z.ltb_lt. lia.
Qed.

(** Replay is race free on device addresses. Under validated bindings every
    access of a compiled plan stays within the allocation bound to its
    resource, and of two dispatches that touch a common device address, one of
    them writing it, the one submitted first precedes the other in the
    dependency graph and ends before the other starts. *)
Theorem device_race_free sha256 r options p b :
  recorded r → option_lane_count options ≠ 0 → compile sha256 r options = Ok p →
  bindings_built b → Bindings_validate b p = Ok tt →
  (∀ d a, d ∈ plan_dispatches p → a ∈ planned_accesses d → ∃ bd,
     Bindings_resource b (region_resource (access_region a)) = Some bd ∧
     ∀ x, at_device b a x → (binding_base bd ≤ x < binding_base bd + binding_size bd)%Z) ∧
  (∀ i j di dj a c x, i < j → plan_dispatches p !! i = Some di → plan_dispatches p !! j = Some dj →
     a ∈ planned_accesses di → c ∈ planned_accesses dj → at_device b a x → at_device b c x →
     access_mode a = Write ∨ access_mode c = Write →
     tc (edge (edges r)) (planned_node di) (planned_node dj) ∧
     (estimated_end di ≤ estimated_start dj)%Z).
Proof.
  intros Hr Hl Hc Hb Hval. destruct (compile_Ok _ _ _ _ Hr Hl Hc) as (Hwf & _ & Hp & _). split.
  - intros d a Hd Ha. destruct (access_planned _ _ _ _ _ Hwf Hp Hd Ha) as (i & pi & Hi & Hid & _ & Hbd).
    apply (validate_spec b p Hb) in Hval.
    destruct (vb_resources _ _ Hval pi (list_elem_of_lookup_2 _ _ _ Hi)) as (bd & Hbound & Hs).
    exists bd. rewrite <- Hid. split; [done|]. intros x (bd' & Hbd' & Hx).
    rewrite <- Hid, Hbound in Hbd'. injection Hbd' as <-. lia.
  - intros i j di dj a c x Hij Hi Hj Ha Hc' Hxa Hxc Hw.
    eapply (conflict_precedes sha256 r options p i j di dj); [done..|]. exists a, c.
    split; [done|]. split; [done|]. split; [|done].
    eapply (device_conflict r options p b di dj a c x); eauto using list_elem_of_lookup_2.
Qed.

(** ** Prepared plans *)

(** Inserting above every key appends. *)
Lemma bmap_insert_last `{OrdKey K} {V} (k : K) (v : V) m :
  Forall (λ x, klt x k) m.*1 → bmap_insert k v m = m ++ [(k, v)].
Proof.
  induction m as [|[x w] m IH]; [done|]. cbn. intros H1. inversion H1 as [|? ? Hx Hm]; subst.
  rewrite (kcmp_opp x k). unfold klt in Hx. rewrite Hx. cbn. by rewrite IH.
Qed.

(** Collecting entries that already ascend changes nothing. *)
Lemma collect_map_sorted `{OrdKey K} {V} (l : list (K * V)) : bmap_sorted l → collect_map l = l.
Proof.
  intros Hs. unfold collect_map.
  assert (∀ (l acc : list (K * V)), StronglySorted klt (acc ++ l).*1 →
    foldl (λ m '(k, v), bmap_insert k v m) acc l = acc ++ l) as Hgo; [|by apply Hgo].
  clear. induction l as [|[k v] l IH]; intros acc Hs; [by rewrite app_nil_r|]. cbn [foldl].
  rewrite bmap_insert_last.
  - rewrite IH; rewrite <- app_assoc; done.
  - rewrite fmap_app in Hs. apply Forall_forall. intros x Hx.
    eapply StronglySorted_app_1_elem_of; [exact Hs|done|]. left.
Qed.

Lemma artifact_identities_sorted p : bmap_sorted (artifact_identities p).
Proof.
  unfold artifact_identities.
  assert (∀ (ds : list PlannedDispatch) m, bmap_sorted m → bmap_sorted
    (foldl (λ artifacts dispatch, match artifact_identity (planned_launch dispatch) with
      | Some identity => bmap_insert (kernel (planned_launch dispatch)) identity artifacts
      | None => artifacts end) m ds)) as Hgo; [|by apply Hgo; constructor].
  induction ds as [|d ds IH]; intros m Hm; [done|]. cbn [foldl]. apply IH.
  destruct (artifact_identity _); [by apply bmap_insert_sorted|done].
Qed.

(** The resources of a plan carry ascending indices. *)
Lemma planned_indices r : (λ pr, resource_index (planned_id pr)) <$> planned_resources r =
  seq 0 (length (resources r)).
Proof.
  apply list_eq. intros i. unfold planned_resources.
  rewrite list_lookup_fmap, list_lookup_imap.
  destruct (resources r !! i) as [res|] eqn:E; cbn.
  - by rewrite lookup_seq_lt by by eapply lookup_lt_Some.
  - by rewrite lookup_seq_ge by by apply lookup_ge_None.
Qed.

Lemma seq_klt n : ∀ k, StronglySorted klt (seq k n).
Proof.
  induction n as [|n IH]; intros k; cbn; constructor; [done|].
  apply Forall_forall. intros x Hx%elem_of_seq. apply Nat.compare_lt_iff. lia.
Qed.

Definition bound_policy (b : ReplayBindings) (pr : PlannedResource) : option AllocationPolicy :=
  binding_policy <$> Bindings_resource b (planned_id pr).
Definition bound_revision (b : ReplayBindings) (pr : PlannedResource) : option BindingRevision :=
  binding_revision <$> Bindings_resource b (planned_id pr).

(** The bytes of one resource carry its policy. *)
Lemma layout_resource_policy b b' pr row row' :
  layout_resource b pr = Ok row → layout_resource b' pr = Ok row' →
  length row = length row' ∧ (row = row' ↔ bound_policy b pr = bound_policy b' pr).
Proof.
  unfold layout_resource, resource_at, bound_policy. intros H H'.
  destruct (Bindings_resource b _) as [bd|]; cbn [expect mbind result_bind] in H; [|done].
  destruct (Bindings_resource b' _) as [bd'|]; cbn [expect mbind result_bind] in H'; [|done].
  apply Ok_inj in H as <-, H' as <-. split; [by rewrite !length_app|]. cbn [fmap option_fmap option_map].
  split.
  - intros H%app_inv_head%app_inv_head. injection H as H. f_equal.
    by destruct (binding_policy bd), (binding_policy bd').
  - intros [= ->]. done.
Qed.

Lemma layout_rows_policy b b' (l : list PlannedResource) tl : ∀ rows rows',
  Forall2 (λ pr row, layout_resource b pr = Ok row) l rows →
  Forall2 (λ pr row, layout_resource b' pr = Ok row) l rows' →
  concat rows ++ tl = concat rows' ++ tl ↔
    Forall (λ pr, bound_policy b pr = bound_policy b' pr) l.
Proof.
  induction l as [|pr l IH]; intros rows rows' H H'; inversion H; inversion H'; subst; [done|].
  rewrite !concat_cons, <- !app_assoc, Forall_cons.
  destruct (layout_resource_policy b b' pr y y0) as [Hlen Hiff]; [done..|].
  rewrite <- Hiff, <- IH by done. split.
  - intros He. by apply app_inj_1 in He.
  - by intros [-> ->].
Qed.

Section stamp.
Context (sha256 : list Z → list Z) (r : Recorder) (options : CompileOptions) (p : CompiledPlan).
Context (Hp : plan_of r options p).
Context (b b' : ReplayBindings) (Hb : bindings_built b) (Hb' : bindings_built b').

Lemma layout_rows c : bindings_built c → Bindings_validate c p = Ok tt → ∃ rows,
  Forall2 (λ pr row, layout_resource c pr = Ok row) (plan_resources p) rows ∧
  layout_preimage c p = Ok (layout_domain ++ put_usize (length (plan_resources p)) ++
    concat rows ++ concat (layout_slot <$> scalar_slots p)).
Proof using Type.
  intros Hc Hv%(validate_spec c p Hc).
  assert (∃ rows, try_map (layout_resource c) (plan_resources p) = Ok rows) as [rows Hrows].
  { pose proof (vb_resources _ _ Hv) as Hall. clear Hv. revert Hall.
    induction (plan_resources p) as [|pr l IH]; intros Hall; [by eexists|]. cbn [try_map].
    destruct (Hall pr) as (bd & Hbd & _); [left|].
    assert (∃ row, layout_resource c pr = Ok row) as [row ->].
    { unfold layout_resource, resource_at. rewrite Hbd. by eexists. }
    cbn [mbind result_bind].
    destruct IH as [rows ->]; [intros pr' Hin; apply Hall; by right|]. by eexists. }
  exists rows. split; [by apply try_map_Ok|]. unfold layout_preimage. by rewrite Hrows.
Qed.

Lemma capture_Ok s : Stamp_capture sha256 p b = Ok s →
  Bindings_validate b p = Ok tt ∧ stamp_plan s = plan_fingerprint p ∧
  (∃ x, layout_preimage b p = Ok x ∧ stamp_layout s = sha256 x) ∧
  stamp_artifacts s = artifact_identities p ∧
  ∀ pr, pr ∈ plan_resources p →
    bmap_get (resource_index (planned_id pr)) (stamp_revisions s) = bound_revision b pr.
Proof using Hp.
  unfold Stamp_capture, layout_fingerprint. intros H. inv_ok.
  destruct x1. cbn [stamp_plan stamp_layout stamp_artifacts stamp_revisions].
  split; [done|]. split; [done|]. split; [by eexists|].
  split; [apply collect_map_sorted, artifact_identities_sorted|].
  apply try_map_Ok in Hx0.
  assert (x0.*1 = seq 0 (length (resources r))) as Hkeys.
  { rewrite <- planned_indices, <- (po_resources _ _ _ Hp). clear -Hx0.
    induction Hx0 as [|pr [i rev] l rows Hrow _ IH]; [done|]. cbn. rewrite IH. f_equal.
    inv_ok. done. }
  assert (bmap_sorted x0) as Hs by (unfold bmap_sorted; rewrite Hkeys; apply seq_klt).
  rewrite collect_map_sorted by done. intros pr [i Hi]%list_elem_of_lookup.
  destruct (Forall2_lookup_l _ _ _ _ _ Hx0 Hi) as ([k rev] & Hk & Hrow).
  unfold resource_at in Hrow. apply bind_Ok in Hrow as (bd & Hbd%expect_Ok & [= <- <-]).
  unfold bound_revision. rewrite Hbd. cbn.
  apply bmap_elem_get; [done|]. by eapply list_elem_of_lookup_2.
Qed.

(** The resources whose revision the bindings [b'] change. *)
Definition changed_resources : list ResourceId :=
  planned_id <$> filter (λ pr, bound_revision b pr ≠ bound_revision b' pr) (plan_resources p).

Lemma collect_changed_Ok s : Bindings_validate b' p = Ok tt →
  (∀ pr, pr ∈ plan_resources p →
    bmap_get (resource_index (planned_id pr)) (stamp_revisions s) = bound_revision b pr) →
  try_fold (collect_changed s b') [] (plan_resources p) = Ok changed_resources.
Proof using Hb'.
  intros Hv%(validate_spec b' p Hb') Hrev. unfold changed_resources.
  assert (∀ l acc, (∀ pr, pr ∈ l → pr ∈ plan_resources p) →
    try_fold (collect_changed s b') acc l = Ok (acc ++
      (planned_id <$> filter (λ pr, bound_revision b pr ≠ bound_revision b' pr) l))) as Hgo;
    [|by apply (Hgo (plan_resources p) [])].
  induction l as [|pr l IH]; intros acc Hl; [cbn; by rewrite app_nil_r|].
  assert (pr ∈ plan_resources p) as Hpr by (apply Hl; left).
  rewrite try_fold_cons, filter_cons.
  assert (collect_changed s b' acc pr = Ok (if decide (bound_revision b pr ≠ bound_revision b' pr)
    then acc ++ [planned_id pr] else acc)) as ->.
  { unfold collect_changed, resource_at. destruct (vb_resources _ _ Hv pr Hpr) as (bd & Hbd & _).
    rewrite Hbd, (Hrev pr Hpr). cbn [expect mbind result_bind].
    assert (bound_revision b' pr = Some (binding_revision bd)) as -> by (unfold bound_revision; by rewrite Hbd).
    by case_bool_decide; case_decide. }
  cbn [mbind result_bind]. rewrite IH by (intros ? ?; apply Hl; by right).
  case_decide; [|done]. by rewrite fmap_cons, <- app_assoc.
Qed.

(** Nothing the plan was prepared from has changed, revisions apart. *)
Definition same_preparation (artifacts : ArtifactCatalog) : Prop :=
  valid_bindings b' p ∧
  Forall (λ pr, bound_policy b pr = bound_policy b' pr) (plan_resources p) ∧
  ∀ k id, (k, id) ∈ artifact_identities p → ArtifactCatalog_get artifacts k = Some id.

Lemma stamp_validate_spec s artifacts :
  Stamp_capture sha256 p b = Ok s →
  (∀ x y, layout_preimage b p = Ok x → layout_preimage b' p = Ok y → sha256 x = sha256 y → x = y) →
  Stamp_validate sha256 s p b' artifacts ≠ Panic ∧
  ∀ st, Stamp_validate sha256 s p b' artifacts = Ok st ↔
    same_preparation artifacts ∧
    st = match changed_resources with [] => Current | l => NeedsRebind l end.
Proof using Hp Hb Hb'.
  intros (Hv & Hplan & (x & Hx & Hlay) & Hart & Hrev)%capture_Ok Hinj.
  unfold Stamp_validate. rewrite Hplan, bool_decide_eq_true_2 by done. cbn [negb err_if mbind result_bind].
  unfold layout_fingerprint, same_preparation. destruct (validate_spec b' p Hb') as [Hnp Hiff].
  destruct (Bindings_validate b' p) as [[]|e|] eqn:Ev; cbn [mbind result_bind map_err]; [| |done].
  2: { split; [done|]. intros st. split; [done|]. intros [[Hv' _] _].
       apply Hiff in Hv'. discriminate. }
  destruct (layout_rows b Hb Hv) as (rows & Hrows & Hpre).
  destruct (layout_rows b' Hb' Ev) as (rows' & Hrows' & Hpre').
  pose proof (layout_rows_policy b b' (plan_resources p) (concat (layout_slot <$> scalar_slots p))
    _ _ Hrows Hrows') as Hpol.
  rewrite Hx in Hpre. apply Ok_inj in Hpre.
  rewrite Hpre'. cbn [mbind result_bind map_err]. rewrite Hlay.
  set (y := layout_domain ++ put_usize (length (plan_resources p)) ++ concat rows' ++
    concat (layout_slot <$> scalar_slots p)) in *.
  assert (sha256 x = sha256 y ↔ Forall (λ pr, bound_policy b pr = bound_policy b' pr)
    (plan_resources p)) as Hsha.
  { rewrite <- Hpol. split.
    - intros Heq%(Hinj _ _ Hx Hpre'). unfold y in Heq. rewrite Hpre in Heq.
      by apply app_inv_head, app_inv_head in Heq.
    - intros Heq. unfold y. rewrite Hpre. by rewrite Heq. }
  destruct (decide (sha256 x = sha256 y)) as [Es|Es].
  2: { rewrite bool_decide_eq_false_2 by done. cbn. split; [done|]. naive_solver. }
  rewrite bool_decide_eq_true_2 by done. cbn [negb err_if mbind result_bind].
  rewrite Hart.
  assert (∀ k id, check_artifact artifacts (k, id) = Ok tt ↔ ArtifactCatalog_get artifacts k = Some id) as Hca.
  { intros k id. unfold check_artifact. destruct (ArtifactCatalog_get artifacts k); cbn; [|done].
    rewrite err_if_Ok, negb_false_iff, bool_decide_eq_true. naive_solver. }
  assert (for_each (check_artifact artifacts) (artifact_identities p) ≠ Panic) as Hnp2.
  { apply for_each_no_panic. intros [k id] _. unfold check_artifact.
    destruct (ArtifactCatalog_get artifacts k); cbn; [by destruct (negb _)|done]. }
  destruct (for_each (check_artifact artifacts) _) as [[]|e|] eqn:Ea; cbn [mbind result_bind]; [| |done].
  2: { split; [done|]. intros st. split; [done|]. intros [(_ & _ & Hall) _]. exfalso.
       assert (for_each (check_artifact artifacts) (artifact_identities p) = Ok tt); [|congruence].
       apply for_each_Ok. intros [k id] Hin. by apply Hca, Hall. }
  rewrite collect_changed_Ok by done. cbn [mbind result_bind]. split; [done|].
  intros st. split.
  - intros [= <-]. split; [|by destruct changed_resources]. split; [by apply Hiff|].
    split; [by apply Hsha|]. intros k id Hin. apply Hca. by eapply for_each_Ok in Ea.
  - intros [_ ->]. by destruct changed_resources.
Qed.
End stamp.

(** A prepared plan is reused exactly when nothing it was prepared from has
    changed. For a compiled plan prepared under bindings [b], checking the
    stamp under bindings [b'] never panics; when the hash keeps the two layouts
    apart, it succeeds exactly when the new bindings are valid, keep every
    allocation policy and every kernel artifact is the recorded one; and it
    then answers current, or names exactly the resources whose binding revision
    changed. *)
Theorem stamp_validate_exact sha256 r options p b b' s artifacts :
  recorded r → option_lane_count options ≠ 0 → compile sha256 r options = Ok p →
  bindings_built b → bindings_built b' → Stamp_capture sha256 p b = Ok s →
  (∀ x y, layout_preimage b p = Ok x → layout_preimage b' p = Ok y → sha256 x = sha256 y → x = y) →
  Stamp_validate sha256 s p b' artifacts ≠ Panic ∧
  ∀ st, Stamp_validate sha256 s p b' artifacts = Ok st ↔
    same_preparation p b b' artifacts ∧
    st = match changed_resources p b b' with [] => Current | l => NeedsRebind l end.
Proof.
  intros Hr Hl Hc Hb Hb'. destruct (compile_Ok _ _ _ _ Hr Hl Hc) as (_ & _ & Hp & _).
  by eapply stamp_validate_spec.
Qed.

(** ** Witnesses *)

Definition demo_binding (base : Z) (revision : Z) : ResourceBinding :=
  mkBinding base 4096 (mkRevision revision) HsaFine.
Definition demo_bindings (base revision : Z) : ReplayBindings :=
  bind_resource ReplayBindings_new demo_resource (demo_binding base revision).

Lemma demo_bindings_built base revision :
  is_u64 base → (base ≠ 0)%Z → (base + 4096 ≤ U64_MAX)%Z → bindings_built (demo_bindings base revision).
Proof.
  intros Hb Hn Hm.
  apply (built_resource ReplayBindings_new demo_resource base 4096 (mkRevision revision) HsaFine);
    [constructor|done|ulia|].
  unfold ResourceBinding_new. rewrite (proj2 (Z.eqb_neq base 0) Hn). cbn [err_if mbind result_bind].
  by rewrite (proj2 (checked_add_Some _ _ _ _) (conj eq_refl Hm)).
Qed.

Lemma validate_exact_witness :
  bindings_built (demo_bindings 0x10000 1) ∧ valid_bindings (demo_bindings 0x10000 1) demo_plan.
Proof.
  assert (bindings_built (demo_bindings 0x10000 1)) as Hb by (apply demo_bindings_built; ulia).
  split; [exact Hb|]. apply (proj2 (validate_exact _ demo_plan Hb)). vm_compute. reflexivity.
Defined.

Lemma device_race_free_witness :
  tc (edge (edges demo)) demo_project demo_consume ∧ (3 ≤ 3)%Z.
Proof.
  assert (bindings_built (demo_bindings 0x10000 1)) as Hb by (apply demo_bindings_built; ulia).
  refine (proj2 (device_race_free demo_sha256 demo demo_options demo_plan (demo_bindings 0x10000 1)
    demo_recorded _ demo_compiles Hb _) 0 1 _ _ (Access_write demo_output) (Access_read demo_output)
    0x10900%Z _ eq_refl eq_refl _ _ _ _ _).
  - discriminate.
  - vm_compute. reflexivity.
  - lia.
  - right; left.
  - left.
  - eexists. split; [vm_compute; reflexivity|]. vm_compute. split; congruence.
  - eexists. split; [vm_compute; reflexivity|]. vm_compute. split; congruence.
  - left. reflexivity.
Defined.

(** The plan compiled with the bytes themselves as their digest. *)
Definition demo_plain_plan : CompiledPlan :=
  match compile (λ bytes, bytes) demo demo_options with Ok p => p | _ => demo_plan end.

(** Moving the allocation asks for a rebind of exactly that resource. *)
Lemma stamp_validate_exact_witness :
  ∃ s, Stamp_capture (λ bytes, bytes) demo_plain_plan (demo_bindings 0x10000 1) = Ok s ∧
    Stamp_validate (λ bytes, bytes) s demo_plain_plan (demo_bindings 0x20000 2) ArtifactCatalog_new =
      Ok (NeedsRebind [demo_resource]) ∧
    same_preparation demo_plain_plan (demo_bindings 0x10000 1) (demo_bindings 0x20000 2)
      ArtifactCatalog_new.
Proof.
  assert (bindings_built (demo_bindings 0x10000 1)) as Hb by (apply demo_bindings_built; ulia).
  assert (bindings_built (demo_bindings 0x20000 2)) as Hb' by (apply demo_bindings_built; ulia).
  eexists. split; [vm_compute; reflexivity|].
  match goal with |- Stamp_validate _ ?s _ _ _ = _ ∧ _ =>
    pose proof (stamp_validate_exact (λ bytes, bytes) demo demo_options demo_plain_plan
      (demo_bindings 0x10000 1) (demo_bindings 0x20000 2) s ArtifactCatalog_new demo_recorded
      ltac:(discriminate) ltac:(vm_compute; reflexivity) Hb Hb' ltac:(vm_compute; reflexivity)
      (λ x y _ _ H, H)) as [_ Hst]
  end.
  match goal with |- ?P ∧ _ => assert P as Hv by (vm_compute; reflexivity) end.
  split; [exact Hv|]. exact (proj1 (proj1 (Hst _) Hv)).
Defined.
