(* ===== verification/Selection.v ===== *)
(** Backend selection and the prepared-plan cache
    (src/crates/redline-dispatch/src/selection.rs).

    [f64] is the Standard Library's [spec_float], the IEEE-754 binary64 values
    with one NaN; only comparisons are used. The text of a decision's [reason]
    is not modelled, only which of the two reasons it is.

    Proved here: the automatic policy selects the backend with the largest
    worst run among those with enough evidence and no failed gate, and falls
    back to HIP serial exactly when there is none; and a poisoned cache entry
    can be neither read nor replaced until it is removed. *)

From Stdlib Require Import SpecFloat.
From S2P Require Import Prelude Ir Identity Recorder Graph Plan Bindings.

Inductive BackendKind := HipSerial | HipMultiStream | DirectAql.

#[export] Instance BackendKind_eq_dec : EqDecision BackendKind.
Proof. solve_decision. Defined.

(** ** Floating-point comparisons *)

Definition f64 : Type := spec_float.

Definition f64_infinity : f64 := S754_infinity false.
Definition f64_zero : f64 := S754_zero false.
Definition f64_one : f64 := S754_finite false 4503599627370496 (-52).
(** [1.03] *)
Definition f64_1_03 : f64 := S754_finite false 4638707616191611 (-52).

(** [x.is_finite()] *)
Definition is_finite (x : f64) : bool :=
  match x with S754_zero _ | S754_finite _ _ _ => true | _ => false end.

(** [x > y], [x >= y] *)
Definition f64_gt (x y : f64) : bool := SFltb y x.
Definition f64_ge (x y : f64) : bool := SFleb y x.

(** [f64::min]: the other operand when one is NaN. *)
Definition f64_min (x y : f64) : f64 :=
  match SFcompare x y with
  | Some Gt => y
  | Some _ => x
  | None => match x with S754_nan => y | _ => x end
  end.

(** [f64::total_cmp] agrees with the comparison on positive numbers, the only
    values that reach it. *)
Definition total_cmp (x y : f64) : comparison := default Eq (SFcompare x y).

(** ** Evidence *)

Record BackendEvidence := mkEvidence {
  backend : BackendKind;
  speedup_over_hip_serial : f64;
  parity_passed : bool;
  guards_passed : bool;
  same_artifact : bool;
  automatic_clocks : bool;
  gpu_timestamps_verified : bool;
  evidence_poisoned : bool }.

(** [BackendEvidence::certified] *)
Definition certified (backend : BackendKind) (speedup : f64) : BackendEvidence :=
  mkEvidence backend speedup true true true true true false.

(** [BackendEvidence::passes_gates] *)
Definition passes_gates (e : BackendEvidence) : bool :=
  is_finite (speedup_over_hip_serial e) &&
  f64_gt (speedup_over_hip_serial e) f64_zero &&
  parity_passed e && guards_passed e && same_artifact e && automatic_clocks e &&
  gpu_timestamps_verified e && negb (evidence_poisoned e).

Record AutoPolicy := mkAutoPolicy {
  minimum_speedup : f64;
  minimum_independent_runs : nat }.

(** [AutoPolicy::default] *)
Definition AutoPolicy_default : AutoPolicy := mkAutoPolicy f64_1_03 2.

Inductive AutoReason := ClearedEveryRun (selected : BackendKind) (threshold : f64) | NoBackendCleared.

Record AutoDecision := mkAutoDecision {
  selected : BackendKind;
  lower_bound_speedup : f64;
  reason : AutoReason }.

(** The runs of one candidate. *)
Definition runs_of (evidence : list BackendEvidence) (kind : BackendKind) : list BackendEvidence :=
  filter (λ run, backend run = kind) evidence.

(** The worst run. *)
Definition lower_bound (runs : list BackendEvidence) : f64 :=
  foldl f64_min f64_infinity (speedup_over_hip_serial <$> runs).

(** One candidate of the loop of [decide]. *)
Definition consider (policy : AutoPolicy) (evidence : list BackendEvidence)
    (passing : list (BackendKind * f64)) (kind : BackendKind) : list (BackendKind * f64) :=
  let runs := runs_of evidence kind in
  if bool_decide (length runs < minimum_independent_runs policy)
     || existsb (λ run, negb (passes_gates run)) runs
  then passing
  else
    let bound := lower_bound runs in
    if f64_ge bound (minimum_speedup policy) then passing ++ [(kind, bound)] else passing.

(** [Vec::sort_by], a stable sort, as insertion after the elements that do not
    compare greater. *)
Fixpoint sort_insert {A} (cmp : A → A → comparison) (x : A) (l : list A) : list A :=
  match l with
  | [] => [x]
  | y :: l' => match cmp y x with Gt => x :: l | _ => y :: sort_insert cmp x l' end
  end.

Definition sort_by {A} (cmp : A → A → comparison) (l : list A) : list A :=
  foldl (λ sorted x, sort_insert cmp x sorted) [] l.

(** [AutoPolicy::decide] *)
Definition decide_backend (policy : AutoPolicy) (evidence : list BackendEvidence) : AutoDecision :=
  let passing := foldl (consider policy evidence) [] [DirectAql; HipMultiStream] in
  let passing := sort_by (λ left right, total_cmp right.2 left.2) passing in
  match head passing with
  | Some (kind, bound) => mkAutoDecision kind bound (ClearedEveryRun kind (minimum_speedup policy))
  | None => mkAutoDecision HipSerial f64_one NoBackendCleared
  end.

(** ** The prepared-plan cache *)

Record PlanCacheKey := mkCacheKey {
  key_plan : list Z;
  key_binding_layout : list Z;
  key_artifacts : Sha256Digest;
  key_device : string;
  key_backend : BackendKind }.

(** The derived [Ord]s: variants by position, structs field by field. *)
Definition backend_rank (k : BackendKind) : nat :=
  match k with HipSerial => 0 | HipMultiStream => 1 | DirectAql => 2 end.

#[export] Program Instance PlanCacheKey_key : OrdKey PlanCacheKey :=
  key_via (λ k, (key_plan k, (key_binding_layout k, (digest_bytes (key_artifacts k),
    (key_device k, backend_rank (key_backend k)))))) _.
Next Obligation.
  intros [p1 l1 [a1] d1 b1] [p2 l2 [a2] d2 b2]. cbn. intros [= -> -> -> -> Hb].
  by destruct b1, b2.
Qed.

Definition artifacts_domain : list Z := str_bytes "redline-plan-artifacts-v1" ++ [0%Z].

(** One artifact of the hashed bytes. *)
Definition artifact_preimage (entry : string * KernelArtifactIdentity) : list Z :=
  put_usize (length (str_bytes entry.1)) ++ str_bytes entry.1 ++
  digest_bytes (code_object entry.2) ++ digest_bytes (symbol_text entry.2) ++
  put_u64 (generation entry.2).

(** [PlanCacheKey::new] *)
Definition PlanCacheKey_new (sha256 : list Z → list Z) (plan : CompiledPlan) (b : ReplayBindings)
    (device : string) (backend : BackendKind) : result ReplayBindingError PlanCacheKey :=
  let hash := sha256 (artifacts_domain ++ concat (artifact_preimage <$> artifact_identities plan)) in
  binding_layout ← layout_fingerprint sha256 b plan;
  Ok (mkCacheKey (plan_fingerprint plan) binding_layout (mkDigest hash) device backend).

Inductive PlanCacheError := AlreadyPresent | Missing | Poisoned.

Record CacheEntry (T : Type) := mkEntry { entry_value : T; entry_poisoned : bool }.
Arguments mkEntry {T} _ _.
Arguments entry_value {T} _.
Arguments entry_poisoned {T} _.

Record PreparedPlanCache (T : Type) := mkCache { entries : list (PlanCacheKey * CacheEntry T) }.
Arguments mkCache {T} _.
Arguments entries {T} _.

Section cache.
Context {T : Type}.
Implicit Types c : PreparedPlanCache T.

(** [PreparedPlanCache::new] *)
Definition Cache_new : PreparedPlanCache T := mkCache [].

(** [PreparedPlanCache::insert] *)
Definition Cache_insert c (key : PlanCacheKey) (value : T) : result PlanCacheError (PreparedPlanCache T) :=
  err_if (bool_decide (is_Some (bmap_get key (entries c)))) AlreadyPresent ;;
  Ok (mkCache (bmap_insert key (mkEntry value false) (entries c))).

(** [PreparedPlanCache::get_mut]; the caller's writes through the reference are
    the function [f]. *)
Definition Cache_get_mut c (key : PlanCacheKey) (f : T → T)
    : result PlanCacheError (T * PreparedPlanCache T) :=
  entry ← ok_or Missing (bmap_get key (entries c));
  err_if (entry_poisoned entry) Poisoned ;;
  Ok (entry_value entry,
      mkCache (bmap_insert key (mkEntry (f (entry_value entry)) (entry_poisoned entry)) (entries c))).

(** [PreparedPlanCache::poison] *)
Definition Cache_poison c (key : PlanCacheKey) : result PlanCacheError (PreparedPlanCache T) :=
  entry ← ok_or Missing (bmap_get key (entries c));
  Ok (mkCache (bmap_insert key (mkEntry (entry_value entry) true) (entries c))).

(** [PreparedPlanCache::remove] *)
Definition Cache_remove c (key : PlanCacheKey) : option T * PreparedPlanCache T :=
  (entry_value <$> bmap_get key (entries c), mkCache (bmap_remove key (entries c))).
End cache.

(** ** Positive numbers *)

Definition positive (x : f64) : Prop :=
  match x with S754_finite false _ _ | S754_infinity false => True | _ => False end.

(** A finite positive number as exponent and mantissa. *)
Lemma SFcompare_pos m e n f :
  SFcompare (S754_finite false m e) (S754_finite false n f) =
    Some (lex_cmp (Z.compare e f) (Pos.compare m n)).
Proof. cbn. by destruct (e ?= f)%Z. Qed.

Lemma lex_le_trans e m f n g o :
  lex_cmp (Z.compare e f) (Pos.compare m n) ≠ Gt → lex_cmp (Z.compare f g) (Pos.compare n o) ≠ Gt →
  lex_cmp (Z.compare e g) (Pos.compare m o) ≠ Gt.
Proof.
  unfold lex_cmp.
  destruct (Z.compare_spec e f), (Z.compare_spec f g), (Z.compare_spec e g); try done; try lia;
    destruct (Pos.compare_spec m n), (Pos.compare_spec n o), (Pos.compare_spec m o); (done || lia).
Qed.

Lemma SFleb_pos m e n f :
  SFleb (S754_finite false m e) (S754_finite false n f) = true ↔
    lex_cmp (Z.compare e f) (Pos.compare m n) ≠ Gt.
Proof.
  unfold SFleb. rewrite SFcompare_pos. by destruct (lex_cmp _ _).
Qed.

Lemma f64_le_trans x y z : positive y → positive z →
  SFleb x y = true → SFleb y z = true → SFleb x z = true.
Proof.
  destruct y as [|[]| |[]], z as [|[]| |[]]; try done; intros _ _;
    destruct x as [|[]| |[]]; try done; rewrite !SFleb_pos; apply lex_le_trans.
Qed.

Lemma f64_le_refl x : positive x → SFleb x x = true.
Proof.
  destruct x as [|[]| |[]]; try done. intros _. apply SFleb_pos.
  rewrite Z.compare_refl. cbn. by rewrite Pos.compare_refl.
Qed.

Lemma SFcompare_sym x y : positive x → positive y →
  ∃ c, SFcompare x y = Some c ∧ SFcompare y x = Some (CompOpp c).
Proof.
  intros Hx Hy. destruct x as [|[]| |[] m e], y as [|[]| |[] n f]; try done; try by eexists.
  rewrite !SFcompare_pos. eexists. split; [done|]. f_equal.
  rewrite (Z.compare_antisym e f), (Pos.compare_antisym m n). by destruct (e ?= f)%Z.
Qed.

Lemma f64_min_pos x y : positive x → positive y →
  positive (f64_min x y) ∧ SFleb (f64_min x y) x = true ∧ SFleb (f64_min x y) y = true ∧
  (f64_min x y = x ∨ f64_min x y = y).
Proof.
  intros Hx Hy. unfold f64_min.
  destruct (SFcompare_sym x y Hx Hy) as (c & Hc & Hc').
  pose proof (f64_le_refl x Hx). pose proof (f64_le_refl y Hy).
  rewrite Hc. destruct c; unfold SFleb in *; rewrite ?Hc, ?Hc'; auto.
Qed.

Lemma gates_positive e : passes_gates e = true → positive (speedup_over_hip_serial e).
Proof.
  unfold passes_gates. intros H. to_prop.
  by destruct (speedup_over_hip_serial e) as [[]|[]| |[]].
Qed.

(** The lower bound is the least run, or infinity without runs. *)
Lemma lower_bound_spec runs : Forall (λ run, passes_gates run = true) runs →
  positive (lower_bound runs) ∧
  (∀ run, run ∈ runs → SFleb (lower_bound runs) (speedup_over_hip_serial run) = true) ∧
  (runs = [] ∨ ∃ run, run ∈ runs ∧ lower_bound runs = speedup_over_hip_serial run).
Proof.
  unfold lower_bound.
  assert (∀ l acc, Forall positive l → positive acc →
    let b := foldl f64_min acc l in
    positive b ∧ SFleb b acc = true ∧ (∀ x, x ∈ l → SFleb b x = true) ∧ (b = acc ∨ b ∈ l)) as Hgo.
  { induction l as [|x l IH]; intros acc Hl Ha; cbn [foldl].
    - repeat split; [done|by apply f64_le_refl| |by left]. intros x Hx%not_elem_of_nil. done.
    - apply Forall_cons in Hl as [Hx Hl]. destruct (f64_min_pos acc x Ha Hx) as (Hp & H1 & H2 & Hor).
      destruct (IH (f64_min acc x) Hl Hp) as (Hb & Hle & Hall & Hin). cbn zeta.
      split; [done|]. split; [by apply (f64_le_trans _ (f64_min acc x) acc)|]. split.
      + intros y [->|Hy]%elem_of_cons; [by apply (f64_le_trans _ (f64_min acc x) x)|by apply Hall].
      + rewrite elem_of_cons. destruct Hin as [Hin|Hin]; [|auto]. rewrite Hin.
        destruct Hor as [->| ->]; auto. }
  intros Hruns.
  assert (Forall positive (speedup_over_hip_serial <$> runs)) as Hpos.
  { apply Forall_fmap. eapply Forall_impl; [exact Hruns|]. intros run. apply gates_positive. }
  destruct runs as [|run0 runs0].
  { split; [exact I|]. split; [by intros ? ?%not_elem_of_nil|by left]. }
  set (runs := run0 :: runs0) in *.
  destruct (Hgo (speedup_over_hip_serial <$> runs) f64_infinity Hpos I) as (Hb & _ & Hall & Hin).
  split; [done|]. split; [intros run Hrun; by apply Hall, list_elem_of_fmap_2|]. right.
  destruct Hin as [Hinf|(run & ? & ?)%list_elem_of_fmap]; [|eauto].
  exfalso. assert (speedup_over_hip_serial run0 ∈ speedup_over_hip_serial <$> runs) as Hin by left.
  specialize (Hall _ Hin). rewrite Hinf in Hall.
  apply Forall_cons in Hruns as [Hg _]. unfold passes_gates in Hg. to_prop.
  by destruct (speedup_over_hip_serial run0) as [[]|[]| |[]].
Qed.

(** The candidate has enough runs, none failed a gate, and the worst clears the
    threshold. *)
Definition qualifies (policy : AutoPolicy) (evidence : list BackendEvidence) (kind : BackendKind)
    : Prop :=
  minimum_independent_runs policy ≤ length (runs_of evidence kind) ∧
  Forall (λ run, passes_gates run = true) (runs_of evidence kind) ∧
  f64_ge (lower_bound (runs_of evidence kind)) (minimum_speedup policy) = true.

Lemma consider_spec policy evidence passing kind :
  (qualifies policy evidence kind ∧
   consider policy evidence passing kind =
     passing ++ [(kind, lower_bound (runs_of evidence kind))]) ∨
  (¬ qualifies policy evidence kind ∧ consider policy evidence passing kind = passing).
Proof.
  unfold consider, qualifies. cbn zeta. set (runs := runs_of evidence kind).
  assert (existsb (λ run, negb (passes_gates run)) runs = false ↔
    Forall (λ run, passes_gates run = true) runs) as Hex.
  { rewrite <- not_true_iff_false, existsb_exists, Forall_forall. setoid_rewrite <- list_elem_of_In. split.
    - intros H run Hin. destruct (passes_gates run) eqn:E; [done|]. destruct H. exists run. by rewrite E.
    - intros H (run & Hin & Hg). rewrite (H run Hin) in Hg. done. }
  destruct (existsb _ runs) eqn:E.
  - rewrite orb_true_r. right. split; [|done]. intros (_ & H & _). by apply Hex in H.
  - rewrite orb_false_r. case_bool_decide; [right; split; [naive_solver lia|done]|].
    destruct (f64_ge _ _) eqn:Eg; [left|right; naive_solver].
    split; [|done]. split; [lia|]. split; [by apply Hex|done].
Qed.

Lemma qualifying_runs policy evidence kind : qualifies policy evidence kind →
  minimum_independent_runs policy ≤ length (runs_of evidence kind) ∧
  positive (lower_bound (runs_of evidence kind)) ∧
  ∀ run, run ∈ runs_of evidence kind → passes_gates run = true ∧
    f64_ge (speedup_over_hip_serial run) (minimum_speedup policy) = true.
Proof.
  intros (Hn & Hg & Hm). destruct (lower_bound_spec _ Hg) as (Hp & Hle & _).
  split; [done|]. split; [done|]. intros run Hr. rewrite Forall_forall in Hg. specialize (Hg run Hr).
  split; [done|]. unfold f64_ge in *. eapply f64_le_trans; [exact Hp| |exact Hm|by apply Hle].
  by apply gates_positive.
Qed.

(** ** Claims *)

(** Automatic selection is fail-closed and picks the best worst run. HIP
    serial is selected exactly when neither accelerated backend qualifies. A
    selected accelerated backend has the required number of runs, every one of
    them passed all gates and clears the threshold, the reported bound is its
    worst run, and any other qualifying backend has a bound that is no larger;
    on equal bounds direct AQL wins. *)
Theorem decide_backend_exact policy evidence :
  let d := decide_backend policy evidence in
  (selected d = HipSerial ↔
     ¬ qualifies policy evidence DirectAql ∧ ¬ qualifies policy evidence HipMultiStream) ∧
  (selected d ≠ HipSerial →
   let runs := runs_of evidence (selected d) in
   minimum_independent_runs policy ≤ length runs ∧
   (∀ run, run ∈ runs → passes_gates run = true ∧
      f64_ge (speedup_over_hip_serial run) (minimum_speedup policy) = true) ∧
   lower_bound_speedup d = lower_bound runs ∧
   ∀ other, other ≠ HipSerial → other ≠ selected d → qualifies policy evidence other →
     f64_ge (lower_bound_speedup d) (lower_bound (runs_of evidence other)) = true ∧
     (selected d = HipMultiStream →
      f64_ge (lower_bound (runs_of evidence other)) (lower_bound_speedup d) = false)).
Proof.
  intros d. subst d. unfold decide_backend. cbn [foldl].
  pose proof (qualifying_runs policy evidence) as Hq.
  assert (∀ other, other ≠ HipSerial → other = DirectAql ∨ other = HipMultiStream) as Hk
    by (intros []; naive_solver).
  destruct (consider_spec policy evidence [] DirectAql) as [[HD ->]|[HD ->]];
  [destruct (consider_spec policy evidence ([] ++ [(DirectAql, lower_bound (runs_of evidence DirectAql))])
     HipMultiStream) as [[HM ->]|[HM ->]]
  |destruct (consider_spec policy evidence [] HipMultiStream) as [[HM ->]|[HM ->]]].
  all: unfold sort_by; cbn [app foldl sort_insert head snd].
  - unfold total_cmp. destruct (SFcompare_sym (lower_bound (runs_of evidence HipMultiStream))
      (lower_bound (runs_of evidence DirectAql))) as (c & Hc & Hc'); [by apply Hq..|].
    rewrite Hc. cbn [default]. unfold f64_ge, SFleb.
    destruct c; cbn [head selected lower_bound_speedup]; (split; [naive_solver|]);
      intros _; (split; [by apply Hq|]); (split; [by apply Hq|]); (split; [done|]);
      intros other [->| ->]%Hk Hne _; try done; cbn; rewrite ?Hc, ?Hc'; (split; [done|by intros]).
  - cbn [selected lower_bound_speedup]. split; [naive_solver|]. intros _.
    split; [by apply Hq|]. split; [by apply Hq|]. split; [done|].
    intros other [->| ->]%Hk Hne Hqo; done.
  - cbn [selected lower_bound_speedup]. split; [naive_solver|]. intros _.
    split; [by apply Hq|]. split; [by apply Hq|]. split; [done|].
    intros other [->| ->]%Hk Hne Hqo; done.
  - cbn [selected]. naive_solver.
Qed.

(** The operations of the cache; a failed one leaves it as it was. *)
Inductive cache_op (T : Type) : Type :=
| CacheInsert (key : PlanCacheKey) (value : T)
| CacheGetMut (key : PlanCacheKey) (f : T → T)
| CachePoison (key : PlanCacheKey)
| CacheRemove (key : PlanCacheKey).
Arguments CacheInsert {T} _ _.
Arguments CacheGetMut {T} _ _.
Arguments CachePoison {T} _.
Arguments CacheRemove {T} _.

Section cache_proofs.
Context {T : Type}.
Implicit Types c : PreparedPlanCache T.

Definition cache_step c (op : cache_op T) : PreparedPlanCache T :=
  match op with
  | CacheInsert key value => match Cache_insert c key value with Ok c' => c' | _ => c end
  | CacheGetMut key f => match Cache_get_mut c key f with Ok (_, c') => c' | _ => c end
  | CachePoison key => match Cache_poison c key with Ok c' => c' | _ => c end
  | CacheRemove key => (Cache_remove c key).2
  end.

Definition cache_run c (ops : list (cache_op T)) : PreparedPlanCache T := foldl cache_step c ops.

Definition removes (key : PlanCacheKey) (op : cache_op T) : Prop :=
  match op with CacheRemove k => k = key | _ => False end.

Lemma cache_step_sorted c op : bmap_sorted (entries c) → bmap_sorted (entries (cache_step c op)).
Proof.
  intros Hs. destruct op; cbn [cache_step].
  - unfold Cache_insert. destruct (bool_decide _); cbn; [done|by apply bmap_insert_sorted].
  - unfold Cache_get_mut. destruct (bmap_get _ _) as [[v []]|]; cbn; [done| |done].
    by apply bmap_insert_sorted.
  - unfold Cache_poison. destruct (bmap_get _ _) as [e|]; cbn; [by apply bmap_insert_sorted|done].
  - by apply bmap_remove_sorted.
Qed.

(** A poisoned entry survives every operation but its removal, value included. *)
Lemma cache_step_poisoned c op key v : bmap_sorted (entries c) → ¬ removes key op →
  bmap_get key (entries c) = Some (mkEntry v true) →
  bmap_get key (entries (cache_step c op)) = Some (mkEntry v true).
Proof.
  intros Hs Hr Hk. destruct op as [k w|k f|k|k]; cbn [cache_step].
  - unfold Cache_insert. case_bool_decide as Hn; cbn; [done|].
    rewrite bmap_get_insert_ne; [done|]. intros ->. rewrite Hk in Hn. destruct Hn. by eexists.
  - unfold Cache_get_mut. destruct (bmap_get k _) as [[w []]|] eqn:E; cbn; [done| |done].
    rewrite bmap_get_insert_ne; [done|]. intros ->. congruence.
  - unfold Cache_poison. destruct (bmap_get k _) as [e|] eqn:E; cbn; [|done].
    rewrite bmap_get_insert. destruct (kcmp key k) eqn:Ek; [|done..].
    apply kcmp_eq in Ek as ->. rewrite Hk in E. by injection E as <-.
  - cbn. rewrite bmap_get_remove by done. case_bool_decide as Ek; [|done].
    apply kcmp_eq in Ek as ->. by destruct Hr.
Qed.

Lemma cache_run_sorted ops : ∀ c, bmap_sorted (entries c) → bmap_sorted (entries (cache_run c ops)).
Proof. induction ops as [|op ops IH]; intros c Hs; [done|]. by apply IH, cache_step_sorted. Qed.

Lemma cache_run_poisoned key v ops : ∀ c, bmap_sorted (entries c) → Forall (λ op, ¬ removes key op) ops →
  bmap_get key (entries c) = Some (mkEntry v true) →
  bmap_get key (entries (cache_run c ops)) = Some (mkEntry v true).
Proof.
  induction ops as [|op ops IH]; intros c Hs Hops Hk; [done|]. apply Forall_cons in Hops as [Hop Hops].
  apply IH; [by apply cache_step_sorted|done|]. by apply cache_step_poisoned.
Qed.
End cache_proofs.

(** Poison is sticky until explicit removal. Once an entry of a cache built
    by any sequence of operations is poisoned, then after any further operations
    that do not remove it, reading it reports the poison and inserting under
    its key is refused; removing it returns the value it held when it was
    poisoned, after which the key reads as missing and may be inserted anew. *)
Theorem cache_poison_sticky {T} (before after : list (cache_op T)) key c :
  Cache_poison (cache_run Cache_new before) key = Ok c →
  Forall (λ op, ¬ removes key op) after →
  let c' := cache_run c after in
  (∀ f, Cache_get_mut c' key f = Err Poisoned) ∧
  (∀ v, Cache_insert c' key v = Err AlreadyPresent) ∧
  (Cache_remove c' key).1 = entry_value <$> bmap_get key (entries (cache_run Cache_new before)) ∧
  (∀ f, Cache_get_mut (Cache_remove c' key).2 key f = Err Missing) ∧
  ∀ v, ∃ c'', Cache_insert (Cache_remove c' key).2 key v = Ok c'' ∧
    bmap_get key (entries c'') = Some (mkEntry v false).
Proof.
  intros Hp Hafter c'. assert (bmap_sorted (entries (cache_run (T := T) Cache_new before))) as Hs
    by (apply cache_run_sorted; constructor).
  unfold Cache_poison in Hp. apply bind_Ok in Hp as (e & He%ok_or_Ok & [= <-]).
  assert (bmap_get key (entries c') = Some (mkEntry (entry_value e) true)) as Hk.
  { apply cache_run_poisoned; [by apply bmap_insert_sorted|done|apply bmap_get_insert_eq]. }
  assert (bmap_get key (entries (Cache_remove c' key).2) = None) as Hgone.
  { cbn. rewrite bmap_get_remove.
    - by rewrite bool_decide_eq_true_2 by by apply kcmp_eq.
    - by apply cache_run_sorted, bmap_insert_sorted. }
  split; [intros f; unfold Cache_get_mut; by rewrite Hk|].
  split; [intros v; unfold Cache_insert; rewrite Hk; by rewrite bool_decide_eq_true_2 by by eexists|].
  split; [cbn; by rewrite Hk, He|].
  split; [intros f; unfold Cache_get_mut; by rewrite Hgone|].
  intros v. unfold Cache_insert. rewrite Hgone. eexists. split; [done|]. apply bmap_get_insert_eq.
Qed.

(** ** Witnesses *)

(** Two certified runs of direct AQL beat one backend with a failed gate. *)
Lemma decide_backend_exact_witness :
  let evidence := [certified DirectAql (S754_finite false 4863887597560136 (-52));
    certified DirectAql (S754_finite false 4818851601286431 (-52));
    certified HipMultiStream (S754_finite false 5404319552844595 (-52));
    mkEvidence HipMultiStream (S754_finite false 5404319552844595 (-52)) true false true true true false] in
  selected (decide_backend AutoPolicy_default evidence) = DirectAql ∧
  lower_bound_speedup (decide_backend AutoPolicy_default evidence) =
    lower_bound (runs_of evidence DirectAql).
Proof.
  intros evidence. assert (selected (decide_backend AutoPolicy_default evidence) = DirectAql) as Hs
    by (vm_compute; reflexivity).
  split; [exact Hs|].
  pose proof (proj2 (decide_backend_exact AutoPolicy_default evidence)) as H. cbn zeta in H.
  rewrite Hs in H. destruct H as (_ & _ & H & _); [discriminate|exact H].
Defined.

Definition demo_key : PlanCacheKey := mkCacheKey [1%Z] [2%Z] (mkDigest [3%Z]) "gfx1201" DirectAql.

Lemma cache_poison_sticky_witness :
  let c := cache_run Cache_new [CacheInsert demo_key 7; CachePoison demo_key;
    CacheInsert demo_key 8] in
  Cache_get_mut c demo_key id = Err Poisoned ∧ (Cache_remove c demo_key).1 = Some 7.
Proof.
  assert (Cache_poison (cache_run Cache_new [CacheInsert demo_key 7]) demo_key =
    Ok (cache_run Cache_new [CacheInsert demo_key 7; CachePoison demo_key])) as Hp
    by (vm_compute; reflexivity).
  destruct (cache_poison_sticky [CacheInsert demo_key 7] [CacheInsert demo_key 8] demo_key _ Hp)
    as (H1 & _ & H3 & _); [by repeat constructor; intros []|].
  split; [exact (H1 id)|exact H3].
Defined.
