(* ===== verification/SlotPool.v ===== *)
(** KV slots (src/crates/rdna-compute/src/slot_pool.rs and
    src/crates/rdna-compute/src/kv_slots.rs).

    A pool owns fixed-size slabs of the K and V arenas, one descriptor per slot
    and the flag that says whether the descriptors changed since their last
    upload. [usize] and [u64] values are [Z], slot indices and token counts
    that index vectors are [nat]; an overflowing product panics, casts to [i32]
    wrap ([as_i32]). What /proc/meminfo says is the parameter [mem_available].

    Proved here: in every reachable pool the slabs are disjoint, in the arena
    and never longer than their capacity; acquisition hands out free, emptied
    slots; a clean pool agrees with what was uploaded; and the tile list covers
    every query row exactly once without crossing a slot boundary. *)

From S2P Require Import Prelude.

(** ** kv_slots.rs *)

Record KvSlotDesc := mkKvSlotDesc { k_base : Z; v_base : Z; seq_len : Z; desc_cap : Z }.

#[export] Instance KvSlotDesc_eq_dec : EqDecision KvSlotDesc.
Proof. solve_decision. Defined.

(** [total_rows] *)
Definition total_rows (slot_query_counts : list nat) : nat := foldr Nat.add 0 slot_query_counts.

(** The inner loop of [build_tiles] on fuel: rows [row0, row0 + br, ...] of one slot. *)
Fixpoint slot_tiles (fuel slot global m br row0 : nat) : list (Z * Z * Z) :=
  match fuel with
  | O => []
  | S fuel =>
    if bool_decide (row0 < m) then
      (as_i32 (Z.of_nat slot), as_i32 (Z.of_nat row0), as_i32 (Z.of_nat (global + row0))) ::
      slot_tiles fuel slot global m br (row0 + br)
    else []
  end.

(** One slot of the outer loop. *)
Definition tile_slot_step (br : nat) (s : list (Z * Z * Z) * nat) (entry : nat * nat)
    : list (Z * Z * Z) * nat :=
  let '(tiles, global) := s in
  let '(slot, m) := entry in
  (tiles ++ slot_tiles (S m) slot global m br 0, global + m).

(** [build_tiles], the three vectors as one list of triples. *)
Definition build_tiles {E} (slot_query_counts : list nat) (br : nat)
    : result E (list (Z * Z * Z)) :=
  assert (bool_decide (0 < br)) ;;
  Ok (foldl (tile_slot_step br) ([], 0) (enumerate slot_query_counts)).1.

Definition R9700_VRAM_BYTES : Z := 32 * 1024 * 1024 * 1024.
Definition HEADROOM_BYTES : Z := 8 * 1024 * 1024 * 1024.

(** The errors of this module are texts; their kinds are kept. *)
Inductive PoolError : Type :=
| OverBudget (planned budget : Z)
| OverAvailable (planned available : Z)
| AvailabilityUnknown (planned : Z)
| ArenaOverflow
| OverCapacity (slot : nat) (seq_len cap : Z).

(** [preflight_alloc] *)
Definition preflight_alloc (mem_available : option Z) (planned_bytes budget_bytes : Z)
    : result PoolError unit :=
  err_if (budget_bytes <? planned_bytes)%Z (OverBudget planned_bytes budget_bytes) ;;
  match mem_available with
  | Some avail =>
      err_if (avail <? saturating_add U64_MAX planned_bytes HEADROOM_BYTES)%Z
        (OverAvailable planned_bytes avail)
  | None => Err (AvailabilityUnknown planned_bytes)
  end.

(** ** slot_pool.rs *)

Definition PAGE_TOKENS : Z := 128.

Record SlotId := mkSlotId { slot_value : nat }.

Record SlotPool := mkSlotPool {
  descs : list KvSlotDesc;
  in_use : list bool;
  cap_tokens : Z;
  per_pos_bytes : Z;
  dirty : bool }.

(** The descriptor of slot [i]. *)
Definition initial_desc (slab_bytes cap : Z) (i : nat) : KvSlotDesc :=
  let base := (Z.of_nat i * slab_bytes)%Z in
  mkKvSlotDesc base base 0 (as_i32 cap).

(** [SlotPool::new] *)
Definition SlotPool_new (mem_available : option Z) (n_slots : nat) (cap_tokens per_pos_bytes : Z)
    : result PoolError SlotPool :=
  assert (bool_decide (0 < n_slots)) ;;
  assert (0 <? per_pos_bytes)%Z ;;
  cap ← expect (checked_mul U64_MAX ((cap_tokens + PAGE_TOKENS - 1) / PAGE_TOKENS)%Z PAGE_TOKENS);
  slab_bytes ← expect (checked_mul U64_MAX cap per_pos_bytes);
  total ← ok_or ArenaOverflow
    (checked_mul U64_MAX slab_bytes (Z.of_nat n_slots) ≫= λ b, checked_mul U64_MAX b 2);
  preflight_alloc mem_available total R9700_VRAM_BYTES ;;
  Ok (mkSlotPool (initial_desc slab_bytes cap <$> seq 0 n_slots) (replicate n_slots false)
        cap per_pos_bytes true).

(** [self.descs[i].seq_len = len] *)
Definition with_seq_len (d : KvSlotDesc) (len : Z) : KvSlotDesc :=
  mkKvSlotDesc (k_base d) (v_base d) len (desc_cap d).

Definition store_seq_len {E} (p : SlotPool) (i : nat) (len : Z) : result E SlotPool :=
  d ← index (descs p) i;
  if negb (seq_len d =? len)%Z then
    descs' ← store (descs p) i (with_seq_len d len);
    Ok (mkSlotPool descs' (in_use p) (cap_tokens p) (per_pos_bytes p) true)
  else Ok p.

(** [SlotPool::reset] *)
Definition SlotPool_reset {E} (p : SlotPool) (id : SlotId) : result E SlotPool :=
  store_seq_len p (slot_value id) 0.

Definition set_in_use {E} (p : SlotPool) (i : nat) (used : bool) : result E SlotPool :=
  in_use' ← store (in_use p) i used;
  Ok (mkSlotPool (descs p) in_use' (cap_tokens p) (per_pos_bytes p) (dirty p)).

(** [SlotPool::acquire] *)
Definition SlotPool_acquire {E} (p : SlotPool) : result E (option SlotId * SlotPool) :=
  match list_find (λ used, used = false) (in_use p) with
  | None => Ok (None, p)
  | Some (i, _) =>
      p ← set_in_use p i true;
      p ← SlotPool_reset p (mkSlotId i);
      Ok (Some (mkSlotId i), p)
  end.

(** [SlotPool::release] *)
Definition SlotPool_release {E} (p : SlotPool) (id : SlotId) : result E SlotPool :=
  p ← SlotPool_reset p id;
  set_in_use p (slot_value id) false.

(** [SlotPool::set_seq_len] *)
Definition SlotPool_set_seq_len (p : SlotPool) (id : SlotId) (len : Z) : result PoolError SlotPool :=
  err_if (cap_tokens p <? len)%Z (OverCapacity (slot_value id) len (cap_tokens p)) ;;
  store_seq_len p (slot_value id) (as_i32 len).

(** [SlotPool::mark_uploaded] *)
Definition SlotPool_mark_uploaded (p : SlotPool) : SlotPool :=
  mkSlotPool (descs p) (in_use p) (cap_tokens p) (per_pos_bytes p) false.

(** [SlotPool::arena_bytes] *)
Definition arena_bytes (p : SlotPool) : Z :=
  (Z.of_nat (length (descs p)) * cap_tokens p * per_pos_bytes p)%Z.

(** ** Reachable pools *)

(** The public operations, paired with the descriptor table on the device. *)
Inductive pool_step : SlotPool * list KvSlotDesc → SlotPool * list KvSlotDesc → Prop :=
| step_acquire p u r p' : SlotPool_acquire (E := PoolError) p = Ok (r, p') → pool_step (p, u) (p', u)
| step_release p u id p' : SlotPool_release (E := PoolError) p id = Ok p' → pool_step (p, u) (p', u)
| step_reset p u id p' : SlotPool_reset (E := PoolError) p id = Ok p' → pool_step (p, u) (p', u)
| step_set_seq_len p u id len p' :
    is_u64 len → SlotPool_set_seq_len p id len = Ok p' → pool_step (p, u) (p', u)
| step_mark_uploaded p u : pool_step (p, u) (SlotPool_mark_uploaded p, descs p).

Record pool_wf (n : nat) (cap pp : Z) (s : SlotPool * list KvSlotDesc) : Prop := {
  pw_descs : length (descs s.1) = n;
  pw_in_use : length (in_use s.1) = n;
  pw_cap : cap_tokens s.1 = cap;
  pw_pp : per_pos_bytes s.1 = pp;
  pw_desc i d : descs s.1 !! i = Some d →
    k_base d = (Z.of_nat i * (cap * pp))%Z ∧ v_base d = k_base d ∧ desc_cap d = cap ∧
    (0 ≤ seq_len d ≤ cap)%Z;
  pw_clean : dirty s.1 = false → s.2 = descs s.1 }.

(** What the constructor establishes. *)
Lemma SlotPool_new_Ok mem n cap0 pp p :
  (0 ≤ cap0)%Z → (8 < pp)%Z → SlotPool_new mem n cap0 pp = Ok p →
  ∃ cap, (cap0 ≤ cap < cap0 + PAGE_TOKENS)%Z ∧ (PAGE_TOKENS | cap)%Z ∧ (0 ≤ cap < 2147483648)%Z ∧
    (2 * (Z.of_nat n * (cap * pp)) ≤ R9700_VRAM_BYTES)%Z ∧ 0 < n ∧
    in_use p = replicate n false ∧ dirty p = true ∧ (∀ u, pool_wf n cap pp (p, u)).
Proof.
  intros H0 Hpp H. unfold SlotPool_new, preflight_alloc in H. inv_ok. to_prop.
  apply checked_mul_Some in Hx1 as [-> _], Hx2 as [-> _].
  destruct (checked_mul U64_MAX _ (Z.of_nat n)) as [b|] eqn:Eb; cbn in Hx3; [|done].
  apply checked_mul_Some in Eb as [-> _], Hx3 as [-> _].
  set (cap := ((cap0 + PAGE_TOKENS - 1) / PAGE_TOKENS * PAGE_TOKENS)%Z) in *.
  assert (cap0 ≤ cap < cap0 + PAGE_TOKENS ∧ 0 ≤ cap)%Z as [Hcap Hcap0].
  { unfold cap, PAGE_TOKENS. Z.div_mod_to_equations. lia. }
  assert (2 * (Z.of_nat n * (cap * pp)) ≤ R9700_VRAM_BYTES)%Z as Hbudget by lia.
  assert (cap < 2147483648)%Z as Hsmall.
  { unfold R9700_VRAM_BYTES in Hbudget. assert (1 ≤ Z.of_nat n)%Z by lia.
    assert (cap * 9 ≤ cap * pp)%Z by nia. nia. }
  exists cap. split; [done|]. split; [by eexists|]. split; [done|]. split; [done|]. split; [done|].
  split; [done|]. split; [done|]. intros u. split; cbn.
  - by rewrite length_fmap, length_seq.
  - by rewrite length_replicate.
  - done.
  - done.
  - intros i d Hd. apply list_lookup_fmap_Some in Hd as (j & -> & [-> Hj]%lookup_seq). cbn.
    rewrite as_i32_small by lia. repeat split; lia.
  - done.
Qed.

Section wf.
Context (n : nat) (cap pp : Z) (Hcap : (0 ≤ cap < 2147483648)%Z).

(** Changing one length. *)
Lemma store_seq_len_wf {E} p u i len p' :
  pool_wf n cap pp (p, u) → (0 ≤ len ≤ cap)%Z → store_seq_len (E := E) p i len = Ok p' →
  pool_wf n cap pp (p', u) ∧ in_use p' = in_use p ∧
  ∃ d, descs p !! i = Some d ∧ descs p' = <[i := with_seq_len d len]> (descs p).
Proof using Hcap.
  intros [H1 H2 H3 H4 H5 H6] Hlen. unfold store_seq_len. intros H. apply bind_Ok in H as (d & Hd%index_Ok & H).
  cbn [fst snd] in *. destruct (Z.eqb_spec (seq_len d) len) as [<-|]; cbn [negb] in H.
  - injection H as <-. split; [by split|]. split; [done|]. exists d. split; [done|].
    rewrite list_insert_id; [done|]. rewrite Hd. by destruct d.
  - inv_ok. cbn. split; [|by eauto]. split; cbn.
    + by rewrite length_insert.
    + done.
    + done.
    + done.
    + intros j e He. destruct (decide (i = j)) as [<-|Hne].
      * rewrite list_lookup_insert_eq in He by done. injection He as <-. cbn.
        destruct (H5 i d Hd) as (? & ? & ? & ?). done.
      * rewrite list_lookup_insert_ne in He by done. by apply H5.
    + done.
Qed.

Lemma set_in_use_wf {E} p u i used p' :
  pool_wf n cap pp (p, u) → set_in_use (E := E) p i used = Ok p' →
  pool_wf n cap pp (p', u) ∧ descs p' = descs p ∧ i < length (in_use p) ∧
  in_use p' = <[i := used]> (in_use p).
Proof using Hcap.
  intros [H1 H2 H3 H4 H5 H6] H. unfold set_in_use in H. inv_ok. cbn [fst snd] in *.
  split; [|done]. split; cbn; try done. by rewrite length_insert.
Qed.

Lemma pool_step_wf s s' : pool_step s s' → pool_wf n cap pp s → pool_wf n cap pp s'.
Proof using Hcap.
  intros Hstep Hwf. destruct Hstep as [p u r p' H|p u id p' H|p u id p' H|p u id len p' Hlen H|p u].
  - unfold SlotPool_acquire, SlotPool_reset in H. destruct (list_find _ _) as [[i b]|]; [|by inv_ok].
    apply bind_Ok in H as (p1 & Hp1 & H). apply bind_Ok in H as (p2 & Hp2 & [= <- <-]).
    apply (set_in_use_wf p u) in Hp1 as [Hp1 _]; [|done].
    by apply (store_seq_len_wf p1 u) in Hp2 as [Hp2 _]; [|done|lia].
  - unfold SlotPool_release, SlotPool_reset in H. apply bind_Ok in H as (p1 & Hp1 & H).
    apply (store_seq_len_wf p u) in Hp1 as [Hp1 _]; [|done|lia].
    by apply (set_in_use_wf p1 u) in H as [H _].
  - by apply (store_seq_len_wf p u) in H as [H _]; [|done|lia].
  - unfold SlotPool_set_seq_len in H. apply bind_Ok in H as ([] & He & H). inv_ok. to_prop.
    pose proof (pw_cap _ _ _ _ Hwf) as Hc. cbn in Hc. rewrite Hc in He. rewrite as_i32_small in H by (cbn in *; ulia).
    by apply (store_seq_len_wf p u) in H as [H _]; [|done|cbn in *; ulia].
  - destruct Hwf as [H1 H2 H3 H4 H5 H6]. by split.
Qed.

Lemma pool_steps_wf s s' : rtc pool_step s s' → pool_wf n cap pp s → pool_wf n cap pp s'.
Proof using Hcap. induction 1; [done|]. eauto using pool_step_wf. Qed.
End wf.

(** Position [t] of slab [i] lies in that slab and so below slab [j] and the end. *)
Lemma slab_position (i j : nat) cap pp t :
  i < j → (0 < pp → 0 ≤ t < cap →
  Z.of_nat i * (cap * pp) ≤ Z.of_nat i * (cap * pp) + t * pp ∧
  Z.of_nat i * (cap * pp) + t * pp + pp ≤ Z.of_nat j * (cap * pp))%Z.
Proof.
  intros Hij Hpp Ht.
  assert ((t + 1) * pp ≤ cap * pp)%Z by (apply Z.mul_le_mono_nonneg_r; lia).
  assert (0 ≤ t * pp)%Z by (apply Z.mul_nonneg_nonneg; lia).
  assert ((Z.of_nat i + 1) * (cap * pp) ≤ Z.of_nat j * (cap * pp))%Z
    by (apply Z.mul_le_mono_nonneg_r; lia).
  lia.
Qed.

(** ** Claims about pools *)

(** The pool invariant. After any sequence of operations on a new pool the
    capacity is the requested one rounded up to a page; both arenas together
    respect the budget; every descriptor keeps equal K and V bases, a length
    between zero and the capacity, and all its readable positions inside the
    arena; positions of different slots never share a byte; and when the dirty
    flag is clear the device holds exactly the current descriptors. *)
Theorem pool_invariant mem n cap0 pp p0 u0 p u :
  (0 ≤ cap0)%Z → (8 < pp)%Z → SlotPool_new mem n cap0 pp = Ok p0 →
  rtc pool_step (p0, u0) (p, u) →
  (cap0 ≤ cap_tokens p < cap0 + PAGE_TOKENS)%Z ∧ (PAGE_TOKENS | cap_tokens p)%Z ∧
  (2 * arena_bytes p ≤ R9700_VRAM_BYTES)%Z ∧ length (descs p) = n ∧
  (∀ i d, descs p !! i = Some d →
    v_base d = k_base d ∧ desc_cap d = cap_tokens p ∧ (0 ≤ seq_len d ≤ desc_cap d)%Z ∧
    ∀ t, (0 ≤ t < seq_len d → 0 ≤ k_base d + t * pp ∧ k_base d + t * pp + pp ≤ arena_bytes p)%Z) ∧
  (∀ i j d e t s, i ≠ j → descs p !! i = Some d → descs p !! j = Some e →
    (0 ≤ t < seq_len d)%Z → (0 ≤ s < seq_len e)%Z →
    (k_base d + t * pp + pp ≤ k_base e + s * pp ∨ k_base e + s * pp + pp ≤ k_base d + t * pp)%Z) ∧
  (dirty p = false → u = descs p).
Proof.
  intros H0 Hpp Hnew Hsteps.
  destruct (SlotPool_new_Ok _ _ _ _ _ H0 Hpp Hnew)
    as (cap & Hcap & Hdiv & Hsmall & Hbudget & _ & _ & _ & Hwf).
  pose proof (pool_steps_wf n cap pp Hsmall _ _ Hsteps (Hwf u0)) as [H1 _ H3 H4 H5 H6].
  cbn [fst snd] in *. unfold arena_bytes. rewrite H1, H3, H4, <- (Z.mul_assoc (Z.of_nat n)).
  split; [done|]. split; [done|]. split; [lia|]. split; [done|].
  split; [|split; [|done]].
  - intros i d Hd. destruct (H5 i d Hd) as (Hk & Hv & Hc & Hs). rewrite Hc.
    split; [done|]. split; [done|]. split; [done|]. intros t Ht. rewrite Hk.
    pose proof (lookup_lt_Some _ _ _ Hd) as Hi. rewrite H1 in Hi.
    pose proof (slab_position i n cap pp t Hi). nia.
  - intros i j d e t s Hij Hd He Ht Hs.
    destruct (H5 i d Hd) as (Hk & _ & _ & Hsd). destruct (H5 j e He) as (Hk' & _ & _ & Hse).
    rewrite Hk, Hk'. destruct (lt_eq_lt_dec i j) as [[Hlt|?]|Hlt]; [left|done|right].
    + pose proof (slab_position i j cap pp t Hlt). nia.
    + pose proof (slab_position j i cap pp s Hlt). nia.
Qed.

(** A stored length or use flag is in range on a well-formed pool. *)
Lemma store_seq_len_total {E} p i len : i < length (descs p) →
  ∃ p', store_seq_len (E := E) p i len = Ok p'.
Proof.
  intros Hi. destruct (lookup_lt_is_Some_2 (descs p) i Hi) as [d Hd]. unfold store_seq_len.
  rewrite (proj2 (index_Ok _ _ _) Hd). cbn [mbind result_bind].
  destruct (negb _); [|by eexists]. unfold store. rewrite bool_decide_eq_true_2 by lia. by eexists.
Qed.

Lemma set_in_use_total {E} p i used : i < length (in_use p) →
  ∃ p', set_in_use (E := E) p i used = Ok p'.
Proof.
  intros Hi. unfold set_in_use, store. rewrite bool_decide_eq_true_2 by lia. by eexists.
Qed.

(** What an acquisition did. *)
Definition acquired (n : nat) (p : SlotPool) (r : option SlotId) (p' : SlotPool) : Prop :=
  match r with
  | None => p' = p ∧ ∀ i, i < n → in_use p !! i = Some true
  | Some (mkSlotId i) =>
      in_use p !! i = Some false ∧ (∀ j, j < i → in_use p !! j = Some true) ∧
      in_use p' = <[i := true]> (in_use p) ∧
      (∃ d, descs p !! i = Some d ∧ descs p' = <[i := with_seq_len d 0]> (descs p))
  end.

Lemma acquire_spec {E} n cap pp p u :
  (0 ≤ cap < 2147483648)%Z → pool_wf n cap pp (p, u) →
  ∃ r p', SlotPool_acquire (E := E) p = Ok (r, p') ∧ pool_wf n cap pp (p', u) ∧ acquired n p r p'.
Proof.
  intros Hsmall Hp.
  pose proof (pw_descs _ _ _ _ Hp) as Hld. pose proof (pw_in_use _ _ _ _ Hp) as Hlu. cbn in Hld, Hlu.
  unfold SlotPool_acquire. destruct (list_find _ _) as [[i b]|] eqn:Ef.
  - apply list_find_Some in Ef as (Hi & -> & Hbefore).
    assert (i < n) as Hlt by (rewrite <- Hlu; by eapply lookup_lt_Some).
    destruct (set_in_use_total (E := E) p i true) as [p1 Hp1]; [lia|].
    rewrite Hp1. cbn [mbind result_bind].
    destruct (set_in_use_wf n cap pp Hsmall p u i true p1 Hp Hp1) as (Hw1 & Hd1 & _ & Hu1).
    destruct (store_seq_len_total (E := E) p1 i 0) as [p2 Hp2]; [rewrite Hd1; lia|].
    unfold SlotPool_reset. cbn [slot_value]. rewrite Hp2. cbn [mbind result_bind].
    destruct (store_seq_len_wf n cap pp Hsmall p1 u i 0 p2 Hw1 ltac:(lia) Hp2)
      as (Hw2 & Hu2 & d' & Hd' & Hs2).
    eexists _, _. split; [done|]. split; [done|]. cbn. split; [done|]. split.
    { intros j Hj. destruct (lookup_lt_is_Some_2 (in_use p) j) as [[] Hb]; [lia|done|].
      by destruct (Hbefore j _ Hb Hj). }
    split; [by rewrite Hu2|]. rewrite Hd1 in Hd', Hs2. by exists d'.
  - eexists _, _. split; [done|]. split; [done|]. split; [done|]. intros i Hi.
    destruct (lookup_lt_is_Some_2 (in_use p) i) as [[] Hb]; [lia|done|].
    apply list_find_None in Ef. rewrite Forall_forall in Ef.
    by destruct (Ef _ (list_elem_of_lookup_2 _ _ _ Hb)).
Qed.

Lemma release_spec {E} n cap pp p u i :
  (0 ≤ cap < 2147483648)%Z → pool_wf n cap pp (p, u) → i < n →
  ∃ p', SlotPool_release (E := E) p (mkSlotId i) = Ok p' ∧ pool_wf n cap pp (p', u) ∧
    in_use p' = <[i := false]> (in_use p) ∧
    ∃ d, descs p !! i = Some d ∧ descs p' = <[i := with_seq_len d 0]> (descs p).
Proof.
  intros Hsmall Hp Hi.
  pose proof (pw_descs _ _ _ _ Hp) as Hld. pose proof (pw_in_use _ _ _ _ Hp) as Hlu. cbn in Hld, Hlu.
  unfold SlotPool_release, SlotPool_reset. cbn [slot_value].
  destruct (store_seq_len_total (E := E) p i 0) as [p1 Hp1]; [lia|].
  destruct (store_seq_len_wf n cap pp Hsmall p u i 0 p1 Hp ltac:(lia) Hp1) as (Hw1 & Hu1 & d & Hd & Hs1).
  rewrite Hp1. cbn [mbind result_bind].
  destruct (set_in_use_total (E := E) p1 i false) as [p2 Hp2]; [rewrite Hu1; lia|].
  destruct (set_in_use_wf n cap pp Hsmall p1 u i false p2 Hw1 Hp2) as (Hw2 & Hd2 & _ & Hu2).
  exists p2. split; [done|]. split; [done|]. rewrite Hu2, Hu1, Hd2. eauto.
Qed.

(** Acquisition is exact. On a reachable pool it never panics; it answers
    that the pool is full exactly when every slot is in use, and changes
    nothing then; otherwise it hands out the lowest free slot, in use and with
    length zero afterwards, and leaves the use and the descriptors of the other
    slots alone. *)
Theorem acquire_exact {E} mem n cap0 pp p0 u0 p u :
  (0 ≤ cap0)%Z → (8 < pp)%Z → SlotPool_new mem n cap0 pp = Ok p0 →
  rtc pool_step (p0, u0) (p, u) →
  ∃ r p', SlotPool_acquire (E := E) p = Ok (r, p') ∧ acquired n p r p'.
Proof.
  intros H0 Hpp Hnew Hsteps.
  destruct (SlotPool_new_Ok _ _ _ _ _ H0 Hpp Hnew) as (cap & _ & _ & Hsmall & _ & _ & _ & _ & Hwf).
  pose proof (pool_steps_wf n cap pp Hsmall _ _ Hsteps (Hwf u0)) as Hp.
  destruct (acquire_spec (E := E) n cap pp p u Hsmall Hp) as (r & p' & ? & _ & ?). eauto.
Qed.

(** ** Tiles *)

(** The global rows of a tile: up to [br] rows, not past the end of its slot. *)
Definition tile_rows (counts : list nat) (br : nat) (tile : Z * Z * Z) : list nat :=
  let '(slot, row0, qbase) := tile in
  seq (Z.to_nat qbase) (br `min` (default 0 (counts !! Z.to_nat slot) - Z.to_nat row0)).

(** The tile starts at a row of its slot, and its flat row is that row's. *)
Definition tile_ok (counts : list nat) (tile : Z * Z * Z) : Prop :=
  let '(slot, row0, qbase) := tile in
  ∃ i r m, slot = Z.of_nat i ∧ row0 = Z.of_nat r ∧ counts !! i = Some m ∧ r < m ∧
    qbase = Z.of_nat (total_rows (take i counts) + r).

Lemma total_rows_app l k : total_rows (l ++ k) = total_rows l + total_rows k.
Proof. unfold total_rows. induction l; cbn; lia. Qed.

Lemma row_bound counts pre m post r :
  (Z.of_nat (total_rows counts) < 2147483648)%Z → counts = pre ++ m :: post → r < m →
  (Z.of_nat (total_rows pre + r) < 2147483648)%Z.
Proof.
  intros Hrows Hc Hr. rewrite Hc, total_rows_app in Hrows. cbn in Hrows. lia.
Qed.

Section tiles.
Context (counts : list nat) (br : nat) (Hbr : 0 < br).
Context (Hrows : (Z.of_nat (total_rows counts) < 2147483648)%Z).
Context (Hslots : (Z.of_nat (length counts) < 2147483648)%Z).

Lemma slot_tiles_rows pre m post fuel : counts = pre ++ m :: post → ∀ row0,
  m - row0 < fuel →
  let tiles := slot_tiles fuel (length pre) (total_rows pre) m br row0 in
  concat (tile_rows counts br <$> tiles) = seq (total_rows pre + row0) (m - row0) ∧
  Forall (tile_ok counts) tiles.
Proof using Hbr Hrows Hslots.
  intros Hc. assert (counts !! length pre = Some m) as Hm by (rewrite Hc; by apply list_lookup_middle).
  assert (take (length pre) counts = pre) as Htake by (rewrite Hc; apply take_app_length).
  pose proof (lookup_lt_Some _ _ _ Hm) as Hpre.
  induction fuel as [|fuel IH]; intros row0 Hf; [lia|]. cbn [slot_tiles]. case_bool_decide as Hlt.
  - pose proof (row_bound counts pre m post row0 Hrows Hc Hlt). rewrite !as_i32_small by lia.
    destruct (IH (row0 + br)) as [IH1 IH2]; [lia|]. cbn zeta. split.
    + rewrite fmap_cons, concat_cons, IH1. unfold tile_rows. rewrite !Nat2Z.id, Hm. cbn [default].
      assert (seq (total_rows pre + row0) (m - row0) = seq (total_rows pre + row0) (br `min` (m - row0))
        ++ seq (total_rows pre + row0 + br `min` (m - row0)) (m - (row0 + br))) as ->
        by (rewrite <- seq_app; f_equal; lia).
      f_equal. destruct (le_lt_dec (m - row0) br).
      * by replace (m - (row0 + br)) with 0 by lia.
      * f_equal. lia.
    + constructor; [|done]. exists (length pre), row0, m. rewrite Htake. done.
  - replace (m - row0) with 0 by lia. by split; [|constructor].
Qed.

Lemma tiles_partition l : ∀ pre tiles, counts = pre ++ l →
  ∃ new, (foldl (tile_slot_step br) (tiles, total_rows pre)
            (imap (λ i, pair (length pre + i)) l)).1 = tiles ++ new ∧
    concat (tile_rows counts br <$> new) = seq (total_rows pre) (total_rows l) ∧
    Forall (tile_ok counts) new.
Proof using Hbr Hrows Hslots.
  induction l as [|m l IH]; intros pre tiles Hc.
  - exists []. cbn. by rewrite app_nil_r.
  - cbn [imap foldl tile_slot_step]. rewrite Nat.add_0_r.
    destruct (slot_tiles_rows pre m l (S m) Hc 0 ltac:(lia)) as [Hr Hok].
    assert (imap ((λ i, pair (length pre + i)) ∘ S) l = imap (λ i, pair (length (pre ++ [m]) + i)) l) as ->.
    { apply imap_ext. intros i x _. cbn. rewrite length_app. cbn. f_equal. lia. }
    replace (total_rows pre + m) with (total_rows (pre ++ [m])) by (rewrite total_rows_app; cbn; lia).
    destruct (IH (pre ++ [m]) (tiles ++ slot_tiles (S m) (length pre) (total_rows pre) m br 0))
      as (new & -> & Hnew & Hok'); [by rewrite <- app_assoc|].
    eexists. rewrite <- app_assoc. split; [done|]. split; [|by apply Forall_app].
    rewrite fmap_app, concat_app, Hr, Hnew, total_rows_app, Nat.add_0_r, Nat.sub_0_r.
    cbn [total_rows foldr]. rewrite Nat.add_0_r. fold (total_rows l). by rewrite seq_app.
Qed.
End tiles.

(** The tile list partitions the query rows. For any batch whose row and
    slot counts fit an [i32], the tiles, in order, cover the flat rows [0] to
    [total_rows - 1] exactly once; each starts at a row of its own slot, its
    flat row is the rows of the earlier slots plus that row, and no tile runs
    past its slot; slots without rows get no tile. *)
Theorem build_tiles_partition {E} counts br :
  0 < br → (Z.of_nat (total_rows counts) < 2147483648)%Z →
  (Z.of_nat (length counts) < 2147483648)%Z →
  ∃ tiles, build_tiles (E := E) counts br = Ok tiles ∧
    concat (tile_rows counts br <$> tiles) = seq 0 (total_rows counts) ∧
    Forall (tile_ok counts) tiles.
Proof.
  intros Hbr Hr Hs. unfold build_tiles. rewrite bool_decide_eq_true_2 by done. cbn [assert mbind result_bind].
  destruct (tiles_partition counts br Hbr Hr Hs counts [] [] eq_refl) as (new & Hf & Hrows & Hok).
  exists new. split; [|done]. f_equal. exact Hf.
Qed.

(** ** Witnesses *)

Definition demo_mem : option Z := Some (64 * 1024 * 1024 * 1024)%Z.
Definition demo_pool : SlotPool :=
  match SlotPool_new demo_mem 4 1000 1088 with Ok p => p | _ => mkSlotPool [] [] 0 0 false end.
Definition demo_pool_used : SlotPool :=
  match (p ← SlotPool_acquire demo_pool; SlotPool_set_seq_len p.2 (mkSlotId 0) 700) with
  | Ok p => p | _ => demo_pool end.

Lemma demo_pool_steps : rtc pool_step (demo_pool, []) (demo_pool_used, []).
Proof.
  eapply rtc_l; [|eapply rtc_l; [|apply rtc_refl]].
  - eapply (step_acquire demo_pool []). vm_compute. reflexivity.
  - eapply (step_set_seq_len _ [] (mkSlotId 0) 700); [ulia|]. vm_compute. reflexivity.
Qed.

Lemma pool_invariant_witness : (cap_tokens demo_pool_used = 1024 ∧
  2 * arena_bytes demo_pool_used ≤ R9700_VRAM_BYTES)%Z.
Proof.
  destruct (pool_invariant demo_mem 4 1000 1088 demo_pool [] demo_pool_used [])
    as (_ & _ & H & _); [lia|lia|vm_compute; reflexivity|exact demo_pool_steps|].
  split; [vm_compute; reflexivity|exact H].
Defined.

(** The next acquisition hands out the second slot. *)
Lemma acquire_exact_witness : ∃ p',
  SlotPool_acquire (E := unit) demo_pool_used = Ok (Some (mkSlotId 1), p') ∧ in_use demo_pool_used !! 1 = Some false.
Proof.
  destruct (acquire_exact (E := unit) demo_mem 4 1000 1088 demo_pool [] demo_pool_used [])
    as (r & p' & Ha & Hr); [lia|lia|vm_compute; reflexivity|exact demo_pool_steps|].
  assert (r = Some (mkSlotId 1)) as -> by (vm_compute in Ha; by injection Ha as <- _).
  exists p'. split; [exact Ha|exact (proj1 Hr)].
Defined.

Lemma build_tiles_partition_witness : ∃ tiles,
  build_tiles (E := unit) [5; 0; 2] 2 = Ok tiles ∧
  concat (tile_rows [5; 0; 2] 2 <$> tiles) = [0; 1; 2; 3; 4; 5; 6].
Proof.
  destruct (build_tiles_partition (E := unit) [5; 0; 2] 2) as (tiles & H1 & H2 & _);
    [lia|vm_compute; reflexivity|vm_compute; reflexivity|].
  exists tiles. split; [exact H1|exact H2].
Defined.
