(* ===== verification/Scheduler.v ===== *)
(** Step batches and their scheduling
    (src/crates/hipfire-arch-qwen35/src/slot_batch.rs and
    src/crates/hipfire-arch-qwen35/src/scheduler.rs).

    A batch is four parallel vectors over the rows of one forward step. The
    scheduler takes a chunk of the remaining prompt of every slot, one token
    from a decoding one. Positions are [usize] values whose additions are
    checked; casts to [i32] wrap.

    Proved here: over any number of steps every slot is fed its own prompt, in
    order, at consecutive absolute positions, a full quota per step, whatever
    the other slots hold. *)

From S2P Require Import Prelude SlotPool.

Record SlotBatch := mkSlotBatch {
  m_per_slot : list nat;
  tokens : list Z;
  positions : list Z;
  row_slot : list Z }.

Definition SlotBatch_default : SlotBatch := mkSlotBatch [] [] [] [].

(** One row of the inner loop. *)
Definition push_row {E} (slot : SlotId) (start_pos : Z) (b : SlotBatch) (entry : nat * Z)
    : result E SlotBatch :=
  let '(i, t) := entry in
  pos ← expect (checked_add U64_MAX start_pos (Z.of_nat i));
  Ok (mkSlotBatch (m_per_slot b) (tokens b ++ [t]) (positions b ++ [as_i32 pos])
        (row_slot b ++ [as_i32 (Z.of_nat (slot_value slot))])).

(** The rows of one slot, preceded by their count. *)
Definition push_rows {E} (b : SlotBatch) (slot : SlotId) (toks : list Z) (start_pos : Z)
    : result E SlotBatch :=
  try_fold (push_row slot start_pos)
    (mkSlotBatch (m_per_slot b ++ [length toks]) (tokens b) (positions b) (row_slot b))
    (enumerate toks).

(** [SlotBatch::build] *)
Definition SlotBatch_build {E} (per_slot : list (SlotId * list Z * Z)) : result E SlotBatch :=
  try_fold (λ b '(slot, toks, start_pos), push_rows b slot toks start_pos) SlotBatch_default per_slot.

(** [SlotBatch::total_rows], [SlotBatch::is_empty] *)
Definition batch_total_rows (b : SlotBatch) : nat := length (tokens b).
Definition batch_is_empty (b : SlotBatch) : bool := bool_decide (tokens b = []).

Record Scheduler := mkScheduler { chunk_size : nat }.

Record PendingWork := mkPendingWork {
  work_slot : SlotId;
  remaining_prompt : list Z;
  next_pos : Z;
  decoding : bool }.

(** How many tokens a slot gives to a step. *)
Definition take_count (s : Scheduler) (w : PendingWork) : nat :=
  if decoding w then length (remaining_prompt w) `min` 1
  else length (remaining_prompt w) `min` chunk_size s.

(** One slot of the loop of [next_batch]. *)
Definition schedule_slot {E} (s : Scheduler) (st : SlotBatch * list PendingWork) (w : PendingWork)
    : result E (SlotBatch * list PendingWork) :=
  let '(b, done) := st in
  let count := take_count s w in
  let toks := take count (remaining_prompt w) in
  b ← push_rows b (work_slot w) toks (next_pos w);
  next ← expect (checked_add U64_MAX (next_pos w) (Z.of_nat (length toks)));
  Ok (b, done ++ [mkPendingWork (work_slot w) (drop count (remaining_prompt w)) next (decoding w)]).

(** [Scheduler::next_batch] *)
Definition next_batch {E} (s : Scheduler) (work : list PendingWork)
    : result E (SlotBatch * list PendingWork) :=
  try_fold (schedule_slot s) (SlotBatch_default, []) work.

(** ** Rows of a batch *)

Definition rows (b : SlotBatch) : list (Z * (Z * Z)) :=
  zip (row_slot b) (zip (tokens b) (positions b)).

Definition batch_aligned (b : SlotBatch) : Prop :=
  length (tokens b) = length (row_slot b) ∧ length (positions b) = length (row_slot b).

(** The rows a slot contributes: its tokens at consecutive positions. *)
Definition block (slot : SlotId) (toks : list Z) (start_pos : Z) : list (Z * (Z * Z)) :=
  imap (λ i t, (Z.of_nat (slot_value slot), (t, start_pos + Z.of_nat i)%Z)) toks.

Definition fits (slot : SlotId) (start_pos : Z) (count : nat) : Prop :=
  (Z.of_nat (slot_value slot) < 2147483648)%Z ∧ (0 ≤ start_pos)%Z ∧
  (start_pos + Z.of_nat count < 2147483648)%Z.

Lemma push_rows_Ok {E} b slot toks start_pos :
  batch_aligned b → fits slot start_pos (length toks) →
  ∃ b', push_rows (E := E) b slot toks start_pos = Ok b' ∧ batch_aligned b' ∧
    rows b' = rows b ++ block slot toks start_pos ∧ m_per_slot b' = m_per_slot b ++ [length toks].
Proof.
  intros Hb (Hs & H0 & Hp). unfold push_rows.
  set (b0 := mkSlotBatch _ _ _ _).
  assert (∀ l done c, done ++ l = toks → batch_aligned c → rows c = rows b ++ block slot done start_pos →
    m_per_slot c = m_per_slot b ++ [length toks] →
    ∃ b', try_fold (E := E) (push_row slot start_pos) c (imap (λ i, pair (length done + i)) l) = Ok b' ∧
      batch_aligned b' ∧ rows b' = rows b ++ block slot toks start_pos ∧
      m_per_slot b' = m_per_slot b ++ [length toks]) as Hgo.
  { induction l as [|t l IH]; intros done c Hd Hc Hrows Hm.
    - exists c. rewrite app_nil_r in Hd. by rewrite <- Hd at 1.
    - cbn [imap]. rewrite try_fold_cons. cbn [push_row]. rewrite Nat.add_0_r.
      assert (length done < length toks) as Hlt by (rewrite <- Hd, length_app; cbn; lia).
      assert (checked_add U64_MAX start_pos (Z.of_nat (length done)) =
        Some (start_pos + Z.of_nat (length done))%Z) as -> by (apply checked_add_Some; ulia).
      cbn [expect mbind result_bind]. rewrite !as_i32_small by lia.
      assert (imap ((λ i, pair (length done + i)) ∘ S) l = imap (λ i, pair (length (done ++ [t]) + i)) l) as ->.
      { apply imap_ext. intros i x _. cbn. rewrite length_app. cbn. f_equal. lia. }
      destruct Hc as [Hc1 Hc2]. apply (IH (done ++ [t])); [by rewrite <- app_assoc| | |done].
      + split; cbn; rewrite !length_app; cbn; lia.
      + unfold rows. cbn [row_slot tokens positions].
        rewrite !zip_with_app by (rewrite ?length_zip_with; lia). fold (rows c). rewrite Hrows.
        rewrite <- app_assoc. f_equal. unfold block. rewrite imap_app. cbn. by rewrite Nat.add_0_r. }
  destruct Hb as [Hb1 Hb2]. apply (Hgo toks [] b0); [done|by split| |done].
  cbn. by rewrite app_nil_r.
Qed.

(** ** One step *)

(** A slot's share of a step. *)
Definition quota (s : Scheduler) (w : PendingWork) : nat := if decoding w then 1 else chunk_size s.

Definition advance (s : Scheduler) (w : PendingWork) : PendingWork :=
  mkPendingWork (work_slot w) (drop (quota s w) (remaining_prompt w))
    (next_pos w + Z.of_nat (quota s w `min` length (remaining_prompt w))) (decoding w).

Definition step_block (s : Scheduler) (w : PendingWork) : list (Z * (Z * Z)) :=
  block (work_slot w) (take (quota s w) (remaining_prompt w)) (next_pos w).

Definition work_fits (w : PendingWork) : Prop :=
  fits (work_slot w) (next_pos w) (length (remaining_prompt w)).

Lemma take_count_quota s w :
  take_count s w = length (remaining_prompt w) `min` quota s w.
Proof. unfold take_count, quota. by destruct (decoding w). Qed.

Lemma take_min_length {A} n (l : list A) : take (length l `min` n) l = take n l.
Proof.
  destruct (le_lt_dec (length l) n); [|by rewrite Nat.min_r by lia].
  rewrite Nat.min_l, !take_ge by lia. done.
Qed.

Lemma drop_min_length {A} n (l : list A) : drop (length l `min` n) l = drop n l.
Proof.
  destruct (le_lt_dec (length l) n); [|by rewrite Nat.min_r by lia].
  rewrite Nat.min_l, !drop_ge by lia. done.
Qed.

Lemma schedule_slot_Ok {E} s b done w :
  batch_aligned b → work_fits w →
  ∃ b', schedule_slot (E := E) s (b, done) w = Ok (b', done ++ [advance s w]) ∧
    batch_aligned b' ∧ rows b' = rows b ++ step_block s w.
Proof.
  intros Hb (Hs & H0 & Hp). unfold schedule_slot. rewrite take_count_quota.
  rewrite take_min_length, drop_min_length.
  pose proof (length_take (remaining_prompt w) (quota s w)) as Hlen.
  destruct (push_rows_Ok (E := E) b (work_slot w) (take (quota s w) (remaining_prompt w)) (next_pos w) Hb)
    as (b' & -> & Hb' & Hr & _); [by split; [|lia]|].
  cbn [mbind result_bind].
  assert (checked_add U64_MAX (next_pos w) (Z.of_nat (length (take (quota s w) (remaining_prompt w)))) =
    Some (next_pos w + Z.of_nat (quota s w `min` length (remaining_prompt w)))%Z) as ->.
  { apply checked_add_Some. rewrite Hlen. ulia. }
  exists b'. done.
Qed.

Lemma next_batch_Ok {E} s work : Forall work_fits work →
  ∃ b, next_batch (E := E) s work = Ok (b, advance s <$> work) ∧ rows b = work ≫= step_block s.
Proof.
  intros Hw. unfold next_batch.
  assert (∀ l b done, Forall work_fits l → batch_aligned b →
    ∃ b', try_fold (E := E) (schedule_slot s) (b, done) l = Ok (b', done ++ (advance s <$> l)) ∧
      rows b' = rows b ++ (l ≫= step_block s)) as Hgo.
  { induction l as [|w l IH]; intros b done Hl Hb.
    - exists b. cbn. by rewrite !app_nil_r.
    - apply Forall_cons in Hl as [Hfit Hl]. rewrite try_fold_cons.
      destruct (schedule_slot_Ok (E := E) s b done w Hb Hfit) as (b1 & -> & Hb1 & Hr1).
      cbn [mbind result_bind]. destruct (IH b1 (done ++ [advance s w]) Hl Hb1) as (b' & -> & Hr).
      exists b'. rewrite Hr, Hr1, <- !app_assoc. done. }
  destruct (Hgo work SlotBatch_default [] Hw) as (b & Hf & Hr); [done|]. exists b. done.
Qed.

(** ** Many steps *)

Fixpoint run_steps {E} (s : Scheduler) (k : nat) (work : list PendingWork)
    : result E (list SlotBatch * list PendingWork) :=
  match k with
  | O => Ok ([], work)
  | S k =>
      '(b, work) ← next_batch s work;
      '(bs, work) ← run_steps s k work;
      Ok (b :: bs, work)
  end.

Lemma advance_fits s w : work_fits w → work_fits (advance s w).
Proof.
  intros (Hs & H0 & Hp). split; [done|]. cbn. rewrite length_drop. lia.
Qed.

Lemma advance_slot s w : work_slot (advance s w) = work_slot w.
Proof. done. Qed.

(** The rows of one slot, as tokens with their positions. *)
Definition rows_of_slot (slot : SlotId) (b : SlotBatch) : list (Z * Z) :=
  snd <$> filter (λ r, r.1 = Z.of_nat (slot_value slot)) (rows b).

Lemma filter_block slot slot' toks pos :
  filter (λ r, r.1 = Z.of_nat (slot_value slot)) (block slot' toks pos) =
    if decide (slot_value slot = slot_value slot') then block slot' toks pos else [].
Proof.
  unfold block. revert pos. induction toks as [|t toks IH]; intros pos; [by case_decide|].
  cbn [imap]. rewrite filter_cons. cbn [fst].
  assert (imap ((λ i t, (Z.of_nat (slot_value slot'), (t, (pos + Z.of_nat i)%Z))) ∘ S) toks =
    imap (λ i t, (Z.of_nat (slot_value slot'), (t, (pos + 1 + Z.of_nat i)%Z))) toks) as ->.
  { apply imap_ext. intros i x _. cbn. do 2 f_equal. lia. }
  rewrite IH. repeat case_decide; (done || lia).
Qed.

Lemma rows_of_slot_step s work b i w :
  NoDup (slot_value ∘ work_slot <$> work) → rows b = work ≫= step_block s → work !! i = Some w →
  rows_of_slot (work_slot w) b =
    imap (λ j t, (t, next_pos w + Z.of_nat j)%Z) (take (quota s w) (remaining_prompt w)).
Proof.
  intros Hnd Hr Hw. unfold rows_of_slot. rewrite Hr. clear Hr b.
  assert (filter (λ r, r.1 = Z.of_nat (slot_value (work_slot w))) (work ≫= step_block s) =
    step_block s w) as ->.
  { revert i Hw. induction work as [|v work IH]; intros i Hw; [done|].
    cbn in Hnd. apply NoDup_cons in Hnd as [Hv Hnd]. rewrite bind_cons, filter_app.
    unfold step_block at 1. rewrite filter_block. destruct i as [|i].
    - injection Hw as ->. rewrite decide_True by done.
      assert (filter (λ r, r.1 = Z.of_nat (slot_value (work_slot w))) (work ≫= step_block s) = []) as ->;
        [|by rewrite app_nil_r].
      clear -Hv. induction work as [|v work IH]; [done|]. rewrite bind_cons, filter_app.
      unfold step_block at 1. cbn in Hv. apply not_elem_of_cons in Hv as [Hv1 Hv2].
      rewrite filter_block, decide_False by done. by apply IH.
    - rewrite decide_False; [by eapply IH|]. intros Heq. apply Hv.
      apply list_elem_of_fmap. exists w. split; [by symmetry|]. by eapply list_elem_of_lookup_2. }
  unfold step_block, block. rewrite fmap_imap. apply imap_ext. done.
Qed.

Lemma imap_take_split {A B} (f : nat → A → B) a c (l : list A) :
  imap f (take (a + c) l) =
    imap f (take a l) ++ imap (λ j, f (a `min` length l + j)) (take c (drop a l)).
Proof.
  rewrite <- take_take_drop, imap_app. f_equal. apply imap_ext. intros i x _. cbn.
  by rewrite length_take.
Qed.

Lemma run_steps_Ok {E} s k : ∀ work,
  Forall work_fits work → NoDup (slot_value ∘ work_slot <$> work) →
  ∃ bs work', run_steps (E := E) s k work = Ok (bs, work') ∧ length bs = k ∧
    ∀ i w, work !! i = Some w →
      (∃ w', work' !! i = Some w' ∧ remaining_prompt w' = drop (k * quota s w) (remaining_prompt w) ∧
        next_pos w' = (next_pos w + Z.of_nat ((k * quota s w) `min` length (remaining_prompt w)))%Z) ∧
      concat (rows_of_slot (work_slot w) <$> bs) =
        imap (λ j t, (t, next_pos w + Z.of_nat j)%Z) (take (k * quota s w) (remaining_prompt w)).
Proof.
  induction k as [|k IH]; intros work Hfit Hnd.
  - exists [], work. split; [done|]. split; [done|]. intros i w Hw. cbn. split; [|done].
    exists w. split; [done|]. split; [done|lia].
  - cbn [run_steps]. destruct (next_batch_Ok (E := E) s work Hfit) as (b & -> & Hrows).
    cbn [mbind result_bind].
    destruct (IH (advance s <$> work)) as (bs & work' & -> & Hlen & Hall).
    { apply Forall_fmap. eapply Forall_impl; [exact Hfit|]. intros w. apply advance_fits. }
    { by rewrite <- list_fmap_compose. }
    cbn [mbind result_bind]. exists (b :: bs), work'. split; [done|]. split; [cbn; lia|].
    intros i w Hw. destruct (Hall i (advance s w)) as [(w' & Hw' & Hrem & Hpos) Hconcat].
    { by rewrite list_lookup_fmap, Hw. }
    cbn [advance work_slot remaining_prompt next_pos] in Hrem, Hpos, Hconcat.
    change (quota s (advance s w)) with (quota s w) in Hrem, Hpos, Hconcat. split.
    + exists w'. split; [done|]. split; [rewrite Hrem, drop_drop; f_equal; lia|].
      rewrite Hpos, length_drop, Nat.mul_succ_l. lia.
    + rewrite fmap_cons, concat_cons, Hconcat, (rows_of_slot_step s work b i w Hnd Hrows Hw).
      cbn [Nat.mul]. rewrite imap_take_split. f_equal. apply imap_ext. intros j t _. f_equal. lia.
Qed.

(** The scheduler feeds every slot its own prompt. For any work list with
    distinct slots and positions that fit an [i32], any number of steps
    succeeds; each slot has then been fed exactly the first [k * quota] tokens
    of its prompt ([quota] the chunk size, one when decoding), in order and at
    consecutive absolute positions from its own start, and keeps the rest. So a
    long prompt never delays another slot, and every prompt is finished after
    [length / quota] steps rounded up. *)
Theorem scheduler_feeds_in_order {E} s k work :
  Forall work_fits work → NoDup (slot_value ∘ work_slot <$> work) →
  ∃ bs work', run_steps (E := E) s k work = Ok (bs, work') ∧ length bs = k ∧
    ∀ i w, work !! i = Some w →
      (∃ w', work' !! i = Some w' ∧ remaining_prompt w' = drop (k * quota s w) (remaining_prompt w) ∧
        next_pos w' = (next_pos w + Z.of_nat ((k * quota s w) `min` length (remaining_prompt w)))%Z) ∧
      concat (rows_of_slot (work_slot w) <$> bs) =
        imap (λ j t, (t, next_pos w + Z.of_nat j)%Z) (take (k * quota s w) (remaining_prompt w)).
Proof. apply run_steps_Ok. Qed.

(** A prefill of five tokens in chunks of two beside a decoding slot. *)
Lemma scheduler_feeds_in_order_witness :
  let work := [mkPendingWork (mkSlotId 3) [10; 11; 12; 13; 14]%Z 7 false;
               mkPendingWork (mkSlotId 0) [42%Z] 100 true] in
  ∃ bs work', run_steps (E := unit) (mkScheduler 2) 2 work = Ok (bs, work') ∧
    concat (rows_of_slot (mkSlotId 3) <$> bs) = [(10, 7); (11, 8); (12, 9); (13, 10)]%Z ∧
    concat (rows_of_slot (mkSlotId 0) <$> bs) = [(42, 100)]%Z.
Proof.
  intros work. destruct (scheduler_feeds_in_order (E := unit) (mkScheduler 2) 2 work)
    as (bs & work' & Hrun & _ & Hall).
  - repeat constructor; cbn; lia.
  - cbn. repeat constructor; [|by intros ?%not_elem_of_nil].
    intros Hin%list_elem_of_singleton. discriminate.
  - exists bs, work'. split; [exact Hrun|]. split.
    + exact (proj2 (Hall 0 _ eq_refl)).
    + exact (proj2 (Hall 1 _ eq_refl)).
Defined.
