(* ===== verification/Admission.v ===== *)
(** Admission control (src/crates/hipfire-runtime/src/admission.rs).

    The controller charges the weights once and each admitted session its
    context, against a budget in bytes; a second budget covers snapshots in host
    memory. Products and sums are [u64] and panic when they overflow.

    Proved here: the committed bytes of every reachable controller stay strictly
    below the budget, host bytes never exceed theirs, and a request is admitted
    exactly when it leaves headroom. *)

From S2P Require Import Prelude.

Record ModelFootprint := mkFootprint { weights_bytes : Z; kv_bytes_per_token : Z }.

Inductive AdmitError : Type :=
| PoolFull
| WouldExceedBudget (need available : Z).

Record AdmissionController := mkAdmission {
  footprint : ModelFootprint;
  adm_budget_bytes : Z;
  admitted : list Z;
  host_budget : Z;
  host_used : Z }.

(** [crate::swap::DEFAULT_HOST_BUDGET_BYTES] *)
Definition DEFAULT_HOST_BUDGET_BYTES : Z := 16 * 1024 * 1024 * 1024.

(** [AdmissionController::new] *)
Definition Admission_new (footprint : ModelFootprint) (budget_bytes : Z) : AdmissionController :=
  mkAdmission footprint budget_bytes [] DEFAULT_HOST_BUDGET_BYTES 0.

(** [ctx as u64 * kv_bytes_per_token] *)
Definition kv_bytes {E} (f : ModelFootprint) (ctx : Z) : result E Z :=
  expect (checked_mul U64_MAX ctx (kv_bytes_per_token f)).

(** [AdmissionController::used_bytes] *)
Definition used_bytes {E} (a : AdmissionController) : result E Z :=
  if bool_decide (admitted a = []) then Ok 0%Z
  else
    kv ← try_fold (λ sum ctx,
        bytes ← kv_bytes (footprint a) ctx; expect (checked_add U64_MAX sum bytes)) 0%Z (admitted a);
    expect (checked_add U64_MAX (weights_bytes (footprint a)) kv).

(** [AdmissionController::admit] *)
Definition Admission_admit (a : AdmissionController) (requested_ctx : Z)
    : result AdmitError (Z * AdmissionController) :=
  kv_need ← kv_bytes (footprint a) requested_ctx;
  let weights_need :=
    if bool_decide (admitted a = []) then weights_bytes (footprint a) else 0%Z in
  need ← expect (checked_add U64_MAX kv_need weights_need);
  used ← used_bytes a;
  let available := saturating_sub (adm_budget_bytes a) used in
  err_if (available <=? need)%Z (WouldExceedBudget need available) ;;
  Ok (requested_ctx, mkAdmission (footprint a) (adm_budget_bytes a) (admitted a ++ [requested_ctx])
        (host_budget a) (host_used a)).

(** [Vec::remove] at the first position of a value, if any. *)
Fixpoint remove_first (x : Z) (l : list Z) : list Z :=
  match l with
  | [] => []
  | y :: l => if (y =? x)%Z then l else y :: remove_first x l
  end.

(** [AdmissionController::release] *)
Definition Admission_release (a : AdmissionController) (granted_ctx : Z) : AdmissionController :=
  mkAdmission (footprint a) (adm_budget_bytes a) (remove_first granted_ctx (admitted a))
    (host_budget a) (host_used a).

(** [AdmissionController::admit_host] *)
Definition admit_host {E} (a : AdmissionController) (bytes : Z)
    : result E (bool * AdmissionController) :=
  if (host_budget a <? saturating_add U64_MAX (host_used a) bytes)%Z then Ok (false, a)
  else
    used ← expect (checked_add U64_MAX (host_used a) bytes);
    Ok (true, mkAdmission (footprint a) (adm_budget_bytes a) (admitted a) (host_budget a) used).

(** [AdmissionController::release_host] *)
Definition release_host (a : AdmissionController) (bytes : Z) : AdmissionController :=
  mkAdmission (footprint a) (adm_budget_bytes a) (admitted a) (host_budget a)
    (saturating_sub (host_used a) bytes).

(** [AdmissionController::set_host_budget] *)
Definition set_host_budget (a : AdmissionController) (bytes : Z) : AdmissionController :=
  mkAdmission (footprint a) (adm_budget_bytes a) (admitted a) bytes (host_used a).

(** ** Accounting *)

(** The bytes of a list of contexts, unbounded. *)
Definition kv_total (f : ModelFootprint) (ctxs : list Z) : Z :=
  foldr Z.add 0%Z ((λ ctx, ctx * kv_bytes_per_token f)%Z <$> ctxs).

Definition committed (a : AdmissionController) : Z :=
  if bool_decide (admitted a = []) then 0%Z
  else (weights_bytes (footprint a) + kv_total (footprint a) (admitted a))%Z.

Record adm_wf (a : AdmissionController) : Prop := {
  aw_weights : is_u64 (weights_bytes (footprint a));
  aw_kv : is_u64 (kv_bytes_per_token (footprint a));
  aw_budget : is_u64 (adm_budget_bytes a);
  aw_ctx : Forall (λ ctx, 0 ≤ ctx)%Z (admitted a);
  aw_committed : admitted a ≠ [] → (committed a < adm_budget_bytes a)%Z }.

Lemma kv_total_app f l k : kv_total f (l ++ k) = (kv_total f l + kv_total f k)%Z.
Proof. unfold kv_total. induction l as [|x l IH]; cbn in *; lia. Qed.

Lemma kv_total_nonneg f l : is_u64 (kv_bytes_per_token f) → Forall (λ ctx, 0 ≤ ctx)%Z l →
  (0 ≤ kv_total f l)%Z.
Proof.
  intros [Hk _]. induction 1 as [|x l Hx _ IH]; [done|]. unfold kv_total in *. cbn. nia.
Qed.

#[export] Instance kv_total_perm f : Proper (Permutation ==> (=)) (kv_total f).
Proof. intros l k H. unfold kv_total. induction H; cbn in *; lia. Qed.

Lemma remove_first_perm x l : x ∈ l → l ≡ₚ x :: remove_first x l.
Proof.
  induction l as [|y l IH]; [by intros ?%not_elem_of_nil|]. cbn.
  destruct (Z.eqb_spec y x) as [->|Hne]; [done|]. intros [->|Hin]%elem_of_cons; [done|].
  rewrite Permutation_swap. constructor. by apply IH.
Qed.

Lemma remove_first_absent x l : x ∉ l → remove_first x l = l.
Proof.
  induction l as [|y l IH]; [done|]. cbn. intros [Hne Hin]%not_elem_of_cons.
  destruct (Z.eqb_spec y x) as [->|]; [done|]. by rewrite IH.
Qed.

(** The code's sum is the unbounded one while it fits. *)
Lemma used_bytes_Ok {E} a : adm_wf a → used_bytes (E := E) a = Ok (committed a).
Proof.
  intros [Hw Hk Hb Hc Hcom]. unfold used_bytes, committed in *.
  case_bool_decide as Hnil; [done|].
  assert (weights_bytes (footprint a) + kv_total (footprint a) (admitted a) ≤ U64_MAX)%Z as Hmax.
  { specialize (Hcom Hnil). ulia. }
  assert (∀ l acc, Forall (λ ctx, 0 ≤ ctx)%Z l → (0 ≤ acc)%Z →
    (acc + kv_total (footprint a) l ≤ U64_MAX)%Z →
    try_fold (E := E) (λ sum ctx, bytes ← kv_bytes (footprint a) ctx;
      expect (checked_add U64_MAX sum bytes)) acc l = Ok (acc + kv_total (footprint a) l)%Z) as Hgo.
  { induction l as [|x l IH]; intros acc Hl Ha Hacc; [cbn; f_equal; lia|].
    inversion Hl as [|? ? Hx Hl']; subst. pose proof (kv_total_nonneg _ _ Hk Hl').
    change (kv_total (footprint a) (x :: l)) with
      (x * kv_bytes_per_token (footprint a) + kv_total (footprint a) l)%Z in *.
    assert (0 ≤ x * kv_bytes_per_token (footprint a))%Z by (destruct Hk; nia).
    rewrite try_fold_cons.
    assert (kv_bytes (E := E) (footprint a) x = Ok (x * kv_bytes_per_token (footprint a))%Z) as Em
      by (apply expect_Ok, checked_mul_Some; lia).
    assert (checked_add U64_MAX acc (x * kv_bytes_per_token (footprint a)) =
      Some (acc + x * kv_bytes_per_token (footprint a))%Z) as Ea by (apply checked_add_Some; lia).
    rewrite Em. cbn [mbind result_bind]. rewrite Ea. cbn [expect mbind result_bind].
    rewrite IH; [f_equal; lia|done|lia|lia]. }
  destruct Hw. rewrite Hgo by (done || lia). cbn [mbind result_bind].
  rewrite Z.add_0_l, (proj2 (checked_add_Some _ _ _ _) (conj eq_refl Hmax)). done.
Qed.

(** ** Reachable controllers *)

(** The operations that change a controller. *)
Inductive adm_step : AdmissionController → AdmissionController → Prop :=
| adm_admit a ctx granted a' :
    (0 ≤ ctx)%Z → Admission_admit a ctx = Ok (granted, a') → adm_step a a'
| adm_release a ctx : adm_step a (Admission_release a ctx)
| adm_admit_host a bytes ok a' :
    (0 ≤ bytes)%Z → admit_host (E := AdmitError) a bytes = Ok (ok, a') → adm_step a a'
| adm_release_host a bytes : (0 ≤ bytes)%Z → adm_step a (release_host a bytes).

Lemma admitted_bytes f l ctx : is_u64 (kv_bytes_per_token f) → is_u64 (weights_bytes f) →
  Forall (λ ctx, 0 ≤ ctx)%Z l → (0 ≤ ctx)%Z →
  let before := if bool_decide (l = []) then 0%Z else (weights_bytes f + kv_total f l)%Z in
  let need := (ctx * kv_bytes_per_token f +
    if bool_decide (l = []) then weights_bytes f else 0)%Z in
  (before + need = weights_bytes f + kv_total f (l ++ [ctx]) ∧ 0 ≤ before ∧ 0 ≤ need)%Z.
Proof.
  intros Hk Hw Hl Hc. cbn zeta. rewrite kv_total_app.
  pose proof (kv_total_nonneg f l Hk Hl). destruct Hk, Hw.
  assert (0 ≤ ctx * kv_bytes_per_token f)%Z by nia.
  change (kv_total f [ctx]) with (ctx * kv_bytes_per_token f + 0)%Z.
  case_bool_decide as Hn; [subst l|]; change (kv_total f []) with 0%Z in *; lia.
Qed.

(** The exact decision. *)
Lemma admit_spec a ctx : adm_wf a → (0 ≤ ctx)%Z →
  let need := (ctx * kv_bytes_per_token (footprint a) +
    if bool_decide (admitted a = []) then weights_bytes (footprint a) else 0)%Z in
  (need ≤ U64_MAX)%Z →
  Admission_admit a ctx =
    if (committed a + need <? adm_budget_bytes a)%Z
    then Ok (ctx, mkAdmission (footprint a) (adm_budget_bytes a) (admitted a ++ [ctx])
           (host_budget a) (host_used a))
    else Err (WouldExceedBudget need (saturating_sub (adm_budget_bytes a) (committed a))).
Proof.
  intros Hwf Hc need Hmax. unfold Admission_admit.
  destruct (admitted_bytes (footprint a) (admitted a) ctx (aw_kv _ Hwf) (aw_weights _ Hwf)
    (aw_ctx _ Hwf) Hc) as (_ & H0 & Hn). fold need in Hn. fold (committed a) in H0.
  assert (0 ≤ if bool_decide (admitted a = []) then weights_bytes (footprint a) else 0)%Z as Hw0
    by (destruct (aw_weights _ Hwf); case_bool_decide; lia).
  assert (kv_bytes (E := AdmitError) (footprint a) ctx =
    Ok (ctx * kv_bytes_per_token (footprint a))%Z) as ->
    by (apply expect_Ok, checked_mul_Some; split; [done|]; unfold need in Hmax; lia).
  cbn [mbind result_bind].
  rewrite (proj2 (checked_add_Some _ _ _ _) (conj eq_refl Hmax)). cbn [expect mbind result_bind].
  rewrite used_bytes_Ok by done. cbn [mbind result_bind]. fold need.
  pose proof (aw_budget _ Hwf). unfold saturating_sub.
  destruct (Z.leb_spec (Z.max 0 (adm_budget_bytes a - committed a)) need),
    (Z.ltb_spec (committed a + need) (adm_budget_bytes a)); cbn [err_if mbind result_bind];
    (done || ulia).
Qed.

Lemma adm_step_wf a a' : adm_step a a' → adm_wf a → adm_wf a'.
Proof.
  destruct 1 as [a ctx granted a' Hc H|a ctx|a bytes ok a' Hb H|a bytes Hb]; intros Hwf.
  - pose proof H as H'. unfold Admission_admit, kv_bytes in H'.
    apply bind_Ok in H' as (kv & Hkv%expect_Ok%checked_mul_Some & H').
    apply bind_Ok in H' as (need & Hneed%expect_Ok%checked_add_Some & _).
    rewrite admit_spec in H; [|done|done|lia].
    destruct (Z.ltb_spec (committed a + (ctx * kv_bytes_per_token (footprint a) +
      if bool_decide (admitted a = []) then weights_bytes (footprint a) else 0)) (adm_budget_bytes a));
      [|done].
    injection H as <- <-. destruct Hwf as [H1 H2 H3 H4 H5].
    destruct (admitted_bytes (footprint a) (admitted a) ctx H2 H1 H4 Hc) as (Heq & _ & _).
    split; cbn; [done..| |].
    + apply Forall_app. split; [done|]. by constructor.
    + intros _. unfold committed at 1. cbn [footprint admitted adm_budget_bytes].
      rewrite bool_decide_eq_false_2 by by destruct (admitted a).
      cbn zeta in Heq. fold (committed a) in Heq. lia.
  - destruct Hwf as [H1 H2 H3 H4 H5].
    destruct (decide (ctx ∈ admitted a)) as [Hin|Hin]; unfold Admission_release;
      [|rewrite remove_first_absent by done; by destruct a].
    pose proof (remove_first_perm _ _ Hin) as Hp. rewrite Hp in H4.
    apply Forall_cons in H4 as [Hctx H4]. split; cbn; [done..|].
    intros Hne. unfold committed in *. cbn [footprint admitted adm_budget_bytes].
    rewrite bool_decide_eq_false_2 by done.
    assert (admitted a ≠ []) as Hne' by (intros E; rewrite E in Hin; by apply not_elem_of_nil in Hin).
    specialize (H5 Hne'). rewrite bool_decide_eq_false_2, Hp in H5 by done.
    change (kv_total (footprint a) (ctx :: remove_first ctx (admitted a))) with
      (ctx * kv_bytes_per_token (footprint a) + kv_total (footprint a) (remove_first ctx (admitted a)))%Z in H5.
    assert (0 ≤ ctx * kv_bytes_per_token (footprint a))%Z by (destruct H2; nia). lia.
  - unfold admit_host in H. destruct (_ <? _)%Z; [by injection H as _ <-|]. inv_ok. by destruct Hwf.
  - by destruct Hwf.
Qed.

(** Host bytes stay within their budget as long as it is not lowered. *)
Lemma adm_step_host a a' : adm_step a a' → host_budget a' = host_budget a ∧
  ((0 ≤ host_used a ≤ host_budget a)%Z → (0 ≤ host_used a' ≤ host_budget a')%Z).
Proof.
  destruct 1 as [a ctx granted a' Hc H|a ctx|a bytes ok a' Hb H|a bytes Hb].
  - unfold Admission_admit in H. by inv_ok.
  - done.
  - unfold admit_host in H.
    destruct (Z.ltb_spec (host_budget a) (saturating_add U64_MAX (host_used a) bytes));
      [by injection H as _ <-|].
    apply bind_Ok in H as (used & Hu%expect_Ok%checked_add_Some & [= _ <-]). cbn. split; [done|]. ulia.
  - cbn. split; [done|]. ulia.
Qed.


