(* ===== verification/Prefix.v ===== *)
(** Prompt-cache planning (src/crates/hipfire-runtime/src/prefix.rs and
    src/crates/hipfire-runtime/src/cache_plan.rs).

    How much of a new prompt is already represented in the model's state. Token
    ids are [Z], token counts and positions [nat].

    Proved here: every planned reuse is a true common prefix that leaves at
    least one token to compute, and the two architectures' policies reuse
    exactly the conversations the new prompt strictly extends. *)

From S2P Require Import Prelude.

(** ** prefix.rs *)

(** [lcp] *)
Fixpoint lcp (a b : list Z) : nat :=
  match a, b with
  | x :: a, y :: b => if (x =? y)%Z then S (lcp a b) else 0
  | _, _ => 0
  end.

Record TurnPlan := mkTurnPlan { plan_lcp : nat; reused : nat; to_prefill : nat }.

(** [plan_turn] *)
Definition plan_turn (cached : list Z) (seq_len : nat) (prompt : list Z) : TurnPlan :=
  let shared := lcp cached prompt in
  let capped := (shared `min` seq_len) `min` (length prompt - 1) in
  mkTurnPlan capped capped (length prompt - capped).

(** ** cache_plan.rs *)

Record CachePlan := mkCachePlan {
  cache_hit : bool; start_pos : nat; cached_tokens : nat; resume_from : option nat }.

(** [CachePlan::miss] *)
Definition CachePlan_miss : CachePlan := mkCachePlan false 0 0 None.

Inductive ExactMatch := MissOnExact | StepBack.

Record CachePolicy := mkCachePolicy {
  min_new_len_ge_prior : bool; on_exact : ExactMatch; allow_partial : bool }.

(** [CachePolicy::qwen35], [CachePolicy::deepseek4] *)
Definition policy_qwen35 : CachePolicy := mkCachePolicy false MissOnExact false.
Definition policy_deepseek4 : CachePolicy := mkCachePolicy true StepBack false.

(** The matching loop, on fuel [max_match - lcp]. *)
Fixpoint match_loop (fuel : nat) (prior rendered : list Z) (i : nat) : nat :=
  match fuel with
  | O => i
  | S fuel =>
    match prior !! i, rendered !! i with
    | Some x, Some y => if (x =? y)%Z then match_loop fuel prior rendered (S i) else i
    | _, _ => i
    end
  end.

(** [iter.max()] *)
Fixpoint list_max (l : list nat) : option nat :=
  match l with
  | [] => None
  | x :: l => Some (match list_max l with Some y => x `max` y | None => x end)
  end.

(** Steps 5 to 7 of [plan_cache]: what a matched length is worth. *)
Definition plan_match (rendered prior : list Z) (policy : CachePolicy) (checkpoints : list nat)
    (resume_enabled : bool) (lcp : nat) : CachePlan :=
  if bool_decide (lcp = length prior ∧ lcp < length rendered ∧ 0 < lcp) then
    mkCachePlan true lcp lcp None
  else if bool_decide (0 < lcp ∧ lcp < length prior) then
    if allow_partial policy then mkCachePlan true lcp lcp None
    else if resume_enabled then
      match list_max (filter (λ p, p ≤ lcp ∧ p < length rendered) checkpoints) with
      | Some ckpt => mkCachePlan true ckpt ckpt (Some ckpt)
      | None => CachePlan_miss
      end
    else CachePlan_miss
  else CachePlan_miss.

(** [plan_cache] *)
Definition plan_cache (rendered prior : list Z) (policy : CachePolicy) (checkpoints : list nat)
    (resume_enabled : bool) : CachePlan :=
  if bool_decide (prior = []) then CachePlan_miss
  else if min_new_len_ge_prior policy && bool_decide (length rendered < length prior)
  then CachePlan_miss
  else
    let max_match := length prior `min` length rendered in
    let lcp := match_loop max_match prior rendered 0 in
    if bool_decide (lcp = length rendered ∧ 0 < lcp) then
      match on_exact policy with
      | MissOnExact => CachePlan_miss
      | StepBack => plan_match rendered prior policy checkpoints resume_enabled (lcp - 1)
      end
    else plan_match rendered prior policy checkpoints resume_enabled lcp.

(** ** Longest common prefixes *)

Lemma lcp_take a : ∀ b, take (lcp a b) a = take (lcp a b) b.
Proof.
  induction a as [|x a IH]; intros [|y b]; cbn; try done.
  destruct (Z.eqb_spec x y) as [->|]; cbn; [|done]. by rewrite IH.
Qed.

Lemma lcp_le a : ∀ b, lcp a b ≤ length a ∧ lcp a b ≤ length b.
Proof.
  induction a as [|x a IH]; intros [|y b]; cbn; try lia.
  destruct (x =? y)%Z; cbn; [|lia]. specialize (IH b). lia.
Qed.

(** No longer prefix agrees. *)
Lemma lcp_max a : ∀ b n, take n a = take n b → n ≤ length a → n ≤ length b → n ≤ lcp a b.
Proof.
  induction a as [|x a IH]; intros [|y b] [|n]; cbn; try lia; try done.
  intros [= -> Ht] ??. rewrite Z.eqb_refl. specialize (IH b n Ht). lia.
Qed.

Lemma take_lcp a b n : n ≤ lcp a b → take n a = take n b.
Proof.
  intros Hn. pose proof (f_equal (take n) (lcp_take a b)) as H. rewrite !take_take in H.
  by rewrite !Nat.min_l in H by lia.
Qed.

Lemma lcp_self_prefix a b : lcp a b = length a ↔ a `prefix_of` b.
Proof.
  split.
  - intros H. pose proof (lcp_take a b) as Ht. rewrite H, firstn_all in Ht. rewrite Ht.
    exists (drop (length a) b). by rewrite take_drop.
  - intros [k ->]. pose proof (lcp_le a (a ++ k)). pose proof (lcp_max a (a ++ k) (length a)) as Hm.
    rewrite firstn_all, take_app_length in Hm. specialize (Hm eq_refl). rewrite length_app in *. lia.
Qed.

Lemma match_loop_lcp prior : ∀ rendered pre1 pre2, length pre1 = length pre2 →
  match_loop (length prior `min` length rendered) (pre1 ++ prior) (pre2 ++ rendered) (length pre1) =
    length pre1 + lcp prior rendered.
Proof.
  induction prior as [|x prior IH]; intros [|y rendered] pre1 pre2 Hl; cbn; try lia.
  rewrite list_lookup_middle by done. rewrite list_lookup_middle by done.
  destruct (Z.eqb_spec x y) as [->|]; [|lia].
  specialize (IH rendered (pre1 ++ [y]) (pre2 ++ [y])). rewrite !length_app in IH. cbn in IH.
  rewrite <- !app_assoc in IH. cbn in IH. rewrite Nat.add_1_r in IH. rewrite IH; lia.
Qed.

Lemma match_loop_is_lcp prior rendered :
  match_loop (length prior `min` length rendered) prior rendered 0 = lcp prior rendered.
Proof. exact (match_loop_lcp prior rendered [] [] eq_refl). Qed.

Lemma list_max_spec l m : list_max l = Some m → m ∈ l ∧ ∀ x, x ∈ l → x ≤ m.
Proof.
  revert m. induction l as [|x l IH]; intros m; cbn; [done|]. intros [= <-].
  destruct (list_max l) as [y|] eqn:E.
  - destruct (IH y eq_refl) as [Hy Hle]. split.
    + destruct (Nat.max_spec x y) as [[_ ->]|[_ ->]]; [by right|left].
    + intros z [->|Hz]%elem_of_cons; [lia|]. specialize (Hle z Hz). lia.
  - split; [left|]. intros z [->|Hz]%elem_of_cons; [done|].
    destruct l; [by apply not_elem_of_nil in Hz|done].
Qed.

(** ** Soundness of plans *)

(** What a cache hit promises. *)
Record sound_hit (rendered prior : list Z) (checkpoints : list nat) (p : CachePlan) : Prop := {
  sh_cached : cached_tokens p = start_pos p;
  sh_room : start_pos p < length rendered;
  sh_prior : start_pos p ≤ length prior;
  sh_prefix : take (start_pos p) rendered = take (start_pos p) prior;
  sh_resume c : resume_from p = Some c → start_pos p = c ∧ c ∈ checkpoints ∧
    ∀ d, d ∈ checkpoints → d < length rendered → take d rendered = take d prior →
      d ≤ length prior → d ≤ c ∨ length rendered ≤ S d }.

Lemma plan_match_sound rendered prior policy checkpoints resume n :
  n ≤ lcp prior rendered → lcp prior rendered ≤ S n → (n < lcp prior rendered → length rendered = S n) →
  (0 < n → n < length rendered) →
  let p := plan_match rendered prior policy checkpoints resume n in
  (cache_hit p = true → sound_hit rendered prior checkpoints p) ∧ (cache_hit p = false → p = CachePlan_miss).
Proof.
  intros Hn Hs Hexact Hroom. unfold plan_match. pose proof (lcp_le prior rendered) as Hle.
  assert (∀ k, k ≤ n → take k rendered = take k prior) as Ht.
  { intros k Hk. symmetry. apply take_lcp. lia. }
  case_bool_decide as H1; [split; [intros _|done]; split; cbn; [done|lia..|by apply Ht|done]|].
  case_bool_decide as H2; [|done].
  destruct (allow_partial policy); [split; [intros _|done]; split; cbn; [done|lia..|by apply Ht|done]|].
  destruct resume; [|done].
  destruct (list_max _) as [c|] eqn:E; [|done]. split; [intros _|done].
  apply list_max_spec in E as [[[Hc1 Hc2] Hc3]%list_elem_of_filter Hmax].
  split; cbn; [done|lia|lia|by apply Ht|]. intros c' [= <-]. split; [done|]. split; [done|].
  intros d Hd Hdr Htake Hdp. destruct (le_lt_dec d n) as [Hdn|Hdn].
  - left. apply Hmax, list_elem_of_filter. done.
  - right. assert (d ≤ lcp prior rendered) by (apply lcp_max; [by symmetry|lia..]). lia.
Qed.

Lemma plan_cache_sound rendered prior policy checkpoints resume :
  let p := plan_cache rendered prior policy checkpoints resume in
  (cache_hit p = true → sound_hit rendered prior checkpoints p) ∧ (cache_hit p = false → p = CachePlan_miss).
Proof.
  unfold plan_cache. case_bool_decide; [done|]. destruct (_ && _); [done|].
  cbn zeta. rewrite match_loop_is_lcp. pose proof (lcp_le prior rendered) as Hle.
  case_bool_decide as He.
  - destruct (on_exact policy); [done|]. apply plan_match_sound; lia.
  - apply plan_match_sound; lia.
Qed.

(** Prompt-cache plans are sound and reuse what they may. Whatever the
    policy, a plan that is not a hit starts from scratch, and a hit starts at a
    position whose tokens before it agree with the prior conversation, with at
    least one token left to compute; a resumed hit starts at the latest usable
    checkpoint. Under the two shipped policies without resumption, a turn is a
    hit exactly when the prior conversation is a non-empty proper prefix of the
    new render, and then everything of it is reused. *)
Theorem plan_cache_exact rendered prior policy checkpoints resume :
  (let p := plan_cache rendered prior policy checkpoints resume in
   (cache_hit p = true → sound_hit rendered prior checkpoints p) ∧
   (cache_hit p = false → p = CachePlan_miss)) ∧
  (policy = policy_qwen35 ∨ policy = policy_deepseek4 →
   plan_cache rendered prior policy checkpoints false =
     if bool_decide (prior ≠ [] ∧ prior `prefix_of` rendered ∧ prior ≠ rendered)
     then mkCachePlan true (length prior) (length prior) None else CachePlan_miss).
Proof.
  split; [apply plan_cache_sound|]. intros Hpol.
  assert (allow_partial policy = false) as Hpart by (by destruct Hpol as [->| ->]).
  unfold plan_cache. case_bool_decide as Hnil; [by rewrite bool_decide_eq_false_2 by tauto|].
  pose proof (lcp_le prior rendered) as Hle. pose proof (lcp_self_prefix prior rendered) as Hpre.
  assert (prior ≠ []) as Hne by done.
  assert (∀ n, plan_match rendered prior policy checkpoints false n =
    if bool_decide (n = length prior ∧ n < length rendered ∧ 0 < n) then mkCachePlan true n n None
    else CachePlan_miss) as Hmatch.
  { intros n. unfold plan_match. rewrite Hpart. repeat case_bool_decide; done. }
  assert (0 < length prior) as Hpos by (destruct prior; [done|cbn; lia]).
  destruct (decide (prior `prefix_of` rendered)) as [Hp|Hp].
  - apply Hpre in Hp as Hl. pose proof (prefix_length _ _ Hp) as Hlen.
    rewrite (bool_decide_eq_false_2 (length rendered < length prior)), andb_false_r by lia.
    cbn zeta. rewrite match_loop_is_lcp, Hl, !Hmatch. case_bool_decide as He.
    + assert (prior = rendered) as <-.
      { destruct Hp as [k ->]. rewrite length_app in He. destruct k; [by rewrite app_nil_r|cbn in He; lia]. }
      rewrite (bool_decide_eq_false_2 (prior ≠ [] ∧ _)) by tauto.
      destruct (on_exact policy); [done|]. rewrite bool_decide_eq_false_2 by lia. done.
    + assert (prior ≠ rendered) by (intros ->; lia).
      rewrite !bool_decide_eq_true_2; [done|done|]. split; [done|lia].
  - rewrite (bool_decide_eq_false_2 (prior ≠ [] ∧ _)) by tauto.
    assert (lcp prior rendered ≠ length prior) by tauto.
    destruct (_ && _); [done|]. cbn zeta. rewrite match_loop_is_lcp, !Hmatch.
    case_bool_decide; [destruct (on_exact policy); [done|]|];
      rewrite bool_decide_eq_false_2 by lia; done.
Qed.

Lemma plan_cache_exact_witness :
  plan_cache [1; 2; 3; 4]%Z [1; 2]%Z policy_qwen35 [] false = mkCachePlan true 2 2 None ∧
  plan_cache [1; 2; 9; 4]%Z [1; 2; 3; 4]%Z policy_qwen35 [0; 1; 3] true = mkCachePlan true 1 1 (Some 1) ∧
  take 1 [1; 2; 9; 4]%Z = take 1 [1; 2; 3; 4]%Z.
Proof.
  split; [exact (proj2 (plan_cache_exact [1; 2; 3; 4]%Z [1; 2]%Z policy_qwen35 [] false) (or_introl eq_refl))|].
  split; [vm_compute; reflexivity|].
  exact (sh_prefix _ _ _ _ (proj1 (proj1 (plan_cache_exact [1; 2; 9; 4]%Z [1; 2; 3; 4]%Z policy_qwen35
    [0; 1; 3] true)) eq_refl)).
Defined.

(** What a turn plan promises: the reused tokens are common, valid and leave
    work to do. *)
Lemma plan_turn_sound cached seq_len prompt :
  let p := plan_turn cached seq_len prompt in
  plan_lcp p = reused p ∧ reused p ≤ seq_len ∧ reused p ≤ length cached ∧
  reused p + to_prefill p = length prompt ∧ (prompt ≠ [] → 0 < to_prefill p) ∧
  take (reused p) prompt = take (reused p) cached ∧
  (∀ n, n ≤ seq_len → n < length prompt → n ≤ length cached → take n prompt = take n cached →
     n ≤ reused p).
Proof.
  unfold plan_turn. cbn. pose proof (lcp_le cached prompt) as Hle.
  split; [done|]. split; [lia|]. split; [lia|]. split; [lia|]. split; [|split].
  - destruct prompt; [done|cbn; lia].
  - symmetry. apply take_lcp. lia.
  - intros n H1 H2 H3 Ht. assert (n ≤ lcp cached prompt) by (apply lcp_max; [by symmetry|lia..]). lia.
Qed.
