(* ===== verification/SessionTable.v ===== *)
(** Sessions, their slots and their budget
    (src/crates/hipfire-runtime/src/session_table.rs), with the eviction and
    restoration steps of src/crates/hipfire-arch-qwen35/src/serve_engine.rs.

    The table is a [HashMap] from session numbers, a [gmap]; the order of its
    iterators is unspecified, and the model uses the map's own. Operations that
    change the pool or the admission controller take and return them. An
    operation that fails after changing its arguments returns them with the
    error.

    Proved here: no slot ever has two owners and the pool's use flags, the
    admission ledger and the table always agree; a rejected request changes
    nothing; a turn only reuses what its own slot holds; and the eviction victim
    is the least recently used idle resident. *)

From S2P Require Import Prelude SlotPool Admission Prefix.

Record SessionId := mkSessionId { session_value : Z }.

#[export] Instance SessionId_eq_dec : EqDecision SessionId.
Proof. solve_decision. Defined.

Inductive Residency := Resident | Swapped | Cold.

#[export] Instance Residency_eq_dec : EqDecision Residency.
Proof. solve_decision. Defined.

Record Session := mkSession {
  slot : option SlotId;
  granted_ctx : Z;
  session_tokens : list Z;
  session_next_pos : nat;
  residency : Residency;
  convo : list Z;
  last_used : Z }.

Record SessionTable := mkTable {
  sessions : gmap Z Session;
  next_id : Z;
  clock : Z }.

Definition SessionTable_default : SessionTable := mkTable ∅ 0 0.

(** [x += 1] on [u64] *)
Definition increment {E} (x : Z) : result E Z := expect (checked_add U64_MAX x 1).

(** [AdmissionController::admit] as a caller sees it: the controller is left as
    it was by a refusal. *)
Definition try_admit {E} (adm : AdmissionController) (ctx : Z)
    : result E ((Z + AdmitError) * AdmissionController) :=
  match Admission_admit adm ctx with
  | Ok (granted, adm) => Ok (inl granted, adm)
  | Err e => Ok (inr e, adm)
  | Panic => Panic
  end.

(** [SessionTable::open] *)
Definition SessionTable_open {E} (t : SessionTable) (pool : SlotPool) (adm : AdmissionController)
    (requested_ctx : Z)
    : result E ((SessionId + AdmitError) * SessionTable * SlotPool * AdmissionController) :=
  '(answer, adm) ← try_admit adm requested_ctx;
  match answer with
  | inr e => Ok (inr e, t, pool, adm)
  | inl granted =>
      '(free, pool) ← SlotPool_acquire pool;
      match free with
      | None => Ok (inr PoolFull, t, pool, Admission_release adm granted)
      | Some s =>
          let id := next_id t in
          next ← increment (next_id t);
          now ← increment (clock t);
          Ok (inl (mkSessionId id),
              mkTable (<[id := mkSession (Some s) granted [] 0 Resident [] now]> (sessions t)) next now,
              pool, adm)
      end
  end.

(** Giving a slot back, when there is one. *)
Definition release_slot {E} (pool : SlotPool) (s : option SlotId) : result E SlotPool :=
  match s with Some s => SlotPool_release pool s | None => Ok pool end.

(** [SessionTable::close] *)
Definition SessionTable_close {E} (t : SessionTable) (pool : SlotPool) (adm : AdmissionController)
    (id : SessionId) : result E (SessionTable * SlotPool * AdmissionController) :=
  match sessions t !! session_value id with
  | None => Ok (t, pool, adm)
  | Some session =>
      pool ← release_slot pool (slot session);
      Ok (mkTable (delete (session_value id) (sessions t)) (next_id t) (clock t), pool,
          Admission_release adm (granted_ctx session))
  end.

Inductive TurnError : Type :=
| UnknownSession (id : Z)
| NoSlot (id : Z)
| PoolRefused (e : PoolError).

(** [SessionTable::begin_turn] *)
Definition begin_turn (t : SessionTable) (pool : SlotPool) (id : SessionId) (prompt : list Z)
    : result TurnError (TurnPlan * SessionTable * SlotPool) :=
  session ← ok_or (UnknownSession (session_value id)) (sessions t !! session_value id);
  s ← ok_or (NoSlot (session_value id)) (slot session);
  d ← index (descs pool) (slot_value s);
  let held := Z.to_nat (wrap64 (seq_len d)) in
  let plan := plan_turn (session_tokens session) held prompt in
  pool ← map_err PoolRefused (SlotPool_set_seq_len pool s (Z.of_nat (reused plan)));
  let session := mkSession (slot session) (granted_ctx session)
    (take (reused plan) (session_tokens session)) (reused plan) (residency session)
    (convo session) (last_used session) in
  Ok (plan, mkTable (<[session_value id := session]> (sessions t)) (next_id t) (clock t), pool).

(** A new stamp, and a change of one session under it. *)
Definition stamped (t : SessionTable) (now : Z) (id : SessionId) (f : Session → Session)
    : SessionTable :=
  mkTable (alter f (session_value id) (sessions t)) (next_id t) now.

Definition set_last_used (now : Z) (s : Session) : Session :=
  mkSession (slot s) (granted_ctx s) (session_tokens s) (session_next_pos s) (residency s) (convo s) now.

(** [SessionTable::touch] *)
Definition touch {E} (t : SessionTable) (id : SessionId) : result E SessionTable :=
  now ← increment (clock t);
  Ok (stamped t now id (set_last_used now)).

Definition set_parked (r : Residency) (pos : option nat) (s : Session) : Session :=
  mkSession None (granted_ctx s) (session_tokens s) (default (session_next_pos s) pos) r (convo s)
    (last_used s).

Definition park_session {E} (t : SessionTable) (pool : SlotPool) (id : SessionId) (r : Residency)
    (pos : option nat) : result E (SessionTable * SlotPool) :=
  match sessions t !! session_value id with
  | None => Ok (t, pool)
  | Some s =>
      pool ← release_slot pool (slot s);
      Ok (mkTable (<[session_value id := set_parked r pos s]> (sessions t)) (next_id t) (clock t), pool)
  end.

(** [SessionTable::mark_swapped], [SessionTable::mark_cold] *)
Definition mark_swapped {E} (t : SessionTable) (pool : SlotPool) (id : SessionId)
    : result E (SessionTable * SlotPool) := park_session t pool id Swapped None.
Definition mark_cold {E} (t : SessionTable) (pool : SlotPool) (id : SessionId)
    : result E (SessionTable * SlotPool) := park_session t pool id Cold (Some 0).

Definition set_resident (s : SlotId) (pos : nat) (now : Z) (session : Session) : Session :=
  mkSession (Some s) (granted_ctx session) (session_tokens session) pos Resident (convo session) now.

(** [SessionTable::mark_resident] *)
Definition mark_resident {E} (t : SessionTable) (id : SessionId) (s : SlotId) (len : nat)
    : result E SessionTable :=
  now ← increment (clock t);
  Ok (stamped t now id (set_resident s len now)).

(** ** Queries *)

Definition is_busy (busy : list SessionId) (id : Z) : bool :=
  existsb (λ b, (session_value b =? id)%Z) busy.

(** [min_by_key] keeps the first least entry, [max_by_key] the last greatest. *)
Fixpoint min_used (l : list (Z * Session)) : option (Z * Session) :=
  match l with
  | [] => None
  | x :: l => Some (match min_used l with
                    | Some y => if (last_used y.2 <? last_used x.2)%Z then y else x
                    | None => x end)
  end.

Fixpoint max_used (l : list (Z * Session)) : option (Z * Session) :=
  match l with
  | [] => None
  | x :: l => Some (match max_used l with
                    | Some y => if (last_used y.2 <? last_used x.2)%Z then x else y
                    | None => x end)
  end.

Definition is_idle_resident (busy : list SessionId) (entry : Z * Session) : bool :=
  bool_decide (is_Some (slot entry.2)) && negb (is_busy busy entry.1).

(** [SessionTable::lru_idle_victim] *)
Definition lru_idle_victim (t : SessionTable) (busy : list SessionId) : option SessionId :=
  (λ e, mkSessionId e.1) <$> min_used (filter (is_idle_resident busy) (map_to_list (sessions t))).

Definition continues (expected : list Z) (busy : list SessionId) (entry : Z * Session) : bool :=
  bool_decide (residency entry.2 ≠ Cold) && bool_decide (convo entry.2 = expected) &&
  bool_decide (session_tokens entry.2 ≠ []) && negb (is_busy busy entry.1).

(** [SessionTable::find_continuation] *)
Definition find_continuation (t : SessionTable) (want : list Z) (busy : list SessionId)
    : option SessionId :=
  if bool_decide (length want < 2) then None
  else
    let expected := take (length want - 1) want in
    (λ e, mkSessionId e.1) <$> max_used (filter (continues expected busy) (map_to_list (sessions t))).

(** [SessionTable::resident], [SessionTable::active] *)
Definition resident (t : SessionTable) : nat :=
  length (filter (λ e, is_Some (slot e.2)) (map_to_list (sessions t))).
Definition active (t : SessionTable) : nat := size (sessions t).

(** ** Ownership of slots *)

(** The slot a session holds. *)
Definition slot_of (m : gmap Z Session) (i : Z) : option nat :=
  m !! i ≫= λ s, slot_value <$> slot s.

(** The sessions' slots and the pool's use flags agree. *)
Record owns (f : Z → option nat) (used : list bool) : Prop := {
  ow_used i k : f i = Some k → used !! k = Some true;
  ow_unique i j k : f i = Some k → f j = Some k → i = j;
  ow_owned k : used !! k = Some true → ∃ i, f i = Some k }.

Lemma owns_ext f f' used : (∀ j, f' j = f j) → owns f used → owns f' used.
Proof.
  intros He [H1 H2 H3]. split.
  - intros i k. rewrite He. apply H1.
  - intros i j k. rewrite !He. apply H2.
  - intros k Hk. destruct (H3 k Hk) as [i Hi]. exists i. by rewrite He.
Qed.

Lemma owns_add f f' used i k :
  (∀ j, j ≠ i → f' j = f j) → f i = None → f' i = Some k → used !! k = Some false →
  owns f used → owns f' (<[k := true]> used).
Proof.
  intros Hne Hi Hi' Hk [H1 H2 H3].
  assert (∀ j l, f' j = Some l → (j = i ∧ l = k) ∨ (j ≠ i ∧ f j = Some l ∧ l ≠ k)) as Hf.
  { intros j l Hj. destruct (decide (j = i)) as [->|Hji]; [left; split; congruence|right].
    rewrite Hne in Hj by done. split; [done|]. split; [done|]. intros ->. apply H1 in Hj. congruence. }
  pose proof (lookup_lt_Some _ _ _ Hk) as Hlt. split.
  - intros j l [[-> ->]|(_ & Hj & Hl)]%Hf; [by apply list_lookup_insert_eq|].
    rewrite list_lookup_insert_ne by done. by eapply H1.
  - intros j j' l [[-> ->]|(? & Hj & ?)]%Hf [[-> ?]|(? & Hj' & ?)]%Hf; try done. by eapply H2.
  - intros l. destruct (decide (l = k)) as [->|Hl]; [by exists i|].
    rewrite list_lookup_insert_ne by done. intros [j Hj]%H3. exists j. rewrite Hne; [done|]. congruence.
Qed.

Lemma owns_drop f f' used i k :
  (∀ j, j ≠ i → f' j = f j) → f i = Some k → f' i = None →
  owns f used → owns f' (<[k := false]> used).
Proof.
  intros Hne Hi Hi' [H1 H2 H3].
  assert (∀ j l, f' j = Some l → j ≠ i ∧ f j = Some l ∧ l ≠ k) as Hf.
  { intros j l Hj. assert (j ≠ i) as Hji by congruence. rewrite Hne in Hj by done.
    split; [done|]. split; [done|]. intros ->. by apply Hji, (H2 j i k). }
  split.
  - intros j l (_ & Hj & Hl)%Hf. rewrite list_lookup_insert_ne by done. by eapply H1.
  - intros j j' l (_ & Hj & _)%Hf (_ & Hj' & _)%Hf. by eapply H2.
  - intros l Hl. destruct (decide (l = k)) as [->|Hlk].
    + rewrite list_lookup_insert_eq in Hl by (eapply lookup_lt_Some; by eapply H1). done.
    + rewrite list_lookup_insert_ne in Hl by done. destruct (H3 l Hl) as [j Hj].
      exists j. rewrite Hne; [done|]. congruence.
Qed.

(** ** The ledger *)

Definition ledger (m : gmap Z Session) : list Z := granted_ctx <$> (map_to_list m).*2.

Lemma ledger_insert m i s : m !! i = None → ledger (<[i := s]> m) ≡ₚ granted_ctx s :: ledger m.
Proof. intros H. unfold ledger. by rewrite map_to_list_insert. Qed.

Lemma ledger_delete m i s : m !! i = Some s → ledger m ≡ₚ granted_ctx s :: ledger (delete i m).
Proof. intros H. unfold ledger. by rewrite <- (map_to_list_delete m i s H). Qed.

Lemma ledger_update m i s s' : m !! i = Some s → granted_ctx s' = granted_ctx s →
  ledger (<[i := s']> m) ≡ₚ ledger m.
Proof.
  intros H Hg. rewrite (ledger_delete m i s H), <- Hg, <- ledger_insert by apply lookup_delete_eq.
  by rewrite insert_delete_eq.
Qed.

(** ** The invariant of the serving state *)

Record system := mkSystem { sys_table : SessionTable; sys_pool : SlotPool; sys_adm : AdmissionController }.

Record sys_wf (n : nat) (cap pp : Z) (s : system) : Prop := {
  sw_pool : ∃ u, pool_wf n cap pp (sys_pool s, u);
  sw_adm : adm_wf (sys_adm s);
  sw_next : (0 ≤ next_id (sys_table s))%Z;
  sw_clock : (0 ≤ clock (sys_table s))%Z;
  sw_ids i x : sessions (sys_table s) !! i = Some x → (0 ≤ i < next_id (sys_table s))%Z;
  sw_stamp i x : sessions (sys_table s) !! i = Some x → (0 < last_used x ≤ clock (sys_table s))%Z;
  sw_stamp_inj i j x y : sessions (sys_table s) !! i = Some x → sessions (sys_table s) !! j = Some y →
    last_used x = last_used y → i = j;
  sw_resident i x : sessions (sys_table s) !! i = Some x → residency x = Resident ↔ is_Some (slot x);
  sw_owns : owns (slot_of (sessions (sys_table s))) (in_use (sys_pool s));
  sw_ledger : admitted (sys_adm s) ≡ₚ ledger (sessions (sys_table s)) }.

Lemma alter_present (f : Session → Session) (m : gmap Z Session) i x :
  m !! i = Some x → alter f i m = <[i := f x]> m.
Proof.
  intros H. apply map_eq. intros j. destruct (decide (i = j)) as [->|Hne].
  - by rewrite lookup_alter_eq, H, lookup_insert_eq.
  - by rewrite lookup_alter_ne, lookup_insert_ne.
Qed.

Lemma alter_absent (f : Session → Session) (m : gmap Z Session) i : m !! i = None → alter f i m = m.
Proof.
  intros H. apply map_eq. intros j. destruct (decide (i = j)) as [->|Hne].
  - by rewrite lookup_alter_eq, H.
  - by rewrite lookup_alter_ne.
Qed.

Lemma slot_of_insert m i x j :
  slot_of (<[i := x]> m) j = if decide (j = i) then slot_value <$> slot x else slot_of m j.
Proof.
  unfold slot_of. case_decide as H; [subst; by rewrite lookup_insert_eq|].
  by rewrite lookup_insert_ne by done.
Qed.

Section invariant.
Context (n : nat) (cap pp : Z) (Hcap : (0 ≤ cap < 2147483648)%Z).

(** Advancing the clock. *)
Lemma wf_clock t p a now : (clock t ≤ now)%Z → sys_wf n cap pp (mkSystem t p a) →
  sys_wf n cap pp (mkSystem (mkTable (sessions t) (next_id t) now) p a).
Proof using Type.
  intros Hnow [H1 H2 H3 H4 H5 H6 H7 H8 H9 H10]. split; cbn in *; try done; try lia.
  intros i x Hx. specialize (H6 i x Hx). lia.
Qed.

(** Writing one session. *)
Lemma wf_put t p a id x p' a' next now :
  sys_wf n cap pp (mkSystem t p a) →
  (∃ u, pool_wf n cap pp (p', u)) → adm_wf a' →
  (next_id t ≤ next)%Z → (0 ≤ id < next)%Z → (clock t ≤ now)%Z →
  ((∃ y, sessions t !! id = Some y ∧ last_used x = last_used y) ∨ (clock t < last_used x ≤ now)%Z) →
  (residency x = Resident ↔ is_Some (slot x)) →
  owns (slot_of (<[id := x]> (sessions t))) (in_use p') →
  admitted a' ≡ₚ ledger (<[id := x]> (sessions t)) →
  sys_wf n cap pp (mkSystem (mkTable (<[id := x]> (sessions t)) next now) p' a').
Proof using Type.
  intros [H1 H2 H3 H4 H5 H6 H7 H8 H9 H10] Hp Ha Hnext Hid Hnow Hstamp Hres Hown Hled.
  cbn [sys_table sys_pool sys_adm] in *.
  split; cbn [sys_table sys_pool sys_adm sessions next_id clock]; [done|done|lia|lia|..|done|done].
  - intros i y [[<- <-]|[_ Hy]]%lookup_insert_Some; [done|]. specialize (H5 i y Hy). lia.
  - intros i y [[<- <-]|[_ Hy]]%lookup_insert_Some.
    + destruct Hstamp as [(z & Hz & ->)|Hs]; [|lia]. specialize (H6 id z Hz). lia.
    + specialize (H6 i y Hy). lia.
  - assert (∀ j y, j ≠ id → sessions t !! j = Some y → last_used y ≠ last_used x) as Hfresh.
    { intros j y Hj Hy Heq. destruct Hstamp as [(z & Hz & Hxz)|Hs].
      - apply Hj. apply (H7 j id y z); [done..|congruence].
      - specialize (H6 j y Hy). lia. }
    intros i j y z [[<- <-]|[Hi Hy]]%lookup_insert_Some [[<- <-]|[Hj Hz]]%lookup_insert_Some Heq; try done.
    + by destruct (Hfresh j z).
    + by destruct (Hfresh i y).
    + by apply (H7 i j y z).
  - intros i y [[<- <-]|[_ Hy]]%lookup_insert_Some; [done|]. by eapply H8.
Qed.

(** Writing a session that keeps its slot, grant and stamp. *)
Lemma wf_edit t p a id x y p' :
  sys_wf n cap pp (mkSystem t p a) → sessions t !! id = Some y →
  (∃ u, pool_wf n cap pp (p', u)) → in_use p' = in_use p →
  slot x = slot y → granted_ctx x = granted_ctx y → last_used x = last_used y →
  residency x = residency y →
  sys_wf n cap pp (mkSystem (mkTable (<[id := x]> (sessions t)) (next_id t) (clock t)) p' a).
Proof using Type.
  intros Hwf Hy Hp Hu Hs Hg Hl Hr. pose proof Hwf as [H1 H2 H3 H4 H5 H6 H7 H8 H9 H10].
  cbn [sys_table sys_pool sys_adm] in *. apply (wf_put t p a); try done.
  - by eapply H5.
  - left. by exists y.
  - rewrite Hr, Hs. by eapply H8.
  - rewrite Hu. eapply owns_ext; [|exact H9]. intros j. rewrite slot_of_insert.
    case_decide as Hj; [|done]. subst. unfold slot_of. rewrite Hy. cbn. by rewrite Hs.
  - by rewrite (ledger_update _ _ y _ Hy).
Qed.

(** A restored session: the slot was free and the session had none. *)
Lemma wf_attach t p a id x y k p' now :
  sys_wf n cap pp (mkSystem t p a) → sessions t !! id = Some y → slot y = None →
  in_use p !! k = Some false → in_use p' = <[k := true]> (in_use p) →
  (∃ u, pool_wf n cap pp (p', u)) → slot x = Some (mkSlotId k) → residency x = Resident →
  granted_ctx x = granted_ctx y → (clock t < last_used x ≤ now)%Z →
  sys_wf n cap pp (mkSystem (mkTable (<[id := x]> (sessions t)) (next_id t) now) p' a).
Proof using Type.
  intros Hwf Hy Hn Hk Hu Hp Hs Hr Hg Hl. pose proof Hwf as [H1 H2 H3 H4 H5 H6 H7 H8 H9 H10].
  cbn [sys_table sys_pool sys_adm] in *. specialize (H5 id y Hy).
  apply (wf_put t p a); [done|done|done|lia|lia|lia|by right|..].
  - rewrite Hs, Hr. split; [by eexists|done].
  - rewrite Hu. apply (owns_add (slot_of (sessions t)) _ _ id k); [| | |done|done].
    + intros j Hj. rewrite slot_of_insert. by case_decide.
    + unfold slot_of. rewrite Hy. cbn. by rewrite Hn.
    + rewrite slot_of_insert, decide_True, Hs by done. done.
  - by rewrite (ledger_update _ _ y _ Hy).
Qed.

(** The slot a session held is released. *)
Lemma release_slot_wf {E} t p a id y :
  sys_wf n cap pp (mkSystem t p a) → sessions t !! id = Some y →
  ∃ p', release_slot (E := E) p (slot y) = Ok p' ∧ (∃ u, pool_wf n cap pp (p', u)) ∧
    ∀ f, (∀ j, j ≠ id → f j = slot_of (sessions t) j) → f id = None → owns f (in_use p').
Proof using Hcap.
  intros [[u H1] H2 H3 H4 H5 H6 H7 H8 H9 H10] Hy. cbn [sys_table sys_pool sys_adm] in *.
  unfold release_slot. destruct (slot y) as [[k]|] eqn:Hs.
  - assert (slot_of (sessions t) id = Some k) as Hk by (unfold slot_of; rewrite Hy; cbn; by rewrite Hs).
    assert (k < n) as Hlt.
    { rewrite <- (pw_in_use _ _ _ _ H1). cbn. eapply lookup_lt_Some, (ow_used _ _ H9), Hk. }
    destruct (release_spec (E := E) n cap pp p u k Hcap H1 Hlt) as (p' & Hr & Hw & Hu & _).
    exists p'. split; [done|]. split; [by exists u|]. intros f Hf Hid. rewrite Hu.
    by eapply owns_drop.
  - exists p. split; [done|]. split; [by exists u|]. intros f Hf Hid. eapply owns_ext; [|exact H9].
    intros j. destruct (decide (j = id)) as [->|Hj]; [|by apply Hf].
    rewrite Hid. unfold slot_of. rewrite Hy. cbn. by rewrite Hs.
Qed.
End invariant.

(** ** Steps of the server *)

Inductive sys_step : system → system → Prop :=
| st_open t p a ctx r t' p' a' :
    (0 ≤ ctx)%Z → SessionTable_open (E := Empty_set) t p a ctx = Ok (r, t', p', a') →
    sys_step (mkSystem t p a) (mkSystem t' p' a')
| st_close t p a id t' p' a' :
    SessionTable_close (E := Empty_set) t p a id = Ok (t', p', a') →
    sys_step (mkSystem t p a) (mkSystem t' p' a')
| st_begin_turn t p a id prompt plan t' p' :
    begin_turn t p id prompt = Ok (plan, t', p') →
    sys_step (mkSystem t p a) (mkSystem t' p' a)
| st_touch t p a id t' :
    touch (E := Empty_set) t id = Ok t' → sys_step (mkSystem t p a) (mkSystem t' p a)
(** The engine appends generated tokens and records the conversation. *)
| st_edit t p a id y tokens pos conversation :
    sessions t !! session_value id = Some y →
    sys_step (mkSystem t p a)
      (mkSystem (mkTable (<[session_value id := mkSession (slot y) (granted_ctx y) tokens pos
         (residency y) conversation (last_used y)]> (sessions t)) (next_id t) (clock t)) p a)
(** The engine advances the length of a slot. *)
| st_set_seq_len t p a id len p' :
    is_u64 len → SlotPool_set_seq_len p id len = Ok p' →
    sys_step (mkSystem t p a) (mkSystem t p' a)
(** Eviction, with the snapshot parked or not. *)
| st_evict t p a id t' p' :
    mark_swapped (E := Empty_set) t p id = Ok (t', p') ∨ mark_cold (E := Empty_set) t p id = Ok (t', p') →
    sys_step (mkSystem t p a) (mkSystem t' p' a)
(** Restoration of a session without a slot into a free slot; restoring the
    snapshot sets the slot's length. *)
| st_restore t p a id y s p1 len p2 t' :
    sessions t !! session_value id = Some y → slot y = None →
    SlotPool_acquire (E := Empty_set) p = Ok (Some s, p1) →
    is_u64 (Z.of_nat len) → SlotPool_set_seq_len p1 s (Z.of_nat len) = Ok p2 →
    mark_resident (E := Empty_set) t id s len = Ok t' →
    sys_step (mkSystem t p a) (mkSystem t' p2 a)
(** A failed restoration: the session is marked cold and the slot returned. *)
| st_restore_failed t p a id y s p1 t' p2 p3 :
    sessions t !! session_value id = Some y → slot y = None →
    SlotPool_acquire (E := Empty_set) p = Ok (Some s, p1) →
    mark_cold (E := Empty_set) t p1 id = Ok (t', p2) →
    SlotPool_release (E := Empty_set) p2 s = Ok p3 →
    sys_step (mkSystem t p a) (mkSystem t' p3 a).

Section steps.
Context (n : nat) (cap pp : Z) (Hcap : (0 ≤ cap < 2147483648)%Z).

Lemma increment_Ok {E} x y : increment (E := E) x = Ok y ↔ (y = x + 1 ∧ x + 1 ≤ U64_MAX)%Z.
Proof. unfold increment. by rewrite expect_Ok, checked_add_Some. Qed.

(** A refused or withdrawn admission leaves the ledger as it was. *)
Lemma try_admit_spec {E} a ctx r a' :
  adm_wf a → (0 ≤ ctx)%Z → try_admit (E := E) a ctx = Ok (r, a') →
  adm_wf a' ∧ match r with
  | inl granted => granted = ctx ∧ admitted a' = admitted a ++ [ctx]
  | inr _ => a' = a
  end.
Proof.
  intros Hwf Hc H. unfold try_admit in H.
  destruct (Admission_admit a ctx) as [[g a1]|e|] eqn:E1; [| |done].
  - injection H as <- <-. split; [by eapply adm_step_wf; [eapply adm_admit|]|].
    unfold Admission_admit in E1. by inv_ok.
  - by injection H as <- <-.
Qed.

Lemma release_ledger a ctx l : admitted a ≡ₚ ctx :: l → admitted (Admission_release a ctx) ≡ₚ l.
Proof.
  intros Hp. cbn. apply (Permutation_cons_inv (a := ctx)).
  rewrite <- remove_first_perm; [done|]. rewrite Hp. left.
Qed.

Lemma set_seq_len_wf p u s len p' : pool_wf n cap pp (p, u) → is_u64 len →
  SlotPool_set_seq_len p s len = Ok p' →
  pool_wf n cap pp (p', u) ∧ in_use p' = in_use p ∧ (len ≤ cap)%Z ∧
  ∃ d, descs p !! slot_value s = Some d ∧ descs p' = <[slot_value s := with_seq_len d len]> (descs p).
Proof using Hcap.
  intros Hw Hl H. unfold SlotPool_set_seq_len in H.
  apply bind_Ok in H as ([] & He & H). inv_ok. to_prop.
  pose proof (pw_cap _ _ _ _ Hw) as Hc. cbn in Hc. rewrite Hc in He.
  rewrite as_i32_small in H by ulia.
  destruct (store_seq_len_wf n cap pp Hcap p u _ len p' Hw ltac:(ulia) H) as (? & ? & ?). auto.
Qed.

Lemma open_wf t p a ctx r t' p' a' :
  sys_wf n cap pp (mkSystem t p a) → (0 ≤ ctx)%Z →
  SessionTable_open (E := Empty_set) t p a ctx = Ok (r, t', p', a') →
  sys_wf n cap pp (mkSystem t' p' a').
Proof using Hcap.
  intros Hwf Hc H. pose proof Hwf as [[u H1] H2 H3 H4 H5 H6 H7 H8 H9 H10].
  cbn [sys_table sys_pool sys_adm] in *. unfold SessionTable_open in H.
  apply bind_Ok in H as ([ans a1] & Ha & H). apply try_admit_spec in Ha as [Ha1 Hans]; [|done..].
  destruct ans as [g|e]; [|by injection H as <- <- <- <-; subst].
  destruct Hans as [-> Hadm]. apply bind_Ok in H as ([free p1] & Hacq & H).
  destruct (acquire_spec (E := Empty_set) n cap pp p u Hcap H1) as (r1 & p1' & Hacq' & Hw1 & Hdid).
  rewrite Hacq in Hacq'. injection Hacq' as <- <-. destruct free as [[k]|].
  - apply bind_Ok in H as (next & [-> Hn]%increment_Ok & H).
    apply bind_Ok in H as (now & [-> Hnow]%increment_Ok & H). injection H as <- <- <- <-.
    destruct Hdid as (Hk & _ & Hu & _).
    assert (sessions t !! next_id t = None) as Hfresh.
    { destruct (sessions t !! next_id t) as [y|] eqn:E; [|done]. specialize (H5 _ _ E). lia. }
    apply (wf_put n cap pp t p a); cbn [residency slot last_used];
      [done|by exists u|done|lia|lia|lia|right; lia|split; [by eexists|done]|..].
    + rewrite Hu. apply (owns_add (slot_of (sessions t)) _ _ (next_id t) k); [| | |done|done].
      * intros j Hj. rewrite slot_of_insert. by case_decide.
      * unfold slot_of. by rewrite Hfresh.
      * by rewrite slot_of_insert, decide_True by done.
    + rewrite ledger_insert, Hadm, H10 by done. cbn. by rewrite Permutation_app_comm.
  - injection H as <- <- <- <-. destruct Hdid as [-> _].
    split; cbn [sys_table sys_pool sys_adm]; try done; [by exists u|by eapply adm_step_wf; [constructor|]|].
    apply release_ledger. rewrite Hadm, H10. by rewrite Permutation_app_comm.
Qed.

Lemma close_wf t p a id t' p' a' :
  sys_wf n cap pp (mkSystem t p a) →
  SessionTable_close (E := Empty_set) t p a id = Ok (t', p', a') →
  sys_wf n cap pp (mkSystem t' p' a').
Proof using Hcap.
  intros Hwf H. unfold SessionTable_close in H.
  destruct (sessions t !! session_value id) as [y|] eqn:Hy; [|by injection H as <- <- <-].
  destruct (release_slot_wf n cap pp Hcap (E := Empty_set) t p a _ y Hwf Hy) as (p1 & Hr & Hw & Hown).
  rewrite Hr in H. cbn [mbind result_bind] in H. injection H as <- <- <-.
  destruct Hwf as [H1 H2 H3 H4 H5 H6 H7 H8 H9 H10]. cbn [sys_table sys_pool sys_adm] in *.
  split; cbn [sys_table sys_pool sys_adm sessions next_id clock]; [done| |done|done|..].
  - by eapply adm_step_wf; [constructor|].
  - intros i x [_ Hx]%lookup_delete_Some. by eapply H5.
  - intros i x [_ Hx]%lookup_delete_Some. by eapply H6.
  - intros i j x z [_ Hx]%lookup_delete_Some [_ Hz]%lookup_delete_Some. by eapply H7.
  - intros i x [_ Hx]%lookup_delete_Some. by eapply H8.
  - apply Hown; unfold slot_of.
    + intros j Hj. by rewrite lookup_delete_ne.
    + by rewrite lookup_delete_eq.
  - apply release_ledger. by rewrite H10, (ledger_delete _ _ y Hy).
Qed.

Lemma park_wf t p a id r pos t' p' : r ≠ Resident →
  sys_wf n cap pp (mkSystem t p a) →
  park_session (E := Empty_set) t p id r pos = Ok (t', p') →
  sys_wf n cap pp (mkSystem t' p' a).
Proof using Hcap.
  intros Hr0 Hwf H. unfold park_session in H.
  destruct (sessions t !! session_value id) as [y|] eqn:Hy; [|by injection H as <- <-].
  destruct (release_slot_wf n cap pp Hcap (E := Empty_set) t p a _ y Hwf Hy) as (p1 & Hr & Hw & Hown).
  rewrite Hr in H. cbn [mbind result_bind] in H. injection H as <- <-.
  pose proof Hwf as [H1 H2 H3 H4 H5 H6 H7 H8 H9 H10]. cbn [sys_table sys_pool sys_adm] in *.
  pose proof (H5 _ _ Hy). apply (wf_put n cap pp t p a); cbn [residency slot last_used set_parked];
    [done|done|done|lia|lia|lia|left; by exists y| | |].
  - split; [done|by intros [? ?]].
  - apply Hown.
    + intros j Hj. rewrite slot_of_insert. by case_decide.
    + by rewrite slot_of_insert, decide_True by done.
  - by rewrite (ledger_update _ _ y _ Hy).
Qed.

Lemma stamped_wf t p a id now f y :
  sys_wf n cap pp (mkSystem t p a) → sessions t !! session_value id = Some y → (clock t < now)%Z →
  (∀ x, slot (f x) = slot x ∧ granted_ctx (f x) = granted_ctx x ∧ residency (f x) = residency x ∧
    last_used (f x) = now) →
  sys_wf n cap pp (mkSystem (stamped t now id f) p a).
Proof using Type.
  intros Hwf Hy Hnow Hf. unfold stamped. rewrite (alter_present _ _ _ y Hy).
  destruct (Hf y) as (Hs & Hg & Hr & Hl). pose proof Hwf as [H1 H2 H3 H4 H5 H6 H7 H8 H9 H10].
  cbn [sys_table sys_pool sys_adm] in *. pose proof (H5 _ _ Hy).
  apply (wf_put n cap pp t p a); [done|done|done|lia|lia|lia|right; lia| | |].
  - rewrite Hs, Hr. by eapply H8.
  - eapply owns_ext; [|exact H9]. intros j. rewrite slot_of_insert. case_decide as Hj; [|done].
    subst. unfold slot_of. rewrite Hy. cbn. by rewrite Hs.
  - by rewrite (ledger_update _ _ y _ Hy).
Qed.

Lemma touch_wf t p a id t' : sys_wf n cap pp (mkSystem t p a) →
  touch (E := Empty_set) t id = Ok t' → sys_wf n cap pp (mkSystem t' p a).
Proof using Type.
  intros Hwf H. unfold touch in H. apply bind_Ok in H as (now & [-> Hnow]%increment_Ok & [= <-]).
  destruct (sessions t !! session_value id) as [y|] eqn:Hy.
  - apply (stamped_wf t p a id _ _ y); [done|done|lia|done].
  - unfold stamped. rewrite alter_absent by done. apply wf_clock; [lia|done].
Qed.

Lemma begin_turn_wf t p a id prompt plan t' p' : sys_wf n cap pp (mkSystem t p a) →
  begin_turn t p id prompt = Ok (plan, t', p') → sys_wf n cap pp (mkSystem t' p' a).
Proof using Hcap.
  intros Hwf H. unfold begin_turn in H.
  apply bind_Ok in H as (y & Hy%ok_or_Ok & H). apply bind_Ok in H as (s & Hs%ok_or_Ok & H).
  apply bind_Ok in H as (d & Hd%index_Ok & H). apply bind_Ok in H as (p1 & Hp1 & [= <- <- <-]).
  set (len := reused _) in Hp1.
  destruct (SlotPool_set_seq_len p s (Z.of_nat len)) as [p1'|e|] eqn:Eset; cbn in Hp1; [|done..].
  injection Hp1 as ->. pose proof (sw_pool _ _ _ _ Hwf) as [u Hu].
  assert (is_u64 (Z.of_nat len)) as Hlen.
  { unfold SlotPool_set_seq_len in Eset. apply bind_Ok in Eset as ([] & He & _). inv_ok. to_prop.
    pose proof (pw_cap _ _ _ _ Hu) as Hc. cbn in Hc. ulia. }
  destruct (set_seq_len_wf p u s _ p1 Hu Hlen Eset) as (Hw & Huse & _).
  apply (wf_edit n cap pp t p a _ _ y); [done|done|by exists u|done|done..].
Qed.

Lemma restore_wf t p a id y s p1 len p2 t' :
  sys_wf n cap pp (mkSystem t p a) → sessions t !! session_value id = Some y → slot y = None →
  SlotPool_acquire (E := Empty_set) p = Ok (Some s, p1) →
  is_u64 (Z.of_nat len) → SlotPool_set_seq_len p1 s (Z.of_nat len) = Ok p2 →
  mark_resident (E := Empty_set) t id s len = Ok t' →
  sys_wf n cap pp (mkSystem t' p2 a).
Proof using Hcap.
  intros Hwf Hy Hn Hacq Hlen Hset Hmark. pose proof (sw_pool _ _ _ _ Hwf) as [u Hu].
  destruct (acquire_spec (E := Empty_set) n cap pp p u Hcap Hu) as (r & p1' & Hacq' & Hw1 & Hdid).
  cbn [sys_pool] in Hacq'. rewrite Hacq in Hacq'. injection Hacq' as <- <-. destruct s as [k].
  destruct Hdid as (Hk & _ & Huse & _).
  destruct (set_seq_len_wf p1 u _ _ p2 Hw1 Hlen Hset) as (Hw2 & Huse2 & _).
  unfold mark_resident in Hmark. apply bind_Ok in Hmark as (now & [-> Hnow]%increment_Ok & [= <-]).
  unfold stamped. rewrite (alter_present _ _ _ y Hy).
  apply (wf_attach n cap pp t p a _ _ y k); cbn; [done|done|done|done|congruence|by exists u|done..|lia].
Qed.

Lemma restore_failed_wf t p a id y s p1 t' p2 p3 :
  sys_wf n cap pp (mkSystem t p a) → sessions t !! session_value id = Some y → slot y = None →
  SlotPool_acquire (E := Empty_set) p = Ok (Some s, p1) →
  mark_cold (E := Empty_set) t p1 id = Ok (t', p2) →
  SlotPool_release (E := Empty_set) p2 s = Ok p3 →
  sys_wf n cap pp (mkSystem t' p3 a).
Proof using Hcap.
  intros Hwf Hy Hn Hacq Hcold Hrel. pose proof Hwf as [[u Hu] H2 H3 H4 H5 H6 H7 H8 H9 H10].
  cbn [sys_table sys_pool sys_adm] in *.
  destruct (acquire_spec (E := Empty_set) n cap pp p u Hcap Hu) as (r & p1' & Hacq' & Hw1 & Hdid).
  rewrite Hacq in Hacq'. injection Hacq' as <- <-. destruct s as [k].
  destruct Hdid as (Hk & _ & Huse & _).
  unfold mark_cold, park_session in Hcold. rewrite Hy, Hn in Hcold. cbn in Hcold.
  injection Hcold as <- <-.
  assert (k < n) as Hlt by (rewrite <- (pw_in_use _ _ _ _ Hu); by eapply lookup_lt_Some).
  destruct (release_spec (E := Empty_set) n cap pp p1 u k Hcap Hw1 Hlt) as (p3' & Hrel' & Hw3 & Hu3 & _).
  rewrite Hrel in Hrel'. injection Hrel' as <-. rewrite Huse, list_insert_insert_eq in Hu3.
  assert (in_use p3 = in_use p) as Hsame by (rewrite Hu3; by apply list_insert_id).
  pose proof (H5 _ _ Hy). apply (wf_put n cap pp t p a); cbn [residency slot last_used set_parked];
    [done|by exists u|done|lia|lia|lia|left; by exists y| | |].
  - split; [done|by intros [? ?]].
  - rewrite Hsame. eapply owns_ext; [|exact H9]. intros j. rewrite slot_of_insert.
    case_decide as Hj; [|done]. subst. unfold slot_of. rewrite Hy. cbn. by rewrite Hn.
  - by rewrite (ledger_update _ _ y _ Hy).
Qed.

Lemma sys_step_wf s s' : sys_step s s' → sys_wf n cap pp s → sys_wf n cap pp s'.
Proof using Hcap.
  destruct 1 as [t p a ctx r t' p' a' ? ?|t p a id t' p' a' ?|t p a id prompt plan t' p' ?|t p a id t' ?
    |t p a id y tok pos cv Hy|t p a id len p' Hl Hs|t p a id t' p' [H|H]|t p a id y s p1 len p2 t'
    |t p a id y s p1 t' p2 p3]; intros Hwf.
  - by eapply open_wf.
  - by eapply close_wf.
  - by eapply begin_turn_wf.
  - by eapply touch_wf.
  - apply (wf_edit n cap pp t p a _ _ y); try done. apply (sw_pool _ _ _ _ Hwf).
  - pose proof Hwf as [[u Hu] H2 H3 H4 H5 H6 H7 H8 H9 H10].
    destruct (set_seq_len_wf p u id len p' Hu Hl Hs) as (Hw & Huse & _).
    split; cbn [sys_table sys_pool sys_adm]; try done; [by exists u|]. by rewrite Huse.
  - by eapply (park_wf _ _ _ _ Swapped).
  - by eapply (park_wf _ _ _ _ Cold).
  - by eapply restore_wf.
  - by eapply restore_failed_wf.
Qed.
End steps.

(** ** Claims *)

(** A serving state reachable from an empty table, a new pool of [n] slots and a
    new controller. *)
Definition reachable (n : nat) (s : system) : Prop :=
  ∃ mem cap0 pp p0 f budget, (0 ≤ cap0)%Z ∧ (8 < pp)%Z ∧ SlotPool_new mem n cap0 pp = Ok p0 ∧
    is_u64 (weights_bytes f) ∧ is_u64 (kv_bytes_per_token f) ∧ is_u64 budget ∧
    rtc sys_step (mkSystem SessionTable_default p0 (Admission_new f budget)) s.

Lemma reachable_wf n s : reachable n s →
  ∃ cap pp, (0 ≤ cap < 2147483648)%Z ∧ sys_wf n cap pp s.
Proof.
  intros (mem & cap0 & pp & p0 & f & budget & H0 & Hpp & Hnew & Hw & Hk & Hb & Hsteps).
  destruct (SlotPool_new_Ok _ _ _ _ _ H0 Hpp Hnew) as (cap & _ & _ & Hcap & _ & _ & Huse & _ & Hwf).
  exists cap, pp. split; [done|].
  assert (sys_wf n cap pp (mkSystem SessionTable_default p0 (Admission_new f budget))) as Hinit.
  { split; cbn [sys_table sys_pool sys_adm].
    - by exists [].
    - by split; cbn.
    - done.
    - done.
    - intros i x. cbn. by rewrite lookup_empty.
    - intros i x. cbn. by rewrite lookup_empty.
    - intros i j x y. cbn. by rewrite lookup_empty.
    - intros i x. cbn. by rewrite lookup_empty.
    - rewrite Huse. split.
      + intros i k. unfold slot_of. cbn. by rewrite lookup_empty.
      + intros i j k. unfold slot_of. cbn. by rewrite lookup_empty.
      + intros k [? ?]%lookup_replicate. done.
    - done. }
  clear -Hsteps Hinit Hcap. induction Hsteps as [|x y z Hxy _ IH]; [done|].
  by apply IH, (sys_step_wf n cap pp Hcap x).
Qed.

(** Numbers only grow and closed numbers stay closed. *)
Lemma step_ids s s' : sys_step s s' →
  (next_id (sys_table s) ≤ next_id (sys_table s'))%Z ∧
  ∀ i, (i < next_id (sys_table s))%Z → sessions (sys_table s) !! i = None →
    sessions (sys_table s') !! i = None.
Proof.
  assert (∀ (m : gmap Z Session) i j x y, m !! j = Some y → m !! i = None → <[j := x]> m !! i = None) as Hput.
  { intros m i j x y Hj Hi. rewrite lookup_insert_ne; [done|]. congruence. }
  assert (∀ t p id r pos t' p', park_session (E := Empty_set) t p id r pos = Ok (t', p') →
    next_id t' = next_id t ∧ ∀ i, sessions t !! i = None → sessions t' !! i = None) as Hpark.
  { intros t p id r pos t' p' H. unfold park_session in H.
    destruct (sessions t !! session_value id) as [y|] eqn:Hy; [|by injection H as <- <-].
    apply bind_Ok in H as (p1 & _ & [= <- <-]). split; [done|]. intros i Hi. by eapply Hput. }
  assert (∀ t now id f i, sessions t !! i = None → sessions (stamped t now id f) !! i = None) as Hst.
  { intros t now id f i Hi. cbn. destruct (decide (session_value id = i)) as [->|Hne].
    - by rewrite alter_absent.
    - by rewrite lookup_alter_ne. }
  destruct 1 as [t p a ctx r t' p' a' _ H|t p a id t' p' a' H|t p a id prompt plan t' p' H|t p a id t' H
    |t p a id y tok pos cv Hy|t p a id len p' _ _|t p a id t' p' [H|H]|t p a id y s p1 len p2 t' Hy _ _ _ _ H
    |t p a id y s p1 t' p2 p3 Hy _ _ H _]; cbn [sys_table].
  - unfold SessionTable_open in H. apply bind_Ok in H as ([[g|e] a1] & _ & H); [|by injection H as <- <- <- <-].
    apply bind_Ok in H as ([[k|] p1] & _ & H); [|by injection H as <- <- <- <-].
    apply bind_Ok in H as (next & [-> _]%increment_Ok & H). apply bind_Ok in H as (now & _ & [= <- <- <- <-]).
    cbn. split; [lia|]. intros i Hi Hnone. by rewrite lookup_insert_ne by lia.
  - unfold SessionTable_close in H. destruct (sessions t !! _) as [y|]; [|by injection H as <- <- <-].
    apply bind_Ok in H as (p1 & _ & [= <- <- <-]). split; [done|]. intros i _ Hi.
    apply lookup_delete_None. by right.
  - unfold begin_turn in H. apply bind_Ok in H as (y & Hy%ok_or_Ok & H).
    apply bind_Ok in H as (s & _ & H). apply bind_Ok in H as (d & _ & H).
    apply bind_Ok in H as (p1 & _ & [= <- <- <-]). split; [done|]. intros i _ Hi. by eapply Hput.
  - unfold touch in H. apply bind_Ok in H as (now & _ & [= <-]). split; [done|]. intros i _ Hi. by apply Hst.
  - split; [done|]. intros i _ Hi. by eapply Hput.
  - done.
  - apply Hpark in H as [-> H]. split; [done|]. auto.
  - apply Hpark in H as [-> H]. split; [done|]. auto.
  - unfold mark_resident in H. apply bind_Ok in H as (now & _ & [= <-]). split; [done|].
    intros i _ Hi. by apply Hst.
  - apply Hpark in H as [-> H]. split; [done|]. auto.
Qed.

(** C14: slots and budget always agree with the table. In every reachable serving
    state, a slot is in use exactly when some session holds it, no two sessions
    hold the same slot, a session is resident exactly when it holds one, and
    the admission ledger is the granted contexts of the sessions, whose bytes
    stay below the budget; and a session number that has been closed stays
    unknown for ever. *)
Theorem sessions_invariant n s s' :
  reachable n s → rtc sys_step s s' →
  (∀ k, in_use (sys_pool s) !! k = Some true ↔
     ∃ i x, sessions (sys_table s) !! i = Some x ∧ slot x = Some (mkSlotId k)) ∧
  (∀ i j x y k, sessions (sys_table s) !! i = Some x → sessions (sys_table s) !! j = Some y →
     slot x = Some k → slot y = Some k → i = j) ∧
  (∀ i x, sessions (sys_table s) !! i = Some x → residency x = Resident ↔ is_Some (slot x)) ∧
  admitted (sys_adm s) ≡ₚ ledger (sessions (sys_table s)) ∧
  (∃ used, used_bytes (E := Empty_set) (sys_adm s) = Ok used ∧
     (sessions (sys_table s) ≠ ∅ → used < adm_budget_bytes (sys_adm s))%Z) ∧
  (∀ i, (i < next_id (sys_table s))%Z → sessions (sys_table s) !! i = None →
     sessions (sys_table s') !! i = None).
Proof.
  intros (cap & pp & Hcap & [H1 H2 H3 H4 H5 H6 H7 H8 H9 H10])%reachable_wf Hsteps.
  assert (∀ i x k, sessions (sys_table s) !! i = Some x → slot x = Some k →
    slot_of (sessions (sys_table s)) i = Some (slot_value k)) as Hof.
  { intros i x k Hx Hk. unfold slot_of. rewrite Hx. cbn. by rewrite Hk. }
  split; [|split; [|split; [exact H8|split; [exact H10|split]]]].
  - intros k. split.
    + intros [i Hi]%(ow_owned _ _ H9). unfold slot_of in Hi.
      destruct (sessions (sys_table s) !! i) as [x|] eqn:Hx; cbn in Hi; [|done].
      destruct (slot x) as [[k']|] eqn:Hs; cbn in Hi; [|done]. injection Hi as ->. by exists i, x.
    + intros (i & x & Hx & Hk). eapply (ow_used _ _ H9 i). by apply (Hof i x (mkSlotId k)).
  - intros i j x y k Hx Hy Hsx Hsy. eapply (ow_unique _ _ H9); by eapply Hof.
  - exists (committed (sys_adm s)). split; [by apply used_bytes_Ok|]. intros Hne.
    apply (aw_committed _ H2). intros Hnil. rewrite Hnil in H10. apply Permutation_nil_l in H10.
    unfold ledger in H10. symmetry in H10. apply fmap_nil_inv, fmap_nil_inv, map_to_list_empty_iff in H10. done.
  - clear -Hsteps. revert Hsteps. intros Hsteps.
    assert ((next_id (sys_table s) ≤ next_id (sys_table s'))%Z ∧ ∀ i, (i < next_id (sys_table s))%Z →
      sessions (sys_table s) !! i = None → sessions (sys_table s') !! i = None) as [_ H]; [|exact H].
    induction Hsteps as [|x y z Hxy _ IH]; [done|]. apply step_ids in Hxy as [Hn Hd].
    destruct IH as [Hn' Hd']. split; [lia|]. intros i Hi Hnone. apply Hd'; [lia|auto].
Qed.

(** Opening a session is exact and rejects without effect. In a reachable
    state with room in the counters, opening never panics. It refuses for the
    budget exactly when the added bytes would not leave headroom, and then
    nothing changes; it refuses for slots exactly when the budget would allow
    it but every slot is in use, and then table and pool are unchanged and the
    ledger is restored; otherwise it creates a session under a fresh number
    that alone holds the lowest free slot, emptied. *)
Theorem open_exact n s ctx :
  reachable n s → (0 ≤ ctx)%Z →
  let 'mkSystem t p a := s in
  let need := (ctx * kv_bytes_per_token (footprint a) +
    if bool_decide (admitted a = []) then weights_bytes (footprint a) else 0)%Z in
  (need ≤ U64_MAX)%Z → (next_id t < U64_MAX)%Z → (clock t < U64_MAX)%Z →
  ∃ r t' p' a', SessionTable_open (E := Empty_set) t p a ctx = Ok (r, t', p', a') ∧
  match r with
  | inr (WouldExceedBudget _ _) =>
      (adm_budget_bytes a ≤ committed a + need)%Z ∧ t' = t ∧ p' = p ∧ a' = a
  | inr PoolFull =>
      (committed a + need < adm_budget_bytes a)%Z ∧ (∀ i, i < n → in_use p !! i = Some true) ∧
      t' = t ∧ p' = p ∧ admitted a' ≡ₚ admitted a
  | inl id =>
      (committed a + need < adm_budget_bytes a)%Z ∧ sessions t !! session_value id = None ∧
      ∃ k d, in_use p !! k = Some false ∧ (∀ j, j < k → in_use p !! j = Some true) ∧
        in_use p' = <[k := true]> (in_use p) ∧
        descs p !! k = Some d ∧ descs p' = <[k := with_seq_len d 0]> (descs p) ∧
        sessions t' = <[session_value id :=
          mkSession (Some (mkSlotId k)) ctx [] 0 Resident [] (clock t + 1)]> (sessions t) ∧
        admitted a' = admitted a ++ [ctx]
  end.
Proof.
  intros Hreach Hc. destruct s as [t p a]. intros need Hneed Hid Hclk.
  apply reachable_wf in Hreach as (cap & pp & Hcap & [[u H1] H2 H3 H4 H5 H6 H7 H8 H9 H10]).
  cbn [sys_table sys_pool sys_adm] in *. unfold SessionTable_open, try_admit.
  rewrite (admit_spec a ctx H2 Hc Hneed). fold need.
  destruct (Z.ltb_spec (committed a + need) (adm_budget_bytes a)) as [Hok|Hno]; cbn [mbind result_bind].
  2: { eexists _, _, _, _. split; [done|]. done. }
  destruct (acquire_spec (E := Empty_set) n cap pp p u Hcap H1) as (r & p1 & -> & _ & Hdid).
  cbn [mbind result_bind]. destruct r as [[k]|].
  - destruct Hdid as (Hk & Hlow & Hu & d & Hd & Hds).
    assert (∀ x, (x < U64_MAX)%Z → increment (E := Empty_set) x = Ok (x + 1)%Z) as Hinc
      by (intros; apply increment_Ok; lia).
    rewrite !Hinc by done. cbn [mbind result_bind].
    eexists _, _, _, _. split; [done|]. cbn. split; [done|]. split.
    { destruct (sessions t !! next_id t) as [y|] eqn:E; [|done]. specialize (H5 _ _ E). lia. }
    exists k, d. done.
  - destruct Hdid as [-> Hfull]. eexists _, _, _, _. split; [done|]. cbn.
    split; [done|]. split; [done|]. split; [done|]. split; [done|].
    apply (release_ledger (mkAdmission (footprint a) (adm_budget_bytes a) (admitted a ++ [ctx])
      (host_budget a) (host_used a)) ctx). cbn. by rewrite Permutation_app_comm.
Qed.

(** A turn reuses only what its own slot holds. In a reachable state,
    beginning a turn fails only for an unknown session or one without a slot,
    and never panics. Otherwise the reused tokens are the longest common prefix
    of prompt and history that the slot's length covers and that leaves a token
    to compute; the session keeps exactly those tokens, the slot's length is
    set to their number, never raised, and every other descriptor and session
    is unchanged. *)
Theorem begin_turn_exact n s id prompt :
  reachable n s →
  let 'mkSystem t p a := s in
  match sessions t !! session_value id with
  | None => begin_turn t p id prompt = Err (UnknownSession (session_value id))
  | Some x =>
    match slot x with
    | None => begin_turn t p id prompt = Err (NoSlot (session_value id))
    | Some (mkSlotId k) =>
        ∃ d plan t' p', descs p !! k = Some d ∧ begin_turn t p id prompt = Ok (plan, t', p') ∧
        (0 ≤ seq_len d)%Z ∧ (Z.of_nat (reused plan) ≤ seq_len d)%Z ∧
        reused plan + to_prefill plan = length prompt ∧ (prompt ≠ [] → 0 < to_prefill plan) ∧
        take (reused plan) prompt = take (reused plan) (session_tokens x) ∧
        (∀ m, (Z.of_nat m ≤ seq_len d)%Z → m < length prompt → m ≤ length (session_tokens x) →
           take m prompt = take m (session_tokens x) → m ≤ reused plan) ∧
        descs p' = <[k := with_seq_len d (Z.of_nat (reused plan))]> (descs p) ∧
        in_use p' = in_use p ∧
        sessions t' = <[session_value id := mkSession (slot x) (granted_ctx x)
          (take (reused plan) prompt) (reused plan) (residency x) (convo x) (last_used x)]> (sessions t)
    end
  end.
Proof.
  intros Hreach. destruct s as [t p a].
  apply reachable_wf in Hreach as (cap & pp & Hcap & [[u H1] H2 H3 H4 H5 H6 H7 H8 H9 H10]).
  cbn [sys_table sys_pool sys_adm] in *. unfold begin_turn.
  destruct (sessions t !! session_value id) as [x|] eqn:Hx; cbn [ok_or mbind result_bind]; [|done].
  destruct (slot x) as [[k]|] eqn:Hs; cbn [ok_or mbind result_bind]; [|done].
  assert (in_use p !! k = Some true) as Huse.
  { eapply (ow_used _ _ H9 (session_value id)). unfold slot_of. rewrite Hx. cbn. by rewrite Hs. }
  pose proof (pw_in_use _ _ _ _ H1) as Hlu. pose proof (pw_descs _ _ _ _ H1) as Hld. cbn in Hlu, Hld.
  destruct (lookup_lt_is_Some_2 (descs p) k) as [d Hd].
  { rewrite Hld, <- Hlu. by eapply lookup_lt_Some. }
  destruct (pw_desc _ _ _ _ H1 k d Hd) as (_ & _ & _ & Hlen).
  cbn [slot_value]. rewrite (proj2 (index_Ok _ _ _) Hd). cbn [mbind result_bind].
  assert (Z.to_nat (wrap64 (seq_len d)) = Z.to_nat (seq_len d)) as ->
    by (unfold wrap64; rewrite Z.mod_small by lia; done).
  set (plan := plan_turn (session_tokens x) (Z.to_nat (seq_len d)) prompt).
  destruct (plan_turn_sound (session_tokens x) (Z.to_nat (seq_len d)) prompt)
    as (_ & Hp1 & _ & Hp2 & Hp3 & Hp4 & Hp5). fold plan in Hp1, Hp2, Hp3, Hp4, Hp5.
  assert (∃ p', SlotPool_set_seq_len p (mkSlotId k) (Z.of_nat (reused plan)) = Ok p') as [p' Hset].
  { unfold SlotPool_set_seq_len. pose proof (pw_cap _ _ _ _ H1) as Hc. cbn in Hc. rewrite Hc.
    rewrite (proj2 (Z.ltb_ge _ _)) by lia. cbn [err_if mbind result_bind slot_value].
    apply store_seq_len_total. by eapply lookup_lt_Some. }
  assert (is_u64 (Z.of_nat (reused plan))) as Hu64 by (clear -Hp1 Hlen Hcap; ulia).
  destruct (set_seq_len_wf n cap pp Hcap p u _ _ p' H1 Hu64 Hset) as (_ & Hu & _ & d' & Hd' & Hds).
  cbn [slot_value] in Hd', Hds. rewrite Hd in Hd'. injection Hd' as <-.
  rewrite Hset. cbn [map_err mbind result_bind].
  eexists d, plan, _, p'. split; [done|]. split; [done|]. split; [lia|]. split; [lia|].
  split; [done|]. split; [done|]. split; [done|].
  split; [intros m Hm; apply Hp5; lia|]. split; [done|]. split; [done|].
  cbn [sessions]. by rewrite Hp4.
Qed.

(** ** Eviction order *)

Lemma min_used_spec l : match min_used l with
  | None => l = []
  | Some x => x ∈ l ∧ ∀ y, y ∈ l → (last_used x.2 ≤ last_used y.2)%Z
  end.
Proof.
  induction l as [|x l IH]; cbn; [done|]. destruct (min_used l) as [y|].
  - destruct IH as [Hy Hle]. destruct (Z.ltb_spec (last_used y.2) (last_used x.2)).
    + split; [by right|]. intros z [->|Hz]%elem_of_cons; [lia|by apply Hle].
    + split; [left|]. intros z [->|Hz]%elem_of_cons; [lia|]. specialize (Hle z Hz). lia.
  - subst l. split; [left|]. by intros z ->%list_elem_of_singleton.
Qed.

Lemma max_used_spec l : match max_used l with
  | None => l = []
  | Some x => x ∈ l ∧ ∀ y, y ∈ l → (last_used y.2 ≤ last_used x.2)%Z
  end.
Proof.
  induction l as [|x l IH]; cbn; [done|]. destruct (max_used l) as [y|].
  - destruct IH as [Hy Hle]. destruct (Z.ltb_spec (last_used y.2) (last_used x.2)).
    + split; [left|]. intros z [->|Hz]%elem_of_cons; [lia|]. specialize (Hle z Hz). lia.
    + split; [by right|]. intros z [->|Hz]%elem_of_cons; [lia|by apply Hle].
  - subst l. split; [left|]. by intros z ->%list_elem_of_singleton.
Qed.

Lemma is_busy_spec busy i : is_busy busy i = true ↔ mkSessionId i ∈ busy.
Proof.
  unfold is_busy. rewrite existsb_exists. setoid_rewrite <- list_elem_of_In. split.
  - intros ([j] & Hj & Heq%Z.eqb_eq). cbn in Heq. by subst.
  - intros H. exists (mkSessionId i). split; [done|]. apply Z.eqb_refl.
Qed.

(** The session may be evicted: it holds a slot and is not generating. *)
Definition idle_resident (t : SessionTable) (busy : list SessionId) (i : Z) (x : Session) : Prop :=
  sessions t !! i = Some x ∧ is_Some (slot x) ∧ mkSessionId i ∉ busy.

(** The session's history is what a request continues. *)
Definition continuation (t : SessionTable) (want : list Z) (busy : list SessionId) (i : Z) (x : Session)
    : Prop :=
  sessions t !! i = Some x ∧ residency x ≠ Cold ∧ (∃ turn, want = convo x ++ [turn]) ∧
  convo x ≠ [] ∧ session_tokens x ≠ [] ∧ mkSessionId i ∉ busy.

Lemma elem_of_idle t busy i x :
  (i, x) ∈ filter (is_idle_resident busy) (map_to_list (sessions t)) ↔ idle_resident t busy i x.
Proof.
  rewrite list_elem_of_filter, elem_of_map_to_list. unfold is_idle_resident, idle_resident. cbn [fst snd].
  rewrite Is_true_true, andb_true_iff, bool_decide_eq_true, negb_true_iff, <- not_true_iff_false, is_busy_spec.
  tauto.
Qed.

Lemma elem_of_continues t want busy i x : 2 ≤ length want →
  (i, x) ∈ filter (continues (take (length want - 1) want) busy) (map_to_list (sessions t)) ↔
  continuation t want busy i x.
Proof.
  intros Hlen. rewrite list_elem_of_filter, elem_of_map_to_list. unfold continues, continuation. cbn [fst snd].
  rewrite Is_true_true, !andb_true_iff, !bool_decide_eq_true, negb_true_iff, <- not_true_iff_false, is_busy_spec.
  assert (convo x = take (length want - 1) want ↔ (∃ turn, want = convo x ++ [turn]) ∧ convo x ≠ []) as ->;
    [|tauto].
  split.
  - intros ->. split.
    + destruct want as [|w want _] using rev_ind; [cbn in Hlen; lia|]. exists w.
      rewrite length_app. cbn. rewrite Nat.add_sub, take_app_length. done.
    + intros Hn. apply (f_equal length) in Hn. rewrite length_take in Hn. cbn in Hn. lia.
  - intros [[turn ->] _]. rewrite length_app. cbn. by rewrite Nat.add_sub, take_app_length.
Qed.

(** Choosing an extreme entry of a list whose stamps are distinct. *)
Lemma choice_exact (le lt : Z → Z → Prop) (l : list (Z * Session)) (o : option (Z * Session))
    (P : Z → Session → Prop) :
  match o with
  | None => l = []
  | Some x => x ∈ l ∧ ∀ y, y ∈ l → le (last_used x.2) (last_used y.2)
  end →
  (∀ i x, (i, x) ∈ l ↔ P i x) →
  (∀ i x j y, P i x → P j y → le (last_used x) (last_used y) → j ≠ i → lt (last_used x) (last_used y)) →
  (∀ u v, lt u v → ¬ le v u) →
  (∀ i, (λ e, mkSessionId e.1) <$> o = Some (mkSessionId i) ↔
     ∃ x, P i x ∧ ∀ j y, P j y → j ≠ i → lt (last_used x) (last_used y)) ∧
  ((λ e, mkSessionId e.1) <$> o = None ↔ ∀ i x, ¬ P i x).
Proof.
  intros Ho HP Hstrict Hanti. destruct o as [[k x]|]; cbn.
  - destruct Ho as [Hin%HP Hle]. split.
    + intros i. split.
      * intros [= <-]. exists x. split; [done|]. intros j y Hy Hne.
        apply (Hstrict k x j y); [done..| |done]. by apply (Hle (j, y)), HP.
      * intros (z & Hz & Hlt). destruct (decide (k = i)) as [->|Hne]; [done|].
        destruct (Hanti _ _ (Hlt k x Hin Hne)). by apply (Hle (i, z)), HP.
    + split; [done|]. intros H. by destruct (H k x).
  - subst l. assert (∀ i x, ¬ P i x) as Hnone by (by intros i x ?%HP%not_elem_of_nil).
    split; [|done]. intros i. split; [done|]. intros (x & Hx & _). by destruct (Hnone i x).
Qed.

(** Eviction picks the least recently used idle session, and continuation
    the most recent match. In a reachable state stamps are distinct, so both
    answers are determined: the victim is the idle resident with the smallest
    stamp, none exactly when every resident is busy; the continuation is the
    matching session (not cold, not busy, with history, whose conversation is
    the request's without its last turn) with the largest stamp, none exactly
    when nothing matches. *)
Theorem victim_and_continuation_exact n s busy want :
  reachable n s →
  let t := sys_table s in
  (∀ i, lru_idle_victim t busy = Some (mkSessionId i) ↔
     ∃ x, idle_resident t busy i x ∧
       ∀ j y, idle_resident t busy j y → j ≠ i → (last_used x < last_used y)%Z) ∧
  (lru_idle_victim t busy = None ↔ ∀ i x, ¬ idle_resident t busy i x) ∧
  (∀ i, find_continuation t want busy = Some (mkSessionId i) ↔
     ∃ x, continuation t want busy i x ∧
       ∀ j y, continuation t want busy j y → j ≠ i → (last_used y < last_used x)%Z) ∧
  (find_continuation t want busy = None ↔ ∀ i x, ¬ continuation t want busy i x).
Proof.
  intros (cap & pp & _ & Hwf)%reachable_wf t. pose proof (sw_stamp_inj _ _ _ _ Hwf) as Hinj. fold t in Hinj.
  assert (∀ i x j y, sessions t !! i = Some x → sessions t !! j = Some y → j ≠ i →
    last_used x ≠ last_used y) as Hne by (intros i x j y Hx Hy Hji He; by destruct Hji, (Hinj i j x y Hx Hy He)).
  apply and_assoc. split.
  - apply (choice_exact Z.le Z.lt _ _ _ (min_used_spec _) (elem_of_idle t busy)); [|lia].
    intros i x j y [Hx _] [Hy _] Hle Hji. specialize (Hne i x j y Hx Hy Hji). lia.
  - unfold find_continuation. case_bool_decide as Hw.
    + assert (∀ i x, ¬ continuation t want busy i x) as Hnone.
      { intros i x (_ & _ & [turn ->] & Hc & _). rewrite length_app in Hw. destruct (convo x); [done|cbn in Hw; lia]. }
      split; [|done]. intros i. split; [done|]. intros (x & Hx & _). by destruct (Hnone i x).
    + set (l := filter (continues (take (length want - 1) want) busy) (map_to_list (sessions t))).
      destruct (choice_exact Z.ge Z.gt l (max_used l) (continuation t want busy))
        as [Hs Hn]; [..|split; [|exact Hn]].
      * pose proof (max_used_spec l) as Hm. destruct (max_used l); [|done]. destruct Hm as [? Hle]. split; [done|]. intros y Hy.
        specialize (Hle y Hy). lia.
      * intros i x. apply elem_of_continues. lia.
      * intros i x j y [Hx _] [Hy _] Hle Hji. specialize (Hne i x j y Hx Hy Hji). lia.
      * lia.
      * intros i. rewrite Hs. split; intros (x & Hx & Hall); exists x; (split; [done|]); intros j y Hy Hji;
          specialize (Hall j y Hy Hji); lia.
Qed.

(** ** Witnesses *)

Definition demo_footprint : ModelFootprint := mkFootprint 1073741824 1024.
Definition demo_start : system :=
  mkSystem SessionTable_default
    (match SlotPool_new demo_mem 2 4096 1088 with Ok p => p | _ => mkSlotPool [] [] 0 0 false end)
    (Admission_new demo_footprint 34359738368).

Definition demo_open (s : system) : system :=
  match SessionTable_open (E := Empty_set) (sys_table s) (sys_pool s) (sys_adm s) 1024 with
  | Ok (_, t, p, a) => mkSystem t p a
  | _ => s
  end.

(** Two sessions, the first with history and a slot of length three. *)
Definition demo_served : system :=
  let s := demo_open (demo_open demo_start) in
  let p := match SlotPool_set_seq_len (sys_pool s) (mkSlotId 0) 3 with Ok p => p | _ => sys_pool s end in
  let t := sys_table s in
  mkSystem (mkTable (<[0%Z := mkSession (Some (mkSlotId 0)) 1024 [7; 8; 9; 10]%Z 4 Resident [5%Z] 1]>
    (sessions t)) (next_id t) (clock t)) p (sys_adm s).

Lemma demo_reachable : reachable 2 demo_served.
Proof.
  eexists demo_mem, 4096%Z, 1088%Z, _, demo_footprint, 34359738368%Z.
  split; [lia|]. split; [lia|]. split; [vm_compute; reflexivity|].
  do 3 (split; [vm_compute; split; congruence|]).
  eapply rtc_l; [eapply (st_open _ _ _ 1024); [lia|vm_compute; reflexivity]|].
  eapply rtc_l; [eapply (st_open _ _ _ 1024); [lia|vm_compute; reflexivity]|].
  eapply rtc_l; [eapply (st_set_seq_len _ _ _ (mkSlotId 0) 3); [ulia|vm_compute; reflexivity]|].
  eapply rtc_l; [|apply rtc_refl].
  apply (st_edit _ _ _ (mkSessionId 0) (mkSession (Some (mkSlotId 0)) 1024 [] 0 Resident [] 1)
    [7; 8; 9; 10]%Z 4 [5%Z]). vm_compute. reflexivity.
Qed.

Lemma sessions_invariant_witness :
  in_use (sys_pool demo_served) !! 1 = Some true ∧
  ∃ i x, sessions (sys_table demo_served) !! i = Some x ∧ slot x = Some (mkSlotId 1).
Proof.
  assert (in_use (sys_pool demo_served) !! 1 = Some true) as H by (vm_compute; reflexivity).
  split; [exact H|].
  exact (proj1 (proj1 (sessions_invariant 2 demo_served demo_served demo_reachable (rtc_refl _ _)) 1) H).
Defined.

(** Both slots are held, so a third session is refused and nothing changes. *)
Lemma open_exact_witness : ∃ r t' p' a',
  SessionTable_open (E := Empty_set) (sys_table demo_served) (sys_pool demo_served) (sys_adm demo_served)
    1024 = Ok (r, t', p', a') ∧ r = inr PoolFull ∧ p' = sys_pool demo_served.
Proof.
  destruct (open_exact 2 demo_served 1024 demo_reachable) as (r & t' & p' & a' & Ho & Hr);
    [lia|vm_compute; discriminate|vm_compute; reflexivity|vm_compute; reflexivity|].
  exists r, t', p', a'. split; [exact Ho|].
  assert (r = inr PoolFull) as -> by (vm_compute in Ho; by injection Ho as <- _ _ _).
  split; [reflexivity|]. exact (proj1 (proj2 (proj2 (proj2 Hr)))).
Defined.

(** The slot holds three of the four remembered tokens; two of them match. *)
Lemma begin_turn_exact_witness : ∃ plan t' p',
  begin_turn (sys_table demo_served) (sys_pool demo_served) (mkSessionId 0) [7; 8; 1; 2]%Z =
    Ok (plan, t', p') ∧ reused plan = 2 ∧ reused plan + to_prefill plan = 4.
Proof.
  destruct (begin_turn_exact 2 demo_served (mkSessionId 0) [7; 8; 1; 2]%Z demo_reachable)
    as (d & plan & t' & p' & _ & Hb & _ & _ & Hsum & _).
  exists plan, t', p'. split; [exact Hb|].
  assert (reused plan = 2) as Hr by (vm_compute in Hb; by injection Hb as <- _ _).
  split; [exact Hr|exact Hsum].
Defined.

Lemma victim_and_continuation_exact_witness :
  lru_idle_victim (sys_table demo_served) [mkSessionId 1] = Some (mkSessionId 0) ∧
  (∃ x, idle_resident (sys_table demo_served) [mkSessionId 1] 0 x ∧
    ∀ j y, idle_resident (sys_table demo_served) [mkSessionId 1] j y → j ≠ 0%Z →
      (last_used x < last_used y)%Z) ∧
  find_continuation (sys_table demo_served) [5; 6]%Z [] = Some (mkSessionId 0).
Proof.
  assert (lru_idle_victim (sys_table demo_served) [mkSessionId 1] = Some (mkSessionId 0)) as H
    by (vm_compute; reflexivity).
  split; [exact H|]. split; [|vm_compute; reflexivity].
  exact (proj1 (proj1 (victim_and_continuation_exact 2 demo_served [mkSessionId 1] [] demo_reachable) 0%Z) H).
Defined.
