(* ===== verification/Swap.v ===== *)
(** Swapped-out sessions (src/crates/hipfire-runtime/src/swap/snapshot.rs,
    store.rs and mod.rs).

    A snapshot is the captured state of a session with the stamp it was taken
    under; the store keeps snapshots in host memory up to a budget and spills the
    rest to one file per key. The file system is not part of the program: it is
    a map from keys to file contents that the store's operations act on;
    whether a write succeeds is an argument, a read returns the file's contents
    and a removal removes it. A slice position of the parser is
    the suffix of the buffer that starts there.

    Proved here: parsing inverts serialisation, never panics and accepts only
    serialised snapshots; a change of any one payload byte is detected; and the
    store stays within its budget and gives back exactly what was put. *)

From S2P Require Import Prelude.

(** [SwapError]; the variants carry texts, whose kinds are kept. *)
Inductive SwapError := StampError | CorruptError | IoError | GpuError.

Definition MAGIC : Z := 0x484950465F535731.
Definition VERSION : Z := 1.

(** One byte of [checksum_of]. *)
Definition fnv_step (h b : Z) : Z := wrap64 (Z.lxor h b * 0x100000001b3).

(** [checksum_of] *)
Definition checksum_of (bytes : list Z) : Z := foldl fnv_step 0xcbf29ce484222325%Z bytes.

Record SnapshotStamp := mkSnapshotStamp {
  model_hash : Z; kv_dtype_tag : Z; stamp_per_pos_bytes : Z; n_fa_layers : Z;
  dn_layout_version : Z; stamp_cap : Z; dn_bytes : Z }.

#[export] Instance SnapshotStamp_eq_dec : EqDecision SnapshotStamp.
Proof. solve_decision. Defined.

Record SlotSnapshot := mkSnapshot {
  snap_stamp : SnapshotStamp;
  snap_seq_len : Z;
  snap_tokens : list Z;
  snap_payload : list Z;
  snap_checksum : Z }.

(** [SlotSnapshot::expected_len] *)
Definition expected_len {E} (s : SlotSnapshot) : result E Z :=
  a ← expect (checked_mul U64_MAX (n_fa_layers (snap_stamp s)) 2);
  b ← expect (checked_mul U64_MAX a (snap_seq_len s));
  kv ← expect (checked_mul U64_MAX b (stamp_per_pos_bytes (snap_stamp s)));
  expect (checked_add U64_MAX kv (dn_bytes (snap_stamp s))).

(** [SlotSnapshot::validate] *)
Definition Snapshot_validate (s : SlotSnapshot) (expected : SnapshotStamp) : result SwapError unit :=
  err_if (negb (bool_decide (snap_stamp s = expected))) StampError ;;
  want ← expected_len s;
  err_if (negb (Z.of_nat (length (snap_payload s)) =? want)%Z) CorruptError ;;
  err_if (negb (checksum_of (snap_payload s) =? snap_checksum s)%Z) CorruptError.

(** [SlotSnapshot::to_bytes] *)
Definition to_bytes (s : SlotSnapshot) : list Z :=
  let stamp := snap_stamp s in
  le_bytes 8 MAGIC ++ le_bytes 4 VERSION ++ le_bytes 8 (model_hash stamp) ++
  le_bytes 4 (kv_dtype_tag stamp) ++ le_bytes 4 (stamp_per_pos_bytes stamp) ++
  le_bytes 4 (n_fa_layers stamp) ++ le_bytes 4 (dn_layout_version stamp) ++
  le_bytes 4 (stamp_cap stamp) ++ le_bytes 8 (dn_bytes stamp) ++
  le_bytes 8 (snap_seq_len s) ++ le_bytes 8 (Z.of_nat (length (snap_tokens s))) ++
  le_bytes 8 (snap_checksum s) ++ le_bytes 8 (Z.of_nat (length (snap_payload s))) ++
  concat (le_bytes 4 <$> snap_tokens s) ++ snap_payload s.

(** [from_le_bytes(bytes[o..o + n])] and [o += n] *)
Definition uint_at {E} (n : nat) (rest : list Z) : result E (Z * list Z) :=
  if bool_decide (n ≤ length rest) then Ok (le_value (take n rest), drop n rest) else Panic.

(** The token loop of [from_bytes]. *)
Fixpoint tokens_at {E} (n : nat) (rest : list Z) : result E (list Z * list Z) :=
  match n with
  | O => Ok ([], rest)
  | S n =>
      '(t, rest) ← uint_at 4 rest;
      '(ts, rest) ← tokens_at n rest;
      Ok (t :: ts, rest)
  end.

(** [bytes[o..o + payload_len].to_vec()] *)
Definition slice_at {E} (n : nat) (rest : list Z) : result E (list Z) :=
  if bool_decide (n ≤ length rest) then Ok (take n rest) else Panic.

Definition SNAPSHOT_HEADER : nat := 8 + 4 + 8 + 4 + 4 + 4 + 4 + 4 + 8 + 8 + 8 + 8 + 8.

(** [SlotSnapshot::from_bytes] *)
Definition from_bytes (bytes : list Z) : result SwapError SlotSnapshot :=
  err_if (bool_decide (length bytes < SNAPSHOT_HEADER)) CorruptError ;;
  '(magic, rest) ← uint_at 8 bytes;
  err_if (negb (magic =? MAGIC)%Z) CorruptError ;;
  '(version, rest) ← uint_at 4 rest;
  err_if (negb (version =? VERSION)%Z) StampError ;;
  '(model_hash, rest) ← uint_at 8 rest;
  '(kv_dtype_tag, rest) ← uint_at 4 rest;
  '(per_pos_bytes, rest) ← uint_at 4 rest;
  '(n_fa_layers, rest) ← uint_at 4 rest;
  '(dn_layout_version, rest) ← uint_at 4 rest;
  '(cap, rest) ← uint_at 4 rest;
  '(dn_bytes, rest) ← uint_at 8 rest;
  '(seq_len, rest) ← uint_at 8 rest;
  '(n_tokens, rest) ← uint_at 8 rest;
  '(checksum, rest) ← uint_at 8 rest;
  '(payload_len, rest) ← uint_at 8 rest;
  need ← ok_or CorruptError
    (checked_add U64_MAX (Z.of_nat SNAPSHOT_HEADER) (Z.min U64_MAX (n_tokens * 4)) ≫=
     λ x, checked_add U64_MAX x payload_len);
  err_if (Z.of_nat (length bytes) <? need)%Z CorruptError ;;
  '(tokens, rest) ← tokens_at (Z.to_nat n_tokens) rest;
  payload ← slice_at (Z.to_nat payload_len) rest;
  Ok (mkSnapshot (mkSnapshotStamp model_hash kv_dtype_tag per_pos_bytes n_fa_layers dn_layout_version
        cap dn_bytes) seq_len tokens payload checksum).

(** ** Reading back *)

Lemma uint_at_le {E} n x tl : (0 ≤ x < 256 ^ Z.of_nat n)%Z →
  uint_at (E := E) n (le_bytes n x ++ tl) = Ok (x, tl).
Proof.
  intros Hx. unfold uint_at. rewrite bool_decide_eq_true_2 by (rewrite length_app, length_le_bytes; lia).
  rewrite <- (length_le_bytes n x) at 1 3. rewrite take_app_length, drop_app_length, le_value_bytes.
  by rewrite Z.mod_small.
Qed.

Lemma uint_at_u64 {E} x tl : is_u64 x → uint_at (E := E) 8 (le_bytes 8 x ++ tl) = Ok (x, tl).
Proof. intros H. apply uint_at_le. cbn. ulia. Qed.
Lemma uint_at_u32 {E} x tl : is_u32 x → uint_at (E := E) 4 (le_bytes 4 x ++ tl) = Ok (x, tl).
Proof. intros H. apply uint_at_le. cbn. ulia. Qed.

Lemma tokens_at_le {E} ts tl : Forall is_u32 ts →
  tokens_at (E := E) (length ts) (concat (le_bytes 4 <$> ts) ++ tl) = Ok (ts, tl).
Proof.
  induction 1 as [|t ts Ht _ IH]; [done|]. cbn [length tokens_at]. rewrite fmap_cons, concat_cons, <- app_assoc.
  rewrite uint_at_u32 by done. cbn [mbind result_bind]. rewrite IH. done.
Qed.

(** The other direction: a read value is the bytes it was read from. *)
Lemma le_bytes_value bs : Forall is_u8 bs → le_bytes (length bs) (le_value bs) = bs.
Proof.
  induction 1 as [|b bs Hb _ IH]; [done|]. cbn [length le_bytes le_value].
  unfold is_u8 in Hb. f_equal.
  - rewrite Z.mul_comm, Z.mod_add by lia. by apply Z.mod_small.
  - rewrite Z.mul_comm, Z.div_add, Z.div_small by lia. by rewrite Z.add_0_l.
Qed.

Lemma le_value_bound bs : Forall is_u8 bs → (0 ≤ le_value bs < 256 ^ Z.of_nat (length bs))%Z.
Proof.
  induction 1 as [|b bs Hb _ IH]; [done|]. cbn [length le_value].
  rewrite Nat2Z.inj_succ, Z.pow_succ_r by lia. unfold is_u8 in Hb. lia.
Qed.

(** Reading within the buffer succeeds and loses nothing. *)
Lemma uint_at_total {E} n rest : Forall is_u8 rest → n ≤ length rest → ∃ x tl,
  uint_at (E := E) n rest = Ok (x, tl) ∧ rest = le_bytes n x ++ tl ∧
  (0 ≤ x < 256 ^ Z.of_nat n)%Z ∧ Forall is_u8 tl ∧ length rest = n + length tl.
Proof.
  intros Hb Hn. unfold uint_at. rewrite bool_decide_eq_true_2 by done. eexists _, _. split; [done|].
  assert (length (take n rest) = n) as Hl by (rewrite length_take; lia).
  assert (Forall is_u8 (take n rest)) as Ht by by apply Forall_take.
  split; [|split; [|split]].
  - rewrite <- Hl at 1. rewrite le_bytes_value by done. by rewrite take_drop.
  - rewrite <- Hl at 3. by apply le_value_bound.
  - by apply Forall_drop.
  - rewrite length_drop. lia.
Qed.

Lemma tokens_at_total {E} n : ∀ rest, Forall is_u8 rest → 4 * n ≤ length rest → ∃ ts tl,
  tokens_at (E := E) n rest = Ok (ts, tl) ∧ rest = concat (le_bytes 4 <$> ts) ++ tl ∧
  length ts = n ∧ Forall is_u32 ts ∧ Forall is_u8 tl ∧ length rest = 4 * n + length tl.
Proof.
  induction n as [|n IH]; intros rest Hb Hn; cbn [tokens_at].
  - exists [], rest. done.
  - destruct (uint_at_total (E := E) 4 rest Hb) as (t & tl & -> & -> & Ht & Htl & Hlen); [lia|].
    cbn [mbind result_bind]. destruct (IH tl Htl) as (ts & tl' & -> & -> & Hts & Hu & Htl' & Hlen'); [lia|].
    exists (t :: ts), tl'. split; [done|]. split; [by rewrite fmap_cons, concat_cons, <- app_assoc|].
    split; [cbn; lia|]. split; [constructor; [|done]; cbn in Ht; ulia|]. split; [done|lia].
Qed.

Definition stamp_typed (st : SnapshotStamp) : Prop :=
  is_u64 (model_hash st) ∧ is_u32 (kv_dtype_tag st) ∧ is_u32 (stamp_per_pos_bytes st) ∧
  is_u32 (n_fa_layers st) ∧ is_u32 (dn_layout_version st) ∧ is_u32 (stamp_cap st) ∧ is_u64 (dn_bytes st).

(** What the field types guarantee of a snapshot held in memory. *)
Definition snapshot_typed (s : SlotSnapshot) : Prop :=
  stamp_typed (snap_stamp s) ∧ is_u64 (snap_seq_len s) ∧ Forall is_u32 (snap_tokens s) ∧
  Forall is_u8 (snap_payload s) ∧ is_u64 (snap_checksum s) ∧
  (80 + 4 * Z.of_nat (length (snap_tokens s)) + Z.of_nat (length (snap_payload s)) ≤ U64_MAX)%Z.

Lemma length_tokens_bytes ts : length (concat (le_bytes 4 <$> ts)) = 4 * length ts.
Proof.
  induction ts as [|t ts IH]; [done|]. rewrite fmap_cons, concat_cons, length_app, IH, length_le_bytes. cbn. lia.
Qed.

Lemma length_to_bytes s :
  length (to_bytes s) = 80 + 4 * length (snap_tokens s) + length (snap_payload s).
Proof.
  unfold to_bytes. rewrite !length_app, !length_le_bytes, length_tokens_bytes. lia.
Qed.

Lemma from_to_bytes s extra : snapshot_typed s → from_bytes (to_bytes s ++ extra) = Ok s.
Proof.
  intros ((T1 & T2 & T3 & T4 & T5 & T6 & T7) & Hseq & Htok & Hpay & Hsum & Hlen). unfold from_bytes.
  rewrite bool_decide_eq_false_2 by (rewrite length_app, length_to_bytes; unfold SNAPSHOT_HEADER; lia).
  cbn [err_if mbind result_bind].
  assert (Z.of_nat (length (to_bytes s ++ extra)) = 80 + 4 * Z.of_nat (length (snap_tokens s)) +
    Z.of_nat (length (snap_payload s)) + Z.of_nat (length extra))%Z as Hbytes
    by (rewrite length_app, length_to_bytes; lia).
  rewrite Hbytes. clear Hbytes. unfold to_bytes. cbn zeta. rewrite <- !app_assoc.
  assert (is_u64 MAGIC) by (vm_compute; split; congruence).
  assert (is_u32 VERSION) by (vm_compute; split; congruence).
  rewrite uint_at_u64 by done. cbn [mbind result_bind]. rewrite Z.eqb_refl. cbn [negb err_if mbind result_bind].
  rewrite uint_at_u32 by done. cbn [mbind result_bind]. rewrite Z.eqb_refl. cbn [negb err_if mbind result_bind].
  do 11 (first [rewrite uint_at_u64 by ulia|rewrite uint_at_u32 by ulia]; cbn [mbind result_bind]).
  assert (checked_add U64_MAX (Z.of_nat SNAPSHOT_HEADER) (Z.min U64_MAX (Z.of_nat (length (snap_tokens s)) * 4))
    = Some (80 + 4 * Z.of_nat (length (snap_tokens s)))%Z) as ->.
  { apply checked_add_Some. change (Z.of_nat SNAPSHOT_HEADER) with 80%Z. ulia. }
  cbn [mbind option_bind].
  rewrite (proj2 (checked_add_Some _ _ _ _) (conj eq_refl Hlen)). cbn [ok_or mbind result_bind].
  rewrite (proj2 (Z.ltb_ge _ _)) by lia. cbn [err_if mbind result_bind].
  rewrite !Nat2Z.id, tokens_at_le by done. cbn [mbind result_bind].
  unfold slice_at. rewrite bool_decide_eq_true_2 by (rewrite length_app; lia). cbn [mbind result_bind].
  rewrite take_app_length. by destruct s as [[] ].
Qed.

Ltac read_uint n :=
  lazymatch goal with
  | Hb : Forall is_u8 ?rest |- context [uint_at n ?rest] =>
      let x := fresh "x" in let tl := fresh "tl" in let Hx := fresh "Hx" in
      let Htl := fresh "Htl" in let Hlen := fresh "Hlen" in
      destruct (uint_at_total (E := SwapError) n rest Hb) as (x & tl & -> & -> & Hx & Htl & Hlen); [lia|];
      clear Hb; cbn [mbind result_bind]
  end.

Lemma from_bytes_spec bytes : Forall is_u8 bytes →
  from_bytes bytes ≠ Panic ∧
  ∀ s, from_bytes bytes = Ok s → snapshot_typed s ∧ ∃ extra, bytes = to_bytes s ++ extra.
Proof.
  intros Hb. unfold from_bytes, SNAPSHOT_HEADER.
  destruct (decide (length bytes < 80)) as [Hs|Hs].
  { rewrite bool_decide_eq_true_2 by done. done. }
  rewrite bool_decide_eq_false_2 by done. cbn [err_if mbind result_bind].
  remember (length bytes) as total eqn:Htotal. apply not_lt in Hs.
  read_uint 8. destruct (Z.eqb_spec x MAGIC) as [->|]; cbn [negb err_if mbind result_bind]; [|done].
  read_uint 4. destruct (Z.eqb_spec x VERSION) as [->|]; cbn [negb err_if mbind result_bind]; [|done].
  read_uint 8. read_uint 4. read_uint 4. read_uint 4. read_uint 4. read_uint 4. read_uint 8.
  read_uint 8. read_uint 8. read_uint 8. read_uint 8.
  rename x7 into n_tokens, x9 into payload_len.
  match goal with |- context [ok_or _ ?o] => destruct o as [need|] eqn:En end;
    cbn [ok_or mbind result_bind]; [|done].
  destruct (Z.ltb_spec (Z.of_nat total) need) as [|Hneed]; cbn [err_if mbind result_bind]; [done|].
  apply bind_Some in En as (k & [-> Hk]%checked_add_Some & [-> Hfit]%checked_add_Some).
  assert (total = 80 + length tl) as Hrest by (rewrite Htotal, !length_app, !length_le_bytes; lia).
  change (256 ^ Z.of_nat 8)%Z with 18446744073709551616%Z in *.
  change (256 ^ Z.of_nat 4)%Z with 4294967296%Z in *.
  assert (n_tokens * 4 ≤ U64_MAX ∧ 80 + n_tokens * 4 + payload_len ≤ Z.of_nat total)%Z as [H4 Hroom]
    by ulia.
  clear Hlen Hlen0 Hlen1 Hlen2 Hlen3 Hlen4 Hlen5 Hlen6 Hlen7 Hlen8 Hlen9 Hlen10 Htotal.
  destruct (tokens_at_total (E := SwapError) (Z.to_nat n_tokens) tl)
    as (ts & rest & -> & -> & Hn & Hts & Hr & Hl); [done|lia|].
  cbn [mbind result_bind]. unfold slice_at. rewrite bool_decide_eq_true_2 by lia. cbn [mbind result_bind].
  split; [done|]. intros s [= <-].
  assert (length (take (Z.to_nat payload_len) rest) = Z.to_nat payload_len) as Hp by (rewrite length_take; lia).
  split.
  - unfold snapshot_typed, stamp_typed. cbn [snap_stamp snap_seq_len snap_tokens snap_payload snap_checksum
      model_hash kv_dtype_tag stamp_per_pos_bytes n_fa_layers dn_layout_version stamp_cap dn_bytes].
    rewrite Hp, Hn. repeat split; try ulia; [done|by apply Forall_take].
  - exists (drop (Z.to_nat payload_len) rest). unfold to_bytes. cbn [snap_stamp snap_seq_len snap_tokens
      snap_payload snap_checksum model_hash kv_dtype_tag stamp_per_pos_bytes n_fa_layers dn_layout_version
      stamp_cap dn_bytes].
    rewrite Hp, Hn, !Z2Nat.id by lia. rewrite <- !app_assoc, take_drop. done.
Qed.

(** ** The checksum *)

Lemma wrap64_lxor a b : wrap64 (Z.lxor a b) = Z.lxor (wrap64 a) (wrap64 b).
Proof.
  unfold wrap64. change 18446744073709551616%Z with (2 ^ 64)%Z. rewrite <- !Z.land_ones by lia.
  apply Z.bits_inj'. intros n Hn. rewrite !Z.land_spec, !Z.lxor_spec, !Z.land_spec.
  by destruct (Z.testbit a n), (Z.testbit b n), (Z.testbit (Z.ones 64) n).
Qed.

Lemma wrap64_small x : is_u64 x → wrap64 x = x.
Proof. intros H. unfold wrap64. apply Z.mod_small. ulia. Qed.

(** The FNV prime is odd, hence invertible modulo 2^64. *)
Lemma fnv_cancel x y :
  wrap64 (x * 0x100000001b3) = wrap64 (y * 0x100000001b3) → wrap64 x = wrap64 y.
Proof.
  unfold wrap64. intros H.
  assert (∀ z, (((z * 0x100000001b3) `mod` 18446744073709551616) * 14886173955864302971)
    `mod` 18446744073709551616 = z `mod` 18446744073709551616)%Z as Hinv.
  { intros z. rewrite Z.mul_mod_idemp_l, <- Z.mul_assoc by lia.
    rewrite <- Z.mul_mod_idemp_r by lia. change ((0x100000001b3 * 14886173955864302971)
      `mod` 18446744073709551616)%Z with 1%Z. by rewrite Z.mul_1_r. }
  by rewrite <- (Hinv x), <- (Hinv y), H.
Qed.

Lemma fnv_step_u64 h b : is_u64 (fnv_step h b).
Proof.
  unfold fnv_step, wrap64, is_u64, U64_MAX.
  pose proof (Z.mod_pos_bound (Z.lxor h b * 0x100000001b3) 18446744073709551616). lia.
Qed.

Lemma lxor_cancel_r a b c : Z.lxor a c = Z.lxor b c → a = b.
Proof.
  intros H. apply (f_equal (λ z, Z.lxor z c)) in H.
  by rewrite !Z.lxor_assoc, Z.lxor_nilpotent, !Z.lxor_0_r in H.
Qed.

Lemma fnv_step_inj_l h h' b : is_u64 h → is_u64 h' → is_u8 b → fnv_step h b = fnv_step h' b → h = h'.
Proof.
  intros Hh Hh' Hb Hf%fnv_cancel. rewrite !wrap64_lxor in Hf. apply lxor_cancel_r in Hf.
  by rewrite !wrap64_small in Hf.
Qed.

Lemma fnv_step_inj_r h b b' : is_u64 h → is_u8 b → is_u8 b' → fnv_step h b = fnv_step h b' → b = b'.
Proof.
  intros Hh Hb Hb' Hf%fnv_cancel. rewrite !wrap64_lxor, !(Z.lxor_comm (wrap64 h)) in Hf.
  apply lxor_cancel_r in Hf. unfold is_u8 in *. by rewrite !wrap64_small in Hf by ulia.
Qed.

Lemma fnv_fold_inj bs : ∀ h h', is_u64 h → is_u64 h' → Forall is_u8 bs →
  foldl fnv_step h bs = foldl fnv_step h' bs → h = h'.
Proof.
  induction bs as [|b bs IH]; intros h h' Hh Hh' Hbs; cbn [foldl]; [done|].
  apply Forall_cons in Hbs as [Hb Hbs]. intros H. apply IH in H; auto using fnv_step_u64.
  by eapply fnv_step_inj_l.
Qed.

Lemma fnv_fold_u64 bs : ∀ h, is_u64 h → is_u64 (foldl fnv_step h bs).
Proof. induction bs as [|b bs IH]; intros h Hh; [done|]. apply IH, fnv_step_u64. Qed.

(** Any change of one byte changes the checksum. *)
Lemma checksum_single pre post b b' :
  Forall is_u8 pre → Forall is_u8 post → is_u8 b → is_u8 b' → b ≠ b' →
  checksum_of (pre ++ b :: post) ≠ checksum_of (pre ++ b' :: post).
Proof.
  intros Hpre Hpost Hb Hb' Hne H. unfold checksum_of in H. rewrite !foldl_app in H. cbn [foldl] in H.
  apply fnv_fold_inj in H; [|apply fnv_step_u64..|done].
  apply fnv_step_inj_r in H; [done| |done..]. apply fnv_fold_u64. vm_compute. split; congruence.
Qed.


(** ** The store (store.rs) *)

(** [Entry]; the path of a disk entry is the key's file. *)
Inductive Entry : Type :=
| HostEntry (snap : SlotSnapshot)
| DiskEntry (bytes : Z).

Record SwapStore := mkStore {
  store_budget : Z;
  store_used : Z;
  store_entries : gmap Z Entry;
  (** The scratch directory: one file per key. *)
  store_files : gmap Z (list Z) }.

(** How a file operation of the system went; a failed write may leave anything. *)
Inductive write_outcome := Written | WriteFailed (residue : option (list Z)).

(** [SwapStore::new]: the directory is cleared, or the store is not built. *)
Definition SwapStore_new (cleared : bool) (host_budget_bytes : Z) : result SwapError SwapStore :=
  err_if (negb cleared) IoError ;;
  Ok (mkStore host_budget_bytes 0 ∅ ∅).

(** [SwapStore::tier_of] *)
Definition tier_of (st : SwapStore) (key : Z) : option string :=
  (λ e, match e with HostEntry _ => "host"%string | DiskEntry _ => "disk"%string end) <$>
    store_entries st !! key.

Definition payload_bytes (s : SlotSnapshot) : Z := Z.of_nat (length (snap_payload s)).

(** [SwapStore::drop_key] *)
Definition drop_key (st : SwapStore) (key : Z) : SwapStore :=
  match store_entries st !! key with
  | Some (HostEntry s) =>
      mkStore (store_budget st) (saturating_sub (store_used st) (payload_bytes s))
        (delete key (store_entries st)) (store_files st)
  | Some (DiskEntry _) =>
      mkStore (store_budget st) (store_used st) (delete key (store_entries st))
        (delete key (store_files st))
  | None => st
  end.

(** [SwapStore::put]; the answer is the error, if any. *)
Definition Store_put {E} (write : write_outcome) (st : SwapStore) (key : Z) (snap : SlotSnapshot)
    : result E (option SwapError * SwapStore) :=
  let st := drop_key st key in
  let bytes := payload_bytes snap in
  sum ← expect (checked_add U64_MAX (store_used st) bytes);
  if (sum <=? store_budget st)%Z then
    Ok (None, mkStore (store_budget st) sum (<[key := HostEntry snap]> (store_entries st)) (store_files st))
  else
    let encoded := to_bytes snap in
    match write with
    | Written =>
        Ok (None, mkStore (store_budget st) (store_used st)
          (<[key := DiskEntry (Z.of_nat (length encoded))]> (store_entries st))
          (<[key := encoded]> (store_files st)))
    | WriteFailed residue =>
        Ok (Some IoError, mkStore (store_budget st) (store_used st) (store_entries st)
          (partial_alter (λ _, residue) key (store_files st)))
    end.

(** [SwapStore::take] *)
Definition Store_take {E} (st : SwapStore) (key : Z) : result E ((SlotSnapshot + SwapError) * SwapStore) :=
  match store_entries st !! key with
  | None => Ok (inr IoError, st)
  | Some (HostEntry snap) =>
      Ok (inl snap, mkStore (store_budget st) (saturating_sub (store_used st) (payload_bytes snap))
        (delete key (store_entries st)) (store_files st))
  | Some (DiskEntry _) =>
      match store_files st !! key with
      | None => Ok (inr IoError, mkStore (store_budget st) (store_used st)
          (delete key (store_entries st)) (store_files st))
      | Some bytes =>
          let st := mkStore (store_budget st) (store_used st) (delete key (store_entries st))
            (delete key (store_files st)) in
          match from_bytes bytes with
          | Ok snap => Ok (inl snap, st)
          | Err e => Ok (inr e, st)
          | Panic => Panic
          end
      end
  end.

(** ** The manager (mod.rs) *)

Record SwapManager := mkManager {
  manager_store : SwapStore; evictions : nat; restores : nat; failures : nat }.

(** [SwapManager::new] *)
Definition Manager_new (cleared : bool) (host_budget_bytes : Z) : result SwapError SwapManager :=
  st ← SwapStore_new cleared host_budget_bytes;
  Ok (mkManager st 0 0 0).

(** [SwapManager::park] *)
Definition park {E} (write : write_outcome) (m : SwapManager) (key : Z) (snap : SlotSnapshot)
    : result E (option SwapError * SwapManager) :=
  '(answer, st) ← Store_put write (manager_store m) key snap;
  match answer with
  | None => Ok (None, mkManager st (S (evictions m)) (restores m) (failures m))
  | Some e => Ok (Some e, mkManager st (evictions m) (restores m) (S (failures m)))
  end.

(** [SwapManager::unpark] *)
Definition unpark {E} (m : SwapManager) (key : Z) : result E ((SlotSnapshot + SwapError) * SwapManager) :=
  '(answer, st) ← Store_take (manager_store m) key;
  match answer with
  | inl snap => Ok (inl snap, mkManager st (evictions m) (S (restores m)) (failures m))
  | inr e => Ok (inr e, mkManager (drop_key st key) (evictions m) (restores m) (S (failures m)))
  end.

(** [SwapManager::forget] *)
Definition forget (m : SwapManager) (key : Z) : SwapManager :=
  mkManager (drop_key (manager_store m) key) (evictions m) (restores m) (failures m).

(** ** The store as a map of snapshots *)

Definition entry_bytes (e : Entry) : Z :=
  match e with HostEntry s => payload_bytes s | DiskEntry _ => 0 end.

Definition host_bytes (m : gmap Z Entry) : Z := foldr Z.add 0%Z (entry_bytes <$> (map_to_list m).*2).

#[export] Instance sum_perm : Proper (Permutation ==> (=)) (foldr Z.add 0%Z).
Proof. intros l k H. induction H; cbn; lia. Qed.

Lemma host_bytes_insert m k e : m !! k = None → host_bytes (<[k := e]> m) = (entry_bytes e + host_bytes m)%Z.
Proof. intros H. unfold host_bytes. by rewrite map_to_list_insert. Qed.

Lemma host_bytes_delete m k e : m !! k = Some e → host_bytes m = (entry_bytes e + host_bytes (delete k m))%Z.
Proof. intros H. unfold host_bytes. by rewrite <- (map_to_list_delete m k e H). Qed.

Lemma host_bytes_nonneg m : (0 ≤ host_bytes m)%Z.
Proof.
  unfold host_bytes. induction ((map_to_list m).*2) as [|e l IH]; cbn; [done|].
  assert (0 ≤ entry_bytes e)%Z by (destruct e; cbn; unfold payload_bytes; lia). lia.
Qed.

(** What an entry stands for, given the files. *)
Definition represents (files : gmap Z (list Z)) (k : Z) (e : option Entry) (s : option SlotSnapshot) : Prop :=
  match e with
  | None => s = None
  | Some (HostEntry snap) => s = Some snap
  | Some (DiskEntry _) => ∃ snap, s = Some snap ∧ snapshot_typed snap ∧ files !! k = Some (to_bytes snap)
  end.

(** The store holds exactly the snapshots of [a], within its budget. *)
Record holds (a : gmap Z SlotSnapshot) (st : SwapStore) : Prop := {
  hd_budget : is_u64 (store_budget st);
  hd_used : store_used st = host_bytes (store_entries st);
  hd_bound : (store_used st ≤ store_budget st)%Z;
  hd_rep k : represents (store_files st) k (store_entries st !! k) (a !! k) }.

Lemma drop_key_holds a st k : holds a st →
  holds (delete k a) (drop_key st k) ∧ store_entries (drop_key st k) !! k = None ∧
  store_budget (drop_key st k) = store_budget st.
Proof.
  intros [Hb Hu Hle Hrep].
  assert (∀ used files, is_u64 (store_budget st) → used = host_bytes (delete k (store_entries st)) →
    (used ≤ store_budget st)%Z → (∀ j, j ≠ k → files !! j = store_files st !! j) →
    holds (delete k a) (mkStore (store_budget st) used (delete k (store_entries st)) files)) as Hdel.
  { intros used files H1 H2 H3 Hf. split; cbn; [done..|]. intros j.
    destruct (decide (j = k)) as [->|Hj]; [by rewrite !lookup_delete_eq|].
    rewrite !lookup_delete_ne by done. specialize (Hrep j). unfold represents in *. by rewrite Hf. }
  unfold drop_key. destruct (store_entries st !! k) as [[s|n]|] eqn:E.
  - pose proof (host_bytes_delete _ _ _ E) as Hd. cbn in Hd.
    pose proof (host_bytes_nonneg (delete k (store_entries st))).
    split; [|cbn; by rewrite lookup_delete_eq]. apply Hdel; [done| | |done]; unfold payload_bytes in *; ulia.
  - pose proof (host_bytes_delete _ _ _ E) as Hd. cbn in Hd.
    split; [|cbn; by rewrite lookup_delete_eq]. apply Hdel; [done|lia|lia|].
    intros j Hj. by rewrite lookup_delete_ne.
  - split; [|done]. assert (a !! k = None) as Ha by (specialize (Hrep k); by rewrite E in Hrep).
    by rewrite delete_id.
Qed.

(** Adding a key that is not stored. *)
Lemma insert_holds a st k e s used files :
  holds a st → store_entries st !! k = None → represents files k (Some e) (Some s) →
  used = (entry_bytes e + store_used st)%Z → (used ≤ store_budget st)%Z →
  (∀ j, j ≠ k → files !! j = store_files st !! j) →
  holds (<[k := s]> a) (mkStore (store_budget st) used (<[k := e]> (store_entries st)) files).
Proof.
  intros [Hb Hu Hle Hrep] Hk Hr Hused Hbound Hf. split; cbn; [done| |done|].
  - rewrite host_bytes_insert by done. lia.
  - intros j. destruct (decide (j = k)) as [->|Hj]; [by rewrite !lookup_insert_eq|].
    rewrite !lookup_insert_ne by done. specialize (Hrep j). unfold represents in *. by rewrite Hf.
Qed.

Lemma put_holds {E} w a st k s : holds a st → snapshot_typed s →
  (store_budget st + payload_bytes s ≤ U64_MAX)%Z →
  ∃ r st', Store_put (E := E) w st k s = Ok (r, st') ∧ store_budget st' = store_budget st ∧
    match r with
    | None => holds (<[k := s]> a) st'
    | Some e => e = IoError ∧ w ≠ Written ∧ holds (delete k a) st'
    end.
Proof.
  intros Hh Hs Hmax. destruct (drop_key_holds a st k Hh) as (Hd & Hk & Hbud). unfold Store_put. cbn zeta.
  pose proof Hd as [Hb Hu Hle Hrep].
  assert (checked_add U64_MAX (store_used (drop_key st k)) (payload_bytes s) =
    Some (store_used (drop_key st k) + payload_bytes s)%Z) as -> by (apply checked_add_Some; lia).
  cbn [expect mbind result_bind].
  destruct (Z.leb_spec (store_used (drop_key st k) + payload_bytes s) (store_budget (drop_key st k))).
  - eexists _, _. split; [done|]. cbn. split; [done|]. rewrite <- (insert_delete_eq a).
    apply insert_holds; [done|done|done|cbn; lia|lia|done].
  - destruct w as [|residue].
    + eexists _, _. split; [done|]. cbn. split; [done|]. rewrite <- (insert_delete_eq a).
      apply insert_holds; [done|done| |cbn; lia|lia|].
      * exists s. split; [done|]. split; [done|]. apply lookup_insert_eq.
      * intros j Hj. by rewrite lookup_insert_ne.
    + eexists _, _. split; [done|]. cbn. split; [done|]. split; [done|]. split; [done|].
      split; cbn; [done..|]. intros j. specialize (Hrep j). unfold represents in *.
      destruct (decide (j = k)) as [->|Hj]; [by rewrite Hk in Hrep |- *|].
      by rewrite lookup_partial_alter_ne.
Qed.

Lemma take_holds {E} a st k : holds a st →
  ∃ r st', Store_take (E := E) st k = Ok (r, st') ∧ store_budget st' = store_budget st ∧
    holds (delete k a) st' ∧ r = match a !! k with Some s => inl s | None => inr IoError end.
Proof.
  intros Hh. destruct (drop_key_holds a st k Hh) as (Hd & _ & _). unfold drop_key in Hd.
  pose proof (hd_rep _ _ Hh k) as Hrep. unfold Store_take.
  destruct (store_entries st !! k) as [[s|n]|]; cbn [represents] in Hrep.
  - eexists _, _. split; [done|]. split; [done|]. split; [exact Hd|]. by rewrite Hrep.
  - destruct Hrep as (s & Ha & Ht & Hf). rewrite Hf. cbn zeta.
    pose proof (from_to_bytes s [] Ht) as Hp. rewrite app_nil_r in Hp. rewrite Hp.
    eexists _, _. split; [done|]. split; [done|]. split; [exact Hd|]. by rewrite Ha.
  - eexists _, _. split; [done|]. split; [done|]. split; [exact Hd|]. by rewrite Hrep.
Qed.

(** The manager's operations as one step of the map of parked snapshots. *)
Inductive swap_op := Park (w : write_outcome) (key : Z) (snap : SlotSnapshot) | Unpark (key : Z) | Forget (key : Z).

Definition swap_step (m : SwapManager) (op : swap_op) : result Empty_set SwapManager :=
  match op with
  | Park w key snap => '(_, m) ← park w m key snap; Ok m
  | Unpark key => '(_, m) ← unpark m key; Ok m
  | Forget key => Ok (forget m key)
  end.

Definition op_typed (budget : Z) (op : swap_op) : Prop :=
  match op with
  | Park _ _ s => snapshot_typed s ∧ (budget + payload_bytes s ≤ U64_MAX)%Z
  | _ => True
  end.

(** The specification: a map from keys to snapshots. A failed spill loses the
    key, nothing else ever does. *)
Definition abs_step (a : gmap Z SlotSnapshot) (op : swap_op) (a' : gmap Z SlotSnapshot) : Prop :=
  match op with
  | Park w key snap => a' = <[key := snap]> a ∨ (w ≠ Written ∧ a' = delete key a)
  | Unpark key | Forget key => a' = delete key a
  end.

Fixpoint abs_run (a : gmap Z SlotSnapshot) (ops : list swap_op) (a' : gmap Z SlotSnapshot) : Prop :=
  match ops with
  | [] => a' = a
  | op :: ops => ∃ b, abs_step a op b ∧ abs_run b ops a'
  end.

(** What retrieving a key does. *)
Lemma unpark_holds {E} a m k : holds a (manager_store m) →
  ∃ m', unpark (E := E) m k = Ok (match a !! k with Some s => inl s | None => inr IoError end, m') ∧
    holds (delete k a) (manager_store m') ∧
    store_budget (manager_store m') = store_budget (manager_store m).
Proof.
  intros Hh. unfold unpark. destruct (take_holds (E := E) a _ k Hh) as (r & st' & -> & Hb & Hd & ->).
  cbn [mbind result_bind]. destruct (a !! k) as [s|] eqn:Ea; eexists; (split; [done|]); cbn; [done|].
  destruct (drop_key_holds _ _ k Hd) as (Hd' & _ & Hb'). rewrite delete_delete_eq in Hd'. by rewrite Hb'.
Qed.

Lemma swap_step_holds a m op budget :
  holds a (manager_store m) → store_budget (manager_store m) = budget → op_typed budget op →
  ∃ m' a', swap_step m op = Ok m' ∧ abs_step a op a' ∧ holds a' (manager_store m') ∧
    store_budget (manager_store m') = budget.
Proof.
  intros Hh <- Ht. destruct op as [w k s|k|k]; cbn [swap_step abs_step].
  - destruct Ht as [Hs Hmax]. unfold park.
    destruct (put_holds (E := Empty_set) w a _ k s Hh Hs Hmax) as (r & st' & -> & Hb & Hr).
    cbn [mbind result_bind]. destruct r as [e|]; cbn [mbind result_bind].
    + destruct Hr as (-> & Hw & Hr). eexists _, _. split; [done|]. split; [by right|done].
    + eexists _, _. split; [done|]. split; [by left|done].
  - destruct (unpark_holds (E := Empty_set) a m k Hh) as (m' & -> & Hd & Hb). cbn [mbind result_bind].
    eexists _, _. done.
  - destruct (drop_key_holds a (manager_store m) k Hh) as (Hd & _ & Hb). eexists _, _. done.
Qed.

Lemma swap_run_holds ops : ∀ a m budget,
  holds a (manager_store m) → store_budget (manager_store m) = budget → Forall (op_typed budget) ops →
  ∃ m' a', try_fold swap_step m ops = Ok m' ∧ abs_run a ops a' ∧ holds a' (manager_store m').
Proof.
  induction ops as [|op ops IH]; intros a m budget Hh Hb Hops; [by exists m, a|].
  apply Forall_cons in Hops as [Hop Hops]. rewrite try_fold_cons.
  destruct (swap_step_holds a m op budget Hh Hb Hop) as (m1 & a1 & -> & Hs & Hh1 & Hb1).
  cbn [mbind result_bind]. destruct (IH a1 m1 budget Hh1 Hb1 Hops) as (m2 & a2 & -> & Hr & Hh2).
  exists m2, a2. split; [done|]. split; [by exists a1|done].
Qed.

(** C19: the two-tier store is a map of snapshots. After any sequence of parking,
    retrieving and forgetting on a new store, no operation has panicked, the
    host tier holds exactly the bytes it accounts for and no more than its
    budget, and the store holds exactly the snapshots of the specification's
    map: retrieving a key returns the snapshot parked last under it, bit for
    bit and from either tier, or an error when there is none, and the key is
    gone afterwards. *)
Theorem swap_store_refines cleared budget m0 ops :
  Manager_new cleared budget = Ok m0 → is_u64 budget → Forall (op_typed budget) ops →
  ∃ m a, try_fold swap_step m0 ops = Ok m ∧ abs_run ∅ ops a ∧
    (store_used (manager_store m) = host_bytes (store_entries (manager_store m)) ∧
     store_used (manager_store m) ≤ store_budget (manager_store m))%Z ∧
    ∀ key, ∃ m', unpark (E := Empty_set) m key =
        Ok (match a !! key with Some s => inl s | None => inr IoError end, m') ∧
      ∃ m'', unpark (E := Empty_set) m' key = Ok (inr IoError, m'').
Proof.
  intros Hnew Hb Hops. unfold Manager_new, SwapStore_new in Hnew.
  apply bind_Ok in Hnew as (st & Hst & [= <-]). apply bind_Ok in Hst as (_ & _ & [= <-]).
  assert (holds ∅ (mkStore budget 0 ∅ ∅)) as H0.
  { split; cbn; [done|by unfold host_bytes; rewrite map_to_list_empty|ulia|]. intros k. by rewrite !lookup_empty. }
  destruct (swap_run_holds ops ∅ (mkManager (mkStore budget 0 ∅ ∅) 0 0 0) budget H0 eq_refl Hops)
    as (m & a & Hrun & Habs & Hh).
  exists m, a. split; [done|]. split; [done|].
  split; [split; [apply (hd_used _ _ Hh)|apply (hd_bound _ _ Hh)]|].
  intros key. destruct (unpark_holds (E := Empty_set) a m key Hh) as (m' & -> & Hd & _).
  exists m'. split; [done|]. destruct (unpark_holds (E := Empty_set) _ m' key Hd) as (m'' & -> & _).
  exists m''. by rewrite lookup_delete_eq.
Qed.

(** ** Witnesses *)

Definition demo_stamp : SnapshotStamp := mkSnapshotStamp 1 1 4 2 1 128 8.
Definition demo_payload : list Z := [1; 2; 3; 4; 5; 6; 7; 8; 9; 10; 11; 12; 13; 14; 15; 16;
  17; 18; 19; 20; 21; 22; 23; 24]%Z.
Definition demo_snapshot : SlotSnapshot :=
  mkSnapshot demo_stamp 1 [4; 5; 6]%Z demo_payload (checksum_of demo_payload).

Lemma demo_snapshot_typed : snapshot_typed demo_snapshot.
Proof.
  apply (bool_decide_unpack _). vm_compute. exact I.
Qed.


(** A budget of 30 bytes keeps one snapshot in memory and spills the second. *)
Lemma swap_store_refines_witness : ∃ m a,
  try_fold swap_step (mkManager (mkStore 30 0 ∅ ∅) 0 0 0)
    [Park Written 1 demo_snapshot; Park Written 2 demo_snapshot; Unpark 1] = Ok m ∧
  tier_of (manager_store m) 2 = Some "disk"%string ∧
  abs_run ∅ [Park Written 1 demo_snapshot; Park Written 2 demo_snapshot; Unpark 1] a.
Proof.
  destruct (swap_store_refines true 30 (mkManager (mkStore 30 0 ∅ ∅) 0 0 0)
    [Park Written 1 demo_snapshot; Park Written 2 demo_snapshot; Unpark 1]) as (m & a & Hrun & Habs & _).
  - reflexivity.
  - vm_compute. split; congruence.
  - assert (payload_bytes demo_snapshot = 24)%Z as Hp by (vm_compute; reflexivity).
    assert (op_typed 30 (Park Written 1 demo_snapshot) ∧ op_typed 30 (Park Written 2 demo_snapshot)) as [H1 H2].
    { unfold op_typed. rewrite Hp. split; (split; [exact demo_snapshot_typed|vm_compute; congruence]). }
    exact (Forall_cons_2 _ _ _ H1 (Forall_cons_2 _ _ _ H2 (Forall_cons_2 _ (Unpark 1) _ I (Forall_nil_2 _)))).
  - exists m, a. split; [exact Hrun|]. split; [|exact Habs].
    vm_compute in Hrun. injection Hrun as <-. vm_compute. reflexivity.
Defined.
