(* ===== verification/HipLower.v ===== *)
(** Lowering of a plan to streams and events
    (src/crates/redline-dispatch/src/hip.rs, [lower_plan]).

    The HIP backend maps every lane to a stream and replaces most cross-lane
    dependencies by what it already knows: a frontier per lane records, for
    every other lane, the latest position known to be complete, and an event
    wait is emitted only for a dependency beyond that frontier. The model keeps
    the vectors of the source as lists, [usize] sums as checked 64-bit
    arithmetic and error texts as their kinds.

    Proved here: lowering a compiled plan succeeds, and stream order together
    with the remaining waits still implies every dependency of the graph; every
    wait names the one slot its source records, earlier and on another lane. *)

From S2P Require Import Prelude Ir Identity Recorder Graph Plan Visibility Bindings.

(** [HipBackendError]; texts that only explain an error are left out. *)
Inductive HipBackendError : Type :=
| MissingHardwareQueueEnvironment (required : nat)
| InvalidHardwareQueueEnvironment
| InsufficientHardwareQueueEnvironment (configured : Z) (required : nat)
| LibraryLoad
| HipSymbol
| Hip (operation : string)
| NullHandle (operation : string)
| InvalidDevice (requested available : Z)
| ReplayAlreadyActive (token : ReplayToken)
| ReplayNotActive (token : ReplayToken)
| BackendPoisoned
| PreparedPlanBackendMismatch
| InvalidCompiledPlan
| BatchSizeOverflow
| ReplayTokenRangeOverflow
| BatchSubmissionPoisoned
| AdapterSubmissionPoisoned
| UnsupportedReplayMode (mode : ReplayMode)
| TooManyLanes (requested available : nat)
| InvalidLane (lane lane_count : nat)
| EmptyKernelKey
| NullKernelFunction
| KernelAlreadyRegistered (key : string)
| KernelNotRegistered (key : string)
| DynamicScalarNotBound (slot : ScalarSlotId)
| InvalidReplayBindings (e : ReplayBindingError)
| NullDevicePointer (resource : ResourceId)
| EmptyDeviceBinding (resource : ResourceId)
| ResourceAlreadyBound (resource : ResourceId)
| DeviceBindingAddressOverflow (resource : ResourceId) (size : Z)
| AliasingResourceBinding (resource other : ResourceId)
| HipResourceNotBound (resource : ResourceId)
| BindingTooSmall (resource : ResourceId) (required bound : Z)
| ResourceArgumentOutOfBounds (resource : ResourceId) (offset bound : Z)
| DeviceAddressOverflow (resource : ResourceId) (offset : Z)
| EmptyScalarArgument (argument_index : nat)
| ArgumentLayout (argument_index : nat)
| ForeignDependencySignal (replay signal : ReplayToken).

Record PreparedHipPlanStats := mkHipStats {
  stat_dispatches : Z;
  cross_lane_signals : Z;
  terminal_lane_tails : Z;
  dispatch_event_slots : Z;
  cross_lane_waits_per_token : Z;
  token_boundary_waits_per_boundary : Z }.

Record LoweredPlan := mkLowered {
  wait_slots_by_dispatch : list (list nat);
  record_slot_by_dispatch : list (option nat);
  lane_head_by_dispatch : list bool;
  terminal_slot_by_lane : list (option nat);
  event_slot_count : nat;
  lowered_stats : PreparedHipPlanStats }.

(** ** The first loop: lanes and positions *)

Record lane_state := mkLaneState {
  dispatch_index_by_node : list (option nat);
  lane_by_node : list (option nat);
  lane_position_by_node : list (option nat);
  next_lane_position : list nat;
  first_dispatch_by_lane : list (option nat);
  last_node_by_lane : list (option NodeId) }.

Definition place_dispatch (dispatch_count lane_count : nat) (s : lane_state)
    (entry : nat * PlannedDispatch) : result HipBackendError lane_state :=
  let '(dispatch_index, dispatch) := entry in
  let node := node_index (planned_node dispatch) in
  let lane := planned_lane dispatch in
  err_if (bool_decide (dispatch_count ≤ node) || bool_decide (lane_count ≤ lane)) InvalidCompiledPlan ;;
  previous ← index (dispatch_index_by_node s) node;
  indices ← store (dispatch_index_by_node s) node (Some dispatch_index);
  err_if (bool_decide (is_Some previous)) InvalidCompiledPlan ;;
  lane_position ← index (next_lane_position s) lane;
  next ← store (next_lane_position s) lane (lane_position + 1);
  lanes ← store (lane_by_node s) node (Some lane);
  positions ← store (lane_position_by_node s) node (Some lane_position);
  first ← index (first_dispatch_by_lane s) lane;
  firsts ← store (first_dispatch_by_lane s) lane (Some (default dispatch_index first));
  lasts ← store (last_node_by_lane s) lane (Some (planned_node dispatch));
  Ok (mkLaneState indices lanes positions next firsts lasts).

Definition initial_lanes (dispatch_count lane_count : nat) : lane_state :=
  mkLaneState (replicate dispatch_count None) (replicate dispatch_count None)
    (replicate dispatch_count None) (replicate lane_count 0) (replicate lane_count None)
    (replicate lane_count None).

(** ** The second loop: frontiers *)

(** [lane_position_by_node[node].expect(..)] *)
Definition position_of (ls : lane_state) (v : NodeId) : result HipBackendError nat :=
  o ← index (lane_position_by_node ls) (node_index v);
  expect o.

(** The dependency loop: the latest dependency of every other lane. *)
Definition latest_dependency (ls : lane_state) (lane : nat) (latest : list (option NodeId))
    (dependency : NodeId) : result HipBackendError (list (option NodeId)) :=
  source_lane ← ok_or InvalidCompiledPlan (mjoin (lane_by_node ls !! node_index dependency));
  if bool_decide (source_lane = lane) then Ok latest else
  dependency_position ← position_of ls dependency;
  current ← index latest source_lane;
  replace ← match current with
            | None => Ok true
            | Some c => current_position ← position_of ls c;
                Ok (bool_decide (current_position < dependency_position))
            end;
  if replace : bool then store latest source_lane (Some dependency) else Ok latest.

(** [Option<usize>] comparison: [None] is below every position. *)
Definition frontier_lt (a b : option nat) : bool :=
  match a, b with
  | None, Some _ => true
  | Some p, Some q => bool_decide (p < q)
  | _, None => false
  end.

(** [for (known, dep) in known.iter_mut().zip(dependency_frontiers)] *)
Fixpoint merge_frontiers (known dependency : list (option nat)) : list (option nat) :=
  match known, dependency with
  | k :: known, d :: dependency =>
      (if frontier_lt k d then d else k) :: merge_frontiers known dependency
  | known, _ => known
  end.

Record frontier_state := mkFrontiers {
  completion_frontiers : list (option (list (option nat)));
  lane_frontiers : list (list (option nat));
  wait_nodes_by_dispatch : list (list NodeId);
  cross_signal_nodes : list NodeId }.

(** The loop over [latest_dependency_by_lane]; the state is the frontier known
    so far, the waits of this dispatch and the signalling nodes. *)
Definition absorb_dependency (ls : lane_state) (completion : list (option (list (option nat))))
    (s : list (option nat) * list NodeId * list NodeId) (entry : nat * option NodeId)
    : result HipBackendError (list (option nat) * list NodeId * list NodeId) :=
  let '(known, waits, cross) := s in
  match entry with
  | (_, None) => Ok s
  | (source_lane, Some dependency) =>
      dependency_position ← position_of ls dependency;
      known_position ← index known source_lane;
      let beyond := match known_position with
                    | Some position => bool_decide (position < dependency_position)
                    | None => true
                    end in
      let waits := if beyond : bool then waits ++ [dependency] else waits in
      let cross := if beyond then bset_insert dependency cross else cross in
      o ← index completion (node_index dependency);
      dependency_frontiers ← ok_or InvalidCompiledPlan o;
      Ok (merge_frontiers known dependency_frontiers, waits, cross)
  end.

(** The body of the second loop. *)
Definition lower_dispatch (ls : lane_state) (lane_count : nat) (s : frontier_state)
    (entry : nat * PlannedDispatch) : result HipBackendError frontier_state :=
  let '(dispatch_index, dispatch) := entry in
  let node := node_index (planned_node dispatch) in
  o ← index (lane_by_node ls) node;
  lane ← expect o;
  known ← index (lane_frontiers s) lane;
  latest ← try_fold (latest_dependency ls lane) (replicate lane_count None) (planned_dependencies dispatch);
  waits ← index (wait_nodes_by_dispatch s) dispatch_index;
  '(known, waits, cross) ← try_fold (absorb_dependency ls (completion_frontiers s))
    (known, waits, cross_signal_nodes s) (enumerate latest);
  waits ← store (wait_nodes_by_dispatch s) dispatch_index waits;
  position ← index (lane_position_by_node ls) node;
  known ← store known lane position;
  frontiers ← store (lane_frontiers s) lane known;
  completion ← store (completion_frontiers s) node (Some known);
  Ok (mkFrontiers completion frontiers waits cross).

(** ** Event slots *)

(** [.collect::<BTreeSet<_>>()] and [extend] *)
Definition extend (s : list NodeId) (vs : list NodeId) : list NodeId :=
  foldl (λ s v, bset_insert v s) s vs.

Definition assign_slot (event_nodes : list NodeId) (s : list (option nat) * nat)
    (dispatch : PlannedDispatch) : result HipBackendError (list (option nat) * nat) :=
  let '(slot_by_node, count) := s in
  if bool_decide (planned_node dispatch ∈ event_nodes) then
    slots ← store slot_by_node (node_index (planned_node dispatch)) (Some count);
    Ok (slots, count + 1)
  else Ok s.

(** [lower_plan] *)
Definition lower_plan (plan : CompiledPlan) : result HipBackendError LoweredPlan :=
  let ds := plan_dispatches plan in
  let dispatch_count := length ds in
  let lane_count := plan_lane_count plan in
  ls ← try_fold (place_dispatch dispatch_count lane_count) (initial_lanes dispatch_count lane_count)
    (enumerate ds);
  fs ← try_fold (lower_dispatch ls lane_count)
    (mkFrontiers (replicate dispatch_count None) (replicate lane_count (replicate lane_count None))
      (replicate dispatch_count []) []) (enumerate ds);
  let terminal_nodes := extend [] (omap id (last_node_by_lane ls)) in
  let event_nodes := extend (cross_signal_nodes fs) terminal_nodes in
  '(slot_by_node, event_slot_count) ← try_fold (assign_slot event_nodes)
    (replicate dispatch_count None, 0) ds;
  wait_slots ← try_map (try_map (λ v, o ← index slot_by_node (node_index v); expect o))
    (wait_nodes_by_dispatch fs);
  record_slots ← try_map (λ d, index slot_by_node (node_index (planned_node d))) ds;
  let lane_heads := (λ i, bool_decide (Some i ∈ first_dispatch_by_lane ls)) <$> seq 0 dispatch_count in
  terminal_slots ← try_map (λ o, match o with
      | Some v => index slot_by_node (node_index v)
      | None => Ok None
      end) (last_node_by_lane ls);
  waits ← ok_or BatchSizeOverflow (foldl (λ total ws, total ≫= λ t, checked_add U64_MAX t (Z.of_nat (length ws)))
    (Some 0%Z) wait_slots);
  let nonempty_lanes := Z.of_nat (length terminal_nodes) in
  boundary_waits ← ok_or BatchSizeOverflow
    (checked_mul U64_MAX nonempty_lanes (saturating_sub nonempty_lanes 1));
  Ok (mkLowered wait_slots record_slots lane_heads terminal_slots event_slot_count
    (mkHipStats (Z.of_nat dispatch_count) (Z.of_nat (length (cross_signal_nodes fs))) nonempty_lanes
      (Z.of_nat event_slot_count) waits boundary_waits)).

(** A loop over [iter.enumerate()]. *)
Lemma enumerate_total {E A S} (I : nat → S → Prop) (f : S → nat * A → result E S) (l : list A) s :
  I 0 s → (∀ k x s, l !! k = Some x → I k s → ∃ s', f s (k, x) = Ok s' ∧ I (Datatypes.S k) s') →
  ∃ s', try_fold f s (enumerate l) = Ok s' ∧ I (length l) s'.
Proof.
  intros H0 Hstep.
  destruct (try_fold_total (λ dn s, I (length dn) s) f (enumerate l) [] s H0) as (s' & Hs & HI).
  - intros dn [k x] rest s1 Heq HI. apply enumerate_split in Heq as [-> Hk].
    rewrite length_app, Nat.add_1_r. by apply Hstep.
  - exists s'. split; [done|]. by rewrite <- length_enumerate.
Qed.

(** ** The specification

    What a plan has to satisfy to be lowered: nodes are numbered within the
    plan, lanes are in range, and dependencies come earlier. *)
Record lowerable (lanes : nat) (ds : list PlannedDispatch) : Prop := {
  lw_once : NoDup ((λ d, node_index (planned_node d)) <$> ds);
  lw_node i d : ds !! i = Some d → node_index (planned_node d) < length ds;
  lw_lane i d : ds !! i = Some d → planned_lane d < lanes;
  lw_deps i d v : ds !! i = Some d → v ∈ planned_dependencies d →
    ∃ j dj, j < i ∧ ds !! j = Some dj ∧ planned_node dj = v }.

Section lower.
Context (lanes : nat) (ds : list PlannedDispatch) (Hds : lowerable lanes ds).
Let n := length ds.
Local Abbreviation idx d := (node_index (planned_node d)).

(** The number of dispatches of a lane among the first [k], which is the
    position the next one gets. *)
Definition lane_load (k l : nat) : nat := length (filter (λ d, planned_lane d = l) (take k ds)).

Lemma lane_load_S k d l : ds !! k = Some d →
  lane_load (S k) l = lane_load k l + (if decide (planned_lane d = l) then 1 else 0).
Proof using Type.
  clear Hds. intros Hk. unfold lane_load. rewrite (take_S_r _ _ _ Hk), filter_app, length_app.
  f_equal. rewrite filter_cons, filter_nil. by case_decide.
Qed.

Lemma lane_load_mono k k' l : k ≤ k' → lane_load k l ≤ lane_load k' l.
Proof using Type.
  clear Hds. intros Hk. induction Hk as [|k' Hk IH]; [done|].
  destruct (ds !! k') as [d|] eqn:Hd.
  - rewrite (lane_load_S k' d l Hd). lia.
  - apply lookup_ge_None in Hd. unfold lane_load in *. rewrite (take_ge ds k') in IH by lia.
    by rewrite (take_ge ds (S k')) by lia.
Qed.

(** Positions grow along a lane. *)
Lemma position_lt i j di dj : ds !! i = Some di → ds !! j = Some dj →
  planned_lane di = planned_lane dj → i < j → lane_load i (planned_lane di) < lane_load j (planned_lane dj).
Proof using Type.
  clear Hds. intros Hi Hj Hl Hij. pose proof (lane_load_mono (S i) j (planned_lane dj) Hij) as Hm.
  rewrite (lane_load_S i di _ Hi), Hl, decide_True in Hm by done. rewrite Hl. lia.
Qed.

Lemma idx_inj i j di dj : ds !! i = Some di → ds !! j = Some dj → idx di = idx dj → i = j.
Proof using Hds.
  intros Hi Hj He. apply (NoDup_lookup _ _ _ (idx dj) (lw_once _ _ Hds)); rewrite list_lookup_fmap.
  - rewrite Hi. cbn. by rewrite He.
  - by rewrite Hj.
Qed.

(** *** After the first loop *)
Record placed (k : nat) (s : lane_state) : Prop := {
  pl_index_len : length (dispatch_index_by_node s) = n;
  pl_lane_len : length (lane_by_node s) = n;
  pl_pos_len : length (lane_position_by_node s) = n;
  pl_next_len : length (next_lane_position s) = lanes;
  pl_first_len : length (first_dispatch_by_lane s) = lanes;
  pl_last_len : length (last_node_by_lane s) = lanes;
  pl_fresh i d : k ≤ i → ds !! i = Some d → dispatch_index_by_node s !! idx d = Some None;
  pl_lane i d : i < k → ds !! i = Some d → lane_by_node s !! idx d = Some (Some (planned_lane d));
  pl_pos i d : i < k → ds !! i = Some d →
    lane_position_by_node s !! idx d = Some (Some (lane_load i (planned_lane d)));
  pl_next l : l < lanes → next_lane_position s !! l = Some (lane_load k l);
  pl_first l f : first_dispatch_by_lane s !! l = Some f →
    match f with
    | Some i => i < k ∧ ∃ d, ds !! i = Some d ∧ planned_lane d = l ∧ lane_load i l = 0
    | None => lane_load k l = 0
    end;
  pl_last l v : last_node_by_lane s !! l = Some v →
    match v with
    | Some v => ∃ i d, i < k ∧ ds !! i = Some d ∧ planned_lane d = l ∧ planned_node d = v ∧
        S (lane_load i l) = lane_load k l
    | None => lane_load k l = 0
    end }.

Lemma store_total {E A} (l : list A) i x : i < length l → store (E := E) l i x = Ok (<[i := x]> l).
Proof using Type. clear. intros Hi. unfold store. by rewrite bool_decide_eq_true_2. Qed.

Lemma index_total {E A} (l : list A) i x : l !! i = Some x → index (E := E) l i = Ok x.
Proof using Type. clear. intros Hi. by apply index_Ok. Qed.

Lemma placed_initial : placed 0 (initial_lanes n lanes).
Proof using Hds.
  assert (∀ l, lane_load 0 l = 0) as H0 by done.
  split; cbn; rewrite ?length_replicate; try done; try (intros; lia).
  - intros i d _ Hi. apply lookup_replicate_2. by eapply (lw_node _ _ Hds).
  - intros l Hl. by apply lookup_replicate_2.
  - by intros l f [-> _]%lookup_replicate.
  - by intros l f [-> _]%lookup_replicate.
Qed.

Lemma place_dispatch_total k d s : ds !! k = Some d → placed k s →
  ∃ s', place_dispatch n lanes s (k, d) = Ok s' ∧ placed (S k) s'.
Proof using Hds.
  intros Hk [Hil Hll Hpl Hnl Hfl Hsl Hfresh Hlane Hpos Hnext Hfirst Hlast].
  pose proof (lw_node _ _ Hds k d Hk) as Hv. pose proof (lw_lane _ _ Hds k d Hk) as Hl.
  unfold place_dispatch. rewrite !bool_decide_eq_false_2 by (unfold n; lia). cbn [orb err_if mbind result_bind].
  rewrite (index_total _ _ _ (Hfresh k d (le_n _) Hk)). cbn [mbind result_bind].
  rewrite !store_total by (unfold n in *; lia). cbn [mbind result_bind].
  rewrite bool_decide_eq_false_2 by (intros [? [=]]). cbn [err_if mbind result_bind].
  rewrite (index_total _ _ _ (Hnext _ Hl)). cbn [mbind result_bind].
  rewrite !store_total by (unfold n in *; lia). cbn [mbind result_bind].
  destruct (lookup_lt_is_Some_2 (first_dispatch_by_lane s) (planned_lane d)) as [f Hf]; [lia|].
  rewrite (index_total _ _ _ Hf). cbn [mbind result_bind].
  rewrite !store_total by (unfold n in *; lia). cbn [mbind result_bind].
  eexists. split; [done|].
  assert (∀ {A} (m : list A) x, length m = n → <[idx d := x]> m !! idx d = Some x) as Hins.
  { intros A m x Hm. apply list_lookup_insert_eq. unfold n in Hm. lia. }
  assert (∀ {A} (m : list A) x, length m = lanes →
    <[planned_lane d := x]> m !! planned_lane d = Some x) as Hinsl.
  { intros A m x Hm. apply list_lookup_insert_eq. lia. }
  split; cbn; rewrite ?length_insert; try done.
  - intros i di Hi Hdi. rewrite list_lookup_insert_ne; [apply (Hfresh i di); [lia|done]|].
    intros He. pose proof (idx_inj k i d di Hk Hdi He). lia.
  - intros i di Hi Hdi. destruct (decide (i = k)) as [->|Hne].
    + replace di with d by congruence. by apply Hins.
    + rewrite list_lookup_insert_ne; [apply (Hlane i di); [lia|done]|].
      intros He. pose proof (idx_inj k i d di Hk Hdi He). lia.
  - intros i di Hi Hdi. destruct (decide (i = k)) as [->|Hne].
    + replace di with d by congruence. by apply Hins.
    + rewrite list_lookup_insert_ne; [apply (Hpos i di); [lia|done]|].
      intros He. pose proof (idx_inj k i d di Hk Hdi He). lia.
  - intros l Hl'. rewrite (lane_load_S k d l Hk). destruct (decide (planned_lane d = l)) as [<-|Hne].
    + by apply Hinsl.
    + rewrite list_lookup_insert_ne by done. rewrite Nat.add_0_r. by apply Hnext.
  - intros l g Hg. rewrite (lane_load_S k d l Hk). destruct (decide (planned_lane d = l)) as [<-|Hne].
    + rewrite Hinsl in Hg by done. injection Hg as <-. specialize (Hfirst _ _ Hf).
      destruct f as [i|]; cbn.
      * destruct Hfirst as [Hi ?]. split; [lia|done].
      * split; [lia|]. by exists d.
    + rewrite list_lookup_insert_ne in Hg by done. specialize (Hfirst _ _ Hg).
      destruct g as [i|]; [destruct Hfirst as [Hi ?]; split; [lia|done]|lia].
  - intros l v Hg. rewrite (lane_load_S k d l Hk). destruct (decide (planned_lane d = l)) as [<-|Hne].
    + rewrite Hinsl in Hg by done. injection Hg as <-. exists k, d.
      split; [lia|]. do 3 (split; [done|]). lia.
    + rewrite list_lookup_insert_ne in Hg by done. specialize (Hlast _ _ Hg).
      destruct v as [v|]; [|lia]. destruct Hlast as (i & di & Hi & H1 & H2 & H3 & H4).
      exists i, di. split; [lia|]. do 3 (split; [done|]). lia.
Qed.

Lemma place_total : ∃ ls, try_fold (place_dispatch n lanes) (initial_lanes n lanes) (enumerate ds) = Ok ls ∧
  placed n ls.
Proof using Hds.
  apply enumerate_total; [apply placed_initial|]. intros k d s Hk Hs. by apply place_dispatch_total.
Qed.

(** *** After the second loop *)

Context (ls : lane_state) (Hls : placed n ls).

Lemma position_of_total i d : ds !! i = Some d →
  position_of ls (planned_node d) = Ok (lane_load i (planned_lane d)).
Proof using Hls.
  intros Hi. unfold position_of. rewrite (index_total _ _ _ (pl_pos _ _ Hls i d (lookup_lt_Some _ _ _ Hi) Hi)).
  done.
Qed.

(** One step of synchronisation: stream order, or a wait. *)
Definition syncs (waits : list (list NodeId)) (i j : nat) : Prop :=
  ∃ di dj, ds !! i = Some di ∧ ds !! j = Some dj ∧ i < j ∧
    (planned_lane di = planned_lane dj ∨ ∃ ws, waits !! j = Some ws ∧ planned_node di ∈ ws).

(** A frontier that everything before the end of [k] justifies: each of its
    positions belongs to a dispatch that synchronises with [k]. *)
Definition justified (waits : list (list NodeId)) (k : nat) (F : list (option nat)) : Prop :=
  length F = lanes ∧ ∀ m q, F !! m = Some (Some q) →
    ∃ j dj, ds !! j = Some dj ∧ planned_lane dj = m ∧ lane_load j m = q ∧ rtc (syncs waits) j k.

Lemma syncs_mono W W' i j : (∀ ws, W !! j = Some ws → ∃ ws', W' !! j = Some ws' ∧ ws ⊆ ws') →
  syncs W i j → syncs W' i j.
Proof using Type.
  clear Hds Hls. intros HW (di & dj & Hi & Hj & Hij & H). exists di, dj. do 3 (split; [done|]).
  destruct H as [?|(ws & Hws & Hin)]; [by left|]. right. destruct (HW ws Hws) as (ws' & ? & Hs). eauto.
Qed.

(** A later position of the same lane synchronises with an earlier one. *)
Lemma position_sync W i j di dj : ds !! i = Some di → ds !! j = Some dj → planned_lane di = planned_lane dj →
  lane_load i (planned_lane di) ≤ lane_load j (planned_lane dj) → rtc (syncs W) i j.
Proof using Type.
  clear Hds Hls. intros Hi Hj Hl Hle. destruct (Nat.lt_trichotomy i j) as [Hlt|[->|Hlt]]; [|done|].
  - apply rtc_once. exists di, dj. do 3 (split; [done|]). by left.
  - pose proof (position_lt j i dj di Hj Hi (eq_sym Hl) Hlt). lia.
Qed.

Lemma merge_lookup F G m q : length F = length G →
  merge_frontiers F G !! m = Some (Some q) → F !! m = Some (Some q) ∨ G !! m = Some (Some q).
Proof using Type.
  clear. revert G m. induction F as [|f F IH]; intros [|g G] m Hl H; try done.
  destruct m as [|m]; cbn in *; [|apply IH; [lia|done]].
  destruct (frontier_lt f g); auto.
Qed.

Lemma length_merge F G : length (merge_frontiers F G) = length F.
Proof using Type. clear. revert G. induction F as [|f F IH]; intros [|g G]; cbn; auto. Qed.

(** The dependency loop keeps, per other lane, the dependency of greatest
    position among those seen. *)
Record latest_ok (lane : nat) (seen : list NodeId) (latest : list (option NodeId)) : Prop := {
  lt_len : length latest = lanes;
  lt_in l v : latest !! l = Some (Some v) → v ∈ seen ∧
    ∃ i d, ds !! i = Some d ∧ planned_node d = v ∧ planned_lane d = l ∧ l ≠ lane;
  lt_max v i d : v ∈ seen → ds !! i = Some d → planned_node d = v → planned_lane d ≠ lane →
    ∃ j dj, latest !! planned_lane d = Some (Some (planned_node dj)) ∧ ds !! j = Some dj ∧
      planned_lane dj = planned_lane d ∧
      lane_load i (planned_lane d) ≤ lane_load j (planned_lane dj) }.

Lemma node_inj i j di dj : ds !! i = Some di → ds !! j = Some dj → planned_node di = planned_node dj → i = j.
Proof using Hds. intros Hi Hj He. apply (idx_inj i j di dj); [done..|]. by rewrite He. Qed.

Lemma latest_step lane seen latest i d : ds !! i = Some d → latest_ok lane seen latest →
  ∃ latest', latest_dependency ls lane latest (planned_node d) = Ok latest' ∧
    latest_ok lane (seen ++ [planned_node d]) latest'.
Proof using Hds Hls.
  intros Hi [Hlen Hin Hmax]. pose proof (lookup_lt_Some _ _ _ Hi) as Hn.
  pose proof (lw_lane _ _ Hds i d Hi) as Hl.
  unfold latest_dependency. rewrite (pl_lane _ _ Hls i d Hn Hi). cbn [mjoin option_join ok_or mbind result_bind].
  assert (∀ {P : Prop} v, (v ∈ seen → P) → (v = planned_node d → P) → v ∈ seen ++ [planned_node d] → P) as Hcase.
  { intros P v H1 H2 [?|?%list_elem_of_singleton]%elem_of_app; auto. }
  case_bool_decide as Hsame.
  { exists latest. split; [done|]. split; [done| |].
    - intros l v H. destruct (Hin l v H) as [? ?]. split; [set_solver|done].
    - intros v j dj Hv Hj Hnode Hne. revert Hv. apply Hcase; intros Hv; [by eapply Hmax|].
      assert (j = i) as -> by (apply (node_inj j i dj d); congruence). congruence. }
  rewrite (position_of_total i d Hi). cbn [mbind result_bind].
  destruct (lookup_lt_is_Some_2 latest (planned_lane d)) as [cur Hcur]; [lia|].
  rewrite (index_total _ _ _ Hcur). cbn [mbind result_bind].
  assert (∃ b : bool, match cur with
            | None => Ok true
            | Some c => current_position ← position_of ls c;
                Ok (bool_decide (current_position < lane_load i (planned_lane d)))
            end = Ok (E := HipBackendError) b ∧
    (b = false → ∃ j dj, cur = Some (planned_node dj) ∧ ds !! j = Some dj ∧ planned_lane dj = planned_lane d ∧
       lane_load i (planned_lane d) ≤ lane_load j (planned_lane dj)) ∧
    (b = true → ∀ j dj, cur = Some (planned_node dj) → ds !! j = Some dj →
       lane_load j (planned_lane dj) ≤ lane_load i (planned_lane d))) as (b & Hb & Hf & Ht).
  { destruct cur as [c|]; [|by exists true].
    destruct (Hin _ _ Hcur) as [_ (j & dj & Hj & <- & Hlj & _)]. rewrite (position_of_total j dj Hj).
    cbn [mbind result_bind]. eexists. split; [done|]. split.
    - intros ?%bool_decide_eq_false. exists j, dj. do 3 (split; [done|]). lia.
    - intros Hlt%bool_decide_eq_true j' dj' [= He] Hj'.
      assert (j = j') as <- by (apply (node_inj j j' dj dj'); congruence).
      replace dj' with dj by congruence. lia. }
  rewrite Hb. cbn [mbind result_bind]. destruct b.
  - rewrite store_total by lia. eexists. split; [done|]. split; [by rewrite length_insert| |].
    + intros l v H. destruct (decide (l = planned_lane d)) as [->|Hne].
      * rewrite list_lookup_insert_eq in H by lia. injection H as <-. split; [set_solver|]. by exists i, d.
      * rewrite list_lookup_insert_ne in H by done. destruct (Hin l v H) as [? ?]. split; [set_solver|done].
    + intros v j dj Hv Hj Hnode Hne.
      destruct (decide (planned_lane dj = planned_lane d)) as [He|Hd].
      * exists i, d. rewrite He, list_lookup_insert_eq by lia. do 3 (split; [done|]).
        revert Hv. apply Hcase; intros Hv.
        -- destruct (Hmax v j dj Hv Hj Hnode Hne) as (k & dk & Hk & Hdk & Hlk & Hle).
           rewrite He, Hcur in Hk. injection Hk as Hk. pose proof (Ht eq_refl k dk Hk Hdk). rewrite He in Hle. lia.
        -- assert (j = i) as -> by (apply (node_inj j i dj d); congruence). done.
      * revert Hv. apply Hcase; intros Hv.
        -- destruct (Hmax v j dj Hv Hj Hnode Hne) as (k & dk & ?). exists k, dk.
           by rewrite list_lookup_insert_ne.
        -- assert (j = i) as -> by (apply (node_inj j i dj d); congruence). congruence.
  - exists latest. split; [done|]. split; [done| |].
    + intros l v H. destruct (Hin l v H) as [? ?]. split; [set_solver|done].
    + intros v j dj Hv Hj Hnode Hne. revert Hv. apply Hcase; intros Hv; [by eapply Hmax|].
      assert (j = i) as -> by (apply (node_inj j i dj d); congruence).
      replace dj with d by congruence. destruct (Hf eq_refl) as (k & dk & -> & ? & ? & ?). by exists k, dk.
Qed.

Lemma latest_total lane deps :
  (∀ v, v ∈ deps → ∃ i d, ds !! i = Some d ∧ planned_node d = v) →
  ∃ latest, try_fold (latest_dependency ls lane) (replicate lanes None) deps = Ok latest ∧
    latest_ok lane deps latest.
Proof using Hds Hls.
  intros Hdeps. apply (try_fold_total (latest_ok lane) _ deps []).
  - split; [by rewrite length_replicate| |].
    + by intros l v [? ?]%lookup_replicate.
    + by intros v i d Hv%not_elem_of_nil.
  - intros dn v rest s Heq Hs. destruct (Hdeps v) as (i & d & Hi & <-).
    { cbn in Heq. rewrite Heq. set_solver. }
    by apply (latest_step lane dn s i d).
Qed.

(** Waits only grow. *)
Definition grows (W W' : list (list NodeId)) : Prop :=
  ∀ j ws, W !! j = Some ws → ∃ ws', W' !! j = Some ws' ∧ ws ⊆ ws'.

Lemma rtc_syncs_mono W W' i j : grows W W' → rtc (syncs W) i j → rtc (syncs W') i j.
Proof using Type. clear Hds Hls. intros HW. apply rtc_subrel. intros x y. apply syncs_mono. apply HW. Qed.

Lemma justified_mono W W' k F : grows W W' → justified W k F → justified W' k F.
Proof using Type.
  clear Hds Hls. intros HW [Hl HF]. split; [done|]. intros m q H.
  destruct (HF m q H) as (j & dj & ? & ? & ? & ?). exists j, dj. eauto using rtc_syncs_mono.
Qed.

Lemma justified_after W i k F : rtc (syncs W) i k → justified W i F → justified W k F.
Proof using Type.
  clear Hds Hls. intros Hik [Hl HF]. split; [done|]. intros m q H.
  destruct (HF m q H) as (j & dj & ? & ? & ? & ?). exists j, dj. do 3 (split; [done|]). by etrans.
Qed.

Lemma justified_merge W k F G : justified W k F → justified W k G → justified W k (merge_frontiers F G).
Proof using Type.
  clear Hds Hls. intros [Hl HF] [Hl' HG]. split; [by rewrite length_merge|]. intros m q H.
  apply merge_lookup in H as [H|H]; [by apply HF|by apply HG|congruence].
Qed.

Section absorb.
Context (k : nat) (dk : PlannedDispatch) (Hk : ds !! k = Some dk).
Context (W0 : list (list NodeId)) (HW0 : k < length W0) (HW0k : W0 !! k = Some []).
Context (completion : list (option (list (option nat)))).
Context (Hcomp : ∀ i d, i < k → ds !! i = Some d →
  ∃ F, completion !! idx d = Some (Some F) ∧ justified W0 i F).
Context (latest : list (option NodeId)) (cross0 : list NodeId).
Context (Hlatest : latest_ok (planned_lane dk) (planned_dependencies dk) latest).

Record absorbed (m : nat) (s : list (option nat) * list NodeId * list NodeId) : Prop := {
  ab_known : justified (<[k := s.1.2]> W0) k s.1.1;
  ab_done l v : l < m → latest !! l = Some (Some v) →
    ∃ j dj, ds !! j = Some dj ∧ planned_node dj = v ∧ rtc (syncs (<[k := s.1.2]> W0)) j k;
  ab_waits v : v ∈ s.1.2 → ∃ l, l < m ∧ latest !! l = Some (Some v);
  ab_len : length s.1.2 ≤ m;
  ab_cross v : v ∈ s.2 ↔ v ∈ cross0 ∨ v ∈ s.1.2 }.

Lemma grows_insert (ws ws' : list NodeId) : ws ⊆ ws' → grows (<[k := ws]> W0) (<[k := ws']> W0).
Proof using HW0.
  intros Hs j x Hj. destruct (decide (j = k)) as [->|Hne].
  - rewrite list_lookup_insert_eq in Hj by done. injection Hj as <-. exists ws'.
    by rewrite list_lookup_insert_eq.
  - rewrite list_lookup_insert_ne in * by done. by exists x.
Qed.

Lemma grows_start (ws : list NodeId) : grows W0 (<[k := ws]> W0).
Proof using HW0 HW0k.
  intros j x Hj. destruct (decide (j = k)) as [->|Hne].
  - exists ws. rewrite list_lookup_insert_eq by done. split; [done|].
    rewrite HW0k in Hj. injection Hj as <-. apply list_subseteq_nil.
  - rewrite list_lookup_insert_ne by done. by exists x.
Qed.

Lemma absorb_step m entry s : latest !! m = Some entry → absorbed m s →
  ∃ s', absorb_dependency ls completion s (m, entry) = Ok s' ∧ absorbed (S m) s'.
Proof using Hds Hls Hk HW0 HW0k Hcomp Hlatest.
  intros Hm [Hkn Hdone Hw Hlen Hcr]. destruct s as [[known w] cross]. cbn [fst snd] in *.
  destruct entry as [v|]; cbn [absorb_dependency].
  2:{ eexists. split; [done|]. split; cbn [fst snd]; try done; try lia.
      - intros l v Hl H. apply (Hdone l v); [|done]. assert (l ≠ m) by congruence. lia.
      - intros v Hv. destruct (Hw v Hv) as (l & ? & ?). exists l. split; [lia|done]. }
  destruct (lt_in _ _ _ Hlatest m v Hm) as (Hdep & i & d & Hi & <- & Hlane & Hother).
  assert (i < k) as Hik.
  { destruct (lw_deps _ _ Hds k dk _ Hk Hdep) as (j & dj & Hj & Hdj & He).
    by rewrite (node_inj i j d dj Hi Hdj (eq_sym He)). }
  rewrite (position_of_total i d Hi). cbn [mbind result_bind].
  destruct Hkn as [Hknl HknF] eqn:E. clear E.
  destruct (lookup_lt_is_Some_2 known m) as [kp Hkp].
  { rewrite Hknl, <- Hlane. by eapply (lw_lane _ _ Hds). }
  rewrite (index_total _ _ _ Hkp). cbn [mbind result_bind].
  destruct (Hcomp i d Hik Hi) as (F & HF & HFj). rewrite (index_total _ _ _ HF). cbn [mbind result_bind ok_or].
  set (beyond := match kp with Some _ => _ | None => _ end).
  set (w' := if beyond then _ else w). set (cross' := if beyond then _ else cross).
  eexists. split; [done|].
  assert (w ⊆ w') as Hww by (unfold w'; destruct beyond; set_solver).
  pose proof (grows_insert w w' Hww) as Hg.
  assert (rtc (syncs (<[k := w']> W0)) i k) as Hsync.
  { unfold w', beyond in *. clear w' Hww Hg. destruct kp as [q|].
    2:{ apply rtc_once. exists d, dk. do 3 (split; [done|]). right. eexists.
        split; [by apply list_lookup_insert_eq|set_solver]. }
    case_bool_decide as Hq.
    { apply rtc_once. exists d, dk. do 3 (split; [done|]). right. eexists.
        split; [by apply list_lookup_insert_eq|set_solver]. }
    destruct (HknF m q Hkp) as (j & dj & Hj & Hlj & Hq' & Hjk). transitivity j; [|done].
    apply (position_sync _ i j d dj); [done..|congruence|]. rewrite Hlane in *. rewrite Hlj. lia. }
  split; cbn [fst snd].
  - apply justified_merge; [by apply (justified_mono _ _ k known Hg)|].
    apply (justified_after _ i k F Hsync). by apply (justified_mono W0 _ i F (grows_start w')).
  - intros l v Hl H. destruct (decide (l = m)) as [->|Hne].
    + exists i, d. split; [done|]. split; [congruence|done].
    + destruct (Hdone l v) as (j & dj & ? & ? & ?); [lia|done|]. exists j, dj. eauto using rtc_syncs_mono.
  - intros v Hv. assert (v ∈ w ∨ v = planned_node d) as [Hv'| ->].
    { unfold w' in Hv. destruct beyond; set_solver. }
    + destruct (Hw v Hv') as (l & ? & ?). exists l. split; [lia|done].
    + exists m. split; [lia|done].
  - unfold w'. destruct beyond; [rewrite length_app; cbn; lia|lia].
  - intros v. unfold cross', w'. destruct beyond; [|by apply Hcr].
    rewrite elem_of_bset_insert, Hcr. set_solver.
Qed.
End absorb.

Record frontier_ok (k : nat) (s : frontier_state) : Prop := {
  fo_comp_len : length (completion_frontiers s) = n;
  fo_lane_len : length (lane_frontiers s) = lanes;
  fo_wait_len : length (wait_nodes_by_dispatch s) = n;
  fo_comp i d : i < k → ds !! i = Some d → ∃ F, completion_frontiers s !! idx d = Some (Some F) ∧
    justified (wait_nodes_by_dispatch s) i F;
  fo_lane l F : lane_frontiers s !! l = Some F → F = replicate lanes None ∨
    ∃ w dw, w < k ∧ ds !! w = Some dw ∧ planned_lane dw = l ∧ justified (wait_nodes_by_dispatch s) w F;
  fo_deps i d j dj : i < k → ds !! i = Some d → ds !! j = Some dj → planned_node dj ∈ planned_dependencies d →
    rtc (syncs (wait_nodes_by_dispatch s)) j i;
  fo_waits i d ws v : i < k → ds !! i = Some d → wait_nodes_by_dispatch s !! i = Some ws → v ∈ ws →
    v ∈ planned_dependencies d ∧ v ∈ cross_signal_nodes s ∧
    ∃ j dj, ds !! j = Some dj ∧ planned_node dj = v ∧ planned_lane dj ≠ planned_lane d;
  fo_few i ws : wait_nodes_by_dispatch s !! i = Some ws → length ws ≤ lanes;
  fo_fresh i : k ≤ i → i < n → wait_nodes_by_dispatch s !! i = Some [];
  fo_cross v : v ∈ cross_signal_nodes s → ∃ i ws, wait_nodes_by_dispatch s !! i = Some ws ∧ v ∈ ws }.

Lemma justified_none W k : justified W k (replicate lanes None).
Proof using Type. clear Hds Hls. split; [by rewrite length_replicate|]. by intros m q [? _]%lookup_replicate. Qed.

(** Recording a dispatch's own position. *)
Lemma justified_own W k d F : ds !! k = Some d → justified W k F →
  justified W k (<[planned_lane d := Some (lane_load k (planned_lane d))]> F).
Proof using Type.
  clear Hds Hls. intros Hk [Hl HF]. split; [by rewrite length_insert|]. intros m q H.
  apply list_lookup_insert_Some in H as [(<- & [= <-] & _)|[_ H]]; [|by apply HF].
  exists k, d. done.
Qed.

(** What one dispatch contributes. *)
Lemma absorb_total k d s : ds !! k = Some d → frontier_ok k s →
  ∃ F latest known w cross, lane_frontiers s !! planned_lane d = Some F ∧
    try_fold (latest_dependency ls (planned_lane d)) (replicate lanes None) (planned_dependencies d) =
      Ok latest ∧ latest_ok (planned_lane d) (planned_dependencies d) latest ∧
    try_fold (absorb_dependency ls (completion_frontiers s)) (F, [], cross_signal_nodes s) (enumerate latest) =
      Ok (known, w, cross) ∧
    absorbed k (wait_nodes_by_dispatch s) latest (cross_signal_nodes s) lanes (known, w, cross).
Proof using Hds Hls.
  intros Hk [Hcl Hll Hwl Hcomp Hlane Hdeps Hwaits Hfew Hfresh Hcross].
  pose proof (lookup_lt_Some _ _ _ Hk) as Hn. pose proof (lw_lane _ _ Hds k d Hk) as Hl.
  destruct (lookup_lt_is_Some_2 (lane_frontiers s) (planned_lane d)) as [F HF]; [lia|].
  destruct (latest_total (planned_lane d) (planned_dependencies d)) as (latest & Hlat & Hlok).
  { intros v Hv. destruct (lw_deps _ _ Hds k d v Hk Hv) as (i & di & _ & ? & ?). by exists i, di. }
  assert (wait_nodes_by_dispatch s !! k = Some []) as Hnil by (apply Hfresh; [done|unfold n; lia]).
  assert (k < length (wait_nodes_by_dispatch s)) as Hkw by (rewrite Hwl; unfold n; lia).
  destruct (enumerate_total (absorbed k (wait_nodes_by_dispatch s) latest (cross_signal_nodes s))
    (absorb_dependency ls (completion_frontiers s)) latest (F, [], cross_signal_nodes s))
    as ([[known w] cross] & Hs & Hab).
  - split; cbn [fst snd]; [|lia|by intros v ?%not_elem_of_nil|done|set_solver].
    rewrite list_insert_id by done. destruct (Hlane _ _ HF) as [->|(w & dw & Hw & Hdw & Hlw & Hj)].
    + apply justified_none.
    + apply (justified_after _ w k); [|done]. apply rtc_once. exists dw, d. do 3 (split; [done|]). by left.
  - intros m entry s1 Hm Hs1. by eapply absorb_step.
  - exists F, latest, known, w, cross. rewrite (lt_len _ _ _ Hlok) in Hab. done.
Qed.

(** The new frontiers keep the invariant. *)
Lemma frontier_step k d s F latest known w cross :
  ds !! k = Some d → frontier_ok k s → lane_frontiers s !! planned_lane d = Some F →
  latest_ok (planned_lane d) (planned_dependencies d) latest →
  absorbed k (wait_nodes_by_dispatch s) latest (cross_signal_nodes s) lanes (known, w, cross) →
  let known' := <[planned_lane d := Some (lane_load k (planned_lane d))]> known in
  frontier_ok (S k) (mkFrontiers (<[idx d := Some known']> (completion_frontiers s))
    (<[planned_lane d := known']> (lane_frontiers s)) (<[k := w]> (wait_nodes_by_dispatch s)) cross).
Proof using Hds.
  intros Hk [Hcl Hll Hwl Hcomp Hlane Hdeps Hwaits Hfew Hfresh Hcross] HF Hlok [Hkn Hdone Hw Hlen Hcr] known'.
  cbn [fst snd] in *. pose proof (lookup_lt_Some _ _ _ Hk) as Hn.
  assert (k < length (wait_nodes_by_dispatch s)) as Hkw by (rewrite Hwl; unfold n; lia).
  assert (grows (wait_nodes_by_dispatch s) (<[k := w]> (wait_nodes_by_dispatch s))) as Hg.
  { apply grows_start; [done|]. apply Hfresh; [done|unfold n; lia]. }
  pose proof (justified_own _ k d known Hk Hkn) as Hown. fold known' in Hown.
  split; cbn [completion_frontiers lane_frontiers wait_nodes_by_dispatch cross_signal_nodes];
    rewrite ?length_insert; try done.
  - intros i di Hi Hdi. destruct (decide (i = k)) as [->|Hne].
    + replace di with d by congruence. exists known'. split; [|done].
      apply list_lookup_insert_eq. rewrite Hcl. unfold n. by eapply (lw_node _ _ Hds).
    + destruct (Hcomp i di) as (G & HG & HGj); [lia|done|]. exists G. split; [|by eapply justified_mono].
      rewrite list_lookup_insert_ne; [done|]. intros He. by apply Hne, (idx_inj i k di d).
  - intros l G HG. apply list_lookup_insert_Some in HG as [(<- & <- & _)|[Hne HG]].
    + right. exists k, d. by repeat (split; [lia || done|]).
    + destruct (Hlane l G HG) as [->|(x & dx & ? & ? & ? & ?)]; [by left|]. right. exists x, dx.
      split; [lia|]. do 2 (split; [done|]). by eapply justified_mono.
  - intros i di j dj Hi Hdi Hdj Hin. destruct (decide (i = k)) as [->|Hne].
    + replace di with d in * by congruence.
      destruct (lw_deps _ _ Hds k d _ Hk Hin) as (j' & dj' & Hj' & Hdj' & He).
      assert (j' = j) as -> by by apply (node_inj j' j dj' dj).
      destruct (decide (planned_lane dj = planned_lane d)) as [Hs|Hd].
      * apply rtc_once. exists dj, d. do 3 (split; [done|]). by left.
      * destruct (lt_max _ _ _ Hlok (planned_node dj) j dj) as (x & dx & Hx & Hdx & Hlx & Hle); [done..|].
        destruct (Hdone (planned_lane dj) (planned_node dx)) as (y & dy & Hdy & Hy & Hsync).
        { by eapply (lw_lane _ _ Hds). }
        { done. }
        assert (y = x) as -> by by apply (node_inj y x dy dx).
        transitivity x; [|done]. by apply (position_sync _ j x dj dx).
    + eapply rtc_syncs_mono; [exact Hg|]. apply (Hdeps i di j dj); [lia|done..].
  - intros i di ws v Hi Hdi Hws Hv. apply list_lookup_insert_Some in Hws as [(<- & <- & _)|[Hne Hws]].
    + replace di with d in * by congruence. destruct (Hw v Hv) as (l & _ & Hl).
      destruct (lt_in _ _ _ Hlok l v Hl) as (Hd & x & dx & ? & ? & ? & ?). split; [done|].
      split; [apply Hcr; by right|]. exists x, dx. by rewrite H1.
    + destruct (Hwaits i di ws v) as (H1 & H2 & H3); [lia|done..|]. split; [done|]. split; [|done].
      apply Hcr. by left.
  - intros i ws Hws. apply list_lookup_insert_Some in Hws as [(<- & <- & _)|[Hne Hws]]; [done|by eapply Hfew].
  - intros i Hi Hin. rewrite list_lookup_insert_ne by lia. apply Hfresh; [lia|done].
  - intros v [Hv|Hv]%Hcr.
    + destruct (Hcross v Hv) as (i & ws & Hws & Hin). destruct (Hg i ws Hws) as (ws' & ? & Hs).
      exists i, ws'. auto.
    + exists k, w. split; [by apply list_lookup_insert_eq|done].
Qed.

Lemma lower_dispatch_total k d s : ds !! k = Some d → frontier_ok k s →
  ∃ s', lower_dispatch ls lanes s (k, d) = Ok s' ∧ frontier_ok (S k) s'.
Proof using Hds Hls.
  intros Hk Hs. destruct (absorb_total k d s Hk Hs) as (F & latest & known & w & cross & HF & Hlat & Hlok & Hab & Hok).
  pose proof (lookup_lt_Some _ _ _ Hk) as Hn. pose proof (lw_lane _ _ Hds k d Hk) as Hl.
  pose proof (lw_node _ _ Hds k d Hk) as Hv.
  unfold lower_dispatch. rewrite (index_total _ _ _ (pl_lane _ _ Hls k d Hn Hk)). cbn [mbind result_bind expect].
  rewrite (index_total _ _ _ HF). cbn [mbind result_bind]. rewrite Hlat. cbn [mbind result_bind].
  rewrite (index_total _ _ _ (fo_fresh _ _ Hs k (le_n _) Hn)). cbn [mbind result_bind].
  rewrite Hab. cbn [mbind result_bind].
  rewrite store_total by (rewrite (fo_wait_len _ _ Hs); unfold n; lia). cbn [mbind result_bind].
  rewrite (index_total _ _ _ (pl_pos _ _ Hls k d Hn Hk)). cbn [mbind result_bind].
  assert (length known = lanes) as Hkl by apply (ab_known _ _ _ _ _ _ Hok).
  rewrite store_total by (rewrite Hkl; done). cbn [mbind result_bind].
  rewrite !store_total by (rewrite ?(fo_lane_len _ _ Hs), ?(fo_comp_len _ _ Hs); done). cbn [mbind result_bind].
  eexists. split; [done|]. by apply (frontier_step k d s F latest).
Qed.

Lemma lower_total : ∃ fs, try_fold (lower_dispatch ls lanes)
    (mkFrontiers (replicate n None) (replicate lanes (replicate lanes None)) (replicate n []) [])
    (enumerate ds) = Ok fs ∧ frontier_ok n fs.
Proof using Hds Hls.
  apply enumerate_total; [|intros k d s Hk Hs; by apply lower_dispatch_total].
  split; cbn; rewrite ?length_replicate; try done; try (intros; lia).
  - intros l F [-> _]%lookup_replicate. by left.
  - intros i ws [-> _]%lookup_replicate. cbn. lia.
  - intros i _ Hi. by apply lookup_replicate_2.
  - by intros v ?%not_elem_of_nil.
Qed.

(** *** Slots *)

Context (events : list NodeId).

(** The number of signalling dispatches among the first [k]. *)
Definition event_load (k : nat) : nat := length (filter (λ d, planned_node d ∈ events) (take k ds)).

Definition slot_at (i : nat) (d : PlannedDispatch) : option nat :=
  if decide (planned_node d ∈ events) then Some (event_load i) else None.

Lemma event_load_S k d : ds !! k = Some d →
  event_load (S k) = event_load k + (if decide (planned_node d ∈ events) then 1 else 0).
Proof using Type.
  clear Hds Hls. intros Hk. unfold event_load. rewrite (take_S_r _ _ _ Hk), filter_app, length_app.
  f_equal. rewrite filter_cons, filter_nil. by case_decide.
Qed.

Lemma event_load_mono k k' : k ≤ k' → event_load k ≤ event_load k'.
Proof using Type.
  clear Hds Hls. intros Hk. induction Hk as [|k' Hk IH]; [done|].
  destruct (ds !! k') as [d|] eqn:Hd; [rewrite (event_load_S k' d Hd); lia|].
  apply lookup_ge_None in Hd. unfold event_load in *. rewrite (take_ge ds k') in IH by lia.
  by rewrite (take_ge ds (S k')) by lia.
Qed.

(** Distinct dispatches get distinct slots. *)
Lemma slot_at_lt i j di dj s : ds !! i = Some di → i < j → slot_at i di = Some s → slot_at j dj ≠ Some s ∧ s < event_load j.
Proof using Type.
  clear Hds Hls. intros Hi Hij Hs. unfold slot_at in *. pose proof (event_load_mono (S i) j Hij) as Hm.
  rewrite (event_load_S i di Hi) in Hm. case_decide; [|done]. injection Hs as <-.
  split; [|lia]. case_decide; [intros [= ?]; lia|done].
Qed.

Lemma assign_total : ∃ slots, try_fold (assign_slot events) (replicate n None, 0) ds = Ok (slots, event_load n) ∧
  length slots = n ∧ ∀ i d, ds !! i = Some d → slots !! idx d = Some (slot_at i d).
Proof using Hds.
  destruct (try_fold_total (λ dn s, length s.1 = n ∧ s.2 = event_load (length dn) ∧
    (∀ i d, ds !! i = Some d → s.1 !! idx d = Some (if decide (i < length dn) then slot_at i d else None)))
    (assign_slot events) ds [] (replicate n None, 0)) as ([slots c] & Hs & Hl & Hc & Hlook); cbn [fst snd] in *.
  - split; [by rewrite length_replicate|]. split; [done|]. intros i d Hi.
    apply lookup_replicate_2. by eapply (lw_node _ _ Hds).
  - intros dn d rest [slots c] Heq (Hl & Hc & Hlook). cbn [fst snd] in *. cbn in Heq. subst c.
    assert (ds !! length dn = Some d) as Hk by (rewrite Heq; by apply list_lookup_middle).
    pose proof (event_load_S _ d Hk) as Hload. rewrite length_app, Nat.add_1_r. unfold assign_slot.
    case_bool_decide as Hev; [rewrite decide_True in Hload by done|rewrite decide_False in Hload by done].
    + rewrite store_total by (rewrite Hl; by eapply (lw_node _ _ Hds)). cbn [mbind result_bind].
      eexists. split; [done|]. cbn [fst snd]. split; [by rewrite length_insert|]. split; [lia|].
      intros i di Hi. destruct (decide (i = length dn)) as [->|Hne].
      * replace di with d by congruence.
        rewrite list_lookup_insert_eq by (rewrite Hl; by eapply (lw_node _ _ Hds)).
        rewrite decide_True by lia. unfold slot_at. by rewrite decide_True.
      * rewrite list_lookup_insert_ne by (intros He; apply Hne; by apply (idx_inj i (length dn) di d)).
        rewrite (Hlook i di Hi). do 2 case_decide; try done; lia.
    + eexists. split; [done|]. cbn [fst snd]. split; [done|]. split; [lia|].
      intros i di Hi. rewrite (Hlook i di Hi). destruct (decide (i = length dn)) as [->|Hne].
      * replace di with d by congruence. rewrite decide_False, decide_True by lia.
        unfold slot_at. by rewrite decide_False.
      * do 2 case_decide; try done; lia.
  - exists slots. rewrite Hs, Hc. split; [done|]. split; [done|]. intros i d Hi. rewrite (Hlook i d Hi).
    rewrite decide_True; [done|]. by eapply lookup_lt_Some.
Qed.
End lower.

(** ** What the lowered plan guarantees *)

(** Synchronisation as the streams see it: order of a stream, or a wait on the
    slot the other dispatch records. *)
Definition slot_syncs (ds : list PlannedDispatch) (low : LoweredPlan) (i j : nat) : Prop :=
  ∃ di dj, ds !! i = Some di ∧ ds !! j = Some dj ∧ i < j ∧
    (planned_lane di = planned_lane dj ∨
     ∃ s ws, record_slot_by_dispatch low !! i = Some (Some s) ∧
       wait_slots_by_dispatch low !! j = Some ws ∧ s ∈ ws).

Definition total_waits (wss : list (list nat)) : Z := foldr (λ ws t, (Z.of_nat (length ws) + t)%Z) 0%Z wss.

Record lowered_ok (lanes : nat) (ds : list PlannedDispatch) (low : LoweredPlan) : Prop := {
  lo_wait_len : length (wait_slots_by_dispatch low) = length ds;
  lo_record_len : length (record_slot_by_dispatch low) = length ds;
  lo_head_len : length (lane_head_by_dispatch low) = length ds;
  lo_term_len : length (terminal_slot_by_lane low) = lanes;
  lo_slot i s : record_slot_by_dispatch low !! i = Some (Some s) → s < event_slot_count low;
  lo_once i j s : record_slot_by_dispatch low !! i = Some (Some s) →
    record_slot_by_dispatch low !! j = Some (Some s) → i = j;
  lo_wait j dj ws s : ds !! j = Some dj → wait_slots_by_dispatch low !! j = Some ws → s ∈ ws →
    ∃ i di, i < j ∧ ds !! i = Some di ∧ planned_lane di ≠ planned_lane dj ∧
      planned_node di ∈ planned_dependencies dj ∧ record_slot_by_dispatch low !! i = Some (Some s);
  lo_few j ws : wait_slots_by_dispatch low !! j = Some ws → length ws ≤ lanes;
  lo_head i d b : ds !! i = Some d → lane_head_by_dispatch low !! i = Some b →
    (b = true ↔ ∀ j dj, j < i → ds !! j = Some dj → planned_lane dj ≠ planned_lane d);
  lo_term l o : terminal_slot_by_lane low !! l = Some o →
    match o with
    | Some s => ∃ i d, ds !! i = Some d ∧ planned_lane d = l ∧
        record_slot_by_dispatch low !! i = Some (Some s) ∧
        ∀ j dj, ds !! j = Some dj → planned_lane dj = l → j ≤ i
    | None => ∀ j dj, ds !! j = Some dj → planned_lane dj ≠ l
    end;
  lo_deps i j di dj : ds !! i = Some di → ds !! j = Some dj →
    planned_node di ∈ planned_dependencies dj → rtc (slot_syncs ds low) i j;
  lo_events : event_slot_count low = length (omap id (record_slot_by_dispatch low));
  lo_stats : lowered_stats low = mkHipStats (Z.of_nat (length ds)) (cross_lane_signals (lowered_stats low))
    (Z.of_nat (length (omap id (terminal_slot_by_lane low)))) (Z.of_nat (event_slot_count low))
    (total_waits (wait_slots_by_dispatch low))
    (let l := Z.of_nat (length (omap id (terminal_slot_by_lane low))) in l * Z.max 0 (l - 1))%Z }.

Lemma sum_waits wss : ∀ a, (0 ≤ a)%Z → (a + total_waits wss ≤ U64_MAX)%Z →
  foldl (λ total ws, total ≫= λ t, checked_add U64_MAX t (Z.of_nat (length ws))) (Some a) wss =
    Some (a + total_waits wss)%Z.
Proof.
  induction wss as [|ws wss IH]; intros a Ha Hm; cbn [foldl total_waits foldr] in *; [by rewrite Z.add_0_r|].
  fold (total_waits wss) in *.
  assert (0 ≤ total_waits wss)%Z as Ht by (clear; induction wss; cbn; [done|]; fold (total_waits wss); lia).
  cbn [mbind option_bind].
  assert (checked_add U64_MAX a (Z.of_nat (length ws)) = Some (a + Z.of_nat (length ws))%Z) as ->.
  { apply checked_add_Some. split; [done|]. lia. }
  rewrite IH by lia. f_equal. lia.
Qed.

Lemma total_waits_bound wss c : (∀ i ws, wss !! i = Some ws → length ws ≤ c) →
  (0 ≤ total_waits wss ≤ Z.of_nat (length wss) * Z.of_nat c)%Z.
Proof.
  induction wss as [|ws wss IH]; intros H; cbn [total_waits foldr length]; [lia|]. fold (total_waits wss).
  destruct IH as [? ?]; [intros i; apply (H (S i))|]. pose proof (H 0 ws eq_refl). lia.
Qed.

Lemma elem_of_extend vs : ∀ s v, v ∈ extend s vs ↔ v ∈ s ∨ v ∈ vs.
Proof.
  unfold extend. induction vs as [|w vs IH]; intros s v; cbn; [set_solver|].
  rewrite IH, elem_of_bset_insert. set_solver.
Qed.

Lemma length_bset_insert `{OrdKey K} (k : K) s : k ∉ s → length (bset_insert k s) = S (length s).
Proof.
  induction s as [|x s IH]; cbn; [done|]. intros [Hne Hn]%not_elem_of_cons.
  destruct (kcmp k x) eqn:E; cbn; [by apply kcmp_eq in E|done|by rewrite IH].
Qed.

Lemma length_extend vs : ∀ s, NoDup vs → (∀ v, v ∈ s → v ∉ vs) → length (extend s vs) = length s + length vs.
Proof.
  unfold extend. induction vs as [|w vs IH]; intros s Hnd Hdis; cbn; [lia|].
  apply NoDup_cons in Hnd as [Hw Hnd]. rewrite IH; [|done|].
  - rewrite length_bset_insert; [lia|]. intros Hin. by apply (Hdis w Hin), list_elem_of_here.
  - intros v [->|Hv]%elem_of_bset_insert; [done|]. specialize (Hdis v Hv). set_solver.
Qed.

Lemma try_map_total {E A B} (f : A → result E B) l :
  (∀ x, x ∈ l → ∃ y, f x = Ok y) → ∃ ys, try_map f l = Ok ys ∧ Forall2 (λ x y, f x = Ok y) l ys.
Proof.
  intros H. assert (∃ ys, Forall2 (λ x y, f x = Ok y) l ys) as [ys Hys].
  { induction l as [|x l IH]; [by exists []|]. destruct (H x) as [y Hy]; [set_solver|].
    destruct IH as [ys Hys]; [set_solver|]. exists (y :: ys). by constructor. }
  exists ys. split; [by apply try_map_Ok|done].
Qed.

Lemma length_omap_imap {A} (P : A → Prop) `{∀ x, Decision (P x)} (g : nat → A → option nat) l :
  (∀ i x, is_Some (g i x) ↔ P x) → length (omap id (imap g l)) = length (filter P l).
Proof.
  revert g. induction l as [|x l IH]; intros g Hg; [done|]. rewrite imap_cons, filter_cons. cbn.
  specialize (IH (g ∘ S) (λ i x, Hg (S i) x)). specialize (Hg 0 x).
  destruct (g 0 x) as [y|], (decide (P x)) as [Hx|Hx]; cbn; [by rewrite IH| | |done].
  - destruct Hx. apply Hg. by exists y.
  - by apply Hg in Hx as [? [=]].
Qed.

Lemma length_omap_le {A} (l : list (option A)) : length (omap id l) ≤ length l.
Proof. induction l as [|[x|] l IH]; cbn; lia. Qed.

Lemma length_omap_Forall2 {A B} (l : list (option A)) (k : list (option B)) :
  Forall2 (λ a b, is_Some a ↔ is_Some b) l k → length (omap id l) = length (omap id k).
Proof.
  induction 1 as [|a b l k Hab _ IH]; [done|]. destruct a as [x|], b as [y|]; cbn; [by rewrite IH| | |done].
  - destruct Hab as [H _]. destruct H as [? [=]]. by exists x.
  - destruct Hab as [_ H]. destruct H as [? [=]]. by exists y.
Qed.

Lemma NoDup_omap {A} (l : list (option A)) :
  (∀ i j v, l !! i = Some (Some v) → l !! j = Some (Some v) → i = j) → NoDup (omap id l).
Proof.
  induction l as [|o l IH]; intros H; [constructor|].
  assert (NoDup (omap id l)) as Hnd.
  { apply IH. intros i j v Hi Hj. specialize (H (S i) (S j) v Hi Hj). lia. }
  destruct o as [v|]; cbn; [|done]. constructor; [|done].
  intros (o & Hin & Ho)%list_elem_of_omap. cbn in Ho. subst o. apply list_elem_of_lookup in Hin as [j Hj].
  by specialize (H 0 (S j) v eq_refl Hj).
Qed.

Section assembly.
Context (lanes : nat) (ds : list PlannedDispatch) (Hds : lowerable lanes ds).
Context (ls : lane_state) (Hls : placed lanes ds (length ds) ls).
Context (fs : frontier_state) (Hfs : frontier_ok lanes ds (length ds) fs).
Let terminal_nodes := extend [] (omap id (last_node_by_lane ls)).
Let events := extend (cross_signal_nodes fs) terminal_nodes.
Local Abbreviation idx d := (node_index (planned_node d)).

Lemma last_is_event l v : last_node_by_lane ls !! l = Some (Some v) → v ∈ events.
Proof using Type.
  clear Hds Hls Hfs. intros H. apply elem_of_extend. right. apply elem_of_extend. right.
  apply list_elem_of_omap. exists (Some v). split; [by eapply list_elem_of_lookup_2|done].
Qed.

Lemma wait_is_event i ws v : wait_nodes_by_dispatch fs !! i = Some ws → v ∈ ws → v ∈ events.
Proof using Hfs.
  intros Hws Hv. apply elem_of_extend. left.
  destruct (lookup_lt_is_Some_2 ds i) as [d Hd].
  { rewrite <- (fo_wait_len _ _ _ _ Hfs). by eapply lookup_lt_Some. }
  by apply (fo_waits _ _ _ _ Hfs i d ws v (lookup_lt_Some _ _ _ Hd)).
Qed.

(** The dispatch of a lane that comes last. *)
Lemma last_of_lane l i d : ds !! i = Some d → planned_lane d = l →
  S (lane_load ds i l) = lane_load ds (length ds) l → ∀ j dj, ds !! j = Some dj → planned_lane dj = l → j ≤ i.
Proof using Type.
  clear Hds Hls Hfs. intros Hi <- Hload j dj Hj Hl. destruct (decide (j ≤ i)) as [|Hlt]; [done|]. exfalso.
  pose proof (position_lt ds i j d dj Hi Hj (eq_sym Hl)) as Hp.
  pose proof (lane_load_mono ds (S j) (length ds) (planned_lane d) (lookup_lt_Some _ _ _ Hj)) as Hm.
  rewrite (lane_load_S ds j dj _ Hj), decide_True in Hm by done. rewrite Hl in Hp. lia.
Qed.

Lemma empty_lane l : lane_load ds (length ds) l = 0 → ∀ j dj, ds !! j = Some dj → planned_lane dj ≠ l.
Proof using Type.
  clear Hds Hls Hfs. intros H0 j dj Hj Hl.
  pose proof (lane_load_mono ds (S j) (length ds) l (lookup_lt_Some _ _ _ Hj)) as Hm.
  rewrite (lane_load_S ds j dj _ Hj), decide_True in Hm by done. lia.
Qed.

Lemma length_terminals : length terminal_nodes = length (omap id (last_node_by_lane ls)).
Proof using Hds Hls.
  unfold terminal_nodes. rewrite length_extend; [done| |by intros v ?%not_elem_of_nil].
  apply NoDup_omap. intros l l' v H1 H2.
  destruct (pl_last _ _ _ _ Hls l (Some v) H1) as (i & d & _ & Hd & <- & Hv & _).
  destruct (pl_last _ _ _ _ Hls l' (Some v) H2) as (i' & d' & _ & Hd' & <- & Hv' & _).
  assert (i = i') as <- by (apply (node_inj lanes ds Hds i i' d d'); [done..|congruence]).
  by replace d' with d by congruence.
Qed.

Context (slots : list (option nat)).
Context (Hslots : ∀ i d, ds !! i = Some d → slots !! idx d = Some (slot_at ds events i d)).
Context (wss : list (list nat)).
Context (Hwss : Forall2 (λ ws ss, try_map (λ v, o ← index slots (node_index v); expect o) ws =
  Ok (E := HipBackendError) ss) (wait_nodes_by_dispatch fs) wss).
Context (recs : list (option nat)).
Context (Hrecs : Forall2 (λ d o, index slots (idx d) = Ok (E := HipBackendError) o) ds recs).
Context (terms : list (option nat)).
Context (Hterms : Forall2 (λ o t, match o with
      | Some v => index slots (node_index v)
      | None => Ok None
      end = Ok (E := HipBackendError) t) (last_node_by_lane ls) terms).

Lemma record_at i d : ds !! i = Some d → recs !! i = Some (slot_at ds events i d).
Proof using Hslots Hrecs.
  intros Hi. destruct (Forall2_lookup_l _ _ _ _ _ Hrecs Hi) as (o & Ho & Hix).
  rewrite (index_total _ _ _ (Hslots i d Hi)) in Hix. injection Hix as ->. done.
Qed.

Lemma record_inv i s : recs !! i = Some (Some s) → ∃ d, ds !! i = Some d ∧ slot_at ds events i d = Some s.
Proof using Hslots Hrecs.
  intros H. destruct (Forall2_lookup_r _ _ _ _ _ Hrecs H) as (d & Hd & _). exists d. split; [done|].
  rewrite (record_at i d Hd) in H. by injection H.
Qed.

(** The wait slots are the slots of the wait nodes. *)
Lemma wait_slot_iff j ws : wait_nodes_by_dispatch fs !! j = Some ws → ∃ ss, wss !! j = Some ss ∧
  length ss = length ws ∧
  ∀ i d s, ds !! i = Some d → recs !! i = Some (Some s) → (planned_node d ∈ ws ↔ s ∈ ss).
Proof using Hds Hfs Hslots Hwss Hrecs.
  intros Hws. destruct (Forall2_lookup_l _ _ _ _ _ Hwss Hws) as (ss & Hss & Hmap).
  apply try_map_Ok in Hmap. exists ss. split; [done|]. split; [symmetry; by eapply Forall2_length|].
  intros i d s Hd Hr. rewrite (record_at i d Hd) in Hr. injection Hr as Hr. split.
  - intros [x Hx]%list_elem_of_lookup. destruct (Forall2_lookup_l _ _ _ _ _ Hmap Hx) as (t & Ht & He).
    rewrite (index_total _ _ _ (Hslots i d Hd)) in He. cbn [mbind result_bind] in He.
    rewrite Hr in He. injection He as <-. by eapply list_elem_of_lookup_2.
  - intros [x Hx]%list_elem_of_lookup. destruct (Forall2_lookup_r _ _ _ _ _ Hmap Hx) as (v & Hv & He).
    assert (v ∈ ws) as Hin by by eapply list_elem_of_lookup_2.
    destruct (lookup_lt_is_Some_2 ds j) as [dj Hdj].
    { rewrite <- (fo_wait_len _ _ _ _ Hfs). by eapply lookup_lt_Some. }
    destruct (fo_waits _ _ _ _ Hfs j dj ws v (lookup_lt_Some _ _ _ Hdj) Hdj Hws Hin)
      as (_ & _ & i' & d' & Hd' & <- & _).
    rewrite (index_total _ _ _ (Hslots i' d' Hd')) in He. cbn [mbind result_bind] in He.
    apply expect_Ok in He. destruct (Nat.lt_trichotomy i i') as [Hlt|[<-|Hlt]].
    + by destruct (slot_at_lt ds events i i' d d' s Hd Hlt Hr).
    + by replace d with d' by congruence.
    + by destruct (slot_at_lt ds events i' i d' d s Hd' Hlt He).
Qed.

Lemma wait_node_slot j ws v : wait_nodes_by_dispatch fs !! j = Some ws → v ∈ ws →
  ∃ i d s, ds !! i = Some d ∧ planned_node d = v ∧ recs !! i = Some (Some s).
Proof using Hfs Hslots Hrecs.
  intros Hws Hv. destruct (lookup_lt_is_Some_2 ds j) as [dj Hdj].
  { rewrite <- (fo_wait_len _ _ _ _ Hfs). by eapply lookup_lt_Some. }
  destruct (fo_waits _ _ _ _ Hfs j dj ws v (lookup_lt_Some _ _ _ Hdj) Hdj Hws Hv)
    as (_ & _ & i & d & Hd & <- & _).
  exists i, d, (event_load ds events i). do 2 (split; [done|]). rewrite (record_at i d Hd). unfold slot_at.
  rewrite decide_True; [done|]. by apply (wait_is_event j ws).
Qed.

Lemma terminals_count : length (omap id (last_node_by_lane ls)) = length (omap id terms).
Proof using Hls Hslots Hterms.
  apply length_omap_Forall2, Forall2_same_length_lookup. split; [by eapply Forall2_length|].
  intros l o t Ho Ht. pose proof (Forall2_lookup_lr _ _ _ _ _ _ Hterms Ho Ht) as H. cbn beta in H.
  destruct o as [v|]; [|by injection H as <-]. split; [|by intros _; exists v]. intros _.
  destruct (pl_last _ _ _ _ Hls l (Some v) Ho) as (i & d & _ & Hd & _ & Hv & _).
  rewrite <- Hv, (index_total _ _ _ (Hslots i d Hd)) in H. injection H as <-. unfold slot_at.
  rewrite decide_True; [by eexists|]. rewrite Hv. by eapply last_is_event.
Qed.

Let heads := (λ i, bool_decide (Some i ∈ first_dispatch_by_lane ls)) <$> seq 0 (length ds).

Lemma head_iff i d : ds !! i = Some d → Some i ∈ first_dispatch_by_lane ls ↔
  ∀ j dj, j < i → ds !! j = Some dj → planned_lane dj ≠ planned_lane d.
Proof using Hds Hls.
  intros Hi. split.
  - intros [l Hl]%list_elem_of_lookup j dj Hj Hdj He.
    destruct (pl_first _ _ _ _ Hls l (Some i) Hl) as [_ (d' & Hd' & <- & H0)].
    replace d' with d in * by congruence. pose proof (position_lt ds j i dj d Hdj Hi He Hj). lia.
  - intros Hfirst. destruct (lookup_lt_is_Some_2 (first_dispatch_by_lane ls) (planned_lane d)) as [f Hf].
    { rewrite (pl_first_len _ _ _ _ Hls). by eapply (lw_lane _ _ Hds). }
    pose proof (pl_first _ _ _ _ Hls _ _ Hf) as H. destruct f as [i'|].
    + destruct H as [_ (d' & Hd' & Hl' & H0)]. destruct (Nat.lt_trichotomy i i') as [Hlt|[->|Hlt]].
      * pose proof (position_lt ds i i' d d' Hi Hd' (eq_sym Hl') Hlt). rewrite Hl' in *. lia.
      * by eapply list_elem_of_lookup_2.
      * by destruct (Hfirst i' d' Hlt Hd').
    + by destruct (empty_lane _ H i d Hi).
Qed.

Lemma lowered_wait k dk ss s : ds !! k = Some dk → wss !! k = Some ss → s ∈ ss →
  ∃ i di, i < k ∧ ds !! i = Some di ∧ planned_lane di ≠ planned_lane dk ∧
    planned_node di ∈ planned_dependencies dk ∧ recs !! i = Some (Some s).
Proof using Hds Hfs Hslots Hwss Hrecs.
  intros Hdk Hss Hs.
  destruct (Forall2_lookup_r _ _ _ _ _ Hwss Hss) as (ws & Hws & Hmap). apply try_map_Ok in Hmap.
  apply list_elem_of_lookup in Hs as [x Hx]. destruct (Forall2_lookup_r _ _ _ _ _ Hmap Hx) as (v & Hv & Hvs).
  assert (v ∈ ws) as Hin by by eapply list_elem_of_lookup_2.
  destruct (fo_waits _ _ _ _ Hfs k dk ws v (lookup_lt_Some _ _ _ Hdk) Hdk Hws Hin)
    as (Hdep & _ & i & d & Hd & <- & Hlane).
  destruct (lw_deps _ _ Hds k dk _ Hdk Hdep) as (i' & d' & Hlt & Hd' & He).
  assert (i' = i) as -> by by apply (node_inj lanes ds Hds i' i d' d).
  exists i, d. do 4 (split; [done|]). rewrite (record_at i d Hd).
  rewrite (index_total _ _ _ (Hslots i d Hd)) in Hvs. cbn [mbind result_bind] in Hvs.
  by apply expect_Ok in Hvs as ->.
Qed.

Lemma lowered_term l o : terms !! l = Some o →
  match o with
  | Some s => ∃ i d, ds !! i = Some d ∧ planned_lane d = l ∧ recs !! i = Some (Some s) ∧
      ∀ j dj, ds !! j = Some dj → planned_lane dj = l → j ≤ i
  | None => ∀ j dj, ds !! j = Some dj → planned_lane dj ≠ l
  end.
Proof using Hls Hslots Hrecs Hterms.
  intros Ho. destruct (Forall2_lookup_r _ _ _ _ _ Hterms Ho) as (v & Hv & Hvo).
  pose proof (pl_last _ _ _ _ Hls l v Hv) as Hl. destruct v as [v|].
  + destruct Hl as (i & d & _ & Hd & Hlane & Hnode & Hload). rewrite <- Hnode in Hvo.
    rewrite (index_total _ _ _ (Hslots i d Hd)) in Hvo. apply Ok_inj in Hvo. subst o. unfold slot_at.
    assert (planned_node d ∈ events) as Hev by (rewrite Hnode; by apply (last_is_event l)).
    rewrite decide_True by done. exists i, d. do 2 (split; [done|]). split.
    * rewrite (record_at i d Hd). unfold slot_at. by rewrite decide_True.
    * by apply (last_of_lane l i d).
  + injection Hvo as <-. by apply empty_lane.
Qed.

Lemma lowered_sync x y hs stats count : syncs ds (wait_nodes_by_dispatch fs) x y →
  slot_syncs ds (mkLowered wss recs hs terms count stats) x y.
Proof using Hds Hfs Hslots Hwss Hrecs.
  intros (dx & dy & Hx & Hy & Hxy & Hs). exists dx, dy.
  do 3 (split; [done|]). destruct Hs as [?|(ws & Hws & Hin)]; [by left|]. right.
  destruct (wait_node_slot y ws _ Hws Hin) as (x' & dx' & s & Hx' & He & Hrec).
  assert (x' = x) as -> by by apply (node_inj lanes ds Hds x' x dx' dx).
  destruct (wait_slot_iff y ws Hws) as (ss & Hss & _ & Hiff). exists s, ss.
  do 2 (split; [done|]). by apply (Hiff x dx s).
Qed.

Lemma lowered_all stats :
  stats = mkHipStats (Z.of_nat (length ds)) (cross_lane_signals stats)
    (Z.of_nat (length terminal_nodes)) (Z.of_nat (event_load ds events (length ds)))
    (total_waits wss) (let l := Z.of_nat (length terminal_nodes) in l * Z.max 0 (l - 1))%Z →
  lowered_ok lanes ds (mkLowered wss recs heads terms (event_load ds events (length ds)) stats).
Proof.
  intros Hstats. split; cbn [wait_slots_by_dispatch record_slot_by_dispatch lane_head_by_dispatch
    terminal_slot_by_lane event_slot_count lowered_stats].
  - rewrite <- (Forall2_length _ _ _ Hwss). apply Hfs.
  - symmetry. by eapply Forall2_length.
  - unfold heads. by rewrite length_fmap, length_seq.
  - rewrite <- (Forall2_length _ _ _ Hterms). apply Hls.
  - intros i s Hr. destruct (record_inv i s Hr) as (d & Hd & Hs).
    eapply (slot_at_lt ds events i (length ds) d d); [done|by eapply lookup_lt_Some|done].
  - intros i k s Hi Hk. destruct (record_inv i s Hi) as (d & Hd & Hs), (record_inv k s Hk) as (e & He & Hs').
    destruct (Nat.lt_trichotomy i k) as [Hlt|[?|Hlt]]; [|done|].
    + by destruct (slot_at_lt ds events i k d e s Hd Hlt Hs).
    + by destruct (slot_at_lt ds events k i e d s He Hlt Hs').
  - intros k dk ss s. apply lowered_wait.
  - intros k ss Hss. destruct (Forall2_lookup_r _ _ _ _ _ Hwss Hss) as (ws & Hws & Hmap).
    apply try_map_Ok, Forall2_length in Hmap. rewrite <- Hmap. by eapply (fo_few _ _ _ _ Hfs).
  - intros i d b Hd Hb. unfold heads in Hb.
    rewrite list_lookup_fmap, (lookup_seq_lt 0 (length ds) i (lookup_lt_Some _ _ _ Hd)) in Hb.
    injection Hb as <-. rewrite bool_decide_eq_true. by apply head_iff.
  - intros l o. apply lowered_term.
  - intros i k di dk Hi Hk Hdep.
    pose proof (fo_deps _ _ _ _ Hfs k dk i di (lookup_lt_Some _ _ _ Hk) Hk Hi Hdep) as Hrtc.
    revert Hrtc. apply rtc_subrel. intros x y. apply lowered_sync.
  - unfold event_load.
    assert (recs = imap (slot_at ds events) ds) as ->.
    { apply list_eq_same_length with (length ds); [by rewrite length_imap|symmetry; by eapply Forall2_length|].
      intros i x y Hi Hx Hy. destruct (lookup_lt_is_Some_2 ds i Hi) as [d Hd].
      rewrite (record_at i d Hd) in Hx. rewrite list_lookup_imap, Hd in Hy. cbn in Hy. congruence. }
    rewrite take_ge by done. symmetry. apply length_omap_imap. intros i x. unfold slot_at.
    case_decide; [by split; [|eauto]|]. split; [by intros [? [=]]|done].
  - rewrite <- terminals_count, <- length_terminals. exact Hstats.
Qed.
End assembly.

(** Lowering a well-formed plan succeeds when its counts fit a [usize]. *)
Lemma lower_plan_total p :
  lowerable (plan_lane_count p) (plan_dispatches p) →
  (Z.of_nat (length (plan_dispatches p)) * Z.of_nat (plan_lane_count p) ≤ U64_MAX)%Z →
  (Z.of_nat (plan_lane_count p) * Z.of_nat (plan_lane_count p) ≤ U64_MAX)%Z →
  ∃ low, lower_plan p = Ok low ∧ lowered_ok (plan_lane_count p) (plan_dispatches p) low.
Proof.
  intros Hds Hw Hb. unfold lower_plan. set (ds := plan_dispatches p) in *. set (lanes := plan_lane_count p) in *.
  destruct (place_total lanes ds Hds) as (ls & -> & Hls). cbn [mbind result_bind].
  destruct (lower_total lanes ds Hds ls Hls) as (fs & -> & Hfs). cbn [mbind result_bind].
  set (terminal_nodes := extend [] (omap id (last_node_by_lane ls))).
  set (events := extend (cross_signal_nodes fs) terminal_nodes).
  destruct (assign_total lanes ds Hds events) as (slots & -> & _ & Hslots). cbn [mbind result_bind].
  assert (∀ v, v ∈ events → (∃ i d, ds !! i = Some d ∧ planned_node d = v) →
    ∃ s, index (E := HipBackendError) slots (node_index v) = Ok (Some s)) as Hslot.
  { intros v Hv (i & d & Hd & <-). exists (event_load ds events i). rewrite (index_total _ _ _ (Hslots i d Hd)).
    unfold slot_at. by rewrite decide_True. }
  destruct (try_map_total (try_map (λ v, o ← index slots (node_index v); expect (E := HipBackendError) o))
    (wait_nodes_by_dispatch fs)) as (wss & Hwss' & Hwss).
  { intros ws [j Hj]%list_elem_of_lookup.
    destruct (try_map_total (λ v, o ← index slots (node_index v); expect (E := HipBackendError) o) ws) as (ss & Hss & _).
    - intros v Hv. destruct (lookup_lt_is_Some_2 ds j) as [dj Hdj].
      { rewrite <- (fo_wait_len _ _ _ _ Hfs). by eapply lookup_lt_Some. }
      destruct (fo_waits _ _ _ _ Hfs j dj ws v (lookup_lt_Some _ _ _ Hdj) Hdj Hj Hv)
        as (_ & _ & i & d & Hd & Hn & _).
      destruct (Hslot v) as [s Hs]; [by eapply wait_is_event|eauto|]. exists s. by rewrite Hs.
    - by exists ss. }
  rewrite Hwss'. cbn [mbind result_bind].
  destruct (try_map_total (λ d, index (E := HipBackendError) slots (node_index (planned_node d))) ds)
    as (recs & Hrecs' & Hrecs).
  { intros d [i Hi]%list_elem_of_lookup. eexists. by apply index_total, Hslots. }
  rewrite Hrecs'. cbn [mbind result_bind].
  match goal with |- context [try_map ?g (last_node_by_lane ls)] =>
    destruct (try_map_total g (last_node_by_lane ls)) as (terms & Hterms' & Hterms) end.
  { intros [v|] [l Hl]%list_elem_of_lookup; [|by eexists].
    destruct (pl_last _ _ _ _ Hls l (Some v) Hl) as (i & d & _ & Hd & _ & Hn & _).
    destruct (Hslot v) as [s Hs]; [by eapply last_is_event|eauto|]. by eexists. }
  rewrite Hterms'. cbn [mbind result_bind].
  assert (∀ i ws, wss !! i = Some ws → length ws ≤ lanes) as Hfew.
  { intros i ss Hss. destruct (Forall2_lookup_r _ _ _ _ _ Hwss Hss) as (ws & Hws & Hmap).
    apply try_map_Ok, Forall2_length in Hmap. rewrite <- Hmap. by eapply (fo_few _ _ _ _ Hfs). }
  pose proof (total_waits_bound wss lanes Hfew) as Htw.
  rewrite <- (Forall2_length _ _ _ Hwss), (fo_wait_len _ _ _ _ Hfs) in Htw.
  rewrite (sum_waits wss 0) by lia. cbn [mbind result_bind ok_or].
  assert (length terminal_nodes ≤ lanes) as Htl.
  { unfold terminal_nodes. rewrite (length_terminals lanes ds Hds ls Hls).
    rewrite <- (pl_last_len _ _ _ _ Hls). apply length_omap_le. }
  assert (checked_mul U64_MAX (Z.of_nat (length terminal_nodes))
    (saturating_sub (Z.of_nat (length terminal_nodes)) 1) = Some
    (let l := Z.of_nat (length terminal_nodes) in l * Z.max 0 (l - 1)))%Z as ->.
  { apply checked_mul_Some. unfold saturating_sub. split; [done|]. nia. }
  cbn [mbind result_bind ok_or]. eexists. split; [done|].
  by eapply (lowered_all lanes ds Hds ls Hls fs Hfs slots Hslots wss Hwss recs Hrecs terms Hterms).
Qed.

Lemma plan_lowerable r options p : rec_wf r → plan_of r options p →
  lowerable (plan_lane_count p) (plan_dispatches p).
Proof.
  intros Hwf Hp.
  assert (∀ i d, plan_dispatches p !! i = Some d → vnode (owner r) (length (plan_dispatches p)) (planned_node d)) as Hv.
  { intros i d Hi. apply (plan_vnode r options p Hp), (planned_valid r options p Hp).
    by eapply list_elem_of_lookup_2. }
  split.
  - apply NoDup_alt. intros i j v Hi Hj. rewrite list_lookup_fmap in Hi, Hj.
    destruct (plan_dispatches p !! i) as [di|] eqn:Ei; [|done].
    destruct (plan_dispatches p !! j) as [dj|] eqn:Ej; [|done]. cbn in *.
    apply (NoDup_lookup _ _ _ (planned_node di) (po_nodes _ _ _ Hp)); rewrite list_lookup_fmap;
      [by rewrite Ei|rewrite Ej]. cbn. f_equal.
    apply (vnode_eq (owner r) (length (plan_dispatches p))); [by eapply Hv|by eapply Hv|congruence].
  - intros i d Hi. apply (Hv i d Hi).
  - intros i d Hi. apply (planned_lane_lt r options p Hp). by eapply list_elem_of_lookup_2.
  - intros i d v Hi Hin. assert (d ∈ plan_dispatches p) as Hd by by eapply list_elem_of_lookup_2.
    assert (edge (edges r) v (planned_node d)) as He.
    { rewrite (planned_deps r options p Hp d Hd) in Hin. by apply elem_of_predecessors. }
    assert (v ∈ planned_node <$> plan_dispatches p) as Hx.
    { apply (po_all _ _ _ Hp). by apply (wf_edges r Hwf _ _ He). }
    apply list_elem_of_fmap in Hx as (dj & -> & [j Hj]%list_elem_of_lookup).
    destruct (dependency_finishes_first r _ _ (po_greedy _ _ _ Hp) (po_nodes _ _ _ Hp)
      (po_order _ _ _ Hp) j i dj d Hj Hi He) as [Hlt _]. by exists j, dj.
Qed.

(** Every ordering of the graph is a chain of stream order and waits. *)
Lemma ordered_syncs r options p low u w :
  rec_wf r → plan_of r options p → lowered_ok (plan_lane_count p) (plan_dispatches p) low →
  tc (edge (edges r)) u w → ∀ i j di dj,
  plan_dispatches p !! i = Some di → plan_dispatches p !! j = Some dj →
  planned_node di = u → planned_node dj = w → rtc (slot_syncs (plan_dispatches p) low) i j.
Proof.
  intros Hwf Hp Hlow Ht.
  assert (∀ x y i j di dj, edge (edges r) x y → plan_dispatches p !! i = Some di → plan_dispatches p !! j = Some dj →
    planned_node di = x → planned_node dj = y → rtc (slot_syncs (plan_dispatches p) low) i j) as Hone.
  { intros x y i j di dj He Hi Hj <- <-. apply (lo_deps _ _ _ Hlow i j di dj Hi Hj).
    rewrite (planned_deps r options p Hp dj) by by eapply list_elem_of_lookup_2. by apply elem_of_predecessors. }
  induction Ht as [u w He|u x w He Ht IH]; intros i j di dj Hi Hj Hu Hw; [by eapply (Hone u w)|].
  assert (x ∈ planned_node <$> plan_dispatches p) as Hx.
  { apply (po_all _ _ _ Hp). by apply (wf_edges r Hwf _ x He). }
  apply list_elem_of_fmap in Hx as (dk & Hxk & [k Hk]%list_elem_of_lookup).
  transitivity k; [by eapply (Hone u x)|by eapply IH].
Qed.

(** C15: the frontier lowering of a compiled plan succeeds and keeps the order of
    the graph. A dispatch that precedes another in the graph, or comes first in a
    conflict on memory, is connected to it by stream order and event waits,
    although waits already implied by a frontier are dropped. Every wait names a
    slot recorded by exactly one dispatch, which is an earlier dependency on
    another lane; there is at most one wait per lane and dispatch; slots are
    distinct and counted; a dispatch is a lane head exactly when it is the first
    of its lane, and the terminal slot of a lane is recorded by its last one. *)
Theorem lower_plan_sound sha256 r options p :
  recorded r → option_lane_count options ≠ 0 → compile sha256 r options = Ok p →
  (Z.of_nat (length (plan_dispatches p)) * Z.of_nat (plan_lane_count p) ≤ U64_MAX)%Z →
  (Z.of_nat (plan_lane_count p) * Z.of_nat (plan_lane_count p) ≤ U64_MAX)%Z →
  ∃ low, lower_plan p = Ok low ∧ lowered_ok (plan_lane_count p) (plan_dispatches p) low ∧
    ∀ i j di dj, plan_dispatches p !! i = Some di → plan_dispatches p !! j = Some dj →
      tc (edge (edges r)) (planned_node di) (planned_node dj) ∨
        (i < j ∧ conflicting (planned_accesses di) (planned_accesses dj)) →
      rtc (slot_syncs (plan_dispatches p) low) i j.
Proof.
  intros Hr Hl Hc Hw Hb. destruct (compile_Ok _ _ _ _ Hr Hl Hc) as (Hwf & Hno & Hp & _).
  destruct (lower_plan_total p (plan_lowerable r options p Hwf Hp) Hw Hb) as (low & Hlow & Hok).
  exists low. split; [done|]. split; [done|]. intros i j di dj Hi Hj Hord.
  eapply (ordered_syncs r options p low _ _ Hwf Hp Hok); [|done..].
  destruct Hord as [?|[Hij Hcon]]; [done|]. by apply (conflict_precedes sha256 r options p i j di dj).
Qed.

(** ** A concrete plan on two lanes

    Two independent dispatches; two that need both; one that needs the second,
    which its lane already knows to be complete. *)
Definition fork_node (i : nat) : NodeId := mkNodeId 1 i.
Definition fork_kernels : list (string * Z) := [("left", 3); ("right", 3); ("join", 2); ("merge", 2); ("tail", 1)]%Z%string.

Definition fork_unordered : Recorder :=
  mkRecorder 1 [] (imap (λ i k, mkNode (fork_node i) (demo_launch k.1 k.2) []) fork_kernels) [].

Definition fork_edges : list (nat * nat) := [(0, 2); (1, 2); (0, 3); (1, 3); (2, 4); (1, 4)].

Definition fork : Recorder :=
  match try_fold (λ r e, Recorder_depends_on r (fork_node e.2) (fork_node e.1)) fork_unordered fork_edges with
  | Ok r => r
  | _ => fork_unordered
  end.

Ltac record_kernel k w :=
  eapply rtc_l; [eapply (step_dispatch _ (demo_launch k w) []);
    [apply demo_launch_typed; done|cbn; ulia|apply Forall_nil_2|vm_compute; reflexivity]|].
Ltac record_edge a b :=
  eapply rtc_l; [eapply (step_depends_on _ (fork_node b) (fork_node a)); vm_compute; reflexivity|].

Lemma fork_recorded : recorded fork.
Proof.
  exists 1%Z, (mkRecorder 1 [] [] []), 2%Z. split; [ulia|]. split; [reflexivity|].
  record_kernel "left"%string 3%Z. record_kernel "right"%string 3%Z. record_kernel "join"%string 2%Z.
  record_kernel "merge"%string 2%Z. record_kernel "tail"%string 1%Z.
  record_edge 0 2. record_edge 1 2. record_edge 0 3. record_edge 1 3. record_edge 2 4. record_edge 1 4.
  vm_compute. apply rtc_refl.
Qed.

Definition fork_plan : CompiledPlan :=
  match compile demo_sha256 fork demo_options with Ok p => p | _ => demo_plan end.

Lemma fork_compiles : compile demo_sha256 fork demo_options = Ok fork_plan.
Proof. vm_compute. reflexivity. Qed.

(** "join" waits for "right" and "merge" for "left"; "tail" needs no wait. *)
Lemma lower_plan_sound_witness : ∃ low, lower_plan fork_plan = Ok low ∧
  wait_slots_by_dispatch low = [[]; []; [1]; [0]; []] ∧
  record_slot_by_dispatch low = [Some 0; Some 1; None; Some 2; Some 3] ∧
  lane_head_by_dispatch low = [true; true; false; false; false] ∧
  terminal_slot_by_lane low = [Some 3; Some 2] ∧
  rtc (slot_syncs (plan_dispatches fork_plan) low) 1 4.
Proof.
  destruct (lower_plan_sound demo_sha256 fork demo_options fork_plan fork_recorded) as (low & Hlow & _ & Hord).
  - discriminate.
  - exact fork_compiles.
  - vm_compute. discriminate.
  - vm_compute. discriminate.
  - exists low. split; [exact Hlow|].
    assert (rtc (slot_syncs (plan_dispatches fork_plan) low) 1 4) as H.
    { eapply (Hord 1 4); [vm_compute; reflexivity..|]. left. apply tc_once. vm_compute.
      repeat (first [apply list_elem_of_here|apply list_elem_of_further]). }
    clear Hord. vm_compute in Hlow. injection Hlow as <-. do 4 (split; [reflexivity|]). exact H.
Defined.
