(* ===== verification/HipBackend.v ===== *)
(** The HIP multi-stream backend (src/crates/redline-dispatch/src/hip.rs).

    The backend owns one stream per lane, a coordinator stream and a pool of
    events, and drives the HIP runtime through a handful of calls. The runtime
    is not part of the program: the parameter [runtime] says how each call ends,
    given the calls made so far, and the backend's state carries the log of the
    calls. Streams and events are named by numbers; a created event gets a
    number no event had before. Addresses and handles are [Z], [usize] has 64
    bits, and a panic is the outcome [Panic]. Destroying a dropped event has no
    further effect in the model than that its number is gone from the pool.

    An operation returns the new state with its outcome, because a failing
    operation keeps what it did. *)

From S2P Require Import Prelude Ir Identity Recorder Graph Plan Replay Visibility Bindings HipLower.

(** ** The runtime *)

Inductive Stream := Worker (lane : nat) | Coordinator.

#[export] Instance Stream_eq_dec : EqDecision Stream.
Proof. solve_decision. Defined.

Inductive Call : Type :=
| StreamCreate (stream : Stream)
| EventCreate (event : nat)
| EventRecord (event : nat) (stream : Stream)
| EventSynchronize (event : nat)
| StreamWaitEvent (stream : Stream) (event : nat)
| StreamSynchronize (stream : Stream)
| LaunchKernel (function : Z) (grid block : Dim3) (shared : Z) (stream : Stream) (params : list (list Z)).

(** A call succeeds, fails, or succeeds with a null handle. *)
Inductive api_outcome := ApiOk | ApiError | ApiNull.

Definition operation_name (c : Call) : string :=
  match c with
  | StreamCreate _ => "hipStreamCreateWithFlags"
  | EventCreate _ => "hipEventCreateWithFlags"
  | EventRecord _ _ => "hipEventRecord"
  | EventSynchronize _ => "hipEventSynchronize"
  | StreamWaitEvent _ _ => "hipStreamWaitEvent"
  | StreamSynchronize _ => "hipStreamSynchronize"
  | LaunchKernel _ _ _ _ _ _ => "hipModuleLaunchKernel"
  end.

(** ** State *)

Inductive HipBackendMode := MultiStream | SerialFallback.

#[export] Instance HipBackendMode_eq_dec : EqDecision HipBackendMode.
Proof. solve_decision. Defined.

Record HipBackendConfig := mkHipConfig {
  device_ordinal : Z; config_worker_count : nat; config_mode : HipBackendMode }.

(** [HipBackendConfig::new], [HipBackendConfig::serial_fallback] *)
Definition HipBackendConfig_new (ordinal : Z) (worker_count : nat) : HipBackendConfig :=
  mkHipConfig ordinal worker_count MultiStream.
Definition HipBackendConfig_serial_fallback (ordinal : Z) : HipBackendConfig :=
  mkHipConfig ordinal 1 SerialFallback.

Record HipResource := mkHipResource { hip_base : Z; hip_size : Z }.

Record ActiveReplay := mkActiveReplay {
  active_token : ReplayToken;
  active_lane_count : nat;
  active_events : list nat;
  active_submitted : bool }.

Record HipBackend := mkHipBackend {
  backend_id : Z;
  backend_mode : HipBackendMode;
  workers : nat;
  hip_kernels : gmap string Z;
  hip_resources : list (ResourceId * HipResource);
  available_events : list nat;
  active : option ActiveReplay;
  batch_active : option ReplayToken;
  poisoned : bool;
  configured_hw_queues : Z;
  next_event : nat;
  hip_log : list Call }.

Record PreparedDispatch := mkPreparedDispatch {
  prepared_lane : nat;
  prepared_function : Z;
  prepared_grid : Dim3;
  prepared_block : Dim3;
  prepared_shared : Z;
  prepared_arguments : list (list Z);
  wait_slots : list nat;
  record_slot : option nat;
  lane_head : bool }.

Record PreparedHipPlan := mkPreparedHipPlan {
  prepared_backend_id : Z;
  prepared_lane_count : nat;
  prepared_dispatches : list PreparedDispatch;
  prepared_terminal_slots : list (option nat);
  prepared_event_slot_count : nat;
  prepared_stats : PreparedHipPlanStats }.

Record HipBatchStats := mkHipBatchStats {
  batch_token_count : Z;
  kernel_launches : Z;
  dispatch_event_records : Z;
  dependency_waits : Z;
  token_boundary_waits : Z;
  coordinator_waits : Z;
  coordinator_join_records : Z;
  host_synchronizations : Z }.

Record HipBatchCompletion := mkHipBatchCompletion {
  batch_first_token : ReplayToken; batch_last_token : ReplayToken; batch_stats : HipBatchStats }.

Record HipSignal := mkHipSignal { signal_event : nat; signal_token : ReplayToken; signal_lane : nat }.
Record HipCompletion := mkHipCompletion { hip_completion_token : ReplayToken }.

(** Field updates. *)
Definition set_log (log : list Call) (b : HipBackend) : HipBackend :=
  mkHipBackend (backend_id b) (backend_mode b) (workers b) (hip_kernels b) (hip_resources b)
    (available_events b) (active b) (batch_active b) (poisoned b) (configured_hw_queues b) (next_event b) log.
Definition set_pool (pool : list nat) (b : HipBackend) : HipBackend :=
  mkHipBackend (backend_id b) (backend_mode b) (workers b) (hip_kernels b) (hip_resources b)
    pool (active b) (batch_active b) (poisoned b) (configured_hw_queues b) (next_event b) (hip_log b).
Definition set_active (a : option ActiveReplay) (b : HipBackend) : HipBackend :=
  mkHipBackend (backend_id b) (backend_mode b) (workers b) (hip_kernels b) (hip_resources b)
    (available_events b) a (batch_active b) (poisoned b) (configured_hw_queues b) (next_event b) (hip_log b).
Definition set_batch_active (t : option ReplayToken) (b : HipBackend) : HipBackend :=
  mkHipBackend (backend_id b) (backend_mode b) (workers b) (hip_kernels b) (hip_resources b)
    (available_events b) (active b) t (poisoned b) (configured_hw_queues b) (next_event b) (hip_log b).
Definition set_poisoned (b : HipBackend) : HipBackend :=
  mkHipBackend (backend_id b) (backend_mode b) (workers b) (hip_kernels b) (hip_resources b)
    (available_events b) (active b) (batch_active b) true (configured_hw_queues b) (next_event b) (hip_log b).
Definition set_next_event (n : nat) (b : HipBackend) : HipBackend :=
  mkHipBackend (backend_id b) (backend_mode b) (workers b) (hip_kernels b) (hip_resources b)
    (available_events b) (active b) (batch_active b) (poisoned b) (configured_hw_queues b) n (hip_log b).

(** ** The monad of operations: state is kept on every outcome *)

Definition HM (A : Type) : Type := HipBackend → HipBackend * result HipBackendError A.

#[export] Instance HM_ret : MRet HM := λ A a b, (b, Ok a).
#[export] Instance HM_bind : MBind HM := λ A B f m b,
  let '(b, r) := m b in
  match r with Ok a => f a b | Err e => (b, Err e) | Panic => (b, Panic) end.

Definition lift {A} (r : result HipBackendError A) : HM A := λ b, (b, r).
Definition modify (f : HipBackend → HipBackend) : HM unit := λ b, (f b, Ok tt).
Definition gets {A} (f : HipBackend → A) : HM A := λ b, (b, Ok (f b)).

(** A loop whose body may fail. *)
Fixpoint for_each_m {A} (f : A → HM unit) (l : list A) : HM unit :=
  match l with
  | [] => mret tt
  | x :: l => f x ;; for_each_m f l
  end.

(** ** Construction and registration *)

(** [HipMultiStreamBackend::require_inactive] *)
Definition require_inactive (b : HipBackend) : result HipBackendError unit :=
  err_if (poisoned b) BackendPoisoned ;;
  match active b with
  | Some a => Err (ReplayAlreadyActive (active_token a))
  | None => match batch_active b with
            | Some token => Err (ReplayAlreadyActive token)
            | None => Ok tt
            end
  end.

(** [register_kernel] *)
Definition register_kernel (b : HipBackend) (key : string) (function : Z) : result HipBackendError HipBackend :=
  require_inactive b ;;
  err_if (trim_is_empty key) EmptyKernelKey ;;
  err_if (function =? 0)%Z NullKernelFunction ;;
  err_if (bool_decide (is_Some (hip_kernels b !! key))) (KernelAlreadyRegistered key) ;;
  Ok (mkHipBackend (backend_id b) (backend_mode b) (workers b) (<[key := function]> (hip_kernels b))
    (hip_resources b) (available_events b) (active b) (batch_active b) (poisoned b) (configured_hw_queues b)
    (next_event b) (hip_log b)).

(** The aliasing loop of [bind_resource]; the map is visited in key order. *)
Definition check_binding (resource : ResourceId) (start stop : Z) (other : ResourceId * HipResource)
    : result HipBackendError unit :=
  let '(other_resource, o) := other in
  err_if (U64_MAX <? hip_size o)%Z (DeviceBindingAddressOverflow other_resource (hip_size o)) ;;
  other_end ← ok_or (DeviceBindingAddressOverflow other_resource (hip_size o))
    (checked_add U64_MAX (hip_base o) (hip_size o));
  err_if ((start <? other_end) && (hip_base o <? stop))%Z (AliasingResourceBinding resource other_resource).

(** [HipMultiStreamBackend::bind_resource] *)
Definition hip_bind_resource (b : HipBackend) (resource : ResourceId) (device_base size : Z)
    : result HipBackendError HipBackend :=
  require_inactive b ;;
  err_if (device_base =? 0)%Z (NullDevicePointer resource) ;;
  err_if (size =? 0)%Z (EmptyDeviceBinding resource) ;;
  err_if (bool_decide (is_Some (bmap_get resource (hip_resources b)))) (ResourceAlreadyBound resource) ;;
  err_if (U64_MAX <? size)%Z (DeviceBindingAddressOverflow resource size) ;;
  stop ← ok_or (DeviceBindingAddressOverflow resource size) (checked_add U64_MAX device_base size);
  for_each (check_binding resource device_base stop) (hip_resources b) ;;
  Ok (mkHipBackend (backend_id b) (backend_mode b) (workers b) (hip_kernels b)
    (bmap_insert resource (mkHipResource device_base size) (hip_resources b)) (available_events b) (active b)
    (batch_active b) (poisoned b) (configured_hw_queues b) (next_event b) (hip_log b)).

(** ** Arguments *)

(** [checked_next_power_of_two_usize] of a positive length. *)
Definition checked_next_power_of_two_usize (n : Z) : option Z :=
  let p := (2 ^ Z.log2_up n)%Z in if (p <=? U64_MAX)%Z then Some p else None.

(** [AlignedArgument::new]; the value is the bytes it holds. [Layout] refuses a
    size that, rounded up to the alignment, exceeds [isize::MAX]. *)
Definition AlignedArgument_new (bytes : list Z) (argument_index : nat) : result HipBackendError (list Z) :=
  let len := Z.of_nat (length bytes) in
  err_if (len =? 0)%Z (EmptyScalarArgument argument_index) ;;
  power ← ok_or (ArgumentLayout argument_index) (checked_next_power_of_two_usize len);
  let alignment := Z.max power 8 in
  err_if (2 ^ 63 - alignment <? len)%Z (ArgumentLayout argument_index) ;;
  Ok bytes.

(** The body of [PackedArguments::new_with_bindings]. *)
Definition pack_argument (resources : list (ResourceId * HipResource)) (bindings : option ReplayBindings)
    (entry : nat * KernelArg) : result HipBackendError (list Z) :=
  let '(argument_index, argument) := entry in
  bytes ← match argument with
    | Scalar bytes => Ok bytes
    | ScalarSlot slot size =>
        bindings ← ok_or (DynamicScalarNotBound slot) bindings;
        bytes ← ok_or (InvalidReplayBindings (ScalarNotBound slot)) (Bindings_scalar bindings slot);
        err_if (negb (Z.of_nat (length bytes) =? size)%Z)
          (InvalidReplayBindings (ScalarSize slot size (length bytes))) ;;
        Ok bytes
    | Resource_arg resource byte_offset =>
        binding ← ok_or (HipResourceNotBound resource) (bmap_get resource resources);
        err_if (hip_size binding <=? byte_offset)%Z
          (ResourceArgumentOutOfBounds resource byte_offset (hip_size binding)) ;;
        err_if (U64_MAX <? byte_offset)%Z (DeviceAddressOverflow resource byte_offset) ;;
        address ← ok_or (DeviceAddressOverflow resource byte_offset)
          (checked_add U64_MAX (hip_base binding) byte_offset);
        Ok (le_bytes 8 address)
    end;
  AlignedArgument_new bytes argument_index.

(** [PackedArguments::new_with_bindings]; [PackedArguments::new] passes [None]. *)
Definition PackedArguments_new (arguments : list KernelArg) (resources : list (ResourceId * HipResource))
    (bindings : option ReplayBindings) : result HipBackendError (list (list Z)) :=
  try_map (pack_argument resources bindings) (enumerate arguments).

(** [validate_accesses] *)
Definition hip_check_access (b : HipBackend) (access : Access) : result HipBackendError unit :=
  let region := access_region access in
  binding ← ok_or (HipResourceNotBound (region_resource region))
    (bmap_get (region_resource region) (hip_resources b));
  err_if (hip_size binding <? region_end region)%Z
    (BindingTooSmall (region_resource region) (region_end region) (hip_size binding)).

Definition validate_accesses (b : HipBackend) (accesses : list Access) : result HipBackendError unit :=
  for_each (hip_check_access b) accesses.

(** [validate_bindings] and [validate_plan_bindings] *)
Definition hip_check_resource (b : HipBackend) (resource : PlannedResource) : result HipBackendError unit :=
  binding ← ok_or (HipResourceNotBound (planned_id resource)) (bmap_get (planned_id resource) (hip_resources b));
  err_if (hip_size binding <? planned_size resource)%Z
    (BindingTooSmall (planned_id resource) (planned_size resource) (hip_size binding)).

Definition validate_plan_bindings (b : HipBackend) (plan : CompiledPlan) : result HipBackendError unit :=
  for_each (hip_check_resource b) (plan_resources plan).

(** ** Preparation *)

(** The dispatch loop of [prepare_plan_internal]. *)
Definition prepare_dispatch (b : HipBackend) (bindings : option ReplayBindings) (lowered : LoweredPlan)
    (entry : nat * PlannedDispatch) : result HipBackendError PreparedDispatch :=
  let '(i, d) := entry in
  validate_accesses b (planned_accesses d) ;;
  function ← ok_or (KernelNotRegistered (kernel (planned_launch d))) (hip_kernels b !! kernel (planned_launch d));
  arguments ← PackedArguments_new (arguments (planned_launch d)) (hip_resources b) bindings;
  waits ← index (wait_slots_by_dispatch lowered) i;
  record ← index (record_slot_by_dispatch lowered) i;
  head ← index (lane_head_by_dispatch lowered) i;
  Ok (mkPreparedDispatch (planned_lane d) function (grid (planned_launch d)) (block (planned_launch d))
    (dynamic_shared_bytes (planned_launch d)) arguments waits record head).

(** [prepare_plan_internal]; [prepare_plan] passes [None]. *)
Definition prepare_plan (b : HipBackend) (plan : CompiledPlan) (bindings : option ReplayBindings)
    : result HipBackendError PreparedHipPlan :=
  require_inactive b ;;
  err_if (negb (bool_decide (plan_replay_mode plan = TokenLatency)))
    (UnsupportedReplayMode (plan_replay_mode plan)) ;;
  err_if (bool_decide (workers b < plan_lane_count plan)) (TooManyLanes (plan_lane_count plan) (workers b)) ;;
  validate_plan_bindings b plan ;;
  lowered ← lower_plan plan;
  dispatches ← try_map (prepare_dispatch b bindings lowered) (enumerate (plan_dispatches plan));
  Ok (mkPreparedHipPlan (backend_id b) (plan_lane_count plan) dispatches (terminal_slot_by_lane lowered)
    (event_slot_count lowered) (lowered_stats lowered)).

(** [checked_product], [calculate_batch_stats] *)
Definition checked_product (left right : Z) : result HipBackendError Z :=
  ok_or BatchSizeOverflow (checked_mul U64_MAX left right).

Definition calculate_batch_stats (plan : PreparedHipPlanStats) (event_slot_count token_count : Z)
    : result HipBackendError HipBatchStats :=
  let boundaries := (token_count - 1)%Z in
  launches ← checked_product (stat_dispatches plan) token_count;
  records ← checked_product event_slot_count token_count;
  waits ← checked_product (cross_lane_waits_per_token plan) token_count;
  boundary_waits ← checked_product (token_boundary_waits_per_boundary plan) boundaries;
  Ok (mkHipBatchStats token_count launches records waits boundary_waits (terminal_lane_tails plan) 1 1).

(** [str::parse::<usize>]: an optional plus sign and decimal digits. *)
Fixpoint parse_digits (acc : Z) (bs : list Z) : option Z :=
  match bs with
  | [] => Some acc
  | c :: bs =>
      if ((48 <=? c) && (c <=? 57))%Z then
        let acc := (acc * 10 + (c - 48))%Z in
        if (acc <=? U64_MAX)%Z then parse_digits acc bs else None
      else None
  end.

Definition parse_usize (s : string) : option Z :=
  match str_bytes s with
  | [] => None
  | 43%Z :: [] => None
  | 43%Z :: bs => parse_digits 0 bs
  | bs => parse_digits 0 bs
  end.

(** [validate_hw_queue_environment]; the variable may be missing, not be text
    ([Some None]) or have a value. *)
Definition validate_hw_queue_environment (required : nat) (raw : option (option string))
    : result HipBackendError Z :=
  raw ← ok_or (MissingHardwareQueueEnvironment required) raw;
  text ← ok_or InvalidHardwareQueueEnvironment raw;
  value ← ok_or InvalidHardwareQueueEnvironment (parse_usize text);
  err_if (value =? 0)%Z InvalidHardwareQueueEnvironment ;;
  err_if (value <? Z.of_nat required)%Z (InsufficientHardwareQueueEnvironment value required) ;;
  Ok value.

(** [validate_backend_config] *)
Definition validate_backend_config (config : HipBackendConfig) (environment : option (option string))
    : result HipBackendError Z :=
  if bool_decide (config_mode config = SerialFallback) then
    assert (bool_decide (config_worker_count config = 1)) ;;
    Ok 1%Z
  else validate_hw_queue_environment (config_worker_count config) environment.

Section runtime.
Context (runtime : list Call → api_outcome).

(** One call of the runtime and [HipFns::check] of its code. *)
Definition call (c : Call) : HM unit := λ b,
  let b := set_log (hip_log b ++ [c]) b in
  (b, match runtime (hip_log b) with ApiError => Err (Hip (operation_name c)) | _ => Ok tt end).

(** A call that returns a handle, which must not be null. *)
Definition call_handle (c : Call) : HM unit := λ b,
  let b := set_log (hip_log b ++ [c]) b in
  (b, match runtime (hip_log b) with
      | ApiError => Err (Hip (operation_name c))
      | ApiNull => Err (NullHandle (operation_name c))
      | ApiOk => Ok tt
      end).

(** [HipMultiStreamBackend::load]: [environment] is GPU_MAX_HW_QUEUES, [id] the
    next backend number and [fns] how loading the library ends. *)
Definition HipBackend_load (config : HipBackendConfig) (environment : option (option string)) (id : Z)
    (fns : result HipBackendError unit) : HipBackend * result HipBackendError unit :=
  let start queues := mkHipBackend id (config_mode config) (config_worker_count config) ∅ [] [] None None
    false queues 0 [] in
  match validate_backend_config config (if bool_decide (config_mode config = MultiStream) then environment else None) with
  | Ok queues =>
      (lift (assert (negb (id =? U64_MAX)%Z)) ;;
       lift fns ;;
       call_handle (StreamCreate Coordinator) ;;
       for_each_m (λ lane, call_handle (StreamCreate (Worker lane))) (seq 0 (config_worker_count config)))
      (start queues)
  | Err e => (start 0%Z, Err e)
  | Panic => (start 0%Z, Panic)
  end.

(** [Event::create] *)
Definition Event_create : HM nat :=
  e ← gets next_event;
  modify (set_next_event (S e)) ;;
  call_handle (EventCreate e) ;;
  mret e.

(** [Vec::pop] *)
Definition pop_event : HM (option nat) := λ b,
  match last (available_events b) with
  | Some e => (set_pool (take (length (available_events b) - 1) (available_events b)) b, Ok (Some e))
  | None => (b, Ok None)
  end.

(** [acquire_events]: a failing creation gives the acquired events back. *)
Fixpoint acquire_events (count : nat) (acquired : list nat) : HM (list nat) :=
  match count with
  | O => mret acquired
  | S count =>
      pooled ← pop_event;
      match pooled with
      | Some e => acquire_events count (acquired ++ [e])
      | None => λ b,
          match Event_create b with
          | (b, Ok e) => acquire_events count (acquired ++ [e]) b
          | (b, Err error) => (set_pool (available_events b ++ acquired) b, Err error)
          | (b, Panic) => (b, Panic)
          end
      end
  end.

(** [drain_all_streams]: every stream is synchronised, whatever the others
    return; the answer is whether all succeeded. *)
Fixpoint drain (streams : list Stream) (b : HipBackend) : HipBackend * bool :=
  match streams with
  | [] => (b, true)
  | s :: streams =>
      let '(b, r) := call (StreamSynchronize s) b in
      let '(b, ok) := drain streams b in
      (b, match r with Ok _ => ok | _ => false end)
  end.

Definition drain_all_streams (b : HipBackend) : HipBackend * bool :=
  drain ((Worker <$> seq 0 (workers b)) ++ [Coordinator]) b.

(** [recover_batch_failure] *)
Definition recover_batch_failure (cause : HipBackendError) (submitted : bool) (b : HipBackend)
    : HipBackend * HipBackendError :=
  if negb submitted then (b, cause) else
  let '(b, ok) := drain_all_streams b in
  if ok : bool then (b, cause) else (set_poisoned b, BatchSubmissionPoisoned).

(** [recover_adapter_failure] *)
Definition recover_adapter_failure (cause : HipBackendError) (b : HipBackend) : HipBackend * HipBackendError :=
  match active b with
  | None => (b, cause)
  | Some a =>
      let b := set_active None b in
      if active_submitted a then
        let '(b, ok) := drain_all_streams b in
        if ok : bool then (b, cause) else (set_poisoned b, AdapterSubmissionPoisoned)
      else (b, cause)
  end.

(** ** Batches *)

(** The waits at a token boundary, for a lane head. *)
Definition boundary_wait (events : list nat) (prior_bank lane : nat) (entry : nat * option nat) : HM unit :=
  match entry with
  | (source_lane, Some slot) =>
      if bool_decide (source_lane = lane) then mret tt else
      event ← lift (index events (prior_bank + slot));
      call (StreamWaitEvent (Worker lane) event)
  | (_, None) => mret tt
  end.

(** One dispatch of one token. *)
Definition submit_dispatch (prepared : PreparedHipPlan) (events : list nat) (token_index : nat)
    (d : PreparedDispatch) : HM unit :=
  let lane := prepared_lane d in
  let current_bank := token_index * prepared_event_slot_count prepared in
  count ← gets workers;
  lift (assert (bool_decide (lane < count))) ;;
  (if negb (bool_decide (token_index = 0)) && lane_head d then
     let prior_bank := (token_index - 1) * prepared_event_slot_count prepared in
     for_each_m (boundary_wait events prior_bank lane) (enumerate (prepared_terminal_slots prepared))
   else mret tt) ;;
  for_each_m (λ slot, event ← lift (index events (current_bank + slot));
    call (StreamWaitEvent (Worker lane) event)) (wait_slots d) ;;
  call (LaunchKernel (prepared_function d) (prepared_grid d) (prepared_block d) (prepared_shared d)
    (Worker lane) (prepared_arguments d)) ;;
  match record_slot d with
  | Some slot => event ← lift (index events (current_bank + slot)); call (EventRecord event (Worker lane))
  | None => mret tt
  end.

(** The submission closure. *)
Definition submit_batch (prepared : PreparedHipPlan) (events : list nat) (joined token_count : nat) : HM unit :=
  for_each_m (λ token_index, for_each_m (submit_dispatch prepared events token_index) (prepared_dispatches prepared))
    (seq 0 token_count) ;;
  let final_bank := (token_count - 1) * prepared_event_slot_count prepared in
  for_each_m (λ slot, event ← lift (index events (final_bank + slot)); call (StreamWaitEvent Coordinator event))
    (omap id (prepared_terminal_slots prepared)) ;;
  call (EventRecord joined Coordinator) ;;
  call (EventSynchronize joined).

(** The submission with its aftermath. The flag [submitted] of the source is set
    right before every call of the closure, so it holds when the closure made
    one. *)
Definition run_batch (prepared : PreparedHipPlan) (events : list nat) (joined token_count : nat)
    (completion : HipBatchCompletion) : HM HipBatchCompletion := λ b,
  let before := length (hip_log b) in
  let '(b, submit_result) := submit_batch prepared events joined token_count b in
  let submitted := bool_decide (before < length (hip_log b)) in
  let b := set_batch_active None b in
  match submit_result with
  | Ok _ => (set_pool (available_events b ++ events ++ [joined]) b, Ok completion)
  | Err cause => let '(b, e) := recover_batch_failure cause submitted b in (b, Err e)
  | Panic => (b, Panic)
  end.

(** [replay_serialized_batch] *)
Definition replay_serialized_batch (prepared : PreparedHipPlan) (first_token : ReplayToken) (token_count : nat)
    : HM HipBatchCompletion := λ b,
  match (
    require_inactive b ;;
    err_if (negb (prepared_backend_id prepared =? backend_id b)%Z) PreparedPlanBackendMismatch ;;
    err_if (bool_decide (workers b < prepared_lane_count prepared))
      (TooManyLanes (prepared_lane_count prepared) (workers b)) ;;
    stats ← calculate_batch_stats (prepared_stats prepared) (Z.of_nat (prepared_event_slot_count prepared))
      (Z.of_nat token_count);
    last ← ok_or ReplayTokenRangeOverflow
      (checked_add U64_MAX (token_value first_token) (Z.of_nat token_count - 1));
    dispatch_events ← checked_product (Z.of_nat (prepared_event_slot_count prepared)) (Z.of_nat token_count);
    total_events ← ok_or BatchSizeOverflow (checked_add U64_MAX dispatch_events 1);
    Ok (stats, last, Z.to_nat total_events)) with
  | Err e => (b, Err e)
  | Panic => (b, Panic)
  | Ok (stats, last_token, total_events) =>
      (acquired ← acquire_events total_events [];
       joined ← lift (expect (last acquired));
       let events := take (length acquired - 1) acquired in
       modify (set_batch_active (Some first_token)) ;;
       run_batch prepared events joined token_count
         (mkHipBatchCompletion first_token (mkReplayToken last_token) stats)) b
  end.

(** ** The adapter: one replay through the dispatch interface *)

Definition hip_begin_replay (b : HipBackend) (replay : BeginReplay) : HipBackend * result HipBackendError unit :=
  match (
    require_inactive b ;;
    err_if (negb (bool_decide (begin_mode replay = TokenLatency))) (UnsupportedReplayMode (begin_mode replay)) ;;
    err_if (bool_decide (workers b < begin_lane_count replay))
      (TooManyLanes (begin_lane_count replay) (workers b))) with
  | Ok _ => (set_active (Some (mkActiveReplay (begin_token replay) (begin_lane_count replay) [] false)) b, Ok tt)
  | Err e => (b, Err e)
  | Panic => (b, Panic)
  end.

(** [self.active.as_mut().expect(..)] *)
Definition update_active (f : ActiveReplay → ActiveReplay) : HM unit := λ b,
  match active b with
  | Some a => (set_active (Some (f a)) b, Ok tt)
  | None => (b, Panic)
  end.

Definition mark_submitted (a : ActiveReplay) : ActiveReplay :=
  mkActiveReplay (active_token a) (active_lane_count a) (active_events a) true.
Definition push_event (e : nat) (a : ActiveReplay) : ActiveReplay :=
  mkActiveReplay (active_token a) (active_lane_count a) (active_events a ++ [e]) (active_submitted a).

(** The checks of [dispatch] before anything is submitted. *)
Definition check_dispatch (b : HipBackend) (request : DispatchRequest HipSignal)
    : result HipBackendError (Z * list (list Z)) :=
  a ← ok_or (ReplayNotActive (request_token request)) (active b);
  err_if (negb (bool_decide (active_token a = request_token request))) (ReplayNotActive (request_token request)) ;;
  err_if (bool_decide (active_lane_count a ≤ request_lane request))
    (InvalidLane (request_lane request) (active_lane_count a)) ;;
  validate_accesses b (request_accesses request) ;;
  for_each (λ s, err_if (negb (bool_decide (signal_token s = request_token request)))
    (ForeignDependencySignal (request_token request) (signal_token s))) (request_signals request) ;;
  function ← ok_or (KernelNotRegistered (kernel (request_launch request)))
    (hip_kernels b !! kernel (request_launch request));
  packed ← PackedArguments_new (arguments (request_launch request)) (hip_resources b) None;
  Ok (function, packed).

(** The closure of [dispatch]. *)
Definition dispatch_inner (request : DispatchRequest HipSignal) : HM HipSignal := λ b,
  match check_dispatch b request with
  | Err e => (b, Err e)
  | Panic => (b, Panic)
  | Ok (function, packed) =>
      (pooled ← pop_event;
       event ← match pooled with Some e => mret e | None => Event_create end;
       update_active mark_submitted ;;
       count ← gets workers;
       lift (assert (bool_decide (request_lane request < count))) ;;
       for_each_m (λ s, if bool_decide (signal_lane s = request_lane request) then mret tt
                        else call (StreamWaitEvent (Worker (request_lane request)) (signal_event s)))
         (request_signals request) ;;
       call (LaunchKernel function (grid (request_launch request)) (block (request_launch request))
         (dynamic_shared_bytes (request_launch request)) (Worker (request_lane request)) packed) ;;
       call (EventRecord event (Worker (request_lane request))) ;;
       update_active (push_event event) ;;
       mret (mkHipSignal event (request_token request) (request_lane request))) b
  end.

(** [result.map_err(|cause| self.recover_adapter_failure(cause))] *)
Definition recovering {A} (m : HM A) : HM A := λ b,
  match m b with
  | (b, Err cause) => let '(b, e) := recover_adapter_failure cause b in (b, Err e)
  | other => other
  end.

Definition hip_dispatch (b : HipBackend) (request : DispatchRequest HipSignal)
    : HipBackend * result HipBackendError HipSignal := recovering (dispatch_inner request) b.

(** [self.active.take().expect(..)]: its events return to the pool. *)
Definition retire_active (completion : HipCompletion) : HM HipCompletion := λ b,
  match active b with
  | Some a => (set_active None (set_pool (available_events b ++ active_events a) b), Ok completion)
  | None => (b, Panic)
  end.

(** The closure of [end_replay]. *)
Definition end_inner (replay : EndReplay HipSignal) : HM HipCompletion := λ b,
  match (
    a ← ok_or (ReplayNotActive (end_token replay)) (active b);
    err_if (negb (bool_decide (active_token a = end_token replay))) (ReplayNotActive (end_token replay)) ;;
    err_if (negb (bool_decide (end_mode replay = TokenLatency))) (UnsupportedReplayMode (end_mode replay)) ;;
    for_each (λ s, err_if (negb (bool_decide (signal_token s = end_token replay)))
      (ForeignDependencySignal (end_token replay) (signal_token s))) (end_signals replay)) with
  | Err e => (b, Err e)
  | Panic => (b, Panic)
  | Ok _ =>
      (joined ← Event_create;
       update_active mark_submitted ;;
       for_each_m (λ s, call (StreamWaitEvent Coordinator (signal_event s))) (end_signals replay) ;;
       call (EventRecord joined Coordinator) ;;
       call (EventSynchronize joined) ;;
       retire_active (mkHipCompletion (end_token replay))) b
  end.

Definition hip_end_replay (b : HipBackend) (replay : EndReplay HipSignal)
    : HipBackend * result HipBackendError HipCompletion := recovering (end_inner replay) b.

(** [impl DispatchBackend for HipMultiStreamBackend] *)
#[export] Instance Hip_backend : DispatchBackend HipBackend HipSignal HipCompletion HipBackendError :=
  {| begin_replay := hip_begin_replay; dispatch := hip_dispatch; end_replay := hip_end_replay |}.
End runtime.
