(* ===== verification/HipOrder.v ===== *)
(** What the calls of the HIP backend guarantee on the device
    (src/crates/redline-dispatch/src/hip.rs: [replay_serialized_batch] and the
    operations around it).

    An execution of a log of calls assigns a start and an end to every call. It
    satisfies what the runtime documents: the commands of one stream run in
    order, a wait ends no earlier than the record of its event that preceded it
    in the log, and the host functions that synchronise return no earlier than
    what they wait for. Everything proved here holds in every such execution.

    Proved here: a successful batch orders conflicting dispatches within a
    token, orders the tokens and returns to the host after all of them, with
    exactly the number of commands predicted; and a failed one leaves the
    backend either drained or poisoned for good. *)

From S2P Require Import Prelude Ir Identity Recorder Graph Plan Replay Visibility Bindings HipLower HipBackend.

(** ** Executions *)

Definition call_stream (c : Call) : option Stream :=
  match c with
  | EventRecord _ s | StreamWaitEvent s _ | LaunchKernel _ _ _ _ s _ => Some s
  | _ => None
  end.

Definition recorded_event (c : Call) : option nat :=
  match c with EventRecord e _ => Some e | _ => None end.

Definition is_launch (c : Call) : Prop :=
  match c with LaunchKernel _ _ _ _ _ _ => True | _ => False end.
#[export] Instance is_launch_dec c : Decision (is_launch c).
Proof. destruct c; apply _. Defined.

Record execution_of (trace : list Call) (start stop : nat → Z) : Prop := {
  xo_duration i : (start i ≤ stop i)%Z;
  xo_fifo i j ci cj s : i < j → trace !! i = Some ci → trace !! j = Some cj →
    call_stream ci = Some s → call_stream cj = Some s → (stop i ≤ start j)%Z;
  xo_wait i j s s' e : i < j → trace !! i = Some (EventRecord e s) →
    trace !! j = Some (StreamWaitEvent s' e) →
    (∀ k s'', i < k < j → trace !! k ≠ Some (EventRecord e s'')) → (stop i ≤ stop j)%Z;
  xo_sync i j s e : i < j → trace !! i = Some (EventRecord e s) →
    trace !! j = Some (EventSynchronize e) →
    (∀ k s'', i < k < j → trace !! k ≠ Some (EventRecord e s'')) → (stop i ≤ stop j)%Z;
  xo_drain i j c s : i < j → trace !! i = Some c → call_stream c = Some s →
    trace !! j = Some (StreamSynchronize s) → (stop i ≤ stop j)%Z }.

(** ** Programs that issue a fixed list of calls *)

Section runs.
Context (runtime : list Call → api_outcome).

Definition calls (cs : list Call) : HM unit := for_each_m (call runtime) cs.

(** On a backend with [W] workers, [m] issues the calls [cs]. *)
Definition runs (W : nat) (m : HM unit) (cs : list Call) : Prop :=
  ∀ b, workers b = W → m b = calls cs b.

Lemma bind_unfold {A B} (m : HM A) (f : A → HM B) b :
  (m ≫= f) b = match m b with
               | (b, Ok a) => f a b | (b, Err e) => (b, Err e) | (b, Panic) => (b, Panic)
               end.
Proof. unfold mbind, HM_bind. by destruct (m b) as [? []]. Qed.

Lemma calls_app c1 c2 b : calls (c1 ++ c2) b = (calls c1 ;; calls c2) b.
Proof.
  revert b. induction c1 as [|c c1 IH]; intros b; [done|]. unfold calls in *. cbn [app for_each_m].
  rewrite !bind_unfold. destruct (call runtime c b) as [b1 [[]|e|]]; [|done..].
  by rewrite IH, bind_unfold.
Qed.

(** How a list of calls ends. *)
Lemma calls_outcome cs b :
  calls cs b = (set_log (hip_log b ++ cs) b, Ok tt) ∨
  ∃ pre c post, cs = pre ++ c :: post ∧
    calls cs b = (set_log (hip_log b ++ pre ++ [c]) b, Err (Hip (operation_name c))).
Proof.
  revert b. induction cs as [|c cs IH]; intros b.
  - left. cbn. rewrite app_nil_r. by destruct b.
  - unfold calls in *. cbn [for_each_m]. rewrite bind_unfold. unfold call at 1 3. cbn beta zeta.
    destruct (runtime (hip_log (set_log (hip_log b ++ [c]) b))) eqn:E;
      [|right; exists [], c, cs; done|];
      (destruct (IH (set_log (hip_log b ++ [c]) b)) as [->|(pre & c' & post & -> & ->)];
       [left|right; exists (c :: pre), c', post; split; [done|]]; cbn; by rewrite <- !app_assoc).
Qed.

Lemma calls_workers cs b : workers (calls cs b).1 = workers b.
Proof. by destruct (calls_outcome cs b) as [->|(? & ? & ? & _ & ->)]. Qed.

Lemma runs_ret W : runs W (mret tt) [].
Proof. done. Qed.

Lemma runs_call W c : runs W (call runtime c) [c].
Proof.
  intros b _. unfold calls. cbn [for_each_m]. rewrite bind_unfold.
  destruct (call runtime c b) as [b' [[]|e|]]; done.
Qed.

Lemma runs_bind W m1 m2 c1 c2 : runs W m1 c1 → runs W m2 c2 → runs W (m1 ;; m2) (c1 ++ c2).
Proof.
  intros H1 H2 b Hb. rewrite calls_app, !bind_unfold, (H1 b Hb).
  pose proof (calls_workers c1 b) as Hw. destruct (calls c1 b) as [b1 [[]|e|]]; [|done..]. cbn in Hw.
  apply H2. congruence.
Qed.

Lemma runs_lift W {A} (r : result HipBackendError A) a (f : A → HM unit) cs :
  r = Ok a → runs W (f a) cs → runs W (lift r ≫= f) cs.
Proof. intros -> H b Hb. rewrite bind_unfold. by apply H. Qed.

Lemma runs_workers W (f : nat → HM unit) cs : runs W (f W) cs → runs W (gets workers ≫= f) cs.
Proof. intros H b Hb. rewrite bind_unfold. cbn. rewrite Hb. by apply H. Qed.

Lemma runs_for_each W {A} (f : A → HM unit) (g : A → list Call) l :
  (∀ x, x ∈ l → runs W (f x) (g x)) → runs W (for_each_m f l) (concat (g <$> l)).
Proof.
  induction l as [|x l IH]; intros H; [apply runs_ret|]. cbn [for_each_m]. rewrite fmap_cons, concat_cons.
  apply runs_bind; [apply H; set_solver|apply IH; set_solver].
Qed.
End runs.

(** ** The calls of a batch *)

Definition launch_call (d : PreparedDispatch) : Call :=
  LaunchKernel (prepared_function d) (prepared_grid d) (prepared_block d) (prepared_shared d)
    (Worker (prepared_lane d)) (prepared_arguments d).

Section batch.
Context (prepared : PreparedHipPlan) (events : list nat) (joined T : nat).
Let E := prepared_event_slot_count prepared.
Let terms := prepared_terminal_slots prepared.
Let pds := prepared_dispatches prepared.

(** The event of slot [s] in the bank of token [t]. *)
Definition event_at (t s : nat) : nat := events !!! (t * E + s).

(** The waits of a lane head on the other lanes' previous tails. *)
Definition boundary_calls (t lane : nat) : list Call :=
  omap (λ entry : nat * option nat, s ← entry.2;
    if decide (entry.1 = lane) then None else Some (StreamWaitEvent (Worker lane) (event_at (t - 1) s)))
    (enumerate terms).

Definition waiting_calls (t : nat) (d : PreparedDispatch) : list Call :=
  (if negb (bool_decide (t = 0)) && lane_head d then boundary_calls t (prepared_lane d) else []) ++
  ((λ s, StreamWaitEvent (Worker (prepared_lane d)) (event_at t s)) <$> wait_slots d).

Definition record_calls (t : nat) (d : PreparedDispatch) : list Call :=
  match record_slot d with
  | Some s => [EventRecord (event_at t s) (Worker (prepared_lane d))]
  | None => []
  end.

Definition block_calls (t : nat) (d : PreparedDispatch) : list Call :=
  waiting_calls t d ++ launch_call d :: record_calls t d.

(** The blocks of all tokens, in submission order. *)
Definition blocks : list (list Call) := t ← seq 0 T; block_calls t <$> pds.

Definition join_calls : list Call :=
  ((λ s, StreamWaitEvent Coordinator (event_at (T - 1) s)) <$> omap id terms) ++
  [EventRecord joined Coordinator; EventSynchronize joined].

Definition batch_calls : list Call := concat blocks ++ join_calls.

(** Every slot the plan mentions is below the bank size. *)
Record slots_ok : Prop := {
  so_events : length events = T * E;
  so_tokens : T ≠ 0;
  so_wait d s : d ∈ pds → s ∈ wait_slots d → s < E;
  so_record d s : d ∈ pds → record_slot d = Some s → s < E;
  so_term s : Some s ∈ terms → s < E }.

Context (Hok : slots_ok).

Lemma bank_lt t s : t < T → s < E → t * E + s < T * E.
Proof using Type. clear Hok. intros. nia. Qed.

Lemma event_lookup t s : t < T → s < E → index (E := HipBackendError) events (t * E + s) = Ok (event_at t s).
Proof using Hok.
  intros Ht Hs. apply index_total. unfold event_at. apply list_lookup_lookup_total_lt.
  rewrite (so_events Hok). by apply bank_lt.
Qed.

Context (runtime : list Call → api_outcome) (W : nat).

Lemma boundary_runs t lane : 0 < t < T →
  runs runtime W (for_each_m (boundary_wait runtime events ((t - 1) * E) lane) (enumerate terms))
    (boundary_calls t lane).
Proof using Hok.
  intros Ht. unfold boundary_calls.
  assert (∀ entries : list (nat * option nat), (∀ l s, (l, Some s) ∈ entries → s < E) →
    runs runtime W (for_each_m (boundary_wait runtime events ((t - 1) * E) lane) entries)
      (omap (λ entry : nat * option nat, s ← entry.2;
        if decide (entry.1 = lane) then None else Some (StreamWaitEvent (Worker lane) (event_at (t - 1) s)))
        entries)) as H.
  { induction entries as [|[l [s|]] entries IH]; intros Hs; [apply runs_ret| |].
    - cbn [for_each_m boundary_wait omap list_omap fst snd mbind option_bind].
      destruct (decide (l = lane)) as [He|He].
      + rewrite bool_decide_eq_true_2 by done. apply (runs_bind _ _ _ _ []); [apply runs_ret|]. apply IH. set_solver.
      + rewrite bool_decide_eq_false_2 by done. apply (runs_bind _ _ _ _ [_]); [|apply IH; set_solver].
        eapply runs_lift; [apply event_lookup; [lia|apply (Hs l); set_solver]|apply runs_call].
    - cbn [for_each_m boundary_wait omap list_omap fst snd mbind option_bind].
      apply (runs_bind _ _ _ _ []); [apply runs_ret|]. apply IH. set_solver. }
  apply H. intros l s Hin. apply elem_of_enumerate in Hin. eapply (so_term Hok), list_elem_of_lookup_2, Hin.
Qed.

Lemma block_runs t d : t < T → d ∈ pds → prepared_lane d < W →
  runs runtime W (submit_dispatch runtime prepared events t d) (block_calls t d).
Proof using Hok.
  intros Ht Hd Hl. unfold submit_dispatch, block_calls, waiting_calls. fold E. fold terms.
  apply runs_workers. eapply runs_lift; [by rewrite bool_decide_eq_true_2|].
  rewrite <- app_assoc. apply runs_bind.
  { destruct (negb (bool_decide (t = 0)) && lane_head d) eqn:Hb; [|apply runs_ret].
    apply andb_prop in Hb as [Hb _]. apply negb_true_iff, bool_decide_eq_false in Hb. apply boundary_runs. lia. }
  apply runs_bind.
  { replace ((λ s, StreamWaitEvent (Worker (prepared_lane d)) (event_at t s)) <$> wait_slots d) with
      (concat ((λ s, [StreamWaitEvent (Worker (prepared_lane d)) (event_at t s)]) <$> wait_slots d)).
    - apply runs_for_each. intros s Hs. eapply runs_lift; [|apply runs_call].
      apply event_lookup; [done|by eapply (so_wait Hok)].
    - apply concat_singletons. }
  apply (runs_bind _ _ _ _ [_]); [apply runs_call|]. unfold record_calls.
  destruct (record_slot d) as [s|] eqn:Hr; [|apply runs_ret].
  eapply runs_lift; [|apply runs_call]. apply event_lookup; [done|by eapply (so_record Hok)].
Qed.

Lemma batch_runs : (∀ d, d ∈ pds → prepared_lane d < W) →
  runs runtime W (submit_batch runtime prepared events joined T) batch_calls.
Proof using Hok.
  intros Hlanes. unfold submit_batch, batch_calls, join_calls. fold E. fold terms. fold pds.
  apply runs_bind.
  { replace (concat blocks) with (concat ((λ t, concat (block_calls t <$> pds)) <$> seq 0 T)).
    - apply runs_for_each. intros t Ht%elem_of_seq. apply runs_for_each. intros d Hd. apply block_runs; [lia|done|].
      by apply Hlanes.
    - unfold blocks. clear. induction (seq 0 T) as [|t l IH]; [done|]. cbn. by rewrite IH, concat_app. }
  apply runs_bind.
  - replace ((λ s, StreamWaitEvent Coordinator (event_at (T - 1) s)) <$> omap id terms) with
      (concat ((λ s, [StreamWaitEvent Coordinator (event_at (T - 1) s)]) <$> omap id terms)).
    + apply runs_for_each. intros s Hs. eapply runs_lift; [|apply runs_call].
      apply event_lookup; [pose proof (so_tokens Hok); lia|].
      apply list_elem_of_omap in Hs as (o & Ho & Hs). cbn in Hs. subst o. by apply (so_term Hok).
    + apply concat_singletons.
  - apply (runs_bind _ _ _ _ [_]); apply runs_call.
Qed.
End batch.

(** ** Where the calls of a batch are *)

Lemma omap_concat {A B} (f : A → option B) (ls : list (list A)) : omap f (concat ls) = concat ((omap f : list A → list B) <$> ls).
Proof. induction ls as [|l ls IH]; [done|]. cbn. by rewrite omap_app, IH. Qed.

Lemma omap_none {A B} (f : A → option B) l : (∀ x, x ∈ l → f x = None) → omap f l = [].
Proof.
  induction l as [|x l IH]; intros H; [done|]. cbn. rewrite (H x) by set_solver. apply IH. set_solver.
Qed.

Lemma bank_inj E t s t' s' : t * E + s = t' * E + s' → s < E → s' < E → t = t' ∧ s = s'.
Proof.
  intros H Hs Hs'. destruct (Nat.lt_trichotomy t t') as [Hlt|[->|Hlt]]; [|lia|].
  - assert (t * E + E ≤ t' * E) by nia. lia.
  - assert (t' * E + E ≤ t * E) by nia. lia.
Qed.

Lemma block_records prepared events t d : omap recorded_event (block_calls prepared events t d) =
  omap id [event_at prepared events t <$> record_slot d].
Proof.
  unfold block_calls. rewrite omap_app. rewrite omap_none.
  - unfold record_calls. by destruct (record_slot d).
  - intros c Hc. unfold waiting_calls in Hc. apply elem_of_app in Hc as [Hc|Hc].
    + destruct (_ && _); [|by apply not_elem_of_nil in Hc]. unfold boundary_calls in Hc.
      apply list_elem_of_omap in Hc as ([l [s|]] & _ & He); cbn in He; [|done]. case_decide; [done|].
      by injection He as <-.
    + by apply list_elem_of_fmap in Hc as (s & -> & _).
Qed.

Section places.
Context (prepared : PreparedHipPlan) (events : list nat) (joined T : nat) (A : list Call).
Let E := prepared_event_slot_count prepared.
Let terms := prepared_terminal_slots prepared.
Let pds := prepared_dispatches prepared.
Let n := length pds.
Context (Hok : slots_ok prepared events T).
Context (Hnd : NoDup (events ++ [joined])).
Context (Hcreate : ∀ c, c ∈ A → ∃ e, c = EventCreate e).
Context (Honce : ∀ i j di dj s, pds !! i = Some di → pds !! j = Some dj →
  record_slot di = Some s → record_slot dj = Some s → i = j).
Local Abbreviation bs := (blocks prepared events T).
Let trace := A ++ batch_calls prepared events joined T.

(** Where the block of dispatch [i] of token [t] starts, and its launch. *)
Definition base (t i : nat) : nat := length A + block_offset bs (t * n + i).
Definition pos (t i : nat) : nat :=
  base t i + match pds !! i with Some d => length (waiting_calls prepared events t d) | None => 0 end.

Lemma block_at t i d : t < T → pds !! i = Some d → bs !! (t * n + i) = Some (block_calls prepared events t d).
Proof using Type.
  clear Hok Hnd Hcreate Honce. intros Ht Hi. unfold blocks.
  rewrite (bind_seq_lookup (λ t, block_calls prepared events t <$> pds) n T t i).
  - by rewrite list_lookup_fmap, Hi.
  - intros. by rewrite length_fmap.
  - done.
  - by eapply lookup_lt_Some.
Qed.

Lemma call_at t i d k : t < T → pds !! i = Some d → k < length (block_calls prepared events t d) →
  trace !! (base t i + k) = block_calls prepared events t d !! k.
Proof using Type.
  clear Hok Hnd Hcreate Honce. intros Ht Hi Hk. unfold trace, base, batch_calls.
  rewrite lookup_app_r by lia.
  replace (length A + block_offset bs (t * n + i) + k - length A) with (block_offset bs (t * n + i) + k) by lia.
  rewrite <- (block_lookup bs _ _ k (block_at t i d Ht Hi) Hk). apply lookup_app_l.
  pose proof (block_lookup bs _ _ k (block_at t i d Ht Hi) Hk) as H.
  destruct (lookup_lt_is_Some_2 _ _ Hk) as [c Hc]. rewrite Hc in H. by eapply lookup_lt_Some.
Qed.

Lemma pos_eq t i d : pds !! i = Some d → pos t i = base t i + length (waiting_calls prepared events t d).
Proof using Type. clear Hok Hnd Hcreate Honce. intros Hi. unfold pos. by rewrite Hi. Qed.

Lemma length_block t d : length (block_calls prepared events t d) =
  length (waiting_calls prepared events t d) + S (length (record_calls prepared events t d)).
Proof using Type. clear. unfold block_calls. by rewrite length_app. Qed.

Lemma launch_at t i d : t < T → pds !! i = Some d → trace !! pos t i = Some (launch_call d).
Proof using Type.
  clear Hok Hnd Hcreate Honce. intros Ht Hi. rewrite (pos_eq t i d Hi).
  rewrite (call_at t i d) by (try done; rewrite length_block; lia). unfold block_calls.
  by apply list_lookup_middle.
Qed.

Lemma record_call_at t i d s : t < T → pds !! i = Some d → record_slot d = Some s →
  trace !! S (pos t i) = Some (EventRecord (event_at prepared events t s) (Worker (prepared_lane d))).
Proof using Type.
  clear Hok Hnd Hcreate Honce. intros Ht Hi Hs. rewrite (pos_eq t i d Hi).
  assert (record_calls prepared events t d =
    [EventRecord (event_at prepared events t s) (Worker (prepared_lane d))]) as Hr.
  { unfold record_calls. by rewrite Hs. }
  rewrite <- Nat.add_succ_r, (call_at t i d) by (try done; rewrite length_block, Hr; cbn; lia).
  unfold block_calls. rewrite lookup_app_r by lia.
  replace (S (length (waiting_calls prepared events t d)) - length (waiting_calls prepared events t d)) with 1 by lia.
  cbn. by rewrite Hr.
Qed.

Lemma wait_call_at t i d c : t < T → pds !! i = Some d → c ∈ waiting_calls prepared events t d →
  ∃ q, base t i ≤ q < pos t i ∧ trace !! q = Some c.
Proof using Type.
  clear Hok Hnd Hcreate Honce. intros Ht Hi [k Hk]%list_elem_of_lookup. pose proof (lookup_lt_Some _ _ _ Hk).
  exists (base t i + k). rewrite (pos_eq t i d Hi). split; [lia|].
  rewrite (call_at t i d) by (try done; rewrite length_block; lia). unfold block_calls. by apply lookup_app_l_Some.
Qed.

(** A block ends before the next one starts. *)
Lemma pos_base t i t' i' d : t < T → pds !! i = Some d → t * n + i < t' * n + i' →
  pos t i < base t' i' ∧ (is_Some (record_slot d) → S (pos t i) < base t' i').
Proof using Type.
  clear Hok Hnd Hcreate Honce. intros Ht Hi Hlt. rewrite (pos_eq t i d Hi). unfold base.
  pose proof (block_offset_S bs _ _ (block_at t i d Ht Hi)) as HS.
  pose proof (block_offset_mono bs (S (t * n + i)) (t' * n + i') Hlt) as Hm.
  rewrite length_block in HS. split; [lia|]. intros [s Hs].
  assert (length (record_calls prepared events t d) = 1) as H1 by (unfold record_calls; by rewrite Hs). lia.
Qed.

Lemma pos_lt t i t' i' d : t < T → pds !! i = Some d → t * n + i < t' * n + i' → pos t i < pos t' i'.
Proof using Type.
  clear Hok Hnd Hcreate Honce. intros Ht Hi Hlt. destruct (pos_base t i t' i' d Ht Hi Hlt) as [H _].
  unfold pos at 2. lia.
Qed.

(** The recorded events, block by block. *)
Let recs : list (option nat) := t ← seq 0 T; (λ d, event_at prepared events t <$> record_slot d) <$> pds.

Lemma trace_records : omap recorded_event trace = omap id recs ++ [joined].
Proof using Hcreate.
  unfold trace, batch_calls, join_calls. rewrite !omap_app.
  rewrite (omap_none _ A) by (intros c [e ->]%Hcreate; done). rewrite (omap_none _ (_ <$> _)).
  2:{ by intros c (s & -> & _)%list_elem_of_fmap. }
  cbn [app]. f_equal. rewrite omap_concat. unfold recs, blocks. fold pds. clear.
  induction (seq 0 T) as [|t l IH]; [done|]. cbn [mbind list_bind].
  rewrite fmap_app, concat_app, omap_app, IH. f_equal. clear.
  induction pds as [|d l IH]; [done|]. rewrite !fmap_cons, concat_cons, IH, block_records.
  by destruct (record_slot d).
Qed.

Lemma event_at_inj t s t' s' : t < T → t' < T → s < E → s' < E →
  event_at prepared events t s = event_at prepared events t' s' → t = t' ∧ s = s'.
Proof using Hok Hnd.
  intros Ht Ht' Hs Hs' He. apply NoDup_app in Hnd as (Hev & _ & _).
  assert (∀ t s, t < T → s < E → events !! (t * E + s) = Some (event_at prepared events t s)) as Hl.
  { intros x y Hx Hy. apply (index_Ok (E := HipBackendError)). by apply (event_lookup prepared events T Hok). }
  assert (t * E + s = t' * E + s') as H; [|by apply bank_inj in H].
  eapply (NoDup_lookup events); [exact Hev|by apply Hl|]. rewrite (Hl t' s') by done. by rewrite He.
Qed.

Lemma event_at_elem t s : t < T → s < E → event_at prepared events t s ∈ events.
Proof using Hok.
  intros Ht Hs. apply (list_elem_of_lookup_2 _ (t * E + s)). apply (index_Ok (E := HipBackendError)).
  by apply (event_lookup prepared events T Hok).
Qed.

Lemma rec_lookup m e : recs !! m = Some (Some e) →
  ∃ t i d s, t < T ∧ m = t * n + i ∧ pds !! i = Some d ∧ record_slot d = Some s ∧ e = event_at prepared events t s.
Proof using Type.
  clear Hok Hnd Hcreate Honce. intros Hm.
  assert (length recs = T * n) as Hlen.
  { unfold recs. clear. fold n. assert (∀ a, length (t ← seq a T; (λ d, event_at prepared events t <$> record_slot d) <$> pds) = T * n) as H; [|apply H].
    induction T as [|k IH]; intros a; [done|]. cbn [seq mbind list_bind]. rewrite length_app, IH, length_fmap. done. }
  pose proof (lookup_lt_Some _ _ _ Hm) as Hlt. rewrite Hlen in Hlt.
  assert (n ≠ 0) as Hn by nia. pose proof (Nat.div_mod_eq m n) as Hdm.
  pose proof (Nat.mod_upper_bound m n Hn) as Hmod.
  assert (m / n < T) as Hdiv by (apply Nat.Div0.div_lt_upper_bound; lia).
  destruct (lookup_lt_is_Some_2 pds (m `mod` n)) as [d Hd]; [done|].
  unfold recs in Hm. replace m with (m / n * n + m `mod` n) in Hm by lia.
  rewrite (bind_seq_lookup (λ t, (λ d, event_at prepared events t <$> record_slot d) <$> pds) n T) in Hm;
    [|by intros; rewrite length_fmap|done|done].
  rewrite list_lookup_fmap, Hd in Hm. cbn in Hm. injection Hm as Hm.
  destruct (record_slot d) as [s|] eqn:Hs; [|done]. injection Hm as Hm.
  exists (m / n), (m `mod` n), d, s. split; [done|]. split; [lia|]. done.
Qed.

Lemma records_NoDup : NoDup (omap recorded_event trace).
Proof using Hok Hnd Hcreate Honce.
  rewrite trace_records. apply NoDup_app. split; [|split; [|apply NoDup_singleton]].
  - apply NoDup_omap. intros i j v Hi Hj.
    destruct (rec_lookup i v Hi) as (t & x & d & s & Ht & -> & Hd & Hs & ->).
    destruct (rec_lookup j _ Hj) as (t' & x' & d' & s' & Ht' & -> & Hd' & Hs' & He).
    destruct (event_at_inj t s t' s') as [<- <-]; [done|done| | |done|].
    + apply (so_record _ _ _ Hok d s); [by apply (list_elem_of_lookup_2 _ x)|done].
    + apply (so_record _ _ _ Hok d' s'); [by apply (list_elem_of_lookup_2 _ x')|done].
    + f_equal. by eapply Honce.
  - intros v (o & Ho & Hv)%list_elem_of_omap Hj%list_elem_of_singleton. cbn in Hv. subst o v.
    apply list_elem_of_lookup in Ho as [m Hm].
    destruct (rec_lookup m _ Hm) as (t & i & d & s & Ht & -> & Hd & Hs & He).
    assert (joined ∈ events) as Hin.
    { rewrite He. apply event_at_elem; [done|].
      apply (so_record _ _ _ Hok d s); [by apply (list_elem_of_lookup_2 _ i)|done]. }
    apply NoDup_app in Hnd as (_ & Hdis & _). apply (Hdis joined Hin). set_solver.
Qed.

(** An event is recorded once. *)
Lemma record_unique q q' e s s' : trace !! q = Some (EventRecord e s) → trace !! q' = Some (EventRecord e s') → q = q'.
Proof using Hok Hnd Hcreate Honce. intros H1 H2. by eapply (omap_unique recorded_event trace _ _ _ _ e records_NoDup). Qed.

(** The join at the end. *)
Lemma join_at : trace !! (length trace - 2) = Some (EventRecord joined Coordinator) ∧
  trace !! (length trace - 1) = Some (EventSynchronize joined) ∧
  length A + length (concat bs) + 2 ≤ length trace.
Proof using Type.
  clear Hok Hnd Hcreate Honce. unfold trace, batch_calls, join_calls.
  rewrite !app_assoc. set (pre := (A ++ concat bs) ++ _).
  rewrite length_app. cbn [length]. split; [|split].
  - rewrite lookup_app_r by lia. by replace (length pre + 2 - 2 - length pre) with 0 by lia.
  - rewrite lookup_app_r by lia. by replace (length pre + 2 - 1 - length pre) with 1 by lia.
  - unfold pre. rewrite !length_app. lia.
Qed.

Lemma join_wait_at s : Some s ∈ terms → ∃ q,
  length A + length (concat bs) ≤ q < length trace - 2 ∧
  trace !! q = Some (StreamWaitEvent Coordinator (event_at prepared events (T - 1) s)).
Proof using Type.
  clear Hok Hnd Hcreate Honce. intros Hs.
  set (ws := (λ s, StreamWaitEvent Coordinator (event_at prepared events (T - 1) s)) <$> omap id terms).
  assert (StreamWaitEvent Coordinator (event_at prepared events (T - 1) s) ∈ ws) as Hin.
  { apply list_elem_of_fmap. exists s. split; [done|]. apply list_elem_of_omap. by exists (Some s). }
  apply list_elem_of_lookup in Hin as [k Hk]. pose proof (lookup_lt_Some _ _ _ Hk) as Hlt.
  exists (length A + length (concat bs) + k). unfold trace, batch_calls, join_calls. fold terms ws.
  rewrite !length_app. cbn [length]. split; [lia|].
  rewrite lookup_app_r by lia. rewrite lookup_app_r by lia. rewrite lookup_app_l by lia.
  by replace (length A + length (concat bs) + k - length A - length (concat bs)) with k by lia.
Qed.

Lemma pos_join t i d : t < T → pds !! i = Some d →
  pos t i < length A + length (concat bs) ∧
  (is_Some (record_slot d) → S (pos t i) < length A + length (concat bs)).
Proof using Type.
  clear Hok Hnd Hcreate Honce. intros Ht Hi. rewrite (pos_eq t i d Hi). unfold base.
  pose proof (block_offset_S bs _ _ (block_at t i d Ht Hi)) as HS. rewrite length_block in HS.
  pose proof (lookup_lt_Some _ _ _ (block_at t i d Ht Hi)) as Hlt.
  pose proof (block_offset_mono bs (S (t * n + i)) (length bs) Hlt) as Hm.
  unfold block_offset at 2 in Hm. rewrite take_ge in Hm by done. split; [lia|]. intros [s Hs].
  assert (length (record_calls prepared events t d) = 1) as H1 by (unfold record_calls; by rewrite Hs). lia.
Qed.
End places.

(** ** Ordering *)

(** The prepared plan carries the lowered synchronisation. *)
Record prepares (lanes : nat) (ds : list PlannedDispatch) (low : LoweredPlan) (prepared : PreparedHipPlan) : Prop := {
  pr_len : length (prepared_dispatches prepared) = length ds;
  pr_lane i dd : ds !! i = Some dd → planned_lane dd < lanes;
  pr_at i dd : ds !! i = Some dd → ∃ d, prepared_dispatches prepared !! i = Some d ∧
    prepared_lane d = planned_lane dd ∧ wait_slots_by_dispatch low !! i = Some (wait_slots d) ∧
    record_slot_by_dispatch low !! i = Some (record_slot d) ∧ lane_head_by_dispatch low !! i = Some (lane_head d);
  pr_terms : prepared_terminal_slots prepared = terminal_slot_by_lane low;
  pr_count : prepared_event_slot_count prepared = event_slot_count low;
  pr_stats : prepared_stats prepared = lowered_stats low }.

Section order.
Context (lanes : nat) (ds : list PlannedDispatch) (low : LoweredPlan) (Hlow : lowered_ok lanes ds low).
Context (prepared : PreparedHipPlan) (Hprep : prepares lanes ds low prepared).
Context (events : list nat) (joined T : nat) (A : list Call).
Context (Hlen : length events = T * event_slot_count low) (HT : T ≠ 0).
Context (Hnd : NoDup (events ++ [joined])).
Context (Hcreate : ∀ c, c ∈ A → ∃ e, c = EventCreate e).
Let n := length (prepared_dispatches prepared).
Local Abbreviation pds := (prepared_dispatches prepared).
Local Abbreviation E := (prepared_event_slot_count prepared).

(** What the plan says of a prepared dispatch. *)
Lemma prepared_at i d : pds !! i = Some d → ∃ dd, ds !! i = Some dd ∧
  prepared_lane d = planned_lane dd ∧ wait_slots_by_dispatch low !! i = Some (wait_slots d) ∧
  record_slot_by_dispatch low !! i = Some (record_slot d) ∧ lane_head_by_dispatch low !! i = Some (lane_head d).
Proof using Hprep.
  intros Hi. destruct (lookup_lt_is_Some_2 ds i) as [dd Hdd].
  { rewrite <- (pr_len _ _ _ _ Hprep). by eapply lookup_lt_Some. }
  destruct (pr_at _ _ _ _ Hprep i dd Hdd) as (d' & Hd' & H). exists dd. split; [done|].
  by replace d with d' by congruence.
Qed.

Lemma order_slots : slots_ok prepared events T.
Proof using Hlow Hprep Hlen HT.
  assert (∀ i s, record_slot_by_dispatch low !! i = Some (Some s) → s < E) as Hs.
  { intros i s H. rewrite (pr_count _ _ _ _ Hprep). by eapply (lo_slot _ _ _ Hlow). }
  split; [by rewrite (pr_count _ _ _ _ Hprep)|done| | |].
  - intros d s [i Hi]%list_elem_of_lookup Hin. destruct (prepared_at i d Hi) as (dd & Hdd & _ & Hw & _).
    destruct (lo_wait _ _ _ Hlow i dd _ s Hdd Hw Hin) as (j & dj & _ & _ & _ & _ & Hr). by eapply Hs.
  - intros d s [i Hi]%list_elem_of_lookup Hr. destruct (prepared_at i d Hi) as (dd & Hdd & _ & _ & Hr' & _).
    rewrite Hr in Hr'. by eapply Hs.
  - intros s [l Hl]%list_elem_of_lookup. rewrite (pr_terms _ _ _ _ Hprep) in Hl.
    destruct (lo_term _ _ _ Hlow l _ Hl) as (i & d & _ & _ & Hr & _). by eapply Hs.
Qed.

Lemma order_once i j di dj s : pds !! i = Some di → pds !! j = Some dj →
  record_slot di = Some s → record_slot dj = Some s → i = j.
Proof using Hlow Hprep.
  intros Hi Hj Hsi Hsj. destruct (prepared_at i di Hi) as (? & _ & _ & _ & Hri & _).
  destruct (prepared_at j dj Hj) as (? & _ & _ & _ & Hrj & _).
  eapply (lo_once _ _ _ Hlow i j s); congruence.
Qed.

Local Abbreviation trace := (A ++ batch_calls prepared events joined T).
Local Abbreviation at_ := (pos prepared events T A).
Context (start stop : nat → Z) (Hex : execution_of trace start stop).

(** The dispatches of one stream, whatever their tokens. *)
Lemma lane_order t i t' i' d d' : t < T → t' < T → pds !! i = Some d → pds !! i' = Some d' →
  prepared_lane d = prepared_lane d' → t * n + i < t' * n + i' → (stop (at_ t i) ≤ start (at_ t' i'))%Z.
Proof using Hex.
  intros Ht Ht' Hi Hi' Hl Hlt. eapply (xo_fifo _ _ _ Hex).
  - by apply (pos_lt prepared events T A t i t' i' d).
  - by apply launch_at.
  - by apply launch_at.
  - done.
  - cbn. by rewrite Hl.
Qed.

(** A wait placed after the record of its slot. *)
Lemma wait_order t i d s q st : t < T → pds !! i = Some d → record_slot d = Some s → S (at_ t i) < q →
  trace !! q = Some (StreamWaitEvent st (event_at prepared events t s)) → (stop (at_ t i) ≤ stop q)%Z.
Proof using Hlow Hprep Hlen HT Hnd Hcreate Hex.
  intros Ht Hi Hs Hq Hw.
  pose proof (record_call_at prepared events joined T A t i d s Ht Hi Hs) as Hr.
  assert (stop (at_ t i) ≤ start (S (at_ t i)))%Z as H1.
  { eapply (xo_fifo _ _ _ Hex); [lia|by apply launch_at|exact Hr|done|done]. }
  pose proof (xo_duration _ _ _ Hex (S (at_ t i))) as H2.
  assert (stop (S (at_ t i)) ≤ stop q)%Z as H3; [|lia].
  eapply (xo_wait _ _ _ Hex); [exact Hq|exact Hr|exact Hw|]. intros k s'' Hk Hk'.
  pose proof (record_unique prepared events joined T A order_slots Hnd Hcreate order_once _ _ _ _ _ Hr Hk'). lia.
Qed.

(** A wait of a dispatch orders its launch. *)
Lemma wait_launch_order t i d s t' i' d' : t < T → t' < T → pds !! i = Some d → pds !! i' = Some d' →
  record_slot d = Some s → t * n + i < t' * n + i' →
  StreamWaitEvent (Worker (prepared_lane d')) (event_at prepared events t s) ∈ waiting_calls prepared events t' d' →
  (stop (at_ t i) ≤ start (at_ t' i'))%Z.
Proof using Hlow Hprep Hlen HT Hnd Hcreate Hex.
  intros Ht Ht' Hi Hi' Hs Hlt Hin.
  destruct (wait_call_at prepared events joined T A t' i' d' _ Ht' Hi' Hin) as (q & [Hq1 Hq2] & Hq).
  destruct (pos_base prepared events T A t i t' i' d Ht Hi Hlt) as [_ Hb].
  assert (S (at_ t i) < q) as Hlt'. { specialize (Hb (mk_is_Some _ _ Hs)). lia. }
  pose proof (wait_order t i d s q _ Ht Hi Hs Hlt' Hq) as H1.
  assert (stop q ≤ start (at_ t' i'))%Z as H2; [|lia].
  eapply (xo_fifo _ _ _ Hex); [exact Hq2|exact Hq|by apply launch_at|done|done].
Qed.

(** Within a token. *)
Lemma sync_order t i j : t < T → slot_syncs ds low i j → (stop (at_ t i) ≤ start (at_ t j))%Z.
Proof using Hlow Hprep Hlen HT Hnd Hcreate Hex.
  intros Ht (di & dj & Hi & Hj & Hij & Hs).
  destruct (pr_at _ _ _ _ Hprep i di Hi) as (pi & Hpi & Hli & _ & Hri & _).
  destruct (pr_at _ _ _ _ Hprep j dj Hj) as (pj & Hpj & Hlj & Hwj & _ & _).
  destruct Hs as [Hl|(s & ws & Hrec & Hws & Hin)].
  - apply (lane_order t i t j pi pj); [done..|congruence|lia].
  - rewrite Hri in Hrec. injection Hrec as Hrec. rewrite Hwj in Hws. injection Hws as <-.
    apply (wait_launch_order t i pi s t j pj); [done..|lia|]. unfold waiting_calls. apply elem_of_app. right.
    apply list_elem_of_fmap. by exists s.
Qed.

Lemma syncs_order t i j : t < T → rtc (slot_syncs ds low) i j → i ≠ j → (stop (at_ t i) ≤ start (at_ t j))%Z.
Proof using Hlow Hprep Hlen HT Hnd Hcreate Hex.
  intros Ht Hr. induction Hr as [i|i k j Hik Hkj IH]; intros Hne; [done|].
  pose proof (sync_order t i k Ht Hik) as H1. destruct (decide (k = j)) as [<-|Hkne]; [done|].
  specialize (IH Hkne). pose proof (xo_duration _ _ _ Hex (at_ t k)). lia.
Qed.

(** Every lane has a first dispatch and, when it is used, a terminal slot. *)
Lemma lane_first i d : pds !! i = Some d → ∃ h dh, h ≤ i ∧ pds !! h = Some dh ∧
  prepared_lane dh = prepared_lane d ∧ lane_head dh = true.
Proof using Hlow Hprep.
  clear Hlen HT Hnd Hcreate Hex.
  revert d. induction (lt_wf i) as [i _ IH]. intros d Hi.
  destruct (prepared_at i d Hi) as (dd & Hdd & Hl & _ & _ & Hh).
  destruct (lane_head d) eqn:Hb; [by exists i, d|].
  assert (¬ ∀ j dj, j < i → ds !! j = Some dj → planned_lane dj ≠ planned_lane dd) as Hnot.
  { intros H. by apply (lo_head _ _ _ Hlow i dd false Hdd Hh) in H. }
  destruct (decide (Exists (λ dj, planned_lane dj = planned_lane dd) (take i ds))) as [Hex'|Hnex].
  - apply Exists_exists in Hex' as (dj & [j Hj]%list_elem_of_lookup & Hlj).
    apply lookup_take_Some in Hj as [Hj Hlt].
    destruct (pr_at _ _ _ _ Hprep j dj Hj) as (pj & Hpj & Hlpj & _).
    destruct (IH j Hlt pj Hpj) as (h & dh & Hle & Hh' & Hl' & Hhead). exists h, dh.
    split; [lia|]. do 2 (split; [congruence|]). done.
  - destruct Hnot. intros j dj Hj Hdj He. apply Hnex, Exists_exists. exists dj. split; [|done].
    apply (list_elem_of_lookup_2 _ j). by apply lookup_take_Some.
Qed.

Lemma lane_last i d : pds !! i = Some d → ∃ x dx s, i ≤ x ∧ pds !! x = Some dx ∧
  prepared_lane dx = prepared_lane d ∧ record_slot dx = Some s ∧
  prepared_terminal_slots prepared !! prepared_lane d = Some (Some s).
Proof using Hlow Hprep.
  intros Hi. destruct (prepared_at i d Hi) as (dd & Hdd & Hl & _). rewrite (pr_terms _ _ _ _ Hprep).
  destruct (lookup_lt_is_Some_2 (terminal_slot_by_lane low) (planned_lane dd)) as [o Ho].
  { rewrite (lo_term_len _ _ _ Hlow). by eapply (pr_lane _ _ _ _ Hprep). }
  pose proof (lo_term _ _ _ Hlow _ _ Ho) as H. destruct o as [s|]; [|by destruct (H i dd Hdd)].
  destruct H as (x & dx & Hx & Hlx & Hr & Hmax).
  destruct (pr_at _ _ _ _ Hprep x dx Hx) as (px & Hpx & Hlpx & _ & Hrx & _).
  exists x, px, s. rewrite Hl. split; [by eapply Hmax|]. split; [done|]. split; [by rewrite Hlpx|].
  split; [|done]. rewrite Hr in Hrx. by injection Hrx.
Qed.

(** Consecutive tokens. *)
Lemma boundary_order t i j di dj : S t < T → pds !! i = Some di → pds !! j = Some dj →
  (stop (at_ t i) ≤ start (at_ (S t) j))%Z.
Proof using Hlow Hprep Hlen HT Hnd Hcreate Hex.
  intros Ht Hi Hj. pose proof (lookup_lt_Some _ _ _ Hi) as Hin. fold n in Hin.
  destruct (decide (prepared_lane di = prepared_lane dj)) as [Hl|Hl].
  { apply (lane_order t i (S t) j di dj); [lia|done..|nia]. }
  destruct (lane_last i di Hi) as (x & dx & s & Hix & Hx & Hlx & Hs & Hterm).
  destruct (lane_first j dj Hj) as (h & dh & Hhj & Hh & Hlh & Hhead).
  pose proof (lookup_lt_Some _ _ _ Hx) as Hxn. fold n in Hxn.
  assert (stop (at_ t i) ≤ stop (at_ t x))%Z as H1.
  { destruct (decide (i = x)) as [->|Hne]; [done|].
    pose proof (lane_order t i t x di dx) as H. pose proof (xo_duration _ _ _ Hex (at_ t x)).
    assert (stop (at_ t i) ≤ start (at_ t x))%Z; [|lia]. apply H; [lia..|done|done|done|lia]. }
  assert (stop (at_ t x) ≤ start (at_ (S t) h))%Z as H2.
  { apply (wait_launch_order t x dx s (S t) h dh); [lia|done..|nia|].
    unfold waiting_calls. apply elem_of_app. left. rewrite Hhead. cbn [negb bool_decide andb].
    unfold boundary_calls. apply list_elem_of_omap. exists (prepared_lane di, Some s). split.
    - by apply elem_of_enumerate.
    - cbn. rewrite decide_False by congruence. by rewrite Nat.sub_0_r. }
  assert (start (at_ (S t) h) ≤ start (at_ (S t) j))%Z as H3; [|lia].
  destruct (decide (h = j)) as [->|Hne]; [done|]. pose proof (xo_duration _ _ _ Hex (at_ (S t) h)).
  assert (stop (at_ (S t) h) ≤ start (at_ (S t) j))%Z; [|lia]. apply (lane_order _ h _ j dh dj); [done..|lia].
Qed.

(** A token ends before any later one starts. *)
Lemma token_order t t' i j di dj : t < t' → t' < T → pds !! i = Some di → pds !! j = Some dj →
  (stop (at_ t i) ≤ start (at_ t' j))%Z.
Proof using Hlow Hprep Hlen HT Hnd Hcreate Hex.
  intros Ht HT' Hi. revert j dj. induction Ht as [|t' Ht IH]; intros j dj Hj.
  - by apply (boundary_order t i j di dj).
  - pose proof (IH ltac:(lia) i di Hi) as H1. pose proof (xo_duration _ _ _ Hex (at_ t' i)).
    pose proof (boundary_order t' i j di dj HT' Hi Hj). lia.
Qed.

(** The host returns after everything. *)
Lemma host_order t i d : t < T → pds !! i = Some d → (stop (at_ t i) ≤ stop (length trace - 1))%Z.
Proof using Hlow Hprep Hlen HT Hnd Hcreate Hex.
  intros Ht Hi. destruct (lane_last i d Hi) as (x & dx & s & Hix & Hx & Hlx & Hs & Hterm).
  destruct (join_wait_at prepared events joined T A s) as (q & [Hq1 Hq2] & Hq).
  { by eapply list_elem_of_lookup_2. }
  destruct (join_at prepared events joined T A) as (Hrec & Hsync & Hlen').
  assert (stop (at_ t i) ≤ stop (at_ (T - 1) x))%Z as H1.
  { pose proof (xo_duration _ _ _ Hex (at_ (T - 1) x)).
    destruct (decide (t = T - 1)) as [->|Hne].
    - destruct (decide (i = x)) as [->|Hne]; [done|].
      assert (stop (at_ (T - 1) i) ≤ start (at_ (T - 1) x))%Z; [|lia].
      apply (lane_order _ i _ x d dx); [lia..|done|done|done|lia].
    - pose proof (token_order t (T - 1) i x d dx ltac:(lia) ltac:(lia) Hi Hx). lia. }
  assert (stop (at_ (T - 1) x) ≤ stop q)%Z as H2.
  { apply (wait_order (T - 1) x dx s q Coordinator); [lia|done|done| |done].
    destruct (pos_join prepared events T A (T - 1) x dx) as [_ Hb]; [lia|done|]. specialize (Hb (mk_is_Some _ _ Hs)). lia. }
  assert (stop q ≤ start (length trace - 2))%Z as H3.
  { eapply (xo_fifo _ _ _ Hex); [exact Hq2|exact Hq|exact Hrec|done|done]. }
  pose proof (xo_duration _ _ _ Hex (length trace - 2)) as H4.
  assert (stop (length trace - 2) ≤ stop (length trace - 1))%Z as H5; [|lia].
  eapply (xo_sync _ _ _ Hex); [lia|exact Hrec|exact Hsync|]. intros k s'' Hk. lia.
Qed.
End order.

(** ** Events in the backend's hands *)

Definition active_held (b : HipBackend) : list nat :=
  match active b with Some a => active_events a | None => [] end.

(** The pool, the events of the active replay and those an operation holds are
    distinct, and created. *)
Definition events_ok (b : HipBackend) (held : list nat) : Prop :=
  NoDup (available_events b ++ active_held b ++ held) ∧
  ∀ e, e ∈ available_events b ++ active_held b ++ held → e < next_event b.

(** The state after operations that only create events and take them. *)
Definition after (b : HipBackend) (pool : list nat) (nx : nat) (log : list Call) : HipBackend :=
  set_log (hip_log b ++ log) (set_next_event nx (set_pool pool b)).

Definition creations (A : list Call) : Prop := ∀ c, c ∈ A → ∃ e, c = EventCreate e.

Lemma events_ok_perm b b' held held' : next_event b ≤ next_event b' →
  available_events b' ++ active_held b' ++ held' ≡ₚ available_events b ++ active_held b ++ held →
  events_ok b held → events_ok b' held'.
Proof.
  intros Hnx Hp [Hnd Hlt]. split; [by rewrite Hp|]. intros e He. rewrite Hp in He. specialize (Hlt e He). lia.
Qed.

Lemma set_log_log l l' b : set_log l (set_log l' b) = set_log l b.
Proof. done. Qed.

(** A fresh event is new to everyone. *)
Lemma events_ok_fresh b b' held : active_held b' = active_held b → available_events b' = available_events b →
  next_event b' = S (next_event b) → events_ok b held → events_ok b' (held ++ [next_event b]).
Proof.
  intros Ha Hp Hn [Hnd Hlt]. unfold events_ok. rewrite Ha, Hp, Hn, !app_assoc. split.
  - apply NoDup_app. rewrite app_assoc in Hnd. split; [done|]. split; [|apply NoDup_singleton].
    intros e He ->%list_elem_of_singleton. specialize (Hlt (next_event b)). rewrite app_assoc in Hlt. specialize (Hlt He). lia.
  - intros e [He| ->%list_elem_of_singleton]%elem_of_app; [|lia]. rewrite app_assoc in Hlt. specialize (Hlt e He). lia.
Qed.

Section acquire.
Context (runtime : list Call → api_outcome).

Lemma create_outcome b : ∃ r, Event_create runtime b =
    (after b (available_events b) (S (next_event b)) [EventCreate (next_event b)], r) ∧
  match r with Ok e => e = next_event b | Err _ => True | Panic => False end.
Proof.
  unfold Event_create. rewrite bind_unfold. cbn. rewrite bind_unfold. cbn. rewrite bind_unfold. unfold call_handle. cbn.
  destruct (runtime _); eexists; (split; [unfold after; destruct b; reflexivity|done]).
Qed.

Lemma after_app b pool nx A pool' nx' A' :
  after (after b pool nx A) pool' nx' A' = after b pool' nx' (A ++ A').
Proof. unfold after. destruct b. cbn. by rewrite app_assoc. Qed.

Lemma acquire_outcome count : ∀ acquired b, events_ok b acquired →
  ∃ pool nx A r, acquire_events runtime count acquired b = (after b pool nx A, r) ∧ creations A ∧
    match r with
    | Ok l => length l = length acquired + count ∧ events_ok (after b pool nx A) l
    | Err _ => events_ok (after b pool nx A) []
    | Panic => False
    end.
Proof.
  induction count as [|count IH]; intros acquired b Hb; cbn [acquire_events].
  - exists (available_events b), (next_event b), [], (Ok acquired). split.
    { cbn. unfold after. rewrite app_nil_r. by destruct b. }
    split; [by intros c ?%not_elem_of_nil|]. split; [lia|].
    by apply (events_ok_perm b (after b _ _ _) acquired).
  - rewrite bind_unfold. unfold pop_event. destruct (last (available_events b)) as [e|] eqn:Hl.
    + apply last_Some in Hl as [pool Hp]. rewrite Hp. rewrite length_app. cbn [length].
      rewrite Nat.add_sub, take_app_length.
      destruct (IH (acquired ++ [e]) (set_pool pool b)) as (pool' & nx & A & r & -> & HA & Hr).
      { apply (events_ok_perm b (set_pool pool b) acquired); [done| |done]. cbn. rewrite Hp.
        unfold active_held. cbn. rewrite <- !app_assoc. apply Permutation_app_head.
        rewrite !app_assoc. rewrite (Permutation_app_comm _ [e]). by rewrite <- app_assoc. }
      exists pool', nx, A, r. split; [done|]. split; [done|]. destruct r; [|done..]. rewrite length_app in Hr. cbn in Hr.
      split; [lia|apply Hr].
    + destruct (create_outcome b) as (r & -> & Hr). destruct r as [e|err|]; [|..|done].
      * subst e. destruct (IH (acquired ++ [next_event b])
          (after b (available_events b) (S (next_event b)) [EventCreate (next_event b)]))
          as (pool' & nx & A & r & -> & HA & Hr').
        { by apply (events_ok_fresh b). }
        rewrite after_app. eexists pool', nx, _, r. split; [done|]. split.
        { intros c [Hc|Hc]%elem_of_app; [|by apply HA]. apply list_elem_of_singleton in Hc as ->. by eexists. }
        rewrite after_app in Hr'. destruct r; [|done..]. rewrite length_app in Hr'. cbn in Hr'. split; [lia|apply Hr'].
      * eexists _, _, _, (Err err). split; [unfold after; cbn; by destruct b|].
        split; [by intros c ->%list_elem_of_singleton; eexists|].
        apply (events_ok_perm b (after b _ _ _) acquired); [cbn; lia| |done]. cbn. unfold active_held; cbn.
        rewrite app_nil_r, <- app_assoc. apply Permutation_app_head, Permutation_app_comm.
Qed.
End acquire.

(** ** Batches *)

Lemma ok_or_no_panic {X} (e : HipBackendError) (o : option X) : ok_or e o ≠ Panic.
Proof. by destruct o. Qed.
Lemma err_if_no_panic c (e : HipBackendError) : err_if c e ≠ Panic.
Proof. by destruct c. Qed.
Lemma require_inactive_no_panic b : require_inactive b ≠ Panic.
Proof. unfold require_inactive. by destruct (poisoned b), (active b), (batch_active b). Qed.

(** Refutes a panic of code built from checks. *)
Ltac no_panic H :=
  cbn beta in H;
  lazymatch type of H with
  | (_ ≫= _) = Panic => apply bind_Panic in H as [H|(? & _ & H)]; no_panic H
  | err_if _ _ = Panic => by apply err_if_no_panic in H
  | ok_or _ _ = Panic => by apply ok_or_no_panic in H
  | require_inactive _ = Panic => by apply require_inactive_no_panic in H
  | _ => try done
  end.

Lemma prepare_Ok b p bindings prepared :
  prepare_plan b p bindings = Ok prepared →
  ∃ low, lower_plan p = Ok low ∧ plan_lane_count p ≤ workers b ∧
    prepared_backend_id prepared = backend_id b ∧ prepared_lane_count prepared = plan_lane_count p ∧
    (lowerable (plan_lane_count p) (plan_dispatches p) →
      lowered_ok (plan_lane_count p) (plan_dispatches p) low →
      prepares (plan_lane_count p) (plan_dispatches p) low prepared).
Proof.
  intros H. unfold prepare_plan in H.
  apply bind_Ok in H as (_ & _ & H). apply bind_Ok in H as (_ & _ & H).
  apply bind_Ok in H as (u & Hl & H). apply err_if_Ok, bool_decide_eq_false in Hl.
  apply bind_Ok in H as (_ & _ & H). apply bind_Ok in H as (low & Hlow & H).
  apply bind_Ok in H as (pds & Hpds & H). apply Ok_inj in H as <-.
  exists low. split; [done|]. split; [lia|]. do 2 (split; [done|]). intros Hlw Hok.
  apply try_map_Ok in Hpds. split; cbn; try done.
  - rewrite <- (Forall2_length _ _ _ Hpds). apply length_enumerate.
  - intros i dd Hi. by apply (lw_lane _ _ Hlw i dd).
  - intros i dd Hi. assert (enumerate (plan_dispatches p) !! i = Some (i, dd)) as He.
    { unfold enumerate. by rewrite list_lookup_imap, Hi. }
    destruct (Forall2_lookup_l _ _ _ _ _ Hpds He) as (d & Hd & Hpd). exists d. split; [done|].
    unfold prepare_dispatch in Hpd. apply bind_Ok in Hpd as (_ & _ & Hpd).
    apply bind_Ok in Hpd as (f & _ & Hpd). apply bind_Ok in Hpd as (args & _ & Hpd).
    apply bind_Ok in Hpd as (ws & Hws & Hpd). apply bind_Ok in Hpd as (rs & Hrs & Hpd).
    apply bind_Ok in Hpd as (h & Hh & Hpd). apply Ok_inj in Hpd as <-.
    apply index_Ok in Hws, Hrs, Hh. done.
Qed.

Section outcome.
Context (runtime : list Call → api_outcome).

Definition drain_calls (W : nat) : list Call := StreamSynchronize <$> ((Worker <$> seq 0 W) ++ [Coordinator]).

Lemma drain_outcome b : ∃ ok, drain_all_streams runtime b = (set_log (hip_log b ++ drain_calls (workers b)) b, ok).
Proof.
  unfold drain_all_streams, drain_calls. generalize ((Worker <$> seq 0 (workers b)) ++ [Coordinator]) as l. intros l.
  revert b. induction l as [|s l IH]; intros b; cbn [drain fmap list_fmap].
  - exists true. rewrite app_nil_r. by destruct b.
  - unfold call. cbn beta zeta. destruct (IH (set_log (hip_log b ++ [StreamSynchronize s]) b)) as [ok ->].
    eexists. cbn. by rewrite <- app_assoc.
Qed.

(** The state a batch leaves behind. *)
Record batch_failed (b b' : HipBackend) (e : HipBackendError) (A sub : list Call) : Prop := {
  bf_log : hip_log b' = hip_log b ++ A ++ sub;
  bf_create : creations A;
  bf_idle : active b' = active b ∧ batch_active b' = batch_active b ∧ workers b' = workers b ∧
    backend_id b' = backend_id b;
  bf_events : events_ok b' [];
  bf_end : (sub = [] ∧ poisoned b' = poisoned b) ∨
    ∃ issued c, active b = None ∧ sub = issued ++ c :: drain_calls (workers b) ∧
      (∀ x, x ∈ issued ++ [c] → ∀ event, (recorded_event x = Some event ∨ ∃ s, x = StreamWaitEvent s event) →
        event ∉ available_events b') ∧
      (poisoned b' = true ∧ e = BatchSubmissionPoisoned ∨ poisoned b' = poisoned b ∧ e = Hip (operation_name c)) }.

(** The events a batch mentions are the ones it holds. *)
Lemma batch_events prepared events joined T x event : slots_ok prepared events T →
  x ∈ batch_calls prepared events joined T → recorded_event x = Some event ∨ (∃ s, x = StreamWaitEvent s event) →
  event ∈ events ++ [joined].
Proof.
  intros Hok Hx Hev.
  assert (∀ t s, t < T → s < prepared_event_slot_count prepared → event_at prepared events t s ∈ events ++ [joined]) as Hin.
  { intros t s Ht Hs. apply elem_of_app. left. by eapply (event_at_elem prepared events T Hok). }
  pose proof (so_tokens _ _ _ Hok) as HT. unfold batch_calls in Hx. apply elem_of_app in Hx as [Hx|Hx].
  - apply list_elem_of_In, in_concat in Hx as (bl & Hbl & Hx). apply list_elem_of_In in Hbl, Hx.
    unfold blocks in Hbl. apply list_elem_of_bind in Hbl as (t & Hbl & Ht%elem_of_seq).
    apply list_elem_of_fmap in Hbl as (d & -> & Hd). unfold block_calls, waiting_calls in Hx.
    apply elem_of_app in Hx as [Hx|Hx]; [apply elem_of_app in Hx as [Hx|Hx]|apply elem_of_cons in Hx as [->|Hx]].
    + destruct (negb (bool_decide (t = 0)) && lane_head d) eqn:Hb; [|by apply not_elem_of_nil in Hx].
      unfold boundary_calls in Hx. apply list_elem_of_omap in Hx as ([l [s|]] & Hl & He); cbn in He; [|done].
      case_decide; [done|]. injection He as <-. destruct Hev as [?|[s' [= _ <-]]]; [done|].
      apply Hin; [lia|]. eapply (so_term _ _ _ Hok). by apply elem_of_enumerate, list_elem_of_lookup_2 in Hl.
    + apply list_elem_of_fmap in Hx as (s & -> & Hs). destruct Hev as [?|[s' [= _ <-]]]; [done|].
      apply Hin; [lia|]. by eapply (so_wait _ _ _ Hok).
    + by destruct Hev as [?|[? ?]].
    + unfold record_calls in Hx. destruct (record_slot d) as [s|] eqn:Hs; [|by apply not_elem_of_nil in Hx].
      apply list_elem_of_singleton in Hx as ->. destruct Hev as [[= <-]|[? ?]]; [|done].
      apply Hin; [lia|]. by eapply (so_record _ _ _ Hok).
  - unfold join_calls in Hx. apply elem_of_app in Hx as [Hx|Hx].
    + apply list_elem_of_fmap in Hx as (s & -> & Hs). destruct Hev as [?|[s' [= _ <-]]]; [done|].
      apply Hin; [lia|]. apply list_elem_of_omap in Hs as (o & Ho & Hs). cbn in Hs. subst o. by eapply (so_term _ _ _ Hok).
    + apply elem_of_cons in Hx as [->|Hx]; [destruct Hev as [[= <-]|[? ?]]; [set_solver|done]|].
      apply list_elem_of_singleton in Hx as ->. by destruct Hev as [?|[? ?]].
Qed.

(** The checks before anything happens. *)
Definition batch_checks (prepared : PreparedHipPlan) (first : ReplayToken) (T : nat) (b : HipBackend)
    : result HipBackendError (HipBatchStats * Z * nat) :=
  require_inactive b ;;
  err_if (negb (prepared_backend_id prepared =? backend_id b)%Z) PreparedPlanBackendMismatch ;;
  err_if (bool_decide (workers b < prepared_lane_count prepared))
    (TooManyLanes (prepared_lane_count prepared) (workers b)) ;;
  stats ← calculate_batch_stats (prepared_stats prepared) (Z.of_nat (prepared_event_slot_count prepared)) (Z.of_nat T);
  last ← ok_or ReplayTokenRangeOverflow (checked_add U64_MAX (token_value first) (Z.of_nat T - 1));
  dispatch_events ← checked_product (Z.of_nat (prepared_event_slot_count prepared)) (Z.of_nat T);
  total_events ← ok_or BatchSizeOverflow (checked_add U64_MAX dispatch_events 1);
  Ok (stats, last, Z.to_nat total_events).

Lemma require_inactive_Ok b u : require_inactive b = Ok u →
  poisoned b = false ∧ active b = None ∧ batch_active b = None.
Proof.
  unfold require_inactive. intros H. apply bind_Ok in H as (v & Hp & H). apply err_if_Ok in Hp.
  destruct (active b), (batch_active b); try done.
Qed.

Lemma batch_checks_no_panic prepared first T b : batch_checks prepared first T b ≠ Panic.
Proof. unfold batch_checks, calculate_batch_stats, checked_product. intros H. no_panic H. Qed.

Lemma batch_checks_Ok prepared first T b stats last total : batch_checks prepared first T b = Ok (stats, last, total) →
  poisoned b = false ∧ active b = None ∧ batch_active b = None ∧ prepared_lane_count prepared ≤ workers b ∧
  calculate_batch_stats (prepared_stats prepared) (Z.of_nat (prepared_event_slot_count prepared)) (Z.of_nat T) = Ok stats ∧
  last = (token_value first + (Z.of_nat T - 1))%Z ∧
  total = T * prepared_event_slot_count prepared + 1.
Proof.
  unfold batch_checks. intros H. apply bind_Ok in H as (u & H1 & H). apply require_inactive_Ok in H1 as (? & ? & ?).
  apply bind_Ok in H as (u2 & _ & H). apply bind_Ok in H as (u3 & H3 & H).
  apply err_if_Ok, bool_decide_eq_false in H3. apply bind_Ok in H as (st & Hst & H).
  apply bind_Ok in H as (l & Hl & H). apply ok_or_Ok, checked_add_Some in Hl as [-> _].
  apply bind_Ok in H as (de & Hde & H). unfold checked_product in Hde. apply ok_or_Ok, checked_mul_Some in Hde as [-> _].
  apply bind_Ok in H as (te & Hte & H). apply ok_or_Ok, checked_add_Some in Hte as [-> _].
  apply Ok_inj in H. injection H as <- <- <-. do 3 (split; [done|]). split; [lia|]. split; [done|]. split; [done|]. lia.
Qed.

(** What a batch does once its events are in hand. *)
Lemma run_batch_outcome prepared events joined T b c :
  slots_ok prepared events T → (∀ d, d ∈ prepared_dispatches prepared → prepared_lane d < workers b) →
  events_ok b (events ++ [joined]) → poisoned b = false → active b = None →
  match run_batch runtime prepared events joined T c b with
  | (b', Ok c') => c' = c ∧ hip_log b' = hip_log b ++ batch_calls prepared events joined T ∧ events_ok b' [] ∧
      active b' = None ∧ batch_active b' = None ∧ poisoned b' = false
  | (b', Err e) => ∃ sub, batch_failed (set_batch_active None b) b' e [] sub
  | (_, Panic) => False
  end.
Proof.
  intros Hok Hlanes Hev Hpo Hact. unfold run_batch.
  rewrite (batch_runs prepared events joined T Hok runtime (workers b) Hlanes b eq_refl).
  assert (active_held b = []) as Hah by (unfold active_held; by rewrite Hact).
  destruct (calls_outcome runtime (batch_calls prepared events joined T) b) as [->|(pre & x & post & Hcs & ->)];
    cbn beta iota zeta.
  - split; [done|]. split; [done|]. split; [|done].
    apply (events_ok_perm b _ (events ++ [joined])); [done| |done].
    cbn. unfold active_held. cbn. rewrite Hact. by rewrite !app_nil_r.
  - rewrite bool_decide_eq_true_2 by (cbn; rewrite !length_app; cbn; lia).
    unfold recover_batch_failure. cbn [negb].
    set (b1 := set_batch_active None (set_log (hip_log b ++ pre ++ [x]) b)).
    destruct (drain_outcome b1) as [ok ->].
    assert (events_ok b1 []) as Hb1.
    { destruct Hev as [Hnd Hlt]. unfold events_ok, active_held, b1 in *. cbn. rewrite Hact in *. cbn in *.
      rewrite app_nil_r. split; [by apply NoDup_app in Hnd as (? & _ & _)|]. intros e He. apply Hlt. set_solver. }
    assert (∀ y, y ∈ pre ++ [x] → ∀ event, recorded_event y = Some event ∨ (∃ s, y = StreamWaitEvent s event) →
      event ∉ available_events b) as Hdis.
    { intros y Hy event Hev' Hin. assert (event ∈ events ++ [joined]) as H.
      { eapply (batch_events prepared events joined T y); [done| |done]. rewrite Hcs. set_solver. }
      destruct Hev as [Hnd _]. rewrite Hah in Hnd. cbn in Hnd. apply NoDup_app in Hnd as (_ & Hd & _). by apply (Hd event Hin). }
    assert ((hip_log b ++ pre ++ [x]) ++ drain_calls (workers b) = hip_log b ++ [] ++ pre ++ x :: drain_calls (workers b)) as Hlog.
    { cbn. by rewrite <- !app_assoc. }
    destruct ok; (exists (pre ++ x :: drain_calls (workers b)); split;
      [cbn; exact Hlog|by intros z ?%not_elem_of_nil|done|exact Hb1|right; exists pre, x; split; [done|]; split; [done|]; split; [exact Hdis|]]).
    + by right.
    + by left.
Qed.

Lemma replay_unfold prepared first T b : replay_serialized_batch runtime prepared first T b =
  match batch_checks prepared first T b with
  | Err e => (b, Err e)
  | Panic => (b, Panic)
  | Ok (stats, last_token, total_events) =>
      match acquire_events runtime total_events [] b with
      | (b, Ok acquired) =>
          match last acquired with
          | Some joined => run_batch runtime prepared (take (length acquired - 1) acquired) joined T
              (mkHipBatchCompletion first (mkReplayToken last_token) stats) (set_batch_active (Some first) b)
          | None => (b, Panic)
          end
      | (b, Err e) => (b, Err e)
      | (b, Panic) => (b, Panic)
      end
  end.
Proof.
  unfold replay_serialized_batch. fold (batch_checks prepared first T b).
  destruct (batch_checks prepared first T b) as [[[stats lt] total]|e|]; [|done..].
  rewrite bind_unfold. destruct (acquire_events runtime total [] b) as [b1 [l|e|]]; [|done..].
  rewrite bind_unfold. unfold lift, expect. destruct (last l); [|done]. rewrite bind_unfold. done.
Qed.

Lemma batch_outcome lanes ds low prepared first T b :
  prepares lanes ds low prepared → lowered_ok lanes ds low → prepared_lane_count prepared = lanes →
  T ≠ 0 → events_ok b [] →
  match replay_serialized_batch runtime prepared first T b with
  | (b', Ok c) => ∃ A events joined stats, creations A ∧ NoDup (events ++ [joined]) ∧
      length events = T * event_slot_count low ∧
      hip_log b' = hip_log b ++ A ++ batch_calls prepared events joined T ∧
      calculate_batch_stats (prepared_stats prepared) (Z.of_nat (event_slot_count low)) (Z.of_nat T) = Ok stats ∧
      c = mkHipBatchCompletion first (mkReplayToken (token_value first + (Z.of_nat T - 1))) stats ∧
      events_ok b' [] ∧ active b' = None ∧ batch_active b' = None ∧ poisoned b' = false
  | (b', Err e) => ∃ A sub, batch_failed b b' e A sub
  | (_, Panic) => False
  end.
Proof.
  intros Hprep Hlow Hlc HT Hev. rewrite replay_unfold.
  destruct (batch_checks prepared first T b) as [[[stats lt] total]|e|] eqn:Hchk; [| |by apply batch_checks_no_panic in Hchk].
  2:{ exists [], []. split; cbn; rewrite ?app_nil_r; try done; [by intros c ?%not_elem_of_nil|by left]. }
  apply batch_checks_Ok in Hchk as (Hpo & Hact & Hba & Hw & Hst & -> & ->).
  destruct (acquire_outcome runtime (T * prepared_event_slot_count prepared + 1) [] b Hev) as (pool & nx & A & r & -> & HA & Hr).
  destruct r as [l|e|]; [| |done].
  2:{ exists A, []. split; cbn; rewrite ?app_nil_r; try done. by left. }
  destruct Hr as [Hlen Hok]. cbn in Hlen. destruct (last l) as [joined|] eqn:Hlast.
  2:{ apply last_None in Hlast as ->. cbn in Hlen. lia. }
  apply last_Some in Hlast as [events ->]. rewrite length_app in Hlen |- *. cbn [length] in Hlen |- *.
  rewrite Nat.add_sub, take_app_length.
  assert (length events = T * event_slot_count low) as Hel by (rewrite <- (pr_count _ _ _ _ Hprep); lia).
  pose proof (order_slots lanes ds low Hlow prepared Hprep events T Hel HT) as Hsl.
  assert (∀ d, d ∈ prepared_dispatches prepared → prepared_lane d < workers b) as Hlanes.
  { intros d [i Hi]%list_elem_of_lookup. destruct (prepared_at lanes ds low prepared Hprep i d Hi) as (dd & Hdd & -> & _).
    pose proof (pr_lane _ _ _ _ Hprep i dd Hdd). lia. }
  pose proof (run_batch_outcome prepared events joined T (set_batch_active (Some first) (after b pool nx A))
    (mkHipBatchCompletion first (mkReplayToken (token_value first + (Z.of_nat T - 1))) stats) Hsl Hlanes Hok Hpo Hact) as Hrun.
  destruct (run_batch _ _ _ _ _ _ _) as [b' [c|e|]]; [| |done].
  - destruct Hrun as (-> & Hlog & Hev' & Hact' & Hba' & Hpo'). exists A, events, joined, stats.
    rewrite (pr_count _ _ _ _ Hprep) in Hst. split; [done|]. split.
    { destruct Hok as [Hnd _]. apply NoDup_app in Hnd as (_ & _ & Hnd). by apply NoDup_app in Hnd as (_ & _ & Hnd). }
    split; [done|]. split; [rewrite Hlog; cbn; by rewrite <- app_assoc|]. done.
  - destruct Hrun as (sub & [Hlog _ Hidle Hev' Hend]). exists A, sub. split; try done.
    + rewrite Hlog. cbn. by rewrite <- app_assoc.
    + by rewrite Hba.
Qed.
End outcome.

(** ** Counting commands *)

Definition sum_nat (l : list nat) : nat := foldr Nat.add 0 l.

Lemma sum_nat_app l k : sum_nat (l ++ k) = sum_nat l + sum_nat k.
Proof. unfold sum_nat. induction l as [|x l IH]; cbn; lia. Qed.

Definition count_calls (f : Call → bool) (l : list Call) : nat := sum_nat (Nat.b2n <$> (f <$> l)).

Definition launches (c : Call) : bool := match c with LaunchKernel _ _ _ _ _ _ => true | _ => false end.
Definition lane_records (c : Call) : bool := match c with EventRecord _ (Worker _) => true | _ => false end.
Definition lane_waits (c : Call) : bool := match c with StreamWaitEvent (Worker _) _ => true | _ => false end.
Definition join_waits (c : Call) : bool := match c with StreamWaitEvent Coordinator _ => true | _ => false end.
Definition join_records (c : Call) : bool := match c with EventRecord _ Coordinator => true | _ => false end.
Definition host_syncs (c : Call) : bool :=
  match c with EventSynchronize _ | StreamSynchronize _ => true | _ => false end.

Lemma count_cons f c l : count_calls f (c :: l) = Nat.b2n (f c) + count_calls f l.
Proof. done. Qed.

Lemma count_app f l k : count_calls f (l ++ k) = count_calls f l + count_calls f k.
Proof. unfold count_calls. by rewrite !fmap_app, sum_nat_app. Qed.

Lemma count_concat f ls : count_calls f (concat ls) = sum_nat (count_calls f <$> ls).
Proof. induction ls as [|l ls IH]; [done|]. cbn [concat]. by rewrite count_app, IH. Qed.

Lemma count_const f (v : bool) l : (∀ c, c ∈ l → f c = v) → count_calls f l = Nat.b2n v * length l.
Proof.
  induction l as [|c l IH]; intros H; [by rewrite Nat.mul_0_r|].
  rewrite count_cons, (H c), IH by set_solver. cbn [length]. lia.
Qed.

Lemma sum_const {X} (g : X → nat) v l : (∀ x, x ∈ l → g x = v) → sum_nat (g <$> l) = v * length l.
Proof.
  induction l as [|x l IH]; intros H; [cbn; lia|]. rewrite fmap_cons. cbn [sum_nat foldr length].
  fold (sum_nat (g <$> l)). rewrite (H x), IH by set_solver. lia.
Qed.

(** The blocks of the tokens, counted. *)
Lemma count_blocks f prepared events T : count_calls f (concat (blocks prepared events T)) =
  sum_nat ((λ t, sum_nat ((λ d, count_calls f (block_calls prepared events t d)) <$> prepared_dispatches prepared)) <$> seq 0 T).
Proof.
  rewrite count_concat. unfold blocks. induction (seq 0 T) as [|t l IH]; [done|].
  cbn [mbind list_bind]. by rewrite fmap_app, sum_nat_app, IH, <- list_fmap_compose.
Qed.

Lemma omap_fmap_id {X Y} (g : X → option Y) (l : list X) : omap id (g <$> l) = omap g l.
Proof. induction l as [|x l IH]; [done|]. cbn. rewrite IH. by destruct (g x). Qed.

Lemma length_omap_enumerate {X} (g : nat * option X → option nat) (l : list (option X)) :
  (∀ i o, is_Some (g (i, o)) ↔ is_Some o) → length (omap g (enumerate l)) = length (omap id l).
Proof.
  intros Hg. rewrite <- omap_fmap_id. apply length_omap_Forall2, Forall2_same_length_lookup.
  rewrite length_fmap, length_enumerate. split; [done|]. intros i a b Ha Hb. unfold enumerate in Ha.
  rewrite list_lookup_fmap, list_lookup_imap, Hb in Ha. cbn in Ha. injection Ha as <-. apply Hg.
Qed.

Lemma boundary_waits_only prepared events t lane c : c ∈ boundary_calls prepared events t lane → ∃ e, c = StreamWaitEvent (Worker lane) e.
Proof.
  unfold boundary_calls. intros ([l [s|]] & _ & He)%list_elem_of_omap; cbn in He; [|done].
  case_decide; [done|]. injection He as <-. by eexists.
Qed.

Lemma waiting_waits_only prepared events t d c : c ∈ waiting_calls prepared events t d →
  ∃ e, c = StreamWaitEvent (Worker (prepared_lane d)) e.
Proof.
  unfold waiting_calls. intros [H|H]%elem_of_app.
  - destruct (_ && _); [by eapply boundary_waits_only|by apply not_elem_of_nil in H].
  - apply list_elem_of_fmap in H as (s & -> & _). by eexists.
Qed.

Lemma count_block prepared events f t d : count_calls f (block_calls prepared events t d) =
  count_calls f (waiting_calls prepared events t d) + (Nat.b2n (f (launch_call d)) +
    count_calls f (record_calls prepared events t d)).
Proof. unfold block_calls. rewrite count_app. done. Qed.

(** A lane head waits for every other used lane. *)
Lemma length_others {X} (h : nat → X) lane (l : list (option nat)) s : l !! lane = Some (Some s) →
  S (length (omap (λ e : nat * option nat, s ← e.2; if decide (e.1 = lane) then None else Some (h s)) (enumerate l))) =
    length (omap id l).
Proof.
  unfold enumerate. intros Hs.
  set (g := λ e : nat * option nat, s ← e.2; if decide (e.1 = lane) then None else Some (h s)).
  assert (∀ l a, (lane < a → length (omap g (imap (λ i, pair (a + i)) l)) = length (omap id l)) ∧
    (a ≤ lane → l !! (lane - a) = Some (Some s) → S (length (omap g (imap (λ i, pair (a + i)) l))) = length (omap id l))) as H.
  { clear l Hs. induction l as [|o l IH]; intros a; [done|].
    assert (imap ((λ i, pair (a + i)) ∘ S) l = imap (λ i, pair (S a + i)) l) as Hi.
    { apply imap_ext. intros i x _. cbn. f_equal. lia. }
    rewrite imap_cons, Hi. destruct (IH (S a)) as [IH1 IH2]. clear Hi.
    set (K := imap (λ i, pair (S a + i)) l) in *. clearbody K. rewrite Nat.add_0_r. split.
    - intros Hlt. specialize (IH1 ltac:(lia)). destruct o as [x|]; cbn; [|done].
      rewrite decide_False by lia. cbn. by rewrite IH1.
    - intros Hle Hx. destruct (decide (lane = a)) as [->|Hne].
      + rewrite Nat.sub_diag in Hx. injection Hx as ->. cbn. rewrite decide_True by lia. rewrite IH1 by lia. done.
      + replace (lane - a) with (S (lane - S a)) in Hx by lia. specialize (IH2 ltac:(lia) Hx).
        destruct o as [x|]; cbn; [|done]. rewrite decide_False by lia. cbn. by rewrite IH2. }
  destruct (H l 0) as [_ H0]. rewrite Nat.sub_0_r in H0. apply H0; [lia|done].
Qed.

Lemma sum_omap {X Y} (g : X → option Y) v l :
  sum_nat ((λ x, if bool_decide (is_Some (g x)) then v else 0) <$> l) = v * length (omap g l).
Proof.
  induction l as [|x l IH]; [cbn; lia|]. rewrite fmap_cons. cbn [sum_nat foldr omap list_omap].
  fold (sum_nat ((λ x, if bool_decide (is_Some (g x)) then v else 0) <$> l)). rewrite IH.
  destruct (g x) as [y|]; cbn [length]; case_bool_decide as H; try lia; [by destruct H; eauto|by destruct H].
Qed.

Lemma sum_plus {X} (g h : X → nat) l : sum_nat ((λ x, g x + h x) <$> l) = sum_nat (g <$> l) + sum_nat (h <$> l).
Proof. induction l as [|x l IH]; [done|]. rewrite !fmap_cons. cbn [sum_nat foldr]. unfold sum_nat in IH. rewrite IH. lia. Qed.

Lemma sum_ext {X} (g h : X → nat) l : (∀ x, x ∈ l → g x = h x) → sum_nat (g <$> l) = sum_nat (h <$> l).
Proof.
  induction l as [|x l IH]; intros H; [done|]. rewrite !fmap_cons. cbn [sum_nat foldr].
  unfold sum_nat in IH. rewrite IH, (H x) by set_solver. done.
Qed.

Lemma total_waits_sum wss : total_waits wss = Z.of_nat (sum_nat (length <$> wss)).
Proof.
  induction wss as [|ws wss IH]; [done|]. cbn [total_waits foldr fmap list_fmap sum_nat].
  unfold total_waits, sum_nat in IH. rewrite IH. lia.
Qed.

Section counts.
Context (lanes : nat) (ds : list PlannedDispatch) (low : LoweredPlan) (Hlow : lowered_ok lanes ds low).
Context (prepared : PreparedHipPlan) (Hprep : prepares lanes ds low prepared).
Context (events : list nat) (joined T : nat) (A : list Call) (HT : T ≠ 0) (HA : creations A).
Local Abbreviation pds := (prepared_dispatches prepared).
Local Abbreviation terms := (prepared_terminal_slots prepared).
Let n := length pds.
Let L := length (omap id terms).

(** Every used lane has one head. *)
Definition head_lane (d : PreparedDispatch) : option nat := if lane_head d then Some (prepared_lane d) else None.

Lemma heads_count : length (omap head_lane pds) = L.
Proof using Hlow Hprep.
  clear HT HA.
  set (tl := omap (λ e : nat * option nat, _ ← e.2; Some e.1) (enumerate terms)).
  assert (length tl = L) as HL.
  { apply length_omap_enumerate. intros i [x|]; cbn; split; intros [? ?]; eauto; done. }
  assert (∀ l, l ∈ tl ↔ ∃ s, terms !! l = Some (Some s)) as Htl.
  { intros l. unfold tl. rewrite list_elem_of_omap. split.
    - intros ([k [s|]] & Hk & He); [|done]. injection He as <-. exists s. by apply elem_of_enumerate in Hk.
    - intros [s Hs]. exists (l, Some s). split; [by apply elem_of_enumerate|done]. }
  assert (∀ i j di dj, pds !! i = Some di → pds !! j = Some dj → lane_head di = true → lane_head dj = true →
    prepared_lane di = prepared_lane dj → i ≤ j) as Hone.
  { intros i j di dj Hi Hj Hhi Hhj Hl. destruct (prepared_at _ _ _ _ Hprep i di Hi) as (ddi & Hdi & Hli & _ & _ & Hh).
    destruct (prepared_at _ _ _ _ Hprep j dj Hj) as (ddj & Hdj & Hlj & _).
    destruct (decide (i ≤ j)) as [|Hlt]; [done|]. rewrite Hhi in Hh.
    destruct (proj1 (lo_head _ _ _ Hlow i ddi true Hdi Hh) eq_refl j ddj); [lia|done|congruence]. }
  assert (omap head_lane pds ≡ₚ tl) as Hp; [|by rewrite <- HL, <- Hp].
  apply NoDup_Permutation.
  - rewrite <- omap_fmap_id. apply NoDup_omap. intros i j l Hi Hj. rewrite list_lookup_fmap in Hi, Hj.
    destruct (pds !! i) as [di|] eqn:Ei; [|done]. destruct (pds !! j) as [dj|] eqn:Ej; [|done].
    cbn in Hi, Hj. unfold head_lane in Hi, Hj. destruct (lane_head di) eqn:Hhi; [|done].
    destruct (lane_head dj) eqn:Hhj; [|done]. injection Hi as Hi. injection Hj as Hj.
    pose proof (Hone i j di dj Ei Ej Hhi Hhj). pose proof (Hone j i dj di Ej Ei Hhj Hhi). apply Nat.le_antisymm; auto with congruence.
  - unfold tl. rewrite <- omap_fmap_id. apply NoDup_omap. intros i j l Hi Hj. unfold enumerate in *.
    rewrite list_lookup_fmap, list_lookup_imap in Hi, Hj. destruct (terms !! i) as [[?|]|]; [|done..].
    destruct (terms !! j) as [[?|]|]; [|done..]. cbn in *. congruence.
  - intros l. rewrite Htl, list_elem_of_omap. split.
    + intros (d & [i Hi]%list_elem_of_lookup & Hd). unfold head_lane in Hd. destruct (lane_head d); [|done].
      injection Hd as <-. destruct (lane_last lanes ds low Hlow prepared Hprep i d Hi) as (x & dx & s & _ & _ & _ & _ & Ht). by exists s.
    + intros [s Hs]. rewrite (pr_terms _ _ _ _ Hprep) in Hs.
      destruct (lo_term _ _ _ Hlow l _ Hs) as (i & dd & Hdd & Hl & _).
      destruct (pr_at _ _ _ _ Hprep i dd Hdd) as (d & Hd & Hld & _).
      destruct (lane_first lanes ds low Hlow prepared Hprep i d Hd) as (h & dh & _ & Hh & Hlh & Hhead).
      exists dh. split; [by eapply list_elem_of_lookup_2|]. unfold head_lane. rewrite Hhead. f_equal. congruence.
Qed.

Lemma slots_fmap : record_slot_by_dispatch low = record_slot <$> pds ∧ wait_slots_by_dispatch low = wait_slots <$> pds.
Proof using Hlow Hprep.
  clear HT HA. split; apply list_eq_same_length with n.
  - unfold n. by rewrite length_fmap.
  - unfold n. by rewrite (lo_record_len _ _ _ Hlow), (pr_len _ _ _ _ Hprep).
  - intros i x y Hi Hx Hy. destruct (lookup_lt_is_Some_2 pds i Hi) as [d Hd].
    destruct (prepared_at _ _ _ _ Hprep i d Hd) as (? & _ & _ & _ & Hr & _).
    rewrite list_lookup_fmap, Hd in Hy. cbn in Hy. congruence.
  - unfold n. by rewrite length_fmap.
  - unfold n. by rewrite (lo_wait_len _ _ _ Hlow), (pr_len _ _ _ _ Hprep).
  - intros i x y Hi Hx Hy. destruct (lookup_lt_is_Some_2 pds i Hi) as [d Hd].
    destruct (prepared_at _ _ _ _ Hprep i d Hd) as (? & _ & _ & Hr & _).
    rewrite list_lookup_fmap, Hd in Hy. cbn in Hy. congruence.
Qed.

Local Abbreviation trace := (A ++ batch_calls prepared events joined T).

(** A count that skips the creations and the blocks. *)
Lemma count_trace f : (∀ e, f (EventCreate e) = false) → count_calls f trace =
  sum_nat ((λ t, sum_nat ((λ d, count_calls f (block_calls prepared events t d)) <$> pds)) <$> seq 0 T) +
  count_calls f (join_calls prepared events joined T).
Proof using HA.
  intros Hf. unfold batch_calls. rewrite !count_app, count_blocks.
  rewrite (count_const f false A); [done|]. intros c [e ->]%HA. apply Hf.
Qed.

Lemma count_waiting f t d v : (∀ s e, f (StreamWaitEvent (Worker s) e) = v) →
  count_calls f (waiting_calls prepared events t d) = Nat.b2n v * length (waiting_calls prepared events t d).
Proof using Type.
  intros Hf. apply count_const. intros c Hc. by destruct (waiting_waits_only _ _ _ _ _ Hc) as [e ->].
Qed.

Lemma count_launches : count_calls launches trace = n * T.
Proof using HA.
  clear HT.
  rewrite count_trace by done. rewrite (sum_const _ n).
  2:{ intros t _. rewrite (sum_const _ 1); [unfold n; lia|]. intros d _. rewrite count_block.
      rewrite (count_waiting _ _ _ false) by done. cbn. unfold record_calls. by destruct (record_slot d). }
  rewrite length_seq. unfold join_calls. rewrite count_app, (count_const _ false).
  - cbn. lia.
  - by intros c (s & -> & _)%list_elem_of_fmap.
Qed.

Lemma count_records : count_calls lane_records trace = event_slot_count low * T.
Proof using Hlow Hprep HA.
  clear HT.
  rewrite count_trace by done. rewrite (sum_const _ (event_slot_count low)).
  2:{ intros t _. rewrite (lo_events _ _ _ Hlow), (proj1 slots_fmap), omap_fmap_id.
      rewrite <- (Nat.mul_1_l (length _)), <- (sum_omap record_slot 1). apply sum_ext. intros d _. rewrite count_block.
      rewrite (count_waiting _ _ _ false) by done. unfold record_calls.
      destruct (record_slot d); [by rewrite bool_decide_eq_true_2 by eauto|].
      by rewrite bool_decide_eq_false_2 by (by intros []). }
  rewrite length_seq. unfold join_calls. rewrite count_app, (count_const _ false).
  - cbn. lia.
  - by intros c (s & -> & _)%list_elem_of_fmap.
Qed.

Lemma count_join : count_calls join_waits trace = L ∧ count_calls join_records trace = 1 ∧
  count_calls host_syncs trace = 1.
Proof using HT HA.
  assert (∀ f, (∀ e, f (EventCreate e) = false) → (∀ c s, f (StreamWaitEvent (Worker s) c) = false) →
    (∀ d, f (launch_call d) = false) → (∀ e s, f (EventRecord e (Worker s)) = false) →
    count_calls f trace = count_calls f (join_calls prepared events joined T)) as H.
  { intros f H1 H2 H3 H4. rewrite count_trace by done. rewrite (sum_const _ 0); [done|].
    intros t _. rewrite (sum_const _ 0); [done|]. intros d _. rewrite count_block.
    rewrite (count_waiting _ _ _ false) by done. rewrite H3. unfold record_calls.
    destruct (record_slot d); cbn; [by rewrite H4|done]. }
  rewrite !H by done. unfold join_calls. rewrite !count_app.
  rewrite (count_const join_waits true), (count_const join_records false), (count_const host_syncs false).
  - rewrite length_fmap. cbn. fold L. lia.
  - by intros c (s & -> & _)%list_elem_of_fmap.
  - by intros c (s & -> & _)%list_elem_of_fmap.
  - by intros c (s & -> & _)%list_elem_of_fmap.
Qed.

(** The waits of one token. *)
Lemma count_token_waits t : sum_nat ((λ d, count_calls lane_waits (block_calls prepared events t d)) <$> pds) =
  (if bool_decide (t = 0) then 0 else (L - 1) * L) + sum_nat (length <$> wait_slots_by_dispatch low).
Proof using Hlow Hprep.
  clear HT HA. rewrite (proj2 slots_fmap), <- list_fmap_compose. rewrite <- heads_count at 2.
  assert ((if bool_decide (t = 0) then 0 else (L - 1) * length (omap head_lane pds)) =
    sum_nat ((λ d, if bool_decide (t = 0) then 0 else if bool_decide (is_Some (head_lane d)) then L - 1 else 0) <$> pds)) as ->.
  { case_bool_decide; [by rewrite (sum_const _ 0)|by rewrite sum_omap]. }
  rewrite <- sum_plus. apply sum_ext. intros d [i Hi]%list_elem_of_lookup. rewrite count_block.
  rewrite (count_waiting _ _ _ true) by done.
  assert (count_calls lane_waits (record_calls prepared events t d) = 0) as -> by (unfold record_calls; by destruct (record_slot d)).
  unfold waiting_calls. rewrite length_app, length_fmap. cbn.
  assert (length (if negb (bool_decide (t = 0)) && lane_head d then boundary_calls prepared events t (prepared_lane d) else []) =
    (if bool_decide (t = 0) then 0 else if bool_decide (is_Some (head_lane d)) then L - 1 else 0)) as ->; [|lia].
  case_bool_decide as Ht; cbn; [done|]. unfold head_lane. destruct (lane_head d); [|by rewrite bool_decide_eq_false_2; [|intros []]].
  rewrite bool_decide_eq_true_2 by eauto.
  destruct (lane_last lanes ds low Hlow prepared Hprep i d Hi) as (x & dx & s & _ & _ & _ & _ & Hterm).
  pose proof (length_others (λ s, StreamWaitEvent (Worker (prepared_lane d)) (event_at prepared events (t - 1) s)) _ _ _ Hterm) as H.
  unfold L. rewrite <- H, Nat.sub_succ, Nat.sub_0_r. reflexivity.
Qed.

Lemma count_waits : count_calls lane_waits trace =
  (T - 1) * ((L - 1) * L) + T * sum_nat (length <$> wait_slots_by_dispatch low).
Proof using Hlow Hprep HT HA.
  rewrite count_trace by done. unfold join_calls. rewrite count_app, (count_const _ false (_ <$> _)).
  2:{ by intros c (s & -> & _)%list_elem_of_fmap. }
  rewrite (sum_ext _ (λ t, (if bool_decide (t = 0) then 0 else (L - 1) * L) + sum_nat (length <$> wait_slots_by_dispatch low)))
    by (intros t _; apply count_token_waits).
  rewrite sum_plus, (sum_const (λ _, sum_nat _) _ (seq 0 T)), length_seq by done.
  destruct T as [|k]; [done|]. cbn [seq]. rewrite fmap_cons. cbn [sum_nat foldr].
  assert (foldr Nat.add 0 ((λ t, if bool_decide (t = 0) then 0 else (L - 1) * L) <$> seq 1 k) = (L - 1) * L * k) as ->.
  { transitivity ((L - 1) * L * length (seq 1 k)); [|by rewrite length_seq]. apply sum_const.
    intros t Ht%elem_of_seq. by rewrite bool_decide_eq_false_2 by lia. }
  rewrite bool_decide_eq_true_2 by done. cbn. lia.
Qed.
End counts.

(** ** The life of a backend *)

(** Between operations: events are distinct, no batch is under way, and a replay
    is active only on a healthy backend with enough workers. *)
Record hip_inv (b : HipBackend) : Prop := {
  hi_events : events_ok b [];
  hi_batch : batch_active b = None;
  hi_active a : active b = Some a → active_lane_count a ≤ workers b ∧ poisoned b = false }.

Lemma events_ok_drop b held : events_ok b held → events_ok b [].
Proof.
  intros [Hnd Hlt]. rewrite app_assoc in Hnd. apply NoDup_app in Hnd as (Hnd & _ & _). unfold events_ok.
  rewrite app_nil_r. split; [done|]. intros e He. apply Hlt. set_solver.
Qed.

Section lifecycle.
Context (runtime : list Call → api_outcome).

(** Programs that only issue calls. *)
Definition log_only {A} (m : HM A) : Prop :=
  ∀ b, ∃ log r, m b = (set_log (hip_log b ++ log) b, r) ∧ r ≠ Panic.

Lemma log_only_call c : log_only (call runtime c).
Proof. intros b. exists [c]. unfold call. cbn. destruct (runtime _); eexists; done. Qed.

Lemma log_only_ret {A} (a : A) : log_only (mret a).
Proof. intros b. exists [], (Ok a). rewrite app_nil_r. by destruct b. Qed.

Lemma log_only_bind {A B} (m : HM A) (f : A → HM B) : log_only m → (∀ a, log_only (f a)) → log_only (m ≫= f).
Proof.
  intros Hm Hf b. rewrite bind_unfold. destruct (Hm b) as (l & r & -> & Hr). destruct r as [a|e|]; [|by eauto|done].
  destruct (Hf a (set_log (hip_log b ++ l) b)) as (l' & r & -> & Hr'). exists (l ++ l'), r. split; [|done].
  cbn. by rewrite app_assoc.
Qed.

Lemma log_only_for_each {A} (f : A → HM unit) l : (∀ x, log_only (f x)) → log_only (for_each_m f l).
Proof.
  intros Hf. induction l as [|x l IH]; [apply log_only_ret|]. cbn [for_each_m]. by apply log_only_bind.
Qed.

(** Taking one event from the pool, or a new one. *)
Lemma take_event_outcome b : events_ok b [] → ∃ pool nx A r,
  (pooled ← pop_event; match pooled with Some e => mret e | None => Event_create runtime end) b =
    (after b pool nx A, r) ∧
  match r with Ok e => events_ok (after b pool nx A) [e] | Err _ => events_ok (after b pool nx A) [] | Panic => False end.
Proof.
  intros Hb. rewrite bind_unfold. unfold pop_event. destruct (last (available_events b)) as [e|] eqn:Hl.
  - apply last_Some in Hl as [pool Hp]. rewrite Hp, length_app. cbn [length]. rewrite Nat.add_sub, take_app_length.
    exists pool, (next_event b), [], (Ok e). split.
    { cbn. unfold after. cbn. rewrite app_nil_r. by destruct b. }
    apply (events_ok_perm b _ []); [done| |done]. cbn. rewrite Hp. unfold active_held. cbn.
    rewrite app_nil_r, <- app_assoc. apply Permutation_app_head, Permutation_app_comm.
  - destruct (create_outcome runtime b) as (r & -> & Hr). destruct r as [e|err|]; [..|done].
    + subst e. eexists _, _, _, _. split; [done|]. by apply (events_ok_fresh b _ []).
    + eexists _, _, _, _. split; [done|]. apply (events_ok_perm b _ []); [cbn; lia|done|done].
Qed.

(** Recovery keeps the invariant. *)
Lemma recover_inv cause b : events_ok b [] → batch_active b = None →
  (∀ a, active b = Some a → active_lane_count a ≤ workers b ∧ poisoned b = false) →
  hip_inv (recover_adapter_failure runtime cause b).1.
Proof.
  intros Hev Hb Ha. unfold recover_adapter_failure. destruct (active b) as [a|] eqn:Hact; [|cbn; by split; [done|done|intros a; rewrite Hact]].
  assert (events_ok (set_active None b) []) as Hev'.
  { destruct Hev as [Hnd Hlt]. unfold events_ok, active_held. cbn. rewrite app_nil_r.
    split; [by apply NoDup_app in Hnd as (? & _ & _)|]. intros e He. apply Hlt. set_solver. }
  destruct (active_submitted a); [|by split].
  destruct (drain_outcome runtime (set_active None b)) as [ok ->]. by destruct ok; split.
Qed.

Lemma recovering_inv {A} (m : HM A) b :
  (match m b with
   | (b', Ok _) => hip_inv b'
   | (b', Err _) => events_ok b' [] ∧ batch_active b' = None ∧
       ∀ a, active b' = Some a → active_lane_count a ≤ workers b' ∧ poisoned b' = false
   | (_, Panic) => False
   end) → hip_inv (recovering runtime m b).1 ∧ (recovering runtime m b).2 ≠ Panic.
Proof.
  unfold recovering. destruct (m b) as [b' [a|e|]]; [done| |done]. intros (H1 & H2 & H3).
  pose proof (recover_inv e b' H1 H2 H3). by destruct (recover_adapter_failure runtime e b').
Qed.

Lemma bind_assoc {X Y Z} (m : HM X) (f : X → HM Y) (g : Y → HM Z) b :
  (m ≫= λ x, f x ≫= g) b = ((m ≫= f) ≫= g) b.
Proof. rewrite !bind_unfold. by destruct (m b) as [? []]. Qed.

(** After calls, nothing but the log has changed. *)
Lemma log_only_step {X Y} (m : HM X) (f : X → HM Y) b (Q : HipBackend * result HipBackendError Y → Prop) :
  log_only m → (∀ log a, Q (f a (set_log (hip_log b ++ log) b))) →
  (∀ log e, Q (set_log (hip_log b ++ log) b, Err e)) → Q ((m ≫= f) b).
Proof.
  intros Hm Hok Herr. rewrite bind_unfold. destruct (Hm b) as (l & r & -> & Hr). by destruct r.
Qed.

Lemma pack_no_panic args resources bindings : PackedArguments_new args resources bindings ≠ Panic.
Proof.
  unfold PackedArguments_new. generalize (enumerate args). intros l.
  assert (∀ x, pack_argument resources bindings x ≠ Panic) as Hx.
  { intros [i a] H. unfold pack_argument, AlignedArgument_new in H.
    destruct a as [bytes|slot size|resource offset]; no_panic H. }
  induction l as [|x l IH]; cbn [try_map]; [done|]. rewrite bind_Panic. intros [H|(y & _ & H)]; [by apply Hx in H|].
  rewrite bind_Panic in H. destruct H as [H|(ys & _ & H)]; done.
Qed.

Lemma for_each_err_no_panic {X} (f : X → result HipBackendError unit) l : (∀ x, f x ≠ Panic) → for_each f l ≠ Panic.
Proof. intros H. apply for_each_no_panic. intros x _. apply H. Qed.

Lemma check_dispatch_no_panic b request : check_dispatch b request ≠ Panic.
Proof.
  unfold check_dispatch, validate_accesses. intros H. no_panic H.
  - revert H. apply for_each_err_no_panic. intros y Hy. unfold hip_check_access in Hy. no_panic Hy.
  - revert H. apply for_each_err_no_panic. intros y Hy. no_panic Hy.
  - by apply pack_no_panic in H.
Qed.

Lemma check_dispatch_Ok b request x : check_dispatch b request = Ok x →
  ∃ a, active b = Some a ∧ active_token a = request_token request ∧ request_lane request < active_lane_count a.
Proof.
  unfold check_dispatch. intros H. apply bind_Ok in H as (a & Ha & H). apply ok_or_Ok in Ha.
  apply bind_Ok in H as (u1 & H1 & H). apply err_if_Ok, negb_false_iff, bool_decide_eq_true in H1.
  apply bind_Ok in H as (u2 & H2 & H). apply err_if_Ok, bool_decide_eq_false in H2. exists a. split; [done|]. split; [done|]. lia.
Qed.

(** [dispatch] keeps the invariant on every outcome. *)
Lemma dispatch_inv b request : hip_inv b →
  hip_inv (hip_dispatch runtime b request).1 ∧ (hip_dispatch runtime b request).2 ≠ Panic.
Proof.
  intros [Hev Hba Hact]. apply recovering_inv. unfold dispatch_inner.
  destruct (check_dispatch b request) as [[function packed]|e|] eqn:Hc; [|done|by apply check_dispatch_no_panic in Hc].
  apply check_dispatch_Ok in Hc as (a & Ha & _ & Hlane). destruct (Hact a Ha) as [Hw Hpo].
  rewrite bind_assoc, bind_unfold. destruct (take_event_outcome b Hev) as (pool & nx & A & r & -> & Hr).
  destruct r as [event|e|]; [|by split|done].
  rewrite bind_unfold. unfold update_active at 1. cbn [active after set_log set_next_event set_pool]. rewrite Ha.
  rewrite bind_unfold. cbn [gets]. rewrite bind_unfold.
  rewrite (bool_decide_eq_true_2 (request_lane request < workers _)) by (cbn; lia). cbn [lift assert].
  set (b2 := set_active (Some (mark_submitted a)) _).
  assert (events_ok b2 [event]) as Hb2.
  { destruct Hr as [Hnd Hlt]. unfold events_ok, active_held in *. cbn in *. rewrite Ha in *. done. }
  assert (∀ log, events_ok (set_log (hip_log b2 ++ log) b2) [] ∧ batch_active (set_log (hip_log b2 ++ log) b2) = None ∧
    ∀ a', active (set_log (hip_log b2 ++ log) b2) = Some a' →
      active_lane_count a' ≤ workers (set_log (hip_log b2 ++ log) b2) ∧
      poisoned (set_log (hip_log b2 ++ log) b2) = false) as Herr.
  { intros log. split; [by apply (events_ok_drop b2 [event])|]. split; [done|]. by intros a' [= <-]. }
  assert (∀ log, active (set_log (hip_log b2 ++ log) b2) = Some (mark_submitted a)) as Hmark by done.
  assert (∀ log, hip_inv (set_active (Some (push_event event (mark_submitted a))) (set_log (hip_log b2 ++ log) b2))) as Hfin.
  { intros log. split; [|done|by intros a' [= <-]].
    apply (events_ok_perm b2 _ [event]); [done| |exact Hb2]. cbn. unfold active_held. cbn. by rewrite app_nil_r. }
  clearbody b2.
  apply log_only_step; [| |intros log _; apply Herr].
  { apply log_only_for_each. intros sg. case_bool_decide; [apply log_only_ret|apply log_only_call]. }
  intros l1 _. apply log_only_step; [apply log_only_call| |]; cbn [hip_log set_log]; intros l2 x2;
    rewrite ?set_log_log, <- app_assoc; [|apply Herr].
  apply log_only_step; [apply log_only_call| |]; cbn [hip_log set_log]; intros l3 x3;
    rewrite ?set_log_log, <- app_assoc; [|apply Herr].
  rewrite bind_unfold. unfold update_active. rewrite Hmark. apply Hfin.
Qed.

(** [end_replay] keeps the invariant on every outcome. *)
Lemma end_inv b replay : hip_inv b →
  hip_inv (hip_end_replay runtime b replay).1 ∧ (hip_end_replay runtime b replay).2 ≠ Panic.
Proof.
  intros [Hev Hba Hact]. apply recovering_inv. unfold end_inner.
  match goal with |- context [match ?m with Ok _ => _ | Err _ => _ | Panic => _ end] => destruct m as [u|e|] eqn:Hc end;
    [|done|].
  2:{ no_panic Hc. revert Hc. apply for_each_err_no_panic. intros y Hy. no_panic Hy. }
  apply bind_Ok in Hc as (a & Ha & _). apply ok_or_Ok in Ha. destruct (Hact a Ha) as [Hw Hpo].
  rewrite bind_unfold. destruct (create_outcome runtime b) as (r & -> & Hr).
  assert (events_ok (after b (available_events b) (S (next_event b)) [EventCreate (next_event b)]) [next_event b]) as Hnew.
  { by apply (events_ok_fresh b _ []). }
  destruct r as [joined|e|]; [|split; [by eapply events_ok_drop|done]|done].
  rewrite bind_unfold. unfold update_active at 1. cbn [active after set_log set_next_event set_pool]. rewrite Ha.
  set (b2 := set_active (Some (mark_submitted a)) _).
  assert (events_ok b2 []) as Hb2.
  { apply events_ok_drop in Hnew as [Hnd Hlt]. unfold events_ok, active_held in *. cbn in *. rewrite Ha in *. done. }
  assert (∀ log, events_ok (set_log (hip_log b2 ++ log) b2) [] ∧ batch_active (set_log (hip_log b2 ++ log) b2) = None ∧
    ∀ a', active (set_log (hip_log b2 ++ log) b2) = Some a' →
      active_lane_count a' ≤ workers (set_log (hip_log b2 ++ log) b2) ∧
      poisoned (set_log (hip_log b2 ++ log) b2) = false) as Herr.
  { intros log. split; [done|]. split; [done|]. by intros a' [= <-]. }
  assert (∀ log, active (set_log (hip_log b2 ++ log) b2) = Some (mark_submitted a)) as Hmark by done.
  assert (∀ log, hip_inv (set_active None (set_pool (available_events b2 ++ active_events (mark_submitted a))
    (set_log (hip_log b2 ++ log) b2)))) as Hfin.
  { intros log. split; [|done|done]. apply (events_ok_perm b2 _ []); [done| |exact Hb2].
    cbn. unfold active_held. cbn. by rewrite !app_nil_r. }
  clearbody b2. clear Hnew.
  apply log_only_step; [apply log_only_for_each; intros; apply log_only_call| |intros log _; apply Herr].
  intros l1 _. apply log_only_step; [apply log_only_call| |]; cbn [hip_log set_log]; intros l2 x2;
    rewrite ?set_log_log, <- app_assoc; [|apply Herr].
  apply log_only_step; [apply log_only_call| |]; cbn [hip_log set_log]; intros l3 x3;
    rewrite ?set_log_log, <- app_assoc; [|apply Herr].
  unfold retire_active. rewrite Hmark. apply Hfin.
Qed.

Lemma begin_inv b replay : hip_inv b →
  hip_inv (hip_begin_replay b replay).1 ∧ (hip_begin_replay b replay).2 ≠ Panic.
Proof.
  intros Hb. unfold hip_begin_replay.
  match goal with |- context [match ?m with Ok _ => _ | Err _ => _ | Panic => _ end] => destruct m as [u|e|] eqn:Hc end;
    [|done|by no_panic Hc].
  apply bind_Ok in Hc as (u1 & H1 & Hc). apply require_inactive_Ok in H1 as (Hpo & Hact & Hba).
  apply bind_Ok in Hc as (u2 & _ & Hc). apply err_if_Ok, bool_decide_eq_false in Hc.
  split; [|done]. split; [|done|].
  - apply (events_ok_perm b _ []); [done| |apply Hb]. cbn. unfold active_held. cbn. by rewrite Hact.
  - intros a [= <-]. cbn. split; [lia|done].
Qed.

(** A plan some program can prepare. *)
Definition from_plan (prepared : PreparedHipPlan) : Prop :=
  ∃ sha256 r options p b0 bindings, recorded r ∧ option_lane_count options ≠ 0 ∧
    compile sha256 r options = Ok p ∧
    (Z.of_nat (length (plan_dispatches p)) * Z.of_nat (plan_lane_count p) ≤ U64_MAX)%Z ∧
    (Z.of_nat (plan_lane_count p) * Z.of_nat (plan_lane_count p) ≤ U64_MAX)%Z ∧
    prepare_plan b0 p bindings = Ok prepared.

(** The operations of the backend; a panic ends the program. *)
Inductive hip_step (b : HipBackend) : HipBackend → Prop :=
| step_register key function b' : register_kernel b key function = Ok b' → hip_step b b'
| step_bind resource base size b' : hip_bind_resource b resource base size = Ok b' → hip_step b b'
| step_batch prepared first T b' res : from_plan prepared → T ≠ 0 →
    replay_serialized_batch runtime prepared first T b = (b', res) → hip_step b b'
| step_begin replay b' res : hip_begin_replay b replay = (b', res) → hip_step b b'
| step_dispatch_hip request b' res : hip_dispatch runtime b request = (b', res) → hip_step b b'
| step_end replay b' res : hip_end_replay runtime b replay = (b', res) → hip_step b b'.

Definition hip_reachable (b : HipBackend) : Prop :=
  ∃ config environment id fns b0, HipBackend_load runtime config environment id fns = (b0, Ok tt) ∧ rtc hip_step b0 b.

Lemma from_plan_lowered prepared : from_plan prepared → ∃ lanes ds low,
  prepares lanes ds low prepared ∧ lowered_ok lanes ds low ∧ prepared_lane_count prepared = lanes.
Proof.
  intros (sha & r & options & p & b0 & bindings & Hr & Hl & Hc & Hw & Hb & Hprep).
  destruct (compile_Ok _ _ _ _ Hr Hl Hc) as (Hwf & _ & Hp & _).
  pose proof (plan_lowerable r options p Hwf Hp) as Hlw.
  destruct (lower_plan_total p Hlw Hw Hb) as (low & Hlow & Hok).
  destruct (prepare_Ok b0 p bindings prepared Hprep) as (low' & Hlow' & _ & _ & Hlc & H).
  assert (low' = low) as -> by (rewrite Hlow in Hlow'; by apply Ok_inj in Hlow').
  exists (plan_lane_count p), (plan_dispatches p), low. auto.
Qed.

Lemma load_inv config environment id fns b : HipBackend_load runtime config environment id fns = (b, Ok tt) → hip_inv b.
Proof.
  unfold HipBackend_load. destruct (validate_backend_config _ _) as [queues|e|]; [|done..].
  set (b0 := mkHipBackend _ _ _ _ _ _ _ _ _ _ _ _).
  assert (∀ log, hip_inv (set_log log b0)) as H0.
  { intros log. split; [|done|done]. split; [constructor|]. by intros e ?%not_elem_of_nil. }
  assert (∀ c, log_only (call_handle runtime c)) as Hcall.
  { intros c b1. exists [c]. unfold call_handle. cbn. destruct (runtime _); eexists; done. }
  clearbody b0. rewrite bind_unfold. cbn [lift]. destruct (assert _) as [[]|e|]; [|done..].
  rewrite bind_unfold. cbn [lift]. destruct fns as [[]|e|]; [|done..].
  assert (log_only (call_handle runtime (StreamCreate Coordinator) ;;
    for_each_m (λ lane, call_handle runtime (StreamCreate (Worker lane))) (seq 0 (config_worker_count config)))) as Hlog.
  { apply log_only_bind; [apply Hcall|]. intros _. apply log_only_for_each. intros. apply Hcall. }
  destruct (Hlog b0) as (l & r & -> & _). intros [= <- _]. apply H0.
Qed.

Lemma hip_inv_fields b b' : available_events b' = available_events b → active b' = active b →
  batch_active b' = batch_active b → next_event b' = next_event b → workers b' = workers b →
  poisoned b' = poisoned b → hip_inv b → hip_inv b'.
Proof.
  intros H1 H2 H3 H4 H5 H6 [Hev Hba Hact]. split.
  - unfold events_ok, active_held in *. by rewrite H1, H2, H4.
  - congruence.
  - intros a Ha. rewrite H5, H6. apply Hact. congruence.
Qed.

Lemma batch_step_inv prepared first T b : from_plan prepared → T ≠ 0 → hip_inv b →
  hip_inv (replay_serialized_batch runtime prepared first T b).1 ∧
  (replay_serialized_batch runtime prepared first T b).2 ≠ Panic.
Proof.
  intros (lanes & ds & low & Hprep & Hlow & Hlc)%from_plan_lowered HT Hb.
  pose proof (batch_outcome runtime lanes ds low prepared first T b Hprep Hlow Hlc HT (hi_events _ Hb)) as H.
  destruct (replay_serialized_batch runtime prepared first T b) as [b' [c|e|]]; [| |done]; (split; [|done]).
  - destruct H as (A & events & joined & stats & _ & _ & _ & _ & _ & _ & Hev & Hact & Hba & _). cbn.
    split; [done|done|]. intros a. by rewrite Hact.
  - destruct H as (A & sub & [_ _ (Hact & Hba & Hw & _) Hev Hend]). cbn. split; [done|by rewrite Hba; apply Hb|].
    intros a Ha. rewrite Hact in Ha. destruct (hi_active _ Hb a Ha) as [Hle Hpo]. rewrite Hw. split; [done|].
    destruct Hend as [[_ ->]|(issued & c & Hn & _)]; [done|congruence].
Qed.

(** Every operation keeps the invariant. *)
Lemma hip_step_inv b b' : hip_step b b' → hip_inv b → hip_inv b'.
Proof.
  intros H Hb. destruct H as [key function b' H|resource base size b' H|prepared first T b' res Hp HT H|replay b' res H|
    request b' res H|replay b' res H].
  - unfold register_kernel in H. do 4 apply bind_Ok in H as (? & _ & H). apply Ok_inj in H as <-. by apply (hip_inv_fields b).
  - unfold hip_bind_resource in H. do 7 apply bind_Ok in H as (? & _ & H). apply Ok_inj in H as <-. by apply (hip_inv_fields b).
  - pose proof (batch_step_inv prepared first T b Hp HT Hb) as [Hi _]. by rewrite H in Hi.
  - pose proof (begin_inv b replay Hb) as [Hi _]. by rewrite H in Hi.
  - pose proof (dispatch_inv b request Hb) as [Hi _]. by rewrite H in Hi.
  - pose proof (end_inv b replay Hb) as [Hi _]. by rewrite H in Hi.
Qed.

Lemma reachable_inv b : hip_reachable b → hip_inv b.
Proof.
  intros (config & environment & id & fns & b0 & Hl & Hsteps). apply load_inv in Hl.
  induction Hsteps as [|b1 b2 b3 Hstep _ IH]; [done|]. by apply IH, (hip_step_inv b1).
Qed.
End lifecycle.
