(* ===== verification/HipBatch.v ===== *)
(** The guarantees of the HIP backend (src/crates/redline-dispatch/src/hip.rs):
    what a serialized batch does on the device, and what every operation leaves
    behind when a call of the runtime fails. The lemmas about the log of calls
    and about executions are in HipOrder. *)

From S2P Require Import Prelude Ir Identity Recorder Graph Plan Replay Visibility Bindings HipLower HipBackend HipOrder.

(** ** Batches *)

(** The launch a planned dispatch asks for, on a backend with its kernels and
    resources. *)
Definition launch_of (b : HipBackend) (bindings : option ReplayBindings) (d : PlannedDispatch) (c : Call) : Prop :=
  ∃ function packed, hip_kernels b !! kernel (planned_launch d) = Some function ∧
    PackedArguments_new (arguments (planned_launch d)) (hip_resources b) bindings = Ok packed ∧
    c = LaunchKernel function (grid (planned_launch d)) (block (planned_launch d))
      (dynamic_shared_bytes (planned_launch d)) (Worker (planned_lane d)) packed.

Lemma prepare_launches b p bindings prepared i d : prepare_plan b p bindings = Ok prepared →
  plan_dispatches p !! i = Some d →
  ∃ pd, prepared_dispatches prepared !! i = Some pd ∧ launch_of b bindings d (launch_call pd).
Proof.
  unfold prepare_plan. intros H Hi. do 5 apply bind_Ok in H as (? & _ & H).
  apply bind_Ok in H as (pds & Hpds & H). apply Ok_inj in H as <-. apply try_map_Ok in Hpds. cbn [prepared_dispatches].
  assert (enumerate (plan_dispatches p) !! i = Some (i, d)) as He by (unfold enumerate; by rewrite list_lookup_imap, Hi).
  destruct (Forall2_lookup_l _ _ _ _ _ Hpds He) as (pd & Hpd & H). exists pd. split; [done|].
  unfold prepare_dispatch in H. apply bind_Ok in H as (_ & _ & H). apply bind_Ok in H as (f & Hf & H).
  apply ok_or_Ok in Hf. apply bind_Ok in H as (packed & Hpack & H). do 3 apply bind_Ok in H as (? & _ & H).
  apply Ok_inj in H as <-. by exists f, packed.
Qed.

(** The statistics of a batch are the numbers of calls of each kind it made. *)
Record counted (stats : HipBatchStats) (trace : list Call) : Prop := {
  ct_launches : kernel_launches stats = Z.of_nat (count_calls launches trace);
  ct_records : dispatch_event_records stats = Z.of_nat (count_calls lane_records trace);
  ct_waits : (dependency_waits stats + token_boundary_waits stats)%Z = Z.of_nat (count_calls lane_waits trace);
  ct_join_waits : coordinator_waits stats = Z.of_nat (count_calls join_waits trace);
  ct_join_records : coordinator_join_records stats = Z.of_nat (count_calls join_records trace);
  ct_syncs : host_synchronizations stats = Z.of_nat (count_calls host_syncs trace) }.

Lemma batch_counted lanes ds low prepared events joined T A stats :
  lowered_ok lanes ds low → prepares lanes ds low prepared → T ≠ 0 → creations A →
  calculate_batch_stats (prepared_stats prepared) (Z.of_nat (event_slot_count low)) (Z.of_nat T) = Ok stats →
  counted stats (A ++ batch_calls prepared events joined T).
Proof.
  intros Hlow Hprep HT HA Hst. unfold calculate_batch_stats, checked_product in Hst.
  apply bind_Ok in Hst as (la & H1 & Hst). apply bind_Ok in Hst as (re & H2 & Hst).
  apply bind_Ok in Hst as (wa & H3 & Hst). apply bind_Ok in Hst as (bo & H4 & Hst). apply Ok_inj in Hst as <-.
  apply ok_or_Ok, checked_mul_Some in H1 as [-> _], H2 as [-> _], H3 as [-> _], H4 as [-> _].
  rewrite (pr_stats _ _ _ _ Hprep), (lo_stats _ _ _ Hlow). cbn [stat_dispatches cross_lane_waits_per_token
    token_boundary_waits_per_boundary terminal_lane_tails].
  destruct (count_join prepared events joined T A HT HA) as (Hj1 & Hj2 & Hj3).
  rewrite (pr_terms _ _ _ _ Hprep) in Hj1.
  pose proof (count_waits lanes ds low Hlow prepared Hprep events joined T A HT HA) as Hw.
  rewrite (pr_terms _ _ _ _ Hprep) in Hw.
  pose proof (total_waits_sum (wait_slots_by_dispatch low)) as Hsum.
  split; cbn.
  - rewrite (count_launches _ _ _ _ _ HA), (pr_len _ _ _ _ Hprep). lia.
  - rewrite (count_records lanes ds low Hlow prepared Hprep _ _ _ _ HA). lia.
  - rewrite Hw, Hsum. generalize (sum_nat (length <$> wait_slots_by_dispatch low)).
    generalize (length (omap id (terminal_slot_by_lane low))). intros L W.
    rewrite !Nat2Z.inj_add, !Nat2Z.inj_mul. destruct L as [|L]; [cbn; lia|]. rewrite Nat2Z.inj_sub by lia.
    replace (Z.max 0 (Z.of_nat (S L) - 1)) with (Z.of_nat (S L - 1)) by lia. nia.
  - by rewrite Hj1.
  - by rewrite Hj2.
  - by rewrite Hj3.
Qed.

(** C2: a successful serialized batch of a compiled plan, from any state a
    backend can reach, launches every dispatch once per token with the kernel,
    dimensions and packed arguments of the plan, token by token in plan order,
    and reports exactly the calls it made. In every execution of those calls by
    the device, whatever the streams overlap, a dispatch that depends on another
    or conflicts with it on memory starts after it has ended, every dispatch of a
    token starts after all dispatches of earlier tokens have ended, and the final
    host synchronisation returns after all of them. *)
Theorem hip_batch_sound runtime sha256 r options p b0 bindings prepared b first T b' c :
  recorded r → option_lane_count options ≠ 0 → compile sha256 r options = Ok p →
  (Z.of_nat (length (plan_dispatches p)) * Z.of_nat (plan_lane_count p) ≤ U64_MAX)%Z →
  (Z.of_nat (plan_lane_count p) * Z.of_nat (plan_lane_count p) ≤ U64_MAX)%Z →
  prepare_plan b0 p bindings = Ok prepared → hip_reachable runtime b → T ≠ 0 →
  replay_serialized_batch runtime prepared first T b = (b', Ok c) →
  ∃ trace (place : nat → nat → nat), hip_log b' = hip_log b ++ trace ∧
    (∀ t i d, t < T → plan_dispatches p !! i = Some d →
      ∃ launch, trace !! place t i = Some launch ∧ launch_of b0 bindings d launch) ∧
    (∀ t t' i j d d', t < T → plan_dispatches p !! i = Some d → plan_dispatches p !! j = Some d' →
      t < t' ∨ (t = t' ∧ i < j) → place t i < place t' j) ∧
    count_calls launches trace = length (plan_dispatches p) * T ∧
    counted (batch_stats c) trace ∧
    (∃ event, trace !! (length trace - 1) = Some (EventSynchronize event)) ∧
    ∀ start stop, execution_of trace start stop →
      (∀ t i j di dj, t < T → plan_dispatches p !! i = Some di → plan_dispatches p !! j = Some dj →
        tc (edge (edges r)) (planned_node di) (planned_node dj) ∨
          (i < j ∧ conflicting (planned_accesses di) (planned_accesses dj)) →
        (stop (place t i) ≤ start (place t j))%Z) ∧
      (∀ t t' i j di dj, t < t' → t' < T → plan_dispatches p !! i = Some di → plan_dispatches p !! j = Some dj →
        (stop (place t i) ≤ start (place t' j))%Z) ∧
      (∀ t i d, t < T → plan_dispatches p !! i = Some d →
        (stop (place t i) ≤ stop (length trace - 1)%nat)%Z).
Proof.
  intros Hr Hl Hc Hw Hb Hpp Hreach HT Hrun.
  destruct (compile_Ok _ _ _ _ Hr Hl Hc) as (Hwf & _ & Hp & _).
  destruct (lower_plan_total p (plan_lowerable r options p Hwf Hp) Hw Hb) as (low & Hlow & Hok).
  destruct (prepare_Ok b0 p bindings prepared Hpp) as (low' & Hlow' & _ & _ & Hlc & Hprep).
  assert (low' = low) as -> by (rewrite Hlow in Hlow'; by apply Ok_inj in Hlow').
  specialize (Hprep (plan_lowerable r options p Hwf Hp) Hok).
  pose proof (batch_outcome runtime _ _ _ _ first T b Hprep Hok Hlc HT (hi_events _ (reachable_inv _ _ Hreach))) as Hout.
  rewrite Hrun in Hout. destruct Hout as (A & events & joined & stats & HA & Hnd & Hlen & Hlog & Hst & -> & _).
  pose proof (prepare_launches b0 p bindings prepared) as Hat.
  exists (A ++ batch_calls prepared events joined T), (pos prepared events T A).
  split; [done|]. split; [|split; [|split; [|split; [|split]]]].
  - intros t i d Ht Hi. destruct (Hat i d Hpp Hi) as (pd & Hpd & Hl'). exists (launch_call pd).
    split; [by apply launch_at|done].
  - intros t t' i j d d' Ht Hi Hj Hlt. destruct (Hat i d Hpp Hi) as (pd & Hpd & _).
    apply (pos_lt _ _ _ _ _ _ _ _ pd); [done|done|]. destruct (Hat j d' Hpp Hj) as (pd' & Hpd' & _).
    apply lookup_lt_Some in Hpd, Hpd'. destruct Hlt as [?|[-> ?]]; [nia|lia].
  - by rewrite (count_launches _ _ _ _ _ HA), (pr_len _ _ _ _ Hprep).
  - by eapply batch_counted.
  - exists joined. apply (join_at prepared events joined T A).
  - intros start stop Hex. split; [|split].
    + intros t i j di dj Ht Hi Hj Hord.
      assert (tc (edge (edges r)) (planned_node di) (planned_node dj)) as Htc.
      { destruct Hord as [?|[Hij Hcon]]; [done|]. by apply (conflict_precedes sha256 r options p i j di dj). }
      eapply (syncs_order _ _ low Hok prepared Hprep); [done..| |].
      * by eapply (ordered_syncs r options p low _ _ Hwf Hp Hok Htc).
      * intros ->. rewrite Hi in Hj. injection Hj as <-. by apply (wf_acyclic r Hwf) in Htc.
    + intros t t' i j di dj Htt Ht' Hi Hj. destruct (Hat i di Hpp Hi) as (pi & Hpi & _), (Hat j dj Hpp Hj) as (pj & Hpj & _).
      by eapply (token_order _ _ low Hok prepared Hprep).
    + intros t i d Ht Hi. destruct (Hat i d Hpp Hi) as (pd & Hpd & _). by eapply (host_order _ _ low Hok prepared Hprep).
Qed.

(** ** Failures *)

Section poisoned.
Context (runtime : list Call → api_outcome).

Lemma require_inactive_poisoned b : poisoned b = true → require_inactive b = Err BackendPoisoned.
Proof. unfold require_inactive. by intros ->. Qed.

(** A poisoned backend has no active replay, so nothing is accepted and nothing
    is issued. *)
Lemma poisoned_dispatch b request : active b = None →
  hip_dispatch runtime b request = (b, Err (ReplayNotActive (request_token request))).
Proof.
  intros Ha. unfold hip_dispatch, recovering, dispatch_inner, check_dispatch. rewrite Ha. cbn.
  unfold recover_adapter_failure. by rewrite Ha.
Qed.

Lemma poisoned_end b replay : active b = None →
  hip_end_replay runtime b replay = (b, Err (ReplayNotActive (end_token replay))).
Proof.
  intros Ha. unfold hip_end_replay, recovering, end_inner. rewrite Ha. cbn.
  unfold recover_adapter_failure. by rewrite Ha.
Qed.

Lemma poisoned_active b : hip_inv b → poisoned b = true → active b = None.
Proof.
  intros Hb Hp. destruct (active b) as [a|] eqn:Ha; [|done]. destruct (hi_active _ Hb a Ha). congruence.
Qed.

(** The answers of a poisoned backend. *)
Record refuses (b : HipBackend) : Prop := {
  rf_register key function : register_kernel b key function = Err BackendPoisoned;
  rf_bind resource base size : hip_bind_resource b resource base size = Err BackendPoisoned;
  rf_prepare plan bindings : prepare_plan b plan bindings = Err BackendPoisoned;
  rf_begin replay : hip_begin_replay b replay = (b, Err BackendPoisoned);
  rf_batch prepared first T : replay_serialized_batch runtime prepared first T b = (b, Err BackendPoisoned);
  rf_dispatch request : hip_dispatch runtime b request = (b, Err (ReplayNotActive (request_token request)));
  rf_end replay : hip_end_replay runtime b replay = (b, Err (ReplayNotActive (end_token replay))) }.

Lemma poisoned_refuses b : hip_inv b → poisoned b = true → refuses b.
Proof.
  intros Hb Hp. pose proof (poisoned_active b Hb Hp) as Ha. pose proof (require_inactive_poisoned b Hp) as Hr.
  split; intros.
  - unfold register_kernel. by rewrite Hr.
  - unfold hip_bind_resource. by rewrite Hr.
  - unfold prepare_plan. by rewrite Hr.
  - unfold hip_begin_replay. by rewrite Hr.
  - rewrite replay_unfold. unfold batch_checks. by rewrite Hr.
  - by apply poisoned_dispatch.
  - by apply poisoned_end.
Qed.

Lemma poisoned_step b b' : hip_inv b → poisoned b = true → hip_step runtime b b' → b' = b.
Proof.
  intros Hb Hp Hs. destruct (poisoned_refuses b Hb Hp). destruct Hs; congruence.
Qed.

Lemma poisoned_forever b b' : hip_inv b → poisoned b = true → rtc (hip_step runtime) b b' → b' = b.
Proof.
  intros Hb Hp Hs. induction Hs as [|b b1 b2 H1 _ IH]; [done|]. apply poisoned_step in H1 as ->; auto.
Qed.
End poisoned.

(** C22: from any state a backend can reach, no operation panics. Events are
    never shared between the pool and a replay under way. A batch that fails
    before its first call leaves the backend as healthy as it was; one that fails
    at a call has synchronised every stream afterwards, keeps none of the events
    it may have left pending, and reports the failing call, unless that
    synchronisation failed too: then the backend is poisoned, and a poisoned
    backend refuses every operation and never changes or issues a call again. *)
Theorem hip_lifecycle runtime b : hip_reachable runtime b →
  hip_inv b ∧
  (∀ prepared first T, from_plan prepared → T ≠ 0 →
    match replay_serialized_batch runtime prepared first T b with
    | (b', Ok _) => poisoned b' = false ∧ active b' = None
    | (b', Err e) => ∃ A sub, batch_failed b b' e A sub
    | (_, Panic) => False
    end) ∧
  (∀ replay, (hip_begin_replay b replay).2 ≠ Panic) ∧
  (∀ request, (hip_dispatch runtime b request).2 ≠ Panic) ∧
  (∀ replay, (hip_end_replay runtime b replay).2 ≠ Panic) ∧
  (poisoned b = true → refuses runtime b ∧ ∀ b', rtc (hip_step runtime) b b' → b' = b).
Proof.
  intros Hb%reachable_inv. split; [done|]. split; [|split; [|split; [|split]]].
  - intros prepared first T (lanes & ds & low & Hprep & Hlow & Hlc)%from_plan_lowered HT.
    pose proof (batch_outcome runtime lanes ds low prepared first T b Hprep Hlow Hlc HT (hi_events _ Hb)) as H.
    destruct (replay_serialized_batch runtime prepared first T b) as [b' [c|e|]]; [|done|done].
    destruct H as (? & ? & ? & ? & _ & _ & _ & _ & _ & _ & _ & ? & _ & ?). done.
  - intros replay. by apply begin_inv.
  - intros request. by apply dispatch_inv.
  - intros replay. by apply end_inv.
  - intros Hp. split; [by apply poisoned_refuses|]. intros b'. by apply poisoned_forever.
Qed.

(** ** A concrete backend on two worker streams *)

(** A runtime whose calls fail from the given one on. *)
Definition failing_from (n : nat) (log : list Call) : api_outcome :=
  if bool_decide (n < length log) then ApiError else ApiOk.

Definition demo_load (runtime : list Call → api_outcome) : HipBackend :=
  (HipBackend_load runtime (HipBackendConfig_new 0 2) (Some (Some "2"%string)) 1 (Ok tt)).1.

Definition register_all (b : HipBackend) (names : list string) : result HipBackendError HipBackend :=
  try_fold (λ b name, register_kernel b name 4096) b names.

Definition demo_backend (runtime : list Call → api_outcome) : HipBackend :=
  match register_all (demo_load runtime) (fork_kernels.*1) with Ok b => b | _ => demo_load runtime end.

Definition demo_prepared : PreparedHipPlan :=
  match prepare_plan (demo_backend (failing_from 100)) fork_plan None with
  | Ok prepared => prepared
  | _ => mkPreparedHipPlan 0 0 [] [] 0 (mkHipStats 0 0 0 0 0 0)
  end.

Lemma demo_prepares : prepare_plan (demo_backend (failing_from 100)) fork_plan None = Ok demo_prepared.
Proof. vm_compute. reflexivity. Qed.

Lemma demo_from_plan : from_plan demo_prepared.
Proof.
  exists demo_sha256, fork, demo_options, fork_plan, (demo_backend (failing_from 100)), None.
  split; [exact fork_recorded|]. split; [discriminate|]. split; [exact fork_compiles|].
  split; [vm_compute; discriminate|]. split; [vm_compute; discriminate|exact demo_prepares].
Qed.

Lemma register_all_steps runtime names : ∀ b b', register_all b names = Ok b' → rtc (hip_step runtime) b b'.
Proof.
  unfold register_all. induction names as [|name names IH]; intros b b'; cbn [try_fold].
  - intros H. apply Ok_inj in H as ->. apply rtc_refl.
  - intros H. apply bind_Ok in H as (b1 & H1 & H). eapply rtc_l; [by eapply step_register|]. by apply IH.
Qed.

Lemma hip_demo_reachable n :
  (HipBackend_load (failing_from n) (HipBackendConfig_new 0 2) (Some (Some "2"%string)) 1 (Ok tt)).2 = Ok tt →
  register_all (demo_load (failing_from n)) (fork_kernels.*1) = Ok (demo_backend (failing_from n)) →
  hip_reachable (failing_from n) (demo_backend (failing_from n)).
Proof.
  intros Hl Hr. exists (HipBackendConfig_new 0 2), (Some (Some "2"%string)), 1%Z, (Ok tt), (demo_load (failing_from n)).
  split; [unfold demo_load; destruct (HipBackend_load _ _ _ _ _) as [b0 res]; cbn in Hl |- *; by rewrite Hl|]. by apply (register_all_steps _ (fork_kernels.*1)).
Qed.

(** A sequential execution is one of the executions of any log. *)
Lemma sequential_execution trace : execution_of trace Z.of_nat Z.of_nat.
Proof. split; intros; lia. Qed.

Definition demo_batch (n : nat) : HipBackend * result HipBackendError HipBatchCompletion :=
  replay_serialized_batch (failing_from n) demo_prepared (mkReplayToken 7) 2 (demo_backend (failing_from n)).

(** Two tokens of the five dispatches: ten launches, eight records, four waits
    within the tokens and two between them, two at the join. *)
Lemma hip_batch_sound_witness : ∃ c, (demo_batch 100).2 = Ok c ∧
  batch_stats c = mkHipBatchStats 2 10 8 4 2 2 1 1 ∧
  ∃ trace, hip_log (demo_batch 100).1 = hip_log (demo_backend (failing_from 100)) ++ trace ∧
    count_calls launches trace = 10 ∧ count_calls lane_waits trace = 6 ∧ execution_of trace Z.of_nat Z.of_nat.
Proof.
  destruct (demo_batch 100) as [b' res] eqn:Hrun.
  assert (res = Ok (mkHipBatchCompletion (mkReplayToken 7) (mkReplayToken 8) (mkHipBatchStats 2 10 8 4 2 2 1 1))) as ->.
  { transitivity (demo_batch 100).2; [by rewrite Hrun|]. vm_compute. reflexivity. }
  eexists. split; [reflexivity|]. split; [reflexivity|]. unfold demo_batch in Hrun.
  destruct (hip_batch_sound (failing_from 100) demo_sha256 fork demo_options fork_plan (demo_backend (failing_from 100)) None
    demo_prepared (demo_backend (failing_from 100)) (mkReplayToken 7) 2 b'
    (mkHipBatchCompletion (mkReplayToken 7) (mkReplayToken 8) (mkHipBatchStats 2 10 8 4 2 2 1 1)) fork_recorded) as (trace & place & Hlog & _ & _ & Hn & Hc & _).
  - discriminate.
  - exact fork_compiles.
  - vm_compute. discriminate.
  - vm_compute. discriminate.
  - exact demo_prepares.
  - apply hip_demo_reachable; vm_compute; reflexivity.
  - discriminate.
  - exact Hrun.
  - exists trace. split; [exact Hlog|]. split; [rewrite Hn; reflexivity|].
    split; [apply Nat2Z.inj; rewrite <- (ct_waits _ _ Hc); reflexivity|apply sequential_execution].
Defined.

(** The runtime fails in the middle of the batch and keeps failing: the backend
    is poisoned and refuses everything. *)
Lemma hip_lifecycle_witness : ∃ b, (demo_batch 20).1 = b ∧ (demo_batch 20).2 = Err BatchSubmissionPoisoned ∧
  poisoned b = true ∧ refuses (failing_from 20) b.
Proof.
  exists (demo_batch 20).1. split; [reflexivity|]. split; [vm_compute; reflexivity|].
  assert (poisoned (demo_batch 20).1 = true) as Hp by (vm_compute; reflexivity). split; [exact Hp|].
  assert (hip_reachable (failing_from 20) (demo_batch 20).1) as Hreach.
  { destruct (hip_demo_reachable 20) as (config & environment & id & fns & b0 & Hl & Hs); [vm_compute; reflexivity..|].
    exists config, environment, id, fns, b0. split; [exact Hl|]. eapply rtc_r; [exact Hs|].
    apply (step_batch _ _ demo_prepared (mkReplayToken 7) 2 _ (demo_batch 20).2 demo_from_plan); [discriminate|].
    apply surjective_pairing. }
  destruct (hip_lifecycle (failing_from 20) _ Hreach) as (_ & _ & _ & _ & _ & H). by apply H.
Defined.
