(* ===== verification/Queue.v ===== *)
(** Hardware queues (src/crates/redline-rocr/src/runtime.rs: the geometry limits
    of a device, the fault cell of a queue, [AqlQueue] and [QueueSet]).

    The queue indices, doorbells and signals belong to the HSA runtime, which is
    not part of the program. Its calls are the class [HsaQueues] over a type of
    worlds, and what HSA documents of them is the class [HsaLaws]: only the
    program moves a write index, and a read index only moves over packets that
    were published. The ring memory of a queue is the program's to write. A
    program that polls carries fuel and answers [None] when it is still waiting
    at the end of it. Indices are 64-bit and wrap. *)

From S2P Require Import Prelude Ir Packet.

(** ** Errors *)

Inductive RuntimeError : Type :=
| Hsa (operation : string) (status : Z)
| InvalidQueueSize (requested min max : Z)
| UnsupportedQueueType (queue_type : Z)
| QueueFault (queue_id status : Z)
| QueueInactive (queue_id : Z)
| QueueCapacityTimeout (queue_id : Z) (packets : nat)
| SignalTimeout (signal : Z)
| OperationAndTeardown (operation teardown : RuntimeError)
| ZeroQueues
| DuplicateQueueId
| InvalidRuntimeObject (what : string)
| WorkgroupLimit (axis : nat) (requested maximum : Z)
| GridLimit (axis : nat) (requested maximum : Z)
| InvalidKernargAlignment (alignment : Z)
| KernargSizeOverflow (length : Z)
| KernargAlignmentNotMet (required address : Z).

(** ** Devices *)

Record AgentInfo := mkAgentInfo {
  gpu_agent : Z;
  workgroup_max_dim : Dim3;
  workgroup_max_size : Z;
  grid_max_dim : Dim3;
  grid_max_size : Z;
  queue_min_size : Z;
  queue_max_size : Z;
  queue_type : Z }.

(** [GpuDevice::validate_geometry]. The product of three 16-bit extents fits 64
    bits; the product of the grid may not. *)
Definition check_axis (entry : nat * ((Z * Z) * (Z * Z))) : result RuntimeError unit :=
  let '(axis, ((w, w_max), (g, g_max))) := entry in
  err_if (w_max <? w)%Z (WorkgroupLimit axis w w_max) ;;
  err_if (g_max <? g)%Z (GridLimit axis g g_max).

Definition validate_geometry (gpu : AgentInfo) (geometry : LaunchGeometry) : result RuntimeError unit :=
  let w := workgroup geometry in
  let g := grid_workitems geometry in
  let wm := workgroup_max_dim gpu in
  let gm := grid_max_dim gpu in
  for_each check_axis
    [(0, ((dim_x w, dim_x wm), (dim_x g, dim_x gm)));
     (1, ((dim_y w, dim_y wm), (dim_y g, dim_y gm)));
     (2, ((dim_z w, dim_z wm), (dim_z g, dim_z gm)))] ;;
  let workgroup_total := (dim_x w * dim_y w * dim_z w)%Z in
  err_if (workgroup_max_size gpu <? workgroup_total)%Z
    (WorkgroupLimit 3 (if (workgroup_total <=? U32_MAX)%Z then workgroup_total else U32_MAX) (workgroup_max_size gpu)) ;;
  match foldl (λ total value, total ≫= λ t, checked_mul U64_MAX t value) (Some 1%Z) [dim_x g; dim_y g; dim_z g] with
  | None => Err (GridLimit 3 U64_MAX (grid_max_size gpu))
  | Some grid_total => err_if (grid_max_size gpu <? grid_total)%Z (GridLimit 3 grid_total (grid_max_size gpu))
  end.

(** ** The fault cell *)

Definition QUEUE_FAULT_NONE : Z := 0.

(** [QueueFaultState::record]: a compare-and-exchange against the empty cell.
    The status is the bit pattern of a 32-bit integer. *)
Definition QueueFault_record (encoded status : Z) : Z :=
  if (encoded =? QUEUE_FAULT_NONE)%Z then Z.lor (Z.shiftl 1 63) (wrap32 status) else encoded.

(** [QueueFaultState::status] *)
Definition QueueFault_status (encoded : Z) : option Z :=
  if (encoded =? QUEUE_FAULT_NONE)%Z then None else Some (wrap32 encoded).

(** ** The runtime *)

Class HsaQueues (W : Type) := {
  load_write_index : nat → W → Z * W;
  load_read_index : nat → W → Z * W;
  add_write_index : nat → Z → W → Z * W;
  store_doorbell : nat → Z → W → W;
  inactivate_queue : nat → W → Z * W;
  load_fault : nat → W → Z * W;
  load_signal : Z → W → Z * W;
  store_signal : Z → Z → W → W;
  elapsed : nat → W → bool * W }.

Definition STATUS_SUCCESS : Z := 0.
Definition QUEUE_TYPE_MULTI : Z := 0.
Definition QUEUE_FEATURE_KERNEL_DISPATCH : Z := 1.

(** The part of a queue the program keeps: its descriptor and its ring of 64-byte
    slots. *)
Record AqlQueue := mkAqlQueue {
  aq_id : Z; aq_size : Z; aq_ring : list (list Z); aq_active : bool }.

Record QueueSet := mkQueueSet {
  qs_queues : list AqlQueue; prepared_doorbells : list (option Z) }.

(** How [hsa_queue_create] ends: a status, a null queue, or a descriptor. *)
Inductive QueueCreation : Type :=
| CreateFailed (status : Z)
| CreatedNull
| Created (base_null : bool) (kind size features id : Z) (memory : list (list Z)).

(** [AqlQueue::create] *)
Definition AqlQueue_create (gpu : AgentInfo) (requested_size : Z) (outcome : QueueCreation)
    : result RuntimeError AqlQueue :=
  err_if (negb (queue_type gpu =? QUEUE_TYPE_MULTI)%Z) (UnsupportedQueueType (queue_type gpu)) ;;
  err_if (negb (is_power_of_two requested_size) || (requested_size <? queue_min_size gpu)%Z ||
      (queue_max_size gpu <? requested_size)%Z)
    (InvalidQueueSize requested_size (queue_min_size gpu) (queue_max_size gpu)) ;;
  match outcome with
  | CreateFailed status => Err (Hsa "hsa_queue_create" status)
  | CreatedNull => Err (InvalidRuntimeObject "hsa_queue_create returned null")
  | Created base_null kind size features id memory =>
      err_if (base_null || negb (kind =? QUEUE_TYPE_MULTI)%Z || negb (size =? requested_size)%Z ||
          (Z.land features QUEUE_FEATURE_KERNEL_DISPATCH =? 0)%Z)
        (InvalidRuntimeObject "HSA queue descriptor has the wrong type/size or lacks kernel dispatch") ;;
      Ok (mkAqlQueue id size memory true)
  end.

(** [slice.windows(2).any(|pair| pair[0] == pair[1])] *)
Fixpoint adjacent_equal (l : list Z) : bool :=
  match l with
  | a :: (b :: _) as tail => (a =? b)%Z || adjacent_equal tail
  | _ => false
  end.

(** [QueueSet::create]; [outcomes] says how each creation ends. *)
Definition QueueSet_create (gpu : AgentInfo) (queue_count : nat) (queue_size : Z) (outcomes : nat → QueueCreation)
    : result RuntimeError QueueSet :=
  err_if (bool_decide (queue_count = 0)) ZeroQueues ;;
  queues ← try_map (λ i, AqlQueue_create gpu queue_size (outcomes i)) (seq 0 queue_count);
  let ids := merge_sort Z.le (aq_id <$> queues) in
  err_if (adjacent_equal ids) DuplicateQueueId ;;
  Ok (mkQueueSet queues (replicate (length queues) None)).

Definition QueueSet_size (s : QueueSet) (lane : nat) : option Z := aq_size <$> qs_queues s !! lane.

(** ** Operations: [None] is a poll that has not ended within the fuel *)

Section operations.
Context {W : Type} `{!HsaQueues W}.

Definition QM (A : Type) : Type := QueueSet * W → option ((QueueSet * W) * result RuntimeError A).

#[export] Instance QM_ret : MRet QM := λ A a s, Some (s, Ok a).
#[export] Instance QM_bind : MBind QM := λ A B f m s,
  match m s with
  | None => None
  | Some (s, Ok a) => f a s
  | Some (s, Err e) => Some (s, Err e)
  | Some (s, Panic) => Some (s, Panic)
  end.

Definition qlift {A} (r : result RuntimeError A) : QM A := λ s, Some (s, r).
Definition world {A} (f : W → A * W) : QM A := λ s, let '(a, w) := f s.2 in Some ((s.1, w), Ok a).
Definition queue_at (lane : nat) : QM AqlQueue := λ s, Some (s, index (qs_queues s.1) lane).
Definition set_queue (lane : nat) (q : AqlQueue) : QM unit := λ s,
  Some ((mkQueueSet (<[lane := q]> (qs_queues s.1)) (prepared_doorbells s.1), s.2), Ok tt).
Definition set_doorbells (f : list (option Z) → list (option Z)) : QM unit := λ s,
  Some ((mkQueueSet (qs_queues s.1) (f (prepared_doorbells s.1)), s.2), Ok tt).

(** [self.prepared_doorbells[lane] = doorbell] *)
Definition put_doorbell (lane : nat) (doorbell : option Z) : QM unit := λ s,
  match store (E := RuntimeError) (prepared_doorbells s.1) lane doorbell with
  | Ok doorbells => Some ((mkQueueSet (qs_queues s.1) doorbells, s.2), Ok tt)
  | _ => Some (s, Panic)
  end.

Fixpoint for_each_q {A} (f : A → QM unit) (l : list A) : QM unit :=
  match l with
  | [] => mret tt
  | x :: l => f x ;; for_each_q f l
  end.

(** [AqlQueue::check_fault] *)
Definition check_fault (lane : nat) : QM unit :=
  q ← queue_at lane;
  encoded ← world (load_fault lane);
  match QueueFault_status encoded with
  | Some status => qlift (Err (QueueFault (aq_id q) status))
  | None => mret tt
  end.

(** [AqlQueue::ensure_active] *)
Definition ensure_active (lane : nat) : QM unit :=
  q ← queue_at lane;
  qlift (err_if (negb (aq_active q)) (QueueInactive (aq_id q))).

(** [AqlQueue::wait_for_capacity]: one round of polling per unit of fuel; whether
    the timeout has elapsed is asked with the number of the round. *)
Fixpoint capacity_rounds (fuel round lane count : nat) : QM unit :=
  match fuel with
  | O => λ _, None
  | S fuel =>
      check_fault lane ;;
      q ← queue_at lane;
      write ← world (load_write_index lane);
      read ← world (load_read_index lane);
      let last_packet_id := wrap64 (write + (Z.of_nat count - 1)) in
      if (wrap64 (last_packet_id - read) <? aq_size q)%Z then mret tt else
      late ← world (elapsed round);
      if late : bool then qlift (Err (QueueCapacityTimeout (aq_id q) count))
      else capacity_rounds fuel (S round) lane count
  end.

Definition wait_for_capacity (fuel lane count : nat) : QM unit := capacity_rounds fuel 0 lane count.

(** The slot of a packet: the mask of a power-of-two size. *)
Definition slot_index (size packet_id : Z) : nat := Z.to_nat (Z.land packet_id (size - 1)).

(** The stores of [AqlQueue::publish_batch] to the ring, one by one: bytes 4 to 64
    of a slot, or its header word. *)
Inductive RingStore :=
| StoreBody (slot : nat) (bytes : list Z)
| StoreHeader (slot : nat) (word : Z).

Definition apply_store (ring : list (list Z)) (st : RingStore) : result RuntimeError (list (list Z)) :=
  match st with
  | StoreBody i bytes => slot ← index ring i; Ok (<[i := put_slice slot 4 bytes]> ring)
  | StoreHeader i word => slot ← index ring i; Ok (<[i := put_slice slot 0 (le_bytes 4 word)]> ring)
  end.

(** One iteration of its loop: the body of the packet is copied, then the header
    word is stored. *)
Definition packet_stores (size first_packet_id : Z) (entry : nat * PacketImage) : list RingStore :=
  let '(offset, packet) := entry in
  let packet_id := wrap64 (first_packet_id + Z.of_nat offset) in
  let i := slot_index size packet_id in
  [StoreBody i (drop 4 (image_bytes packet)); StoreHeader i (header_word packet)].

Definition publish_packet (size first_packet_id : Z) (ring : list (list Z)) (entry : nat * PacketImage)
    : result RuntimeError (list (list Z)) :=
  try_fold apply_store ring (packet_stores size first_packet_id entry).

(** [AqlQueue::publish_batch]; the doorbell value is the signed view of the last
    packet identifier. *)
Definition publish_batch (lane : nat) (packets : list PacketImage) : QM Z :=
  q ← queue_at lane;
  let count := Z.of_nat (length packets) in
  first_packet_id ← world (add_write_index lane count);
  let last_packet_id := wrap64 (first_packet_id + (count - 1)) in
  ring ← qlift (try_fold (publish_packet (aq_size q) first_packet_id) (aq_ring q) (enumerate packets));
  set_queue lane (mkAqlQueue (aq_id q) (aq_size q) ring (aq_active q)) ;;
  mret (if (last_packet_id <? 2 ^ 63)%Z then last_packet_id else (last_packet_id - 2 ^ 64)%Z).

(** [AqlQueue::prepare_batch] *)
Definition prepare_batch (fuel lane : nat) (packets : list PacketImage) : QM (option Z) :=
  q ← queue_at lane;
  qlift (assert (Z.of_nat (length packets) <=? aq_size q)%Z) ;;
  ensure_active lane ;;
  check_fault lane ;;
  if bool_decide (packets = []) then mret None else
  wait_for_capacity fuel lane (length packets) ;;
  last_id ← publish_batch lane packets;
  mret (Some last_id).

(** [AqlQueue::inactivate] *)
Definition inactivate (lane : nat) : QM unit :=
  q ← queue_at lane;
  if aq_active q then
    status ← world (inactivate_queue lane);
    qlift (err_if (negb (status =? STATUS_SUCCESS)%Z) (Hsa "hsa_queue_inactivate" status)) ;;
    set_queue lane (mkAqlQueue (aq_id q) (aq_size q) (aq_ring q) false)
  else mret tt.

(** [QueueSet::check_faults] *)
Definition check_faults : QM unit := λ s,
  for_each_q check_fault (seq 0 (length (qs_queues s.1))) s.

(** The loop of [QueueSet::inactivate_all] keeps the first error. *)
Fixpoint inactivate_lanes (lanes : list nat) (first_error : option RuntimeError)
    : QM (option RuntimeError) :=
  match lanes with
  | [] => mret first_error
  | lane :: lanes => λ s,
      match inactivate lane s with
      | None => None
      | Some (s, Ok _) => inactivate_lanes lanes first_error s
      | Some (s, Err error) =>
          inactivate_lanes lanes (match first_error with Some e => Some e | None => Some error end) s
      | Some (s, Panic) => Some (s, Panic)
      end
  end.

Definition inactivate_all : QM unit := λ s,
  (set_doorbells (fmap (λ _, None)) ;;
   first_error ← inactivate_lanes (seq 0 (length (qs_queues s.1))) None;
   match first_error with Some error => qlift (Err error) | None => mret tt end) s.

(** [QueueSet::inactivate_after_error], returned as an error *)
Definition inactivate_after_error {A} (operation : RuntimeError) : QM A := λ s,
  match inactivate_all s with
  | None => None
  | Some (s, Ok _) => Some (s, Err operation)
  | Some (s, Err teardown) => Some (s, Err (OperationAndTeardown operation teardown))
  | Some (s, Panic) => Some (s, Panic)
  end.

(** [match m { Ok(..) => .., Err(error) => handler }] *)
Definition on_error {A} (m : QM A) (handler : RuntimeError → QM A) : QM A := λ s,
  match m s with
  | Some (s, Err e) => handler e s
  | other => other
  end.

(** The loop of [QueueSet::prepare_batches]. *)
Definition prepare_lane (fuel : nat) (entry : nat * list PacketImage) : QM unit :=
  let '(lane, batch) := entry in
  on_error (doorbell ← prepare_batch fuel lane batch; put_doorbell lane doorbell)
    (λ error, set_doorbells (fmap (λ _, None)) ;; inactivate_after_error error).

Definition prepare_batches (fuel : nat) (batches : list (list PacketImage)) : QM unit := λ s,
  (qlift (assert (bool_decide (length batches = length (qs_queues s.1)))) ;;
   qlift (assert (forallb (λ d, negb (bool_decide (is_Some d))) (prepared_doorbells s.1))) ;;
   on_error check_faults inactivate_after_error ;;
   for_each_q (prepare_lane fuel) (enumerate batches)) s.

(** The loop of [QueueSet::ring_prepared]: a doorbell is taken and written. *)
Definition ring_lane (lane : nat) : QM unit := λ s,
  match prepared_doorbells s.1 !! lane with
  | Some (Some final_packet_id) =>
      Some ((mkQueueSet (qs_queues s.1) (<[lane := None]> (prepared_doorbells s.1)),
        store_doorbell lane final_packet_id s.2), Ok tt)
  | _ => Some (s, Ok tt)
  end.

Definition ring_prepared : QM unit := λ s,
  (on_error check_faults (λ error, set_doorbells (fmap (λ _, None)) ;; inactivate_after_error error) ;;
   for_each_q ring_lane (seq 0 (length (qs_queues s.1)))) s.

(** [CompletionSignal::reset], [CompletionSignal::is_complete] *)
Definition signal_reset (signal : Z) : QM unit := world (λ w, (tt, store_signal signal 1 w)).
Definition signal_is_complete (signal : Z) : QM bool :=
  value ← world (load_signal signal);
  mret (value <? 1)%Z.

(** [QueueSet::wait_signal] *)
Fixpoint signal_rounds (fuel round : nat) (signal : Z) : QM unit :=
  match fuel with
  | O => λ _, None
  | S fuel =>
      check_faults ;;
      done ← signal_is_complete signal;
      if done : bool then mret tt else
      late ← world (elapsed round);
      if late : bool then qlift (Err (SignalTimeout signal)) else signal_rounds fuel (S round) signal
  end.

Definition wait_signal (fuel : nat) (signal : Z) : QM unit := signal_rounds fuel 0 signal.
End operations.

(** ** The ring *)

(** The bytes of a published packet, and an image of the right size. *)
Definition slot_bytes (p : PacketImage) : list Z := le_bytes 4 (header_word p) ++ drop 4 (image_bytes p).
Definition image_ok (p : PacketImage) : Prop := length (image_bytes p) = AQL_PACKET_BYTES.

Lemma ring_index (ring : list (list Z)) i slot : ring !! i = Some slot → index (E := RuntimeError) ring i = Ok slot.
Proof. by rewrite index_Ok. Qed.

(** A slot after both stores. *)
Definition fill_slot (slot : list Z) (packet : PacketImage) : list Z :=
  put_slice (put_slice slot 4 (drop 4 (image_bytes packet))) 0 (le_bytes 4 (header_word packet)).

Lemma publish_packet_fill size first ring o p slot : ring !! slot_index size (wrap64 (first + Z.of_nat o)) = Some slot →
  publish_packet size first ring (o, p) = Ok (<[slot_index size (wrap64 (first + Z.of_nat o)) := fill_slot slot p]> ring).
Proof.
  intros Hi. unfold publish_packet, packet_stores, apply_store. cbn [try_fold]. rewrite (ring_index _ _ _ Hi). cbn [mbind result_bind].
  rewrite (ring_index _ _ (put_slice slot 4 (drop 4 (image_bytes p)))) by (rewrite list_lookup_insert_eq; [done|by eapply lookup_lt_Some]).
  cbn [mbind result_bind]. by rewrite list_insert_insert_eq.
Qed.

Lemma fill_slot_bytes slot p : length slot = AQL_PACKET_BYTES → image_ok p → fill_slot slot p = slot_bytes p.
Proof.
  unfold image_ok, fill_slot, slot_bytes, put_slice, AQL_PACKET_BYTES. intros Hs Hp.
  rewrite length_le_bytes, take_0, app_nil_l. f_equal. cbn [Nat.add].
  rewrite drop_app_length' by (rewrite length_take; lia).
  rewrite length_drop, Hp, (drop_ge slot) by (rewrite Hs; lia). apply app_nil_r.
Qed.

Lemma length_slot_bytes p : image_ok p → length (slot_bytes p) = AQL_PACKET_BYTES.
Proof.
  unfold image_ok, slot_bytes, AQL_PACKET_BYTES. intros Hp. rewrite length_app, length_le_bytes, length_drop. lia.
Qed.

(** The slot of an identifier that wraps at 64 bits. *)
Definition place (size id : Z) : nat := Z.to_nat (id `mod` size).

Lemma slot_index_wrap k id : (0 ≤ k ≤ 64)%Z → slot_index (2 ^ k) (wrap64 id) = place (2 ^ k) id.
Proof.
  intros Hk. unfold slot_index, place, wrap64.
  replace (2 ^ k - 1)%Z with (Z.ones k) by (rewrite Z.ones_equiv; lia).
  rewrite Z.land_ones by lia. f_equal.
  change 18446744073709551616%Z with (2 ^ 64)%Z. replace 64%Z with (k + (64 - k))%Z at 1 by lia.
  rewrite Z.pow_add_r by lia. rewrite Z.rem_mul_r by lia. 
  rewrite (Z.mul_comm (2 ^ k)), Z.mod_add, Z.mod_mod by lia. done.
Qed.

Lemma place_inj size a b : (0 < size)%Z → place size a = place size b → (- size < a - b < size)%Z → a = b.
Proof.
  unfold place. intros Hs H Hab. apply Z2Nat.inj in H; [|by apply Z.mod_pos_bound..].
  pose proof (Z.div_mod a size ltac:(lia)) as Ha. pose proof (Z.div_mod b size ltac:(lia)) as Hb.
  assert (a - b = size * (a / size - b / size))%Z as Hd by lia. clear Ha Hb H.
  destruct (Z.lt_trichotomy (a / size - b / size) 0) as [?|[He|?]]; [nia| |nia].
  rewrite He in Hd. lia.
Qed.

Lemma place_lt size id : (0 < size)%Z → place size id < Z.to_nat size.
Proof. intros Hs. unfold place. pose proof (Z.mod_pos_bound id size Hs). lia. Qed.

(** Publishing puts the packets into consecutive slots and touches no other. *)
Lemma publish_ring k first packets ring :
  (0 ≤ k ≤ 64)%Z → Z.of_nat (length ring) = (2 ^ k)%Z → Forall (λ s, length s = AQL_PACKET_BYTES) ring →
  Forall image_ok packets → (Z.of_nat (length packets) ≤ 2 ^ k)%Z →
  ∃ ring', try_fold (publish_packet (2 ^ k) first) ring (enumerate packets) = Ok ring' ∧
    length ring' = length ring ∧ Forall (λ s, length s = AQL_PACKET_BYTES) ring' ∧
    (∀ o p, packets !! o = Some p → ring' !! place (2 ^ k) (first + Z.of_nat o) = Some (slot_bytes p)) ∧
    (∀ i, (∀ o, o < length packets → i ≠ place (2 ^ k) (first + Z.of_nat o)) → ring' !! i = ring !! i).
Proof.
  intros Hk Hlen Hslots Himg Hfit.
  assert (0 < 2 ^ k)%Z as Hpos by lia.
  set (I := λ (done : list (nat * PacketImage)) (ring' : list (list Z)),
    length ring' = length ring ∧ Forall (λ s, length s = AQL_PACKET_BYTES) ring' ∧
    (∀ o p, o < length done → packets !! o = Some p → ring' !! place (2 ^ k) (first + Z.of_nat o) = Some (slot_bytes p)) ∧
    (∀ i, (∀ o, o < length done → i ≠ place (2 ^ k) (first + Z.of_nat o)) → ring' !! i = ring !! i)).
  destruct (try_fold_total I (publish_packet (2 ^ k) first) (enumerate packets) [] ring) as (ring' & Hr & HI).
  - split; [done|]. split; [done|]. split; [cbn; lia|done].
  - intros d x rest s1 Heq (Hl & Hs & Hd & Hn). cbn in Heq.
    assert (x = (length d, default (mkPacketImage [] 0) (packets !! length d)) ∧ is_Some (packets !! length d)) as [-> [p Hp]].
    { assert (enumerate packets !! length d = Some x) as Hx by (rewrite Heq; by apply list_lookup_middle).
      unfold enumerate in Hx. rewrite list_lookup_imap in Hx. destruct (packets !! length d) as [p|]; [|done].
      cbn in Hx. injection Hx as <-. eauto. }
    rewrite Hp. cbn [default from_option id].
    pose proof (lookup_lt_Some _ _ _ Hp) as Hlt.
    set (j := place (2 ^ k) (first + Z.of_nat (length d))).
    assert (j < length s1) as Hj by (pose proof (place_lt (2 ^ k) (first + Z.of_nat (length d)) Hpos); lia).
    destruct (lookup_lt_is_Some_2 s1 j Hj) as [slot Hslot]. unfold j in Hslot. rewrite <- slot_index_wrap in Hslot by lia.
    rewrite (publish_packet_fill _ _ _ _ _ _ Hslot). rewrite slot_index_wrap in Hslot |- * by lia. fold j in Hslot |- *.
    eexists. split; [reflexivity|]. unfold I. rewrite length_insert, length_app. cbn [length].
    assert (fill_slot slot p = slot_bytes p) as ->.
    { apply fill_slot_bytes; [exact (Forall_lookup_1 _ _ _ _ Hs Hslot)|]. by eapply Forall_lookup_1. }
    split; [done|]. split.
    { apply Forall_insert; [done|]. apply length_slot_bytes. by eapply Forall_lookup_1. }
    split.
    + intros o q Ho Hq. destruct (decide (o = length d)) as [->|Hne].
      * rewrite Hp in Hq. injection Hq as <-. by rewrite list_lookup_insert_eq.
      * rewrite list_lookup_insert_ne; [apply Hd; [lia|done]|]. intros Hc. apply place_inj in Hc; lia.
    + intros i Hi. rewrite list_lookup_insert_ne by (intros Hc; apply (Hi (length d)); [lia|done]).
      apply Hn. intros o Ho. apply Hi. lia.
  - cbn in HI. destruct HI as (Hl & Hs & Hd & Hn). exists ring'. rewrite length_enumerate in Hd, Hn.
    split; [done|]. split; [done|]. split; [done|]. split; [|done].
    intros o p Hp. apply Hd; [by eapply lookup_lt_Some|done].
Qed.

(** All the stores of a batch, in program order. *)
Definition batch_stores (size first : Z) (packets : list PacketImage) : list RingStore :=
  enumerate packets ≫= packet_stores size first.

Lemma batch_stores_run size first packets ring :
  try_fold (publish_packet size first) ring (enumerate packets) = try_fold apply_store ring (batch_stores size first packets).
Proof.
  unfold batch_stores. generalize (enumerate packets) as l. intros l. revert ring. induction l as [|x l IH]; intros ring; [done|].
  cbn [try_fold]. change ((x :: l) ≫= packet_stores size first) with (packet_stores size first x ++ (l ≫= packet_stores size first)).
  rewrite try_fold_app. change (publish_packet size first ring x) with (try_fold apply_store ring (packet_stores size first x)).
  destruct (try_fold apply_store ring (packet_stores size first x)); cbn [mbind result_bind]; [apply IH|done..].
Qed.

Lemma take_pairs {A B} (f : A → list B) (l : list A) m : (∀ x, length (f x) = 2) → take (2 * m) (l ≫= f) = take m l ≫= f.
Proof.
  intros Hf. revert l. induction m as [|m IH]; intros [|x l]; [done..|by rewrite take_nil|].
  replace (2 * S m) with (2 + 2 * m) by lia. cbn [take]. change ((x :: l) ≫= f) with (f x ++ (l ≫= f)).
  rewrite take_app, Hf, take_ge by (rewrite Hf; lia). replace (2 + 2 * m - 2) with (2 * m) by lia. by rewrite IH.
Qed.

Lemma take_pairs_S {A B} (f : A → list B) (l : list A) m x : (∀ x, length (f x) = 2) → l !! m = Some x →
  take (S (2 * m)) (l ≫= f) = (take m l ≫= f) ++ take 1 (f x).
Proof.
  intros Hf. revert l. induction m as [|m IH]; intros [|y l]; [done| |done|]; cbn [lookup list_lookup]; intros Hx.
  - injection Hx as ->. change ((x :: l) ≫= f) with (f x ++ (l ≫= f)). rewrite take_app, Hf. cbn. by rewrite app_nil_r.
  - replace (S (2 * S m)) with (2 + S (2 * m)) by lia. cbn [take]. change ((y :: l) ≫= f) with (f y ++ (l ≫= f)).
    change ((y :: take m l) ≫= f) with (f y ++ (take m l ≫= f)).
    rewrite take_app, Hf, take_ge by (rewrite Hf; lia). replace (2 + S (2 * m) - 2) with (S (2 * m)) by lia.
    by rewrite IH, app_assoc.
Qed.

Lemma bind_length_pairs {A B} (f : A → list B) (l : list A) : (∀ x, length (f x) = 2) → length (l ≫= f) = 2 * length l.
Proof.
  intros Hf. induction l as [|x l IH]; [done|]. change ((x :: l) ≫= f) with (f x ++ (l ≫= f)). rewrite length_app, Hf, IH. cbn. lia.
Qed.

Lemma enumerate_take {A} m (l : list A) : take m (enumerate l) = enumerate (take m l).
Proof.
  apply list_eq. intros i. unfold enumerate. rewrite list_lookup_imap. destruct (decide (i < m)).
  - by rewrite !lookup_take_lt, list_lookup_imap.
  - by rewrite !lookup_take_ge by lia.
Qed.

(** What the device can see of a batch while it is written, after any number of
    its stores: the slot of a packet has the header word it had before, until the
    store that completes the packet. *)
Definition headers_last (size first : Z) (ring : list (list Z)) (packets : list PacketImage) : Prop :=
  ∀ n, ∃ ring_n, try_fold apply_store ring (take n (batch_stores size first packets)) = Ok ring_n ∧
  ∀ o p, packets !! o = Some p → ∃ old new, ring !! place size (first + Z.of_nat o) = Some old ∧
    ring_n !! place size (first + Z.of_nat o) = Some new ∧
    (n ≤ 2 * o + 1 → take 4 new = take 4 old) ∧ (2 * o + 2 ≤ n → new = slot_bytes p).

Lemma publish_headers_last k first packets ring :
  (0 ≤ k ≤ 64)%Z → Z.of_nat (length ring) = (2 ^ k)%Z → Forall (λ s, length s = AQL_PACKET_BYTES) ring →
  Forall image_ok packets → (Z.of_nat (length packets) ≤ 2 ^ k)%Z → headers_last (2 ^ k) first ring packets.
Proof.
  intros Hk Hlen Hslots Himg Hfit n. assert (0 < 2 ^ k)%Z as Hpos by lia.
  assert (∀ x, length (packet_stores (2 ^ k) first x) = 2) as Htwo by (by intros []).
  assert (∀ o, ∃ old, ring !! place (2 ^ k) (first + Z.of_nat o) = Some old) as Hold.
  { intros o. apply lookup_lt_is_Some_2. pose proof (place_lt (2 ^ k) (first + Z.of_nat o) Hpos). lia. }
  (* the state after whole packets *)
  assert (∀ m, ∃ ring_m, try_fold apply_store ring (batch_stores (2 ^ k) first (take m packets)) = Ok ring_m ∧
    ∀ o p, packets !! o = Some p → (o < m → ring_m !! place (2 ^ k) (first + Z.of_nat o) = Some (slot_bytes p)) ∧
      (m ≤ o → ring_m !! place (2 ^ k) (first + Z.of_nat o) = ring !! place (2 ^ k) (first + Z.of_nat o))) as Hwhole.
  { intros m. destruct (publish_ring k first (take m packets) ring Hk Hlen Hslots) as (ring' & Hr & _ & _ & Hnew & Hkeep);
      [by apply Forall_take|rewrite length_take; lia|]. rewrite batch_stores_run in Hr. exists ring'. split; [done|]. intros o p Hp.
    split; intros Ho; [apply Hnew; by rewrite lookup_take_lt|]. apply Hkeep. intros o' Ho' Hc. rewrite length_take in Ho'.
    apply lookup_lt_Some in Hp. apply place_inj in Hc; lia. }
  assert (∃ m, n = 2 * m ∨ n = S (2 * m) ∧ m < length packets ∨ n = S (2 * m) ∧ length packets ≤ m) as (m & Hm).
  { exists (n / 2). pose proof (Nat.div_mod_eq n 2). pose proof (Nat.mod_upper_bound n 2). lia. }
  destruct (Hwhole m) as (ring_m & Hrun & Hst). destruct Hm as [->|[[-> Hlt]|[-> Hge]]].
  - exists ring_m. unfold batch_stores. rewrite take_pairs, enumerate_take by done. split; [exact Hrun|]. intros o p Hp.
    destruct (Hold o) as [old Ho], (Hst o p Hp) as [H1 H2]. destruct (decide (o < m)).
    + exists old, (slot_bytes p). split; [done|]. split; [by apply H1|]. split; [lia|done].
    + exists old, old. split; [done|]. split; [rewrite H2 by lia; done|]. split; [done|lia].
  - destruct (lookup_lt_is_Some_2 _ _ Hlt) as [pm Hpm]. destruct (Hold m) as [slot Hslot].
    unfold batch_stores. rewrite (take_pairs_S _ _ m (m, pm)) by (try done; unfold enumerate; by rewrite list_lookup_imap, Hpm).
    rewrite enumerate_take, try_fold_app. unfold batch_stores in Hrun. rewrite Hrun. cbn [mbind result_bind packet_stores take try_fold apply_store].
    rewrite slot_index_wrap by lia. rewrite (ring_index ring_m _ slot) by (rewrite (proj2 (Hst m pm Hpm)) by lia; done).
    cbn [mbind result_bind]. eexists. split; [reflexivity|]. intros o p Hp. destruct (Hold o) as [old Ho], (Hst o p Hp) as [H1 H2].
    destruct (decide (o = m)) as [->|Hne].
    + rewrite Hslot in Ho. injection Ho as ->. exists old, (put_slice old 4 (drop 4 (image_bytes pm))). split; [done|].
      split; [apply list_lookup_insert_eq; eapply lookup_lt_Some; rewrite H2 by lia; exact Hslot|]. split; [|lia]. intros _.
      pose proof (Forall_lookup_1 _ _ _ _ Hslots Hslot) as Hl. unfold put_slice, AQL_PACKET_BYTES in *.
      rewrite take_app_le by (rewrite length_take; lia). by rewrite take_take.
    + assert (place (2 ^ k) (first + Z.of_nat m) ≠ place (2 ^ k) (first + Z.of_nat o)) as Hnp.
      { intros Hc. apply lookup_lt_Some in Hp. apply place_inj in Hc; lia. }
      rewrite list_lookup_insert_ne by done. destruct (decide (o < m)).
      * exists old, (slot_bytes p). split; [done|]. split; [by apply H1|]. split; [lia|done].
      * exists old, old. split; [done|]. split; [rewrite H2 by lia; done|]. split; [done|lia].
  - exists ring_m. rewrite take_ge by (unfold batch_stores; rewrite (bind_length_pairs _ _ Htwo), length_enumerate; lia).
    rewrite take_ge in Hrun by lia. split; [exact Hrun|]. intros o p Hp.
    destruct (Hold o) as [old Ho], (Hst o p Hp) as [H1 H2]. apply lookup_lt_Some in Hp.
    exists old, (slot_bytes p). split; [done|]. split; [apply H1; lia|]. split; [lia|done].
Qed.

(** What lies between the read and the write index: [j] places after the read
    index is the packet of the history that was published there. *)
Definition depth (wr rd : Z) : Z := wrap64 (wr - rd).

Record ring_ok (q : AqlQueue) (wr rd : Z) (hist : list PacketImage) : Prop := {
  rk_size : ∃ k, (0 ≤ k ≤ 32)%Z ∧ aq_size q = (2 ^ k)%Z;
  rk_len : Z.of_nat (length (aq_ring q)) = aq_size q;
  rk_slots : Forall (λ s, length s = AQL_PACKET_BYTES) (aq_ring q);
  rk_depth : (depth wr rd ≤ aq_size q)%Z;
  rk_hist : (depth wr rd ≤ Z.of_nat (length hist))%Z;
  rk_pending j p : (Z.of_nat j < depth wr rd)%Z →
    hist !! (length hist - Z.to_nat (depth wr rd) + j) = Some p →
    aq_ring q !! place (aq_size q) (rd + Z.of_nat j) = Some (slot_bytes p) }.

(** The device retires packets that were published. *)
Definition retires (wr rd rd' : Z) : Prop := ∃ n, (0 ≤ n ≤ depth wr rd)%Z ∧ rd' = wrap64 (rd + n).

Lemma depth_bounds wr rd : (0 ≤ depth wr rd < 2 ^ 64)%Z.
Proof. apply Z.mod_pos_bound. lia. Qed.

Lemma depth_retire wr rd n : (0 ≤ n ≤ depth wr rd)%Z → depth wr (wrap64 (rd + n)) = (depth wr rd - n)%Z.
Proof.
  intros Hn. unfold depth, wrap64 in *. rewrite Zminus_mod_idemp_r.
  replace (wr - (rd + n))%Z with ((wr - rd) - n)%Z by lia. rewrite <- Zminus_mod_idemp_l.
  apply Z.mod_small. pose proof (depth_bounds wr rd) as H. unfold depth, wrap64 in H. lia.
Qed.

Lemma depth_publish wr rd n : (0 ≤ n)%Z → (depth wr rd + n < 2 ^ 64)%Z → depth (wrap64 (wr + n)) rd = (depth wr rd + n)%Z.
Proof.
  intros Hn Hb. unfold depth, wrap64 in *. rewrite Zminus_mod_idemp_l.
  replace (wr + n - rd)%Z with ((wr - rd) + n)%Z by lia. rewrite <- Zplus_mod_idemp_l.
  apply Z.mod_small. pose proof (depth_bounds wr rd) as H. unfold depth, wrap64 in H. lia.
Qed.

(** The capacity test of the code, on indices that may have wrapped. *)
Lemma capacity_test wr rd n size : (1 ≤ n)%Z → (depth wr rd ≤ size)%Z → (n ≤ size)%Z → (size ≤ 2 ^ 32)%Z →
  (wrap64 (wrap64 (wr + (n - 1)) - rd) <? size)%Z = true → (depth wr rd + n ≤ size)%Z.
Proof.
  intros Hn Hd Hs Hb Ht. apply Z.ltb_lt in Ht.
  fold (depth (wrap64 (wr + (n - 1))) rd) in Ht. rewrite depth_publish in Ht by lia. lia.
Qed.

(** A place only depends on the identifier up to 64 bits. *)
Lemma place_wrap k id : (0 ≤ k ≤ 64)%Z → place (2 ^ k) (wrap64 id) = place (2 ^ k) id.
Proof.
  intros Hk. rewrite <- (slot_index_wrap k id Hk), <- (slot_index_wrap k (wrap64 id) Hk).
  unfold wrap64. by rewrite Z.mod_mod.
Qed.

Lemma place_wrap_add k a b : (0 ≤ k ≤ 64)%Z → place (2 ^ k) (wrap64 a + b) = place (2 ^ k) (a + b).
Proof.
  intros Hk. rewrite <- (place_wrap k (wrap64 a + b)), <- (place_wrap k (a + b)) by done.
  unfold wrap64. by rewrite Zplus_mod_idemp_l.
Qed.

Lemma ring_retire q wr rd rd' hist : ring_ok q wr rd hist → retires wr rd rd' → ring_ok q wr rd' hist.
Proof.
  intros [Hsize Hlen Hslots Hd Hh Hp] (n & Hn & ->). pose proof (depth_retire wr rd n Hn) as Hdn.
  split; [done..|rewrite Hdn; lia|rewrite Hdn; lia|].
  destruct Hsize as (k & Hk & Hs). intros j p Hj Hhist. rewrite Hdn in Hj, Hhist.
  rewrite Hs in Hp |- *. rewrite place_wrap_add by lia.
  replace (rd + n + Z.of_nat j)%Z with (rd + Z.of_nat (Z.to_nat n + j))%Z by lia.
  apply Hp; [lia|]. rewrite <- Hhist. f_equal. lia.
Qed.

Lemma ring_publish q wr rd hist packets :
  ring_ok q wr rd hist → Forall image_ok packets → (depth wr rd + Z.of_nat (length packets) ≤ aq_size q)%Z →
  ∃ ring, try_fold (publish_packet (aq_size q) wr) (aq_ring q) (enumerate packets) = Ok ring ∧
    ring_ok (mkAqlQueue (aq_id q) (aq_size q) ring (aq_active q)) (wrap64 (wr + Z.of_nat (length packets))) rd
      (hist ++ packets).
Proof.
  intros [(k & Hk & Hs) Hlen Hslots Hd Hh Hp] Himg Hfit. rewrite Hs in *.
  pose proof (depth_bounds wr rd) as Hb.
  assert (2 ^ k ≤ 2 ^ 32)%Z as Hsmall by (apply Z.pow_le_mono_r; lia).
  destruct (publish_ring k wr packets (aq_ring q)) as (ring & Hr & Hl & Hsl & Hnew & Hold); [lia|done..|lia|].
  exists ring. split; [done|].
  assert (depth (wrap64 (wr + Z.of_nat (length packets))) rd = (depth wr rd + Z.of_nat (length packets))%Z) as Hdp
    by (apply depth_publish; lia).
  split; cbn [aq_size aq_ring]; [by exists k|lia|done|rewrite Hdp; lia|rewrite Hdp, length_app; lia|].
  intros j p Hj Hhist. rewrite Hdp in Hj, Hhist. rewrite length_app in Hhist.
  set (d := Z.to_nat (depth wr rd)) in *.
  assert (place (2 ^ k) wr = place (2 ^ k) (rd + Z.of_nat d) ∧
    ∀ o, place (2 ^ k) (wr + o) = place (2 ^ k) (rd + Z.of_nat d + o)) as [_ Hwr].
  { assert (∀ o, place (2 ^ k) (wr + o) = place (2 ^ k) (rd + Z.of_nat d + o)) as H.
    { intros o. unfold d. rewrite Z2Nat.id by lia. rewrite <- (place_wrap k (wr + o)), <- (place_wrap k (rd + _ + o)) by lia.
      f_equal. unfold depth, wrap64. rewrite <- (Zplus_mod_idemp_l (rd + _) o), Zplus_mod_idemp_r, Zplus_mod_idemp_l.
      f_equal. lia. }
    split; [|done]. specialize (H 0%Z). by rewrite !Z.add_0_r in H. }
  destruct (decide (j < d)) as [Hlt|Hge].
  - rewrite Hold.
    + apply Hp; [lia|]. rewrite lookup_app_l in Hhist by lia. rewrite <- Hhist. f_equal. lia.
    + intros o Ho Hc. rewrite Hwr in Hc. apply place_inj in Hc; lia.
  - rewrite lookup_app_r in Hhist by lia.
    replace (_ - length hist) with (j - d) in Hhist by lia.
    replace (rd + Z.of_nat j)%Z with (rd + Z.of_nat d + Z.of_nat (j - d))%Z by lia.
    rewrite <- Hwr. by apply Hnew.
Qed.

Lemma ring_headers_last q wr rd hist packets first : ring_ok q wr rd hist → Forall image_ok packets →
  (Z.of_nat (length packets) ≤ aq_size q)%Z → headers_last (aq_size q) first (aq_ring q) packets.
Proof. intros [(k & Hk & Hs) Hlen Hslots _ _ _] Himg Hfit. rewrite Hs in *. apply publish_headers_last; [lia|done..]. Qed.

(** ** What HSA promises *)

Class HsaIndices (W : Type) := {
  write_of : nat → W → Z;
  read_of : nat → W → Z;
  doorbell_of : nat → W → Z }.

(** Between two calls the device may retire published packets, nothing else. *)
Definition advances `{HsaIndices W} (w w' : W) : Prop := ∀ lane,
  write_of lane w' = write_of lane w ∧ retires (write_of lane w) (read_of lane w) (read_of lane w') ∧
  doorbell_of lane w' = doorbell_of lane w.

Class HsaLaws (W : Type) `{!HsaQueues W, !HsaIndices W} : Prop := {
  law_u64 lane w : is_u64 (write_of lane w) ∧ is_u64 (read_of lane w);
  law_load_write lane w : (load_write_index lane w).1 = write_of lane w ∧ advances w (load_write_index lane w).2;
  law_load_read lane w : (load_read_index lane w).1 = read_of lane (load_read_index lane w).2 ∧
    advances w (load_read_index lane w).2;
  law_add_write lane n w : (add_write_index lane n w).1 = write_of lane w ∧
    ∀ l, write_of l (add_write_index lane n w).2 =
        (if bool_decide (l = lane) then wrap64 (write_of l w + n) else write_of l w) ∧
      retires (write_of l w) (read_of l w) (read_of l (add_write_index lane n w).2) ∧
      doorbell_of l (add_write_index lane n w).2 = doorbell_of l w;
  law_doorbell lane v w : ∀ l, write_of l (store_doorbell lane v w) = write_of l w ∧
      retires (write_of l w) (read_of l w) (read_of l (store_doorbell lane v w)) ∧
      doorbell_of l (store_doorbell lane v w) = (if bool_decide (l = lane) then v else doorbell_of l w);
  law_inactivate lane w : advances w (inactivate_queue lane w).2;
  law_fault lane w : advances w (load_fault lane w).2;
  law_load_signal s w : advances w (load_signal s w).2;
  law_store_signal s v w : advances w (store_signal s v w);
  law_elapsed round w : advances w (elapsed round w).2 }.

Lemma retires_refl wr rd : is_u64 rd → retires wr rd rd.
Proof.
  intros Hr. exists 0%Z. pose proof (depth_bounds wr rd). split; [lia|]. rewrite Z.add_0_r. unfold wrap64.
  symmetry. apply Z.mod_small. ulia.
Qed.

Lemma retires_trans wr r1 r2 r3 : retires wr r1 r2 → retires wr r2 r3 → retires wr r1 r3.
Proof.
  intros (n & Hn & ->) (m & Hm & ->). rewrite (depth_retire wr r1 n Hn) in Hm. exists (n + m)%Z. split; [lia|].
  unfold wrap64. rewrite Zplus_mod_idemp_l. f_equal. lia.
Qed.

(** A queue set in a world: every ring agrees with the history of what was
    published on it. *)
Record set_ok `{HsaIndices W} (s : QueueSet) (w : W) (hist : list (list PacketImage)) : Prop := {
  so_doorbells : length (prepared_doorbells s) = length (qs_queues s);
  so_hist : length hist = length (qs_queues s);
  so_ring lane q h : qs_queues s !! lane = Some q → hist !! lane = Some h →
    ring_ok q (write_of lane w) (read_of lane w) h }.

Section laws.
Context {W : Type} `{!HsaQueues W, !HsaIndices W, !HsaLaws W}.

#[export] Instance advances_refl : Reflexive (advances (W := W)).
Proof. intros w lane. split; [done|]. split; [|done]. apply retires_refl, law_u64. Qed.

#[export] Instance advances_trans : Transitive (advances (W := W)).
Proof.
  intros w1 w2 w3 H12 H23 lane. destruct (H12 lane) as (E1 & R1 & D1), (H23 lane) as (E2 & R2 & D2).
  rewrite E1 in E2, R2. split; [done|]. split; [by eapply retires_trans|congruence].
Qed.

Lemma set_ok_advance (s : QueueSet) (w w' : W) hist : set_ok s w hist → advances w w' → set_ok s w' hist.
Proof.
  intros [Hd Hh Hr] Ha. split; [done..|]. intros lane q h Hq Hlane. destruct (Ha lane) as (-> & Hret & _).
  eapply ring_retire; [by eapply Hr|done].
Qed.

(** Programs that only look. *)
Definition looks {A} (m : QM A) (s : QueueSet * W) (P : W → A → Prop) : Prop :=
  match m s with
  | None => True
  | Some ((s', w'), r) => s' = s.1 ∧ advances s.2 w' ∧
      match r with Ok a => P w' a | Err _ => True | Panic => False end
  end.

Lemma looks_bind {A B} (m : QM A) (f : A → QM B) s P Q :
  looks m s P → (∀ w a, advances s.2 w → P w a → looks (f a) (s.1, w) Q) → looks (m ≫= f) s Q.
Proof.
  unfold looks. intros Hm Hf. unfold mbind, QM_bind. destruct (m s) as [[[s' w'] [a|e|]]|]; [|done..].
  destruct Hm as (-> & Ha & HP). specialize (Hf w' a Ha HP). destruct (f a (s.1, w')) as [[[s2 w2] r]|]; [|done].
  cbn in Hf. destruct Hf as (-> & Ha2 & Hr). split; [done|]. split; [by etransitivity|done].
Qed.

Lemma looks_lift {A} (r : result RuntimeError A) s (P : W → A → Prop) :
  (match r with Ok a => P s.2 a | Err _ => True | Panic => False end) → looks (qlift r) s P.
Proof. destruct s. done. Qed.

Lemma looks_world {A} (f : W → A * W) s (P : W → A → Prop) :
  advances s.2 (f s.2).2 → P (f s.2).2 (f s.2).1 → looks (world f) s P.
Proof. unfold looks, world. destruct (f s.2). done. Qed.

Lemma looks_queue lane s q : qs_queues s.1 !! lane = Some q → looks (queue_at lane) s (λ _ q', q' = q).
Proof. unfold looks, queue_at, index. intros ->. by destruct s. Qed.

Lemma looks_ret {A} (a : A) s (P : W → A → Prop) : P s.2 a → looks (mret a) s P.
Proof. by destruct s. Qed.

Lemma looks_fault lane s q : qs_queues s.1 !! lane = Some q → looks (check_fault lane) s (λ _ _, True).
Proof.
  intros Hq. unfold check_fault. eapply looks_bind; [by apply looks_queue|]. intros w q' _ ->.
  eapply (looks_bind _ _ _ (λ _ _, True)); [by apply looks_world; [apply law_fault|]|]. intros w' e _ _.
  destruct (QueueFault_status e); by apply looks_lift || by apply looks_ret.
Qed.

Lemma looks_capacity fuel lane count q h : ∀ round s, qs_queues s.1 !! lane = Some q →
  ring_ok q (write_of lane s.2) (read_of lane s.2) h → 1 ≤ count → (Z.of_nat count ≤ aq_size q)%Z →
  looks (capacity_rounds fuel round lane count) s
    (λ w _, (depth (write_of lane w) (read_of lane w) + Z.of_nat count ≤ aq_size q)%Z).
Proof.
  induction fuel as [|fuel IH]; intros round s Hq Hr Hc Hs; [done|]. cbn [capacity_rounds].
  eapply looks_bind; [by eapply looks_fault|]. intros w1 _ A1 _.
  eapply looks_bind; [by apply looks_queue|]. intros w2 q' A2 ->.
  eapply (looks_bind _ _ _ (λ w v, v = write_of lane w)).
  { apply looks_world; [apply law_load_write|]. cbn. destruct (law_load_write lane w2) as [-> A]. by destruct (A lane) as (-> & _ & _). }
  intros w3 wr A3 ->. cbn in A1, A2, A3.
  eapply (looks_bind _ _ _ (λ w v, v = read_of lane w ∧ write_of lane w = write_of lane w3)).
  { apply looks_world; [apply law_load_read|]. cbn. destruct (law_load_read lane w3) as [-> A]. split; [done|].
    by destruct (A lane) as (-> & _ & _). }
  intros w4 rd A4 [-> Hw4]. cbn in A4.
  assert (advances s.2 w4) as A by (etransitivity; [exact A1|]; etransitivity; [exact A2|]; by etransitivity).
  assert (ring_ok q (write_of lane w4) (read_of lane w4) h) as Hr4.
  { destruct (A lane) as (-> & Hret & _). by eapply ring_retire. }
  pose proof Hr4 as [(k & Hk & Hsz) _ _ Hd _ _].
  assert (aq_size q ≤ 2 ^ 32)%Z by (rewrite Hsz; apply Z.pow_le_mono_r; lia).
  destruct (wrap64 (wrap64 (write_of lane w3 + (Z.of_nat count - 1)) - read_of lane w4) <? aq_size q)%Z eqn:Ht.
  - apply looks_ret. cbn [snd]. rewrite <- Hw4 in Ht. apply capacity_test in Ht; lia.
  - eapply (looks_bind _ _ _ (λ _ _, True)); [by apply looks_world; [apply law_elapsed|]|]. intros w5 late A5 _.
    destruct late; [by apply looks_lift|]. apply IH; [done| |done..]. cbn.
    destruct (A5 lane) as (-> & Hret & _). by eapply ring_retire.
Qed.

(** Programs that change the set: a condition on where they end. *)
Definition ends {A} (m : QM A) (s : QueueSet * W) (Q : QueueSet → W → result RuntimeError A → Prop) : Prop :=
  match m s with
  | None => True
  | Some ((s', w'), r) => Q s' w' r
  end.

Lemma looks_ends {A B} (m : QM A) (f : A → QM B) s P (Q : QueueSet → W → result RuntimeError B → Prop) :
  looks m s P → (∀ w a, advances s.2 w → P w a → ends (f a) (s.1, w) Q) →
  (∀ w e, advances s.2 w → Q s.1 w (Err e)) → ends (m ≫= f) s Q.
Proof.
  unfold looks, ends. intros Hm Hf He. unfold mbind, QM_bind. destruct (m s) as [[[s' w'] [a|e|]]|]; [|..|done].
  - destruct Hm as (-> & Ha & HP). by apply Hf.
  - destruct Hm as (-> & Ha & _). by apply He.
  - by destruct Hm as (_ & _ & ?).
Qed.

Lemma ends_bind {A B} (m : QM A) (f : A → QM B) s Q R :
  ends m s Q → (∀ s' w' a, Q s' w' (Ok a) → ends (f a) (s', w') R) →
  (∀ s' w' e, Q s' w' (Err e) → R s' w' (Err e)) → (∀ s' w', Q s' w' Panic → R s' w' Panic) → ends (m ≫= f) s R.
Proof.
  unfold ends, mbind, QM_bind. intros Hm Hf He Hp. destruct (m s) as [[[s' w'] [a|e|]]|]; [|..|done].
  - by apply Hf.
  - by apply He.
  - by apply Hp.
Qed.

Lemma ends_mono {A} (m : QM A) s (Q R : QueueSet → W → result RuntimeError A → Prop) :
  ends m s Q → (∀ s' w' r, Q s' w' r → R s' w' r) → ends m s R.
Proof. unfold ends. destruct (m s) as [[[s' w'] r]|]; auto. Qed.

(** The signed doorbell value of the packet before the write index. *)
Definition signed64 (v : Z) : Z := if (v <? 2 ^ 63)%Z then v else (v - 2 ^ 64)%Z.
Definition last_packet (lane : nat) (w : W) : Z := signed64 (wrap64 (write_of lane w - 1)).

(** A queue keeps its identity while it is published to. *)
Definition same_queue (q q' : AqlQueue) : Prop := aq_id q' = aq_id q ∧ aq_size q' = aq_size q ∧ aq_active q' = aq_active q.

Lemma publish_ends lane packets s w hist q h :
  set_ok s w hist → qs_queues s !! lane = Some q → hist !! lane = Some h → Forall image_ok packets → packets ≠ [] →
  (depth (write_of lane w) (read_of lane w) + Z.of_nat (length packets) ≤ aq_size q)%Z →
  ends (publish_batch lane packets) (s, w) (λ s' w' r, r = Ok (last_packet lane w') ∧
    set_ok s' w' (<[lane := h ++ packets]> hist) ∧ prepared_doorbells s' = prepared_doorbells s ∧
    (∃ ring, try_fold (publish_packet (aq_size q) (write_of lane w)) (aq_ring q) (enumerate packets) = Ok ring ∧
      qs_queues s' = <[lane := mkAqlQueue (aq_id q) (aq_size q) ring (aq_active q)]> (qs_queues s)) ∧
    (∀ l, l ≠ lane → write_of l w' = write_of l w) ∧ ∀ l, doorbell_of l w' = doorbell_of l w).
Proof.
  intros Hok Hq Hh Himg Hne Hfit. unfold ends, publish_batch, mbind, QM_bind, queue_at, index, world. cbn [fst snd].
  rewrite Hq. destruct (law_add_write lane (Z.of_nat (length packets)) w) as [Hfirst Hl].
  destruct (add_write_index lane (Z.of_nat (length packets)) w) as [first w'] eqn:Hadd. cbn [fst snd] in *. subst first.
  destruct Hok as [Hd Hhl Hr].
  destruct (Hl lane) as (Hw' & Hret & _). rewrite bool_decide_eq_true_2 in Hw' by done.
  pose proof (ring_retire _ _ _ _ _ (Hr lane q h Hq Hh) Hret) as Hring.
  destruct (ring_publish q (write_of lane w) (read_of lane w') h packets Hring Himg) as (ring & Hfold & Hring').
  { destruct Hret as (n & Hn & Heq). rewrite Heq, depth_retire by done. lia. }
  unfold qlift. rewrite Hfold. cbn. split; [|split; [|split; [done|split; [by exists ring|split]]]].
  - unfold last_packet, signed64. rewrite Hw'. unfold mret, result_ret.
    replace (wrap64 (wrap64 (write_of lane w + Z.of_nat (length packets)) - 1))
      with (wrap64 (write_of lane w + (Z.of_nat (length packets) - 1))); [done|].
    unfold wrap64. rewrite Zminus_mod_idemp_l. f_equal. lia.
  - split; cbn; rewrite ?length_insert; [done..|].
    intros l q' h' Hq' Hh'. destruct (decide (l = lane)) as [->|Hne'].
    + rewrite list_lookup_insert_eq in Hq' by (by eapply lookup_lt_Some).
      rewrite list_lookup_insert_eq in Hh' by (by eapply lookup_lt_Some). injection Hq' as <-. injection Hh' as <-.
      by rewrite Hw'.
    + rewrite list_lookup_insert_ne in Hq' by done. rewrite list_lookup_insert_ne in Hh' by done.
      destruct (Hl l) as (Hwl & Hrl & _).
      rewrite bool_decide_eq_false_2 in Hwl by done. rewrite Hwl. eapply ring_retire; [by eapply Hr|done].
  - intros l Hl'. destruct (Hl l) as (Hwl & _). by rewrite bool_decide_eq_false_2 in Hwl.
  - intros l. by destruct (Hl l) as (_ & _ & ?).
Qed.

Lemma prepare_ends fuel lane packets s w hist q h :
  set_ok s w hist → qs_queues s !! lane = Some q → hist !! lane = Some h → Forall image_ok packets →
  (Z.of_nat (length packets) ≤ aq_size q)%Z →
  ends (prepare_batch fuel lane packets) (s, w) (λ s' w' r,
    prepared_doorbells s' = prepared_doorbells s ∧ (∀ l, doorbell_of l w' = doorbell_of l w) ∧
    (∀ l, l ≠ lane → write_of l w' = write_of l w) ∧
    match r with
    | Ok d => d = (if bool_decide (packets = []) then None else Some (last_packet lane w')) ∧
        set_ok s' w' (<[lane := h ++ packets]> hist) ∧
        ∃ ring, try_fold (publish_packet (aq_size q) (write_of lane w)) (aq_ring q) (enumerate packets) = Ok ring ∧
          qs_queues s' = <[lane := mkAqlQueue (aq_id q) (aq_size q) ring (aq_active q)]> (qs_queues s)
    | Err _ => s' = s ∧ set_ok s' w' hist
    | Panic => False
    end).
Proof.
  intros Hok Hq Hh Himg Hfit.
  assert (∀ w', advances w w' → set_ok s w' hist) as Hadv by (intros; by eapply set_ok_advance).
  assert (∀ w' l, advances w w' → doorbell_of l w' = doorbell_of l w ∧ write_of l w' = write_of l w) as Hsame
    by (intros w' l A; by destruct (A l) as (? & _ & ?)).
  assert (∀ (w' : W) (e : RuntimeError), advances w w' → prepared_doorbells s = prepared_doorbells s ∧
    (∀ l, doorbell_of l w' = doorbell_of l w) ∧ (∀ l, l ≠ lane → write_of l w' = write_of l w) ∧ s = s ∧ set_ok s w' hist) as Herr.
  { intros w' e A. split; [done|]. split; [intros l; by apply Hsame|]. split; [intros l _; by apply Hsame|]. auto. }
  unfold prepare_batch. eapply looks_ends; [by apply looks_queue| |exact Herr]. intros w1 q' A1 ->. cbn [fst snd] in *.
  eapply looks_ends; [apply (looks_lift _ _ (λ _ _, True)); unfold assert; by rewrite (proj2 (Z.leb_le _ _) Hfit)| |].
  2:{ intros w2 e A2. apply Herr; [done|]. by etransitivity. }
  intros w2 _ A2 _. cbn [fst snd] in *. assert (advances w w2) as A12 by (by etransitivity).
  eapply (looks_ends _ _ _ (λ _ _, True)).
  { unfold ensure_active. eapply looks_bind; [by apply looks_queue|]. intros w3 q' _ ->. apply looks_lift.
    by destruct (aq_active q). }
  2:{ intros w3 e A3. apply Herr; [done|]. by etransitivity. }
  intros w3 _ A3 _. cbn [fst snd] in *. assert (advances w w3) as A13 by (by etransitivity).
  eapply looks_ends; [by eapply looks_fault| |]. 2:{ intros w4 e A4. apply Herr; [done|]. by etransitivity. }
  intros w4 _ A4 _. cbn [fst snd] in *. assert (advances w w4) as A14 by (by etransitivity).
  case_bool_decide as Hnil.
  - destruct (Herr w4 ZeroQueues A14) as (H1 & H2 & H3 & _ & H4). cbn. split; [done|]. split; [done|]. split; [done|].
    split; [done|]. subst packets. rewrite app_nil_r, (list_insert_id hist) by done. split; [done|].
    exists (aq_ring q). split; [done|]. rewrite list_insert_id by (rewrite Hq; by destruct q). done.
  - eapply looks_ends; [eapply looks_capacity; [done| |destruct packets; [done|cbn; lia]|done]| |].
    { cbn. by eapply (so_ring _ _ _ (Hadv w4 A14)). }
    2:{ intros w5 e A5. apply Herr; [done|]. by etransitivity. }
    intros w5 u A5 Hcap. cbn [fst snd] in *. assert (advances w w5) as A15 by (by etransitivity).
    eapply ends_bind; [by apply (publish_ends lane packets s w5 hist q h (Hadv w5 A15))| | |]; cbn beta.
    + intros s' w' a ([= ->] & Hs' & Hpd & Hring & Hwr & Hdb). destruct (Hsame w5 lane A15) as [_ Hw5]. rewrite Hw5 in Hring.
      cbn. split; [done|]. split; [|split; [|done]].
      * intros l. rewrite Hdb. by apply Hsame.
      * intros l Hl. rewrite Hwr by done. by apply Hsame.
    + by intros s' w' e (? & _).
    + by intros s' w' (? & _).
Qed.

(** ** Inactivation *)

Definition downed (q : AqlQueue) : AqlQueue := mkAqlQueue (aq_id q) (aq_size q) (aq_ring q) false.

(** The same queues, some of them inactivated. *)
Definition weakened (s s' : QueueSet) : Prop := prepared_doorbells s' = prepared_doorbells s ∧
  length (qs_queues s') = length (qs_queues s) ∧
  ∀ lane q, qs_queues s !! lane = Some q → ∃ q', qs_queues s' !! lane = Some q' ∧ (q' = q ∨ q' = downed q).

#[export] Instance weakened_refl : Reflexive weakened.
Proof. intros s. split; [done|]. split; [done|]. eauto. Qed.

#[export] Instance weakened_trans : Transitive weakened.
Proof.
  intros s1 s2 s3 (D1 & L1 & H1) (D2 & L2 & H2). split; [congruence|]. split; [congruence|].
  intros lane q Hq. destruct (H1 lane q Hq) as (q2 & Hq2 & C1). destruct (H2 lane q2 Hq2) as (q3 & Hq3 & C2).
  exists q3. split; [done|]. destruct C1 as [->| ->], C2 as [->| ->]; auto.
Qed.

Lemma set_ok_weaken s s' (w : W) hist : set_ok s w hist → weakened s s' → set_ok s' w hist.
Proof.
  intros [Hd Hh Hr] (D & L & H). split; [congruence|congruence|]. intros lane q' h Hq' Hlane.
  destruct (lookup_lt_is_Some_2 (qs_queues s) lane) as [q Hq].
  { rewrite <- L. by eapply lookup_lt_Some. }
  destruct (H lane q Hq) as (q2 & Hq2 & C). rewrite Hq' in Hq2. injection Hq2 as <-.
  destruct (Hr lane q h Hq Hlane). by destruct C as [->| ->].
Qed.

(** The sizes of the queues never change. *)
Definition same_shape (s s' : QueueSet) : Prop := aq_size <$> qs_queues s' = aq_size <$> qs_queues s.

Lemma weakened_shape s s' : weakened s s' → same_shape s s'.
Proof.
  intros (_ & L & H). apply list_eq_same_length with (length (qs_queues s)); rewrite ?length_fmap; [done|done|].
  intros i x y _ Hx Hy. rewrite list_lookup_fmap_Some in Hx, Hy. destruct Hx as (q' & -> & Hq'), Hy as (q & -> & Hq).
  destruct (H i q Hq) as (q2 & Hq2 & C). rewrite Hq' in Hq2. injection Hq2 as <-. by destruct C as [->| ->].
Qed.

Lemma same_shape_length s s' : same_shape s s' → length (qs_queues s') = length (qs_queues s).
Proof. intros H. apply (f_equal length) in H. by rewrite !length_fmap in H. Qed.

Lemma inactivate_ends lane s w : lane < length (qs_queues s) →
  ends (inactivate lane) (s, w) (λ s' w' r, weakened s s' ∧ advances w w' ∧ r ≠ Panic ∧
    (∀ l, l ≠ lane → qs_queues s' !! l = qs_queues s !! l) ∧
    (r = Ok tt → ∃ q, qs_queues s' !! lane = Some q ∧ aq_active q = false)).
Proof.
  intros Hlt. destruct (lookup_lt_is_Some_2 _ _ Hlt) as [q Hq].
  unfold ends, inactivate, mbind, QM_bind, queue_at, index, world. cbn [fst snd]. rewrite Hq.
  destruct (aq_active q) eqn:Ha.
  2:{ cbn. split; [done|]. split; [done|]. split; [done|]. split; [done|]. eauto. }
  cbn [fst snd]. pose proof (law_inactivate lane w) as Hadv. destruct (inactivate_queue lane w) as [status w'] eqn:Hi.
  cbn [fst snd] in *.
  unfold qlift, err_if. destruct (negb (status =? STATUS_SUCCESS)%Z); cbn.
  { split; [done|]. split; [done|]. split; [done|]. split; [done|]. done. }
  split; [|split; [done|split; [done|split]]].
  - split; [done|]. cbn. rewrite length_insert. split; [done|]. intros l q' Hq'.
    destruct (decide (l = lane)) as [->|Hne].
    + exists (downed q). rewrite list_lookup_insert_eq by done. split; [done|]. right. congruence.
    + exists q'. rewrite list_lookup_insert_ne by done. auto.
  - intros l Hl. cbn. by rewrite list_lookup_insert_ne.
  - intros _. cbn. rewrite list_lookup_insert_eq by done. eauto.
Qed.

Lemma inactivate_lanes_ends lanes : ∀ fe s w, NoDup lanes → (∀ l, l ∈ lanes → l < length (qs_queues s)) →
  ends (inactivate_lanes lanes fe) (s, w) (λ s' w' r, weakened s s' ∧ advances w w' ∧
    (∀ l, l ∉ lanes → qs_queues s' !! l = qs_queues s !! l) ∧
    ∃ fe', r = Ok fe' ∧ (fe' = None → fe = None ∧ ∀ l, l ∈ lanes → ∃ q, qs_queues s' !! l = Some q ∧ aq_active q = false)).
Proof.
  induction lanes as [|lane lanes IH]; intros fe s w Hnd Hin; cbn [inactivate_lanes].
  - cbn. split; [done|]. split; [done|]. split; [done|]. exists fe. split; [done|]. intros ->. split; [done|].
    by intros l ?%not_elem_of_nil.
  - apply NoDup_cons in Hnd as [Hnot Hnd].
    pose proof (inactivate_ends lane s w (Hin lane ltac:(left))) as H1. unfold ends in H1 |- *.
    destruct (inactivate lane (s, w)) as [[[s1 w1] r1]|] eqn:He; [|done].
    destruct H1 as (Hwk & Hadv & Hnp & Hother & Hdown).
    assert (∀ l, l ∈ lanes → l < length (qs_queues s1)) as Hin1.
    { intros l Hl. destruct Hwk as (_ & -> & _). apply Hin. by right. }
    assert (∀ fe1, (fe1 = None → fe = None ∧ ∃ q, qs_queues s1 !! lane = Some q ∧ aq_active q = false) →
      match inactivate_lanes lanes fe1 (s1, w1) with
      | Some ((s', w'), r) => weakened s s' ∧ advances w w' ∧
          (∀ l, l ∉ lane :: lanes → qs_queues s' !! l = qs_queues s !! l) ∧
          ∃ fe', r = Ok fe' ∧ (fe' = None → fe = None ∧
            ∀ l, l ∈ lane :: lanes → ∃ q, qs_queues s' !! l = Some q ∧ aq_active q = false)
      | None => True
      end) as Hrest.
    { intros fe1 Hfe1. pose proof (IH fe1 s1 w1 Hnd Hin1) as H2. unfold ends in H2.
      destruct (inactivate_lanes lanes fe1 (s1, w1)) as [[[s2 w2] r2]|]; [|done].
      destruct H2 as (Hwk2 & Hadv2 & Hother2 & fe' & -> & Hfe). split; [by etransitivity|]. split; [by etransitivity|].
      split; [intros l [Hl1 Hl2]%not_elem_of_cons; rewrite Hother2 by done; by apply Hother|]. exists fe'. split; [done|].
      intros ->. destruct (Hfe eq_refl) as [-> Hall]. destruct (Hfe1 eq_refl) as [-> Hl1]. split; [done|].
      intros l [->|Hl]%elem_of_cons; [|by apply Hall]. by rewrite Hother2. }
    destruct r1 as [[]|e|]; [| |done]; apply Hrest.
    + intros ->. split; [done|]. by apply Hdown.
    + by destruct fe.
Qed.

(** [inactivate_all] forgets the prepared doorbells, tries every queue and
    succeeds only when all are inactive. *)
Definition all_down (s : QueueSet) : Prop := ∀ q, q ∈ qs_queues s → aq_active q = false.
Definition no_doorbells (s : QueueSet) : Prop := ∀ d, d ∈ prepared_doorbells s → d = None.

Lemma no_doorbells_fill s : no_doorbells (mkQueueSet (qs_queues s) ((λ _, None) <$> prepared_doorbells s)).
Proof. intros d Hd. cbn in Hd. by apply list_elem_of_fmap in Hd as (? & -> & _). Qed.

Lemma inactivate_all_ends s w hist : set_ok s w hist →
  ends inactivate_all (s, w) (λ s' w' r, set_ok s' w' hist ∧ no_doorbells s' ∧ advances w w' ∧
    same_shape s s' ∧
    match r with Ok _ => all_down s' | Err _ => True | Panic => False end).
Proof.
  intros Hok. set (s0 := mkQueueSet (qs_queues s) ((λ _, None) <$> prepared_doorbells s)).
  assert (set_ok s0 w hist) as Hok0.
  { destruct Hok. split; [by cbn; rewrite length_fmap|done|done]. }
  pose proof (inactivate_lanes_ends (seq 0 (length (qs_queues s))) None s0 w (NoDup_seq _ _)) as H.
  unfold inactivate_all, ends, mbind, QM_bind, set_doorbells in H |- *. cbn [fst snd]. fold s0.
  destruct (inactivate_lanes (seq 0 (length (qs_queues s))) None (s0, w)) as [[[s1 w1] r1]|]; [|done].
  destruct H as (Hwk & Hadv & _ & fe & -> & Hfe).
  { intros l [_ Hl]%elem_of_seq. exact Hl. }
  assert (set_ok s1 w1 hist) as Hok1 by (eapply set_ok_advance; [by eapply set_ok_weaken|done]).
  assert (no_doorbells s1) as Hno.
  { intros d Hd. destruct Hwk as (Hd0 & _). rewrite Hd0 in Hd. by apply (no_doorbells_fill s). }
  assert (same_shape s s1) as Hshape by (by apply weakened_shape in Hwk).
  pose proof (same_shape_length _ _ Hshape) as Hlen.
  destruct fe as [error|]; cbn; [done|]. do 4 (split; [done|]).
  destruct (Hfe eq_refl) as [_ Hall]. intros q [l Hl]%list_elem_of_lookup.
  destruct (Hall l) as (q' & Hq' & Ha); [|congruence]. apply elem_of_seq.
  apply lookup_lt_Some in Hl. lia.
Qed.

Lemma inactivate_after_error_ends {A} error s w hist : set_ok s w hist →
  ends (inactivate_after_error (A := A) error) (s, w) (λ s' w' r, set_ok s' w' hist ∧ no_doorbells s' ∧ advances w w' ∧
    same_shape s s' ∧
    ((r = Err error ∧ all_down s') ∨ ∃ teardown, r = Err (OperationAndTeardown error teardown))).
Proof.
  intros Hok. pose proof (inactivate_all_ends s w hist Hok) as H. unfold ends, inactivate_after_error in *.
  destruct (inactivate_all (s, w)) as [[[s1 w1] [u|e|]]|]; [..|done].
  - destruct H as (? & ? & ? & ? & ?). naive_solver.
  - destruct H as (? & ? & ? & ? & _). naive_solver.
  - by destruct H as (_ & _ & _ & _ & ?).
Qed.

(** ** Preparing and ringing *)

Lemma looks_faults s : looks check_faults s (λ _ _, True).
Proof.
  unfold check_faults. assert (∀ lanes w, (∀ l, l ∈ lanes → l < length (qs_queues s.1)) →
    looks (for_each_q check_fault lanes) (s.1, w) (λ _ _, True)) as H.
  { induction lanes as [|l lanes IH]; intros w Hin; cbn [for_each_q]; [by apply looks_ret|].
    destruct (lookup_lt_is_Some_2 (qs_queues s.1) l (Hin l ltac:(left))) as [q Hq].
    eapply looks_bind; [by eapply looks_fault|]. intros w' _ _ _. apply IH. intros l' Hl'. apply Hin. by right. }
  specialize (H (seq 0 (length (qs_queues s.1))) s.2). destruct s as [s w]. apply H. by intros l [_ Hl]%elem_of_seq.
Qed.

(** The histories after the first [k] lanes. *)
Definition merged (k : nat) (hist batches : list (list PacketImage)) : list (list PacketImage) :=
  imap (λ i h, if bool_decide (i < k) then h ++ default [] (batches !! i) else h) hist.

Lemma merged_0 hist batches : merged 0 hist batches = hist.
Proof. apply list_eq. intros i. unfold merged. rewrite list_lookup_imap. by destruct (hist !! i). Qed.

Lemma merged_S k hist batches h b : hist !! k = Some h → batches !! k = Some b →
  merged (S k) hist batches = <[k := h ++ b]> (merged k hist batches).
Proof.
  intros Hh Hb. apply list_eq. intros i. destruct (decide (i = k)) as [->|Hne].
  - rewrite list_lookup_insert_eq.
    + unfold merged. rewrite list_lookup_imap, Hh, Hb. cbn. by rewrite bool_decide_eq_true_2 by lia.
    + unfold merged. rewrite length_imap. by eapply lookup_lt_Some.
  - rewrite list_lookup_insert_ne by done. unfold merged. rewrite !list_lookup_imap. destruct (hist !! i); [|done].
    cbn. f_equal. destruct (decide (i < k)); [by rewrite !bool_decide_eq_true_2 by lia|by rewrite !bool_decide_eq_false_2 by lia].
Qed.

(** The doorbell prepared for a lane. *)
Definition bell (batches : list (list PacketImage)) (w : W) (lane : nat) : option Z :=
  match batches !! lane with
  | Some (_ :: _) => Some (last_packet lane w)
  | _ => None
  end.

Section prepare.
Context (fuel : nat) (batches hist : list (list PacketImage)) (s0 : QueueSet) (w0 : W).
Context (Himg : ∀ b, b ∈ batches → Forall image_ok b).
Context (Hfit : ∀ lane q b, qs_queues s0 !! lane = Some q → batches !! lane = Some b → (Z.of_nat (length b) ≤ aq_size q)%Z).
Context (Hlen : length batches = length (qs_queues s0)).

Record loop_inv (k : nat) (s : QueueSet) (w : W) : Prop := {
  lp_ok : set_ok s w (merged k hist batches);
  lp_len : length (qs_queues s) = length (qs_queues s0);
  lp_size lane q : qs_queues s !! lane = Some q → ∃ q0, qs_queues s0 !! lane = Some q0 ∧ aq_size q = aq_size q0;
  lp_bells lane : lane < length (qs_queues s0) →
    prepared_doorbells s !! lane = Some (if bool_decide (lane < k) then bell batches w lane else None);
  lp_written lane q0 q : qs_queues s0 !! lane = Some q0 → qs_queues s !! lane = Some q →
    if bool_decide (lane < k) then ∀ b, batches !! lane = Some b →
      try_fold apply_store (aq_ring q0) (batch_stores (aq_size q0) (write_of lane w0) b) = Ok (aq_ring q)
    else aq_ring q = aq_ring q0 ∧ write_of lane w = write_of lane w0;
  lp_world l : doorbell_of l w = doorbell_of l w0 }.

(** A failed preparation: some lanes were published, no doorbell is left or was
    written, and every queue is inactive unless the teardown failed as well. *)
Definition failed_at (s : QueueSet) (w : W) (e : RuntimeError) : Prop := ∃ k, k ≤ length batches ∧
  set_ok s w (merged k hist batches) ∧ no_doorbells s ∧ (∀ l, doorbell_of l w = doorbell_of l w0) ∧
  same_shape s0 s ∧ (all_down s ∨ ∃ cause teardown, e = OperationAndTeardown cause teardown).

Lemma loop_shape k s w : loop_inv k s w → same_shape s0 s.
Proof using Type.
  intros [_ L Hs _ _ _]. apply list_eq_same_length with (length (qs_queues s0)); rewrite ?length_fmap; [done|done|].
  intros i x y _ Hx Hy. rewrite list_lookup_fmap_Some in Hx, Hy. destruct Hx as (q' & -> & Hq'), Hy as (q & -> & Hq).
  destruct (Hs i q' Hq') as (q0 & Hq0 & ->). congruence.
Qed.

Lemma fail_ends {A} k s w error : k ≤ length batches → set_ok s w (merged k hist batches) →
  same_shape s0 s → (∀ l, doorbell_of l w = doorbell_of l w0) →
  ends (inactivate_after_error (A := A) error) (s, w)
    (λ s' w' r, match r with Ok _ => False | Err e => failed_at s' w' e | Panic => False end).
Proof.
  intros Hk Hok Hl Hw. eapply ends_mono; [by apply inactivate_after_error_ends|]. cbn.
  intros s' w' r (Hok' & Hno & Hadv & Hl' & Hr).
  assert (∀ l, doorbell_of l w' = doorbell_of l w0) as Hw' by (intros l; destruct (Hadv l) as (_ & _ & ->); apply Hw).
  destruct Hr as [[-> Hdown]|[teardown ->]]; exists k; (split; [done|]); (split; [done|]); (split; [done|]);
    (split; [done|]); (split; [by unfold same_shape in *; congruence|]); [by left|right; eauto].
Qed.

Lemma prepare_lane_ends k s w b h : loop_inv k s w → batches !! k = Some b → hist !! k = Some h →
  ends (prepare_lane fuel (k, b)) (s, w)
    (λ s' w' r, match r with Ok _ => loop_inv (S k) s' w' | Err e => failed_at s' w' e | Panic => False end).
Proof using Himg Hfit Hlen HsaLaws0.
  intros Hinv Hb Hh. pose proof Hinv as [Hok Hl Hsize Hbells Hwritten Hw].
  assert (k < length (qs_queues s)) as Hk by (apply lookup_lt_Some in Hb; lia).
  destruct (lookup_lt_is_Some_2 _ _ Hk) as [q Hq]. destruct (Hsize k q Hq) as (q0 & Hq0 & Hqs).
  assert (merged k hist batches !! k = Some h) as Hmk.
  { unfold merged. rewrite list_lookup_imap, Hh. cbn. by rewrite bool_decide_eq_false_2 by lia. }
  pose proof (prepare_ends fuel k b s w _ q h Hok Hq Hmk) as Hp. unfold prepare_lane, on_error, ends in *.
  unfold mbind, QM_bind. destruct (prepare_batch fuel k b (s, w)) as [[[s1 w1] r]|] eqn:He; [|done].
  destruct Hp as (Hpd & Hdb & Hwr & Hr).
  { apply Himg. by eapply list_elem_of_lookup_2. }
  { rewrite Hqs. by eapply Hfit. }
  destruct r as [d|e|]; [| |done].
  - destruct Hr as (-> & Hok1 & ring & Hring & Hqs1). unfold put_doorbell, store. cbn [fst snd].
    assert (k < length (prepared_doorbells s1)) as Hkd.
    { rewrite Hpd, (so_doorbells _ _ _ Hok). done. }
    rewrite bool_decide_eq_true_2 by done. cbn.
    rewrite <- (merged_S k hist batches h b Hh Hb) in Hok1.
    split; cbn.
    + destruct Hok1. split; [by cbn; rewrite length_insert|done|done].
    + rewrite Hqs1, length_insert. done.
    + intros lane q' Hq'. rewrite Hqs1 in Hq'. destruct (decide (lane = k)) as [->|Hne].
      * rewrite list_lookup_insert_eq in Hq' by done. injection Hq' as <-. cbn. eauto.
      * rewrite list_lookup_insert_ne in Hq' by done. by apply Hsize.
    + intros lane Hlane. destruct (decide (lane = k)) as [->|Hne].
      * rewrite list_lookup_insert_eq by done. rewrite (bool_decide_eq_true_2 (k < S k)) by lia.
        unfold bell. rewrite Hb. by destruct b.
      * rewrite list_lookup_insert_ne by done. rewrite Hpd, Hbells by done. f_equal.
        destruct (decide (lane < k)); [rewrite !bool_decide_eq_true_2 by lia|by rewrite !bool_decide_eq_false_2 by lia].
        unfold bell, last_packet. by rewrite Hwr.
    + intros lane p0 q' Hp0 Hq'. rewrite Hqs1 in Hq'. destruct (decide (lane = k)) as [->|Hne].
      * rewrite list_lookup_insert_eq in Hq' by done. injection Hq' as <-. rewrite bool_decide_eq_true_2 by lia. intros b' Hb'.
        rewrite Hb in Hb'. injection Hb' as <-. specialize (Hwritten k p0 q Hp0 Hq). rewrite bool_decide_eq_false_2 in Hwritten by lia.
        destruct Hwritten as [E1 E2]. rewrite Hq0 in Hp0. injection Hp0 as <-. cbn [aq_ring]. by rewrite <- batch_stores_run, <- E1, <- E2, <- Hqs.
      * rewrite list_lookup_insert_ne in Hq' by done. specialize (Hwritten lane p0 q' Hp0 Hq'). rewrite Hwr by done.
        destruct (decide (lane < k)); [rewrite !bool_decide_eq_true_2 in * by lia|rewrite !bool_decide_eq_false_2 in * by lia]; done.
    + intros l. by rewrite Hdb.
  - destruct Hr as [-> Hok1]. cbn.
    assert (set_ok (mkQueueSet (qs_queues s) ((λ _, None) <$> prepared_doorbells s)) w1 (merged k hist batches)) as Hok2.
    { destruct Hok1. split; [by cbn; rewrite length_fmap|done|done]. }
    pose proof (fail_ends (A := unit) k _ w1 e ltac:(lia) Hok2 (loop_shape _ _ _ Hinv)) as Hf. unfold ends in Hf.
    destruct (inactivate_after_error e _) as [[[s2 w2] [u|e2|]]|]; [destruct Hf|apply Hf|destruct Hf|done];
      intros l; by rewrite Hdb.
Qed.

Lemma prepare_loop rest : ∀ k s w, drop k batches = rest → loop_inv k s w → k ≤ length batches →
  length hist = length batches →
  ends (for_each_q (prepare_lane fuel) (imap (λ i b, (k + i, b)) rest)) (s, w)
    (λ s' w' r, match r with Ok _ => loop_inv (length batches) s' w' | Err e => failed_at s' w' e | Panic => False end).
Proof using Himg Hfit Hlen HsaLaws0.
  induction rest as [|b rest IH]; intros k s w Hdrop Hinv Hk Hhist.
  - cbn. assert (k = length batches) as -> by (apply (f_equal length) in Hdrop; rewrite length_drop in Hdrop; cbn in Hdrop; lia).
    done.
  - rewrite imap_cons. cbn [for_each_q].
    assert (batches !! k = Some b) as Hb by (rewrite <- (Nat.add_0_r k), <- lookup_drop, Hdrop; done).
    destruct (lookup_lt_is_Some_2 hist k) as [h Hh]; [apply lookup_lt_Some in Hb; lia|].
    rewrite Nat.add_0_r. eapply ends_bind; [by apply (prepare_lane_ends k s w b h)| |done|done]. cbn.
    intros s' w' _ Hinv'. rewrite (imap_ext _ (λ i b, (S k + i, b))) by (intros; cbn; f_equal; lia).
    apply IH; [|done|apply lookup_lt_Some in Hb; lia|done].
    replace (S k) with (k + 1) by lia. by rewrite <- drop_drop, Hdrop.
Qed.
End prepare.

Lemma prepare_batches_ends fuel batches s w hist : set_ok s w hist → no_doorbells s →
  (∀ b, b ∈ batches → Forall image_ok b) → length batches = length (qs_queues s) →
  (∀ lane q b, qs_queues s !! lane = Some q → batches !! lane = Some b → (Z.of_nat (length b) ≤ aq_size q)%Z) →
  ends (prepare_batches fuel batches) (s, w) (λ s' w' r,
    match r with
    | Ok _ => loop_inv batches hist s w (length batches) s' w'
    | Err e => failed_at batches hist s w s' w' e
    | Panic => False
    end).
Proof.
  intros Hok Hno Himg Hlen Hfit. unfold prepare_batches, ends. cbn [fst snd].
  unfold mbind, QM_bind, qlift, assert. rewrite bool_decide_eq_true_2 by done.
  assert (forallb (λ d, negb (bool_decide (is_Some d))) (prepared_doorbells s) = true) as ->.
  { apply forallb_forall. intros d Hd. rewrite (Hno d) by (by apply list_elem_of_In). by rewrite bool_decide_eq_false_2 by (by intros []). }
  unfold on_error. pose proof (looks_faults (s, w)) as Hf. unfold looks in Hf. cbn [fst snd] in Hf.
  destruct (check_faults (s, w)) as [[[s1 w1] [u|e|]]|]; [..|done].
  - destruct Hf as (-> & Hadv & _).
    assert (loop_inv batches hist s w 0 s w1) as Hinv.
    { split; [rewrite merged_0; by eapply set_ok_advance|done|eauto| | |].
      - intros lane Hlane. rewrite bool_decide_eq_false_2 by lia. rewrite <- (so_doorbells _ _ _ Hok) in Hlane.
        destruct (lookup_lt_is_Some_2 _ _ Hlane) as [d Hd]. rewrite Hd. f_equal. apply Hno. by eapply list_elem_of_lookup_2.
      - intros lane q0 q Hq0 Hq. rewrite bool_decide_eq_false_2 by lia. split; [congruence|apply (Hadv lane)].
      - intros l. by destruct (Hadv l) as (_ & _ & ?). }
    pose proof (prepare_loop fuel batches hist s w Himg Hfit Hlen batches 0 s w1) as H. unfold ends in H.
    rewrite (imap_ext _ pair) in H by done. apply H; [done|done|lia|]. by rewrite (so_hist _ _ _ Hok).
  - destruct Hf as (-> & Hadv & _).
    pose proof (fail_ends (A := unit) batches hist s w 0 s w1 e ltac:(lia)) as Hfail. unfold ends in Hfail.
    destruct (inactivate_after_error e (s, w1)) as [[[s2 w2] [u|e2|]]|]; [..|done].
    1, 3: (exfalso; apply Hfail; [rewrite merged_0; by eapply set_ok_advance|done|]; intros l; by destruct (Hadv l) as (_ & _ & ?)).
    apply Hfail; [rewrite merged_0; by eapply set_ok_advance|done|]. intros l. by destruct (Hadv l) as (_ & _ & ?).
  - by destruct Hf as (_ & _ & ?).
Qed.

(** What ringing does to a world: the taken doorbells are written. *)
Definition rung (bells : nat → option Z) (w w' : W) : Prop := ∀ l, write_of l w' = write_of l w ∧
  retires (write_of l w) (read_of l w) (read_of l w') ∧ doorbell_of l w' = default (doorbell_of l w) (bells l).

Lemma ring_lanes_ends lanes : ∀ s (w : W), NoDup lanes →
  ends (for_each_q ring_lane lanes) (s, w) (λ s' w' r, r = Ok tt ∧ qs_queues s' = qs_queues s ∧
    length (prepared_doorbells s') = length (prepared_doorbells s) ∧
    (∀ l d, prepared_doorbells s' !! l = Some d → if bool_decide (l ∈ lanes) then d = None else prepared_doorbells s !! l = Some d) ∧
    rung (λ l, if bool_decide (l ∈ lanes) then mjoin (prepared_doorbells s !! l) else None) w w').
Proof.
  induction lanes as [|lane lanes IH]; intros s w Hnd; cbn [for_each_q].
  - cbn. split; [done|]. split; [done|]. split; [done|]. split; [done|].
    intros l. split; [done|]. split; [apply retires_refl, law_u64|done].
  - apply NoDup_cons in Hnd as [Hnot Hnd].
    assert (∃ s1 w1, ring_lane lane (s, w) = Some ((s1, w1), Ok tt) ∧ qs_queues s1 = qs_queues s ∧
      length (prepared_doorbells s1) = length (prepared_doorbells s) ∧
      (∀ l, prepared_doorbells s1 !! l = if bool_decide (l = lane) then (λ _, None) <$> prepared_doorbells s !! l
        else prepared_doorbells s !! l) ∧
      rung (λ l, if bool_decide (l = lane) then mjoin (prepared_doorbells s !! l) else None) w w1) as (s1 & w1 & H1 & Hq1 & Hl1 & Hd1 & Hr1).
    { unfold ring_lane. cbn [fst snd]. destruct (prepared_doorbells s !! lane) as [[v|]|] eqn:Hd.
      - eexists _, _. split; [reflexivity|]. split; [done|]. cbn. split; [by rewrite length_insert|]. split.
        + intros l. case_bool_decide as Hl; [subst l|by rewrite list_lookup_insert_ne].
          rewrite list_lookup_insert_eq by (by eapply lookup_lt_Some). by rewrite Hd.
        + intros l. destruct (law_doorbell lane v w l) as (E1 & E2 & E3). split; [done|]. split; [done|].
          rewrite E3. case_bool_decide as Hl; [subst l|done]. by rewrite Hd.
      - exists s, w. split; [done|]. split; [done|]. split; [done|]. split.
        + intros l. case_bool_decide as Hl; [subst l|done]. by rewrite Hd.
        + intros l. split; [done|]. split; [apply retires_refl, law_u64|]. case_bool_decide as Hl; [subst l|done]. by rewrite Hd.
      - exists s, w. split; [done|]. split; [done|]. split; [done|]. split.
        + intros l. case_bool_decide as Hl; [subst l|done]. by rewrite Hd.
        + intros l. split; [done|]. split; [apply retires_refl, law_u64|]. case_bool_decide as Hl; [subst l|done]. by rewrite Hd. }
    unfold ends, mbind, QM_bind. rewrite H1. specialize (IH s1 w1 Hnd). unfold ends in IH.
    destruct (for_each_q ring_lane lanes (s1, w1)) as [[[s2 w2] r]|]; [|done].
    destruct IH as (-> & Hq2 & Hl2 & Hd2 & Hr2). split; [done|]. split; [congruence|]. split; [congruence|]. split.
    + intros l d Hl. specialize (Hd2 l d Hl). destruct (decide (l = lane)) as [->|Hne].
      * rewrite (bool_decide_eq_true_2 (lane ∈ lane :: lanes)) by left. rewrite bool_decide_eq_false_2 in Hd2 by done.
        rewrite Hd1, bool_decide_eq_true_2 in Hd2 by done. destruct (prepared_doorbells s !! lane); cbn in Hd2; congruence.
      * rewrite Hd1, (bool_decide_eq_false_2 (l = lane)) in Hd2 by done.
        rewrite (bool_decide_ext (l ∈ lane :: lanes) (l ∈ lanes)) by (rewrite elem_of_cons; naive_solver). done.
    + intros l. destruct (Hr1 l) as (E1 & E2 & E3), (Hr2 l) as (F1 & F2 & F3). rewrite E1 in F1, F2.
      split; [done|]. split; [by eapply retires_trans|]. rewrite F3, E3, Hd1. destruct (decide (l = lane)) as [->|Hne].
      * rewrite (bool_decide_eq_false_2 (lane ∈ lanes)), (bool_decide_eq_true_2 (lane ∈ lane :: lanes)),
          (bool_decide_eq_true_2 (lane = lane)) by (done || left). done.
      * rewrite (bool_decide_eq_false_2 (l = lane)) by done.
        rewrite (bool_decide_ext (l ∈ lane :: lanes) (l ∈ lanes)) by (rewrite elem_of_cons; naive_solver).
        by case_bool_decide.
Qed.

Lemma set_ok_rung bells s s' (w w' : W) hist : set_ok s w hist → qs_queues s' = qs_queues s →
  length (prepared_doorbells s') = length (prepared_doorbells s) → rung bells w w' → set_ok s' w' hist.
Proof.
  intros [Hd Hh Hr] Hq Hl Ha. split; [congruence|congruence|]. intros lane q h Hq' Hlane. rewrite Hq in Hq'.
  destruct (Ha lane) as (-> & Hret & _). eapply ring_retire; [by eapply Hr|done].
Qed.

Lemma ring_prepared_ends s w hist : set_ok s w hist →
  ends ring_prepared (s, w) (λ s' w' r, set_ok s' w' hist ∧ no_doorbells s' ∧ same_shape s s' ∧
    match r with
    | Ok _ => qs_queues s' = qs_queues s ∧ ∃ w1, advances w w1 ∧ rung (λ l, mjoin (prepared_doorbells s !! l)) w1 w'
    | Err e => advances w w' ∧ (all_down s' ∨ ∃ cause teardown, e = OperationAndTeardown cause teardown)
    | Panic => False
    end).
Proof.
  intros Hok. unfold ring_prepared, ends. cbn [fst snd]. unfold mbind, QM_bind, on_error.
  pose proof (looks_faults (s, w)) as Hf. unfold looks in Hf. cbn [fst snd] in Hf.
  destruct (check_faults (s, w)) as [[[s1 w1] [u|e|]]|]; [..|done].
  - destruct Hf as (-> & Hadv & _).
    pose proof (ring_lanes_ends (seq 0 (length (qs_queues s))) s w1 (NoDup_seq _ _)) as H. unfold ends in H.
    destruct (for_each_q ring_lane _ (s, w1)) as [[[s2 w2] r]|]; [|done].
    destruct H as (-> & Hq & Hl & Hd & Hr).
    assert (∀ l, l < length (prepared_doorbells s) → l ∈ seq 0 (length (qs_queues s))) as Hin.
    { intros l Hlt. apply elem_of_seq. rewrite (so_doorbells _ _ _ Hok) in Hlt. lia. }
    split; [eapply set_ok_rung; [by eapply set_ok_advance|done..]|]. split; [|split; [by unfold same_shape; rewrite Hq|]].
    + intros d [l Hl']%list_elem_of_lookup. specialize (Hd l d Hl').
      rewrite bool_decide_eq_true_2 in Hd by (apply Hin; rewrite <- Hl; by eapply lookup_lt_Some). done.
    + split; [done|]. exists w1. split; [done|]. intros l. destruct (Hr l) as (E1 & E2 & E3). split; [done|]. split; [done|].
      rewrite E3. case_bool_decide as Hlt; [done|].
      destruct (prepared_doorbells s !! l) eqn:Hp; [|done]. exfalso. apply Hlt, Hin. by eapply lookup_lt_Some.
  - destruct Hf as (-> & Hadv & _). unfold set_doorbells. cbn [fst snd].
    set (s0 := mkQueueSet (qs_queues s) ((λ _, None) <$> prepared_doorbells s)).
    assert (set_ok s0 w1 hist) as Hok0.
    { pose proof (set_ok_advance _ _ _ _ Hok Hadv) as []. split; [by cbn; rewrite length_fmap|done|done]. }
    pose proof (inactivate_after_error_ends (A := unit) e s0 w1 hist Hok0) as H. unfold ends in H.
    destruct (inactivate_after_error e (s0, w1)) as [[[s2 w2] r]|]; [|done].
    destruct H as (H1 & H2 & H3 & H4 & H5). assert (advances w w2) as H6 by (by etransitivity).
    destruct H5 as [[-> Hdown]|[t ->]]; (split; [done|]); (split; [done|]); (split; [done|]); split; eauto.
  - by destruct Hf as (_ & _ & ?).
Qed.

Lemma merged_all hist batches : length hist = length batches → merged (length batches) hist batches = zip_with (++) hist batches.
Proof.
  intros Hl. apply list_eq. intros i. unfold merged. rewrite list_lookup_imap, lookup_zip_with.
  destruct (hist !! i) as [h|] eqn:Hh; [|done]. cbn. apply lookup_lt_Some in Hh as Hlt.
  rewrite bool_decide_eq_true_2 by lia. destruct (lookup_lt_is_Some_2 batches i) as [b Hb]; [lia|]. by rewrite Hb.
Qed.

(** ** Termination *)

(** A finite timeout elapses after some number of rounds. *)
Definition finite_timeout (N : nat) : Prop := ∀ n (w : W), N ≤ n → (elapsed n w).1 = true.

Definition returns {A} (m : QM (W := W) A) : Prop := ∀ s, m s ≠ None.

Lemma returns_bind {A B} (m : QM A) (f : A → QM B) : returns m → (∀ a, returns (f a)) → returns (m ≫= f).
Proof.
  intros Hm Hf s. unfold mbind, QM_bind. specialize (Hm s). destruct (m s) as [[s' [a|e|]]|]; [apply Hf|done..].
Qed.

Lemma returns_on_error {A} (m : QM A) f : returns m → (∀ e, returns (f e)) → returns (on_error m f).
Proof.
  intros Hm Hf s. unfold on_error. specialize (Hm s). destruct (m s) as [[s' [a|e|]]|]; [done|apply Hf|done..].
Qed.

Lemma returns_world {A} (f : W → A * W) : returns (world f).
Proof. intros s. unfold world. by destruct (f s.2). Qed.

Lemma returns_for_each {A} (f : A → QM unit) l : (∀ x, returns (f x)) → returns (for_each_q f l).
Proof. intros Hf. induction l as [|x l IH]; cbn [for_each_q]; [done|]. by apply returns_bind. Qed.

Lemma returns_fault lane : returns (check_fault lane).
Proof.
  unfold check_fault. apply returns_bind; [done|]. intros q. apply returns_bind; [apply returns_world|].
  intros e. by destruct (QueueFault_status e).
Qed.

Lemma returns_faults : returns check_faults.
Proof. intros s. unfold check_faults. apply returns_for_each, returns_fault. Qed.

Lemma returns_inactivate lane : returns (inactivate lane).
Proof.
  unfold inactivate. apply returns_bind; [done|]. intros q. destruct (aq_active q); [|done].
  apply returns_bind; [apply returns_world|]. intros st. by apply returns_bind.
Qed.

Lemma returns_inactivate_all : returns inactivate_all.
Proof.
  intros s. unfold inactivate_all. revert s. intros s.
  assert (∀ lanes fe, returns (inactivate_lanes lanes fe)) as H.
  { induction lanes as [|l lanes IH]; intros fe; cbn [inactivate_lanes]; [done|]. intros s1.
    pose proof (returns_inactivate l s1). destruct (inactivate l s1) as [[s2 [u|e|]]|]; [apply IH|apply IH|done..]. }
  apply returns_bind; [done|]. intros _. apply returns_bind; [apply H|]. by intros [e|].
Qed.

Lemma returns_after_error {A} e : returns (inactivate_after_error (A := A) e).
Proof.
  intros s. unfold inactivate_after_error. pose proof (returns_inactivate_all s).
  by destruct (inactivate_all s) as [[s2 [u|e2|]]|].
Qed.

Lemma returns_rounds {A} N (loop : nat → nat → QM A) (body : nat → QM A → QM A) : finite_timeout N →
  (∀ fuel round, loop (S fuel) round = body round (loop fuel (S round))) →
  (∀ round next, (N ≤ round ∨ returns next) → returns (body round next)) →
  ∀ fuel round, 0 < fuel → N < round + fuel → returns (loop fuel round).
Proof.
  intros HN Hloop Hbody. induction fuel as [|fuel IH]; intros round Hp Hf; [lia|]. rewrite Hloop. apply Hbody.
  destruct (decide (N ≤ round)); [by left|]. right. apply IH; lia.
Qed.

(** Waiting for capacity and for a signal ends within the timeout. *)
Lemma capacity_returns N lane count : finite_timeout N → returns (wait_for_capacity (S N) lane count).
Proof.
  intros HN. unfold wait_for_capacity.
  apply (returns_rounds N (λ fuel round, capacity_rounds fuel round lane count)
    (λ round next, check_fault lane ;; q ← queue_at lane; write ← world (load_write_index lane);
      read ← world (load_read_index lane);
      if (wrap64 (wrap64 (write + (Z.of_nat count - 1)) - read) <? aq_size q)%Z then mret tt else
      late ← world (elapsed round);
      if late : bool then qlift (Err (QueueCapacityTimeout (aq_id q) count)) else next)); [done|done| |lia|lia].
  intros round next Hnext. apply returns_bind; [apply returns_fault|]. intros _. apply returns_bind; [done|]. intros q.
  apply returns_bind; [apply returns_world|]. intros wr. apply returns_bind; [apply returns_world|]. intros rd.
  destruct (_ <? _)%Z; [done|]. intros s. unfold mbind, QM_bind, world. 
  destruct (elapsed round s.2) as [late w'] eqn:He. destruct late; [done|].
  destruct Hnext as [Hr|Hr]; [|apply Hr]. specialize (HN round s.2 Hr). by rewrite He in HN.
Qed.

Lemma signal_returns N signal : finite_timeout N → returns (wait_signal (S N) signal).
Proof.
  intros HN. unfold wait_signal.
  apply (returns_rounds N (λ fuel round, signal_rounds fuel round signal)
    (λ round next, check_faults ;; done ← signal_is_complete signal; if done : bool then mret tt else
      late ← world (elapsed round); if late : bool then qlift (Err (SignalTimeout signal)) else next)); [done|done| |lia|lia].
  intros round next Hnext. apply returns_bind; [apply returns_faults|]. intros _.
  apply returns_bind; [by apply returns_bind; [apply returns_world|]|]. intros [|]; [done|].
  intros s. unfold mbind, QM_bind, world. destruct (elapsed round s.2) as [late w'] eqn:He. destruct late; [done|].
  destruct Hnext as [Hr|Hr]; [|apply Hr]. specialize (HN round s.2 Hr). by rewrite He in HN.
Qed.

Lemma prepare_returns N batches : finite_timeout N → returns (prepare_batches (S N) batches).
Proof.
  intros HN s. unfold prepare_batches. apply returns_bind; [done|]. intros _. apply returns_bind; [done|]. intros _.
  apply returns_bind; [apply returns_on_error; [apply returns_faults|intros; apply returns_after_error]|]. intros _.
  apply returns_for_each. intros [lane b]. unfold prepare_lane. apply returns_on_error.
  - apply returns_bind.
    + unfold prepare_batch. apply returns_bind; [done|]. intros q. apply returns_bind; [done|]. intros _.
      apply returns_bind; [by apply returns_bind|]. intros _. apply returns_bind; [apply returns_fault|]. intros _.
      case_bool_decide; [done|]. apply returns_bind; [by apply capacity_returns|]. intros _. apply returns_bind; [|done].
      unfold publish_batch. apply returns_bind; [done|]. intros q'. apply returns_bind; [apply returns_world|]. intros first.
      apply returns_bind; [done|]. intros ring. by apply returns_bind.
    + intros d s'. unfold put_doorbell. by destruct (store _ _ _).
  - intros e. apply returns_bind; [done|]. intros _. apply returns_after_error.
Qed.

Lemma ring_returns : returns ring_prepared.
Proof.
  intros s. unfold ring_prepared. apply returns_bind.
  - apply returns_on_error; [apply returns_faults|]. intros e. apply returns_bind; [done|]. intros _. apply returns_after_error.
  - intros _. apply returns_for_each. intros lane s'. unfold ring_lane. by destruct (prepared_doorbells s'.1 !! lane) as [[]|].
Qed.
End laws.

(** A publication on every queue of a set: fill the rings, then ring. *)
Definition publish_all {W} `{!HsaQueues W} (fuel : nat) (batches : list (list PacketImage)) : QM (W := W) unit :=
  prepare_batches fuel batches ;; ring_prepared.

(** C4: publishing a batch on every queue never panics, returns within the
    timeout, and refines appending to one first-in first-out queue per lane. On
    success the history of every lane is extended by its batch, each nonempty
    lane's doorbell holds its last packet number, and every packet the device has
    not retired is intact in its slot, also when the 64-bit indices wrap. The
    ring of a lane is the result of the batch's stores in program order, and
    after any number of them the slot of a packet has the header word it had
    before until the packet is complete: the header is stored last. On failure no
    doorbell was written and none is left pending, packets already in the rings
    are intact, and every queue is inactive unless the error says that the
    teardown failed too. *)
Theorem publication_refines {W} `{!HsaQueues W, !HsaIndices W, !HsaLaws W} N batches s (w : W) hist :
  finite_timeout (W := W) N → set_ok s w hist → no_doorbells s → (∀ b, b ∈ batches → Forall image_ok b) →
  length batches = length (qs_queues s) →
  (∀ lane q b, qs_queues s !! lane = Some q → batches !! lane = Some b → (Z.of_nat (length b) ≤ aq_size q)%Z) →
  match publish_all (S N) batches (s, w) with
  | None => False
  | Some ((s', w'), Ok _) => set_ok s' w' (zip_with (++) hist batches) ∧ no_doorbells s' ∧
      ∀ lane b, batches !! lane = Some b →
        doorbell_of lane w' = (if bool_decide (b = []) then doorbell_of lane w else last_packet lane w') ∧
        ∃ q q', qs_queues s !! lane = Some q ∧ qs_queues s' !! lane = Some q' ∧
          try_fold apply_store (aq_ring q) (batch_stores (aq_size q) (write_of lane w) b) = Ok (aq_ring q') ∧
          headers_last (aq_size q) (write_of lane w) (aq_ring q) b
  | Some ((s', w'), Err e) => (∃ k, k ≤ length batches ∧ set_ok s' w' (merged k hist batches)) ∧ no_doorbells s' ∧
      (∀ lane, doorbell_of lane w' = doorbell_of lane w) ∧
      (all_down s' ∨ ∃ cause teardown, e = OperationAndTeardown cause teardown)
  | Some (_, Panic) => False
  end.
Proof.
  intros HN Hok Hno Himg Hlen Hfit. unfold publish_all, mbind, QM_bind.
  pose proof (prepare_batches_ends (S N) batches s w hist Hok Hno Himg Hlen Hfit) as Hp. unfold ends in Hp.
  pose proof (prepare_returns N batches HN (s, w)) as Hret.
  destruct (prepare_batches (S N) batches (s, w)) as [[[s1 w1] [u|e|]]|]; [| |done|done].
  - destruct Hp as [Hok1 Hl1 _ Hbells Hwritten Hw1]. pose proof (ring_prepared_ends s1 w1 _ Hok1) as Hr. unfold ends in Hr.
    pose proof (ring_returns (s1, w1)) as Hret2. destruct (ring_prepared (s1, w1)) as [[[s2 w2] [u2|e|]]|]; [| | |done].
    + destruct Hr as (Hok2 & Hno2 & _ & Hq2 & w1' & Hadv & Hrung).
      rewrite merged_all in Hok2 by (rewrite (so_hist _ _ _ Hok); congruence).
      split; [done|]. split; [done|]. intros lane b Hb. destruct (Hrung lane) as (E1 & _ & E3). split.
      * destruct (Hadv lane) as (F1 & _ & F3). rewrite E3, Hbells by (apply lookup_lt_Some in Hb; lia).
        rewrite bool_decide_eq_true_2 by (by eapply lookup_lt_Some). cbn. unfold bell. rewrite Hb.
        destruct b; cbn; [by rewrite F3, Hw1|]. unfold last_packet. by rewrite E1, F1.
      * destruct (lookup_lt_is_Some_2 (qs_queues s) lane) as [q Hq]; [apply lookup_lt_Some in Hb; lia|].
        destruct (lookup_lt_is_Some_2 (qs_queues s1) lane) as [q' Hq']; [apply lookup_lt_Some in Hb; lia|].
        exists q, q'. split; [done|]. split; [congruence|]. specialize (Hwritten lane q q' Hq Hq').
        rewrite bool_decide_eq_true_2 in Hwritten by (by eapply lookup_lt_Some). split; [by apply Hwritten|].
        destruct (lookup_lt_is_Some_2 hist lane) as [h Hh]; [apply lookup_lt_Some in Hq; rewrite (so_hist _ _ _ Hok); lia|].
        eapply ring_headers_last; [by eapply (so_ring _ _ _ Hok)| |by eapply Hfit]. apply Himg. by eapply list_elem_of_lookup_2.
    + destruct Hr as (Hok2 & Hno2 & _ & Hadv & Hdown). split; [by exists (length batches)|]. split; [done|]. split; [|done].
      intros lane. destruct (Hadv lane) as (_ & _ & ->). apply Hw1.
    + by destruct Hr as (_ & _ & _ & ?).
  - destruct Hp as (k & Hk & Hok1 & Hno1 & Hw1 & _ & Hdown). eauto 10.
Qed.

(** A new queue set has empty rings. *)
Lemma QueueSet_create_ok {W} `{!HsaIndices W} gpu count size outcomes s (w : W) :
  QueueSet_create gpu count size outcomes = Ok s → (size ≤ 2 ^ 32)%Z → (∀ lane, write_of lane w = read_of lane w) →
  (∀ i b kd sz ft id memory, outcomes i = Created b kd sz ft id memory →
    Z.of_nat (length memory) = sz ∧ Forall (λ slot, length slot = AQL_PACKET_BYTES) memory) →
  set_ok s w (replicate count []) ∧ no_doorbells s ∧ length (qs_queues s) = count ∧
  ∀ q, q ∈ qs_queues s → aq_size q = size ∧ aq_active q = true.
Proof.
  unfold QueueSet_create. intros H Hsize Hw Hmem. apply bind_Ok in H as (u1 & _ & H).
  apply bind_Ok in H as (queues & Hq & H). apply bind_Ok in H as (u2 & _ & H). apply Ok_inj in H as <-.
  apply try_map_Ok in Hq. pose proof (Forall2_length _ _ _ Hq) as Hl. rewrite length_seq in Hl.
  assert (∀ q, q ∈ queues → aq_size q = size ∧ aq_active q = true ∧ (∃ k, (0 ≤ k ≤ 32)%Z ∧ aq_size q = (2 ^ k)%Z) ∧
    Z.of_nat (length (aq_ring q)) = aq_size q ∧ Forall (λ slot, length slot = AQL_PACKET_BYTES) (aq_ring q)) as Hall.
  { intros q [i Hi]%list_elem_of_lookup. destruct (Forall2_lookup_r _ _ _ _ _ Hq Hi) as (j & _ & Hc).
    unfold AqlQueue_create in Hc. apply bind_Ok in Hc as (u3 & _ & Hc). apply bind_Ok in Hc as (u4 & Hp & Hc).
    apply err_if_Ok in Hp. apply orb_false_iff in Hp as [[Hp _]%orb_false_iff _]. apply negb_false_iff in Hp.
    destruct (outcomes j) as [| |b kd sz ft id memory] eqn:Ho; [done|done|].
    apply bind_Ok in Hc as (u5 & Hd & Hc). apply Ok_inj in Hc as <-. apply err_if_Ok in Hd.
    apply orb_false_iff in Hd as [[_ Hd]%orb_false_iff _]. apply negb_false_iff, Z.eqb_eq in Hd. subst sz.
    unfold is_power_of_two in Hp. apply andb_true_iff in Hp as [H0 Hp]. apply Z.ltb_lt in H0. apply Z.eqb_eq in Hp.
    destruct (Hmem _ _ _ _ _ _ _ Ho) as [Hm1 Hm2]. cbn. split; [done|]. split; [done|]. split; [|done].
    exists (Z.log2 size). split; [|done]. split; [apply Z.log2_nonneg|]. apply (Z.pow_le_mono_r_iff 2); [lia|lia|]. lia. }
  assert (∀ lane, depth (write_of lane w) (read_of lane w) = 0%Z) as Hd0.
  { intros lane. rewrite Hw. unfold depth. by rewrite Z.sub_diag. }
  split; [|split; [|split; [done|]]].
  - split; cbn; rewrite ?length_replicate; [done|done|].
    intros lane q h Hqq Hh. apply lookup_replicate in Hh as [-> _].
    destruct (Hall q (list_elem_of_lookup_2 _ _ _ Hqq)) as (_ & _ & Hk & Hlen & Hs).
    split; [done..|rewrite Hd0; destruct Hk as (k & Hk & ->); lia|rewrite Hd0; cbn; lia|].
    intros j p Hj. rewrite Hd0 in Hj. lia.
  - intros d Hd. cbn in Hd. by apply elem_of_replicate_inv in Hd.
  - intros q Hq'. by destruct (Hall q Hq') as (? & ? & _).
Qed.

(** ** A concrete world

    Counters per lane; looking at a read index retires everything published on
    that lane; signals read as complete; the third round is past the timeout. *)
Record Counters := mkCounters { c_write : nat → Z; c_read : nat → Z; c_bell : nat → Z }.

Definition bump (f : nat → Z) (lane : nat) (v : Z) : nat → Z := λ l, if bool_decide (l = lane) then v else f l.

#[export] Instance Counters_hsa : HsaQueues Counters := {|
  load_write_index lane w := (wrap64 (c_write w lane), w);
  load_read_index lane w := let w' := mkCounters (c_write w) (bump (c_read w) lane (c_write w lane)) (c_bell w) in
    (wrap64 (c_read w' lane), w');
  add_write_index lane n w := (wrap64 (c_write w lane),
    mkCounters (bump (c_write w) lane (c_write w lane + n)%Z) (c_read w) (c_bell w));
  store_doorbell lane v w := mkCounters (c_write w) (c_read w) (bump (c_bell w) lane v);
  inactivate_queue lane w := (0%Z, w);
  load_fault lane w := (0%Z, w);
  load_signal s w := (0%Z, w);
  store_signal s v w := w;
  elapsed round w := (bool_decide (2 ≤ round), w) |}.

#[export] Instance Counters_indices : HsaIndices Counters := {|
  write_of lane w := wrap64 (c_write w lane);
  read_of lane w := wrap64 (c_read w lane);
  doorbell_of lane w := c_bell w lane |}.

Lemma wrap64_u64 z : is_u64 (wrap64 z).
Proof. unfold wrap64. pose proof (Z.mod_pos_bound z 18446744073709551616 ltac:(lia)). ulia. Qed.

Lemma wrap64_add a b : wrap64 (wrap64 a + b) = wrap64 (a + b).
Proof. apply Zplus_mod_idemp_l. Qed.

Lemma retires_all wr rd : is_u64 wr → retires wr rd wr.
Proof.
  intros Hw. exists (depth wr rd). pose proof (depth_bounds wr rd). split; [lia|]. unfold depth, wrap64.
  rewrite Zplus_mod_idemp_r. replace (rd + (wr - rd))%Z with wr by lia. symmetry. apply Z.mod_small. ulia.
Qed.

#[export] Instance Counters_laws : HsaLaws Counters.
Proof.
  assert (∀ l (w : Counters), retires (write_of l w) (read_of l w) (read_of l w)) as Hrefl
    by (intros; apply retires_refl, wrap64_u64).
  assert (∀ w : Counters, advances w w) as Hself by (intros w l; split; [done|]; split; [apply Hrefl|done]).
  split; intros; cbn.
  - split; apply wrap64_u64.
  - split; [done|apply Hself].
  - split; [done|]. intros l. cbn. split; [done|]. split; [|done]. unfold bump.
    case_bool_decide as H; [subst l; apply retires_all, wrap64_u64|apply (Hrefl l)].
  - split; [done|]. intros l. unfold bump. case_bool_decide as H; [subst l|];
      rewrite ?wrap64_add; (split; [done|]); (split; [apply Hrefl|done]).
  - split; [done|]. split; [apply (Hrefl l)|]. unfold bump. done.
  - apply Hself.
  - apply Hself.
  - apply Hself.
  - apply Hself.
  - apply Hself.
Qed.

(** Two queues of four slots whose write indices are one before the wrap. *)
Definition demo_ring : list (list Z) := replicate 4 (replicate 64 0%Z).
Definition demo_agent : AgentInfo :=
  mkAgentInfo 1 (mkDim3 1024 1024 1024) 1024 (mkDim3 U32_MAX U32_MAX U32_MAX) U32_MAX 4 1024 QUEUE_TYPE_MULTI.
Definition demo_creation (i : nat) : QueueCreation := Created false QUEUE_TYPE_MULTI 4 1 (Z.of_nat i) demo_ring.
Definition demo_queues : QueueSet :=
  match QueueSet_create demo_agent 2 4 demo_creation with Ok s => s | _ => mkQueueSet [] [] end.
Definition demo_counters : Counters := mkCounters (λ _, U64_MAX) (λ _, U64_MAX) (λ _, 0%Z).
Definition demo_image (b : Z) : PacketImage := mkPacketImage (replicate 64 b) (b + 256 * b + 65536 * b + 16777216 * b)%Z.
Definition demo_batches : list (list PacketImage) := [[demo_image 1; demo_image 2]; [demo_image 3]].

Lemma demo_queues_ok : set_ok demo_queues demo_counters (replicate 2 []) ∧ no_doorbells demo_queues ∧
  length (qs_queues demo_queues) = 2 ∧ ∀ q, q ∈ qs_queues demo_queues → aq_size q = 4%Z ∧ aq_active q = true.
Proof.
  apply (QueueSet_create_ok demo_agent 2 4 demo_creation); [reflexivity|lia|done|].
  intros i b kd sz ft id memory [= <- <- <- <- <- <-]. split; [reflexivity|]. by apply Forall_replicate.
Qed.

(** After publication the packets sit in slots 3, 0 and 3; the first lane's
    doorbell is its second packet, number 0 after the wrap. *)
Lemma publication_refines_witness : ∃ s' w', publish_all 3 demo_batches (demo_queues, demo_counters) = Some ((s', w'), Ok tt) ∧
  set_ok s' w' demo_batches ∧ doorbell_of 0 w' = 0%Z ∧ doorbell_of 1 w' = (-1)%Z ∧
  ((λ q, aq_ring q !! 0) <$> qs_queues s' !! 0) = Some (Some (image_bytes (demo_image 2))) ∧
  headers_last 4 U64_MAX demo_ring [demo_image 1; demo_image 2].
Proof.
  destruct demo_queues_ok as (Hok & Hno & Hlen & Hq).
  pose proof (publication_refines 2 demo_batches demo_queues demo_counters (replicate 2 [])) as H.
  assert (∃ s' w', publish_all 3 demo_batches (demo_queues, demo_counters) = Some ((s', w'), Ok tt) ∧
    doorbell_of 0 w' = 0%Z ∧ doorbell_of 1 w' = (-1)%Z ∧
    ((λ q, aq_ring q !! 0) <$> qs_queues s' !! 0) = Some (Some (image_bytes (demo_image 2)))) as (s' & w' & He & H0 & H1 & H2).
  { vm_compute. eexists _, _. split; [reflexivity|]. split; [reflexivity|]. split; reflexivity. }
  exists s', w'. split; [exact He|]. rewrite He in H. destruct H as (Hs & _ & Hall).
  - intros n w Hn. cbn. by apply bool_decide_eq_true_2.
  - exact Hok.
  - exact Hno.
  - assert (Forall (Forall image_ok) demo_batches) as Himg by (unfold demo_batches; repeat constructor).
    intros b Hb. exact (proj1 (Forall_forall _ _) Himg b Hb).
  - rewrite Hlen. reflexivity.
  - intros lane q b Hl Hb. destruct (Hq q (list_elem_of_lookup_2 _ _ _ Hl)) as [-> _].
    assert (Forall (λ b, length b ≤ 2) demo_batches) as Hall by (unfold demo_batches; repeat constructor).
    apply (Forall_lookup_1 _ _ _ _ Hall) in Hb. lia.
  - split; [exact Hs|]. split; [exact H0|]. split; [exact H1|]. split; [exact H2|].
    destruct (Hall 0 [demo_image 1; demo_image 2] eq_refl) as (_ & q & q' & Hq0 & _ & _ & Hlast).
    assert (qs_queues demo_queues !! 0 = Some (mkAqlQueue 0 4 demo_ring true)) as E by (vm_compute; reflexivity).
    rewrite E in Hq0. injection Hq0 as <-. exact Hlast.
Defined.
