(* ===== verification/AqlGraph.v ===== *)
(** Retained AQL graphs (src/crates/redline-dispatch/src/aql/replay.rs): recorded
    dispatches, the graph over any number of queues, the two-queue phase graphs
    with their packet policies, and the submission state machine.

    The code appends packets to one vector per queue. The model keeps one list of
    pushes, each with its queue, so that the vector of a queue is the sublist of
    its pushes ([lane_packets]). Packets are the records of Packet; their images
    are taken when they are published. How the runtime answers a request for a
    signal or a queue is a parameter. *)

From S2P Require Import Prelude Ir Packet Queue.

(** ** Errors *)

Inductive ReplayError : Type :=
| Runtime_error (e : RuntimeError)
| Packet_error (e : PacketError)
| EmptyGraph
| EmptyPhaseSet
| EmptyTokenBatch
| InvalidBatchShape
| BatchShapeOverflow
| EmptyPhaseLane (lane : nat)
| PhaseLaneMismatch (expected actual : nat)
| PhaseHasExplicitDependencies (lane : nat)
| AlreadyInFlight
| GraphInactive
| LaneOutOfRange (node lane queue_count : nat)
| DependencyNotEarlier (node dependency : nat)
| DuplicateDependency (node dependency : nat)
| BatchExceedsQueue (lane packets : nat) (capacity : Z)
| MixedGpuObjects
| KernargMetadataMismatch (kernel : string) (metadata_bytes : Z) (buffer_bytes : nat)
| PolicyShapeMismatch.

(** ** Recorded dispatches *)

Record Kernel := mkKernel { kernel_name : string; kernel_metadata : KernelMetadata; kernel_agent : Z }.
Record KernargBuffer := mkKernargBuffer { kernarg_address : Z; kernarg_agent : Z; kernarg_bytes : list Z }.

Record RecordedDispatch := mkRecordedDispatch {
  rd_lane : nat;
  rd_kernel : Kernel;
  rd_geometry : LaunchGeometry;
  rd_kernarg : KernargBuffer;
  dynamic_group_bytes : Z;
  rd_dependencies : list nat }.

(** [RecordedDispatch::new], [with_dynamic_group_bytes], [with_dependencies] *)
Definition RecordedDispatch_new (lane : nat) (kernel : Kernel) (geometry : LaunchGeometry) (kernarg : KernargBuffer)
    : result ReplayError RecordedDispatch :=
  let size := kernarg_segment_size (kernel_metadata kernel) in
  err_if (negb (Z.of_nat (length (kernarg_bytes kernarg)) =? size)%Z)
    (KernargMetadataMismatch (kernel_name kernel) size (length (kernarg_bytes kernarg))) ;;
  err_if (negb (kernarg_agent kernarg =? kernel_agent kernel)%Z) MixedGpuObjects ;;
  Ok (mkRecordedDispatch lane kernel geometry kernarg 0 []).

Definition with_dynamic_group_bytes (d : RecordedDispatch) (bytes : Z) : result ReplayError RecordedDispatch :=
  Ok (mkRecordedDispatch (rd_lane d) (rd_kernel d) (rd_geometry d) (rd_kernarg d) bytes (rd_dependencies d)).

Definition with_dependencies (d : RecordedDispatch) (dependencies : list nat) : RecordedDispatch :=
  mkRecordedDispatch (rd_lane d) (rd_kernel d) (rd_geometry d) (rd_kernarg d) (dynamic_group_bytes d)
    (rd_dependencies d ++ dependencies).

(** The checks every graph makes of a dispatch against its device. *)
Definition check_objects (gpu : AgentInfo) (d : RecordedDispatch) : result ReplayError unit :=
  err_if (negb (kernel_agent (rd_kernel d) =? gpu_agent gpu)%Z || negb (kernarg_agent (rd_kernarg d) =? gpu_agent gpu)%Z)
    MixedGpuObjects ;;
  map_err Runtime_error (validate_geometry gpu (rd_geometry d)).

(** The dependency loop of [validate_nodes]. *)
Fixpoint check_dependencies (node : nat) (unique : list nat) (dependencies : list nat) : result ReplayError unit :=
  match dependencies with
  | [] => Ok tt
  | dependency :: rest =>
      err_if (bool_decide (node ≤ dependency)) (DependencyNotEarlier node dependency) ;;
      err_if (bool_decide (dependency ∈ unique)) (DuplicateDependency node dependency) ;;
      check_dependencies node (bset_insert dependency unique) rest
  end.

(** [validate_nodes] *)
Definition validate_nodes (gpu : AgentInfo) (queue_count : nat) (nodes : list RecordedDispatch) : result ReplayError unit :=
  err_if (bool_decide (queue_count = 0)) (Runtime_error ZeroQueues) ;;
  for_each (λ '(i, node),
    err_if (bool_decide (queue_count ≤ rd_lane node)) (LaneOutOfRange i (rd_lane node) queue_count) ;;
    check_objects gpu node ;;
    check_dependencies i [] (rd_dependencies node)) (enumerate nodes).

(** ** Packets *)

Inductive Packet : Type :=
| KernelPacket (p : KernelDispatchPacket)
| BarrierPacket (p : BarrierAndPacket).

Definition packet_image (p : Packet) : PacketImage :=
  match p with KernelPacket p => PacketImage_kernel p | BarrierPacket p => PacketImage_barrier p end.

(** A push: the queue and the packet. *)
Definition push : Type := nat * Packet.

Definition lane_packets (lane : nat) (pushes : list push) : list Packet :=
  omap (λ x : push, if bool_decide (x.1 = lane) then Some x.2 else None) pushes.

Definition barrier (lane : nat) (dependencies : list Z) (completion : Z) (policy : HeaderPolicy) : result ReplayError push :=
  p ← map_err Packet_error (BarrierAndPacket_new_with_policy dependencies completion policy);
  Ok (lane, BarrierPacket p).

Definition kernel_push (lane : nat) (d : RecordedDispatch) (completion : Z) (policy : HeaderPolicy) : result ReplayError push :=
  p ← map_err Packet_error (KernelDispatchPacket_new_with_policy (kernel_metadata (rd_kernel d)) (rd_geometry d)
    (dynamic_group_bytes d) (kernarg_address (rd_kernarg d)) completion policy);
  Ok (lane, KernelPacket p).

(** [slice.chunks(n)] *)
Fixpoint chunks_fuel {A} (fuel n : nat) (l : list A) : list (list A) :=
  match fuel, l with
  | S fuel, _ :: _ => take n l :: chunks_fuel fuel n (drop n l)
  | _, _ => []
  end.
Definition chunks {A} (n : nat) (l : list A) : list (list A) := chunks_fuel (length l) n l.

(** The check that every batch fits its queue. *)
Definition check_capacity (queues : QueueSet) (pushes : list push) (lane : nat) : result ReplayError unit :=
  capacity ← expect (QueueSet_size queues lane);
  let packets := length (lane_packets lane pushes) in
  err_if (capacity <? Z.of_nat packets)%Z (BatchExceedsQueue lane packets capacity).

(** How [hsa_signal_create] ends. *)
Inductive SignalCreation := SignalFailed (status : Z) | SignalCreated (raw : Z).

(** [CompletionSignal::new] *)
Definition CompletionSignal_new (outcome : SignalCreation) : result RuntimeError Z :=
  match outcome with
  | SignalFailed status => Err (Hsa "hsa_signal_create" status)
  | SignalCreated raw =>
      err_if (raw =? 0)%Z (InvalidRuntimeObject "hsa_signal_create returned handle zero") ;;
      Ok raw
  end.

Section create.
Context (gpu : AgentInfo) (queue_outcomes : nat → QueueCreation) (signals : nat → SignalCreation).

(** The [k]-th signal the construction asks for. *)
Definition new_signal (k : nat) : result ReplayError Z := map_err Runtime_error (CompletionSignal_new (signals k)).

(** ** Graphs over any number of queues *)

Record RecordedGraph := mkRecordedGraph {
  rg_queues : QueueSet;
  rg_nodes : list RecordedDispatch;
  node_signals : list Z;
  rg_final_signal : Z;
  terminal_nodes : list nat;
  rg_pushes : list push }.

(** The loop that marks the nodes something depends on. *)
Definition mark_dependencies (depended_on : list bool) (node : RecordedDispatch) : result ReplayError (list bool) :=
  try_fold (λ marks dependency, store marks dependency true) depended_on (rd_dependencies node).

(** The packets of one node. *)
Definition node_pushes (signals : list Z) (entry : nat * RecordedDispatch) : result ReplayError (list push) :=
  let '(i, recorded) := entry in
  dependencies ← try_map (index signals) (rd_dependencies recorded);
  barriers ← try_map (λ chunk, barrier (rd_lane recorded) chunk 0 CROSS_QUEUE_BARRIER)
    (chunks BARRIER_DEPENDENCY_CAPACITY dependencies);
  completion ← index signals i;
  kernel ← kernel_push (rd_lane recorded) recorded completion RECORDED_DISPATCH;
  Ok (barriers ++ [kernel]).

(** [RecordedGraph::create] *)
Definition RecordedGraph_create (queue_count : nat) (queue_size : Z) (nodes : list RecordedDispatch)
    : result ReplayError RecordedGraph :=
  err_if (bool_decide (nodes = [])) EmptyGraph ;;
  validate_nodes gpu queue_count nodes ;;
  queues ← map_err Runtime_error (QueueSet_create gpu queue_count queue_size queue_outcomes);
  node_signals ← try_map new_signal (seq 0 (length nodes));
  final_signal ← new_signal (length nodes);
  depended_on ← try_fold mark_dependencies (replicate (length nodes) false) nodes;
  let terminal_nodes := omap (λ '(i, used), if used : bool then None else Some i) (enumerate depended_on) in
  batches ← try_map (node_pushes node_signals) (enumerate nodes);
  terminal_signals ← try_map (index node_signals) terminal_nodes;
  terminal ← try_map (λ chunk, barrier 0 chunk 0 CROSS_QUEUE_BARRIER) (chunks BARRIER_DEPENDENCY_CAPACITY terminal_signals);
  completion ← barrier 0 [] final_signal CROSS_QUEUE_BARRIER;
  let pushes := concat batches ++ terminal ++ [completion] in
  for_each (check_capacity queues pushes) (seq 0 queue_count) ;;
  Ok (mkRecordedGraph queues nodes node_signals final_signal terminal_nodes pushes).

(** ** Two-queue phases *)

Record TwoQueuePhase := mkTwoQueuePhase { lane_zero : list RecordedDispatch; lane_one : list RecordedDispatch }.

(** [phase.lanes.iter().enumerate()] *)
Definition phase_lanes (phase : TwoQueuePhase) : list (nat * list RecordedDispatch) :=
  [(0, lane_zero phase); (1, lane_one phase)].

(** [TwoQueuePhase::new] *)
Definition TwoQueuePhase_new (zero one : list RecordedDispatch) : result ReplayError TwoQueuePhase :=
  let phase := mkTwoQueuePhase zero one in
  for_each (λ '(lane, dispatches),
    err_if (bool_decide (dispatches = [])) (EmptyPhaseLane lane) ;;
    for_each (λ d,
      err_if (negb (bool_decide (rd_lane d = lane))) (PhaseLaneMismatch lane (rd_lane d)) ;;
      err_if (negb (bool_decide (rd_dependencies d = []))) (PhaseHasExplicitDependencies lane)) dispatches)
    (phase_lanes phase) ;;
  Ok phase.

(** [validate_two_queue_phases] *)
Definition validate_two_queue_phases (phases : list TwoQueuePhase) : result ReplayError unit :=
  for_each (λ phase, for_each (λ '(_, dispatches), for_each (check_objects gpu) dispatches) (phase_lanes phase)) phases.

(** The lane counts of the phases. *)
Definition lane_counts (phase : TwoQueuePhase) : Z * Z :=
  (Z.of_nat (length (lane_zero phase)), Z.of_nat (length (lane_one phase))).

(** [two_queue_batch_counts] *)
Definition two_queue_batch_counts (phases : list (Z * Z)) : Z * Z :=
  if bool_decide (phases = []) then (0, 0)%Z else
  let boundary_barriers := (Z.of_nat (length phases) - 1)%Z in
  foldl (λ packets phase, (packets.1 + phase.1, packets.2 + phase.2)%Z) (boundary_barriers + 1, boundary_barriers)%Z phases.

(** The count of one lane in [two_queue_serialized_batch_counts]. *)
Definition lane_batch_count (sizes : list Z) (token_count phase_barriers extra : Z) : result ReplayError Z :=
  dispatches_per_token ← try_fold (λ sum n, ok_or BatchShapeOverflow (checked_add U64_MAX sum n)) 0%Z sizes;
  ok_or BatchShapeOverflow
    (checked_mul U64_MAX dispatches_per_token token_count ≫= λ count,
     checked_add U64_MAX count phase_barriers ≫= λ count,
     checked_add U64_MAX count (token_count - 1) ≫= λ count,
     checked_add U64_MAX count extra).

(** [two_queue_serialized_batch_counts] *)
Definition two_queue_serialized_batch_counts (phases : list (Z * Z)) (token_count : Z) : result ReplayError (Z * Z) :=
  err_if (token_count =? 0)%Z EmptyTokenBatch ;;
  err_if (bool_decide (phases = [])) EmptyPhaseSet ;;
  phase_barriers ← ok_or BatchShapeOverflow (checked_mul U64_MAX (Z.of_nat (length phases) - 1) token_count);
  zero ← lane_batch_count phases.*1 token_count phase_barriers 1;
  one ← lane_batch_count phases.*2 token_count phase_barriers 0;
  Ok (zero, one).

(** [two_queue_serialized_signal_count] *)
Definition two_queue_serialized_signal_count (phase_count token_count : Z) : result ReplayError Z :=
  err_if (token_count =? 0)%Z EmptyTokenBatch ;;
  ok_or BatchShapeOverflow
    (checked_mul U64_MAX phase_count token_count ≫= λ count,
     checked_mul U64_MAX count 2 ≫= λ count, checked_add U64_MAX count 1).

(** [TwoQueueSerializedBatchGraph::required_packet_counts] *)
Definition required_packet_counts (phases : list TwoQueuePhase) (token_count : nat) : result ReplayError (Z * Z) :=
  err_if (bool_decide (phases = [])) EmptyPhaseSet ;;
  two_queue_serialized_batch_counts (lane_counts <$> phases) (Z.of_nat token_count).

(** The tail signals of every token and phase, created in this order. *)
Definition tail_signals (base token_count phase_count : nat) : result ReplayError (list (list (Z * Z))) :=
  try_map (λ t, try_map (λ p,
    zero ← new_signal (base + (t * phase_count + p) * 2);
    one ← new_signal (base + (t * phase_count + p) * 2 + 1);
    Ok (zero, one)) (seq 0 phase_count)) (seq 0 token_count).

(** The dependency barrier on both queues. *)
Definition dependency_pushes (policy : HeaderPolicy) (previous : Z * Z) : result ReplayError (list push) :=
  try_map (λ lane, barrier lane [previous.1; previous.2] 0 policy) [0; 1].

(** What comes before a phase: the barrier on the previous phase of the token,
    or, before the first phase of a later token, on the last phase of the
    previous token. *)
Definition boundary_pushes (policy : HeaderPolicy) (tails : list (list (Z * Z))) (token_index phase_index : nat)
    : result ReplayError (list push) :=
  if bool_decide (phase_index = 0) then
    if bool_decide (token_index = 0) then Ok [] else
    token ← index tails (token_index - 1);
    previous ← expect (last token);
    dependency_pushes policy previous
  else
    token ← index tails token_index;
    previous ← index token (phase_index - 1);
    dependency_pushes policy previous.

(** [if lane == 0 { pair[0] } else { pair[1] }] for a two-element array *)
Definition at_lane {A} (pair : A * A) (lane : nat) : A := match lane with O => pair.1 | _ => pair.2 end.

(** ** The serialized batch: kernels in stream order, the tail of each lane
    completes the phase *)

Definition tail_completion (tail : Z) (count dispatch_index : nat) : Z :=
  if bool_decide (S dispatch_index = count) then tail else 0%Z.

Definition serial_phase (tails : list (list (Z * Z))) (token_index : nat) (entry : nat * TwoQueuePhase)
    : result ReplayError (list push) :=
  let '(phase_index, phase) := entry in
  boundary ← boundary_pushes TWO_QUEUE_DEPENDENCY tails token_index phase_index;
  token ← index tails token_index;
  tail ← index token phase_index;
  kernels ← try_map (λ '(lane, dispatches),
    try_map (λ '(dispatch_index, d),
      kernel_push lane d (tail_completion (at_lane tail lane) (length dispatches) dispatch_index) TWO_QUEUE_DISPATCH)
      (enumerate dispatches)) (phase_lanes phase);
  Ok (boundary ++ concat kernels).

Record SerializedBatch := mkSerializedBatch {
  sb_queues : QueueSet;
  sb_phases : list TwoQueuePhase;
  sb_tails : list (list (Z * Z));
  sb_final_signal : Z;
  sb_pushes : list push;
  sb_token_count : nat;
  sb_profiling : list Z }.

(** The two queue vectors have the predicted lengths ([debug_assert_eq!]). *)
Definition assert_counts (pushes : list push) (counts : Z * Z) : result ReplayError unit :=
  assert (bool_decide ((Z.of_nat (length (lane_packets 0 pushes)), Z.of_nat (length (lane_packets 1 pushes))) = counts)).

Definition assert_signals (tails : list (list (Z * Z))) (count : Z) : result ReplayError unit :=
  assert (Z.of_nat (sum_list ((λ token, (length token * 2)%nat) <$> tails)) + 1 =? count)%Z.

(** [TwoQueueSerializedBatchGraph::create] *)
Definition Serialized_create (queue_size : Z) (token_count : nat) (phases : list TwoQueuePhase)
    : result ReplayError SerializedBatch :=
  err_if (bool_decide (phases = [])) EmptyPhaseSet ;;
  validate_two_queue_phases phases ;;
  packet_counts ← required_packet_counts phases token_count;
  signal_count ← two_queue_serialized_signal_count (Z.of_nat (length phases)) (Z.of_nat token_count);
  queues ← map_err Runtime_error (QueueSet_create gpu 2 queue_size queue_outcomes);
  tails ← tail_signals 0 token_count (length phases);
  assert_signals tails signal_count ;;
  final_signal ← new_signal (token_count * length phases * 2);
  blocks ← try_map (λ token_index, try_map (serial_phase tails token_index) (enumerate phases)) (seq 0 token_count);
  final_token ← expect (last tails);
  final_phase ← expect (last final_token);
  completion ← barrier 0 [final_phase.1; final_phase.2] final_signal TWO_QUEUE_HOST_TERMINAL;
  let pushes := concat (concat blocks) ++ [completion] in
  assert_counts pushes packet_counts ;;
  for_each (check_capacity queues pushes) [0; 1] ;;
  Ok (mkSerializedBatch queues phases tails final_signal pushes token_count []).

(** ** The derived batch: header policies from the visibility plan, and a
    consolidation barrier at the end of each lane of a phase *)

Record TwoQueueDerivedPolicies := mkDerivedPolicies {
  first_dispatches : list (list HeaderPolicy * list HeaderPolicy);
  repeated_dispatches : list (list HeaderPolicy * list HeaderPolicy);
  consolidation_policy : HeaderPolicy;
  dependency_policy : HeaderPolicy;
  terminal_policy : HeaderPolicy;
  profile_all_dispatches : bool }.

(** [validate_derived_policy_shape] *)
Definition validate_derived_policy_shape (phases : list TwoQueuePhase) (policies : TwoQueueDerivedPolicies)
    : result ReplayError unit :=
  for_each (λ dispatches,
    err_if (negb (bool_decide (length dispatches = length phases))) PolicyShapeMismatch ;;
    for_each (λ '(phase, phase_policies), for_each (λ '(lane, ds),
        err_if (negb (bool_decide (length (at_lane phase_policies lane) = length ds))) PolicyShapeMismatch)
      (phase_lanes phase)) (zip phases dispatches))
    [first_dispatches policies; repeated_dispatches policies].

(** [policies.repeated_dispatches.last().is_some_and(..)]: both lanes of the last
    phase end with a barrier. *)
Definition ends_with_barrier (policies : list HeaderPolicy) : bool :=
  match last policies with Some policy => policy_barrier policy | None => false end.
Definition covers_batch (policies : TwoQueueDerivedPolicies) : bool :=
  match last (repeated_dispatches policies) with
  | Some last_phase => ends_with_barrier last_phase.1 && ends_with_barrier last_phase.2
  | None => false
  end.

(** The number of profiling signals. *)
Definition profiling_count (policies : TwoQueueDerivedPolicies) (phases : list TwoQueuePhase) (token_count : nat)
    : result ReplayError Z :=
  if profile_all_dispatches policies then
    ok_or BatchShapeOverflow (checked_mul U64_MAX
      (foldr (λ phase sum, (lane_counts phase).1 + (lane_counts phase).2 + sum)%Z 0%Z phases) (Z.of_nat token_count))
  else if covers_batch policies then Ok 4%Z else Ok 0%Z.

Section derived.
Context (policies : TwoQueueDerivedPolicies) (profiling : list Z) (phase_count token_count : nat).

(** One dispatch; the counter numbers the dispatches when all are profiled. *)
Definition derived_dispatch (token_index phase_index lane count : nat) (headers : list HeaderPolicy)
    (state : list push * nat) (entry : nat * RecordedDispatch) : result ReplayError (list push * nat) :=
  let '(dispatch_index, d) := entry in
  let '(pushes, full_profile_index) := state in
  let is_first := bool_decide (token_index = 0 ∧ phase_index = 0 ∧ dispatch_index = 0) in
  let is_last := bool_decide (S token_index = token_count ∧ S phase_index = phase_count ∧ S dispatch_index = count) in
  err_if (is_first && is_last) InvalidBatchShape ;;
  completion ← (if profile_all_dispatches policies then index profiling full_profile_index
                else if covers_batch policies && is_first then index profiling lane
                else if covers_batch policies && is_last then index profiling (2 + lane)
                else Ok 0%Z);
  header ← index headers dispatch_index;
  kernel ← kernel_push lane d completion header;
  Ok (pushes ++ [kernel], if profile_all_dispatches policies then S full_profile_index else full_profile_index).

(** One lane of a phase. *)
Definition derived_lane (token_index phase_index : nat) (tail : Z * Z) (headers : list HeaderPolicy * list HeaderPolicy)
    (state : list push * nat) (entry : nat * list RecordedDispatch) : result ReplayError (list push * nat) :=
  let '(lane, dispatches) := entry in
  state ← try_fold (derived_dispatch token_index phase_index lane (length dispatches) (at_lane headers lane)) state
    (enumerate dispatches);
  consolidation ← barrier lane [] (at_lane tail lane) (consolidation_policy policies);
  Ok (state.1 ++ [consolidation], state.2).

(** One phase of a token. *)
Definition derived_phase (tails : list (list (Z * Z))) (token_index : nat) (state : list push * nat)
    (entry : nat * TwoQueuePhase) : result ReplayError (list push * nat) :=
  let '(phase_index, phase) := entry in
  boundary ← boundary_pushes (dependency_policy policies) tails token_index phase_index;
  token ← index tails token_index;
  tail ← index token phase_index;
  headers ← index (if bool_decide (token_index = 0) then first_dispatches policies else repeated_dispatches policies) phase_index;
  try_fold (derived_lane token_index phase_index tail headers) (state.1 ++ boundary, state.2) (phase_lanes phase).
End derived.

(** [TwoQueueSerializedBatchGraph::create_derived]; [enable] and [frequency] are
    how enabling the profiler and asking for the timestamp frequency end. *)
Definition create_derived (queue_size : Z) (token_count : nat) (phases : list TwoQueuePhase)
    (policies : TwoQueueDerivedPolicies) (enable : result RuntimeError unit) (frequency : result RuntimeError Z)
    : result ReplayError SerializedBatch :=
  err_if (bool_decide (phases = [])) EmptyPhaseSet ;;
  err_if (bool_decide (token_count = 0)) EmptyTokenBatch ;;
  validate_two_queue_phases phases ;;
  validate_derived_policy_shape phases policies ;;
  base ← required_packet_counts phases token_count;
  extra ← ok_or BatchShapeOverflow (checked_mul U64_MAX (Z.of_nat (length phases)) (Z.of_nat token_count));
  zero ← ok_or BatchShapeOverflow (checked_add U64_MAX base.1 extra);
  one ← ok_or BatchShapeOverflow (checked_add U64_MAX base.2 extra);
  signal_count ← two_queue_serialized_signal_count (Z.of_nat (length phases)) (Z.of_nat token_count);
  queues ← map_err Runtime_error (QueueSet_create gpu 2 queue_size queue_outcomes);
  let profiled := profile_all_dispatches policies || covers_batch policies in
  (if profiled then map_err Runtime_error enable else Ok tt) ;;
  count ← profiling_count policies phases token_count;
  profiling ← try_map new_signal (seq 0 (Z.to_nat count));
  (if profiled then _ ← map_err Runtime_error frequency; Ok tt else Ok tt) ;;
  tails ← tail_signals (Z.to_nat count) token_count (length phases);
  assert_signals tails signal_count ;;
  final_signal ← new_signal (Z.to_nat count + token_count * length phases * 2);
  built ← try_fold (λ state token_index,
      try_fold (derived_phase policies profiling (length phases) token_count tails token_index) state (enumerate phases))
    ([], 0) (seq 0 token_count);
  final_token ← expect (last tails);
  final_phase ← expect (last final_token);
  (if profile_all_dispatches policies then assert (bool_decide (built.2 = length profiling)) else Ok tt) ;;
  completion ← barrier 0 [final_phase.1; final_phase.2] final_signal (terminal_policy policies);
  let pushes := built.1 ++ [completion] in
  assert_counts pushes (zero, one) ;;
  for_each (check_capacity queues pushes) [0; 1] ;;
  Ok (mkSerializedBatch queues phases tails final_signal pushes token_count profiling).
End create.

(** ** Submission

    [RecordedGraph] and [TwoQueueSerializedBatchGraph] have the same state
    machine; they differ in the signals they reset. *)

Inductive QuiescenceTransition := Completed | Cancelled | Failed.

Record GraphState := mkGraphState {
  gs_queues : QueueSet;
  gs_signals : list Z;
  gs_final : Z;
  gs_batches : list (list PacketImage);
  in_flight : bool;
  usable : bool }.

Definition set_flags (g : GraphState) (flight use : bool) : GraphState :=
  mkGraphState (gs_queues g) (gs_signals g) (gs_final g) (gs_batches g) flight use.

(** [apply_quiescence_transition] *)
Definition apply_quiescence_transition (g : GraphState) (transition : QuiescenceTransition) : GraphState :=
  match transition with
  | Completed => set_flags g false (usable g)
  | Cancelled => set_flags g false false
  | Failed => set_flags g true false
  end.

(** The graph a construction returns, over the queues it created. *)
Definition batches_of (queue_count : nat) (pushes : list push) : list (list PacketImage) :=
  (λ lane, packet_image <$> lane_packets lane pushes) <$> seq 0 queue_count.

Definition recorded_state (g : RecordedGraph) : GraphState :=
  mkGraphState (rg_queues g) (node_signals g) (rg_final_signal g)
    (batches_of (length (qs_queues (rg_queues g))) (rg_pushes g)) false true.

Definition serialized_state (g : SerializedBatch) : GraphState :=
  mkGraphState (sb_queues g) (concat ((λ token, token ≫= λ tail, [tail.1; tail.2]) <$> sb_tails g) ++ sb_profiling g)
    (sb_final_signal g)
    (batches_of (length (qs_queues (sb_queues g))) (sb_pushes g)) false true.

Section submission.
Context {W : Type} `{!HsaQueues W}.

Definition GM (A : Type) : Type := GraphState * W → option ((GraphState * W) * result ReplayError A).

(** Run an operation of the queue set of a graph. *)
Definition on_queues {A} (m : QM (W := W) A) (k : GraphState * W → result RuntimeError A → option ((GraphState * W) * result ReplayError unit))
    : GM unit := λ gw,
  match m (gs_queues gw.1, gw.2) with
  | None => None
  | Some ((queues, w), r) =>
      k (mkGraphState queues (gs_signals gw.1) (gs_final gw.1) (gs_batches gw.1) (in_flight gw.1) (usable gw.1), w) r
  end.

(** [submit] *)
Definition Graph_submit (fuel : nat) : GM unit := λ gw,
  if in_flight gw.1 then Some (gw, Err AlreadyInFlight) else
  if negb (usable gw.1) then Some (gw, Err GraphInactive) else
  on_queues (for_each_q signal_reset (gs_signals gw.1) ;; signal_reset (gs_final gw.1) ;; prepare_batches fuel (gs_batches gw.1))
    (λ gw r, match r with
      | Err e => Some ((set_flags gw.1 (in_flight gw.1) false, gw.2), Err (Runtime_error e))
      | Panic => Some (gw, Panic)
      | Ok _ =>
          on_queues ring_prepared (λ gw r, match r with
            | Err e => Some ((set_flags gw.1 false false, gw.2), Err (Runtime_error e))
            | Panic => Some (gw, Panic)
            | Ok _ => Some (gw, Ok tt)
            end) (set_flags gw.1 true (usable gw.1), gw.2)
      end) gw.

(** [wait_internal] *)
Definition Graph_wait (fuel : nat) : GM unit := λ gw,
  if negb (in_flight gw.1) then Some (gw, Ok tt) else
  on_queues (wait_signal fuel (gs_final gw.1)) (λ gw r, match r with
    | Ok _ => Some ((apply_quiescence_transition gw.1 Completed, gw.2), Ok tt)
    | Panic => Some (gw, Panic)
    | Err wait_error =>
        on_queues inactivate_all (λ gw r, match r with
          | Ok _ => Some ((apply_quiescence_transition gw.1 Cancelled, gw.2), Err (Runtime_error wait_error))
          | Err teardown => Some ((apply_quiescence_transition gw.1 Failed, gw.2),
              Err (Runtime_error (OperationAndTeardown wait_error teardown)))
          | Panic => Some (gw, Panic)
          end) gw
    end) gw.

(** [cancel_internal]; dropping a ticket or a graph calls it and ignores the
    answer. *)
Definition Graph_cancel : GM unit := λ gw,
  if negb (in_flight gw.1) then Some (gw, Ok tt) else
  on_queues inactivate_all (λ gw r, match r with
    | Ok _ => Some ((apply_quiescence_transition gw.1 Cancelled, gw.2), Ok tt)
    | Err e => Some ((apply_quiescence_transition gw.1 Failed, gw.2), Err (Runtime_error e))
    | Panic => Some (gw, Panic)
    end) gw.
End submission.

(** ** The life of a graph *)

(** A graph whose queues agree with what was published on them and whose batches
    fit them. *)
Record graph_ok {W} `{!HsaIndices W} (g : GraphState) (w : W) : Prop := {
  go_set : ∃ hist, set_ok (gs_queues g) w hist;
  go_bells : no_doorbells (gs_queues g);
  go_images b : b ∈ gs_batches g → Forall image_ok b;
  go_count : length (gs_batches g) = length (qs_queues (gs_queues g));
  go_fit lane q b : qs_queues (gs_queues g) !! lane = Some q → gs_batches g !! lane = Some b →
    (Z.of_nat (length b) ≤ aq_size q)%Z }.

Section life.
Context {W : Type} `{!HsaQueues W, !HsaIndices W, !HsaLaws W}.
Implicit Types (g : GraphState) (w : W).

Definition with_queues g (s : QueueSet) : GraphState :=
  mkGraphState s (gs_signals g) (gs_final g) (gs_batches g) (in_flight g) (usable g).

Lemma graph_ok_queues g s w' hist : (∃ w, graph_ok g w) → same_shape (gs_queues g) s → set_ok s w' hist → no_doorbells s →
  graph_ok (with_queues g s) w'.
Proof.
  intros [w [_ _ Himg Hc Hfit]] Hsh Hok Hno. split; cbn; [eauto|done|done| |].
  - rewrite Hc. symmetry. by apply same_shape_length.
  - intros lane q b Hq Hb. assert ((aq_size <$> qs_queues s) !! lane = Some (aq_size q)) as Hs by (by rewrite list_lookup_fmap, Hq).
    unfold same_shape in Hsh. rewrite Hsh, list_lookup_fmap_Some in Hs. destruct Hs as (q0 & -> & Hq0). by eapply Hfit.
Qed.

Lemma graph_ok_flags g w f u : graph_ok g w → graph_ok (set_flags g f u) w.
Proof. by intros []. Qed.

Lemma looks_resets signals s : looks (for_each_q signal_reset signals) s (λ (_ : W) _, True).
Proof.
  revert s. induction signals as [|x l IH]; intros s; cbn [for_each_q]; [by apply looks_ret|].
  eapply (looks_bind _ _ _ (λ _ _, True)); [by apply looks_world; [apply law_store_signal|]|]. intros w' _ _ _. apply IH.
Qed.

Lemma resets_Ok signals : ∀ s : QueueSet * W, ∃ w, for_each_q signal_reset signals s = Some ((s.1, w), Ok tt).
Proof.
  induction signals as [|x l IH]; intros [q w]; cbn [for_each_q]; [by exists w|].
  unfold mbind, QM_bind, signal_reset, world. cbn [fst snd]. apply (IH (q, _)).
Qed.

Lemma returns_resets signals : returns (W := W) (for_each_q signal_reset signals).
Proof. apply returns_for_each. intros x. apply returns_world. Qed.

(** What [submit] leaves behind. *)
Definition submit_outcome g w (g' : GraphState) (w' : W) (r : result ReplayError unit) : Prop :=
  match r with
  | Ok _ => in_flight g = false ∧ usable g = true ∧ in_flight g' = true ∧ usable g' = true ∧
      (∃ hist, set_ok (gs_queues g') w' (zip_with (++) hist (gs_batches g))) ∧
      ∀ lane b, gs_batches g !! lane = Some b → b ≠ [] → doorbell_of lane w' = last_packet lane w'
  | Err e => (in_flight g = true ∧ e = AlreadyInFlight ∧ g' = g ∧ w' = w) ∨
      (in_flight g = false ∧ usable g = false ∧ e = GraphInactive ∧ g' = g ∧ w' = w) ∨
      (in_flight g = false ∧ usable g = true ∧ in_flight g' = false ∧ usable g' = false ∧
        (∀ lane, doorbell_of lane w' = doorbell_of lane w) ∧
        (all_down (gs_queues g') ∨ ∃ cause teardown, e = Runtime_error (OperationAndTeardown cause teardown)))
  | Panic => False
  end.

Lemma submit_life N g w : finite_timeout (W := W) N → graph_ok g w →
  match Graph_submit (S N) (g, w) with
  | None => False
  | Some ((g', w'), r) => graph_ok g' w' ∧ submit_outcome g w g' w' r
  end.
Proof.
  intros HN Hok. unfold Graph_submit. cbn [fst snd]. destruct (in_flight g) eqn:Hf; [split; [done|left; done]|].
  destruct (usable g) eqn:Hu; cbn [negb]; [|split; [done|]; right; left; done].
  pose proof Hok as [[hist Hset] Hno Himg Hc Hfit]. unfold on_queues. cbn [fst snd].
  pose proof (looks_resets (gs_signals g) (gs_queues g, w)) as H1. unfold looks in H1.
  pose proof (returns_resets (gs_signals g) (gs_queues g, w)) as R1.
  unfold mbind at 1, QM_bind at 1. destruct (for_each_q signal_reset (gs_signals g) (gs_queues g, w)) as [[[s1 w1] [u1|e1|]]|] eqn:Hres; [..|done].
  3: by destruct H1 as (_ & _ & ?).
  2: by destruct (resets_Ok (gs_signals g) (gs_queues g, w)) as [w0 E]; rewrite E in Hres.
  destruct H1 as (-> & A1 & _). cbn [fst snd] in *. unfold mbind at 1, QM_bind at 1. unfold signal_reset, world. cbn [fst snd].
  set (w2 := store_signal (gs_final g) 1 w1). assert (advances w w2) as A2 by (etransitivity; [exact A1|apply law_store_signal]).
  clearbody w2. assert (∀ l, doorbell_of l w2 = doorbell_of l w) as D2 by (intros l; by destruct (A2 l) as (_ & _ & ?)).
  pose proof (prepare_batches_ends (S N) (gs_batches g) (gs_queues g) w2 hist (set_ok_advance _ _ _ _ Hset A2) Hno Himg Hc Hfit) as H2.
  pose proof (prepare_returns N (gs_batches g) HN (gs_queues g, w2)) as R2. unfold ends in H2.
  destruct (prepare_batches (S N) (gs_batches g) (gs_queues g, w2)) as [[[s3 w3] [u3|e3|]]|]; [| |done|done].
  - pose proof (loop_shape _ _ _ _ _ _ _ H2) as Hsh. destruct H2 as [Hok3 Hl3 _ Hbells _ Hw3]. cbn [fst snd].
    pose proof (ring_prepared_ends s3 w3 _ Hok3) as H4. pose proof (ring_returns (s3, w3)) as R4. unfold ends in H4.
    cbn [gs_queues set_flags]. destruct (ring_prepared (s3, w3)) as [[[s4 w4] [u4|e4|]]|]; [| | |done].
    + destruct H4 as (Hok4 & Hno4 & Hsh4 & _ & w3' & Hadv & Hrung). cbn. split.
      * apply (graph_ok_flags (with_queues g s4) w4 true (usable g)).
        apply (graph_ok_queues g s4 w4 (merged (length (gs_batches g)) hist (gs_batches g))); [eauto| |done|done]. unfold same_shape in *. congruence.
      * split; [done|]. split; [done|]. split; [done|]. split; [done|]. split.
        { exists hist. by rewrite merged_all in Hok4 by (rewrite (so_hist _ _ _ Hset); congruence). }
        intros lane b Hb Hne. destruct (Hrung lane) as (E1 & _ & E3), (Hadv lane) as (F1 & _ & _).
        rewrite E3, Hbells by (apply lookup_lt_Some in Hb; lia). rewrite bool_decide_eq_true_2 by (by eapply lookup_lt_Some).
        unfold bell. rewrite Hb. destruct b; [done|]. cbn. unfold last_packet. by rewrite E1, F1.
    + destruct H4 as (Hok4 & Hno4 & Hsh4 & Hadv & Hdown). cbn. split.
      * apply (graph_ok_flags (with_queues g s4) w4 false false).
        apply (graph_ok_queues g s4 w4 (merged (length (gs_batches g)) hist (gs_batches g))); [eauto| |done|done]. unfold same_shape in *. congruence.
      * right. right. split; [done|]. split; [done|]. split; [done|]. split; [done|]. split; [|naive_solver]. intros l.
        destruct (Hadv l) as (_ & _ & ->). by rewrite Hw3.
    + by destruct H4 as (_ & _ & _ & ?).
  - destruct H2 as (k & Hk & Hok3 & Hno3 & Hw3 & Hsh & Hdown). cbn. split.
    + apply (graph_ok_flags (with_queues g s3) w3 _ false). by apply (graph_ok_queues g s3 w3 _ (ex_intro _ w Hok) Hsh Hok3).
    + right. right. split; [done|]. split; [done|]. split; [done|]. split; [done|]. split; [|naive_solver]. intros l. by rewrite Hw3.
Qed.

(** Waiting for a signal only looks, and succeeds on a completed signal. *)
Lemma looks_signal fuel signal : ∀ round s, looks (signal_rounds fuel round signal) s
  (λ w _, ∃ w0, advances s.2 w0 ∧ (load_signal signal w0).1 < 1 ∧ w = (load_signal signal w0).2)%Z.
Proof.
  induction fuel as [|fuel IH]; intros round s; [done|]. cbn [signal_rounds].
  eapply looks_bind; [apply looks_faults|]. intros w1 _ A1 _.
  eapply (looks_bind _ _ _ (λ w done, w = (load_signal signal w1).2 ∧ done = ((load_signal signal w1).1 <? 1)%Z)).
  { unfold signal_is_complete. eapply (looks_bind _ _ _ (λ w v, w = (load_signal signal w1).2 ∧ v = (load_signal signal w1).1)).
    - by apply looks_world; [apply law_load_signal|].
    - intros w v _ [-> ->]. by apply looks_ret. }
  intros w2 d A2 [-> ->]. cbn [fst snd] in *. destruct ((load_signal signal w1).1 <? 1)%Z eqn:Hd.
  - apply looks_ret. apply Z.ltb_lt in Hd. eauto.
  - eapply (looks_bind _ _ _ (λ _ _, True)); [by apply looks_world; [apply law_elapsed|]|]. intros w3 late A3 _.
    destruct late; [by apply looks_lift|]. cbn [fst snd] in *.
    pose proof (IH (S round) (s.1, w3)) as H. unfold looks in *. cbn [fst snd] in *.
    destruct (signal_rounds fuel (S round) signal (s.1, w3)) as [[[s4 w4] [a|e|]]|]; [|done..].
    destruct H as (-> & A4 & w0 & A0 & Hw0). split; [done|]. split; [done|]. exists w0. split; [|done].
    etransitivity; [exact A1|]. etransitivity; [exact A2|]. by etransitivity.
Qed.

(** What stopping leaves behind: an error with the flight flag cleared means
    that every queue is inactive. *)
Definition stop_outcome g w (g' : GraphState) (w' : W) (r : result ReplayError unit) : Prop :=
  match r with
  | Ok _ => in_flight g' = false ∧ (∀ lane, doorbell_of lane w' = doorbell_of lane w)
  | Err e => in_flight g = true ∧ usable g' = false ∧ (in_flight g' = false → all_down (gs_queues g'))
  | Panic => False
  end.

Lemma teardown_life g w : graph_ok g w →
  match inactivate_all (gs_queues g, w) with
  | None => False
  | Some ((s', w'), r) => graph_ok (with_queues g s') w' ∧ advances w w' ∧
      match r with Ok _ => all_down s' | Err _ => True | Panic => False end
  end.
Proof.
  intros Hok. pose proof (go_set _ _ Hok) as [hist Hset]. pose proof (inactivate_all_ends _ w hist Hset) as H. unfold ends in H.
  pose proof (returns_inactivate_all (gs_queues g, w)) as R. destruct (inactivate_all (gs_queues g, w)) as [[[s' w'] r]|]; [|done].
  destruct H as (Hok' & Hno & Hadv & Hsh & Hr). split; [|done]. by apply (graph_ok_queues g s' w' hist (ex_intro _ w Hok)).
Qed.

Lemma wait_life N g w : finite_timeout (W := W) N → graph_ok g w →
  match Graph_wait (S N) (g, w) with
  | None => False
  | Some ((g', w'), r) => graph_ok g' w' ∧ stop_outcome g w g' w' r ∧
      (r = Ok tt → usable g' = usable g ∧ (in_flight g = false ∨
        ∃ w0, advances w w0 ∧ (load_signal (gs_final g) w0).1 < 1 ∧ w' = (load_signal (gs_final g) w0).2)%Z)
  end.
Proof.
  intros HN Hok. unfold Graph_wait. cbn [fst snd]. destruct (in_flight g) eqn:Hf; cbn [negb].
  2:{ split; [done|]. split; [by split|]. auto. }
  unfold on_queues. cbn [fst snd]. pose proof (looks_signal (S N) (gs_final g) 0 (gs_queues g, w)) as H.
  pose proof (signal_returns N (gs_final g) HN (gs_queues g, w)) as R. unfold looks, wait_signal in *.
  pose proof (go_set _ _ Hok) as [hist Hset].
  destruct (signal_rounds (S N) 0 (gs_final g) (gs_queues g, w)) as [[[s1 w1] [u|e|]]|]; [..|done].
  - destruct H as (-> & A & w0 & A0 & Hw0). cbn [fst snd] in *. split; [|split].
    + apply (graph_ok_flags (with_queues g (gs_queues g)) w1 false (usable g)).
      apply (graph_ok_queues g (gs_queues g) w1 hist); [eauto|done|by eapply set_ok_advance|apply Hok].
    + split; [done|]. intros l. by destruct (A l) as (_ & _ & ?).
    + intros _. split; [done|]. right. eauto.
  - destruct H as (-> & A & _). cbn [fst snd gs_queues] in *.
    assert (graph_ok (with_queues g (gs_queues g)) w1) as Hok1.
    { apply (graph_ok_queues g (gs_queues g) w1 hist); [eauto|done|by eapply set_ok_advance|apply Hok]. }
    pose proof (teardown_life _ w1 Hok1) as H. cbn [gs_queues with_queues] in H.
    destruct (inactivate_all (gs_queues g, w1)) as [[[s2 w2] [u2|e2|]]|]; [..|done].
    + destruct H as (Hok2 & _ & Hdown). cbn. split; [by apply (graph_ok_flags _ w2 false false) in Hok2|]. by split.
    + destruct H as (Hok2 & _ & _). cbn. split; [by apply (graph_ok_flags _ w2 true false) in Hok2|]. by split.
    + by destruct H as (_ & _ & ?).
  - by destruct H as (_ & _ & ?).
Qed.

Lemma cancel_life g w : graph_ok g w →
  match Graph_cancel (g, w) with
  | None => False
  | Some ((g', w'), r) => graph_ok g' w' ∧ stop_outcome g w g' w' r ∧
      (r = Ok tt → in_flight g = false ∧ g' = g ∨ usable g' = false ∧ all_down (gs_queues g'))
  end.
Proof.
  intros Hok. unfold Graph_cancel. cbn [fst snd]. destruct (in_flight g) eqn:Hf; cbn [negb].
  2:{ split; [done|]. split; [by split|]. auto. }
  unfold on_queues. cbn [fst snd]. pose proof (teardown_life g w Hok) as H.
  destruct (inactivate_all (gs_queues g, w)) as [[[s2 w2] [u2|e2|]]|]; [..|done].
  - destruct H as (Hok2 & A & Hdown). cbn. split; [by apply (graph_ok_flags _ w2 false false) in Hok2|].
    split; [|by right]. split; [done|]. intros l. by destruct (A l) as (_ & _ & ?).
  - destruct H as (Hok2 & _ & _). cbn. split; [by apply (graph_ok_flags _ w2 true false) in Hok2|]. by split.
  - by destruct H as (_ & _ & ?).
Qed.
End life.
