(* ===== verification/AqlOrder.v ===== *)
(** What the packets of a retained graph guarantee on the device
    (src/crates/redline-dispatch/src/aql/replay.rs).

    An execution assigns a start and an end to every packet pushed to a queue. It
    satisfies what the HSA specification says of a packet processor: packets of a
    queue start in order; one with the barrier bit starts after all earlier ones
    of its queue have completed; nothing later in the queue starts before a
    barrier-AND packet has completed; and a barrier-AND packet completes only
    after each of its dependency signals was completed by some packet.

    Proved here: the order of phases and tokens in the two-queue batches, and the
    order of dependent nodes in a graph over any number of queues. *)

From S2P Require Import Prelude Ir Packet Queue AqlGraph.

(** ** Executions *)

Definition packet_word (p : Packet) : Z :=
  match p with KernelPacket p => kdp_full_header p | BarrierPacket p => bap_full_header p end.
(** The 16 bits the packet processor reads as the header. *)
Definition header_of (p : Packet) : Z := Z.land (packet_word p) 65535.
Definition packet_barrier (p : Packet) : bool := header_barrier (packet_word p).
Definition packet_completion (p : Packet) : Z :=
  match p with KernelPacket p => kdp_completion_signal p | BarrierPacket p => bap_completion_signal p end.

Record aql_execution (pushes : list push) (start stop : nat → Z) : Prop := {
  ax_duration i : (start i ≤ stop i)%Z;
  ax_launch i j l p q : i < j → pushes !! i = Some (l, p) → pushes !! j = Some (l, q) → (start i ≤ start j)%Z;
  ax_barrier_bit i j l p q : i < j → pushes !! i = Some (l, p) → pushes !! j = Some (l, q) →
    packet_barrier q = true → (stop i ≤ start j)%Z;
  ax_barrier_and i j l p q : i < j → pushes !! i = Some (l, BarrierPacket p) → pushes !! j = Some (l, q) →
    (stop i ≤ start j)%Z;
  ax_signal j l p s : pushes !! j = Some (l, BarrierPacket p) → s ∈ bap_dependency_signals p → s ≠ 0%Z →
    ∃ i l' q, pushes !! i = Some (l', q) ∧ packet_completion q = s ∧ (stop i ≤ stop j)%Z }.

(** Every awaited signal is completed by an earlier push: nothing can block. *)
Definition runnable (pushes : list push) : Prop := ∀ j l p s, pushes !! j = Some (l, BarrierPacket p) →
  s ∈ bap_dependency_signals p → s ≠ 0%Z → ∃ i l' q, i < j ∧ pushes !! i = Some (l', q) ∧ packet_completion q = s.

Lemma runnable_execution pushes : runnable pushes → aql_execution pushes Z.of_nat Z.of_nat.
Proof.
  intros H. split; intros; try lia. destruct (H _ _ _ _ H0 H1 H2) as (i & l' & q & Hi & Hq & Hc).
  exists i, l', q. split; [done|]. split; [done|]. lia.
Qed.

(** ** Phases *)

Section phases.
Context (sig : nat → nat → Z) (other : Z → Prop) (G : nat).
Context (Hother : ∀ g l, g < G → l < 2 → ¬ other (sig g l)).
Context (Hinj : ∀ g l g' l', g < G → l < 2 → g' < G → l' < 2 → sig g l = sig g' l' → g = g' ∧ l = l').
Context (Hnz : ∀ g l, g < G → l < 2 → sig g l ≠ 0%Z) (HG0 : G ≠ 0).

(** The pushes of one phase: each queue is opened by a barrier on the phase
    before, and closed by the packet that completes the phase's signal. *)
Record block_ok (g : nat) (b : list push) : Prop := {
  bo_lane j l x : b !! j = Some (l, x) → l < 2;
  bo_signal j l x : b !! j = Some (l, x) → other (packet_completion x) ∨ packet_completion x = sig g l;
  bo_close l : l < 2 → ∃ k c, b !! k = Some (l, c) ∧ packet_completion c = sig g l ∧
    (∀ j x, b !! j = Some (l, x) → packet_completion x = sig g l → j = k) ∧
    ∀ j x, b !! j = Some (l, x) → j = k ∨ (j < k ∧ packet_barrier c = true);
  bo_open l : l < 2 → 0 < g → ∃ m p, b !! m = Some (l, BarrierPacket p) ∧ other (packet_completion (BarrierPacket p)) ∧
    (∀ l', l' < 2 → sig (g - 1) l' ∈ bap_dependency_signals p) ∧ ∀ j x, b !! j = Some (l, x) → m ≤ j;
  bo_deps j l p s : b !! j = Some (l, BarrierPacket p) → s ∈ bap_dependency_signals p → s ≠ 0%Z →
    0 < g ∧ ∃ l', l' < 2 ∧ s = sig (g - 1) l' }.

Context (bs : list (list push)) (terminal : push).
Context (HG : length bs = G) (Hblocks : ∀ g b, bs !! g = Some b → block_ok g b).
Context (Hterm : ∃ p, terminal = (0, BarrierPacket p) ∧ other (packet_completion (BarrierPacket p)) ∧
  (∀ s, s ∈ bap_dependency_signals p → s = 0%Z ∨ ∃ l, l < 2 ∧ s = sig (G - 1) l) ∧
  ∀ l, l < 2 → sig (G - 1) l ∈ bap_dependency_signals p).

Local Abbreviation pushes := (concat bs ++ [terminal]).
Local Abbreviation at_ g j := (block_offset bs g + j).

Lemma at_lookup g b j x : bs !! g = Some b → b !! j = Some x → pushes !! at_ g j = Some x.
Proof using Type.
  intros Hg Hj. assert (concat bs !! at_ g j = Some x) as H by (rewrite (block_lookup bs g b j Hg); [done|by eapply lookup_lt_Some]).
  rewrite lookup_app_l by (by eapply lookup_lt_Some). done.
Qed.

Lemma at_lt g b j g' j' : bs !! g = Some b → j < length b → g < g' → at_ g j < at_ g' j'.
Proof using Type.
  clear - bs. intros Hg Hj Hlt. pose proof (block_offset_S bs g b Hg). pose proof (block_offset_mono bs (S g) g' Hlt). lia.
Qed.

Lemma at_inv i x : concat bs !! i = Some x → ∃ g b j, bs !! g = Some b ∧ b !! j = Some x ∧ i = at_ g j.
Proof using Type.
  clear. revert i. induction bs as [|b bs' IH]; intros i; [done|]. cbn [concat]. intros H.
  apply lookup_app_Some in H as [H|[Hge H]].
  - exists 0, b, i. split; [done|]. split; [done|]. done.
  - destruct (IH _ H) as (g & b' & j & Hg & Hj & Hi). exists (S g), b', j. split; [done|]. split; [done|].
    unfold block_offset in *. cbn. rewrite length_app. lia.
Qed.

(** The packet that completes the signal of a phase is unique. *)
Lemma completer g b l k i l' q : bs !! g = Some b → l < 2 →
  (∃ c, b !! k = Some (l, c) ∧ packet_completion c = sig g l) →
  pushes !! i = Some (l', q) → packet_completion q = sig g l → i = at_ g k.
Proof using Hother Hinj HG HG0 Hblocks Hterm.
  intros Hg Hl (c & Hk & Hc) Hi Hq. pose proof (lookup_lt_Some _ _ _ Hg) as Hlt. rewrite HG in Hlt.
  apply lookup_app_Some in Hi as [Hi|[_ Hi]].
  - destruct (at_inv _ _ Hi) as (g' & b' & j & Hg' & Hj & ->). pose proof (lookup_lt_Some _ _ _ Hg') as Hlt'. rewrite HG in Hlt'.
    pose proof (Hblocks g' b' Hg') as Hb'. pose proof (bo_lane _ _ Hb' j l' q Hj) as Hl'.
    destruct (bo_signal _ _ Hb' j l' q Hj) as [Ho|He]; [rewrite Hq in Ho; by apply (Hother g l) in Ho|].
    rewrite Hq in He. apply Hinj in He as [<- <-]; [|done..]. rewrite Hg in Hg'. injection Hg' as <-.
    destruct (bo_close _ _ Hb' l Hl) as (k' & c' & _ & _ & Hone & _).
    f_equal. rewrite (Hone j q Hj Hq), (Hone k c Hk Hc). done.
  - exfalso. destruct Hterm as (p & -> & Ho & _). apply list_lookup_singleton_Some in Hi as [_ [= _ <-]].
    rewrite Hq in Ho. by apply (Hother g l) in Ho.
Qed.

Section order.
Context (start stop : nat → Z) (Hex : aql_execution pushes start stop).

(** A barrier on a phase ends after the closing packets of that phase. *)
Lemma awaits g b l k j l' p : bs !! g = Some b → l < 2 →
  (∃ c, b !! k = Some (l, c) ∧ packet_completion c = sig g l) →
  pushes !! j = Some (l', BarrierPacket p) → sig g l ∈ bap_dependency_signals p → (stop (at_ g k) ≤ stop j)%Z.
Proof using Hother Hinj Hnz HG HG0 Hblocks Hterm Hex.
  intros Hg Hl Hk Hj Hin. pose proof (lookup_lt_Some _ _ _ Hg) as Hlt. rewrite HG in Hlt.
  destruct (ax_signal _ _ _ Hex j l' p _ Hj Hin (Hnz g l Hlt Hl)) as (i & l2 & q & Hi & Hq & Hle).
  by rewrite <- (completer g b l k i l2 q Hg Hl Hk Hi Hq).
Qed.

(** Everything in a phase ends before the closing packet of its queue does. *)
Lemma close_last g b j l x : bs !! g = Some b → b !! j = Some (l, x) →
  ∃ k, (∃ c, b !! k = Some (l, c) ∧ packet_completion c = sig g l) ∧ (stop (at_ g j) ≤ stop (at_ g k))%Z.
Proof using HG HG0 Hblocks Hex.
  intros Hg Hj. pose proof (Hblocks g b Hg) as Hb. pose proof (bo_lane _ _ Hb j l x Hj) as Hl.
  destruct (bo_close _ _ Hb l Hl) as (k & c & Hk & Hc & _ & Hall). exists k. split; [eauto|].
  destruct (Hall j x Hj) as [->|[Hlt Hbar]]; [done|].
  pose proof (ax_barrier_bit _ _ _ Hex (at_ g j) (at_ g k) l x c ltac:(lia) (at_lookup g b j _ Hg Hj) (at_lookup g b k _ Hg Hk) Hbar).
  pose proof (ax_duration _ _ _ Hex (at_ g k)). lia.
Qed.

(** A packet of a phase ends before everything in the next phase that is not a
    boundary barrier. *)
Definition opening (b : list push) (j : nat) : Prop := ∃ l p, b !! j = Some (l, BarrierPacket p) ∧
  ∀ j' x, b !! j' = Some (l, x) → j ≤ j'.

Lemma next_phase g b b' j j' x y : bs !! g = Some b → bs !! S g = Some b' → b !! j = Some x → b' !! j' = Some y →
  ¬ opening b' j' → (stop (at_ g j) ≤ start (at_ (S g) j'))%Z.
Proof using Hother Hinj Hnz HG HG0 Hblocks Hterm Hex.
  intros Hg Hg' Hj Hj' Hno. destruct x as [l x], y as [l' y]. pose proof (Hblocks _ _ Hg') as Hb'.
  destruct (close_last g b j l x Hg Hj) as (k & Hk & Hle).
  pose proof (bo_lane _ _ Hb' j' l' y Hj') as Hl'. pose proof (bo_lane _ _ (Hblocks _ _ Hg) j l x Hj) as Hl.
  destruct (bo_open _ _ Hb' l' Hl' ltac:(lia)) as (m & p & Hm & _ & Hdeps & Hfirst).
  rewrite Nat.sub_succ, Nat.sub_0_r in Hdeps.
  pose proof (awaits g b l k _ l' p Hg Hl Hk (at_lookup _ _ _ _ Hg' Hm) (Hdeps l Hl)) as Hw.
  pose proof (Hfirst j' y Hj') as Hmj. destruct (decide (m = j')) as [->|Hne]; [exfalso; apply Hno; exists l', p; eauto|].
  pose proof (ax_barrier_and _ _ _ Hex (at_ (S g) m) (at_ (S g) j') l' p y ltac:(lia) (at_lookup _ _ _ _ Hg' Hm) (at_lookup _ _ _ _ Hg' Hj')).
  lia.
Qed.

(** Closing packets are not openings. *)
Lemma close_not_opening g b : bs !! g = Some b → 0 < g → ∃ k x, b !! k = Some x ∧ ¬ opening b k.
Proof using Hother Hblocks HG HG0.
  intros Hg Hpos. pose proof (Hblocks g b Hg) as Hb. pose proof (lookup_lt_Some _ _ _ Hg) as Hlt. rewrite HG in Hlt.
  destruct (bo_close _ _ Hb 0 ltac:(lia)) as (k & c & Hk & Hc & _ & _).
  destruct (bo_open _ _ Hb 0 ltac:(lia) Hpos) as (m & p & Hm & Ho & _ & Hfirst).
  exists k, (0, c). split; [done|]. intros (l & p' & Hk' & Hmin). rewrite Hk in Hk'. injection Hk' as <- ->.
  pose proof (Hfirst k _ Hk). pose proof (Hmin m _ Hm). assert (k = m) as -> by lia. rewrite Hk in Hm. injection Hm as ->.
  rewrite Hc in Ho. apply (Hother g 0) in Ho; [done|done|lia].
Qed.

Lemma phase_order g g' b b' j j' x y : g < g' → bs !! g = Some b → bs !! g' = Some b' → b !! j = Some x → b' !! j' = Some y →
  ¬ opening b' j' → (stop (at_ g j) ≤ start (at_ g' j'))%Z.
Proof using Hother Hinj Hnz HG HG0 Hblocks Hterm Hex.
  intros Hlt Hg. revert b' j' y. induction Hlt as [|g' Hlt IH]; intros b' j' y Hg' Hj Hj' Hno.
  - by eapply next_phase.
  - destruct (lookup_lt_is_Some_2 bs g') as [b2 Hg2]; [apply lookup_lt_Some in Hg'; lia|].
    destruct (close_not_opening g' b2 Hg2 ltac:(lia)) as (k & z & Hk & Hko).
    pose proof (IH b2 k z Hg2 Hj Hk Hko). pose proof (ax_duration _ _ _ Hex (at_ g' k)).
    pose proof (next_phase g' b2 b' k j' z y Hg2 Hg' Hk Hj' Hno). lia.
Qed.

(** The closing packet of a phase ends before the barriers in front of any later
    phase do. *)
Lemma close_before_open g g' b b' l k c m l' p : g < g' → bs !! g = Some b → bs !! g' = Some b' → l < 2 →
  b !! k = Some (l, c) → packet_completion c = sig g l →
  b' !! m = Some (l', BarrierPacket p) → (∀ l, l < 2 → sig (g' - 1) l ∈ bap_dependency_signals p) →
  (stop (at_ g k) ≤ stop (at_ g' m))%Z.
Proof using Hother Hinj Hnz HG HG0 Hblocks Hterm Hex.
  intros Hlt Hg Hg' Hl Hk Hc Hm Hdeps. destruct g' as [|g']; [lia|]. rewrite Nat.sub_succ, Nat.sub_0_r in Hdeps.
  pose proof (at_lookup _ _ _ _ Hg' Hm) as Hpush. destruct (decide (g = g')) as [->|Hne].
  { eapply (awaits g' b l k); eauto. }
  destruct (lookup_lt_is_Some_2 bs g') as [b2 Hg2]; [apply lookup_lt_Some in Hg'; lia|].
  destruct (close_not_opening g' b2 Hg2 ltac:(lia)) as (k2 & [l2 z] & Hk2 & Hko).
  pose proof (phase_order g g' b b2 k k2 _ _ ltac:(lia) Hg Hg2 Hk Hk2 Hko).
  pose proof (ax_duration _ _ _ Hex (at_ g' k2)). pose proof (bo_lane _ _ (Hblocks _ _ Hg2) k2 l2 z Hk2) as Hl2.
  destruct (close_last g' b2 k2 l2 z Hg2 Hk2) as (k3 & Hk3 & Hle).
  pose proof (awaits g' b2 l2 k3 _ l' p Hg2 Hl2 Hk3 Hpush (Hdeps l2 Hl2)). lia.
Qed.

Lemma terminal_order g b j x : bs !! g = Some b → b !! j = Some x → (stop (at_ g j) ≤ stop (length pushes - 1)%nat)%Z.
Proof using Hother Hinj Hnz HG HG0 Hblocks Hterm Hex.
  intros Hg Hj. pose proof (lookup_lt_Some _ _ _ Hg) as HgG.
  destruct Hterm as (p & Hp & _ & _ & Hdeps).
  assert (pushes !! (length pushes - 1) = Some (0, BarrierPacket p)) as Hlast.
  { rewrite length_app. cbn [length]. rewrite Nat.add_sub. rewrite lookup_app_r by done. by rewrite Nat.sub_diag, Hp. }
  assert (∀ b2 k z, bs !! (G - 1) = Some b2 → b2 !! k = Some z → (stop (at_ (G - 1) k) ≤ stop (length pushes - 1)%nat)%Z) as Hend.
  { intros b2 k [l z] Hg2 Hk. destruct (close_last (G - 1) b2 k l z Hg2 Hk) as (k' & Hk' & Hle).
    pose proof (bo_lane _ _ (Hblocks _ _ Hg2) k l z Hk) as Hl.
    pose proof (awaits (G - 1) b2 l k' _ 0 p Hg2 Hl Hk' Hlast (Hdeps l Hl)). lia. }
  destruct (decide (g = G - 1)) as [->|Hne]; [by eapply Hend|].
  destruct (lookup_lt_is_Some_2 bs (G - 1)) as [b2 Hg2]; [lia|].
  destruct (close_not_opening (G - 1) b2 Hg2 ltac:(lia)) as (k & z & Hk & Hko).
  pose proof (phase_order g (G - 1) b b2 j k x z ltac:(lia) Hg Hg2 Hj Hk Hko).
  pose proof (ax_duration _ _ _ Hex (at_ (G - 1) k)). pose proof (Hend b2 k z Hg2 Hk). lia.
Qed.
End order.

(** Nothing in the batch can block. *)
Lemma phases_runnable : runnable pushes.
Proof using HG HG0 Hblocks Hterm.
  assert (∀ g b l, bs !! g = Some b → l < 2 → ∃ k q, b !! k = Some (l, q) ∧ packet_completion q = sig g l) as Hclose.
  { intros g b l Hg Hl. destruct (bo_close _ _ (Hblocks g b Hg) l Hl) as (k & c & Hk & Hc & _). eauto. }
  intros j l p s Hj Hs Hnz0. apply lookup_app_Some in Hj as [Hj|[Hge Hj]].
  - destruct (at_inv _ _ Hj) as (g & b & k & Hg & Hk & ->).
    destruct (bo_deps _ _ (Hblocks g b Hg) k l p s Hk Hs Hnz0) as (Hpos & l' & Hl' & ->).
    destruct (lookup_lt_is_Some_2 bs (g - 1)) as [b2 Hg2]; [apply lookup_lt_Some in Hg; lia|].
    destruct (Hclose _ _ l' Hg2 Hl') as (k' & q & Hk' & Hq). exists (at_ (g - 1) k'), l', q.
    split; [apply (at_lt (g - 1) b2 k' g k Hg2); [by eapply lookup_lt_Some|lia]|]. split; [by eapply at_lookup|done].
  - destruct Hterm as (p' & Hp' & _ & Hsub & _). rewrite Hp' in Hj. apply list_lookup_singleton_Some in Hj as [_ [= _ <-]].
    destruct (Hsub s Hs) as [->|(l' & Hl' & ->)]; [done|].
    destruct (lookup_lt_is_Some_2 bs (G - 1)) as [b2 Hg2]; [lia|].
    destruct (Hclose _ _ l' Hg2 Hl') as (k' & q & Hk' & Hq). exists (at_ (G - 1) k'), l', q.
    split; [|split; [by eapply at_lookup|done]].
    assert (concat bs !! at_ (G - 1) k' = Some ((l', q) : push)) as H by (rewrite (block_lookup bs (G - 1) b2 k' Hg2); [done|by eapply lookup_lt_Some]).
    apply lookup_lt_Some in H. unfold push in *. lia.
Qed.
End phases.

(** ** Pushes *)

(** The barrier bit of a header in the low half of a word. *)
Lemma kernel_word_barrier policy x :
  header_barrier (Z.lor (packet_header PACKET_TYPE_KERNEL_DISPATCH policy) (wrap32 (Z.shiftl x 16))) = policy_barrier policy.
Proof.
  unfold header_barrier. rewrite Z.lor_spec. unfold wrap32. change 4294967296%Z with (2 ^ 32)%Z.
  rewrite (Z.mod_pow2_bits_low _ 32) by (unfold PACKET_HEADER_BARRIER; lia).
  rewrite Z.shiftl_spec_low by (unfold PACKET_HEADER_BARRIER; lia). rewrite orb_false_r.
  destruct (packet_header_states PACKET_TYPE_KERNEL_DISPATCH policy (or_introl eq_refl)) as (_ & H & _). exact H.
Qed.

Lemma barrier_word_states policy :
  header_states (Z.land (packet_header PACKET_TYPE_BARRIER_AND policy) 65535) PACKET_TYPE_BARRIER_AND policy.
Proof. unfold header_states. destruct policy as [[] [] []]; vm_compute; intuition congruence. Qed.

Definition barrier_spec (lane : nat) (dependencies : list Z) (completion : Z) (policy : HeaderPolicy) (x : push) : Prop :=
  ∃ p, x = (lane, BarrierPacket p) ∧
    (packet_barrier (BarrierPacket p) = policy_barrier policy ∧ header_states (header_of (BarrierPacket p)) PACKET_TYPE_BARRIER_AND policy) ∧
    bap_completion_signal p = completion ∧ image_ok (packet_image (BarrierPacket p)) ∧
    (∀ s, s ∈ bap_dependency_signals p → s ∈ dependencies ∨ s = 0%Z) ∧
    ∀ s, s ∈ dependencies → s ∈ bap_dependency_signals p.

Lemma barrier_Ok lane dependencies completion policy x :
  barrier lane dependencies completion policy = Ok x → barrier_spec lane dependencies completion policy x.
Proof.
  unfold barrier. intros H. apply bind_Ok in H as (p & Hp & H). apply Ok_inj in H as <-. exists p. split; [done|].
  destruct (BarrierAndPacket_new_with_policy dependencies completion policy) as [p'|e|] eqn:He; [|done..].
  apply Ok_inj in Hp as <-. unfold BarrierAndPacket_new_with_policy in He. apply bind_Ok in He as (u & Hlen & He).
  apply err_if_Ok, bool_decide_eq_false in Hlen. apply Ok_inj in He as <-.
  split; [|split; [done|split; [|split]]].
  - split; [by destruct (packet_header_states PACKET_TYPE_BARRIER_AND policy (or_intror eq_refl)) as (_ & H & _)|apply barrier_word_states].
  - unfold image_ok. cbn [packet_image PacketImage_barrier image_bytes]. rewrite length_repr_c. unfold BARRIER_DEPENDENCY_CAPACITY in *.
    destruct dependencies as [|a [|b [|c [|d [|e [|f l]]]]]]; [reflexivity..|cbn in Hlen; lia].
  - intros s Hs. cbn [bap_dependency_signals] in Hs. apply elem_of_app in Hs as [Hs|Hs]; [by left|right].
    rewrite drop_replicate in Hs. by apply elem_of_replicate_inv in Hs.
  - intros s Hs. cbn [bap_dependency_signals]. apply elem_of_app. by left.
Qed.

(** A kernel packet carries the fields of its dispatch. *)
Definition kernel_spec (lane : nat) (d : RecordedDispatch) (completion : Z) (policy : HeaderPolicy) (x : push) : Prop :=
  ∃ p, x = (lane, KernelPacket p) ∧ packet_barrier (KernelPacket p) = policy_barrier policy ∧
    kdp_completion_signal p = completion ∧ image_ok (packet_image (KernelPacket p)) ∧
    KernelDispatchPacket_new_with_policy (kernel_metadata (rd_kernel d)) (rd_geometry d) (dynamic_group_bytes d)
      (kernarg_address (rd_kernarg d)) completion policy = Ok p.

Lemma kernel_push_Ok lane d completion policy x :
  kernel_push lane d completion policy = Ok x → kernel_spec lane d completion policy x.
Proof.
  unfold kernel_push. intros H. apply bind_Ok in H as (p & Hp & H). apply Ok_inj in H as <-. exists p. split; [done|].
  destruct (KernelDispatchPacket_new_with_policy _ _ _ _ _ _) as [p'|e|] eqn:He; [|done..]. apply Ok_inj in Hp as <-.
  pose proof He as (_ & _ & _ & _ & ->)%new_with_policy_Ok. split; [apply kernel_word_barrier|]. split; [done|]. split; [|done].
  unfold image_ok. cbn [packet_image PacketImage_kernel image_bytes]. by rewrite length_repr_c.
Qed.
