(* ===== verification/AqlBatch.v ===== *)
(** The packets of the two-queue batches
    (src/crates/redline-dispatch/src/aql/replay.rs): both constructions of
    [TwoQueueSerializedBatchGraph] push one block per token and phase, and the
    device runs the blocks one after another. *)

From S2P Require Import Prelude Ir Packet Queue AqlGraph AqlOrder.

(** ** Loops that append *)

Section loops.
Context {E A B S : Type}.

Lemma try_fold_blocks (f : list B * S → A → result E (list B * S)) (R : A → list B → Prop) l s s' :
  (∀ s x s', x ∈ l → f s x = Ok s' → ∃ b, s'.1 = s.1 ++ b ∧ R x b) → try_fold f s l = Ok s' →
  ∃ bs, s'.1 = s.1 ++ concat bs ∧ Forall2 R l bs.
Proof.
  revert s. induction l as [|x l IH]; intros s Hf; cbn.
  - intros [= <-]. exists []. split; [by rewrite app_nil_r|done].
  - rewrite bind_Ok. intros (s1 & H1 & Hl). destruct (Hf s x s1) as (b & Hb & HR); [left|done|].
    destruct (IH s1) as (bs & Hbs & HRs); [intros ? y ? ?; apply Hf; by right|done|].
    exists (b :: bs). split; [|by constructor]. cbn. by rewrite app_assoc, <- Hb.
Qed.

Lemma try_fold_bind {C T} (f : T → A → C → result E T) l (k : A → list C) s :
  try_fold (λ s a, try_fold (λ s c, f s a c) s (k a)) s l = try_fold (λ s '(a, c), f s a c) s (a ← l; pair a <$> k a).
Proof.
  revert s. induction l as [|a l IH]; intros s; [done|]. cbn [try_fold].
  change (a0 ← a :: l; pair a0 <$> k a0) with ((pair a <$> k a) ++ (a0 ← l; pair a0 <$> k a0)). rewrite try_fold_app.
  assert (∀ s (l : list C), try_fold (λ s c, f s a c) s l = try_fold (λ s '(a, c), f s a c) s (pair a <$> l)) as ->.
  { clear. intros s l. revert s. induction l as [|c l IH]; intros s; [done|]. cbn. by destruct (f s a c); cbn. }
  destruct (try_fold _ s (pair a <$> k a)) as [s1|e|]; cbn; [apply IH|done..].
Qed.

Lemma try_map_bind {C D} (f : A → C → result E D) l (k : A → list C) bss :
  try_map (λ a, try_map (f a) (k a)) l = Ok bss →
  Forall2 (λ '(a, c) b, f a c = Ok b) (a ← l; pair a <$> k a) (concat bss).
Proof.
  rewrite try_map_Ok. induction 1 as [|a bs l bss Ha Hl IH]; [done|]. cbn. apply Forall2_app; [|exact IH].
  apply try_map_Ok in Ha. clear - Ha. by induction Ha; constructor.
Qed.
End loops.

(** ** Signals *)

Section batches.
Context (signals : nat → SignalCreation).

(** The handle of the [k]-th signal. *)
Definition handle (k : nat) : Z := match signals k with SignalCreated raw => raw | SignalFailed _ => 0%Z end.

Lemma new_signal_Ok k s : new_signal signals k = Ok s → s = handle k ∧ s ≠ 0%Z.
Proof.
  unfold new_signal, CompletionSignal_new, handle. destruct (signals k) as [?|raw]; [done|].
  destruct (Z.eqb_spec raw 0); [done|]. cbn. by intros [= <-].
Qed.

Definition tail_pair (base g : nat) : Z * Z := (handle (base + g * 2), handle (base + g * 2 + 1)).

(** The table of tail signals holds the pair of each token and phase. *)
Record tails_ok (base T P : nat) (tails : list (list (Z * Z))) : Prop := {
  ta_length : length tails = T;
  ta_token t : t < T → ∃ token, tails !! t = Some token ∧ length token = P ∧
    ∀ p, p < P → token !! p = Some (tail_pair base (t * P + p));
  ta_nonzero g : g < T * P → handle (base + g * 2) ≠ 0%Z ∧ handle (base + g * 2 + 1) ≠ 0%Z }.

Lemma seq_lookup_inv a n i x : seq a n !! i = Some x → x = a + i ∧ i < n.
Proof. intros H. pose proof (lookup_lt_Some _ _ _ H) as Hl. rewrite length_seq in Hl. rewrite lookup_seq_lt in H by done. split; [congruence|done]. Qed.

Lemma tail_signals_Ok base T P tails : tail_signals signals base T P = Ok tails → tails_ok base T P tails.
Proof.
  unfold tail_signals. intros H. apply try_map_Ok in H.
  assert (∀ t token, tails !! t = Some token → t < T ∧ length token = P ∧ ∀ p, p < P →
    token !! p = Some (tail_pair base (t * P + p)) ∧ (tail_pair base (t * P + p)).1 ≠ 0%Z ∧ (tail_pair base (t * P + p)).2 ≠ 0%Z) as Htok.
  { intros t token Ht. destruct (Forall2_lookup_r _ _ _ _ _ H Ht) as (t' & Ht' & Hm). apply seq_lookup_inv in Ht' as [-> Hlt].
    split; [done|]. apply try_map_Ok in Hm. split; [apply Forall2_length in Hm; by rewrite length_seq in Hm|]. intros p Hp.
    destruct (Forall2_lookup_l _ _ _ p p Hm) as (x & Hx & Hf); [by rewrite lookup_seq_lt|].
    apply bind_Ok in Hf as (z & Hz & Hf). apply bind_Ok in Hf as (o & Ho & Hf). apply Ok_inj in Hf as <-.
    apply new_signal_Ok in Hz as [-> Hz], Ho as [-> Ho]. done. }
  assert (length tails = T) as HT by (apply Forall2_length in H; by rewrite length_seq in H).
  split; [done| |].
  - intros t Ht. destruct (lookup_lt_is_Some_2 tails t) as [token Hk]; [lia|]. exists token. split; [done|].
    destruct (Htok t token Hk) as (_ & Hl & Hp). split; [done|]. intros p Hpp. by apply Hp.
  - intros g Hg. destruct (decide (P = 0)) as [->|HP]; [lia|].
    pose proof (Nat.div_mod_eq g P) as Hdm. pose proof (Nat.mod_upper_bound g P HP).
    assert (g / P < T) as Ht by (apply Nat.Div0.div_lt_upper_bound; lia).
    destruct (lookup_lt_is_Some_2 tails (g / P)) as [token Hk]; [lia|].
    destruct (Htok _ _ Hk) as (_ & _ & Hp). destruct (Hp (g mod P)) as (_ & H1 & H2); [done|].
    replace (g / P * P + g mod P) with g in H1, H2 by lia. done.
Qed.
End batches.

(** ** The block of a phase *)

Section shape.
Context (sig : nat → nat → Z) (other : Z → Prop) (closing : Packet → Prop).
Context (Hzero : other 0%Z).

(** The packets of one queue in a phase: kernels, then the packet that completes
    the signal of the phase. *)
Record segment (g lane : nat) (pre : list push) (c : Packet) : Prop := {
  sg_kernels : Forall (λ x : push, ∃ k, x = (lane, KernelPacket k) ∧ other (kdp_completion_signal k)) pre;
  sg_close : packet_completion c = sig g lane;
  sg_closing : closing c;
  sg_barrier : packet_barrier c = true;
  sg_free p s : c = BarrierPacket p → s ∈ bap_dependency_signals p → s = 0%Z;
  sg_images : Forall (λ x : push, image_ok (packet_image x.2)) (pre ++ [(lane, c)]) }.

(** The barriers in front of it. *)
Definition boundary_ok (policy : HeaderPolicy) (g : nat) (bnd : list push) : Prop :=
  match g with
  | O => bnd = []
  | S g => Forall2 (λ lane, barrier_spec lane [sig g 0; sig g 1] 0 policy) [0; 1] bnd
  end.

Lemma boundary_inv policy g bnd j l x : boundary_ok policy g bnd → bnd !! j = Some (l, x) →
  0 < g ∧ j = l ∧ l < 2 ∧ barrier_spec l [sig (g - 1) 0; sig (g - 1) 1] 0 policy (l, x).
Proof using Type.
  destruct g as [|g]; cbn [boundary_ok]; [by intros ->|]. intros H Hj. rewrite Nat.sub_succ, Nat.sub_0_r.
  destruct (Forall2_lookup_r _ _ _ _ _ H Hj) as (l' & Hl' & Hb).
  destruct j as [|[|?]]; [..|done]; cbn in Hl'; injection Hl' as <-; pose proof Hb as (p & Hp & _); injection Hp as -> _; split; auto with lia.
Qed.

Lemma boundary_open policy g bnd l : boundary_ok policy g bnd → 0 < g → l < 2 →
  ∃ x, bnd !! l = Some (l, x) ∧ barrier_spec l [sig (g - 1) 0; sig (g - 1) 1] 0 policy (l, x).
Proof using Type.
  destruct g as [|g]; [lia|]. cbn [boundary_ok]. intros H _ Hl. rewrite Nat.sub_succ, Nat.sub_0_r.
  destruct (Forall2_lookup_l _ _ _ l l H) as (x & Hx & Hb); [destruct l as [|[|?]]; [done..|lia]|].
  pose proof Hb as (p & -> & _). eauto.
Qed.

Section block.
Context (policy : HeaderPolicy) (g : nat) (bnd pre0 pre1 : list push) (c0 c1 : Packet).
Context (Hother : ∀ l, l < 2 → ¬ other (sig g l)).
Context (Hbnd : boundary_ok policy g bnd) (H0 : segment g 0 pre0 c0) (H1 : segment g 1 pre1 c1).

Local Abbreviation block := (bnd ++ (pre0 ++ [(0, c0)]) ++ (pre1 ++ [(1, c1)])).

(** Where the packets of a queue begin. *)
Definition lane_start (lane : nat) : nat := length bnd + match lane with O => 0 | _ => S (length pre0) end.
Local Abbreviation pre := (at_lane (pre0, pre1)).
Local Abbreviation close := (at_lane (c0, c1)).

Local Ltac plia := unfold lane_start, push in *; cbn in *; lia.

Lemma segment_lane lane : lane < 2 → segment g lane (pre lane) (close lane).
Proof using H0 H1. intros Hl. destruct lane as [|[|?]]; [done..|lia]. Qed.

Lemma block_inv j l x : block !! j = Some (l, x) → l < 2 ∧
  ((bnd !! j = Some (l, x)) ∨
   (∃ i k, j = lane_start l + i ∧ pre l !! i = Some (l, x) ∧ i < length (pre l) ∧ x = KernelPacket k ∧ other (kdp_completion_signal k)) ∨
   (j = lane_start l + length (pre l) ∧ x = close l)).
Proof using Hbnd H0 H1.
  intros Hj. apply lookup_app_Some in Hj as [Hj|[Hge Hj]].
  { split; [|by left]. by destruct (boundary_inv _ _ _ _ _ _ Hbnd Hj) as (_ & _ & ? & _). }
  assert (∀ lane i, lane < 2 → pre lane !! i = Some (l, x) → j = lane_start lane + i → l < 2 ∧
    ∃ i k, j = lane_start l + i ∧ pre l !! i = Some (l, x) ∧ i < length (pre l) ∧ x = KernelPacket k ∧ other (kdp_completion_signal k)) as Hpre.
  { intros lane i Hl Hi He. pose proof (sg_kernels _ _ _ _ (segment_lane lane Hl)) as Hf.
    destruct (Forall_lookup_1 _ _ _ _ Hf Hi) as (k & [= -> ->] & Hk). split; [done|]. exists i, k. split; [done|].
    split; [done|]. split; [by eapply lookup_lt_Some|done]. }
  apply lookup_app_Some in Hj as [Hj|[Hge1 Hj]]; apply lookup_app_Some in Hj as [Hj|[Hge2 Hj]].
  - destruct (Hpre 0 _ ltac:(lia) Hj) as [? ?]; [plia|]. auto.
  - apply list_lookup_singleton_Some in Hj as [Hz [= <- <-]]. split; [lia|]. right; right. split; [plia|done].
  - rewrite length_app in *. cbn [length] in *. destruct (Hpre 1 _ ltac:(lia) Hj) as [? ?]; [plia|]. auto.
  - rewrite length_app in *. cbn [length] in *. apply list_lookup_singleton_Some in Hj as [Hz [= <- <-]].
    split; [lia|]. right; right. split; [plia|done].
Qed.

(** Position [i] of a queue's segment. *)
Lemma packet_block_at lane i x : lane < 2 → (pre lane ++ [(lane, close lane)]) !! i = Some x → block !! (lane_start lane + i) = Some x.
Proof using Type.
  intros Hl Hi. pose proof (lookup_lt_Some _ _ _ Hi) as Hlt. rewrite length_app in Hlt. cbn [length] in Hlt.
  rewrite lookup_app_r by (plia). destruct lane as [|[|?]]; [..|lia]; cbn [at_lane fst snd] in *.
  - rewrite lookup_app_l by (rewrite length_app; cbn; plia).
    replace (lane_start 0 + i - length bnd) with i by (plia). done.
  - rewrite lookup_app_r by (rewrite length_app; cbn; plia).
    replace (lane_start 1 + i - length bnd - length (pre0 ++ [(0, c0)])) with i by (rewrite length_app; plia). done.
Qed.

Lemma packet_block_close lane : lane < 2 → block !! (lane_start lane + length (pre lane)) = Some (lane, close lane).
Proof using Type. intros Hl. apply packet_block_at; [done|]. rewrite lookup_app_r by done. by rewrite Nat.sub_diag. Qed.

Lemma shape_block_ok : block_ok sig other g block.
Proof using Hbnd H0 H1 Hother Hzero.
  assert (∀ j l x, block !! j = Some (l, x) → other (packet_completion x) ∨ j = lane_start l + length (pre l) ∧ x = close l) as Hinv.
  { intros j l x Hj. apply block_inv in Hj as [Hl [Hj|[(i & k & _ & _ & _ & -> & Hk)|Hc]]]; [|by left|by right].
    destruct (boundary_inv _ _ _ _ _ _ Hbnd Hj) as (_ & _ & _ & p & [= ->] & _ & Hp & _). left. cbn. by rewrite Hp. }
  pose proof packet_block_close as Hclose.
  split.
  - intros j l x Hj. by apply block_inv in Hj as [? _].
  - intros j l x Hj. pose proof (proj1 (block_inv j l x Hj)) as Hl. destruct (Hinv j l x Hj) as [?|[_ ->]]; [by left|right].
    apply (sg_close _ _ _ _ (segment_lane l Hl)).
  - intros l Hl. pose proof (segment_lane l Hl) as Hs. exists (lane_start l + length (pre l)), (close l). split; [by apply Hclose|].
    split; [apply Hs|]. split.
    + intros j x Hj Hx. destruct (Hinv j l x Hj) as [Ho|[? _]]; [|done]. rewrite Hx in Ho. by apply Hother in Ho.
    + intros j x Hj. apply block_inv in Hj as [_ [Hj|[(i & k & -> & _ & Hi & _)|[-> _]]]]; [| |by left].
      * right. split; [|apply Hs]. apply lookup_lt_Some in Hj. plia.
      * right. split; [lia|apply Hs].
  - intros l Hl Hg. destruct (boundary_open _ _ _ l Hbnd Hg Hl) as (x & Hx & p & [= ->] & _ & Hp & _ & _ & Hd).
    exists l, p. split; [rewrite lookup_app_l by (by eapply lookup_lt_Some); done|]. cbn. rewrite Hp. split; [done|]. split.
    + intros l' Hl'. apply Hd. destruct l' as [|[|?]]; [left|right; left|lia].
    + intros j y Hj. apply block_inv in Hj as [_ [Hj|[(i & k & -> & _)|[-> _]]]].
      * destruct (boundary_inv _ _ _ _ _ _ Hbnd Hj) as (_ & -> & _). done.
      * apply lookup_lt_Some in Hx. plia.
      * apply lookup_lt_Some in Hx. plia.
  - intros j l p s Hj Hs Hnz. apply block_inv in Hj as [Hl [Hj|[(i & k & _ & _ & _ & ? & _)|[_ Hc]]]]; [|done|].
    + destruct (boundary_inv _ _ _ _ _ _ Hbnd Hj) as (Hg & _ & _ & p' & [= <-] & _ & _ & _ & Hd & _). split; [done|].
      destruct (Hd s Hs) as [Hin|?]; [|done]. apply list_elem_of_In in Hin as [<-|[<-|[]]]; [exists 0|exists 1]; split; [lia|done|lia|done].
    + exfalso. apply Hnz. symmetry in Hc. by eapply (sg_free _ _ _ _ (segment_lane l Hl)).
Qed.
End block.
End shape.

(** ** Batches *)

(** A dispatch of the batch: token, phase, queue, position. *)
Definition dispatch_at (phases : list TwoQueuePhase) (T t p l i : nat) (d : RecordedDispatch) : Prop :=
  t < T ∧ l < 2 ∧ ∃ phase, phases !! p = Some phase ∧ at_lane (lane_zero phase, lane_one phase) l !! i = Some d.

(** What a batch promises: every dispatch of every token has one kernel packet,
    at [place], and there are no others; the last push, and only it, completes
    the final signal; nothing can block; and in every execution a phase ends
    before the next one starts, queue order is kept where the header asks for
    it, and everything ends before the final signal. Between a dispatch and one
    of a later phase lie a [closing] packet on the queue of the first, and then a
    barrier with the header [policy] on the queue of the second; the last push
    has the header [last]. *)
Record batch_order (phases : list TwoQueuePhase) (T : nat) (headers : nat → nat → nat → nat → option HeaderPolicy)
    (closing : Packet → Prop) (policy last : HeaderPolicy) (final : Z) (pushes : list push) (place : nat → nat → nat → nat → nat) : Prop := {
  bt_kernel t p l i d : dispatch_at phases T t p l i d → ∃ completion header x, headers t p l i = Some header ∧
    pushes !! place t p l i = Some x ∧ kernel_spec l d completion header x;
  bt_only n l k : pushes !! n = Some (l, KernelPacket k) → ∃ t p i d, dispatch_at phases T t p l i d ∧ n = place t p l i;
  bt_increasing t p l i i' : i < i' → place t p l i < place t p l i';
  bt_once t p l i d t' p' l' i' d' : dispatch_at phases T t p l i d → dispatch_at phases T t' p' l' i' d' →
    place t p l i = place t' p' l' i' → t = t' ∧ p = p' ∧ l = l' ∧ i = i';
  bt_final n l x : pushes !! n = Some (l, x) → packet_completion x = final ↔ S n = length pushes;
  bt_images : Forall (λ x : push, x.1 < 2 ∧ image_ok (packet_image x.2)) pushes;
  bt_runnable : runnable pushes;
  bt_phases start stop t p l i d t' p' l' i' d' : aql_execution pushes start stop →
    dispatch_at phases T t p l i d → dispatch_at phases T t' p' l' i' d' → t < t' ∨ t = t' ∧ p < p' →
    (stop (place t p l i) ≤ start (place t' p' l' i'))%Z;
  bt_queue start stop t p l i i' d d' header : aql_execution pushes start stop →
    dispatch_at phases T t p l i d → dispatch_at phases T t p l i' d' → i < i' → headers t p l i' = Some header →
    policy_barrier header = true → (stop (place t p l i) ≤ start (place t p l i'))%Z;
  bt_end start stop t p l i d : aql_execution pushes start stop → dispatch_at phases T t p l i d →
    (stop (place t p l i) ≤ stop (length pushes - 1)%nat)%Z;
  bt_between t p l i d t' p' l' i' d' : dispatch_at phases T t p l i d → dispatch_at phases T t' p' l' i' d' →
    t < t' ∨ t = t' ∧ p < p' → ∃ m c n q, pushes !! m = Some (l, c) ∧ closing c ∧
      pushes !! n = Some (l', BarrierPacket q) ∧ header_states (header_of (BarrierPacket q)) PACKET_TYPE_BARRIER_AND policy ∧
      ∀ start stop, aql_execution pushes start stop → (m = place t p l i ∨ stop (place t p l i) ≤ start m)%Z ∧
        (stop m ≤ stop n)%Z ∧ (stop n ≤ start (place t' p' l' i'))%Z;
  bt_last : ∃ q, pushes !! (length pushes - 1) = Some (0, BarrierPacket q) ∧
    header_states (header_of (BarrierPacket q)) PACKET_TYPE_BARRIER_AND last }.

(** The tokens and phases in the order of the loops. *)
Definition steps (phases : list TwoQueuePhase) (T : nat) : list (nat * (nat * TwoQueuePhase)) :=
  t ← seq 0 T; pair t <$> enumerate phases.

Lemma lookup_enumerate {A} (l : list A) i : enumerate l !! i = pair i <$> l !! i.
Proof. unfold enumerate. by rewrite list_lookup_imap. Qed.

Lemma steps_lookup phases T t p : t < T → p < length phases →
  steps phases T !! (t * length phases + p) = (λ phase, (t, (p, phase))) <$> phases !! p.
Proof.
  intros Ht Hp. unfold steps. rewrite bind_seq_lookup; [|intros; by rewrite length_fmap, length_enumerate|done|done].
  rewrite list_lookup_fmap, lookup_enumerate. by destruct (phases !! p).
Qed.

Lemma length_steps phases T : length (steps phases T) = T * length phases.
Proof.
  unfold steps. generalize 0 as a. induction T as [|T IH]; intros a; [done|]. cbn. rewrite length_app, length_fmap, length_enumerate.
  by rewrite (IH (S a)).
Qed.

Lemma steps_inv phases T g x : steps phases T !! g = Some x → ∃ t p phase,
  x = (t, (p, phase)) ∧ t < T ∧ p < length phases ∧ phases !! p = Some phase ∧ g = t * length phases + p.
Proof.
  intros Hg. pose proof (lookup_lt_Some _ _ _ Hg) as Hlt. rewrite length_steps in Hlt.
  destruct (decide (length phases = 0)) as [He|HP]; [lia|].
  pose proof (Nat.div_mod_eq g (length phases)) as Hdm. pose proof (Nat.mod_upper_bound g _ HP) as Hp.
  assert (g / length phases < T) as Ht by (apply Nat.Div0.div_lt_upper_bound; lia).
  replace g with (g / length phases * length phases + g mod length phases) in Hg by lia.
  rewrite steps_lookup in Hg by done. destruct (phases !! (g mod length phases)) as [phase|] eqn:E; [|done].
  injection Hg as <-. exists (g / length phases), (g mod length phases), phase. repeat (split; [done|]). lia.
Qed.

Section batch.
Context (sig : nat → nat → Z) (other : Z → Prop) (closing : Packet → Prop) (final : Z) (policy : HeaderPolicy).
Context (headers : nat → nat → nat → nat → option HeaderPolicy) (extra : nat).
Context (phases : list TwoQueuePhase) (T : nat).
Local Abbreviation P := (length phases).
Local Abbreviation G := (T * P).
Context (Hzero : other 0%Z) (Hother : ∀ g l, g < G → l < 2 → ¬ other (sig g l)).
Context (Hinj : ∀ g l g' l', g < G → l < 2 → g' < G → l' < 2 → sig g l = sig g' l' → g = g' ∧ l = l').
Context (Hnz : ∀ g l, g < G → l < 2 → sig g l ≠ 0%Z) (HG0 : G ≠ 0).
Context (Hfinal : ¬ other final) (Hfsig : ∀ g l, g < G → l < 2 → sig g l ≠ final).

(** The kernels of one queue in a phase. *)
Record lane_kernels (t p l : nat) (ds : list RecordedDispatch) (pre : list push) (c : Packet) : Prop := {
  lk_count : S (length pre) = length ds + extra;
  lk_kernel i d : ds !! i = Some d → ∃ completion header x, headers t p l i = Some header ∧
    (pre ++ [(l, c)]) !! i = Some x ∧ kernel_spec l d completion header x;
  lk_only i k : (pre ++ [(l, c)]) !! i = Some (l, KernelPacket k) → i < length ds }.

Definition phase_block (step : nat * (nat * TwoQueuePhase)) (b : list push) : Prop :=
  let '(t, (p, phase)) := step in
  ∃ bnd pre0 c0 pre1 c1, b = bnd ++ (pre0 ++ [(0, c0)]) ++ (pre1 ++ [(1, c1)]) ∧
    boundary_ok sig policy (t * P + p) bnd ∧ segment sig other closing (t * P + p) 0 pre0 c0 ∧ segment sig other closing (t * P + p) 1 pre1 c1 ∧
    lane_kernels t p 0 (lane_zero phase) pre0 c0 ∧ lane_kernels t p 1 (lane_one phase) pre1 c1.

Context (bs : list (list push)) (Hbs : Forall2 phase_block (steps phases T) bs).
Context (terminal : push) (tp : HeaderPolicy).
Context (Hterminal : barrier_spec 0 [sig (G - 1) 0; sig (G - 1) 1] final tp terminal).

Local Abbreviation pushes := (concat bs ++ [terminal]).

(** The position of a queue's packets in the block of a phase, and in the batch. *)
Definition in_block (t p l : nat) : nat :=
  match t * P + p with O => 0 | _ => 2 end +
  match l with O => 0 | _ => match phases !! p with Some phase => length (lane_zero phase) + extra | None => 0 end end.
Definition place (t p l i : nat) : nat := block_offset bs (t * P + p) + (in_block t p l + i).

Lemma batch_blocks : length bs = G.
Proof using Hbs. apply Forall2_length in Hbs. by rewrite <- Hbs, length_steps. Qed.

Lemma batch_block t p phase : t < T → phases !! p = Some phase → ∃ b, bs !! (t * P + p) = Some b ∧ phase_block (t, (p, phase)) b.
Proof using Hbs.
  intros Ht Hp. eapply Forall2_lookup_l; [exact Hbs|]. rewrite steps_lookup by (by try eapply lookup_lt_Some). by rewrite Hp.
Qed.

Lemma batch_block_ok g b : bs !! g = Some b → block_ok sig other g b.
Proof using Hbs Hzero Hother.
  intros Hg. destruct (Forall2_lookup_r _ _ _ _ _ Hbs Hg) as (x & Hx & Hb).
  destruct (steps_inv _ _ _ _ Hx) as (t & p & phase & -> & Ht & Hp & Hph & ->).
  destruct Hb as (bnd & pre0 & c0 & pre1 & c1 & -> & Hbnd & H0 & H1 & _). eapply shape_block_ok; [done| |done..].
  intros l Hl. apply Hother; [|done]. apply lookup_lt_Some in Hg. by rewrite batch_blocks in Hg.
Qed.

(** The other signals, with the final one. *)
Definition other_final (s : Z) : Prop := other s ∨ s = final.

Lemma block_ok_mono g b : block_ok sig other g b → block_ok sig other_final g b.
Proof using Type.
  intros [H1 H2 H3 H4 H5]. split; [done| |done| |done].
  - intros j l x Hj. destruct (H2 j l x Hj); [left; by left|by right].
  - intros l Hl Hg. destruct (H4 l Hl Hg) as (m & p & Hm & Ho & Hr). exists m, p. split; [done|]. split; [by left|done].
Qed.

Lemma lane_start_in_block t p phase bnd pre0 c0 l : phases !! p = Some phase → boundary_ok sig policy (t * P + p) bnd →
  lane_kernels t p 0 (lane_zero phase) pre0 c0 → l < 2 → lane_start bnd pre0 l = in_block t p l.
Proof using Type.
  clear HG0. intros Hp Hb Hk Hl. pose proof (lk_count _ _ _ _ _ _ Hk) as Hc. unfold lane_start, in_block. rewrite Hp.
  assert (length bnd = match t * P + p with O => 0 | _ => 2 end) as ->.
  { destruct (t * P + p); cbn in Hb; [by rewrite Hb|]. by apply Forall2_length in Hb. }
  destruct l; lia.
Qed.

(** The packet of a dispatch in the block of its phase. *)
Lemma block_kernel t p phase b l i d : phases !! p = Some phase → phase_block (t, (p, phase)) b → l < 2 →
  at_lane (lane_zero phase, lane_one phase) l !! i = Some d → ∃ completion header x, headers t p l i = Some header ∧
    b !! (in_block t p l + i) = Some x ∧ kernel_spec l d completion header x.
Proof using Type.
  clear HG0. intros Hp (bnd & pre0 & c0 & pre1 & c1 & -> & Hbnd & H0 & H1 & K0 & K1) Hl Hd.
  rewrite <- (lane_start_in_block t p phase bnd pre0 c0 l) by done.
  assert (lane_kernels t p l (at_lane (lane_zero phase, lane_one phase) l) (at_lane (pre0, pre1) l) (at_lane (c0, c1) l)) as K
    by (destruct l as [|[|?]]; [done..|lia]).
  destruct (lk_kernel _ _ _ _ _ _ K i d Hd) as (completion & header & x & Hh & Hx & Hs). exists completion, header, x.
  split; [done|]. split; [|done]. by apply packet_block_at.
Qed.

Lemma block_kernel_only t p phase b j l k : phases !! p = Some phase → phase_block (t, (p, phase)) b →
  b !! j = Some (l, KernelPacket k) → l < 2 ∧ ∃ i d, j = in_block t p l + i ∧ at_lane (lane_zero phase, lane_one phase) l !! i = Some d.
Proof using Type.
  clear HG0. intros Hp (bnd & pre0 & c0 & pre1 & c1 & -> & Hbnd & H0 & H1 & K0 & K1) Hj.
  destruct (block_inv sig other closing policy _ bnd pre0 pre1 c0 c1 Hbnd H0 H1 _ _ _ Hj) as [Hl Hcase]. split; [done|].
  assert (lane_kernels t p l (at_lane (lane_zero phase, lane_one phase) l) (at_lane (pre0, pre1) l) (at_lane (c0, c1) l)) as K
    by (destruct l as [|[|?]]; [done..|lia]).
  rewrite <- (lane_start_in_block t p phase bnd pre0 c0 l) by done.
  assert (∃ i, j = lane_start bnd pre0 l + i ∧ (at_lane (pre0, pre1) l ++ [(l, at_lane (c0, c1) l)]) !! i = Some (l, KernelPacket k)) as (i & -> & Hi).
  { destruct Hcase as [Hb|[(i & k' & -> & Hi & Hlt & _)|[-> Hc]]].
    - destruct (boundary_inv _ _ _ _ _ _ _ Hbnd Hb) as (_ & _ & _ & q & ? & _). done.
    - exists i. split; [done|]. by rewrite lookup_app_l.
    - exists (length (at_lane (pre0, pre1) l)). split; [done|]. rewrite lookup_app_r by done. by rewrite Nat.sub_diag, <- Hc. }
  destruct (lookup_lt_is_Some_2 (at_lane (lane_zero phase, lane_one phase) l) i) as [d Hd]; [by eapply (lk_only _ _ _ _ _ _ K)|]. eauto.
Qed.

(** The packet that closes a queue's part of a phase. *)
Lemma block_closing t p phase b l : phases !! p = Some phase → phase_block (t, (p, phase)) b → l < 2 →
  ∃ k c, b !! k = Some (l, c) ∧ packet_completion c = sig (t * P + p) l ∧ packet_barrier c = true ∧ closing c ∧
    ∀ i d, at_lane (lane_zero phase, lane_one phase) l !! i = Some d → in_block t p l + i ≤ k.
Proof using Type.
  clear HG0. intros Hp (bnd & pre0 & c0 & pre1 & c1 & -> & Hbnd & H0 & H1 & K0 & K1) Hl.
  pose proof (segment_lane sig other closing _ pre0 pre1 c0 c1 H0 H1 l Hl) as Hs.
  assert (lane_kernels t p l (at_lane (lane_zero phase, lane_one phase) l) (at_lane (pre0, pre1) l) (at_lane (c0, c1) l)) as K
    by (destruct l as [|[|?]]; [done..|lia]).
  eexists _, _. split; [by apply (packet_block_close bnd pre0 pre1 c0 c1 l)|].
  rewrite (lane_start_in_block t p phase bnd pre0 c0 l) by done. destruct Hs. repeat (split; [done|]).
  intros i d Hd. apply lookup_lt_Some in Hd. pose proof (lk_count _ _ _ _ _ _ K). unfold push in *. lia.
Qed.

(** The barrier in front of it. *)
Lemma block_opening t p phase b l : phases !! p = Some phase → phase_block (t, (p, phase)) b → l < 2 → 0 < t * P + p →
  ∃ m q, b !! m = Some (l, BarrierPacket q) ∧ header_states (header_of (BarrierPacket q)) PACKET_TYPE_BARRIER_AND policy ∧
    (∀ l', l' < 2 → sig (t * P + p - 1) l' ∈ bap_dependency_signals q) ∧ ∀ i, m < in_block t p l + i.
Proof using Type.
  clear HG0. intros Hp (bnd & pre0 & c0 & pre1 & c1 & -> & Hbnd & H0 & H1 & K0 & K1) Hl Hg.
  destruct (boundary_open _ _ _ _ l Hbnd Hg Hl) as (x & Hx & q & [= ->] & [_ Hh] & _ & _ & _ & Hd). exists l, q.
  split; [rewrite lookup_app_l by (by eapply lookup_lt_Some); done|]. split; [done|]. split.
  - intros l' Hl'. apply Hd. destruct l' as [|[|?]]; [left|right; left|lia].
  - intros i. unfold in_block. destruct (t * P + p); [lia|]. destruct l; lia.
Qed.

Lemma batch_terminal : ∃ p, terminal = (0, BarrierPacket p) ∧ other_final (packet_completion (BarrierPacket p)) ∧
  (∀ s, s ∈ bap_dependency_signals p → s = 0%Z ∨ ∃ l, l < 2 ∧ s = sig (G - 1) l) ∧
  ∀ l, l < 2 → sig (G - 1) l ∈ bap_dependency_signals p.
Proof using Hterminal HG0.
  destruct Hterminal as (p & -> & _ & Hc & _ & Hsub & Hin). exists p. split; [done|]. split; [by right|]. split.
  - intros s Hs. destruct (Hsub s Hs) as [H|H]; [right|by left]. apply list_elem_of_In in H as [<-|[<-|[]]]; [exists 0|exists 1]; auto with lia.
  - intros l Hl. apply Hin. destruct l as [|[|?]]; [left|right; left|lia].
Qed.

Lemma batch_dispatch t p l i d : dispatch_at phases T t p l i d → ∃ b completion header x,
  bs !! (t * P + p) = Some b ∧ headers t p l i = Some header ∧ b !! (in_block t p l + i) = Some x ∧ kernel_spec l d completion header x.
Proof using Hbs.
  intros (Ht & Hl & phase & Hp & Hd). destruct (batch_block t p phase Ht Hp) as (b & Hb & Hpb).
  destruct (block_kernel t p phase b l i d Hp Hpb Hl Hd) as (completion & header & x & Hr). exists b, completion, header, x. done.
Qed.

Lemma kernel_not_opening l d completion header b j x : b !! j = Some x → kernel_spec l d completion header x → ¬ opening b j.
Proof using Type. intros Hj (p & -> & _) (l' & q & Hq & _). by pose proof (eq_trans (eq_sym Hj) Hq). Qed.

Lemma batch_images : Forall (λ x : push, x.1 < 2 ∧ image_ok (packet_image x.2)) (concat bs ++ [terminal]).
Proof using Hbs Hterminal Hzero Hother.
  clear HG0. apply Forall_app. split.
  - apply Forall_concat, Forall_lookup_2. intros g b Hg. apply Forall_lookup_2. intros j [l x] Hj.
    split; [by eapply (bo_lane _ _ _ _ (batch_block_ok g b Hg))|]. destruct (Forall2_lookup_r _ _ _ _ _ Hbs Hg) as (y & Hy & Hpb).
    destruct (steps_inv _ _ _ _ Hy) as (t & p & phase & -> & _).
    destruct Hpb as (bnd & pre0 & c0 & pre1 & c1 & -> & Hbnd & H0 & H1 & _).
    apply list_elem_of_lookup_2 in Hj. rewrite !elem_of_app in Hj. destruct Hj as [Hj|Hj].
    + apply list_elem_of_lookup_1 in Hj as [j' Hj]. destruct (boundary_inv _ _ _ _ _ _ _ Hbnd Hj) as (_ & _ & _ & q & [= ->] & _ & _ & Hi & _). exact Hi.
    + rewrite <- !elem_of_app in Hj. apply elem_of_app in Hj as [Hj|Hj];
        [exact (proj1 (Forall_forall _ _) (sg_images _ _ _ _ _ _ _ H0) _ Hj)|exact (proj1 (Forall_forall _ _) (sg_images _ _ _ _ _ _ _ H1) _ Hj)].
  - constructor; [|done]. destruct Hterminal as (q & -> & _ & _ & Hi & _). split; [cbn; lia|exact Hi].
Qed.

Lemma place_once t p l i d t' p' l' i' d' : dispatch_at phases T t p l i d → dispatch_at phases T t' p' l' i' d' →
  place t p l i = place t' p' l' i' → t = t' ∧ p = p' ∧ l = l' ∧ i = i'.
Proof using Hbs.
  clear HG0. intros Hd Hd' He. destruct (batch_dispatch _ _ _ _ _ Hd) as (b & c & h & x & Hb & _ & Hx & Hs).
  destruct (batch_dispatch _ _ _ _ _ Hd') as (b' & c' & h' & x' & Hb' & _ & Hx' & Hs').
  pose proof (at_lt bs (t * P + p) b _ (t' * P + p') (in_block t' p' l' + i') Hb (lookup_lt_Some _ _ _ Hx)) as H1.
  pose proof (at_lt bs (t' * P + p') b' _ (t * P + p) (in_block t p l + i) Hb' (lookup_lt_Some _ _ _ Hx')) as H2.
  unfold place in He. assert (t * P + p = t' * P + p') as Hg.
  { destruct (Nat.lt_trichotomy (t * P + p) (t' * P + p')) as [Hlt|[?|Hlt]]; [specialize (H1 Hlt); lia|done|specialize (H2 Hlt); lia]. }
  destruct Hd as (_ & _ & ph & Hp & _), Hd' as (_ & _ & ph' & Hp' & _). apply lookup_lt_Some in Hp, Hp'.
  assert (t = t') as <-.
  { destruct (Nat.lt_trichotomy t t') as [Hlt|[?|Hlt]]; [|done|]; exfalso; [|symmetry in Hg];
      pose proof (Nat.mul_le_mono_r _ _ P Hlt) as Hm; cbn in Hm; lia. }
  assert (p = p') as <- by lia. rewrite Hb in Hb'. injection Hb' as <-.
  assert (in_block t p l + i = in_block t p l' + i') as Hj by lia. rewrite <- Hj, Hx in Hx'.
  injection Hx' as <-. destruct Hs as (k & -> & _), Hs' as (k' & [= <- _] & _). split; [done|]. split; [done|]. split; [done|]. lia.
Qed.

Lemma built_between t p l i d t' p' l' i' d' : dispatch_at phases T t p l i d → dispatch_at phases T t' p' l' i' d' →
  t < t' ∨ t = t' ∧ p < p' → ∃ m c n q, pushes !! m = Some (l, c) ∧ closing c ∧
    pushes !! n = Some (l', BarrierPacket q) ∧ header_states (header_of (BarrierPacket q)) PACKET_TYPE_BARRIER_AND policy ∧
    ∀ start stop, aql_execution pushes start stop → (m = place t p l i ∨ stop (place t p l i) ≤ start m)%Z ∧
      (stop m ≤ stop n)%Z ∧ (stop n ≤ start (place t' p' l' i'))%Z.
Proof using Hterminal Hbs Hfsig Hfinal HG0 Hnz Hinj Hother Hzero.
  intros (Ht & Hl & ph & Hp & Hd) (Ht' & Hl' & ph' & Hp' & Hd') Hlt.
  destruct (batch_block t p ph Ht Hp) as (b & Hb & Hpb), (batch_block t' p' ph' Ht' Hp') as (b' & Hb' & Hpb').
  assert (t * P + p < t' * P + p') as Hg by (pose proof (lookup_lt_Some _ _ _ Hp); destruct Hlt as [?|[-> ?]]; nia).
  destruct (block_closing t p ph b l Hp Hpb Hl) as (k & c & Hk & Hsig & Hbar & Hclo & Hle).
  destruct (block_opening t' p' ph' b' l' Hp' Hpb' Hl' ltac:(lia)) as (m & q & Hm & Hq & Hdeps & Hmi).
  destruct (block_kernel t p ph b l i d Hp Hpb Hl Hd) as (? & ? & x & _ & Hx & y & -> & _).
  destruct (block_kernel t' p' ph' b' l' i' d' Hp' Hpb' Hl' Hd') as (? & ? & x' & _ & Hx' & y' & -> & _).
  pose proof (at_lookup bs terminal _ _ _ _ Hb Hk) as Pk. pose proof (at_lookup bs terminal _ _ _ _ Hb' Hm) as Pm.
  pose proof (at_lookup bs terminal _ _ _ _ Hb Hx) as Px. pose proof (at_lookup bs terminal _ _ _ _ Hb' Hx') as Px'.
  eexists _, c, _, q. split; [exact Pk|]. split; [done|]. split; [exact Pm|]. split; [done|]. intros start stop Hex. split; [|split].
  - specialize (Hle i d Hd). destruct (decide (k = in_block t p l + i)) as [->|Hne]; [by left|right].
    eapply (ax_barrier_bit _ _ _ Hex); [|exact Px|exact Pk|done]. unfold place. lia.
  - eapply (close_before_open sig other_final G); [..|exact Hb|exact Hb'|exact Hl|exact Hk|exact Hsig|exact Hm|exact Hdeps];
      [|exact Hinj|exact Hnz|exact HG0|apply batch_blocks| |apply batch_terminal|exact Hex|exact Hg].
    + intros g l0 H1 H2 [Ho|Ho]; [by eapply Hother|by eapply Hfsig].
    + intros g b0 H0. by apply block_ok_mono, batch_block_ok.
  - specialize (Hmi i'). eapply (ax_barrier_and _ _ _ Hex); [|exact Pm|exact Px']. unfold place. lia.
Qed.

Lemma built_order : batch_order phases T headers closing policy tp final pushes place.
Proof using Hterminal Hbs Hfsig Hfinal HG0 Hnz Hinj Hother Hzero.
  assert (∀ g l, g < G → l < 2 → ¬ other_final (sig g l)) as Hother'.
  { intros g l Hg Hl [Ho|Ho]; [by eapply Hother|by eapply Hfsig]. }
  assert (∀ g b, bs !! g = Some b → block_ok sig other_final g b) as Hok by (intros g b Hg; by apply block_ok_mono, batch_block_ok).
  split.
  - intros t p l i d Hd. destruct (batch_dispatch t p l i d Hd) as (b & completion & header & x & Hb & Hh & Hx & Hs).
    exists completion, header, x. split; [done|]. split; [|done]. by eapply at_lookup.
  - intros n l k Hn. apply lookup_app_Some in Hn as [Hn|[_ Hn]].
    + destruct (at_inv bs n _ Hn) as (g & b & j & Hg & Hj & ->). destruct (Forall2_lookup_r _ _ _ _ _ Hbs Hg) as (x & Hx & Hpb).
      destruct (steps_inv _ _ _ _ Hx) as (t & p & phase & -> & Ht & Hp & Hph & ->).
      destruct (block_kernel_only t p phase b j l k Hph Hpb Hj) as (Hl & i & d & -> & Hd). exists t, p, i, d.
      split; [|done]. split; [done|]. split; [done|]. eauto.
    + destruct Hterminal as (q & -> & _). by apply list_lookup_singleton_Some in Hn as [_ ?].
  - intros t p l i i' Hi. unfold place. lia.
  - apply place_once.
  - intros n l x Hn. rewrite length_app. cbn [length]. apply lookup_app_Some in Hn as [Hn|[Hge Hn]].
    + split; [|apply lookup_lt_Some in Hn; unfold push in *; lia]. intros Hx. exfalso. destruct (at_inv bs n _ Hn) as (g & b & j & Hg & Hj & ->).
      pose proof (batch_block_ok g b Hg) as Hb. pose proof (lookup_lt_Some _ _ _ Hg) as Hlt. rewrite batch_blocks in Hlt.
      destruct (bo_signal _ _ _ _ Hb j l x Hj) as [Ho|Hs]; [by rewrite Hx in Ho|]. eapply (Hfsig g l); [done|by eapply bo_lane|congruence].
    + pose proof Hn as Hn'. destruct Hterminal as (q & Hq & _ & Hc & _). rewrite Hq in Hn. apply list_lookup_singleton_Some in Hn as [He [= _ <-]].
      split; [intros _; unfold push in *; lia|done].
  - apply batch_images.
  - eapply phases_runnable; [exact HG0|apply batch_blocks|exact Hok|apply batch_terminal].
  - intros start stop t p l i d t' p' l' i' d' Hex Hd Hd' Hlt.
    destruct (batch_dispatch _ _ _ _ _ Hd) as (b & c & h & x & Hb & _ & Hx & Hs).
    destruct (batch_dispatch _ _ _ _ _ Hd') as (b' & c' & h' & x' & Hb' & _ & Hx' & Hs').
    eapply (phase_order sig other_final G); [exact Hother'|exact Hinj|exact Hnz|exact HG0|apply batch_blocks|exact Hok|apply batch_terminal|exact Hex| |exact Hb|exact Hb'|exact Hx|exact Hx'|].
    + destruct Hd as (_ & _ & ? & Hp & _). apply lookup_lt_Some in Hp. destruct Hlt as [?|[-> ?]]; nia.
    + by eapply kernel_not_opening.
  - intros start stop t p l i i' d d' header Hex Hd Hd' Hi Hh Hbar.
    destruct (batch_dispatch _ _ _ _ _ Hd) as (b & c & h & x & Hb & _ & Hx & Hs).
    destruct (batch_dispatch _ _ _ _ _ Hd') as (b' & c' & h' & x' & Hb' & Hh' & Hx' & Hs').
    rewrite Hh in Hh'. injection Hh' as <-. destruct Hs as (k & -> & _), Hs' as (k' & -> & Hk' & _).
    eapply ax_barrier_bit; [exact Hex| |eapply at_lookup; [exact Hb|exact Hx]|eapply at_lookup; [exact Hb'|exact Hx']|congruence].
    unfold place. lia.
  - intros start stop t p l i d Hex Hd. destruct (batch_dispatch _ _ _ _ _ Hd) as (b & c & h & x & Hb & _ & Hx & Hs).
    eapply (terminal_order sig other_final G); [exact Hother'|exact Hinj|exact Hnz|exact HG0|apply batch_blocks|exact Hok|apply batch_terminal|exact Hex|exact Hb|exact Hx].
  - apply built_between.
  - destruct Hterminal as (q & -> & [_ Hq] & _). exists q. split; [|done].
    rewrite length_app. cbn [length]. rewrite Nat.add_sub, lookup_app_r by done. by rewrite Nat.sub_diag.
Qed.
End batch.

(** ** The two constructions *)

(** Signals in use at the same time have different handles. *)
Definition distinct_signals (signals : nat → SignalCreation) : Prop := ∀ j k raw,
  signals j = SignalCreated raw → signals k = SignalCreated raw → j = k.

Section constructions.
Context (gpu : AgentInfo) (queue_outcomes : nat → QueueCreation) (signals : nat → SignalCreation).
Context (Hdist : distinct_signals signals).

Lemma handle_inj j k : handle signals j = handle signals k → handle signals j ≠ 0%Z → j = k.
Proof using Hdist. unfold handle. destruct (signals j) eqn:Ej, (signals k) eqn:Ek; intros; [done..|]. eapply Hdist; [done|congruence]. Qed.

(** The signal of a phase on a queue. *)
Definition tail_of (base g l : nat) : Z := at_lane (tail_pair signals base g) l.

Lemma tail_of_handle base g l : l < 2 → tail_of base g l = handle signals (base + g * 2 + l).
Proof using Type. intros Hl. destruct l as [|[|?]]; [|done|lia]. unfold tail_of, tail_pair. cbn. by rewrite Nat.add_0_r. Qed.

Lemma dependency_pushes_Ok policy previous bnd : dependency_pushes policy previous = Ok bnd →
  Forall2 (λ lane, barrier_spec lane [previous.1; previous.2] 0 policy) [0; 1] bnd.
Proof using Type. intros H. apply try_map_Ok in H. eapply Forall2_impl; [exact H|]. intros lane x. apply barrier_Ok. Qed.

Section tails.
Context (base T P : nat) (tails : list (list (Z * Z))) (Htails : tails_ok signals base T P tails).

Lemma tails_nonzero g l : g < T * P → l < 2 → tail_of base g l ≠ 0%Z.
Proof using Htails.
  intros Hg Hl. destruct (ta_nonzero _ _ _ _ _ Htails g Hg) as [H0 H1]. rewrite tail_of_handle by done.
  destruct l as [|[|?]]; [by rewrite Nat.add_0_r|done|lia].
Qed.

Lemma tails_inj g l g' l' : g < T * P → l < 2 → g' < T * P → l' < 2 → tail_of base g l = tail_of base g' l' → g = g' ∧ l = l'.
Proof using Htails Hdist.
  intros Hg Hl Hg' Hl' H. pose proof (tails_nonzero g l Hg Hl) as Hn. rewrite !tail_of_handle in H by done.
  rewrite tail_of_handle in Hn by done. apply handle_inj in H; [lia|done].
Qed.

Lemma index_tail t p token (x : Z * Z) : t < T → p < P → index (E := ReplayError) tails t = Ok token →
  index (E := ReplayError) token p = Ok x → x = tail_pair signals base (t * P + p).
Proof using Htails.
  intros Ht Hp Htok Hx. apply index_Ok in Htok, Hx. destruct (ta_token _ _ _ _ _ Htails t Ht) as (token' & Ht' & _ & Hall).
  rewrite Htok in Ht'. injection Ht' as <-. specialize (Hall p Hp). congruence.
Qed.

Lemma last_tail t token (x : Z * Z) : t < T → 0 < P → tails !! t = Some token → last token = Some x →
  x = tail_pair signals base (t * P + (P - 1)).
Proof using Htails.
  intros Ht HP Htok Hx. destruct (ta_token _ _ _ _ _ Htails t Ht) as (token' & Ht' & Hlen & Hall).
  rewrite Htok in Ht'. injection Ht' as <-. rewrite last_lookup, Hlen in Hx. specialize (Hall (P - 1)).
  replace (pred P) with (P - 1) in Hx by lia. rewrite Hall in Hx by lia. congruence.
Qed.

Lemma boundary_pushes_Ok policy t p bnd : t < T → p < P → boundary_pushes policy tails t p = Ok bnd →
  boundary_ok (tail_of base) policy (t * P + p) bnd.
Proof using Htails.
  intros Ht Hp. unfold boundary_pushes. case_bool_decide as Hp0; [case_bool_decide as Ht0|].
  - intros [= <-]. subst. by rewrite Nat.mul_0_l.
  - intros H. apply bind_Ok in H as (token & Htok & H). apply bind_Ok in H as (prev & Hprev & H).
    apply index_Ok in Htok. apply expect_Ok in Hprev. apply (last_tail (t - 1)) in Hprev; [|lia|lia|done].
    apply dependency_pushes_Ok in H. assert (t * P + p = S ((t - 1) * P + (P - 1))) as -> by nia. cbn [boundary_ok].
    unfold tail_of. by rewrite Hprev in H.
  - intros H. apply bind_Ok in H as (token & Htok & H). apply bind_Ok in H as (prev & Hprev & H).
    pose proof (index_tail t (p - 1) token prev Ht ltac:(lia) Htok Hprev) as ->.
    apply dependency_pushes_Ok in H. assert (t * P + p = S (t * P + (p - 1))) as -> by lia. cbn [boundary_ok]. done.
Qed.

(** *** Serialized *)

(** A queue's part of a phase ends with its last kernel. *)
Definition serial_closing (c : Packet) : Prop := ∃ k, c = KernelPacket k.

Definition serial_headers (t p l i : nat) : option HeaderPolicy := Some TWO_QUEUE_DISPATCH.

Lemma serial_lane t p g l ds ks : l < 2 → ds ≠ [] →
  try_map (λ '(i, d), kernel_push l d (tail_completion (tail_of base g l) (length ds) i) TWO_QUEUE_DISPATCH) (enumerate ds) = Ok ks →
  ∃ pre c, ks = pre ++ [(l, c)] ∧ segment (tail_of base) (λ s, s = 0%Z) serial_closing g l pre c ∧ lane_kernels serial_headers 0 t p l ds pre c.
Proof using Type.
  intros Hl Hne H. apply try_map_Ok in H.
  assert (length ks = length ds) as Hlen by (apply Forall2_length in H; by rewrite length_enumerate in H).
  assert (∀ i x, ks !! i = Some x → ∃ d, ds !! i = Some d ∧
    kernel_spec l d (tail_completion (tail_of base g l) (length ds) i) TWO_QUEUE_DISPATCH x) as Hks.
  { intros i x Hi. destruct (Forall2_lookup_r _ _ _ _ _ H Hi) as ([i' d] & Hd & Hk). rewrite lookup_enumerate in Hd.
    destruct (ds !! i) as [d'|] eqn:E; [|done]. injection Hd as <- <-. exists d'. split; [done|]. by apply kernel_push_Ok. }
  destruct ks as [|x0 ks0 _] using rev_ind; [destruct ds; [done|cbn in Hlen; lia]|]. rewrite length_app in Hlen. cbn in Hlen.
  destruct (Hks (length ks0) x0) as (d0 & Hd0 & k0 & -> & Hb0 & Hc0 & _); [rewrite lookup_app_r by done; by rewrite Nat.sub_diag|].
  exists ks0, (KernelPacket k0). split; [done|]. split; [split|split].
  - apply Forall_lookup_2. intros i x Hi. destruct (Hks i x) as (d & Hd & k & -> & _ & Hc & _); [by apply lookup_app_l_Some|].
    exists k. split; [done|]. rewrite Hc. unfold tail_completion. apply lookup_lt_Some in Hi. unfold push in *. case_bool_decide; [lia|done].
  - cbn. rewrite Hc0. unfold tail_completion. unfold push in *. case_bool_decide; [done|lia].
  - by exists k0.
  - exact Hb0.
  - done.
  - apply Forall_lookup_2. intros i x Hi. destruct (Hks i x Hi) as (d & _ & k & -> & _ & _ & Him & _). exact Him.
  - unfold push in *. lia.
  - intros i d Hd. destruct (lookup_lt_is_Some_2 (ks0 ++ [(l, KernelPacket k0)]) i) as [x Hx].
    { rewrite length_app. cbn. apply lookup_lt_Some in Hd. unfold push in *. lia. }
    destruct (Hks i x Hx) as (d' & Hd' & Hs). rewrite Hd in Hd'. injection Hd' as <-. eexists _, _, x. split; [done|]. split; [done|exact Hs].
  - intros i k Hi. apply lookup_lt_Some in Hi. rewrite length_app in Hi. cbn in Hi. unfold push in *. lia.
Qed.

Lemma serial_phase_Ok (phases : list TwoQueuePhase) t p phase b : P = length phases → t < T → phases !! p = Some phase →
  lane_zero phase ≠ [] → lane_one phase ≠ [] → serial_phase tails t (p, phase) = Ok b →
  phase_block (tail_of base) (λ s, s = 0%Z) serial_closing TWO_QUEUE_DEPENDENCY serial_headers 0 phases (t, (p, phase)) b.
Proof using Htails.
  intros HP Ht Hp H0 H1 H. assert (p < P) as HpP by (subst P; by eapply lookup_lt_Some). unfold serial_phase in H.
  apply bind_Ok in H as (bnd & Hbnd & H). apply bind_Ok in H as (token & Htok & H). apply bind_Ok in H as (tail & Htail & H).
  apply bind_Ok in H as (kernels & Hk & H). apply Ok_inj in H as <-.
  apply (boundary_pushes_Ok _ t p) in Hbnd; [|done|done]. apply (index_tail t p token) in Htail; [|done..]. subst tail.
  apply try_map_Ok in Hk. apply Forall2_cons_inv_l in Hk as (k0 & rest & Hk0 & Hk & ->).
  apply Forall2_cons_inv_l in Hk as (k1 & rest' & Hk1 & Hk & ->). apply Forall2_nil_inv_l in Hk as ->.
  apply (serial_lane t p (t * P + p) 0) in Hk0 as (pre0 & c0 & -> & S0 & K0); [|lia|done].
  apply (serial_lane t p (t * P + p) 1) in Hk1 as (pre1 & c1 & -> & S1 & K1); [|lia|done].
  exists bnd, pre0, c0, pre1, c1. cbn [concat]. rewrite app_nil_r, <- HP. done.
Qed.

(** *** Derived *)

(** A queue's part of a phase ends with a barrier that has the header of a lane
    consolidation. *)
Definition derived_closing (policy : HeaderPolicy) (c : Packet) : Prop :=
  ∃ q, c = BarrierPacket q ∧ header_states (header_of c) PACKET_TYPE_BARRIER_AND policy.

Definition derived_headers (policies : TwoQueueDerivedPolicies) (t p l i : nat) : option HeaderPolicy :=
  (if bool_decide (t = 0) then first_dispatches policies else repeated_dispatches policies) !! p ≫= λ h, at_lane h l !! i.

Section derived.
Context (policies : TwoQueueDerivedPolicies) (profiling : list Z).
Context (Hcons : policy_barrier (consolidation_policy policies) = true).

Definition profiled (s : Z) : Prop := s = 0%Z ∨ s ∈ profiling.

Lemma derived_dispatch_Ok pc t p l n headers state i d state' :
  derived_dispatch policies profiling pc T t p l n headers state (i, d) = Ok state' →
  ∃ x completion header, state'.1 = state.1 ++ [x] ∧ headers !! i = Some header ∧ profiled completion ∧ kernel_spec l d completion header x.
Proof using Type.
  unfold derived_dispatch. destruct state as [pushes idx]. intros H. apply bind_Ok in H as (u & _ & H).
  apply bind_Ok in H as (completion & Hc & H). apply bind_Ok in H as (header & Hh & H). apply bind_Ok in H as (x & Hx & H).
  apply Ok_inj in H as <-. exists x, completion, header. split; [done|]. apply index_Ok in Hh. split; [done|].
  split; [|by apply kernel_push_Ok]. unfold profiled.
  assert (∀ k, index (E := ReplayError) profiling k = Ok completion → completion = 0%Z ∨ completion ∈ profiling) as Hin.
  { intros k Hk. apply index_Ok in Hk. right. by eapply list_elem_of_lookup_2. }
  destruct (profile_all_dispatches policies); [by eapply Hin|].
  destruct (covers_batch policies && _); [by eapply Hin|].
  destruct (covers_batch policies && _); [by eapply Hin|]. injection Hc as <-. by left.
Qed.

Lemma derived_lane_Ok pc t p g tail headers state l ds state' : l < 2 → at_lane tail l = tail_of base g l →
  (if bool_decide (t = 0) then first_dispatches policies else repeated_dispatches policies) !! p = Some headers →
  derived_lane policies profiling pc T t p tail headers state (l, ds) = Ok state' →
  ∃ pre c, state'.1 = state.1 ++ (pre ++ [(l, c)]) ∧ segment (tail_of base) profiled (derived_closing (consolidation_policy policies)) g l pre c ∧
    lane_kernels (derived_headers policies) 1 t p l ds pre c.
Proof using Hcons.
  intros Hl Htail Hhead. unfold derived_lane. intros H. apply bind_Ok in H as (state1 & H1 & H). apply bind_Ok in H as (c & Hc & H).
  apply Ok_inj in H as <-.
  apply (try_fold_blocks _ (λ '(i, d) b, ∃ x completion header, b = [x] ∧ at_lane headers l !! i = Some header ∧ profiled completion ∧
    kernel_spec l d completion header x)) in H1 as (bs & Hbs & HR).
  2:{ intros s [i d] s' _ Hs. apply derived_dispatch_Ok in Hs as (x & completion & header & Hx & Hr). exists [x]. split; [done|].
      exists x, completion, header. done. }
  assert (∀ b, b ∈ bs → ∃ x, b = [x]) as Hone.
  { intros b [j Hj]%list_elem_of_lookup_1. destruct (Forall2_lookup_r _ _ _ _ _ HR Hj) as ([i d] & _ & x & ? & ? & -> & _). eauto. }
  assert (∃ pre : list push, bs = (λ x, [x]) <$> pre) as [pre ->].
  { clear - Hone. induction bs as [|b bs IH]; [by exists []|]. destruct (Hone b) as [x ->]; [left|].
    destruct IH as [pre ->]; [intros b Hb; apply Hone; by right|]. by exists (x :: pre). }
  rewrite (concat_singletons (λ x, x)), list_fmap_id in Hbs.
  assert (∀ i x, pre !! i = Some x → ∃ d completion header, ds !! i = Some d ∧ at_lane headers l !! i = Some header ∧
    profiled completion ∧ kernel_spec l d completion header x) as Hpre.
  { intros i x Hi. destruct (Forall2_lookup_r _ _ _ i [x] HR) as ([i' d] & Hd & y & completion & header & [= <-] & Hr).
    - by rewrite list_lookup_fmap, Hi.
    - rewrite lookup_enumerate in Hd. destruct (ds !! i) as [d'|]; [|done]. injection Hd as <- <-. eauto 10. }
  assert (length pre = length ds) as Hlen by (apply Forall2_length in HR; by rewrite length_enumerate, length_fmap in HR).
  apply barrier_Ok in Hc as (q & -> & [Hqb Hqh] & Hqc & Hqi & Hqd & _). exists pre, (BarrierPacket q). split; [cbn; by rewrite Hbs, app_assoc|].
  split; [split|split].
  - apply Forall_lookup_2. intros i x Hi. destruct (Hpre i x Hi) as (d & completion & header & _ & _ & Hp & k & -> & _ & Hk & _).
    exists k. split; [done|]. by rewrite Hk.
  - cbn. congruence.
  - by exists q.
  - congruence.
  - intros p' s [= <-] Hs. destruct (Hqd s Hs) as [Hin|?]; [by apply not_elem_of_nil in Hin|done].
  - apply Forall_app. split; [|by repeat constructor]. apply Forall_lookup_2. intros i x Hi.
    destruct (Hpre i x Hi) as (d & completion & header & _ & _ & _ & k & -> & _ & _ & Him & _). exact Him.
  - unfold push in *. lia.
  - intros i d Hd. destruct (lookup_lt_is_Some_2 pre i) as [x Hx]; [apply lookup_lt_Some in Hd; unfold push in *; lia|].
    destruct (Hpre i x Hx) as (d' & completion & header & Hd' & Hh & _ & Hk). rewrite Hd in Hd'. injection Hd' as <-.
    exists completion, header, x. split; [unfold derived_headers; by rewrite Hhead|]. split; [by apply lookup_app_l_Some|done].
  - intros i k Hi. apply lookup_app_Some in Hi as [Hi|[_ Hi]]; [apply lookup_lt_Some in Hi; unfold push in *; lia|].
    by apply list_lookup_singleton_Some in Hi as [_ ?].
Qed.

Lemma derived_phase_Ok (phases : list TwoQueuePhase) t p phase state state' : P = length phases → t < T → phases !! p = Some phase →
  derived_phase policies profiling P T tails t state (p, phase) = Ok state' → ∃ b, state'.1 = state.1 ++ b ∧
  phase_block (tail_of base) profiled (derived_closing (consolidation_policy policies)) (dependency_policy policies) (derived_headers policies) 1 phases (t, (p, phase)) b.
Proof using Htails Hcons.
  intros HP Ht Hp H. assert (p < P) as HpP by (subst P; by eapply lookup_lt_Some). unfold derived_phase in H.
  apply bind_Ok in H as (bnd & Hbnd & H). apply bind_Ok in H as (token & Htok & H). apply bind_Ok in H as (tail & Htail & H).
  apply bind_Ok in H as (headers & Hh & H). apply index_Ok in Hh.
  apply (boundary_pushes_Ok _ t p) in Hbnd; [|done|done]. apply (index_tail t p token) in Htail; [|done..].
  cbn [phase_lanes try_fold] in H. apply bind_Ok in H as (s1 & H1 & H). apply bind_Ok in H as (s2 & H2 & H). apply Ok_inj in H as <-.
  apply (derived_lane_Ok P t p (t * P + p)) in H1 as (pre0 & c0 & E1 & S0 & K0); [|lia|by rewrite Htail|done].
  apply (derived_lane_Ok P t p (t * P + p)) in H2 as (pre1 & c1 & E2 & S1 & K1); [|lia|by rewrite Htail|done].
  exists (bnd ++ (pre0 ++ [(0, c0)]) ++ (pre1 ++ [(1, c1)])). split; [rewrite E2, E1; cbn; by rewrite !app_assoc|].
  exists bnd, pre0, c0, pre1, c1. rewrite <- HP. done.
Qed.
End derived.
End tails.

(** The last tail of the batch. *)
Lemma final_tail base T P tails token x : tails_ok signals base T P tails → T ≠ 0 → P ≠ 0 →
  last tails = Some token → last token = Some x → [x.1; x.2] = [tail_of base (T * P - 1) 0; tail_of base (T * P - 1) 1].
Proof using Type.
  intros Htails HT HP Htok Hx. rewrite last_lookup, (ta_length _ _ _ _ _ Htails) in Htok.
  apply (last_tail base T P tails Htails (pred T)) in Hx; [|lia|lia|done]. rewrite Hx.
  replace (pred T * P + (P - 1)) with (T * P - 1) by nia. done.
Qed.

Lemma counts_tokens phases T counts : required_packet_counts phases T = Ok counts → T ≠ 0.
Proof using Type.
  unfold required_packet_counts, two_queue_serialized_batch_counts. intros H. apply bind_Ok in H as (u & _ & H).
  apply bind_Ok in H as (u' & H' & _). apply err_if_Ok in H'. to_prop. lia.
Qed.

(** A phase built by [TwoQueuePhase::new] has work on both queues. *)
Definition phase_built (phase : TwoQueuePhase) : Prop := ∃ zero one, TwoQueuePhase_new zero one = Ok phase.

Lemma phase_built_lanes phase : phase_built phase → lane_zero phase ≠ [] ∧ lane_one phase ≠ [].
Proof using Type.
  intros (zero & one & H). unfold TwoQueuePhase_new in H. apply bind_Ok in H as ([] & Hall & H). apply Ok_inj in H as <-.
  pose proof (proj1 (for_each_Ok _ _) Hall) as Hin0. clear Hall.
  assert (∀ lane ds, (lane, ds) ∈ phase_lanes (mkTwoQueuePhase zero one) → ds ≠ []) as Hne.
  { intros lane ds Hin. pose proof (Hin0 _ Hin) as H. cbn beta iota in H. apply bind_Ok in H as (u' & H & _). apply err_if_Ok, bool_decide_eq_false in H. done. }
  split; [apply (Hne 0); left|apply (Hne 1); right; left].
Qed.

(** The loops of the two constructions push the blocks of a batch. *)
Lemma serial_blocks base T phases tails blocks : tails_ok signals base T (length phases) tails → Forall phase_built phases →
  try_map (λ t, try_map (serial_phase tails t) (enumerate phases)) (seq 0 T) = Ok blocks →
  Forall2 (phase_block (tail_of base) (λ s, s = 0%Z) serial_closing TWO_QUEUE_DEPENDENCY serial_headers 0 phases) (steps phases T) (concat blocks).
Proof using Type.
  intros Htails Hbuilt Hblocks. apply try_map_bind in Hblocks. apply Forall2_same_length_lookup. split; [by eapply Forall2_length|].
  intros i [t [p phase]] b Hi Hb. destruct (steps_inv _ _ _ _ Hi) as (t' & p' & phase' & [= <- <- <-] & Ht & Hp & Hlook & _).
  pose proof (Forall2_lookup_lr _ _ _ _ _ _ Hblocks Hi Hb) as Hs. cbn beta iota in Hs.
  pose proof (Forall_lookup_1 _ _ _ _ Hbuilt Hlook) as [H0 H1]%phase_built_lanes. by eapply serial_phase_Ok.
Qed.

Lemma derived_blocks base T phases policies profiling tails built : tails_ok signals base T (length phases) tails →
  policy_barrier (consolidation_policy policies) = true →
  try_fold (λ state t, try_fold (derived_phase policies profiling (length phases) T tails t) state (enumerate phases)) ([], 0) (seq 0 T) = Ok built →
  ∃ bs, built.1 = concat bs ∧
    Forall2 (phase_block (tail_of base) (profiled profiling) (derived_closing (consolidation_policy policies)) (dependency_policy policies) (derived_headers policies) 1 phases) (steps phases T) bs.
Proof using Type.
  intros Htails Hcons Hbuilt. rewrite try_fold_bind in Hbuilt.
  apply (try_fold_blocks _ (phase_block (tail_of base) (profiled profiling) (derived_closing (consolidation_policy policies)) (dependency_policy policies) (derived_headers policies) 1 phases))
    in Hbuilt as (bs & Hbs & HR); [by exists bs|].
  intros s [t [p phase]] s' Hin Hs. apply list_elem_of_lookup_1 in Hin as [i Hi].
  destruct (steps_inv _ _ _ _ Hi) as (t' & p' & phase' & [= <- <- <-] & Ht & Hp & Hlook & _). by eapply derived_phase_Ok.
Qed.

(** What both constructions keep of their inputs. *)
Definition built_on (queue_size : Z) (phases : list TwoQueuePhase) (T : nat) (g : SerializedBatch) : Prop :=
  QueueSet_create gpu 2 queue_size queue_outcomes = Ok (sb_queues g) ∧
  (∀ l, l < 2 → check_capacity (sb_queues g) (sb_pushes g) l = Ok tt) ∧ sb_phases g = phases ∧ sb_token_count g = T.

Lemma built_on_intro queue_size phases T queues tails final pushes profiling :
  map_err Runtime_error (QueueSet_create gpu 2 queue_size queue_outcomes) = Ok queues →
  for_each (check_capacity queues pushes) [0; 1] = Ok tt →
  built_on queue_size phases T (mkSerializedBatch queues phases tails final pushes T profiling).
Proof using Type.
  intros Hq Hcap. split; [|split; [|done]].
  - cbn. by destruct (QueueSet_create gpu 2 queue_size queue_outcomes); [apply Ok_inj in Hq as ->|..].
  - intros l Hl. rewrite for_each_Ok in Hcap. apply Hcap. destruct l as [|[|?]]; [left|right; left|lia].
Qed.

Lemma serialized_built queue_size T phases g : Serialized_create gpu queue_outcomes signals queue_size T phases = Ok g → built_on queue_size phases T g.
Proof using Type.
  intros H. unfold Serialized_create in H. do 4 (apply bind_Ok in H as (? & _ & H)). apply bind_Ok in H as (queues & Hq & H).
  do 8 (apply bind_Ok in H as (? & _ & H)). apply bind_Ok in H as ([] & Hcap & H). apply Ok_inj in H as <-. by apply built_on_intro.
Qed.

Lemma derived_built queue_size T phases policies enable frequency g :
  create_derived gpu queue_outcomes signals queue_size T phases policies enable frequency = Ok g → built_on queue_size phases T g.
Proof using Type.
  intros H. unfold create_derived in H. do 9 (apply bind_Ok in H as (? & _ & H)). apply bind_Ok in H as (queues & Hq & H).
  do 13 (apply bind_Ok in H as (? & _ & H)). apply bind_Ok in H as ([] & Hcap & H). apply Ok_inj in H as <-. by apply built_on_intro.
Qed.

Lemma serialized_order queue_size T phases g : Forall phase_built phases →
  Serialized_create gpu queue_outcomes signals queue_size T phases = Ok g →
  ∃ place, batch_order phases T serial_headers serial_closing TWO_QUEUE_DEPENDENCY TWO_QUEUE_HOST_TERMINAL (sb_final_signal g) (sb_pushes g) place.
Proof using Hdist.
  intros Hbuilt H. unfold Serialized_create in H.
  apply bind_Ok in H as (u1 & Hne & H). apply err_if_Ok, bool_decide_eq_false in Hne. apply bind_Ok in H as (u2 & _ & H).
  apply bind_Ok in H as (counts & Hcounts & H). apply counts_tokens in Hcounts. apply bind_Ok in H as (sc & _ & H).
  apply bind_Ok in H as (queues & _ & H). apply bind_Ok in H as (tails & Htails & H). apply tail_signals_Ok in Htails.
  apply bind_Ok in H as (u3 & _ & H). apply bind_Ok in H as (final & Hfinal & H). apply new_signal_Ok in Hfinal as [Hf Hf0].
  apply bind_Ok in H as (blocks & Hblocks & H). apply bind_Ok in H as (token & Htoken & H). apply bind_Ok in H as (ph & Hph & H).
  apply bind_Ok in H as (completion & Hc & H). apply bind_Ok in H as (u4 & _ & H). apply bind_Ok in H as (u5 & _ & H).
  apply Ok_inj in H as <-. cbn [sb_pushes sb_final_signal]. apply expect_Ok in Htoken, Hph.
  assert (length phases ≠ 0) as HP by (by destruct phases).
  apply barrier_Ok in Hc. rewrite (final_tail 0 T (length phases) tails token ph Htails Hcounts HP Htoken Hph) in Hc.
  eexists. eapply (built_order (tail_of 0) (λ s, s = 0%Z) serial_closing final TWO_QUEUE_DEPENDENCY serial_headers 0);
    [done| | | |nia|done| | |exact Hc].
  - intros g l Hg Hl. by eapply tails_nonzero.
  - by eapply tails_inj.
  - by eapply tails_nonzero.
  - intros g l Hg Hl He. rewrite tail_of_handle, Hf in He by done. apply handle_inj in He; [nia|].
    rewrite <- tail_of_handle by done. by eapply tails_nonzero.
  - by eapply serial_blocks.
Qed.

Lemma derived_order queue_size T phases policies enable frequency g : policy_barrier (consolidation_policy policies) = true →
  create_derived gpu queue_outcomes signals queue_size T phases policies enable frequency = Ok g →
  ∃ place, batch_order phases T (derived_headers policies) (derived_closing (consolidation_policy policies))
    (dependency_policy policies) (terminal_policy policies) (sb_final_signal g) (sb_pushes g) place.
Proof using Hdist.
  intros Hcons H. unfold create_derived in H.
  apply bind_Ok in H as (u1 & Hne & H). apply err_if_Ok, bool_decide_eq_false in Hne.
  apply bind_Ok in H as (u2 & HT & H). apply err_if_Ok, bool_decide_eq_false in HT.
  do 8 (apply bind_Ok in H as (? & _ & H)). apply bind_Ok in H as (u3 & _ & H). apply bind_Ok in H as (count & _ & H).
  apply bind_Ok in H as (profiling & Hprof & H). apply bind_Ok in H as (u4 & _ & H).
  apply bind_Ok in H as (tails & Htails & H). apply tail_signals_Ok in Htails.
  apply bind_Ok in H as (u5 & _ & H). apply bind_Ok in H as (final & Hfinal & H). apply new_signal_Ok in Hfinal as [Hf Hf0].
  apply bind_Ok in H as (built & Hbuilt & H). apply bind_Ok in H as (token & Htoken & H). apply bind_Ok in H as (ph & Hph & H).
  apply bind_Ok in H as (u6 & _ & H). apply bind_Ok in H as (completion & Hc & H). apply bind_Ok in H as (u7 & _ & H).
  apply bind_Ok in H as (u8 & _ & H). apply Ok_inj in H as <-. cbn [sb_pushes sb_final_signal]. apply expect_Ok in Htoken, Hph.
  set (base := Z.to_nat count) in *. assert (length phases ≠ 0) as HP by (by destruct phases).
  apply barrier_Ok in Hc. rewrite (final_tail base T (length phases) tails token ph Htails HT HP Htoken Hph) in Hc.
  assert (∀ s, profiled profiling s → s = 0%Z ∨ ∃ k, k < base ∧ s = handle signals k ∧ s ≠ 0%Z) as Hother.
  { intros s [->|Hs]; [by left|right]. apply try_map_Ok in Hprof. apply list_elem_of_lookup_1 in Hs as [i Hi].
    destruct (Forall2_lookup_r _ _ _ _ _ Hprof Hi) as (k & Hk & Hn). apply seq_lookup_inv in Hk as [-> Hk].
    apply new_signal_Ok in Hn as [-> Hn]. eauto. }
  destruct (derived_blocks _ _ _ _ _ _ _ Htails Hcons Hbuilt) as (bs & Hbs & HR).
  rewrite Hbs. eexists.
  eapply (built_order (tail_of base) (profiled profiling) (derived_closing (consolidation_policy policies)) final (dependency_policy policies) (derived_headers policies) 1);
    [by left| | | |nia| | |exact HR|exact Hc].
  - intros g l Hg Hl Ho. pose proof (tails_nonzero base T (length phases) tails Htails g l Hg Hl) as Hn.
    destruct (Hother _ Ho) as [?|(k & Hk & He & _)]; [done|]. rewrite tail_of_handle in He, Hn by done. apply handle_inj in He; [lia|done].
  - by eapply tails_inj.
  - by eapply tails_nonzero.
  - intros Ho. destruct (Hother _ Ho) as [?|(k & Hk & He & _)]; [done|]. rewrite Hf in He. apply handle_inj in He; [lia|congruence].
  - intros g l Hg Hl He. rewrite tail_of_handle, Hf in He by done. apply handle_inj in He; [nia|].
    rewrite <- tail_of_handle by done. by eapply tails_nonzero.
Qed.
End constructions.
