(* ===== verification/AqlPlan.v ===== *)
(** Compiled plans on hardware queues (src/crates/redline-dispatch/src/aql/generic.rs,
    with the kernarg pool of src/crates/redline-rocr/src/runtime.rs): the kernel
    catalog, the lowering of a plan to two-queue phases with packed kernargs and
    header policies, the prepared plan and the refresh of its bindings.

    How the runtime answers an allocation, a queue or a signal is a parameter, as
    in AqlGraph. *)

From S2P Require Import Prelude Ir Identity Recorder Graph Plan Packet Visibility Bindings HipLower Queue AqlGraph AqlOrder AqlBatch.

(** ** Errors *)

Inductive GenericAqlError : Type :=
| EmptyKernelKey
| KernelAlreadyRegistered (kernel : string)
| KernelNotRegistered (kernel : string)
| MissingKernargAbi (kernel : string)
| MissingArtifactIdentity (kernel : string)
| RegisteredAbiChanged (kernel : string)
| ArtifactIdentityChanged (kernel : string)
| LoaderAbiMismatch (kernel : string) (loader_size loader_alignment recorded_size recorded_alignment : Z)
| UnsupportedLaneCount (lanes : nat)
| UnsupportedReplayMode (mode : ReplayMode)
| Generic_EmptyPlan
| Generic_EmptyTokenBatch
| Generic_EmptyPhaseLane (phase : nat)
| BlockDimensionTooLarge (axis : nat)
| KernargAbi_error (e : KernargAbiError)
| KernargBufferSize (expected : Z) (actual : nat)
| ResourceArgumentOutOfBounds (resource : nat) (offset bound : Z)
| ResourcePointerOverflow (resource : nat)
| QueueSizeOverflow
| QueueCapacity (required maximum : Z)
| VisibilityNodeMissing (index : nat)
| MissingLaneConsolidation
| Bindings_error (e : ReplayBindingError)
| Generic_runtime (e : RuntimeError)
| Generic_replay (e : ReplayError)
| Visibility_error (e : VisibilityError)
| Invalidated (e : PreparedPlanInvalidation).

(** ** The kernarg pool *)

Record KernargPool := mkKernargPool { pool_gpu : Z; pool_granule : Z; pool_alignment : Z }.

(** How an allocation ends. *)
Inductive PoolAllocation :=
| PoolFailed (status : Z)
| PoolPointer (address : Z) (access : Z)
| PoolNull.

Definition HSA_STATUS_SUCCESS : Z := 0.

(** [KernargPool::allocate_bytes]; discovery rejects a zero granule. *)
Definition allocate_bytes (pool : KernargPool) (length required_alignment : Z) (outcome : PoolAllocation)
    : result RuntimeError KernargBuffer :=
  err_if (negb (is_power_of_two required_alignment)) (InvalidKernargAlignment required_alignment) ;;
  if (length =? 0)%Z then Ok (mkKernargBuffer 0 (pool_gpu pool) []) else
  assert (1 <=? pool_granule pool)%Z ;;
  ok_or (KernargSizeOverflow length) (checked_add U64_MAX length (pool_granule pool - 1)) ;;
  match outcome with
  | PoolFailed status => Err (Hsa "hsa_amd_memory_pool_allocate" status)
  | PoolNull => Err (InvalidRuntimeObject "memory-pool allocation returned null")
  | PoolPointer address access =>
      err_if (negb (address `mod` required_alignment =? 0) || negb (address `mod` pool_alignment pool =? 0))%Z
        (KernargAlignmentNotMet (Z.max required_alignment (pool_alignment pool)) address) ;;
      err_if (negb (access =? HSA_STATUS_SUCCESS)%Z) (Hsa "hsa_amd_agents_allow_access" access) ;;
      Ok (mkKernargBuffer address (pool_gpu pool) (replicate (Z.to_nat length) 0%Z))
  end.

(** [KernargPool::allocate_for] *)
Definition allocate_for (pool : KernargPool) (metadata : KernelMetadata) (outcome : PoolAllocation)
    : result RuntimeError KernargBuffer :=
  allocate_bytes pool (kernarg_segment_size metadata) (Z.max (kernarg_segment_alignment metadata) 16) outcome.

(** ** The kernel catalog *)

Record AqlKernelBinding := mkAqlKernelBinding {
  akb_kernel : Kernel;
  akb_abi : KernargAbi;
  akb_identity : KernelArtifactIdentity }.

Record AqlKernelCatalog := mkAqlKernelCatalog {
  akc_entries : list (string * AqlKernelBinding);
  akc_identities : ArtifactCatalog }.

Definition AqlKernelCatalog_new : AqlKernelCatalog := mkAqlKernelCatalog [] ArtifactCatalog_new.

(** [AqlKernelCatalog::register] *)
Definition AqlKernelCatalog_register (c : AqlKernelCatalog) (key : string) (kernel : Kernel) (abi : KernargAbi)
    (identity : KernelArtifactIdentity) : result GenericAqlError AqlKernelCatalog :=
  err_if (trim_is_empty key) EmptyKernelKey ;;
  let metadata := kernel_metadata kernel in
  err_if (negb (kernarg_segment_size metadata =? segment_size abi)%Z ||
          negb (kernarg_segment_alignment metadata =? segment_alignment abi)%Z)
    (LoaderAbiMismatch key (kernarg_segment_size metadata) (kernarg_segment_alignment metadata)
      (segment_size abi) (segment_alignment abi)) ;;
  err_if (match bmap_get key (akc_entries c) with Some _ => true | None => false end) (KernelAlreadyRegistered key) ;;
  identities ← map_err (λ _, EmptyKernelKey) (ArtifactCatalog_insert (akc_identities c) key identity);
  Ok (mkAqlKernelCatalog (bmap_insert key (mkAqlKernelBinding kernel abi identity) (akc_entries c)) identities).

(** ** Kernargs *)

(** [bytes[start..end].copy_from_slice(&value)] *)
Definition copy_slice {E} (bytes : list Z) (start size : Z) (value : list Z) : result E (list Z) :=
  assert ((start + size <=? Z.of_nat (length bytes)) && (Z.of_nat (length value) =? size))%Z ;;
  Ok (take (Z.to_nat start) bytes ++ value ++ drop (Z.to_nat (start + size)) bytes).

(** The bytes of one argument. *)
Definition argument_value (bindings : ReplayBindings) (argument : KernelArg) : result GenericAqlError (list Z) :=
  match argument with
  | Scalar value => Ok value
  | ScalarSlot slot size =>
      value ← ok_or (Bindings_error (ScalarNotBound slot)) (Bindings_scalar bindings slot);
      err_if (negb (Z.of_nat (length value) =? size)%Z) (Bindings_error (ScalarSize slot size (length value))) ;;
      Ok value
  | Resource_arg resource byte_offset =>
      binding ← ok_or (Bindings_error (ResourceNotBound resource)) (Bindings_resource bindings resource);
      err_if (binding_size binding <=? byte_offset)%Z
        (ResourceArgumentOutOfBounds (resource_index resource) byte_offset (binding_size binding)) ;;
      err_if (U64_MAX <? byte_offset)%Z (ResourcePointerOverflow (resource_index resource)) ;;
      address ← ok_or (ResourcePointerOverflow (resource_index resource))
        (checked_add U64_MAX (binding_base binding) byte_offset);
      Ok (le_bytes 8 address)
  end.

(** The loop over the arguments. *)
Fixpoint pack_fields (bindings : ReplayBindings) (bytes : list Z) (fields : list (KernelArg * KernargField))
    : list Z * result GenericAqlError unit :=
  match fields with
  | [] => (bytes, Ok tt)
  | (argument, field) :: rest =>
      match value ← argument_value bindings argument; copy_slice bytes (field_offset field) (field_size field) value with
      | Ok bytes => pack_fields bindings bytes rest
      | Err e => (bytes, Err e)
      | Panic => (bytes, Panic)
      end
  end.

(** [pack_kernarg]: the buffer it leaves behind, which an error after the first
    two checks leaves partly written, and the answer. *)
Definition pack_kernarg (arguments : list KernelArg) (abi : KernargAbi) (bindings : ReplayBindings) (output : KernargBuffer)
    : KernargBuffer * result GenericAqlError unit :=
  match
    map_err KernargAbi_error (validate_arguments abi arguments) ;;
    err_if (negb (Z.of_nat (length (kernarg_bytes output)) =? segment_size abi)%Z)
      (KernargBufferSize (segment_size abi) (length (kernarg_bytes output)))
  with
  | Ok _ =>
      let '(bytes, r) := pack_fields bindings (replicate (length (kernarg_bytes output)) 0%Z) (zip arguments (abi_fields abi)) in
      (mkKernargBuffer (kernarg_address output) (kernarg_agent output) bytes, r)
  | r => (output, r)
  end.

(** ** Phases *)

(** The level of a dispatch: one more than its deepest dependency. *)
Definition level_of (levels : list nat) (d : PlannedDispatch) : result GenericAqlError nat :=
  deeper ← try_map (λ dependency, level ← index levels (node_index dependency); Ok (S level)) (planned_dependencies d);
  Ok (foldr Nat.max 0 deeper).

(** The first loop of [lower_phases]. *)
Definition assign_level (s : list nat * nat) (d : PlannedDispatch) : result GenericAqlError (list nat * nat) :=
  let '(levels, max_level) := s in
  level ← level_of levels d;
  levels ← store levels (node_index (planned_node d)) level;
  Ok (levels, Nat.max max_level level).

(** [phases[level][lane].push(value)] *)
Definition push_phase {A} (phases : list (list A * list A)) (level lane : nat) (value : A)
    : result GenericAqlError (list (list A * list A)) :=
  pair ← index phases level;
  match lane with
  | 0 => store phases level (pair.1 ++ [value], pair.2)
  | 1 => store phases level (pair.1, pair.2 ++ [value])
  | _ => Panic
  end.

Definition to_u16 (axis : nat) (x : Z) : result GenericAqlError Z :=
  err_if (U16_MAX <? x)%Z (BlockDimensionTooLarge axis) ;; Ok x.

Section prepare.
Context (gpu : AgentInfo) (pool : KernargPool) (bindings : ReplayBindings) (kernels : AqlKernelCatalog).
Context (allocations : nat → PoolAllocation).

(** The registered kernel of a launch, with the checks against the plan. *)
Definition registered_kernel (launch : KernelLaunch) : result GenericAqlError (AqlKernelBinding * KernargAbi) :=
  registered ← ok_or (KernelNotRegistered (kernel launch)) (bmap_get (kernel launch) (akc_entries kernels));
  recorded_abi ← ok_or (MissingKernargAbi (kernel launch)) (kernarg_abi launch);
  err_if (negb (bool_decide (recorded_abi = akb_abi registered))) (RegisteredAbiChanged (kernel launch)) ;;
  recorded_identity ← ok_or (MissingArtifactIdentity (kernel launch)) (artifact_identity launch);
  err_if (negb (bool_decide (recorded_identity = akb_identity registered))) (ArtifactIdentityChanged (kernel launch)) ;;
  Ok (registered, recorded_abi).

(** The recorded dispatch of one planned dispatch. *)
Definition record_dispatch (entry : nat * PlannedDispatch) : result GenericAqlError RecordedDispatch :=
  let '(i, d) := entry in
  let launch := planned_launch d in
  '(registered, recorded_abi) ← registered_kernel launch;
  kernarg ← map_err Generic_runtime (allocate_for pool (kernel_metadata (akb_kernel registered)) (allocations i));
  let '(kernarg, packed) := pack_kernarg (arguments launch) recorded_abi bindings kernarg in
  packed ;;
  x ← to_u16 0 (dim_x (block launch));
  y ← to_u16 1 (dim_y (block launch));
  z ← to_u16 2 (dim_z (block launch));
  geometry ← map_err (λ e, Generic_replay (Packet_error e)) (from_hip_workgroups (grid launch) (mkDim3 x y z));
  map_err Generic_runtime (validate_geometry gpu geometry) ;;
  recorded ← map_err Generic_replay (RecordedDispatch_new (planned_lane d) (akb_kernel registered) geometry kernarg);
  map_err Generic_replay (with_dynamic_group_bytes recorded (dynamic_shared_bytes launch)).

(** One iteration of the second loop of [lower_phases]. *)
Definition lower_one (levels : list nat)
    (s : list (list RecordedDispatch * list RecordedDispatch) * list (list NodeId * list NodeId)) (entry : nat * PlannedDispatch)
    : result GenericAqlError (list (list RecordedDispatch * list RecordedDispatch) * list (list NodeId * list NodeId)) :=
  let '(phase_dispatches, phase_nodes) := s in
  let d := entry.2 in
  level ← index levels (node_index (planned_node d));
  recorded ← record_dispatch entry;
  phase_dispatches ← push_phase phase_dispatches level (planned_lane d) recorded;
  phase_nodes ← push_phase phase_nodes level (planned_lane d) (planned_node d);
  Ok (phase_dispatches, phase_nodes).

(** One phase of the result. *)
Definition build_phase (entry : nat * (list RecordedDispatch * list RecordedDispatch)) : result GenericAqlError TwoQueuePhase :=
  let '(phase, lanes) := entry in
  err_if (bool_decide (lanes.1 = []) || bool_decide (lanes.2 = [])) (Generic_EmptyPhaseLane phase) ;;
  map_err Generic_replay (TwoQueuePhase_new lanes.1 lanes.2).

(** [lower_phases] *)
Definition lower_phases (plan : CompiledPlan) : result GenericAqlError (list TwoQueuePhase * list (list NodeId * list NodeId)) :=
  let ds := plan_dispatches plan in
  err_if (bool_decide (ds = [])) Generic_EmptyPlan ;;
  '(levels, max_level) ← try_fold assign_level (replicate (length ds) 0, 0) ds;
  '(phase_dispatches, phase_nodes) ← try_fold (lower_one levels)
    (replicate (S max_level) ([], []), replicate (S max_level) ([], [])) (enumerate ds);
  phases ← try_map build_phase (enumerate phase_dispatches);
  Ok (phases, phase_nodes).
End prepare.

(** ** Policies *)

(** [has_cross_token_raw] *)
Definition writes_over (d : PlannedDispatch) (read : Access) : bool :=
  existsb (λ access, bool_decide (access_mode access = Write) && overlaps (access_region access) (access_region read)) (planned_accesses d).

Definition has_cross_token_raw (plan : CompiledPlan) : bool :=
  let ds := plan_dispatches plan in
  existsb (λ '(read_index, dispatch),
    existsb (λ read, bool_decide (access_mode read = Read) &&
        (negb (existsb (λ prior, writes_over prior read) (take read_index ds)) &&
         existsb (λ candidate, writes_over candidate read) ds))
      (planned_accesses dispatch)) (enumerate ds).

Definition is_raw_consumer (reason : VisibilityReason) : bool :=
  match reason with RawConsumer _ _ => true | _ => false end.

(** The headers of one node in the first token and in later ones. *)
Definition node_headers (by_node : list (NodeId * DerivedDispatchPolicy)) (node : NodeId)
    : result GenericAqlError (HeaderPolicy * HeaderPolicy) :=
  policy ← ok_or (VisibilityNodeMissing (node_index node)) (bmap_get node by_node);
  let first := ddp_header policy in
  let repeated_acquire := if existsb is_raw_consumer (ddp_acquire_reasons policy) then ScopeAgent else ScopeNone in
  Ok (first, mkHeaderPolicy (policy_barrier first) repeated_acquire (policy_release first)).

(** [lower_policies] *)
Definition lower_policies (plan : CompiledPlan) (phase_nodes : list (list NodeId * list NodeId)) (visibility : DerivedVisibilityPlan)
    : result GenericAqlError TwoQueueDerivedPolicies :=
  let by_node := collect_map ((λ policy, (ddp_node policy, policy)) <$> dvp_dispatches visibility) in
  headers ← try_map (λ phase : list NodeId * list NodeId,
    zero ← try_map (node_headers by_node) phase.1;
    one ← try_map (node_headers by_node) phase.2;
    Ok (zero, one)) phase_nodes;
  consolidation ← ok_or MissingLaneConsolidation (lcp_header <$> head (dvp_lane_consolidations visibility));
  let cross_token_raw := has_cross_token_raw plan in
  Ok (mkDerivedPolicies ((λ h, (h.1.*1, h.2.*1)) <$> headers) ((λ h, (h.1.*2, h.2.*2)) <$> headers)
    (mkHeaderPolicy (policy_barrier consolidation) (policy_acquire consolidation)
      (if cross_token_raw then ScopeAgent else policy_release consolidation))
    (mkHeaderPolicy (policy_barrier TWO_QUEUE_DEPENDENCY)
      (if cross_token_raw then ScopeAgent else policy_acquire TWO_QUEUE_DEPENDENCY) (policy_release TWO_QUEUE_DEPENDENCY))
    (tvp_header (dvp_terminal visibility)) false).

(** ** Preparation *)

(** [u32::checked_next_power_of_two] for a positive argument *)
Definition checked_next_power_of_two (x : Z) : option Z :=
  let result := (2 ^ Z.log2_up x)%Z in if (result <=? U32_MAX)%Z then Some result else None.

(** [queue_size_for] *)
Definition queue_size_for (gpu : AgentInfo) (packet_counts : Z * Z) : result GenericAqlError Z :=
  let required := Z.max packet_counts.1 packet_counts.2 in
  err_if (U32_MAX <? required)%Z QueueSizeOverflow ;;
  requested ← ok_or QueueSizeOverflow (checked_next_power_of_two (Z.max required (queue_min_size gpu)));
  err_if (queue_max_size gpu <? requested)%Z (QueueCapacity required (queue_max_size gpu)) ;;
  Ok requested.

Record PreparedAqlPlan := mkPreparedAqlPlan {
  pap_graph : SerializedBatch;
  pap_stamp : PreparedPlanStamp;
  pap_phase_nodes : list (list NodeId * list NodeId);
  pap_visibility : DerivedVisibilityPlan }.

Definition set_profile (policies : TwoQueueDerivedPolicies) (profile : bool) : TwoQueueDerivedPolicies :=
  mkDerivedPolicies (first_dispatches policies) (repeated_dispatches policies) (consolidation_policy policies)
    (dependency_policy policies) (terminal_policy policies) profile.

Section prepared.
Context (sha256 : list Z → list Z) (gpu : AgentInfo) (pool : KernargPool) (kernels : AqlKernelCatalog).
Context (allocations : nat → PoolAllocation) (queue_outcomes : nat → QueueCreation) (signals : nat → SignalCreation).
Context (enable : result RuntimeError unit) (frequency : result RuntimeError Z).

(** [PreparedAqlPlan::prepare_internal] *)
Definition prepare_internal (plan : CompiledPlan) (bindings : ReplayBindings) (token_count : nat) (boundary : ApiBoundary)
    (profile_all : bool) : result GenericAqlError PreparedAqlPlan :=
  err_if (negb (bool_decide (plan_replay_mode plan = TokenLatency))) (UnsupportedReplayMode (plan_replay_mode plan)) ;;
  err_if (negb (bool_decide (plan_lane_count plan = 2))) (UnsupportedLaneCount (plan_lane_count plan)) ;;
  err_if (bool_decide (token_count = 0)) Generic_EmptyTokenBatch ;;
  map_err Bindings_error (Bindings_validate bindings plan) ;;
  '(phases, phase_nodes) ← lower_phases gpu pool bindings kernels allocations plan;
  visibility ← map_err Visibility_error (derive_aql_visibility plan boundary);
  policies ← lower_policies plan phase_nodes visibility;
  let policies := set_profile policies profile_all in
  base ← map_err Generic_replay (required_packet_counts phases token_count);
  consolidations ← ok_or QueueSizeOverflow (checked_mul U64_MAX (Z.of_nat (length phases)) (Z.of_nat token_count));
  zero ← ok_or QueueSizeOverflow (checked_add U64_MAX base.1 consolidations);
  one ← ok_or QueueSizeOverflow (checked_add U64_MAX base.2 consolidations);
  queue_size ← queue_size_for gpu (zero, one);
  graph ← map_err Generic_replay
    (create_derived gpu queue_outcomes signals queue_size token_count phases policies enable frequency);
  stamp ← map_err Bindings_error (Stamp_capture sha256 plan bindings);
  Ok (mkPreparedAqlPlan graph stamp phase_nodes visibility).

(** [prepare], [prepare_with_boundary], [prepare_profiled_all] *)
Definition prepare_with_boundary plan bindings token_count boundary := prepare_internal plan bindings token_count boundary false.
Definition prepare plan bindings token_count := prepare_with_boundary plan bindings token_count ApiBoundary_default.
Definition prepare_profiled_all plan bindings token_count boundary := prepare_internal plan bindings token_count boundary true.

(** ** Rebinding *)

(** A loop that updates the elements of a vector and stops at the first error. *)
Fixpoint try_update {E A} (f : nat → A → A * result E unit) (i : nat) (l : list A) : list A * result E unit :=
  match l with
  | [] => ([], Ok tt)
  | x :: l =>
      match f i x with
      | (x, Ok _) => let '(l, r) := try_update f (S i) l in (x :: l, r)
      | (x, r) => (x :: l, r)
      end
  end.

(** [TwoQueueSerializedBatchGraph::patch_kernargs]: the packets keep the
    addresses, so only the buffers change. *)
Definition patch_dispatch (patch : KernargBuffer → KernargBuffer * result GenericAqlError unit) (d : RecordedDispatch)
    : RecordedDispatch * result GenericAqlError unit :=
  let '(kernarg, r) := patch (rd_kernarg d) in
  (mkRecordedDispatch (rd_lane d) (rd_kernel d) (rd_geometry d) kernarg (dynamic_group_bytes d) (rd_dependencies d), r).

Definition patch_phase (patch : nat → nat → KernargBuffer → KernargBuffer * result GenericAqlError unit) (phase : TwoQueuePhase)
    : TwoQueuePhase * result GenericAqlError unit :=
  match try_update (λ i, patch_dispatch (patch 0 i)) 0 (lane_zero phase) with
  | (zero, Ok _) => let '(one, r) := try_update (λ i, patch_dispatch (patch 1 i)) 0 (lane_one phase) in (mkTwoQueuePhase zero one, r)
  | (zero, r) => (mkTwoQueuePhase zero (lane_one phase), r)
  end.

Definition patch_kernargs (patch : nat → nat → nat → KernargBuffer → KernargBuffer * result GenericAqlError unit)
    (in_flight : bool) (phases : list TwoQueuePhase) : list TwoQueuePhase * result GenericAqlError unit :=
  if in_flight then (phases, Panic) else try_update (λ p, patch_phase (patch p)) 0 phases.

(** The patch of [refresh_bindings]: it looks the dispatch up at the index of the
    node. *)
Definition refresh_target (plan : CompiledPlan) (phase_nodes : list (list NodeId * list NodeId)) (phase_index lane dispatch_index : nat)
    : result GenericAqlError (KernelLaunch * KernargAbi) :=
  phase ← index phase_nodes phase_index;
  node ← index (at_lane phase lane) dispatch_index;
  dispatch ← index (plan_dispatches plan) (node_index node);
  let launch := planned_launch dispatch in
  abi ← ok_or (MissingKernargAbi (kernel launch)) (kernarg_abi launch);
  Ok (launch, abi).

Definition refresh_patch (plan : CompiledPlan) (bindings : ReplayBindings) (phase_nodes : list (list NodeId * list NodeId))
    (phase_index lane dispatch_index : nat) (kernarg : KernargBuffer) : KernargBuffer * result GenericAqlError unit :=
  match refresh_target plan phase_nodes phase_index lane dispatch_index with
  | Ok (launch, abi) => pack_kernarg (arguments launch) abi bindings kernarg
  | Err e => (kernarg, Err e)
  | Panic => (kernarg, Panic)
  end.

Definition with_phases (prepared : PreparedAqlPlan) (phases : list TwoQueuePhase) (stamp : PreparedPlanStamp) : PreparedAqlPlan :=
  let graph := pap_graph prepared in
  mkPreparedAqlPlan
    (mkSerializedBatch (sb_queues graph) phases (sb_tails graph) (sb_final_signal graph) (sb_pushes graph)
      (sb_token_count graph) (sb_profiling graph))
    stamp (pap_phase_nodes prepared) (pap_visibility prepared).

(** [PreparedAqlPlan::refresh_bindings] *)
Definition refresh_bindings (prepared : PreparedAqlPlan) (in_flight : bool) (plan : CompiledPlan) (bindings : ReplayBindings)
    : PreparedAqlPlan * result GenericAqlError PreparedPlanState :=
  match map_err Invalidated (Stamp_validate sha256 (pap_stamp prepared) plan bindings (akc_identities kernels)) with
  | Ok state =>
      let '(phases, patched) := patch_kernargs (refresh_patch plan bindings (pap_phase_nodes prepared)) in_flight
        (sb_phases (pap_graph prepared)) in
      match patched ;; map_err Bindings_error (Stamp_capture sha256 plan bindings) with
      | Ok stamp => (with_phases prepared phases stamp, Ok state)
      | Err e => (with_phases prepared phases (pap_stamp prepared), Err e)
      | Panic => (with_phases prepared phases (pap_stamp prepared), Panic)
      end
  | Err e => (prepared, Err e)
  | Panic => (prepared, Panic)
  end.
End prepared.
