(* ===== verification/AqlSound.v ===== *)
(** What a prepared AQL plan guarantees (src/crates/redline-dispatch/src/aql/generic.rs):
    every dispatch of every token has its kernel packet with the packed arguments
    and the derived header, the device runs dependent and conflicting dispatches
    in order, and what a dispatch reads was published by the dispatch that wrote
    it. *)

From S2P Require Import Prelude Ir Identity Recorder Graph Plan Packet Visibility Bindings HipLower Queue AqlGraph AqlOrder AqlBatch AqlPlan.

(** ** Levels *)

Section levels.
Context (ds : list PlannedDispatch) (Hds : lowerable 2 ds).
Local Abbreviation idx d := (node_index (planned_node d)).

(** The levels after the first [k] dispatches. *)
Record levels_ok (k : nat) (s : list nat * nat) : Prop := {
  lv_length : length s.1 = length ds;
  lv_level i d : i < k → ds !! i = Some d → ∃ level, s.1 !! idx d = Some level ∧ level ≤ s.2 ∧
    ∀ v, v ∈ planned_dependencies d → ∃ below, s.1 !! node_index v = Some below ∧ below < level }.

Lemma max_below l x : x ∈ l → x ≤ foldr Nat.max 0 l.
Proof using Type. induction l as [|y l IH]; [by intros ?%not_elem_of_nil|]. intros [->|Hin]%elem_of_cons; cbn; [lia|]. specialize (IH Hin). lia. Qed.

Lemma level_step k d s : ds !! k = Some d → levels_ok k s → ∃ s', assign_level s d = Ok s' ∧ levels_ok (S k) s'.
Proof using Hds.
  intros Hk [Hlen Hlev]. destruct s as [levels m]. cbn [fst snd] in *.
  assert (∀ v, v ∈ planned_dependencies d → ∃ l, levels !! node_index v = Some l) as Hdeps.
  { intros v Hv. destruct (lw_deps _ _ Hds k d v Hk Hv) as (j & dj & Hj & Hdj & <-). destruct (Hlev j dj Hj Hdj) as (l & Hl & _). eauto. }
  destruct (try_map_total (E := GenericAqlError) (λ dependency, level ← index levels (node_index dependency); Ok (S level))
    (planned_dependencies d)) as (deeper & Hdeep & _).
  { intros v Hv. destruct (Hdeps v Hv) as [l Hl]. exists (S l). by rewrite (index_total _ _ _ Hl). }
  unfold assign_level, level_of. rewrite Hdeep. cbn [mbind result_bind]. set (level := foldr Nat.max 0 deeper).
  rewrite store_total by (rewrite Hlen; by eapply (lw_node _ _ Hds)). cbn [mbind result_bind].
  eexists. split; [done|]. split; cbn [fst snd]; [by rewrite length_insert|].
  assert (∀ i di, i < k → ds !! i = Some di → idx di ≠ idx d) as Hne.
  { intros i di Hi Hdi He. pose proof (idx_inj 2 ds Hds i k di d Hdi Hk He). lia. }
  assert (∀ i di l, i < k → ds !! i = Some di → levels !! idx di = Some l → <[idx d := level]> levels !! idx di = Some l) as Hkeep.
  { intros i di l Hi Hdi Hl. rewrite list_lookup_insert_ne; [done|]. intros He. by eapply (Hne i di). }
  assert (∀ i di v l, i ≤ k → ds !! i = Some di → v ∈ planned_dependencies di → levels !! node_index v = Some l →
    <[idx d := level]> levels !! node_index v = Some l) as Hkeepv.
  { intros i di v l Hi Hdi Hv Hl. destruct (lw_deps _ _ Hds i di v Hdi Hv) as (j & dj & Hj & Hdj & <-). eapply (Hkeep j dj); [lia|done|done]. }
  intros i di Hi Hdi. destruct (decide (i = k)) as [->|Hik].
  - rewrite Hk in Hdi. injection Hdi as <-. exists level. split; [rewrite list_lookup_insert_eq; [done|rewrite Hlen; by eapply (lw_node _ _ Hds)]|].
    split; [lia|]. intros v Hv. destruct (Hdeps v Hv) as [l Hl]. exists l. split; [by eapply (Hkeepv k d)|].
    apply try_map_Ok in Hdeep. destruct (list_elem_of_lookup_1 _ _ Hv) as [q Hq].
    destruct (Forall2_lookup_l _ _ _ _ _ Hdeep Hq) as (y & Hy & He). rewrite (index_total _ _ _ Hl) in He. cbn in He. injection He as <-.
    apply (max_below deeper (S l)). by eapply list_elem_of_lookup_2.
  - destruct (Hlev i di ltac:(lia) Hdi) as (l & Hl & Hm & Hbelow). exists l. split; [eapply (Hkeep i di); [lia|done|done]|]. split; [lia|].
    intros v Hv. destruct (Hbelow v Hv) as (below & Hb & Hlt). exists below. split; [eapply (Hkeepv i di); [lia|done..]|done].
Qed.

Lemma levels_total : ∃ levels m, try_fold assign_level (replicate (length ds) 0, 0) ds = Ok (levels, m) ∧
  levels_ok (length ds) (levels, m).
Proof using Hds.
  destruct (try_fold_total (λ dn s, levels_ok (length dn) s) assign_level ds [] (replicate (length ds) 0, 0)) as ([levels m] & H & Hok).
  - split; [cbn [fst]; by rewrite length_replicate|]. intros i d Hi. cbn in Hi. lia.
  - intros dn d rest s Heq Hok. cbn in Heq. rewrite length_app, Nat.add_1_r. apply level_step; [|done].
    rewrite Heq. by apply list_lookup_middle.
  - exists levels, m. done.
Qed.

(** A dispatch is on a higher level than what it depends on. *)
Lemma level_deps levels m i j di dj l l' : levels_ok (length ds) (levels, m) → ds !! i = Some di → ds !! j = Some dj →
  planned_node di ∈ planned_dependencies dj → levels !! idx di = Some l → levels !! idx dj = Some l' → l < l'.
Proof using Type.
  clear Hds. intros Hok Hi Hj Hin Hl Hl'. destruct (lv_level _ _ Hok j dj) as (l2 & H2 & _ & Hb); [by eapply lookup_lt_Some|done|].
  destruct (Hb _ Hin) as (b & Hb2 & Hlt). cbn [fst] in *. congruence.
Qed.
End levels.

(** ** Phases *)

Lemma push_phase_Ok {A} (phases phases' : list (list A * list A)) level lane v : push_phase phases level lane v = Ok phases' →
  lane < 2 ∧ length phases' = length phases ∧ (∀ p pair, phases' !! p = Some pair → ∃ old, phases !! p = Some old ∧
    ∀ l, l < 2 → at_lane pair l = if bool_decide (p = level ∧ l = lane) then at_lane old l ++ [v] else at_lane old l).
Proof.
  unfold push_phase. intros H. apply bind_Ok in H as (pair & Hp & H). apply index_Ok in Hp.
  assert (∃ new, lane < 2 ∧ phases' = <[level := new]> phases ∧
    ∀ l, l < 2 → at_lane new l = if bool_decide (l = lane) then at_lane pair l ++ [v] else at_lane pair l) as (new & Hl & -> & Hnew).
  { destruct lane as [|[|lane]]; [| |done]; apply store_Ok in H as [_ ->]; eexists; (split; [lia|]); (split; [done|]);
      intros [|[|l]] Hl; [done|done|lia|done|done|lia]. }
  split; [done|]. split; [by rewrite length_insert|]. intros p pair' Hp'. apply list_lookup_insert_Some in Hp' as [(-> & <- & _)|(Hne & Hp')].
  - exists pair. split; [done|]. intros l Hl2. rewrite (Hnew l Hl2). repeat case_bool_decide; naive_solver.
  - exists pair'. split; [done|]. intros l Hl2. case_bool_decide; naive_solver.
Qed.

Section lowering.
Context (gpu : AgentInfo) (pool : KernargPool) (bindings : ReplayBindings) (kernels : AqlKernelCatalog).
Context (allocations : nat → PoolAllocation) (levels : list nat).
Local Abbreviation idx d := (node_index (planned_node d)).
Local Abbreviation record := (record_dispatch gpu pool bindings kernels allocations).

(** The dispatches of a phase on a queue. *)
Definition member (p l : nat) (entry : nat * PlannedDispatch) : Prop :=
  levels !! idx entry.2 = Some p ∧ planned_lane entry.2 = l.
#[local] Instance member_dec p l entry : Decision (member p l entry).
Proof. unfold member. apply _. Defined.

Record lowered (max_level : nat) (done : list (nat * PlannedDispatch))
    (s : list (list RecordedDispatch * list RecordedDispatch) * list (list NodeId * list NodeId)) : Prop := {
  lx_length : length s.1 = S max_level ∧ length s.2 = S max_level;
  lx_dispatches p pair l : s.1 !! p = Some pair → l < 2 →
    Forall2 (λ entry rd, record entry = Ok rd) (filter (member p l) done) (at_lane pair l);
  lx_nodes p pair l : s.2 !! p = Some pair → l < 2 →
    at_lane pair l = (λ entry, planned_node entry.2) <$> filter (member p l) done }.

Lemma filter_snoc {B} (Q : B → Prop) `{!∀ y, Decision (Q y)} front y :
  filter Q (front ++ [y]) = filter Q front ++ match decide (Q y) with left _ => [y] | right _ => [] end.
Proof using Type. rewrite filter_app, filter_cons, filter_nil. by case_decide. Qed.

Lemma lower_one_Ok m dn s i d s' : lowered m dn s → lower_one gpu pool bindings kernels allocations levels s (i, d) = Ok s' → lowered m (dn ++ [(i, d)]) s'.
Proof using Type.
  intros [[H1 H2] Hd Hn] H. destruct s as [pd pn]. unfold lower_one in H. cbn [fst snd] in *.
  apply bind_Ok in H as (level & Hlevel & H). apply index_Ok in Hlevel. apply bind_Ok in H as (rd & Hrd & H).
  apply bind_Ok in H as (pd' & Hpd & H). apply bind_Ok in H as (pn' & Hpn & H). apply Ok_inj in H as <-.
  apply push_phase_Ok in Hpd as (Hl & Hlen1 & Hpd), Hpn as (_ & Hlen2 & Hpn).
  assert (∀ p l, member p l (i, d) ↔ p = level ∧ l = planned_lane d) as Hm by (unfold member; cbn; naive_solver).
  split; cbn [fst snd]; [lia| |].
  - intros p pair l Hp Hl2. destruct (Hpd p pair Hp) as (old & Hold & Hat). rewrite (Hat l Hl2), filter_snoc.
    pose proof (Hd p old l Hold Hl2) as HF. case_bool_decide as Hc; destruct (decide (member p l (i, d))) as [Hc'|Hc']; rewrite (Hm p l) in Hc'; try done.
    + apply Forall2_app; [done|]. by repeat constructor.
    + by rewrite app_nil_r.
  - intros p pair l Hp Hl2. destruct (Hpn p pair Hp) as (old & Hold & Hat). rewrite (Hat l Hl2), filter_snoc, fmap_app, (Hn p old l Hold Hl2).
    case_bool_decide as Hc; destruct (decide (member p l (i, d))) as [Hc'|Hc']; rewrite (Hm p l) in Hc'; try done. by rewrite app_nil_r.
Qed.

Lemma lowered_loop m ds s : try_fold (lower_one gpu pool bindings kernels allocations levels)
  (replicate (S m) ([], []), replicate (S m) ([], [])) (enumerate ds) = Ok s → lowered m (enumerate ds) s.
Proof using Type.
  intros H. eapply (try_fold_inv (λ dn s, lowered m dn s) _ _ [] _ s); [| |exact H].
  - split; cbn [fst snd]; [by rewrite !length_replicate| |]; intros p pair l Hp Hl; apply lookup_replicate in Hp as [-> _];
      destruct l as [|[|?]]; [done|done|lia|done|done|lia].
  - intros dn [i d] rest s1 s2 _. apply lower_one_Ok.
Qed.
End lowering.

(** What [lower_phases] builds for a compiled plan. *)
Record phases_of (gpu : AgentInfo) (pool : KernargPool) (bindings : ReplayBindings) (kernels : AqlKernelCatalog)
    (allocations : nat → PoolAllocation) (ds : list PlannedDispatch) (levels : list nat)
    (phases : list TwoQueuePhase) (nodes : list (list NodeId * list NodeId)) : Prop := {
  ph_levels : ∃ m, levels_ok ds (length ds) (levels, m) ∧ length phases = S m ∧ length nodes = S m;
  ph_built : Forall phase_built phases;
  ph_dispatches p phase l : phases !! p = Some phase → l < 2 →
    Forall2 (λ entry rd, record_dispatch gpu pool bindings kernels allocations entry = Ok rd)
      (filter (member levels p l) (enumerate ds)) (at_lane (lane_zero phase, lane_one phase) l);
  ph_nodes p pair l : nodes !! p = Some pair → l < 2 →
    at_lane pair l = (λ entry, planned_node entry.2) <$> filter (member levels p l) (enumerate ds) }.

Lemma lower_phases_Ok gpu pool bindings kernels allocations plan phases nodes : lowerable 2 (plan_dispatches plan) →
  lower_phases gpu pool bindings kernels allocations plan = Ok (phases, nodes) →
  ∃ levels, phases_of gpu pool bindings kernels allocations (plan_dispatches plan) levels phases nodes.
Proof.
  intros Hds H. unfold lower_phases in H. destruct (levels_total _ Hds) as (levels & m & Hlev & Hok).
  apply bind_Ok in H as (u & _ & H). rewrite Hlev in H. cbn [mbind result_bind] in H.
  apply bind_Ok in H as ([pd pn] & Hloop & H). apply bind_Ok in H as (ph & Hph & H). injection H as <- <-.
  apply lowered_loop in Hloop as [[H1 H2] Hd Hn]. cbn [fst snd] in *. apply try_map_Ok in Hph. exists levels.
  assert (∀ p phase, ph !! p = Some phase → ∃ pair, pd !! p = Some pair ∧ TwoQueuePhase_new pair.1 pair.2 = Ok phase) as Hbuild.
  { intros p phase Hp. destruct (Forall2_lookup_r _ _ _ _ _ Hph Hp) as ([p' pair] & Hpair & Hb). rewrite lookup_enumerate in Hpair.
    destruct (pd !! p) as [pair'|] eqn:E; [|done]. injection Hpair as <- <-. exists pair'. split; [done|]. unfold build_phase in Hb.
    apply bind_Ok in Hb as (u' & _ & Hb). by destruct (TwoQueuePhase_new pair'.1 pair'.2) eqn:E2; [apply Ok_inj in Hb as <-|..]. }
  split.
  - exists m. split; [done|]. apply Forall2_length in Hph. rewrite length_enumerate in Hph. lia.
  - apply Forall_lookup_2. intros p phase Hp. destruct (Hbuild p phase Hp) as (pair & _ & Hb). by exists pair.1, pair.2.
  - intros p phase l Hp Hl. destruct (Hbuild p phase Hp) as (pair & Hpair & Hb). specialize (Hd p pair l Hpair Hl).
    unfold TwoQueuePhase_new in Hb. apply bind_Ok in Hb as (u' & _ & Hb). apply Ok_inj in Hb as <-. cbn. by destruct l as [|[|?]]; [..|lia].
  - done.
Qed.

(** ** Positions *)

Section ranks.
Context {A : Type} (P : A → Prop) `{!∀ x, Decision (P x)}.

Lemma filter_lookup l i x : l !! i = Some x → P x → filter P l !! length (filter P (take i l)) = Some x.
Proof using Type.
  revert i. induction l as [|y l IH]; intros [|i] Hi Hx; [done|done| |]; cbn in Hi; cbn [take].
  - injection Hi as ->. by rewrite filter_cons, decide_True.
  - rewrite !filter_cons. destruct (decide (P y)); cbn; by apply IH.
Qed.

Lemma filter_lookup_inv l k x : filter P l !! k = Some x → ∃ i, l !! i = Some x ∧ P x ∧ k = length (filter P (take i l)).
Proof using Type.
  revert k. induction l as [|y l IH]; intros k; [done|]. rewrite filter_cons. destruct (decide (P y)) as [Hy|Hy].
  - destruct k as [|k]; cbn; [intros [= ->]; by exists 0|]. intros Hk. destruct (IH k Hk) as (i & Hi & Hx & ->). exists (S i).
    split; [done|]. split; [done|]. cbn [take]. rewrite filter_cons, decide_True by done. done.
  - intros Hk. destruct (IH k Hk) as (i & Hi & Hx & ->). exists (S i). split; [done|]. split; [done|]. cbn [take]. by rewrite filter_cons, decide_False.
Qed.
End ranks.

#[export] Existing Instance member_dec.

Section sound.
Context (gpu : AgentInfo) (pool : KernargPool) (bindings : ReplayBindings) (kernels : AqlKernelCatalog).
Context (allocations : nat → PoolAllocation).
Context (ds : list PlannedDispatch) (Hds : lowerable 2 ds) (levels : list nat).
Context (phases : list TwoQueuePhase) (nodes : list (list NodeId * list NodeId)).
Context (Hph : phases_of gpu pool bindings kernels allocations ds levels phases nodes).
Local Abbreviation idx d := (node_index (planned_node d)).
Local Abbreviation record := (record_dispatch gpu pool bindings kernels allocations).

(** The place of a dispatch among those of its phase and queue. *)
Definition rank (p l i : nat) : nat := length (filter (member levels p l) (take i (enumerate ds))).

Lemma dispatch_phase i d : ds !! i = Some d → ∃ p, levels !! idx d = Some p ∧ p < length phases ∧ planned_lane d < 2.
Proof using Hds Hph.
  intros Hi. destruct (ph_levels _ _ _ _ _ _ _ _ _ Hph) as (m & Hok & Hlen & _).
  destruct (lv_level _ _ _ Hok i d) as (p & Hp & Hm & _); [by eapply lookup_lt_Some|done|]. exists p. cbn [fst snd] in *.
  split; [done|]. split; [lia|]. by eapply (lw_lane _ _ Hds).
Qed.

(** A dispatch of the plan is a dispatch of the batch. *)
Lemma dispatch_place T t i d p : t < T → ds !! i = Some d → levels !! idx d = Some p →
  ∃ rd, record (i, d) = Ok rd ∧ dispatch_at phases T t p (planned_lane d) (rank p (planned_lane d) i) rd.
Proof using Hds Hph.
  intros Ht Hi Hp. destruct (dispatch_phase i d Hi) as (p' & Hp' & Hlt & Hl). rewrite Hp in Hp'. injection Hp' as <-.
  destruct (lookup_lt_is_Some_2 phases p Hlt) as [phase Hphase].
  pose proof (ph_dispatches _ _ _ _ _ _ _ _ _ Hph p phase (planned_lane d) Hphase Hl) as HF.
  destruct (Forall2_lookup_l _ _ _ (rank p (planned_lane d) i) (i, d) HF) as (rd & Hrd & Hrec).
  { apply filter_lookup; [by rewrite lookup_enumerate, Hi|]. by split. }
  exists rd. split; [done|]. split; [done|]. split; [done|]. eauto.
Qed.

Lemma dispatch_place_inv T t p l k rd : dispatch_at phases T t p l k rd → ∃ i d, ds !! i = Some d ∧ levels !! idx d = Some p ∧
  planned_lane d = l ∧ k = rank p l i ∧ record (i, d) = Ok rd.
Proof using Hph.
  intros (Ht & Hl & phase & Hp & Hk). pose proof (ph_dispatches _ _ _ _ _ _ _ _ _ Hph p phase l Hp Hl) as HF.
  destruct (Forall2_lookup_r _ _ _ _ _ HF Hk) as ([i d] & Hf & Hrec).
  apply filter_lookup_inv in Hf as (i' & Hi & [Hlev Hlane] & ->). rewrite lookup_enumerate in Hi.
  destruct (ds !! i') as [d'|] eqn:E; [|done]. injection Hi as -> ->. exists i, d. done.
Qed.

Lemma rank_lt p l i j di : i < j → ds !! i = Some di → levels !! idx di = Some p → planned_lane di = l → rank p l i < rank p l j.
Proof using Type.
  clear Hds Hph. intros Hij Hi Hp Hl. unfold rank. assert (enumerate ds !! i = Some (i, di)) as He by (by rewrite lookup_enumerate, Hi).
  assert (take j (enumerate ds) !! i = Some (i, di)) as Ht by (by rewrite lookup_take_lt).
  pose proof (filter_lookup (member levels p l) _ _ _ Ht (conj Hp Hl)) as Hf. apply lookup_lt_Some in Hf.
  rewrite take_take in Hf. by rewrite Nat.min_l in Hf by lia.
Qed.

(** The position of the packet of dispatch [i] of token [t]. *)
Definition packet_index (place : nat → nat → nat → nat → nat) (t i : nat) : nat :=
  match ds !! i with
  | Some d => match levels !! idx d with Some p => place t p (planned_lane d) (rank p (planned_lane d) i) | None => 0 end
  | None => 0
  end.

Lemma packet_at_place place t i d p : ds !! i = Some d → levels !! idx d = Some p →
  packet_index place t i = place t p (planned_lane d) (rank p (planned_lane d) i).
Proof using Type. intros Hi Hp. unfold packet_index. by rewrite Hi, Hp. Qed.

(** Along the edges of the graph the level grows. *)
Lemma level_edges r options plan u w : rec_wf r → plan_of r options plan → ds = plan_dispatches plan → tc (edge (edges r)) u w →
  ∀ i j di dj l l', ds !! i = Some di → ds !! j = Some dj → planned_node di = u → planned_node dj = w →
  levels !! idx di = Some l → levels !! idx dj = Some l' → l < l'.
Proof using Hds Hph.
  intros Hwf Hp Hdp Ht. destruct (ph_levels _ _ _ _ _ _ _ _ _ Hph) as (m & Hok & _).
  assert (∀ x y i j di dj l l', edge (edges r) x y → ds !! i = Some di → ds !! j = Some dj →
    planned_node di = x → planned_node dj = y → levels !! idx di = Some l → levels !! idx dj = Some l' → l < l') as Hone.
  { intros x y i j di dj l l' He Hi Hj <- <- Hl Hl'. eapply (level_deps _ levels m i j di dj); [done..| |done|done].
    rewrite (planned_deps r options plan Hp dj) by (rewrite <- Hdp; by eapply list_elem_of_lookup_2). by apply elem_of_predecessors. }
  induction Ht as [u w He|u x w He Ht IH]; intros i j di dj l l' Hi Hj Hu Hw Hl Hl'; [by eapply (Hone u w i j di dj)|].
  assert (x ∈ planned_node <$> ds) as Hx.
  { rewrite Hdp. apply (po_all _ _ _ Hp). by apply (wf_edges r Hwf _ x He). }
  apply list_elem_of_fmap in Hx as (dk & Hxk & [k Hk]%list_elem_of_lookup).
  destruct (dispatch_phase k dk Hk) as (lk & Hlk & _). transitivity lk; [by eapply (Hone u x i k di dk)|by eapply (IH k j dk dj)].
Qed.
End sound.

(** ** Headers *)

Lemma collect_map_get {K V} `{OrdKey K} (l : list (K * V)) k v : NoDup l.*1 → (k, v) ∈ l → bmap_get k (collect_map l) = Some v.
Proof.
  unfold collect_map. induction l as [|[k' v'] l IH] using rev_ind; intros Hnd Hin; [by apply not_elem_of_nil in Hin|].
  rewrite fmap_app in Hnd. apply NoDup_app in Hnd as (Hnd & Hdis & _). rewrite foldl_app. cbn.
  apply elem_of_app in Hin as [Hin|Hin].
  - rewrite bmap_get_insert_ne; [by apply IH|]. intros ->. apply (Hdis k'); [|left]. apply list_elem_of_fmap. by exists (k', v).
  - apply list_elem_of_singleton in Hin as [= -> ->]. apply bmap_get_insert_eq.
Qed.

(** The header of a dispatch in a token. *)
Definition token_header (policy : DerivedDispatchPolicy) (t : nat) : HeaderPolicy :=
  let first := ddp_header policy in
  if bool_decide (t = 0) then first
  else mkHeaderPolicy (policy_barrier first)
    (if existsb is_raw_consumer (ddp_acquire_reasons policy) then ScopeAgent else ScopeNone) (policy_release first).

Lemma node_headers_Ok by_node node x : node_headers by_node node = Ok x → ∃ policy, bmap_get node by_node = Some policy ∧
  x = (token_header policy 0, token_header policy 1).
Proof. unfold node_headers. intros H. apply bind_Ok in H as (policy & Hp & H). apply ok_or_Ok in Hp. apply Ok_inj in H as <-. eauto. Qed.

Lemma lower_policies_Ok plan nodes v policies t p pair l k node policy : lower_policies plan nodes v = Ok policies →
  NoDup (ddp_node <$> dvp_dispatches v) → nodes !! p = Some pair → l < 2 → at_lane pair l !! k = Some node →
  policy ∈ dvp_dispatches v → ddp_node policy = node → derived_headers policies t p l k = Some (token_header policy t).
Proof.
  intros H Hnd Hp Hl Hk Hpol Hnode. unfold lower_policies in H. apply bind_Ok in H as (headers & Hh & H).
  apply bind_Ok in H as (consolidation & _ & H). apply Ok_inj in H as <-. apply try_map_Ok in Hh.
  destruct (Forall2_lookup_l _ _ _ _ _ Hh Hp) as ([zero one] & Hzo & Hx).
  apply bind_Ok in Hx as (z & Hz & Hx). apply bind_Ok in Hx as (o & Ho & Hx). injection Hx as -> ->.
  apply try_map_Ok in Hz, Ho.
  assert (Forall2 (λ x y, node_headers (collect_map ((λ policy, (ddp_node policy, policy)) <$> dvp_dispatches v)) x = Ok y)
    (at_lane pair l) (at_lane (zero, one) l)) as HF by (destruct l as [|[|?]]; [done..|lia]).
  destruct (Forall2_lookup_l _ _ _ _ _ HF Hk) as (x & Hx & Hn). apply node_headers_Ok in Hn as (policy' & Hget & ->).
  rewrite (collect_map_get _ node policy) in Hget.
  - injection Hget as <-. unfold derived_headers. cbn [first_dispatches repeated_dispatches]. unfold token_header at 1.
    case_bool_decide as Ht; rewrite list_lookup_fmap, Hzo; cbn [fmap option_fmap option_map mbind option_bind];
      destruct l as [|[|?]]; [| |lia| | |lia]; cbn [at_lane fst snd] in *; rewrite list_lookup_fmap, Hx; done.
  - rewrite <- list_fmap_compose. erewrite list_fmap_ext; [exact Hnd|]. done.
  - apply list_elem_of_fmap. exists policy. by rewrite Hnode.
Qed.

Lemma visibility_nodes r p boundary acq rel v : visibility_ok r p boundary acq rel v →
  ddp_node <$> dvp_dispatches v = planned_node <$> plan_dispatches p.
Proof.
  intros Hv. apply list_eq. intros i. rewrite !list_lookup_fmap.
  destruct (plan_dispatches p !! i) as [d|] eqn:Hd, (dvp_dispatches v !! i) as [pol|] eqn:Hpol; cbn; [|exfalso..|done].
  - f_equal. by eapply pk_node, (vo_policy _ _ _ _ _ _ Hv).
  - apply lookup_lt_Some in Hd. apply lookup_ge_None in Hpol. pose proof (vo_len _ _ _ _ _ _ Hv). lia.
  - apply lookup_lt_Some in Hpol. apply lookup_ge_None in Hd. pose proof (vo_len _ _ _ _ _ _ Hv). lia.
Qed.

Lemma lower_policies_consolidation plan nodes v policies r boundary acq rel : lower_policies plan nodes v = Ok policies →
  visibility_ok r plan boundary acq rel v → policy_barrier (consolidation_policy policies) = true.
Proof.
  intros H Hv. unfold lower_policies in H. apply bind_Ok in H as (headers & _ & H). apply bind_Ok in H as (consolidation & Hc & H).
  apply Ok_inj in H as <-. cbn. apply ok_or_Ok in Hc. rewrite (vo_consolidations _ _ _ _ _ _ Hv) in Hc.
  destruct (head (consolidations _)) as [c|] eqn:E; [|done]. injection Hc as <-.
  assert (c ∈ consolidations (lane_prefix plan (length (plan_dispatches plan)) <$> seq 0 (plan_lane_count plan))) as Hin.
  { destruct (consolidations _); [done|]. injection E as ->. left. }
  apply elem_of_consolidations in Hin as (covered & _ & _ & ->). done.
Qed.

(** A dispatch reads a region that the plan writes and that no earlier dispatch
    of the token has touched. *)
Definition crosses_tokens (ds : list PlannedDispatch) : Prop := ∃ i d read j e write,
  ds !! i = Some d ∧ read ∈ planned_accesses d ∧ access_mode read = Read ∧
  ds !! j = Some e ∧ write ∈ planned_accesses e ∧ access_mode write = Write ∧
  overlaps (access_region write) (access_region read) = true ∧
  ∀ k prior a, k < i → ds !! k = Some prior → a ∈ planned_accesses prior → access_mode a = Write →
    overlaps (access_region a) (access_region read) = false.

Lemma writes_over_spec d read : writes_over d read = true ↔
  ∃ a, a ∈ planned_accesses d ∧ access_mode a = Write ∧ overlaps (access_region a) (access_region read) = true.
Proof.
  unfold writes_over. rewrite existsb_exists. split.
  - intros (a & Ha%list_elem_of_In & [Hm%bool_decide_eq_true Ho]%andb_true_iff). eauto.
  - intros (a & Ha & Hm & Ho). exists a. split; [by apply list_elem_of_In|]. apply andb_true_iff. split; [by apply bool_decide_eq_true|done].
Qed.

Lemma crosses_tokens_iff p : has_cross_token_raw p = true ↔ crosses_tokens (plan_dispatches p).
Proof.
  unfold has_cross_token_raw, crosses_tokens. rewrite existsb_exists. split.
  - intros ([i d] & Hin%list_elem_of_In%elem_of_enumerate & H). apply existsb_exists in H as (read & Hread%list_elem_of_In & H).
    apply andb_true_iff in H as [Hr [Hno Hyes]%andb_true_iff]. apply bool_decide_eq_true in Hr.
    apply existsb_exists in Hyes as (e & [j Hj]%list_elem_of_In%list_elem_of_lookup_1 & Hw). apply writes_over_spec in Hw as (a & Ha & Hm & Ho).
    exists i, d, read, j, e, a. repeat (split; [done|]). intros k prior a' Hk Hp Ha' Hm'. apply not_true_iff_false. intros Ho'.
    apply negb_true_iff, not_true_iff_false in Hno. apply Hno, existsb_exists. exists prior.
    split; [apply list_elem_of_In, (list_elem_of_lookup_2 _ k); by rewrite lookup_take_lt|]. apply writes_over_spec. eauto.
  - intros (i & d & read & j & e & a & Hi & Hread & Hr & Hj & Ha & Hm & Ho & Hno). exists (i, d).
    split; [by apply list_elem_of_In, elem_of_enumerate|]. apply existsb_exists. exists read. split; [by apply list_elem_of_In|].
    apply andb_true_iff. split; [by apply bool_decide_eq_true|]. apply andb_true_iff. split.
    + apply negb_true_iff, not_true_iff_false. intros (prior & Hin%list_elem_of_In & Hw)%existsb_exists.
      apply list_elem_of_lookup_1 in Hin as [k Hk]. apply lookup_take_Some in Hk as [Hk Hlt].
      apply writes_over_spec in Hw as (a' & Ha' & Hm' & Ho'). by rewrite (Hno k prior a' Hlt Hk Ha' Hm') in Ho'.
    + apply existsb_exists. exists e. split; [by eapply list_elem_of_In, list_elem_of_lookup_2|]. apply writes_over_spec. eauto.
Qed.

Lemma lower_policies_cross plan nodes v policies : lower_policies plan nodes v = Ok policies → crosses_tokens (plan_dispatches plan) →
  policy_release (consolidation_policy policies) = ScopeAgent ∧ policy_acquire (dependency_policy policies) = ScopeAgent.
Proof.
  intros H Hcross%crosses_tokens_iff. unfold lower_policies in H. apply bind_Ok in H as (headers & _ & H).
  apply bind_Ok in H as (consolidation & _ & H). apply Ok_inj in H as <-. cbn. by rewrite Hcross.
Qed.

Lemma lower_policies_terminal plan nodes v policies : lower_policies plan nodes v = Ok policies →
  terminal_policy policies = tvp_header (dvp_terminal v).
Proof.
  unfold lower_policies. intros H. apply bind_Ok in H as (headers & _ & H). apply bind_Ok in H as (consolidation & _ & H).
  by apply Ok_inj in H as <-.
Qed.

(** ** Prepared plans *)

(** The packet of a planned dispatch: the registered kernel of that name, with
    the recorded interface and identity; the launch's dimensions; the address of
    a buffer that holds the packed arguments. *)
Record packet_of (kernels : AqlKernelCatalog) (bindings : ReplayBindings) (d : PlannedDispatch) (header : HeaderPolicy)
    (k : KernelDispatchPacket) (buffer : KernargBuffer) : Prop := {
  pf_kernel : ∃ registered, bmap_get (kernel (planned_launch d)) (akc_entries kernels) = Some registered ∧
    kernarg_abi (planned_launch d) = Some (akb_abi registered) ∧
    artifact_identity (planned_launch d) = Some (akb_identity registered) ∧
    kdp_kernel_object k = kernel_object (kernel_metadata (akb_kernel registered)) ∧
    kdp_group_segment_size k =
      (group_segment_size (kernel_metadata (akb_kernel registered)) + dynamic_shared_bytes (planned_launch d))%Z ∧
    ∃ fresh, pack_kernarg (arguments (planned_launch d)) (akb_abi registered) bindings fresh = (buffer, Ok tt);
  pf_block : kdp_workgroup k = block (planned_launch d);
  pf_grid : kdp_grid k = mkDim3 (dim_x (grid (planned_launch d)) * dim_x (block (planned_launch d)))
    (dim_y (grid (planned_launch d)) * dim_y (block (planned_launch d)))
    (dim_z (grid (planned_launch d)) * dim_z (block (planned_launch d)));
  pf_kernarg : kdp_kernarg_address k = kernarg_address buffer;
  pf_header : header_states (Z.land (kdp_full_header k) 65535) PACKET_TYPE_KERNEL_DISPATCH header }.

Lemma from_hip_workgroups_Ok n w g : from_hip_workgroups n w = Ok g →
  dimensions g = 3%Z ∧ workgroup g = w ∧ grid_workitems g = mkDim3 (dim_x n * dim_x w) (dim_y n * dim_y w) (dim_z n * dim_z w).
Proof.
  unfold from_hip_workgroups, from_workgroups. intros H. apply bind_Ok in H as (g' & H & He). apply Ok_inj in He as <-.
  apply bind_Ok in H as (items & Hi & H). apply try_map_Ok in Hi. unfold axes in Hi.
  apply Forall2_cons_inv_l in Hi as (x & r1 & Hx & Hi & ->). apply Forall2_cons_inv_l in Hi as (y & r2 & Hy & Hi & ->).
  apply Forall2_cons_inv_l in Hi as (z & r3 & Hz & Hi & ->). apply Forall2_nil_inv_l in Hi as ->.
  apply ok_or_Ok, checked_mul_Some in Hx as [-> _], Hy as [-> _], Hz as [-> _].
  unfold LaunchGeometry_new in H. inv_ok. done.
Qed.

Lemma record_dispatch_Ok gpu pool bindings kernels allocations i d rd l completion header x :
  record_dispatch gpu pool bindings kernels allocations (i, d) = Ok rd → kernel_spec l rd completion header x →
  ∃ k, x = (l, KernelPacket k) ∧ packet_of kernels bindings d header k (rd_kernarg rd).
Proof.
  intros H (k & -> & _ & _ & _ & Hk). exists k. split; [done|]. unfold record_dispatch in H.
  apply bind_Ok in H as ([registered abi] & Hreg & H). apply bind_Ok in H as (fresh & _ & H).
  destruct (pack_kernarg (arguments (planned_launch d)) abi bindings fresh) as [buffer packed] eqn:Hpack.
  apply bind_Ok in H as ([] & -> & H). apply bind_Ok in H as (bx & Hbx & H). apply bind_Ok in H as (by_ & Hby & H).
  apply bind_Ok in H as (bz & Hbz & H). apply bind_Ok in H as (geometry & Hgeo & H). apply bind_Ok in H as (u & _ & H).
  apply bind_Ok in H as (rd0 & Hrd & H).
  unfold registered_kernel in Hreg. apply bind_Ok in Hreg as (reg & Hget & Hreg). apply ok_or_Ok in Hget.
  apply bind_Ok in Hreg as (abi' & Habi & Hreg). apply ok_or_Ok in Habi. apply bind_Ok in Hreg as (u1 & Ha & Hreg).
  apply err_if_Ok, negb_false_iff, bool_decide_eq_true in Ha. apply bind_Ok in Hreg as (identity & Hid & Hreg). apply ok_or_Ok in Hid.
  apply bind_Ok in Hreg as (u2 & Hi & Hreg). apply err_if_Ok, negb_false_iff, bool_decide_eq_true in Hi. injection Hreg as <- <-. subst.
  assert (rd = mkRecordedDispatch (planned_lane d) (akb_kernel reg) geometry buffer (dynamic_shared_bytes (planned_launch d)) []) as ->.
  { unfold RecordedDispatch_new in Hrd. destruct (_ ;; _) as [rd1|e|] eqn:E in Hrd; [|done..]. apply Ok_inj in Hrd as <-.
    apply bind_Ok in E as (u3 & _ & E). apply bind_Ok in E as (u4 & _ & E). apply Ok_inj in E as <-. by apply Ok_inj in H as <-. }
  destruct (from_hip_workgroups _ _) as [geometry'|e|] eqn:Hg in Hgeo; [|done..]. apply Ok_inj in Hgeo as <-.
  apply from_hip_workgroups_Ok in Hg as (Hdim & Hw & Hgr). cbn [rd_kernel rd_geometry rd_kernarg dynamic_group_bytes] in *.
  unfold to_u16 in *. apply bind_Ok in Hbx as (? & _ & Hbx), Hby as (? & _ & Hby), Hbz as (? & _ & Hbz).
  apply Ok_inj in Hbx as <-, Hby as <-, Hbz as <-.
  apply new_with_policy_Ok in Hk as (_ & _ & _ & _ & ->). split; cbn [kdp_kernel_object kdp_workgroup kdp_grid kdp_kernarg_address kdp_group_segment_size].
  - exists reg. split; [done|]. split; [done|]. split; [done|]. split; [done|]. split; [done|]. eauto.
  - rewrite Hw. by destruct (block (planned_launch d)).
  - by rewrite Hgr.
  - done.
  - cbn [kdp_full_header]. rewrite Hdim. by destruct (published_word header 3) as [? _]; [lia|].
Qed.

Section prepared.
Context (sha256 : list Z → list Z) (r : Recorder) (options : CompileOptions) (p : CompiledPlan).
Context (Hr : recorded r) (Hl : option_lane_count options ≠ 0) (Hc : compile sha256 r options = Ok p).
Context (gpu : AgentInfo) (pool : KernargPool) (kernels : AqlKernelCatalog) (allocations : nat → PoolAllocation).
Context (queue_outcomes : nat → QueueCreation) (signals : nat → SignalCreation) (enable : result RuntimeError unit)
  (frequency : result RuntimeError Z) (Hdist : distinct_signals signals).
Local Abbreviation ds := (plan_dispatches p).

(** What a successful preparation leaves. *)
Record prepared_ok (bindings : ReplayBindings) (T : nat) (boundary : ApiBoundary) (prepared : PreparedAqlPlan)
    (policies : TwoQueueDerivedPolicies) (levels : list nat) (place : nat → nat → nat → nat → nat) : Prop := {
  pd_tokens : T ≠ 0;
  pd_lowerable : lowerable 2 ds;
  pd_phases : phases_of gpu pool bindings kernels allocations ds levels (sb_phases (pap_graph prepared)) (pap_phase_nodes prepared);
  pd_order : batch_order (sb_phases (pap_graph prepared)) T (derived_headers policies)
    (derived_closing (consolidation_policy policies)) (dependency_policy policies) (terminal_policy policies)
    (sb_final_signal (pap_graph prepared)) (sb_pushes (pap_graph prepared)) place;
  pd_header t i d : ds !! i = Some d → ∃ pol level, levels !! node_index (planned_node d) = Some level ∧
    dvp_dispatches (pap_visibility prepared) !! i = Some pol ∧
    derived_headers policies t level (planned_lane d) (rank ds levels level (planned_lane d) i) = Some (token_header pol t);
  pd_cross : crosses_tokens ds → policy_release (consolidation_policy policies) = ScopeAgent ∧
    policy_acquire (dependency_policy policies) = ScopeAgent;
  pd_terminal : terminal_policy policies = tvp_header (dvp_terminal (pap_visibility prepared));
  pd_visibility : ∃ acq rel, raw_inv p (index_pairs (length ds)) (acq, rel) ∧
    visibility_ok r p boundary acq rel (pap_visibility prepared) }.

Lemma aql_prepare_Ok bindings T boundary profile prepared :
  prepare_internal sha256 gpu pool kernels allocations queue_outcomes signals enable frequency p bindings T boundary profile = Ok prepared →
  ∃ policies levels place, prepared_ok bindings T boundary prepared policies levels place.
Proof using Hr Hl Hc Hdist.
  destruct (compile_Ok _ _ _ _ Hr Hl Hc) as (Hwf & Hno & Hp & _). intros H. unfold prepare_internal in H.
  apply bind_Ok in H as (u1 & _ & H). apply bind_Ok in H as (u2 & Hlanes & H).
  apply err_if_Ok, negb_false_iff, bool_decide_eq_true in Hlanes. apply bind_Ok in H as (u3 & HT & H). apply err_if_Ok, bool_decide_eq_false in HT.
  apply bind_Ok in H as (u4 & _ & H). apply bind_Ok in H as ([phases nodes] & Hphases & H).
  pose proof (plan_lowerable r options p Hwf Hp) as Hlow. rewrite Hlanes in Hlow.
  destruct (lower_phases_Ok _ _ _ _ _ _ _ _ Hlow Hphases) as (levels & Hph).
  apply bind_Ok in H as (v & Hv & H). destruct (derive_aql_visibility p boundary) as [v'|e|] eqn:Hder; [|done..]. apply Ok_inj in Hv as ->.
  pose proof (derive_total r options p boundary Hwf Hp Hno) as Ht. rewrite Hder in Ht. destruct Ht as (_ & acq & rel & Hri & Hvis).
  apply bind_Ok in H as (policies & Hpol & H). do 4 (apply bind_Ok in H as (? & _ & H)). apply bind_Ok in H as (qs & _ & H).
  apply bind_Ok in H as (graph & Hg & H). apply bind_Ok in H as (stamp & _ & H). apply Ok_inj in H as <-.
  destruct (create_derived _ _ _ _ _ _ _ _ _) as [g'|e|] eqn:Hcreate in Hg; [|done..]. apply Ok_inj in Hg as ->.
  assert (policy_barrier (consolidation_policy (set_profile policies profile)) = true) as Hcons
    by exact (lower_policies_consolidation _ _ _ _ _ _ _ _ Hpol Hvis).
  destruct (derived_order gpu queue_outcomes signals Hdist _ _ _ _ _ _ _ Hcons Hcreate) as (place & Horder).
  assert (sb_phases graph = phases) as Hsb by apply (derived_built _ _ _ _ _ _ _ _ _ _ Hcreate).
  exists (set_profile policies profile), levels, place.
  split; cbn [pap_graph pap_phase_nodes pap_visibility]; rewrite ?Hsb;
    [done|done|done|exact Horder| |exact (lower_policies_cross _ _ _ _ Hpol)|exact (lower_policies_terminal _ _ _ _ Hpol)|eauto].
  intros t i d Hi. destruct (dispatch_phase _ _ _ _ _ _ Hlow _ _ _ Hph i d Hi) as (level & Hlevel & _ & Hl2).
  destruct (lookup_lt_is_Some_2 (dvp_dispatches v) i) as [pol Hpi]; [rewrite (vo_len _ _ _ _ _ _ Hvis); by eapply lookup_lt_Some|].
  exists pol, level. split; [done|]. split; [done|]. destruct (ph_levels _ _ _ _ _ _ _ _ _ Hph) as (m & Hok & _ & Hnl).
  destruct (lv_level _ _ _ Hok i d) as (level' & Hlv & Hm & _); [by eapply lookup_lt_Some|done|]. cbn [fst snd] in *.
  rewrite Hlevel in Hlv. injection Hlv as <-. destruct (lookup_lt_is_Some_2 nodes level) as [pair Hpair]; [lia|].
  change (derived_headers (set_profile policies profile)) with (derived_headers policies).
  eapply (lower_policies_Ok p nodes v policies t level pair); [done| |done|done| | |].
  - rewrite (visibility_nodes r p boundary acq rel v Hvis). apply (po_nodes _ _ _ Hp).
  - rewrite (ph_nodes _ _ _ _ _ _ _ _ _ Hph level pair _ Hpair Hl2), list_lookup_fmap.
    unfold rank. rewrite (filter_lookup (member levels level (planned_lane d)) (enumerate ds) i (i, d)); [done|by rewrite lookup_enumerate, Hi|by split].
  - by eapply list_elem_of_lookup_2.
  - apply (pk_node _ _ _ _ _ _ _ _ _ (vo_policy _ _ _ _ _ _ Hvis i d pol Hi Hpi)).
Qed.

(** A dispatch of the plan, its packet and its buffer. *)
Lemma prepared_packet bindings T boundary prepared policies levels place t i d : prepared_ok bindings T boundary prepared policies levels place →
  t < T → ds !! i = Some d → ∃ k level rd pol, levels !! node_index (planned_node d) = Some level ∧
    dispatch_at (sb_phases (pap_graph prepared)) T t level (planned_lane d) (rank ds levels level (planned_lane d) i) rd ∧
    sb_pushes (pap_graph prepared) !! packet_index ds levels place t i = Some (planned_lane d, KernelPacket k) ∧
    dvp_dispatches (pap_visibility prepared) !! i = Some pol ∧
    packet_of kernels bindings d (token_header pol t) k (rd_kernarg rd).
Proof using Type.
  clear Hr Hl Hc Hdist. intros [_ Hlow Hph Hord Hhead _ _ _] Ht Hi. destruct (Hhead t i d Hi) as (pol & level & Hlevel & Hpol & Hh).
  destruct (dispatch_place _ _ _ _ _ _ Hlow _ _ _ Hph T t i d level Ht Hi Hlevel) as (rd & Hrec & Hat).
  destruct (bt_kernel _ _ _ _ _ _ _ _ _ Hord _ _ _ _ _ Hat) as (completion & header & x & Hhd & Hx & Hs).
  rewrite Hh in Hhd. injection Hhd as <-. destruct (record_dispatch_Ok _ _ _ _ _ _ _ _ _ _ _ _ Hrec Hs) as (k & -> & Hk).
  exists k, level, rd, pol. rewrite (packet_at_place _ _ _ _ _ _ _ Hi Hlevel). done.
Qed.

(** The dispatches a prepared plan keeps, with their buffers. *)
Definition retained (prepared : PreparedAqlPlan) : list RecordedDispatch :=
  phase ← sb_phases (pap_graph prepared); lane_zero phase ++ lane_one phase.

Lemma retained_at prepared T t p0 l i rd : dispatch_at (sb_phases (pap_graph prepared)) T t p0 l i rd → rd ∈ retained prepared.
Proof using Type.
  clear. intros (_ & Hl & phase & Hp & Hi). unfold retained. apply list_elem_of_bind. exists phase.
  split; [|by eapply list_elem_of_lookup_2]. apply elem_of_app. apply list_elem_of_lookup_2 in Hi.
  destruct l as [|[|?]]; [by left|by right|lia].
Qed.

(** The promise of a prepared plan over [T] tokens. *)
Record aql_batch (bindings : ReplayBindings) (T : nat) (boundary : ApiBoundary) (prepared : PreparedAqlPlan)
    (place : nat → nat → nat) : Prop := {
  (** every dispatch of every token has its packet, at its own place, and there
      are no other kernel packets *)
  ab_packet t i d : t < T → ds !! i = Some d → ∃ k rd pol,
    sb_pushes (pap_graph prepared) !! place t i = Some (planned_lane d, KernelPacket k) ∧
    dvp_dispatches (pap_visibility prepared) !! i = Some pol ∧ rd ∈ retained prepared ∧
    packet_of kernels bindings d (token_header pol t) k (rd_kernarg rd);
  ab_once t t' i j : t < T → t' < T → i < length ds → j < length ds → place t i = place t' j → t = t' ∧ i = j;
  ab_only n l k : sb_pushes (pap_graph prepared) !! n = Some (l, KernelPacket k) → ∃ t i, t < T ∧ i < length ds ∧ n = place t i;
  (** the last packet, and no other, completes the final signal *)
  ab_final n l x : sb_pushes (pap_graph prepared) !! n = Some (l, x) →
    packet_completion x = sb_final_signal (pap_graph prepared) ↔ S n = length (sb_pushes (pap_graph prepared));
  ab_runnable : runnable (sb_pushes (pap_graph prepared));
  (** order on the device *)
  ab_order start stop t i j di dj : aql_execution (sb_pushes (pap_graph prepared)) start stop → t < T →
    ds !! i = Some di → ds !! j = Some dj →
    tc (edge (edges r)) (planned_node di) (planned_node dj) ∨ (i < j ∧ conflicting (planned_accesses di) (planned_accesses dj)) →
    (stop (place t i) ≤ start (place t j))%Z;
  ab_tokens start stop t t' i j : aql_execution (sb_pushes (pap_graph prepared)) start stop → t < t' → t' < T →
    i < length ds → j < length ds → (stop (place t i) ≤ start (place t' j))%Z;
  ab_end start stop t i : aql_execution (sb_pushes (pap_graph prepared)) start stop → t < T → i < length ds →
    (stop (place t i) ≤ stop (length (sb_pushes (pap_graph prepared)) - 1)%nat)%Z;
  (** fences inside a token: when a dispatch reads what an earlier one wrote, the
      kernel packet of the writer releases and that of the reader acquires *)
  ab_fences t i j di dj a b : t < T → i < j → ds !! i = Some di → ds !! j = Some dj →
    a ∈ planned_accesses di → b ∈ planned_accesses dj → access_mode a = Write → access_mode b = Read →
    overlaps (access_region a) (access_region b) = true → ∃ ki kj,
    sb_pushes (pap_graph prepared) !! place t i = Some (planned_lane di, KernelPacket ki) ∧
    sb_pushes (pap_graph prepared) !! place t j = Some (planned_lane dj, KernelPacket kj) ∧
    header_release (header_of (KernelPacket ki)) = scope_value ScopeAgent ∧
    (scope_value ScopeAgent ≤ header_acquire (header_of (KernelPacket kj)))%Z;
  (** fences between tokens: when some dispatch reads a region that the plan
      writes and no earlier dispatch of its token has written, a barrier that
      releases runs after each dispatch of a token, on its queue, and a barrier
      that acquires ends after it and before each dispatch of a later token, on
      the queue of that one *)
  ab_cross t t' i j di dj : crosses_tokens ds → t < t' → t' < T → ds !! i = Some di → ds !! j = Some dj → ∃ m n qm qn,
    sb_pushes (pap_graph prepared) !! m = Some (planned_lane di, BarrierPacket qm) ∧
    sb_pushes (pap_graph prepared) !! n = Some (planned_lane dj, BarrierPacket qn) ∧
    header_release (header_of (BarrierPacket qm)) = scope_value ScopeAgent ∧
    header_acquire (header_of (BarrierPacket qn)) = scope_value ScopeAgent ∧
    ∀ start stop, aql_execution (sb_pushes (pap_graph prepared)) start stop →
      (stop (place t i) ≤ start m ∧ stop m ≤ stop n ∧ stop n ≤ start (place t' j))%Z;
  (** the last packet has the header derived for the end of the batch *)
  ab_terminal : ∃ q, sb_pushes (pap_graph prepared) !! (length (sb_pushes (pap_graph prepared)) - 1) = Some (0, BarrierPacket q) ∧
    header_states (header_of (BarrierPacket q)) PACKET_TYPE_BARRIER_AND (tvp_header (dvp_terminal (pap_visibility prepared))) }.

(** The barriers between two tokens. *)
Lemma prepared_cross bindings T boundary prepared policies levels place t t' i j di dj :
  prepared_ok bindings T boundary prepared policies levels place → crosses_tokens ds → t < t' → t' < T →
  ds !! i = Some di → ds !! j = Some dj → ∃ m n qm qn,
    sb_pushes (pap_graph prepared) !! m = Some (planned_lane di, BarrierPacket qm) ∧
    sb_pushes (pap_graph prepared) !! n = Some (planned_lane dj, BarrierPacket qn) ∧
    header_release (header_of (BarrierPacket qm)) = scope_value ScopeAgent ∧
    header_acquire (header_of (BarrierPacket qn)) = scope_value ScopeAgent ∧
    ∀ start stop, aql_execution (sb_pushes (pap_graph prepared)) start stop →
      (stop (packet_index ds levels place t i) ≤ start m ∧ stop m ≤ stop n ∧ stop n ≤ start (packet_index ds levels place t' j))%Z.
Proof using Type.
  clear Hr Hl Hc Hdist. intros Hok Hcross Hlt Ht' Hi Hj. pose proof (pd_order _ _ _ _ _ _ _ Hok) as Hord.
  destruct (pd_cross _ _ _ _ _ _ _ Hok Hcross) as [Hrel Hacq].
  destruct (prepared_packet _ _ _ _ _ _ _ t i di Hok ltac:(lia) Hi) as (ki & level & rd & pol & Hlev & A1 & P1 & _).
  destruct (prepared_packet _ _ _ _ _ _ _ t' j dj Hok Ht' Hj) as (kj & level' & rd' & pol' & Hlev' & A2 & P2 & _).
  destruct (bt_between _ _ _ _ _ _ _ _ _ Hord _ _ _ _ _ _ _ _ _ _ A1 A2 (or_introl Hlt))
    as (m & c & n & qn & Hm & (qm & -> & Hcm) & Hn & Hqn & Hall).
  rewrite (packet_at_place _ _ _ _ _ _ _ Hi Hlev) in *. rewrite (packet_at_place _ _ _ _ _ _ _ Hj Hlev') in *.
  exists m, n, qm, qn. split; [done|]. split; [done|].
  destruct Hcm as (_ & _ & _ & Hqr & _), Hqn as (_ & _ & Hqa & _). rewrite Hqr, Hqa, Hrel, Hacq. split; [done|]. split; [done|].
  intros start stop Hex. destruct (Hall start stop Hex) as ([->|H1] & H2 & H3); [by rewrite P1 in Hm|done].
Qed.

Lemma prepared_sound bindings T boundary prepared policies levels place : prepared_ok bindings T boundary prepared policies levels place →
  aql_batch bindings T boundary prepared (packet_index ds levels place).
Proof using Hr Hl Hc.
  destruct (compile_Ok _ _ _ _ Hr Hl Hc) as (Hwf & Hno & Hp & _). intros Hok. pose proof Hok as [HT Hlow Hph Hord Hhead Hcross Hterm Hvis].
  assert (∀ t i, t < T → i < length ds → ∃ d level rd, ds !! i = Some d ∧ levels !! node_index (planned_node d) = Some level ∧
    packet_index ds levels place t i = place t level (planned_lane d) (rank ds levels level (planned_lane d) i) ∧
    dispatch_at (sb_phases (pap_graph prepared)) T t level (planned_lane d) (rank ds levels level (planned_lane d) i) rd) as Hat.
  { intros t i Ht Hi. destruct (lookup_lt_is_Some_2 _ _ Hi) as [d Hd].
    destruct (prepared_packet _ _ _ _ _ _ _ t i d Hok Ht Hd) as (k & level & rd & pol & Hlevel & Hrd & _).
    exists d, level, rd. split; [done|]. split; [done|]. split; [by apply packet_at_place|done]. }
  split.
  - intros t i d Ht Hi. destruct (prepared_packet _ _ _ _ _ _ _ t i d Hok Ht Hi) as (k & level & rd & pol & _ & Hrd & Hpush & Hpol & Hk).
    exists k, rd, pol. repeat (split; [done|]). split; [by eapply retained_at|done].
  - intros t t' i j Ht Ht' Hi Hj He. destruct (Hat t i Ht Hi) as (d & level & rd & Hd & Hlevel & E1 & A1).
    destruct (Hat t' j Ht' Hj) as (d' & level' & rd' & Hd' & Hlevel' & E2 & A2). rewrite E1, E2 in He.
    destruct (bt_once _ _ _ _ _ _ _ _ _ Hord _ _ _ _ _ _ _ _ _ _ A1 A2 He) as (-> & <- & Hlane & Hrank). split; [done|].
    destruct (Nat.lt_trichotomy i j) as [Hlt|[->|Hlt]]; [|done|].
    + pose proof (rank_lt ds levels level _ i j d Hlt Hd Hlevel eq_refl). rewrite Hlane in *. lia.
    + pose proof (rank_lt ds levels level _ j i d' Hlt Hd' Hlevel' eq_refl). rewrite Hlane in *. lia.
  - intros n l k Hn. destruct (bt_only _ _ _ _ _ _ _ _ _ Hord n l k Hn) as (t & level & q & rd & Hdis & ->).
    destruct (dispatch_place_inv _ _ _ _ _ _ _ _ _ Hph T t level l q rd Hdis) as (i & d & Hi & Hlevel & <- & -> & _).
    exists t, i. split; [apply Hdis|]. split; [by eapply lookup_lt_Some|]. symmetry. by apply packet_at_place.
  - apply (bt_final _ _ _ _ _ _ _ _ _ Hord).
  - apply (bt_runnable _ _ _ _ _ _ _ _ _ Hord).
  - intros start stop t i j di dj Hex Ht Hi Hj Hcase.
    destruct (Hat t i Ht (lookup_lt_Some _ _ _ Hi)) as (d & level & rd & Hd & Hlevel & -> & A1).
    destruct (Hat t j Ht (lookup_lt_Some _ _ _ Hj)) as (d' & level' & rd' & Hd' & Hlevel' & -> & A2).
    rewrite Hi in Hd. injection Hd as <-. rewrite Hj in Hd'. injection Hd' as <-.
    eapply (bt_phases _ _ _ _ _ _ _ _ _ Hord _ _ _ _ _ _ _ _ _ _ _ _ Hex A1 A2). right. split; [done|].
    assert (tc (edge (edges r)) (planned_node di) (planned_node dj)) as Htc.
    { destruct Hcase as [?|[Hij Hcon]]; [done|]. by apply (conflict_precedes sha256 r options p i j di dj). }
    by eapply (level_edges _ _ _ _ _ _ Hlow _ _ _ Hph r options p _ _ Hwf Hp eq_refl Htc i j di dj).
  - intros start stop t t' i j Hex Hlt Ht' Hi Hj. destruct (Hat t i ltac:(lia) Hi) as (d & level & rd & Hd & Hlevel & -> & A1).
    destruct (Hat t' j Ht' Hj) as (d' & level' & rd' & Hd' & Hlevel' & -> & A2).
    eapply (bt_phases _ _ _ _ _ _ _ _ _ Hord _ _ _ _ _ _ _ _ _ _ _ _ Hex A1 A2). by left.
  - intros start stop t i Hex Ht Hi. destruct (Hat t i Ht Hi) as (d & level & rd & Hd & Hlevel & -> & A1).
    by eapply (bt_end _ _ _ _ _ _ _ _ _ Hord).
  - intros t i j di dj a b Ht Hij Hi Hj Ha Hb Hma Hmb Hov. destruct Hvis as (acq & rel & Hri & Hv).
    destruct (prepared_packet _ _ _ _ _ _ _ t i di Hok Ht Hi) as (ki & level & rd & pi & _ & _ & Hpush & Hpi & [_ _ _ _ Hki]).
    destruct (prepared_packet _ _ _ _ _ _ _ t j dj Hok Ht Hj) as (kj & level' & rd' & pj & _ & _ & Hpush' & Hpj & [_ _ _ _ Hkj]).
    exists ki, kj. split; [done|]. split; [done|]. unfold header_of, packet_word. destruct Hki as (_ & _ & _ & -> & _), Hkj as (_ & _ & -> & _).
    destruct (overlap_raw p i j di dj a b) as [ov Hraw]; [done..|].
    destruct (raw_policies _ _ _ _ _ _ _ _ _ _ _ _ _ Hri Hv Hraw Hi Hj Hpi Hpj) as (Hrel & Hacq & Hreason).
    unfold token_header. case_bool_decide; [by rewrite Hrel|]. cbn [policy_release policy_acquire]. rewrite Hrel. split; [done|].
    assert (existsb is_raw_consumer (ddp_acquire_reasons pj) = true) as -> by (apply existsb_exists; exists (RawConsumer (planned_node di) ov); split; [by apply list_elem_of_In|done]). done.
  - intros t t' i j di dj. by apply prepared_cross with (bindings := bindings) (boundary := boundary) (policies := policies).
  - destruct (bt_last _ _ _ _ _ _ _ _ _ Hord) as (q & Hq & Hs). rewrite Hterm in Hs. eauto.
Qed.
End prepared.
