(* ===== verification/AqlClaims.v ===== *)
(** The theorems about prepared AQL plans and a concrete plan for them
    (src/crates/redline-dispatch/src/aql/generic.rs). *)

From S2P Require Import Prelude Ir Identity Recorder Graph Plan Packet Visibility Bindings HipLower Queue AqlGraph AqlOrder AqlBatch AqlPlan AqlSound.

(** C1: a compiled plan that was prepared for the hardware queues runs
    correctly on any device that follows the packet rules of HSA. Every dispatch
    of every token has exactly one kernel packet, with the registered kernel, the
    launch's dimensions, the address of a buffer with the packed arguments and
    the derived header, and there are no others. Nothing in the two batches can
    block. In every execution, whatever the queues overlap, a dispatch that
    depends on another or conflicts with it on memory starts after it has ended,
    a token starts after the earlier tokens have ended, and the final signal,
    which only the last packet completes, comes after all of them. When a
    dispatch reads what an earlier one of its token wrote, the header of the
    writer's packet releases and that of the reader's packet acquires at agent
    scope. When some dispatch reads a region that the plan writes and no earlier
    dispatch of the token overlaps, then between any dispatches of two tokens a
    barrier packet that releases at agent scope runs after the first one on its
    queue, and a barrier packet that acquires at agent scope ends after that and
    before the second one starts on its queue. The last packet has the header
    derived for the end of the batch. *)
Theorem aql_plan_sound sha256 r options p gpu pool kernels allocations queue_outcomes signals enable frequency
    bindings T boundary profile prepared :
  recorded r → option_lane_count options ≠ 0 → compile sha256 r options = Ok p → distinct_signals signals →
  prepare_internal sha256 gpu pool kernels allocations queue_outcomes signals enable frequency p bindings T boundary profile = Ok prepared →
  ∃ place, aql_batch r p kernels bindings T boundary prepared place.
Proof.
  intros Hr Hl Hc Hd H. destruct (aql_prepare_Ok sha256 r options p Hr Hl Hc _ _ _ _ _ _ _ _ Hd _ _ _ _ _ H) as (policies & levels & place & Hok).
  exists (packet_index (plan_dispatches p) levels place). by eapply prepared_sound.
Qed.

(** ** Concrete plans

    Four kernels on the halves of a buffer: "sum" reads what "load" wrote in the
    same token, and "norm" reads what "scale" wrote in the token before. *)
Definition quad_abi : KernargAbi :=
  match KernargAbi_new demo_sha256 4 4 [mkKernargField 0 4 4] with Ok a => a | _ => mkKernargAbi 0 0 [] (mkDigest []) end.
Definition quad_identity : KernelArtifactIdentity := mkArtifact (mkDigest (replicate 32 1%Z)) (mkDigest (replicate 32 2%Z)) 7.
Definition quad_launch (name : string) (x : Z) : KernelLaunch :=
  mkKernelLaunch name (mkDim3 2 1 1) (mkDim3 64 1 1) 0 [Scalar [x; 0; 0; 0]%Z] (Some quad_abi) (Some quad_identity) 3.
Definition quad_half (i : Z) : DeviceRegion := mkDeviceRegion (mkResourceId 1 0) (64 * i) 64.

Definition quad_recorder (nodes : list (string * Access)) (edges : list (nat * nat)) : Recorder :=
  let unordered := mkRecorder 1 [mkResource "state" 128]
    (imap (λ i k, mkNode (fork_node i) (quad_launch k.1 (Z.of_nat i)) [k.2]) nodes) [] in
  match try_fold (λ r e, Recorder_depends_on r (fork_node e.2) (fork_node e.1)) unordered edges with
  | Ok r => r
  | _ => unordered
  end.

Definition quad : Recorder := quad_recorder
  [("load", Access_write (quad_half 0)); ("norm", Access_read (quad_half 1));
   ("sum", Access_read (quad_half 0)); ("scale", Access_write (quad_half 1))]%string [(0, 2); (0, 3); (1, 2); (1, 3)].
Definition plan_or_demo (r : Recorder) : CompiledPlan := match compile demo_sha256 r demo_options with Ok p => p | _ => demo_plan end.
Definition quad_plan : CompiledPlan := plan_or_demo quad.

Lemma quad_launch_typed name x : trim_is_empty name = false → is_u64 (Z.of_nat (length (str_bytes name))) → is_u8 x →
  launch_typed (quad_launch name x).
Proof.
  intros Hn Hs Hx. unfold launch_typed, quad_launch, dim_typed; cbn [kernel grid block dynamic_shared_bytes arguments kernarg_abi artifact_identity estimated_work].
  split; [done|]. split; [done|]. split; [cbn; ulia|]. split; [cbn; ulia|]. split; [ulia|].
  split; [repeat constructor; cbn; try ulia; unfold is_u8 in *; lia|]. split; [cbn; ulia|].
  split; [intros abi [= <-]; reflexivity|]. split; [|ulia]. intros i [= <-]. split; [reflexivity|]. split; [reflexivity|]. cbn. ulia.
Qed.

Lemma quad_step r name x acc r' i : trim_is_empty name = false → is_u64 (Z.of_nat (length (str_bytes name))) → is_u8 x →
  region_wf (access_region acc) → Recorder_dispatch r (quad_launch name x) [acc] = Ok (r', i) → rec_step r r'.
Proof.
  intros Hn Hs Hx Hw H. eapply (step_dispatch _ (quad_launch name x) [acc]); [by apply quad_launch_typed|cbn; ulia|by constructor|exact H].
Qed.

Ltac record_quad name x acc :=
  eapply rtc_l; [eapply (quad_step _ name x acc); [reflexivity|cbn; ulia|done|done|vm_compute; reflexivity]|].
Ltac start_quad :=
  exists 1%Z, (mkRecorder 1 [] [] []), 2%Z; split; [ulia|]; split; [reflexivity|];
  eapply rtc_l; [eapply (step_resource _ "state" 128); [ulia|cbn; ulia|vm_compute; reflexivity]|].

Lemma quad_recorded : recorded quad.
Proof.
  start_quad. record_quad "load"%string 0%Z (Access_write (quad_half 0)). record_quad "norm"%string 1%Z (Access_read (quad_half 1)).
  record_quad "sum"%string 2%Z (Access_read (quad_half 0)). record_quad "scale"%string 3%Z (Access_write (quad_half 1)).
  record_edge 0 2. record_edge 0 3. record_edge 1 2. record_edge 1 3. vm_compute. apply rtc_refl.
Qed.

Lemma quad_compiles : compile demo_sha256 quad demo_options = Ok quad_plan.
Proof. vm_compute. reflexivity. Qed.

Definition quad_visibility : DerivedVisibilityPlan :=
  match derive_aql_visibility quad_plan ApiBoundary_default with Ok v => v | _ => demo_visibility end.
Lemma quad_derives : derive_aql_visibility quad_plan ApiBoundary_default = Ok quad_visibility.
Proof. vm_compute. reflexivity. Qed.

(** "load" and "sum" share a lane and the first half of the buffer; "scale" on the
    other lane also depends on "load". *)
Lemma derived_order_sound_witness :
  (∀ start stop, execution quad_plan quad_visibility start stop → (stop 0%nat ≤ start 2%nat)%Z) ∧
  ∃ policy reasons, dvp_dispatches quad_visibility !! 3 = Some policy ∧ policy_barrier (ddp_header policy) = true ∧
    ddp_barrier policy = Required reasons ∧ CrossLaneDependency (fork_node 0) ∈ reasons.
Proof.
  destruct (plan_dispatches quad_plan !! 0) as [d0|] eqn:H0; [|vm_compute in H0; discriminate H0].
  destruct (plan_dispatches quad_plan !! 2) as [d2|] eqn:H2; [|vm_compute in H2; discriminate H2].
  destruct (plan_dispatches quad_plan !! 3) as [d3|] eqn:H3; [|vm_compute in H3; discriminate H3].
  pose proof (derived_order_sound demo_sha256 quad demo_options quad_plan ApiBoundary_default quad_visibility 0 2 d0 d2
    quad_recorded ltac:(done) quad_compiles quad_derives H0 H2) as [Hlane _].
  pose proof (derived_order_sound demo_sha256 quad demo_options quad_plan ApiBoundary_default quad_visibility 0 3 d0 d3
    quad_recorded ltac:(done) quad_compiles quad_derives H0 H3) as [_ Hcross].
  vm_compute in H0, H2, H3. injection H0 as <-. injection H2 as <-. injection H3 as <-. split.
  - apply Hlane; [reflexivity|]. left. apply tc_once. vm_compute. left.
  - apply Hcross; [discriminate|]. vm_compute. right. left.
Defined.

Definition quad_kernel (name : string) (object : Z) : Kernel := mkKernel name (mkKernelMetadata object 4 4 0 0 false) 1.
Definition quad_kernels : AqlKernelCatalog :=
  match try_fold (λ c k, AqlKernelCatalog_register c k.1 (quad_kernel k.1 k.2) quad_abi quad_identity) AqlKernelCatalog_new
    [("load", 100); ("norm", 101); ("sum", 102); ("scale", 103)]%string%Z with Ok c => c | _ => AqlKernelCatalog_new end.
Definition quad_pool : KernargPool := mkKernargPool 1 4096 64.
Definition quad_bindings (base revision : Z) : ReplayBindings :=
  bind_resource ReplayBindings_new (mkResourceId 1 0) (mkBinding base 128 (mkRevision revision) HsaFine).
Definition quad_allocation (i : nat) : PoolAllocation := PoolPointer (4096 * Z.of_nat (S i)) 0.
Definition quad_signal (k : nat) : SignalCreation := SignalCreated (Z.of_nat (S k)).
Definition quad_queue (i : nat) : QueueCreation := Created false QUEUE_TYPE_MULTI 16 1 (Z.of_nat i) (replicate 16 (replicate 64 0%Z)).

Lemma quad_distinct : distinct_signals quad_signal.
Proof. intros j k raw [= <-] [= H]. lia. Qed.

Definition quad_prepare (plan : CompiledPlan) : result GenericAqlError PreparedAqlPlan :=
  prepare_internal demo_sha256 demo_agent quad_pool quad_kernels quad_allocation quad_queue quad_signal
    (Ok tt) (Ok 100%Z) plan (quad_bindings 65536 1) 2 ApiBoundary_default false.
Definition no_plan : PreparedAqlPlan := mkPreparedAqlPlan (mkSerializedBatch (mkQueueSet [] []) [] [] 0 [] 0 []) (mkStamp [] [] [] []) [] demo_visibility.
Definition quad_prepared : PreparedAqlPlan := match quad_prepare quad_plan with Ok q => q | _ => no_plan end.

Lemma quad_prepares : quad_prepare quad_plan = Ok quad_prepared.
Proof. vm_compute. reflexivity. Qed.

Lemma quad_dispatches : length (plan_dispatches quad_plan) = 4.
Proof. vm_compute. reflexivity. Qed.

Lemma quad_crosses : crosses_tokens (plan_dispatches quad_plan).
Proof. apply crosses_tokens_iff. vm_compute. reflexivity. Qed.

(** When packets run one at a time in push order: the last dispatch of the first
    token ends before the first dispatch of the second one starts; "load"
    releases for "sum"; a barrier that releases and one that acquires lie between
    "scale" and "norm" of the next token. *)
Lemma aql_plan_sound_witness : length (sb_pushes (pap_graph quad_prepared)) = 23 ∧
  ∃ place : nat → nat → nat, place 0 3 ≤ place 1 0 ∧ place 1 3 ≤ 22 ∧
    (∃ ki kj l l', sb_pushes (pap_graph quad_prepared) !! place 1 0 = Some (l, KernelPacket ki) ∧
      sb_pushes (pap_graph quad_prepared) !! place 1 2 = Some (l', KernelPacket kj) ∧
      header_release (header_of (KernelPacket ki)) = 1%Z ∧ (1 ≤ header_acquire (header_of (KernelPacket kj)))%Z) ∧
    ∃ m n l l' qm qn, sb_pushes (pap_graph quad_prepared) !! m = Some (l, BarrierPacket qm) ∧
      sb_pushes (pap_graph quad_prepared) !! n = Some (l', BarrierPacket qn) ∧
      header_release (header_of (BarrierPacket qm)) = 1%Z ∧ header_acquire (header_of (BarrierPacket qn)) = 1%Z ∧
      place 0 3 ≤ m ≤ n ∧ n ≤ place 1 1.
Proof.
  assert (length (sb_pushes (pap_graph quad_prepared)) = 23) as Hlen by (vm_compute; reflexivity). split; [exact Hlen|].
  destruct (aql_plan_sound demo_sha256 quad demo_options quad_plan _ _ _ _ _ _ _ _ _ _ _ _ quad_prepared
    quad_recorded ltac:(done) quad_compiles quad_distinct quad_prepares) as (place & Hbatch).
  pose proof quad_dispatches as H4. exists place.
  pose proof (runnable_execution _ (ab_runnable _ _ _ _ _ _ _ _ Hbatch)) as Hex. split; [|split; [|split]].
  - pose proof (ab_tokens _ _ _ _ _ _ _ _ Hbatch _ _ 0 1 3 0 Hex ltac:(lia) ltac:(lia) ltac:(lia) ltac:(lia)). lia.
  - pose proof (ab_end _ _ _ _ _ _ _ _ Hbatch _ _ 1 3 Hex ltac:(lia) ltac:(lia)). rewrite Hlen in *. lia.
  - destruct (ab_fences _ _ _ _ _ _ _ _ Hbatch 1 0 2 _ _ (Access_write (quad_half 0)) (Access_read (quad_half 0)) ltac:(lia) ltac:(lia)
      ltac:(vm_compute; reflexivity) ltac:(vm_compute; reflexivity) ltac:(left) ltac:(left) eq_refl eq_refl ltac:(vm_compute; reflexivity))
      as (ki & kj & Hi & Hj & Hr & Ha). eexists ki, kj, _, _. split; [exact Hi|]. split; [exact Hj|]. split; [exact Hr|exact Ha].
  - destruct (ab_cross _ _ _ _ _ _ _ _ Hbatch 0 1 3 1 _ _ quad_crosses ltac:(lia) ltac:(lia)
      ltac:(vm_compute; reflexivity) ltac:(vm_compute; reflexivity)) as (m & n & qm & qn & Hm & Hn & Hr & Ha & Hall).
    specialize (Hall _ _ Hex). eexists m, n, _, _, qm, qn.
    split; [exact Hm|]. split; [exact Hn|]. split; [exact Hr|]. split; [exact Ha|]. lia.
Defined.

(** ** Packed arguments *)

(** Byte [x] of the buffer belongs to the field. *)
Definition in_field (f : KernargField) (x : nat) : Prop := (field_offset f ≤ Z.of_nat x < field_end f)%Z.

(** The buffer holds the bytes of the value in the field. *)
Definition holds (bytes : list Z) (f : KernargField) (value : list Z) : Prop :=
  Z.of_nat (length value) = field_size f ∧ ∀ k, k < length value → bytes !! (Z.to_nat (field_offset f) + k) = value !! k.

Definition field_placed (f : KernargField) : Prop := (0 ≤ field_offset f ∧ 0 < field_size f)%Z.

Lemma copy_slice_Ok {E} bytes f value bytes' : field_placed f →
  copy_slice (E := E) bytes (field_offset f) (field_size f) value = Ok bytes' →
  length bytes' = length bytes ∧ holds bytes' f value ∧ ∀ x, ¬ in_field f x → bytes' !! x = bytes !! x.
Proof.
  intros [Ho Hs] H. unfold copy_slice in H. apply bind_Ok in H as (u & Ha & H). apply assert_Ok in Ha. apply Ok_inj in H as <-.
  apply andb_true_iff in Ha as [Hb%Z.leb_le Hl%Z.eqb_eq]. unfold in_field, field_end.
  set (o := Z.to_nat (field_offset f)) in *. assert (Z.to_nat (field_offset f + field_size f) = o + length value) as -> by lia.
  assert (o + length value ≤ length bytes) by lia. assert (length (take o bytes) = o) as Ht by (rewrite length_take; lia).
  split; [|split; [split; [done|]|]].
  - rewrite !length_app, length_drop, Ht. lia.
  - intros k Hk. fold o. rewrite lookup_app_r by lia. rewrite Ht. replace (o + k - o) with k by lia. by apply lookup_app_l.
  - intros x Hx. destruct (decide (x < o)) as [Hlt|Hge].
    + rewrite lookup_app_l by lia. by apply lookup_take_lt.
    + rewrite lookup_app_r, Ht by lia. rewrite lookup_app_r by lia. rewrite lookup_drop. f_equal. lia.
Qed.

Definition separate (fs : list (KernelArg * KernargField)) : Prop := ∀ i j x y, fs !! i = Some x → fs !! j = Some y → i ≠ j →
  fields_overlap x.2 y.2 = false.

Lemma pack_fields_Ok b fs : ∀ bytes bytes', Forall (λ x : KernelArg * KernargField, field_placed x.2) fs → separate fs →
  pack_fields b bytes fs = (bytes', Ok tt) → length bytes' = length bytes ∧
  Forall (λ x : KernelArg * KernargField, ∃ value, argument_value b x.1 = Ok value ∧ holds bytes' x.2 value) fs ∧
  ∀ x, (∀ y, y ∈ fs → ¬ in_field y.2 x) → bytes' !! x = bytes !! x.
Proof.
  induction fs as [|[a f] fs IH]; intros bytes bytes' Hp Hsep; cbn [pack_fields]; [by intros [= <-]|].
  apply Forall_cons in Hp as [Hf Hp]. cbn in Hf.
  destruct (argument_value b a) as [value|e|] eqn:Hv; [|done..]. cbn [mbind result_bind].
  destruct (copy_slice bytes (field_offset f) (field_size f) value) as [bytes1|e|] eqn:Hc; [|done..].
  apply copy_slice_Ok in Hc as (Hl1 & Hh1 & Ho1); [|done]. intros H.
  destruct (IH bytes1 bytes' Hp) as (Hl & Hall & Hout); [intros i j x y Hi Hj Hij; apply (Hsep (S i) (S j)); [done|done|lia]|done|].
  split; [congruence|]. split.
  - constructor; [|exact Hall]. exists value. split; [done|]. cbn. destruct Hh1 as [Hlen Hh]. split; [done|]. intros k Hk. rewrite <- Hh by done.
    apply Hout. intros [a' f'] [j Hj]%list_elem_of_lookup_1 Hin. pose proof (Hsep 0 (S j) _ _ eq_refl Hj ltac:(lia)) as Hno. cbn in Hno.
    unfold fields_overlap, in_field, field_end in *. cbn in Hin. destruct Hf. apply andb_false_iff in Hno as [?%Z.ltb_ge|?%Z.ltb_ge]; lia.
  - intros x Hx. rewrite Hout by (intros y Hy; apply Hx; by right). apply Ho1. by apply (Hx (a, f)); left.
Qed.

Lemma argument_value_size b a v f : argument_value b a = Ok v → argument_size a = field_size f →
  (∀ bytes, a = Scalar bytes → (Z.of_nat (length bytes) ≤ U32_MAX)%Z) → Z.of_nat (length v) = field_size f.
Proof.
  unfold argument_value, argument_size. destruct a as [bytes|slot size|resource off]; intros H Hs Hb.
  - apply Ok_inj in H as <-. destruct (Z.leb_spec (Z.of_nat (length bytes)) U32_MAX); [done|]. specialize (Hb bytes eq_refl). lia.
  - apply bind_Ok in H as (w & _ & H). apply bind_Ok in H as (u & Hl & H). apply err_if_Ok, negb_false_iff, Z.eqb_eq in Hl.
    apply Ok_inj in H as <-. lia.
  - apply bind_Ok in H as (binding & _ & H). apply bind_Ok in H as (u & _ & H). apply bind_Ok in H as (u' & _ & H).
    apply bind_Ok in H as (address & _ & H). apply Ok_inj in H as <-. rewrite length_le_bytes, <- Hs. done.
Qed.

Lemma argument_value_no_panic b a : argument_value b a ≠ Panic.
Proof.
  unfold argument_value. destruct a as [bytes|slot size|resource off]; [done| |].
  - destruct (Bindings_scalar b slot); [|done]. cbn. by destruct (negb _).
  - destruct (Bindings_resource b resource) as [bd|]; [|done]. cbn. destruct (_ <=? _)%Z; [done|]. cbn. destruct (_ <? _)%Z; [done|]. cbn.
    by destruct (checked_add _ _ _).
Qed.

Lemma pack_fields_no_panic b fs : ∀ bytes bytes' ,
  Forall (λ x : KernelArg * KernargField, field_placed x.2 ∧ (field_end x.2 ≤ Z.of_nat (length bytes))%Z ∧ argument_size x.1 = field_size x.2 ∧
    ∀ s, x.1 = Scalar s → (Z.of_nat (length s) ≤ U32_MAX)%Z) fs → pack_fields b bytes fs ≠ (bytes', Panic).
Proof.
  induction fs as [|[a f] fs IH]; intros bytes bytes' Hall; cbn [pack_fields]; [done|]. apply Forall_cons in Hall as [(Hf & He & Hs & Hb) Hall].
  cbn [fst snd] in *. pose proof (argument_value_no_panic b a) as Hnp.
  destruct (argument_value b a) as [value|e|] eqn:Hv; [|done..]. cbn [mbind result_bind].
  destruct (copy_slice bytes (field_offset f) (field_size f) value) as [bytes1|e|] eqn:Hc.
  - apply copy_slice_Ok in Hc as (Hl & _ & _); [|done]. apply IH. by rewrite Hl.
  - done.
  - unfold copy_slice in Hc. rewrite (proj2 (Z.leb_le _ _)) in Hc by exact He.
    by rewrite (proj2 (Z.eqb_eq _ _) (argument_value_size b a value f Hv Hs Hb)) in Hc.
Qed.

(** A literal longer than a 32-bit size. *)
Definition oversized (a : KernelArg) : Prop := match a with Scalar s => (U32_MAX < Z.of_nat (length s))%Z | _ => False end.
#[local] Instance oversized_dec a : Decision (oversized a).
Proof. destruct a; apply _. Defined.

Lemma pack_kernarg_spec sha256 ss sa fields abi args b out :
  KernargAbi_new sha256 ss sa fields = Ok abi → Forall field_placed fields →
  match pack_kernarg args abi b out with
  | (buf, Ok _) => kernarg_address buf = kernarg_address out ∧ Z.of_nat (length (kernarg_bytes buf)) = ss ∧
      Forall2 (λ a f, ∃ value, argument_value b a = Ok value ∧ holds (kernarg_bytes buf) f value) args fields ∧
      ∀ x, x < length (kernarg_bytes buf) → (∀ f, f ∈ fields → ¬ in_field f x) → kernarg_bytes buf !! x = Some 0%Z
  | (buf, Err _) => kernarg_address buf = kernarg_address out
  | (_, Panic) => ∃ s, Scalar s ∈ args ∧ (U32_MAX < Z.of_nat (length s))%Z
  end.
Proof.
  intros Habi Hplaced. apply KernargAbi_new_exact in Habi as (-> & _ & Hin & Hsep). unfold pack_kernarg.
  destruct (validate_arguments _ args) as [[]|e|] eqn:Hval; cbn [map_err mbind result_bind]; [|done|by apply validate_arguments_no_panic in Hval].
  cbn [segment_size abi_fields]. destruct (negb _) eqn:Hlen; cbn [err_if]; [done|]. apply negb_false_iff, Z.eqb_eq in Hlen.
  apply validate_arguments_Ok in Hval. cbn [abi_fields] in Hval. pose proof (Forall2_length _ _ _ Hval) as Hlen2.
  assert (∀ i x, zip args fields !! i = Some x → args !! i = Some x.1 ∧ fields !! i = Some x.2) as Hzip.
  { intros i [a f] Hx. by apply lookup_zip_Some in Hx. }
  destruct (pack_fields b (replicate _ 0%Z) (zip args fields)) as [bytes r] eqn:Hp. destruct r as [[]|e|]; [| |].
  - apply pack_fields_Ok in Hp as (Hl & Hall & Hout).
    + rewrite length_replicate in Hl. cbn [kernarg_address kernarg_bytes]. split; [done|]. split; [lia|]. split.
      * apply Forall2_same_length_lookup. split; [done|]. intros i a f Ha Hf.
        assert (zip args fields !! i = Some (a, f)) as Hz by (apply lookup_zip_Some; done).
        exact (Forall_lookup_1 _ _ _ _ Hall Hz).
      * intros x Hx Hno. rewrite Hout; [apply lookup_replicate_2; lia|]. intros y [i Hy]%list_elem_of_lookup_1. apply Hno.
        destruct (Hzip i y Hy) as [_ Hf]. by eapply list_elem_of_lookup_2.
    + apply Forall_lookup_2. intros i x Hx. destruct (Hzip i x Hx) as [_ Hf]. by eapply (Forall_lookup_1 _ _ _ _ Hplaced).
    + intros i j x y Hi Hj Hij. destruct (Hzip i x Hi), (Hzip j y Hj). by eapply Hsep.
  - done.
  - destruct (decide (Exists oversized args)) as [Hex|Hno].
    + apply Exists_exists in Hex as (a & Ha & Hs). destruct a as [s| |]; [by exists s|done..].
    + exfalso. eapply pack_fields_no_panic; [|exact Hp]. apply Forall_lookup_2. intros i x Hx. destruct (Hzip i x Hx) as [Ha Hf].
      rewrite length_replicate. split; [by eapply (Forall_lookup_1 _ _ _ _ Hplaced)|]. split; [rewrite Hlen; by apply (Hin i)|].
      split; [exact (Forall2_lookup_lr _ _ _ _ _ _ Hval Ha Hf)|]. intros s Hs. apply Z.nlt_ge. intros Hgt. apply Hno.
      apply Exists_exists. exists x.1. split; [by eapply list_elem_of_lookup_2|]. unfold oversized. by rewrite Hs.
Qed.

(** Packing a kernel's arguments into a buffer under a layout built by
    [KernargAbi::new]. On success the buffer keeps its address, has the size of
    the segment, holds every argument's bytes (the literal, the bound scalar, or
    the little-endian device address of the bound resource plus its offset) in
    its field, and is zero everywhere else. It never panics for literals of at
    most 2^32 - 1 bytes. *)
Theorem pack_kernarg_exact sha256 ss sa fields abi args b out :
  KernargAbi_new sha256 ss sa fields = Ok abi → Forall field_placed fields →
  match pack_kernarg args abi b out with
  | (buf, Ok _) => kernarg_address buf = kernarg_address out ∧ Z.of_nat (length (kernarg_bytes buf)) = ss ∧
      Forall2 (λ a f, ∃ value, argument_value b a = Ok value ∧ holds (kernarg_bytes buf) f value) args fields ∧
      ∀ x, x < length (kernarg_bytes buf) → (∀ f, f ∈ fields → ¬ in_field f x) → kernarg_bytes buf !! x = Some 0%Z
  | (buf, Err _) => kernarg_address buf = kernarg_address out
  | (_, Panic) => ∃ s, Scalar s ∈ args ∧ (U32_MAX < Z.of_nat (length s))%Z
  end.
Proof. apply pack_kernarg_spec. Qed.

(** A pointer and a scalar in a segment of sixteen bytes with a hole. *)
Lemma pack_kernarg_exact_witness : let fields := [mkKernargField 0 8 8; mkKernargField 12 4 4] in
  let args := [Resource_arg (mkResourceId 1 0) 16; Scalar [9; 0; 0; 0]%Z] in
  ∃ abi, KernargAbi_new demo_sha256 16 8 fields = Ok abi ∧
    ∃ buf, pack_kernarg args abi (quad_bindings 65536 1) (mkKernargBuffer 4096 1 (replicate 16 0%Z)) = (buf, Ok tt) ∧
      kernarg_address buf = 4096%Z ∧ kernarg_bytes buf !! 9 = Some 0%Z ∧ kernarg_bytes buf !! 12 = Some 9%Z.
Proof.
  intros fields args. eexists. split; [reflexivity|].
  pose proof (pack_kernarg_exact demo_sha256 16 8 fields _ args (quad_bindings 65536 1) (mkKernargBuffer 4096 1 (replicate 16 0%Z)) eq_refl) as H.
  assert (Forall field_placed fields) as Hp by (repeat constructor; cbn; lia). specialize (H Hp).
  destruct (pack_kernarg _ _ _ _) as [buf answer] eqn:Hpack. exists buf. assert (answer = Ok tt) as ->.
  { vm_compute in Hpack. by injection Hpack. }
  destruct H as (Ha & Hlen & _ & Hz). split; [done|]. split; [exact Ha|]. split.
  - apply Hz; [lia|]. intros f Hf. unfold in_field, field_end. apply list_elem_of_In in Hf as [<-|[<-|[]]]; cbn; lia.
  - vm_compute in Hpack. by injection Hpack as <-.
Defined.
