(* ===== verification/AqlRefresh.v ===== *)
(** Rebinding a prepared AQL plan ([PreparedAqlPlan::refresh_bindings] and
    [TwoQueueSerializedBatchGraph::patch_kernargs], src/crates/redline-dispatch/src/aql/generic.rs
    and replay.rs): a refresh rewrites the argument buffers in place. It repacks
    the right dispatch when the plan lists its dispatches in the order of their
    node indices; a plan with a dependency from a later node to an earlier one
    shows that it needs that. *)

From S2P Require Import Prelude Ir Identity Recorder Graph Plan Packet Visibility Bindings HipLower Queue AqlGraph AqlOrder AqlBatch AqlPlan AqlSound AqlClaims.

(** ** Updates in place *)

Lemma try_update_length {E A} (f : nat → A → A * result E unit) l : ∀ i l' r, try_update f i l = (l', r) → length l' = length l.
Proof.
  induction l as [|x l IH]; intros i l' r; cbn; [by intros [= <- _]|]. destruct (f i x) as [x' [u|e|]]; [|by intros [= <- _]..].
  destruct (try_update f (S i) l) as [l2 r2] eqn:E2. intros [= <- _]. cbn. f_equal. by eapply IH.
Qed.

Lemma try_update_keeps {E A} (R : A → A → Prop) (f : nat → A → A * result E unit) l : (∀ x, R x x) → (∀ i x, R x (f i x).1) →
  ∀ i, Forall2 R l (try_update f i l).1.
Proof.
  intros Hrefl Hf. induction l as [|x l IH]; intros i; cbn; [done|]. pose proof (Hf i x) as Hx.
  destruct (f i x) as [x' [u|e|]]; cbn in *; [|constructor; [done|]; by apply Forall_Forall2_diag, Forall_true..].
  specialize (IH (S i)). destruct (try_update f (S i) l) as [l2 r2]. by constructor.
Qed.

Lemma try_update_Ok {E A} (f : nat → A → A * result E unit) l : ∀ i l', try_update f i l = (l', Ok tt) →
  ∀ k x, l !! k = Some x → ∃ x', l' !! k = Some x' ∧ f (i + k) x = (x', Ok tt).
Proof.
  induction l as [|x l IH]; intros i l'; cbn; [by intros _|]. destruct (f i x) as [x' [[]|e|]] eqn:Hx; [|done..].
  destruct (try_update f (S i) l) as [l2 r2] eqn:E2. intros [= <- ->] [|k] y Hy; cbn in Hy.
  - injection Hy as <-. exists x'. by rewrite Nat.add_0_r.
  - destruct (IH (S i) l2 E2 k y Hy) as (y' & Hy' & Hf). exists y'. split; [done|]. by rewrite Nat.add_succ_r.
Qed.

(** A patch changes the bytes of a buffer only. *)
Definition same_target (d d' : RecordedDispatch) : Prop := kernarg_address (rd_kernarg d') = kernarg_address (rd_kernarg d).
Definition same_phase (phase phase' : TwoQueuePhase) : Prop :=
  Forall2 same_target (lane_zero phase) (lane_zero phase') ∧ Forall2 same_target (lane_one phase) (lane_one phase').

Lemma same_target_refl d : same_target d d.
Proof. done. Qed.

Lemma Forall2_refl_id {A} (R : A → A → Prop) l : (∀ x, R x x) → Forall2 R l l.
Proof. intros H. by induction l; constructor. Qed.

Lemma pack_kernarg_address args abi b out : kernarg_address (pack_kernarg args abi b out).1 = kernarg_address out.
Proof. unfold pack_kernarg. destruct (_ ;; _) as [u|e|]; [|done..]. by destruct (pack_fields _ _ _). Qed.

Lemma patch_phase_keeps patch phase : (∀ l i out, kernarg_address (patch l i out).1 = kernarg_address out) →
  same_phase phase (patch_phase patch phase).1.
Proof.
  intros Hp. unfold patch_phase.
  assert (∀ l i d, same_target d (patch_dispatch (patch l i) d).1) as Hd.
  { intros l i d. unfold patch_dispatch, same_target. specialize (Hp l i (rd_kernarg d)). by destruct (patch l i (rd_kernarg d)). }
  pose proof (try_update_keeps same_target (λ i, patch_dispatch (patch 0 i)) (lane_zero phase) same_target_refl (Hd 0) 0) as H0.
  pose proof (try_update_keeps same_target (λ i, patch_dispatch (patch 1 i)) (lane_one phase) same_target_refl (Hd 1) 0) as H1.
  destruct (try_update _ 0 (lane_zero phase)) as [zero [u|e|]]; cbn in *;
    [|split; [done|apply Forall2_refl_id, same_target_refl]..].
  destruct (try_update _ 0 (lane_one phase)) as [one r]; by split.
Qed.

Lemma patch_kernargs_keeps patch flight phases : (∀ p l i out, kernarg_address (patch p l i out).1 = kernarg_address out) →
  Forall2 same_phase phases (patch_kernargs patch flight phases).1.
Proof.
  intros Hp. assert (∀ x, same_phase x x) as Hrefl by (intros x; split; apply Forall2_refl_id, same_target_refl).
  unfold patch_kernargs. destruct flight; [by apply Forall2_refl_id|].
  apply (try_update_keeps same_phase); [done|]. intros i x. by apply patch_phase_keeps.
Qed.

Lemma patch_kernargs_Ok patch flight phases phases' p phase l k rd : patch_kernargs patch flight phases = (phases', Ok tt) →
  phases !! p = Some phase → l < 2 → at_lane (lane_zero phase, lane_one phase) l !! k = Some rd →
  flight = false ∧ ∃ phase' rd', phases' !! p = Some phase' ∧ at_lane (lane_zero phase', lane_one phase') l !! k = Some rd' ∧
    patch p l k (rd_kernarg rd) = (rd_kernarg rd', Ok tt).
Proof.
  unfold patch_kernargs. destruct flight; [done|]. intros H Hp Hl Hk. split; [done|].
  destruct (try_update_Ok _ _ _ _ H p phase Hp) as (phase' & Hp' & Hpatch). exists phase'. cbn [Nat.add] in Hpatch.
  unfold patch_phase in Hpatch. destruct (try_update _ 0 (lane_zero phase)) as [zero [[]|e|]] eqn:H0; [|done..].
  destruct (try_update _ 0 (lane_one phase)) as [one r] eqn:H1. injection Hpatch as <- ->.
  assert (∀ d d' i, patch_dispatch (patch p l i) d = (d', Ok tt) → patch p l i (rd_kernarg d) = (rd_kernarg d', Ok tt)) as Hd.
  { intros d d' i. unfold patch_dispatch. destruct (patch p l i (rd_kernarg d)) as [buf r]. by intros [= <- ->]. }
  destruct l as [|[|?]]; [| |lia]; cbn [at_lane fst snd lane_zero lane_one] in *.
  - destruct (try_update_Ok _ _ _ _ H0 k rd Hk) as (rd' & Hrd' & Hf). exists rd'. split; [done|]. split; [done|]. by apply Hd.
  - destruct (try_update_Ok _ _ _ _ H1 k rd Hk) as (rd' & Hrd' & Hf). exists rd'. split; [done|]. split; [done|]. by apply Hd.
Qed.

(** ** Histories *)

Section refresh.
Context (sha256 : list Z → list Z) (r : Recorder) (options : CompileOptions) (p : CompiledPlan).
Context (Hr : recorded r) (Hl : option_lane_count options ≠ 0) (Hc : compile sha256 r options = Ok p).
Context (gpu : AgentInfo) (pool : KernargPool) (kernels : AqlKernelCatalog) (allocations : nat → PoolAllocation).
Context (queue_outcomes : nat → QueueCreation) (signals : nat → SignalCreation) (enable : result RuntimeError unit)
  (frequency : result RuntimeError Z) (Hdist : distinct_signals signals).
Context (T : nat) (boundary : ApiBoundary).
Local Abbreviation ds := (plan_dispatches p).
Local Abbreviation idx d := (node_index (planned_node d)).

(** A prepared plan after any number of refreshes, also failed ones, for this or
    another plan. *)
Inductive prepared_history : PreparedAqlPlan → Prop :=
| history_prepare bindings profile prepared :
    prepare_internal sha256 gpu pool kernels allocations queue_outcomes signals enable frequency p bindings T boundary profile = Ok prepared →
    prepared_history prepared
| history_refresh prepared catalog flight plan bindings prepared' answer : prepared_history prepared →
    refresh_bindings sha256 catalog prepared flight plan bindings = (prepared', answer) → prepared_history prepared'.

(** What refreshes do not touch. *)
Definition same_packets (a b : PreparedAqlPlan) : Prop :=
  sb_pushes (pap_graph b) = sb_pushes (pap_graph a) ∧ sb_final_signal (pap_graph b) = sb_final_signal (pap_graph a) ∧
  pap_visibility b = pap_visibility a ∧ pap_phase_nodes b = pap_phase_nodes a.

Record refreshable (prepared : PreparedAqlPlan) (levels : list nat) (place : nat → nat → nat → nat → nat) : Prop := {
  rf_batch : ∃ b0 prepared0, aql_batch r p kernels b0 T boundary prepared0 (packet_index ds levels place) ∧ same_packets prepared0 prepared;
  rf_node i d level : ds !! i = Some d → levels !! idx d = Some level → ∃ pair, pap_phase_nodes prepared !! level = Some pair ∧
    at_lane pair (planned_lane d) !! rank ds levels level (planned_lane d) i = Some (planned_node d);
  rf_packet t i d : t < T → ds !! i = Some d → ∃ b k level rd pol buffer, levels !! idx d = Some level ∧
    dispatch_at (sb_phases (pap_graph prepared)) T t level (planned_lane d) (rank ds levels level (planned_lane d) i) rd ∧
    sb_pushes (pap_graph prepared) !! packet_index ds levels place t i = Some (planned_lane d, KernelPacket k) ∧
    dvp_dispatches (pap_visibility prepared) !! i = Some pol ∧
    packet_of kernels b d (token_header pol t) k buffer ∧ kernarg_address (rd_kernarg rd) = kernarg_address buffer }.

Lemma refresh_outcome catalog prepared flight plan bindings prepared' answer :
  refresh_bindings sha256 catalog prepared flight plan bindings = (prepared', answer) →
  same_packets prepared prepared' ∧ Forall2 same_phase (sb_phases (pap_graph prepared)) (sb_phases (pap_graph prepared')) ∧
  ∀ state, answer = Ok state →
    patch_kernargs (refresh_patch plan bindings (pap_phase_nodes prepared)) flight (sb_phases (pap_graph prepared)) =
      (sb_phases (pap_graph prepared'), Ok tt).
Proof using Type.
  clear. assert (∀ q, same_packets q q) as Hself by done.
  assert (∀ q, Forall2 same_phase (sb_phases (pap_graph q)) (sb_phases (pap_graph q))) as Hrefl.
  { intros q. apply Forall2_refl_id. intros x. split; apply Forall2_refl_id, same_target_refl. }
  unfold refresh_bindings. destruct (map_err Invalidated _) as [state|e|]; [|by intros [= <- <-]..].
  pose proof (patch_kernargs_keeps (refresh_patch plan bindings (pap_phase_nodes prepared)) flight (sb_phases (pap_graph prepared))) as Hk.
  destruct (patch_kernargs _ flight _) as [phases patched]. cbn [fst] in Hk.
  assert (Forall2 same_phase (sb_phases (pap_graph prepared)) phases) as Hphases.
  { apply Hk. intros p0 l i out. unfold refresh_patch. destruct (refresh_target _ _ _ _ _) as [[launch abi]|e|]; [|done..]. apply pack_kernarg_address. }
  destruct patched as [[]|e|]; cbn [mbind result_bind]; [|by intros [= <- <-]..].
  destruct (map_err Bindings_error _) as [stamp|e|]; [|by intros [= <- <-]..]. intros [= <- <-]. by split.
Qed.

Lemma same_phase_at phases phases' t p0 l i rd : Forall2 same_phase phases phases' → dispatch_at phases T t p0 l i rd →
  ∃ rd', dispatch_at phases' T t p0 l i rd' ∧ kernarg_address (rd_kernarg rd') = kernarg_address (rd_kernarg rd).
Proof using Type.
  clear. intros HF (Ht & Hl2 & phase & Hp & Hi). destruct (Forall2_lookup_l _ _ _ _ _ HF Hp) as (phase' & Hp' & H0 & H1).
  assert (Forall2 same_target (at_lane (lane_zero phase, lane_one phase) l) (at_lane (lane_zero phase', lane_one phase') l)) as HL
    by (destruct l as [|[|?]]; [done..|lia]).
  destruct (Forall2_lookup_l _ _ _ _ _ HL Hi) as (rd' & Hrd' & Hs). exists rd'. split; [|done]. split; [done|]. split; [done|]. eauto.
Qed.

Lemma refreshable_refresh prepared levels place catalog flight plan bindings prepared' answer : refreshable prepared levels place →
  refresh_bindings sha256 catalog prepared flight plan bindings = (prepared', answer) → refreshable prepared' levels place.
Proof using Type.
  clear Hr Hl Hc Hdist. intros [(b0 & q0 & Hb & Hsame) Hn Hp] H. apply refresh_outcome in H as ((E1 & E2 & E3 & E5) & HF & _). split.
  - exists b0, q0. split; [done|]. destruct Hsame as (F1 & F2 & F3 & F5). unfold same_packets. by rewrite E1, E2, E3, E5.
  - by rewrite E5.
  - intros t i d Ht Hi. destruct (Hp t i d Ht Hi) as (b & k & level & rd & pol & buffer & Hlev & Hrd & Hpush & Hpol & Hk & Ha).
    destruct (same_phase_at _ _ _ _ _ _ _ HF Hrd) as (rd' & Hrd' & Hadr). exists b, k, level, rd', pol, buffer.
    rewrite E1, E3. repeat (split; [done|]). congruence.
Qed.

Lemma history_refreshable prepared : prepared_history prepared → ∃ levels place, refreshable prepared levels place.
Proof using Hr Hl Hc Hdist.
  induction 1 as [bindings profile prepared H|prepared catalog flight plan bindings prepared' answer _ (levels & place & IH) H].
  - destruct (aql_prepare_Ok sha256 r options p Hr Hl Hc _ _ _ _ _ _ _ _ Hdist _ _ _ _ _ H) as (policies & levels & place & Hok). exists levels, place. split.
    + exists bindings, prepared. split; [by eapply prepared_sound|done].
    + intros i d level Hi Hlevel. pose proof (pd_phases _ _ _ _ _ _ _ _ _ _ _ _ _ Hok) as Hph.
      pose proof (pd_lowerable _ _ _ _ _ _ _ _ _ _ _ _ _ Hok) as Hlow.
      destruct (dispatch_phase _ _ _ _ _ _ Hlow _ _ _ Hph i d Hi) as (level' & Hlev' & Hlt & Hl2). rewrite Hlevel in Hlev'. injection Hlev' as <-.
      destruct (ph_levels _ _ _ _ _ _ _ _ _ Hph) as (m & _ & Hlp & Hln). destruct (lookup_lt_is_Some_2 (pap_phase_nodes prepared) level) as [pair Hpair]; [lia|].
      exists pair. split; [done|]. rewrite (ph_nodes _ _ _ _ _ _ _ _ _ Hph level pair _ Hpair Hl2), list_lookup_fmap. unfold rank.
      rewrite (filter_lookup (member levels level (planned_lane d)) (enumerate ds) i (i, d)); [done|by rewrite lookup_enumerate, Hi|by split].
    + intros t i d Ht Hi. destruct (prepared_packet r p gpu pool kernels allocations _ _ _ _ _ _ _ t i d Hok Ht Hi) as (k & level & rd & pol & H1 & H2 & H3 & H4 & H5).
      exists bindings, k, level, rd, pol, (rd_kernarg rd). repeat (split; [done|]). done.
  - exists levels, place. by eapply refreshable_refresh.
Qed.

(** The dispatches are listed in the order of their nodes. *)
Definition index_ordered : Prop := ∀ i d, ds !! i = Some d → idx d = i.

(** What a refresh that succeeds leaves for a dispatch: its packet, which still
    runs its kernel, and the buffer that packet points to, packed with the
    arguments of the dispatch listed at the index of its node. *)
Lemma refresh_packs prepared levels place flight bindings prepared' state t i d : refreshable prepared levels place →
  refresh_bindings sha256 kernels prepared flight p bindings = (prepared', Ok state) → t < T → ds !! i = Some d →
  ∃ e k rd pol b buffer abi fresh, ds !! idx d = Some e ∧
    sb_pushes (pap_graph prepared') !! packet_index ds levels place t i = Some (planned_lane d, KernelPacket k) ∧
    dvp_dispatches (pap_visibility prepared') !! i = Some pol ∧ rd ∈ retained prepared' ∧
    packet_of kernels b d (token_header pol t) k buffer ∧ kernarg_address (rd_kernarg rd) = kernarg_address buffer ∧
    kernarg_abi (planned_launch e) = Some abi ∧
    pack_kernarg (arguments (planned_launch e)) abi bindings fresh = (rd_kernarg rd, Ok tt).
Proof using Type.
  clear Hr Hl Hc Hdist. intros [_ Hn Hp] H Ht Hi. apply refresh_outcome in H as ((E1 & E2 & E3 & E5) & HF & Hpatch).
  specialize (Hpatch state eq_refl). destruct (Hp t i d Ht Hi) as (b & k & level & rd & pol & buffer & Hlev & Hrd & Hpush & Hpol & Hk & Ha).
  destruct (Hn i d level Hi Hlev) as (pair & Hpair & Hnode). pose proof Hrd as (_ & Hl2 & phase & Hph & Hat).
  destruct (patch_kernargs_Ok _ _ _ _ _ _ _ _ _ Hpatch Hph Hl2 Hat) as (_ & phase' & rd' & Hph' & Hat' & Hpack).
  unfold refresh_patch, refresh_target in Hpack. rewrite (index_total _ _ _ Hpair) in Hpack. cbn [mbind result_bind] in Hpack.
  rewrite (index_total _ _ _ Hnode) in Hpack. cbn [mbind result_bind] in Hpack.
  destruct (ds !! idx d) as [e|] eqn:He; [|unfold index in Hpack; by rewrite He in Hpack].
  rewrite (index_total _ _ _ He) in Hpack. cbn [mbind result_bind] in Hpack.
  destruct (kernarg_abi (planned_launch e)) as [abi|] eqn:Habi; [|done]. cbn [ok_or mbind result_bind] in Hpack.
  exists e, k, rd', pol, b, buffer, abi, (rd_kernarg rd). rewrite E1, E3. repeat (split; [done|]).
  split; [eapply (retained_at prepared' T t level); split; [done|]; split; [done|]; eauto|]. split; [done|]. split; [|done].
  rewrite <- Ha. pose proof (pack_kernarg_address (arguments (planned_launch e)) abi bindings (rd_kernarg rd)) as Hadr. by rewrite Hpack in Hadr.
Qed.

Lemma refresh_sound prepared levels place flight bindings prepared' state : refreshable prepared levels place → index_ordered →
  refresh_bindings sha256 kernels prepared flight p bindings = (prepared', Ok state) →
  aql_batch r p kernels bindings T boundary prepared' (packet_index ds levels place).
Proof using Type.
  clear Hr Hl Hc Hdist. intros Hrf Hidx H. pose proof H as ((E1 & E2 & E3 & E5) & _ & _)%refresh_outcome.
  pose proof Hrf as [(b0 & q0 & Hb & (F1 & F2 & F3 & F5)) _ _]. destruct Hb as [_ B2 B3 B4 B5 B6 B7 B8 B9 B10 B11].
  split; [|rewrite ?E1, ?E2, ?E3, ?F1, ?F2, ?F3; done..].
  intros t i d Ht Hi. destruct (refresh_packs _ _ _ _ _ _ _ t i d Hrf H Ht Hi)
    as (e & k & rd & pol & b & buffer & abi & fresh & He & Hpush & Hpol & Hin & Hk & Ha & Habi & Hpack).
  rewrite (Hidx i d Hi), Hi in He. injection He as <-. exists k, rd, pol. repeat (split; [done|]).
  destruct Hk as [(registered & G1 & G2 & G3 & G4 & G5 & _) K2 K3 K4 K5]. rewrite G2 in Habi. injection Habi as <-.
  split; [|done|done|congruence|done]. exists registered. repeat (split; [done|]). eauto.
Qed.
End refresh.

(** C26: after any history of refreshes, also failed ones, a refresh that
    succeeds leaves a prepared plan that keeps every promise of a fresh
    preparation under the new bindings: the packets are untouched, and the buffer
    each of them points to holds its own dispatch's arguments packed with the new
    scalars and addresses. This is for plans that list their dispatches in the
    order of their node indices, which the code assumes. *)
Theorem refresh_bindings_sound sha256 r options p gpu pool kernels allocations queue_outcomes signals enable frequency
    T boundary prepared flight bindings prepared' state :
  recorded r → option_lane_count options ≠ 0 → compile sha256 r options = Ok p → distinct_signals signals →
  prepared_history sha256 p gpu pool kernels allocations queue_outcomes signals enable frequency T boundary prepared →
  index_ordered p → refresh_bindings sha256 kernels prepared flight p bindings = (prepared', Ok state) →
  (∃ place, aql_batch r p kernels bindings T boundary prepared' place) ∧
  sb_pushes (pap_graph prepared') = sb_pushes (pap_graph prepared).
Proof.
  intros Hr Hl Hc Hd Hh Hidx H.
  destruct (history_refreshable sha256 r options p Hr Hl Hc _ _ _ _ _ _ _ _ Hd _ _ _ Hh) as (levels & place & Hrf).
  split; [eexists; by eapply refresh_sound|]. by apply refresh_outcome in H as ((-> & _) & _ & _).
Qed.

Definition quad_refresh (plan : CompiledPlan) (prepared : PreparedAqlPlan) (base revision : Z)
    : PreparedAqlPlan * result GenericAqlError PreparedPlanState :=
  refresh_bindings demo_sha256 quad_kernels prepared false plan (quad_bindings base revision).

Lemma refresh_bindings_sound_witness : ∃ prepared' place, quad_refresh quad_plan quad_prepared 131072 2 =
    (prepared', Ok (NeedsRebind [mkResourceId 1 0])) ∧
  aql_batch quad quad_plan quad_kernels (quad_bindings 131072 2) 2 ApiBoundary_default prepared' place.
Proof.
  destruct (quad_refresh quad_plan quad_prepared 131072 2) as [prepared' answer] eqn:H.
  assert (answer = Ok (NeedsRebind [mkResourceId 1 0])) as ->.
  { change answer with (prepared', answer).2. rewrite <- H. vm_compute. reflexivity. }
  destruct (refresh_bindings_sound demo_sha256 quad demo_options quad_plan demo_agent quad_pool quad_kernels quad_allocation quad_queue
    quad_signal (Ok tt) (Ok 100%Z) 2 ApiBoundary_default quad_prepared false (quad_bindings 131072 2) prepared' (NeedsRebind [mkResourceId 1 0])
    quad_recorded ltac:(done) quad_compiles quad_distinct) as [[place Hbatch] _].
  - pose proof quad_prepares as Hq. unfold quad_prepare in Hq. exact (history_prepare _ _ _ _ _ _ _ _ _ _ _ _ _ _ _ Hq).
  - intros i d Hi. do 4 (destruct i as [|i]; [vm_compute in Hi; by injection Hi as <-|]). apply lookup_lt_Some in Hi. vm_compute in Hi. lia.
  - exact H.
  - exists prepared', place. split; [reflexivity|exact Hbatch].
Defined.

(** ** A plan that is not in index order

    The consumers are recorded before the producers they depend on. *)
Definition twist : Recorder := quad_recorder
  [("sum", Access_read (quad_half 0)); ("scale", Access_read (quad_half 1));
   ("load", Access_write (quad_half 0)); ("norm", Access_write (quad_half 1))]%string [(2, 0); (2, 1); (3, 0); (3, 1)].

Lemma twist_recorded : recorded twist.
Proof.
  start_quad. record_quad "sum"%string 0%Z (Access_read (quad_half 0)). record_quad "scale"%string 1%Z (Access_read (quad_half 1)).
  record_quad "load"%string 2%Z (Access_write (quad_half 0)). record_quad "norm"%string 3%Z (Access_write (quad_half 1)).
  record_edge 2 0. record_edge 2 1. record_edge 3 0. record_edge 3 1. vm_compute. apply rtc_refl.
Qed.

Definition twist_plan : CompiledPlan := plan_or_demo twist.
Definition twist_prepared : PreparedAqlPlan := match quad_prepare twist_plan with Ok q => q | _ => no_plan end.

Lemma twist_compiles : compile demo_sha256 twist demo_options = Ok twist_plan.
Proof. vm_compute. reflexivity. Qed.
Lemma twist_prepares : quad_prepare twist_plan = Ok twist_prepared.
Proof. vm_compute. reflexivity. Qed.
Lemma twist_refreshes : (quad_refresh twist_plan twist_prepared 65536 1).2 = Ok Current.
Proof. vm_compute. reflexivity. Qed.
Lemma surjective_pairing_at {A B} (x : A * B) b : x.2 = b → x = (x.1, b).
Proof. destruct x. by intros <-. Qed.

(** C27: after any history of refreshes, a refresh that succeeds leaves the packets
    untouched: the packet of a dispatch still runs the kernel registered for it.
    The buffer that packet points to now holds the packed arguments of the
    dispatch that the plan lists at the index of its node. That is the same
    dispatch when the plan lists its dispatches in the order they were recorded,
    and another one otherwise. *)
Theorem refresh_packs_by_node_index sha256 r options p gpu pool kernels allocations queue_outcomes signals enable frequency
    T boundary prepared flight bindings prepared' state :
  recorded r → option_lane_count options ≠ 0 → compile sha256 r options = Ok p → distinct_signals signals →
  prepared_history sha256 p gpu pool kernels allocations queue_outcomes signals enable frequency T boundary prepared →
  refresh_bindings sha256 kernels prepared flight p bindings = (prepared', Ok state) →
  sb_pushes (pap_graph prepared') = sb_pushes (pap_graph prepared) ∧
  ∃ place, ∀ t i d, t < T → plan_dispatches p !! i = Some d → ∃ e k rd registered abi fresh,
    plan_dispatches p !! node_index (planned_node d) = Some e ∧
    sb_pushes (pap_graph prepared') !! place t i = Some (planned_lane d, KernelPacket k) ∧
    bmap_get (kernel (planned_launch d)) (akc_entries kernels) = Some registered ∧
    kdp_kernel_object k = kernel_object (kernel_metadata (akb_kernel registered)) ∧
    rd ∈ retained prepared' ∧ kdp_kernarg_address k = kernarg_address (rd_kernarg rd) ∧
    kernarg_abi (planned_launch e) = Some abi ∧
    pack_kernarg (arguments (planned_launch e)) abi bindings fresh = (rd_kernarg rd, Ok tt).
Proof.
  intros Hr Hl Hc Hd Hh H.
  destruct (history_refreshable sha256 r options p Hr Hl Hc _ _ _ _ _ _ _ _ Hd _ _ _ Hh) as (levels & place & Hrf).
  split; [by apply refresh_outcome in H as ((-> & _) & _ & _)|]. exists (packet_index (plan_dispatches p) levels place). intros t i d Ht Hi.
  destruct (refresh_packs _ _ _ _ _ _ _ _ _ _ _ _ _ t i d Hrf H Ht Hi)
    as (e & k & rd & pol & b & buffer & abi & fresh & He & Hpush & Hpol & Hin & [(registered & G1 & _ & _ & G4 & _) _ _ K4 _] & Ha & Habi & Hpack).
  exists e, k, rd, registered, abi, fresh. repeat (split; [done|]). split; [congruence|done].
Qed.

(** The literals 2, 3, 0, 1 of "load", "norm", "sum", "scale" are packed in schedule
    order. A refresh with the same bindings reports that nothing has changed and
    packs the literals of other dispatches. *)
Lemma refresh_packs_by_node_index_witness :
  (quad_refresh twist_plan twist_prepared 65536 1).2 = Ok Current ∧
  (kernarg_bytes ∘ rd_kernarg <$> retained twist_prepared) = [[2; 0; 0; 0]; [3; 0; 0; 0]; [0; 0; 0; 0]; [1; 0; 0; 0]]%Z ∧
  (kernarg_bytes ∘ rd_kernarg <$> retained (quad_refresh twist_plan twist_prepared 65536 1).1) =
    [[0; 0; 0; 0]; [1; 0; 0; 0]; [2; 0; 0; 0]; [3; 0; 0; 0]]%Z ∧
  ∃ d e place k rd, plan_dispatches twist_plan !! 0 = Some d ∧ kernel (planned_launch d) = "load"%string ∧
    sb_pushes (pap_graph (quad_refresh twist_plan twist_prepared 65536 1).1) !! place = Some (0, KernelPacket k) ∧
    kdp_kernarg_address k = kernarg_address (rd_kernarg rd) ∧ kernel (planned_launch e) = "sum"%string ∧
    ∃ abi fresh, pack_kernarg (arguments (planned_launch e)) abi (quad_bindings 65536 1) fresh = (rd_kernarg rd, Ok tt).
Proof.
  split; [vm_compute; reflexivity|]. split; [vm_compute; reflexivity|]. split; [vm_compute; reflexivity|].
  destruct (refresh_packs_by_node_index demo_sha256 twist demo_options twist_plan demo_agent quad_pool quad_kernels quad_allocation quad_queue
    quad_signal (Ok tt) (Ok 100%Z) 2 ApiBoundary_default twist_prepared false (quad_bindings 65536 1)
    (quad_refresh twist_plan twist_prepared 65536 1).1 Current twist_recorded ltac:(done) twist_compiles quad_distinct) as (_ & place & Hall).
  - pose proof twist_prepares as Hq. unfold quad_prepare in Hq. exact (history_prepare _ _ _ _ _ _ _ _ _ _ _ _ _ _ _ Hq).
  - exact (surjective_pairing_at _ _ twist_refreshes).
  - destruct (plan_dispatches twist_plan !! 0) as [d|] eqn:Hd; [|vm_compute in Hd; discriminate Hd].
    destruct (Hall 0 0 d ltac:(lia) Hd) as (e & k & rd & registered & abi & fresh & He & Hpush & _ & _ & _ & Ha & _ & Hpack).
    exists d, e, (place 0 0), k, rd. split; [exact eq_refl|].
    assert (kernel (planned_launch d) = "load"%string ∧ planned_lane d = 0 ∧ kernel (planned_launch e) = "sum"%string) as (H1 & H2 & H3).
    { vm_compute in Hd. injection Hd as <-. vm_compute in He. injection He as <-. repeat split. }
    rewrite H2 in Hpush. split; [exact H1|]. split; [exact Hpush|]. split; [exact Ha|]. split; [exact H3|]. exists abi, fresh. exact Hpack.
Defined.

(** ** A read that is only partly covered

    "fill" writes the first half, "reduce" reads both halves, "carry" writes the
    second half. In the next token "reduce" reads what "carry" wrote before. *)
Definition carry : Recorder := quad_recorder
  [("fill", Access_write (quad_half 0)); ("reduce", Access_read (mkDeviceRegion (mkResourceId 1 0) 0 128));
   ("carry", Access_write (quad_half 1))]%string [(0, 1); (1, 2)].
Definition carry_plan : CompiledPlan := plan_or_demo carry.

(** The dispatch at [i] accesses byte [x] of the buffer. *)
Definition touches (p : CompiledPlan) (mode : AccessMode) (i : nat) (x : Z) : Prop := ∃ d a, plan_dispatches p !! i = Some d ∧
  a ∈ planned_accesses d ∧ access_mode a = mode ∧
  (region_offset (access_region a) ≤ x < region_offset (access_region a) + region_len (access_region a))%Z.

(** The second half is read before the token writes it, so the previous token's
    write is observed, but no fence between tokens is derived. *)
Example partly_covered_read_missed : compile demo_sha256 carry demo_options = Ok carry_plan ∧
  touches carry_plan Read 1 100 ∧ touches carry_plan Write 2 100 ∧ ¬ touches carry_plan Write 0 100 ∧
  has_cross_token_raw carry_plan = false.
Proof.
  split; [vm_compute; reflexivity|]. split.
  { eexists _, _. split; [vm_compute; reflexivity|]. split; [left|]. split; [reflexivity|]. cbn. lia. }
  split. { eexists _, _. split; [vm_compute; reflexivity|]. split; [left|]. split; [reflexivity|]. cbn. lia. }
  split; [|vm_compute; reflexivity]. intros (d & a & Hd & Ha & _ & Hx). vm_compute in Hd. injection Hd as <-.
  apply list_elem_of_In in Ha as [<-|[]]. cbn in Hx. lia.
Qed.
