(* ===== verification/AqlLife.v ===== *)
(** The life of a retained graph (src/crates/redline-dispatch/src/aql/replay.rs):
    from construction through any sequence of submissions, waits and
    cancellations. *)

From S2P Require Import Prelude Ir Recorder Plan Packet Queue AqlGraph AqlOrder AqlBatch AqlPlan AqlSound AqlClaims.

(** ** Lanes *)

Lemma elem_of_lane_packets lane pushes x : x ∈ lane_packets lane pushes ↔ (lane, x) ∈ pushes.
Proof.
  unfold lane_packets. rewrite list_elem_of_omap. split.
  - intros ([l y] & Hin & H). cbn in H. case_bool_decide; [|done]. by injection H as <-; subst.
  - intros Hin. exists (lane, x). split; [done|]. cbn. by rewrite bool_decide_eq_true_2.
Qed.

Section initial.
Context {W : Type} `{!HsaIndices W} (gpu : AgentInfo) (queue_outcomes : nat → QueueCreation) (w : W).
(** The queues the runtime created are empty, and their memory has the size they
    report. *)
Context (Hempty : ∀ lane, write_of lane w = read_of lane w).
Context (Hmem : ∀ i b kd sz ft id memory, queue_outcomes i = Created b kd sz ft id memory →
  Z.of_nat (length memory) = sz ∧ Forall (λ slot, length slot = AQL_PACKET_BYTES) memory).

(** Both constructions return a graph that is ready to be submitted. *)
Lemma built_graph_ok queue_size phases T g : (queue_size ≤ 2 ^ 32)%Z → built_on gpu queue_outcomes queue_size phases T g →
  Forall (λ x : push, x.1 < 2 ∧ image_ok (packet_image x.2)) (sb_pushes g) → graph_ok (serialized_state g) w.
Proof using Hempty Hmem.
  intros Hsize (Hq & Hcap & _) Himg. destruct (QueueSet_create_ok gpu 2 queue_size queue_outcomes (sb_queues g) w Hq Hsize Hempty Hmem) as (Hset & Hno & Hlen & _).
  assert (∀ lane b, batches_of (length (qs_queues (sb_queues g))) (sb_pushes g) !! lane = Some b →
    lane < 2 ∧ b = packet_image <$> lane_packets lane (sb_pushes g)) as Hb.
  { intros lane b H. unfold batches_of in H. rewrite list_lookup_fmap, Hlen in H. destruct (seq 0 2 !! lane) as [l|] eqn:E; [|done].
    apply seq_lookup_inv in E as [-> Hlt]. injection H as <-. done. }
  split; cbn [gs_queues gs_batches serialized_state].
  - eauto.
  - done.
  - intros b [lane Hl]%list_elem_of_lookup_1. destruct (Hb lane b Hl) as [_ ->]. apply Forall_fmap, Forall_forall.
    intros x Hx%elem_of_lane_packets. by destruct (proj1 (Forall_forall _ _) Himg _ Hx).
  - unfold batches_of. by rewrite length_fmap, length_seq.
  - intros lane q b Hq' Hl. destruct (Hb lane b Hl) as [Hlt ->]. pose proof (Hcap lane Hlt) as Hc. unfold check_capacity, QueueSet_size in Hc.
    rewrite Hq' in Hc. cbn in Hc. apply err_if_Ok, Z.ltb_ge in Hc. by rewrite length_fmap.
Qed.
End initial.

(** ** Steps *)

Section life.
Context {W : Type} `{!HsaQueues W, !HsaIndices W, !HsaLaws W} (N : nat) (Htimeout : finite_timeout (W := W) N).

(** One call of the public interface, with its answer. The device advances on
    its own between calls. *)
Inductive graph_step : GraphState * W → GraphState * W → Prop :=
| step_submit s s' r : Graph_submit (S N) s = Some (s', r) → graph_step s s'
| step_wait s s' r : Graph_wait (S N) s = Some (s', r) → graph_step s s'
| step_cancel s s' r : Graph_cancel s = Some (s', r) → graph_step s s'
| step_device g w w' : advances w w' → graph_step (g, w) (g, w').

Lemma graph_ok_device g w w' : graph_ok g w → advances w w' → graph_ok g w'.
Proof using Type. intros [[hist Hs] H2 H3 H4 H5] Ha. split; [|done..]. exists hist. by eapply set_ok_advance. Qed.

(** Packets and signals stay as they were built. *)
Definition same_graph (g g' : GraphState) : Prop :=
  gs_batches g' = gs_batches g ∧ gs_signals g' = gs_signals g ∧ gs_final g' = gs_final g.

Lemma on_queues_keeps {A} (m : QM (W := W) A) k gw s' r : on_queues m k gw = Some (s', r) →
  (∀ gw0 r0, same_graph gw.1 gw0.1 → k gw0 r0 = Some (s', r) → same_graph gw.1 s'.1) → same_graph gw.1 s'.1.
Proof using Type.
  unfold on_queues. destruct (m (gs_queues gw.1, gw.2)) as [[[queues w0] r0]|]; [|done]. intros H Hk. by eapply (Hk (_, w0) r0); [|exact H].
Qed.

Lemma graph_step_keeps s s' : graph_step s s' → same_graph s.1 s'.1.
Proof using Type.
  destruct 1 as [s s' r H|s s' r H|s s' r H|g w w' _]; [| | |done].
  - unfold Graph_submit in H. destruct (in_flight s.1); [by injection H as <- _|]. destruct (negb _); [by injection H as <- _|].
    apply (on_queues_keeps _ _ _ _ _ H). intros gw0 [u|e|] Hsame; [|by intros [= <- _]..]. intros H2.
    assert (same_graph (set_flags gw0.1 true (usable gw0.1)) s'.1) as H3.
    { apply (on_queues_keeps _ _ (set_flags gw0.1 true (usable gw0.1), gw0.2) _ _ H2). intros gw1 [u1|e1|] Hs1; by intros [= <- _]. }
    destruct Hsame as (? & ? & ?), H3 as (? & ? & ?). unfold same_graph in *. cbn in *. split; [congruence|]. split; congruence.
  - unfold Graph_wait in H. destruct (negb _); [by injection H as <- _|].
    apply (on_queues_keeps _ _ _ _ _ H). intros gw0 [u|e|] Hsame; [by intros [= <- _]| |by intros [= <- _]]. intros H2.
    assert (same_graph gw0.1 s'.1) as H3.
    { apply (on_queues_keeps _ _ _ _ _ H2). intros gw1 [u1|e1|] Hs1; by intros [= <- _]. }
    destruct Hsame as (? & ? & ?), H3 as (? & ? & ?). split; [congruence|]. split; congruence.
  - unfold Graph_cancel in H. destruct (negb _); [by injection H as <- _|].
    apply (on_queues_keeps _ _ _ _ _ H). intros gw0 [u|e|] Hsame; by intros [= <- _].
Qed.

(** A graph that cannot be used any more stays so, and idle if it is idle. *)
Definition retired (g g' : GraphState) : Prop :=
  usable g = false → usable g' = false ∧ (in_flight g = false → in_flight g' = false).

Lemma graph_step_ok s s' : graph_ok s.1 s.2 → graph_step s s' → graph_ok s'.1 s'.2 ∧ retired s.1 s'.1.
Proof using Htimeout HsaLaws0.
  intros Hok Hs. destruct Hs as [[g w] [g' w'] r H|[g w] [g' w'] r H|[g w] [g' w'] r H|g w w' Ha]; cbn [fst snd] in *.
  - pose proof (submit_life N g w Htimeout Hok) as Hl. rewrite H in Hl. destruct Hl as [Hok' Hout]. split; [done|]. intros Hu.
    destruct r as [u|e|]; cbn in Hout; [by destruct Hout as (_ & Hu' & _); rewrite Hu in Hu'| |done].
    destruct Hout as [(_ & _ & -> & _)|[(_ & _ & _ & -> & _)|(_ & Hu' & _)]]; [done|done|congruence].
  - pose proof (wait_life N g w Htimeout Hok) as Hl. rewrite H in Hl. destruct Hl as (Hok' & Hout & Hr). split; [done|]. intros Hu.
    destruct r as [[]|e|]; cbn in Hout; [| |done].
    + destruct (Hr eq_refl) as [Hu' _]. split; [congruence|]. intros _. apply Hout.
    + destruct Hout as (Hf & Hu' & _). split; [done|]. congruence.
  - pose proof (cancel_life g w Hok) as Hl. rewrite H in Hl. destruct Hl as (Hok' & Hout & Hr). split; [done|]. intros Hu.
    destruct r as [[]|e|]; cbn in Hout; [| |done].
    + destruct (Hr eq_refl) as [[_ ->]|[Hu' _]]; [done|]. split; [done|]. intros _. apply Hout.
    + destruct Hout as (Hf & Hu' & _). split; [done|]. congruence.
  - split; [by eapply graph_ok_device|done].
Qed.

Lemma graph_steps_ok s s' : graph_ok s.1 s.2 → rtc graph_step s s' → graph_ok s'.1 s'.2 ∧ retired s.1 s'.1 ∧ same_graph s.1 s'.1.
Proof using Htimeout HsaLaws0.
  intros Hok Hs. induction Hs as [s|s s1 s' H1 Hs IH]; [split; [done|]; by split|].
  destruct (graph_step_ok s s1 Hok H1) as [Hok1 Hr1]. destruct (IH Hok1) as (Hok' & Hr' & Hk'). pose proof (graph_step_keeps s s1 H1) as Hk1.
  split; [done|]. split.
  - intros Hu. destruct (Hr1 Hu) as [Hu1 Hf1]. destruct (Hr' Hu1) as [Hu' Hf']. auto.
  - destruct Hk1 as (? & ? & ?), Hk' as (? & ? & ?). split; [congruence|]. split; congruence.
Qed.
End life.


(** The plan of two tokens on two queues of sixteen slots. *)
Definition quad_graph : SerializedBatch := pap_graph quad_prepared.
Definition quad_world : Counters := mkCounters (λ _, 0%Z) (λ _, 0%Z) (λ _, (-1)%Z).

