(* ===== verification/AqlRecorded.v ===== *)
(** The packets of [RecordedGraph] (src/crates/redline-dispatch/src/aql/replay.rs):
    a graph of dispatches over any number of queues, ordered by barrier packets
    on the signals of their dependencies. *)

From S2P Require Import Prelude Ir Packet Queue AqlGraph AqlOrder AqlBatch.

(** ** Chunks *)

Lemma chunks_fuel_concat {A} fuel n (l : list A) : n ≠ 0 → length l ≤ fuel → concat (chunks_fuel fuel n l) = l.
Proof.
  intros Hn. revert l. induction fuel as [|fuel IH]; intros l Hl; [by destruct l; [|cbn in Hl; lia]|].
  destruct l as [|x l]; [done|]. cbn [chunks_fuel concat]. rewrite IH by (rewrite length_drop; cbn in *; lia). by rewrite take_drop.
Qed.

Lemma chunks_concat {A} n (l : list A) : n ≠ 0 → concat (chunks n l) = l.
Proof. intros Hn. by apply chunks_fuel_concat. Qed.

Lemma elem_of_concat {A} (ls : list (list A)) x : x ∈ concat ls ↔ ∃ l, l ∈ ls ∧ x ∈ l.
Proof. rewrite list_elem_of_In, in_concat. by setoid_rewrite list_elem_of_In. Qed.

Lemma chunks_elem {A} n (l : list A) x : n ≠ 0 → x ∈ l → ∃ c, c ∈ chunks n l ∧ x ∈ c.
Proof. intros Hn Hx. rewrite <- (chunks_concat n l Hn) in Hx. by apply elem_of_concat in Hx. Qed.

Lemma chunks_sub {A} n (l : list A) c x : n ≠ 0 → c ∈ chunks n l → x ∈ c → x ∈ l.
Proof. intros Hn Hc Hx. rewrite <- (chunks_concat n l Hn). apply elem_of_concat. eauto. Qed.

(** ** The promise *)

(** What a recorded graph promises. *)
Record recorded_order (queue_count : nat) (nodes : list RecordedDispatch) (final : Z) (pushes : list push) (place : nat → nat) : Prop := {
  ro_kernel i d : nodes !! i = Some d → rd_lane d < queue_count ∧ ∃ completion x, pushes !! place i = Some x ∧
    kernel_spec (rd_lane d) d completion RECORDED_DISPATCH x;
  ro_only m l k : pushes !! m = Some (l, KernelPacket k) → ∃ i, i < length nodes ∧ m = place i;
  ro_increasing i j : i < j → j < length nodes → place i < place j;
  ro_final m l x : pushes !! m = Some (l, x) → packet_completion x = final ↔ S m = length pushes;
  ro_runnable : runnable pushes;
  ro_dependency start stop i j d : aql_execution pushes start stop → nodes !! j = Some d → i ∈ rd_dependencies d →
    (stop (place i) ≤ start (place j))%Z;
  ro_queue start stop i j di dj : aql_execution pushes start stop → i < j → nodes !! i = Some di → nodes !! j = Some dj →
    rd_lane di = rd_lane dj → (stop (place i) ≤ start (place j))%Z;
  ro_end start stop i : aql_execution pushes start stop → i < length nodes → (stop (place i) ≤ stop (length pushes - 1)%nat)%Z }.

(** ** Blocks *)

Section recorded.
Context (sig : nat → Z) (final : Z) (nodes : list RecordedDispatch).
Local Abbreviation n := (length nodes).
Context (Hinj : ∀ i j, i < n → j < n → sig i = sig j → i = j) (Hnz : ∀ i, i < n → sig i ≠ 0%Z).
Context (Hfinal : final ≠ 0%Z) (Hfsig : ∀ i, i < n → sig i ≠ final).
Context (Hearlier : ∀ i d v, nodes !! i = Some d → v ∈ rd_dependencies d → v < i).

(** Barriers of a queue that wait for a set of signals. *)
Record waits_for (lane : nat) (signals : list Z) (barriers : list push) : Prop := {
  wf_shape x : x ∈ barriers → ∃ p, x = (lane, BarrierPacket p) ∧ bap_completion_signal p = 0%Z ∧
    ∀ s, s ∈ bap_dependency_signals p → s ∈ signals ∨ s = 0%Z;
  wf_all s : s ∈ signals → ∃ p, (lane, BarrierPacket p) ∈ barriers ∧ s ∈ bap_dependency_signals p }.

Lemma chunks_wait lane signals policy barriers :
  try_map (λ chunk, barrier lane chunk 0 policy) (chunks BARRIER_DEPENDENCY_CAPACITY signals) = Ok barriers →
  waits_for lane signals barriers.
Proof using Type.
  clear. intros H. apply try_map_Ok in H. assert (BARRIER_DEPENDENCY_CAPACITY ≠ 0) as Hcap by done. split.
  - intros x [i Hi]%list_elem_of_lookup_1. destruct (Forall2_lookup_r _ _ _ _ _ H Hi) as (c & Hc & Hb).
    apply barrier_Ok in Hb as (p & -> & _ & Hz & _ & Hsub & _). exists p. split; [done|]. split; [done|]. intros s Hs.
    destruct (Hsub s Hs) as [Hin|?]; [left|by right]. eapply (chunks_sub _ _ c); [done|by eapply list_elem_of_lookup_2|done].
  - intros s Hs. destruct (chunks_elem BARRIER_DEPENDENCY_CAPACITY signals s Hcap Hs) as (c & [i Hi]%list_elem_of_lookup_1 & Hin).
    destruct (Forall2_lookup_l _ _ _ _ _ H Hi) as (x & Hx & Hb). apply barrier_Ok in Hb as (p & -> & _ & _ & _ & _ & Hall).
    exists p. split; [by eapply list_elem_of_lookup_2|]. by apply Hall.
Qed.

Definition node_block (entry : nat * RecordedDispatch) (b : list push) : Prop :=
  let '(i, d) := entry in ∃ barriers x, b = barriers ++ [x] ∧ waits_for (rd_lane d) (sig <$> rd_dependencies d) barriers ∧
    kernel_spec (rd_lane d) d (sig i) RECORDED_DISPATCH x.

Context (bs : list (list push)) (Hbs : Forall2 node_block (enumerate nodes) bs).
Context (leaves : list nat) (Hleaves : ∀ i, i < n → i ∈ leaves ∨ ∃ j d, nodes !! j = Some d ∧ i ∈ rd_dependencies d).
Context (Hleaves_lt : ∀ i, i ∈ leaves → i < n).
Context (terminal : list push) (Hterminal : waits_for 0 (sig <$> leaves) terminal).
Context (last_push : push) (Hlast : barrier_spec 0 [] final CROSS_QUEUE_BARRIER last_push).
Local Abbreviation pushes := (concat bs ++ terminal ++ [last_push]).

(** The position of the kernel of a node. *)
Definition kernel_at (i : nat) : nat := block_offset bs (S i) - 1.

Lemma node_at_block i d : nodes !! i = Some d → ∃ barriers x, bs !! i = Some (barriers ++ [x]) ∧
  waits_for (rd_lane d) (sig <$> rd_dependencies d) barriers ∧ kernel_spec (rd_lane d) d (sig i) RECORDED_DISPATCH x ∧
  kernel_at i = block_offset bs i + length barriers.
Proof using Hbs.
  intros Hi. destruct (Forall2_lookup_l _ _ _ i (i, d) Hbs) as (b & Hb & barriers & x & -> & Hw & Hk); [by rewrite lookup_enumerate, Hi|].
  exists barriers, x. split; [done|]. split; [done|]. split; [done|]. unfold kernel_at. rewrite (block_offset_S bs i _ Hb), length_app. cbn. lia.
Qed.

Lemma block_push i b j x : bs !! i = Some b → b !! j = Some x → pushes !! (block_offset bs i + j) = Some x.
Proof using Type.
  intros Hb Hj. apply lookup_app_l_Some. rewrite (block_lookup bs i b j Hb); [done|by eapply lookup_lt_Some].
Qed.

(** A push is a barrier of a node, its kernel, a terminal barrier or the last. *)
Lemma push_inv m l x : pushes !! m = Some (l, x) →
  (∃ i d j barriers k, nodes !! i = Some d ∧ l = rd_lane d ∧ bs !! i = Some (barriers ++ [k]) ∧ m = block_offset bs i + j ∧
     waits_for (rd_lane d) (sig <$> rd_dependencies d) barriers ∧ barriers !! j = Some (l, x)) ∨
  (∃ i d, nodes !! i = Some d ∧ l = rd_lane d ∧ m = kernel_at i ∧ kernel_spec l d (sig i) RECORDED_DISPATCH (l, x)) ∨
  (∃ j, l = 0 ∧ m = length (concat bs) + j ∧ terminal !! j = Some (l, x)) ∨
  (l = 0 ∧ S m = length pushes ∧ (l, x) = last_push).
Proof using Hbs Hlast Hterminal.
  intros Hm. apply lookup_app_Some in Hm as [Hm|[Hge Hm]].
  - destruct (at_inv bs m _ Hm) as (i & b & j & Hb & Hj & ->). destruct (Forall2_lookup_r _ _ _ _ _ Hbs Hb) as ([i' d] & Hd & barriers & k & -> & Hw & Hk).
    rewrite lookup_enumerate in Hd. destruct (nodes !! i) as [d'|] eqn:E; [|done]. injection Hd as <- ->.
    apply lookup_app_Some in Hj as [Hj|[Hge Hj]].
    + left. destruct (wf_shape _ _ _ Hw (l, x)) as (q & [= -> ->] & _); [by eapply list_elem_of_lookup_2|]. exists i, d, j, barriers, k. done.
    + right. left. apply list_lookup_singleton_Some in Hj as [Hz He]. subst k. pose proof Hk as (q & Hq & _). assert (l = rd_lane d) as -> by congruence. exists i, d. split; [done|]. split; [done|]. split; [|done].
      unfold kernel_at. rewrite (block_offset_S bs i _ Hb), length_app. cbn. unfold push in *. lia.
  - right. right. apply lookup_app_Some in Hm as [Hm|[Hge2 Hm]].
    + left. destruct (wf_shape _ _ _ Hterminal (l, x)) as (q & [= -> ->] & _); [by eapply list_elem_of_lookup_2|].
      exists (m - length (concat bs)). split; [done|]. split; [unfold push in *; lia|done].
    + right. apply list_lookup_singleton_Some in Hm as [Hz He]. destruct Hlast as (q & Hq & _). split; [congruence|]. split; [|done].
      rewrite !length_app. cbn. unfold push in *. lia.
Qed.

(** Only the kernel of a node completes its signal. *)
Lemma node_completer i m l x : i < n → pushes !! m = Some (l, x) → packet_completion x = sig i → m = kernel_at i.
Proof using Hbs Hlast Hterminal Hinj Hnz Hfsig.
  intros Hi Hm Hx. apply push_inv in Hm as [(j & d & q & barriers & k & _ & _ & _ & _ & Hw & Hq)|[(j & d & Hj & _ & -> & Hk)|[(j & _ & _ & Hj)|(_ & _ & Hl)]]].
  - exfalso. destruct (wf_shape _ _ _ Hw (l, x)) as (p & [= -> ->] & Hz & _); [by eapply list_elem_of_lookup_2|]. apply (Hnz i Hi). cbn in Hx. congruence.
  - destruct Hk as (p & [= ->] & _ & Hc & _). cbn in Hx. f_equal. symmetry. apply Hinj; [done|by eapply lookup_lt_Some|congruence].
  - exfalso. destruct (wf_shape _ _ _ Hterminal (l, x)) as (p & [= -> ->] & Hz & _); [by eapply list_elem_of_lookup_2|]. apply (Hnz i Hi). cbn in Hx. congruence.
  - exfalso. destruct Hlast as (p & He & _ & Hc & _). rewrite <- Hl in He. injection He as -> ->. apply (Hfsig i Hi). cbn in Hx. congruence.
Qed.

Lemma kernel_push_at i d : nodes !! i = Some d → ∃ k, pushes !! kernel_at i = Some (rd_lane d, KernelPacket k) ∧
  packet_barrier (KernelPacket k) = true ∧ kernel_spec (rd_lane d) d (sig i) RECORDED_DISPATCH (rd_lane d, KernelPacket k).
Proof using Hbs.
  intros Hi. destruct (node_at_block i d Hi) as (barriers & x & Hb & _ & Hk & ->). pose proof Hk as (k & -> & Hbar & _).
  exists k. split; [|done]. eapply block_push; [done|]. rewrite lookup_app_r by done. by rewrite Nat.sub_diag.
Qed.

Lemma kernel_at_lt i j : i < j → j < n → kernel_at i < kernel_at j.
Proof using Hbs.
  intros Hij Hj. destruct (lookup_lt_is_Some_2 nodes i) as [di Hdi]; [lia|]. destruct (lookup_lt_is_Some_2 nodes j Hj) as [dj Hdj].
  destruct (node_at_block i di Hdi) as (b1 & x1 & Hb1 & _ & _ & ->). destruct (node_at_block j dj Hdj) as (b2 & x2 & Hb2 & _ & _ & ->).
  pose proof (block_offset_S bs i _ Hb1) as He. rewrite length_app in He. cbn in He. pose proof (block_offset_mono bs (S i) j Hij). lia.
Qed.

Section order.
Context (start stop : nat → Z) (Hex : aql_execution pushes start stop).

(** A barrier on a node's signal ends after the node's kernel. *)
Lemma signal_order i m l p : i < n → pushes !! m = Some (l, BarrierPacket p) → sig i ∈ bap_dependency_signals p →
  (stop (kernel_at i) ≤ stop m)%Z.
Proof using Hbs Hlast Hterminal Hinj Hnz Hfsig Hex.
  intros Hi Hm Hs. destruct (ax_signal _ _ _ Hex m l p _ Hm Hs (Hnz i Hi)) as (q & l' & x & Hq & Hx & Hle).
  by rewrite <- (node_completer i q l' x Hi Hq Hx).
Qed.

Lemma node_order i j d : nodes !! j = Some d → i ∈ rd_dependencies d → (stop (kernel_at i) ≤ start (kernel_at j))%Z.
Proof using Hbs Hlast Hterminal Hinj Hnz Hfsig Hearlier Hex.
  intros Hj Hin. pose proof (Hearlier j d i Hj Hin) as Hij. pose proof (lookup_lt_Some _ _ _ Hj) as Hjn.
  destruct (kernel_push_at j d Hj) as (k & Hk & _). destruct (node_at_block j d Hj) as (barriers & x & Hb & Hw & _ & Hat).
  destruct (wf_all _ _ _ Hw (sig i)) as (p & [q Hq]%list_elem_of_lookup_1 & Hs); [by apply list_elem_of_fmap; exists i|].
  pose proof (lookup_lt_Some _ _ _ Hq) as Hql.
  assert (pushes !! (block_offset bs j + q) = Some (rd_lane d, BarrierPacket p)) as Hm.
  { eapply block_push; [done|]. by apply lookup_app_l_Some. }
  pose proof (signal_order i _ _ p ltac:(lia) Hm Hs) as H1.
  assert (block_offset bs j + q < kernel_at j) as Hlt by (rewrite Hat; unfold push in *; lia).
  pose proof (ax_barrier_and _ _ _ Hex (block_offset bs j + q) (kernel_at j) (rd_lane d) p _ Hlt Hm Hk). lia.
Qed.

Lemma queue_order i j di dj : i < j → nodes !! i = Some di → nodes !! j = Some dj → rd_lane di = rd_lane dj →
  (stop (kernel_at i) ≤ start (kernel_at j))%Z.
Proof using Hbs Hex.
  intros Hij Hi Hj Hl. destruct (kernel_push_at i di Hi) as (k1 & H1 & _). destruct (kernel_push_at j dj Hj) as (k2 & H2 & Hbar & _).
  rewrite Hl in H1. eapply (ax_barrier_bit _ _ _ Hex); [|exact H1|exact H2|exact Hbar]. apply kernel_at_lt; [done|by eapply lookup_lt_Some].
Qed.

Lemma final_order i : i < n → (stop (kernel_at i) ≤ stop (length pushes - 1)%nat)%Z.
Proof using Hbs Hlast Hterminal Hinj Hnz Hfsig Hearlier Hleaves Hex.
  remember (n - i) as k eqn:Hk. revert i Hk. induction k as [k IH] using lt_wf_ind. intros i -> Hi.
  assert (pushes !! (length pushes - 1) = Some last_push) as Hlp.
  { rewrite app_assoc, length_app. cbn [length]. rewrite Nat.add_sub. rewrite lookup_app_r by done. by rewrite Nat.sub_diag. }
  destruct (Hleaves i Hi) as [Hin|(j & d & Hj & Hin)].
  - destruct (wf_all _ _ _ Hterminal (sig i)) as (p & [q Hq]%list_elem_of_lookup_1 & Hs); [by apply list_elem_of_fmap; exists i|].
    assert (pushes !! (length (concat bs) + q) = Some (0, BarrierPacket p)) as Hm.
    { rewrite lookup_app_r by (unfold push in *; lia). rewrite lookup_app_l by (apply lookup_lt_Some in Hq; unfold push in *; lia).
      unfold push in *. replace (length (concat bs) + q - length (concat bs)) with q by lia. done. }
    pose proof (signal_order i _ _ p Hi Hm Hs) as H1. pose proof (ax_duration _ _ _ Hex (length pushes - 1)) as Hd.
    assert (stop (length (concat bs) + q)%nat ≤ start (length pushes - 1)%nat)%Z as H2; [|lia].
    destruct last_push as [ll lx]. destruct Hlast as (pl & [= -> _] & _). apply lookup_lt_Some in Hq.
    eapply (ax_barrier_and _ _ _ Hex _ _ 0); [|exact Hm|exact Hlp]. rewrite !length_app. cbn. unfold push in *. lia.
  - pose proof (lookup_lt_Some _ _ _ Hj) as Hjn. pose proof (Hearlier j d i Hj Hin).
    pose proof (IH (n - j) ltac:(lia) j eq_refl Hjn). pose proof (node_order i j d Hj Hin). pose proof (ax_duration _ _ _ Hex (kernel_at j)). lia.
Qed.
End order.

Lemma recorded_runnable : runnable pushes.
Proof using Hbs Hlast Hterminal Hearlier Hleaves_lt.
  assert (∀ i m, i < n → kernel_at i < m → ∃ m' l' q, m' < m ∧ pushes !! m' = Some (l', q) ∧ packet_completion q = sig i) as Hdone.
  { intros i m Hi Hlt. destruct (lookup_lt_is_Some_2 nodes i Hi) as [d Hd]. destruct (kernel_push_at i d Hd) as (k & Hk & _ & (k' & [= <-] & _ & Hc & _)).
    exists (kernel_at i), (rd_lane d), (KernelPacket k). done. }
  intros m l p s Hm Hs Hs0.
  apply push_inv in Hm as [(j & d & q & barriers & k & Hj & _ & Hb & -> & Hw & Hq)|[(j & d & _ & _ & _ & (k & ? & _))|[(j & _ & -> & Hj)|(_ & _ & Hl)]]]; [|done| |].
  - destruct (wf_shape _ _ _ Hw _ (list_elem_of_lookup_2 _ _ _ Hq)) as (p' & [= _ <-] & _ & Hsub). destruct (Hsub s Hs) as [Hin|?]; [|done].
    apply list_elem_of_fmap in Hin as (i & -> & Hin). pose proof (Hearlier j d i Hj Hin) as Hij. pose proof (lookup_lt_Some _ _ _ Hj).
    apply Hdone; [lia|]. destruct (lookup_lt_is_Some_2 nodes i) as [di Hdi]; [lia|]. destruct (node_at_block i di Hdi) as (b1 & x1 & Hb1 & _ & _ & ->).
    pose proof (block_offset_S bs i _ Hb1) as He. rewrite length_app in He. cbn in He. pose proof (block_offset_mono bs (S i) j Hij). lia.
  - destruct (wf_shape _ _ _ Hterminal _ (list_elem_of_lookup_2 _ _ _ Hj)) as (p' & [= _ <-] & _ & Hsub). destruct (Hsub s Hs) as [Hin|?]; [|done].
    apply list_elem_of_fmap in Hin as (i & -> & Hin). pose proof (Hleaves_lt i Hin) as Hi. apply Hdone; [done|].
    destruct (lookup_lt_is_Some_2 nodes i Hi) as [di Hdi]. destruct (node_at_block i di Hdi) as (b1 & x1 & Hb1 & _ & _ & Hat).
    assert (concat bs !! kernel_at i = Some x1) as Hc.
    { rewrite Hat, (block_lookup bs i _ _ Hb1) by (rewrite length_app; cbn; lia). rewrite lookup_app_r by done. by rewrite Nat.sub_diag. }
    apply lookup_lt_Some in Hc. lia.
  - destruct Hlast as (p' & He & _ & _ & _ & Hsub & _). rewrite <- Hl in He. injection He as _ <-.
    destruct (Hsub s Hs) as [Hin|?]; [by apply not_elem_of_nil in Hin|done].
Qed.

Lemma recorded_parts queue_count : (∀ i d, nodes !! i = Some d → rd_lane d < queue_count) →
  recorded_order queue_count nodes final pushes kernel_at.
Proof using Hbs Hlast Hterminal Hinj Hnz Hfinal Hfsig Hearlier Hleaves Hleaves_lt.
  intros Hlane. split.
  - intros i d Hi. split; [by eapply Hlane|]. destruct (kernel_push_at i d Hi) as (k & Hk & _ & Hs). eauto.
  - intros m l k Hm. apply push_inv in Hm as [(j & d & q & barriers & x & _ & _ & _ & _ & Hw & Hq)|[(j & d & Hj & _ & -> & _)|[(j & _ & _ & Hj)|(_ & _ & Hl)]]].
    + by destruct (wf_shape _ _ _ Hw _ (list_elem_of_lookup_2 _ _ _ Hq)) as (p & ? & _).
    + exists j. split; [by eapply lookup_lt_Some|done].
    + by destruct (wf_shape _ _ _ Hterminal _ (list_elem_of_lookup_2 _ _ _ Hj)) as (p & ? & _).
    + destruct Hlast as (p & He & _). by rewrite <- Hl in He.
  - apply kernel_at_lt.
  - intros m l x Hm. split.
    + intros Hx. apply push_inv in Hm as [(j & d & q & barriers & k & _ & _ & _ & _ & Hw & Hq)|[(j & d & Hj & _ & _ & Hk)|[(j & _ & _ & Hj)|(_ & ? & _)]]]; [exfalso..|done].
      * destruct (wf_shape _ _ _ Hw _ (list_elem_of_lookup_2 _ _ _ Hq)) as (p & [= _ ->] & Hz & _). cbn in Hx. congruence.
      * destruct Hk as (p & [= ->] & _ & Hc & _). apply (Hfsig j); [by eapply lookup_lt_Some|]. cbn in Hx. congruence.
      * destruct (wf_shape _ _ _ Hterminal _ (list_elem_of_lookup_2 _ _ _ Hj)) as (p & [= _ ->] & Hz & _). cbn in Hx. congruence.
    + intros He. assert (pushes !! m = Some last_push) as Hm2.
      { rewrite app_assoc in *. rewrite length_app in He. cbn in He. rewrite lookup_app_r by (unfold push in *; lia).
        replace (m - _) with 0 by (unfold push in *; lia). done. }
      destruct Hlast as (p & Hp & _ & Hc & _). pose proof (eq_trans (eq_sym Hm) Hm2) as E. rewrite Hp in E. by injection E as _ ->.
  - apply recorded_runnable.
  - intros start stop i j d Hex Hj Hin. by eapply node_order.
  - intros start stop i j di dj Hex Hij Hi Hj Hl. by eapply queue_order.
  - intros start stop i Hex Hi. by apply (final_order start stop Hex).
Qed.
End recorded.

(** ** Construction *)

(** The marks are exactly the nodes something depends on. *)
Lemma mark_node marks d marks' : mark_dependencies marks d = Ok marks' → length marks' = length marks ∧
  ∀ v, marks' !! v = Some true ↔ marks !! v = Some true ∨ (v ∈ rd_dependencies d ∧ v < length marks).
Proof.
  unfold mark_dependencies. generalize (rd_dependencies d) as deps. intros deps. revert marks.
  induction deps as [|x deps IH]; intros marks; cbn [try_fold]; [intros [= <-]; split; [done|]; intros v; set_solver|].
  intros H. apply bind_Ok in H as (m1 & H1 & H). apply store_Ok in H1 as [Hlt ->]. destruct (IH _ H) as [Hl Hm].
  rewrite length_insert in *. split; [done|]. intros v. rewrite Hm. destruct (decide (v = x)) as [->|Hne].
  - rewrite list_lookup_insert_eq by done. set_solver.
  - rewrite list_lookup_insert_ne by done. set_solver.
Qed.

Lemma mark_all nodes : ∀ marks marks', try_fold mark_dependencies marks nodes = Ok marks' → length marks' = length marks ∧
  ∀ v, marks' !! v = Some true ↔ marks !! v = Some true ∨ (∃ d, d ∈ nodes ∧ v ∈ rd_dependencies d ∧ v < length marks).
Proof.
  induction nodes as [|d nodes IH]; intros marks marks'; cbn [try_fold]; [intros [= <-]; split; [done|]; intros v; set_solver|].
  intros H. apply bind_Ok in H as (m1 & H1 & H). apply mark_node in H1 as [L1 M1]. destruct (IH _ _ H) as [L2 M2].
  split; [congruence|]. intros v. rewrite M2, M1, L1. set_solver.
Qed.

Lemma check_dependencies_Ok i ds : ∀ unique, check_dependencies i unique ds = Ok tt → ∀ v, v ∈ ds → v < i.
Proof.
  induction ds as [|x ds IH]; intros unique H v Hv; [by apply not_elem_of_nil in Hv|]. cbn in H.
  apply bind_Ok in H as (u & H1 & H). apply err_if_Ok, bool_decide_eq_false in H1. apply bind_Ok in H as (u' & _ & H).
  apply elem_of_cons in Hv as [->|Hv]; [lia|]. by eapply IH.
Qed.

(** A graph of dispatches over any number of queues. Every dispatch has one
    kernel packet on its queue, in the given order, and there are no other kernel
    packets. In every execution of the packets a dispatch starts after all its
    dependencies have ended, on whatever queue they are and however many there
    are, a queue runs its dispatches one after another, and the final signal,
    which only the last packet completes, comes after every dispatch. Every
    awaited signal is completed by an earlier packet, so nothing can block. *)
Theorem recorded_graph_order gpu queue_outcomes signals queue_count queue_size nodes g : distinct_signals signals →
  RecordedGraph_create gpu queue_outcomes signals queue_count queue_size nodes = Ok g →
  ∃ place, recorded_order queue_count nodes (rg_final_signal g) (rg_pushes g) place.
Proof.
  intros Hd H. unfold RecordedGraph_create in H. apply bind_Ok in H as (u1 & _ & H). apply bind_Ok in H as (u2 & Hval & H).
  apply bind_Ok in H as (queues & _ & H). apply bind_Ok in H as (sigs & Hsigs & H). apply bind_Ok in H as (final & Hf & H).
  apply bind_Ok in H as (marks & Hmarks & H). apply bind_Ok in H as (batches & Hb & H). apply bind_Ok in H as (tsigs & Hts & H).
  apply bind_Ok in H as (terminal & Hterm & H). apply bind_Ok in H as (completion & Hcomp & H). apply bind_Ok in H as (u3 & _ & H).
  apply Ok_inj in H as <-. cbn [rg_final_signal rg_pushes]. apply new_signal_Ok in Hf as [Hf Hf0].
  assert (∀ i, i < length nodes → sigs !! i = Some (handle signals i) ∧ handle signals i ≠ 0%Z) as Hsig.
  { intros i Hi. apply try_map_Ok in Hsigs. destruct (Forall2_lookup_l _ _ _ i i Hsigs) as (s & Hs & Hn); [by rewrite lookup_seq_lt|].
    apply new_signal_Ok in Hn as [-> Hn]. done. }
  assert (∀ i d, nodes !! i = Some d → rd_lane d < queue_count ∧ ∀ v, v ∈ rd_dependencies d → v < i) as Hvalid.
  { intros i d Hi. unfold validate_nodes in Hval. apply bind_Ok in Hval as (u & _ & Hval). destruct u2. rewrite for_each_Ok in Hval.
    pose proof (Hval (i, d)) as Hx. cbn beta iota in Hx. specialize (Hx (proj2 (elem_of_enumerate _ _ _) Hi)).
    apply bind_Ok in Hx as (u4 & Hlane & Hx). apply err_if_Ok, bool_decide_eq_false in Hlane. apply bind_Ok in Hx as (u5 & _ & Hx).
    split; [lia|]. by eapply check_dependencies_Ok. }
  apply mark_all in Hmarks as [Hml Hm]. rewrite length_replicate in *.
  set (leaves := omap (λ '(i, used), if used : bool then None else Some i) (enumerate marks)) in *.
  assert (∀ i, i ∈ leaves ↔ marks !! i = Some false) as Hleaf.
  { intros i. unfold leaves. rewrite list_elem_of_omap. split.
    - intros ([j used] & Hin%elem_of_enumerate & He). destruct used; [done|]. by injection He as <-.
    - intros Hi. exists (i, false). split; [by apply elem_of_enumerate|done]. }
  assert (∀ l ss, (∀ v, v ∈ l → v < length nodes) → try_map (index (E := ReplayError) sigs) l = Ok ss → ss = handle signals <$> l) as Hmap.
  { intros l ss Hl Hss. apply try_map_Ok in Hss. clear - Hss Hl Hsig. induction Hss as [|v s l ss Hv _ IH]; [done|]. cbn. f_equal.
    - apply index_Ok in Hv. destruct (Hsig v) as [Hv' _]; [apply Hl; left|]. congruence.
    - apply IH. intros v' Hv'. apply Hl. by right. }
  assert (∀ i, i ∈ leaves → i < length nodes) as Hll by (intros i Hi%Hleaf%lookup_lt_Some; lia).
  exists (kernel_at batches). apply (recorded_parts (handle signals) final nodes) with (leaves := leaves); [..|by intros i d Hi; apply (Hvalid i d)].
  - intros i j Hi Hj He. eapply handle_inj; [exact Hd|exact He|by apply Hsig].
  - intros i Hi. by apply Hsig.
  - done.
  - intros i Hi He. rewrite Hf in He. apply (handle_inj signals Hd) in He; [lia|by apply Hsig].
  - intros i d v Hi. by apply (Hvalid i d).
  - apply try_map_Ok in Hb. eapply Forall2_same_length_lookup. split; [by eapply Forall2_length|].
    intros q [i d] b Hq Hqb. pose proof (Forall2_lookup_lr _ _ _ _ _ _ Hb Hq Hqb) as Hn. rewrite lookup_enumerate in Hq.
    destruct (nodes !! q) as [d'|] eqn:Hnode; [|done]. injection Hq as -> ->. unfold node_pushes in Hn.
    apply bind_Ok in Hn as (deps & Hdeps & Hn). apply bind_Ok in Hn as (barriers & Hbar & Hn). apply bind_Ok in Hn as (c & Hc & Hn).
    apply bind_Ok in Hn as (x & Hx & Hn). apply Ok_inj in Hn as <-. pose proof (lookup_lt_Some _ _ _ Hnode) as Hin.
    apply Hmap in Hdeps; [|intros v Hv; pose proof (proj2 (Hvalid i d Hnode) v Hv); lia]. subst deps.
    exists barriers, x. split; [done|]. split; [by eapply chunks_wait|]. apply index_Ok in Hc. destruct (Hsig i Hin) as [Hs _].
    rewrite Hs in Hc. injection Hc as <-. by apply kernel_push_Ok.
  - intros i Hi. destruct (marks !! i) as [[]|] eqn:E.
    + right. apply Hm in E as [E|(d & [j Hj]%list_elem_of_lookup_1 & Hin & _)]; [by apply lookup_replicate in E as [? _]|eauto].
    + left. by apply Hleaf.
    + apply lookup_ge_None in E. lia.
  - exact Hll.
  - apply Hmap in Hts; [|exact Hll]. subst tsigs. by eapply chunks_wait.
  - by apply barrier_Ok.
Qed.

(** Six dispatches on two queues and one that depends on all of them, which takes
    two barrier packets. *)
Definition fan_dispatch (lane : nat) (deps : list nat) : RecordedDispatch :=
  mkRecordedDispatch lane (mkKernel "fan" (mkKernelMetadata 9 0 16 0 0 false) 1)
    (mkLaunchGeometry (mkDim3 64 1 1) (mkDim3 64 1 1) 3) (mkKernargBuffer 0 1 []) 0 deps.
Definition fan : list RecordedDispatch :=
  ((λ i, fan_dispatch (i mod 2) []) <$> seq 0 6) ++ [fan_dispatch 1 [0; 1; 2; 3; 4; 5]].
Definition fan_signal (k : nat) : SignalCreation := SignalCreated (Z.of_nat (S k)).
Definition fan_queue (i : nat) : QueueCreation := Created false QUEUE_TYPE_MULTI 8 1 (Z.of_nat i) (replicate 8 (replicate 64 0%Z)).

Lemma recorded_graph_order_witness : ∃ g, RecordedGraph_create demo_agent fan_queue fan_signal 2 8 fan = Ok g ∧
  length (rg_pushes g) = 11 ∧ terminal_nodes g = [6] ∧ ∃ place : nat → nat, place 5 ≤ place 6 ∧ place 6 ≤ 10.
Proof.
  destruct (RecordedGraph_create demo_agent fan_queue fan_signal 2 8 fan) as [g|e|] eqn:H; [|by vm_compute in H..].
  exists g. split; [done|].
  assert (length (rg_pushes g) = 11 ∧ terminal_nodes g = [6]) as [Hlen Hterm].
  { assert (Ok g = RecordedGraph_create demo_agent fan_queue fan_signal 2 8 fan) as E by done. vm_compute in E. by injection E as ->. }
  split; [done|]. split; [done|].
  destruct (recorded_graph_order demo_agent fan_queue fan_signal 2 8 fan g) as (place & Hord); [intros j k raw [= <-] [= ?]; lia|exact H|].
  exists place. pose proof (runnable_execution _ (ro_runnable _ _ _ _ _ Hord)) as Hex.
  pose proof (ro_dependency _ _ _ _ _ Hord _ _ 5 6 (fan_dispatch 1 [0; 1; 2; 3; 4; 5]) Hex eq_refl ltac:(do 5 right; left)) as H1.
  pose proof (ro_end _ _ _ _ _ Hord _ _ 6 Hex ltac:(cbn; lia)) as H2. rewrite Hlen in H2. split; lia.
Defined.
