(* ===== verification/AqlTotal.v ===== *)
(** The constructions of the two-queue batches never panic
    (src/crates/redline-dispatch/src/aql/replay.rs): every index is in range, every
    [expect] has its value, and the packet, signal and profile counts that are
    computed in advance with checked arithmetic are the ones the loops produce. *)

From S2P Require Import Prelude Ir Packet Queue AqlGraph AqlOrder AqlBatch.

(** ** Programs that do not panic *)

Section total.
Context {E : Type}.

Definition safe {A} (m : result E A) : Prop := m ≠ Panic.

Lemma safe_Ok {A} (a : A) : safe (Ok a).
Proof. done. Qed.
Lemma safe_Err {A} (e : E) : safe (A := A) (Err e).
Proof. done. Qed.
Lemma safe_bind {A B} (m : result E A) (f : A → result E B) : safe m → (∀ a, m = Ok a → safe (f a)) → safe (m ≫= f).
Proof. intros Hm Hf. destruct m as [a|e|]; [by apply Hf|done|done]. Qed.
Lemma safe_err_if b (e : E) : safe (err_if b e).
Proof. by destruct b. Qed.
Lemma safe_ok_or {A} (e : E) (o : option A) : safe (ok_or e o).
Proof. by destruct o. Qed.
Lemma safe_index {A} (l : list A) i x : l !! i = Some x → safe (index (E := E) l i).
Proof. intros H. unfold index. by rewrite H. Qed.
Lemma safe_expect {A} (o : option A) x : o = Some x → safe (expect (E := E) o).
Proof. by intros ->. Qed.
Lemma safe_assert b : b = true → safe (assert (E := E) b).
Proof. by intros ->. Qed.
Lemma safe_for_each {A} (f : A → result E unit) l : (∀ x, x ∈ l → safe (f x)) → safe (for_each f l).
Proof.
  induction l as [|x l IH]; intros H; [done|]. cbn. apply safe_bind; [apply H; left|]. intros a _. apply IH. intros y Hy. apply H. by right.
Qed.
Lemma safe_try_map {A B} (f : A → result E B) l : (∀ x, x ∈ l → safe (f x)) → safe (try_map f l).
Proof.
  induction l as [|x l IH]; intros H; [done|]. cbn. apply safe_bind; [apply H; left|]. intros a _.
  apply safe_bind; [|done]. apply IH. intros y Hy. apply H. by right.
Qed.
Lemma safe_try_fold {A S} (f : S → A → result E S) l : (∀ s x, x ∈ l → safe (f s x)) → ∀ s, safe (try_fold f s l).
Proof.
  induction l as [|x l IH]; intros H s; [done|]. cbn. apply safe_bind; [apply H; left|]. intros a _. apply IH. intros s' y Hy. apply H. by right.
Qed.

(** A loop that counts: each element adds its weight to the counter. *)
Lemma counting_loop {A B} (f : B * nat → A → result E (B * nat)) (weight : A → nat) bound l :
  (∀ s x, x ∈ l → s.2 + weight x ≤ bound → safe (f s x) ∧ ∀ s', f s x = Ok s' → s'.2 = s.2 + weight x) →
  ∀ s, s.2 + sum_list (weight <$> l) ≤ bound → safe (try_fold f s l) ∧ ∀ s', try_fold f s l = Ok s' → s'.2 = s.2 + sum_list (weight <$> l).
Proof.
  induction l as [|x l IH]; intros Hf s Hs; cbn in *.
  - split; [done|]. intros s' [= <-]. lia.
  - destruct (Hf s x) as [Hx Hadd]; [left|lia|]. destruct (f s x) as [s1|e|]; [|done..]. cbn.
    specialize (Hadd s1 eq_refl). destruct (IH) with (s := s1) as [Hl Hsum]; [intros s2 y Hy; apply Hf; by right|lia|].
    split; [done|]. intros s' Hs'. rewrite (Hsum s' Hs'). lia.
Qed.
End total.

Lemma safe_map_err {E F A} (f : E → F) (m : result E A) : safe m → safe (map_err f m).
Proof. by destruct m. Qed.

Create HintDb safe.
#[export] Hint Resolve safe_Ok safe_Err safe_err_if safe_ok_or safe_map_err : safe.

(** ** Pieces *)

Lemma safe_validate_geometry gpu g : safe (validate_geometry gpu g).
Proof.
  unfold validate_geometry. apply safe_bind; [|intros _ _; apply safe_bind; [auto with safe|]].
  - apply safe_for_each. intros [axis [[w wm] [g0 gm]]] _. cbn. apply safe_bind; auto with safe.
  - intros _ _. destruct (foldl _ _ _); auto with safe.
Qed.

Lemma safe_check_objects gpu d : safe (check_objects gpu d).
Proof. unfold check_objects. apply safe_bind; [auto with safe|]. intros _ _. apply safe_map_err, safe_validate_geometry. Qed.

Lemma safe_validate_phases gpu phases : safe (validate_two_queue_phases gpu phases).
Proof.
  unfold validate_two_queue_phases. apply safe_for_each. intros phase _. apply safe_for_each. intros [lane ds] _.
  apply safe_for_each. intros d _. apply safe_check_objects.
Qed.

Lemma safe_QueueSet_create gpu n size outcomes : safe (QueueSet_create gpu n size outcomes).
Proof.
  unfold QueueSet_create. apply safe_bind; [auto with safe|]. intros _ _. apply safe_bind; [|intros q _; apply safe_bind; auto with safe].
  apply safe_try_map. intros i _. unfold AqlQueue_create. apply safe_bind; [auto with safe|]. intros _ _. apply safe_bind; [auto with safe|]. intros _ _.
  destruct (outcomes i); [auto with safe..|]. apply safe_bind; auto with safe.
Qed.

Lemma safe_barrier lane deps completion policy : safe (barrier lane deps completion policy).
Proof. unfold barrier, BarrierAndPacket_new_with_policy. by destruct (bool_decide _). Qed.

Lemma safe_kernel_push lane d completion policy : safe (kernel_push lane d completion policy).
Proof.
  unfold kernel_push. apply safe_bind; [|auto with safe]. apply safe_map_err. unfold KernelDispatchPacket_new_with_policy.
  repeat (apply safe_bind; [auto with safe|intros ? _]). auto with safe.
Qed.

Lemma safe_new_signal signals k : safe (new_signal signals k).
Proof. unfold new_signal, CompletionSignal_new. destruct (signals k) as [?|raw]; [done|]. by destruct (raw =? 0)%Z. Qed.

Lemma safe_tail_signals signals base T P : safe (tail_signals signals base T P).
Proof.
  unfold tail_signals. apply safe_try_map. intros t _. apply safe_try_map. intros p _.
  apply safe_bind; [apply safe_new_signal|]. intros z _. apply safe_bind; [apply safe_new_signal|auto with safe].
Qed.

Lemma safe_lane_batch_count sizes T barriers extra : safe (lane_batch_count sizes T barriers extra).
Proof. unfold lane_batch_count. apply safe_bind; [apply safe_try_fold; auto with safe|auto with safe]. Qed.

Lemma safe_required_packet_counts phases T : safe (required_packet_counts phases T).
Proof.
  unfold required_packet_counts, two_queue_serialized_batch_counts.
  repeat (apply safe_bind; [first [apply safe_lane_batch_count|auto with safe]|intros ? _]). auto with safe.
Qed.

Lemma safe_dependency_pushes policy previous : safe (dependency_pushes policy previous).
Proof. apply safe_try_map. intros lane _. apply safe_barrier. Qed.

Lemma safe_boundary signals base T P tails policy t p : tails_ok signals base T P tails → t < T → p < P → safe (boundary_pushes policy tails t p).
Proof.
  intros Ht Htt Hp. unfold boundary_pushes. case_bool_decide as Hp0; [case_bool_decide as Ht0; [done|]|].
  - destruct (ta_token _ _ _ _ _ Ht (t - 1)) as (token & Htok & Hlen & Hall); [lia|]. rewrite (proj2 (index_Ok _ _ _) Htok). cbn.
    apply safe_bind; [|intros; apply safe_dependency_pushes]. eapply safe_expect. rewrite last_lookup, Hlen. apply Hall. lia.
  - destruct (ta_token _ _ _ _ _ Ht t Htt) as (token & Htok & Hlen & Hall). rewrite (proj2 (index_Ok _ _ _) Htok). cbn.
    apply safe_bind; [|intros; apply safe_dependency_pushes]. eapply safe_index, Hall. lia.
Qed.

(** ** Counts *)

Definition lane_count (lane : nat) (pushes : list push) : nat := length (lane_packets lane pushes).

Lemma lane_count_app lane a b : lane_count lane (a ++ b) = lane_count lane a + lane_count lane b.
Proof. unfold lane_count, lane_packets. by rewrite omap_app, length_app. Qed.

Lemma lane_count_all lane l : (∀ x : push, x ∈ l → x.1 = lane) → lane_count lane l = length l.
Proof.
  unfold lane_count, lane_packets. induction l as [|x l IH]; intros H; [done|]. cbn.
  rewrite bool_decide_eq_true_2 by (apply H; left). cbn. f_equal. apply IH. intros y Hy. apply H. by right.
Qed.

Lemma lane_count_none lane l : (∀ x : push, x ∈ l → x.1 ≠ lane) → lane_count lane l = 0.
Proof.
  unfold lane_count, lane_packets. induction l as [|x l IH]; intros H; [done|]. cbn.
  rewrite bool_decide_eq_false_2 by (apply H; left). apply IH. intros y Hy. apply H. by right.
Qed.

(** The dispatches of a phase on a queue. *)
Definition lane_size (lane : nat) (phase : TwoQueuePhase) : nat := length (at_lane (lane_zero phase, lane_one phase) lane).

Section counts.
Context (sig : nat → nat → Z) (other : Z → Prop) (closing : Packet → Prop) (policy : HeaderPolicy) (headers : nat → nat → nat → nat → option HeaderPolicy) (extra : nat).
Context (phases : list TwoQueuePhase).

Lemma segment_count g l pre c lane : segment sig other closing g l pre c →
  lane_count lane (pre ++ [(l, c)]) = if bool_decide (l = lane) then S (length pre) else 0.
Proof.
  intros Hs. assert (∀ x, x ∈ pre ++ [(l, c)] → x.1 = l) as Hall.
  { intros x [Hx|Hx]%elem_of_app; [|by apply list_elem_of_singleton in Hx as ->].
    apply (proj1 (Forall_forall _ _) (sg_kernels _ _ _ _ _ _ _ Hs)) in Hx as (k & -> & _). done. }
  case_bool_decide as Hl; [subst; rewrite lane_count_all by done; rewrite length_app; cbn; lia|].
  apply lane_count_none. intros x Hx. by rewrite (Hall x Hx).
Qed.

Lemma block_count t p phase b lane : lane < 2 → phase_block sig other closing policy headers extra phases (t, (p, phase)) b →
  lane_count lane b = (if bool_decide (t * length phases + p = 0) then 0 else 1) + (lane_size lane phase + extra).
Proof.
  intros Hl (bnd & pre0 & c0 & pre1 & c1 & -> & Hbnd & H0 & H1 & K0 & K1). rewrite lane_count_app, (lane_count_app _ (pre0 ++ _)), (segment_count _ _ _ _ _ H0), (segment_count _ _ _ _ _ H1).
  assert (lane_count lane bnd = if bool_decide (t * length phases + p = 0) then 0 else 1) as ->.
  { destruct (t * length phases + p) as [|g]; cbn in Hbnd; [by rewrite Hbnd|]. rewrite bool_decide_eq_false_2 by done.
    apply Forall2_cons_inv_l in Hbnd as (x & r & (q & -> & _) & Hbnd & ->). apply Forall2_cons_inv_l in Hbnd as (y & r' & (q' & -> & _) & Hbnd & ->).
    apply Forall2_nil_inv_l in Hbnd as ->. by destruct lane as [|[|?]]; [..|lia]. }
  pose proof (lk_count _ _ _ _ _ _ _ _ K0). pose proof (lk_count _ _ _ _ _ _ _ _ K1).
  unfold lane_size. destruct lane as [|[|?]]; [| |lia]; cbn [at_lane fst snd].
  - rewrite (bool_decide_eq_true_2 (0 = 0)), (bool_decide_eq_false_2 (1 = 0)) by lia. unfold push in *. lia.
  - rewrite (bool_decide_eq_true_2 (1 = 1)), (bool_decide_eq_false_2 (0 = 1)) by lia. unfold push in *. lia.
Qed.

Lemma sum_list_app (l k : list nat) : sum_list (l ++ k) = sum_list l + sum_list k.
Proof. induction l; cbn; lia. Qed.

Lemma sum_steps (f : TwoQueuePhase → nat) T : sum_list ((λ s : nat * (nat * TwoQueuePhase), f s.2.2) <$> steps phases T) = T * sum_list (f <$> phases).
Proof.
  unfold steps. generalize 0 as a. induction T as [|T IH]; intros a; [done|].
  change (t ← seq a (S T); pair t <$> enumerate phases) with ((pair a <$> enumerate phases) ++ (t ← seq (S a) T; pair t <$> enumerate phases)).
  rewrite fmap_app, sum_list_app, IH. cbn [Nat.mul]. f_equal. rewrite <- list_fmap_compose. f_equal. apply list_eq. intros i.
  rewrite !list_lookup_fmap, lookup_enumerate. by destruct (phases !! i).
Qed.

(** The packets of a queue in the blocks of a batch. *)
Lemma batch_count T bs lane : lane < 2 → T ≠ 0 → phases ≠ [] → Forall2 (phase_block sig other closing policy headers extra phases) (steps phases T) bs →
  S (lane_count lane (concat bs)) = T * sum_list (lane_size lane <$> phases) + T * length phases * extra + T * length phases.
Proof.
  intros Hl HT HP HF.
  assert (∀ st bs, Forall2 (phase_block sig other closing policy headers extra phases) st bs → (∀ s, s ∈ st → s.1 * length phases + s.2.1 ≠ 0) →
    lane_count lane (concat bs) = sum_list ((λ s : nat * (nat * TwoQueuePhase), lane_size lane s.2.2) <$> st) + length st * extra + length st) as Hrest.
  { clear HF. intros st bs' HF Hnz. induction HF as [|[t [p phase]] b st bs' Hb HF IH]; [done|]. cbn [concat]. rewrite lane_count_app, IH by (intros s Hs; apply Hnz; by right).
    rewrite (block_count t p phase b lane Hl Hb), bool_decide_eq_false_2 by (apply (Hnz (t, (p, phase))); left). cbn. lia. }
  pose proof (length_steps phases T) as Hlen. pose proof (sum_steps (lane_size lane) T) as Hsum.
  destruct (steps phases T) as [|[t0 [p0 ph0]] st] eqn:Hst; [cbn in Hlen; destruct phases; [done|cbn in Hlen; lia]|].
  apply Forall2_cons_inv_l in HF as (b & bs' & Hb & HF & ->). cbn [concat]. rewrite lane_count_app.
  assert (steps phases T !! 0 = Some (t0, (p0, ph0))) as H0 by (by rewrite Hst).
  destruct (steps_inv _ _ _ _ H0) as (t & p & ph & [= <- <- <-] & _ & _ & _ & Hz).
  rewrite (block_count _ _ _ _ lane Hl Hb), bool_decide_eq_true_2 by lia. rewrite (Hrest st bs' HF).
  - rewrite <- Hsum, <- Hlen. rewrite fmap_cons. cbn [sum_list_with length snd]. unfold id. rewrite Nat.mul_succ_l. lia.
  - intros s [i Hi]%list_elem_of_lookup_1. assert (steps phases T !! S i = Some s) as HS by (by rewrite Hst).
    destruct (steps_inv _ _ _ _ HS) as (t & p & ph & -> & _ & _ & _ & Hg). cbn. lia.
Qed.
End counts.

Lemma lane_batch_count_Ok sizes T barriers extra count : lane_batch_count sizes T barriers extra = Ok count →
  count = (foldr Z.add 0 sizes * T + barriers + (T - 1) + extra)%Z.
Proof.
  unfold lane_batch_count. intros H. apply bind_Ok in H as (d & Hd & H). apply ok_or_Ok in H.
  assert (∀ l a d, try_fold (λ sum n, ok_or BatchShapeOverflow (checked_add U64_MAX sum n)) a l = Ok d → d = (a + foldr Z.add 0 l)%Z) as Hsum.
  { clear. induction l as [|x l IH]; intros a d; cbn [try_fold foldr]; [intros [= <-]; lia|]. intros H. apply bind_Ok in H as (s & Hs & H).
    apply ok_or_Ok, checked_add_Some in Hs as [-> _]. rewrite (IH _ _ H). lia. }
  apply Hsum in Hd. destruct (checked_mul U64_MAX d T) as [c1|] eqn:E1; [|done]. cbn in H. apply checked_mul_Some in E1 as [-> _].
  destruct (checked_add U64_MAX _ barriers) as [c2|] eqn:E2; [|done]. cbn in H. apply checked_add_Some in E2 as [-> _].
  destruct (checked_add U64_MAX _ (T - 1)) as [c3|] eqn:E3; [|done]. cbn in H. apply checked_add_Some in E3 as [-> _].
  apply checked_add_Some in H as [-> _]. lia.
Qed.

Lemma required_packet_counts_Ok phases T counts : required_packet_counts phases T = Ok counts → T ≠ 0 ∧ phases ≠ [] ∧
  counts.1 = Z.of_nat (T * sum_list (lane_size 0 <$> phases) + T * length phases) ∧
  counts.2 = (Z.of_nat (T * sum_list (lane_size 1 <$> phases) + T * length phases) - 1)%Z.
Proof.
  unfold required_packet_counts, two_queue_serialized_batch_counts. intros H. apply bind_Ok in H as (u1 & H1 & H). apply err_if_Ok, bool_decide_eq_false in H1.
  apply bind_Ok in H as (u2 & H2 & H). apply err_if_Ok, Z.eqb_neq in H2. apply bind_Ok in H as (u3 & _ & H). apply bind_Ok in H as (barriers & Hb & H).
  apply ok_or_Ok, checked_mul_Some in Hb as [-> _]. apply bind_Ok in H as (zero & Hz & H). apply bind_Ok in H as (one & Ho & H). apply Ok_inj in H as <-.
  apply lane_batch_count_Ok in Hz as ->, Ho as ->. rewrite length_fmap.
  assert (∀ lane, lane < 2 → foldr Z.add 0%Z ((λ phase, at_lane (lane_counts phase) lane) <$> phases) = Z.of_nat (sum_list (lane_size lane <$> phases))) as Hs.
  { intros lane Hl. clear - Hl. induction phases as [|ph l IH]; [done|]. cbn. rewrite IH. unfold lane_size. destruct lane as [|[|?]]; cbn; lia. }
  pose proof (Hs 0 ltac:(lia)) as S0. pose proof (Hs 1 ltac:(lia)) as S1. cbn [at_lane] in S0, S1. rewrite <- list_fmap_compose in S0 || idtac.
  assert ((lane_counts <$> phases).*1 = (λ phase, (lane_counts phase).1) <$> phases) as -> by (by rewrite <- list_fmap_compose).
  assert ((lane_counts <$> phases).*2 = (λ phase, (lane_counts phase).2) <$> phases) as -> by (by rewrite <- list_fmap_compose).
  rewrite S0, S1. split; [lia|]. split; [done|]. cbn [fst snd]. assert (length phases ≠ 0) by (by destruct phases). split; nia.
Qed.

(** ** Constructions *)

Lemma assert_signals_safe signals base T (phases : list TwoQueuePhase) tails count : tails_ok signals base T (length phases) tails →
  two_queue_serialized_signal_count (Z.of_nat (length phases)) (Z.of_nat T) = Ok count → safe (assert_signals tails count).
Proof.
  intros Ht H. unfold two_queue_serialized_signal_count in H. apply bind_Ok in H as (u & _ & H). apply ok_or_Ok in H.
  destruct (checked_mul U64_MAX (Z.of_nat (length phases)) (Z.of_nat T)) as [c1|] eqn:E1; [|done]. cbn in H. apply checked_mul_Some in E1 as [-> _].
  destruct (checked_mul U64_MAX _ 2) as [c2|] eqn:E2; [|done]. cbn in H. apply checked_mul_Some in E2 as [-> _]. apply checked_add_Some in H as [-> _].
  apply safe_assert. apply Z.eqb_eq.
  assert (∀ l : list (list (Z * Z)), (∀ x, x ∈ l → length x = length phases) → sum_list ((λ token, (length token * 2)%nat) <$> l) = length l * length phases * 2) as Hs.
  { induction l as [|x l IH]; intros Hl; [done|]. rewrite fmap_cons. cbn [sum_list_with]. unfold id at 1. rewrite IH by (intros y Hy; apply Hl; by right).
    rewrite (Hl x) by left. cbn [length]. lia. }
  rewrite Hs, (ta_length _ _ _ _ _ Ht); [lia|]. intros x [t Hx]%list_elem_of_lookup_1.
  destruct (ta_token _ _ _ _ _ Ht t) as (token & Htok & Hlen & _); [apply lookup_lt_Some in Hx; by rewrite (ta_length _ _ _ _ _ Ht) in Hx|]. congruence.
Qed.

Lemma check_capacity_safe gpu size outcomes queues pushes : map_err Runtime_error (QueueSet_create gpu 2 size outcomes) = Ok queues →
  safe (for_each (check_capacity queues pushes) [0; 1]).
Proof.
  intros Hq. assert (length (qs_queues queues) = 2) as Hlen.
  { destruct (QueueSet_create gpu 2 size outcomes) as [q|e|] eqn:E; [|done..]. apply Ok_inj in Hq as <-. unfold QueueSet_create in E.
    apply bind_Ok in E as (u & _ & E). apply bind_Ok in E as (queues & Hm & E). apply bind_Ok in E as (u' & _ & E). apply Ok_inj in E as <-.
    apply try_map_Ok, Forall2_length in Hm. done. }
  apply safe_for_each. intros l Hl. unfold check_capacity, QueueSet_size.
  destruct (lookup_lt_is_Some_2 (qs_queues queues) l) as [q Hlq]; [apply list_elem_of_In in Hl as [<-|[<-|[]]]; lia|].
  rewrite Hlq. cbn. auto with safe.
Qed.

(** The final tail exists. *)
Lemma final_tail_some signals base T (phases : list TwoQueuePhase) tails : tails_ok signals base T (length phases) tails → T ≠ 0 → phases ≠ [] →
  ∃ token x, last tails = Some token ∧ last token = Some x.
Proof.
  intros Ht HT HP. destruct (ta_token _ _ _ _ _ Ht (pred T)) as (token & Htok & Hlen & Hall); [lia|].
  assert (length phases ≠ 0) by (by destruct phases). exists token. eexists. split; [by rewrite last_lookup, (ta_length _ _ _ _ _ Ht)|].
  rewrite last_lookup, Hlen. apply Hall. lia.
Qed.

Lemma serial_phase_safe signals T (phases : list TwoQueuePhase) tails t p phase : tails_ok signals 0 T (length phases) tails → t < T → p < length phases →
  safe (serial_phase tails t (p, phase)).
Proof.
  intros Ht Htt Hp. unfold serial_phase. apply safe_bind; [by eapply safe_boundary|]. intros bnd _.
  destruct (ta_token _ _ _ _ _ Ht t Htt) as (token & Htok & _ & Hall). rewrite (proj2 (index_Ok _ _ _) Htok). cbn [mbind result_bind].
  rewrite (proj2 (index_Ok _ _ _) (Hall p Hp)). cbn [mbind result_bind]. apply safe_bind; [|auto with safe]. apply safe_try_map.
  intros [lane ds] _. apply safe_try_map. intros [i d] _. apply safe_kernel_push.
Qed.

Lemma enumerate_lt {A} (l : list A) i x : (i, x) ∈ enumerate l → i < length l.
Proof. intros H%elem_of_enumerate. by eapply lookup_lt_Some. Qed.

Lemma seq_lt i n : i ∈ seq 0 n → i < n.
Proof. intros [k [-> H]%seq_lookup_inv]%list_elem_of_lookup_1. done. Qed.

(** The host terminal adds one packet to the first queue. *)
Lemma terminal_counts pushes q : length (lane_packets 0 (pushes ++ [(0, BarrierPacket q)])) = S (lane_count 0 pushes) ∧
  length (lane_packets 1 (pushes ++ [(0, BarrierPacket q)])) = lane_count 1 pushes.
Proof.
  assert (∀ l p, length (lane_packets l p) = lane_count l p) as Hlc by done. rewrite !Hlc, !lane_count_app.
  change (lane_count 0 [(0, BarrierPacket q)]) with 1. change (lane_count 1 [(0, BarrierPacket q)]) with 0. lia.
Qed.

Lemma Serialized_create_safe gpu queue_outcomes signals queue_size T phases : Forall phase_built phases →
  safe (Serialized_create gpu queue_outcomes signals queue_size T phases).
Proof.
  intros Hbuilt. unfold Serialized_create. apply safe_bind; [auto with safe|]. intros u1 _. apply safe_bind; [apply safe_validate_phases|]. intros u2 _.
  apply safe_bind; [apply safe_required_packet_counts|]. intros counts (HT & HP & Hc0 & Hc1)%required_packet_counts_Ok.
  apply safe_bind; [unfold two_queue_serialized_signal_count; apply safe_bind; auto with safe|]. intros sc Hsc.
  apply safe_bind; [apply safe_map_err, safe_QueueSet_create|]. intros queues Hq.
  apply safe_bind; [apply safe_tail_signals|]. intros tails Htails%tail_signals_Ok.
  apply safe_bind; [by eapply assert_signals_safe|]. intros u3 _. apply safe_bind; [apply safe_new_signal|]. intros final _. apply safe_bind.
  { apply safe_try_map. intros t Ht%seq_lt. apply safe_try_map. intros [p phase] Hp%enumerate_lt. by eapply serial_phase_safe. }
  intros blocks Hblocks. pose proof (serial_blocks signals 0 T phases tails blocks Htails Hbuilt Hblocks) as HF.
  destruct (final_tail_some _ _ _ _ _ Htails HT HP) as (token & x & Htok & Hx). rewrite Htok. cbn [expect mbind result_bind].
  rewrite Hx. cbn [expect mbind result_bind]. apply safe_bind; [apply safe_barrier|]. intros completion Hcomp.
  apply barrier_Ok in Hcomp as (q & -> & _). apply safe_bind; [|intros u4 _; apply safe_bind; [by eapply check_capacity_safe|auto with safe]].
  apply safe_assert, bool_decide_eq_true. destruct counts as [c0 c1]. cbn [fst snd] in *.
  pose proof (batch_count _ _ _ _ _ _ phases T (concat blocks) 0 ltac:(lia) HT HP HF) as N0.
  pose proof (batch_count _ _ _ _ _ _ phases T (concat blocks) 1 ltac:(lia) HT HP HF) as N1.
  destruct (terminal_counts (concat (concat blocks)) q) as [E0 E1]. f_equal; [etransitivity; [exact (f_equal Z.of_nat E0)|]|etransitivity; [exact (f_equal Z.of_nat E1)|]]; lia.
Qed.

(** *** Derived *)

Lemma sum_constant {A} (n : nat) (l : list A) : sum_list ((λ _, n) <$> l) = length l * n.
Proof. induction l as [|x l IH]; [done|]. rewrite fmap_cons. cbn [sum_list_with length]. rewrite IH. unfold id. lia. Qed.

Lemma sum_scale {A} (f : A → nat) (n : nat) (l : list A) : sum_list ((λ x, f x * n) <$> l) = sum_list (f <$> l) * n.
Proof. induction l as [|x l IH]; [done|]. rewrite !fmap_cons. cbn [sum_list_with]. rewrite IH. unfold id. lia. Qed.

Section derived.
Context (policies : TwoQueueDerivedPolicies) (profiling : list Z) (phases : list TwoQueuePhase) (T : nat).
Local Abbreviation P := (length phases).

(** The counter moves when all dispatches are profiled. *)
Definition tick : nat := if profile_all_dispatches policies then 1 else 0.

Context (Hprofile : profile_all_dispatches policies = false → covers_batch policies = true → length profiling = 4).

Lemma derived_dispatch_count t p lane count headers s i d : lane < 2 → (∃ h, headers !! i = Some h) →
  (profile_all_dispatches policies = true → s.2 + tick ≤ length profiling) →
  safe (derived_dispatch policies profiling P T t p lane count headers s (i, d)) ∧
  ∀ s', derived_dispatch policies profiling P T t p lane count headers s (i, d) = Ok s' → s'.2 = s.2 + tick.
Proof using Hprofile.
  intros Hl (h & Hh) Hs. destruct s as [pushes idx]. unfold derived_dispatch, tick in *. cbn [fst snd] in *. split.
  - apply safe_bind; [auto with safe|]. intros _ _. apply safe_bind.
    + destruct (profile_all_dispatches policies) eqn:Hall.
      * destruct (lookup_lt_is_Some_2 profiling idx) as [x Hx]; [specialize (Hs eq_refl); lia|]. by eapply safe_index.
      * destruct (covers_batch policies) eqn:Hc; cbn [andb]; [|done]. pose proof (Hprofile eq_refl eq_refl).
        destruct (bool_decide _); [destruct (lookup_lt_is_Some_2 profiling lane) as [x Hx]; [lia|]; by eapply safe_index|].
        destruct (bool_decide _); [destruct (lookup_lt_is_Some_2 profiling (2 + lane)) as [x Hx]; [lia|]; by eapply safe_index|done].
    + intros completion _. rewrite (proj2 (index_Ok _ _ _) Hh). cbn [mbind result_bind]. apply safe_bind; [apply safe_kernel_push|auto with safe].
  - intros s' H. apply bind_Ok in H as (u & _ & H). apply bind_Ok in H as (c & _ & H). apply bind_Ok in H as (hd & _ & H).
    apply bind_Ok in H as (k & _ & H). apply Ok_inj in H as <-. cbn. destruct (profile_all_dispatches policies); lia.
Qed.

Lemma derived_lane_count t p tail headers s lane ds : lane < 2 → length (at_lane headers lane) = length ds →
  (profile_all_dispatches policies = true → s.2 + length ds * tick ≤ length profiling) →
  safe (derived_lane policies profiling P T t p tail headers s (lane, ds)) ∧
  ∀ s', derived_lane policies profiling P T t p tail headers s (lane, ds) = Ok s' → s'.2 = s.2 + length ds * tick.
Proof using Hprofile.
  intros Hl Hh Hs. unfold derived_lane. set (bound := s.2 + length ds * tick).
  destruct (counting_loop (derived_dispatch policies profiling P T t p lane (length ds) (at_lane headers lane)) (λ _, tick) bound (enumerate ds)) with (s := s)
    as [Hsafe Hcount].
  - intros s0 [i d] Hin%enumerate_lt Hle. apply derived_dispatch_count; [done| |].
    + destruct (lookup_lt_is_Some_2 (at_lane headers lane) i) as [h Hx]; [lia|eauto].
    + intros Hp. specialize (Hs Hp). lia.
  - by rewrite sum_constant, length_enumerate.
  - rewrite sum_constant, length_enumerate in Hcount. split.
    + apply safe_bind; [done|]. intros s1 _. apply safe_bind; [apply safe_barrier|auto with safe].
    + intros s' H. apply bind_Ok in H as (s1 & H1 & H). apply bind_Ok in H as (c & _ & H). apply Ok_inj in H as <-. cbn. by apply Hcount.
Qed.

(** The dispatches of a phase. *)
Definition phase_size (phase : TwoQueuePhase) : nat := lane_size 0 phase + lane_size 1 phase.

Context (tails : list (list (Z * Z))) (signals : nat → SignalCreation) (base : nat) (Htails : tails_ok signals base T P tails).
Context (Hshape : ∀ t p phase, phases !! p = Some phase → ∃ h,
  (if bool_decide (t = 0) then first_dispatches policies else repeated_dispatches policies) !! p = Some h ∧
  ∀ lane, lane < 2 → length (at_lane h lane) = lane_size lane phase).

Lemma derived_phase_count t p phase s : t < T → phases !! p = Some phase →
  (profile_all_dispatches policies = true → s.2 + phase_size phase * tick ≤ length profiling) →
  safe (derived_phase policies profiling P T tails t s (p, phase)) ∧
  ∀ s', derived_phase policies profiling P T tails t s (p, phase) = Ok s' → s'.2 = s.2 + phase_size phase * tick.
Proof using Hprofile Htails Hshape.
  intros Ht Hp Hs. pose proof (lookup_lt_Some _ _ _ Hp) as Hlt. unfold derived_phase.
  destruct (ta_token _ _ _ _ _ Htails t Ht) as (token & Htok & _ & Hall). destruct (Hshape t p phase Hp) as (h & Hh & Hlen).
  pose proof (Hlen 0 ltac:(lia)) as L0. pose proof (Hlen 1 ltac:(lia)) as L1. unfold phase_size, lane_size in *. cbn [at_lane fst snd] in *.
  pose proof (safe_boundary signals base T P tails (dependency_policy policies) t p Htails Ht Hlt) as Hb.
  destruct (boundary_pushes _ tails t p) as [bnd|e|]; [|by split|done]. cbn [mbind result_bind].
  rewrite (proj2 (index_Ok _ _ _) Htok). cbn [mbind result_bind]. rewrite (proj2 (index_Ok _ _ _) (Hall p Hlt)). cbn [mbind result_bind].
  rewrite (proj2 (index_Ok _ _ _) Hh). cbn [mbind result_bind phase_lanes try_fold].
  destruct (derived_lane_count t p (tail_pair signals base (t * P + p)) h (s.1 ++ bnd, s.2) 0 (lane_zero phase)) as [S0 C0];
    [lia|done|intros Hpr; specialize (Hs Hpr); cbn [snd]; lia|].
  destruct (derived_lane _ _ _ _ _ _ _ _ _ (0, _)) as [s1|e|]; [|by split|done]. cbn [mbind result_bind]. specialize (C0 s1 eq_refl). cbn [snd] in C0.
  destruct (derived_lane_count t p (tail_pair signals base (t * P + p)) h s1 1 (lane_one phase)) as [S1 C1];
    [lia|done|intros Hpr; specialize (Hs Hpr); lia|].
  destruct (derived_lane _ _ _ _ _ _ _ _ _ (1, _)) as [s2|e|]; [|by split|done]. cbn [mbind result_bind]. specialize (C1 s2 eq_refl).
  split; [auto with safe|]. intros s' [= <-]. lia.
Qed.

Lemma derived_loop_count : (profile_all_dispatches policies = true → T * sum_list (phase_size <$> phases) = length profiling) →
  safe (try_fold (λ state t, try_fold (derived_phase policies profiling P T tails t) state (enumerate phases)) ([], 0) (seq 0 T)) ∧
  ∀ built, try_fold (λ state t, try_fold (derived_phase policies profiling P T tails t) state (enumerate phases)) ([], 0) (seq 0 T) = Ok built →
    profile_all_dispatches policies = true → built.2 = length profiling.
Proof using Hprofile Htails Hshape.
  intros Hlen. rewrite try_fold_bind. fold (steps phases T).
  assert (sum_list ((λ s : nat * (nat * TwoQueuePhase), phase_size s.2.2 * tick) <$> steps phases T) = T * sum_list (phase_size <$> phases) * tick) as Hsum.
  { rewrite (sum_steps phases (λ ph, phase_size ph * tick) T), sum_scale. lia. }
  destruct (counting_loop (λ s '(t, x), derived_phase policies profiling P T tails t s x) (λ s : nat * (nat * TwoQueuePhase), phase_size s.2.2 * tick)
    (T * sum_list (phase_size <$> phases) * tick) (steps phases T)) with (s := (@nil push, 0)) as [Hs Hc].
  - intros s x [i Hi]%list_elem_of_lookup_1 Hle. destruct (steps_inv _ _ _ _ Hi) as (t & p & phase & -> & Ht & Hp & Hlook & _). cbn [snd] in *.
    apply derived_phase_count; [done|done|]. intros Hpr. rewrite <- (Hlen Hpr). unfold tick in *. rewrite Hpr in *. lia.
  - rewrite Hsum. cbn [snd]. lia.
  - split; [exact Hs|]. intros built Hb Hpr. rewrite (Hc built Hb), Hsum. cbn [snd]. unfold tick. rewrite Hpr, <- (Hlen Hpr). lia.
Qed.
End derived.

(** A header per dispatch and phase. *)
Lemma shape_Ok phases policies : validate_derived_policy_shape phases policies = Ok tt →
  ∀ t p phase, phases !! p = Some phase → ∃ h,
    (if bool_decide (t = 0) then first_dispatches policies else repeated_dispatches policies) !! p = Some h ∧
    ∀ lane, lane < 2 → length (at_lane h lane) = lane_size lane phase.
Proof.
  intros H t p phase Hp. unfold validate_derived_policy_shape in H. rewrite for_each_Ok in H.
  set (ds := if bool_decide (t = 0) then _ else _). assert (ds ∈ [first_dispatches policies; repeated_dispatches policies]) as Hin.
  { unfold ds. case_bool_decide; [left|right; left]. }
  specialize (H ds Hin). apply bind_Ok in H as (u & Hlen & H). apply err_if_Ok, negb_false_iff, bool_decide_eq_true in Hlen.
  destruct (lookup_lt_is_Some_2 ds p) as [h Hh]; [rewrite Hlen; by eapply lookup_lt_Some|]. exists h. split; [done|].
  rewrite for_each_Ok in H. assert ((phase, h) ∈ zip phases ds) as Hz by (eapply list_elem_of_lookup_2, lookup_zip_with_Some; eauto).
  specialize (H _ Hz). cbn beta iota in H. rewrite for_each_Ok in H. intros lane Hl.
  assert ((lane, at_lane (lane_zero phase, lane_one phase) lane) ∈ phase_lanes phase) as Hpl.
  { unfold phase_lanes. destruct lane as [|[|?]]; [left|right; left|lia]. }
  specialize (H _ Hpl). cbn beta iota in H. by apply err_if_Ok, negb_false_iff, bool_decide_eq_true in H.
Qed.

Lemma safe_shape phases policies : safe (validate_derived_policy_shape phases policies).
Proof.
  unfold validate_derived_policy_shape. apply safe_for_each. intros ds _. apply safe_bind; [auto with safe|]. intros _ _.
  apply safe_for_each. intros [phase h] _. apply safe_for_each. intros [lane l] _. auto with safe.
Qed.

Lemma profiling_count_Ok policies phases T count : profiling_count policies phases T = Ok count →
  (profile_all_dispatches policies = true → T * sum_list (phase_size <$> phases) = Z.to_nat count) ∧
  (profile_all_dispatches policies = false → covers_batch policies = true → Z.to_nat count = 4).
Proof.
  unfold profiling_count. destruct (profile_all_dispatches policies).
  - intros H. split; [|done]. intros _. apply ok_or_Ok, checked_mul_Some in H as [-> _].
    assert (foldr (λ phase sum, (lane_counts phase).1 + (lane_counts phase).2 + sum)%Z 0%Z phases = Z.of_nat (sum_list (phase_size <$> phases))) as ->; [|lia].
    induction phases as [|ph l IH]; [done|]. rewrite fmap_cons. cbn [foldr sum_list_with]. rewrite IH. unfold id, phase_size, lane_size, lane_counts. cbn. lia.
  - intros H. split; [done|]. intros _ Hc. rewrite Hc in H. by apply Ok_inj in H as <-.
Qed.

Lemma safe_profiling_count policies phases T : safe (profiling_count policies phases T).
Proof. unfold profiling_count. destruct (profile_all_dispatches policies); [auto with safe|]. by destruct (covers_batch policies). Qed.

Lemma create_derived_safe gpu queue_outcomes signals queue_size T phases policies enable frequency :
  policy_barrier (consolidation_policy policies) = true → safe enable → safe frequency →
  safe (create_derived gpu queue_outcomes signals queue_size T phases policies enable frequency).
Proof.
  intros Hcons Hen Hfr. unfold create_derived. do 2 (apply safe_bind; [auto with safe|intros ? _]). apply safe_bind; [apply safe_validate_phases|]. intros u3 _.
  apply safe_bind; [apply safe_shape|]. intros [] Hshape. pose proof (shape_Ok _ _ Hshape) as Hheaders.
  apply safe_bind; [apply safe_required_packet_counts|]. intros counts (HT & HP & Hc0 & Hc1)%required_packet_counts_Ok.
  apply safe_bind; [auto with safe|]. intros extra [-> _]%ok_or_Ok%checked_mul_Some. apply safe_bind; [auto with safe|]. intros zero [-> _]%ok_or_Ok%checked_add_Some.
  apply safe_bind; [auto with safe|]. intros one [-> _]%ok_or_Ok%checked_add_Some.
  apply safe_bind; [unfold two_queue_serialized_signal_count; apply safe_bind; auto with safe|]. intros sc Hsc.
  apply safe_bind; [apply safe_map_err, safe_QueueSet_create|]. intros queues Hq.
  apply safe_bind; [destruct (_ || _); auto with safe|]. intros u4 _. apply safe_bind; [apply safe_profiling_count|]. intros count [Hall Hfour]%profiling_count_Ok.
  apply safe_bind; [apply safe_try_map; intros; apply safe_new_signal|]. intros profiling Hprof.
  apply try_map_Ok, Forall2_length in Hprof. rewrite length_seq in Hprof. rewrite Hprof in Hall, Hfour.
  apply safe_bind; [destruct (_ || _); [apply safe_bind|]; auto with safe|]. intros u5 _. apply safe_bind; [apply safe_tail_signals|]. intros tails Htails%tail_signals_Ok.
  apply safe_bind; [by eapply assert_signals_safe|]. intros u6 _. apply safe_bind; [apply safe_new_signal|]. intros final _.
  destruct (derived_loop_count policies profiling phases T Hfour tails signals (Z.to_nat count) Htails Hheaders Hall) as [Hloop Hindex].
  apply safe_bind; [done|]. intros built Hbuilt. specialize (Hindex built Hbuilt).
  destruct (derived_blocks _ _ _ _ _ _ _ _ Htails Hcons Hbuilt) as (bs & Hbs & HF).
  destruct (final_tail_some _ _ _ _ _ Htails HT HP) as (token & x & Htok & Hx). rewrite Htok. cbn [expect mbind result_bind]. rewrite Hx. cbn [expect mbind result_bind].
  apply safe_bind; [destruct (profile_all_dispatches policies); [apply safe_assert, bool_decide_eq_true; auto|auto with safe]|]. intros u7 _.
  apply safe_bind; [apply safe_barrier|]. intros completion (q & -> & _)%barrier_Ok. apply safe_bind; [|intros u8 _; apply safe_bind; [by eapply check_capacity_safe|auto with safe]].
  apply safe_assert, bool_decide_eq_true. cbn [fst snd]. rewrite Hbs.
  pose proof (batch_count _ _ _ _ _ _ phases T bs 0 ltac:(lia) HT HP HF) as N0. pose proof (batch_count _ _ _ _ _ _ phases T bs 1 ltac:(lia) HT HP HF) as N1.
  destruct (terminal_counts (concat bs) q) as [E0 E1]. f_equal; [etransitivity; [exact (f_equal Z.of_nat E0)|]|etransitivity; [exact (f_equal Z.of_nat E1)|]]; lia.
Qed.
