(* ===== verification/AqlPrepare.v ===== *)
(** Preparing a compiled plan for the hardware queues never panics
    (src/crates/redline-dispatch/src/aql/generic.rs and replay.rs). *)

From S2P Require Import Prelude Ir Identity Recorder Graph Plan Packet Visibility Bindings HipLower Queue AqlGraph AqlOrder AqlBatch AqlPlan AqlSound AqlClaims AqlTotal.

(** A catalog whose layouts were built by [KernargAbi::new] from fields built by
    [KernargField::new]. *)
Definition catalog_built (kernels : AqlKernelCatalog) : Prop := ∀ key b, bmap_get key (akc_entries kernels) = Some b →
  ∃ sha256 ss sa fields, KernargAbi_new sha256 ss sa fields = Ok (akb_abi b) ∧ Forall field_placed fields.

(** No literal of the plan is larger than a 32-bit size. *)
Definition literals_fit (p : CompiledPlan) : Prop := ∀ d a, d ∈ plan_dispatches p → a ∈ arguments (planned_launch d) → ¬ oversized a.

Lemma safe_from_hip n w : safe (from_hip_workgroups n w).
Proof.
  unfold from_hip_workgroups, from_workgroups. apply safe_bind; [|auto with safe]. apply safe_bind; [apply safe_try_map; intros [axis [a b]] _; auto with safe|].
  intros items H%try_map_Ok%Forall2_length. destruct items as [|x [|y [|z [|? ?]]]]; [done..| |done]. unfold LaunchGeometry_new.
  repeat (apply safe_bind; [|intros ? _]); auto with safe; apply safe_for_each; intros; repeat case_match; auto with safe.
Qed.

Lemma safe_allocate pool md outcome : (1 ≤ pool_granule pool)%Z → safe (allocate_for pool md outcome).
Proof.
  intros Hg. unfold allocate_for, allocate_bytes. apply safe_bind; [auto with safe|]. intros _ _. destruct (_ =? 0)%Z; [done|].
  apply safe_bind; [by apply safe_assert, Z.leb_le|]. intros _ _. apply safe_bind; [auto with safe|]. intros _ _.
  destruct outcome; [done| |done]. apply safe_bind; [auto with safe|]. intros _ _. apply safe_bind; auto with safe.
Qed.

Section total.
Context (gpu : AgentInfo) (pool : KernargPool) (kernels : AqlKernelCatalog) (allocations : nat → PoolAllocation).
Context (bindings : ReplayBindings) (Hpool : (1 ≤ pool_granule pool)%Z) (Hcat : catalog_built kernels).

Lemma safe_record_dispatch i d : (∀ a, a ∈ arguments (planned_launch d) → ¬ oversized a) →
  safe (record_dispatch gpu pool bindings kernels allocations (i, d)).
Proof using Hpool Hcat.
  intros Hfit. unfold record_dispatch, registered_kernel. destruct (bmap_get _ _) as [b|] eqn:Hget; [|done]. cbn [ok_or mbind result_bind].
  destruct (kernarg_abi _) as [abi|]; [|done]. cbn [ok_or mbind result_bind]. case_bool_decide as Habi; cbn [negb err_if]; [|done].
  destruct (artifact_identity _) as [id|]; [|done]. cbn [ok_or mbind result_bind]. case_bool_decide; cbn [negb err_if mbind result_bind]; [|done].
  apply safe_bind; [by apply safe_map_err, safe_allocate|]. intros buf _. subst abi.
  destruct (Hcat _ _ Hget) as (sha & ss & sa & fields & Hnew & Hplaced).
  pose proof (pack_kernarg_spec sha ss sa fields _ (arguments (planned_launch d)) bindings buf Hnew Hplaced) as Hpack.
  destruct (pack_kernarg _ _ _ _) as [buf' packed]. apply safe_bind.
  { destruct packed; [done|done|]. destruct Hpack as (s & Hs & Hbig). by destruct (Hfit _ Hs). }
  intros _ _. do 3 (apply safe_bind; [unfold to_u16; apply safe_bind; auto with safe|intros ? _]). apply safe_bind; [apply safe_map_err, safe_from_hip|]. intros g _.
  apply safe_bind; [apply safe_map_err, safe_validate_geometry|]. intros _ _. apply safe_bind; [|done]. apply safe_map_err.
  unfold RecordedDispatch_new. repeat (apply safe_bind; [auto with safe|intros _ _]). auto with safe.
Qed.

Lemma safe_push_phase {A} (phases : list (list A * list A)) level lane v : level < length phases → lane < 2 → safe (push_phase phases level lane v).
Proof using Type.
  intros Hl Hlane. unfold push_phase. destruct (lookup_lt_is_Some_2 _ _ Hl) as [x Hx]. rewrite (proj2 (index_Ok _ _ _) Hx). cbn [mbind result_bind].
  destruct lane as [|[|?]]; [| |lia]; unfold store; by rewrite bool_decide_eq_true_2.
Qed.

Lemma safe_lower_phases plan : lowerable 2 (plan_dispatches plan) → literals_fit plan →
  safe (lower_phases gpu pool bindings kernels allocations plan).
Proof using Hpool Hcat.
  intros Hds Hfit. unfold lower_phases. apply safe_bind; [auto with safe|]. intros _ _. destruct (levels_total _ Hds) as (levels & m & Hlev & Hok).
  rewrite Hlev. cbn [mbind result_bind]. apply safe_bind.
  - assert (∀ l s, (∀ x, x ∈ l → ∃ i, plan_dispatches plan !! i = Some x.2) → length s.1 = S m ∧ length s.2 = S m →
      safe (try_fold (lower_one gpu pool bindings kernels allocations levels) s l)) as Hloop.
    { induction l as [|[i d] l IH]; intros s Hl Hs; [done|]. cbn [try_fold]. destruct (Hl (i, d)) as [k Hk]; [left|]. cbn [snd] in Hk.
      destruct (lv_level _ _ _ Hok k d (lookup_lt_Some _ _ _ Hk) Hk) as (level & Hlevel & Hm & _). cbn [fst snd] in *.
      assert (planned_lane d < 2) as Hlane by by eapply (lw_lane _ _ Hds).
      apply safe_bind; [|intros s' Hs'; apply IH; [intros x Hx; apply Hl; by right|]].
      - destruct s as [pd pn]. cbn [fst snd] in *. unfold lower_one. cbn [snd]. rewrite (proj2 (index_Ok _ _ _) Hlevel). cbn [mbind result_bind].
        apply safe_bind; [apply safe_record_dispatch; intros a; apply (Hfit d); by eapply list_elem_of_lookup_2|]. intros rd _.
        apply safe_bind; [apply safe_push_phase; lia|]. intros pd' _. apply safe_bind; [apply safe_push_phase; lia|auto with safe].
      - destruct s as [pd pn]. unfold lower_one in Hs'. cbn [fst snd] in *. apply bind_Ok in Hs' as (lv & _ & Hs'). apply bind_Ok in Hs' as (rd & _ & Hs').
        apply bind_Ok in Hs' as (pd' & Hpd & Hs'). apply bind_Ok in Hs' as (pn' & Hpn & Hs'). apply Ok_inj in Hs' as <-.
        apply push_phase_Ok in Hpd as (_ & L1 & _), Hpn as (_ & L2 & _). cbn. lia. }
    apply Hloop; [|cbn; by rewrite !length_replicate]. intros [i d] Hin%elem_of_enumerate. by exists i.
  - intros [pd pn] _. apply safe_bind; [|auto with safe]. apply safe_try_map. intros [i lanes] _. unfold build_phase. apply safe_bind; [auto with safe|].
    intros _ _. apply safe_map_err. unfold TwoQueuePhase_new. apply safe_bind; [|auto with safe]. apply safe_for_each. intros [lane ds] _.
    apply safe_bind; [auto with safe|]. intros _ _. apply safe_for_each. intros d _. apply safe_bind; auto with safe.
Qed.
End total.

Lemma safe_lower_policies plan nodes v : safe (lower_policies plan nodes v).
Proof.
  assert (∀ by_node node, safe (node_headers by_node node)) as Hn by (intros; unfold node_headers; apply safe_bind; auto with safe).
  unfold lower_policies. apply safe_bind; [|intros h _; apply safe_bind; auto with safe]. apply safe_try_map. intros x _.
  apply safe_bind; [by apply safe_try_map|]. intros z _. apply safe_bind; [by apply safe_try_map|auto with safe].
Qed.

Lemma safe_capture sha256 p b : bindings_built b → safe (Stamp_capture sha256 p b).
Proof.
  intros Hb. unfold Stamp_capture, layout_fingerprint. apply safe_bind; [apply safe_bind; [by apply validate_spec|]|].
  - intros [] Hv. destruct (layout_rows p b Hb Hv) as (rows & _ & ->). done.
  - intros x Hx. apply bind_Ok in Hx as ([] & Hv & _). apply safe_bind; [|auto with safe]. apply safe_try_map. intros pr Hpr.
    apply validate_spec in Hv; [|done]. destruct (vb_resources _ _ Hv pr Hpr) as (bd & Hbd & _). unfold resource_at. by rewrite Hbd.
Qed.

(** C17: preparing a compiled plan for the hardware queues never panics, whatever
    the allocator, the queues, the signals and the profiler answer: it returns a
    prepared plan or an error. The levels, the phases and the headers are always
    found, the arguments fit their fields, the packets and the signals that the
    loops push are exactly as many as the checked arithmetic announced, and every
    dispatch has its profiling signal. *)
Theorem prepare_never_panics sha256 r options p gpu pool kernels allocations queue_outcomes signals enable frequency
    bindings T boundary profile :
  recorded r → option_lane_count options ≠ 0 → compile sha256 r options = Ok p →
  (1 ≤ pool_granule pool)%Z → catalog_built kernels → bindings_built bindings → literals_fit p → enable ≠ Panic → frequency ≠ Panic →
  prepare_internal sha256 gpu pool kernels allocations queue_outcomes signals enable frequency p bindings T boundary profile ≠ Panic.
Proof.
  intros Hr Hl Hc Hpool Hcat Hb Hfit Hen Hfr. destruct (compile_Ok _ _ _ _ Hr Hl Hc) as (Hwf & Hno & Hp & _).
  change (safe (prepare_internal sha256 gpu pool kernels allocations queue_outcomes signals enable frequency p bindings T boundary profile)).
  unfold prepare_internal. apply safe_bind; [auto with safe|]. intros _ _. apply safe_bind; [auto with safe|]. intros u Hlanes.
  apply err_if_Ok, negb_false_iff, bool_decide_eq_true in Hlanes. pose proof (plan_lowerable r options p Hwf Hp) as Hlow. rewrite Hlanes in Hlow.
  apply safe_bind; [auto with safe|]. intros _ _. apply safe_bind; [apply safe_map_err; by apply validate_spec|]. intros _ _.
  apply safe_bind; [by apply safe_lower_phases|]. intros [phases nodes] _.
  pose proof (derive_total r options p boundary Hwf Hp Hno) as Ht. apply safe_bind; [apply safe_map_err; by destruct (derive_aql_visibility p boundary)|].
  intros v Hv. destruct (derive_aql_visibility p boundary) as [v'|e|]; [|done..]. apply Ok_inj in Hv as ->. destruct Ht as (_ & acq & rel & _ & Hvis).
  apply safe_bind; [apply safe_lower_policies|]. intros policies Hpol. apply safe_bind; [apply safe_map_err, safe_required_packet_counts|]. intros base _.
  do 3 (apply safe_bind; [auto with safe|intros ? _]). apply safe_bind.
  { unfold queue_size_for. repeat (apply safe_bind; [auto with safe|intros ? _]). auto with safe. }
  intros qs _. apply safe_bind; [|intros g _; apply safe_bind; [by apply safe_map_err, safe_capture|auto with safe]].
  apply safe_map_err, create_derived_safe; [|done..]. exact (lower_policies_consolidation _ _ _ _ _ _ _ _ Hpol Hvis).
Qed.

Lemma quad_catalog_built : catalog_built quad_kernels.
Proof.
  intros key b Hget. apply bmap_get_Some_elem in Hget. assert (∀ x, x ∈ akc_entries quad_kernels → akb_abi x.2 = quad_abi) as Hall.
  { apply Forall_forall. vm_compute. repeat constructor. }
  specialize (Hall _ Hget). cbn in Hall. exists demo_sha256, 4%Z, 4%Z, [mkKernargField 0 4 4]. split; [rewrite Hall; vm_compute; reflexivity|].
  repeat constructor; cbn; lia.
Qed.

Lemma quad_bindings_built base revision : is_u64 base → is_u64 (base + 128) → (base ≠ 0)%Z → bindings_built (quad_bindings base revision).
Proof.
  intros H1 H2 H3. eapply (built_resource _ _ base 128); [constructor|done|ulia|]. unfold ResourceBinding_new.
  apply Z.eqb_neq in H3. rewrite H3. cbn. unfold checked_add. rewrite (proj2 (Z.leb_le _ _)) by ulia. done.
Qed.

(** Every allocation fails. *)
Lemma prepare_never_panics_witness : prepare_internal demo_sha256 demo_agent quad_pool quad_kernels (λ _, PoolNull) quad_queue quad_signal
    (Ok tt) (Ok 100%Z) quad_plan (quad_bindings 65536 1) 2 ApiBoundary_default true ≠ Panic.
Proof.
  apply (prepare_never_panics demo_sha256 quad demo_options quad_plan); [exact quad_recorded|done|exact quad_compiles|vm_compute; discriminate|
    exact quad_catalog_built|apply quad_bindings_built; [ulia|ulia|done]| |done|done].
  assert (Forall (λ d, Forall (λ a, match a with Scalar s => length s = 4 | _ => True end) (arguments (planned_launch d))) (plan_dispatches quad_plan)) as H
    by (vm_compute; repeat constructor).
  intros d a Hd Ha. pose proof (proj1 (Forall_forall _ _) H d Hd) as Hd4. cbn beta in Hd4. pose proof (proj1 (Forall_forall _ _) Hd4 a Ha) as Ha4.
  destruct a; cbn in *; [unfold U32_MAX; lia|tauto|tauto].
Defined.
