(* ===== verification/EosFilter.v ===== *)
(** The output filter (src/crates/hipfire-runtime/src/eos_filter.rs).

    Between the model and the consumer, the filter removes reasoning blocks, stops
    at end-of-turn markers and holds bytes back while a marker or a UTF-8 sequence
    may still be completed by the next token. Bytes are [Z], offsets [nat]. The
    slices of the code are [slice], which panics out of range. The loop of [pump]
    has fuel; running out of it is a panic too, and neither happens.

    Proved here: the filter never panics, and what it delivers is a function of
    the byte stream alone, however the stream was cut into tokens: the
    leftmost-longest reading of the markers, as far as it is valid UTF-8 when the
    stream stops. *)

From S2P Require Import Prelude Utf8.

Inductive FilterAction : Type :=
| Emit (bytes : list Z)
| Hold
| Stop
| EmitAndStop (bytes : list Z).

Record EosFilterConfig := mkEosFilterConfig {
  strip_think : bool;
  started_in_think : bool;
  stop_at : list (list Z);
  holdback_prefixes : list (list Z) }.

Record EosFilterState := mkEosFilterState {
  raw : list Z;
  cursor : nat;
  visible : list Z;
  visible_emitted : nat;
  in_think : bool;
  stopped : bool }.

Record EosFilter := mkEosFilter { filter_config : EosFilterConfig; filter_state : EosFilterState }.

Inductive EventKind : Type := StopEvent | ThinkOpen | ThinkClose.
#[export] Instance EventKind_eq_dec : EqDecision EventKind.
Proof. solve_decision. Defined.

Record Event := mkEvent { event_at : nat; event_kind : EventKind; event_len : nat }.

(** [Event::earlier] *)
Definition Event_earlier (best : option Event) (cand : Event) : option Event :=
  match best with
  | None => Some cand
  | Some b =>
      if bool_decide (event_at cand < event_at b) then Some cand
      else if bool_decide (event_at cand = event_at b ∧ event_len b < event_len cand) then Some cand
      else if bool_decide (event_at cand = event_at b ∧ event_kind cand = StopEvent ∧ event_kind b ≠ StopEvent) then Some cand
      else Some b
  end.

(** ** Helpers *)

Definition OPEN : list Z := str_bytes "<think>".
Definition CLOSE : list Z := str_bytes "</think>".

(** [Utf8Error::valid_up_to], or the length when all of it is valid. *)
Fixpoint valid_fuel (fuel : nat) (l : list Z) : nat :=
  match fuel with
  | O => 0
  | S fuel => match utf8_char l with Some n => n + valid_fuel fuel (drop n l) | None => 0 end
  end.

(** [utf8_safe_end] *)
Definition utf8_safe_end (bytes : list Z) : nat := valid_fuel (length bytes) bytes.

(** [windows(needle.len()).position(|w| w == needle)] *)
Fixpoint find_window (needle haystack : list Z) : option nat :=
  if bool_decide (take (length needle) haystack = needle) then Some 0
  else match haystack with [] => None | _ :: haystack => S <$> find_window needle haystack end.

(** [memmem] *)
Definition memmem (haystack needle : list Z) : option nat :=
  if bool_decide (needle = []) then Some 0 else find_window needle haystack.

(** The loop of [trailing_prefix_start]: the longest tail of at most [k] bytes
    that is a prefix of the needle, or 0. *)
Fixpoint trailing_match (bytes needle : list Z) (k : nat) : nat :=
  match k with
  | O => 0
  | S k' => if bool_decide (drop (length bytes - k) bytes = take k needle) then k else trailing_match bytes needle k'
  end.

(** [trailing_prefix_start] *)
Definition trailing_prefix_start (bytes needle : list Z) : nat :=
  if bool_decide (needle = []) || bool_decide (bytes = []) then length bytes
  else length bytes - trailing_match bytes needle (Nat.min (length needle - 1) (length bytes)).

(** ** The filter *)

(** Stable [sort_by(|a, b| b.len().cmp(&a.len()))] *)
Fixpoint insert_by_length (x : list Z) (l : list (list Z)) : list (list Z) :=
  match l with
  | [] => [x]
  | y :: l' => if bool_decide (length y ≤ length x) then x :: l else y :: insert_by_length x l'
  end.
Definition sort_by_length (l : list (list Z)) : list (list Z) := foldr insert_by_length [] l.

Definition fresh_state (config : EosFilterConfig) : EosFilterState :=
  mkEosFilterState [] 0 [] 0 (strip_think config && started_in_think config) false.

(** [EosFilter::new] *)
Definition EosFilter_new (config : EosFilterConfig) : EosFilter :=
  let config := mkEosFilterConfig (strip_think config) (started_in_think config)
    (sort_by_length (stop_at config)) (sort_by_length (holdback_prefixes config)) in
  mkEosFilter config (fresh_state config).

(** [EosFilter::reset] *)
Definition EosFilter_reset (f : EosFilter) : EosFilter := mkEosFilter (filter_config f) (fresh_state (filter_config f)).

(** The only outcome besides a value is a panic. *)
Definition outcome : Type → Type := result Empty_set.

(** [&l[lo..hi]] *)
Definition slice (l : list Z) (lo hi : nat) : outcome (list Z) :=
  assert (bool_decide (lo ≤ hi ∧ hi ≤ length l)) ;; Ok (take (hi - lo) (drop lo l)).

(** [safe_visible_end] *)
Definition safe_visible_end (s : EosFilterState) : outcome nat :=
  let lo := visible_emitted s in
  let hi := length (visible s) in
  if bool_decide (hi ≤ lo) then Ok lo else
  rest ← slice (visible s) lo hi;
  Ok (utf8_safe_end rest + lo).

(** [has_pending] *)
Definition has_pending (f : EosFilter) : outcome bool :=
  if stopped (filter_state f) then Ok false else
  stop ← safe_visible_end (filter_state f);
  Ok (bool_decide (visible_emitted (filter_state f) < stop)).

(** One needle in [holdback_trim_len]. *)
Fixpoint trim_one (rest p : list Z) (k max_trim : nat) : nat :=
  match k with
  | O => max_trim
  | S k' =>
      if bool_decide (k ≤ max_trim) then max_trim
      else if bool_decide (drop (length rest - k) rest = take k p) then k
      else trim_one rest p k' max_trim
  end.

Definition nonempty (l : list Z) : bool := bool_decide (l ≠ []).

Definition watched (c : EosFilterConfig) : list (list Z) :=
  List.filter nonempty (holdback_prefixes c) ++ List.filter nonempty (stop_at c) ++ (if strip_think c then [OPEN; CLOSE] else []).

(** [holdback_trim_len] *)
Definition holdback_trim_len (c : EosFilterConfig) (rest : list Z) : nat :=
  if bool_decide (rest = []) then 0 else
  let max_trim := foldl (λ max_trim p, trim_one rest p (Nat.min (length p - 1) (length rest)) max_trim) 0 (watched c) in
  utf8_safe_end (take (length rest - max_trim) rest).

(** The earliest event in [rest]. *)
Definition add_event (kind : EventKind) (rest : list Z) (earliest : option Event) (needle : list Z) : option Event :=
  match memmem rest needle with
  | Some idx => Event_earlier earliest (mkEvent idx kind (length needle))
  | None => earliest
  end.
Definition earliest_event (c : EosFilterConfig) (rest : list Z) : option Event :=
  let earliest := foldl (λ earliest needle, if bool_decide (needle = []) then earliest else add_event StopEvent rest earliest needle)
    None (stop_at c) in
  if strip_think c then add_event ThinkClose rest (add_event ThinkOpen rest earliest OPEN) CLOSE else earliest.

Definition set_cursor (s : EosFilterState) (n : nat) (think : bool) : EosFilterState :=
  mkEosFilterState (raw s) n (visible s) (visible_emitted s) think (stopped s).

(** [push_visible] *)
Definition push_visible (s : EosFilterState) (bytes : list Z) : EosFilterState :=
  mkEosFilterState (raw s) (cursor s) (visible s ++ bytes) (visible_emitted s) (in_think s) (stopped s).

(** A stop marker was found: clear the input and drain what is safe. *)
Definition commit_stop (s : EosFilterState) : outcome (EosFilterState * FilterAction) :=
  let s := mkEosFilterState [] 0 (visible s) (visible_emitted s) (in_think s) true in
  stop ← safe_visible_end s;
  let drained := mkEosFilterState [] 0 (visible s) (length (visible s)) (in_think s) true in
  if bool_decide (visible_emitted s < stop) then
    out ← slice (visible s) (visible_emitted s) stop;
    Ok (drained, EmitAndStop out)
  else Ok (drained, Stop).

(** [pump] *)
Fixpoint pump (fuel : nat) (c : EosFilterConfig) (at_eos : bool) (s : EosFilterState)
    : outcome (EosFilterState * option FilterAction) :=
  match fuel with
  | O => Panic
  | S fuel =>
      if bool_decide (length (raw s) ≤ cursor s) then Ok (s, None) else
      rest ← slice (raw s) (cursor s) (length (raw s));
      if in_think s then
        match memmem rest CLOSE with
        | Some idx => pump fuel c at_eos (set_cursor s (cursor s + idx + length CLOSE) false)
        | None =>
            let keep_from := if at_eos then length rest else trailing_prefix_start rest CLOSE in
            Ok (set_cursor s (cursor s + keep_from) true, None)
        end
      else
        match earliest_event c rest with
        | None =>
            let take := if at_eos then length rest else holdback_trim_len c rest in
            if bool_decide (0 < take) then
              prose ← slice (raw s) (cursor s) (cursor s + take);
              Ok (set_cursor (push_visible s prose) (cursor s + take) false, None)
            else Ok (s, None)
        | Some ev =>
            s1 ← (if bool_decide (0 < event_at ev) then
                    prose ← slice (raw s) (cursor s) (cursor s + event_at ev); Ok (push_visible s prose)
                  else Ok s);
            let s2 := set_cursor s1 (cursor s + event_at ev + event_len ev) false in
            match event_kind ev with
            | StopEvent => '(s3, action) ← commit_stop s2; Ok (s3, Some action)
            | ThinkOpen => pump fuel c at_eos (set_cursor s2 (cursor s2) true)
            | ThinkClose => pump fuel c at_eos s2
            end
        end
  end.

Definition pump_fuel (s : EosFilterState) : nat := S (length (raw s)).

(** [flush_pending] *)
Definition flush_pending (f : EosFilter) : outcome (EosFilter * list Z) :=
  let c := filter_config f in
  if stopped (filter_state f) then Ok (f, []) else
  '(s, _) ← pump (pump_fuel (filter_state f)) c true (filter_state f);
  if in_think s then Ok (mkEosFilter c s, []) else
  let lo := visible_emitted s in
  let hi := length (visible s) in
  if bool_decide (hi ≤ lo) then Ok (mkEosFilter c s, []) else
  out ← slice (visible s) lo hi;
  Ok (mkEosFilter c (mkEosFilterState (raw s) (cursor s) (visible s) hi (in_think s) (stopped s)), out).

(** [observe] *)
Definition observe (f : EosFilter) (raw_bytes : list Z) : outcome (EosFilter * FilterAction) :=
  let c := filter_config f in
  let s := filter_state f in
  if stopped s then Ok (f, Hold) else
  if bool_decide (raw_bytes = [] ∧ raw s = [] ∧ length (visible s) ≤ visible_emitted s) then Ok (f, Hold) else
  let s := mkEosFilterState (raw s ++ raw_bytes) (cursor s) (visible s) (visible_emitted s) (in_think s) (stopped s) in
  '(s, action) ← pump (pump_fuel s) c false s;
  match action with
  | Some action => Ok (mkEosFilter c s, action)
  | None =>
      stop ← safe_visible_end s;
      if bool_decide (visible_emitted s < stop) then
        out ← slice (visible s) (visible_emitted s) stop;
        Ok (mkEosFilter c (mkEosFilterState (raw s) (cursor s) (visible s) stop (in_think s) (stopped s)), Emit out)
      else Ok (mkEosFilter c s, Hold)
  end.

#[local] Arguments memmem : simpl never.
#[local] Arguments OPEN : simpl never.
#[local] Arguments CLOSE : simpl never.

(** ** Occurrences *)

(** The needle is in [l] at offset [i]. *)
Definition occurs (needle l : list Z) (i : nat) : Prop := ∀ k x, needle !! k = Some x → l !! (i + k) = Some x.

Lemma occurs_take needle l i : take (length needle) (drop i l) = needle ↔ occurs needle l i.
Proof.
  split.
  - intros H k x Hk. rewrite <- H in Hk. rewrite <- lookup_drop. by apply lookup_take_Some in Hk as [? _].
  - intros H. apply list_eq. intros k. destruct (needle !! k) as [x|] eqn:Hk.
    + rewrite lookup_take_lt by (by eapply lookup_lt_Some). rewrite lookup_drop. by apply H.
    + apply lookup_take_ge. by apply lookup_ge_None.
Qed.

Lemma occurs_length needle l i : needle ≠ [] → occurs needle l i → i + length needle ≤ length l.
Proof.
  intros Hne H. destruct (needle !! (length needle - 1)) as [x|] eqn:Hk.
  - pose proof (lookup_lt_Some _ _ _ (H _ _ Hk)) as Hl. apply lookup_lt_Some in Hk. lia.
  - apply lookup_ge_None in Hk. destruct needle; [done|]. cbn in Hk. lia.
Qed.

Lemma occurs_app needle l y i : occurs needle l i → occurs needle (l ++ y) i.
Proof. intros H k x Hk. by apply lookup_app_l_Some, H. Qed.

Lemma occurs_app_inv needle l y i : i + length needle ≤ length l → occurs needle (l ++ y) i → occurs needle l i.
Proof. intros Hl H k x Hk. pose proof (lookup_lt_Some _ _ _ Hk). rewrite <- (H k x Hk). symmetry. apply lookup_app_l. lia. Qed.

Lemma occurs_drop needle l n i : occurs needle (drop n l) i ↔ occurs needle l (n + i).
Proof. unfold occurs. setoid_rewrite lookup_drop. by setoid_rewrite Nat.add_assoc. Qed.

Lemma occurs_inside a b l i j : i ≤ j → j + length b ≤ i + length a → occurs a l i → occurs b l j → occurs b a (j - i).
Proof.
  intros Hij Hl Ha Hb k x Hk. pose proof (lookup_lt_Some _ _ _ Hk) as Hlt. pose proof (Hb k x Hk) as Hx.
  destruct (lookup_lt_is_Some_2 a (j - i + k)) as [y Hy]; [lia|]. rewrite Hy. f_equal.
  pose proof (Ha _ _ Hy) as Hx'. replace (i + (j - i + k)) with (j + k) in Hx' by lia. congruence.
Qed.

(** An occurrence that the end of [l] cuts is a tail of [l] that the needle starts with. *)
Lemma occurs_cut needle l y i : i ≤ length l → length l ≤ i + length needle → occurs needle (l ++ y) i →
  drop i l = take (length l - i) needle.
Proof.
  intros Hi Hl H. apply list_eq. intros k. rewrite lookup_drop. destruct (decide (k < length l - i)) as [Hk|Hk].
  - rewrite lookup_take_lt by done. destruct (lookup_lt_is_Some_2 needle k) as [x Hx]; [lia|]. rewrite Hx.
    rewrite <- (lookup_app_l l y) by lia. by apply H.
  - rewrite lookup_take_ge by lia. apply lookup_ge_None. lia.
Qed.

Lemma find_window_spec needle l : needle ≠ [] → match find_window needle l with
  | Some i => occurs needle l i ∧ ∀ j, occurs needle l j → i ≤ j
  | None => ∀ j, ¬ occurs needle l j
  end.
Proof.
  intros Hne. induction l as [|x l IH]; cbn [find_window].
  - case_bool_decide as H.
    + destruct needle; [done|]. by apply (f_equal length) in H.
    + intros j Hj. apply occurs_length in Hj; [|done]. destruct needle; [done|]. cbn in Hj. lia.
  - case_bool_decide as H.
    + split; [by apply (occurs_take needle (x :: l) 0)|intros; lia].
    + assert (∀ j, occurs needle (x :: l) j → ∃ j', j = S j' ∧ occurs needle l j') as Hs.
      { intros [|j] Hj; [by apply occurs_take in Hj|]. exists j. split; [done|exact Hj]. }
      destruct (find_window needle l) as [i|]; cbn.
      * destruct IH as [H1 H2]. split; [exact H1|]. intros j (j' & -> & Hj)%Hs. specialize (H2 _ Hj). lia.
      * intros j (j' & -> & Hj)%Hs. by eapply IH.
Qed.

Lemma memmem_spec needle l : needle ≠ [] → match memmem l needle with
  | Some i => occurs needle l i ∧ ∀ j, occurs needle l j → i ≤ j
  | None => ∀ j, ¬ occurs needle l j
  end.
Proof. intros Hne. unfold memmem. rewrite bool_decide_eq_false_2 by done. by apply find_window_spec. Qed.

(** ** Events *)

Section config.
Context (c : EosFilterConfig).

(** The markers the filter reacts to. *)
Definition markers : list (list Z * EventKind) :=
  ((λ m, (m, StopEvent)) <$> List.filter nonempty (stop_at c)) ++ (if strip_think c then [(OPEN, ThinkOpen); (CLOSE, ThinkClose)] else []).

Lemma marker_nonempty m k : (m, k) ∈ markers → m ≠ [].
Proof using Type.
  unfold markers. intros [H|H]%elem_of_app.
  - apply list_elem_of_fmap in H as (m' & [= -> ->] & Hin). apply list_elem_of_In, filter_In in Hin as [_ Hne]. by apply bool_decide_eq_true in Hne.
  - destruct (strip_think c); [|by apply not_elem_of_nil in H]. apply list_elem_of_In in H as [[= <- <-]|[[= <- <-]|[]]]; done.
Qed.

(** The leftmost occurrence of a marker, the longest one there, a stop marker if
    it is both. *)
Record leftmost (rest : list Z) (ev : Event) : Prop := {
  lm_marker : ∃ m, (m, event_kind ev) ∈ markers ∧ length m = event_len ev ∧ occurs m rest (event_at ev);
  lm_best m k j : (m, k) ∈ markers → occurs m rest j → event_at ev < j ∨ (event_at ev = j ∧
    (length m < event_len ev ∨ (length m = event_len ev ∧ (k = event_kind ev ∨ event_kind ev = StopEvent)))) }.

Lemma leftmost_unique rest e e' : leftmost rest e → leftmost rest e' → e = e'.
Proof using Type.
  intros [(m & Hm & Hl & Ho) Hb] [(m' & Hm' & Hl' & Ho') Hb'].
  pose proof (Hb _ _ _ Hm' Ho') as H1. pose proof (Hb' _ _ _ Hm Ho) as H2. destruct e as [a k n], e' as [a' k' n']. cbn in *.
  assert (a = a') as -> by lia. assert (n = n') as -> by lia. f_equal.
  assert (k' = k ∨ k = StopEvent) by (destruct H1 as [?|[_ [?|[_ ?]]]]; [lia|lia|done]).
  assert (k = k' ∨ k' = StopEvent) by (destruct H2 as [?|[_ [?|[_ ?]]]]; [lia|lia|done]). intuition congruence.
Qed.

(** The candidates in the order of the code. *)
Definition candidates (ms : list (list Z * EventKind)) (rest : list Z) : list Event :=
  omap (λ x : list Z * EventKind, (λ i, mkEvent i x.2 (length x.1)) <$> memmem rest x.1) ms.

Lemma earliest_candidates rest : earliest_event c rest = foldl Event_earlier None (candidates markers rest).
Proof using Type.
  assert (∀ l e, foldl (λ earliest needle, if bool_decide (needle = []) then earliest else add_event StopEvent rest earliest needle) e l =
    foldl Event_earlier e (candidates ((λ m, (m, StopEvent)) <$> List.filter nonempty l) rest)) as Hs.
  { induction l as [|m l IH]; intros e; [done|]. cbn [foldl List.filter]. unfold nonempty at 1. case_bool_decide as Hm.
    - rewrite bool_decide_eq_false_2 by tauto. apply IH.
    - rewrite bool_decide_eq_true_2 by done. rewrite IH. unfold add_event. cbn. by destruct (memmem rest m). }
  unfold earliest_event, markers, candidates in *. rewrite omap_app, foldl_app, Hs. set (e := foldl _ _ _).
  destruct (strip_think c); [|done]. unfold add_event. cbn. by destruct (memmem rest OPEN), (memmem rest CLOSE).
Qed.

Definition better (cand b : Event) : bool :=
  bool_decide (event_at cand < event_at b ∨ (event_at cand = event_at b ∧ event_len b < event_len cand)).

Lemma earlier_better b cand : event_kind cand ≠ StopEvent ∨ event_kind b = StopEvent →
  Event_earlier (Some b) cand = Some (if better cand b then cand else b).
Proof using Type.
  intros H. unfold Event_earlier, better. destruct (decide (event_at cand < event_at b)); [by rewrite !bool_decide_eq_true_2 by tauto|].
  rewrite (bool_decide_eq_false_2 (event_at cand < event_at b)) by done.
  destruct (decide (event_at cand = event_at b ∧ event_len b < event_len cand)); [by rewrite !bool_decide_eq_true_2 by tauto|].
  rewrite !bool_decide_eq_false_2 by tauto. done.
Qed.

(** [e] is at least as good as [x]; on a tie the earlier candidate was kept. *)
Definition beats (e x : Event) : Prop := event_at e < event_at x ∨ (event_at e = event_at x ∧
  (event_len x < event_len e ∨ (event_len x = event_len e ∧ (event_kind e = StopEvent ∨ event_kind e = event_kind x ∨ event_kind x ≠ StopEvent)))).

Lemma beats_trans a b x : beats a b → beats b x → beats a x.
Proof using Type. unfold beats. intros. destruct (event_kind a), (event_kind b), (event_kind x); intuition (try lia; try congruence). Qed.

Lemma fold_best cs : ∀ b, (event_kind b = StopEvent ∨ ∀ x, x ∈ cs → event_kind x ≠ StopEvent) →
  (∀ i x, cs !! i = Some x → event_kind x = StopEvent → ∀ j y, j < i → cs !! j = Some y → event_kind y = StopEvent) →
  ∃ e, foldl Event_earlier (Some b) cs = Some e ∧ (e = b ∨ e ∈ cs) ∧ beats e b ∧ ∀ x, x ∈ cs → beats e x.
Proof using Type.
  induction cs as [|x cs IH]; intros b Hb Hord; cbn [foldl].
  - exists b. split; [done|]. split; [by left|]. split; [|intros x Hx; by apply not_elem_of_nil in Hx]. right. split; [done|]. right. naive_solver.
  - assert (event_kind x ≠ StopEvent ∨ event_kind b = StopEvent) as Hx by (destruct Hb as [?|Hb]; [by right|left; apply Hb; left]).
    rewrite earlier_better by done.
    destruct (IH (if better x b then x else b)) as (e & He & Hin & Hbe & Hall).
    + destruct (decide (event_kind x = StopEvent)) as [Hk|Hk].
      * left. destruct (better x b); [done|]. destruct Hx; done.
      * right. intros y [j Hj]%list_elem_of_lookup_1 Hy. apply Hk. apply (Hord (S j) y Hj Hy 0 x); [lia|done].
    + intros i y Hi Hy j z Hj Hz. apply (Hord (S i) y Hi Hy (S j) z); [lia|done].
    + exists e. split; [done|]. assert (beats e b ∧ beats e x) as [H1 H2].
      { assert (beats b b) by (right; split; [done|]; right; naive_solver). assert (beats x x) by (right; split; [done|]; right; naive_solver).
        unfold better in *. case_bool_decide as Hd; split; try done; eapply beats_trans; try exact Hbe.
        - destruct Hd as [?|[? ?]]; [by left|right; split; [done|by left]].
        - unfold beats. destruct (Nat.lt_trichotomy (event_at b) (event_at x)) as [?|[?|?]]; [by left| |lia]. right. split; [done|].
          destruct (decide (event_len x = event_len b)); [right|left; lia]. split; [done|]. destruct Hx; tauto. }
      split; [destruct Hin as [->|?]; [destruct (better x b); [right; left|by left]|right; by right]|]. split; [done|].
      intros y [->|Hy]%elem_of_cons; [done|by apply Hall].
Qed.

Lemma elem_candidates ms rest e : e ∈ candidates ms rest ↔
  ∃ m, (m, event_kind e) ∈ ms ∧ memmem rest m = Some (event_at e) ∧ event_len e = length m.
Proof using Type.
  unfold candidates. rewrite list_elem_of_omap. split.
  - intros ([m k] & Hin & H). cbn in H. destruct (memmem rest m) as [i|] eqn:Hm; [|done]. injection H as <-. by exists m.
  - intros (m & Hin & Hm & Hl). exists (m, event_kind e). split; [done|]. cbn. rewrite Hm. cbn. rewrite <- Hl. by destruct e.
Qed.

Lemma markers_kinds rest : ∃ stops thinks, candidates markers rest = stops ++ thinks ∧
  (∀ e, e ∈ stops → event_kind e = StopEvent) ∧ (∀ e, e ∈ thinks → event_kind e ≠ StopEvent).
Proof using Type.
  unfold markers. eexists _, _. split; [apply omap_app|]. split.
  - intros e (m & Hin & _)%elem_candidates. by apply list_elem_of_fmap in Hin as (? & [= _ ->] & _).
  - intros e (m & Hin & _)%elem_candidates. destruct (strip_think c); [|by apply not_elem_of_nil in Hin].
    apply list_elem_of_In in Hin as [[= _ <-]|[[= _ <-]|[]]]; done.
Qed.

Lemma think_marker_length m m' k k' : (m, k) ∈ markers → (m', k') ∈ markers → k ≠ StopEvent → k' ≠ StopEvent → length m = length m' → k = k'.
Proof using Type.
  assert (∀ m k, (m, k) ∈ markers → k ≠ StopEvent → (m, k) ∈ [(OPEN, ThinkOpen); (CLOSE, ThinkClose)]) as H.
  { unfold markers. intros m0 k0 [Hin|Hin]%elem_of_app Hk; [by apply list_elem_of_fmap in Hin as (? & [= _ ->] & _)|].
    destruct (strip_think c); [done|by apply not_elem_of_nil in Hin]. }
  intros Hm Hm' Hk Hk' Hl. apply H in Hm, Hm'; [|done..]. apply list_elem_of_In in Hm, Hm'.
  destruct Hm as [[= <- <-]|[[= <- <-]|[]]], Hm' as [[= <- <-]|[[= <- <-]|[]]]; done.
Qed.

Lemma earliest_spec rest : match earliest_event c rest with
  | Some ev => leftmost rest ev
  | None => ∀ m k j, (m, k) ∈ markers → ¬ occurs m rest j
  end.
Proof using Type.
  rewrite earliest_candidates. destruct (markers_kinds rest) as (stops & thinks & Hc & Hst & Hth).
  assert (∀ m k j, (m, k) ∈ markers → occurs m rest j → ∃ i, i ≤ j ∧ mkEvent i k (length m) ∈ candidates markers rest) as Hcand.
  { intros m k j Hm Ho. pose proof (memmem_spec m rest (marker_nonempty _ _ Hm)) as Hs. destruct (memmem rest m) as [i|] eqn:E; [|by destruct (Hs j)].
    exists i. split; [by apply Hs|]. apply elem_candidates. by exists m. }
  destruct (candidates markers rest) as [|b cs] eqn:Hl.
  - cbn. intros m k j Hm Ho. destruct (Hcand m k j Hm Ho) as (i & _ & Hin). by apply not_elem_of_nil in Hin.
  - assert (∀ i x, (b :: cs) !! i = Some x → event_kind x = StopEvent → ∀ j y, j < i → (b :: cs) !! j = Some y → event_kind y = StopEvent) as Hord.
    { rewrite Hc. intros i x Hi Hx j y Hj Hy. destruct (decide (i < length stops)) as [Hlt|Hge].
      - rewrite lookup_app_l in Hy by lia. by apply Hst, list_elem_of_lookup_2 with j.
      - rewrite lookup_app_r in Hi by lia. apply list_elem_of_lookup_2, Hth in Hi. done. }
    cbn [foldl Event_earlier]. destruct (fold_best cs b) as (e & -> & Hin & Hb & Hall).
    + destruct (decide (event_kind b = StopEvent)) as [?|Hk]; [by left|right]. intros x [j Hj]%list_elem_of_lookup_1 Hx.
      apply Hk. apply (Hord (S j) x Hj Hx 0 b); [lia|done].
    + intros i x Hi Hx j y Hj Hy. apply (Hord (S i) x Hi Hx (S j) y); [lia|done].
    + assert (e ∈ candidates markers rest) as He by (rewrite Hl; destruct Hin as [->|?]; [left|by right]).
      apply elem_candidates in He as (m & Hm & Hmem & Hlen). pose proof (memmem_spec m rest (marker_nonempty _ _ Hm)) as Hs. rewrite Hmem in Hs.
      split; [exists m; split; [done|]; split; [done|apply Hs]|]. intros m' k' j Hm' Ho. destruct (Hcand m' k' j Hm' Ho) as (i & Hij & Hci).
      assert (beats e (mkEvent i k' (length m'))) as Hbt by (apply elem_of_cons in Hci as [->|?]; [done|by apply Hall]).
      destruct Hbt as [?|[Heq Hbt]]; cbn in *; [left; lia|]. destruct (decide (i < j)); [left; lia|right]. split; [lia|].
      destruct Hbt as [?|[Hl' Hk]]; [by left|right]. split; [done|]. destruct Hk as [?|[?|Hk]]; [by right|by left|].
      destruct (decide (event_kind e = StopEvent)); [by right|left]. eapply think_marker_length; [done|exact Hm|done|done|lia].
Qed.

(** No marker lies inside another one that ends later, except at its front when
    both are stop markers. *)
Definition clean : Prop := ∀ a ka b kb i, (a, ka) ∈ markers → (b, kb) ∈ markers → occurs b a i → i + length b < length a →
  i = 0 ∧ ka = StopEvent ∧ kb = StopEvent.

Lemma leftmost_earliest rest ev : leftmost rest ev → earliest_event c rest = Some ev.
Proof using Type.
  intros H. pose proof (earliest_spec rest) as Hs. destruct (earliest_event c rest) as [e|].
  - f_equal. by eapply leftmost_unique.
  - destruct (lm_marker _ _ H) as (m & Hm & _ & Ho). by destruct (Hs _ _ _ Hm Ho).
Qed.

(** More input does not change an event, up to the length of a stop marker. *)
Lemma earliest_extend x y ev : clean → earliest_event c x = Some ev → ∃ n,
  earliest_event c (x ++ y) = Some (mkEvent (event_at ev) (event_kind ev) n) ∧ (event_kind ev ≠ StopEvent → n = event_len ev).
Proof using Type.
  intros Hclean He. pose proof (earliest_spec x) as Hx. rewrite He in Hx. pose proof (earliest_spec (x ++ y)) as Hxy.
  destruct (lm_marker _ _ Hx) as (m & Hm & Hl & Ho). destruct (earliest_event c (x ++ y)) as [e|]; [|by destruct (Hxy _ _ (event_at ev) Hm); apply occurs_app].
  destruct (lm_marker _ _ Hxy) as (m' & Hm' & Hl' & Ho').
  pose proof (lm_best _ _ Hxy _ _ _ Hm (occurs_app _ _ y _ Ho)) as Hb.
  pose proof (occurs_length _ _ _ (marker_nonempty _ _ Hm) Ho) as Hlm.
  destruct (decide (event_at e + length m' ≤ length x)) as [Hin|Hout].
  - assert (leftmost x e) as Hle.
    { split; [exists m'; split; [done|]; split; [done|]; by eapply occurs_app_inv|]. intros m0 k j H0 H1. eapply (lm_best _ _ Hxy); [exact H0|by apply occurs_app]. }
    rewrite (leftmost_unique _ _ _ Hx Hle). exists (event_len e). by destruct e.
  - assert (occurs m m' (event_at ev - event_at e)) as Hocc.
    { eapply (occurs_inside m' m (x ++ y)); [lia|lia|done|by apply occurs_app]. }
    destruct (Hclean _ _ _ _ _ Hm' Hm Hocc) as (Hz & Hk' & Hk); [lia|]. exists (event_len e). split; [|by rewrite Hk]. f_equal.
    destruct e as [a k n], ev as [a' k' n']; cbn in *. subst. f_equal; lia.
Qed.

Lemma earliest_shift p r : (∀ m k j, (m, k) ∈ markers → occurs m (p ++ r) j → length p ≤ j) →
  earliest_event c (p ++ r) = (λ ev, mkEvent (length p + event_at ev) (event_kind ev) (event_len ev)) <$> earliest_event c r.
Proof using Type.
  intros Hno. assert (∀ m j, occurs m (p ++ r) (length p + j) ↔ occurs m r j) as Hsh.
  { intros m j. rewrite <- occurs_drop. by rewrite drop_app_length. }
  pose proof (earliest_spec r) as Hr. destruct (earliest_event c r) as [ev|]; cbn.
  - apply leftmost_earliest. destruct Hr as [(m & Hm & Hl & Ho) Hb]. split; cbn.
    + exists m. split; [done|]. split; [done|]. by apply Hsh.
    + intros m' k' j Hm' Ho'. pose proof (Hno _ _ _ Hm' Ho'). replace j with (length p + (j - length p)) in Ho' by lia.
      apply Hsh in Ho'. pose proof (Hb _ _ _ Hm' Ho') as Hbb. destruct Hbb as [?|[? ?]]; [left; lia|right; split; [lia|done]].
  - pose proof (earliest_spec (p ++ r)) as Hpr. destruct (earliest_event c (p ++ r)) as [ev|]; [|done]. exfalso.
    destruct (lm_marker _ _ Hpr) as (m & Hm & _ & Ho). pose proof (Hno _ _ _ Hm Ho). apply (Hr m _ (event_at ev - length p) Hm). apply Hsh.
    by replace (length p + (event_at ev - length p)) with (event_at ev) by lia.
Qed.
End config.
