(* ===== verification/EosSound.v ===== *)
(** What the output filter delivers
    (src/crates/hipfire-runtime/src/eos_filter.rs).

    [reading] is the meaning of a whole byte stream: text up to the leftmost,
    longest marker, then the rest according to the marker. The theorems relate
    every sequence of [observe] calls to it. *)

From S2P Require Import Prelude Utf8 EosFilter.

#[local] Arguments memmem : simpl never.
#[local] Arguments OPEN : simpl never.
#[local] Arguments CLOSE : simpl never.

(** ** Valid prefixes *)

Lemma utf8_char_bounds l n : utf8_char l = Some n → 0 < n ≤ length l.
Proof.
  unfold utf8_char. destruct l as [|a [|b [|d [|e l]]]]; intros H; cbn -[within continuation_byte] in *; [done|..]; repeat (case_match; simplify_eq); lia.
Qed.

(** Only the bytes of the sequence count. *)
Lemma utf8_char_prefix l n r : utf8_char l = Some n → utf8_char (take n l ++ r) = Some n.
Proof.
  unfold utf8_char. destruct l as [|a [|b [|d [|e l]]]]; intros H; cbn -[within continuation_byte take] in H; [done|..];
    repeat match type of H with context [if ?b then _ else _] => destruct b eqn:? end; try done; injection H as <-;
    cbn -[within continuation_byte]; repeat match goal with E : _ = _ :> bool |- _ => rewrite E; clear E end; done.
Qed.

Lemma valid_fuel_enough n : ∀ m l, length l ≤ n → length l ≤ m → valid_fuel n l = valid_fuel m l.
Proof.
  induction n as [|n IH]; intros m l Hn Hm.
  - destruct l; [|cbn in Hn; lia]. by destruct m.
  - destruct m as [|m]; [destruct l; [done|cbn in Hm; lia]|]. cbn. destruct (utf8_char l) as [k|] eqn:E; [|done].
    apply utf8_char_bounds in E. f_equal. apply IH; rewrite length_drop; lia.
Qed.

Lemma utf8_safe_end_step l : utf8_safe_end l = match utf8_char l with Some n => n + utf8_safe_end (drop n l) | None => 0 end.
Proof.
  unfold utf8_safe_end. destruct l as [|x l]; [done|]. cbn [length valid_fuel]. destruct (utf8_char (x :: l)) as [n|] eqn:E; [|done].
  apply utf8_char_bounds in E. cbn [length] in E. f_equal. apply valid_fuel_enough; rewrite length_drop; cbn [length]; lia.
Qed.

(** Induction along the sequences of a text. *)
Lemma utf8_ind (P : list Z → Prop) : (∀ l, (∀ n, utf8_char l = Some n → P (drop n l)) → P l) → ∀ l, P l.
Proof.
  intros H l. remember (length l) as n eqn:Hn. revert l Hn. induction (lt_wf n) as [n _ IH]. intros l ->. apply H. intros k Hk.
  apply utf8_char_bounds in Hk. eapply IH; [|reflexivity]. rewrite length_drop. lia.
Qed.

Lemma utf8_safe_end_le l : utf8_safe_end l ≤ length l.
Proof.
  induction l as [l IH] using utf8_ind. rewrite utf8_safe_end_step. destruct (utf8_char l) as [n|] eqn:E; [|lia].
  specialize (IH n eq_refl). rewrite length_drop in IH. apply utf8_char_bounds in E. lia.
Qed.

Definition valid_text (l : list Z) : Prop := utf8_safe_end l = length l.

Lemma utf8_safe_end_app l r : valid_text l → utf8_safe_end (l ++ r) = length l + utf8_safe_end r.
Proof.
  unfold valid_text. induction l as [l IH] using utf8_ind. intros Hv. rewrite utf8_safe_end_step in Hv.
  destruct (utf8_char l) as [n|] eqn:E.
  - pose proof (utf8_char_bounds _ _ E) as Hn. rewrite utf8_safe_end_step. pose proof (utf8_char_prefix _ _ (drop n l ++ r) E) as E'.
    rewrite app_assoc, take_drop in E'. rewrite E'. rewrite drop_app_le by lia. rewrite IH by (done || (rewrite length_drop; lia)).
    rewrite length_drop. lia.
  - destruct l; [done|]. cbn in Hv. lia.
Qed.

Lemma take_valid l : valid_text (take (utf8_safe_end l) l).
Proof.
  unfold valid_text. induction l as [l IH] using utf8_ind. rewrite (utf8_safe_end_step l). destruct (utf8_char l) as [n|] eqn:E.
  - pose proof (utf8_char_bounds _ _ E) as Hn. specialize (IH n eq_refl). rewrite utf8_safe_end_step.
    rewrite <- take_take_drop.
    rewrite (utf8_char_prefix _ _ _ E). rewrite drop_app_ge by (rewrite length_take; lia). rewrite length_take.
    replace (n - n `min` length l) with 0 by lia. rewrite drop_0, IH, !length_app, !length_take. lia.
  - by rewrite take_0.
Qed.

(** ** Readings *)

Inductive ending : Type := TextEnd | ThinkEnd | StopEnd.

Section config.
Context (c : EosFilterConfig).

Fixpoint read_fuel (fuel : nat) (think : bool) (rest : list Z) : list Z * ending :=
  match fuel with
  | O => ([], TextEnd)
  | S fuel =>
      if think then
        match memmem rest CLOSE with
        | Some i => read_fuel fuel false (drop (i + length CLOSE) rest)
        | None => ([], ThinkEnd)
        end
      else
        match earliest_event c rest with
        | None => (rest, TextEnd)
        | Some ev =>
            match event_kind ev with
            | StopEvent => (take (event_at ev) rest, StopEnd)
            | kind =>
                let '(text, e) := read_fuel fuel (bool_decide (kind = ThinkOpen)) (drop (event_at ev + event_len ev) rest) in
                (take (event_at ev) rest ++ text, e)
            end
        end
  end.

Definition reading (think : bool) (rest : list Z) : list Z * ending := read_fuel (S (length rest)) think rest.

Lemma event_bounds rest ev : earliest_event c rest = Some ev → 0 < event_len ev ∧ event_at ev + event_len ev ≤ length rest.
Proof using Type.
  intros H. pose proof (earliest_spec c rest) as Hs. rewrite H in Hs. destruct (lm_marker _ _ _ Hs) as (m & Hm & Hl & Ho).
  pose proof (marker_nonempty _ _ _ Hm) as Hne. pose proof (occurs_length _ _ _ Hne Ho). destruct m; [done|]. cbn in *. lia.
Qed.

Lemma close_bounds rest i : memmem rest CLOSE = Some i → i + length CLOSE ≤ length rest.
Proof using Type.
  intros H. pose proof (memmem_spec CLOSE rest ltac:(done)) as Hs. rewrite H in Hs. apply occurs_length; [done|apply Hs].
Qed.

Lemma read_enough n : ∀ m think rest, length rest < n → length rest < m → read_fuel n think rest = read_fuel m think rest.
Proof using Type.
  induction n as [|n IH]; intros m think rest Hn Hm; [lia|]. destruct m as [|m]; [lia|]. cbn [read_fuel]. destruct think.
  - destruct (memmem rest CLOSE) as [i|] eqn:E; [|done]. apply close_bounds in E. pose proof (eq_refl : length CLOSE = 8).
    apply IH; rewrite length_drop; lia.
  - destruct (earliest_event c rest) as [ev|] eqn:E; [|done]. apply event_bounds in E.
    destruct (event_kind ev); [done|..]; (rewrite (IH m); [done|rewrite length_drop; lia..]).
Qed.

Lemma reading_think rest : reading true rest = match memmem rest CLOSE with
  | Some i => reading false (drop (i + length CLOSE) rest)
  | None => ([], ThinkEnd)
  end.
Proof using Type.
  unfold reading at 1. cbn [read_fuel]. destruct (memmem rest CLOSE) as [i|] eqn:E; [|done]. apply close_bounds in E. pose proof (eq_refl : length CLOSE = 8).
  unfold reading. apply read_enough; rewrite length_drop; lia.
Qed.

(** [text] in front of a reading. *)
Definition prepend (text : list Z) (r : list Z * ending) : list Z * ending := (text ++ r.1, r.2).

Lemma prepend_app a b r : prepend (a ++ b) r = prepend a (prepend b r).
Proof using Type. unfold prepend. cbn. by rewrite app_assoc. Qed.
Lemma prepend_nil r : prepend [] r = r.
Proof using Type. by destruct r. Qed.

Definition after_event (ev : Event) (rest : list Z) : list Z * ending :=
  match event_kind ev with
  | StopEvent => ([], StopEnd)
  | kind => reading (bool_decide (kind = ThinkOpen)) (drop (event_at ev + event_len ev) rest)
  end.

Lemma reading_text rest : reading false rest = match earliest_event c rest with
  | None => (rest, TextEnd)
  | Some ev => prepend (take (event_at ev) rest) (after_event ev rest)
  end.
Proof using Type.
  unfold reading at 1. cbn [read_fuel]. destruct (earliest_event c rest) as [ev|] eqn:E; [|done]. apply event_bounds in E. unfold after_event, prepend.
  destruct (event_kind ev); cbn [fst snd]; [by rewrite app_nil_r|..]; unfold reading;
    (rewrite (read_enough _ (S (length (drop (event_at ev + event_len ev) rest)))); [by destruct (read_fuel _ _ _)|rewrite length_drop; lia|lia]).
Qed.

(** Text in which no marker starts can be cut off. *)
Lemma reading_skip p r : (∀ m k j, (m, k) ∈ markers c → occurs m (p ++ r) j → length p ≤ j) →
  reading false (p ++ r) = prepend p (reading false r).
Proof using Type.
  intros Hno. rewrite !reading_text, (earliest_shift c p r Hno). destruct (earliest_event c r) as [ev|]; cbn [fmap option_fmap option_map]; [|done].
  cbn [event_at event_kind event_len]. rewrite <- prepend_app, take_app_add. f_equal. unfold after_event. cbn.
  by rewrite <- Nat.add_assoc, drop_app_add.
Qed.

Lemma reading_think_skip p r : (∀ j, occurs CLOSE (p ++ r) j → length p ≤ j) → reading true (p ++ r) = reading true r.
Proof using Type.
  intros Hno. rewrite !reading_think. pose proof (memmem_spec CLOSE (p ++ r) ltac:(done)) as H1. pose proof (memmem_spec CLOSE r ltac:(done)) as H2.
  assert (∀ j, occurs CLOSE (p ++ r) (length p + j) ↔ occurs CLOSE r j) as Hsh by (intros j; rewrite <- occurs_drop; by rewrite drop_app_length).
  destruct (memmem (p ++ r) CLOSE) as [i|], (memmem r CLOSE) as [i'|]; [| | |done].
  - destruct H1 as [Ho Hm], H2 as [Ho' Hm']. pose proof (Hno _ Ho). assert (i ≤ length p + i') by (apply Hm; by apply Hsh).
    replace i with (length p + (i - length p)) in Ho by lia. apply Hsh, Hm' in Ho. replace i with (length p + i') by lia.
    by rewrite <- Nat.add_assoc, drop_app_add.
  - destruct H1 as [Ho _]. pose proof (Hno _ Ho). replace i with (length p + (i - length p)) in Ho by lia. apply Hsh in Ho. by destruct (H2 _ Ho).
  - destruct H2 as [Ho' _]. apply Hsh in Ho'. by destruct (H1 _ Ho').
Qed.
End config.

(** ** What is held back *)

Lemma trailing_match_spec bytes needle n : ∀ k, 0 < k ≤ n → drop (length bytes - k) bytes = take k needle → k ≤ trailing_match bytes needle n.
Proof.
  induction n as [|n IH]; intros k Hk H; [lia|]. cbn [trailing_match]. case_bool_decide as Hn; [lia|].
  destruct (decide (k = S n)) as [->|]; [done|]. apply IH; [lia|done].
Qed.

Lemma trailing_match_le bytes needle n : trailing_match bytes needle n ≤ n.
Proof. induction n as [|n IH]; cbn [trailing_match]; [lia|]. case_bool_decide; lia. Qed.

Lemma trim_one_spec rest p n : ∀ max_trim, max_trim ≤ trim_one rest p n max_trim ∧ trim_one rest p n max_trim ≤ Nat.max n max_trim ∧
  ∀ k, 0 < k ≤ n → drop (length rest - k) rest = take k p → k ≤ trim_one rest p n max_trim.
Proof.
  induction n as [|n IH]; intros mt; cbn [trim_one]; [split_and!; intros; lia|]. case_bool_decide; [split_and!; intros; lia|]. case_bool_decide as Hm; [split_and!; intros; lia|].
  destruct (IH mt) as (H1 & H2 & H3). split; [lia|]. split; [lia|]. intros k Hk He. destruct (decide (k = S n)) as [->|]; [done|]. apply H3; [lia|done].
Qed.

Section pump.
Context (c : EosFilterConfig) (Hclean : clean c).

Definition trim_of (rest : list Z) (ps : list (list Z)) (n : nat) : nat :=
  foldl (λ max_trim p, trim_one rest p (Nat.min (length p - 1) (length rest)) max_trim) n ps.

Lemma trim_of_spec rest ps : ∀ n, n ≤ length rest → n ≤ trim_of rest ps n ≤ length rest ∧
  ∀ p k, p ∈ ps → 0 < k < length p → k ≤ length rest → drop (length rest - k) rest = take k p → k ≤ trim_of rest ps n.
Proof using Type.
  induction ps as [|p ps IH]; intros n Hn; cbn [trim_of foldl].
  - split; [lia|]. intros p k Hp. by apply not_elem_of_nil in Hp.
  - destruct (trim_one_spec rest p (Nat.min (length p - 1) (length rest)) n) as (H1 & H2 & H3).
    destruct (IH (trim_one rest p (Nat.min (length p - 1) (length rest)) n)) as [H4 H5]; [lia|]. unfold trim_of in *. split; [lia|].
    intros q k [->|Hq]%elem_of_cons Hk Hl He; [|by eapply H5]. etransitivity; [apply H3; [lia|done]|lia].
Qed.

Lemma marker_watched m k : (m, k) ∈ markers c → m ∈ watched c.
Proof using Type.
  unfold markers, watched. intros [H|H]%elem_of_app; apply elem_of_app; right; apply elem_of_app.
  - left. by apply list_elem_of_fmap in H as (? & [= <- _] & ?).
  - right. destruct (strip_think c); [|by apply not_elem_of_nil in H]. apply list_elem_of_In in H as [[= <- _]|[[= <- _]|[]]]; [left|right; left].
Qed.

(** No marker starts in what is passed on, whatever comes next. *)
Lemma hold_sound x y m k j : earliest_event c x = None → (m, k) ∈ markers c → occurs m (x ++ y) j → holdback_trim_len c x ≤ j.
Proof using Type.
  intros He Hm Ho. pose proof (earliest_spec c x) as Hs. rewrite He in Hs. unfold holdback_trim_len. case_bool_decide as Hx; [lia|].
  fold (trim_of x (watched c) 0). destruct (trim_of_spec x (watched c) 0) as [Hle Hall]; [lia|]. set (t := trim_of x (watched c) 0) in *.
  pose proof (utf8_safe_end_le (take (length x - t) x)) as Hu. rewrite length_take in Hu.
  destruct (decide (length x ≤ j)); [lia|]. destruct (decide (j + length m ≤ length x)) as [Hin|Hin].
  { by destruct (Hs m k j Hm); eapply occurs_app_inv. }
  assert (length x - j ≤ t); [|lia]. apply (Hall m); [by eapply marker_watched|lia|lia|].
  replace (length x - (length x - j)) with j by lia. eapply occurs_cut; [lia|lia|done].
Qed.

Lemma think_hold_sound x y j : memmem x CLOSE = None → occurs CLOSE (x ++ y) j → trailing_prefix_start x CLOSE ≤ j.
Proof using Type.
  intros Hn Ho. pose proof (memmem_spec CLOSE x ltac:(done)) as Hs. rewrite Hn in Hs. unfold trailing_prefix_start.
  rewrite (bool_decide_eq_false_2 (CLOSE = [])) by done. cbn [orb].
  destruct (decide (j + length CLOSE ≤ length x)) as [Hin|Hin]; [by destruct (Hs j); eapply occurs_app_inv|].
  case_bool_decide as Hx; [subst; cbn; lia|]. destruct (decide (length x ≤ j)); [lia|].
  set (w := Nat.min _ _). assert (length x - j ≤ trailing_match x CLOSE w); [|lia]. apply trailing_match_spec; [lia|].
  replace (length x - (length x - j)) with j by lia. eapply occurs_cut; [lia|lia|done].
Qed.

(** ** The pump *)

Definition state_ok (s : EosFilterState) : Prop := stopped s = false ∧ cursor s ≤ length (raw s) ∧ visible_emitted s ≤ length (visible s).

(** The bytes that were not classified yet. *)
Definition remaining (s : EosFilterState) : list Z := drop (cursor s) (raw s).

(** They contain no marker the filter waits for. *)
Definition quiet (s : EosFilterState) : Prop :=
  if in_think s then memmem (remaining s) CLOSE = None else earliest_event c (remaining s) = None.

Definition payload (a : FilterAction) : list Z := match a with Emit l => l | EmitAndStop l => l | _ => [] end.
Definition stops (a : FilterAction) : bool := match a with Stop | EmitAndStop _ => true | _ => false end.

Lemma slice_rest l lo : lo ≤ length l → slice l lo (length l) = Ok (drop lo l).
Proof using Type. intros H. unfold slice. rewrite bool_decide_eq_true_2 by lia. cbn. f_equal. apply take_ge. by rewrite length_drop. Qed.

Lemma slice_at l lo n : lo + n ≤ length l → slice l lo (lo + n) = Ok (take n (drop lo l)).
Proof using Type. intros H. unfold slice. rewrite bool_decide_eq_true_2 by lia. cbn. do 2 f_equal. lia. Qed.

Lemma safe_end_Ok s : visible_emitted s ≤ length (visible s) →
  safe_visible_end s = Ok (utf8_safe_end (drop (visible_emitted s) (visible s)) + visible_emitted s).
Proof using Type.
  intros H. unfold safe_visible_end. case_bool_decide as Hl; [|by rewrite slice_rest].
  rewrite drop_ge by done. done.
Qed.

(** A stop delivers the valid part of what is visible. *)
Lemma commit_stop_Ok s : visible_emitted s ≤ length (visible s) → ∃ a, commit_stop s =
    Ok (mkEosFilterState [] 0 (visible s) (length (visible s)) (in_think s) true, a) ∧ stops a = true ∧
  payload a = take (utf8_safe_end (drop (visible_emitted s) (visible s))) (drop (visible_emitted s) (visible s)).
Proof using Type.
  intros H. unfold commit_stop. rewrite safe_end_Ok by done. cbn [visible visible_emitted mbind result_bind in_think].
  set (n := utf8_safe_end _). case_bool_decide as Hn.
  - rewrite Nat.add_comm, slice_at; [eexists; by split|]. pose proof (utf8_safe_end_le (drop (visible_emitted s) (visible s))) as Hu.
    rewrite length_drop in Hu. subst n. lia.
  - eexists. split; [done|]. split; [done|]. replace n with 0 by lia. by rewrite take_0.
Qed.

Lemma close_extend x y i : memmem x CLOSE = Some i → memmem (x ++ y) CLOSE = Some i.
Proof using Type.
  intros H. pose proof (close_bounds _ _ H). pose proof (memmem_spec CLOSE x ltac:(done)) as Hx. rewrite H in Hx. destruct Hx as [Ho Hm].
  pose proof (memmem_spec CLOSE (x ++ y) ltac:(done)) as Hs. destruct (memmem (x ++ y) CLOSE) as [i'|].
  - destruct Hs as [Ho' Hm']. pose proof (Hm' _ (occurs_app _ _ y _ Ho)). apply occurs_app_inv in Ho'; [|lia]. apply Hm in Ho'. f_equal. lia.
  - by destruct (Hs i); apply occurs_app.
Qed.

Lemma close_none_drop x n : memmem x CLOSE = None → memmem (drop n x) CLOSE = None.
Proof using Type.
  intros H. pose proof (memmem_spec CLOSE x ltac:(done)) as Hx. rewrite H in Hx. pose proof (memmem_spec CLOSE (drop n x) ltac:(done)) as Hs.
  destruct (memmem (drop n x) CLOSE) as [i|]; [|done]. destruct Hs as [Ho _]. apply occurs_drop in Ho. by destruct (Hx _ Ho).
Qed.

Lemma earliest_none_drop x n : earliest_event c x = None → earliest_event c (drop n x) = None.
Proof using Type.
  intros H. pose proof (earliest_spec c x) as Hx. rewrite H in Hx. pose proof (earliest_spec c (drop n x)) as Hs.
  destruct (earliest_event c (drop n x)) as [ev|]; [|done]. destruct (lm_marker _ _ _ Hs) as (m & Hm & _ & Ho). apply occurs_drop in Ho. by destruct (Hx _ _ _ Hm Ho).
Qed.

Lemma trailing_start_le x : trailing_prefix_start x CLOSE ≤ length x.
Proof using Type. unfold trailing_prefix_start. destruct (_ || _); lia. Qed.

Lemma hold_le x : holdback_trim_len c x ≤ length x.
Proof using Type.
  unfold holdback_trim_len. case_bool_decide; [lia|]. etransitivity; [apply utf8_safe_end_le|]. rewrite length_take. lia.
Qed.

(** What one run of the pump in the middle of the stream does. *)
Definition pumped (s : EosFilterState) (r : EosFilterState * option FilterAction) : Prop := ∃ V, visible r.1 = visible s ++ V ∧
  match r.2 with
  | None => state_ok r.1 ∧ raw r.1 = raw s ∧ visible_emitted r.1 = visible_emitted s ∧ quiet r.1 ∧
      ∀ y, reading c (in_think s) (remaining s ++ y) = prepend V (reading c (in_think r.1) (remaining r.1 ++ y))
  | Some a => stopped r.1 = true ∧ stops a = true ∧
      (let D := drop (visible_emitted s) (visible r.1) in payload a = take (utf8_safe_end D) D) ∧
      ∀ y, reading c (in_think s) (remaining s ++ y) = (V, StopEnd)
  end.

Lemma pumped_step s s1 V1 r : visible s1 = visible s ++ V1 → visible_emitted s1 = visible_emitted s → raw s1 = raw s →
  (∀ y, reading c (in_think s) (remaining s ++ y) = prepend V1 (reading c (in_think s1) (remaining s1 ++ y))) → pumped s1 r → pumped s r.
Proof using Type.
  intros Hv He Hr Hread (V & HV & Hc). exists (V1 ++ V). split; [by rewrite HV, Hv, app_assoc|]. destruct r as [s' [a|]]; cbn [fst snd] in *.
  - destruct Hc as (H1 & H2 & H3 & H4). rewrite He in H3. split; [done|]. split; [done|]. split; [done|]. intros y. by rewrite Hread, H4.
  - destruct Hc as (H1 & H2 & H3 & H4 & H5). split; [done|]. split; [congruence|]. split; [congruence|]. split; [done|]. intros y. by rewrite Hread, H5, prepend_app.
Qed.

Lemma remaining_length s : length (remaining s) = length (raw s) - cursor s.
Proof using Type. unfold remaining. apply length_drop. Qed.

Lemma remaining_set s n think : remaining (set_cursor s (cursor s + n) think) = drop n (remaining s).
Proof using Type. unfold remaining. cbn. by rewrite drop_drop. Qed.

Lemma pump_think fuel s : (∀ s', state_ok s' → length (remaining s') < fuel → ∃ r, pump fuel c false s' = Ok r ∧ pumped s' r) →
  state_ok s → length (remaining s) < S fuel → in_think s = true → 0 < length (remaining s) → ∃ r, pump (S fuel) c false s = Ok r ∧ pumped s r.
Proof using Hclean.
  intros IH (Hst & Hcur & Hem) Hf Hth Hne. pose proof (remaining_length s) as Hrl. cbn [pump]. rewrite bool_decide_eq_false_2 by lia.
  rewrite slice_rest by done. cbn [mbind result_bind]. fold (remaining s). rewrite Hth. destruct (memmem (remaining s) CLOSE) as [i|] eqn:E.
  - pose proof (close_bounds _ _ E) as Hb. rewrite <- Nat.add_assoc.
    destruct (IH (set_cursor s (cursor s + (i + length CLOSE)) false)) as (r & Hr & Hp).
    + split; [done|]. cbn [cursor raw set_cursor visible_emitted visible]. lia.
    + rewrite remaining_set, length_drop. pose proof (eq_refl : length CLOSE = 8). lia.
    + exists r. split; [done|]. refine (pumped_step s _ [] r _ _ _ _ Hp); [by rewrite app_nil_r|done|done|]. intros y.
      rewrite prepend_nil, Hth, reading_think, (close_extend _ _ _ E), remaining_set. by rewrite drop_app_le.
  - eexists. split; [done|]. exists []. cbn [fst snd]. split; [by rewrite app_nil_r|]. pose proof (trailing_start_le (remaining s)) as Hle.
    split; [split; [done|]; cbn [cursor raw set_cursor visible_emitted visible]; lia|]. split; [done|]. split; [done|].
    split; [unfold quiet; cbn [in_think set_cursor]; rewrite remaining_set; by apply close_none_drop|].
    intros y. rewrite prepend_nil, Hth, remaining_set. cbn [in_think set_cursor]. set (k := trailing_prefix_start (remaining s) CLOSE) in *.
    rewrite <- (take_drop k (remaining s)) at 1. rewrite <- app_assoc. apply reading_think_skip. intros j Ho.
    rewrite app_assoc, take_drop in Ho. rewrite length_take. pose proof (think_hold_sound _ _ _ E Ho). lia.
Qed.

Lemma pump_text fuel s : (∀ s', state_ok s' → length (remaining s') < fuel → ∃ r, pump fuel c false s' = Ok r ∧ pumped s' r) →
  state_ok s → length (remaining s) < S fuel → in_think s = false → 0 < length (remaining s) → ∃ r, pump (S fuel) c false s = Ok r ∧ pumped s r.
Proof using Hclean.
  intros IH (Hst & Hcur & Hem) Hf Hth Hne. pose proof (remaining_length s) as Hrl. cbn [pump]. rewrite bool_decide_eq_false_2 by lia.
  rewrite slice_rest by done. cbn [mbind result_bind]. fold (remaining s). rewrite Hth. destruct (earliest_event c (remaining s)) as [ev|] eqn:E.
  - destruct (event_bounds _ _ _ E) as [Hl Hb]. set (s1 := push_visible s (take (event_at ev) (remaining s))).
    assert ((if bool_decide (0 < event_at ev) then prose ← slice (raw s) (cursor s) (cursor s + event_at ev); Ok (push_visible s prose) else Ok s) = Ok s1) as ->.
    { case_bool_decide as H0; [rewrite slice_at by lia; done|]. unfold s1. replace (event_at ev) with 0 by lia. rewrite take_0. unfold push_visible.
      rewrite app_nil_r. by destruct s. }
    cbn [mbind result_bind]. rewrite <- Nat.add_assoc. change (cursor s) with (cursor s1) at 1 2 3.
    assert (visible s1 = visible s ++ take (event_at ev) (remaining s)) as Hv1 by done.
    assert (∀ y, reading c false (remaining s ++ y) = prepend (take (event_at ev) (remaining s)) (match event_kind ev with StopEvent => ([], StopEnd)
      | kind => reading c (bool_decide (kind = ThinkOpen)) (drop (event_at ev + event_len ev) (remaining s) ++ y) end)) as Hread.
    { intros y. rewrite reading_text. destruct (earliest_extend c (remaining s) y ev Hclean E) as (n & -> & Hn). cbn [event_at].
      rewrite take_app_le by lia. f_equal. unfold after_event. cbn [event_kind event_at event_len]. destruct (event_kind ev); [done|..];
        rewrite Hn by done; by rewrite drop_app_le by lia. }
    assert (∀ think, state_ok (set_cursor s1 (cursor s1 + (event_at ev + event_len ev)) think)) as Hok.
    { intros think. split; [done|]. cbn [cursor raw set_cursor visible_emitted visible s1 push_visible]. rewrite length_app. lia. }
    destruct (event_kind ev) eqn:Hk.
    + destruct (commit_stop_Ok (set_cursor s1 (cursor s1 + (event_at ev + event_len ev)) false)) as (a & -> & Ha & Hp); [apply Hok|].
      cbn [mbind result_bind]. eexists. split; [done|]. exists (take (event_at ev) (remaining s)). split; [done|]. cbn [fst snd stopped visible].
      split; [done|]. split; [done|]. split; [exact Hp|]. intros y. rewrite Hth, Hread. unfold prepend. cbn. by rewrite app_nil_r.
    + destruct (IH (set_cursor s1 (cursor s1 + (event_at ev + event_len ev)) true)) as (r & Hr & Hp); [apply Hok|rewrite remaining_set, length_drop; change (remaining s1) with (remaining s); lia|].
      exists r. split; [exact Hr|]. refine (pumped_step s _ (take (event_at ev) (remaining s)) r _ _ _ _ Hp); [done|done|done|]. intros y. rewrite Hth, Hread, remaining_set. done.
    + destruct (IH (set_cursor s1 (cursor s1 + (event_at ev + event_len ev)) false)) as (r & Hr & Hp); [apply Hok|rewrite remaining_set, length_drop; change (remaining s1) with (remaining s); lia|].
      exists r. split; [exact Hr|]. refine (pumped_step s _ (take (event_at ev) (remaining s)) r _ _ _ _ Hp); [done|done|done|]. intros y. rewrite Hth, Hread, remaining_set. done.
  - pose proof (hold_le (remaining s)) as Hle. set (n := holdback_trim_len c (remaining s)) in *.
    assert (∀ y, reading c false (remaining s ++ y) = prepend (take n (remaining s)) (reading c false (drop n (remaining s) ++ y))) as Hread.
    { intros y. rewrite <- (take_drop n (remaining s)) at 1. rewrite <- app_assoc. apply reading_skip. intros m k j Hm Ho.
      rewrite app_assoc, take_drop in Ho. rewrite length_take. pose proof (hold_sound _ _ _ _ _ E Hm Ho). fold n in H. lia. }
    case_bool_decide as H0.
    + rewrite slice_at by lia. cbn [mbind result_bind]. fold (remaining s). eexists. split; [done|]. exists (take n (remaining s)). cbn [fst snd].
      split; [done|]. split; [split; [done|]; cbn [cursor raw set_cursor visible_emitted visible push_visible]; rewrite length_app; lia|].
      split; [done|]. split; [done|]. change (cursor s) with (cursor (push_visible s (take n (remaining s)))).
      split; [unfold quiet; cbn [in_think set_cursor]; rewrite remaining_set; by apply earliest_none_drop|].
      intros y. rewrite Hth, Hread, remaining_set. done.
    + eexists. split; [done|]. exists []. cbn [fst snd]. split; [by rewrite app_nil_r|]. split; [by split|]. split; [done|]. split; [done|].
      split; [unfold quiet; by rewrite Hth|]. intros y. by rewrite prepend_nil.
Qed.

Lemma pump_mid fuel : ∀ s, state_ok s → length (remaining s) < fuel → ∃ r, pump fuel c false s = Ok r ∧ pumped s r.
Proof using Hclean.
  induction fuel as [|fuel IH]; intros s Hs Hf; [lia|]. destruct (decide (0 < length (remaining s))) as [Hne|Hne].
  - destruct (in_think s) eqn:Hth; [by apply pump_think|by apply pump_text].
  - pose proof (remaining_length s). pose proof Hs as (_ & Hcur & _). cbn [pump]. rewrite bool_decide_eq_true_2 by lia. eexists. split; [done|].
    exists []. cbn [fst snd]. split; [by rewrite app_nil_r|]. split; [done|]. split; [done|]. split; [done|].
    split; [|intros y; by rewrite prepend_nil]. assert (remaining s = []) as Hr by (apply nil_length_inv; lia). unfold quiet. rewrite Hr.
    destruct (in_think s).
    + done.
    + pose proof (earliest_spec c []) as Hspec. destruct (earliest_event c []) as [ev|] eqn:E; [|done]. apply event_bounds in E. cbn in E. lia.
Qed.
End pump.

(** ** Streams *)

(** A token per [observe]. *)
Fixpoint observe_all (f : EosFilter) (chunks : list (list Z)) : outcome (EosFilter * list FilterAction) :=
  match chunks with
  | [] => Ok (f, [])
  | chunk :: chunks =>
      '(f, a) ← observe f chunk;
      '(f, l) ← observe_all f chunks;
      Ok (f, a :: l)
  end.

(** What a consumer of a whole generation gets, and whether it was told to stop. *)
Definition filter_stream (config : EosFilterConfig) (chunks : list (list Z)) : outcome (list Z * bool) :=
  '(f, actions) ← observe_all (EosFilter_new config) chunks;
  '(_, tail) ← flush_pending f;
  Ok (concat (payload <$> actions) ++ tail, existsb stops actions).

(** The meaning of the stream: its text; the valid part of it if the stream
    stopped or ended in a reasoning block. *)
Definition delivered (config : EosFilterConfig) (stream : list Z) : list Z * bool :=
  let '(text, e) := reading config (strip_think config && started_in_think config) stream in
  match e with
  | TextEnd => (text, false)
  | ThinkEnd => (take (utf8_safe_end text) text, false)
  | StopEnd => (take (utf8_safe_end text) text, true)
  end.

Section run.
Context (c : EosFilterConfig) (Hclean : clean c) (start : bool).

(** After the input [X], with [O] delivered. *)
Definition run_inv (X O : list Z) (b : bool) (f : EosFilter) : Prop := filter_config f = c ∧
  let s := filter_state f in
  if b then stopped s = true ∧ ∃ V, (∀ y, reading c start (X ++ y) = (V, StopEnd)) ∧ O = take (utf8_safe_end V) V
  else state_ok s ∧ quiet c s ∧ visible_emitted s = utf8_safe_end (visible s) ∧ O = take (visible_emitted s) (visible s) ∧
    ∀ y, reading c start (X ++ y) = prepend (visible s) (reading c (in_think s) (remaining s ++ y)).

Lemma safe_extend v V : let D := drop (utf8_safe_end v) (v ++ V) in
  utf8_safe_end (v ++ V) = utf8_safe_end v + utf8_safe_end D ∧
  take (utf8_safe_end (v ++ V)) (v ++ V) = take (utf8_safe_end v) v ++ take (utf8_safe_end D) D.
Proof using Type.
  intros D. pose proof (utf8_safe_end_le v) as Hle. pose proof (take_valid v) as Hv.
  assert (utf8_safe_end (v ++ V) = utf8_safe_end v + utf8_safe_end D) as Heq.
  { rewrite <- (take_drop (utf8_safe_end v) (v ++ V)) at 1. rewrite take_app_le by done. rewrite utf8_safe_end_app by done. rewrite length_take. unfold D. lia. }
  split; [done|]. rewrite Heq, <- take_take_drop. by rewrite take_app_le.
Qed.

Lemma observe_step X O b f chunk : run_inv X O b f →
  ∃ f' a, observe f chunk = Ok (f', a) ∧ run_inv (X ++ chunk) (O ++ payload a) (b || stops a) f'.
Proof using Hclean.
  intros [Hc H]. destruct f as [c' s]. cbn [filter_config filter_state] in *. subst c'. unfold observe. cbn [filter_config filter_state].
  destruct b.
  - destruct H as (Hst & V & Hr & HO). rewrite Hst. eexists _, _. split; [done|]. split; [done|]. cbn. split; [done|].
    exists V. split; [intros y; rewrite <- app_assoc; apply Hr|by rewrite app_nil_r].
  - destruct H as ((Hst & Hcur & Hem) & Hq & He & HO & Hr). rewrite Hst. case_bool_decide as Hempty.
    { destruct Hempty as (-> & _). eexists _, _. split; [done|]. rewrite !app_nil_r. by split. }
    set (s0 := mkEosFilterState (raw s ++ chunk) _ _ _ _ _). assert (state_ok s0) as Hok0.
    { split; [done|]. cbn [s0 cursor raw visible_emitted visible]. rewrite length_app. lia. }
    assert (remaining s0 = remaining s ++ chunk) as Hrem by (unfold remaining, s0; cbn; by rewrite drop_app_le).
    destruct (pump_mid c Hclean (pump_fuel s0) s0 Hok0) as ([s1 act] & -> & V & HV & Hact).
    { unfold pump_fuel. rewrite remaining_length. lia. }
    cbn [mbind result_bind fst snd] in *. change (visible s0) with (visible s) in HV. change (in_think s0) with (in_think s) in Hact.
    change (visible_emitted s0) with (visible_emitted s) in Hact. destruct (safe_extend (visible s) V) as [Hs1 Hs2].
    rewrite He, HV in Hact. destruct act as [a|].
    + destruct Hact as (Hst1 & Ha & Hpay & Hread). eexists _, _. split; [done|]. rewrite Ha. split; [done|]. cbn [orb filter_state]. split; [done|].
      exists (visible s ++ V). split; [|rewrite HO, Hpay, Hs2, He; done]. intros y. rewrite <- app_assoc, Hr, app_assoc, <- Hrem, Hread. done.
    + destruct Hact as (Hok1 & Hraw & Hem1 & Hq1 & Hread). rewrite safe_end_Ok by apply Hok1. cbn [mbind result_bind]. rewrite Hem1, HV.
      set (D := drop _ _) in *. assert (∀ y, reading c start ((X ++ chunk) ++ y) = prepend (visible s1) (reading c (in_think s1) (remaining s1 ++ y))) as Hr1.
      { intros y. rewrite <- app_assoc, Hr, app_assoc, <- Hrem, Hread, HV. by rewrite prepend_app. }
      pose proof (utf8_safe_end_le (visible s ++ V)) as Hle1. case_bool_decide as Hlt.
      * rewrite Nat.add_comm, slice_at by lia. cbn [mbind result_bind]. eexists _, _. split; [done|]. split; [done|]. cbn [orb stops payload filter_state].
        split; [split; [apply Hok1|]; cbn [raw cursor visible visible_emitted]; destruct Hok1 as (_ & ? & _); lia|].
        split; [done|]. cbn [visible visible_emitted in_think]. split; [lia|]. split; [|intros y; rewrite Hr1, HV; done].
        rewrite <- Hs1, Hs2, HO, He. done.
      * assert (utf8_safe_end D = 0) as Hz by lia. eexists _, _. split; [done|]. split; [done|]. cbn [orb stops payload filter_state].
        split; [done|]. split; [done|]. split; [rewrite HV; lia|]. split; [|done]. rewrite app_nil_r, HO, HV, Hem1, He. rewrite take_app_le by apply utf8_safe_end_le. done.
Qed.

Lemma observe_run chunks : ∀ X O b f, run_inv X O b f →
  ∃ f' l, observe_all f chunks = Ok (f', l) ∧ run_inv (X ++ concat chunks) (O ++ concat (payload <$> l)) (b || existsb stops l) f'.
Proof using Hclean.
  induction chunks as [|chunk chunks IH]; intros X O b f Hi; cbn [observe_all concat].
  - exists f, []. cbn. rewrite !app_nil_r, orb_false_r. done.
  - destruct (observe_step X O b f chunk Hi) as (f1 & a & -> & H1). cbn [mbind result_bind]. destruct (IH _ _ _ _ H1) as (f2 & l & -> & H2).
    cbn [mbind result_bind]. exists f2, (a :: l). split; [done|]. rewrite fmap_cons. cbn [concat existsb]. by rewrite !app_assoc, orb_assoc.
Qed.

(** The stream ends without a marker in what is left. *)
Lemma quiet_reading s : quiet c s → reading c (in_think s) (remaining s) = if in_think s then ([], ThinkEnd) else (remaining s, TextEnd).
Proof using Type. unfold quiet. destruct (in_think s); intros H; [by rewrite reading_think, H|by rewrite reading_text, H]. Qed.

Lemma flush_text s : state_ok s → quiet c s → in_think s = false → ∃ s', pump (pump_fuel s) c true s = Ok (s', None) ∧
  in_think s' = false ∧ visible s' = visible s ++ remaining s ∧ visible_emitted s' = visible_emitted s.
Proof using Type.
  intros (Hst & Hcur & Hem) Hq Hth. unfold quiet in Hq. rewrite Hth in Hq. unfold pump_fuel. cbn [pump]. pose proof (remaining_length s) as Hl.
  case_bool_decide as Hle.
  - exists s. assert (remaining s = []) as -> by (apply nil_length_inv; lia). by rewrite app_nil_r.
  - rewrite slice_rest by done. cbn [mbind result_bind]. fold (remaining s). rewrite Hth, Hq. rewrite bool_decide_eq_true_2 by lia.
    rewrite slice_at by lia. cbn [mbind result_bind]. fold (remaining s). eexists. split; [done|]. split; [done|]. cbn. by rewrite take_ge.
Qed.

Lemma flush_think s : state_ok s → quiet c s → in_think s = true → ∃ s', pump (pump_fuel s) c true s = Ok (s', None) ∧ in_think s' = true.
Proof using Type.
  intros (Hst & Hcur & Hem) Hq Hth. unfold quiet in Hq. rewrite Hth in Hq. unfold pump_fuel. cbn [pump]. pose proof (remaining_length s) as Hl.
  case_bool_decide as Hle; [by exists s|]. rewrite slice_rest by done. cbn [mbind result_bind]. fold (remaining s). rewrite Hth, Hq. by eexists.
Qed.

Lemma flush_end X O b f : run_inv X O b f → ∃ f' tail, flush_pending f = Ok (f', tail) ∧
  (O ++ tail, b) = let '(text, e) := reading c start X in
    match e with TextEnd => (text, false) | ThinkEnd => (take (utf8_safe_end text) text, false) | StopEnd => (take (utf8_safe_end text) text, true) end.
Proof using Type.
  clear Hclean. intros [Hc H]. destruct f as [c' s]. cbn [filter_config filter_state] in *. subst c'. unfold flush_pending. cbn [filter_config filter_state].
  destruct b.
  - destruct H as (Hst & V & Hr & HO). rewrite Hst. eexists _, _. split; [done|]. specialize (Hr []). rewrite app_nil_r in Hr. by rewrite Hr, app_nil_r, HO.
  - destruct H as (Hok & Hq & He & HO & Hr). pose proof Hok as (Hst & Hcur & Hem). rewrite Hst. specialize (Hr []). rewrite !app_nil_r, quiet_reading in Hr by done.
    rewrite Hr. destruct (in_think s) eqn:Hth.
    + destruct (flush_think s Hok Hq Hth) as (s' & -> & Ht). cbn [mbind result_bind]. rewrite Ht. eexists _, _. split; [done|]. cbn. by rewrite !app_nil_r, HO, He.
    + destruct (flush_text s Hok Hq Hth) as (s' & -> & Ht & Hv & Hem'). cbn [mbind result_bind]. rewrite Ht. cbn [prepend fst snd].
      case_bool_decide as Hle.
      * eexists _, _. split; [done|]. rewrite app_nil_r, HO. f_equal. rewrite Hv, Hem' in Hle. rewrite length_app in Hle.
        rewrite <- (take_drop (visible_emitted s) (visible s ++ remaining s)), drop_ge, app_nil_r by (rewrite length_app; lia). by rewrite take_app_le.
      * rewrite slice_rest by lia. cbn [mbind result_bind]. eexists _, _. split; [done|]. rewrite HO, Hv, Hem'. f_equal.
        rewrite <- (take_drop (visible_emitted s) (visible s ++ remaining s)) at 2. by rewrite take_app_le.
Qed.
End run.

(** ** The configuration is sorted first *)

Lemma elem_of_sort x l : x ∈ sort_by_length l ↔ x ∈ l.
Proof.
  assert (∀ y l, x ∈ insert_by_length y l ↔ x = y ∨ x ∈ l) as H.
  { intros y k. induction k as [|z k IH]; cbn [insert_by_length]; [by rewrite elem_of_cons|].
    case_bool_decide; rewrite !elem_of_cons, ?IH; tauto. }
  induction l as [|y l IH]; [done|]. cbn. rewrite H, IH, elem_of_cons. done.
Qed.

Lemma new_markers config x : x ∈ markers (filter_config (EosFilter_new config)) ↔ x ∈ markers config.
Proof.
  unfold markers. cbn [EosFilter_new filter_config stop_at strip_think]. rewrite !elem_of_app, !list_elem_of_fmap. setoid_rewrite list_elem_of_In.
  setoid_rewrite filter_In. setoid_rewrite <- list_elem_of_In. setoid_rewrite elem_of_sort. done.
Qed.

Lemma earliest_same c c' rest : (∀ x, x ∈ markers c ↔ x ∈ markers c') → earliest_event c rest = earliest_event c' rest.
Proof.
  intros H. pose proof (earliest_spec c rest) as Hs. destruct (earliest_event c rest) as [ev|].
  - symmetry. apply leftmost_earliest. destruct Hs as [(m & Hm & Hr) Hb]. split; [exists m; split; [by apply H|done]|]. intros m' k j Hm'. apply Hb. by apply H.
  - pose proof (earliest_spec c' rest) as Hs'. destruct (earliest_event c' rest) as [ev|]; [|done].
    destruct (lm_marker _ _ _ Hs') as (m & Hm & _ & Ho). apply H in Hm. by destruct (Hs _ _ _ Hm Ho).
Qed.

Lemma reading_same c c' think rest : (∀ x, x ∈ markers c ↔ x ∈ markers c') → reading c think rest = reading c' think rest.
Proof.
  intros H. unfold reading. generalize (S (length rest)). intros n. revert think rest. induction n as [|n IH]; intros think rest; [done|]. cbn [read_fuel].
  rewrite (earliest_same c c' rest H). destruct think; [destruct (memmem rest CLOSE); [apply IH|done]|].
  destruct (earliest_event c' rest) as [ev|]; [|done]. destruct (event_kind ev); [done|..]; by rewrite IH.
Qed.

(** C8: the output filter is total and does not depend on how the stream was cut
    into tokens. For every configuration in which no marker hides inside another,
    and every sequence of tokens, the bytes that [observe] emits, with what
    [flush_pending] returns at the end, and whether a stop was reported, are those
    of the stream as a whole: the text before, between and after reasoning blocks
    up to the leftmost, longest stop marker, and of it the valid UTF-8 part when
    the stream stopped or ended in a block. The held-back prefixes change nothing,
    and no slice is out of range. *)
Theorem filter_chunk_invariant config chunks : clean config →
  filter_stream config chunks = Ok (delivered config (concat chunks)).
Proof.
  intros Hclean. set (c := filter_config (EosFilter_new config)). set (start := strip_think config && started_in_think config).
  assert (clean c) as Hc. { intros a ka b kb i Ha Hb. apply (new_markers config) in Ha, Hb. exact (Hclean a ka b kb i Ha Hb). }
  assert (run_inv c start [] [] false (EosFilter_new config)) as H0.
  { split; [done|]. cbn [EosFilter_new filter_state fresh_state]. assert (quiet c (fresh_state config)) as Hq.
    { unfold quiet. cbn [fresh_state in_think remaining]. change (remaining (fresh_state config)) with (@nil Z). destruct (_ && _); [done|].
      destruct (earliest_event c []) as [ev|] eqn:E; [|done]. apply event_bounds in E. cbn in E. lia. }
    split; [split; [done|cbn; lia]|]. split; [exact Hq|]. split; [done|]. split; [done|]. intros y. by rewrite prepend_nil. }
  unfold filter_stream. destruct (observe_run c Hc start chunks [] [] false _ H0) as (f & l & -> & H1). cbn [mbind result_bind app orb] in *.
  destruct (flush_end c start _ _ _ _ H1) as (f' & tail & -> & H2). cbn [mbind result_bind]. f_equal. rewrite H2. unfold delivered. fold start.
  by rewrite (reading_same c config start _ (new_markers config)).
Qed.

(** ** Concrete streams *)

Definition clean_check (c : EosFilterConfig) : bool :=
  forallb (λ '(a, ka), forallb (λ '(b, kb), forallb (λ i,
    negb (bool_decide (take (length b) (drop i a) = b) && bool_decide (i + length b < length a)) ||
    (bool_decide (i = 0) && bool_decide (ka = StopEvent) && bool_decide (kb = StopEvent))) (seq 0 (S (length a)))) (markers c)) (markers c).

Lemma clean_check_sound c : clean_check c = true → clean c.
Proof.
  intros H a ka b kb i Ha Hb Ho Hl. unfold clean_check in H. rewrite forallb_forall in H. apply list_elem_of_In in Ha, Hb.
  specialize (H _ Ha). cbn beta iota in H. rewrite forallb_forall in H. specialize (H _ Hb). cbn beta iota in H. rewrite forallb_forall in H.
  specialize (H i). apply occurs_take in Ho. rewrite (bool_decide_eq_true_2 (take _ _ = b)) in H by done. rewrite (bool_decide_eq_true_2 (i + _ < _)) in H by done.
  cbn [negb andb orb] in H. specialize (H ltac:(apply in_seq; lia)). by apply andb_true_iff in H as [[?%bool_decide_eq_true ?%bool_decide_eq_true]%andb_true_iff ?%bool_decide_eq_true].
Qed.

(** The filter of the Qwen models, stripping reasoning. *)
Definition qwen_config : EosFilterConfig :=
  mkEosFilterConfig true false [str_bytes "<|im_end|>"; str_bytes "<|endoftext|>"] [].

(** "Hi", a reasoning block cut in the middle of both of its markers, an
    e-acute cut between its bytes, and a stop marker. *)
Lemma filter_chunk_invariant_witness :
  filter_stream qwen_config [str_bytes "Hi<thi"; str_bytes "nk>hm</t"; str_bytes "hink> "; [0xC3]%Z; [0xA9]%Z; str_bytes "<|im_"; str_bytes "end|>x"] =
    Ok (str_bytes "Hi " ++ [0xC3; 0xA9]%Z, true).
Proof.
  rewrite filter_chunk_invariant; [vm_compute; reflexivity|]. apply clean_check_sound. vm_compute. reflexivity.
Defined.

(** Two streams on which the filter does not do what its documentation says. A
    closing tag in the middle of an opening tag is dropped as an orphan, and the
    opening tag it leaves behind is emitted, although reasoning is stripped and
    the literal tags are documented never to be emitted. And prose behind a byte
    that is not UTF-8 is lost when a stop marker follows, although it is emitted
    when none does. *)
Example filter_surprises :
  filter_stream qwen_config [str_bytes "a<th</think>ink>b"] = Ok (str_bytes "a<think>b", false) ∧
  filter_stream qwen_config [str_bytes "a"; [0xFF]%Z; str_bytes "bcd"] = Ok (str_bytes "a" ++ [0xFF]%Z ++ str_bytes "bcd", false) ∧
  filter_stream qwen_config [str_bytes "a"; [0xFF]%Z; str_bytes "bcd<|im_end|>"] = Ok (str_bytes "a", true).
Proof. vm_compute. repeat split. Qed.
