(* ===== verification/KvAdaptive.v ===== *)
(** Adaptive precision of the key-value cache
    (src/crates/hipfire-runtime/src/kv_adaptive.rs, and [VMode] of llama.rs).

    Both caches start at a high precision in buffers that are sized for a low one,
    and are re-quantised in steps before they overflow. How a transcoding step on
    the device ends is an argument. Sizes are [nat]; a division by zero panics.

    Proved here: at every point of every run, the next chunk fits into both
    buffers at their current precision; the eviction gate opens only at the floor;
    a failed transcoding poisons the controller for good. *)

From S2P Require Import Prelude.

Inductive KMode : Type := Fwht4 | Fwht3 | Fwht2.
Inductive VMode : Type := Q8 | Lloyd2 | Lloyd3 | Lloyd4.
#[export] Instance KMode_eq_dec : EqDecision KMode.
Proof. solve_decision. Defined.
#[export] Instance VMode_eq_dec : EqDecision VMode.
Proof. solve_decision. Defined.

(** [KMode::bytes_per_head], [KMode::bits], [KMode::rot_width], [VMode::bits] *)
Definition k_bytes_per_head (k : KMode) (head_dim : nat) : nat :=
  match k with
  | Fwht4 => 4 + head_dim / 2
  | Fwht3 => 4 + head_dim * 3 / 8
  | Fwht2 => 4 + head_dim / 4
  end.
Definition KMode_rot_width (k : KMode) : nat := match k with Fwht3 => 256 | _ => 128 end.
Definition KMode_bits (k : KMode) : nat := match k with Fwht4 => 4 | Fwht3 => 3 | Fwht2 => 2 end.
Definition VMode_bits (v : VMode) : nat := match v with Q8 => 8 | Lloyd2 => 2 | Lloyd3 => 3 | Lloyd4 => 4 end.

Definition v_bytes_per_head (v : VMode) (head_dim : nat) : nat :=
  match v with
  | Q8 => head_dim / 32 * 34
  | _ => 4 + head_dim * VMode_bits v / 8
  end.

Definition k_buf_bytes_per_layer (max_seq n_kv_heads head_dim : nat) (k_floor : KMode) : nat :=
  max_seq * n_kv_heads * k_bytes_per_head k_floor head_dim.
Definition v_buf_bytes_per_layer (max_seq n_kv_heads head_dim : nat) (v_floor : VMode) : nat :=
  max_seq * n_kv_heads * v_bytes_per_head v_floor head_dim.

(** The answer of code that can only panic. *)
Definition total : Type → Type := result Empty_set.

Definition divide (a b : nat) : total nat := assert (bool_decide (b ≠ 0)) ;; Ok (a / b).

(** [cap_min] *)
Definition cap_min (max_seq head_dim : nat) (k_floor : KMode) (v_floor : VMode) (cur_k : KMode) (cur_v : VMode) : total nat :=
  k_cap ← divide (max_seq * k_bytes_per_head k_floor head_dim) (k_bytes_per_head cur_k head_dim);
  v_cap ← divide (max_seq * v_bytes_per_head v_floor head_dim) (v_bytes_per_head cur_v head_dim);
  Ok (Nat.min k_cap v_cap).

Inductive Step : Type := StepV (v : VMode) | StepK (k : KMode).
Inductive Preset : Type := Conservative | Balanced | Aggressive.

Record KvAdaptive := mkKvAdaptive {
  n_kv_heads : nat;
  head_dim : nat;
  max_seq : nat;
  k_floor : KMode;
  v_floor : VMode;
  cur_k : KMode;
  cur_v : VMode;
  steps : list Step;
  next_step : nat;
  thresholds : list nat;
  margin : nat;
  (** [poisoned] and [poison_reason]: the step and position that failed *)
  poison_reason : option (option (nat * Step));
  handoff_at : option nat;
  (** the value of the shared gate *)
  eviction_ready : option bool }.

Definition is_poisoned (a : KvAdaptive) : bool := match poison_reason a with Some _ => true | None => false end.

(** [balanced_steps] *)
Definition balanced_steps (kf : KMode) (vf : VMode) : list Step :=
  (match vf with Q8 => [] | _ => [StepV Lloyd4] end) ++
  (match vf with Lloyd3 | Lloyd2 => [StepV Lloyd3] | _ => [] end) ++
  (match kf with Fwht2 => [StepK Fwht2] | Fwht3 => [StepK Fwht3] | Fwht4 => [] end) ++
  (match vf with Lloyd2 => [StepV Lloyd2] | _ => [] end).

(** The tiers after a step. *)
Definition shift (tiers : KMode * VMode) (st : Step) : KMode * VMode :=
  match st with StepV nv => (tiers.1, nv) | StepK nk => (nk, tiers.2) end.

(** [recompute_thresholds] *)
Fixpoint thresholds_from (ms hd mg : nat) (kf : KMode) (vf : VMode) (tiers : KMode * VMode) (sts : list Step) : total (list nat) :=
  match sts with
  | [] => Ok []
  | st :: sts =>
      cap ← cap_min ms hd kf vf tiers.1 tiers.2;
      rest ← thresholds_from ms hd mg kf vf (shift tiers st) sts;
      Ok ((cap - mg) :: rest)
  end.

(** [KvAdaptive::new] *)
Definition KvAdaptive_new (ms nkv hd : nat) (kf : KMode) (vf : VMode) : total KvAdaptive :=
  let sts := balanced_steps kf vf in
  ts ← thresholds_from ms hd PREFILL_MAX_BATCH kf vf (Fwht4, Q8) sts;
  Ok (mkKvAdaptive nkv hd ms kf vf Fwht4 Q8 sts 0 ts PREFILL_MAX_BATCH None None None).

(** [KvAdaptive::from_preset] *)
Definition preset_floors (p : Preset) : KMode * VMode :=
  match p with Conservative => (Fwht4, Lloyd4) | Balanced => (Fwht3, Lloyd3) | Aggressive => (Fwht2, Lloyd2) end.
Definition KvAdaptive_from_preset (p : Preset) (ms nkv hd : nat) : total KvAdaptive :=
  KvAdaptive_new ms nkv hd (preset_floors p).1 (preset_floors p).2.

(** [current_cap] *)
Definition current_cap (a : KvAdaptive) : total nat :=
  cap_min (max_seq a) (head_dim a) (k_floor a) (v_floor a) (cur_k a) (cur_v a).

Definition set_tiers (a : KvAdaptive) (tiers : KMode * VMode) (n : nat) : KvAdaptive :=
  mkKvAdaptive (n_kv_heads a) (head_dim a) (max_seq a) (k_floor a) (v_floor a) tiers.1 tiers.2 (steps a) n (thresholds a) (margin a)
    (poison_reason a) (handoff_at a) (eviction_ready a).
Definition set_gate (a : KvAdaptive) (at_ : option nat) (gate : option bool) : KvAdaptive :=
  mkKvAdaptive (n_kv_heads a) (head_dim a) (max_seq a) (k_floor a) (v_floor a) (cur_k a) (cur_v a) (steps a) (next_step a) (thresholds a)
    (margin a) (poison_reason a) at_ gate.
Definition poison (a : KvAdaptive) (reason : option (nat * Step)) : KvAdaptive :=
  mkKvAdaptive (n_kv_heads a) (head_dim a) (max_seq a) (k_floor a) (v_floor a) (cur_k a) (cur_v a) (steps a) (next_step a) (thresholds a)
    (margin a) (Some reason) (handoff_at a) (eviction_ready a).

(** [KvAdaptive::reset] *)
Definition KvAdaptive_reset (a : KvAdaptive) : KvAdaptive :=
  let a := set_tiers a (Fwht4, Q8) 0 in
  set_gate a (handoff_at a) (match eviction_ready a with Some _ => Some false | None => None end).

(** [configure_eviction_handoff], [handoff_complete] *)
Definition configure_eviction_handoff (a : KvAdaptive) (at_ : nat) : KvAdaptive := set_gate a (Some at_) (Some false).
Definition handoff_complete (a : KvAdaptive) : bool := match eviction_ready a with Some ready => ready | None => false end.

Definition handoff_crossed (a : KvAdaptive) (seq_pos : nat) : bool :=
  match handoff_at a with Some at_ => bool_decide (at_ ≤ seq_pos) | None => false end.

(** [thresholds.iter().take_while(..).count()] *)
Fixpoint crossed (seq_pos : nat) (ts : list nat) : nat :=
  match ts with
  | [] => 0
  | t :: ts => if bool_decide (t ≤ seq_pos) then S (crossed seq_pos ts) else 0
  end.

(** [target_step_count] *)
Definition target_step_count (a : KvAdaptive) (seq_pos : nat) : nat :=
  if handoff_crossed a seq_pos then length (steps a) else crossed seq_pos (thresholds a).

Section device.
Context {E : Type}.

Inductive AdaptiveError : Type := Poisoned | Transcode (e : E).

(** How the transcoding kernels of a step at a position end. *)
Context (transcode : Step → nat → option E).

(** The loop of [maybe_downshift]. *)
Fixpoint downshift_loop (fuel : nat) (a : KvAdaptive) (target seq_pos : nat) (applied : list Step)
    : KvAdaptive * result AdaptiveError (list Step) :=
  if bool_decide (next_step a < target) then
    match fuel with
    | O => (a, Panic)
    | S fuel =>
        match steps a !! next_step a with
        | None => (a, Panic)
        | Some st =>
            match transcode st seq_pos with
            | Some e => (poison a (Some (seq_pos, st)), Err (Transcode e))
            | None => downshift_loop fuel (set_tiers a (shift (cur_k a, cur_v a) st) (S (next_step a))) target seq_pos (applied ++ [st])
            end
        end
    end
  else (a, Ok applied).

(** [maybe_downshift] *)
Definition maybe_downshift (a : KvAdaptive) (seq_pos : nat) : KvAdaptive * result AdaptiveError (list Step) :=
  if is_poisoned a then (a, Err Poisoned) else
  let target := target_step_count a seq_pos in
  match downshift_loop target a target seq_pos [] with
  | (a, Ok applied) =>
      (if handoff_crossed a seq_pos then set_gate a (handoff_at a) (match eviction_ready a with Some _ => Some true | None => None end) else a,
       Ok applied)
  | r => r
  end.
End device.
Arguments AdaptiveError : clear implicits.

(** ** Runs *)

(** Head sizes the quantisers support: whole groups of 32. *)
Definition head_ok (hd : nat) : Prop := hd ≠ 0 ∧ hd mod 32 = 0.

Lemma head_groups hd : head_ok hd → ∃ n, hd = 32 * S n.
Proof. intros [H0 Hm]. apply Nat.Div0.mod_divides in Hm as [[|n] Hn]; [lia|]. by exists n. Qed.

Lemma k_bytes n k : k_bytes_per_head k (32 * S n) = match k with Fwht4 => 20 + 16 * n | Fwht3 => 16 + 12 * n | Fwht2 => 12 + 8 * n end.
Proof.
  destruct k; cbn [k_bytes_per_head].
  - replace (32 * S n) with ((16 * S n) * 2) by lia. rewrite Nat.div_mul by lia. lia.
  - replace (32 * S n * 3) with ((12 * S n) * 8) by lia. rewrite Nat.div_mul by lia. lia.
  - replace (32 * S n) with ((8 * S n) * 4) by lia. rewrite Nat.div_mul by lia. lia.
Qed.

Lemma v_bytes n v : v_bytes_per_head v (32 * S n) = match v with Q8 => 34 + 34 * n | Lloyd4 => 20 + 16 * n | Lloyd3 => 16 + 12 * n | Lloyd2 => 12 + 8 * n end.
Proof.
  destruct v; cbn [v_bytes_per_head VMode_bits].
  - replace (32 * S n) with (S n * 32) by lia. rewrite Nat.div_mul by lia. lia.
  - replace (32 * S n * 2) with ((8 * S n) * 8) by lia. rewrite Nat.div_mul by lia. lia.
  - replace (32 * S n * 3) with ((12 * S n) * 8) by lia. rewrite Nat.div_mul by lia. lia.
  - replace (32 * S n * 4) with ((16 * S n) * 8) by lia. rewrite Nat.div_mul by lia. lia.
Qed.

Section adaptive.
Context (ms nkv hd : nat) (kf : KMode) (vf : VMode) (Hhd : head_ok hd).

(** The capacity at given tiers. *)
Definition cap (t : KMode * VMode) : nat :=
  Nat.min (ms * k_bytes_per_head kf hd / k_bytes_per_head t.1 hd) (ms * v_bytes_per_head vf hd / v_bytes_per_head t.2 hd).

Lemma cap_min_Ok t : cap_min ms hd kf vf t.1 t.2 = Ok (cap t).
Proof using Hhd.
  destruct (head_groups hd Hhd) as [n Hn]. unfold cap_min, divide. rewrite !bool_decide_eq_true_2; [done| |].
  - rewrite Hn, k_bytes. destruct t.1; lia.
  - rewrite Hn, v_bytes. destruct t.2; lia.
Qed.

Definition start : KMode * VMode := (Fwht4, Q8).
Definition tiers_after (n : nat) : KMode * VMode := foldl shift start (take n (balanced_steps kf vf)).

Lemma thresholds_at sts : ∀ t mg, ∃ ts, thresholds_from ms hd mg kf vf t sts = Ok ts ∧ length ts = length sts ∧
  ∀ i, i < length sts → ts !! i = Some (cap (foldl shift t (take i sts)) - mg).
Proof using Hhd.
  induction sts as [|st sts IH]; intros t mg; cbn [thresholds_from]; [exists []; split; [done|]; split; [done|intros i Hi; cbn in Hi; lia]|].
  rewrite cap_min_Ok. cbn [mbind result_bind]. destruct (IH (shift t st) mg) as (ts & -> & Hl & Hts). cbn [mbind result_bind].
  exists ((cap t - mg) :: ts). split; [done|]. split; [cbn; lia|]. intros [|i] Hi; [done|]. cbn in *. apply Hts. lia.
Qed.

(** Steps never cost capacity, and the last one reaches the floors. *)
Lemma cap_mono i j : i ≤ j → cap (tiers_after i) ≤ cap (tiers_after j).
Proof using Hhd.
  assert (∀ i, cap (tiers_after i) ≤ cap (tiers_after (S i))) as Hs.
  { destruct (head_groups hd Hhd) as [n Hn]. intros m. unfold cap, tiers_after. rewrite Hn, !k_bytes, !v_bytes.
    apply Nat.min_le_compat; apply Nat.div_le_compat_l; clear; destruct kf, vf, m as [|[|[|[|[|m]]]]]; cbn; lia. }
  intros Hij. induction Hij as [|j Hij IH]; [done|]. etransitivity; [exact IH|apply Hs].
Qed.

Lemma tiers_end : tiers_after (length (balanced_steps kf vf)) = (kf, vf).
Proof using Type. clear. unfold tiers_after. rewrite firstn_all. by destruct kf, vf. Qed.

Lemma cap_end : cap (tiers_after (length (balanced_steps kf vf))) = ms.
Proof using Hhd.
  rewrite tiers_end. destruct (head_groups hd Hhd) as [n Hn]. unfold cap. cbn [fst snd]. rewrite !Nat.div_mul; [lia| |].
  - rewrite Hn, v_bytes. destruct vf; lia.
  - rewrite Hn, k_bytes. destruct kf; lia.
Qed.

(** The controller of this model at a step. *)
Record on_ladder (a : KvAdaptive) : Prop := {
  ol_dims : n_kv_heads a = nkv ∧ head_dim a = hd ∧ max_seq a = ms ∧ k_floor a = kf ∧ v_floor a = vf;
  ol_steps : steps a = balanced_steps kf vf;
  ol_next : next_step a ≤ length (steps a);
  ol_tiers : (cur_k a, cur_v a) = tiers_after (next_step a);
  ol_margin : margin a = PREFILL_MAX_BATCH;
  ol_thresholds i : i < length (steps a) → thresholds a !! i = Some (cap (tiers_after i) - PREFILL_MAX_BATCH);
  ol_count : length (thresholds a) = length (steps a);
  ol_gate : handoff_complete a = true → next_step a = length (steps a) }.

Lemma new_on_ladder a : KvAdaptive_new ms nkv hd kf vf = Ok a → on_ladder a ∧ is_poisoned a = false ∧ next_step a = 0.
Proof using Hhd.
  unfold KvAdaptive_new. destruct (thresholds_at (balanced_steps kf vf) (Fwht4, Q8) PREFILL_MAX_BATCH) as (ts & -> & Hl & Hts). cbn [mbind result_bind].
  intros [= <-]. split; [|done]. split; cbn; try done; try lia.
Qed.

Lemma crossed_le p ts : crossed p ts ≤ length ts ∧ ∀ t, ts !! crossed p ts = Some t → p < t.
Proof using Type.
  clear. induction ts as [|t ts [IH1 IH2]]; cbn; [split; [lia|done]|]. case_bool_decide as Ht; [split; [cbn; lia|exact IH2]|].
  split; [lia|]. intros t' [= <-]. lia.
Qed.

Lemma target_le a p : on_ladder a → target_step_count a p ≤ length (steps a).
Proof using Type.
  intros H. unfold target_step_count. destruct (handoff_crossed a p); [done|]. rewrite <- (ol_count _ H). apply crossed_le.
Qed.

Section device.
Context {E : Type} (transcode : Step → nat → option E).

(** The loop stops at the target, or where a step failed. *)
Lemma loop_spec fuel : ∀ a target p applied, on_ladder a → target ≤ length (steps a) → target - next_step a ≤ fuel →
  match downshift_loop transcode fuel a target p applied with
  | (a', Ok l) => on_ladder a' ∧ next_step a' = Nat.max (next_step a) target ∧ handoff_at a' = handoff_at a ∧ eviction_ready a' = eviction_ready a ∧
      is_poisoned a' = is_poisoned a ∧ l = applied ++ drop (next_step a) (take target (steps a))
  | (a', Err e) => is_poisoned a' = true ∧ on_ladder a' ∧ ∃ st e', e = Transcode e' ∧ transcode st p = Some e' ∧ steps a !! next_step a' = Some st
  | (_, Panic) => False
  end.
Proof using Type.
  induction fuel as [|fuel IH]; intros a target p applied Ha Ht Hf; cbn [downshift_loop].
  - rewrite bool_decide_eq_false_2 by lia. split; [done|]. split; [lia|]. do 3 (split; [done|]). rewrite drop_ge, app_nil_r; [done|rewrite length_take; lia].
  - case_bool_decide as Hlt.
    2:{ split; [done|]. split; [lia|]. do 3 (split; [done|]). rewrite drop_ge, app_nil_r; [done|rewrite length_take; lia]. }
    destruct (lookup_lt_is_Some_2 (steps a) (next_step a)) as [st Hst]; [lia|]. rewrite Hst. destruct (transcode st p) as [e|] eqn:He.
    + split; [done|]. split; [|by exists st, e]. destruct Ha as [H1 H2 H3 H4 H5 H6 H7 H8]. by split.
    + set (a1 := set_tiers a (shift (cur_k a, cur_v a) st) (S (next_step a))).
      assert (on_ladder a1) as Ha1.
      { destruct Ha as [H1 H2 H3 H4 H5 H6 H7 H8]. split; cbn [a1 set_tiers n_kv_heads head_dim max_seq k_floor v_floor steps next_step margin thresholds cur_k cur_v]; [done|done|lia| |done|done|done|].
        - destruct (shift (cur_k a, cur_v a) st) as [k v] eqn:Hsh. cbn. rewrite <- Hsh, H4. unfold tiers_after. rewrite H2 in Hst. by rewrite (take_S_r _ _ _ Hst), foldl_snoc.
        - intros Hg. specialize (H8 Hg). lia. }
      specialize (IH a1 target p (applied ++ [st]) Ha1 ltac:(done) ltac:(cbn; lia)). cbn [a1 set_tiers next_step steps handoff_at eviction_ready] in IH.
      fold a1 in IH. destruct (downshift_loop transcode fuel a1 target p (applied ++ [st])) as [a' [l|e|]].
      * destruct IH as (I1 & I2 & I3 & I4 & I5 & ->). split; [done|]. split; [lia|]. do 3 (split; [done|]). rewrite <- app_assoc. f_equal.
        symmetry. apply drop_S. rewrite lookup_take_lt by lia. done.
      * destruct IH as (I1 & I2 & I3). done.
      * done.
Qed.

(** A run: chunks of at most a prefill batch, a downshift after each one. *)
Inductive reach : KvAdaptive → nat → Prop :=
| reach_start a : KvAdaptive_new ms nkv hd kf vf = Ok a → reach a 0
| reach_chunk a p n a' l : reach a p → n ≤ PREFILL_MAX_BATCH → p + n ≤ ms → maybe_downshift transcode a (p + n) = (a', Ok l) → reach a' (p + n)
| reach_handoff a p at_ : reach a p → reach (configure_eviction_handoff a at_) p
| reach_reset a p : reach a p → reach (KvAdaptive_reset a) 0.

Context (Hstart : PREFILL_MAX_BATCH ≤ cap start).

Lemma reach_inv a p : reach a p → on_ladder a ∧ (p + PREFILL_MAX_BATCH ≤ cap (tiers_after (next_step a)) ∨ next_step a = length (steps a)).
Proof using Hhd Hstart.
  induction 1 as [a Hn|a p n a' l _ [IH _] Hle Hms Hd|a p at_ _ [IH IHc]|a p _ [IH _]].
  - apply new_on_ladder in Hn as (Hl & _ & H0). split; [done|]. left. rewrite H0. exact Hstart.
  - unfold maybe_downshift in Hd. destruct (is_poisoned a); [done|]. pose proof (target_le a (p + n) IH) as Ht.
    pose proof (loop_spec (target_step_count a (p + n)) a (target_step_count a (p + n)) (p + n) [] IH Ht ltac:(lia)) as Hs.
    destruct (downshift_loop _ _ a _ _ _) as [a1 [l1|e|]]; [|done..]. destruct Hs as (Ha1 & Hn1 & Hh & Hg & _ & _). injection Hd as <- <-.
    assert (p + n + PREFILL_MAX_BATCH ≤ cap (tiers_after (next_step a1)) ∨ next_step a1 = length (steps a1)) as Hcap.
    { rewrite (ol_steps _ Ha1), <- (ol_steps _ IH), Hn1. unfold target_step_count in *. destruct (handoff_crossed a (p + n)).
      - right. pose proof (ol_next _ IH). lia.
      - destruct (crossed_le (p + n) (thresholds a)) as [Hc1 Hc2]. set (k := crossed (p + n) (thresholds a)) in *. destruct (decide (k < length (steps a))) as [Hk|Hk].
        + left. specialize (Hc2 _ (ol_thresholds _ IH k Hk)). etransitivity; [|apply (cap_mono k); lia]. lia.
        + right. pose proof (ol_next _ IH). lia. }
    assert (handoff_crossed a1 (p + n) = true → next_step a1 = length (steps a1)) as Hopen.
    { unfold handoff_crossed. rewrite Hh. intros Hx. rewrite Hn1. unfold target_step_count, handoff_crossed. rewrite Hx.
      rewrite (ol_steps _ Ha1), <- (ol_steps _ IH). pose proof (ol_next _ IH). lia. }
    destruct (handoff_crossed a1 (p + n)); [|done]. split; [|exact Hcap]. destruct Ha1 as [H1 H2 H3 H4 H5 H6 H7 H8].
    split; cbn; [done|done|done|done|done|done|done|]. intros _. by apply Hopen.
  - split; [|exact IHc]. destruct IH as [H1 H2 H3 H4 H5 H6 H7 H8]. by split.
  - destruct IH as [H1 H2 H3 H4 H5 H6 H7 H8]. split; [split; cbn; try done; [lia|]|].
    + unfold handoff_complete. cbn. by destruct (eviction_ready a).
    + left. exact Hstart.
Qed.
End device.
End adaptive.

(** C11: the adaptive cache never overflows. Whatever floors were chosen, when a
    prefill batch fits at the start tier, every run of chunks of at most a prefill
    batch, each followed by [maybe_downshift], with resets and eviction hand-offs
    anywhere, leaves room for the next chunk: the positions it would reach stay
    within [current_cap], and their bytes within the key and the value buffer at
    the current precisions. No step panics. The eviction gate is open only when
    both caches are at their floors. A call that fails poisons the controller, and
    a poisoned one refuses without change. *)
Theorem adaptive_never_overflows {E} (transcode : Step → nat → option E) ms nkv hd kf vf a p n :
  head_ok hd → reach ms nkv hd kf vf transcode a p →
  (∃ fresh start_cap, KvAdaptive_new ms nkv hd kf vf = Ok fresh ∧ current_cap fresh = Ok start_cap ∧ PREFILL_MAX_BATCH ≤ start_cap) →
  n ≤ PREFILL_MAX_BATCH → p + n ≤ ms →
  (∃ room, current_cap a = Ok room ∧ p + n ≤ room) ∧
  (p + n) * nkv * k_bytes_per_head (cur_k a) hd ≤ k_buf_bytes_per_layer ms nkv hd kf ∧
  (p + n) * nkv * v_bytes_per_head (cur_v a) hd ≤ v_buf_bytes_per_layer ms nkv hd vf ∧
  (handoff_complete a = true → cur_k a = kf ∧ cur_v a = vf) ∧
  match maybe_downshift transcode a (p + n) with
  | (a', Ok _) => is_poisoned a' = false
  | (a', Err _) => is_poisoned a' = true ∧ maybe_downshift transcode a' (p + n) = (a', Err Poisoned)
  | (_, Panic) => False
  end.
Proof.
  intros Hhd Hr (fresh & c0 & Hnew & Hc0 & Hle) Hn Hp.
  destruct (new_on_ladder ms nkv hd kf vf Hhd fresh Hnew) as (Hf & _ & Hf0).
  assert (∀ a, on_ladder ms nkv hd kf vf a → current_cap a = Ok (cap ms hd kf vf (tiers_after kf vf (next_step a)))) as Hcc.
  { intros b Hb. unfold current_cap. destruct (ol_dims _ _ _ _ _ _ Hb) as (_ & -> & -> & -> & ->). rewrite <- (ol_tiers _ _ _ _ _ _ Hb). exact (cap_min_Ok ms hd kf vf Hhd (cur_k b, cur_v b)). }
  rewrite (Hcc _ Hf), Hf0 in Hc0. injection Hc0 as <-.
  destruct (reach_inv ms nkv hd kf vf Hhd transcode Hle a p Hr) as [Ha Hroom].
  set (t := tiers_after kf vf (next_step a)) in *. pose proof (ol_tiers _ _ _ _ _ _ Ha) as Htiers. fold t in Htiers.
  assert (p + n ≤ cap ms hd kf vf t) as Hfit.
  { destruct Hroom as [?|Hend]; [lia|]. unfold t. rewrite Hend, (ol_steps _ _ _ _ _ _ Ha), cap_end by done. done. }
  assert (∀ A B, p + n ≤ ms * A / B → (p + n) * nkv * B ≤ ms * nkv * A) as Hbytes.
  { intros A B HAB. destruct (decide (B = 0)) as [->|HB]; [lia|]. assert ((p + n) * B ≤ ms * A); [|nia].
    etransitivity; [apply Nat.mul_le_mono_r, HAB|]. rewrite Nat.mul_comm. by apply Nat.Div0.mul_div_le. }
  assert (t.1 = cur_k a ∧ t.2 = cur_v a) as [Hk Hv] by by rewrite <- Htiers. unfold cap in Hfit. rewrite Hk, Hv in Hfit.
  split; [eexists; split; [by apply Hcc|fold t; unfold cap; rewrite Hk, Hv; done]|]. split; [apply Hbytes; lia|]. split; [apply Hbytes; lia|]. split.
  { intros Hg. pose proof (ol_gate _ _ _ _ _ _ Ha Hg) as Hend. unfold t in Htiers. rewrite Hend, (ol_steps _ _ _ _ _ _ Ha), tiers_end in Htiers. by injection Htiers. }
  unfold maybe_downshift at 1. destruct (is_poisoned a) eqn:Hpo.
  { split; [done|]. unfold maybe_downshift. by rewrite Hpo. }
  pose proof (loop_spec ms nkv hd kf vf transcode _ a _ (p + n) [] Ha (target_le _ _ _ _ _ a (p + n) Ha) (Nat.le_sub_l (target_step_count a (p + n)) (next_step a))) as Hs.
  destruct (downshift_loop _ _ a _ _ _) as [a1 [l1|e|]]; [| |done].
  - destruct Hs as (_ & _ & _ & _ & Hpo1 & _). rewrite Hpo in Hpo1. by destruct (handoff_crossed a1 (p + n)).
  - destruct Hs as (Hpo1 & _). split; [done|]. unfold maybe_downshift. by rewrite Hpo1.
Qed.

(** The aggressive preset for 1024 positions of eight heads: after two chunks of
    200 the keys are at two bits and the values at three. *)
Definition no_failure (st : Step) (p : nat) : option unit := None.
Definition demo_adaptive : KvAdaptive :=
  match KvAdaptive_from_preset Aggressive 1024 8 256 with
  | Ok a => (maybe_downshift no_failure (maybe_downshift no_failure a 200).1 400).1
  | _ => mkKvAdaptive 0 0 0 Fwht4 Q8 Fwht4 Q8 [] 0 [] 0 None None None
  end.

Lemma demo_reach ms p q a b c la lb : KvAdaptive_new ms 8 256 Fwht2 Lloyd2 = Ok a → p ≤ PREFILL_MAX_BATCH → q ≤ PREFILL_MAX_BATCH → p + q ≤ ms →
  maybe_downshift no_failure a p = (b, Ok la) → maybe_downshift no_failure b (p + q) = (c, Ok lb) → reach ms 8 256 Fwht2 Lloyd2 no_failure c (p + q).
Proof.
  intros Ha Hp Hq Hs Hb Hc. eapply (reach_chunk _ _ _ _ _ _ b p q); [|done|done|exact Hc]. apply (reach_chunk _ _ _ _ _ _ a 0 p b la); [by apply reach_start|done|lia|exact Hb].
Qed.

Lemma adaptive_never_overflows_witness : cur_k demo_adaptive = Fwht2 ∧ cur_v demo_adaptive = Lloyd3 ∧
  (400 + 256) * 8 * v_bytes_per_head (cur_v demo_adaptive) 256 ≤ v_buf_bytes_per_layer 1024 8 256 Lloyd2.
Proof.
  assert (cur_k demo_adaptive = Fwht2 ∧ cur_v demo_adaptive = Lloyd3) as [H1 H2] by (vm_compute; done). split; [exact H1|]. split; [exact H2|].
  assert (head_ok 256) as Hh by (split; [lia|reflexivity]).
  assert (reach 1024 8 256 Fwht2 Lloyd2 no_failure demo_adaptive 400) as Hr.
  { eapply (demo_reach 1024 200 200); [vm_compute; reflexivity|apply Nat.leb_le; reflexivity|apply Nat.leb_le; reflexivity|lia|vm_compute; reflexivity|vm_compute; reflexivity]. }
  assert (256 ≤ PREFILL_MAX_BATCH ∧ 400 + 256 ≤ 1024) as [Hn Hp] by (split; apply Nat.leb_le; reflexivity).
  destruct (adaptive_never_overflows no_failure 1024 8 256 Fwht2 Lloyd2 demo_adaptive 400 256 Hh Hr) as (_ & _ & H & _); [|exact Hn|exact Hp|exact H].
  eexists _, _. split; [vm_compute; reflexivity|]. split; [vm_compute; reflexivity|]. apply Nat.leb_le. reflexivity.
Defined.
