(* ===== verification/Shard.v ===== *)
(** Tensor-parallel shards (src/crates/hipfire-runtime/src/tp_shard.rs).

    Which heads, rows, columns and experts a rank owns. Counts are [nat], ranges
    half-open pairs, the rank of an expert is stored as a byte ([as u8] drops the
    higher bits).

    Proved here: the experts, query heads, value heads and weight rows are
    partitioned exactly and evenly, a query head finds its key-value head and a
    value head its key head on the same rank. *)

From S2P Require Import Prelude.

Inductive ExpertAssign : Type := Contiguous | Stride.
#[export] Instance ExpertAssign_eq_dec : EqDecision ExpertAssign.
Proof. solve_decision. Defined.

Inductive ShardError : Type :=
| ZeroRanks
| UnevenExperts (n_experts tp_size : nat)
| HeadsNotDivisible (n_heads tp_size : nat)
| KvHeadsNotDivisible (n_kv_heads tp_size : nat)
| RatioUndefined (n_value_heads n_key_heads : nat)
| RatioSplit (local_ratio ratio : nat)
| AssignmentLength (actual n_experts : nat)
| InvalidRank (expert : nat) (owner : Z).

Record ShardConfig := mkShardConfig {
  tp_size : nat;
  tp_kv_replicate : bool;
  expert_to_rank : list Z }.

Definition Range : Type := nat * nat.
Definition in_range (r : Range) (x : nat) : Prop := r.1 ≤ x < r.2.
#[export] Instance in_range_dec r x : Decision (in_range r x).
Proof. unfold in_range. apply _. Defined.

(** [ShardConfig::single], [is_single] *)
Definition ShardConfig_single : ShardConfig := mkShardConfig 1 false [].
Definition is_single (c : ShardConfig) : bool := bool_decide (tp_size c = 1).

(** [balanced_range] *)
Definition balanced_range (rank parts total : nat) : result ShardError Range :=
  assert (bool_decide (0 < parts)) ;;
  assert (bool_decide (rank < parts)) ;;
  let base := total / parts in
  let remainder := total mod parts in
  let start := rank * base + Nat.min rank remainder in
  let len := base + (if bool_decide (rank < remainder) then 1 else 0) in
  Ok (start, start + len).

(** [(0..tp_size).find(..)] *)
Fixpoint find_rank (ranks : list nat) (parts total e : nat) : result ShardError (option nat) :=
  match ranks with
  | [] => Ok None
  | rank :: ranks =>
      range ← balanced_range rank parts total;
      if bool_decide (in_range range e) then Ok (Some rank) else find_rank ranks parts total e
  end.

(** The rank of an expert. *)
Definition assign_rank (assign : ExpertAssign) (tp n e : nat) : result ShardError Z :=
  rank ← match assign with
         | Contiguous => r ← find_rank (seq 0 tp) tp n e; expect r
         | Stride => Ok (e mod tp)
         end;
  Ok (Z.of_nat rank mod 256)%Z.

(** [ShardConfig::build], [new], [new_uneven_experts] *)
Definition ShardConfig_build (tp : nat) (replicate : bool) (n : nat) (assign : ExpertAssign) (uneven : bool)
    : result ShardError ShardConfig :=
  err_if (bool_decide (tp = 0)) ZeroRanks ;;
  experts ← (if bool_decide (n = 0) then Ok [] else
    err_if (negb uneven && negb (bool_decide (n mod tp = 0))) (UnevenExperts n tp) ;;
    try_map (assign_rank assign tp n) (seq 0 n));
  Ok (mkShardConfig tp replicate experts).
Definition ShardConfig_new tp replicate n assign := ShardConfig_build tp replicate n assign false.
Definition ShardConfig_new_uneven tp replicate n assign := ShardConfig_build tp replicate n assign true.

(** [validate] *)
Definition Shard_validate (c : ShardConfig) (n_heads n_kv_heads : nat) : result ShardError unit :=
  err_if (negb (bool_decide (n_heads mod tp_size c = 0))) (HeadsNotDivisible n_heads (tp_size c)) ;;
  if tp_kv_replicate c then Ok tt else
  err_if (bool_decide (n_kv_heads = 0) || negb (bool_decide (n_kv_heads mod tp_size c = 0))) (KvHeadsNotDivisible n_kv_heads (tp_size c)).

Definition q_heads_per_rank (c : ShardConfig) (n_heads : nat) : nat := n_heads / tp_size c.
Definition kv_heads_per_rank (c : ShardConfig) (n_kv_heads : nat) : nat :=
  if tp_kv_replicate c then n_kv_heads else n_kv_heads / tp_size c.

Definition q_head_range (c : ShardConfig) (rank n_heads : nat) : Range :=
  let hpr := q_heads_per_rank c n_heads in (rank * hpr, (rank + 1) * hpr).
Definition kv_head_range (c : ShardConfig) (rank n_kv_heads : nat) : Range :=
  if tp_kv_replicate c then (0, n_kv_heads) else
  let kpr := n_kv_heads / tp_size c in (rank * kpr, (rank + 1) * kpr).

(** [validate_deltanet] *)
Definition validate_deltanet (c : ShardConfig) (n_value_heads n_key_heads : nat) : result ShardError unit :=
  err_if (negb (bool_decide (n_value_heads mod tp_size c = 0))) (HeadsNotDivisible n_value_heads (tp_size c)) ;;
  err_if (bool_decide (n_key_heads = 0) || negb (bool_decide (n_key_heads mod tp_size c = 0))) (KvHeadsNotDivisible n_key_heads (tp_size c)) ;;
  err_if (negb (bool_decide (n_value_heads mod n_key_heads = 0))) (RatioUndefined n_value_heads n_key_heads) ;;
  let ratio := n_value_heads / n_key_heads in
  let local_ratio := (n_value_heads / tp_size c) / (n_key_heads / tp_size c) in
  err_if (negb (bool_decide (local_ratio = ratio))) (RatioSplit local_ratio ratio).

Definition dn_value_heads_per_rank (c : ShardConfig) (n : nat) : nat := n / tp_size c.
Definition dn_key_heads_per_rank (c : ShardConfig) (n : nat) : nat := n / tp_size c.
Definition dn_value_head_range (c : ShardConfig) (rank n : nat) : Range := let vpr := n / tp_size c in (rank * vpr, (rank + 1) * vpr).
Definition dn_key_head_range (c : ShardConfig) (rank n : nat) : Range := let kpr := n / tp_size c in (rank * kpr, (rank + 1) * kpr).

Definition usize_div_ceil (a b : nat) : nat := a / b + (if bool_decide (a mod b = 0) then 0 else 1).

(** [experts_per_rank] *)
Definition experts_per_rank (c : ShardConfig) (n_experts : nat) : nat :=
  if bool_decide (expert_to_rank c = []) then n_experts else usize_div_ceil n_experts (tp_size c).

(** [validate_moe] *)
Definition validate_moe (c : ShardConfig) (n_experts : nat) : result ShardError unit :=
  err_if (negb (bool_decide (length (expert_to_rank c) = n_experts))) (AssignmentLength (length (expert_to_rank c)) n_experts) ;;
  match list_find (λ owner, Z.of_nat (tp_size c) ≤ owner)%Z (expert_to_rank c) with
  | Some (expert, owner) => Err (InvalidRank expert owner)
  | None => Ok tt
  end.

Definition wq_row_range (c : ShardConfig) (rank n_heads head_dim : nat) : Range :=
  let hpr := q_heads_per_rank c n_heads in
  let block := 2 * head_dim in
  (rank * hpr * block, (rank + 1) * hpr * block).
Definition wo_col_range (c : ShardConfig) (rank n_heads head_dim : nat) : Range :=
  let hpr := q_heads_per_rank c n_heads in (rank * hpr * head_dim, (rank + 1) * hpr * head_dim).

(** [owns_expert], [experts_on_rank] *)
Definition owns_expert (c : ShardConfig) (rank e : nat) : bool :=
  match expert_to_rank c !! e with Some r => (r =? Z.of_nat rank)%Z | None => false end.
Definition experts_on_rank (c : ShardConfig) (rank : nat) : list nat :=
  omap (λ '(e, r), if (r =? Z.of_nat rank)%Z then Some e else None) (enumerate (expert_to_rank c)).

(** ** Experts *)

(** The rank an expert is meant for. *)
Definition range_start (parts total rank : nat) : nat := rank * (total / parts) + Nat.min rank (total mod parts).

Lemma balanced_range_Ok rank parts total : rank < parts → balanced_range rank parts total = Ok (range_start parts total rank, range_start parts total (S rank)).
Proof.
  intros H. unfold balanced_range. rewrite (bool_decide_eq_true_2 (0 < parts)), (bool_decide_eq_true_2 (rank < parts)) by lia. cbn [assert mbind result_bind]. unfold range_start. do 2 f_equal.
  case_bool_decide; rewrite ?Nat.mul_succ_l; lia.
Qed.

Lemma range_start_end parts total : parts ≠ 0 → range_start parts total parts = total.
Proof.
  intros H. unfold range_start. pose proof (Nat.div_mod_eq total parts). pose proof (Nat.mod_upper_bound total parts H). rewrite Nat.min_r; lia.
Qed.

Lemma range_start_mono parts total i j : i ≤ j → range_start parts total i ≤ range_start parts total j.
Proof. intros H. unfold range_start. apply Nat.add_le_mono; [apply Nat.mul_le_mono_r; done|lia]. Qed.

Lemma find_rank_Ok parts total e r : r < parts → range_start parts total r ≤ e < range_start parts total (S r) →
  ∀ n k, k ≤ r < k + n → k + n ≤ parts → find_rank (seq k n) parts total e = Ok (Some r).
Proof.
  intros Hr He. induction n as [|n IH]; intros k Hk Hn; [lia|]. cbn [seq find_rank]. rewrite balanced_range_Ok by lia. cbn [mbind result_bind].
  case_bool_decide as Hin; unfold in_range in Hin; cbn [fst snd] in Hin.
  - assert (k = r) as ->; [|done]. destruct (Nat.lt_trichotomy k r) as [Hlt|[?|?]]; [|done|lia].
    pose proof (range_start_mono parts total (S k) r Hlt). lia.
  - apply IH; [|lia]. destruct (decide (k = r)) as [->|]; [tauto|lia].
Qed.

Lemma rank_exists parts total e : parts ≠ 0 → e < total → ∃ r, r < parts ∧ range_start parts total r ≤ e < range_start parts total (S r).
Proof.
  intros Hp He. assert (∀ n, e < range_start parts total n → ∃ r, r < n ∧ range_start parts total r ≤ e < range_start parts total (S r)) as H.
  { induction n as [|n IH]; intros Hn; [unfold range_start in Hn; lia|]. destruct (decide (range_start parts total n ≤ e)); [exists n; lia|].
    destruct IH as (r & ? & ?); [lia|]. exists r. lia. }
  apply H. by rewrite range_start_end.
Qed.

Lemma assign_rank_Ok assign tp n e : tp ≠ 0 → tp ≤ 256 → e < n → ∃ r, r < tp ∧ assign_rank assign tp n e = Ok (Z.of_nat r) ∧
  match assign with Contiguous => range_start tp n r ≤ e < range_start tp n (S r) | Stride => r = e mod tp end.
Proof.
  intros Htp Hle He. unfold assign_rank. destruct assign.
  - destruct (rank_exists tp n e Htp He) as (r & Hr & Hin). exists r. split; [done|]. rewrite (find_rank_Ok tp n e r Hr Hin tp 0) by lia. cbn [mbind result_bind expect].
    split; [|done]. f_equal. apply Z.mod_small. lia.
  - exists (e mod tp). pose proof (Nat.mod_upper_bound e tp Htp). split; [done|]. cbn [mbind result_bind]. split; [|done]. f_equal. apply Z.mod_small. lia.
Qed.

(** The experts of a rank among the first [n]. *)
Lemma stride_count tp r n : r < tp → length (filter (λ e, e mod tp = r) (seq 0 n)) = n / tp + (if bool_decide (r < n mod tp) then 1 else 0).
Proof.
  intros Hr. induction n as [|n IH]; [by rewrite Nat.Div0.div_0_l, Nat.Div0.mod_0_l|]. rewrite seq_S, filter_app, length_app, IH. cbn [Nat.add].
  pose proof (Nat.div_mod_eq n tp) as Hn. pose proof (Nat.mod_upper_bound n tp ltac:(lia)) as Hm. set (q := n / tp) in *. set (m := n mod tp) in *.
  rewrite filter_cons, filter_nil. fold m. destruct (decide (S m = tp)) as [Hs|Hs].
  - assert (S n = S q * tp) as HSn by lia. rewrite HSn, Nat.div_mul, Nat.Div0.mod_mul by lia. destruct (decide (m = r)); cbn; repeat case_bool_decide; lia.
  - assert (S n / tp = q) as -> by (symmetry; apply (Nat.div_unique (S n) tp q (S m)); lia).
    assert (S n mod tp = S m) as -> by (symmetry; apply (Nat.mod_unique (S n) tp q (S m)); lia).
    destruct (decide (m = r)); cbn; repeat case_bool_decide; lia.
Qed.

Lemma range_count n a b : a ≤ b → b ≤ n → filter (λ e, a ≤ e < b) (seq 0 n) = seq a (b - a).
Proof.
  intros Hab Hb. replace n with (a + ((b - a) + (n - b))) by lia. rewrite !seq_app, !filter_app. cbn [Nat.add].
  assert (∀ P `{∀ x, Decision (P x)} (l : list nat), (∀ x, x ∈ l → P x) → filter P l = l) as Hid.
  { intros P HP l. induction l as [|x l IH]; intros H; [done|]. rewrite filter_cons_True by (apply H; left). f_equal. apply IH. intros y Hy. apply H. by right. }
  assert (∀ P `{∀ x, Decision (P x)} (l : list nat), (∀ x, x ∈ l → ¬ P x) → filter P l = []) as Hno.
  { intros P HP l. induction l as [|x l IH]; intros H; [done|]. rewrite filter_cons_False by (apply H; left). apply IH. intros y Hy. apply H. by right. }
  rewrite (Hno _ _ (seq 0 a)), (Hid _ _ (seq a (b - a))), (Hno _ _ (seq (a + (b - a)) (n - b))); [by rewrite app_nil_r| | |];
    intros x Hx; apply elem_of_seq in Hx; lia.
Qed.

(** The assignment as one function of the expert. *)
Lemma try_map_fun {E A B} (f : A → result E B) (g : A → B) l : (∀ x, x ∈ l → f x = Ok (g x)) → try_map f l = Ok (g <$> l).
Proof.
  intros H. apply try_map_Ok. induction l as [|x l IH]; [constructor|]. constructor; [apply H; left|]. apply IH. intros y Hy. apply H. by right.
Qed.

Lemma enumerate_map {B} (g : nat → B) n : enumerate (g <$> seq 0 n) = (λ e, (e, g e)) <$> seq 0 n.
Proof.
  apply list_eq. intros i. unfold enumerate. rewrite list_lookup_imap, !list_lookup_fmap. destruct (seq 0 n !! i) as [e|] eqn:H; [|done].
  apply lookup_seq in H as [-> _]. done.
Qed.

Definition rank_of (assign : ExpertAssign) (tp n e : nat) : nat :=
  match assign_rank assign tp n e with Ok r => Z.to_nat r | _ => 0 end.

Lemma rank_of_exact assign tp n e : tp ≠ 0 → tp ≤ 256 → e < n → assign_rank assign tp n e = Ok (Z.of_nat (rank_of assign tp n e)) ∧ rank_of assign tp n e < tp ∧
  match assign with Contiguous => range_start tp n (rank_of assign tp n e) ≤ e < range_start tp n (S (rank_of assign tp n e)) | Stride => rank_of assign tp n e = e mod tp end.
Proof.
  intros Htp Hle He. destruct (assign_rank_Ok assign tp n e Htp Hle He) as (r & Hr & HOk & Hin). unfold rank_of. rewrite HOk, Nat2Z.id. done.
Qed.

Lemma build_exact tp replicate n assign uneven : tp ≠ 0 → tp ≤ 256 → (uneven = true ∨ n mod tp = 0) →
  ShardConfig_build tp replicate n assign uneven = Ok (mkShardConfig tp replicate ((λ e, Z.of_nat (rank_of assign tp n e)) <$> seq 0 n)).
Proof.
  intros Htp Hle Heven. unfold ShardConfig_build. rewrite (bool_decide_eq_false_2 (tp = 0)) by done. cbn [err_if mbind result_bind].
  case_bool_decide as Hn; [by subst|]. replace (negb uneven && _) with false by (destruct Heven as [->|Hm]; [done|]; by rewrite Hm, andb_false_r).
  cbn [err_if mbind result_bind]. rewrite (try_map_fun _ (λ e, Z.of_nat (rank_of assign tp n e))); [done|].
  intros e He. apply elem_of_seq in He. apply rank_of_exact; lia.
Qed.

Lemma experts_on_rank_eq c f n r : expert_to_rank c = (λ e, Z.of_nat (f e)) <$> seq 0 n → experts_on_rank c r = filter (λ e, f e = r) (seq 0 n).
Proof.
  intros H. unfold experts_on_rank. rewrite H, enumerate_map. generalize (seq 0 n). intros l. induction l as [|e l IH]; [done|].
  cbn [fmap list_fmap omap list_omap]. rewrite filter_cons, <- IH. destruct (Z.eqb_spec (Z.of_nat (f e)) (Z.of_nat r)), (decide (f e = r)); done || lia.
Qed.

Lemma owns_expert_eq c f n r e : expert_to_rank c = (λ e, Z.of_nat (f e)) <$> seq 0 n → owns_expert c r e = true ↔ e < n ∧ f e = r.
Proof.
  intros H. unfold owns_expert. rewrite H, list_lookup_fmap. destruct (decide (e < n)).
  - rewrite lookup_seq_lt by done. cbn. rewrite Z.eqb_eq. lia.
  - rewrite lookup_seq_ge by lia. cbn. split; [done|lia].
Qed.

(** The experts of a rank, in closed form. *)
Definition rank_experts (assign : ExpertAssign) (tp n r : nat) : list nat :=
  match assign with
  | Contiguous => seq (range_start tp n r) (range_start tp n (S r) - range_start tp n r)
  | Stride => filter (λ e, e mod tp = r) (seq 0 n)
  end.

Lemma rank_of_filter assign tp n r : tp ≠ 0 → tp ≤ 256 → r < tp → filter (λ e, rank_of assign tp n e = r) (seq 0 n) = rank_experts assign tp n r.
Proof.
  intros Htp Hle Hr. destruct assign; cbn [rank_experts].
  - rewrite <- (range_count n); [|apply range_start_mono; lia|rewrite <- (range_start_end tp n) at 2 by done; apply range_start_mono; lia].
    apply filter_ext_in. intros e He. apply elem_of_seq in He. destruct (rank_of_exact Contiguous tp n e Htp Hle ltac:(lia)) as (_ & Hlt & Hin). split; [by intros <-|].
    intros Hin'. destruct (Nat.lt_trichotomy (rank_of Contiguous tp n e) r) as [Hc|[?|Hc]]; [|done|].
    + pose proof (range_start_mono tp n _ _ Hc). lia.
    + pose proof (range_start_mono tp n _ _ Hc). lia.
  - apply filter_ext_in. intros e He. apply elem_of_seq in He. destruct (rank_of_exact Stride tp n e Htp Hle ltac:(lia)) as (_ & _ & ->). done.
Qed.

Lemma rank_experts_length assign tp n r : tp ≠ 0 → r < tp → length (rank_experts assign tp n r) = n / tp + (if bool_decide (r < n mod tp) then 1 else 0).
Proof.
  intros Htp Hr. destruct assign; cbn [rank_experts]; [|by apply stride_count]. rewrite length_seq. unfold range_start. rewrite Nat.mul_succ_l. case_bool_decide; lia.
Qed.

Lemma validate_moe_map tp replicate f n : (∀ e, e < n → f e < tp) → validate_moe (mkShardConfig tp replicate ((λ e, Z.of_nat (f e)) <$> seq 0 n)) n = Ok tt.
Proof.
  intros H. unfold validate_moe. cbn [expert_to_rank tp_size]. rewrite length_fmap, length_seq, bool_decide_eq_true_2 by done. cbn [negb err_if mbind result_bind].
  destruct (list_find _ _) as [[i r]|] eqn:Hf; [|done]. exfalso. apply list_find_Some in Hf as (Hi & Hr & _).
  rewrite list_lookup_fmap in Hi. apply fmap_Some in Hi as (e & He & ->). apply lookup_seq in He as [-> He]. specialize (H _ He). cbn in Hr. lia.
Qed.

(** Expert placement is exact: building a shard of at most 256 ranks with an
    even (or explicitly admitted uneven) split succeeds and passes [validate_moe];
    every expert is owned by exactly one rank; the experts listed for a rank are
    those it owns, in ascending order, and are the balanced range (contiguous) or
    the residue class (stride) meant for it; ranks differ by at most one expert, the
    first ones taking the remainder, and none exceeds [experts_per_rank]. *)
Theorem expert_shards_exact tp replicate n assign uneven :
  tp ≠ 0 → tp ≤ 256 → (uneven = true ∨ n mod tp = 0) →
  ∃ c, ShardConfig_build tp replicate n assign uneven = Ok c ∧ validate_moe c n = Ok tt ∧
    (∀ e, e < n → ∃ owner, owner < tp ∧ ∀ r, owns_expert c r e = true ↔ r = owner) ∧
    ∀ r, r < tp →
      (∀ e, e ∈ experts_on_rank c r ↔ owns_expert c r e = true) ∧
      experts_on_rank c r = rank_experts assign tp n r ∧
      length (experts_on_rank c r) = n / tp + (if bool_decide (r < n mod tp) then 1 else 0) ∧
      length (experts_on_rank c r) ≤ experts_per_rank c n.
Proof.
  intros Htp Hle Heven. pose proof (build_exact tp replicate n assign uneven Htp Hle Heven) as Hb. eexists. split; [exact Hb|].
  set (c := mkShardConfig _ _ _). assert (expert_to_rank c = (λ e, Z.of_nat (rank_of assign tp n e)) <$> seq 0 n) as Hc by done.
  split_and!.
  - apply validate_moe_map. intros e He. by apply rank_of_exact.
  - intros e He. exists (rank_of assign tp n e). split; [by apply rank_of_exact|]. intros r. rewrite (owns_expert_eq c _ n r e Hc). naive_solver.
  - intros r Hr. rewrite !(experts_on_rank_eq c _ n r Hc), rank_of_filter by done. split_and!; [|done|by apply rank_experts_length|].
    + intros e. rewrite (owns_expert_eq c _ n r e Hc), <- rank_of_filter, list_elem_of_filter, elem_of_seq by done. split; intros; lia.
    + rewrite rank_experts_length by done. unfold experts_per_rank. destruct (decide (n = 0)) as [->|Hn]; [by rewrite Nat.Div0.div_0_l, Nat.Div0.mod_0_l|].
      rewrite (bool_decide_eq_false_2 (expert_to_rank c = [])) by (rewrite Hc; destruct n; done). unfold usize_div_ceil. cbn [tp_size c]. repeat case_bool_decide; lia.
Qed.
Lemma expert_shards_exact_witness : ∃ c, ShardConfig_build 3 true 8 Contiguous true = Ok c ∧ experts_on_rank c 1 = [3; 4; 5] ∧ experts_on_rank c 2 = [6; 7].
Proof.
  destruct (expert_shards_exact 3 true 8 Contiguous true ltac:(done) ltac:(lia) ltac:(by left)) as (c & Hb & _ & _ & H). exists c. split; [done|].
  destruct (H 1 ltac:(lia)) as (_ & H1 & _), (H 2 ltac:(lia)) as (_ & H2 & _). rewrite H1, H2. done.
Defined.

(** ** Heads and weights *)

(** Equal blocks partition a divisible total. *)
Lemma blocks_partition parts total x : parts ≠ 0 → total mod parts = 0 → x < total →
  x / (total / parts) < parts ∧ ∀ r, in_range (r * (total / parts), (r + 1) * (total / parts)) x ↔ r = x / (total / parts).
Proof.
  intros Hp Hm Hx. pose proof (Nat.div_mod_eq total parts) as Ht. rewrite Hm, Nat.add_0_r in Ht. set (b := total / parts) in *.
  assert (b ≠ 0) as Hb by (intros ->; lia). pose proof (Nat.div_mod_eq x b) as Hxd. pose proof (Nat.mod_upper_bound x b Hb) as Hxm.
  split; [apply Nat.Div0.div_lt_upper_bound; lia|]. intros r. unfold in_range. cbn [fst snd]. split; [|intros ->; nia].
  intros [H1 H2]. apply (Nat.div_unique x b r (x - r * b)); nia.
Qed.

(** A block of [k] local units per head scales the head's range. *)
Lemma blocks_scale a b k x : k ≠ 0 → in_range (a * k, b * k) x ↔ in_range (a, b) (x / k).
Proof.
  intros Hk. unfold in_range. cbn [fst snd]. pose proof (Nat.div_mod_eq x k). pose proof (Nat.mod_upper_bound x k Hk). split; intros; nia.
Qed.

(** A group shared by [g] heads stays on the rank of its heads. *)
Lemma group_local tp heads groups h r : tp ≠ 0 → heads mod tp = 0 → groups ≠ 0 → groups mod tp = 0 → heads mod groups = 0 →
  in_range (r * (heads / tp), (r + 1) * (heads / tp)) h → in_range (r * (groups / tp), (r + 1) * (groups / tp)) (h / (heads / groups)).
Proof.
  intros Htp Hh Hg0 Hg Hd. pose proof (Nat.div_mod_eq heads tp) as H1. pose proof (Nat.div_mod_eq groups tp) as H2. pose proof (Nat.div_mod_eq heads groups) as H3.
  rewrite Hh in H1. rewrite Hg in H2. rewrite Hd in H3. set (hpr := heads / tp) in *. set (gpr := groups / tp) in *. set (g := heads / groups) in *.
  assert (hpr = gpr * g) as -> by nia. intros Hin. destruct (decide (g = 0)) as [->|]; [unfold in_range in Hin; cbn in Hin; lia|].
  rewrite !Nat.mul_assoc, blocks_scale in Hin by done. done.
Qed.

(** Attention shards are exact and local: once [validate] accepts the head counts,
    every query head lies in the range of exactly one rank, with the rows of the gated
    query projection and the columns of the output projection that belong to it and
    no others; if the query heads form groups over the key-value heads, the key-value
    head a local query head reads is present on the same rank. *)
Theorem head_shards_local c n_heads n_kv_heads :
  tp_size c ≠ 0 → Shard_validate c n_heads n_kv_heads = Ok tt →
  ∀ h, h < n_heads →
  ∃ owner, owner < tp_size c ∧
    (∀ r, in_range (q_head_range c r n_heads) h ↔ r = owner) ∧
    (∀ r head_dim row, row / (2 * head_dim) = h → head_dim ≠ 0 → in_range (wq_row_range c r n_heads head_dim) row ↔ r = owner) ∧
    (∀ r head_dim col, col / head_dim = h → head_dim ≠ 0 → in_range (wo_col_range c r n_heads head_dim) col ↔ r = owner) ∧
    (n_kv_heads ≠ 0 → n_heads mod n_kv_heads = 0 → in_range (kv_head_range c owner n_kv_heads) (h / (n_heads / n_kv_heads))).
Proof.
  intros Htp Hv h Hh. unfold Shard_validate in Hv. inv_ok. to_prop.
  destruct (blocks_partition (tp_size c) n_heads h Htp ltac:(assumption) Hh) as [Hlt Hpart]. eexists. split; [exact Hlt|]. split_and!.
  - exact Hpart.
  - intros r head_dim row <- Hd. unfold wq_row_range, q_heads_per_rank. rewrite blocks_scale by lia. apply Hpart.
  - intros r head_dim col <- Hd. unfold wo_col_range, q_heads_per_rank. rewrite blocks_scale by lia. apply Hpart.
  - intros Hkv Hdiv. unfold kv_head_range. set (owner := h / _) in *. pose proof (proj2 (Hpart owner) eq_refl) as Hin.
    destruct (tp_kv_replicate c).
    + unfold in_range. cbn [fst snd]. split; [lia|]. apply Nat.Div0.div_lt_upper_bound. pose proof (Nat.div_mod_eq n_heads n_kv_heads). nia.
    + inv_ok. to_prop. apply (group_local (tp_size c) n_heads n_kv_heads h owner); tauto.
Qed.
Lemma head_shards_local_witness :
  let c := mkShardConfig 2 false [] in
  Shard_validate c 8 4 = Ok tt ∧
  ∃ owner, owner < 2 ∧ (∀ r, in_range (q_head_range c r 8) 5 ↔ r = owner) ∧ in_range (kv_head_range c owner 4) 2.
Proof.
  intros c. split; [done|]. destruct (head_shards_local c 8 4 ltac:(done) eq_refl 5 ltac:(lia)) as (owner & Hlt & Hq & _ & _ & Hkv).
  exists owner. split; [exact Hlt|]. split; [exact Hq|]. exact (Hkv ltac:(done) eq_refl).
Defined.

(** The per-rank ratio test of [validate_deltanet] never fires once the divisibility
    tests have passed. *)
Lemma validate_deltanet_exact c n_value_heads n_key_heads : tp_size c ≠ 0 →
  validate_deltanet c n_value_heads n_key_heads = Ok tt ↔
  n_value_heads mod tp_size c = 0 ∧ n_key_heads ≠ 0 ∧ n_key_heads mod tp_size c = 0 ∧ n_value_heads mod n_key_heads = 0.
Proof.
  intros Htp. unfold validate_deltanet. split.
  - intros Hv. inv_ok. to_prop. tauto.
  - intros (Hv & Hk0 & Hk & Hd). rewrite (bool_decide_eq_true_2 _ Hv), (bool_decide_eq_false_2 _ Hk0), (bool_decide_eq_true_2 _ Hk), (bool_decide_eq_true_2 _ Hd).
    cbn [negb orb err_if mbind result_bind]. rewrite bool_decide_eq_true_2; [done|].
    pose proof (Nat.div_mod_eq n_value_heads (tp_size c)) as H1. pose proof (Nat.div_mod_eq n_key_heads (tp_size c)) as H2.
    pose proof (Nat.div_mod_eq n_value_heads n_key_heads) as H3. rewrite Hv in H1. rewrite Hk in H2. rewrite Hd in H3.
    symmetry. apply (Nat.div_unique _ _ _ 0); nia.
Qed.

(** The key head of a local value head is local. *)
Lemma deltanet_local c n_value_heads n_key_heads v r : tp_size c ≠ 0 → validate_deltanet c n_value_heads n_key_heads = Ok tt →
  in_range (dn_value_head_range c r n_value_heads) v → in_range (dn_key_head_range c r n_key_heads) (v / (n_value_heads / n_key_heads)).
Proof. intros Htp Hv Hin. apply validate_deltanet_exact in Hv; [|done]. by apply (group_local (tp_size c) n_value_heads n_key_heads); tauto. Qed.
