(* ===== verification/F32.v ===== *)
(** Single-precision numbers, as the draft trees and samplers use them.

    [f32] is the Standard Library's [spec_float] at 24 bits of precision and exponents up
    to 128; additions and products round to nearest even, and comparisons are undefined on
    a NaN, as in Rust. The exponential of the platform's math library is not determined by
    the language, so the functions that use it take it as an argument. *)

From Stdlib Require Import SpecFloat.
From S2P Require Import Prelude.

Definition f32 : Type := spec_float.
Definition f32_neg (a : f32) : f32 := SFopp a.
Definition f32_add (a b : f32) : f32 := SFadd 24 128 a b.
Definition f32_sub (a b : f32) : f32 := SFsub 24 128 a b.
Definition f32_mul (a b : f32) : f32 := SFmul 24 128 a b.
Definition f32_div (a b : f32) : f32 := SFdiv 24 128 a b.
Definition partial_cmp (a b : f32) : option comparison := SFcompare a b.
Definition f32_lt (a b : f32) : bool := SFltb a b.
Definition f32_le (a b : f32) : bool := SFleb a b.
Definition is_nan (a : f32) : bool := match a with S754_nan => true | _ => false end.
(** [a.max(b)], [a.min(b)]: the other argument where one is a NaN. *)
Definition f32_max (a b : f32) : f32 := if is_nan a || f32_lt a b then b else a.
Definition f32_min (a b : f32) : f32 := if is_nan a || f32_lt b a then b else a.
Definition f32_clamp (lo hi a : f32) : f32 := if f32_lt a lo then lo else if f32_lt hi a then hi else a.
Definition NEG_INFINITY : f32 := S754_infinity true.
Definition f32_zero : f32 := S754_zero false.
(** The nearest number to [m * 2^e]. *)
Definition f32_ratio (m e : Z) : f32 := binary_normalize 24 128 m e false.
Definition f32_of_Z (m : Z) : f32 := f32_ratio m 0.
Definition f32_one : f32 := S754_finite false 8388608 (-23).

(** Double precision, and the conversions. *)
Definition f64 : Type := spec_float.
Definition f64_add (a b : f64) : f64 := SFadd 53 1024 a b.
Definition f64_mul (a b : f64) : f64 := SFmul 53 1024 a b.
Definition f64_div (a b : f64) : f64 := SFdiv 53 1024 a b.
Definition f64_one : f64 := S754_finite false 4503599627370496 (-52).
Definition round_to (prec emax : Z) (a : spec_float) : spec_float :=
  match a with S754_finite s m e => binary_normalize prec emax (cond_Zopp s (Zpos m)) e s | _ => a end.
Definition as_f64 (a : f32) : f64 := round_to 53 1024 a.
Definition as_f32 (a : f64) : f32 := round_to 24 128 a.

(** Nothing is below negative infinity. *)
Lemma f32_lt_neg_infinity a : f32_lt a NEG_INFINITY = false.
Proof. by destruct a as [| [] | | []]. Qed.

(** A key that orders the numbers: sign, then exponent, then mantissa. *)
Definition f32_key (a : f32) : Z * Z * Z :=
  match a with
  | S754_nan => (0, 0, 0)
  | S754_infinity true => (-2, 0, 0)
  | S754_finite true m e => (-1, - e, Z.neg m)
  | S754_zero _ => (0, 0, 0)
  | S754_finite false m e => (1, e, Z.pos m)
  | S754_infinity false => (2, 0, 0)
  end%Z.
Definition key_lt (a b : Z * Z * Z) : Prop :=
  let '(a1, a2, a3) := a in let '(b1, b2, b3) := b in (a1 < b1 ∨ a1 = b1 ∧ (a2 < b2 ∨ a2 = b2 ∧ a3 < b3))%Z.

Lemma partial_cmp_key a b : is_nan a = false → is_nan b = false →
  match partial_cmp a b with
  | Some Lt => key_lt (f32_key a) (f32_key b)
  | Some Eq => f32_key a = f32_key b
  | Some Gt => key_lt (f32_key b) (f32_key a)
  | None => False
  end.
Proof.
  intros Ha Hb. destruct a as [sa|sa| |sa ma ea], b as [sb|sb| |sb mb eb]; try done; destruct sa, sb; cbn; try (done || lia).
  - destruct (Z.compare_spec ea eb); cbn; [|lia|lia]. change (Pos.compare_cont Eq ma mb) with (Pos.compare ma mb). destruct (Pos.compare_spec ma mb); cbn; subst; (done || lia).
  - destruct (Z.compare_spec ea eb); cbn; [|lia|lia]. change (Pos.compare_cont Eq ma mb) with (Pos.compare ma mb). destruct (Pos.compare_spec ma mb); cbn; subst; (done || lia).
Qed.

Lemma key_total a b : key_lt a b ∨ a = b ∨ key_lt b a.
Proof.
  destruct a as [[a1 a2] a3], b as [[b1 b2] b3]. cbn. destruct (Z.lt_trichotomy a1 b1) as [|[->|]]; [lia| |lia]. destruct (Z.lt_trichotomy a2 b2) as [|[->|]]; [lia| |lia].
  destruct (Z.lt_trichotomy a3 b3) as [|[->|]]; [lia|by right; left|lia].
Qed.

Lemma f32_lt_key a b : is_nan a = false → is_nan b = false → f32_lt a b = true ↔ key_lt (f32_key a) (f32_key b).
Proof.
  intros Ha Hb. pose proof (partial_cmp_key a b Ha Hb) as Hk. unfold f32_lt, SFltb, partial_cmp in *. destruct (SFcompare a b) as [[]|]; try done.
  - rewrite Hk. destruct (f32_key b) as [[b1 b2] b3]. cbn. split; [done|lia].
  - destruct (f32_key a) as [[a1 a2] a3], (f32_key b) as [[b1 b2] b3]. cbn in *. split; [done|lia].
Qed.

(** The order is transitive; a NaN is not below anything. *)
Lemma f32_lt_not_nan a b : f32_lt a b = true → is_nan a = false ∧ is_nan b = false.
Proof. by destruct a, b. Qed.
Lemma f32_lt_trans a b c : f32_lt a b = true → f32_lt b c = true → f32_lt a c = true.
Proof.
  intros Hab Hbc. destruct (f32_lt_not_nan _ _ Hab) as [Ha Hb], (f32_lt_not_nan _ _ Hbc) as [_ Hc]. rewrite f32_lt_key in * by done. destruct (f32_key a) as [[a1 a2] a3], (f32_key b) as [[b1 b2] b3], (f32_key c) as [[c1 c2] c3]. cbn in *. lia.
Qed.

Example f32_tenths : f32_add (f32_div f32_one (f32_of_Z 10)) (f32_div (f32_of_Z 2) (f32_of_Z 10)) = f32_ratio 10066330 (-25).
Proof. vm_compute. reflexivity. Qed.

(** A maximum heap ([BinaryHeap]) is its contents: [pop] removes a greatest entry. Where
    the order is total on distinct entries there is only one, so the arrangement of the
    entries inside the heap cannot be seen. *)
Section Heap.
Context {A : Type} (cmp : A → A → comparison).

Fixpoint heap_pop (h : list A) : option (A * list A) :=
  match h with
  | [] => None
  | a :: h =>
      match heap_pop h with
      | None => Some (a, [])
      | Some (b, rest) => match cmp a b with Gt => Some (a, h) | _ => Some (b, a :: rest) end
      end
  end.

Lemma heap_pop_None h : heap_pop h = None ↔ h = [].
Proof. destruct h as [|a h]; cbn; [done|]. destruct (heap_pop h) as [[b rest]|]; [destruct (cmp a b)|]; done. Qed.

Lemma heap_pop_Permutation h : ∀ a rest, heap_pop h = Some (a, rest) → h ≡ₚ a :: rest.
Proof.
  induction h as [|x h IH]; intros a rest Hpop; [done|]. cbn in Hpop. destruct (heap_pop h) as [[b r]|] eqn:Hb.
  - destruct (cmp x b); simplify_eq; [| |done]; rewrite (IH _ _ eq_refl); apply Permutation_swap.
  - simplify_eq. apply heap_pop_None in Hb. by subst.
Qed.
End Heap.

(** With [Reverse], a heap over a total order pops a least entry. *)
Lemma heap_pop_least `{OrdKey A} (h : list A) : ∀ a rest, heap_pop (λ x y, kcmp y x) h = Some (a, rest) → ∀ x, x ∈ h → kcmp x a ≠ Lt.
Proof.
  assert (∀ x : A, kcmp x x = Eq) as Hrefl by (intros x; by apply kcmp_eq).
  induction h as [|y h IH]; intros a rest Hpop x Hx; [done|]. cbn in Hpop. destruct (heap_pop _ h) as [[b r]|] eqn:Hb.
  - specialize (IH b r eq_refl). destruct (kcmp b y) eqn:Hcmp; simplify_eq; apply elem_of_cons in Hx as [->|Hx]; try by apply IH.
    + apply kcmp_eq in Hcmp as ->. by rewrite Hrefl.
    + intros Hlt. by rewrite kcmp_opp, Hlt in Hcmp.
    + by rewrite Hrefl.
    + intros Hlt. apply (IH x Hx). eapply kcmp_trans; [done|]. by rewrite kcmp_opp, Hcmp.
  - simplify_eq. apply heap_pop_None in Hb as ->. apply list_elem_of_singleton in Hx as ->. by rewrite Hrefl.
Qed.
