(* ===== verification/Spec.v ===== *)
(** Speculative decoding (src/crates/hipfire-runtime/src/spec.rs, spec_ngram.rs).

    A drafter proposes a block of tokens, the target model verifies the block in
    one forward pass, and the longest prefix that agrees with the target's own
    picks is kept together with the target's next pick. The drafter is the class
    [BlockDrafter], of which [NgramDrafter] (prompt lookup with a bigram fallback)
    is the instance of the source; the target model is the class [SpecTarget],
    whose implementations run on the device, and whose documented contract is the
    class [TargetContract]. Tokens are [Z]; a failed target call leaves the states
    it returns.

    [HashMap] iteration order is the parameter [histogram_iter] of [predict]. *)

From Stdlib Require Import SpecFloat.
From S2P Require Import Prelude F32.

Definition token : Type := Z.
(** The literal [1e-6]. *)
Definition GREEDY_TEMP : f32 := S754_finite false 8796093 (-43).

(** ** One window *)

Record SpecStep := mkSpecStep {
  emit : list token;
  next_seed : token;
  proposed : nat;
  accepted : nat }.

(** [SpecStep::new] *)
Definition SpecStep_new (emit : list token) (next_seed : token) (proposed accepted : nat) : SpecStep :=
  mkSpecStep emit next_seed proposed accepted.

(** [SpecStep::cap_emit] *)
Definition cap_emit (s : SpecStep) (max_emit : nat) : SpecStep :=
  if bool_decide (max_emit = 0) then mkSpecStep [] (next_seed s) (proposed s) 0 else
  if bool_decide (length (emit s) ≤ max_emit) then s else
  let kept := take max_emit (emit s) in
  mkSpecStep kept (match last kept with Some tok => tok | None => next_seed s end)
    (proposed s) (Nat.min (accepted s) (max_emit - 1)).

Record GreedyAccept := mkGreedyAccept {
  ga_committed : list token;
  ga_accepted : nat;
  ga_hit_eos : bool }.

(** The loop of [accept_greedy_prefix], from position [i]. *)
Fixpoint accept_loop (drafts : list token) (target_pick : list token) (i : nat) (eos : option token)
    (committed : list token) (accepted : nat) : result string (list token * nat * bool) :=
  match drafts with
  | [] => Ok (committed, accepted, false)
  | d :: drafts =>
      pick ← index target_pick i;
      if bool_decide (pick = d) then
        let committed := committed ++ [d] in
        let accepted := S accepted in
        if bool_decide (eos = Some d) then Ok (committed, accepted, true)
        else accept_loop drafts target_pick (S i) eos committed accepted
      else Ok (committed, accepted, false)
  end.

(** [accept_greedy_prefix]; the first line is its [debug_assert]. *)
Definition accept_greedy_prefix (drafts target_pick : list token) (eos : option token) : result string GreedyAccept :=
  assert (bool_decide (length drafts + 1 ≤ length target_pick)) ;;
  walked ← accept_loop drafts target_pick 0 eos [] 0;
  let '(committed, accepted, hit_eos) := walked in
  if hit_eos : bool then Ok (mkGreedyAccept committed accepted true) else
  bonus ← index target_pick accepted;
  Ok (mkGreedyAccept (committed ++ [bonus]) accepted (bool_decide (eos = Some bonus))).

(** ** Rolling bigram histogram *)

Record NgramCache := mkNgramCache {
  bigram : gmap (token * token) (gmap token Z);
  min_count : Z }.

Definition NgramCache_new (min_count : Z) : NgramCache := mkNgramCache ∅ min_count.

(** [observe] *)
Definition Ngram_observe (cache : NgramCache) (a b c : token) : NgramCache :=
  let histogram := default ∅ (bigram cache !! (a, b)) in
  let count := default 0%Z (histogram !! c) in
  mkNgramCache (<[(a, b) := <[c := wrap32 (count + 1)]> histogram]> (bigram cache)) (min_count cache).

(** [Iterator::max_by_key]: the last of the largest. *)
Fixpoint max_by_count (l : list (token * Z)) : option (token * Z) :=
  match l with
  | [] => None
  | x :: l =>
      match max_by_count l with
      | Some y => if (x.2 >? y.2)%Z then Some x else Some y
      | None => Some x
      end
  end.

(** [predict]; [histogram_iter] is the iteration order of the map. *)
Definition predict (histogram_iter : gmap token Z → list (token * Z)) (cache : NgramCache) (a b : token) : option (token * Z) :=
  histogram ← bigram cache !! (a, b);
  best ← max_by_count (histogram_iter histogram);
  if (min_count cache <=? best.2)%Z then Some best else None.

(** [observe_many] *)
Fixpoint observe_windows (cache : NgramCache) (tokens : list token) : NgramCache :=
  match tokens with
  | a :: (b :: c :: _) as rest => observe_windows (Ngram_observe cache a b c) rest
  | _ => cache
  end.
Definition observe_many (cache : NgramCache) (tokens : list token) : NgramCache :=
  if bool_decide (3 ≤ length tokens) then observe_windows cache tokens else cache.

(** ** Prompt lookup *)

Record PldMatcher := mkPldMatcher {
  ngram_lens : list nat;
  max_extract : nat;
  min_extract : nat }.
Record PldMatch := mkPldMatch {
  pm_tokens : list token;
  pm_n : nat;
  pm_consensus : nat }.

Definition PldMatcher_new : PldMatcher := mkPldMatcher [5; 4; 3] 8 3.

Definition span (l : list token) (a b : nat) : list token := take (b - a) (drop a l).

(** The search for the freshest occurrence: positions [k - 1], …, [0]. *)
Fixpoint last_occurrence (haystack suffix : list token) (n k : nat) : option nat :=
  match k with
  | 0 => None
  | S i => if bool_decide (span haystack i (i + n) = suffix) then Some i else last_occurrence haystack suffix n i
  end.

(** One iteration of the loop of [lookup]. *)
Definition spine_for (m : PldMatcher) (context : list token) (n : nat) : option (list token) :=
  if bool_decide (length context ≤ n) then None else
  let suffix_start := length context - n in
  let suffix := drop suffix_start context in
  let haystack := take suffix_start context in
  if bool_decide (length haystack < n) then None else
  start ← last_occurrence haystack suffix n (S (length haystack - n));
  let cont_start := start + n in
  let cont_end := Nat.min (cont_start + max_extract m) suffix_start in
  if bool_decide (cont_end ≤ cont_start) then None else
  let spine := span context cont_start cont_end in
  if bool_decide (length spine < min_extract m) then None else Some spine.

Definition lookup_loop (m : PldMatcher) (context : list token) (acc : list token * option (nat * list token)) (n : nat)
    : list token * option (nat * list token) :=
  match spine_for m context n with
  | None => acc
  | Some spine =>
      (acc.1 ++ (match head spine with Some first => [first] | None => [] end),
       match acc.2 with None => Some (n, spine) | best => best end)
  end.

(** [PldMatcher::lookup] *)
Definition pld_lookup (m : PldMatcher) (context : list token) : option PldMatch :=
  if bool_decide (ngram_lens m = []) then None else
  let '(firsts, best) := foldl (lookup_loop m context) ([], None) (ngram_lens m) in
  best ← best;
  let '(n, tokens) := best in
  Some (mkPldMatch tokens n (length (filter (λ first, head tokens = Some first) firsts))).

(** ** Drafters *)

Class BlockDrafter (D : Type) := {
  prefill_seed : D → list token → D;
  propose : D → list token → token → nat → list token * D;
  observe : D → list token → list token → D;
  drafter_reset : D → D }.

Record NgramDrafter := mkNgramDrafter {
  ngram : NgramCache;
  pld : PldMatcher;
  prompt : list token }.

(** [NgramDrafter::new] *)
Definition NgramDrafter_new (min_count : Z) (block_size : nat) : NgramDrafter :=
  let block_size := Nat.max block_size 2 in
  mkNgramDrafter (NgramCache_new min_count) (mkPldMatcher [5; 4; 3] (block_size - 1) 1) [].

(** The bigram chain of [propose]: [room] more tokens. *)
Fixpoint bigram_chain histogram_iter (cache : NgramCache) (a b : token) (room : nat) : list token :=
  match room with
  | 0 => []
  | S room =>
      match predict histogram_iter cache a b with
      | Some (c, _) => c :: bigram_chain histogram_iter cache b c room
      | None => []
      end
  end.

Definition Ngram_prefill_seed (d : NgramDrafter) (prompt_tokens : list token) : NgramDrafter :=
  mkNgramDrafter (observe_many (ngram d) prompt_tokens) (pld d) prompt_tokens.

(** [NgramDrafter::propose] *)
Definition Ngram_propose histogram_iter (d : NgramDrafter) (emitted : list token) (_seed : token) (max_draft : nat) : list token :=
  let ctx := prompt d ++ emitted in
  let chain :=
    if bool_decide (2 ≤ length ctx) then
      match ctx !! (length ctx - 2), ctx !! (length ctx - 1) with
      | Some a, Some b => bigram_chain histogram_iter (ngram d) a b max_draft
      | _, _ => []
      end
    else [] in
  match pld_lookup (pld d) ctx with
  | Some m => let draft := take max_draft (pm_tokens m) in if bool_decide (draft = []) then chain else draft
  | None => chain
  end.

(** [NgramDrafter::observe] *)
Definition Ngram_observe_window (d : NgramDrafter) (emitted committed : list token) : NgramDrafter :=
  let plen := length (prompt d) in
  let total := plen + length emitted in
  let boundary := omap (λ i, if bool_decide (i < plen) then prompt d !! i else emitted !! (i - plen))
                       (seq (total - 2) (total - (total - 2))) in
  mkNgramDrafter (observe_many (ngram d) (boundary ++ committed)) (pld d) (prompt d).

Definition Ngram_reset (d : NgramDrafter) : NgramDrafter :=
  mkNgramDrafter (NgramCache_new (min_count (ngram d))) (pld d) [].

(** ** Targets and the chain speculator *)

Inductive SpecAdvance : Type :=
| AdvanceReady (last_argmax : token) (last_logits : option (list f32))
| AdvanceAborted.
Inductive PrefillOutcome : Type := PrefillReady (first_token : token) | PrefillAborted.

(** The operations of [SpecTarget] the chain speculator calls. The [abort] callback
    belongs to the environment: [spec_advance] may answer [AdvanceAborted]. *)
Class SpecTarget (T S : Type) := {
  eos_token : T → token;
  reset_recurrent : T → result string unit * T;
  new_spec_scratch : T → nat → result string S * T;
  spec_advance : T → list token → nat → bool → result string SpecAdvance * T;
  verify_block : T → S → list token → nat → result string (list token) * (T * S);
  verify_block_sampled : T → S → list token → nat → f32 → f32 → nat → Z → result string (list token) * (T * S * Z);
  commit_prefix : T → S → list token → nat → nat → result string unit * (T * S) }.

Record ChainSpeculator (D S : Type) := mkChainSpeculator {
  drafter : D;
  block_size : nat;
  ctx_capacity : nat;
  scratch : option S;
  samples : bool;
  sample_temp : f32;
  sample_top_p : f32;
  sample_top_k : nat;
  rng_state : Z }.
Arguments mkChainSpeculator {_ _}.
Arguments drafter {_ _}.
Arguments block_size {_ _}.
Arguments ctx_capacity {_ _}.
Arguments scratch {_ _}.
Arguments samples {_ _}.
Arguments sample_temp {_ _}.
Arguments sample_top_p {_ _}.
Arguments sample_top_k {_ _}.
Arguments rng_state {_ _}.

Definition RNG_SEED : Z := 324508639.  (* 0x13579BDF *)

Section Chain.
Context {D S T : Type} `{!BlockDrafter D} `{!SpecTarget T S}.
(** The host nucleus sampler of the draft-tree module. *)
Context (sample_host_nucleus : list f32 → f32 → f32 → nat → Z → token * Z).

Definition ChainSpeculator_new (drafter : D) (block_size ctx_capacity : nat) (samples : bool) : ChainSpeculator D S :=
  mkChainSpeculator drafter (Nat.max block_size 2) ctx_capacity None samples f32_zero f32_one 0 RNG_SEED.

Definition with_scratch (sp : ChainSpeculator D S) (s : option S) : ChainSpeculator D S :=
  mkChainSpeculator (drafter sp) (block_size sp) (ctx_capacity sp) s (samples sp) (sample_temp sp) (sample_top_p sp) (sample_top_k sp) (rng_state sp).
Definition with_drafter (sp : ChainSpeculator D S) (d : D) : ChainSpeculator D S :=
  mkChainSpeculator d (block_size sp) (ctx_capacity sp) (scratch sp) (samples sp) (sample_temp sp) (sample_top_p sp) (sample_top_k sp) (rng_state sp).
Definition with_rng (sp : ChainSpeculator D S) (rng : Z) : ChainSpeculator D S :=
  mkChainSpeculator (drafter sp) (block_size sp) (ctx_capacity sp) (scratch sp) (samples sp) (sample_temp sp) (sample_top_p sp) (sample_top_k sp) rng.

(** Whether the speculator samples. *)
Definition sampled (sp : ChainSpeculator D S) : bool := samples sp && SFltb GREEDY_TEMP (sample_temp sp).

(** The first line of [prefill]: the scratch is built on first use. *)
Definition ensure_scratch (sp : ChainSpeculator D S) (t : T) : result string unit * (ChainSpeculator D S * T) :=
  match scratch sp with
  | Some _ => (Ok tt, (sp, t))
  | None =>
      match new_spec_scratch t (block_size sp) with
      | (Ok s, t) => (Ok tt, (with_scratch sp (Some s), t))
      | (Err e, t) => (Err e, (sp, t))
      | (Panic, t) => (Panic, (sp, t))
      end
  end.

(** [prefill] *)
Definition prefill (sp : ChainSpeculator D S) (t : T) (prompt_tokens prefill_tokens : list token) (prefill_start : nat)
    (cache_hit : bool) : result string PrefillOutcome * (ChainSpeculator D S * T) :=
  match ensure_scratch sp t with
  | (Err e, st) => (Err e, st)
  | (Panic, st) => (Panic, st)
  | (Ok _, (sp, t)) =>
      let start := if cache_hit then prefill_start else 0 in
      match spec_advance t prefill_tokens start (negb cache_hit) with
      | (Err e, t) => (Err e, (sp, t))
      | (Panic, t) => (Panic, (sp, t))
      | (Ok AdvanceAborted, t) => (Ok PrefillAborted, (sp, t))
      | (Ok (AdvanceReady last_argmax last_logits), t) =>
          if negb (sampled sp) then
            (Ok (PrefillReady last_argmax), (with_drafter sp (prefill_seed (drafter sp) prompt_tokens), t))
          else match last_logits with
          | None => (Err "ChainSpeculator: temp>0 prefill needs last_logits"%string, (sp, t))
          | Some logits =>
              let '(tok, rng) := sample_host_nucleus logits (sample_temp sp) (sample_top_p sp) (sample_top_k sp) (rng_state sp) in
              let sp := with_rng sp rng in
              (Ok (PrefillReady tok), (with_drafter sp (prefill_seed (drafter sp) prompt_tokens), t))
          end
      end
  end.

(** The clamp of [step] on the accepted prefix. *)
Definition clamp_accept (acc : GreedyAccept) (max_emit : nat) : GreedyAccept :=
  if bool_decide (max_emit < length (ga_committed acc)) then
    let keep := Nat.max max_emit 1 in
    mkGreedyAccept (take keep (ga_committed acc)) (Nat.min (keep - 1) (ga_accepted acc)) (ga_hit_eos acc)
  else acc.

(** The verification call of [step]. *)
Definition verify (sp : ChainSpeculator D S) (t : T) (s : S) (block : list token) (position : nat)
    : result string (list token) * (T * S * Z) :=
  if sampled sp then verify_block_sampled t s block position (sample_temp sp) (sample_top_p sp) (sample_top_k sp) (rng_state sp)
  else let '(r, (t, s)) := verify_block t s block position in (r, (t, s, rng_state sp)).

(** What [step] does once the picks are known. *)
Definition finish_step (sp : ChainSpeculator D S) (t : T) (s : S) (rng : Z) (position : nat) (block draft picks emitted : list token) (max_emit : nat)
    : result string SpecStep * (ChainSpeculator D S * T) :=
  let sp := with_scratch sp (Some s) in
  match accept_greedy_prefix draft picks None with
  | Err e => (Err e, (sp, t))
  | Panic => (Panic, (sp, t))
  | Ok acc =>
      let acc := clamp_accept acc max_emit in
      match last (ga_committed acc) with
      | None => (Panic, (sp, t))
      | Some bonus =>
          match commit_prefix t s block (ga_accepted acc) position with
          | (Err e, (t, s)) => (Err e, (with_scratch sp (Some s), t))
          | (Panic, (t, s)) => (Panic, (with_scratch sp (Some s), t))
          | (Ok _, (t, s)) =>
              let sp := with_rng (with_scratch sp (Some s)) rng in
              let sp := with_drafter sp (observe (drafter sp) emitted (ga_committed acc)) in
              (Ok (cap_emit (SpecStep_new (ga_committed acc) bonus (length draft) (ga_accepted acc)) max_emit), (sp, t))
          end
      end
  end.

(** [step] *)
Definition step (sp : ChainSpeculator D S) (t : T) (position : nat) (seed : token) (emitted : list token) (max_emit : nat)
    : result string SpecStep * (ChainSpeculator D S * T) :=
  if bool_decide (max_emit = 0) then (Err "ChainSpeculator: max_emit=0"%string, (sp, t)) else
  let draft_n := Nat.min (max_emit - 1) (block_size sp - 1) in
  let '(draft, d) := propose (drafter sp) emitted seed draft_n in
  let sp := with_drafter sp d in
  let block := seed :: draft in
  match scratch sp with
  | None => (Err "ChainSpeculator: step before prefill"%string, (sp, t))
  | Some s =>
      match verify sp t s block position with
      | (Err e, (t, s, _)) => (Err e, (with_scratch sp (Some s), t))
      | (Panic, (t, s, _)) => (Panic, (with_scratch sp (Some s), t))
      | (Ok picks, (t, s, rng)) => finish_step sp t s rng position block draft picks emitted max_emit
      end
  end.

(** [reset], [set_sampling], [requires_greedy] *)
Definition chain_reset (sp : ChainSpeculator D S) : ChainSpeculator D S := with_drafter sp (drafter_reset (drafter sp)).
Definition set_sampling (sp : ChainSpeculator D S) (temp top_p : f32) (top_k : nat) : ChainSpeculator D S :=
  mkChainSpeculator (drafter sp) (block_size sp) (ctx_capacity sp) (scratch sp) (samples sp) temp top_p top_k RNG_SEED.
Definition requires_greedy (sp : ChainSpeculator D S) : bool := negb (samples sp).
End Chain.

(** ** Multi-token-prediction heads *)

Record MtpWindow := mkMtpWindow {
  mw_committed : list token;
  mw_accepted : nat;
  mw_drafts_generated : nat }.

(** [lower_mtp_window] *)
Definition lower_mtp_window (w : MtpWindow) : result string SpecStep :=
  next ← ok_or "MtpSpeculator: drafter committed 0 tokens"%string (last (mw_committed w));
  Ok (SpecStep_new (mw_committed w) next (mw_drafts_generated w) (mw_accepted w)).

(** [mtp_draft_k] *)
Definition mtp_draft_k (arch_k max_emit : nat) : nat := Nat.min (max_emit - 1) arch_k.

(** The operations of [MtpDrafter]; the grammar handle of [mtp_step] is part of the
    drafter's state here. *)
Class MtpDrafter (A T : Type) := {
  mtp_prefill : A → T → list token → nat → bool → result string token * (A * T);
  mtp_step : A → T → nat → token → nat → token → result string MtpWindow * (A * T);
  mtp_reset : A → result string unit * A;
  mtp_k : A → nat;
  mtp_set_sampling : A → f32 → f32 → nat → f32 → A }.

Record MtpSpeculator (A : Type) := mkMtpSpeculator {
  arch : A;
  mtp_top_p : f32;
  mtp_top_k : nat;
  cactus : f32 }.
Arguments mkMtpSpeculator {_}.
Arguments arch {_}.
Arguments mtp_top_p {_}.
Arguments mtp_top_k {_}.
Arguments cactus {_}.

Section Mtp.
Context {A S T : Type} `{!MtpDrafter A T} `{!SpecTarget T S}.

Definition MtpSpeculator_new (a : A) : MtpSpeculator A := mkMtpSpeculator a f32_one 0 f32_zero.
Definition with_arch (sp : MtpSpeculator A) (a : A) : MtpSpeculator A := mkMtpSpeculator a (mtp_top_p sp) (mtp_top_k sp) (cactus sp).

(** [prefill] *)
Definition mtp_spec_prefill (sp : MtpSpeculator A) (t : T) (prompt_tokens prefill_tokens : list token) (prefill_start : nat)
    (cache_hit : bool) : result string PrefillOutcome * (MtpSpeculator A * T) :=
  let '(fill_tokens, start_pos) := if cache_hit then (prefill_tokens, prefill_start) else (prompt_tokens, 0) in
  let '(r, (a, t)) := mtp_prefill (arch sp) t fill_tokens start_pos cache_hit in
  (first_token ← r; Ok (PrefillReady first_token), (with_arch sp a, t)).

(** [step]; the assertion is its [debug_assert]. *)
Definition mtp_spec_step (sp : MtpSpeculator A) (t : T) (position : nat) (seed : token) (temp : f32) (max_emit : nat)
    : result string SpecStep * (MtpSpeculator A * T) :=
  if bool_decide (max_emit = 0) then (Err "MtpSpeculator: max_emit=0"%string, (sp, t)) else
  let k := mtp_draft_k (mtp_k (arch sp)) max_emit in
  let a := mtp_set_sampling (arch sp) temp (mtp_top_p sp) (mtp_top_k sp) (cactus sp) in
  let '(r, (a, t)) := mtp_step a t position seed k (eos_token t) in
  (window ← r;
   lowered ← lower_mtp_window window;
   assert (bool_decide (length (emit lowered) ≤ max_emit)) ;;
   Ok (cap_emit lowered max_emit), (with_arch sp a, t)).

(** [reset], [set_sampling] *)
Definition mtp_spec_reset (sp : MtpSpeculator A) : result string unit * MtpSpeculator A :=
  let '(r, a) := mtp_reset (arch sp) in (r, with_arch sp a).
Definition mtp_spec_set_sampling (sp : MtpSpeculator A) (_temp top_p : f32) (top_k : nat) (cactus_delta : f32) : MtpSpeculator A :=
  mkMtpSpeculator (arch sp) top_p top_k cactus_delta.
End Mtp.

(** ** The accepted prefix *)

(** What acceptance keeps: the longest agreeing prefix and the next pick. *)
Fixpoint agree (drafts picks : list token) : nat :=
  match drafts, picks with
  | d :: drafts, p :: picks => if bool_decide (p = d) then S (agree drafts picks) else 0
  | _, _ => 0
  end.

Lemma agree_le drafts picks : agree drafts picks ≤ length drafts.
Proof. revert picks. induction drafts as [|d drafts IH]; intros [|p picks]; cbn; try lia. case_bool_decide; [specialize (IH picks)|]; lia. Qed.

Lemma agree_prefix drafts picks : take (agree drafts picks) drafts = take (agree drafts picks) picks.
Proof.
  revert picks. induction drafts as [|d drafts IH]; intros [|p picks]; try done. cbn. case_bool_decide; [|done]. cbn. subst. f_equal. apply IH.
Qed.

Lemma agree_maximal drafts picks d : drafts !! agree drafts picks = Some d → picks !! agree drafts picks ≠ Some d.
Proof.
  revert picks. induction drafts as [|d' drafts IH]; intros [|p picks]; cbn; try done. case_bool_decide; cbn; [apply IH|]. intros [= ->] [= ->]. done.
Qed.

Lemma accept_loop_None drafts picks i committed accepted : i + length drafts < length picks →
  accept_loop drafts picks i None committed accepted =
    Ok (committed ++ take (agree drafts (drop i picks)) drafts, accepted + agree drafts (drop i picks), false).
Proof.
  revert i committed accepted. induction drafts as [|d drafts IH]; intros i committed accepted Hi; cbn [accept_loop length] in *.
  - cbn. by rewrite app_nil_r, Nat.add_0_r.
  - destruct (picks !! i) as [p|] eqn:Hp; [|apply lookup_ge_None in Hp; lia]. unfold index. rewrite Hp. cbn [ok_or mbind result_bind].
    rewrite (drop_S _ _ _ Hp). cbn [agree]. case_bool_decide; [|cbn; by rewrite app_nil_r, Nat.add_0_r].
    rewrite bool_decide_eq_false_2 by done. rewrite IH by lia. cbn. rewrite <- app_assoc, Nat.add_succ_r. done.
Qed.

(** Without an end token, acceptance keeps the first [agree + 1] picks of the target. *)
Lemma accept_exact drafts picks : length drafts < length picks →
  accept_greedy_prefix drafts picks None = Ok (mkGreedyAccept (take (S (agree drafts picks)) picks) (agree drafts picks) false).
Proof.
  intros Hlen. unfold accept_greedy_prefix. rewrite bool_decide_eq_true_2 by lia. cbn [assert mbind result_bind].
  rewrite accept_loop_None, drop_0 by lia. cbn [mbind result_bind Nat.add app]. pose proof (agree_le drafts picks).
  destruct (lookup_lt_is_Some_2 picks (agree drafts picks)) as [bonus Hb]; [lia|]. unfold index. rewrite Hb. cbn [ok_or mbind result_bind].
  rewrite bool_decide_eq_false_2 by done. by rewrite agree_prefix, (take_S_r _ _ _ Hb).
Qed.

(** The clamp keeps a shorter prefix of the same picks. *)
Lemma clamp_exact picks n max_emit : max_emit ≠ 0 → n < length picks →
  clamp_accept (mkGreedyAccept (take (S n) picks) n false) max_emit =
    mkGreedyAccept (take (S (Nat.min n (max_emit - 1))) picks) (Nat.min n (max_emit - 1)) false.
Proof.
  intros Hm Hn. unfold clamp_accept. cbn [ga_committed ga_accepted ga_hit_eos]. rewrite length_take. case_bool_decide.
  - rewrite take_take. f_equal; [f_equal|]; lia.
  - rewrite Nat.min_l by lia. done.
Qed.

Lemma cap_emit_id st max_emit : max_emit ≠ 0 → length (emit st) ≤ max_emit → cap_emit st max_emit = st.
Proof. intros Hm Hl. unfold cap_emit. by rewrite bool_decide_eq_false_2, bool_decide_eq_true_2. Qed.

(** Capping keeps a non-empty prefix and reseeds from its last token. *)
Lemma cap_emit_wf st max_emit : max_emit ≠ 0 → emit st ≠ [] → last (emit st) = Some (next_seed st) →
  emit (cap_emit st max_emit) = take max_emit (emit st) ∧ last (emit (cap_emit st max_emit)) = Some (next_seed (cap_emit st max_emit)).
Proof.
  intros Hm Hne Hl. unfold cap_emit. rewrite bool_decide_eq_false_2 by done. case_bool_decide; [by rewrite take_ge|]. cbn. split; [done|].
  destruct (last (take max_emit (emit st))) eqn:E; [done|]. apply last_None in E. destruct (emit st), max_emit; done.
Qed.

(** ** What a target promises *)

(** The documented contract of a target: [history] is the tokens its state has
    processed and [greedy] the model's argmax after a token sequence. A successful
    [verify_block] at the next position returns the argmax after every prefix of the
    block, and [commit_prefix] then leaves the state at the accepted prefix. A
    successful [spec_advance] processes its tokens and returns the argmax at the last. *)
Class TargetContract (T S : Type) `{!SpecTarget T S} := {
  history : T → list token;
  greedy : list token → token;
  contract_reset t t' : reset_recurrent t = (Ok tt, t') → history t' = [];
  contract_scratch t n r t' : new_spec_scratch t n = (r, t') → history t' = history t;
  contract_advance t tokens start reset argmax logits t' :
    spec_advance t tokens start reset = (Ok (AdvanceReady argmax logits), t') → tokens ≠ [] →
    (if reset then start = 0 else start = length (history t)) →
    history t' = (if reset then [] else history t) ++ tokens ∧ argmax = greedy (history t');
  contract_verify t s block position picks t' s' :
    verify_block t s block position = (Ok picks, (t', s')) → position = length (history t) →
    length picks = length block ∧
    (∀ i, i < length block → picks !! i = Some (greedy (history t ++ take (Datatypes.S i) block))) ∧
    ∀ accept t'' s'', accept < length block → commit_prefix t' s' block accept position = (Ok tt, (t'', s'')) →
      history t'' = history t ++ take (Datatypes.S accept) block }.

Section Lossless.
Context {D S T : Type} `{!BlockDrafter D} `{!SpecTarget T S} `{!TargetContract T S}.
Implicit Types (sp : ChainSpeculator D S) (t : T) (st : SpecStep).

(** [ext] is the greedy autoregressive continuation of [base]. *)
Definition greedy_from (base ext : list token) : Prop :=
  ∀ i tok, ext !! i = Some tok → tok = greedy (T := T) (base ++ take i ext).

Lemma greedy_from_app base x y : greedy_from base (x ++ y) ↔ greedy_from base x ∧ greedy_from (base ++ x) y.
Proof.
  unfold greedy_from. split.
  - intros H. split; intros i tok Hi.
    + rewrite (H i tok) by (by apply lookup_app_l_Some). rewrite take_app_le; [done|]. apply lookup_lt_Some in Hi. lia.
    + rewrite (H (length x + i) tok) by (rewrite lookup_app_r by lia; by rewrite Nat.add_comm, Nat.add_sub).
      by rewrite take_app_add, app_assoc.
  - intros [Hx Hy] i tok Hi. destruct (decide (i < length x)).
    + rewrite lookup_app_l in Hi by done. rewrite take_app_le by lia. by apply Hx.
    + rewrite lookup_app_r in Hi by lia. rewrite (Hy _ _ Hi), take_app_ge, app_assoc by lia. done.
Qed.

Lemma greedy_from_nil base : greedy_from base [].
Proof. intros i tok Hi. done. Qed.

(** A step decodes greedily: what it emits continues the processed history and the
    pending seed greedily, within the budget, and the target ends on all of it but
    the last token, which is the new seed. *)
Lemma step_greedy sp t position seed emitted max_emit st sp' t' :
  step sp t position seed emitted max_emit = (Ok st, (sp', t')) → sampled sp = false → position = length (history t) →
  emit st ≠ [] ∧ length (emit st) ≤ max_emit ∧ length (emit st) = accepted st + 1 ∧ accepted st ≤ proposed st ∧
  last (emit st) = Some (next_seed st) ∧ greedy_from (history t ++ [seed]) (emit st) ∧
  history t' ++ [next_seed st] = history t ++ [seed] ++ emit st ∧
  sampled sp' = false ∧ is_Some (scratch sp').
Proof.
  unfold step. intros Hstep Hs ->. case_bool_decide as Hm; [done|]. destruct (propose _ _ _ _) as [draft d] eqn:Hp. cbn [scratch with_drafter] in Hstep.
  destruct (scratch sp) as [s|]; [|done]. unfold verify in Hstep. replace (sampled (with_drafter sp d)) with false in Hstep by done.
  destruct (verify_block _ _ _ _) as [[picks|?|] [t1 s1]] eqn:Hv; try done.
  apply contract_verify in Hv as (Hlen & Hpicks & Hcommit); [|done]. cbn [length] in Hlen, Hpicks, Hcommit. unfold finish_step in Hstep.
  pose proof (agree_le draft picks) as Hle. rewrite accept_exact, clamp_exact in Hstep by lia. cbn [ga_committed ga_accepted] in Hstep.
  set (n := Nat.min (agree draft picks) (max_emit - 1)) in *. destruct (lookup_lt_is_Some_2 picks n) as [bonus Hb]; [lia|].
  rewrite (take_S_r _ _ _ Hb) in Hstep. rewrite last_snoc in Hstep. destruct (commit_prefix _ _ _ _ _) as [[[]|?|] [t2 s2]] eqn:Hc; try done.
  apply Hcommit in Hc; [|lia]. rewrite cap_emit_id in Hstep; [|done|cbn; rewrite length_app, length_take; cbn; lia].
  injection Hstep as <- <- <-. cbn [emit next_seed accepted proposed SpecStep_new scratch with_drafter with_rng with_scratch].
  assert (take n draft = take n picks) as Hpre.
  { pose proof (agree_prefix draft picks) as Ha. apply (f_equal (take n)) in Ha. rewrite !take_take in Ha. by replace (n `min` agree draft picks) with n in Ha by lia. }
  split_and!; try done.
  - by destruct (take n picks).
  - rewrite length_app, length_take. cbn. lia.
  - rewrite length_app, length_take. cbn. lia.
  - lia.
  - apply last_snoc.
  - intros i tok Hi. pose proof (lookup_lt_Some _ _ _ Hi) as Hlt. rewrite length_app, length_take in Hlt. cbn in Hlt.
    rewrite <- (take_S_r _ _ _ Hb) in Hi |- *. rewrite lookup_take_lt in Hi by lia. rewrite (Hpicks i) in Hi by lia. injection Hi as <-.
    rewrite take_take, Nat.min_l by lia. cbn [take]. rewrite <- app_assoc. do 2 f_equal. cbn. f_equal.
    apply (f_equal (take i)) in Hpre. rewrite !take_take, !Nat.min_l in Hpre by lia. done.
  - rewrite Hc. cbn. rewrite Hpre, <- !app_assoc. done.
Qed.

(** A step succeeds whenever the target's own calls do. *)
Lemma step_total sp t s seed emitted max_emit :
  max_emit ≠ 0 → scratch sp = Some s → sampled sp = false →
  (∀ block, ∃ picks t' s', verify_block t s block (length (history t)) = (Ok picks, (t', s')) ∧
    ∀ accept, ∃ t'' s'', commit_prefix t' s' block accept (length (history t)) = (Ok tt, (t'', s''))) →
  ∃ st sp' t', step sp t (length (history t)) seed emitted max_emit = (Ok st, (sp', t')).
Proof.
  intros Hm Hs Hsamp Htarget. unfold step. rewrite bool_decide_eq_false_2 by done. destruct (propose _ _ _ _) as [draft d]. cbn [scratch with_drafter]. rewrite Hs.
  destruct (Htarget (seed :: draft)) as (picks & t' & s' & Hv & Hc). unfold verify. replace (sampled (with_drafter sp d)) with false by done. rewrite Hv.
  apply contract_verify in Hv as (Hlen & _ & _); [|done]. cbn [length] in Hlen. unfold finish_step. pose proof (agree_le draft picks).
  rewrite accept_exact, clamp_exact by lia. cbn [ga_committed ga_accepted]. set (n := Nat.min (agree draft picks) (max_emit - 1)).
  destruct (lookup_lt_is_Some_2 picks n) as [bonus Hb]; [lia|]. rewrite (take_S_r _ _ _ Hb), last_snoc. destruct (Hc n) as (t'' & s'' & ->). by do 3 eexists.
Qed.

(** Prefill leaves the target on the prompt and returns the argmax after it. *)
Lemma prefill_greedy nucleus sp t prompt_tokens prefill_tokens start hit tok sp' t' :
  prefill nucleus sp t prompt_tokens prefill_tokens start hit = (Ok (PrefillReady tok), (sp', t')) → sampled sp = false → prefill_tokens ≠ [] →
  (hit = true → start = length (history t)) →
  history t' = (if hit then history t else []) ++ prefill_tokens ∧ tok = greedy (history t') ∧ sampled sp' = false ∧ is_Some (scratch sp').
Proof.
  unfold prefill, ensure_scratch. intros Hp Hs Hne Hstart.
  assert (∀ sp1 t1, sampled sp1 = false → is_Some (scratch sp1) → history t1 = history t →
    match spec_advance t1 prefill_tokens (if hit then start else 0) (negb hit) with
    | (Err e, t2) => (Err e, (sp1, t2))
    | (Panic, t2) => (Panic, (sp1, t2))
    | (Ok AdvanceAborted, t2) => (Ok PrefillAborted, (sp1, t2))
    | (Ok (AdvanceReady last_argmax last_logits), t2) =>
        (Ok (PrefillReady last_argmax), (with_drafter sp1 (prefill_seed (drafter sp1) prompt_tokens), t2))
    end = (Ok (PrefillReady tok), (sp', t')) →
    history t' = (if hit then history t else []) ++ prefill_tokens ∧ tok = greedy (history t') ∧ sampled sp' = false ∧ is_Some (scratch sp')) as Hadv.
  { intros sp1 t1 Hs1 Hsc Hh Hrun. destruct (spec_advance _ _ _ _) as [[[argmax logits|]|?|] t2] eqn:Ha; try done. injection Hrun as <- <- <-.
    apply contract_advance in Ha as [Hh2 Htok]; [|done|destruct hit; cbn; [by rewrite Hh; apply Hstart|done]].
    split_and!; [|done|done|done]. rewrite Hh2, Hh. by destruct hit. }
  destruct (scratch sp) as [s|] eqn:Hsc.
  - rewrite Hs in Hp. cbn [negb] in Hp. apply (Hadv sp t Hs); [by rewrite Hsc|done|]. exact Hp.
  - destruct (new_spec_scratch t (block_size sp)) as [[s|?|] t1] eqn:Hn; try done.
    replace (sampled (with_scratch sp (Some s))) with false in Hp by done. cbn [negb] in Hp.
    apply (Hadv (with_scratch sp (Some s)) t1 Hs); [done|by apply contract_scratch in Hn|exact Hp].
Qed.
End Lossless.

(** ** Drafting *)

(** How often [a; b; c] occurs in a token stream. *)
Fixpoint triples (a b c : token) (tokens : list token) : Z :=
  match tokens with
  | x :: (y :: z :: _) as rest => ((if bool_decide ((x, y, z) = (a, b, c)) then 1 else 0) + triples a b c rest)%Z
  | _ => 0%Z
  end.

Definition count_of (cache : NgramCache) (a b c : token) : Z := default 0%Z (default ∅ (bigram cache !! (a, b)) !! c).

Lemma count_of_new min_count a b c : count_of (NgramCache_new min_count) a b c = 0%Z.
Proof. unfold count_of, NgramCache_new. cbn [bigram]. by rewrite lookup_empty; cbn; rewrite lookup_empty. Qed.

Lemma count_of_observe cache x y z a b c :
  count_of (Ngram_observe cache x y z) a b c = if bool_decide ((x, y, z) = (a, b, c)) then wrap32 (count_of cache a b c + 1) else count_of cache a b c.
Proof.
  unfold count_of, Ngram_observe. cbn [bigram]. case_bool_decide as Heq.
  - injection Heq as -> -> ->. by rewrite lookup_insert_eq; cbn; rewrite lookup_insert_eq.
  - destruct (decide ((x, y) = (a, b))) as [E|Hne]; [|by rewrite lookup_insert_ne].
    injection E as -> ->. rewrite lookup_insert_eq. cbn. by rewrite lookup_insert_ne by congruence.
Qed.

Lemma observe_windows_count tokens cache a b c : (0 ≤ count_of cache a b c)%Z → (count_of cache a b c + Z.of_nat (length tokens) < 4294967296)%Z →
  count_of (observe_windows cache tokens) a b c = (count_of cache a b c + triples a b c tokens)%Z.
Proof.
  revert cache. induction tokens as [|x tokens IH]; intros cache H0 Hb; [cbn; lia|]. destruct tokens as [|y [|z rest]]; [cbn; lia|cbn; lia|].
  change (observe_windows cache (x :: y :: z :: rest)) with (observe_windows (Ngram_observe cache x y z) (y :: z :: rest)).
  change (triples a b c (x :: y :: z :: rest)) with ((if bool_decide ((x, y, z) = (a, b, c)) then 1 else 0) + triples a b c (y :: z :: rest))%Z.
  cbn [length] in Hb, IH. pose proof (count_of_observe cache x y z a b c) as Hc. rewrite IH; rewrite ?Hc; unfold wrap32; case_bool_decide; rewrite ?Z.mod_small; lia.
Qed.

Lemma max_by_count_spec l : match max_by_count l with
  | None => l = []
  | Some best => best ∈ l ∧ ∀ x, x ∈ l → (x.2 ≤ best.2)%Z
  end.
Proof.
  induction l as [|x l IH]; [done|]. cbn [max_by_count]. destruct (max_by_count l) as [y|].
  - destruct IH as [Hy Hmax]. destruct (Z.gtb_spec x.2 y.2).
    + split; [left|]. intros z [->|Hz]%elem_of_cons; [lia|]. specialize (Hmax z Hz). lia.
    + split; [by right|]. intros z [->|Hz]%elem_of_cons; [lia|by apply Hmax].
  - subst. split; [left|]. intros z Hz%list_elem_of_singleton. by subst.
Qed.

(** The prediction is a most frequent successor, trusted from [min_count] on. *)
Lemma predict_exact histogram_iter cache a b : (∀ h, histogram_iter h ≡ₚ map_to_list h) →
  match predict histogram_iter cache a b with
  | Some (c, n) => default ∅ (bigram cache !! (a, b)) !! c = Some n ∧ (min_count cache ≤ n)%Z ∧ ∀ c', (count_of cache a b c' ≤ Z.max 0 n)%Z
  | None => ∀ c' n', default ∅ (bigram cache !! (a, b)) !! c' = Some n' → (n' < min_count cache)%Z
  end.
Proof.
  intros Hiter. unfold predict, count_of. destruct (bigram cache !! (a, b)) as [h|]; cbn [mbind option_bind default from_option]; [|intros c' n'; by rewrite lookup_empty].
  pose proof (max_by_count_spec (histogram_iter h)) as Hmax. destruct (max_by_count (histogram_iter h)) as [[c n]|]; cbn [mbind option_bind snd].
  - destruct Hmax as [Hin Hmax]. rewrite Hiter in Hin. apply elem_of_map_to_list in Hin.
    assert (∀ c' n', h !! c' = Some n' → (n' ≤ n)%Z) as Hle.
    { intros c' n' Hc'. apply (Hmax (c', n')). rewrite Hiter. by apply elem_of_map_to_list. }
    destruct (Z.leb_spec (min_count cache) n).
    + split_and!; [done|done|]. intros c'. assert (default 0%Z (h !! c') ≤ Z.max 0 n)%Z; [|done].
      destruct (h !! c') as [n'|] eqn:E; cbn [from_option id]; [apply Hle in E|]; unfold default, id; lia.
    + intros c' n' Hc'. apply Hle in Hc'. lia.
  - intros c' n' Hc'. assert ((c', n') ∈ histogram_iter h) as Hin by (rewrite Hiter; by apply elem_of_map_to_list).
    rewrite Hmax in Hin. by apply elem_of_nil in Hin.
Qed.

Lemma bigram_chain_length histogram_iter cache a b room : length (bigram_chain histogram_iter cache a b room) ≤ room.
Proof.
  revert a b. induction room as [|room IH]; intros a b; cbn; [lia|]. destruct (predict _ _ _ _) as [[c n]|]; cbn; [specialize (IH b c)|]; lia.
Qed.

(** The drafter keeps to its budget. *)
Lemma propose_length histogram_iter d emitted seed max_draft : length (Ngram_propose histogram_iter d emitted seed max_draft) ≤ max_draft.
Proof.
  unfold Ngram_propose. set (chain := if bool_decide _ then _ else _).
  assert (length chain ≤ max_draft). { unfold chain. case_bool_decide; [|cbn; lia]. repeat case_match; solve [apply bigram_chain_length|cbn; lia]. }
  destruct (pld_lookup _ _); [|done]. case_bool_decide; [done|]. rewrite length_take. lia.
Qed.

(** The drafter of the source as an instance of the interface. *)
Definition NgramBlockDrafter (histogram_iter : gmap token Z → list (token * Z)) : BlockDrafter NgramDrafter := {|
  prefill_seed := Ngram_prefill_seed;
  propose := λ d emitted seed max_draft, (Ngram_propose histogram_iter d emitted seed max_draft, d);
  observe := Ngram_observe_window;
  drafter_reset := Ngram_reset |}.

(** ** Prompt lookup *)

Lemma last_occurrence_spec haystack suffix n k : match last_occurrence haystack suffix n k with
  | Some i => i < k ∧ span haystack i (i + n) = suffix ∧ ∀ j, i < j < k → span haystack j (j + n) ≠ suffix
  | None => ∀ j, j < k → span haystack j (j + n) ≠ suffix
  end.
Proof.
  induction k as [|i IH]; cbn [last_occurrence]; [lia|]. case_bool_decide as Heq; [split_and!; [lia|done|lia]|].
  destruct (last_occurrence _ _ _ i) as [i'|].
  - destruct IH as (Hlt & Hi & Hno). split_and!; [lia|done|]. intros j Hj. destruct (decide (j = i)) as [->|]; [done|apply Hno; lia].
  - intros j Hj. destruct (decide (j = i)) as [->|]; [done|apply IH; lia].
Qed.

(** [i] starts an earlier, non-overlapping occurrence of the last [n] tokens. *)
Definition earlier_match (context : list token) (n i : nat) : Prop :=
  i + n + n ≤ length context ∧ span context i (i + n) = drop (length context - n) context.

Lemma span_take (l : list token) m i n : i + n ≤ m → span (take m l) i (i + n) = span l i (i + n).
Proof. intros H. unfold span. rewrite skipn_firstn_comm, take_take. f_equal. lia. Qed.

(** The spine copies what followed the freshest earlier occurrence. *)
Lemma spine_for_exact m context n spine : spine_for m context n = Some spine →
  ∃ start, earlier_match context n start ∧ (∀ j, start < j → ¬ earlier_match context n j) ∧
    spine = span context (start + n) (Nat.min (start + n + max_extract m) (length context - n)) ∧
    spine ≠ [] ∧ min_extract m ≤ length spine ∧ length spine ≤ max_extract m.
Proof.
  unfold spine_for. case_bool_decide as Hn; [done|]. rewrite length_take, Nat.min_l by lia. case_bool_decide as Hh; [done|].
  pose proof (last_occurrence_spec (take (length context - n) context) (drop (length context - n) context) n (S (length context - n - n))) as Hlast.
  destruct (last_occurrence _ _ _ _) as [start|]; cbn [mbind option_bind]; [|done]. destruct Hlast as (Hlt & Hat & Hno).
  case_bool_decide as Hc; [done|]. case_bool_decide as Hl; [done|]. intros [= <-]. exists start. rewrite span_take in Hat by lia.
  assert (length (span context (start + n) (Nat.min (start + n + max_extract m) (length context - n))) = Nat.min (start + n + max_extract m) (length context - n) - (start + n)) as Hlen.
  { unfold span. rewrite length_take, length_drop. lia. }
  split_and!; [split; [lia|done]| |done| |lia|lia].
  - intros j Hj [Hj1 Hj2]. apply (Hno j); [lia|]. by rewrite span_take by lia.
  - intros E. rewrite E in Hlen. cbn in Hlen. lia.
Qed.

(** [lookup] answers with the first length of the list that has a spine. *)
Lemma pld_lookup_first m context : pld_lookup m context = match list_find (λ n, is_Some (spine_for m context n)) (ngram_lens m) with
  | None => None
  | Some (_, n) => spine ← spine_for m context n;
      Some (mkPldMatch spine n (length (filter (λ first, head spine = Some first) (omap (λ n, s ← spine_for m context n; head s) (ngram_lens m)))))
  end.
Proof.
  unfold pld_lookup. case_bool_decide as Hnil; [by rewrite Hnil|].
  assert (∀ lens firsts best, foldl (lookup_loop m context) (firsts, best) lens =
    (firsts ++ omap (λ n, s ← spine_for m context n; head s) lens,
     match best with Some _ => best | None => match list_find (λ n, is_Some (spine_for m context n)) lens with
       Some (_, n) => s ← spine_for m context n; Some (n, s) | None => None end end)) as Hfold.
  { induction lens as [|n lens IH]; intros firsts best; cbn [foldl]; [cbn; rewrite app_nil_r; by destruct best|].
    unfold lookup_loop at 2. cbn [fst snd omap list_omap list_find].
    destruct (spine_for m context n) as [spine|] eqn:E; cbn [mbind option_bind].
    - rewrite IH. rewrite decide_True by (by eexists). rewrite E. cbn [mbind option_bind].
      destruct (head spine) as [h|]; rewrite <- ?app_assoc, ?app_nil_r; by destruct best.
    - rewrite IH. rewrite decide_False by (by intros [? ?]). f_equal. destruct best; [done|].
      destruct (list_find _ lens) as [[i n']|]; done. }
  rewrite Hfold. cbn [app]. destruct (list_find _ _) as [[i n]|]; [|done]. destruct (spine_for m context n); done.
Qed.

Lemma spine_for_None m context n : spine_for m context n = None → ∀ start, earlier_match context n start → (∀ j, start < j → ¬ earlier_match context n j) →
  length (span context (start + n) (Nat.min (start + n + max_extract m) (length context - n))) < Nat.max 1 (min_extract m).
Proof.
  intros Hnone start [Hle Hat] Hfresh. set (stop := Nat.min _ _).
  assert (length (span context (start + n) stop) = stop - (start + n)) as Hlen by (unfold span, stop; rewrite length_take, length_drop; lia).
  unfold spine_for in Hnone. case_bool_decide as Hn; [lia|]. rewrite length_take, Nat.min_l in Hnone by lia. rewrite bool_decide_eq_false_2 in Hnone by lia.
  pose proof (last_occurrence_spec (take (length context - n) context) (drop (length context - n) context) n (S (length context - n - n))) as Hlast.
  destruct (last_occurrence _ _ _ _) as [i|].
  - destruct Hlast as (Hi & Hati & Hno). rewrite span_take in Hati by lia.
    assert (i = start) as ->.
    { destruct (Nat.lt_trichotomy i start) as [Hc|[?|Hc]]; [|done|].
      - exfalso. apply (Hno start); [lia|]. by rewrite span_take by lia.
      - exfalso. apply (Hfresh i Hc). split; [lia|done]. }
    cbn [mbind option_bind] in Hnone. fold stop in Hnone. case_bool_decide; [lia|]. case_bool_decide; [lia|done].
  - exfalso. apply (Hlast start); [lia|]. by rewrite span_take by lia.
Qed.

(** Prompt lookup finds what it documents. A match is taken for the first suffix
    length of the list that yields one; its tokens are exactly those that followed the
    freshest earlier, non-overlapping occurrence of the last [n] tokens of the context,
    cut at [max_extract] and before the suffix, non-empty and at least [min_extract]
    long; without a match, the freshest earlier occurrence for every tried length
    is followed by too few tokens. *)
Theorem prompt_lookup_exact m context :
  match pld_lookup m context with
  | Some pm =>
      (∃ i, ngram_lens m !! i = Some (pm_n pm) ∧ ∀ j n, j < i → ngram_lens m !! j = Some n → spine_for m context n = None) ∧
      (∃ start, earlier_match context (pm_n pm) start ∧ (∀ j, start < j → ¬ earlier_match context (pm_n pm) j) ∧
        pm_tokens pm = span context (start + pm_n pm) (Nat.min (start + pm_n pm + max_extract m) (length context - pm_n pm))) ∧
      pm_tokens pm ≠ [] ∧ min_extract m ≤ length (pm_tokens pm) ≤ max_extract m ∧ 1 ≤ pm_consensus pm ≤ length (ngram_lens m)
  | None =>
      ∀ n start, n ∈ ngram_lens m → earlier_match context n start → (∀ j, start < j → ¬ earlier_match context n j) →
        length (span context (start + n) (Nat.min (start + n + max_extract m) (length context - n))) < Nat.max 1 (min_extract m)
  end.
Proof.
  rewrite pld_lookup_first. destruct (list_find _ _) as [[i n]|] eqn:Hf.
  - apply list_find_Some in Hf as (Hi & [spine Hs] & Hfirst). rewrite Hs. cbn [mbind option_bind pm_n pm_tokens pm_consensus].
    destruct (spine_for_exact _ _ _ _ Hs) as (start & Hm & Hfresh & Hsp & Hne & Hmin & Hmax). split_and!; [|by exists start|done|done|done| |].
    + exists i. split; [done|]. intros j n' Hj Hn'. specialize (Hfirst j n' Hn' Hj). by destruct (spine_for m context n') eqn:E; [destruct Hfirst|].
    + destruct spine as [|h spine]; [done|]. apply Nat.neq_0_lt_0. intros Hz%length_zero_iff_nil.
      assert (h ∈ filter (λ first, head (h :: spine) = Some first) (omap (λ n, s ← spine_for m context n; head s) (ngram_lens m))) as Hin.
      { apply list_elem_of_filter. split; [done|]. apply list_elem_of_omap. exists n. split; [by eapply list_elem_of_lookup_2|]. by rewrite Hs. }
      rewrite Hz in Hin. by apply elem_of_nil in Hin.
    + etrans; [apply length_filter|]. clear. induction (ngram_lens m) as [|n l IH]; [done|]. cbn. case_match; cbn; lia.
  - intros n start Hn. apply spine_for_None. apply list_find_None in Hf. rewrite Forall_forall in Hf. specialize (Hf n Hn).
    by destruct (spine_for m context n) eqn:E; [destruct Hf|].
Qed.

(** From a fresh cache, the bigram fallback proposes a most frequent successor of the
    last two tokens. *)
Lemma fresh_predict_exact histogram_iter min_count tokens a b c n : (∀ h, histogram_iter h ≡ₚ map_to_list h) → (Z.of_nat (length tokens) < 4294967296)%Z →
  (0 < min_count)%Z → predict histogram_iter (observe_many (NgramCache_new min_count) tokens) a b = Some (c, n) →
  n = triples a b c tokens ∧ (min_count ≤ n)%Z ∧ ∀ c', (triples a b c' tokens ≤ n)%Z.
Proof.
  intros Hiter Hlen Hpos Hp. pose proof (predict_exact histogram_iter (observe_many (NgramCache_new min_count) tokens) a b Hiter) as H. rewrite Hp in H.
  assert (∀ x, count_of (observe_many (NgramCache_new min_count) tokens) a b x = triples a b x tokens) as Hcount.
  { intros x. unfold observe_many. case_bool_decide as Hl.
    - rewrite observe_windows_count; rewrite count_of_new; lia.
    - rewrite count_of_new. destruct tokens as [|? [|? [|? ?]]]; cbn in *; done || lia. }
  assert (Spec.min_count (observe_many (NgramCache_new min_count) tokens) = min_count) as Hmin.
  { unfold observe_many. case_bool_decide; [|done]. clear. generalize (NgramCache_new min_count) (eq_refl : Spec.min_count (NgramCache_new min_count) = min_count).
    intros cache <-. revert cache. induction tokens as [|x tokens IH]; intros cache; [done|]. destruct tokens as [|y [|z rest]]; [done|done|].
    change (observe_windows cache (x :: y :: z :: rest)) with (observe_windows (Ngram_observe cache x y z) (y :: z :: rest)). by rewrite IH. }
  destruct H as (Hc & Hle & Hmax). rewrite Hmin in Hle. split_and!; [|done|].
  - rewrite <- Hcount. unfold count_of. by rewrite Hc.
  - intros c'. specialize (Hmax c'). rewrite Hcount in Hmax. lia.
Qed.
