(* ===== verification/SpecHost.v ===== *)
(** The decode loop over a speculator (src/crates/hipfire-runtime/examples/daemon.rs,
    [generate_spec] and its helpers; the emission seam of spec.rs).

    The loop keeps a pending seed: a token the client has seen but the target has not
    processed. Every window processes it with the accepted drafts and leaves a new
    one; an emitter decides token by token what the client sees, may stop the turn
    inside a window (the target is then reset and replayed up to the stop) and may
    force tokens. The emitter is the class [SpecEmit], the cancellation flag of the
    request the class [Ambient]; cache eviction is off ([m.eviction] is [None]), and
    a turn that is cancelled or fails ends in [Terminal], after which the source
    rolls every state back.

    Proved here, for every emitter: in greedy mode a completed turn leaves the target on
    the prompt and the decoded tokens, of which only tokens without events may be
    missing, and the conversation is the prompt and the tokens with events; with an
    emitter that forces nothing the decoded tokens are the greedy decoding of the
    prompt, whatever was drafted. In every mode the loop ends within as many windows as
    the context has positions. *)

From S2P Require Import Prelude F32 Spec.

(** ** The emission seam *)

Inductive StopReason : Type := Eos | ThinkCap | StopSequence | GrammarViolation.
#[export] Instance StopReason_eq_dec : EqDecision StopReason.
Proof. solve_decision. Defined.

Record EmitOutcome (Ev : Type) := mkEmitOutcome {
  events : list Ev;
  stop : option StopReason }.
Arguments mkEmitOutcome {_}.
Arguments events {_}.
Arguments stop {_}.

(** [EmitOutcome::held] *)
Definition held {Ev} : EmitOutcome Ev := mkEmitOutcome [] None.

Class SpecEmit (E Ev : Type) := {
  emit_begin : E → token → EmitOutcome Ev * E;
  emit_observe : E → token → EmitOutcome Ev * E;
  set_generated_hint : E → nat → E;
  take_forced : E → list token * E;
  grammar_violated : E → bool }.

(** [check_abort] reads the cancellation flag of the request. *)
Class Ambient (A : Type) := { check_abort : A → bool * A }.

(** ** Pure helpers of the loop *)

Definition spec_stop_is_semantic (stop : option StopReason) : bool :=
  match stop with Some Eos | Some StopSequence | Some ThinkCap => true | _ => false end.

Record SpecHostAdvance := mkSpecHostAdvance {
  ha_position : nat;
  ha_generated : nat;
  ha_emitted : list token;
  ha_seed : token }.

(** [spec_host_advance_after_step] *)
Definition spec_host_advance_after_step (position generated : nat) (emitted step_emit : list token) (step_next_seed : token)
    (consumed : nat) : SpecHostAdvance :=
  let keep := Nat.min consumed (length step_emit) in
  let prefix := take keep step_emit in
  mkSpecHostAdvance (position + length prefix) (generated + length prefix) (emitted ++ prefix)
    (default step_next_seed (last prefix)).

Record SpecPendingSeedTx := mkSpecPendingSeedTx {
  tx_commit : list token;
  tx_pending_seed : token;
  tx_position_delta : nat }.

(** [spec_forced_pending_seed_tx] *)
Definition spec_forced_pending_seed_tx (pending_seed : token) (forced : list token) (committable : bool) : result string SpecPendingSeedTx :=
  assert (negb (bool_decide (forced = []))) ;;
  let commit := (if committable then [pending_seed] else []) ++ take (length forced - 1) forced in
  last_forced ← expect (last forced);
  Ok (mkSpecPendingSeedTx commit last_forced (length commit)).

(** [spec_terminal_pending_seed_tx] *)
Definition spec_terminal_pending_seed_tx (pending_seed : token) : SpecPendingSeedTx := mkSpecPendingSeedTx [pending_seed] pending_seed 1.

Definition spec_outcome_seed_committable {Ev} (outcome : EmitOutcome Ev) : bool :=
  match events outcome with [] => false | _ => true end.
Definition spec_should_flush_pending_seed (grammar_violated committable : bool) : bool := negb grammar_violated && committable.

(** [spec_forced_tokens_within_budget] *)
Definition spec_forced_tokens_within_budget (generated max_tokens : nat) (forced : list token) : list token :=
  take (Nat.min (length forced) (max_tokens - generated)) forced.

(** [spec_forced_commit_admits] *)
Definition spec_forced_commit_admits (position commit_len physical_cap : nat) (eviction_enabled : bool) : bool :=
  let post_position := position + commit_len in
  if eviction_enabled then bool_decide (post_position ≤ physical_cap) else bool_decide (post_position < physical_cap).

Record SpecPrefixRealignPlan := mkSpecPrefixRealignPlan {
  rp_replay : list token;
  rp_position : nat;
  rp_seed : token }.

(** [spec_prefix_realign_plan] *)
Definition spec_prefix_realign_plan (prompt : list token) (first_token : token) (raw_decode : list token) : result string SpecPrefixRealignPlan :=
  match last raw_decode with
  | None => Ok (mkSpecPrefixRealignPlan prompt (length prompt) first_token)
  | Some seed =>
      let replay := prompt ++ [first_token] ++ take (length raw_decode - 1) raw_decode in
      let position := length prompt + length raw_decode in
      assert (bool_decide (length replay = position)) ;;
      Ok (mkSpecPrefixRealignPlan replay position seed)
  end.

(** [spec_prefix_realign_admit] *)
Definition spec_prefix_realign_admit (plan : SpecPrefixRealignPlan) (physical_cap ctx_capacity compact_offset : nat) (eviction_enabled : bool)
    : result string unit :=
  err_if (negb (bool_decide (length (rp_replay plan) = rp_position plan))) "spec_prefix_realign: invariant broken"%string ;;
  err_if (bool_decide (physical_cap ≤ rp_position plan)) "spec_prefix_realign: exceeds physical_cap"%string ;;
  err_if (bool_decide (ctx_capacity ≤ rp_position plan)) "spec_prefix_realign: exceeds ctx_capacity"%string.

(** ** The turn *)

(** The loop's own state. *)
Record Host (Ev : Type) := mkHost {
  h_position : nat;
  h_seed : token;
  h_generated : nat;
  h_emitted : list token;
  h_raw : list token;
  h_committable : bool;
  h_semantic : option StopReason;
  h_sent : list Ev }.
Arguments mkHost {_}.
Arguments h_position {_}.
Arguments h_seed {_}.
Arguments h_generated {_}.
Arguments h_emitted {_}.
Arguments h_raw {_}.
Arguments h_committable {_}.
Arguments h_semantic {_}.
Arguments h_sent {_}.

Record World (D S T E A : Type) := mkWorld {
  w_spec : ChainSpeculator D S;
  w_target : T;
  w_emit : E;
  w_abort : A }.
Arguments mkWorld {_ _ _ _ _}.
Arguments w_spec {_ _ _ _ _}.
Arguments w_target {_ _ _ _ _}.
Arguments w_emit {_ _ _ _ _}.
Arguments w_abort {_ _ _ _ _}.

(** What the observation of a window leaves: the host, the emitter, how many tokens were
    observed, the tokens to force and whether the turn ends. *)
Record Observed (E Ev : Type) := mkObserved {
  o_host : Host Ev;
  o_emit : E;
  o_consumed : nat;
  o_forced : list token;
  o_ended : bool }.
Arguments mkObserved {_ _}.
Arguments o_host {_ _}.
Arguments o_emit {_ _}.
Arguments o_consumed {_ _}.
Arguments o_forced {_ _}.
Arguments o_ended {_ _}.

Inductive SpecForcedApplyResult : Type := Skipped | Applied | Stopped (reason : StopReason).

(** [Terminal]: an error or cancellation was reported and every state rolled back. *)
Inductive Outcome (X : Type) : Type := Done (x : X) | Terminal | Crash.
Arguments Done {_}.
Arguments Terminal {_}.
Arguments Crash {_}.

Definition out_bind {X Y} (o : Outcome X) (f : X → Outcome Y) : Outcome Y :=
  match o with Done x => f x | Terminal => Terminal | Crash => Crash end.
Notation "'let?' x := o 'in' f" := (out_bind o (λ x, f)) (at level 10, x pattern, o at level 100, f at level 200).

(** A failed call ends the turn. *)
Definition or_terminal {X} (r : result string X) : Outcome X :=
  match r with Ok x => Done x | Err _ => Terminal | Panic => Crash end.

Record SpecRun (D S T E A Ev : Type) := mkSpecRun {
  run_world : World D S T E A;
  seq_pos : nat;
  conversation_tokens : list token;
  run_generated : nat;
  run_semantic_stop : option StopReason;
  run_sent : list Ev }.
Arguments mkSpecRun {_ _ _ _ _ _}.
Arguments run_world {_ _ _ _ _ _}.
Arguments seq_pos {_ _ _ _ _ _}.
Arguments conversation_tokens {_ _ _ _ _ _}.
Arguments run_generated {_ _ _ _ _ _}.
Arguments run_semantic_stop {_ _ _ _ _ _}.
Arguments run_sent {_ _ _ _ _ _}.

Inductive TurnResult (X : Type) : Type := Finished (x : X) | FailedClosed | TurnTerminal | TurnCrash | OutOfFuel.
Arguments Finished {_}.
Arguments FailedClosed {_}.
Arguments TurnTerminal {_}.
Arguments TurnCrash {_}.
Arguments OutOfFuel {_}.

Section Turn.
Context {D S T E Ev A : Type} `{!BlockDrafter D} `{!SpecTarget T S} `{!SpecEmit E Ev} `{!Ambient A}.
Context (sample_host_nucleus : list f32 → f32 → f32 → nat → Z → token * Z).
Context (physical_cap max_tokens : nat).
Implicit Types (h : Host Ev) (w : World D S T E A) (e : E).

(** A token the emitter has observed. *)
Definition note_token h (tok : token) (outcome : EmitOutcome Ev) : Host Ev :=
  if spec_outcome_seed_committable outcome then
    mkHost (h_position h) (h_seed h) (h_generated h + 1) (h_emitted h ++ [tok]) (h_raw h ++ [tok]) true (h_semantic h) (h_sent h ++ events outcome)
  else mkHost (h_position h) (h_seed h) (h_generated h) (h_emitted h) (h_raw h ++ [tok]) false (h_semantic h) (h_sent h).
Definition send h (evs : list Ev) : Host Ev :=
  mkHost (h_position h) (h_seed h) (h_generated h) (h_emitted h) (h_raw h) (h_committable h) (h_semantic h) (h_sent h ++ evs).
Definition sticky h (reason : option StopReason) : Host Ev :=
  mkHost (h_position h) (h_seed h) (h_generated h) (h_emitted h) (h_raw h) (h_committable h)
    (match h_semantic h with None => if spec_stop_is_semantic reason then reason else None | found => found end) (h_sent h).
Definition move_to h (position : nat) (seed : token) : Host Ev :=
  mkHost position seed (h_generated h) (h_emitted h) (h_raw h) (h_committable h) (h_semantic h) (h_sent h).

(** The observation of [committed_tail]. *)
Fixpoint observe_tail (tail : list token) e h (consumed : nat) : Observed E Ev :=
  match tail with
  | [] => mkObserved h e consumed [] false
  | tok :: tail =>
      if bool_decide (max_tokens ≤ h_generated h) then mkObserved h e consumed [] false else
      let e := set_generated_hint e (h_generated h) in
      let '(outcome, e) := emit_observe e tok in
      if bool_decide (stop outcome = Some GrammarViolation) then mkObserved (send h (events outcome)) e consumed [] true else
      let h := note_token h tok outcome in
      let '(forced, e) := take_forced e in
      if negb (bool_decide (forced = [])) then mkObserved h e (consumed + 1) forced false else
      match stop outcome with
      | Some reason => mkObserved (sticky h (Some reason)) e (consumed + 1) [] true
      | None => observe_tail tail e h (consumed + 1)
      end
  end.

(** Staging of forced tokens: observed up to the first stop. *)
Fixpoint stage (forced : list token) e (hint : nat) : list (token * EmitOutcome Ev) * option StopReason * E :=
  match forced with
  | [] => ([], None, e)
  | tok :: forced =>
      let '(outcome, e) := emit_observe (set_generated_hint e hint) tok in
      let hint := if spec_outcome_seed_committable outcome then hint + 1 else hint in
      match stop outcome with
      | Some reason => ([(tok, outcome)], Some reason, e)
      | None => let '(staged, stopped, e) := stage forced e hint in ((tok, outcome) :: staged, stopped, e)
      end
  end.

(** A plain advance of the target over committed tokens; an abort seen on the way is a
    cancellation. *)
Definition advance_committed w (position : nat) (commit : list token) : Outcome (World D S T E A) :=
  if bool_decide (commit = []) then Done w else
  let '(r, t) := spec_advance (w_target w) commit position false in
  let? advanced := or_terminal r in
  match advanced with
  | AdvanceAborted => Terminal
  | AdvanceReady _ _ => Done (mkWorld (w_spec w) t (w_emit w) (w_abort w))
  end.

Definition poll_abort w : Outcome (World D S T E A) :=
  let '(aborted, a) := check_abort (w_abort w) in
  if aborted : bool then Terminal else Done (mkWorld (w_spec w) (w_target w) (w_emit w) a).

(** [apply_spec_forced_pending_seed] without eviction. *)
Definition apply_spec_forced_pending_seed (forced_all : list token) w h : Outcome (SpecForcedApplyResult * World D S T E A * Host Ev) :=
  if bool_decide (forced_all = []) then Done (Skipped, w, h) else
  let forced := spec_forced_tokens_within_budget (h_generated h) max_tokens forced_all in
  if bool_decide (forced = []) then Done (Skipped, w, h) else
  let '(staged, stop_reason, e) := stage forced (w_emit w) (h_generated h) in
  let w := mkWorld (w_spec w) (w_target w) e (w_abort w) in
  let? tx := or_terminal (spec_forced_pending_seed_tx (h_seed h) staged.*1 (h_committable h)) in
  if negb (spec_forced_commit_admits (h_position h) (length (tx_commit tx)) physical_cap false) then Terminal else
  let? w := poll_abort w in
  let? w := advance_committed w (h_position h) (tx_commit tx) in
  let? w := poll_abort w in
  let h := move_to h (h_position h + tx_position_delta tx) (tx_pending_seed tx) in
  let h := foldl (λ h '(tok, outcome), note_token h tok outcome) h staged in
  Done (match stop_reason with Some reason => Stopped reason | None => Applied end, w, h).

(** The realignment after a window observed in part. *)
Definition realign (prompt : list token) (first_token : token) (ctx_cap : nat) w h : Outcome (World D S T E A * Host Ev) :=
  let? plan := or_terminal (spec_prefix_realign_plan prompt first_token (h_raw h)) in
  let? _ := or_terminal (spec_prefix_realign_admit plan physical_cap ctx_cap 0 false) in
  let '(r, t) := reset_recurrent (w_target w) in
  let? _ := or_terminal r in
  let sp := chain_reset (w_spec w) in
  let '(r, (sp, t)) := prefill sample_host_nucleus sp t (rp_replay plan) (rp_replay plan) 0 false in
  let? outcome := or_terminal r in
  match outcome with
  | PrefillAborted => Terminal
  | PrefillReady _ => Done (mkWorld sp t (w_emit w) (w_abort w), move_to h (rp_position plan) (rp_seed plan))
  end.

(** One iteration of the loop; the flag says that the loop is left. *)
Definition cycle (prompt : list token) (first_token : token) w h : Outcome (bool * World D S T E A * Host Ev) :=
  let? w := poll_abort w in
  let ctx_cap := ctx_capacity (w_spec w) in
  if bool_decide (ctx_cap ≤ h_position h + block_size (w_spec w)) then Done (true, w, h) else
  let max_emit := max_tokens - h_generated h in
  let '(r, (sp, t)) := step (w_spec w) (w_target w) (h_position h) (h_seed h) (h_emitted h) max_emit in
  let? st := or_terminal r in
  let tail := emit st in
  let o := observe_tail tail (w_emit w) h 0 in
  let w := mkWorld sp t (o_emit o) (w_abort w) in
  let host := spec_host_advance_after_step (h_position h) 0 [] tail (next_seed st) (o_consumed o) in
  let seed := if bool_decide (o_consumed o = 0) then default first_token (last (h_raw (o_host o))) else ha_seed host in
  let h := move_to (o_host o) (ha_position host) seed in
  let? (w, h) := (if bool_decide (Nat.min (o_consumed o) (length tail) < length tail)
                  then realign prompt first_token ctx_cap w h else Done (w, h)) in
  let? (forced_stop, w, h) :=
    (if bool_decide (o_forced o = []) then Done (false, w, h) else
     let? (r, w, h) := apply_spec_forced_pending_seed (o_forced o) w h in
     Done (match r with Stopped reason => (true, w, sticky h (Some reason)) | _ => (false, w, h) end)) in
  Done (o_ended o || forced_stop, w, h).

(** The [while] loop. *)
Fixpoint spec_loop (fuel : nat) (prompt : list token) (first_token : token) w h : TurnResult (World D S T E A * Host Ev) :=
  if bool_decide (max_tokens ≤ h_generated h) then Finished (w, h) else
  match fuel with
  | 0 => OutOfFuel
  | Datatypes.S fuel =>
      match cycle prompt first_token w h with
      | Terminal => TurnTerminal
      | Crash => TurnCrash
      | Done (true, w, h) => Finished (w, h)
      | Done (false, w, h) => spec_loop fuel prompt first_token w h
      end
  end.

(** The first token: [emit.begin] and the tokens it forces. *)
Definition begin_decode (prompt : list token) (first_token : token) w : Outcome (bool * World D S T E A * Host Ev) :=
  let '(outcome, e) := emit_begin (w_emit w) first_token in
  let committable := spec_outcome_seed_committable outcome in
  let h := mkHost (length prompt) first_token (if committable then 1 else 0) (if committable then [first_token] else []) [] committable
             (if spec_stop_is_semantic (stop outcome) then stop outcome else None) (events outcome) in
  let '(forced, e) := take_forced e in
  let w := mkWorld (w_spec w) (w_target w) e (w_abort w) in
  let ended := match stop outcome with Some _ => true | None => false end in
  if bool_decide (forced = []) then Done (ended, w, h) else
  let? (r, w, h) := apply_spec_forced_pending_seed forced w h in
  Done (match r with Stopped reason => (true, w, sticky h (Some reason)) | _ => (ended, w, h) end).

(** The flush of the pending seed and the bake of the conversation. *)
Definition finish_turn (prompt : list token) w h : TurnResult (SpecRun D S T E A Ev) :=
  let violated := grammar_violated (w_emit w) in
  let flushed :=
    if spec_should_flush_pending_seed violated (h_committable h) then
      let tx := spec_terminal_pending_seed_tx (h_seed h) in
      let? w := poll_abort w in
      let? w := advance_committed w (h_position h) (tx_commit tx) in
      let? w := poll_abort w in
      Done (w, h_position h + tx_position_delta tx)
    else Done (w, h_position h) in
  match flushed with
  | Terminal => TurnTerminal
  | Crash => TurnCrash
  | Done (w, position) =>
      if violated then FailedClosed
      else Finished (mkSpecRun w position (prompt ++ h_emitted h) (h_generated h) (h_semantic h) (h_sent h))
  end.

(** The decode part of [generate_spec]. *)
Definition decode_turn (fuel : nat) (prompt : list token) (first_token : token) w : TurnResult (SpecRun D S T E A Ev) :=
  match begin_decode prompt first_token w with
  | Terminal => TurnTerminal
  | Crash => TurnCrash
  | Done (ended, w, h) =>
      let looped := if ended : bool then Finished (w, h) else spec_loop fuel prompt first_token w h in
      match looped with
      | Finished (w, h) => finish_turn prompt w h
      | FailedClosed => FailedClosed
      | TurnTerminal => TurnTerminal
      | TurnCrash => TurnCrash
      | OutOfFuel => OutOfFuel
      end
  end.

(** [generate_spec]: prefill, then decode. *)
Definition generate_spec (fuel : nat) (prompt prefill_tokens : list token) (prefill_start : nat) (cache_hit : bool) w
    : TurnResult (SpecRun D S T E A Ev) :=
  let '(r, (sp, t)) := prefill sample_host_nucleus (w_spec w) (w_target w) prompt prefill_tokens prefill_start cache_hit in
  match r with
  | Err _ => TurnTerminal
  | Panic => TurnCrash
  | Ok PrefillAborted => TurnTerminal
  | Ok (PrefillReady first_token) => decode_turn fuel prompt first_token (mkWorld sp t (w_emit w) (w_abort w))
  end.
End Turn.

(** ** What was decoded *)

(** The tokens the emitter has observed in a turn, with what it made of them. *)
Definition log (Ev : Type) : Type := list (token * EmitOutcome Ev).

(** The tokens that produced events: the client's text. *)
Definition shown {Ev} (d : list (token * EmitOutcome Ev)) : list token := (filter (λ so, spec_outcome_seed_committable so.2 = true) d).*1.
Definition log_events {Ev} (d : log Ev) : list Ev := mjoin (events <$> d.*2).
Definition last_shown {Ev} (d : log Ev) : bool := from_option (λ so, spec_outcome_seed_committable so.2) false (last d).

(** [kept d k]: [k] is the decoded tokens in order, less some without events. *)
Inductive kept {Ev : Type} : log Ev → list token → Prop :=
| kept_nil : kept [] []
| kept_cons tok outcome d k : kept d k → kept ((tok, outcome) :: d) (tok :: k)
| kept_skip tok outcome d k : events outcome = [] → kept d k → kept ((tok, outcome) :: d) k.

(** The emitter states of a turn that began in [e0]. *)
Inductive reachable {E Ev : Type} `{!SpecEmit E Ev} (e0 : E) : E → Prop :=
| reach_start : reachable e0 e0
| reach_begin e tok : reachable e0 e → reachable e0 (emit_begin e tok).2
| reach_observe e tok : reachable e0 e → reachable e0 (emit_observe e tok).2
| reach_hint e generated : reachable e0 e → reachable e0 (set_generated_hint e generated)
| reach_take e : reachable e0 e → reachable e0 (take_forced e).2.

(** The emitter never asks for a forced token. *)
Definition quiet {E Ev} `{!SpecEmit E Ev} (e0 : E) : Prop := ∀ e, reachable e0 e → (take_forced e).1 = [].

(** An entry of the log is what the emitter said of the token. *)
Definition seen {E Ev} `{!SpecEmit E Ev} (e0 : E) (so : token * EmitOutcome Ev) : Prop :=
  ∃ e, reachable e0 e ∧ ((emit_begin e so.1).1 = so.2 ∨ (emit_observe e so.1).1 = so.2).

Section Log.
Context {E Ev : Type} `{!SpecEmit E Ev}.
Implicit Types (d : log Ev).

Lemma committable_events (outcome : EmitOutcome Ev) : spec_outcome_seed_committable outcome = false ↔ events outcome = [].
Proof. unfold spec_outcome_seed_committable. by destruct (events outcome). Qed.

Lemma shown_app d1 d2 : shown (d1 ++ d2) = shown d1 ++ shown d2.
Proof. unfold shown. by rewrite list.filter_app, fmap_app. Qed.
Lemma shown_one tok (outcome : EmitOutcome Ev) : shown [(tok, outcome)] = if spec_outcome_seed_committable outcome then [tok] else [].
Proof. unfold shown. rewrite filter_cons, filter_nil. cbn. destruct (spec_outcome_seed_committable outcome); by case_decide. Qed.
Lemma shown_all d : Forall (λ so, events so.2 ≠ []) d → shown d = d.*1.
Proof.
  induction 1 as [|[tok outcome] d Hev _ IH]; [done|]. change ((tok, outcome) :: d) with ([(tok, outcome)] ++ d). rewrite shown_app, shown_one, IH.
  destruct (spec_outcome_seed_committable outcome) eqn:Hc; [done|]. by apply committable_events in Hc.
Qed.
Lemma log_events_app d1 d2 : log_events (d1 ++ d2) = log_events d1 ++ log_events d2.
Proof. unfold log_events. by rewrite !fmap_app, join_app. Qed.

Lemma kept_full d : kept d d.*1.
Proof. induction d as [|[tok outcome] d IH]; cbn; by constructor. Qed.
Lemma kept_app d1 d2 k1 k2 : kept d1 k1 → kept d2 k2 → kept (d1 ++ d2) (k1 ++ k2).
Proof. induction 1; cbn; intros; [done|constructor; auto..]. Qed.
Lemma kept_all d k : kept d k → Forall (λ so, events so.2 ≠ []) d → k = d.*1.
Proof. induction 1 as [|tok outcome d k Hk IH|tok outcome d k Hev Hk IH]; intros Hall; inversion Hall; subst; cbn in *; [done|f_equal; auto|done]. Qed.
Lemma kept_shown d k : kept d k → shown d `sublist_of` k ∧ k `sublist_of` d.*1.
Proof.
  induction 1 as [|tok outcome d k Hk [IH1 IH2]|tok outcome d k Hev Hk [IH1 IH2]]; [done|..];
    change ((tok, outcome) :: d) with ([(tok, outcome)] ++ d); rewrite shown_app, shown_one; cbn [fmap list_fmap fst app].
  - split; [|by constructor]. destruct (spec_outcome_seed_committable outcome); cbn; by constructor.
  - apply committable_events in Hev. rewrite Hev. split; [done|by constructor].
Qed.

Lemma quiet_take e0 e forced e' : quiet e0 → reachable e0 e → take_forced e = (forced, e') → forced = [].
Proof. intros Hq He Hf. specialize (Hq e He). by rewrite Hf in Hq. Qed.
Lemma observe_seen (e0 e e' : E) hint tok outcome : reachable e0 e → emit_observe (set_generated_hint e hint) tok = (outcome, e') →
  reachable e0 e' ∧ seen e0 (tok, outcome).
Proof.
  intros He Ho. apply (reach_hint _ _ hint) in He. split; [apply (reach_observe _ _ tok) in He; by rewrite Ho in He|].
  eexists. split; [exact He|]. right. cbn. by rewrite Ho.
Qed.
Lemma take_reachable (e0 e e' : E) forced : reachable e0 e → take_forced e = (forced, e') → reachable e0 e'.
Proof. intros He%reach_take Hf. by rewrite Hf in He. Qed.
End Log.

(** ** The host's side *)

Section HostSide.
Context {D S T E Ev A : Type} `{!BlockDrafter D} `{!SpecTarget T S} `{!SpecEmit E Ev} `{!Ambient A}.
Context (nucleus : list f32 → f32 → f32 → nat → Z → token * Z) (physical_cap max_tokens : nat) (prompt : list token) (first : token) (e0 : E).
Implicit Types (h : Host Ev) (w : World D S T E A) (e : E) (d : log Ev).

(** The host's record of the decoded tokens; [extra] is what a grammar violation sent. *)
Record host_log d (extra : list Ev) h : Prop := {
  hl_seen : Forall (seen e0) d;
  hl_raw : d.*1 = first :: h_raw h;
  hl_emitted : h_emitted h = shown d;
  hl_sent : h_sent h = log_events d ++ extra;
  hl_committable : h_committable h = last_shown d;
  hl_generated : h_generated h = length (h_emitted h);
  hl_budget : h_generated h ≤ Nat.max 1 max_tokens }.

Lemma note_log d h tok outcome : host_log d [] h → seen e0 (tok, outcome) → h_generated h < max_tokens → host_log (d ++ [(tok, outcome)]) [] (note_token h tok outcome).
Proof.
  intros [H0 H1 H2 H3 H4 H5 H6] Hseen Hlt. rewrite app_nil_r in H3.
  assert (Forall (seen e0) (d ++ [(tok, outcome)])) by (apply Forall_app; auto).
  assert (log_events [(tok, outcome)] = events outcome) as Hev by apply app_nil_r. unfold note_token.
  destruct (spec_outcome_seed_committable outcome) eqn:Hc; split; unfold last_shown;
    cbn [h_raw h_emitted h_sent h_committable h_generated]; rewrite ?fmap_app, ?H1, ?H2, ?H3, ?shown_app, ?shown_one, ?log_events_app, ?Hev, ?last_snoc, ?Hc, ?app_nil_r;
    try done; try lia.
  - rewrite H5, H2, length_app. done.
  - apply committable_events in Hc. by rewrite Hc, app_nil_r.
  - by rewrite H5, H2.
Qed.

Lemma note_all staged : Forall (seen e0) staged → ∀ d h, host_log d [] h → h_generated h + length staged ≤ max_tokens →
  let h' := foldl (λ h '(tok, outcome), note_token h tok outcome) h staged in
  host_log (d ++ staged) [] h' ∧ h_position h' = h_position h ∧ h_seed h' = h_seed h.
Proof.
  induction 1 as [|[tok outcome] staged Hs _ IH]; intros d h Hlog Hlen; cbn [foldl length] in *; [by rewrite app_nil_r|].
  destruct (IH (d ++ [(tok, outcome)]) (note_token h tok outcome)) as (H1 & H2 & H3).
  - apply note_log; [done|done|lia].
  - unfold note_token. destruct (spec_outcome_seed_committable outcome); cbn; lia.
  - rewrite <- app_assoc in H1. cbn zeta. rewrite H2, H3. split; [exact H1|]. unfold note_token. by destruct (spec_outcome_seed_committable outcome).
Qed.

(** Moving the host, recording a stop or sending leaves the record. *)
Lemma move_log d extra h position seed : host_log d extra h → host_log d extra (move_to h position seed).
Proof. by intros []. Qed.
Lemma sticky_log d extra h reason : host_log d extra h → host_log d extra (sticky h reason).
Proof. by intros []. Qed.
Lemma send_log d h evs : host_log d [] h → host_log d evs (send h evs).
Proof. intros [H0 H1 H2 H3 H4 H5 H6]. split; cbn; try done. by rewrite H3, app_nil_r. Qed.

(** The observation of a window notes a prefix of it. *)
Record observed_log d h (tail : list token) (c : nat) (o : Observed E Ev) (s : log Ev) (extra : list Ev) : Prop := {
  ol_log : host_log (d ++ s) extra (o_host o);
  ol_tokens : s.*1 = take (length s) tail;
  ol_le : length s ≤ length tail;
  ol_consumed : o_consumed o = c + length s;
  ol_extra : o_ended o = false → extra = [];
  ol_forced : o_ended o = true → o_forced o = [];
  ol_progress : h_generated h < max_tokens → tail ≠ [] → o_ended o = false → s ≠ [];
  ol_reach : reachable e0 (o_emit o);
  ol_quiet : quiet e0 → o_forced o = [] ∧ (o_ended o = false → Forall (λ so, stop so.2 = None) s) ∧ Forall (λ so, stop so.2 = None) (take (length s - 1) s) }.

Lemma observe_tail_log tail : ∀ d e h c, reachable e0 e → host_log d [] h → ∃ s extra, observed_log d h tail c (observe_tail max_tokens tail e h c) s extra.
Proof.
  induction tail as [|tok tail IH]; intros d e h c He Hlog; cbn [observe_tail].
  { exists [], []. split; cbn; rewrite ?app_nil_r; try done; lia. }
  case_bool_decide as Hg. { exists [], []. split; cbn; rewrite ?app_nil_r; try done; lia. }
  destruct (emit_observe _ tok) as [outcome e1] eqn:Ho. destruct (observe_seen e0 e e1 _ _ _ He Ho) as [He1 Hseen]. case_bool_decide as Hgr.
  { exists [], (events outcome). split; cbn; rewrite ?app_nil_r; try done; try lia. by apply send_log. }
  destruct (take_forced e1) as [forced e2] eqn:Hf. pose proof (take_reachable _ _ _ _ He1 Hf) as He2.
  pose proof (λ Hq, quiet_take _ _ _ _ Hq He1 Hf) as Hq.
  pose proof (note_log d h tok outcome Hlog Hseen ltac:(lia)) as Hn. case_bool_decide as Hfn; cbn [negb].
  - destruct (stop outcome) as [reason|] eqn:Hstop.
    + exists [(tok, outcome)], []. split; cbn; try done; try lia. by apply sticky_log.
    + destruct (IH (d ++ [(tok, outcome)]) e2 (note_token h tok outcome) (c + 1) He2 Hn) as (s & extra & [H1 H2 H3 H4 H5 H6 H7 H8 H9]).
      exists ((tok, outcome) :: s), extra. rewrite <- app_assoc in H1. split; cbn; try done; try lia; [by rewrite H2|].
      intros H0. destruct (H9 H0) as (? & ? & ?). split_and!; [done|auto|]. rewrite Nat.sub_0_r. destruct s; [constructor|]. cbn in *. rewrite Nat.sub_0_r in *. by constructor.
  - exists [(tok, outcome)], []. split; cbn; try done; try lia. intros H0. by specialize (Hq H0).
Qed.

(** Staging observes a prefix of the forced tokens. *)
Lemma stage_log forced : ∀ e hint, reachable e0 e → let '(staged, stopped, e') := stage forced e hint in
  reachable e0 e' ∧ Forall (seen e0) staged ∧ length staged ≤ length forced ∧ (forced ≠ [] → staged ≠ []).
Proof.
  induction forced as [|tok forced IH]; intros e hint He; cbn [stage]; [done|]. destruct (emit_observe _ tok) as [outcome e1] eqn:Ho.
  destruct (observe_seen e0 e e1 _ _ _ He Ho) as [He1 Hseen].
  destruct (stop outcome); [by split_and!; cbn; [|repeat constructor|lia|]|]. specialize (IH e1 (if spec_outcome_seed_committable outcome then hint + 1 else hint) He1).
  destruct (stage forced e1 _) as [[staged stopped] e2]. destruct IH as (He2 & Hall & Hle & _). split_and!; cbn; [done|by constructor|lia|done].
Qed.

Lemma poll_abort_keeps w w' : poll_abort w = Done w' → w_spec w' = w_spec w ∧ w_target w' = w_target w ∧ w_emit w' = w_emit w.
Proof. unfold poll_abort. destruct (check_abort _) as [[] a]; [done|]. by intros [= <-]. Qed.

Lemma advance_keeps w position commit w' : advance_committed w position commit = Done w' → w_spec w' = w_spec w ∧ w_emit w' = w_emit w.
Proof.
  unfold advance_committed. case_bool_decide; [by intros [= <-]|]. destruct (spec_advance _ _ _ _) as [[[|]|?|] t1]; cbn [or_terminal out_bind]; try done.
  by intros [= <-].
Qed.

(** What forcing tokens does, when it does anything: the staged tokens are noted, the
    pending seed is committed if it had events, and with it the staged tokens but the
    last, which is the new seed. *)
Record forced_log d w h w' h' (s : log Ev) (tok : token) (outcome : EmitOutcome Ev) : Prop := {
  fl_log : host_log (d ++ s ++ [(tok, outcome)]) [] h';
  fl_seed : h_seed h' = tok;
  fl_position : h_position h' = h_position h + length ((if h_committable h then [h_seed h] else []) ++ s.*1);
  fl_spec : w_spec w' = w_spec w;
  fl_reach : reachable e0 (w_emit w');
  fl_target : ∃ w1 w2, w_target w1 = w_target w ∧ w_target w' = w_target w2 ∧
    advance_committed w1 (h_position h) ((if h_committable h then [h_seed h] else []) ++ s.*1) = Done w2 }.

Lemma forced_host forced_all d w h r w' h' : reachable e0 (w_emit w) → host_log d [] h →
  apply_spec_forced_pending_seed physical_cap max_tokens forced_all w h = Done (r, w', h') →
  (w' = w ∧ h' = h) ∨ forced_all ≠ [] ∧ ∃ s tok outcome, forced_log d w h w' h' s tok outcome.
Proof.
  intros He Hlog. unfold apply_spec_forced_pending_seed. case_bool_decide as Hfn; [intros [= <- <- <-]; by left|].
  unfold spec_forced_tokens_within_budget. set (forced := take _ forced_all). assert (length forced ≤ max_tokens - h_generated h) as Hlen by (unfold forced; rewrite length_take; lia).
  case_bool_decide as Hf; [intros [= <- <- <-]; by left|]. pose proof (stage_log forced (w_emit w) (h_generated h) He) as Hst.
  destruct (stage forced (w_emit w) (h_generated h)) as [[staged stopped] e1]. destruct Hst as (He1 & Hall & Hle & Hne). specialize (Hne Hf).
  assert (0 < length forced) by (destruct forced; [done|cbn; lia]). destruct (exists_last Hne) as (s & [tok outcome] & ->).
  unfold spec_forced_pending_seed_tx. rewrite fmap_app. cbn [fmap list_fmap fst]. rewrite last_snoc, length_app, Nat.add_sub, take_app_length.
  rewrite bool_decide_eq_false_2 by (by intros [_ ?]%app_nil). cbn [negb assert mbind result_bind expect or_terminal out_bind tx_commit tx_pending_seed tx_position_delta].
  destruct (spec_forced_commit_admits _ _ _ _); cbn [negb]; [|done]. destruct (poll_abort _) as [w1| |] eqn:Hw1; cbn [out_bind]; try done.
  destruct (advance_committed _ _ _) as [w2| |] eqn:Hw2; cbn [out_bind]; try done. destruct (poll_abort w2) as [w3| |] eqn:Hw3; cbn [out_bind]; try done.
  intros [= <- <- <-]. right. split; [done|]. exists s, tok, outcome. pose proof (advance_keeps _ _ _ _ Hw2) as (Hsp2 & Hem2).
  apply poll_abort_keeps in Hw1 as (Hsp1 & Ht1 & Hem1), Hw3 as (Hsp3 & Ht3 & Hem3). cbn [w_spec w_target w_emit] in Hsp1, Ht1, Hem1.
  destruct (note_all (s ++ [(tok, outcome)]) Hall d (move_to h (h_position h + length ((if h_committable h then [h_seed h] else []) ++ s.*1)) tok)) as (H1 & H2 & H3).
  { by apply move_log. } { cbn [move_to h_generated]. lia. }
  split; [done|done|done|congruence|congruence|by exists w1, w2].
Qed.

(** ** Termination *)

(** A window emits at least one token; the capacity of a speculator is fixed. *)
Lemma step_emits (sp : ChainSpeculator D S) (t : T) position seed emitted max_emit st sp' t' :
  step sp t position seed emitted max_emit = (Ok st, (sp', t')) → emit st ≠ [] ∧ ctx_capacity sp' = ctx_capacity sp.
Proof.
  unfold step. case_bool_decide as Hm; [done|]. destruct (propose _ _ _ _) as [draft dr]. cbn [scratch with_drafter]. destruct (scratch sp) as [s|]; [|done].
  destruct (verify _ _ _ _ _) as [[picks|?|] [[t1 s1] rng]]; try done. unfold finish_step. destruct (accept_greedy_prefix _ _ _) as [acc|?|]; try done.
  destruct (last _) as [bonus|] eqn:Hl; [|done]. destruct (commit_prefix _ _ _ _ _) as [[[]|?|] [t2 s2]]; try done. intros [= <- <- _]. split; [|done].
  assert (ga_committed (clamp_accept acc max_emit) ≠ []) as Hne by (intros E0; by rewrite E0 in Hl).
  destruct (cap_emit_wf (SpecStep_new (ga_committed (clamp_accept acc max_emit)) bonus (length draft) (ga_accepted (clamp_accept acc max_emit))) max_emit Hm Hne Hl) as [_ He].
  intros E0. by rewrite E0 in He.
Qed.

Lemma prefill_keeps (sp : ChainSpeculator D S) (t : T) tokens fill start hit r sp' t' :
  prefill nucleus sp t tokens fill start hit = (r, (sp', t')) → ctx_capacity sp' = ctx_capacity sp.
Proof.
  unfold prefill. assert (∀ r1 sp1 t1, ensure_scratch sp t = (r1, (sp1, t1)) → ctx_capacity sp1 = ctx_capacity sp) as Hens.
  { unfold ensure_scratch. intros r1 sp1 t1. destruct (scratch sp); [by intros [= <- <- <-]|]. destruct (new_spec_scratch _ _) as [[?|?|] t2]; by intros [= <- <- <-]. }
  destruct (ensure_scratch sp t) as [[[]|?|] [sp1 t1]]; specialize (Hens _ _ _ eq_refl); [|by intros [= <- <- <-]..].
  destruct (spec_advance _ _ _ _) as [[[argmax [logits|]|]|?|] t2]; cbn; [destruct (sampled sp1); cbn|destruct (sampled sp1); cbn|..]; try (by intros [= <- <- <-]).
  destruct (nucleus _ _ _ _ _) as [tok rng]. by intros [= <- <- <-].
Qed.

Lemma realign_plan_exact raw : ∃ plan, spec_prefix_realign_plan prompt first raw = Ok plan ∧
  rp_replay plan ++ [rp_seed plan] = prompt ++ first :: raw ∧ rp_position plan = length (rp_replay plan).
Proof.
  unfold spec_prefix_realign_plan. destruct (last raw) as [seed|] eqn:Hl.
  - apply last_Some in Hl as [pre ->]. rewrite length_app, Nat.add_sub, take_app_length. rewrite bool_decide_eq_true_2 by (rewrite !length_app; cbn; lia).
    eexists. split; [done|]. cbn. rewrite !length_app, <- !app_assoc. cbn. split; [done|lia].
  - apply last_None in Hl as ->. eexists. done.
Qed.

Lemma realign_host ctx_cap w h w' h' : realign nucleus physical_cap prompt first ctx_cap w h = Done (w', h') →
  ctx_capacity (w_spec w') = ctx_capacity (w_spec w) ∧ w_emit w' = w_emit w ∧
  h' = move_to h (length prompt + length (h_raw h)) (h_seed h') ∧ last (first :: h_raw h) = Some (h_seed h').
Proof.
  unfold realign. destruct (realign_plan_exact (h_raw h)) as (plan & -> & Hreplay & Hpos). cbn [or_terminal out_bind].
  destruct (spec_prefix_realign_admit _ _ _ _ _); cbn [or_terminal out_bind]; [|done|done].
  destruct (reset_recurrent _) as [[[]|?|] t1] eqn:Hr; cbn [or_terminal out_bind]; [|done|done].
  destruct (prefill _ _ _ _ _ _ _) as [[[tok|]|?|] [sp2 t2]] eqn:Hpre; cbn [or_terminal out_bind]; try done. intros [= <- <-].
  apply prefill_keeps in Hpre. split_and!; [done|done| |].
  - cbn [h_seed move_to]. f_equal. apply (f_equal length) in Hreplay. rewrite !length_app in Hreplay. cbn in Hreplay. lia.
  - apply (f_equal last) in Hreplay. rewrite last_snoc, last_app_cons in Hreplay. by rewrite <- Hreplay.
Qed.

(** A window that does not end the turn moves the position forward. *)
Lemma cycle_progress d w h w' h' : reachable e0 (w_emit w) → host_log d [] h → h_position h ≤ length prompt + length (h_raw h) → h_generated h < max_tokens →
  cycle nucleus physical_cap max_tokens prompt first w h = Done (false, w', h') →
  ctx_capacity (w_spec w') = ctx_capacity (w_spec w) ∧ h_position h < ctx_capacity (w_spec w) ∧ h_position h < h_position h' ∧
  h_position h' ≤ length prompt + length (h_raw h') ∧ reachable e0 (w_emit w') ∧ ∃ d', host_log d' [] h'.
Proof.
  intros He Hlog Hpos Hlt. unfold cycle. destruct (poll_abort w) as [w0| |] eqn:Hw0; cbn [out_bind]; try done. apply poll_abort_keeps in Hw0 as (-> & -> & ->).
  case_bool_decide as Hcap; [done|]. destruct (step _ _ _ _ _ _) as [[st|?|] [sp t]] eqn:Hstep; cbn [or_terminal out_bind]; try done.
  apply step_emits in Hstep as [Hne Hctx]. destruct (observe_tail_log (emit st) d (w_emit w) h 0 He Hlog) as (s & extra & [H1 H2 H3 H4 H5 H6 H7 H8 _]).
  set (o := observe_tail _ _ _ _ _) in *. specialize (H7 Hlt Hne). set (w1 := mkWorld sp t (o_emit o) (w_abort w0)). set (h1 := move_to (o_host o) _ _).
  assert (host_log (d ++ s) extra h1) as Hlog1 by (by apply move_log).
  assert (length (h_raw h1) = length (h_raw h) + length s) as Hraw.
  { pose proof (hl_raw _ _ _ Hlog1) as Hr. apply (f_equal length) in Hr. rewrite fmap_app, (hl_raw _ _ _ Hlog), length_app, length_fmap in Hr. cbn in Hr |- *. lia. }
  assert (h_position h1 = h_position h + length s) as Hp1.
  { cbn [h1 move_to h_position spec_host_advance_after_step ha_position]. rewrite length_take, H4. lia. }
  destruct (if bool_decide (Nat.min _ _ < _) then _ else _) as [[w2 h2]| |] eqn:Hre; cbn [out_bind]; try done.
  assert (ctx_capacity (w_spec w2) = ctx_capacity (w_spec w) ∧ reachable e0 (w_emit w2) ∧ host_log (d ++ s) extra h2 ∧ h_position h + length s ≤ h_position h2 ∧
    h_position h2 ≤ length prompt + length (h_raw h2)) as (Hctx2 & He2 & Hlog2 & Hlow & Hhigh).
  { case_bool_decide.
    - apply realign_host in Hre as (Hc2 & Hem2 & E2 & _). rewrite E2. cbn [move_to h_position h_raw]. split_and!; [by rewrite Hc2|by rewrite Hem2|by apply move_log|lia|done].
    - injection Hre as <- <-. split_and!; [done|done|done|lia|lia]. }
  clear Hre. clearbody h1 w1.
  assert (o_ended o = false → 0 < length s) as Hprog. { intros Ho. specialize (H7 Ho). destruct s; [done|cbn; lia]. }
  case_bool_decide as Hf; cbn [out_bind].
  - intros [= Hend <- <-]. rewrite orb_false_r in Hend. specialize (Hprog Hend). rewrite (H5 Hend) in Hlog2. split_and!; [done|lia|lia|done|done|by eexists].
  - assert (o_ended o = false) as Hend by (destruct (o_ended o); [by specialize (H6 eq_refl)|done]). specialize (Hprog Hend). rewrite (H5 Hend) in Hlog2. rewrite Hend.
    destruct (apply_spec_forced_pending_seed _ _ _ _ _) as [[[r w3] h3]| |] eqn:Hforced; cbn [out_bind]; try done.
    apply (forced_host _ _ _ _ _ _ _ He2 Hlog2) in Hforced as [[-> ->]|(_ & s3 & tok & outcome & [F1 F2 F3 F4 F5 _])].
    + destruct r; cbn [out_bind]; try done; intros [= <- <-]; (split_and!; [done|lia|lia|done|done|by eexists]).
    + pose proof (hl_raw _ _ _ F1) as Hr3. apply (f_equal length) in Hr3. rewrite fmap_app, (hl_raw _ _ _ Hlog2), !fmap_app, !length_app, !length_fmap in Hr3.
      rewrite length_app, length_fmap in F3. cbn in Hr3.
      assert (length (if h_committable h2 then [h_seed h2] else []) ≤ 1) by (destruct (h_committable h2); cbn; lia).
      destruct r; cbn [out_bind]; try done; intros [= <- <-]; (split_and!; [congruence|lia|lia|lia|done|by eexists]).
Qed.

Lemma loop_ends fuel : ∀ d w h, reachable e0 (w_emit w) → host_log d [] h → h_position h ≤ length prompt + length (h_raw h) →
  ctx_capacity (w_spec w) - h_position h < fuel → spec_loop nucleus physical_cap max_tokens fuel prompt first w h ≠ OutOfFuel.
Proof.
  induction fuel as [|fuel IH]; intros d w h He Hlog Hpos Hfuel; [lia|]. cbn [spec_loop]. case_bool_decide as Hg; [done|].
  destruct (cycle _ _ _ _ _ w h) as [[[[] w1] h1]| |] eqn:Hcy; try done.
  apply (cycle_progress d) in Hcy as (Hc & Hlt & Hmove & Hpos1 & He1 & d1 & Hlog1); [|done|done|done|lia]. apply (IH d1); [done|done|done|]. rewrite Hc. lia.
Qed.

(** The first token. *)
Lemma begin_log w ended w' h : e0 = w_emit w → begin_decode physical_cap max_tokens prompt first w = Done (ended, w', h) →
  ∃ outcome h0 w0, w_spec w0 = w_spec w ∧ w_target w0 = w_target w ∧ reachable e0 (w_emit w0) ∧
    host_log [(first, outcome)] [] h0 ∧ h_seed h0 = first ∧ h_position h0 = length prompt ∧ h_raw h0 = [] ∧
    (ended = false → quiet e0 → stop outcome = None) ∧
    ((w' = w0 ∧ h = h0) ∨ ∃ h3, (h = h3 ∨ ∃ reason, h = sticky h3 reason) ∧
      ((w' = w0 ∧ h3 = h0) ∨ ¬ quiet e0 ∧ ∃ s tok outcome', forced_log [(first, outcome)] w0 h0 w' h3 s tok outcome')).
Proof.
  intros He. unfold begin_decode. destruct (emit_begin _ _) as [outcome e1] eqn:Hb. destruct (take_forced e1) as [forced e2] eqn:Hf.
  set (h0 := mkHost _ _ _ _ _ _ _ _). set (w0 := mkWorld _ _ _ _). rewrite <- He in Hb.
  assert (reachable e0 e1) as He1. { pose proof (reach_begin e0 _ first (reach_start e0)) as Hr. by rewrite Hb in Hr. }
  assert (reachable e0 (w_emit w0)) as He2 by (by apply (take_reachable _ _ _ _ He1 Hf)).
  assert (host_log [(first, outcome)] [] h0) as Hlog.
  { unfold h0. split; cbn [h_raw h_emitted h_sent h_committable h_generated]; rewrite ?shown_one; try done.
    - repeat constructor. exists e0. split; [constructor|]. left. cbn. by rewrite Hb.
    - unfold log_events. cbn. by rewrite !app_nil_r.
    - by destruct (spec_outcome_seed_committable outcome).
    - destruct (spec_outcome_seed_committable outcome); lia. }
  intros Hrun. exists outcome, h0, w0. split_and!; try done; revert Hrun; case_bool_decide as Hfn.
  - intros [= <- <- <-]. by destruct (stop outcome).
  - intros _ _ Hq. by rewrite (quiet_take _ _ _ _ Hq He1 Hf) in Hfn.
  - intros [= <- <- <-]; by left.
  - destruct (apply_spec_forced_pending_seed _ _ _ _ _) as [[[r w3] h3]| |] eqn:Hforced; cbn [out_bind]; try done.
    intros Hrun. assert (w' = w3 ∧ (h = h3 ∨ ∃ reason, h = sticky h3 reason)) as [-> Hh].
    { destruct r; injection Hrun as <- <- <-; split; eauto. }
    right. exists h3. split; [done|]. apply (forced_host _ _ _ _ _ _ _ He2 Hlog) in Hforced as [[-> ->]|[_ Hforced]]; [by left|]. right. split; [|done].
    intros Hq. by rewrite (quiet_take _ _ _ _ Hq He1 Hf) in Hfn.
Qed.
End HostSide.

(** ** The target's side *)

Section Aligned.
Context {D S T E Ev A : Type} `{!BlockDrafter D} `{!SpecTarget T S} `{!SpecEmit E Ev} `{!Ambient A} `{!TargetContract T S}.
Context (nucleus : list f32 → f32 → f32 → nat → Z → token * Z) (physical_cap max_tokens : nat) (prompt : list token) (first : token) (e0 : E).
Implicit Types (h : Host Ev) (w : World D S T E A) (d : log Ev).

Definition unstopped (so : token * EmitOutcome Ev) : Prop := stop so.2 = None.

(** The pending-seed invariant: the target has processed the prompt and the decoded
    tokens before the last, less some without events, and the last is the seed. With an
    emitter that forces nothing ([e0] is where the turn began), none is missing and the
    decoding is greedy. *)
Record aligned (d : log Ev) (outcome : EmitOutcome Ev) (k : list token) (extra : list Ev) w h : Prop := {
  al_log : host_log max_tokens first e0 (d ++ [(h_seed h, outcome)]) extra h;
  al_history : history (w_target w) = prompt ++ k;
  al_position : h_position h = length (prompt ++ k);
  al_kept : kept d k;
  al_mode : sampled (w_spec w) = false;
  al_reach : reachable e0 (w_emit w);
  al_quiet : quiet e0 → k = d.*1 ∧ greedy_from (T := T) prompt (d.*1 ++ [h_seed h]) ∧ Forall unstopped d }.

(** The loop goes on. *)
Definition going (d : log Ev) : Prop := quiet e0 → Forall unstopped d.

Lemma sticky_aligned d outcome k extra w h reason : aligned d outcome k extra w h → aligned d outcome k extra w (sticky h reason).
Proof. intros [H1 H2 H3 H4 H5 H6 H7]. split; try done. by apply (sticky_log _ _ _ _ _ h). Qed.

Lemma poll_aligned d outcome k extra w w' h : poll_abort w = Done w' → aligned d outcome k extra w h → aligned d outcome k extra w' h.
Proof. intros (Hs & Ht & He)%poll_abort_keeps [H1 H2 H3 H4 H5 H6 H7]. split; by rewrite ?Hs, ?Ht, ?He. Qed.

Lemma advance_committed_exact w position commit w' : advance_committed w position commit = Done w' → position = length (history (w_target w)) →
  history (w_target w') = history (w_target w) ++ commit.
Proof.
  unfold advance_committed. case_bool_decide as Hc; [intros [= <-] _; by rewrite Hc, app_nil_r|].
  destruct (spec_advance _ _ _ _) as [[[argmax logits|]|?|] t1] eqn:Ha; cbn [or_terminal out_bind]; try done. intros [= <-] ->.
  by apply contract_advance in Ha as [Hh _].
Qed.

(** Forcing tokens keeps the invariant; a seed without events is left out. *)
Lemma forced_aligned d outcome k w h w' h' s tok outcome' : aligned d outcome k [] w h → ¬ quiet e0 →
  forced_log max_tokens first e0 (d ++ [(h_seed h, outcome)]) w h w' h' s tok outcome' → ∃ d' k', aligned d' outcome' k' [] w' h'.
Proof.
  intros [H1 H2 H3 H4 H5 _ _] Hnq [F1 F2 F3 F4 F5 (w1 & w2 & Ft1 & Ft2 & Fa)]. apply advance_committed_exact in Fa; [|by rewrite Ft1, H2].
  rewrite Ft1, H2, <- app_assoc in Fa. exists (d ++ [(h_seed h, outcome)] ++ s), (k ++ (if h_committable h then [h_seed h] else []) ++ s.*1).
  split; [|by rewrite Ft2| | |by rewrite F4|done|done].
  - rewrite F2, <- app_assoc in *. by rewrite <- app_assoc.
  - rewrite F3, H3, !length_app. lia.
  - apply kept_app; [done|]. apply kept_app; [|apply kept_full]. rewrite (hl_committable _ _ _ _ _ _ H1). unfold last_shown. rewrite last_snoc. cbn.
    destruct (spec_outcome_seed_committable outcome) eqn:Hc; [repeat constructor|]. apply committable_events in Hc. by repeat constructor.
Qed.

(** Realignment replays everything decoded. *)
Lemma realign_history ctx_cap w h w' h' : prompt ≠ [] → sampled (w_spec w) = false →
  realign nucleus physical_cap prompt first ctx_cap w h = Done (w', h') →
  history (w_target w') ++ [h_seed h'] = prompt ++ first :: h_raw h ∧ sampled (w_spec w') = false.
Proof.
  intros Hp Hs. unfold realign. destruct (realign_plan_exact prompt first (h_raw h)) as (plan & -> & Hreplay & Hpos). cbn [or_terminal out_bind].
  destruct (spec_prefix_realign_admit _ _ _ _ _); cbn [or_terminal out_bind]; [|done|done].
  destruct (reset_recurrent _) as [[[]|?|] t1] eqn:Hr; cbn [or_terminal out_bind]; [|done|done].
  destruct (prefill _ _ _ _ _ _ _) as [[[tok|]|?|] [sp2 t2]] eqn:Hpre; cbn [or_terminal out_bind]; try done. intros [= <- <-].
  apply prefill_greedy in Hpre as (Hh & _ & Hs2 & _); [| done | | done].
  - cbn [w_target h_seed move_to w_spec]. rewrite Hh. cbn [app]. by rewrite Hreplay.
  - intros E0. rewrite E0 in Hreplay. cbn in Hreplay. destruct prompt as [|x [|y l]]; done.
Qed.

Lemma realign_aligned ctx_cap d extra w h w' h' : prompt ≠ [] → sampled (w_spec w) = false → host_log max_tokens first e0 d extra h →
  reachable e0 (w_emit w) → (quiet e0 → greedy_from (T := T) prompt d.*1 ∧ Forall unstopped (take (length d - 1) d)) →
  realign nucleus physical_cap prompt first ctx_cap w h = Done (w', h') →
  ∃ d' outcome, d = d' ++ [(h_seed h', outcome)] ∧ aligned d' outcome d'.*1 extra w' h'.
Proof.
  intros Hp Hs Hlog Hreach Hq Hre. pose proof (realign_history _ _ _ _ _ Hp Hs Hre) as [Hh Hs']. apply realign_host in Hre as (_ & He & Hh' & Hseed).
  rewrite <- (hl_raw _ _ _ _ _ _ Hlog) in Hh, Hseed. destruct (exists_last (l := d)) as (d' & [tok outcome] & ->). { by intros ->. }
  rewrite fmap_app in *. cbn [fmap list_fmap fst] in *. rewrite last_snoc in Hseed. injection Hseed as ->. rewrite app_assoc in Hh. apply app_inj_2 in Hh as [Hh _]; [|done].
  exists d', outcome. split; [done|]. split; [rewrite Hh'; cbn [h_seed move_to]; by apply move_log|done| |apply kept_full|done|by rewrite He|].
  - rewrite Hh'. cbn [h_position move_to]. pose proof (hl_raw _ _ _ _ _ _ Hlog) as Hr. apply (f_equal length) in Hr. rewrite fmap_app, length_app in Hr. cbn in Hr. rewrite length_app. lia.
  - intros H0. destruct (Hq H0) as [? Hu]. rewrite length_app, Nat.add_sub, take_app_length in Hu. done.
Qed.

(** What a window leaves of the decoded tokens is greedy when nothing was forced. *)
Lemma observed_greedy d outcome k w h st s : aligned d outcome k [] w h → greedy_from (T := T) (history (w_target w) ++ [h_seed h]) (emit st) →
  s.*1 = take (length s) (emit st) → quiet e0 → greedy_from (T := T) prompt (d ++ [(h_seed h, outcome)] ++ s).*1.
Proof.
  intros Hal Hfrom Hs Hq. destruct (al_quiet _ _ _ _ _ _ Hal Hq) as (Hk & Hg & _). rewrite (al_history _ _ _ _ _ _ Hal), Hk, <- app_assoc in Hfrom.
  rewrite !fmap_app, app_assoc. apply greedy_from_app. split; [done|]. rewrite <- (take_drop (length s) (emit st)), <- Hs in Hfrom. by apply greedy_from_app in Hfrom as [? _].
Qed.

Lemma unstopped_init (d s : log Ev) x : Forall unstopped (d ++ [x]) → Forall unstopped (take (length s - 1) s) →
  Forall unstopped (take (length (d ++ [x] ++ s) - 1) (d ++ [x] ++ s)).
Proof.
  intros Hd Hs. destruct s as [|y s] using rev_ind; [by apply Forall_take|]. rewrite !app_assoc, length_app, Nat.add_sub, take_app_length.
  rewrite length_app, Nat.add_sub, take_app_length in Hs. by apply Forall_app.
Qed.

(** A window, with the realignment when it was observed in part. *)
Lemma window_aligned d outcome k w h st sp t s extra o ctx_cap w' h' : prompt ≠ [] → aligned d outcome k [] w h → going (d ++ [(h_seed h, outcome)]) →
  step (w_spec w) (w_target w) (h_position h) (h_seed h) (h_emitted h) (max_tokens - h_generated h) = (Ok st, (sp, t)) →
  observed_log max_tokens first e0 (d ++ [(h_seed h, outcome)]) h (emit st) 0 o s extra →
  let host := spec_host_advance_after_step (h_position h) 0 [] (emit st) (next_seed st) (o_consumed o) in
  let seed := if bool_decide (o_consumed o = 0) then default first (last (h_raw (o_host o))) else ha_seed host in
  let h1 := move_to (o_host o) (ha_position host) seed in
  let w1 := mkWorld sp t (o_emit o) (w_abort w) in
  (if bool_decide (Nat.min (o_consumed o) (length (emit st)) < length (emit st)) then realign nucleus physical_cap prompt first ctx_cap w1 h1 else Done (w1, h1))
    = Done (w', h') →
  ∃ d' outcome' k', aligned d' outcome' k' extra w' h' ∧ (o_ended o = false → going (d' ++ [(h_seed h', outcome')])).
Proof.
  intros Hp Hal Hgo Hstep [O1 O2 O3 O4 O5 O6 O7 O8 O9]. cbn zeta. pose proof Hal as [H1 H2 H3 H4 H5 H6 H7].
  apply step_greedy in Hstep as (Hne & _ & _ & _ & Hlast & Hfrom & Hhist & Hs1 & _); [|done|by rewrite H2].
  pose proof (observed_greedy _ _ _ _ _ _ _ Hal Hfrom O2) as Hgr. cbn [Nat.add] in O4. rewrite O4, <- app_assoc in *. rewrite Nat.min_l by done.
  assert (o_ended o = false → going (d ++ [(h_seed h, outcome)] ++ s)) as Hgo'. { intros Ho Hq. rewrite app_assoc. apply Forall_app. split; [by apply Hgo|by apply O9]. }
  case_bool_decide as Hk.
  - intros Hre. apply (realign_aligned _ (d ++ [(h_seed h, outcome)] ++ s) extra) in Hre as (d' & outcome' & Hd & Hal'); [eexists _, _, _; split; [done|by rewrite <- Hd]|done|done|by apply move_log|done|].
    intros Hq. split; [by apply Hgr|]. by apply unstopped_init; [apply Hgo|apply O9].
  - intros [= <- <-]. rewrite take_ge in O2 by lia. destruct (exists_last (l := s)) as (s0 & [tok outcome'] & ->). { intros ->. by destruct (emit st). }
    rewrite fmap_app in O2. cbn in O2. rewrite <- O2 in *. rewrite last_snoc in Hlast. injection Hlast as <-. rewrite !length_app in *. cbn in Hk. rewrite length_fmap in *.
    rewrite bool_decide_eq_false_2 by (cbn; lia). exists (d ++ [(h_seed h, outcome)] ++ s0), outcome', (k ++ h_seed h :: s0.*1).
    assert (history t = prompt ++ k ++ h_seed h :: s0.*1) as Ht.
    { rewrite H2, !app_assoc in Hhist. apply app_inj_2 in Hhist as [-> _]; [|done]. by rewrite <- !app_assoc. }
    set (h1 := move_to _ _ _). assert (h_seed h1 = tok) as Hseed.
    { cbn. rewrite take_ge by (rewrite length_app, length_fmap; cbn; lia). by rewrite last_snoc. }
    split; [|intros Ho; rewrite Hseed, <- !app_assoc; by apply Hgo']. split; [|done| | |done|done|].
    + rewrite Hseed, <- !app_assoc. by apply move_log.
    + cbn. rewrite length_take, H3, !length_app. cbn. rewrite length_fmap. lia.
    + apply kept_app; [done|]. constructor. apply kept_full.
    + intros Hq. split_and!.
      * destruct (H7 Hq) as (-> & _). by rewrite fmap_app.
      * rewrite Hseed. specialize (Hgr Hq). rewrite !fmap_app in Hgr |- *. cbn in Hgr |- *. rewrite <- app_assoc. cbn. by rewrite fmap_app in Hgr.
      * rewrite app_assoc. apply Forall_app. split; [by apply Hgo|]. destruct (O9 Hq) as (_ & _ & Hu). cbn [length] in Hu. by rewrite Nat.add_sub, take_app_length in Hu.
Qed.

(** One iteration of the loop keeps the invariant. *)
Lemma cycle_aligned d outcome k w h ended w' h' : prompt ≠ [] → aligned d outcome k [] w h → going (d ++ [(h_seed h, outcome)]) →
  cycle nucleus physical_cap max_tokens prompt first w h = Done (ended, w', h') →
  ∃ d' outcome' k' extra, aligned d' outcome' k' extra w' h' ∧ (ended = false → extra = [] ∧ going (d' ++ [(h_seed h', outcome')])).
Proof.
  intros Hp Hal Hgo. unfold cycle. destruct (poll_abort w) as [w0| |] eqn:Hw0; cbn [out_bind]; try done. apply (poll_aligned _ _ _ _ _ _ _ Hw0) in Hal. clear Hw0.
  case_bool_decide as Hcap; [intros [= <- <- <-]; by eexists _, _, _, _|]. destruct (step _ _ _ _ _ _) as [[st|?|] [sp t]] eqn:Hstep; cbn [or_terminal out_bind]; try done.
  destruct (observe_tail_log max_tokens first e0 (emit st) _ (w_emit w0) h 0 (al_reach _ _ _ _ _ _ Hal) (al_log _ _ _ _ _ _ Hal)) as (s & extra & Hobs).
  pose proof Hobs as [_ _ _ _ O5 O6 _ _ O9].
  set (o := observe_tail _ _ _ _ _) in *. destruct (if bool_decide (Nat.min _ _ < _) then _ else _) as [[w2 h2]| |] eqn:Hre; cbn [out_bind]; try done.
  apply (window_aligned _ _ _ _ _ _ _ _ _ _ _ _ _ _ Hp Hal Hgo Hstep Hobs) in Hre as (d2 & outcome2 & k2 & Hal2 & Hgo2).
  case_bool_decide as Hf; cbn [out_bind].
  - intros [= <- <- <-]. rewrite orb_false_r. eexists _, _, _, _. split; [exact Hal2|]. intros Ho. split; auto.
  - assert (o_ended o = false) as Hend by (destruct (o_ended o); [by specialize (O6 eq_refl)|done]). rewrite (O5 Hend) in Hal2. rewrite Hend.
    assert (¬ quiet e0) as Hnq. { intros Hq. by destruct (O9 Hq). }
    destruct (apply_spec_forced_pending_seed _ _ _ _ _) as [[[r w3] h3]| |] eqn:Hforced; cbn [out_bind]; try done.
    assert (∃ d3 outcome3 k3, aligned d3 outcome3 k3 [] w3 h3) as (d3 & outcome3 & k3 & Hal3).
    { apply (forced_host _ _ _ _ _ _ _ _ _ _ _ (al_reach _ _ _ _ _ _ Hal2) (al_log _ _ _ _ _ _ Hal2)) in Hforced as [[-> ->]|(_ & s3 & tok & outcome3 & Hfl)]; [by eexists _, _, _|].
      destruct (forced_aligned _ _ _ _ _ _ _ _ _ _ Hal2 Hnq Hfl) as (? & ? & ?). by eexists _, _, _. }
    destruct r; cbn [out_bind]; intros [= <- <- <-]; eexists _, _, _, _; (split; [by first [exact Hal3|apply sticky_aligned, Hal3]|]); (split; [done|by intros Hq%Hnq]).
Qed.

Lemma loop_aligned fuel : ∀ d outcome k w h w' h', prompt ≠ [] → aligned d outcome k [] w h → going (d ++ [(h_seed h, outcome)]) →
  spec_loop nucleus physical_cap max_tokens fuel prompt first w h = Finished (w', h') → ∃ d' outcome' k' extra, aligned d' outcome' k' extra w' h'.
Proof.
  induction fuel as [|fuel IH]; intros d outcome k w h w' h' Hp Hal Hgo; cbn [spec_loop]; case_bool_decide as Hg; try done; [intros [= <- <-]; by eexists _, _, _, _..|].
  destruct (cycle _ _ _ _ _ w h) as [[[ended w1] h1]| |] eqn:Hcy; try done. apply (cycle_aligned _ _ _ _ _ _ _ _ Hp Hal Hgo) in Hcy as (d1 & o1 & k1 & extra1 & Hal1 & Hgo1).
  destruct ended; [intros [= <- <-]; by eexists _, _, _, _|]. destruct (Hgo1 eq_refl) as [-> ?]. by apply (IH d1 o1 k1).
Qed.

Lemma begin_aligned w ended w' h : e0 = w_emit w → history (w_target w) = prompt → sampled (w_spec w) = false → first = greedy (T := T) prompt →
  begin_decode physical_cap max_tokens prompt first w = Done (ended, w', h) →
  ∃ d outcome k, aligned d outcome k [] w' h ∧ (ended = false → going (d ++ [(h_seed h, outcome)])).
Proof.
  intros He0 Hh Hs Hfirst Hb. destruct (begin_log _ _ _ _ _ _ _ _ _ He0 Hb) as (outcome & h0 & w0 & Hsp & Ht & Hreach & Hlog & Hseed & Hpos & Hraw & Hgo & Hcase).
  assert (aligned [] outcome [] [] w0 h0) as Hal0.
  { split; rewrite ?Hseed, ?Ht, ?Hsp, ?app_nil_r; try done; [constructor|]. intros H0. split_and!; [done| |constructor].
    intros i tok Hi. destruct i as [|i]; [|done]. injection Hi as <-. by rewrite app_nil_r. }
  assert (ended = false → going ([] ++ [(h_seed h0, outcome)])) as Hgo0. { intros Hend Hq. repeat constructor. by apply Hgo. }
  destruct Hcase as [[-> ->]|(h3 & Hst & Hcase)]; [by eexists _, _, _|].
  assert (∃ d outcome k, aligned d outcome k [] w' h3 ∧ (ended = false → going (d ++ [(h_seed h3, outcome)]))) as (d & o3 & k & Hal3 & Hgo3).
  { destruct Hcase as [[-> ->]|(Hnq & s & tok & outcome' & Hfl)]; [by eexists _, _, _|]. rewrite <- Hseed in Hfl at 2.
    destruct (forced_aligned [] outcome [] w0 h0 w' h3 s tok outcome' Hal0 Hnq Hfl) as (d & k & Hal). exists d, outcome', k. split; [done|]. by intros _ Hq%Hnq. }
  destruct Hst as [->|[reason ->]]; [by eexists _, _, _|]. eexists _, _, _. split; [by apply sticky_aligned|done].
Qed.

(** The flush leaves the target on the conversation. *)
Lemma finish_aligned d outcome k extra w h run : aligned d outcome k extra w h → finish_turn prompt w h = Finished run →
  let all := d ++ [(h_seed h, outcome)] in
  let k' := k ++ (if spec_outcome_seed_committable outcome then [h_seed h] else []) in
  conversation_tokens run = prompt ++ shown all ∧ history (w_target (run_world run)) = prompt ++ k' ∧
  seq_pos run = length (history (w_target (run_world run))) ∧ run_generated run = length (shown all) ∧ run_sent run = log_events all ++ extra.
Proof.
  intros [[_ L1 L2 L3 L4 L5 L6] H2 H3 H4 H5 _ H6]. cbn zeta. unfold last_shown in L4. rewrite last_snoc in L4. cbn [from_option snd] in L4. rewrite <- L4, <- L2, <- L3, <- L5.
  unfold finish_turn, spec_should_flush_pending_seed. destruct (grammar_violated _); cbn [negb andb]; [done|]. destruct (h_committable h) eqn:Hc.
  - destruct (poll_abort w) as [w1| |] eqn:Hw1; cbn [out_bind]; try done. destruct (advance_committed _ _ _) as [w2| |] eqn:Hw2; cbn [out_bind]; try done.
    destruct (poll_abort w2) as [w3| |] eqn:Hw3; cbn [out_bind]; try done. intros [= <-]. cbn.
    apply poll_abort_keeps in Hw1 as (_ & Ht1 & _), Hw3 as (_ & Ht3 & _). apply advance_committed_exact in Hw2; [|by rewrite Ht1, H2].
    rewrite Ht3, Hw2, Ht1, H2. cbn [tx_commit spec_terminal_pending_seed_tx]. rewrite <- app_assoc. split_and!; try done. rewrite H3, !length_app. cbn. lia.
  - intros [= <-]. cbn. rewrite app_nil_r, H2. done.
Qed.
End Aligned.

(** ** The turn *)

Section Main.
Context {D S T E Ev A : Type} `{!BlockDrafter D} `{!SpecTarget T S} `{!SpecEmit E Ev} `{!Ambient A}.
Context (nucleus : list f32 → f32 → f32 → nat → Z → token * Z) (physical_cap max_tokens : nat).
Implicit Types (w : World D S T E A) (run : SpecRun D S T E A Ev).

(** How a greedy turn may start: from scratch, or from a cached prefix of the prompt. *)
Definition turn_start `{!TargetContract T S} w (prompt prefill_tokens : list token) (start : nat) (hit : bool) : Prop :=
  prompt ≠ [] ∧ prefill_tokens ≠ [] ∧ sampled (w_spec w) = false ∧
  if hit then start = length (history (w_target w)) ∧ history (w_target w) ++ prefill_tokens = prompt else prefill_tokens = prompt.

(** What a completed turn leaves, given the log of the tokens it decoded. *)
Record turn_result `{!TargetContract T S} (prompt : list token) (e : E) (run : SpecRun D S T E A Ev) (d : log Ev) (tok : token) (outcome : EmitOutcome Ev) (k : list token) : Prop := {
  (** the conversation is the prompt and the tokens that produced events, and those
      events, in that order, are what the client was sent *)
  tr_text : conversation_tokens run = prompt ++ shown (d ++ [(tok, outcome)]);
  tr_sent : log_events (d ++ [(tok, outcome)]) `prefix_of` run_sent run;
  tr_generated : run_generated run = length (shown (d ++ [(tok, outcome)]));
  tr_budget : run_generated run ≤ Nat.max 1 max_tokens;
  (** every entry of the log is what the emitter said of the token in the turn *)
  tr_seen : Forall (seen e) (d ++ [(tok, outcome)]);
  (** the target has processed the prompt and the decoded tokens, at the recorded
      position; only tokens without events may be missing *)
  tr_history : history (w_target (run_world run)) = prompt ++ k;
  tr_position : seq_pos run = length (history (w_target (run_world run)));
  tr_kept : kept (d ++ [(tok, outcome)]) k;
  (** if only the last decoded token may be without events, that is the conversation *)
  tr_in_step : Forall (λ so, events so.2 ≠ []) d → history (w_target (run_world run)) = conversation_tokens run;
  (** an emitter that forces nothing sees the greedy decoding of the prompt, up to the
      first stop it asks for, and the target has processed all of it, but for a last
      token without events *)
  tr_greedy : quiet e → greedy_from (T := T) prompt (d.*1 ++ [tok]) ∧ Forall unstopped d ∧
    k = d.*1 ++ (if spec_outcome_seed_committable outcome then [tok] else []) }.

Lemma turn_aligned `{!TargetContract T S} w fuel prompt prefill_tokens start hit run :
  turn_start w prompt prefill_tokens start hit →
  generate_spec nucleus physical_cap max_tokens fuel prompt prefill_tokens start hit w = Finished run →
  ∃ d tok outcome k, turn_result prompt (w_emit w) run d tok outcome k.
Proof.
  intros (Hp & Hpt & Hs & Hstart). unfold generate_spec. destruct (prefill _ _ _ _ _ _ _) as [[[first|]|?|] [sp t]] eqn:Hpre; try done.
  apply prefill_greedy in Hpre as (Hh & Hfirst & Hs1 & _); [|done|done|intros ->; by destruct Hstart].
  assert (history t = prompt) as Ht. { rewrite Hh. destruct hit; [by destruct Hstart|by rewrite Hstart]. } rewrite Ht in Hfirst. clear Hh.
  unfold decode_turn. destruct (begin_decode _ _ _ _ _) as [[[ended w1] h1]| |] eqn:Hb; try done.
  apply (begin_aligned _ _ _ _ (w_emit w)) in Hb as (d1 & o1 & k1 & Hal1 & Hgo1); [|done..].
  destruct (if ended then _ else _) as [[w2 h2]| | | |] eqn:Hloop; try done. intros Hfin.
  assert (∃ d outcome k extra, aligned max_tokens prompt first (w_emit w) d outcome k extra w2 h2) as (d & outcome & k & extra & Hal).
  { destruct ended; [injection Hloop as <- <-; by eexists _, _, _, _|]. by apply (loop_aligned _ _ _ _ _ _ _ _ _ _ _ _ _ _ Hp Hal1 (Hgo1 eq_refl)) in Hloop. }
  pose proof (finish_aligned _ _ _ _ _ _ _ _ _ _ _ Hal Hfin) as (Hc & Hh & Hpos & Hgen & Hsent). destruct Hal as [L H2 H3 H4 H5 _ H6].
  exists d, (h_seed h2), outcome, (k ++ (if spec_outcome_seed_committable outcome then [h_seed h2] else [])). split; try done.
  - rewrite Hsent. by eexists.
  - rewrite Hgen, <- (hl_emitted _ _ _ _ _ _ L), <- (hl_generated _ _ _ _ _ _ L). apply (hl_budget _ _ _ _ _ _ L).
  - apply (hl_seen _ _ _ _ _ _ L).
  - apply kept_app; [done|]. destruct (spec_outcome_seed_committable outcome) eqn:Hcm; [apply kept_cons; constructor|]. apply committable_events in Hcm. by repeat constructor.
  - intros Hall. rewrite Hh, Hc, shown_app, shown_one, shown_all by done. do 2 f_equal. by apply kept_all.
  - intros Hq. destruct (H6 Hq) as (-> & Hg & Hu). done.
Qed.

(** C5: in greedy mode speculative decoding is lossless, for every emitter and every
    target that keeps its contract. A turn that completes, with any drafter, any acceptance pattern, stops inside windows, tokens
    held back and tokens forced by the emitter, leaves the conversation as the prompt
    and the decoded tokens that produced client events, within the token budget; the
    target has processed, at the recorded position, the prompt and the decoded tokens in
    order, of which only tokens without events can be missing, and exactly the
    conversation if no token before the last was without events. If the emitter forces
    nothing, the decoded tokens are, one by one, the greedy continuation of the prompt
    the target would decode alone, and the target has processed all of them, but for a
    last one without events. *)
Theorem speculative_turn_lossless `{!TargetContract T S} w fuel prompt prefill_tokens start hit run :
  turn_start w prompt prefill_tokens start hit →
  generate_spec nucleus physical_cap max_tokens fuel prompt prefill_tokens start hit w = Finished run →
  ∃ d tok outcome k, turn_result prompt (w_emit w) run d tok outcome k.
Proof. apply turn_aligned. Qed.

(** C28: the decode loop ends for every drafter, target, emitter, sampling mode and
    cancellation: every window that does not end the turn moves the position forward,
    even if all its tokens are held back, and the loop stops before the context
    capacity, so that more windows than the capacity are never needed. *)
Theorem speculative_turn_ends w fuel prompt prefill_tokens start hit : ctx_capacity (w_spec w) < fuel →
  generate_spec nucleus physical_cap max_tokens fuel prompt prefill_tokens start hit w ≠ OutOfFuel.
Proof.
  intros Hfuel. unfold generate_spec. destruct (prefill _ _ _ _ _ _ _) as [[[first|]|?|] [sp t]] eqn:Hpre; try done. apply prefill_keeps in Hpre.
  unfold decode_turn. destruct (begin_decode _ _ _ _ _) as [[[ended w1] h1]| |] eqn:Hb; try done.
  assert (ctx_capacity (w_spec w1) = ctx_capacity (w_spec w) ∧ h_position h1 ≤ length prompt + length (h_raw h1) ∧ reachable (w_emit w) (w_emit w1) ∧ ∃ d, host_log max_tokens first (w_emit w) d [] h1) as (Hc & Hpos & He & d & Hlog).
  { apply (begin_log _ _ _ _ (w_emit w)) in Hb as (outcome & h0 & w0 & Hsp & _ & Hreach & Hlog & Hseed & Hpos & Hraw & _ & Hcase); [|done]. apply (f_equal ctx_capacity) in Hsp. cbn [w_spec] in Hsp. rewrite Hpre in Hsp.
    destruct Hcase as [[-> ->]|(h3 & Hst & Hcase)]; [rewrite Hsp; split_and!; [done|lia|done|by eexists]|].
    assert (ctx_capacity (w_spec w1) = ctx_capacity (w_spec w) ∧ h_position h3 ≤ length prompt + length (h_raw h3) ∧ reachable (w_emit w) (w_emit w1) ∧ ∃ d, host_log max_tokens first (w_emit w) d [] h3) as (? & ? & ? & d & ?).
    { destruct Hcase as [[-> ->]|(_ & s & tok & outcome' & [F1 F2 F3 F4 F5 _])]; [rewrite Hsp; split_and!; [done|lia|done|by eexists]|].
      split_and!; [by rewrite F4, Hsp| |done|by eexists]. pose proof (hl_raw _ _ _ _ _ _ F1) as Hr. apply (f_equal length) in Hr. cbn in Hr. rewrite length_fmap, length_app in Hr.
      rewrite F3, length_app, length_fmap. cbn in Hr. destruct (h_committable h0); cbn; lia. }
    destruct Hst as [->|[reason ->]]; [by eauto|]. split_and!; [done|done|done|]. eexists. by apply sticky_log. }
  destruct ended; [|pose proof (loop_ends nucleus physical_cap max_tokens prompt first (w_emit w) fuel d w1 h1 He Hlog Hpos ltac:(lia)) as Hends; destruct (spec_loop _ _ _ _ _ _ _ _) as [[w2 h2]| | | |]; try done];
    unfold finish_turn; repeat case_match; done.
Qed.
End Main.

(** ** A target to run against *)

(** A model that decides its next token by the length of the text, with its state the
    tokens processed and its snapshot the state before the block. *)
Module Toy.
Section Toy.
Context (script : list token).
Definition next (text : list token) : token := default 0%Z (script !! length text).

#[export] Instance target : SpecTarget (list token) (list token) := {|
  eos_token _ := 99%Z;
  reset_recurrent _ := (Ok tt, []);
  new_spec_scratch t _ := (Ok [], t);
  spec_advance t tokens _ reset := let t := (if reset then [] else t) ++ tokens in (Ok (AdvanceReady (next t) None), t);
  verify_block t _ block _ := (Ok (imap (λ i _, next (t ++ take (Datatypes.S i) block)) block), (t ++ block, t));
  verify_block_sampled t s _ _ _ _ _ rng := (Err "unsupported"%string, (t, s, rng));
  commit_prefix _ s block accept _ := (Ok tt, (s ++ take (Datatypes.S accept) block, s)) |}.

#[export] Instance contract : TargetContract (list token) (list token).
Proof.
  refine {| history := id; greedy := next |}.
  - by intros t t' [= <-].
  - by intros t n r t' [= <- <-].
  - by intros t tokens start reset argmax logits t' [= <- <- <-].
  - intros t s block position picks t' s' [= <- <- <-] ->. split_and!.
    + by rewrite length_imap.
    + intros i Hi. rewrite list_lookup_imap. by destruct (lookup_lt_is_Some_2 _ _ Hi) as [x ->].
    + by intros accept t'' s'' Hlt [= <- <-].
Defined.
End Toy.

(** An emitter that holds back 3, shows the other tokens and ends the turn on 99, and a
    request that is never cancelled. *)
Definition outcome_of (tok : token) : EmitOutcome token :=
  if bool_decide (tok = 99%Z) then mkEmitOutcome [] (Some Eos) else if bool_decide (tok = 3%Z) then held else mkEmitOutcome [tok] None.
#[export] Instance emitter : SpecEmit unit token := {|
  emit_begin _ tok := (outcome_of tok, tt);
  emit_observe _ tok := (outcome_of tok, tt);
  set_generated_hint _ _ := tt;
  take_forced _ := ([], tt);
  grammar_violated _ := false |}.
#[export] Instance calm : Ambient unit := {| check_abort _ := (false, tt) |}.
#[export] Instance drafting : BlockDrafter NgramDrafter := NgramBlockDrafter map_to_list.

Definition world : World NgramDrafter (list token) (list token) unit unit :=
  mkWorld (ChainSpeculator_new (NgramDrafter_new 1 4) 4 100 false) [] tt tt.
Definition nucleus : list f32 → f32 → f32 → nat → Z → token * Z := λ _ _ _ _ rng, (0%Z, rng).
Definition script : list token := [0; 0; 0; 0; 0; 1; 2; 3; 1; 99; 7]%Z.
Definition prompt : list token := [1; 2; 3; 1; 2]%Z.
Definition turn : TurnResult (SpecRun NgramDrafter (list token) (list token) unit unit token) :=
  generate_spec (SpecTarget0 := target script) nucleus 100 16 16 prompt prompt 0 false world.
End Toy.

#[local] Existing Instances Toy.emitter Toy.calm Toy.drafting.

Lemma toy_start : turn_start (TargetContract0 := Toy.contract Toy.script) Toy.world Toy.prompt Toy.prompt 0 false.
Proof. by split_and!. Qed.
Lemma toy_quiet : quiet (w_emit Toy.world).
Proof. by intros []. Qed.

(** The model decodes 1 2 3 1 99; the client sees 1 2 1, and the target has processed
    the token held back but not the end token. *)
Lemma speculative_turn_lossless_witness : ∃ run d tok outcome k, Toy.turn = Finished run ∧
  turn_result (TargetContract0 := Toy.contract Toy.script) 16 Toy.prompt tt run d tok outcome k ∧
  conversation_tokens run = Toy.prompt ++ [1; 2; 1]%Z ∧ k = [1; 2; 3; 1]%Z ∧
  greedy_from (TargetContract0 := Toy.contract Toy.script) Toy.prompt (d.*1 ++ [tok]).
Proof.
  destruct Toy.turn as [run| | | |] eqn:Hrun; try (vm_compute in Hrun; discriminate). exists run.
  destruct (speculative_turn_lossless (TargetContract0 := Toy.contract Toy.script) Toy.nucleus 100 16 Toy.world 16 Toy.prompt Toy.prompt 0 false run toy_start Hrun)
    as (d & tok & outcome & k & Hres). exists d, tok, outcome, k. pose proof (tr_history _ _ _ _ _ _ _ _ Hres) as Hk. pose proof (tr_greedy _ _ _ _ _ _ _ _ Hres toy_quiet) as (Hg & _ & _).
  vm_compute in Hrun. injection Hrun as <-. split_and!; [done|exact Hres|done| |exact Hg]. cbn in Hk. by simplify_list_eq.
Defined.

(** The same turn with a budget it does not reach. *)
Lemma speculative_turn_ends_witness :
  generate_spec (SpecTarget0 := Toy.target Toy.script) Toy.nucleus 100 1000 101 Toy.prompt Toy.prompt 0 false Toy.world ≠ OutOfFuel.
Proof. exact (speculative_turn_ends Toy.nucleus 100 1000 Toy.world 101 Toy.prompt Toy.prompt 0 false (le_n 101)). Defined.
