(* ===== verification/CohereEmit.v ===== *)
(** The emitter of the Cohere2-MoE architecture
    (src/crates/hipfire-arch-cohere2moe/src/spec_emit.rs).

    A state machine over structural marker tokens: thinking, text and action sections,
    the empty-turn guard that masks an end token and forces an answer, and the thinking
    budget. The tokenizer's [decode] and the reading of an action body into tool calls
    (JSON) are parameters.

    Proved here: only end tokens are without events, so that a turn keeps the target's
    cache and the conversation equal up to end tokens; without the guard they are equal.
    With the guard they can differ by the end tokens it masks. *)

From S2P Require Import Prelude F32 Spec SpecHost.

Inductive Sec : Type := Pre | Think | Text | Action.
#[export] Instance Sec_eq_dec : EqDecision Sec.
Proof. solve_decision. Defined.

Inductive ClientEvent (Call : Type) : Type :=
| TokenText (text : string)
| Reasoning (text : string)
| ToolCalls (calls : list Call)
| Committed (id : token) (idx : nat).
Arguments TokenText {_}.
Arguments Reasoning {_}.
Arguments ToolCalls {_}.
Arguments Committed {_}.

Definition MAX_EOS_SUPPRESS : nat := 3.

(** What is fixed for a request. *)
Record CohereConfig := mkCohereConfig {
  c_eos : token;
  mk_think0 : token;
  mk_think1 : token;
  mk_text0 : token;
  mk_text1 : token;
  mk_act0 : token;
  mk_act1 : token;
  empty_turn_guard : bool;
  think_budget : nat }.

Record CohereEmit (Call : Type) := mkCohereEmit {
  config : CohereConfig;
  sec : Sec;
  action_buf : string;
  vis_buf : string;
  emitted_count : nat;
  emitted_visible : bool;
  eos_suppressions : nat;
  think_count : nat;
  think_force_closed : bool;
  tool_calls_buf : list Call;
  tool_calls_emitted : bool;
  forced : list token }.
Arguments mkCohereEmit {_}.
Arguments config {_}.
Arguments sec {_}.
Arguments action_buf {_}.
Arguments vis_buf {_}.
Arguments emitted_count {_}.
Arguments emitted_visible {_}.
Arguments eos_suppressions {_}.
Arguments think_count {_}.
Arguments think_force_closed {_}.
Arguments tool_calls_buf {_}.
Arguments tool_calls_emitted {_}.
Arguments forced {_}.

(** The thinking budget of [from_ctx]. *)
Definition think_budget_of (max_tokens max_think : nat) : nat :=
  let think_reserve := Nat.min (Nat.max 64 (Nat.min 512 (max_tokens / 4))) (max_tokens / 2) in
  if bool_decide (1 < max_think) then Nat.min max_think (max_tokens - think_reserve) else max_tokens - think_reserve.

(** [from_ctx]: the state of a fresh turn. *)
Definition CohereEmit_new {Call} (config : CohereConfig) : CohereEmit Call :=
  mkCohereEmit config Pre EmptyString EmptyString 0 false 0 0 false [] false [].

(** The marker test on a decoded fragment. *)
Definition is_marker (frag : string) : bool :=
  let bytes := str_bytes frag in
  let n := length bytes in
  bool_decide (4 < n) && bool_decide (take 2 bytes = [60; 124]%Z) && bool_decide (drop (n - 2) bytes = [124; 62]%Z)
  && forallb (λ c, (65 <=? c)%Z && (c <=? 90)%Z || (c =? 95)%Z) (take (n - 4) (drop 2 bytes)).

Section Cohere.
Context {Call : Type} (decode : token → string) (action_calls : string → list Call).
Implicit Types (e : CohereEmit Call).

Definition with_sec e (s : Sec) : CohereEmit Call :=
  mkCohereEmit (config e) s (action_buf e) (vis_buf e) (emitted_count e) (emitted_visible e) (eos_suppressions e) (think_count e)
    (think_force_closed e) (tool_calls_buf e) (tool_calls_emitted e) (forced e).
Definition with_action e (buf : string) : CohereEmit Call :=
  mkCohereEmit (config e) (sec e) buf (vis_buf e) (emitted_count e) (emitted_visible e) (eos_suppressions e) (think_count e)
    (think_force_closed e) (tool_calls_buf e) (tool_calls_emitted e) (forced e).
Definition with_forced e (suppressions : nat) (closed : bool) (f : list token) : CohereEmit Call :=
  mkCohereEmit (config e) (sec e) (action_buf e) (vis_buf e) (emitted_count e) (emitted_visible e) suppressions (think_count e)
    closed (tool_calls_buf e) (tool_calls_emitted e) f.

(** [committed] *)
Definition commit_event e (tok : token) : ClientEvent Call * CohereEmit Call :=
  (Committed tok (emitted_count e),
   mkCohereEmit (config e) (sec e) (action_buf e) (vis_buf e) (emitted_count e + 1) (emitted_visible e) (eos_suppressions e) (think_count e)
     (think_force_closed e) (tool_calls_buf e) (tool_calls_emitted e) (forced e)).

(** The end of an action block. *)
Definition end_action e : list (ClientEvent Call) * CohereEmit Call :=
  match action_calls (action_buf e) with
  | [] => ([], with_sec e Pre)
  | calls =>
      ([ToolCalls calls],
       mkCohereEmit (config e) Pre (action_buf e) (vis_buf e) (emitted_count e) true (eos_suppressions e) (think_count e)
         (think_force_closed e) (tool_calls_buf e ++ calls) true (forced e))
  end.

(** An ordinary token. *)
Definition text_token e (tok : token) : list (ClientEvent Call) * CohereEmit Call :=
  let frag := decode tok in
  if is_marker frag then ([], e) else
  match sec e with
  | Action => ([], with_action e (action_buf e ++ frag))
  | Think =>
      ([Reasoning frag],
       mkCohereEmit (config e) (sec e) (action_buf e) (vis_buf e) (emitted_count e) (emitted_visible e) (eos_suppressions e) (think_count e + 1)
         (think_force_closed e) (tool_calls_buf e) (tool_calls_emitted e) (forced e))
  | Text | Pre =>
      ([TokenText frag],
       mkCohereEmit (config e) (sec e) (action_buf e) (vis_buf e ++ frag) (emitted_count e) true (eos_suppressions e) (think_count e)
         (think_force_closed e) (tool_calls_buf e) (tool_calls_emitted e) (forced e))
  end.

(** The marker transitions of [process]. *)
Definition route e (tok : token) : list (ClientEvent Call) * CohereEmit Call :=
  let c := config e in
  if bool_decide (tok = mk_think0 c) then ([], with_sec e Think) else
  if bool_decide (tok = mk_text0 c) then ([], with_sec e Text) else
  if bool_decide (tok = mk_act0 c) then ([], with_action (with_sec e Action) EmptyString) else
  if bool_decide (tok = mk_think1 c ∨ tok = mk_text1 c) then ([], with_sec e Pre) else
  if bool_decide (tok = mk_act1 c) then end_action e else
  text_token e tok.

(** [process] *)
Definition process e (tok : token) : EmitOutcome (ClientEvent Call) * CohereEmit Call :=
  let c := config e in
  if bool_decide (tok = c_eos c) then
    if empty_turn_guard c && negb (emitted_visible e) && bool_decide (eos_suppressions e < MAX_EOS_SUPPRESS) then
      (held, with_forced e (eos_suppressions e + 1) (think_force_closed e)
        (forced e ++ (if bool_decide (sec e = Think) then [mk_think1 c] else []) ++ [mk_text0 c]))
    else (mkEmitOutcome [] (Some Eos), e)
  else
    let '(evs, e) := route e tok in
    let '(done, e) := commit_event e tok in
    let e := if empty_turn_guard c && negb (think_force_closed e) && negb (emitted_visible e) && bool_decide (sec e = Think)
                && bool_decide (think_budget c ≤ think_count e)
             then with_forced e (eos_suppressions e) true (forced e ++ [mk_think1 c; mk_text0 c]) else e in
    (mkEmitOutcome (evs ++ [done]) None, e).

(** The emitter as the decode loop sees it. *)
Definition CohereSpecEmit : SpecEmit (CohereEmit Call) (ClientEvent Call) := {|
  emit_begin := process;
  emit_observe := process;
  set_generated_hint e _ := e;
  take_forced e := (forced e, with_forced e (eos_suppressions e) (think_force_closed e) []);
  grammar_violated _ := false |}.
End Cohere.

(** ** The emitter in the decode loop *)

Section Contract.
Context {Call : Type} (decode : token → string) (action_calls : string → list Call).
Implicit Types (e : CohereEmit Call).
#[local] Instance cohere : SpecEmit (CohereEmit Call) (ClientEvent Call) := CohereSpecEmit decode action_calls.

Lemma route_keeps e tok : config (route decode action_calls e tok).2 = config e ∧ forced (route decode action_calls e tok).2 = forced e.
Proof. unfold route, end_action, text_token. repeat case_match; done. Qed.

(** Every token but the end token has events; without the guard the end token stops the
    turn and nothing is forced. *)
Lemma process_events e tok : let '(outcome, e') := process decode action_calls e tok in
  config e' = config e ∧ (events outcome = [] ↔ tok = c_eos (config e)) ∧
  (empty_turn_guard (config e) = false → forced e' = forced e ∧ (events outcome = [] → stop outcome ≠ None)).
Proof.
  unfold process. case_bool_decide as Heos.
  - destruct (empty_turn_guard _) eqn:Hg; cbn [andb]; [|done]. by destruct (negb (emitted_visible e) && _).
  - pose proof (route_keeps e tok) as [Hc Hfr]. destruct (route _ _ e tok) as [evs e1]. cbn [fst snd commit_event] in *.
    split_and!.
    + by case_match.
    + split; [by destruct evs|done].
    + intros ->. cbn. by destruct evs.
Qed.

Lemma reachable_config e0 e : reachable e0 e → config e = config e0 ∧ (empty_turn_guard (config e0) = false → forced e0 = [] → forced e = []).
Proof.
  assert (∀ e tok, config e = config e0 ∧ (empty_turn_guard (config e0) = false → forced e0 = [] → forced e = []) →
    config (process decode action_calls e tok).2 = config e0 ∧
    (empty_turn_guard (config e0) = false → forced e0 = [] → forced (process decode action_calls e tok).2 = [])) as Hstep.
  { intros e' tok [IHc IHf]. pose proof (process_events e' tok) as Hp. destruct (process _ _ e' tok) as [outcome e1]. destruct Hp as (Hc & _ & Hp). cbn [snd].
    split; [congruence|]. intros Hg Hf. rewrite IHc in Hp. destruct (Hp Hg) as [-> _]. auto. }
  induction 1 as [|e tok He IH|e tok He IH|e generated He IH|e He [IHc IHf]]; [done|by apply Hstep|by apply Hstep|done|done].
Qed.

Lemma unguarded_quiet e0 : empty_turn_guard (config e0) = false → forced e0 = [] → quiet e0.
Proof. intros Hg Hf e He. cbn. destruct (reachable_config e0 e He) as [_ H]. auto. Qed.

(** What the emitter says of a token in a turn. *)
Lemma seen_events e0 tok outcome : seen e0 (tok, outcome) →
  (events outcome = [] ↔ tok = c_eos (config e0)) ∧ (empty_turn_guard (config e0) = false → events outcome = [] → stop outcome ≠ None).
Proof.
  intros (e & [Hc _]%reachable_config & Hs). cbn [emit_begin emit_observe cohere CohereSpecEmit fst snd] in Hs. pose proof (process_events e tok) as Hp. destruct (process _ _ e tok) as [outcome' e']. cbn in Hs.
  assert (outcome' = outcome) as -> by (by destruct Hs). destruct Hp as (_ & ? & Hp). rewrite Hc in *. split; [done|]. intros Hg. by apply Hp.
Qed.

Definition spoken (eos : token) (tokens : list token) : list token := filter (λ tok, tok ≠ eos) tokens.

Lemma kept_spoken e0 d k : kept d k → Forall (seen e0) d → spoken (c_eos (config e0)) k = spoken (c_eos (config e0)) d.*1.
Proof.
  unfold spoken. induction 1 as [|tok outcome d k Hk IH|tok outcome d k Hev Hk IH]; intros Hall; [done|..]; inversion Hall as [|x l Hs Hd]; subst; cbn [fmap list_fmap fst];
    rewrite !filter_cons, IH by done; [done|]. apply seen_events in Hs as [[Hs _] _]. rewrite decide_False; [done|]. intros Hne. by destruct Hne, (Hs Hev).
Qed.

Lemma shown_spoken e0 d : Forall (seen e0) d → shown d = spoken (c_eos (config e0)) d.*1.
Proof.
  unfold spoken. induction 1 as [|[tok outcome] d Hs Hd IH]; [done|]. change ((tok, outcome) :: d) with ([(tok, outcome)] ++ d). rewrite shown_app, shown_one, IH. cbn [fmap list_fmap fst app].
  apply seen_events in Hs as [Hs _]. rewrite filter_cons. destruct (spec_outcome_seed_committable outcome) eqn:Hc.
  - rewrite decide_True; [done|]. intros Heq%Hs. apply committable_events in Heq. congruence.
  - rewrite decide_False; [done|]. apply committable_events in Hc. intros Hne. by apply Hne, Hs.
Qed.

(** C29: a Cohere turn in greedy mode, with any configuration, keeps the target and the
    conversation equal up to end tokens: the conversation kept for the next turn is the
    prompt and the decoded tokens without any end token, and the target has processed,
    at the recorded position, the prompt and the decoded tokens less some end tokens.
    With the empty-turn guard off the two are equal and the decoded tokens are the
    greedy continuation of the prompt. *)
Theorem cohere_turn_in_step {D S T A} `{!BlockDrafter D} `{!SpecTarget T S} `{!TargetContract T S} `{!Ambient A}
    nucleus physical_cap max_tokens (w : World D S T (CohereEmit Call) A) fuel prompt prefill_tokens start hit run :
  turn_start w prompt prefill_tokens start hit →
  generate_spec nucleus physical_cap max_tokens fuel prompt prefill_tokens start hit w = Finished run →
  let eos := c_eos (config (w_emit w)) in
  ∃ decoded processed, conversation_tokens run = prompt ++ spoken eos decoded ∧
    history (w_target (run_world run)) = prompt ++ processed ∧ processed `sublist_of` decoded ∧ spoken eos processed = spoken eos decoded ∧
    seq_pos run = length (history (w_target (run_world run))) ∧
    (empty_turn_guard (config (w_emit w)) = false → forced (w_emit w) = [] →
      history (w_target (run_world run)) = conversation_tokens run ∧ greedy_from (T := T) prompt decoded).
Proof.
  intros Hstart Hrun. destruct (turn_aligned nucleus physical_cap max_tokens w fuel prompt prefill_tokens start hit run Hstart Hrun) as (d & tok & outcome & k & [H1 _ _ _ Hseen H2 H3 H4 H5 H6]).
  cbn zeta. exists (d ++ [(tok, outcome)]).*1, k. rewrite <- (shown_spoken _ _ Hseen). split_and!; try done.
  - by apply kept_shown.
  - by rewrite (shown_spoken _ _ Hseen), (kept_spoken _ _ _ H4 Hseen).
  - intros Hg Hf. destruct (H6 (unguarded_quiet _ Hg Hf)) as (Hgr & Hu & _). split; [|by rewrite fmap_app]. apply H5.
    apply Forall_app in Hseen as [Hseen _]. apply Forall_forall. intros [x o] Hx Hev. rewrite Forall_forall in Hseen, Hu.
    apply Hseen in Hx as Hs. apply seen_events in Hs as [_ Hs]. exact (Hs Hg Hev (Hu _ Hx)).
Qed.
End Contract.

(** ** With the guard *)

Module Masked.
Definition config : CohereConfig := mkCohereConfig 99%Z 51%Z 52%Z 50%Z 53%Z 54%Z 55%Z true 1000.
#[export] Instance emitter : SpecEmit (CohereEmit unit) (ClientEvent unit) := CohereSpecEmit (λ _, "x"%string) (λ _, []).
Definition prompt : list token := [52; 50; 20; 99; 7]%Z.
(** The model opens its thinking (51) and ends the turn (99); made to go on with 52 and
    50, it answers 20 and ends again. *)
Definition script : list token := [0; 0; 0; 0; 0; 51; 99; 0; 20; 99; 7; 7]%Z.
Definition world : World NgramDrafter (list token) (list token) (CohereEmit unit) unit :=
  mkWorld (ChainSpeculator_new (NgramDrafter_new 1 4) 4 100 false) [] (CohereEmit_new config) tt.
Definition turn : TurnResult (SpecRun NgramDrafter (list token) (list token) (CohereEmit unit) unit (ClientEvent unit)) :=
  generate_spec (BlockDrafter0 := Toy.drafting) (SpecTarget0 := Toy.target script) (Ambient0 := Toy.calm) Toy.nucleus 100 16 16 prompt prompt 0 false world.
End Masked.

(** A masked end token desynchronises cache and conversation. With the empty-turn guard
    on, an end token the guard masks is skipped by the forced continuation but stays in
    the raw log, so a later stop inside a window replays it: the turn completes with a
    target that has processed the masked end token, one token and one position more than
    the conversation kept for the next turn. *)
Example masked_eos_desync :
  ∃ run, Masked.turn = Finished run ∧
    conversation_tokens run = Masked.prompt ++ [51; 52; 50; 20]%Z ∧
    w_target (run_world run) = Masked.prompt ++ [51; 99; 52; 50; 20]%Z ∧
    seq_pos run = length (conversation_tokens run) + 1.
Proof. destruct Masked.turn as [run| | | |] eqn:Hrun; try (vm_compute in Hrun; discriminate). exists run. vm_compute in Hrun. injection Hrun as <-. done. Qed.

(** The masked turn: the conversation has no end token, the target processed one. *)
Lemma cohere_turn_in_step_witness : ∃ run decoded processed, Masked.turn = Finished run ∧
  conversation_tokens run = Masked.prompt ++ spoken 99%Z decoded ∧ processed = [51; 99; 52; 50; 20]%Z ∧ spoken 99%Z processed = spoken 99%Z decoded.
Proof.
  destruct Masked.turn as [run| | | |] eqn:Hrun; try (vm_compute in Hrun; discriminate). exists run.
  destruct (cohere_turn_in_step (BlockDrafter0 := Toy.drafting) (SpecTarget0 := Toy.target Masked.script) (TargetContract0 := Toy.contract Masked.script) (Ambient0 := Toy.calm)
    (λ _, "x"%string) (λ _, []) Toy.nucleus 100 16 Masked.world 16 Masked.prompt Masked.prompt 0 false run ltac:(by split_and!) Hrun)
    as (decoded & processed & Hc & Hh & _ & Hs & _). exists decoded, processed. split_and!; [done|done| |done].
  vm_compute in Hrun. injection Hrun as <-. cbn in Hh. by simplify_list_eq.
Defined.
