(* ===== verification/NgramMod.v ===== *)
(** The n-gram hash pool (src/crates/hipfire-runtime/src/ngram_mod.rs).

    A direct-mapped table from the hash of the last [n_match] tokens to the token that
    followed them, filled and read with a rolling hash in wrapping 64-bit arithmetic.
    The [debug_assert] on the rolling hash is an assertion of the model.

    Proved here: rolling the hash agrees with hashing every window afresh, so filling
    and drafting equal their reference definitions and never panic, the occupancy count
    is exact and bounded by a quarter of the table. *)

From S2P Require Import Prelude.

Definition HASH_MUL : Z := 6364136223846793005.
Definition EMPTY : Z := U32_MAX.

Record NgramModConfig := mkNgramModConfig {
  capacity : Z;
  n_match : nat;
  n_min : nat;
  n_max : nat }.
Definition NgramModConfig_default : NgramModConfig := mkNgramModConfig 4194304 24 48 64.

Record NgramModPool := mkNgramModPool {
  np_config : NgramModConfig;
  table : list Z;
  occupied : Z;
  mask : Z;
  mul_pow : Z;
  low_accept_streak : Z }.

Inductive NgramModError : Type := BadCapacity | BadMatch | BadMax | BadMin.

(** [u64::wrapping_pow] *)
Definition wrapping_pow (base exponent : Z) : Z := wrap64 (base ^ exponent).

(** [NgramModPool::new] *)
Definition NgramModPool_new (c : NgramModConfig) : result NgramModError NgramModPool :=
  err_if (bool_decide (capacity c = 0)%Z || negb (is_power_of_two (capacity c))) BadCapacity ;;
  err_if (bool_decide (n_match c = 0)) BadMatch ;;
  err_if (bool_decide (n_max c = 0)) BadMax ;;
  err_if (bool_decide (n_max c < n_min c)) BadMin ;;
  let mul_pow := if bool_decide (n_match c ≤ 1) then 1%Z else wrapping_pow HASH_MUL (wrap32 (Z.of_nat (n_match c - 1))) in
  Ok (mkNgramModPool c (replicate (Z.to_nat (capacity c)) EMPTY) 0 (capacity c - 1) mul_pow 0).

(** [clear] *)
Definition clear (p : NgramModPool) : NgramModPool :=
  mkNgramModPool (np_config p) (replicate (length (table p)) EMPTY) 0 (mask p) (mul_pow p) 0.

(** [hash_window], [roll_hash] *)
Definition hash_step (h t : Z) : Z := wrap64 (wrap64 (h * HASH_MUL) + t).
Definition hash_window (tokens : list Z) : Z := foldl hash_step 0%Z tokens.
Definition roll_hash (hash old new_tok mul_pow : Z) : Z :=
  wrap64 (wrap64 (wrap64 (hash - wrap64 (old * mul_pow)) * HASH_MUL) + new_tok).

Definition slot (p : NgramModPool) (hash : Z) : nat := Z.to_nat (Z.land hash (mask p)).

(** [store] *)
Definition pool_store (p : NgramModPool) (hash next : Z) : result NgramModError NgramModPool :=
  let idx := slot p hash in
  current ← index (table p) idx;
  let occupied := if bool_decide (current = EMPTY) then (occupied p + 1)%Z else occupied p in
  table ← store (table p) idx next;
  Ok (mkNgramModPool (np_config p) table occupied (mask p) (mul_pow p) (low_accept_streak p)).

Definition window_of (context : list Z) (n j : nat) : list Z := take n (drop (j - n) context).

(** The loop of [insert_range] from [j] on, [fuel] positions left. *)
Fixpoint insert_loop (fuel : nat) (p : NgramModPool) (context : list Z) (hash : Z) (j : nat) : result NgramModError NgramModPool :=
  match fuel with
  | 0 => Ok p
  | S fuel =>
      let n := n_match (np_config p) in
      next ← index context j;
      p ← pool_store p hash next;
      let j := S j in
      if bool_decide (length context ≤ j) then Ok p else
      old ← index context (j - 1 - n);
      newly ← index context (j - 1);
      let hash := roll_hash hash old newly (mul_pow p) in
      assert (bool_decide (hash = hash_window (window_of context n j))) ;;
      insert_loop fuel p context hash j
  end.

(** [insert_range] *)
Definition insert_range (p : NgramModPool) (context : list Z) (next_token_start : nat) : result NgramModError NgramModPool :=
  let n := n_match (np_config p) in
  let start := Nat.max next_token_start n in
  if bool_decide (length context ≤ start) then Ok p else
  p ← insert_loop (length context - start) p context (hash_window (window_of context n start)) start;
  Ok (if (occupied p >? capacity (np_config p) / 4)%Z then clear p else p).

(** The loop of [draft] at step [k]. *)
Fixpoint draft_loop (fuel : nat) (p : NgramModPool) (context : list Z) (base : nat) (hash : Z) (k : nat) (out : list Z) : result NgramModError (list Z) :=
  match fuel with
  | 0 => Ok out
  | S fuel =>
      tok ← index (table p) (slot p hash);
      if bool_decide (tok = EMPTY) then Ok out else
      let out := out ++ [tok] in
      let n := n_match (np_config p) in
      old ← (if bool_decide (k < n) then index context (base + k) else index out (k - n));
      draft_loop fuel p context base (roll_hash hash old tok (mul_pow p)) (S k) out
  end.

(** [draft] *)
Definition draft (p : NgramModPool) (context : list Z) (caller_max : nat) : result NgramModError (option (list Z)) :=
  let n := n_match (np_config p) in
  let limit := Nat.min (n_max (np_config p)) caller_max in
  if bool_decide (limit = 0) || bool_decide (length context < n) || bool_decide (limit < n_min (np_config p)) then Ok None else
  let base := length context - n in
  out ← draft_loop limit p context base (hash_window (drop base context)) 0 [];
  Ok (if bool_decide (length out < n_min (np_config p)) then None else Some out).

(** [record_draft_result] *)
Definition record_draft_result (p : NgramModPool) (drafted accepted : Z) : bool * NgramModPool :=
  let with_streak streak := mkNgramModPool (np_config p) (table p) (occupied p) (mask p) (mul_pow p) streak in
  let low := (0 <? drafted)%Z && (Z.min U64_MAX (accepted * 4) <? drafted)%Z in
  if negb low then (false, with_streak 0%Z) else
  let streak := saturating_add U32_MAX (low_accept_streak p) 1 in
  if (streak <? 5)%Z then (false, with_streak streak) else (true, clear (with_streak streak)).

(** ** The rolling hash *)

(** The hash without wrapping. *)
Fixpoint poly (h : Z) (tokens : list Z) : Z :=
  match tokens with [] => h | t :: tokens => poly (h * HASH_MUL + t) tokens end.

Lemma wrap64_idem x : wrap64 (wrap64 x) = wrap64 x.
Proof. unfold wrap64. by rewrite Z.mod_mod. Qed.
Lemma wrap64_add_l x y : wrap64 (wrap64 x + y) = wrap64 (x + y).
Proof. unfold wrap64. by rewrite Zplus_mod_idemp_l. Qed.
Lemma wrap64_mul_l x y : wrap64 (wrap64 x * y) = wrap64 (x * y).
Proof. unfold wrap64. by rewrite Zmult_mod_idemp_l. Qed.
Lemma wrap64_mul_r x y : wrap64 (x * wrap64 y) = wrap64 (x * y).
Proof. unfold wrap64. by rewrite Zmult_mod_idemp_r. Qed.
Lemma wrap64_sub_l x y : wrap64 (wrap64 x - y) = wrap64 (x - y).
Proof. unfold wrap64. by rewrite Zminus_mod_idemp_l. Qed.
Lemma wrap64_sub_r x y : wrap64 (x - wrap64 y) = wrap64 (x - y).
Proof. unfold wrap64. by rewrite Zminus_mod_idemp_r. Qed.
Create Rewrite HintDb wrap64.
#[local] Hint Rewrite wrap64_idem wrap64_add_l wrap64_mul_l wrap64_mul_r wrap64_sub_l wrap64_sub_r : wrap64.

Lemma poly_linear tokens h : poly h tokens = (h * HASH_MUL ^ Z.of_nat (length tokens) + poly 0 tokens)%Z.
Proof.
  revert h. induction tokens as [|t tokens IH]; intros h; cbn [poly length]; [lia|]. rewrite IH, (IH (0 * HASH_MUL + t)%Z), Nat2Z.inj_succ, Z.pow_succ_r by lia. ring.
Qed.

Lemma poly_snoc tokens h t : poly h (tokens ++ [t]) = (poly h tokens * HASH_MUL + t)%Z.
Proof. revert h. induction tokens as [|x tokens IH]; intros h; [done|]. cbn. apply IH. Qed.

Lemma hash_window_poly tokens h : foldl hash_step (wrap64 h) tokens = wrap64 (poly h tokens).
Proof.
  revert h. induction tokens as [|t tokens IH]; intros h; [done|]. cbn [foldl poly]. rewrite <- IH. f_equal. unfold hash_step. by autorewrite with wrap64.
Qed.

Lemma hash_window_eq tokens : hash_window tokens = wrap64 (poly 0 tokens).
Proof. apply (hash_window_poly tokens 0). Qed.

(** Rolling agrees with hashing the shifted window. *)
Lemma roll_hash_exact old tokens new_tok : 
  roll_hash (hash_window (old :: tokens)) old new_tok (wrap64 (HASH_MUL ^ Z.of_nat (length tokens))) = hash_window (tokens ++ [new_tok]).
Proof.
  rewrite !hash_window_eq. unfold roll_hash. rewrite (wrap64_mul_r old). autorewrite with wrap64. rewrite poly_snoc. cbn [poly]. rewrite (poly_linear tokens (0 * HASH_MUL + old)). f_equal. ring.
Qed.

(** ** The table *)

Definition filled (t : list Z) : Z := Z.of_nat (length (filter (λ x, x ≠ EMPTY) t)).

(** What [new] establishes and every operation keeps. *)
Record pool_shape (p : NgramModPool) : Prop := {
  ps_capacity : ∃ k, capacity (np_config p) = (2 ^ Z.of_nat k)%Z;
  ps_table : Z.of_nat (length (table p)) = capacity (np_config p);
  ps_mask : mask p = (capacity (np_config p) - 1)%Z;
  ps_match : n_match (np_config p) ≠ 0;
  ps_min : n_min (np_config p) ≤ n_max (np_config p);
  ps_pow : mul_pow p = wrap64 (HASH_MUL ^ Z.of_nat (n_match (np_config p) - 1));
  ps_occupied : occupied p = filled (table p) }.
Definition ngram_pool_wf (p : NgramModPool) : Prop := pool_shape p ∧ (occupied p ≤ capacity (np_config p) / 4)%Z.

(** A pool with another table. *)
Definition set_table (p : NgramModPool) (t : list Z) : NgramModPool :=
  mkNgramModPool (np_config p) t (filled t) (mask p) (mul_pow p) (low_accept_streak p).

Lemma slot_lt p hash : pool_shape p → slot p hash < length (table p).
Proof.
  intros [[k Hk] Ht Hm _ _ _ _]. unfold slot. rewrite Hm, Hk. replace (2 ^ Z.of_nat k - 1)%Z with (Z.ones (Z.of_nat k)) by (rewrite Z.ones_equiv; lia).
  rewrite Z.land_ones by lia. pose proof (Z.mod_pos_bound hash (2 ^ Z.of_nat k) ltac:(lia)). lia.
Qed.

Lemma filled_replicate n : filled (replicate n EMPTY) = 0%Z.
Proof. unfold filled. induction n as [|n IH]; [done|]. cbn [replicate]. by rewrite filter_cons_False by (intros H; by apply H). Qed.

Lemma filled_insert t i x y : t !! i = Some x → y ≠ EMPTY → filled (<[i:=y]> t) = (filled t + (if bool_decide (x = EMPTY) then 1 else 0))%Z.
Proof.
  intros Hi Hy. rewrite <- (take_drop_middle _ _ _ Hi) at 2. rewrite insert_take_drop by (by eapply lookup_lt_Some). unfold filled.
  rewrite !filter_app, !length_app, !filter_cons, (decide_True _ _ Hy). case_bool_decide; [rewrite decide_False by tauto|rewrite decide_True by done]; cbn [length]; lia.
Qed.

Lemma set_table_shape p t : pool_shape p → length t = length (table p) → pool_shape (set_table p t).
Proof. intros [H1 H2 H3 H4 H5 H6 H7] Ht. split; cbn; try done. by rewrite Ht. Qed.

Lemma set_table_self p : pool_shape p → set_table p (table p) = p.
Proof. intros [_ _ _ _ _ _ H]. unfold set_table. rewrite <- H. by destruct p. Qed.

Lemma pool_store_exact p hash next : pool_shape p → next ≠ EMPTY → pool_store p hash next = Ok (set_table p (<[slot p hash := next]> (table p))).
Proof.
  intros Hs Hn. unfold pool_store. pose proof (slot_lt p hash Hs) as Hlt. destruct (lookup_lt_is_Some_2 _ _ Hlt) as [x Hx].
  unfold index, store. rewrite Hx. cbn [ok_or mbind result_bind]. rewrite (bool_decide_eq_true_2 _ Hlt). cbn [mbind result_bind].
  unfold set_table. rewrite (filled_insert _ _ _ _ Hx Hn), <- (ps_occupied p Hs). do 2 f_equal. case_bool_decide; lia.
Qed.

(** ** Filling *)

(** The reference: every window is hashed on its own. *)
Definition insert_ref (p : NgramModPool) (context : list Z) (t : list Z) (j : nat) : list Z :=
  <[slot p (hash_window (window_of context (n_match (np_config p)) j)) := default 0%Z (context !! j)]> t.

Lemma insert_ref_length p context js : ∀ t, length (foldl (insert_ref p context) t js) = length t.
Proof. induction js as [|j js IH]; intros t; [done|]. cbn. rewrite IH. apply length_insert. Qed.

Lemma window_of_cons context n j x : n ≠ 0 → n ≤ j → context !! (j - n) = Some x → window_of context n j = x :: take (n - 1) (drop (S (j - n)) context).
Proof. intros Hn Hj Hx. unfold window_of. rewrite (drop_S _ _ _ Hx). destruct n; [done|]. cbn. by rewrite Nat.sub_0_r. Qed.

Lemma window_of_snoc context n j y : n ≠ 0 → n ≤ j → context !! j = Some y → window_of context n (S j) = take (n - 1) (drop (S (j - n)) context) ++ [y].
Proof.
  intros Hn Hj Hy. unfold window_of. replace (S j - n) with (S (j - n)) by lia. destruct n as [|n]; [done|]. cbn [Nat.sub]. rewrite Nat.sub_0_r.
  apply take_S_r. rewrite lookup_drop. replace (S (j - S n) + n) with j by lia. done.
Qed.

Lemma roll_window p context j old newly : pool_shape p → n_match (np_config p) ≤ j → context !! (j - n_match (np_config p)) = Some old → context !! j = Some newly →
  roll_hash (hash_window (window_of context (n_match (np_config p)) j)) old newly (mul_pow p) = hash_window (window_of context (n_match (np_config p)) (S j)).
Proof.
  intros Hs Hj Hold Hnew. pose proof (ps_match p Hs) as Hn. rewrite (window_of_cons _ _ _ _ Hn Hj Hold), (window_of_snoc _ _ _ _ Hn Hj Hnew), (ps_pow p Hs), <- (roll_hash_exact old).
  do 4 f_equal. rewrite length_take, length_drop. apply lookup_lt_Some in Hnew. lia.
Qed.

Lemma insert_loop_exact context (Htok : Forall (λ t, t ≠ EMPTY) context) fuel : ∀ p j, pool_shape p → n_match (np_config p) ≤ j → j + fuel = length context →
  insert_loop fuel p context (hash_window (window_of context (n_match (np_config p)) j)) j = Ok (set_table p (foldl (insert_ref p context) (table p) (seq j fuel))).
Proof.
  induction fuel as [|fuel IH]; intros p j Hs Hj Hlen; cbn [insert_loop seq foldl]; [by rewrite set_table_self|].
  destruct (lookup_lt_is_Some_2 context j) as [next Hnext]; [lia|]. assert (next ≠ EMPTY) as Hne by (by eapply Forall_lookup_1 in Htok).
  rewrite (proj2 (index_Ok _ _ _) Hnext). cbn [mbind result_bind]. rewrite pool_store_exact by done. cbn [mbind result_bind set_table np_config mul_pow].
  assert (insert_ref p context (table p) j = <[slot p (hash_window (window_of context (n_match (np_config p)) j)) := next]> (table p)) as Href by (unfold insert_ref; by rewrite Hnext).
  set (t := <[_ := next]> (table p)) in *. rewrite Href. assert (length t = length (table p)) as Hlt by apply length_insert. case_bool_decide as Hend.
  - replace fuel with 0 by lia. done.
  - destruct (lookup_lt_is_Some_2 context (j - n_match (np_config p))) as [old Hold]; [lia|].
    replace (S j - 1 - n_match (np_config p)) with (j - n_match (np_config p)) by lia. replace (S j - 1) with j by lia.
    rewrite (proj2 (index_Ok _ _ _) Hold). cbn [mbind result_bind]. rewrite (proj2 (index_Ok _ _ _) Hnext). cbn [mbind result_bind]. rewrite (roll_window p context j old next) by done. rewrite bool_decide_eq_true_2 by done. cbn [assert mbind result_bind].
    change (n_match (np_config p)) with (n_match (np_config (set_table p t))). rewrite (IH (set_table p t) (S j)); [done| |cbn; lia|lia]. by apply set_table_shape.
Qed.

(** [insert_range] against hashing every window afresh. *)
Definition insert_range_ref (p : NgramModPool) (context : list Z) (next_token_start : nat) : NgramModPool :=
  let start := Nat.max next_token_start (n_match (np_config p)) in
  let p' := set_table p (foldl (insert_ref p context) (table p) (seq start (length context - start))) in
  if (filled (table p') <=? capacity (np_config p) / 4)%Z then p' else clear p'.

Lemma clear_wf p : pool_shape p → ngram_pool_wf (clear p).
Proof.
  intros [H1 H2 H3 H4 H5 H6 H7]. destruct H1 as [k Hk]. split; [split; cbn; try done; [by exists k|by rewrite length_replicate|by rewrite filled_replicate]|].
  cbn. rewrite Hk. apply Z.div_pos; lia.
Qed.

Lemma insert_range_exact p context start : ngram_pool_wf p → Forall (λ t, t ≠ EMPTY) context →
  insert_range p context start = Ok (insert_range_ref p context start) ∧ ngram_pool_wf (insert_range_ref p context start).
Proof.
  intros [Hs Hocc] Htok. unfold insert_range, insert_range_ref. set (s := Nat.max _ _). set (t := foldl _ _ _).
  assert (pool_shape (set_table p t)) as Hst. { apply set_table_shape; [done|]. apply insert_ref_length. } cbn [table set_table].
  case_bool_decide as Hle.
  - assert (t = table p) as Ht by (unfold t; by replace (length context - s) with 0 by lia). rewrite Ht, set_table_self, <- (ps_occupied p Hs) by done.
    rewrite (proj2 (Z.leb_le _ _) Hocc). by split.
  - rewrite insert_loop_exact by (done || lia). cbn [mbind result_bind]. fold t. cbn [set_table occupied np_config].
    destruct (Z.leb_spec (filled t) (capacity (np_config p) / 4)) as [Hf|Hf].
    + rewrite Z.gtb_ltb, (proj2 (Z.ltb_ge _ _) Hf). split; [done|]. by split.
    + rewrite Z.gtb_ltb, (proj2 (Z.ltb_lt _ _) Hf). split; [done|]. by apply clear_wf.
Qed.

(** ** Drafting *)

(** The reference: the key is the hash of the last [n_match] tokens of what is written
    so far, computed afresh at every step. *)
Fixpoint draft_chain (fuel : nat) (p : NgramModPool) (text : list Z) : list Z :=
  match fuel with
  | 0 => []
  | S fuel =>
      match table p !! slot p (hash_window (window_of text (n_match (np_config p)) (length text))) with
      | Some tok => if bool_decide (tok = EMPTY) then [] else tok :: draft_chain fuel p (text ++ [tok])
      | None => []
      end
  end.
Definition draft_ref (p : NgramModPool) (context : list Z) (caller_max : nat) : option (list Z) :=
  let out := draft_chain (Nat.min (n_max (np_config p)) caller_max) p context in
  if bool_decide (n_match (np_config p) ≤ length context ∧ Nat.min (n_max (np_config p)) caller_max ≠ 0 ∧ n_min (np_config p) ≤ length out) then Some out else None.

Lemma window_of_app l k n j : j ≤ length l → n ≤ j → window_of (l ++ k) n j = window_of l n j.
Proof. intros Hj Hn. unfold window_of. rewrite drop_app_le by lia. rewrite take_app_le; [done|]. rewrite length_drop. lia. Qed.

Lemma draft_chain_length fuel p : ∀ text, length (draft_chain fuel p text) ≤ fuel.
Proof.
  induction fuel as [|fuel IH]; intros text; cbn; [lia|]. destruct (_ !! _) as [tok|]; [|cbn; lia]. case_bool_decide; cbn; [lia|].
  specialize (IH (text ++ [tok])). lia.
Qed.

Lemma draft_loop_exact p context (Hs : pool_shape p) (Hlen : n_match (np_config p) ≤ length context) fuel : ∀ out,
  draft_loop fuel p context (length context - n_match (np_config p)) (hash_window (window_of (context ++ out) (n_match (np_config p)) (length (context ++ out)))) (length out) out =
    Ok (out ++ draft_chain fuel p (context ++ out)).
Proof.
  induction fuel as [|fuel IH]; intros out; cbn [draft_loop draft_chain]; [by rewrite app_nil_r|]. set (n := n_match (np_config p)) in *. set (hash := hash_window _).
  destruct (lookup_lt_is_Some_2 _ _ (slot_lt p hash Hs)) as [tok Htok]. rewrite (proj2 (index_Ok _ _ _) Htok). cbn [mbind result_bind]. rewrite Htok.
  case_bool_decide as He; [by rewrite app_nil_r|].
  assert (∃ old, (if bool_decide (length out < n) then index context (length context - n + length out) else index (out ++ [tok]) (length out - n)) = Ok (E := NgramModError) old ∧
    (context ++ out) !! (length (context ++ out) - n) = Some old) as (old & -> & Hold).
  { rewrite length_app. case_bool_decide as Hk.
    - destruct (lookup_lt_is_Some_2 context (length context - n + length out)) as [old Hold]; [lia|]. exists old. split; [by apply index_Ok|].
      rewrite lookup_app_l by lia. rewrite <- Hold. f_equal. lia.
    - pose proof (ps_match p Hs). fold n in H. destruct (lookup_lt_is_Some_2 out (length out - n)) as [old Hold]; [lia|]. exists old. split.
      + apply index_Ok. rewrite lookup_app_l by lia. done.
      + rewrite lookup_app_r by lia. rewrite <- Hold. f_equal. lia. }
  cbn [mbind result_bind]. pose proof (roll_window p ((context ++ out) ++ [tok]) (length (context ++ out)) old tok Hs) as Hroll. fold n in Hroll.
  rewrite window_of_app in Hroll by (rewrite ?length_app; lia). fold hash in Hroll. rewrite Hroll.
  - rewrite <- app_assoc. specialize (IH (out ++ [tok])). replace (length (out ++ [tok])) with (S (length out)) in IH by (rewrite length_app; cbn; lia).
    replace (S (length (context ++ out))) with (length (context ++ out ++ [tok])) by (rewrite !length_app; cbn; lia). rewrite IH. by rewrite <- app_assoc.
  - rewrite length_app. lia.
  - rewrite lookup_app_l; [done|]. rewrite length_app. pose proof (ps_match p Hs). fold n in H. lia.
  - by rewrite lookup_app_r, Nat.sub_diag by lia.
Qed.

Lemma draft_exact p context caller_max : pool_shape p → draft p context caller_max = Ok (draft_ref p context caller_max).
Proof.
  intros Hs. unfold draft, draft_ref. pose proof (draft_chain_length (Nat.min (n_max (np_config p)) caller_max) p context) as Hle.
  set (limit := Nat.min (n_max (np_config p)) caller_max) in *.
  destruct (bool_decide (limit = 0) || bool_decide (length context < n_match (np_config p)) || bool_decide (limit < n_min (np_config p))) eqn:Hguard.
  - rewrite bool_decide_eq_false_2; [done|]. intros (? & ? & ?). apply orb_true_iff in Hguard as [[Hg|Hg]%orb_true_iff|Hg]; apply bool_decide_eq_true in Hg; lia.
  - apply orb_false_iff in Hguard as [[H1 H2]%orb_false_iff H3]. apply bool_decide_eq_false in H1, H2, H3.
    pose proof (draft_loop_exact p context Hs ltac:(lia) limit []) as Hloop. rewrite app_nil_r in Hloop. cbn [length] in Hloop.
    unfold window_of in Hloop at 1. rewrite take_ge in Hloop by (rewrite length_drop; lia). rewrite Hloop. cbn [mbind result_bind app]. f_equal.
    case_bool_decide; [rewrite bool_decide_eq_false_2 by lia|rewrite bool_decide_eq_true_2 by lia]; done.
Qed.

Lemma new_wf c p : (Z.of_nat (n_match c) ≤ 4294967296)%Z → NgramModPool_new c = Ok p → ngram_pool_wf p.
Proof.
  intros Hn. unfold NgramModPool_new. intros Hnew. inv_ok. to_prop. unfold is_power_of_two in *. to_prop.
  assert (capacity c = 2 ^ Z.of_nat (Z.to_nat (Z.log2 (capacity c))))%Z as Hcap by (rewrite Z2Nat.id by apply Z.log2_nonneg; lia).
  split; [split; cbn; try done; try lia|cbn; apply Z.div_pos; lia].
  - by eexists.
  - rewrite length_replicate. lia.
  - case_bool_decide; [replace (n_match c - 1) with 0 by lia; done|]. unfold wrapping_pow, wrap32. by rewrite Z.mod_small by lia.
  - by rewrite filled_replicate.
Qed.

(** The hash pool refines a table keyed by whole windows. Filling with the rolling
    hash never panics (the assertion on the hash included) and leaves the table that
    storing every window under its own hash leaves, cleared when more than a quarter
    full; the occupancy count is exact; drafting equals the chain of lookups that
    hashes the last [n_match] tokens afresh at every step, between [n_min] and the
    smaller of [n_max] and the caller's limit in length. *)
Theorem hash_pool_refines p context next_token_start caller_max :
  ngram_pool_wf p → Forall (λ t, t ≠ EMPTY) context →
  insert_range p context next_token_start = Ok (insert_range_ref p context next_token_start) ∧
  ngram_pool_wf (insert_range_ref p context next_token_start) ∧
  draft p context caller_max = Ok (draft_ref p context caller_max) ∧
  (∀ out, draft_ref p context caller_max = Some out → n_min (np_config p) ≤ length out ≤ Nat.min (n_max (np_config p)) caller_max).
Proof.
  intros Hwf Htok. destruct (insert_range_exact p context next_token_start Hwf Htok) as [Hins Hwf']. split_and!; [done|done|apply draft_exact, Hwf|].
  intros out. unfold draft_ref. case_bool_decide as H; [|done]. intros [= <-]. split; [tauto|]. apply draft_chain_length.
Qed.

Definition pool_example : result NgramModError NgramModPool := NgramModPool_new (mkNgramModConfig 64 2 1 4).

Lemma hash_pool_refines_witness : ∃ p p', pool_example = Ok p ∧ insert_range p [1; 2; 3; 1; 2; 3]%Z 0 = Ok p' ∧ draft p' [9; 1; 2]%Z 3 = Ok (Some [3; 1; 2]%Z).
Proof.
  destruct pool_example as [p|e|] eqn:Hp; try (vm_compute in Hp; discriminate). exists p. assert (ngram_pool_wf p) as Hwf by (eapply new_wf; [|exact Hp]; done).
  destruct (hash_pool_refines p [1; 2; 3; 1; 2; 3]%Z 0 3 Hwf ltac:(by repeat constructor)) as (Hins & Hwf' & _ & _).
  eexists. split; [done|]. split; [exact Hins|].
  destruct (hash_pool_refines _ [9; 1; 2]%Z 0 3 Hwf' ltac:(by repeat constructor)) as (_ & _ & -> & _). f_equal. vm_compute in Hp. injection Hp as <-. vm_compute. reflexivity.
Defined.

(** A run of five low-acceptance attempts, and nothing else, clears the pool. *)
Lemma record_draft_result_exact p drafted accepted : (0 ≤ low_accept_streak p < 5)%Z → (0 ≤ accepted ≤ U32_MAX)%Z →
  let low := (0 < drafted ∧ accepted * 4 < drafted)%Z in
  let '(cleared, p') := record_draft_result p drafted accepted in
  (cleared = true ↔ low ∧ low_accept_streak p = 4%Z) ∧ (cleared = true → p' = clear p) ∧
  (cleared = false → table p' = table p ∧ low_accept_streak p' = if bool_decide low then (low_accept_streak p + 1)%Z else 0%Z) ∧
  (0 ≤ low_accept_streak p' < 5)%Z.
Proof.
  intros Hst Hacc low. unfold record_draft_result, saturating_add. rewrite (Z.min_r U64_MAX) by (unfold U32_MAX, U64_MAX in *; lia).
  rewrite (Z.min_r U32_MAX) by (unfold U32_MAX; lia).
  assert ((0 <? drafted)%Z && (accepted * 4 <? drafted)%Z = bool_decide low) as ->.
  { unfold low. destruct (Z.ltb_spec 0 drafted), (Z.ltb_spec (accepted * 4) drafted); cbn; symmetry; (apply bool_decide_eq_true_2 || apply bool_decide_eq_false_2); lia. }
  case_bool_decide as Hlow; cbn [negb]; [destruct (Z.ltb_spec (low_accept_streak p + 1) 5)|]; cbn [low_accept_streak table clear]; clearbody low; repeat split; intros; destruct_and?; done || lia || tauto.
Qed.
