(* ===== verification/LoopGuard.v ===== *)
(** The repetition guard on the emitted tokens
    (src/crates/hipfire-runtime/src/loop_guard.rs).

    The guard counts the 4-grams of the last [ngram_window] tokens in a hash map, whose
    iteration order is the parameter [counts_iter] of [check]. *)

From S2P Require Import Prelude.

Inductive LoopStop : Type := NgramRepeat (ngram : list Z) (count : nat).

Record LoopGuard := mkLoopGuard {
  ngram_threshold : nat;
  ngram_window : nat;
  enabled : bool }.

(** [LoopGuard::new], [off] *)
Definition LoopGuard_new (threshold window : nat) : LoopGuard := mkLoopGuard threshold window (bool_decide (0 < threshold)).
Definition LoopGuard_off : LoopGuard := mkLoopGuard 0 0 false.

(** [slice::windows] *)
Definition windows (n : nat) (l : list Z) : list (list Z) :=
  if bool_decide (length l < n) then [] else (λ i, take n (drop i l)) <$> seq 0 (length l - n + 1).

Definition count_one (counts : gmap (list Z) nat) (w : list Z) : gmap (list Z) nat :=
  <[w := default 0 (counts !! w) + 1]> counts.

(** [Iterator::max_by_key]: the last of the largest. *)
Fixpoint max_count (l : list (list Z * nat)) : option (list Z * nat) :=
  match l with
  | [] => None
  | x :: l => match max_count l with Some y => if bool_decide (y.2 < x.2) then Some x else Some y | None => Some x end
  end.

(** [check] *)
Definition check (counts_iter : gmap (list Z) nat → list (list Z * nat)) (g : LoopGuard) (streamed_tokens : list Z) : option LoopStop :=
  if negb (enabled g) then None else
  if bool_decide (length streamed_tokens < 4) then None else
  let window_start := length streamed_tokens - ngram_window g in
  let window := drop window_start streamed_tokens in
  if bool_decide (length window < 4) then None else
  let ngram_counts := foldl count_one ∅ (windows 4 window) in
  let '(max_ngram, max) := default ([0; 0; 0; 0]%Z, 0) (max_count (counts_iter ngram_counts)) in
  if bool_decide (ngram_threshold g ≤ max) then Some (NgramRepeat max_ngram max) else None.

(** [window_len] *)
Definition window_len (g : LoopGuard) (streamed_tokens_len : nat) : nat :=
  streamed_tokens_len - (streamed_tokens_len - ngram_window g).

(** How often a 4-gram occurs. *)
Definition occurrences (x : list Z) (l : list (list Z)) : nat := length (filter (λ w, w = x) l).

Lemma count_windows l : ∀ counts x, default 0 (foldl count_one counts l !! x) = default 0 (counts !! x) + occurrences x l.
Proof.
  induction l as [|w l IH]; intros counts x; [cbn; lia|]. cbn [foldl]. rewrite IH. unfold count_one, occurrences. rewrite filter_cons.
  destruct (decide (w = x)) as [->|Hne]; [rewrite lookup_insert_eq; cbn; lia|by rewrite lookup_insert_ne].
Qed.

Lemma max_count_spec l : match max_count l with None => l = [] | Some best => best ∈ l ∧ ∀ x, x ∈ l → x.2 ≤ best.2 end.
Proof.
  induction l as [|x l IH]; [done|]. cbn [max_count]. destruct (max_count l) as [y|].
  - destruct IH as [Hy Hmax]. case_bool_decide; (split; [solve [left|by right]|]); intros z [->|Hz]%elem_of_cons; try lia; specialize (Hmax z Hz); lia.
  - subst. split; [left|]. by intros z ->%list_elem_of_singleton.
Qed.

(** What the guard inspects. *)
Definition inspected (g : LoopGuard) (streamed_tokens : list Z) : list (list Z) :=
  windows 4 (drop (length streamed_tokens - ngram_window g) streamed_tokens).

(** The repetition guard fires exactly on a loop: it stops the stream if and only if
    some 4-gram occurs at least [threshold] times in the last [window] tokens, and the
    4-gram it reports is one of the most frequent, with its exact count. *)
Theorem loop_guard_exact counts_iter threshold window tokens :
  (∀ m, counts_iter m ≡ₚ map_to_list m) → threshold ≠ 0 →
  match check counts_iter (LoopGuard_new threshold window) tokens with
  | Some (NgramRepeat ngram count) =>
      count = occurrences ngram (inspected (LoopGuard_new threshold window) tokens) ∧ threshold ≤ count ∧
      ∀ x, occurrences x (inspected (LoopGuard_new threshold window) tokens) ≤ count
  | None => ∀ x, occurrences x (inspected (LoopGuard_new threshold window) tokens) < threshold
  end.
Proof.
  intros Hiter Ht. set (g := LoopGuard_new threshold window). unfold check. cbn [enabled g LoopGuard_new]. rewrite (bool_decide_eq_true_2 (0 < threshold)) by lia. cbn [negb].
  assert (∀ x, occurrences x (inspected g tokens) = default 0 (foldl count_one ∅ (inspected g tokens) !! x)) as Hocc
    by (intros x; by rewrite count_windows, lookup_empty).
  assert (inspected g tokens = [] → ∀ x, occurrences x (inspected g tokens) < threshold) as Hnil by (intros -> x; cbn; lia).
  case_bool_decide as H4. { apply Hnil. unfold inspected, windows. rewrite bool_decide_eq_true_2; [done|]. rewrite length_drop. lia. }
  fold (ngram_window g). case_bool_decide as Hw. { apply Hnil. unfold inspected, windows. by rewrite bool_decide_eq_true_2. }
  fold (inspected g tokens). set (counts := foldl count_one ∅ (inspected g tokens)) in *.
  pose proof (max_count_spec (counts_iter counts)) as Hmax. destruct (max_count (counts_iter counts)) as [[ngram count]|]; cbn [default from_option id].
  - destruct Hmax as [Hin Hmax]. rewrite Hiter in Hin. apply elem_of_map_to_list in Hin.
    assert (∀ x, occurrences x (inspected g tokens) ≤ count) as Hle.
    { intros x. rewrite Hocc. destruct (counts !! x) as [n|] eqn:E; cbn; [|lia]. apply (Hmax (x, n)). rewrite Hiter. by apply elem_of_map_to_list. }
    cbn [ngram_threshold g LoopGuard_new]. case_bool_decide as Hth.
    + split_and!; [|done|done]. by rewrite Hocc, Hin.
    + intros x. specialize (Hle x). lia.
  - rewrite bool_decide_eq_false_2 by (cbn; lia). intros x. rewrite Hocc. destruct (counts !! x) as [n|] eqn:E; cbn; [|lia].
    assert ((x, n) ∈ counts_iter counts) as Hin by (rewrite Hiter; by apply elem_of_map_to_list). rewrite Hmax in Hin. by apply elem_of_nil in Hin.
Qed.
Lemma loop_guard_exact_witness : ∃ ngram count, check map_to_list (LoopGuard_new 2 256) [1; 2; 3; 4; 1; 2; 3; 4]%Z = Some (NgramRepeat ngram count) ∧
  count = occurrences ngram (inspected (LoopGuard_new 2 256) [1; 2; 3; 4; 1; 2; 3; 4]%Z) ∧ 2 ≤ count.
Proof.
  pose proof (loop_guard_exact map_to_list 2 256 [1; 2; 3; 4; 1; 2; 3; 4]%Z (λ m, Permutation_refl (map_to_list m)) ltac:(done)) as H.
  destruct (check _ _ _) as [[ngram count]|] eqn:E; [|exfalso; vm_compute in E; discriminate]. exists ngram, count. destruct H as (Hc & Hge & _). split; [reflexivity|]. exact (conj Hc Hge).
Defined.
