(* ===== verification/WeightPager.v ===== *)
(** The weight pager (src/crates/hipfire-runtime/src/weight_pager.rs).

    Weights that do not fit in device memory are fetched on demand and evicted least
    recently used first, under a byte budget. The transport that reads a weight from
    the model file into device memory is the class [Transport]; a tensor is its device
    address, and the log of freed tensors stands for the device allocator.

    Proved here: the residency map, the recency queue and the byte count agree in every
    reachable state; a working set within the budget is resident once it was requested,
    whatever was resident before, so the pointer table can be patched; weights the
    documentation calls always resident can be evicted. *)

From S2P Require Import Prelude.

Inductive ExpertRole : Type := GateUp | Down.
Inductive SharedRole : Type := SharedGate | SharedUp | SharedDown | SigmoidGate.
Inductive AttnRole : Type := AttnQ | AttnK | AttnV | AttnO | AttnQkv.
Inductive NormKind : Type := NormAttn | NormFfn | NormFinal.
Inductive WeightId : Type :=
| Expert (layer expert : Z) (role : ExpertRole)
| SharedExpert (layer : Z) (role : SharedRole)
| Router (layer : Z)
| DenseAttn (layer : Z) (role : AttnRole)
| Norm (layer : Z) (kind : NormKind)
| Embed
| LmHead.
#[export] Instance ExpertRole_eq_dec : EqDecision ExpertRole.
Proof. solve_decision. Defined.
#[export] Instance SharedRole_eq_dec : EqDecision SharedRole.
Proof. solve_decision. Defined.
#[export] Instance AttnRole_eq_dec : EqDecision AttnRole.
Proof. solve_decision. Defined.
#[export] Instance NormKind_eq_dec : EqDecision NormKind.
Proof. solve_decision. Defined.
#[export] Instance WeightId_eq_dec : EqDecision WeightId.
Proof. solve_decision. Defined.

(** The hash key of an identity: its constructor and fields. *)
Definition weight_key (id : WeightId) : list Z :=
  match id with
  | Expert l e r => [0; l; e; match r with GateUp => 0 | Down => 1 end]
  | SharedExpert l r => [1; l; match r with SharedGate => 0 | SharedUp => 1 | SharedDown => 2 | SigmoidGate => 3 end]
  | Router l => [2; l]
  | DenseAttn l r => [3; l; match r with AttnQ => 0 | AttnK => 1 | AttnV => 2 | AttnO => 3 | AttnQkv => 4 end]
  | Norm l k => [4; l; match k with NormAttn => 0 | NormFfn => 1 | NormFinal => 2 end]
  | Embed => [5]
  | LmHead => [6]
  end%Z.
Definition weight_of_key (k : list Z) : option WeightId :=
  match k with
  | [0; l; e; r] => Some (Expert l e (if (r =? 0)%Z then GateUp else Down))
  | [1; l; r] => Some (SharedExpert l (if (r =? 0)%Z then SharedGate else if (r =? 1)%Z then SharedUp else if (r =? 2)%Z then SharedDown else SigmoidGate))
  | [2; l] => Some (Router l)
  | [3; l; r] => Some (DenseAttn l (if (r =? 0)%Z then AttnQ else if (r =? 1)%Z then AttnK else if (r =? 2)%Z then AttnV else if (r =? 3)%Z then AttnO else AttnQkv))
  | [4; l; k] => Some (Norm l (if (k =? 0)%Z then NormAttn else if (k =? 1)%Z then NormFfn else NormFinal))
  | [5] => Some Embed
  | [6] => Some LmHead
  | _ => None
  end%Z.
#[export] Instance WeightId_countable : Countable WeightId.
Proof. refine (inj_countable weight_key weight_of_key _). intros [? ? []|? []|?|? []|? []| |]; done. Defined.

Record ByteRange := mkByteRange { br_offset : Z; br_len : Z }.
Record PagerConfig := mkPagerConfig { vram_budget_bytes : Z; trace : bool }.
Definition PagerConfig_default : PagerConfig := mkPagerConfig U64_MAX false.
Record Resident := mkResident { tensor : Z; bytes : Z }.

Inductive WeightPagerError (H : Type) : Type :=
| NotRegistered (id : WeightId)
| Hip (e : H)
| BudgetExhausted (need_bytes in_use budget : Z)
| Unimplemented (why : string).
Arguments NotRegistered {_}.
Arguments Hip {_}.
Arguments BudgetExhausted {_}.
Arguments Unimplemented {_}.

(** [Transport::fetch]: allocate and fill a tensor. *)
Class Transport (H Tr : Type) := { fetch : Tr → Z → Z → result H Z * Tr }.

Record WeightPager (Tr : Type) := mkWeightPager {
  resident : gmap WeightId Resident;
  lru : list WeightId;
  vram_used_bytes : Z;
  catalog : gmap WeightId ByteRange;
  transport : Tr;
  pager_config : PagerConfig }.
Arguments mkWeightPager {_}.
Arguments resident {_}.
Arguments lru {_}.
Arguments vram_used_bytes {_}.
Arguments catalog {_}.
Arguments transport {_}.
Arguments pager_config {_}.

(** [WeightPager::new] *)
Definition WeightPager_new {Tr} (transport : Tr) (config : PagerConfig) : WeightPager Tr := mkWeightPager ∅ [] 0 ∅ transport config.

Section Pager.
Context {H Tr : Type} `{!Transport H Tr}.
Implicit Types (p : WeightPager Tr).

Definition with_residency p (r : gmap WeightId Resident) (l : list WeightId) (used : Z) : WeightPager Tr :=
  mkWeightPager r l used (catalog p) (transport p) (pager_config p).
Definition with_transport p (t : Tr) : WeightPager Tr :=
  mkWeightPager (resident p) (lru p) (vram_used_bytes p) (catalog p) t (pager_config p).

(** [register] *)
Definition register p (id : WeightId) (range : ByteRange) : WeightPager Tr :=
  mkWeightPager (resident p) (lru p) (vram_used_bytes p) (<[id := range]> (catalog p)) (transport p) (pager_config p).

Definition is_resident p (id : WeightId) : bool := bool_decide (is_Some (resident p !! id)).

(** [touch_lru]: the first occurrence moves to the back. *)
Definition touch_lru p (id : WeightId) : WeightPager Tr :=
  match list_find (λ x, x = id) (lru p) with
  | Some (pos, _) => with_residency p (resident p) (delete pos (lru p) ++ [id]) (vram_used_bytes p)
  | None => p
  end.

(** [would_fit] *)
Definition would_fit p (need : Z) : result (WeightPagerError H) unit :=
  let budget := vram_budget_bytes (pager_config p) in
  err_if (negb (bool_decide (budget = U64_MAX)) && (need >? budget)%Z) (BudgetExhausted need (vram_used_bytes p) budget).

(** The loop of [evict_lru_until]: one queue entry a round, so the queue bounds it. The
    log of freed tensors grows. A queue entry that is not resident stops a debug build
    (in a release build it is dropped). *)
Fixpoint evict_loop (queue : list WeightId) (r : gmap WeightId Resident) (used need target budget : Z) (freed : list Z)
    : result (WeightPagerError H) unit * (gmap WeightId Resident * list WeightId * Z) * list Z :=
  if (used <=? target)%Z then (Ok tt, (r, queue, used), freed) else
  match queue with
  | [] => (Err (BudgetExhausted need used budget), (r, [], used), freed)
  | id :: queue =>
      match r !! id with
      | Some x => evict_loop queue (delete id r) (saturating_sub used (bytes x)) need target budget (freed ++ [tensor x])
      | None => (Panic, (r, queue, used), freed)
      end
  end.

(** [evict_lru_until] *)
Definition evict_lru_until p (need_bytes : Z) (freed : list Z) : result (WeightPagerError H) unit * WeightPager Tr * list Z :=
  match would_fit p need_bytes with
  | Ok _ =>
      let budget := vram_budget_bytes (pager_config p) in
      let target_used := saturating_sub budget need_bytes in
      let '(res, (r, q, used), freed) := evict_loop (lru p) (resident p) (vram_used_bytes p) need_bytes target_used budget freed in
      (res, with_residency p r q used, freed)
  | Err e => (Err e, p, freed)
  | Panic => (Panic, p, freed)
  end.

(** What [ensure_resident] does once there is room. *)
Definition load_weight p (id : WeightId) (range : ByteRange) : result (WeightPagerError H) unit * WeightPager Tr :=
  match fetch (transport p) (br_offset range) (br_len range) with
  | (Ok t, tr) =>
      (Ok tt, with_transport (with_residency p (<[id := mkResident t (br_len range)]> (resident p)) (lru p ++ [id])
        (saturating_add U64_MAX (vram_used_bytes p) (br_len range))) tr)
  | (Err e, tr) => (Err (Hip e), with_transport p tr)
  | (Panic, tr) => (Panic, with_transport p tr)
  end.

(** [ensure_resident] *)
Definition ensure_resident p (id : WeightId) (freed : list Z) : result (WeightPagerError H) unit * WeightPager Tr * list Z :=
  if is_resident p id then (Ok tt, touch_lru p id, freed) else
  match catalog p !! id with
  | None => (Err (NotRegistered id), p, freed)
  | Some range =>
      let need := br_len range in
      match would_fit p need with
      | Err e => (Err e, p, freed)
      | Panic => (Panic, p, freed)
      | Ok _ =>
          let budget := vram_budget_bytes (pager_config p) in
          let '(room, p, freed) :=
            if negb (bool_decide (budget = U64_MAX)) && (saturating_add U64_MAX (vram_used_bytes p) need >? budget)%Z
            then evict_lru_until p need freed else (Ok tt, p, freed) in
          match room with
          | Ok _ => let '(res, p) := load_weight p id range in (res, p, freed)
          | Err e => (Err e, p, freed)
          | Panic => (Panic, p, freed)
          end
      end
  end.

(** [insert_resident] *)
Definition insert_resident p (id : WeightId) (t bytes_ : Z) : WeightPager Tr :=
  let p := match resident p !! id with
    | Some prev => with_residency p (delete id (resident p)) (filter (λ x, x ≠ id) (lru p)) (saturating_sub (vram_used_bytes p) (bytes prev))
    | None => p
    end in
  with_residency p (<[id := mkResident t bytes_]> (resident p)) (lru p ++ [id]) (saturating_add U64_MAX (vram_used_bytes p) bytes_).

(** [free_all] *)
Definition free_all p (freed : list Z) : WeightPager Tr * list Z :=
  (with_residency p ∅ [] 0, freed ++ (tensor ∘ snd <$> map_to_list (resident p))).

(** [get] *)
Definition get p (id : WeightId) : option Z := tensor <$> resident p !! id.

(** [patch_expert_ptr_table]: the writes it makes to the two tables, with the outcome of
    each copy as a parameter. *)
Inductive PtrTable : Type := GateUpPtrs | DownPtrs.
Definition patch_one p (copy : PtrTable → Z → option H) (layer idx : Z) : result H (list (PtrTable * Z * list Z)) :=
  gate_up ← expect (resident p !! Expert layer idx GateUp);
  down ← expect (resident p !! Expert layer idx Down);
  let offset := (idx * 8)%Z in
  match copy GateUpPtrs offset with
  | Some e => Err e
  | None =>
      match copy DownPtrs offset with
      | Some e => Err e
      | None => Ok [(GateUpPtrs, offset, le_bytes 8 (tensor gate_up)); (DownPtrs, offset, le_bytes 8 (tensor down))]
      end
  end.
Definition patch_expert_ptr_table p (copy : PtrTable → Z → option H) (layer : Z) (top_indices : list Z) : result H (list (PtrTable * Z * list Z)) :=
  writes ← try_map (patch_one p copy layer) top_indices;
  Ok (concat writes).
End Pager.

(** ** Bookkeeping *)

Definition bytes_at (r : gmap WeightId Resident) (id : WeightId) : Z := match r !! id with Some x => bytes x | None => 0%Z end.
Definition held_bytes (r : gmap WeightId Resident) (l : list WeightId) : Z := foldr (λ id s, bytes_at r id + s)%Z 0%Z l.

(** The queue lists the resident weights once each, and the count is their size. *)
Record residency_wf (r : gmap WeightId Resident) (q : list WeightId) (used : Z) : Prop := {
  rw_nodup : NoDup q;
  rw_queue : ∀ id, id ∈ q ↔ is_Some (r !! id);
  rw_bytes : ∀ id x, r !! id = Some x → (0 ≤ bytes x)%Z;
  rw_used : used = held_bytes r q }.

Lemma held_bytes_app r l k : held_bytes r (l ++ k) = (held_bytes r l + held_bytes r k)%Z.
Proof. induction l as [|id l IH]; cbn; [done|]. fold (held_bytes r (l ++ k)) (held_bytes r l). rewrite IH. lia. Qed.

Lemma held_one r id : held_bytes r [id] = bytes_at r id.
Proof. cbn. lia. Qed.

Lemma held_ext r r' l : (∀ id, id ∈ l → r !! id = r' !! id) → held_bytes r l = held_bytes r' l.
Proof.
  induction l as [|id l IH]; intros Hext; [done|]. cbn. fold (held_bytes r l) (held_bytes r' l). rewrite IH by (intros; apply Hext; by right).
  unfold bytes_at. by rewrite (Hext id) by left.
Qed.

Lemma held_nonneg r l : (∀ id x, r !! id = Some x → (0 ≤ bytes x)%Z) → (0 ≤ held_bytes r l)%Z.
Proof.
  intros Hb. induction l as [|id l IH]; cbn; [done|]. fold (held_bytes r l). unfold bytes_at. destruct (r !! id) as [x|] eqn:E; cbn; [apply Hb in E|]; lia.
Qed.

Lemma held_Permutation r l k : l ≡ₚ k → held_bytes r l = held_bytes r k.
Proof. induction 1; cbn; repeat fold (held_bytes r l) (held_bytes r l'); unfold held_bytes in *; cbn in *; lia. Qed.

Lemma residency_tail r id q used : residency_wf r (id :: q) used → ∃ x, r !! id = Some x ∧ residency_wf (delete id r) q (used - bytes x).
Proof.
  intros [Hnd Hq Hb Hu]. apply NoDup_cons in Hnd as [Hnot Hnd]. destruct (proj1 (Hq id) ltac:(left)) as [x Hx]. exists x. split; [done|]. split; [done| | |].
  - intros id'. destruct (decide (id' = id)) as [->|Hne]; [rewrite lookup_delete_eq; split; [done|by intros []]|].
    rewrite lookup_delete_ne by done. rewrite <- Hq, elem_of_cons. tauto.
  - intros id' y Hy. apply lookup_delete_Some in Hy as [_ Hy]. by eapply Hb.
  - subst. cbn. fold (held_bytes r q). unfold bytes_at. rewrite Hx. cbn. rewrite (held_ext r (delete id r) q); [lia|].
    intros id' Hid'. rewrite lookup_delete_ne; [done|]. by intros ->.
Qed.

Lemma drop_incl {A} k (l : list A) x : x ∈ drop k l → x ∈ l.
Proof. intros Hx. rewrite <- (take_drop k l). apply elem_of_app. by right. Qed.

(** Eviction pops as few entries as reach the target, and never runs out of them. *)
Lemma evict_loop_exact {H} need target budget q : ∀ r used freed, residency_wf r q used → (0 ≤ target)%Z →
  ∃ k r' freed', evict_loop (H := H) q r used need target budget freed = (Ok tt, (r', drop k q, held_bytes r' (drop k q)), freed') ∧
    residency_wf r' (drop k q) (held_bytes r' (drop k q)) ∧ (held_bytes r' (drop k q) ≤ target)%Z ∧ (held_bytes r' (drop k q) ≤ used)%Z ∧
    (∀ id, id ∈ drop k q → r' !! id = r !! id) ∧ (∀ id, r' !! id = None ∨ r' !! id = r !! id) ∧
    (k = 0 ∨ (target < held_bytes r (drop (k - 1) q))%Z ∧ k ≤ length q).
Proof.
  induction q as [|id q IH]; intros r used freed Hwf Ht; cbn [evict_loop].
  - pose proof (rw_used _ _ _ Hwf) as Hu. cbn in Hu. subst used. rewrite (proj2 (Z.leb_le 0 target) Ht). exists 0, r, freed. cbn.
    split_and!; try done; auto. 
  - destruct (Z.leb_spec used target) as [Hle|Hgt].
    + exists 0, r, freed. rewrite drop_0. pose proof (rw_used _ _ _ Hwf) as Hu. rewrite <- Hu. split_and!; try done; auto.
    + destruct (residency_tail _ _ _ _ Hwf) as (x & Hx & Hwf'). rewrite Hx.
      pose proof (held_nonneg _ q (rw_bytes _ _ _ Hwf')) as H0. pose proof (rw_used _ _ _ Hwf') as Hu'. unfold saturating_sub. rewrite Z.max_r by lia.
      destruct (IH _ _ (freed ++ [tensor x]) Hwf' Ht) as (k & r' & freed' & Hloop & Hw & Hl & Hused & Hin & Hany & Hmin). exists (S k), r', freed'.
      cbn [drop]. rewrite Hloop. pose proof (rw_nodup _ _ _ Hwf) as [Hnot _]%NoDup_cons. pose proof (rw_bytes _ _ _ Hwf _ _ Hx).
      split_and!; [done|done|done|lia| | |].
      * intros id' Hid'. rewrite (Hin id' Hid'), lookup_delete_ne; [done|]. intros ->. by apply Hnot, (drop_incl k).
      * intros id'. destruct (Hany id') as [->| ->]; [by left|]. destruct (decide (id' = id)) as [->|Hne]; [rewrite lookup_delete_eq; by left|rewrite lookup_delete_ne by done; by right].
      * right. cbn [length]. split; [|destruct Hmin as [->|[_ ?]]; lia]. replace (S k - 1) with k by lia. destruct Hmin as [->|[Hm Hlk]].
        -- rewrite drop_0, <- (rw_used _ _ _ Hwf). done.
        -- destruct k as [|k]; [rewrite drop_0, <- (rw_used _ _ _ Hwf); done|]. replace (S k - 1) with k in Hm by lia. change (drop (S k) (id :: q)) with (drop k q).
           rewrite (held_ext r (delete id r) (drop k q)); [done|]. intros id' Hid'. rewrite lookup_delete_ne; [done|]. intros ->. by apply Hnot, (drop_incl k).
Qed.

Section Residency.
Context {H Tr : Type} `{!Transport H Tr}.
Implicit Types (p : WeightPager Tr).

Definition pager_wf p : Prop := residency_wf (resident p) (lru p) (vram_used_bytes p) ∧ (0 ≤ vram_budget_bytes (pager_config p) ≤ U64_MAX)%Z ∧
  ∀ id range, catalog p !! id = Some range → (0 ≤ br_len range)%Z.

Lemma new_pager_wf (t : Tr) budget trace_ : (0 ≤ budget ≤ U64_MAX)%Z → pager_wf (WeightPager_new t (mkPagerConfig budget trace_)).
Proof. intros Hb. split; [|done]. split; cbn; try done; [constructor|]. intros id. rewrite lookup_empty, elem_of_nil. split; [done|by intros []]. Qed.

Lemma used_nonneg p : pager_wf p → (0 ≤ vram_used_bytes p)%Z.
Proof. intros [[Hnd Hq Hb ->] _]. by apply held_nonneg. Qed.

Lemma list_find_eq (q : list WeightId) id : id ∈ q → ∃ pos, list_find (λ x, x = id) q = Some (pos, id).
Proof.
  intros Hin. destruct (list_find (λ x, x = id) q) as [[pos x]|] eqn:Hf.
  - apply list_find_Some in Hf as (_ & -> & _). by exists pos.
  - apply list_find_None in Hf. rewrite Forall_forall in Hf. by destruct (Hf id Hin).
Qed.

(** Moving an entry of the queue to the back. *)
Lemma touch_exact p id cold hot : lru p = cold ++ hot → id ∈ cold → id ∉ hot →
  ∃ cold', touch_lru p id = with_residency p (resident p) (cold' ++ hot ++ [id]) (vram_used_bytes p) ∧ id :: cold' ≡ₚ cold.
Proof.
  intros Hq Hc Hh. unfold touch_lru. destruct (list_find_eq (lru p) id) as [pos Hf]; [rewrite Hq; apply elem_of_app; by left|]. rewrite Hf.
  apply list_find_Some in Hf as (Hpos & _ & _). rewrite Hq in *. assert (pos < length cold) as Hlt.
  { destruct (decide (pos < length cold)); [done|]. rewrite lookup_app_r in Hpos by lia. apply list_elem_of_lookup_2 in Hpos. done. }
  rewrite lookup_app_l in Hpos by done. exists (delete pos cold). split; [|symmetry; by apply delete_Permutation].
  rewrite delete_take_drop, take_app_le, drop_app_le by lia. rewrite (delete_take_drop cold). by rewrite <- !app_assoc.
Qed.

Lemma touch_lru_wf p id : pager_wf p → id ∈ lru p → pager_wf (touch_lru p id).
Proof.
  intros [[Hnd Hq Hb Hu] Hrest] Hin. destruct (touch_exact p id (lru p) []) as (cold & -> & Hperm); [by rewrite app_nil_r|done|by apply not_elem_of_nil|].
  split; [|done]. cbn [app] in *. assert (cold ++ [id] ≡ₚ lru p) as Hp by (rewrite <- Hperm; symmetry; apply Permutation_cons_append).
  split; cbn [with_residency lru resident vram_used_bytes]; [by rewrite Hp|intros id'; by rewrite Hp|done|by rewrite (held_Permutation _ _ _ Hp)].
Qed.

(** What a successful load changes. *)
Lemma load_exact p id range t tr : pager_wf p → resident p !! id = None → catalog p !! id = Some range → (vram_used_bytes p + br_len range ≤ U64_MAX)%Z →
  fetch (transport p) (br_offset range) (br_len range) = (Ok t, tr) →
  ∃ p', load_weight p id range = (Ok tt, p') ∧ pager_wf p' ∧ resident p' = <[id := mkResident t (br_len range)]> (resident p) ∧
    lru p' = lru p ++ [id] ∧ catalog p' = catalog p ∧ pager_config p' = pager_config p ∧ vram_used_bytes p' = (vram_used_bytes p + br_len range)%Z.
Proof.
  intros Hwf Hnone Hcat Hmax Hf. pose proof (used_nonneg p Hwf) as H0. destruct Hwf as ([Hnd Hq Hb Hu] & Hbud & Hlen). pose proof (Hlen _ _ Hcat).
  unfold load_weight. rewrite Hf. eexists. split; [done|]. unfold saturating_add. cbn [with_transport with_residency lru resident vram_used_bytes catalog pager_config]. rewrite Z.min_r by lia.
  split; [|done]. split; [|split; [exact Hbud|exact Hlen]].
  assert (id ∉ lru p) as Hnot. { intros Hin%Hq. rewrite Hnone in Hin. by destruct Hin. }
  split; cbn [with_transport with_residency lru resident vram_used_bytes].
  - apply NoDup_app. split_and!; [done|intros x Hx ->%list_elem_of_singleton; done|apply NoDup_singleton].
  - intros id'. rewrite elem_of_app, list_elem_of_singleton, Hq. destruct (decide (id' = id)) as [->|Hne]; [rewrite lookup_insert_eq; split; [by eexists|by right]|].
    rewrite lookup_insert_ne by done. tauto.
  - intros id' x Hx. apply lookup_insert_Some in Hx as [[-> <-]|[_ Hx]]; [done|by eapply Hb].
  - rewrite held_bytes_app, held_one. unfold bytes_at. rewrite lookup_insert_eq. cbn [bytes].
    rewrite (held_ext _ (resident p) (lru p)); [lia|].
    intros id' Hid'. rewrite lookup_insert_ne; [done|]. by intros ->.
Qed.

(** Requesting one more weight of a working set that fits: nothing of it is evicted. *)
Lemma ensure_exact p id range cold hot freed : pager_wf p → lru p = cold ++ hot → id ∉ hot → catalog p !! id = Some range →
  (∀ x, resident p !! id = Some x → bytes x = br_len range) →
  (held_bytes (resident p) hot + br_len range ≤ vram_budget_bytes (pager_config p))%Z → (vram_used_bytes p + br_len range ≤ U64_MAX)%Z →
  (∀ tr off len, ∃ t tr', fetch tr off len = (Ok t, tr')) →
  ∃ p' freed' cold' x, ensure_resident p id freed = (Ok tt, p', freed') ∧ pager_wf p' ∧ lru p' = cold' ++ hot ++ [id] ∧
    resident p' !! id = Some x ∧ bytes x = br_len range ∧ (∀ j, j ∈ hot → resident p' !! j = resident p !! j) ∧
    (∀ j, j ≠ id → resident p' !! j = None ∨ resident p' !! j = resident p !! j) ∧
    catalog p' = catalog p ∧ pager_config p' = pager_config p ∧ (vram_used_bytes p' ≤ vram_used_bytes p + br_len range)%Z ∧
    (vram_used_bytes p' ≤ Z.max (vram_used_bytes p) (vram_budget_bytes (pager_config p)))%Z.
Proof.
  intros Hwf Hq Hnot Hcat Hsize Hfit Hmax Hfetch. pose proof (used_nonneg p Hwf) as H0. unfold ensure_resident, is_resident.
  assert (0 ≤ br_len range)%Z as Hlen by (destruct Hwf as (_ & _ & Hl); by eapply Hl). case_bool_decide as Hres.
  - destruct Hres as [x Hx]. assert (id ∈ cold) as Hin.
    { pose proof (rw_queue _ _ _ (proj1 Hwf) id) as [_ Hin]. specialize (Hin ltac:(by eexists)). rewrite Hq in Hin. apply elem_of_app in Hin as [?|?]; done. }
    assert (id ∈ lru p) as Hin' by (rewrite Hq; apply elem_of_app; by left). pose proof (touch_lru_wf p id Hwf Hin') as Hwf'.
    destruct (touch_exact p id cold hot Hq Hin Hnot) as (cold' & Ht & _). rewrite Ht in *. eexists _, freed, cold', x. split; [done|]. cbn. split_and!; auto; lia.
  - assert (resident p !! id = None) as Hnone by (destruct (resident p !! id); [by destruct Hres|done]). rewrite Hcat.
    destruct Hwf as (Hw & Hbud & Hl). set (budget := vram_budget_bytes (pager_config p)) in *.
    pose proof (held_nonneg _ hot (rw_bytes _ _ _ Hw)) as Hh0. assert (would_fit (H := H) p (br_len range) = Ok tt) as Hfits.
    { unfold would_fit, err_if. fold budget. rewrite Z.gtb_ltb, (proj2 (Z.ltb_ge _ _)) by lia. by rewrite andb_false_r. }
    rewrite Hfits. unfold saturating_add. rewrite Z.min_r by lia. set (full := negb _ && _).
    assert (∃ p1 freed1 cold1, (if full then evict_lru_until p (br_len range) freed else (Ok tt, p, freed)) = (Ok tt, p1, freed1) ∧ pager_wf p1 ∧ lru p1 = cold1 ++ hot ∧
      (∀ j, j ∈ hot → resident p1 !! j = resident p !! j) ∧ (∀ j, resident p1 !! j = None ∨ resident p1 !! j = resident p !! j) ∧
      catalog p1 = catalog p ∧ pager_config p1 = pager_config p ∧ (vram_used_bytes p1 ≤ vram_used_bytes p)%Z ∧ (vram_used_bytes p1 + br_len range ≤ budget)%Z) as (p1 & freed1 & cold1 & -> & Hwf1 & Hq1 & Hhot1 & Hany1 & Hcat1 & Hcfg1 & Hu1 & Hb1).
    { unfold full. case_bool_decide as Hun; cbn [negb andb]; [exists p, freed, cold; split_and!; try done; auto; lia|].
      rewrite Z.gtb_ltb. destruct (Z.ltb_spec budget (vram_used_bytes p + br_len range)); [|exists p, freed, cold; split_and!; try done; auto; lia].
      unfold evict_lru_until. rewrite Hfits. unfold saturating_sub. fold budget. rewrite Z.max_r by lia.
      destruct (evict_loop_exact (H := H) (br_len range) (budget - br_len range) budget (lru p) (resident p) (vram_used_bytes p) freed Hw ltac:(lia))
        as (k & r' & freed' & -> & Hw' & Hle & Hless & Hin & Hany & Hmin).
      assert (k ≤ length cold) as Hk.
      { destruct Hmin as [->|[Hm Hkl]]; [lia|]. destruct (decide (k ≤ length cold)); [done|]. exfalso. rewrite Hq, drop_app_ge in Hm by lia.
        rewrite <- (take_drop (k - 1 - length cold) hot), held_bytes_app in Hfit. pose proof (held_nonneg _ (take (k - 1 - length cold) hot) (rw_bytes _ _ _ Hw)). lia. }
      rewrite Hq, drop_app_le in * by lia. eexists _, freed', (drop k cold). split; [done|]. cbn. split_and!; try done.
      - intros j Hj. apply Hin. apply elem_of_app. by right.
      - lia. }
    destruct (Hfetch (transport p1) (br_offset range) (br_len range)) as (t & tr & Hf).
    destruct (load_exact p1 id range t tr Hwf1) as (p2 & -> & Hwf2 & Hr2 & Hl2 & Hc2 & Hg2 & Hu2); [destruct (Hany1 id) as [?| ->]; done|by rewrite Hcat1|lia|done|].
    exists p2, freed1, cold1, (mkResident t (br_len range)). rewrite Hr2, Hl2, Hq1, Hc2, Hg2, Hu2, lookup_insert_eq, <- app_assoc. split_and!; try done; try lia.
    + intros j Hj. rewrite lookup_insert_ne; [by apply Hhot1|]. intros ->. done.
    + intros j Hj. rewrite lookup_insert_ne by done. apply Hany1.
Qed.

(** Requests one after the other. *)
Fixpoint ensure_all p (ids : list WeightId) (freed : list Z) : result (WeightPagerError H) unit * WeightPager Tr * list Z :=
  match ids with
  | [] => (Ok tt, p, freed)
  | id :: ids =>
      match ensure_resident p id freed with
      | (Ok _, p, freed) => ensure_all p ids freed
      | failed => failed
      end
  end.

Definition set_bytes p (ids : list WeightId) : Z := foldr (λ id s, default 0 (br_len <$> catalog p !! id) + s)%Z 0%Z ids.

Lemma ensure_all_hot ids : ∀ p cold hot freed, pager_wf p → lru p = cold ++ hot → NoDup ids → (∀ id, id ∈ ids → id ∉ hot) →
  (∀ id, id ∈ ids → ∃ range, catalog p !! id = Some range ∧ ∀ x, resident p !! id = Some x → bytes x = br_len range) →
  (held_bytes (resident p) hot + set_bytes p ids ≤ vram_budget_bytes (pager_config p))%Z → (vram_used_bytes p + set_bytes p ids ≤ U64_MAX)%Z →
  (∀ tr off len, ∃ t tr', fetch tr off len = (Ok t, tr')) →
  ∃ p' freed' cold', ensure_all p ids freed = (Ok tt, p', freed') ∧ pager_wf p' ∧ lru p' = cold' ++ hot ++ ids ∧
    (vram_used_bytes p' ≤ Z.max (vram_used_bytes p) (vram_budget_bytes (pager_config p)))%Z.
Proof.
  induction ids as [|id ids IH]; intros p cold hot freed Hwf Hq Hnd Hnot Hreg Hfit Hmax Hfetch; cbn [ensure_all].
  { exists p, freed, cold. rewrite app_nil_r. split_and!; try done. lia. }
  apply NoDup_cons in Hnd as [Hni Hnd]. destruct (Hreg id ltac:(left)) as (range & Hcat & Hsize). cbn in Hfit, Hmax. rewrite Hcat in Hfit, Hmax. cbn in Hfit, Hmax. fold (set_bytes p ids) in Hfit, Hmax.
  assert (0 ≤ set_bytes p ids)%Z as Hs0.
  { clear - Hwf Hreg. assert (∀ id', id' ∈ ids → ∃ range, catalog p !! id' = Some range) as Hr by (intros id' Hin; destruct (Hreg id' ltac:(by right)) as (r & ? & _); by exists r). clear Hreg.
    destruct Hwf as (_ & _ & Hl). induction ids as [|a ids IHs]; cbn; [done|]. fold (set_bytes p ids). destruct (Hr a ltac:(left)) as (r & Hr'). rewrite Hr'. cbn.
    apply Hl in Hr'. specialize (IHs ltac:(intros; apply Hr; by right)). lia. }
  destruct (ensure_exact p id range cold hot freed Hwf Hq (Hnot id ltac:(left)) Hcat Hsize ltac:(lia) ltac:(lia) Hfetch)
    as (p1 & freed1 & cold1 & x & -> & Hwf1 & Hq1 & Hx & Hbx & Hhot & Hany & Hc1 & Hg1 & Hu1 & Hub1).
  assert (set_bytes p1 ids = set_bytes p ids) as Hsb by (unfold set_bytes; by rewrite Hc1).
  destruct (IH p1 cold1 (hot ++ [id]) freed1) as (p2 & freed2 & cold2 & -> & Hwf2 & Hq2 & Hub2); try done.
  - intros id' Hin. rewrite elem_of_app, list_elem_of_singleton. intros [?| ->]; [by apply (Hnot id'); [right|]|done].
  - intros id' Hin. destruct (Hreg id' ltac:(by right)) as (range' & Hcat' & Hsize'). exists range'. rewrite Hc1. split; [done|]. intros y Hy.
    destruct (Hany id') as [E|E]; [by intros ->|congruence|rewrite E in Hy; by apply Hsize'].
  - rewrite held_bytes_app, held_one, Hg1, Hsb. unfold bytes_at. rewrite Hx. rewrite (held_ext _ (resident p) hot Hhot). lia.
  - rewrite Hsb. lia.
  - exists p2, freed2, cold2. split_and!; try done; [by rewrite Hq2, <- app_assoc|]. rewrite Hg1 in Hub2. lia.
Qed.
End Residency.

(** The expert weights a token needs from a layer. *)
Definition expert_ids (layer : Z) (top_indices : list Z) : list WeightId :=
  concat ((λ idx, [Expert layer idx GateUp; Expert layer idx Down]) <$> top_indices).

Lemma elem_of_expert_ids layer idxs id : id ∈ expert_ids layer idxs ↔ ∃ idx, idx ∈ idxs ∧ (id = Expert layer idx GateUp ∨ id = Expert layer idx Down).
Proof.
  unfold expert_ids. rewrite list_elem_of_In, in_concat. split.
  - intros (l & Hl & Hid). apply list_elem_of_In, list_elem_of_fmap in Hl as (idx & -> & Hidx). exists idx. split; [done|]. cbn in Hid. naive_solver.
  - intros (idx & Hidx & Hid). exists [Expert layer idx GateUp; Expert layer idx Down]. split; [apply list_elem_of_In, list_elem_of_fmap; by exists idx|]. cbn. naive_solver.
Qed.

Lemma NoDup_expert_ids layer idxs : NoDup idxs → NoDup (expert_ids layer idxs).
Proof.
  induction 1 as [|idx idxs Hni Hnd IH]; [constructor|]. change (expert_ids layer (idx :: idxs)) with ([Expert layer idx GateUp; Expert layer idx Down] ++ expert_ids layer idxs).
  apply NoDup_app. split_and!; [|intros id Hid Hin|done].
  - apply NoDup_cons. split; [rewrite list_elem_of_singleton; discriminate|apply NoDup_singleton].
  - apply elem_of_expert_ids in Hin as (idx' & Hidx' & Hid'). rewrite elem_of_cons, list_elem_of_singleton in Hid. apply Hni. assert (idx = idx') as -> by naive_solver. done.
Qed.

(** C30: a working set that fits stays resident. In any consistent pager, if the experts a
    token needs are registered and fit together in the budget, requesting them one after
    the other succeeds when the transfers do, whatever was resident before and in whatever
    order it was used: none of them is evicted to make room for another, all are
    resident at the end, the memory in use does not rise above the budget, and patching
    the pointer table writes the address of each of them and does not panic. *)
Theorem working_set_resident {H Tr} `{!Transport H Tr} (p : WeightPager Tr) layer top_indices freed :
  pager_wf p → NoDup top_indices →
  (∀ id, id ∈ expert_ids layer top_indices → ∃ range, catalog p !! id = Some range ∧ ∀ x, resident p !! id = Some x → bytes x = br_len range) →
  (set_bytes p (expert_ids layer top_indices) ≤ vram_budget_bytes (pager_config p))%Z →
  (vram_used_bytes p + set_bytes p (expert_ids layer top_indices) ≤ U64_MAX)%Z →
  (∀ tr off len, ∃ t tr', fetch tr off len = (Ok t, tr')) →
  ∃ p' freed', ensure_all p (expert_ids layer top_indices) freed = (Ok tt, p', freed') ∧ pager_wf p' ∧
    (vram_used_bytes p' ≤ Z.max (vram_used_bytes p) (vram_budget_bytes (pager_config p)))%Z ∧
    (∀ id, id ∈ expert_ids layer top_indices → is_resident p' id = true) ∧
    patch_expert_ptr_table p' (λ _ _, None) layer top_indices = Ok (E := H) (concat ((λ idx,
      [(GateUpPtrs, idx * 8, le_bytes 8 (default 0 (get p' (Expert layer idx GateUp))));
       (DownPtrs, idx * 8, le_bytes 8 (default 0 (get p' (Expert layer idx Down))))]) <$> top_indices))%Z ∧
    ∀ copy, patch_expert_ptr_table (H := H) p' copy layer top_indices ≠ Panic.
Proof.
  intros Hwf Hnd Hreg Hfit Hmax Hfetch.
  destruct (ensure_all_hot (expert_ids layer top_indices) p (lru p) [] freed Hwf ltac:(by rewrite app_nil_r) (NoDup_expert_ids _ _ Hnd) ltac:(intros; apply not_elem_of_nil) Hreg ltac:(cbn; lia) Hmax Hfetch)
    as (p' & freed' & cold & Hens & Hwf' & Hq & Hub). exists p', freed'.
  assert (∀ id, id ∈ expert_ids layer top_indices → is_Some (resident p' !! id)) as Hres.
  { intros id Hid. apply (rw_queue _ _ _ (proj1 Hwf')). rewrite Hq. apply elem_of_app. by right. }
  split_and!; [done|done|done| | |].
  - intros id Hid. unfold is_resident. apply bool_decide_eq_true_2. by apply Hres.
  - unfold patch_expert_ptr_table. assert (∀ idxs, (∀ idx, idx ∈ idxs → idx ∈ top_indices) → try_map (patch_one p' (λ _ _, None) layer) idxs = Ok (E := H) ((λ idx,
      [(GateUpPtrs, idx * 8, le_bytes 8 (default 0 (get p' (Expert layer idx GateUp))));
       (DownPtrs, idx * 8, le_bytes 8 (default 0 (get p' (Expert layer idx Down))))]) <$> idxs)%Z) as ->; [|auto|done].
    intros idxs Hsub. apply try_map_Ok. induction idxs as [|idx idxs IH]; [constructor|]. constructor; [|apply IH; intros; apply Hsub; by right].
    destruct (Hres (Expert layer idx GateUp)) as [g Hg]; [apply elem_of_expert_ids; exists idx; split; [apply Hsub; left|by left]|].
    destruct (Hres (Expert layer idx Down)) as [d Hd]; [apply elem_of_expert_ids; exists idx; split; [apply Hsub; left|by right]|].
    unfold patch_one, get. rewrite Hg, Hd. done.
  - intros copy. unfold patch_expert_ptr_table. intros Hp. apply bind_Panic in Hp as [Hp|(? & _ & ?)]; [|done]. revert Hp.
    assert (∀ idxs, (∀ idx, idx ∈ idxs → idx ∈ top_indices) → try_map (patch_one p' copy layer) idxs ≠ Panic) as Hno; [|by apply Hno].
    intros idxs Hsub. induction idxs as [|idx idxs IH]; [done|]. cbn [try_map]. intros Hp.
    destruct (Hres (Expert layer idx GateUp)) as [g Hg]; [apply elem_of_expert_ids; exists idx; split; [apply Hsub; left|by left]|].
    destruct (Hres (Expert layer idx Down)) as [d Hd]; [apply elem_of_expert_ids; exists idx; split; [apply Hsub; left|by right]|].
    specialize (IH ltac:(intros; apply Hsub; by right)).
    assert (patch_one p' copy layer idx ≠ Panic) as Hone.
    { unfold patch_one. rewrite Hg, Hd. cbn. by destruct (copy GateUpPtrs (idx * 8)%Z), (copy DownPtrs (idx * 8)%Z). }
    apply bind_Panic in Hp as [Hp|(ys & _ & Hp)]; [done|]. by apply bind_Panic in Hp as [Hp|(? & _ & Hp)].
Qed.

(** A transport that hands out successive addresses. *)
Module Bump.
#[global] Instance bump_transport : Transport unit Z := {| fetch next _ _ := (Ok next, (next + 1)%Z) |}.
Definition pager : WeightPager Z :=
  register (register (insert_resident (WeightPager_new 1000%Z (mkPagerConfig 100 false)) Embed 7 60)
    (Expert 0 3 GateUp) (mkByteRange 0 50)) (Expert 0 3 Down) (mkByteRange 50 40).
End Bump.

Lemma bump_wf : pager_wf Bump.pager.
Proof.
  unfold pager_wf. change (resident Bump.pager) with ({[Embed := mkResident 7 60]} : gmap WeightId Resident). change (lru Bump.pager) with [Embed].
  split; [|split; [done|]].
  - split.
    + apply NoDup_singleton.
    + intros id. rewrite list_elem_of_singleton, lookup_singleton_is_Some. done.
    + intros id x [_ <-]%lookup_singleton_Some. done.
    + done.
  - intros id range Hr. cbn in Hr. apply lookup_insert_Some in Hr as [[_ <-]|[_ Hr]]; [done|]. apply lookup_insert_Some in Hr as [[_ <-]|[_ Hr]]; [done|by rewrite lookup_empty in Hr].
Qed.

Lemma working_set_resident_witness : ∃ p' freed', ensure_all Bump.pager (expert_ids 0 [3%Z]) [] = (Ok tt, p', freed') ∧
  is_resident p' (Expert 0 3 GateUp) = true ∧ is_resident p' (Expert 0 3 Down) = true.
Proof.
  destruct (working_set_resident Bump.pager 0 [3%Z] [] bump_wf (NoDup_singleton _)) as (p' & freed' & He & _ & _ & Hr & _).
  - intros id Hid. apply elem_of_expert_ids in Hid as (idx & ->%list_elem_of_singleton & [->| ->]); eexists; (split; [reflexivity|]); by intros x Hx.
  - done.
  - done.
  - intros tr off len. by eexists _, _.
  - exists p', freed'. split; [exact He|]. split; apply Hr, elem_of_expert_ids; exists 3%Z; (split; [left|by auto]).
Defined.

(** Always-resident weights are evicted like any other. A weight entered with
    [insert_resident], as the loader does for embeddings and norms, is evicted and its
    tensor freed when a paged weight needs the room, after which requesting it again
    fails because such weights are not registered. *)
Example always_resident_evicted :
  ∃ p' freed, ensure_resident Bump.pager (Expert 0 3 GateUp) [] = (Ok tt, p', freed) ∧
    is_resident Bump.pager Embed = true ∧ is_resident p' Embed = false ∧ freed = [7%Z] ∧
    (ensure_resident p' Embed freed).1.1 = Err (NotRegistered Embed).
Proof. eexists _, _. split; [vm_compute; reflexivity|]. split_and!; vm_compute; reflexivity. Qed.
