(* ===== verification/DdTree.v ===== *)
(** Draft trees (src/crates/hipfire-runtime/src/ddtree.rs): construction.

    A speculative step may verify a tree of drafts instead of a chain. The tree is grown
    best first from the most likely tokens of each draft position: popping the heap adds a
    node, and pushes its next sibling and its first child. A node stores the index of its
    parent, the table of visible ancestors is filled row by row, and the child maps lead
    from a node and a token to a child.

    Proved here: construction succeeds and ends, has exactly the promised number of nodes,
    every parent precedes its children, and the child maps are exact. *)

From S2P Require Import Prelude F32.

Record DdNode := mkDdNode { token : Z; node_depth : Z; parent_index : Z; logw : f32 }.
Record DdTree := mkDdTree { nodes : list DdNode; visibility : list (list bool); child_maps : list (gmap Z nat) }.

(** [HeapEntry] *)
Record HeapEntry := mkHeapEntry { neg_logw : f32; push_order : nat; entry_depth : nat; rank : nat; entry_parent : Z; entry_logw : f32 }.

(** [HeapEntry::cmp]: the smaller negated weight is the greater entry, then the earlier. *)
Definition entry_cmp (a b : HeapEntry) : comparison :=
  match default Eq (partial_cmp (neg_logw b) (neg_logw a)) with
  | Eq => Nat.compare (push_order b) (push_order a)
  | ord => ord
  end.

(** The slot of a parent: 0 is the root, [i + 1] is [nodes[i]]. *)
Definition parent_slot (parent : Z) : nat := if (parent <? 0)%Z then 0 else S (Z.to_nat parent).

(** The variables of the construction loop. *)
Record Build := mkBuild { heap : list HeapEntry; push_counter : nat; built : list DdNode; maps : list (gmap Z nat) }.

Definition push_entry (b : Build) (d rank_ : nat) (parent : Z) (w : f32) : Build :=
  mkBuild (mkHeapEntry (f32_neg w) (push_counter b) d rank_ parent w :: heap b) (S (push_counter b)) (built b) (maps b).

Section Build.
Context {E : Type} (top_tokens : list Z) (top_log_probs : list f32) (depth topk : nat).

(** Adding the node of an entry. *)
Definition add_node (e : HeapEntry) (b : Build) : result E Build :=
  token ← index top_tokens ((entry_depth e - 1) * topk + rank e);
  let current_index := length (built b) in
  let maps' := maps b ++ [∅] in
  m ← index maps' (parent_slot (entry_parent e));
  maps'' ← store maps' (parent_slot (entry_parent e)) (<[token := current_index]> m);
  Ok (mkBuild (heap b) (push_counter b)
    (built b ++ [mkDdNode token (wrap32 (Z.of_nat (entry_depth e))) (entry_parent e) (entry_logw e)]) maps'').

(** Its next sibling, if the table has one. *)
Definition push_sibling (e : HeapEntry) (b : Build) : result E Build :=
  if bool_decide (rank e + 1 < topk) then
    mine ← index top_log_probs ((entry_depth e - 1) * topk + rank e);
    next ← index top_log_probs ((entry_depth e - 1) * topk + (rank e + 1));
    Ok (push_entry b (entry_depth e) (rank e + 1) (entry_parent e) (f32_add (f32_sub (entry_logw e) mine) next))
  else Ok b.

(** Its first child, if there is a deeper draft position. *)
Definition push_child (e : HeapEntry) (current_index : nat) (b : Build) : result E Build :=
  if bool_decide (entry_depth e < depth) then
    first ← index top_log_probs (entry_depth e * topk);
    Ok (push_entry b (entry_depth e + 1) 0 (as_i32 (Z.of_nat current_index)) (f32_add (entry_logw e) first))
  else Ok b.

Definition expand (e : HeapEntry) (b : Build) : result E Build :=
  let current_index := length (built b) in
  b ← add_node e b;
  b ← push_sibling e b;
  push_child e current_index b.

(** The [while let] loop. Every round adds a node or leaves the loop, so [max_nodes + 1]
    rounds are enough; running out of them is a panic. *)
Fixpoint build_loop (fuel : nat) (min_nodes max_nodes : nat) (logw_cutoff : f32) (b : Build) : result E Build :=
  match fuel with
  | 0 => Panic
  | S fuel =>
      match heap_pop entry_cmp (heap b) with
      | None => Ok b
      | Some (e, rest) =>
          let b := mkBuild rest (push_counter b) (built b) (maps b) in
          if bool_decide (max_nodes ≤ length (built b)) then Ok b else
          if bool_decide (min_nodes ≤ length (built b)) && f32_lt (entry_logw e) logw_cutoff then Ok b else
          b ← expand e b;
          build_loop fuel min_nodes max_nodes logw_cutoff b
      end
  end.

(** One row of the visibility table: the parent's row up to here, and itself. *)
Definition visibility_row (ns : list DdNode) (vis : list (list bool)) (i : nat) : result E (list (list bool)) :=
  node ← index ns (i - 1);
  above ← index vis (parent_slot (parent_index node));
  own ← index vis i;
  store vis i (imap (λ j v, if bool_decide (j < i) then default false (above !! j) else if bool_decide (j = i) then true else v) own).

Definition visibility_table (ns : list DdNode) : result E (list (list bool)) :=
  let len := 1 + length ns in
  let blank := replicate len false in
  try_fold (visibility_row ns) (<[0 := <[0 := true]> blank]> (replicate len blank)) (seq 1 (length ns)).

(** [build_ddtree_tree_bounded] *)
Definition build_ddtree_tree_bounded (min_nodes max_nodes : nat) (logw_cutoff : f32) : result E DdTree :=
  if bool_decide (max_nodes = 0) || bool_decide (depth = 0) then Ok (mkDdTree [] [[true]] [∅]) else
  assert (bool_decide (length top_tokens = depth * topk)) ;;
  assert (bool_decide (length top_log_probs = depth * topk)) ;;
  first_logw ← index top_log_probs 0;
  b ← build_loop (S max_nodes) min_nodes max_nodes logw_cutoff (push_entry (mkBuild [] 0 [] [∅]) 1 0 (-1) first_logw);
  vis ← visibility_table (built b);
  Ok (mkDdTree (built b) vis (maps b)).

(** [build_ddtree_tree_with_cutoff], [build_ddtree_tree] *)
Definition build_ddtree_tree_with_cutoff (budget : nat) (logw_cutoff : f32) : result E DdTree :=
  build_ddtree_tree_bounded 0 budget logw_cutoff.
Definition build_ddtree_tree (budget : nat) : result E DdTree := build_ddtree_tree_with_cutoff budget NEG_INFINITY.
End Build.

(** [DdTree::ancestors_of]: the walk to the root, which takes at most one step a node. *)
Fixpoint ancestors_loop {E} (ns : list DdNode) (fuel : nat) (cur : Z) (chain : list nat) : result E (list nat) :=
  if (cur <? 0)%Z then Ok chain else
  match fuel with
  | 0 => Panic
  | S fuel =>
      node ← index ns (Z.to_nat cur);
      ancestors_loop ns fuel (parent_index node) (chain ++ [Z.to_nat cur])
  end.
Definition ancestors_of {E} (t : DdTree) (node_index : nat) : result E (list nat) :=
  chain ← ancestors_loop (nodes t) (length (nodes t)) (as_i32 (Z.of_nat node_index)) [];
  Ok (reverse chain).

(** ** The construction is correct *)

Definition slot_depth (ns : list DdNode) (s : nat) : option Z := match s with 0 => Some 0%Z | S i => node_depth <$> ns !! i end.

(** Nodes below a slot of depth [depth - h], counted with the slot: a full tree of width
    [topk] and height [h]. The tokens the table reaches are those below the root. *)
Fixpoint full_tree (topk h : nat) : nat := match h with 0 => 1 | S h => S (topk * full_tree topk h) end.
Definition reachable (depth topk : nat) : nat := full_tree topk depth - 1.

Lemma full_tree_pos k h : 1 ≤ full_tree k h.
Proof. destruct h; cbn; lia. Qed.

(** A node's parent comes before it, one level up. *)
Definition nodes_wf (ns : list DdNode) : Prop := ∀ i n, ns !! i = Some n →
  (-1 ≤ parent_index n < Z.of_nat i)%Z ∧ slot_depth ns (parent_slot (parent_index n)) = Some (node_depth n - 1)%Z.

(** A child map leads to the children of its slot. *)
Definition maps_sound (ns : list DdNode) (ms : list (gmap Z nat)) : Prop := ∀ s m t c, ms !! s = Some m → m !! t = Some c →
  ∃ n, ns !! c = Some n ∧ token n = t ∧ parent_slot (parent_index n) = s.
Definition maps_complete (ns : list DdNode) (ms : list (gmap Z nat)) : Prop := ∀ c n, ns !! c = Some n →
  ∃ m, ms !! parent_slot (parent_index n) = Some m ∧ m !! token n = Some c.

Lemma parent_slot_inj p q : (-1 ≤ p)%Z → (-1 ≤ q)%Z → parent_slot p = parent_slot q → p = q.
Proof. unfold parent_slot. intros. destruct (Z.ltb_spec p 0), (Z.ltb_spec q 0); lia. Qed.

Lemma parent_slot_le p (i : nat) : (-1 ≤ p < Z.of_nat i)%Z → parent_slot p ≤ i.
Proof. unfold parent_slot. intros. destruct (Z.ltb_spec p 0); lia. Qed.

Lemma slot_depth_app ns k s d : slot_depth ns s = Some d → slot_depth (ns ++ k) s = Some d.
Proof. destruct s as [|i]; cbn; [done|]. intros H. apply fmap_Some in H as (n & Hn & ->). by rewrite (lookup_app_l_Some _ _ _ _ Hn). Qed.

Lemma table_index {A depth topk} (l : list A) d r : length l = depth * topk → 1 ≤ d ≤ depth → r < topk → ∃ x, l !! ((d - 1) * topk + r) = Some x.
Proof. intros Hl Hd Hr. apply lookup_lt_is_Some. rewrite Hl. nia. Qed.

Section Sound.
Context {E : Type} (top_tokens : list Z) (top_log_probs : list f32) (depth topk : nat).
Hypothesis Htokens : length top_tokens = depth * topk.
Hypothesis Hprobs : length top_log_probs = depth * topk.
Hypothesis Hdepth : (Z.of_nat depth ≤ U32_MAX)%Z.

(** The tokens of one draft position are distinct. *)
Definition rows_distinct : Prop := ∀ d r r', 1 ≤ d ≤ depth → r < topk → r' < topk →
  top_tokens !! ((d - 1) * topk + r) = top_tokens !! ((d - 1) * topk + r') → r = r'.

(** A heap entry proposes the next child of its parent. *)
Record entry_ok (ns : list DdNode) (ranks : list nat) (e : HeapEntry) : Prop := {
  eo_rank : rank e < topk;
  eo_depth : 1 ≤ entry_depth e ≤ depth;
  eo_parent : (-1 ≤ entry_parent e < Z.of_nat (length ns))%Z;
  eo_level : slot_depth ns (parent_slot (entry_parent e)) = Some (Z.of_nat (entry_depth e) - 1)%Z;
  eo_next : ∀ i n r, ns !! i = Some n → ranks !! i = Some r → parent_index n = entry_parent e → r < rank e }.

Record build_inv (b : Build) (ranks : list nat) : Prop := {
  bi_ranks : length ranks = length (built b);
  bi_maps : length (maps b) = S (length (built b));
  bi_nodes : nodes_wf (built b);
  bi_table : ∀ i n, built b !! i = Some n → ∃ d r, ranks !! i = Some r ∧ r < topk ∧ 1 ≤ d ≤ depth ∧ node_depth n = Z.of_nat d ∧
    top_tokens !! ((d - 1) * topk + r) = Some (token n);
  bi_heap : Forall (entry_ok (built b) ranks) (heap b);
  bi_parents : NoDup (entry_parent <$> heap b);
  bi_sound : maps_sound (built b) (maps b);
  bi_complete : rows_distinct → maps_complete (built b) (maps b) }.

Lemma heap_push_inv b ranks d r p w : build_inv b ranks → entry_ok (built b) ranks (mkHeapEntry (f32_neg w) (push_counter b) d r p w) →
  p ∉ entry_parent <$> heap b → build_inv (push_entry b d r p w) ranks.
Proof. intros [] He Hp. split; cbn; try done; [by constructor|by apply NoDup_cons]. Qed.

(** Adding the node of a popped entry. *)
Lemma add_node_inv e b ranks : build_inv b ranks → entry_ok (built b) ranks e → entry_parent e ∉ entry_parent <$> heap b →
  ∃ b' n, add_node (E := E) top_tokens topk e b = Ok b' ∧ build_inv b' (ranks ++ [rank e]) ∧ heap b' = heap b ∧ built b' = built b ++ [n] ∧
    node_depth n = Z.of_nat (entry_depth e) ∧ parent_index n = entry_parent e.
Proof.
  intros [Hr Hm Hn Ht Hh Hp Hs Hc] [Er Ed Ep El En] Hnot. unfold add_node.
  destruct (table_index top_tokens _ _ Htokens Ed Er) as [tok Htok]. unfold index. rewrite Htok. cbn [mbind result_bind].
  pose proof (parent_slot_le _ _ Ep) as Hslot. set (sl := parent_slot (entry_parent e)) in *. set (cur := length (built b)) in *.
  destruct (lookup_lt_is_Some_2 (maps b) sl ltac:(lia)) as [m Hsl]. rewrite (lookup_app_l_Some _ _ _ _ Hsl). cbn [mbind result_bind].
  unfold store. rewrite bool_decide_eq_true_2 by (rewrite length_app; lia). cbn [mbind result_bind].
  assert (wrap32 (Z.of_nat (entry_depth e)) = Z.of_nat (entry_depth e)) as -> by (unfold wrap32, U32_MAX in *; apply Z.mod_small; lia).
  set (n := mkDdNode tok (Z.of_nat (entry_depth e)) (entry_parent e) (entry_logw e)). eexists _, n. split; [done|]. split; [|done].
  assert (∀ i n', (built b ++ [n]) !! i = Some n' → built b !! i = Some n' ∨ (i = cur ∧ n' = n)) as Hlook.
  { intros i n' Hi. apply lookup_app_Some in Hi as [?|[Hge Hi]]; [by left|]. right. apply list_lookup_singleton_Some in Hi as [? <-]. split; [unfold cur; lia|done]. }
  split; cbn [built maps heap].
  - rewrite !length_app, Hr. done.
  - rewrite length_insert, !length_app, Hm. cbn. lia.
  - intros i n' [Hi|[-> ->]]%Hlook; [destruct (Hn i n' Hi) as [? Hd]; split; [done|by apply slot_depth_app]|]. cbn. split; [done|]. by apply slot_depth_app.
  - intros i n' [Hi|[-> ->]]%Hlook; [destruct (Ht i n' Hi) as (d & r & Hri & Hrest); exists d, r; split; [by rewrite (lookup_app_l_Some _ _ _ _ Hri)|done]|].
    exists (entry_depth e), (rank e). split; [by apply list_lookup_middle; rewrite Hr|]. done.
  - rewrite Forall_forall in Hh |- *. intros e' He'. destruct (Hh e' He') as [Ar Ad Ap Al An]. split; try done; [rewrite length_app; lia|by apply slot_depth_app|].
    intros i n' r [Hi|[-> ->]]%Hlook Hri Hpar.
    + apply (An i n' r Hi); [|done]. rewrite lookup_app_l in Hri; [done|]. rewrite Hr. by apply lookup_lt_Some in Hi.
    + cbn in Hpar. exfalso. apply Hnot. rewrite Hpar. apply list_elem_of_fmap. by exists e'.
  - done.
  - intros s m' t c Hs' Ht'. apply list_lookup_insert_Some in Hs' as [(Heqs & <- & _)|[Hne Hs']]; [subst s|].
    + apply lookup_insert_Some in Ht' as [[<- <-]|[_ Ht']]; [exists n; split; [by apply list_lookup_middle|done]|].
      destruct (Hs _ _ _ _ Hsl Ht') as (n' & Hn' & ?). exists n'. by rewrite (lookup_app_l_Some _ _ _ _ Hn').
    + apply lookup_app_Some in Hs' as [Hs'|[_ Hs']]; [|apply list_lookup_singleton_Some in Hs' as [_ <-]; done].
      destruct (Hs _ _ _ _ Hs' Ht') as (n' & Hn' & ?). exists n'. by rewrite (lookup_app_l_Some _ _ _ _ Hn').
  - intros Hdis c n' [Hi|[-> ->]]%Hlook; cbn [parent_index token n]; fold sl.
    + destruct (Hc Hdis c n' Hi) as (m' & Hm' & Htk). destruct (decide (parent_slot (parent_index n') = sl)) as [Heq|Hne].
      * exists (<[tok := cur]> m). rewrite Heq, list_lookup_insert_eq by (rewrite length_app; lia). split; [done|]. rewrite Heq, Hsl in Hm'. simplify_eq.
        rewrite lookup_insert_ne; [done|]. intros Htkeq. destruct (Ht c n' Hi) as (d & r & Hri & Hrk & Hd & Hdep & Htab), (Hn c n' Hi) as [Hpar Hlev].
        rewrite Heq, El in Hlev. assert (parent_index n' = entry_parent e) as Hpe by (apply parent_slot_inj; [lia|lia|done]).
        assert (d = entry_depth e) as -> by (simplify_eq; lia). pose proof (En c n' r Hi Hri Hpe). assert (r = rank e); [|lia]. apply (Hdis (entry_depth e)); try done. congruence.
      * exists m'. rewrite list_lookup_insert_ne by done. by rewrite (lookup_app_l_Some _ _ _ _ Hm').
    + exists (<[tok := cur]> m). rewrite list_lookup_insert_eq by (rewrite length_app; lia). by rewrite lookup_insert_eq.
Qed.

(** The nodes an entry still stands for: itself, its later siblings and all below. *)
Definition weight (e : HeapEntry) : nat := (topk - rank e) * full_tree topk (depth - entry_depth e).
Definition pending (h : list HeapEntry) : nat := sum_list_with weight h.

Lemma pending_Permutation h k : h ≡ₚ k → pending h = pending k.
Proof. unfold pending. induction 1; cbn in *; lia. Qed.

Lemma sibling_inv e b ranks (Hinv : build_inv b ranks) (He : entry_ok (built b) ranks (mkHeapEntry (neg_logw e) (push_order e) (entry_depth e) (S (rank e)) (entry_parent e) (entry_logw e)) ∨ S (rank e) = topk) :
  1 ≤ entry_depth e ≤ depth → rank e < topk → entry_parent e ∉ entry_parent <$> heap b →
  ∃ b', push_sibling (E := E) top_log_probs topk e b = Ok b' ∧ build_inv b' ranks ∧ built b' = built b ∧
    pending (heap b') = pending (heap b) + (topk - S (rank e)) * full_tree topk (depth - entry_depth e) ∧
    (∀ p, p ∈ entry_parent <$> heap b' → p ∈ entry_parent <$> heap b ∨ p = entry_parent e).
Proof.
  intros Hd Hr Hnot. unfold push_sibling. replace (rank e + 1) with (S (rank e)) by lia. case_bool_decide as Hlt.
  - destruct (table_index top_log_probs _ _ Hprobs Hd Hr) as [mine Hmine], (table_index top_log_probs _ _ Hprobs Hd Hlt) as [next Hnext]. unfold index. rewrite Hmine, Hnext.
    cbn [mbind result_bind]. eexists. split; [done|]. destruct He as [[]|]; [|lia]. split; [apply heap_push_inv; [done|by split|done]|]. split_and!; [done| |].
    + unfold push_entry, pending. cbn. unfold weight at 1. cbn. lia.
    + intros p. cbn. rewrite elem_of_cons. tauto.
  - exists b. replace (topk - S (rank e)) with 0 by lia. split_and!; auto; cbn; lia.
Qed.

Lemma child_inv e b ranks n cur (Hinv : build_inv b ranks) : built b !! cur = Some n → S cur = length (built b) → node_depth n = Z.of_nat (entry_depth e) →
  1 ≤ entry_depth e ≤ depth → 0 < topk → (Z.of_nat cur < 2147483648)%Z → (∀ p, p ∈ entry_parent <$> heap b → p < Z.of_nat cur)%Z →
  ∃ b', push_child (E := E) top_log_probs depth topk e cur b = Ok b' ∧ build_inv b' ranks ∧ built b' = built b ∧
    S (pending (heap b')) = pending (heap b) + full_tree topk (depth - entry_depth e).
Proof.
  intros Hn Hcur Hdn Hd Hk Hmax Hlow. unfold push_child. case_bool_decide as Hlt.
  - destruct (table_index top_log_probs (S (entry_depth e)) 0 Hprobs ltac:(lia) Hk) as [first Hfirst]. replace ((S (entry_depth e) - 1) * topk + 0) with (entry_depth e * topk) in Hfirst by (cbn; lia).
    unfold index. rewrite Hfirst. cbn [mbind result_bind]. eexists. split; [done|]. rewrite as_i32_small by lia. split_and!; [apply heap_push_inv; [done| |]|done|].
    + split; cbn; try lia.
      * unfold parent_slot. destruct (Z.ltb_spec (Z.of_nat cur) 0); [lia|]. rewrite Nat2Z.id. cbn. rewrite Hn. cbn. rewrite Hdn. f_equal. lia.
      * intros i n' r Hi _ Hpar. destruct (bi_nodes _ _ Hinv i n' Hi) as [Hp _]. apply lookup_lt_Some in Hi. lia.
    + intros Hin%Hlow. lia.
    + unfold push_entry, pending. cbn. unfold weight at 1. cbn. replace (depth - entry_depth e) with (S (depth - (entry_depth e + 1))) by lia. cbn. lia.
  - exists b. replace (depth - entry_depth e) with 0 by lia. cbn. split_and!; try done. lia.
Qed.

Lemma expand_inv e b ranks : build_inv b ranks → entry_ok (built b) ranks e → entry_parent e ∉ entry_parent <$> heap b → (Z.of_nat (length (built b)) < 2147483648)%Z →
  ∃ b' ranks', expand (E := E) top_tokens top_log_probs depth topk e b = Ok b' ∧ build_inv b' ranks' ∧ length (built b') = S (length (built b)) ∧
    S (pending (heap b')) = pending (heap b) + weight e.
Proof.
  intros Hinv He Hnot Hmax. unfold expand. destruct (add_node_inv e b ranks Hinv He Hnot) as (b1 & n & -> & Hinv1 & Hh1 & Hb1 & Hnd & Hnp). cbn [mbind result_bind].
  destruct He as [Er Ed Ep El En].
  destruct (sibling_inv e b1 (ranks ++ [rank e]) Hinv1) as (b2 & -> & Hinv2 & Hb2 & Hw2 & Hin2); [|done|done|by rewrite Hh1|].
  { destruct (decide (S (rank e) = topk)); [by right|]. left. rewrite Hb1. split; cbn; try done; [lia|rewrite length_app; lia|by apply slot_depth_app|].
    intros i n' r Hi Hri Hpar. apply lookup_app_Some in Hi as [Hi|[Hge Hi]].
    - assert (r < rank e); [|lia]. apply (En i n' r Hi); [|done]. rewrite lookup_app_l in Hri; [done|]. rewrite (bi_ranks _ _ Hinv). by apply lookup_lt_Some in Hi.
    - rewrite lookup_app_r in Hri by (rewrite (bi_ranks _ _ Hinv); done). apply list_lookup_singleton_Some in Hri as [_ <-]. lia. }
  cbn [mbind result_bind]. destruct (child_inv e b2 (ranks ++ [rank e]) n (length (built b)) Hinv2) as (b3 & -> & Hinv3 & Hb3 & Hw3); rewrite ?Hb2, ?Hb1, ?length_app; cbn; try done; try lia.
  - by apply list_lookup_middle.
  - intros p [Hp| ->]%Hin2; [|lia]. rewrite Hh1 in Hp. apply list_elem_of_fmap in Hp as (e' & -> & He'). pose proof (bi_heap _ _ Hinv) as Hh. rewrite Forall_forall in Hh. destruct (Hh e' He'). lia.
  - exists b3, (ranks ++ [rank e]). split_and!; try done; [rewrite Hb3, Hb2, Hb1, length_app; cbn; lia|]. rewrite Hw3, Hw2, Hh1. unfold weight. replace (topk - rank e) with (S (topk - S (rank e))) by lia. cbn. lia.
Qed.

(** What a popped entry leaves behind. *)
Lemma pop_inv b ranks e rest : build_inv b ranks → heap_pop entry_cmp (heap b) = Some (e, rest) →
  build_inv (mkBuild rest (push_counter b) (built b) (maps b)) ranks ∧ entry_ok (built b) ranks e ∧ entry_parent e ∉ entry_parent <$> rest ∧
  pending (heap b) = weight e + pending rest.
Proof.
  intros [] Hpop%heap_pop_Permutation. rewrite Hpop in bi_heap0, bi_parents0. apply Forall_cons in bi_heap0 as [He Hrest]. cbn in bi_parents0. apply NoDup_cons in bi_parents0 as [Hnot Hnd].
  split; [by split|]. split; [done|]. split; [done|]. by rewrite (pending_Permutation _ _ Hpop).
Qed.

(** The loop ends with a well-formed tree of the promised size. *)
Lemma build_loop_inv min_nodes max_nodes cutoff fuel : ∀ b ranks, build_inv b ranks → (Z.of_nat max_nodes ≤ 2147483648)%Z →
  length (built b) ≤ max_nodes → max_nodes < fuel + length (built b) →
  ∃ b' ranks', build_loop (E := E) top_tokens top_log_probs depth topk fuel min_nodes max_nodes cutoff b = Ok b' ∧ build_inv b' ranks' ∧
    length (built b') ≤ max_nodes ∧ Nat.min (Nat.min min_nodes max_nodes) (length (built b) + pending (heap b)) ≤ length (built b') ∧
    length (built b') ≤ length (built b) + pending (heap b) ∧
    (cutoff = NEG_INFINITY → length (built b') = Nat.min max_nodes (length (built b) + pending (heap b))).
Proof.
  induction fuel as [|fuel IH]; intros b ranks Hinv Hmax Hlen Hfuel; cbn [build_loop]; [lia|].
  destruct (heap_pop entry_cmp (heap b)) as [[e rest]|] eqn:Hpop.
  - destruct (pop_inv b ranks e rest Hinv Hpop) as (Hinv' & He & Hnot & Hw). cbn [built]. case_bool_decide as Hfull.
    { eexists _, ranks. split; [done|]. cbn [built]. split_and!; try done; lia. }
    destruct (bool_decide (min_nodes ≤ length (built b)) && f32_lt (entry_logw e) cutoff) eqn:Hcut.
    { apply andb_true_iff in Hcut as [Hmin%bool_decide_eq_true Hlt]. eexists _, ranks. split; [done|]. cbn [built]. split_and!; try done; try lia.
      intros ->. by rewrite f32_lt_neg_infinity in Hlt. }
    destruct (expand_inv e _ ranks Hinv' He Hnot) as (b1 & ranks1 & -> & Hinv1 & Hl1 & Hw1); [cbn [built]; lia|]. cbn [mbind result_bind built heap] in *.
    destruct (IH b1 ranks1 Hinv1 Hmax ltac:(lia) ltac:(lia)) as (b2 & ranks2 & -> & Hinv2 & H1 & H2 & H3 & H4). exists b2, ranks2.
    replace (length (built b1) + pending (heap b1)) with (length (built b) + pending (heap b)) in * by lia. split_and!; done.
  - apply heap_pop_None in Hpop. exists b, ranks. rewrite Hpop. cbn. split_and!; try done; try lia.
Qed.
End Sound.

(** ** Ancestors and visibility *)

(** The slots from the root to a slot. *)
Inductive slot_chain (ns : list DdNode) : nat → list nat → Prop :=
| chain_root : slot_chain ns 0 [0]
| chain_node i n l : ns !! i = Some n → slot_chain ns (parent_slot (parent_index n)) l → slot_chain ns (S i) (l ++ [S i]).

Lemma chain_exists ns s : nodes_wf ns → s ≤ length ns → ∃ l, slot_chain ns s l.
Proof.
  intros Hwf. induction (lt_wf s) as [s _ IH]. intros Hs. destruct s as [|i]; [exists [0]; constructor|].
  destruct (lookup_lt_is_Some_2 ns i ltac:(lia)) as [n Hn]. destruct (Hwf i n Hn) as [Hp _]. pose proof (parent_slot_le _ _ Hp).
  destruct (IH (parent_slot (parent_index n))) as [l Hl]; [lia|lia|]. exists (l ++ [S i]). by econstructor.
Qed.

Lemma chain_unique ns s l : slot_chain ns s l → ∀ l', slot_chain ns s l' → l = l'.
Proof. induction 1 as [|i n l Hn Hl IH]; intros l' Hl'; inversion Hl'; simplify_eq; [done|]. f_equal. by apply IH. Qed.

Lemma chain_bound ns s l : nodes_wf ns → slot_chain ns s l → ∀ j, j ∈ l → j ≤ s.
Proof.
  intros Hwf. induction 1 as [|i n l Hn Hl IH]; intros j; [rewrite list_elem_of_singleton; lia|]. rewrite elem_of_app, list_elem_of_singleton.
  intros [Hj| ->]; [|done]. destruct (Hwf i n Hn) as [Hp _]. pose proof (parent_slot_le _ _ Hp). apply IH in Hj. lia.
Qed.

Lemma chain_in_range ns s c : slot_chain ns s c → ∀ j, j ∈ c → j ≤ length ns.
Proof.
  induction 1 as [|i n l Hn Hl IH]; intros j; [rewrite list_elem_of_singleton; lia|]. rewrite elem_of_app, list_elem_of_singleton. intros [Hj| ->]; [by apply IH|]. apply lookup_lt_Some in Hn. lia.
Qed.

Lemma chain_last ns s c : slot_chain ns s c → last c = Some s.
Proof. destruct 1; [done|]. apply last_snoc. Qed.

(** A path is cut to a path. *)
Lemma chain_take ns s c k : slot_chain ns s c → 1 ≤ k ≤ length c → ∃ s', slot_chain ns s' (take k c) ∧ last (take k c) = Some s'.
Proof.
  intros Hc Hk. cut (∃ s', slot_chain ns s' (take k c)); [intros [s' Hs']; exists s'; split; [done|by eapply chain_last]|].
  revert k Hk. induction Hc as [|i n l Hn Hl IH]; intros k Hk; [cbn in Hk; assert (k = 1) as -> by lia; exists 0; constructor|].
  rewrite length_app in Hk. cbn in Hk. destruct (decide (k ≤ length l)); [rewrite take_app_le by done; apply IH; lia|].
  exists (S i). rewrite take_ge by (rewrite length_app; cbn; lia). by econstructor.
Qed.

(** A row that marks the members of a list. *)
Definition marks (len : nat) (l : list nat) (row : list bool) : Prop := length row = len ∧ ∀ j, j < len → row !! j = Some (bool_decide (j ∈ l)).

Definition vis_inv (ns : list DdNode) (len : nat) (done_ : list nat) (vis : list (list bool)) : Prop :=
  length vis = len ∧ (∀ s row, vis !! s = Some row → length row = len) ∧
  (∀ s l, s ≤ length done_ → slot_chain ns s l → ∃ row, vis !! s = Some row ∧ marks len l row) ∧
  ∀ s row j, length done_ < s → vis !! s = Some row → row !! j = Some true → False.

Lemma visibility_row_inv {E} ns i vis : nodes_wf ns → i < length ns → vis_inv ns (S (length ns)) (seq 1 i) vis →
  ∃ vis', visibility_row (E := E) ns vis (S i) = Ok vis' ∧ vis_inv ns (S (length ns)) (seq 1 (S i)) vis'.
Proof.
  intros Hwf Hi (Hlen & Hrows & Hok & Hblank). rewrite length_seq in *. unfold visibility_row, index. rewrite Nat.sub_succ, Nat.sub_0_r.
  destruct (lookup_lt_is_Some_2 ns i Hi) as [n Hn]. rewrite Hn. cbn [mbind result_bind]. destruct (Hwf i n Hn) as [Hp _]. pose proof (parent_slot_le _ _ Hp) as Hps.
  destruct (chain_exists ns (parent_slot (parent_index n)) Hwf ltac:(lia)) as [l Hl]. destruct (Hok (parent_slot (parent_index n)) l ltac:(lia) Hl) as (above & Ha & Hal & Ham). rewrite Ha. cbn [mbind result_bind].
  destruct (lookup_lt_is_Some_2 vis (S i) ltac:(lia)) as [own Hown]. rewrite Hown. cbn [mbind result_bind]. unfold store. rewrite bool_decide_eq_true_2 by lia.
  pose proof (Hrows _ _ Hown) as Hol. set (row := imap _ own). assert (marks (S (length ns)) (l ++ [S i]) row) as Hmark.
  { split; [unfold row; by rewrite length_imap|]. intros j Hj. unfold row. rewrite list_lookup_imap. destruct (lookup_lt_is_Some_2 own j ltac:(lia)) as [v Hv]. rewrite Hv. cbn. f_equal.
    case_bool_decide as Hji.
    - rewrite (Ham j Hj). cbn. apply bool_decide_ext. rewrite elem_of_app, list_elem_of_singleton. split; [by left|]. intros [?| ->]; [done|lia].
    - case_bool_decide as Hje; [subst; symmetry; apply bool_decide_eq_true_2, elem_of_app; right; by apply list_elem_of_singleton|].
      destruct v; [by destruct (Hblank (S i) own j ltac:(lia) Hown Hv)|]. symmetry. apply bool_decide_eq_false_2. rewrite elem_of_app, list_elem_of_singleton. intros [Hin| ->]; [|done].
      pose proof (chain_bound _ _ _ Hwf Hl _ Hin). lia. }
  eexists. split; [done|]. split; [by rewrite length_insert|]. rewrite length_seq. split_and!.
  - intros s r Hs. apply list_lookup_insert_Some in Hs as [(_ & <- & _)|[_ Hs]]; [apply Hmark|by eapply Hrows].
  - intros s l' Hs Hl'. destruct (decide (s = S i)) as [->|Hne].
    + exists row. rewrite list_lookup_insert_eq by lia. split; [done|]. inversion Hl' as [|? n' l'' Hn' Hl'' ]; simplify_eq. by rewrite (chain_unique _ _ _ Hl'' _ Hl).
    + rewrite list_lookup_insert_ne by done. apply Hok; [lia|done].
  - intros s r j Hs Hr. rewrite list_lookup_insert_ne in Hr by lia. apply (Hblank s r j); [lia|done].
Qed.

Lemma visibility_table_exact {E} ns : nodes_wf ns → ∃ vis, visibility_table (E := E) ns = Ok vis ∧ length vis = S (length ns) ∧
  ∀ s l, slot_chain ns s l → s ≤ length ns → ∃ row, vis !! s = Some row ∧ marks (S (length ns)) l row.
Proof.
  intros Hwf. assert (∀ k, k ≤ length ns → ∃ vis, try_fold (visibility_row (E := E) ns)
    (<[0 := <[0 := true]> (replicate (1 + length ns) false)]> (replicate (1 + length ns) (replicate (1 + length ns) false))) (seq 1 k) = Ok vis ∧
    vis_inv ns (S (length ns)) (seq 1 k) vis) as Hall.
  { induction k as [|k IH]; intros Hk.
    - eexists. split; [done|]. split; [by rewrite length_insert, length_replicate|]. rewrite length_seq. split_and!.
      + intros s row Hs. apply list_lookup_insert_Some in Hs as [(_ & <- & _)|[_ Hs]]; [by rewrite length_insert, length_replicate|]. apply lookup_replicate in Hs as [-> _]. by rewrite length_replicate.
      + intros s l Hs Hl. assert (s = 0) as -> by lia. inversion Hl; subst. eexists. rewrite list_lookup_insert_eq by (rewrite length_replicate; lia). split; [done|].
        split; [by rewrite length_insert, length_replicate|]. intros j Hj. destruct j as [|j]; [done|]. rewrite list_lookup_insert_ne by done. by rewrite lookup_replicate_2 by lia.
      + intros s row j Hs Hr Hj. rewrite list_lookup_insert_ne in Hr by lia. apply lookup_replicate in Hr as [-> _]. by apply lookup_replicate in Hj as [? _].
    - destruct (IH ltac:(lia)) as (vis & Hf & Hinv). rewrite seq_S, try_fold_app, Hf. cbn [mbind result_bind]. destruct (visibility_row_inv (E := E) ns k vis Hwf ltac:(lia) Hinv) as (vis' & Hv & Hinv').
      exists vis'. rewrite try_fold_cons. cbn [Nat.add]. rewrite Hv. split; [done|]. by rewrite seq_S in Hinv'. }
  destruct (Hall (length ns) ltac:(lia)) as (vis & Hv & Hl & _ & Hok & _). exists vis. split; [done|]. split; [done|]. intros s l Hc Hs. apply Hok; [by rewrite length_seq|done].
Qed.

(** A draft tree: parents come first, child maps lead to children, and each row of the
    visibility table marks the slots from the root to its own. *)
Record tree_wf (t : DdTree) : Prop := {
  tw_nodes : nodes_wf (nodes t);
  tw_maps : length (child_maps t) = S (length (nodes t));
  tw_sound : maps_sound (nodes t) (child_maps t);
  tw_rows : length (visibility t) = S (length (nodes t));
  tw_visible : ∀ s l, slot_chain (nodes t) s l → s ≤ length (nodes t) → ∃ row, visibility t !! s = Some row ∧ marks (S (length (nodes t))) l row }.

Lemma root_only_wf : tree_wf (mkDdTree [] [[true]] [∅]).
Proof.
  split; cbn; try done.
  - intros [|[|s]] m t c Hs; cbn in Hs; simplify_eq. by rewrite lookup_empty.
  - intros s l Hl Hs. assert (s = 0) as -> by lia. inversion Hl; subst. exists [true]. split; [done|]. split; [done|]. intros j Hj. by assert (j = 0) as -> by lia.
Qed.

Section Exact.
Context {E : Type} (top_tokens : list Z) (top_log_probs : list f32) (depth topk : nat).

Lemma start_inv w : 1 ≤ depth → 1 ≤ topk → build_inv top_tokens depth topk (push_entry (mkBuild [] 0 [] [∅]) 1 0 (-1) w) [].
Proof.
  intros Hd Hk. apply heap_push_inv; [|split; cbn; try done; lia|by apply not_elem_of_nil]. split; cbn; try done; [constructor|].
  intros [|s] m t c Hs; [|done]. cbn in Hs. simplify_eq. by rewrite lookup_empty.
Qed.

Lemma tree_build_exact min_nodes max_nodes cutoff : length top_tokens = depth * topk → length top_log_probs = depth * topk → (Z.of_nat depth ≤ U32_MAX)%Z →
  1 ≤ topk → (Z.of_nat max_nodes ≤ 2147483648)%Z →
  ∃ t, build_ddtree_tree_bounded (E := E) top_tokens top_log_probs depth topk min_nodes max_nodes cutoff = Ok t ∧ tree_wf t ∧
    (rows_distinct top_tokens depth topk → maps_complete (nodes t) (child_maps t)) ∧
    Nat.min min_nodes (Nat.min max_nodes (reachable depth topk)) ≤ length (nodes t) ≤ Nat.min max_nodes (reachable depth topk) ∧
    (cutoff = NEG_INFINITY → length (nodes t) = Nat.min max_nodes (reachable depth topk)) ∧
    ∀ i n, nodes t !! i = Some n → (1 ≤ node_depth n ≤ Z.of_nat depth)%Z.
Proof.
  intros Htok Hprob Hdepth Hk Hmax. unfold build_ddtree_tree_bounded. destruct (decide (max_nodes = 0 ∨ depth = 0)) as [Hz|Hz].
  { replace (bool_decide (max_nodes = 0) || bool_decide (depth = 0)) with true by (destruct Hz as [->| ->]; cbn; [done|by rewrite orb_true_r]). eexists. split; [done|].
    split; [apply root_only_wf|]. assert (Nat.min max_nodes (reachable depth topk) = 0) as -> by (destruct Hz as [->| ->]; cbn; lia). split_and!; try done; cbn; lia. }
  rewrite !bool_decide_eq_false_2 by tauto. cbn [orb]. rewrite Htok, Hprob, !bool_decide_eq_true_2 by done. cbn [assert mbind result_bind].
  destruct (table_index top_log_probs 1 0 Hprob ltac:(lia) ltac:(lia)) as [w Hw]. unfold index. cbn [Nat.sub Nat.mul Nat.add] in Hw. rewrite Hw. cbn [mbind result_bind].
  pose proof (start_inv w ltac:(lia) Hk) as Hinv.
  destruct (build_loop_inv (E := E) top_tokens top_log_probs depth topk Htok Hprob Hdepth min_nodes max_nodes cutoff (S max_nodes) _ [] Hinv Hmax) as (b & ranks & -> & Hb & H1 & H2 & H3 & H4); [cbn; lia|cbn; lia|].
  cbn [mbind result_bind]. destruct Hb as [Hr Hm Hn Ht Hh Hp Hs Hc]. destruct (visibility_table_exact (E := E) (built b) Hn) as (vis & -> & Hvl & Hv). cbn [mbind result_bind].
  assert (length (@nil DdNode) + pending depth topk (heap (push_entry (mkBuild [] 0 [] [∅]) 1 0 (-1) w)) = reachable depth topk) as Htotal.
  { assert (full_tree topk depth = S (topk * full_tree topk (depth - 1))) as Hfull by (replace depth with (S (depth - 1)) at 1 by lia; done).
    unfold pending, reachable. rewrite Hfull. cbn. unfold weight. cbn. rewrite Nat.sub_0_r. lia. }
  cbn [built push_entry] in *. rewrite Htotal in *. eexists. split; [done|]. cbn [nodes child_maps]. split; [by split|]. split; [done|]. split; [lia|]. split; [done|].
  intros i n Hi. destruct (Ht i n Hi) as (d & r & _ & _ & Hd & Hdn & _). rewrite Hdn. lia.
Qed.
End Exact.

(** The walk to the root. *)
Lemma ancestors_loop_exact {E} ns s l : slot_chain ns s l → nodes_wf ns → ∀ fuel acc, s ≤ fuel →
  ∃ rest, l = 0 :: rest ∧ ancestors_loop (E := E) ns fuel (Z.of_nat s - 1) acc = Ok (acc ++ reverse (pred <$> rest)).
Proof.
  induction 1 as [|i n l Hn Hl IH]; intros Hwf fuel acc Hf; [exists []; split; [done|]; destruct fuel; cbn; by rewrite app_nil_r|].
  destruct fuel as [|fuel]; [lia|]. cbn [ancestors_loop]. replace (Z.of_nat (S i) - 1)%Z with (Z.of_nat i) by lia. destruct (Z.ltb_spec (Z.of_nat i) 0); [lia|].
  unfold index. rewrite Nat2Z.id, Hn. cbn [mbind result_bind]. destruct (Hwf i n Hn) as [Hp _]. pose proof (parent_slot_le _ _ Hp).
  destruct (IH Hwf fuel (acc ++ [i]) ltac:(lia)) as (rest & -> & Hloop). exists (rest ++ [S i]). split; [done|].
  replace (Z.of_nat (parent_slot (parent_index n)) - 1)%Z with (parent_index n) in Hloop by (unfold parent_slot; destruct (Z.ltb_spec (parent_index n) 0); lia).
  rewrite Hloop, fmap_app, reverse_app. cbn. by rewrite <- app_assoc.
Qed.

Lemma ancestors_exact {E} t i : tree_wf t → i < length (nodes t) → (Z.of_nat (length (nodes t)) ≤ 2147483648)%Z →
  ∃ rest, slot_chain (nodes t) (S i) (0 :: rest) ∧ ancestors_of (E := E) t i = Ok (pred <$> rest).
Proof.
  intros Ht Hi Hmax. destruct (chain_exists (nodes t) (S i) (tw_nodes _ Ht) ltac:(lia)) as [l Hl].
  destruct (ancestors_loop_exact (E := E) _ _ _ Hl (tw_nodes _ Ht) (length (nodes t)) [] ltac:(lia)) as (rest & -> & Hloop). exists rest. split; [done|].
  unfold ancestors_of. rewrite as_i32_small by lia. replace (Z.of_nat i) with (Z.of_nat (S i) - 1)%Z by lia. rewrite Hloop. cbn [mbind result_bind app]. by rewrite reverse_involutive.
Qed.
