(* ===== verification/DdWalk.v ===== *)
(** Draft trees (src/crates/hipfire-runtime/src/ddtree.rs): verification.

    The tree is laid out as one block with a mask that lets every slot see its own
    ancestors, the target computes one row of logits per slot, and a walk from the root
    draws the target's token at each slot and descends while the tree has that child.

    Proved here: through the mask a slot attends to exactly the prompt and its own path, at
    consecutive positions; the walk ends, and what it emits is what the target would have
    drawn on its own, token by token, with the same generator state afterwards. *)

From Stdlib Require Import SpecFloat.
From S2P Require Import Prelude F32 Spec DdTree.

(** ** Drawing a token *)

(** [xorshift_unit] *)
Definition xorshift_unit (state : Z) : f32 * Z :=
  let s := Z.lxor state (wrap64 (Z.shiftl state 13)) in
  let s := Z.lxor s (Z.shiftr s 7) in
  let s := Z.lxor s (wrap64 (Z.shiftl s 17)) in
  (f32_mul (f32_of_Z (Z.shiftr s 40)) (f32_div f32_one (f32_of_Z 16777216)), s).

(** The first greatest entry of a row; 0 when none exceeds negative infinity. *)
Definition argmax_step (acc : nat * f32) (iv : nat * f32) : nat * f32 :=
  if f32_lt acc.2 iv.2 then iv else acc.
Definition argmax (row : list f32) : Z := Z.of_nat (foldl argmax_step (0, NEG_INFINITY) (enumerate row)).1.

(** [sample_unnormalized] *)
Fixpoint scan_weights (target acc : f32) (i : nat) (w : list f32) : option nat :=
  match w with
  | [] => None
  | x :: w =>
      if f32_lt f32_zero x then
        let acc := f32_add acc x in
        if f32_lt target acc then Some i else scan_weights target acc (S i) w
      else scan_weights target acc (S i) w
  end.
Definition positive_sum (w : list f32) : f32 := foldl (λ sum x, if f32_lt f32_zero x then f32_add sum x else sum) f32_zero w.
Definition sample_unnormalized (w : list f32) (u : f32) : Z :=
  let sum := positive_sum w in
  if f32_le sum f32_zero then argmax w
  else Z.of_nat (default (length w - 1) (scan_weights (f32_mul u sum) f32_zero 0 w)).

Section Draw.
(** [f32::exp] *)
Context (exp : f32 → f32).

(** [softmax_temp_into] *)
Definition softmax_temp_into (logits : list f32) (temp : f32) : list f32 :=
  let inv_t := f32_div f32_one temp in
  let max := foldl (λ max v, let s := f32_mul v inv_t in if f32_lt max s then s else max) NEG_INFINITY logits in
  let out := (λ v, exp (f32_sub (f32_mul v inv_t) max)) <$> logits in
  let sum := foldl f32_add f32_zero out in
  let inv := f32_div f32_one sum in
  (λ p, f32_mul p inv) <$> out.

(** A stable sort of the indices by descending probability. *)
Definition prob_at (probs : list f32) (i : nat) : f32 := default f32_zero (probs !! i).
Fixpoint insert_desc (probs : list f32) (i : nat) (l : list nat) : list nat :=
  match l with
  | [] => [i]
  | j :: l => match default Eq (partial_cmp (prob_at probs i) (prob_at probs j)) with Gt => i :: j :: l | _ => j :: insert_desc probs i l end
  end.
Definition sort_desc (probs : list f32) : list nat := foldl (λ l i, insert_desc probs i l) [] (seq 0 (length probs)).

(** The cut to the [top_k] most likely tokens. *)
Definition top_k_cut (probs : list f32) (top_k : nat) : list f32 :=
  if bool_decide (0 < top_k) && bool_decide (top_k < length probs) then
    let order := sort_desc probs in
    let kept_mass := foldl (λ m idx, f32_add m (prob_at probs idx)) f32_zero (take top_k order) in
    let probs := foldl (λ ps idx, <[idx := f32_zero]> ps) probs (drop top_k order) in
    if f32_lt f32_zero kept_mass then let inv := f32_div f32_one kept_mass in (λ p, f32_mul p inv) <$> probs else probs
  else probs.

(** The literal [0.999]. *)
Definition NO_NUCLEUS : f32 := S754_finite false 16760439 (-24).

(** Where the cumulative mass first reaches [top_p], with the mass up to there. *)
Fixpoint nucleus_cut (probs : list f32) (top_p : f64) (order : list nat) (rank_ : nat) (cum : f64) : nat * f64 :=
  match order with
  | [] => (rank_, cum)
  | idx :: order =>
      let cum := f64_add cum (as_f64 (prob_at probs idx)) in
      if f32_le top_p cum then (S rank_, cum) else nucleus_cut probs top_p order (S rank_) cum
  end.
Definition top_p_cut (probs : list f32) (top_p : f32) : list f32 :=
  if f32_lt top_p NO_NUCLEUS then
    let order := sort_desc probs in
    let '(cutoff, kept_mass) := nucleus_cut probs (as_f64 top_p) order 0 f32_zero in
    let inv := if f32_lt f32_zero kept_mass then f64_div f64_one kept_mass else f32_zero in
    let probs := foldl (λ ps idx, <[idx := as_f32 (f64_mul (as_f64 (prob_at ps idx)) inv)]> ps) probs (take cutoff order) in
    foldl (λ ps idx, <[idx := f32_zero]> ps) probs (drop cutoff order)
  else probs.

(** [sample_host_nucleus] *)
Definition sample_host_nucleus (logits : list f32) (temp top_p : f32) (top_k : nat) (rng_state : Z) : Z * Z :=
  let probs := softmax_temp_into logits temp in
  let probs := top_p_cut (top_k_cut probs top_k) top_p in
  let '(u, rng_state) := xorshift_unit rng_state in
  (sample_unnormalized probs u, rng_state).

(** The draw of a tree slot, and of a chain position. *)
Definition tree_draw (temp : f32) (row : list f32) (rng_state : Z) : Z * Z :=
  if f32_lt f32_zero temp then
    let p := softmax_temp_into row temp in
    let '(u, rng_state) := xorshift_unit rng_state in
    (sample_unnormalized p u, rng_state)
  else (argmax row, rng_state).
Definition chain_draw (temp top_p : f32) (top_k : nat) (row : list f32) (rng_state : Z) : Z * Z :=
  if f32_lt f32_zero temp then
    if bool_decide (top_k = 0) && f32_le NO_NUCLEUS top_p then tree_draw temp row rng_state
    else sample_host_nucleus row temp top_p top_k rng_state
  else (argmax row, rng_state).
End Draw.

(** [&logits[i * vocab..(i + 1) * vocab]] *)
Definition logits_row {E} (logits : list f32) (vocab i : nat) : result E (list f32) :=
  if bool_decide (S i * vocab ≤ length logits) then Ok (take vocab (drop (i * vocab) logits)) else Panic.

(** ** Walks *)

(** The loop of [naive_sample_chain]: position [i], with the drafts from there. *)
Fixpoint chain_loop {E} (draw : list f32 → Z → Z * Z) (logits : list f32) (vocab i : nat) (drafts : list Z) (rng_state : Z) : result E (nat * Z * Z) :=
  row ← logits_row logits vocab i;
  let '(x, rng_state) := draw row rng_state in
  match drafts with
  | [] => Ok (i, x, rng_state)
  | d :: drafts => if bool_decide (d = x) then chain_loop draw logits vocab (S i) drafts rng_state else Ok (i, x, rng_state)
  end.
Definition naive_sample_chain {E} exp (logits_per_pos : list f32) (drafts : list Z) (vocab : nat) (temp top_p : f32) (top_k : nat) (rng_state : Z) : result E (nat * Z * Z) :=
  assert (bool_decide (length logits_per_pos = (length drafts + 1) * vocab)) ;;
  chain_loop (chain_draw exp temp top_p top_k) logits_per_pos vocab 0 drafts rng_state.

(** The loop of [sample_verified_tree]. A child comes after its parent, so the walk takes
    at most as many steps as the tree has slots; running out of them is a panic. *)
Fixpoint tree_loop {E} (draw : list f32 → Z → Z * Z) (t : DdTree) (logits : list f32) (vocab fuel slot : nat) (accepted : list nat) (rng_state : Z) : result E (list nat * Z * Z) :=
  match fuel with
  | 0 => Panic
  | S fuel =>
      row ← logits_row logits vocab slot;
      let '(x, rng_state) := draw row rng_state in
      children ← index (child_maps t) slot;
      match children !! x with
      | Some child_idx => tree_loop draw t logits vocab fuel (S child_idx) (accepted ++ [child_idx]) rng_state
      | None => Ok (accepted, x, rng_state)
      end
  end.
Definition sample_verified_tree {E} exp (t : DdTree) (logits_per_pos : list f32) (vocab : nat) (temp : f32) (rng_state : Z) : result E (list nat * Z * Z) :=
  let n_slots := 1 + length (nodes t) in
  assert (bool_decide (length logits_per_pos = n_slots * vocab)) ;;
  tree_loop (tree_draw exp temp) t logits_per_pos vocab n_slots 0 [] rng_state.

(** [follow_verified_tree] *)
Fixpoint follow_loop {E} (t : DdTree) (posterior : list Z) (fuel slot : nat) (next_token : Z) (accepted : list nat) : result E (list nat * Z) :=
  match fuel with
  | 0 => Panic
  | S fuel =>
      children ← index (child_maps t) slot;
      match children !! next_token with
      | None => Ok (accepted, next_token)
      | Some child_node_index =>
          let accepted := accepted ++ [child_node_index] in
          if bool_decide (length posterior ≤ S child_node_index) then Ok (accepted, next_token) else
          next_token ← index posterior (S child_node_index);
          follow_loop t posterior fuel (S child_node_index) next_token accepted
      end
  end.
Definition follow_verified_tree {E} (t : DdTree) (posterior : list Z) : result E (list nat * Z) :=
  assert (bool_decide (length posterior = 1 + length (nodes t))) ;;
  next_token ← index posterior 0;
  follow_loop t posterior (1 + length (nodes t)) 0 next_token [].

(** ** The block the target verifies *)

(** [a + b] on [i32] *)
Definition add_i32 {E} (a b : Z) : result E Z := assert (bool_decide (-2147483648 ≤ a + b < 2147483648)%Z) ;; Ok (a + b)%Z.

(** A visible slot adds nothing to an attention score, a hidden one negative infinity. *)
Definition bias_row (row : list bool) : list f32 := (λ v : bool, if v then f32_zero else NEG_INFINITY) <$> row.

Record Linearized := mkLinearized { lin_tokens : list Z; lin_positions : list Z; mask_block : list f32; parent_indices : list Z }.

(** [linearize_tree_with_parents]; the assertions are its [debug_assert]s. *)
Definition linearize_tree_with_parents {E} (t : DdTree) (seed_token base_pos : Z) : result E Linearized :=
  let len := 1 + length (nodes t) in
  positions ← try_map (λ n, add_i32 (as_i32 base_pos) (as_i32 (node_depth n))) (nodes t);
  rows ← try_map (λ row : list bool, assert (bool_decide (length row = len)) ;; Ok (bias_row row)) (visibility t);
  let mask := concat rows in
  assert (bool_decide (length mask = len * len)) ;;
  parents ← try_map (λ n, if (parent_index n <? 0)%Z then Ok 0%Z else add_i32 (parent_index n) 1) (nodes t);
  Ok (mkLinearized (seed_token :: (token <$> nodes t)) (as_i32 base_pos :: positions) mask ((-1)%Z :: parents)).
Definition linearize_tree {E} (t : DdTree) (seed_token base_pos : Z) : result E (list Z * list Z * list f32) :=
  l ← linearize_tree_with_parents t seed_token base_pos;
  Ok (lin_tokens l, lin_positions l, mask_block l).

(** ** Attention through the mask *)

(** The mask leaves slot [j] visible from slot [s]: the bias is zero. *)
Definition visible (l : Linearized) (s j : nat) : bool :=
  match mask_block l !! (s * length (lin_tokens l) + j) with Some (S754_zero _) => true | _ => false end.
Definition slot_entry (l : Linearized) (j : nat) : Z * Z := (default 0%Z (lin_tokens l !! j), default 0%Z (lin_positions l !! j)).
(** The tokens of the block that a slot attends to, with their positions. *)
Definition attended (l : Linearized) (s : nat) : list (Z * Z) :=
  slot_entry l <$> filter (λ j, visible l s j = true) (seq 0 (length (lin_tokens l))).

Lemma concat_slice {A} vocab (rows : list (list A)) : Forall (λ r, length r = vocab) rows → ∀ i r, rows !! i = Some r →
  take vocab (drop (i * vocab) (concat rows)) = r ∧ S i * vocab ≤ length (concat rows).
Proof.
  induction 1 as [|r' rows Hr' Hrows IH]; intros i r Hi; [done|]. cbn [concat]. destruct i as [|i]; cbn in Hi.
  - simplify_eq. rewrite drop_0, take_app_length, length_app. split; [done|lia].
  - destruct (IH i r Hi) as [Hs Hl]. rewrite length_app, Hr'. split; [|lia]. cbn [Nat.mul]. rewrite <- Hs. f_equal.
    rewrite <- Hr' at 1. by rewrite drop_app_add.
Qed.

Lemma concat_slice_lookup {A} vocab (rows : list (list A)) i r j : Forall (λ r, length r = vocab) rows → rows !! i = Some r → j < vocab → concat rows !! (i * vocab + j) = r !! j.
Proof. intros Hr Hi Hj. destruct (concat_slice vocab rows Hr i r Hi) as [<- _]. by rewrite lookup_take_lt, lookup_drop by done. Qed.

(** Filtering the slots by membership in a chain gives the chain. *)
Lemma chain_filter ns s c : nodes_wf ns → slot_chain ns s c → ∀ len, s < len → filter (λ j, j ∈ c) (seq 0 len) = c.
Proof.
  intros Hwf. induction 1 as [|i n c Hn Hc IH]; intros len Hs.
  - destruct len as [|len]; [lia|]. cbn [seq]. rewrite filter_cons_True by by apply list_elem_of_singleton. f_equal. apply filter_none.
    intros j Hj%elem_of_seq. rewrite list_elem_of_singleton. lia.
  - destruct (Hwf i n Hn) as [Hp _]. pose proof (parent_slot_le _ _ Hp). replace len with (S i + (1 + (len - S (S i)))) by lia. rewrite seq_app, filter_app. f_equal.
    + trans (filter (λ j, j ∈ c) (seq 0 (S i))); [|apply IH; lia]. apply filter_ext_in. intros j Hj%elem_of_seq. rewrite elem_of_app, list_elem_of_singleton. split; [|by left]. intros [?| ->]; [done|lia].
    + cbn [seq Nat.add]. rewrite filter_cons_True by (apply elem_of_app; right; by apply list_elem_of_singleton). f_equal. apply filter_none.
      intros j Hj%elem_of_seq. rewrite elem_of_app, list_elem_of_singleton. intros [Hin| ->]; [|lia]. pose proof (chain_bound _ _ _ Hwf Hc _ Hin). lia.
Qed.

Section Attention.
Context (t : DdTree) (Ht : tree_wf t) (seed base : Z).

Definition block : Linearized := mkLinearized (seed :: (token <$> nodes t)) (base :: ((λ n, base + node_depth n)%Z <$> nodes t))
  (concat (bias_row <$> visibility t)) ((-1)%Z :: ((λ n, Z.of_nat (parent_slot (parent_index n))) <$> nodes t)).

Lemma visibility_lengths : Forall (λ row : list bool, length row = S (length (nodes t))) (visibility t).
Proof.
  apply Forall_lookup. intros s row Hs. pose proof (lookup_lt_Some _ _ _ Hs) as Hlt. rewrite (tw_rows _ Ht) in Hlt.
  destruct (chain_exists (nodes t) s (tw_nodes _ Ht) ltac:(lia)) as [c Hc]. destruct (tw_visible _ Ht s c Hc ltac:(lia)) as (row' & Hrow' & Hl & _). by simplify_eq.
Qed.

Lemma linearize_exact {E} D : (∀ i n, nodes t !! i = Some n → (1 ≤ node_depth n ≤ Z.of_nat D)%Z) → (0 ≤ base)%Z → (base + Z.of_nat D < 2147483648)%Z →
  (Z.of_nat (length (nodes t)) ≤ 2147483648)%Z → linearize_tree_with_parents (E := E) t seed base = Ok block.
Proof.
  intros Hdepths Hbase Hroom Hsmall.
  unfold linearize_tree_with_parents. rewrite (as_i32_small base) by lia.
  rewrite (proj2 (try_map_Ok (λ n, add_i32 (E := E) base (as_i32 (node_depth n))) (nodes t) ((λ n, base + node_depth n)%Z <$> nodes t))).
  2: { apply Forall2_fmap_r, Forall_Forall2_diag, Forall_lookup. intros i n Hn. pose proof (Hdepths i n Hn). unfold add_i32, assert.
    rewrite as_i32_small by lia. by rewrite bool_decide_eq_true_2 by lia. }
  cbn [mbind result_bind]. erewrite (proj2 (try_map_Ok _ (visibility t) (bias_row <$> visibility t))).
  2: { apply Forall2_fmap_r, Forall_Forall2_diag. eapply Forall_impl; [apply visibility_lengths|]. cbn. intros row Hrow. by rewrite bool_decide_eq_true_2 by done. }
  cbn [mbind result_bind]. rewrite bool_decide_eq_true_2.
  2: { rewrite <- (tw_rows _ Ht) at 1. pose proof visibility_lengths as Hv. clear - Hv. induction Hv as [|row rows Hr Hrows IH]; [done|].
    cbn. unfold bias_row at 1. rewrite length_app, length_fmap, IH, Hr. done. }
  cbn [assert mbind result_bind]. rewrite (proj2 (try_map_Ok _ (nodes t) ((λ n, Z.of_nat (parent_slot (parent_index n))) <$> nodes t))); [done|].
  apply Forall2_fmap_r, Forall_Forall2_diag, Forall_lookup. intros i n Hn. destruct (tw_nodes _ Ht i n Hn) as [Hp _]. apply lookup_lt_Some in Hn. unfold compose, parent_slot. cbn beta.
  destruct (Z.ltb_spec (parent_index n) 0); [done|]. unfold add_i32, assert. rewrite bool_decide_eq_true_2 by lia. cbn. f_equal. lia.
Qed.

Lemma visible_chain s c j : slot_chain (nodes t) s c → s ≤ length (nodes t) → j ≤ length (nodes t) → visible block s j = true ↔ j ∈ c.
Proof.
  intros Hc Hs Hj. destruct (tw_visible _ Ht s c Hc Hs) as (row & Hrow & Hlen & Hmark). unfold visible. cbn [mask_block lin_tokens block length]. rewrite length_fmap.
  rewrite (concat_slice_lookup _ _ s (bias_row row)); [| |by rewrite list_lookup_fmap, Hrow|lia].
  - unfold bias_row. rewrite list_lookup_fmap, Hmark by lia. cbn. case_bool_decide; done.
  - apply Forall_fmap. eapply Forall_impl; [apply visibility_lengths|]. cbn. intros r Hr. unfold bias_row. by rewrite length_fmap.
Qed.

Lemma attended_chain s c : slot_chain (nodes t) s c → s ≤ length (nodes t) → attended block s = slot_entry block <$> c.
Proof.
  intros Hc Hs. unfold attended. f_equal. cbn [lin_tokens block length]. rewrite length_fmap.
  trans (filter (λ j, j ∈ c) (seq 0 (S (length (nodes t))))); [|apply (chain_filter _ s c (tw_nodes _ Ht) Hc); lia].
  apply filter_ext_in. intros j Hj%elem_of_seq. apply visible_chain; [done|done|lia].
Qed.

Lemma attended_root : attended block 0 = [(seed, base)].
Proof. by rewrite (attended_chain 0 [0] (chain_root _)) by lia. Qed.

(** A child attends to what its parent does, and to itself. *)
Lemma attended_child i n : nodes t !! i = Some n →
  attended block (S i) = attended block (parent_slot (parent_index n)) ++ [(token n, base + node_depth n)%Z].
Proof.
  intros Hn. pose proof (lookup_lt_Some _ _ _ Hn). destruct (tw_nodes _ Ht i n Hn) as [Hp _]. pose proof (parent_slot_le _ _ Hp).
  destruct (chain_exists (nodes t) (parent_slot (parent_index n)) (tw_nodes _ Ht) ltac:(lia)) as [c Hc].
  rewrite (attended_chain (S i) (c ++ [S i])), (attended_chain _ c) by (done || lia || by econstructor). rewrite fmap_app. f_equal. cbn. f_equal.
  unfold slot_entry. change (lin_tokens block !! S i) with ((token <$> nodes t) !! i).
  change (lin_positions block !! S i) with (((λ n, base + node_depth n)%Z <$> nodes t) !! i). by rewrite !list_lookup_fmap, Hn.
Qed.
End Attention.

(** ** The walk draws what the target would *)

(** The target on its own: [n] tokens drawn one after the other. A model reads the tokens
    it attends to with their positions. *)
Fixpoint sample_alone (draw : list f32 → Z → Z * Z) (model : list (Z * Z) → list f32) (n : nat) (context : list (Z * Z)) (pos rng : Z) : list Z * Z :=
  match n with
  | 0 => ([], rng)
  | S n =>
      let '(x, rng) := draw (model context) rng in
      let '(xs, rng) := sample_alone draw model n (context ++ [(x, pos)]) (pos + 1) rng in
      (x :: xs, rng)
  end.

(** The logits of a block: each slot reads the prompt and what the mask leaves it. *)
Definition block_logits (model : list (Z * Z) → list f32) (prompt : list (Z * Z)) (l : Linearized) : list f32 :=
  concat ((λ s, model (prompt ++ attended l s)) <$> seq 0 (length (lin_tokens l))).

Lemma rows_lengths {A} (f : nat → list A) vocab (l : list nat) : (∀ s, length (f s) = vocab) → Forall (λ r, length r = vocab) (f <$> l).
Proof. intros Hf. apply Forall_fmap, Forall_forall. intros s _. apply Hf. Qed.

Lemma logits_row_exact {E} (f : nat → list f32) vocab len s : (∀ s, length (f s) = vocab) → s < len →
  logits_row (E := E) (concat (f <$> seq 0 len)) vocab s = Ok (f s).
Proof.
  intros Hf Hs. destruct (concat_slice vocab (f <$> seq 0 len) (rows_lengths f vocab _ Hf) s (f s)) as [Hr Hl]; [by rewrite list_lookup_fmap, lookup_seq_lt|].
  unfold logits_row. by rewrite bool_decide_eq_true_2, Hr by done.
Qed.

Lemma rows_total {A} (f : nat → list A) vocab len : (∀ s, length (f s) = vocab) → length (concat (f <$> seq 0 len)) = len * vocab.
Proof.
  intros Hf. assert (∀ l, length (concat (f <$> l)) = length l * vocab) as ->; [|by rewrite length_seq].
  induction l as [|s l IH]; [done|]. cbn. by rewrite length_app, IH, Hf.
Qed.

Definition node_token (t : DdTree) (i : nat) : Z := default 0%Z (token <$> nodes t !! i).
(** The slot a walk ends on. *)
Definition last_slot (s : nat) (accepted : list nat) : nat := default s (last (S <$> accepted)).

Section Walk.
Context {E : Type} (t : DdTree) (Ht : tree_wf t) (seed base : Z) (draw : list f32 → Z → Z * Z) (model : list (Z * Z) → list f32) (prompt : list (Z * Z)) (vocab : nat).
Hypothesis Hvocab : ∀ c, length (model c) = vocab.

Lemma verify_row s : s ≤ length (nodes t) →
  logits_row (E := E) (block_logits model prompt (block t seed base)) vocab s = Ok (model (prompt ++ attended (block t seed base) s)).
Proof.
  intros Hs. unfold block_logits. apply (logits_row_exact (λ s, model (prompt ++ attended (block t seed base) s))); [intros; apply Hvocab|]. cbn. rewrite length_fmap. lia.
Qed.

Lemma tree_loop_exact : ∀ fuel s c d acc rng, slot_chain (nodes t) s c → slot_depth (nodes t) s = Some d → s ≤ length (nodes t) → length (nodes t) < fuel + s →
  ∃ acc' bonus rng', tree_loop (E := E) draw t (block_logits model prompt (block t seed base)) vocab fuel s acc rng = Ok (acc ++ acc', bonus, rng') ∧
    sample_alone draw model (S (length acc')) (prompt ++ attended (block t seed base) s) (base + d + 1) rng = ((node_token t <$> acc') ++ [bonus], rng') ∧
    slot_chain (nodes t) (last_slot s acc') (c ++ (S <$> acc')) ∧
    (∀ m, child_maps t !! last_slot s acc' = Some m → m !! bonus = None).
Proof.
  induction fuel as [|fuel IH]; intros s c d acc rng Hc Hd Hs Hf; [lia|]. cbn [tree_loop].
  rewrite (verify_row s) by done. cbn [mbind result_bind sample_alone].
  destruct (draw _ rng) as [x rng1]. destruct (lookup_lt_is_Some_2 (child_maps t) s) as [m Hm]; [rewrite (tw_maps _ Ht); lia|]. unfold index. rewrite Hm. cbn [mbind result_bind].
  destruct (m !! x) as [child|] eqn:Hx.
  - destruct (tw_sound _ Ht s m x child Hm Hx) as (n & Hn & <- & Hps). pose proof (lookup_lt_Some _ _ _ Hn). destruct (tw_nodes _ Ht child n Hn) as [Hp Hlev].
    pose proof (parent_slot_le _ _ Hp). rewrite Hps in *. rewrite Hlev in Hd. injection Hd as Hd.
    destruct (IH (S child) (c ++ [S child]) (node_depth n) (acc ++ [child]) rng1) as (acc' & bonus & rng' & Hloop & Halone & Hchain & Hmax); [econstructor; [done|by rewrite Hps]|by cbn; rewrite Hn|lia|lia|].
    exists (child :: acc'), bonus, rng'. rewrite Hloop, <- app_assoc. split; [done|]. rewrite (attended_child t Ht seed base child n Hn), Hps, app_assoc in Halone.
    replace (base + node_depth n)%Z with (base + d + 1)%Z in Halone by lia. rewrite <- !app_assoc in Halone |- *. cbn [length] in *. 
    rewrite Halone. split; [rewrite fmap_cons; assert (node_token t child = token n) as -> by (unfold node_token; by rewrite Hn); done|].
    assert (last_slot s (child :: acc') = last_slot (S child) acc') as -> by (unfold last_slot; rewrite !fmap_cons, last_cons; by destruct (last (S <$> acc'))).
    split; [|done]. by rewrite <- app_assoc in Hchain.
  - exists [], x, rng1. rewrite app_nil_r. split; [done|]. split; [done|]. cbn. rewrite app_nil_r. split; [done|]. intros m' Hm'. by simplify_eq.
Qed.
End Walk.

(** C6: verifying a draft tree loses nothing. For a table of drafts of the right shape, the
    tree is built and laid out without a panic, and when the target computes each slot
    from the prompt and the slots the mask leaves visible, the walk ends and emits exactly
    the tokens the target would have drawn alone, token by token, with the generator in the
    same state, at any temperature; the accepted nodes are a path from the root, and no
    child of its last node proposes the token that ended the walk. *)
Theorem tree_verify_lossless {E} exp top_tokens top_log_probs depth topk min_nodes max_nodes cutoff seed base temp model prompt vocab rng :
  length top_tokens = depth * topk → length top_log_probs = depth * topk → 1 ≤ topk → (Z.of_nat max_nodes ≤ 2147483648)%Z →
  (0 ≤ base)%Z → (base + Z.of_nat depth < 2147483648)%Z → (∀ c, length (model c) = vocab) →
  ∃ t l accepted bonus rng', build_ddtree_tree_bounded (E := E) top_tokens top_log_probs depth topk min_nodes max_nodes cutoff = Ok t ∧
    linearize_tree_with_parents (E := E) t seed base = Ok l ∧
    sample_verified_tree (E := E) exp t (block_logits model prompt l) vocab temp rng = Ok (accepted, bonus, rng') ∧
    sample_alone (tree_draw exp temp) model (S (length accepted)) (prompt ++ [(seed, base)]) (base + 1) rng = ((node_token t <$> accepted) ++ [bonus], rng') ∧
    slot_chain (nodes t) (last_slot 0 accepted) (0 :: (S <$> accepted)) ∧
    (rows_distinct top_tokens depth topk → ∀ i n, nodes t !! i = Some n → parent_slot (parent_index n) = last_slot 0 accepted → token n ≠ bonus).
Proof.
  intros Htok Hprob Hk Hmax Hbase Hroom Hvocab.
  destruct (tree_build_exact (E := E) top_tokens top_log_probs depth topk min_nodes max_nodes cutoff Htok Hprob ltac:(unfold U32_MAX; lia) Hk Hmax) as (t & Hb & Ht & Hcomp & Hsize & _ & Hdep).
  destruct (tree_loop_exact (E := E) t Ht seed base (tree_draw exp temp) model prompt vocab Hvocab (1 + length (nodes t)) 0 [0] 0 [] rng (chain_root _) eq_refl ltac:(lia) ltac:(lia))
    as (accepted & bonus & rng' & Hloop & Halone & Hchain & Hlast).
  exists t, (block t seed base), accepted, bonus, rng'. split; [done|]. split; [apply (linearize_exact t Ht seed base depth Hdep Hbase Hroom); lia|].
  rewrite (attended_root t Ht), Z.add_0_r in Halone. split_and!; [|done|done|].
  - unfold sample_verified_tree. rewrite bool_decide_eq_true_2; [exact Hloop|]. unfold block_logits. cbn [block lin_tokens length]. rewrite length_fmap. by apply rows_total.
  - intros Hdis i n Hn Hps Hbonus. destruct (Hcomp Hdis i n Hn) as (m & Hm & Hi). rewrite Hps in Hm. rewrite Hbonus, (Hlast m Hm) in Hi. done.
Qed.

Lemma chain_depth ns s c : nodes_wf ns → slot_chain ns s c → slot_depth ns s = Some (Z.of_nat (length c) - 1)%Z.
Proof.
  intros Hwf. induction 1 as [|i n c Hn Hc IH]; [done|]. destruct (Hwf i n Hn) as [_ Hl]. cbn [slot_depth]. rewrite Hn. cbn. rewrite length_app. cbn. rewrite IH in Hl. simplify_eq. f_equal. lia.
Qed.

(** A path of the tree, with the positions of its tokens. *)
Definition path_entries (seed base : Z) (t : DdTree) (path : list nat) : list (Z * Z) :=
  imap (λ k x, (x, base + Z.of_nat k)%Z) (seed :: (node_token t <$> path)).

Lemma attended_path t seed base s c : tree_wf t → slot_chain (nodes t) s c → s ≤ length (nodes t) →
  ∃ rest, c = 0 :: rest ∧ attended (block t seed base) s = path_entries seed base t (pred <$> rest).
Proof.
  intros Ht. induction 1 as [|i n c Hn Hc IH]; intros Hs; [exists []; split; [done|]; rewrite (attended_root t Ht); cbn; by rewrite Z.add_0_r|].
  pose proof (lookup_lt_Some _ _ _ Hn). destruct (tw_nodes _ Ht i n Hn) as [Hp Hlev]. pose proof (parent_slot_le _ _ Hp). destruct (IH ltac:(lia)) as (rest & -> & Ha). exists (rest ++ [S i]).
  split; [done|]. rewrite (attended_child t Ht seed base i n Hn), Ha. rewrite (chain_depth _ _ _ (tw_nodes _ Ht) Hc) in Hlev. cbn in Hlev. unfold path_entries.
  rewrite !fmap_app. cbn [fmap list_fmap pred]. change (seed :: ((node_token t <$> (pred <$> rest)) ++ [node_token t i])) with ((seed :: (node_token t <$> (pred <$> rest))) ++ [node_token t i]).
  rewrite imap_app. f_equal. cbn. rewrite !length_fmap. unfold node_token. rewrite Hn. cbn. simplify_eq. do 2 f_equal. lia.
Qed.

(** The draft tree is the one its documentation describes. Construction and layout
    succeed; the tree has all the nodes the table reaches up to the ceiling when there is
    no cutoff, and at least the floor otherwise; parents come before their children; with
    distinct tokens at each draft position the child maps are exact; and through the mask a
    node attends to exactly the path [ancestors_of] returns, at consecutive positions. *)
Theorem draft_tree_exact {E} top_tokens top_log_probs depth topk min_nodes max_nodes cutoff seed base :
  length top_tokens = depth * topk → length top_log_probs = depth * topk → 1 ≤ topk → (Z.of_nat max_nodes ≤ 2147483648)%Z →
  (0 ≤ base)%Z → (base + Z.of_nat depth < 2147483648)%Z →
  ∃ t l, build_ddtree_tree_bounded (E := E) top_tokens top_log_probs depth topk min_nodes max_nodes cutoff = Ok t ∧ linearize_tree_with_parents (E := E) t seed base = Ok l ∧
    Nat.min min_nodes (Nat.min max_nodes (reachable depth topk)) ≤ length (nodes t) ≤ Nat.min max_nodes (reachable depth topk) ∧
    (cutoff = NEG_INFINITY → length (nodes t) = Nat.min max_nodes (reachable depth topk)) ∧
    (∀ i n, nodes t !! i = Some n → (-1 ≤ parent_index n < Z.of_nat i)%Z ∧ (1 ≤ node_depth n ≤ Z.of_nat depth)%Z) ∧
    (rows_distinct top_tokens depth topk → ∀ s m tok i, child_maps t !! s = Some m →
      m !! tok = Some i ↔ ∃ n, nodes t !! i = Some n ∧ token n = tok ∧ parent_slot (parent_index n) = s) ∧
    ∀ i, i < length (nodes t) → ∃ path, ancestors_of (E := E) t i = Ok path ∧ last path = Some i ∧ attended l (S i) = path_entries seed base t path.
Proof.
  intros Htok Hprob Hk Hmax Hbase Hroom.
  destruct (tree_build_exact (E := E) top_tokens top_log_probs depth topk min_nodes max_nodes cutoff Htok Hprob ltac:(unfold U32_MAX; lia) Hk Hmax) as (t & Hb & Ht & Hcomp & Hsize & Hcut & Hdep).
  exists t, (block t seed base). split; [done|]. split; [apply (linearize_exact t Ht seed base depth Hdep Hbase Hroom); lia|]. split; [done|]. split; [done|].
  split; [intros i n Hn; split; [by apply (tw_nodes _ Ht)|by eapply Hdep]|]. split.
  - intros Hdis s m tok i Hm. split; [by apply (tw_sound _ Ht)|]. intros (n & Hn & <- & <-). destruct (Hcomp Hdis i n Hn) as (m' & Hm' & Hi). by simplify_eq.
  - intros i Hi. destruct (ancestors_exact (E := E) t i Ht Hi ltac:(lia)) as (rest & Hc & Ha). destruct (attended_path t seed base (S i) _ Ht Hc ltac:(lia)) as (rest' & Heq & Hatt).
    simplify_eq. exists (pred <$> rest'). split_and!; [done| |done]. inversion Hc as [|i' n c Hn Hc' Hi' Heq]. destruct c as [|z c]; [done|]. simplify_eq/=. rewrite fmap_app. change (pred <$> [S i]) with [i]. by rewrite last_snoc.
Qed.

(** ** Greedy walks, and chains *)

(** [follow_verified_tree] on the greatest entries of each row. *)
Lemma follow_loop_exact {E} t logits vocab rng posterior : tree_wf t → length posterior = S (length (nodes t)) →
  (∀ s, s ≤ length (nodes t) → ∃ row, logits_row (E := E) logits vocab s = Ok row ∧ posterior !! s = Some (argmax row)) →
  ∀ fuel s acc x, s ≤ length (nodes t) → posterior !! s = Some x →
  (p ← follow_loop (E := E) t posterior fuel s x acc; Ok (p, rng)) = tree_loop (E := E) (λ row rng, (argmax row, rng)) t logits vocab fuel s acc rng.
Proof.
  intros Ht Hlen Hrows. induction fuel as [|fuel IH]; intros s acc x Hs Hx; cbn [follow_loop tree_loop]; [done|].
  destruct (Hrows s Hs) as (row & Hrow & Hpost). simplify_eq. rewrite Hrow. cbn [mbind result_bind]. unfold index.
  destruct (lookup_lt_is_Some_2 (child_maps t) s) as [m Hm]; [rewrite (tw_maps _ Ht); lia|]. rewrite Hm. cbn [mbind result_bind].
  destruct (m !! argmax row) as [child|] eqn:Hc; [|done]. destruct (tw_sound _ Ht _ _ _ _ Hm Hc) as (n & Hn & _ & _). pose proof (lookup_lt_Some _ _ _ Hn).
  rewrite bool_decide_eq_false_2 by lia. destruct (lookup_lt_is_Some_2 posterior (S child) ltac:(lia)) as [y Hy]. rewrite Hy. cbn [mbind result_bind]. apply IH; [lia|done].
Qed.

Lemma tree_draw_greedy exp temp : f32_lt f32_zero temp = false → ∀ row rng, tree_draw exp temp row rng = (argmax row, rng).
Proof. intros Hg row rng. unfold tree_draw. by rewrite Hg. Qed.

Lemma tree_loop_ext {E} draw draw' t logits vocab : (∀ row rng, draw row rng = draw' row rng) → ∀ fuel s acc rng,
  tree_loop (E := E) draw t logits vocab fuel s acc rng = tree_loop draw' t logits vocab fuel s acc rng.
Proof.
  intros Hd. induction fuel as [|fuel IH]; intros s acc rng; [done|]. cbn. destruct (logits_row logits vocab s); cbn; [|done|done]. rewrite Hd. destruct (draw' a rng) as [x rng'].
  destruct (index (child_maps t) s); cbn; [|done|done]. destruct (_ !! x); [apply IH|done].
Qed.

(** At temperature zero and below the walk is [follow_verified_tree] on the greatest entries. *)
Lemma greedy_walk {E} exp t (f : nat → list f32) vocab temp rng : tree_wf t → f32_lt f32_zero temp = false → (∀ s, length (f s) = vocab) →
  sample_verified_tree (E := E) exp t (concat (f <$> seq 0 (S (length (nodes t))))) vocab temp rng =
  (p ← follow_verified_tree t ((λ s, argmax (f s)) <$> seq 0 (S (length (nodes t)))); Ok (p, rng)).
Proof.
  intros Ht Hg Hf. unfold sample_verified_tree, follow_verified_tree. rewrite (rows_total f vocab _ Hf), length_fmap, length_seq, !bool_decide_eq_true_2 by done.
  cbn [assert mbind result_bind]. rewrite (tree_loop_ext _ _ t _ vocab (tree_draw_greedy exp temp Hg)). symmetry. apply follow_loop_exact; [done|by rewrite length_fmap, length_seq| |lia|done].
  intros s Hs. exists (f s). rewrite (logits_row_exact f) by (done || lia). split; [done|]. by rewrite list_lookup_fmap, lookup_seq_lt by lia.
Qed.

Fixpoint entries_from (pos : Z) (l : list Z) : list (Z * Z) := match l with [] => [] | x :: l => (x, pos) :: entries_from (pos + 1) l end.

Lemma path_entries_from seed base t path : path_entries seed base t path = entries_from base (seed :: (node_token t <$> path)).
Proof.
  unfold path_entries. generalize (seed :: (node_token t <$> path)) as l. intros l. revert base. induction l as [|x l IH]; intros base; [done|]. cbn. f_equal; [f_equal; lia|].
  rewrite <- IH. apply imap_ext. intros i y _. cbn. f_equal. lia.
Qed.

Lemma chain_loop_exact {E} draw model vocab (f : nat → list f32) N : (∀ s, length (f s) = vocab) → ∀ drafts i ctx pos rng, i + length drafts < N →
  (∀ k, k ≤ length drafts → f (i + k) = model (ctx ++ entries_from pos (take k drafts))) →
  ∃ a bonus rng', chain_loop (E := E) draw (concat (f <$> seq 0 N)) vocab i drafts rng = Ok (i + a, bonus, rng') ∧ a ≤ length drafts ∧
    sample_alone draw model (S a) ctx pos rng = (take a drafts ++ [bonus], rng').
Proof.
  intros Hf. induction drafts as [|d drafts IH]; intros i ctx pos rng Hi Hm; cbn [length] in *; pose proof (Hm 0 ltac:(lia)) as H0; rewrite Nat.add_0_r in H0; cbn in H0; rewrite app_nil_r in H0.
  - cbn [chain_loop]. rewrite (logits_row_exact f) by (done || lia). cbn [mbind result_bind]. rewrite H0. destruct (draw (model ctx) rng) as [x rng'] eqn:Hd. exists 0, x, rng'. rewrite Nat.add_0_r. cbn. by rewrite Hd.
  - cbn [chain_loop]. rewrite (logits_row_exact f) by (done || lia). cbn [mbind result_bind]. rewrite H0. destruct (draw (model ctx) rng) as [x rng1] eqn:Hd. case_bool_decide as Hx.
    + subst x. destruct (IH (S i) (ctx ++ [(d, pos)]) (pos + 1)%Z rng1 ltac:(lia)) as (a & bonus & rng' & Hloop & Ha & Halone).
      { intros k Hk. specialize (Hm (S k) ltac:(lia)). rewrite Nat.add_succ_r in Hm. cbn [Nat.add]. rewrite Hm. cbn. by rewrite <- app_assoc. }
      exists (S a), bonus, rng'. rewrite Hloop. split; [do 3 f_equal; lia|]. split; [lia|]. cbn [sample_alone] in *. rewrite Hd. rewrite Halone. done.
    + exists 0, x, rng1. rewrite Nat.add_0_r. split; [done|]. split; [lia|]. cbn. by rewrite Hd.
Qed.

(** A draw that only looks at the row accepts what agrees with its picks. *)
Lemma chain_loop_pick {E} draw pick vocab (f : nat → list f32) N : (∀ row rng, draw row rng = (pick row, rng)) → (∀ s, length (f s) = vocab) → ∀ (drafts : list Z) i rng, i + length drafts < N →
  let a := agree drafts (drop i ((λ s, pick (f s)) <$> seq 0 N)) in
  chain_loop (E := E) draw (concat (f <$> seq 0 N)) vocab i drafts rng = Ok (i + a, pick (f (i + a)), rng).
Proof.
  intros Hg Hf. induction drafts as [|d drafts IH]; intros i rng Hi; cbn [length] in *; cbn [chain_loop]; rewrite (logits_row_exact f) by (done || lia); cbn [mbind result_bind];
    rewrite Hg; [cbn; by rewrite Nat.add_0_r|].
  assert (((λ s, pick (f s)) <$> seq 0 N) !! i = Some (pick (f i))) as Hp by (by rewrite list_lookup_fmap, lookup_seq_lt by lia). unfold Spec.token in *. rewrite (drop_S _ _ _ Hp). cbn [agree]. unfold Spec.token.
  rewrite (bool_decide_ext (pick (f i) = d) (d = pick (f i))) by (split; congruence). case_bool_decide; [|by rewrite Nat.add_0_r].
  rewrite IH by lia. by rewrite !Nat.add_succ_r.
Qed.

(** Greedy acceptance of drafts against the picks of the rows. *)
Lemma accept_picks (pick : list f32 → Z) (f : nat → list f32) (drafts : list Z) a : a = agree drafts ((λ s, pick (f s)) <$> seq 0 (S (length drafts))) →
  accept_greedy_prefix drafts ((λ s, pick (f s)) <$> seq 0 (S (length drafts))) None = Ok (mkGreedyAccept (take a drafts ++ [pick (f a)]) a false).
Proof.
  set (picks := (λ s, pick (f s)) <$> seq 0 (S (length drafts))). intros ->. rewrite accept_exact by (unfold picks, Spec.token; rewrite length_fmap, length_seq; lia).
  assert (∀ k, k ≤ length drafts → picks !! k = Some (pick (f k))) as Hpick by (intros; unfold picks; by rewrite list_lookup_fmap, lookup_seq_lt by lia).
  pose proof (agree_le drafts picks) as Hle. unfold Spec.token in *. by rewrite (take_S_r _ _ _ (Hpick _ Hle)), agree_prefix.
Qed.

(** The sampled acceptance of a chain against the target alone, and against greedy acceptance. *)
Lemma naive_chain_exact {E} exp model vocab (drafts : list Z) context pos temp top_p top_k rng : (∀ c, length (model c) = vocab) →
  let f k := model (context ++ entries_from pos (take k drafts)) in
  let rows := f <$> seq 0 (S (length drafts)) in
  ∃ a bonus rng', naive_sample_chain (E := E) exp (concat rows) drafts vocab temp top_p top_k rng = Ok (a, bonus, rng') ∧ a ≤ length drafts ∧
    sample_alone (chain_draw exp temp top_p top_k) model (S a) context pos rng = (take a drafts ++ [bonus], rng') ∧
    (f32_lt f32_zero temp = false → rng' = rng ∧ accept_greedy_prefix drafts (argmax <$> rows) None = Ok (mkGreedyAccept (take a drafts ++ [bonus]) a false)).
Proof.
  intros Hv f rows. assert (∀ s, length (f s) = vocab) as Hf by (intros; apply Hv).
  destruct (chain_loop_exact (E := E) (chain_draw exp temp top_p top_k) model vocab f (S (length drafts)) Hf drafts 0 context pos rng ltac:(lia) ltac:(done)) as (a & bonus & rng' & Hloop & Ha & Halone).
  exists a, bonus, rng'. unfold naive_sample_chain.
  assert (length (concat rows) = (length drafts + 1) * vocab) as -> by (unfold rows; rewrite (rows_total f vocab _ Hf); lia). rewrite bool_decide_eq_true_2 by done. split_and!; try done. intros Hg.
  pose proof (chain_loop_pick (E := E) (chain_draw exp temp top_p top_k) argmax vocab f (S (length drafts)) ltac:(intros row r; unfold chain_draw; by rewrite Hg) Hf drafts 0 rng ltac:(lia)) as Hgreedy.
  cbn zeta in Hgreedy. rewrite Hloop, drop_0, !Nat.add_0_l in Hgreedy. replace (argmax <$> rows) with ((λ s, argmax (f s)) <$> seq 0 (S (length drafts))) by (unfold rows; by rewrite <- list_fmap_compose).
  apply Ok_inj in Hgreedy. simplify_eq. split; [done|]. by apply accept_picks.
Qed.

(** Verifying a chain of drafts loses nothing. When row [i] of the logits is the target
    after the context and the first [i] drafts, the sampled acceptance of a chain emits
    exactly the tokens the target would have drawn alone with the same generator, at any
    temperature and with any truncation; at temperature zero it accepts what the greedy
    acceptance of the speculator accepts. *)
Theorem chain_verify_lossless {E} exp model vocab (drafts : list Z) context pos temp top_p top_k rng : (∀ c, length (model c) = vocab) →
  let f k := model (context ++ entries_from pos (take k drafts)) in
  let rows := f <$> seq 0 (S (length drafts)) in
  ∃ a bonus rng', naive_sample_chain (E := E) exp (concat rows) drafts vocab temp top_p top_k rng = Ok (a, bonus, rng') ∧ a ≤ length drafts ∧
    sample_alone (chain_draw exp temp top_p top_k) model (S a) context pos rng = (take a drafts ++ [bonus], rng') ∧
    (f32_lt f32_zero temp = false → rng' = rng ∧ accept_greedy_prefix drafts (argmax <$> rows) None = Ok (mkGreedyAccept (take a drafts ++ [bonus]) a false)).
Proof. intros Hv. by apply naive_chain_exact. Qed.

(** A table of two draft positions, and a model that answers 1 with 6, 6 with 7 and
    anything else with 9. *)
Module Demo.
Definition tokens : list Z := [5; 6; 7; 8]%Z.
Definition log_probs : list f32 := [f32_ratio (-1) (-1); f32_ratio (-1) 0; f32_ratio (-1) (-2); f32_ratio (-3) 0].
Definition one_hot (k : nat) : list f32 := <[k := f32_one]> (replicate 10 f32_zero).
Definition model (context : list (Z * Z)) : list f32 :=
  one_hot (match fst <$> last context with Some 1%Z => 6 | Some 6%Z => 7 | _ => 9 end).
Definition tree (max_nodes : nat) : result string DdTree := build_ddtree_tree tokens log_probs 2 2 max_nodes.
Definition run : result string (list Z * Z) :=
  t ← tree 6;
  l ← linearize_tree_with_parents (E := string) t 1 100;
  match sample_verified_tree (E := string) id t (block_logits model [(3, 99)]%Z l) 10 f32_zero 0 with
  | Ok (accepted, bonus, _) => Ok (node_token t <$> accepted, bonus)
  | Err e => Err e
  | Panic => Panic
  end.
End Demo.

(** Best first: 5, its child 7, the sibling 6 and then its children. *)
Example demo_tree : (λ t, (λ n, (token n, parent_index n)) <$> nodes t) <$> (match Demo.tree 4 with Ok t => Some t | _ => None end) = Some [(5, -1); (7, 0); (6, -1); (7, 2)]%Z.
Proof. vm_compute. reflexivity. Qed.
Example demo_walk : Demo.run = Ok ([6; 7]%Z, 9%Z).
Proof. vm_compute. reflexivity. Qed.

Lemma tree_verify_lossless_witness : ∃ t l accepted bonus rng',
  build_ddtree_tree_bounded (E := string) Demo.tokens Demo.log_probs 2 2 0 6 NEG_INFINITY = Ok t ∧ linearize_tree_with_parents (E := string) t 1 100 = Ok l ∧
  sample_verified_tree (E := string) id t (block_logits Demo.model [(3, 99)]%Z l) 10 f32_one 7 = Ok (accepted, bonus, rng') ∧
  sample_alone (tree_draw id f32_one) Demo.model (S (length accepted)) [(3, 99); (1, 100)]%Z 101 7 = ((node_token t <$> accepted) ++ [bonus], rng').
Proof.
  destruct (tree_verify_lossless (E := string) id Demo.tokens Demo.log_probs 2 2 0 6 NEG_INFINITY 1 100 f32_one Demo.model [(3, 99)]%Z 10 7)
    as (t & l & accepted & bonus & rng' & H1 & H2 & H3 & H4 & _); [done|done|lia|lia|lia|lia|intros c; unfold Demo.model, Demo.one_hot; by rewrite length_insert|].
  exists t, l, accepted, bonus, rng'. split_and!; done.
Defined.

Lemma draft_tree_exact_witness : ∃ t l, build_ddtree_tree_bounded (E := string) Demo.tokens Demo.log_probs 2 2 0 4 NEG_INFINITY = Ok t ∧
  linearize_tree_with_parents (E := string) t 1 100 = Ok l ∧ length (nodes t) = 4.
Proof.
  destruct (draft_tree_exact (E := string) Demo.tokens Demo.log_probs 2 2 0 4 NEG_INFINITY 1 100) as (t & l & H1 & H2 & _ & H3 & _); [done|done|lia|lia|lia|lia|].
  exists t, l. split_and!; [done|done|by rewrite H3].
Defined.

Lemma chain_verify_lossless_witness : ∃ a bonus rng', a ≤ 2 ∧ sample_alone (chain_draw id f32_one f32_one 3) Demo.model (S a) [(1, 100)]%Z 101 7 = (take a [6; 8]%Z ++ [bonus], rng').
Proof.
  destruct (chain_verify_lossless (E := string) id Demo.model 10 [6; 8]%Z [(1, 100)]%Z 101 f32_one f32_one 3 7) as (a & bonus & rng' & _ & Ha & Hs & _);
    [intros c; unfold Demo.model, Demo.one_hot; by rewrite length_insert|]. exists a, bonus, rng'. by split.
Defined.
