(* ===== verification/DdTopk.v ===== *)
(** The most likely tokens of each draft position ([topk_from_logits] of
    src/crates/hipfire-runtime/src/ddtree.rs).

    A row is scanned once with a heap that holds the [k] greatest entries seen so far,
    smallest on top. Double-precision [exp] and [ln] are arguments. Proved here: on rows
    without a NaN the result is the [k] greatest entries in descending order, and in any
    case its tokens are distinct, as the draft tree needs. *)

From Stdlib Require Import SpecFloat.
From S2P Require Import Prelude F32 Spec DdTree DdWalk.

(** [Item]: a value and its index, and their order. *)
Definition Item : Type := f32 * nat.
Definition item_cmp (a b : Item) : comparison :=
  match default Eq (partial_cmp a.1 b.1) with Eq => Nat.compare a.2 b.2 | ord => ord end.
(** [Reverse<Item>] *)
Definition reverse_cmp (a b : Item) : comparison := item_cmp b a.

Definition gt_max (max v : f32) : f32 := if f32_lt max v then v else max.

(** One step of the scan: fill the heap, then replace its smallest entry. *)
Definition offer {E} (k : nat) (heap : list Item) (item : Item) : result E (list Item) :=
  if bool_decide (length heap < k) then Ok (item :: heap) else
  match heap_pop reverse_cmp heap with
  | None => Panic
  | Some (least, rest) => match reverse_cmp least item with Gt => Ok (item :: rest) | _ => Ok heap end
  end.
Definition scan_row {E} (k : nat) (row : list f32) : result E (list Item) :=
  try_fold (λ heap iv, offer k heap (iv.2, iv.1)) [] (enumerate row).

(** Emptying the heap, smallest first; it holds [fuel] entries at most. *)
Fixpoint drain_heap (fuel : nat) (heap : list Item) : list Item :=
  match fuel with
  | 0 => []
  | S fuel => match heap_pop reverse_cmp heap with None => [] | Some (least, rest) => least :: drain_heap fuel rest end
  end.

Section Topk.
(** [f64::exp], [f64::ln] *)
Context {E : Type} (exp ln : f64 → f64).

Definition log_z (row : list f32) : f32 :=
  let max := foldl gt_max NEG_INFINITY row in
  let sum_exp := foldl (λ s v, f64_add s (exp (as_f64 (f32_sub v max)))) f32_zero row in
  f32_add max (as_f32 (ln sum_exp)).

(** The fast path for one token. *)
Definition top1_row (row : list f32) : Z * f32 :=
  let best := foldl argmax_step (0, NEG_INFINITY) (enumerate row) in
  (Z.of_nat best.1, f32_sub best.2 (log_z row)).

Definition topk_row (k : nat) (row : list f32) : result E (list (Z * f32)) :=
  heap ← scan_row k row;
  let top_k_items := reverse (drain_heap (length heap) heap) in
  Ok ((λ item : Item, (Z.of_nat item.2, f32_sub item.1 (log_z row))) <$> top_k_items).

(** [topk_from_logits] *)
Definition topk_from_logits (logits : list f32) (rows vocab k : nat) : result E (list Z * list f32) :=
  assert (bool_decide (length logits = rows * vocab)) ;;
  assert (bool_decide (k ≤ vocab)) ;;
  if bool_decide (k = 1) then
    tops ← try_map (λ r, row ← logits_row logits vocab r; Ok [top1_row row]) (seq 0 rows);
    Ok ((concat tops).*1, (concat tops).*2)
  else
    tops ← try_map (λ r, row ← logits_row logits vocab r; topk_row k row) (seq 0 rows);
    Ok ((concat tops).*1, (concat tops).*2).
End Topk.

(** ** The scan keeps the greatest entries *)

(** The order of the items of a row without a NaN. *)
Definition item_lt (a b : Item) : Prop :=
  key_lt (f32_key a.1) (f32_key b.1) ∨ f32_key a.1 = f32_key b.1 ∧ a.2 < b.2.
Definition item_ok (a : Item) : Prop := is_nan a.1 = false.

Lemma item_lt_asym a b : item_lt a b → item_lt b a → False.
Proof. unfold item_lt. destruct (f32_key a.1) as [[a1 a2] a3], (f32_key b.1) as [[b1 b2] b3]. cbn. intros [?|[? ?]] [?|[? ?]]; simplify_eq; lia. Qed.

Lemma item_lt_trans a b c : item_lt a b → item_lt b c → item_lt a c.
Proof.
  unfold item_lt. destruct (f32_key a.1) as [[a1 a2] a3], (f32_key b.1) as [[b1 b2] b3], (f32_key c.1) as [[c1 c2] c3]. cbn.
  intros [?|[? ?]] [?|[? ?]]; simplify_eq; [left; lia|left; lia|left; lia|right; split; [done|lia]].
Qed.

Lemma item_total a b : item_lt a b ∨ (f32_key a.1 = f32_key b.1 ∧ a.2 = b.2) ∨ item_lt b a.
Proof. unfold item_lt. destruct (key_total (f32_key a.1) (f32_key b.1)) as [?|[->|?]]; [tauto| |tauto]. destruct (Nat.lt_trichotomy a.2 b.2) as [?|[?|?]]; tauto. Qed.

Lemma item_lt_between a b c : item_lt a c → item_lt a b ∨ item_lt b c.
Proof.
  intros Hac. destruct (item_total a b) as [?|[[Hk Hi]|Hba]]; [by left| |right; by eapply item_lt_trans]. right. unfold item_lt in *. by rewrite <- Hk, <- Hi.
Qed.

Lemma reverse_cmp_Gt a b : item_ok a → item_ok b → reverse_cmp a b = Gt ↔ item_lt a b.
Proof.
  intros Ha Hb. unfold reverse_cmp, item_cmp, item_lt. pose proof (partial_cmp_key b.1 a.1 Hb Ha) as Hk. destruct (partial_cmp b.1 a.1) as [[]|]; cbn; [| | |done].
  - rewrite Nat.compare_gt_iff, Hk. destruct (f32_key a.1) as [[a1 a2] a3]. cbn. split; [intros; by right|]. intros [?|[_ ?]]; [lia|done].
  - split; [done|]. destruct (f32_key a.1) as [[a1 a2] a3], (f32_key b.1) as [[b1 b2] b3]. cbn in *. intros [?|[? ?]]; simplify_eq; lia.
  - split; [by left|done].
Qed.

(** The popped item is the least. *)
Lemma pop_least h : ∀ least rest, Forall item_ok h → heap_pop reverse_cmp h = Some (least, rest) → ∀ x, x ∈ rest → ¬ item_lt x least.
Proof.
  induction h as [|a h IH]; intros least rest Hok Hpop x Hx; [done|]. apply Forall_cons in Hok as [Ha Hh]. cbn in Hpop. destruct (heap_pop reverse_cmp h) as [[b r]|] eqn:Hb; [|by simplify_eq; apply not_elem_of_nil in Hx].
  pose proof (heap_pop_Permutation _ _ _ _ Hb) as Hperm. assert (item_ok b) as Hob by (rewrite Hperm in Hh; by apply Forall_cons in Hh as [? _]). pose proof (IH b r Hh eq_refl) as Hmin.
  destruct (decide (reverse_cmp a b = Gt)) as [Hgt|Hn].
  - rewrite Hgt in Hpop. simplify_eq. apply reverse_cmp_Gt in Hgt; [|done|done]. rewrite Hperm in Hx. apply elem_of_cons in Hx as [->|Hx]; intros Hlt; [by eapply item_lt_asym|].
    apply (Hmin x Hx). by eapply item_lt_trans.
  - assert (least = b ∧ rest = a :: r) as [-> ->] by (destruct (reverse_cmp a b); by simplify_eq). apply elem_of_cons in Hx as [->|Hx]; [|by apply Hmin].
    intros Hlt. apply Hn. by apply reverse_cmp_Gt.
Qed.

(** What the heap holds after some items: as many as fit, and none less than one left out. *)
Definition kept (k : nat) (items heap dropped : list Item) : Prop :=
  items ≡ₚ heap ++ dropped ∧ length heap = Nat.min k (length items) ∧
  (Forall item_ok items → ∀ h d, h ∈ heap → d ∈ dropped → ¬ item_lt h d).

Lemma kept_drop k items heap dropped item least rest : kept k items heap dropped → heap ≡ₚ least :: rest → k ≤ length heap →
  (Forall item_ok items → ∀ x, x ∈ rest → ¬ item_lt x least) → (Forall item_ok (item :: items) → item_lt least item) →
  kept k (item :: items) (item :: rest) (least :: dropped).
Proof.
  intros (Hp & Hl & Hlt) Hh Hk Hmin Hgt. split_and!.
  - rewrite Hp, Hh. cbn. by rewrite <- Permutation_middle.
  - pose proof (Permutation_length Hp) as Hpl. pose proof (Permutation_length Hh) as Hhl. rewrite length_app in Hpl. cbn in *. lia.
  - intros Hok h d Hin Hd. specialize (Hgt Hok). apply Forall_cons in Hok as [_ Hok]. specialize (Hmin Hok). specialize (Hlt Hok).
    assert (∀ x, x ∈ least :: rest → ∀ d, d ∈ dropped → ¬ item_lt x d) as Hlt' by (intros x Hx d' Hd'; apply Hlt; [by rewrite Hh|done]).
    apply elem_of_cons in Hin as [->|Hin], Hd as [->|Hd]; [by intros ?; eapply item_lt_asym| |by apply Hmin|apply Hlt'; [by right|done]].
    intros H. apply (Hlt' least ltac:(left) d Hd). by eapply item_lt_trans.
Qed.

Lemma kept_skip k items heap dropped item least rest : kept k items heap dropped → heap ≡ₚ least :: rest → k ≤ length heap →
  (Forall item_ok items → ∀ x, x ∈ rest → ¬ item_lt x least) → (Forall item_ok (item :: items) → ¬ item_lt least item) →
  kept k (item :: items) heap (item :: dropped).
Proof.
  intros (Hp & Hl & Hlt) Hh Hk Hmin Hle. split_and!.
  - rewrite Hp. by rewrite <- Permutation_middle.
  - pose proof (Permutation_length Hp) as Hpl. rewrite length_app in Hpl. cbn in *. lia.
  - intros Hok h d Hin Hd. specialize (Hle Hok). apply Forall_cons in Hok as [_ Hok]. apply elem_of_cons in Hd as [->|Hd]; [|by apply Hlt]. intros Hhi. rewrite Hh in Hin.
    apply elem_of_cons in Hin as [->|Hin]; [done|]. destruct (item_lt_between h least item Hhi) as [?|?]; [by apply (Hmin Hok h)|done].
Qed.

Lemma offer_kept {E} k items heap dropped item : 1 ≤ k → kept k items heap dropped → ∃ heap' dropped', offer (E := E) k heap item = Ok heap' ∧ kept k (item :: items) heap' dropped'.
Proof.
  intros Hk Hkept. pose proof Hkept as (Hp & Hl & Hlt). unfold offer. case_bool_decide as Hfull.
  { exists (item :: heap), []. split; [done|]. assert (dropped = []) as -> by (apply Permutation_length in Hp; rewrite length_app in Hp; destruct dropped; [done|cbn in *; lia]). rewrite app_nil_r in Hp.
    split_and!; [by rewrite app_nil_r, Hp|cbn; apply Permutation_length in Hp; lia|]. intros _ h d _ Hd. by apply not_elem_of_nil in Hd. }
  destruct (heap_pop reverse_cmp heap) as [[least rest]|] eqn:Hpop; [|apply heap_pop_None in Hpop; subst; cbn in *; lia].
  pose proof (heap_pop_Permutation _ _ _ _ Hpop) as Hh.
  assert (Forall item_ok items → Forall item_ok heap) as Hheap by (intros Hok; rewrite Hp in Hok; by apply Forall_app in Hok as [? _]).
  assert (Forall item_ok items → ∀ x, x ∈ rest → ¬ item_lt x least) as Hmin by (intros Hok; by apply (pop_least heap); [apply Hheap|]).
  assert (Forall item_ok (item :: items) → reverse_cmp least item = Gt ↔ item_lt least item) as Hcmp.
  { intros Hok. apply Forall_cons in Hok as [Hi Hok]. apply Hheap in Hok. rewrite Hh in Hok. apply Forall_cons in Hok as [Hlo _]. by apply reverse_cmp_Gt. }
  destruct (reverse_cmp least item) eqn:Hc; [| |].
  - exists heap, (item :: dropped). split; [done|]. eapply kept_skip; [done|done|lia|done|]. intros Hok H. apply Hcmp in H; done.
  - exists heap, (item :: dropped). split; [done|]. eapply kept_skip; [done|done|lia|done|]. intros Hok H. apply Hcmp in H; done.
  - exists (item :: rest), (least :: dropped). split; [done|]. eapply kept_drop; [done|done|lia|done|]. intros Hok. by apply Hcmp.
Qed.

Definition row_items (row : list f32) : list Item := imap (λ i v, (v, i)) row.

Lemma scan_kept {E} k row : 1 ≤ k → ∃ heap dropped, scan_row (E := E) k row = Ok heap ∧ kept k (reverse (row_items row)) heap dropped.
Proof.
  intros Hk. unfold scan_row, row_items, enumerate. replace (imap (λ i v, (v, i)) row) with ((λ iv : nat * f32, (iv.2, iv.1)) <$> imap pair row) by (rewrite fmap_imap; by apply imap_ext).
  generalize (imap pair row) as l. assert (∀ (l : list (nat * f32)) items heap dropped, kept k items heap dropped →
    ∃ heap' dropped', try_fold (λ h (iv : nat * f32), offer (E := E) k h (iv.2, iv.1)) heap l = Ok heap' ∧ kept k (reverse ((λ iv : nat * f32, (iv.2, iv.1)) <$> l) ++ items) heap' dropped') as Hall.
  { induction l as [|iv l IH]; intros items heap dropped Hkept; [by exists heap, dropped|]. destruct (offer_kept (E := E) k items heap dropped (iv.2, iv.1) Hk Hkept) as (h1 & d1 & Ho & Hk1).
    destruct (IH _ _ _ Hk1) as (h2 & d2 & Hf & Hk2). exists h2, d2. rewrite try_fold_cons, Ho. cbn [mbind result_bind]. split; [done|]. rewrite fmap_cons, reverse_cons, <- app_assoc. done. }
  intros l. destruct (Hall l [] [] []) as (h & d & Hf & Hkept); [split_and!; [done|cbn; lia|intros _ h d Hh; by apply not_elem_of_nil in Hh]|]. exists h, d. split; [done|]. by rewrite app_nil_r in Hkept.
Qed.

(** Emptying the heap sorts it. *)
Lemma drain_sorted n : ∀ h, length h = n → drain_heap n h ≡ₚ h ∧ (Forall item_ok h → StronglySorted (λ a b, ¬ item_lt b a) (drain_heap n h)).
Proof.
  induction n as [|n IH]; intros h Hn; [destruct h; [split; [done|constructor]|done]|]. cbn [drain_heap]. destruct (heap_pop reverse_cmp h) as [[least rest]|] eqn:Hpop; [|apply heap_pop_None in Hpop; by subst].
  pose proof (heap_pop_Permutation _ _ _ _ Hpop) as Hp. pose proof (Permutation_length Hp) as Hl. cbn in Hl. destruct (IH rest ltac:(lia)) as [Hp' Hs]. split; [by rewrite Hp', Hp|].
  intros Hok. constructor; [apply Hs; rewrite Hp in Hok; by apply Forall_cons in Hok as [_ ?]|]. rewrite Hp'. apply Forall_forall. intros x Hx. by eapply pop_least.
Qed.

(** ** The rows of the result *)

Definition value_at (row : list f32) (t : Z) : f32 := match row !! Z.to_nat t with Some v => v | None => S754_nan end.

(** Distinct tokens of the row; without a NaN, in descending order and none below a token
    that was left out. *)
Record top_spec (row : list f32) (toks : list Z) : Prop := {
  ts_distinct : NoDup toks;
  ts_range : ∀ t, t ∈ toks → (0 ≤ t < Z.of_nat (length row))%Z;
  ts_descending : Forall (λ v, is_nan v = false) row → ∀ i j a b, i < j → toks !! i = Some a → toks !! j = Some b → f32_lt (value_at row a) (value_at row b) = false;
  ts_greatest : Forall (λ v, is_nan v = false) row → ∀ t i v, t ∈ toks → row !! i = Some v → Z.of_nat i ∉ toks → f32_lt (value_at row t) v = false }.

Lemma row_items_elem row v i : (v, i) ∈ row_items row ↔ row !! i = Some v.
Proof.
  unfold row_items. rewrite list_elem_of_lookup. split.
  - intros (j & Hj). rewrite list_lookup_imap in Hj. destruct (row !! j) eqn:E; by simplify_eq/=.
  - intros Hi. exists i. by rewrite list_lookup_imap, Hi.
Qed.

Lemma row_items_ok row : Forall (λ v, is_nan v = false) row → Forall item_ok (row_items row).
Proof. rewrite !Forall_forall. intros Hr [v i] Hin%row_items_elem. apply Hr. by eapply list_elem_of_lookup_2. Qed.

Lemma row_items_indices row : (row_items row).*2 = seq 0 (length row).
Proof.
  unfold row_items. apply list_eq. intros i. rewrite list_lookup_fmap, list_lookup_imap. destruct (row !! i) eqn:Hi; cbn.
  - apply lookup_lt_Some in Hi. by rewrite lookup_seq_lt.
  - apply lookup_ge_None in Hi. by rewrite lookup_seq_ge.
Qed.

Lemma sorted_lookup {A} (R : A → A → Prop) l : StronglySorted R l → ∀ i j a b, i < j → l !! i = Some a → l !! j = Some b → R a b.
Proof.
  induction 1 as [|x l Hl IH Hx]; intros i j a b Hij Hi Hj; [done|]. destruct j as [|j]; [lia|]. cbn in Hj. destruct i as [|i]; cbn in Hi.
  - simplify_eq. rewrite Forall_forall in Hx. apply Hx. by eapply list_elem_of_lookup_2.
  - by apply (IH i j); [lia| |].
Qed.

Lemma item_not_lt a b : item_ok a → item_ok b → ¬ item_lt a b → f32_lt a.1 b.1 = false.
Proof. intros Ha Hb Hn. destruct (f32_lt a.1 b.1) eqn:H; [|done]. apply f32_lt_key in H; [|done|done]. destruct Hn. by left. Qed.

(** A descending list of items that none left out exceeds. *)
Lemma top_spec_items row chosen dropped : row_items row ≡ₚ chosen ++ dropped →
  (Forall item_ok (row_items row) → (∀ h d, h ∈ chosen → d ∈ dropped → ¬ item_lt h d) ∧ ∀ i j a b, i < j → chosen !! i = Some a → chosen !! j = Some b → ¬ item_lt a b) →
  top_spec row ((λ item : Item, Z.of_nat item.2) <$> chosen).
Proof.
  intros Hp Hord. assert (∀ item, item ∈ chosen → row !! item.2 = Some item.1) as Hin.
  { intros [v i] Hi. apply row_items_elem. rewrite Hp. apply elem_of_app. by left. }
  assert (∀ item, item ∈ chosen → value_at row (Z.of_nat item.2) = item.1) as Hval by (intros item Hi; unfold value_at; by rewrite Nat2Z.id, (Hin item Hi)).
  assert (Forall (λ v, is_nan v = false) row → ∀ item, item ∈ chosen ++ dropped → item_ok item) as Hok.
  { intros Hr item Hi. pose proof (row_items_ok row Hr) as Ha. rewrite Forall_forall in Ha. apply Ha. by rewrite Hp. }
  split.
  - change (λ item : Item, Z.of_nat item.2) with (Z.of_nat ∘ (snd : Item → nat)). rewrite list_fmap_compose. apply NoDup_fmap_2; [intros ? ? ?; lia|].
    assert (NoDup (row_items row).*2) as Hnd by (rewrite row_items_indices; apply NoDup_seq). rewrite Hp, fmap_app in Hnd. by apply NoDup_app in Hnd as [? _].
  - intros t Ht. apply list_elem_of_fmap in Ht as (item & -> & Hi). apply Hin, lookup_lt_Some in Hi. lia.
  - intros Hr i j a b Hij Ha Hb. rewrite list_lookup_fmap in Ha, Hb. apply fmap_Some in Ha as (x & Hx & ->), Hb as (y & Hy & ->).
    pose proof (list_elem_of_lookup_2 _ _ _ Hx) as Hxin. pose proof (list_elem_of_lookup_2 _ _ _ Hy) as Hyin. rewrite !Hval by done.
    apply item_not_lt; [by apply Hok, elem_of_app; [|left]|by apply Hok, elem_of_app; [|left]|]. by apply (proj2 (Hord (row_items_ok row Hr)) i j).
  - intros Hr t i v Ht Hi Hnot. apply list_elem_of_fmap in Ht as (x & -> & Hx). rewrite Hval by done.
    assert ((v, i) ∈ chosen ++ dropped) as Hvi by (rewrite <- Hp; by apply row_items_elem). pose proof Hvi as Hvi'. apply elem_of_app in Hvi as [Hc|Hd].
    { destruct Hnot. apply list_elem_of_fmap. by exists (v, i). }
    apply (item_not_lt x (v, i)); [by apply Hok, elem_of_app; [|left]|by apply Hok|]. by apply (proj1 (Hord (row_items_ok row Hr))).
Qed.

Section TopkSound.
Context {E : Type} (exp ln : f64 → f64).

Lemma topk_row_spec k row : 1 ≤ k ≤ length row → ∃ out, topk_row (E := E) exp ln k row = Ok out ∧ length out = k ∧ top_spec row out.*1.
Proof.
  intros Hk. destruct (scan_kept (E := E) k row ltac:(lia)) as (heap & dropped & Hscan & Hp & Hl & Hlt). unfold topk_row. rewrite Hscan. cbn [mbind result_bind].
  destruct (drain_sorted (length heap) heap eq_refl) as [Hd Hs]. eexists. split; [done|].
  assert (length (row_items row) = length row) as Hlen by (unfold row_items; apply length_imap). split; [rewrite length_fmap, length_reverse, (Permutation_length Hd), Hl, length_reverse; lia|].
  rewrite <- list_fmap_compose. apply (top_spec_items row (reverse (drain_heap (length heap) heap)) dropped).
  - rewrite (reverse_Permutation (drain_heap _ _)), Hd, <- Hp. symmetry. apply reverse_Permutation.
  - intros Hok. assert (Forall item_ok (reverse (row_items row))) as Hrev by (by rewrite reverse_Permutation). split.
    + intros h d Hh Hdr. apply Hlt; [done| |done]. by rewrite <- Hd, <- (reverse_Permutation (drain_heap _ _)).
    + assert (Forall item_ok heap) as Hheap by (rewrite Hp in Hrev; by apply Forall_app in Hrev as [? _]). specialize (Hs Hheap). intros i j a b Hij Ha Hb.
      apply reverse_lookup_Some in Ha as [Ha Hai], Hb as [Hb Hbi]. eapply (sorted_lookup _ _ Hs); [|done|done]. lia.
Qed.

Lemma argmax_fold (items : list (nat * f32)) : ∀ best, Forall (λ iv : nat * f32, is_nan iv.2 = false) items → is_nan best.2 = false →
  let r := foldl argmax_step best items in (r = best ∨ r ∈ items) ∧ is_nan r.2 = false ∧ f32_lt r.2 best.2 = false ∧ ∀ iv, iv ∈ items → f32_lt r.2 iv.2 = false.
Proof.
  assert (∀ a, is_nan a = false → f32_lt a a = false) as Hrefl.
  { intros a Ha. destruct (f32_lt a a) eqn:H; [|done]. apply f32_lt_key in H; [|done|done]. destruct (f32_key a) as [[a1 a2] a3]. cbn in H. lia. }
  induction items as [|iv items IH]; intros best Hok Hb; [split_and!; [by left|done|by apply Hrefl|intros iv Hiv; by apply not_elem_of_nil in Hiv]|].
  apply Forall_cons in Hok as [Hiv Hok]. cbn [foldl].
  assert ((argmax_step best iv = iv ∧ f32_lt best.2 iv.2 = true) ∨ (argmax_step best iv = best ∧ f32_lt best.2 iv.2 = false)) as [[-> Hlt]|[-> Hlt]] by (unfold argmax_step; destruct (f32_lt best.2 iv.2); auto).
  - destruct (IH iv Hok Hiv) as (Hr & Hn & Hge & Hall). cbn zeta in *. set (r := foldl argmax_step iv items) in *. split_and!; [right; destruct Hr as [->|?]; [left|by right]|done| |].
    + destruct (f32_lt r.2 best.2) eqn:Hrb; [|done]. apply f32_lt_key in Hrb, Hlt; [|done..]. assert (f32_lt r.2 iv.2 = true); [|congruence]. apply f32_lt_key; [done|done|].
      destruct (f32_key r.2) as [[r1 r2] r3], (f32_key best.2) as [[b1 b2] b3], (f32_key iv.2) as [[i1 i2] i3]. cbn in *. lia.
    + intros x Hx. apply elem_of_cons in Hx as [->|Hx]; [done|by apply Hall].
  - destruct (IH best Hok Hb) as (Hr & Hn & Hge & Hall). cbn zeta in *. set (r := foldl argmax_step best items) in *. split_and!; [destruct Hr as [->|?]; [by left|right; by right]|done|done|].
    intros x Hx. apply elem_of_cons in Hx as [->|Hx]; [|by apply Hall]. destruct (f32_lt r.2 iv.2) eqn:Hri; [|done]. apply f32_lt_key in Hri; [|done..].
    destruct (key_total (f32_key best.2) (f32_key iv.2)) as [Hbi|Hbi]; [assert (f32_lt best.2 iv.2 = true) by (by apply f32_lt_key); congruence|].
    assert (f32_lt r.2 best.2 = true); [|congruence]. apply f32_lt_key; [done|done|].
    destruct (f32_key r.2) as [[r1 r2] r3], (f32_key best.2) as [[b1 b2] b3], (f32_key iv.2) as [[i1 i2] i3]. cbn in *. destruct Hbi as [?|?]; simplify_eq; lia.
Qed.

Lemma argmax_mem (items : list (nat * f32)) best : foldl argmax_step best items = best ∨ foldl argmax_step best items ∈ items.
Proof.
  revert best. induction items as [|iv items IH]; intros best; [by left|]. cbn [foldl]. destruct (IH (argmax_step best iv)) as [->|?]; [|right; by right].
  unfold argmax_step. destruct (f32_lt best.2 iv.2); [right; left|by left].
Qed.

Lemma enumerate_elem (row : list f32) iv : iv ∈ enumerate row ↔ row !! iv.1 = Some iv.2.
Proof.
  unfold enumerate. rewrite list_elem_of_lookup. destruct iv as [i v]. cbn. split.
  - intros (j & Hj). rewrite list_lookup_imap in Hj. destruct (row !! j) eqn:Hr; by simplify_eq/=.
  - intros Hi. exists i. by rewrite list_lookup_imap, Hi.
Qed.

Lemma top1_row_spec row : 1 ≤ length row → top_spec row [(top1_row exp ln row).1].
Proof.
  intros Hlen. unfold top1_row. cbn [fst]. set (r := foldl argmax_step (0, NEG_INFINITY) (enumerate row)). pose proof (argmax_mem (enumerate row) (0, NEG_INFINITY)) as Hmem. fold r in Hmem. split.
  - apply NoDup_singleton.
  - intros t ->%list_elem_of_singleton. destruct Hmem as [->|Hr%enumerate_elem%lookup_lt_Some]; cbn; lia.
  - intros _ i j a b Hij Hi Hj. apply list_lookup_singleton_Some in Hi as [-> _], Hj as [-> _]. lia.
  - intros Hok t i v ->%list_elem_of_singleton Hi _. assert (Forall (λ iv : nat * f32, is_nan iv.2 = false) (enumerate row)) as Hitems.
    { apply Forall_forall. intros iv Hiv%enumerate_elem. rewrite Forall_forall in Hok. apply Hok. by eapply list_elem_of_lookup_2. }
    destruct (argmax_fold (enumerate row) (0, NEG_INFINITY) Hitems eq_refl) as (_ & Hn & _ & Hall). cbn zeta in *. fold r in Hn, Hall.
    pose proof (Hall (i, v) ltac:(by apply enumerate_elem)) as Hv. cbn in Hv. unfold value_at. rewrite Nat2Z.id. destruct Hmem as [Hr|Hr%enumerate_elem]; [|by rewrite Hr].
    rewrite Hr in *. cbn [fst snd] in *. destruct (lookup_lt_is_Some_2 row 0 ltac:(lia)) as [v0 H0]. rewrite H0.
    rewrite Forall_forall in Hok. pose proof (Hok v ltac:(by eapply list_elem_of_lookup_2)) as Hvn. destruct v as [|[]| |[]]; try done; by destruct v0 as [|[]| |[]].
Qed.

Lemma try_map_exists {A B} (f : A → result E B) (P : A → B → Prop) l : (∀ x, x ∈ l → ∃ y, f x = Ok y ∧ P x y) → ∃ ys, try_map f l = Ok ys ∧ Forall2 P l ys.
Proof.
  induction l as [|x l IH]; intros Hf; [exists []; by split|]. destruct (Hf x ltac:(left)) as (y & Hy & HP), IH as (ys & Hys & HPs); [intros; apply Hf; by right|].
  exists (y :: ys). cbn. rewrite Hy, Hys. split; [done|by constructor].
Qed.

(** The rows of a flat table. *)
Definition row_of (logits : list f32) (vocab r : nat) : list f32 := take vocab (drop (r * vocab) logits).
Definition row_ok (logits : list f32) (vocab k r : nat) (out : list (Z * f32)) : Prop := length out = k ∧ top_spec (row_of logits vocab r) out.*1.

Lemma tops_exist logits rows vocab k : length logits = rows * vocab → 1 ≤ k ≤ vocab →
  ∃ tops, topk_from_logits (E := E) exp ln logits rows vocab k = Ok ((concat tops).*1, (concat tops).*2) ∧ Forall2 (row_ok logits vocab k) (seq 0 rows) tops.
Proof.
  intros Hlen Hk. unfold topk_from_logits. rewrite (bool_decide_eq_true_2 (length logits = rows * vocab)), (bool_decide_eq_true_2 (k ≤ vocab)) by lia. cbn [assert mbind result_bind].
  assert (∀ r, r ∈ seq 0 rows → logits_row (E := E) logits vocab r = Ok (row_of logits vocab r) ∧ length (row_of logits vocab r) = vocab) as Hrow.
  { intros r Hr%elem_of_seq. unfold logits_row, row_of. rewrite bool_decide_eq_true_2 by nia. split; [done|]. rewrite length_take, length_drop. nia. }
  case_bool_decide as H1.
  - subst k. destruct (try_map_exists (λ r, row ← logits_row logits vocab r; Ok [top1_row exp ln row]) (row_ok logits vocab 1) (seq 0 rows)) as (tops & -> & HP); [|by exists tops].
    intros r Hr. destruct (Hrow r Hr) as [-> Hl]. eexists. split; [done|]. split; [done|]. apply top1_row_spec. lia.
  - destruct (try_map_exists (λ r, row ← logits_row logits vocab r; topk_row exp ln k row) (row_ok logits vocab k) (seq 0 rows)) as (tops & -> & HP); [|by exists tops].
    intros r Hr. destruct (Hrow r Hr) as [-> Hl]. cbn [mbind result_bind]. apply topk_row_spec. lia.
Qed.
End TopkSound.

Lemma concat_fst {A B} (l : list (list (A * B))) : (concat l).*1 = concat ((λ x : list (A * B), x.*1) <$> l).
Proof. induction l as [|x l IH]; [done|]. cbn. by rewrite fmap_app, IH. Qed.

(** The whole table. *)
Lemma topk_table {E} exp ln logits rows vocab k : length logits = rows * vocab → 1 ≤ k ≤ vocab →
  ∃ top_tokens top_log_probs, topk_from_logits (E := E) exp ln logits rows vocab k = Ok (top_tokens, top_log_probs) ∧
    length top_tokens = rows * k ∧ length top_log_probs = rows * k ∧ rows_distinct top_tokens rows k ∧
    ∀ r, r < rows → top_spec (row_of logits vocab r) (take k (drop (r * k) top_tokens)).
Proof.
  intros Hlen Hk. destruct (tops_exist (E := E) exp ln logits rows vocab k Hlen Hk) as (tops & -> & HP). eexists _, _. split; [done|].
  assert (Forall (λ out : list Z, length out = k) ((λ x : list (Z * f32), x.*1) <$> tops)) as Hls.
  { apply Forall_fmap. clear - HP. induction HP as [|r out l tops [Hl _] _ IH]; [constructor|]. constructor; [cbn; by rewrite length_fmap|done]. }
  pose proof (Forall2_length _ _ _ HP) as Hrows. rewrite length_seq in Hrows.
  assert (length (concat tops) = rows * k) as Htot.
  { rewrite Hrows. clear - HP. induction HP as [|r out l tops [Hl _] _ IH]; [done|]. cbn. rewrite length_app, IH, Hl. lia. }
  rewrite !length_fmap, concat_fst. split; [done|]. split; [done|].
  assert (∀ r, r < rows → ∃ out, ((λ x : list (Z * f32), x.*1) <$> tops) !! r = Some out ∧ length out = k ∧ top_spec (row_of logits vocab r) out) as Hout.
  { intros r Hr. destruct (lookup_lt_is_Some_2 tops r ltac:(lia)) as [out Ho]. exists out.*1. rewrite list_lookup_fmap, Ho. split; [done|].
    destruct (Forall2_lookup_r _ _ _ _ _ HP Ho) as (r' & Hr' & Hl & Hs). apply lookup_seq in Hr' as [-> _]. by rewrite length_fmap. }
  split.
  - intros d r r' Hd Hr Hr' Heq. destruct (Hout (d - 1) ltac:(lia)) as (out & Ho & Hol & Hs). rewrite !(concat_slice_lookup k _ (d - 1) out) in Heq by done.
    destruct (lookup_lt_is_Some_2 out r ltac:(lia)) as [x Hx]. rewrite Hx in Heq. by apply (NoDup_lookup out r r' x (ts_distinct _ _ Hs)).
  - intros r Hr. destruct (Hout r Hr) as (out & Ho & _ & Hs). by destruct (concat_slice k _ Hls r out Ho) as [-> _].
Qed.

(** The table of drafts holds the most likely tokens. For any logits of the right size
    and any width up to the vocabulary, the selection succeeds, its tokens are distinct at
    each position, which is what makes the child maps of the tree exact, and on a row
    without a NaN they come in descending order and no token left out exceeds one of them. *)
Theorem topk_exact {E} exp ln logits rows vocab k : length logits = rows * vocab → 1 ≤ k ≤ vocab →
  ∃ top_tokens top_log_probs, topk_from_logits (E := E) exp ln logits rows vocab k = Ok (top_tokens, top_log_probs) ∧
    length top_tokens = rows * k ∧ length top_log_probs = rows * k ∧ rows_distinct top_tokens rows k ∧
    ∀ r, r < rows → top_spec (row_of logits vocab r) (take k (drop (r * k) top_tokens)).
Proof. apply topk_table. Qed.

Lemma topk_exact_witness : ∃ top_tokens top_log_probs, topk_from_logits (E := string) id id [f32_zero; f32_one; f32_one; f32_zero] 2 2 2 = Ok (top_tokens, top_log_probs) ∧ rows_distinct top_tokens 2 2.
Proof.
  destruct (topk_exact (E := string) id id [f32_zero; f32_one; f32_one; f32_zero] 2 2 2 eq_refl ltac:(lia)) as (tt & lp & H1 & _ & _ & H2 & _). exists tt, lp. by split.
Defined.
