(* ===== verification/DdSwor.v ===== *)
(** Sampling without replacement over a draft tree (src/crates/hipfire-runtime/src/ddtree.rs).

    At a temperature above zero the tree may be walked with the recursive rejection rule:
    the candidates of a position, drawn without replacement from the draft's distribution,
    are accepted or rejected in turn, and the residual of the target is drawn when all are
    rejected. Proved here: the walk ends along a path of the tree and, at temperature zero
    and below, is the greedy walk. That its tokens are distributed like the target's is a
    statement about real numbers and is not proved. *)

From Stdlib Require Import SpecFloat.
From S2P Require Import Prelude F32 Spec DdTree DdWalk.

(** The literals [1e-4] and [1e-9]. *)
Definition MIN_TEMP : f32 := S754_finite false 13743895 (-37).
Definition MIN_MASS : f32 := S754_finite false 9007199 (-53).

(** The index a uniform draw selects: the first whose cumulative weight exceeds it. *)
Fixpoint pick_weight (u acc : f32) (i : nat) (w : list f32) : option nat :=
  match w with
  | [] => None
  | v :: w => let acc := f32_add acc v in if f32_lt u acc then Some i else pick_weight u acc (S i) w
  end.

(** [k] tokens drawn in turn from the residual [qr]. *)
Fixpoint draw_candidates (k : nat) (qr : list f32) (rng_state : Z) : list Z * Z :=
  match k with
  | 0 => ([], rng_state)
  | S k =>
      let s := foldl f32_add f32_zero qr in
      if f32_le s f32_zero then let '(rest, rng_state) := draw_candidates k qr rng_state in (0%Z :: rest, rng_state) else
      let '(u, rng_state) := xorshift_unit rng_state in
      let pick := default (length qr - 1) (pick_weight (f32_mul u s) f32_zero 0 qr) in
      let '(rest, rng_state) := draw_candidates k (<[pick := f32_zero]> qr) rng_state in
      (Z.of_nat pick :: rest, rng_state)
  end.

Section Swor.
Context {E : Type} (exp : f32 → f32).

(** One position of [swor_draft_candidates]. *)
Definition position_candidates (draft_logits : list f32) (vocab k : nat) (temp : f32) (acc : list f32 * list Z * Z) (pos : nat) : result E (list f32 * list Z * Z) :=
  let '(draft_q, pos_cands, rng_state) := acc in
  row ← logits_row draft_logits vocab pos;
  let q := softmax_temp_into exp row (f32_max temp MIN_TEMP) in
  let '(cands, rng_state) := draw_candidates k q rng_state in
  Ok (draft_q ++ q, pos_cands ++ cands, rng_state).
Definition swor_draft_candidates (draft_logits : list f32) (num_pos vocab k : nat) (temp : f32) (rng_state : Z) : result E (list f32 * list Z * Z) :=
  assert (bool_decide (length draft_logits = num_pos * vocab)) ;;
  try_fold (position_candidates draft_logits vocab k temp) ([], [], rng_state) (seq 0 num_pos).

(** The residual of the target after a rejection. *)
Definition residual (p q : list f32) (drawn : list Z) (z : f32) : list f32 :=
  let p := imap (λ t pv, if bool_decide (Z.of_nat t ∈ drawn) then pv else f32_max (f32_sub pv (f32_div (prob_at q t) z)) f32_zero) p in
  let s := foldl f32_add f32_zero p in
  if f32_lt f32_zero s then (λ pv, f32_div pv s) <$> p else p.

(** [swor_step]: the accepted candidate, if any, and the token to emit otherwise. *)
Fixpoint swor_step (p q : list f32) (cands drawn : list Z) (drawn_q_sum : f32) (rng_state : Z) : option Z * Z * Z :=
  match cands with
  | [] => let '(u, rng_state) := xorshift_unit rng_state in (None, sample_unnormalized p u, rng_state)
  | c :: cands =>
      let ct := Z.to_nat c in
      if bool_decide (length p ≤ ct) then swor_step p q cands drawn drawn_q_sum rng_state else
      let z := f32_max (f32_sub f32_one drawn_q_sum) MIN_MASS in
      let qjc := f32_clamp f32_zero f32_one (f32_div (prob_at q ct) z) in
      let ratio := if f32_lt f32_zero qjc then f32_min (f32_div (prob_at p ct) qjc) f32_one else f32_zero in
      let '(u, rng_state) := xorshift_unit rng_state in
      if f32_lt f32_zero (prob_at p ct) && f32_lt u ratio then (Some c, c, rng_state) else
      swor_step (residual p q drawn z) q cands (drawn ++ [c]) (f32_add drawn_q_sum (prob_at q ct)) rng_state
  end.

(** [&v[i..i + len]] *)
Definition sub_slice {A} (l : list A) (i len : nat) : result E (list A) :=
  if bool_decide (i + len ≤ length l) then Ok (take len (drop i l)) else Panic.

(** The loop of [sample_verified_tree_swor]. *)
Fixpoint swor_loop (t : DdTree) (target_logits draft_q : list f32) (pos_cands : list Z) (num_pos k vocab : nat) (temp : f32)
    (fuel slot : nat) (accepted : list nat) (rng_state : Z) : result E (list nat * Z * Z) :=
  match fuel with
  | 0 => Panic
  | S fuel =>
      depth ← match slot with 0 => Ok 0 | S i => node ← index (nodes t) i; Ok (Z.to_nat (node_depth node)) end;
      row ← logits_row target_logits vocab slot;
      let p := softmax_temp_into exp row temp in
      if bool_decide (num_pos ≤ depth) then let '(u, rng_state) := xorshift_unit rng_state in Ok (accepted, sample_unnormalized p u, rng_state) else
      q_pos ← logits_row draft_q vocab depth;
      cands ← sub_slice pos_cands (depth * k) k;
      match swor_step p q_pos cands [] f32_zero rng_state with
      | (Some c, _, rng_state) =>
          children ← index (child_maps t) slot;
          match children !! c with
          | Some child_idx => swor_loop t target_logits draft_q pos_cands num_pos k vocab temp fuel (S child_idx) (accepted ++ [child_idx]) rng_state
          | None => Ok (accepted, c, rng_state)
          end
      | (None, emit, rng_state) => Ok (accepted, emit, rng_state)
      end
  end.

(** [sample_verified_tree_swor] *)
Definition sample_verified_tree_swor (t : DdTree) (target_logits draft_q : list f32) (pos_cands : list Z) (num_pos k vocab : nat) (temp : f32) (rng_state : Z)
    : result E (list nat * Z * Z) :=
  let n_slots := 1 + length (nodes t) in
  assert (bool_decide (length target_logits = n_slots * vocab)) ;;
  if f32_le temp f32_zero then
    posterior ← try_map (λ s, row ← logits_row target_logits vocab s; Ok (argmax row)) (seq 0 n_slots);
    walk ← follow_verified_tree t posterior;
    Ok (walk, rng_state)
  else swor_loop t target_logits draft_q pos_cands num_pos k vocab temp n_slots 0 [] rng_state.
End Swor.

(** ** The walk ends on a path of the tree *)

Lemma softmax_length exp row temp : length (softmax_temp_into exp row temp) = length row.
Proof. unfold softmax_temp_into. by rewrite !length_fmap. Qed.

Lemma draw_candidates_length k : ∀ qr rng, length (draw_candidates k qr rng).1 = k.
Proof.
  induction k as [|k IH]; intros qr rng; [done|]. cbn [draw_candidates]. destruct (f32_le _ f32_zero).
  - specialize (IH qr rng). destruct (draw_candidates k qr rng) as [rest r]. cbn in *. by rewrite IH.
  - destruct (xorshift_unit rng) as [u rng1]. specialize (IH (<[default (length qr - 1) (pick_weight (f32_mul u (foldl f32_add f32_zero qr)) f32_zero 0 qr) := f32_zero]> qr) rng1).
    destruct (draw_candidates k _ rng1) as [rest r]. cbn in *. by rewrite IH.
Qed.

Lemma logits_row_Ok {E} logits vocab n i : length logits = n * vocab → i < n → ∃ row, logits_row (E := E) logits vocab i = Ok row ∧ length row = vocab.
Proof.
  intros Hl Hi. unfold logits_row. rewrite bool_decide_eq_true_2 by nia. eexists. split; [done|]. rewrite length_take, length_drop. nia.
Qed.

(** The candidates of every position, and its distribution. *)
Lemma candidates_exact {E} exp draft_logits num_pos vocab k temp rng : length draft_logits = num_pos * vocab →
  ∃ draft_q pos_cands rng', swor_draft_candidates (E := E) exp draft_logits num_pos vocab k temp rng = Ok (draft_q, pos_cands, rng') ∧
    length draft_q = num_pos * vocab ∧ length pos_cands = num_pos * k.
Proof.
  intros Hl. unfold swor_draft_candidates. rewrite bool_decide_eq_true_2 by done. cbn [assert mbind result_bind].
  destruct (try_fold_total (λ (d : list nat) (acc : list f32 * list Z * Z), length acc.1.1 = length d * vocab ∧ length acc.1.2 = length d * k) (position_candidates (E := E) exp draft_logits vocab k temp) (seq 0 num_pos) [] ([], [], rng))
    as ([[dq pc] rng'] & Hf & H1 & H2); [done| |cbn in *; rewrite length_seq in *; by exists dq, pc, rng'].
  intros d pos r [[dq pc] rng1] Heq [H1 H2]. cbn in Heq, H1, H2. unfold position_candidates. destruct (logits_row_Ok (E := E) draft_logits vocab num_pos pos Hl) as (row & -> & Hrow).
  { assert (pos ∈ seq 0 num_pos) as Hin%elem_of_seq by (rewrite Heq; apply elem_of_app; right; left). lia. }
  cbn [mbind result_bind]. set (q := softmax_temp_into exp row (f32_max temp MIN_TEMP)). assert (length q = vocab) as Hq by (unfold q; by rewrite softmax_length).
  pose proof (draw_candidates_length k q rng1) as Hc. destruct (draw_candidates k q rng1) as [cands rng2]. cbn in Hc.
  eexists. split; [done|]. cbn. rewrite !length_app, H1, H2, Hq, Hc. cbn. split; lia.
Qed.

Section SworSound.
Context {E : Type} (t : DdTree) (Ht : tree_wf t).

(** Descending to a child extends the path. *)
Lemma child_step s m x child c : child_maps t !! s = Some m → m !! x = Some child → slot_chain (nodes t) s c →
  slot_chain (nodes t) (S child) (c ++ [S child]) ∧ S child ≤ length (nodes t) ∧ s < S child.
Proof.
  intros Hm Hx Hc. destruct (tw_sound _ Ht _ _ _ _ Hm Hx) as (n & Hn & _ & Hps). pose proof (lookup_lt_Some _ _ _ Hn). destruct (tw_nodes _ Ht child n Hn) as [Hp _].
  pose proof (parent_slot_le _ _ Hp). split; [econstructor; [done|by rewrite Hps]|lia].
Qed.

Lemma last_slot_cons s child acc : last_slot s (child :: acc) = last_slot (S child) acc.
Proof. unfold last_slot. rewrite !fmap_cons, last_cons. by destruct (last (S <$> acc)). Qed.

Lemma follow_path posterior : length posterior = S (length (nodes t)) → ∀ fuel s c acc x, slot_chain (nodes t) s c → s ≤ length (nodes t) → length (nodes t) < fuel + s →
  ∃ acc' bonus, follow_loop (E := E) t posterior fuel s x acc = Ok (acc ++ acc', bonus) ∧ slot_chain (nodes t) (last_slot s acc') (c ++ (S <$> acc')).
Proof.
  intros Hlen. induction fuel as [|fuel IH]; intros s c acc x Hc Hs Hf; [lia|]. cbn [follow_loop]. destruct (lookup_lt_is_Some_2 (child_maps t) s) as [m Hm]; [rewrite (tw_maps _ Ht); lia|].
  unfold index. rewrite Hm. cbn [mbind result_bind]. destruct (m !! x) as [child|] eqn:Hx; [|exists [], x; rewrite !app_nil_r; done].
  destruct (child_step s m x child c Hm Hx Hc) as (Hc' & Hle & Hlt). rewrite bool_decide_eq_false_2 by lia.
  destruct (lookup_lt_is_Some_2 posterior (S child) ltac:(lia)) as [y Hy]. rewrite Hy. cbn [mbind result_bind].
  destruct (IH (S child) (c ++ [S child]) (acc ++ [child]) y Hc' Hle ltac:(lia)) as (acc' & bonus & -> & Hch). exists (child :: acc'), bonus.
  rewrite <- app_assoc in Hch |- *. by rewrite last_slot_cons.
Qed.

Lemma swor_path exp target_logits draft_q pos_cands num_pos k vocab temp : length target_logits = S (length (nodes t)) * vocab → length draft_q = num_pos * vocab → length pos_cands = num_pos * k →
  ∀ fuel s c acc rng, slot_chain (nodes t) s c → s ≤ length (nodes t) → length (nodes t) < fuel + s →
  ∃ acc' bonus rng', swor_loop (E := E) exp t target_logits draft_q pos_cands num_pos k vocab temp fuel s acc rng = Ok (acc ++ acc', bonus, rng') ∧
    slot_chain (nodes t) (last_slot s acc') (c ++ (S <$> acc')).
Proof.
  intros Hl Hq Hpc. induction fuel as [|fuel IH]; intros s c acc rng Hc Hs Hf; [lia|]. cbn [swor_loop].
  assert (∃ depth, match s with 0 => Ok 0 | S i => node ← index (E := E) (nodes t) i; Ok (Z.to_nat (node_depth node)) end = Ok depth) as (depth & ->).
  { destruct s as [|i]; [by exists 0|]. destruct (lookup_lt_is_Some_2 (nodes t) i ltac:(lia)) as [n Hn]. unfold index. rewrite Hn. by eexists. }
  cbn [mbind result_bind]. destruct (logits_row_Ok (E := E) target_logits vocab _ s Hl ltac:(lia)) as (row & -> & _). cbn [mbind result_bind]. case_bool_decide as Hd.
  { destruct (xorshift_unit rng) as [u rng']. eexists [], _, rng'. by rewrite !app_nil_r. }
  destruct (logits_row_Ok (E := E) draft_q vocab num_pos depth Hq ltac:(lia)) as (q & -> & _). unfold sub_slice. rewrite bool_decide_eq_true_2 by nia. cbn [mbind result_bind].
  destruct (swor_step _ _ _ _ _ _) as [[[x|] emit] rng1]; [|by eexists [], emit, rng1; rewrite !app_nil_r].
  destruct (lookup_lt_is_Some_2 (child_maps t) s) as [m Hm]; [rewrite (tw_maps _ Ht); lia|]. unfold index. rewrite Hm. cbn [mbind result_bind].
  destruct (m !! x) as [child|] eqn:Hx; [|by exists [], x, rng1; rewrite !app_nil_r]. destruct (child_step s m x child c Hm Hx Hc) as (Hc' & Hle & Hlt).
  destruct (IH (S child) (c ++ [S child]) (acc ++ [child]) rng1 Hc' Hle ltac:(lia)) as (acc' & bonus & rng' & -> & Hch). exists (child :: acc'), bonus, rng'.
  rewrite <- app_assoc in Hch |- *. by rewrite last_slot_cons.
Qed.

(** The walk without replacement ends on a path from the root. *)
Lemma swor_walk_path exp target_logits draft_q pos_cands num_pos k vocab temp rng : length target_logits = S (length (nodes t)) * vocab →
  length draft_q = num_pos * vocab → length pos_cands = num_pos * k →
  ∃ accepted bonus rng', sample_verified_tree_swor (E := E) exp t target_logits draft_q pos_cands num_pos k vocab temp rng = Ok (accepted, bonus, rng') ∧
    slot_chain (nodes t) (last_slot 0 accepted) (0 :: (S <$> accepted)).
Proof.
  intros Hl Hq Hpc. unfold sample_verified_tree_swor. rewrite bool_decide_eq_true_2 by done. cbn [assert mbind result_bind]. destruct (f32_le temp f32_zero).
  - destruct (try_map_Ok (λ s, row ← logits_row (E := E) target_logits vocab s; Ok (argmax row)) (seq 0 (1 + length (nodes t))) ((λ s, match logits_row (E := E) target_logits vocab s with Ok row => argmax row | _ => 0%Z end) <$> seq 0 (1 + length (nodes t)))) as [_ ->].
    2: { apply Forall2_fmap_r, Forall_Forall2_diag, Forall_forall. intros s Hs%elem_of_seq. unfold compose. destruct (logits_row_Ok (E := E) target_logits vocab _ s Hl ltac:(lia)) as (row & -> & _). done. }
    cbn [mbind result_bind]. unfold follow_verified_tree. rewrite bool_decide_eq_true_2 by (by rewrite length_fmap, length_seq). cbn [assert mbind result_bind].
    set (posterior := _ <$> _). destruct (lookup_lt_is_Some_2 posterior 0) as [x Hx]; [unfold posterior; rewrite length_fmap, length_seq; lia|]. unfold index. rewrite Hx. cbn [mbind result_bind].
    destruct (follow_path posterior ltac:(unfold posterior; by rewrite length_fmap, length_seq) (1 + length (nodes t)) 0 [0] [] x (chain_root _) ltac:(lia) ltac:(lia)) as (acc & bonus & -> & Hch).
    by exists acc, bonus, rng.
  - by apply (swor_path exp target_logits draft_q pos_cands num_pos k vocab temp Hl Hq Hpc (1 + length (nodes t)) 0 [0] [] rng (chain_root _) ltac:(lia) ltac:(lia)).
Qed.
End SworSound.
