(* ===== verification/Dflash.v ===== *)
(** The block-diffusion speculator (src/crates/hipfire-runtime/src/dflash_generic.rs).

    A small draft model proposes a block of tokens from the hidden rows of the target, the
    target verifies them as a chain or as a tree, and the accepted prefix is committed to
    the target's cache and to the host copy of its hidden rows. The draft model and the
    target run on the device; they are the classes [DraftModel] and [DflashTarget], and
    what the interface documents about the target is the class [DflashContract]: each
    physical slot of its cache is described by the tokens it was computed from.

    Proved here: a step leaves cache and hidden rows as if the committed tokens had been
    processed one by one, whichever arm verified them, does not panic, stays within the
    output budget, and emits what the target would have drawn alone. *)

From Stdlib Require Import SpecFloat.
From S2P Require Import Prelude F32 Spec DdTree DdWalk DdTopk DdSwor.

(** ** Configuration *)

Definition DEFAULT_TREE_BUDGET : nat := 8.
Definition DEFAULT_TREE_TOPK : nat := 2.

(** The flags of [FeatureFlags] this component reads. *)
Record FeatureFlags := mkFeatureFlags { dflash_tree : bool; ddtree_budget : option nat; ddtree_topk : option nat }.

Definition clamped_tree_budget (flags : FeatureFlags) : nat :=
  Nat.max 1 (Nat.min (default DEFAULT_TREE_BUDGET (ddtree_budget flags)) (PREFILL_MAX_BATCH - 1)).
Definition dense_tree_verify_nodes (flags : FeatureFlags) : nat :=
  if dflash_tree flags then clamped_tree_budget flags + 1 else 0.

Record TreeMode := mkTreeMode { tree_enabled : bool; tree_budget : nat; tree_topk : nat }.
(** [TreeMode::from_flags] *)
Definition TreeMode_from_flags (flags : FeatureFlags) : TreeMode :=
  mkTreeMode (dflash_tree flags) (clamped_tree_budget flags) (default DEFAULT_TREE_TOPK (ddtree_topk flags)).

(** The fields of [DflashConfig] this component reads. *)
Record DflashConfig := mkDflashConfig { hidden : nat; vocab_size : nat; cfg_block_size : nat; mask_token_id : Z; target_layer_ids : list nat }.
Definition num_extract (c : DflashConfig) : nat := length (target_layer_ids c).

(** ** The device *)

(** The kernels of the draft over its weights and buffers: what [draft_forward] runs after
    its checks, with the final hidden rows as the answer. *)
Class DraftModel (W : Type) := {
  draft_kernels : W → list f32 → list f32 → list Z → list Z → nat → nat → result string (list f32) * W;
  reset_device_tracking : W → W }.

(** The fields of [DflashScratch] the checks read, and its device side. *)
Record DflashScratch (W : Type) := mkDflashScratch { max_block_size : nat; max_ctx_len : nat; draft_device : W }.
Arguments mkDflashScratch {_}.
Arguments max_block_size {_}.
Arguments max_ctx_len {_}.
Arguments draft_device {_}.

(** The assertions at the head of [draft_forward_opts]. *)
Definition draft_checks {W} (cfg : DflashConfig) (scratch : DflashScratch W) (noise_embedding target_hidden : list f32)
    (positions_q positions_k : list Z) (block_size ctx_len : nat) : result string unit :=
  assert (bool_decide (block_size ≤ max_block_size scratch)) ;;
  assert (bool_decide (ctx_len ≤ max_ctx_len scratch)) ;;
  assert (bool_decide (length noise_embedding = block_size * hidden cfg)) ;;
  assert (bool_decide (length target_hidden = ctx_len * num_extract cfg * hidden cfg)) ;;
  assert (bool_decide (length positions_q = block_size)) ;;
  assert (bool_decide (length positions_k = ctx_len + block_size)).

Definition draft_forward `{!DraftModel W} (cfg : DflashConfig) (scratch : DflashScratch W) (noise_embedding target_hidden : list f32)
    (positions_q positions_k : list Z) (block_size ctx_len : nat) : result string (list f32) * DflashScratch W :=
  match draft_checks cfg scratch noise_embedding target_hidden positions_q positions_k block_size ctx_len with
  | Ok _ =>
      let '(r, device) := draft_kernels (draft_device scratch) noise_embedding target_hidden positions_q positions_k block_size ctx_len in
      (r, mkDflashScratch (max_block_size scratch) (max_ctx_len scratch) device)
  | Err e => (Err e, scratch)
  | Panic => (Panic, scratch)
  end.

(** [DflashScratch::reset_upload_tracking] *)
Definition reset_upload_tracking `{!DraftModel W} (scratch : DflashScratch W) : DflashScratch W :=
  mkDflashScratch (max_block_size scratch) (max_ctx_len scratch) (reset_device_tracking (draft_device scratch)).

(** The operations of [SpecTarget] a hidden-conditioned drafter calls. Calls with
    [hidden_out] return the rows they append; [spec_advance] may append on failure too. *)
Class DflashTarget (T S : Type) := {
  dt_extract_layers : T → list nat;
  dt_advance : T → list Z → nat → bool → result string SpecAdvance * (T * list f32);
  dt_verify_block : T → S → list Z → nat → result string (list Z * list f32) * (T * S);
  dt_verify_block_logits : T → S → list Z → nat → result string (list f32 * list f32) * (T * S);
  dt_verify_tree_logits : T → S → list Z → list f32 → list Z → nat → result string (list f32 * list f32) * (T * S);
  dt_commit_prefix : T → S → list Z → nat → nat → result string unit * (T * S);
  dt_embed_row : T → Z → result string (list f32) * T;
  dt_lm_head_logits : T → list f32 → nat → result string (list f32) * T }.

Record Dflash (W S : Type) := mkDflash {
  draft_model : DflashScratch W;
  dconfig : DflashConfig;
  target_hidden_host : list f32;
  verify_scratch : option S;
  spec_block_size : nat;
  spec_ctx_capacity : nat;
  tree_mode : TreeMode;
  drng_state : Z;
  dsample_temp : f32;
  dsample_top_p : f32;
  dsample_top_k : nat }.
Arguments mkDflash {_ _}.
Arguments draft_model {_ _}.
Arguments dconfig {_ _}.
Arguments target_hidden_host {_ _}.
Arguments verify_scratch {_ _}.
Arguments spec_block_size {_ _}.
Arguments spec_ctx_capacity {_ _}.
Arguments tree_mode {_ _}.
Arguments drng_state {_ _}.
Arguments dsample_temp {_ _}.
Arguments dsample_top_p {_ _}.
Arguments dsample_top_k {_ _}.

(** ** State and errors *)

(** The speculator and the target it borrows. *)
Record World (W S T : Type) := mkWorld { spec : Dflash W S; world_target : T }.
Arguments mkWorld {_ _ _}.
Arguments spec {_ _ _}.
Arguments world_target {_ _ _}.

(** A method: it may fail, and leaves a state in any case. *)
Definition M (St A : Type) : Type := St → result string A * St.
#[export] Instance M_ret St : MRet (M St) := λ A a st, (Ok a, st).
#[export] Instance M_bind St : MBind (M St) := λ A B f m st,
  match m st with (Ok a, st) => f a st | (Err e, st) => (Err e, st) | (Panic, st) => (Panic, st) end.
Definition lift {St A} (r : result string A) : M St A := λ st, (r, st).

Section Operations.
Context {W S T : Type} `{!DraftModel W} `{!DflashTarget T S} (exp : f32 → f32) (exp64 ln64 : f64 → f64).
Local Abbreviation op A := (M (World W S T) A).

Definition self : op (Dflash W S) := λ w, (Ok (spec w), w).
Definition with_host (sp : Dflash W S) (host : list f32) : Dflash W S :=
  mkDflash (draft_model sp) (dconfig sp) host (verify_scratch sp) (spec_block_size sp) (spec_ctx_capacity sp) (tree_mode sp) (drng_state sp) (dsample_temp sp) (dsample_top_p sp) (dsample_top_k sp).
Definition with_state (sp : Dflash W S) (m : DflashScratch W) (s : option S) (rng : Z) : Dflash W S :=
  mkDflash m (dconfig sp) (target_hidden_host sp) s (spec_block_size sp) (spec_ctx_capacity sp) (tree_mode sp) rng (dsample_temp sp) (dsample_top_p sp) (dsample_top_k sp).
Definition set_rng (rng : Z) : op unit := λ w, (Ok tt, mkWorld (with_state (spec w) (draft_model (spec w)) (verify_scratch (spec w)) rng) (world_target w)).
(** [self.target_hidden_host.extend_from_slice(rows)] *)
Definition extend_host (rows : list f32) : op unit := λ w, (Ok tt, mkWorld (with_host (spec w) (target_hidden_host (spec w) ++ rows)) (world_target w)).

(** A call of the target with its verify scratch. *)
Definition verify_call {A} (f : T → S → result string A * (T * S)) : op A := λ w,
  match verify_scratch (spec w) with
  | None => (Err "GenericDflashSpeculator: verify scratch already freed", w)
  | Some s => let '(r, (t, s)) := f (world_target w) s in (r, mkWorld (with_state (spec w) (draft_model (spec w)) (Some s) (drng_state (spec w))) t)
  end.
Definition target_call {A} (f : T → result string A * T) : op A := λ w, let '(r, t) := f (world_target w) in (r, mkWorld (spec w) t).
Definition draft_call {A} (f : DflashScratch W → result string A * DflashScratch W) : op A := λ w,
  let '(r, m) := f (draft_model (spec w)) in (r, mkWorld (with_state (spec w) m (verify_scratch (spec w)) (drng_state (spec w))) (world_target w)).

Definition committed_host_len (position accepted ne h : nat) : nat := (position + accepted + 1) * ne * h.
Definition committed_block_hidden_elems (accepted ne h : nat) : nat := (accepted + 1) * ne * h.
Definition clamp_accept_to_budget (accepted : nat) (bonus : Z) (max_emit : nat) (boundary_token : Z) : nat * Z :=
  let max_accept := max_emit - 1 in
  if bool_decide (max_accept < accepted) then (max_accept, boundary_token) else (accepted, bonus).

(** [temp > 1e-6] *)
Definition is_sampled (temp : f32) : bool := f32_lt GREEDY_TEMP temp.
(** [temp <= 1e-6]: not the negation, where the temperature is a NaN. *)
Definition is_greedy (temp : f32) : bool := f32_le temp GREEDY_TEMP.

(** The sampled draw of a chain, threading the generator of the speculator. *)
Definition chain_walk (logits : list f32) (drafts : list Z) (vocab : nat) (temp : f32) : op (nat * Z) :=
  sp ← self;
  walk ← lift (naive_sample_chain exp logits drafts vocab temp (dsample_top_p sp) (dsample_top_k sp) (drng_state sp));
  set_rng walk.2 ;;
  mret walk.1.

(** [step_one_token] *)
Definition step_one_token (position : nat) (seed : Z) (temp : f32) : op SpecStep :=
  sp ← self;
  let ne := num_extract (dconfig sp) in
  let h := hidden (dconfig sp) in
  let vocab := vocab_size (dconfig sp) in
  lift (assert (bool_decide (length (target_hidden_host sp) = position * ne * h))) ;;
  picked ← (if is_sampled temp then
      lh ← verify_call (λ t s, dt_verify_block_logits t s [seed] position);
      lift (assert (bool_decide (length lh.1 = vocab))) ;;
      walk ← chain_walk lh.1 [] vocab temp;
      lift (assert (bool_decide (walk.1 = 0))) ;;
      mret (walk.2, lh.2)
    else
      ph ← verify_call (λ t s, dt_verify_block t s [seed] position);
      lift (assert (bool_decide (length ph.1 = 1))) ;;
      tok ← lift (index ph.1 0);
      mret (tok, ph.2));
  lift (assert (bool_decide (length picked.2 = ne * h))) ;;
  verify_call (λ t s, dt_commit_prefix t s [seed] 0 position) ;;
  rows ← lift (sub_slice picked.2 0 (committed_block_hidden_elems 0 ne h));
  extend_host rows ;;
  sp ← self;
  lift (assert (bool_decide (length (target_hidden_host sp) = committed_host_len position 0 ne h))) ;;
  mret (cap_emit (SpecStep_new [picked.1] picked.1 0 0) 1).

(** [finish_chain] *)
Definition finish_chain (block_hidden : list f32) (drafts : list Z) (accepted : nat) (bonus : Z) (position ne h max_emit : nat) : op SpecStep :=
  rows ← lift (sub_slice block_hidden 0 (committed_block_hidden_elems accepted ne h));
  extend_host rows ;;
  sp ← self;
  lift (assert (bool_decide (length (target_hidden_host sp) = committed_host_len position accepted ne h))) ;;
  kept ← lift (sub_slice drafts 0 accepted);
  let step := SpecStep_new (kept ++ [bonus]) bonus (length drafts) accepted in
  lift (assert (bool_decide (length (emit step) ≤ max_emit) && negb (bool_decide (emit step = [])))) ;;
  mret (cap_emit step max_emit).

(** The accept walk of [step_tree]. *)
Definition tree_walk (t : DdTree) (logits draft_logits : list f32) (depth topk vocab : nat) (temp : f32) : op (list nat * Z) :=
  sp ← self;
  if is_greedy temp then
    walk ← lift (sample_verified_tree exp t logits vocab f32_zero (drng_state sp));
    set_rng walk.2 ;;
    mret walk.1
  else
    cands ← lift (swor_draft_candidates exp draft_logits depth vocab topk temp (drng_state sp));
    set_rng cands.2 ;;
    walk ← lift (sample_verified_tree_swor exp t logits cands.1.1 cands.1.2 depth topk vocab temp cands.2);
    set_rng walk.2 ;;
    mret walk.1.

(** Cutting the accepted path to the output budget. *)
Definition clamp_path (t : DdTree) (walk : list nat * Z) (max_emit : nat) : result string (list nat * Z) :=
  let max_accept := max_emit - 1 in
  if bool_decide (max_accept < length walk.1) then
    ni ← index walk.1 max_accept;
    node ← index (nodes t) ni;
    Ok (take max_accept walk.1, token node)
  else Ok walk.

(** [step_tree] *)
Definition step_tree (position : nat) (seed : Z) (draft_logits : list f32) (vocab b : nat) (temp : f32) (max_emit : nat) : op SpecStep :=
  sp ← self;
  let ne := num_extract (dconfig sp) in
  let h := hidden (dconfig sp) in
  let depth := b - 1 in
  let topk := Nat.max (Nat.min (tree_topk (tree_mode sp)) vocab) 1 in
  tops ← lift (topk_from_logits exp64 ln64 draft_logits depth vocab topk);
  t ← lift (build_ddtree_tree_bounded tops.1 tops.2 depth topk 0 (tree_budget (tree_mode sp)) NEG_INFINITY);
  l ← lift (linearize_tree_with_parents t seed (wrap32 (Z.of_nat position)));
  let big_n := length (lin_tokens l) in
  lh ← verify_call (λ t s, dt_verify_tree_logits t s (lin_tokens l) (mask_block l) (lin_positions l) position);
  lift (assert (bool_decide (length lh.1 = big_n * vocab))) ;;
  lift (assert (bool_decide (length lh.2 = big_n * ne * h))) ;;
  walk ← tree_walk t lh.1 draft_logits depth topk vocab temp;
  path ← lift (clamp_path t walk max_emit);
  let accept_len := length path.1 in
  accepted_tokens ← lift (try_map (λ ni, node ← index (nodes t) ni; Ok (token node)) path.1);
  let committed_block := seed :: accepted_tokens in
  (if bool_decide (path.1 = seq 0 accept_len) then mret tt
   else verify_call (λ t s, dt_verify_block t s committed_block position) ;; mret tt) ;;
  verify_call (λ t s, dt_commit_prefix t s committed_block accept_len position) ;;
  rows ← lift (try_map (λ slot, sub_slice lh.2 (slot * (ne * h)) (ne * h)) (0 :: (Datatypes.S <$> path.1)));
  extend_host (concat rows) ;;
  sp ← self;
  lift (assert (bool_decide (length (target_hidden_host sp) = committed_host_len position accept_len ne h))) ;;
  let step := SpecStep_new (accepted_tokens ++ [path.2]) path.2 depth accept_len in
  lift (assert (bool_decide (length (emit step) ≤ max_emit) && negb (bool_decide (emit step = [])))) ;;
  mret (cap_emit step max_emit).

(** [llama::argmax]: the first greatest finite entry. *)
Definition f32_is_finite (a : f32) : bool := match a with S754_zero _ | S754_finite _ _ _ => true | _ => false end.
Definition llama_argmax (logits : list f32) : Z :=
  Z.of_nat (foldl (λ best (iv : nat * f32), if f32_is_finite iv.2 && f32_lt best.2 iv.2 then iv else best) (0, NEG_INFINITY) (enumerate logits)).1.

(** The two chain arms of [step]. *)
Definition chain_sampled (position : nat) (block drafts : list Z) (vocab b ne h : nat) (temp : f32) (max_emit : nat) : op SpecStep :=
  lh ← verify_call (λ t s, dt_verify_block_logits t s block position);
  lift (assert (bool_decide (length lh.1 = b * vocab))) ;;
  lift (assert (bool_decide (length lh.2 = b * ne * h))) ;;
  walk ← chain_walk lh.1 drafts vocab temp;
  boundary ← (if bool_decide (max_emit - 1 < walk.1) then lift (index drafts (max_emit - 1)) else mret walk.2);
  let '(accepted, bonus) := clamp_accept_to_budget walk.1 walk.2 max_emit boundary in
  verify_call (λ t s, dt_commit_prefix t s block accepted position) ;;
  finish_chain lh.2 drafts accepted bonus position ne h max_emit.

Definition chain_greedy (position : nat) (block drafts : list Z) (b ne h max_emit : nat) : op SpecStep :=
  ph ← verify_call (λ t s, dt_verify_block t s block position);
  lift (assert (bool_decide (length ph.1 = b))) ;;
  lift (assert (bool_decide (length ph.2 = b * ne * h))) ;;
  acc ← lift (accept_greedy_prefix drafts ph.1 None);
  bonus ← lift (expect (last (ga_committed acc)));
  boundary ← (if bool_decide (max_emit - 1 < ga_accepted acc) then lift (index ph.1 (max_emit - 1)) else mret bonus);
  let '(accepted, bonus) := clamp_accept_to_budget (ga_accepted acc) bonus max_emit boundary in
  verify_call (λ t s, dt_commit_prefix t s block accepted position) ;;
  finish_chain ph.2 drafts accepted bonus position ne h max_emit.

(** The draft of a block: its logits and their greatest entries. *)
Definition propose_block (position : nat) (seed : Z) (b : nat) : op (list f32 * list Z) :=
  sp ← self;
  let h := hidden (dconfig sp) in
  let ne := num_extract (dconfig sp) in
  let vocab := vocab_size (dconfig sp) in
  mask_row ← target_call (λ t, dt_embed_row t (mask_token_id (dconfig sp)));
  seed_row ← target_call (λ t, dt_embed_row t seed);
  lift (assert (bool_decide (length mask_row = h))) ;;
  let noise_embedding := seed_row ++ concat (replicate (b - 1) mask_row) in
  let positions_q := i32_range (as_i32 (Z.of_nat position)) (as_i32 (Z.of_nat (position + b))) in
  let positions_k := i32_range 0 (as_i32 (Z.of_nat (position + b))) in
  let ctx_elems := position * ne * h in
  lift (assert (bool_decide (length (target_hidden_host sp) = ctx_elems))) ;;
  x ← draft_call (λ m, let '(r, m) := draft_forward (dconfig sp) m noise_embedding (take ctx_elems (target_hidden_host sp)) positions_q positions_k b position in
    (map_err (String.append "draft_forward: ") r, m));
  let batch := b - 1 in
  draft_logits ← target_call (λ t, dt_lm_head_logits t (take (batch * h) (drop h x)) batch);
  lift (assert (bool_decide (length draft_logits = batch * vocab))) ;;
  drafts ← lift (try_map (λ i, row ← logits_row draft_logits vocab i; Ok (llama_argmax row)) (seq 0 batch));
  mret (draft_logits, drafts).

(** [step] *)
Definition dflash_step (position : nat) (seed : Z) (temp : f32) (max_emit : nat) : op SpecStep :=
  sp ← self;
  let cfg_b := Nat.max (cfg_block_size (dconfig sp)) 2 in
  if bool_decide (max_emit = 0) then lift (Err "GenericDflashSpeculator: max_emit=0 (no remaining output budget)") else
  if bool_decide (max_emit = 1) then step_one_token position seed temp else
  let b := Nat.max (Nat.min cfg_b max_emit) 2 in
  let h := hidden (dconfig sp) in
  let ne := num_extract (dconfig sp) in
  let vocab := vocab_size (dconfig sp) in
  drafted ← propose_block position seed b;
  let block := seed :: drafted.2 in
  if tree_enabled (tree_mode sp) then step_tree position seed drafted.1 vocab b temp max_emit else
  if is_sampled temp then chain_sampled position block drafted.2 vocab b ne h temp max_emit
  else chain_greedy position block drafted.2 b ne h max_emit.

(** [spec_advance] into the host copy of the hidden rows. *)
Definition advance_call (tokens : list Z) (start : nat) (reset : bool) : op SpecAdvance := λ w,
  let '(r, (t, rows)) := dt_advance (world_target w) tokens start reset in
  (r, mkWorld (with_host (spec w) (target_hidden_host (spec w) ++ rows)) t).

(** [reset] *)
Definition dflash_reset : op unit := λ w,
  (Ok tt, mkWorld (with_host (with_state (spec w) (reset_upload_tracking (draft_model (spec w))) (verify_scratch (spec w)) (drng_state (spec w))) []) (world_target w)).

(** [prefill] *)
Definition dflash_prefill (prompt_tokens prefill_tokens : list Z) (prefill_start : nat) (cache_hit : bool) : op PrefillOutcome :=
  let '(fill_tokens, start_pos) := if cache_hit then (prefill_tokens, prefill_start) else (prompt_tokens, 0) in
  (if cache_hit then mret tt else dflash_reset) ;;
  adv ← advance_call fill_tokens start_pos (negb cache_hit);
  match adv with
  | AdvanceAborted => mret PrefillAborted
  | AdvanceReady last_argmax last_logits =>
      sp ← self;
      if is_greedy (dsample_temp sp) then mret (PrefillReady last_argmax) else
      logits ← lift (ok_or "GenericDflashSpeculator: temp>0 prefill needs last_logits from SpecTarget::spec_advance (target only exposed GPU argmax)" last_logits);
      let vocab := vocab_size (dconfig sp) in
      lift (err_if (negb (bool_decide (length logits = vocab))) "GenericDflashSpeculator: last_logits len != vocab") ;;
      walk ← chain_walk logits [] vocab (dsample_temp sp);
      lift (assert (bool_decide (walk.1 = 0))) ;;
      mret (PrefillReady walk.2)
  end.

(** [on_forced_advance] *)
Definition on_forced_advance (tokens : list Z) (start_pos : nat) : op bool :=
  if bool_decide (tokens = []) then mret true else
  layers ← (λ w, (Ok (dt_extract_layers (world_target w)), w)) : op (list nat);
  lift (err_if (bool_decide (layers = [])) "GenericDflashSpeculator: forced advance requires dflash extract layers for target-hidden ownership") ;;
  sp ← self;
  let ne := num_extract (dconfig sp) in
  let h := hidden (dconfig sp) in
  let expected_len := length (target_hidden_host sp) + length tokens * ne * h in
  let expected_prefix := start_pos * ne * h in
  lift (err_if (negb (bool_decide (length (target_hidden_host sp) = expected_prefix))) "GenericDflashSpeculator: forced advance host len != start_pos") ;;
  adv ← advance_call tokens start_pos false;
  match adv with
  | AdvanceAborted => mret true
  | AdvanceReady _ _ =>
      sp ← self;
      lift (err_if (negb (bool_decide (length (target_hidden_host sp) = expected_len))) "GenericDflashSpeculator: forced advance captured too few floats") ;;
      mret true
  end.

(** [set_sampling] *)
Definition dflash_set_sampling (temp top_p : f32) (top_k : nat) : op unit := λ w,
  let sp := spec w in
  (Ok tt, mkWorld (mkDflash (draft_model sp) (dconfig sp) (target_hidden_host sp) (verify_scratch sp) (spec_block_size sp) (spec_ctx_capacity sp) (tree_mode sp) RNG_SEED temp top_p top_k) (world_target w)).
End Operations.

(** ** What the interface promises *)

(** Every slot of the cache below [length ctx] was computed from the tokens up to it. *)
Definition causal_cells (cell : nat → option (list (Z * Z))) (ctx : list (Z * Z)) : Prop :=
  ∀ k, k < length ctx → cell k = Some (take (Datatypes.S k) ctx).

(** The contexts of the slots of a block of tokens. *)
Definition block_contexts (ctx : list (Z * Z)) (position : nat) (block : list Z) : list (list (Z * Z)) :=
  (λ k, ctx ++ entries_from (Z.of_nat position) (take (Datatypes.S k) block)) <$> seq 0 (length block).

(** A target as its interface documents it. [cell t k] says what the cache holds at
    physical slot [k]; a verification writes the slots of its block, in a tree each slot
    sees what the mask leaves visible, and a commit keeps the committed prefix. Calls may
    fail but do not panic. *)
Class DflashContract (T S : Type) `{!DflashTarget T S} := {
  cell : T → nat → option (list (Z * Z));
  tmodel : list (Z * Z) → list f32;
  thidden : list (Z * Z) → list f32;
  tpick : list f32 → Z;
  tvocab : nat;
  tdim : nat;
  tstride : nat;
  tmodel_length c : length (tmodel c) = tvocab;
  thidden_length c : length (thidden c) = tstride;
  dc_verify t s block position ctx : causal_cells (cell t) ctx → position = length ctx →
    match dt_verify_block t s block position with
    | (Ok (picks, rows), (t', _)) =>
        picks = (tpick ∘ tmodel <$> block_contexts ctx position block) ∧ rows = concat (thidden <$> block_contexts ctx position block) ∧
        causal_cells (cell t') (ctx ++ entries_from (Z.of_nat position) block)
    | (r, _) => r ≠ Panic
    end;
  dc_verify_logits t s block position ctx : causal_cells (cell t) ctx → position = length ctx →
    match dt_verify_block_logits t s block position with
    | (Ok (logits, rows), (t', _)) =>
        logits = concat (tmodel <$> block_contexts ctx position block) ∧ rows = concat (thidden <$> block_contexts ctx position block) ∧
        causal_cells (cell t') (ctx ++ entries_from (Z.of_nat position) block)
    | (r, _) => r ≠ Panic
    end;
  dc_verify_tree t s tokens mask positions position ctx : causal_cells (cell t) ctx → position = length ctx →
    let l := mkLinearized tokens positions mask [] in
    match dt_verify_tree_logits t s tokens mask positions position with
    | (Ok (logits, rows), (t', _)) =>
        logits = block_logits tmodel ctx l ∧ rows = concat ((λ i, thidden (ctx ++ attended l i)) <$> seq 0 (length tokens)) ∧
        causal_cells (cell t') ctx ∧ ∀ i, i < length tokens → cell t' (position + i) = Some (ctx ++ attended l i)
    | (r, _) => r ≠ Panic
    end;
  dc_commit t s block accept position ctx : position = length ctx → accept < length block →
    causal_cells (cell t) (ctx ++ entries_from (Z.of_nat position) (take (Datatypes.S accept) block)) →
    match dt_commit_prefix t s block accept position with
    | (Ok _, (t', _)) => causal_cells (cell t') (ctx ++ entries_from (Z.of_nat position) (take (Datatypes.S accept) block))
    | (r, _) => r ≠ Panic
    end;
  dc_advance t tokens start (reset : bool) ctx : causal_cells (cell t) ctx → start = length (if reset then [] else ctx) →
    let ctx' := (if reset then [] else ctx) ++ entries_from (Z.of_nat start) tokens in
    match dt_advance t tokens start reset with
    | (Ok (AdvanceReady argmax logits), (t', rows)) =>
        causal_cells (cell t') ctx' ∧ rows = concat (thidden <$> block_contexts (if reset then [] else ctx) start tokens) ∧
        (tokens ≠ [] → argmax = tpick (tmodel ctx') ∧ (logits = None ∨ logits = Some (tmodel ctx')))
    | (r, _) => r ≠ Panic
    end;
  dc_embed t x ctx : causal_cells (cell t) ctx →
    match dt_embed_row t x with (Ok row, t') => length row = tdim ∧ causal_cells (cell t') ctx | (r, _) => r ≠ Panic end;
  dc_lm_head t x batch ctx : causal_cells (cell t) ctx →
    match dt_lm_head_logits t x batch with (Ok logits, t') => length logits = batch * tvocab ∧ causal_cells (cell t') ctx | (r, _) => r ≠ Panic end }.

(** A draft whose kernels do not panic on what the checks of [draft_forward] let through. *)
Class DraftContract (W : Type) `{!DraftModel W} := {
  draft_no_panic cfg scratch noise rows pq pk b position : draft_checks cfg scratch noise rows pq pk b position = Ok tt →
    (draft_kernels (W := W) (draft_device scratch) noise rows pq pk b position).1 ≠ Panic }.

(** ** Weakest preconditions *)

(** [m] does not panic from [w], and [Q] holds of what it returns. *)
Definition wp {St A} (m : M St A) (w : St) (Q : A → St → Prop) : Prop :=
  match m w with (Ok a, w') => Q a w' | (Err _, _) => True | (Panic, _) => False end.

Section Wp.
Context {St : Type}.

Lemma wp_bind {A B} (m : M St A) (f : A → M St B) w Q : wp m w (λ a w', wp (f a) w' Q) → wp (m ≫= f) w Q.
Proof. unfold wp, mbind, M_bind. destruct (m w) as [[a|e|] w']; done. Qed.

Lemma wp_seq {A B} (m : M St A) (k : M St B) w Q : wp m w (λ _ w', wp k w' Q) → wp (m ;; k) w Q.
Proof. intros H. apply wp_bind. exact H. Qed.

Lemma wp_ret {A} (a : A) w (Q : A → St → Prop) : Q a w → wp (mret a) w Q.
Proof. done. Qed.

Lemma wp_lift {A} (r : result string A) a w (Q : A → St → Prop) : r = Ok a → Q a w → wp (lift r) w Q.
Proof. intros ->. done. Qed.

Lemma wp_check (P : Prop) `{!Decision P} w (Q : unit → St → Prop) : P → Q tt w → wp (lift (assert (bool_decide P))) w Q.
Proof. intros HP HQ. unfold wp, lift. by rewrite bool_decide_eq_true_2. Qed.

Lemma wp_mono {A} (m : M St A) w (Q R : A → St → Prop) : wp m w Q → (∀ a w', Q a w' → R a w') → wp m w R.
Proof. unfold wp. destruct (m w) as [[a|e|] w']; auto. Qed.
End Wp.

(** ** Rows and contexts *)

Lemma entries_length pos l : length (entries_from pos l) = length l.
Proof. revert pos. induction l as [|x l IH]; intros pos; [done|]. cbn. by rewrite IH. Qed.

Lemma entries_take k pos l : take k (entries_from pos l) = entries_from pos (take k l).
Proof. revert k pos. induction l as [|x l IH]; intros [|k] pos; cbn; [done..|]. by rewrite IH. Qed.

Lemma causal_take cl ctx n : causal_cells cl ctx → causal_cells cl (take n ctx).
Proof. intros Hc k Hk. rewrite length_take in Hk. rewrite (Hc k) by lia. rewrite take_take. do 2 f_equal. lia. Qed.

Lemma causal_block_take cl ctx pos block n : causal_cells cl (ctx ++ entries_from pos block) → causal_cells cl (ctx ++ entries_from pos (take n block)).
Proof. intros Hc. apply (causal_take _ _ (length ctx + n)) in Hc. by rewrite take_app_add, entries_take in Hc. Qed.

Lemma contexts_take ctx position block n : take n (block_contexts ctx position block) = block_contexts ctx position (take n block).
Proof.
  unfold block_contexts. rewrite <- fmap_take. replace (take n (seq 0 (length block))) with (seq 0 (length (take n block))) by (rewrite length_take; symmetry; apply take_seq).
  apply list_fmap_ext. intros i k Hk. apply lookup_seq in Hk as [-> Hi]. rewrite length_take in Hi. cbn [Nat.add]. rewrite take_take. do 3 f_equal. lia.
Qed.

Section Rows.
Context {W S T : Type} `{!DraftModel W} `{!DflashTarget T S} `{!DflashContract T S}.

(** The hidden rows of a processed context. *)
Definition hidden_rows (ctx : list (Z * Z)) : list f32 := concat ((λ k, thidden (T := T) (take (Datatypes.S k) ctx)) <$> seq 0 (length ctx)).

Lemma rows_length {A} (f : A → list f32) n l : (∀ x, length (f x) = n) → length (concat (f <$> l)) = length l * n.
Proof. intros Hf. induction l as [|x l IH]; [done|]. cbn. by rewrite length_app, IH, Hf. Qed.

Lemma rows_take {A} (f : A → list f32) n l k : (∀ x, length (f x) = n) → take (k * n) (concat (f <$> l)) = concat (f <$> take k l).
Proof.
  intros Hf. revert k. induction l as [|x l IH]; intros [|k]; cbn; [done|by rewrite take_nil|by rewrite take_0|]. rewrite <- (Hf x) at 1. by rewrite take_app_add, IH.
Qed.

Lemma hidden_rows_length ctx : length (hidden_rows ctx) = length ctx * tstride (T := T).
Proof. unfold hidden_rows. rewrite (rows_length _ tstride) by (intros; apply thidden_length). by rewrite length_seq. Qed.

Lemma hidden_rows_app ctx block : hidden_rows (ctx ++ entries_from (Z.of_nat (length ctx)) block) = hidden_rows ctx ++ concat (thidden (T := T) <$> block_contexts ctx (length ctx) block).
Proof.
  unfold hidden_rows, block_contexts. rewrite length_app, entries_length, seq_app, fmap_app, concat_app. f_equal; f_equal.
  - apply list_fmap_ext. intros i k Hk. apply lookup_seq in Hk as [-> Hi]. cbn [Nat.add]. by rewrite take_app_le by lia.
  - rewrite <- list_fmap_compose. apply list_eq. intros i. rewrite !list_lookup_fmap. destruct (decide (i < length block)).
    + rewrite !lookup_seq_lt by lia. cbn. f_equal. f_equal. rewrite <- (Nat.add_succ_r (length ctx) i). rewrite take_app_add. by rewrite entries_take.
    + by rewrite !lookup_seq_ge by lia.
Qed.
End Rows.

Section Exact.
Context {W S T : Type} `{!DraftModel W} `{!DflashTarget T S} `{!DflashContract T S} `{!DraftContract W} (exp : f32 → f32) (exp64 ln64 : f64 → f64).
Implicit Types (w : World W S T) (ctx : list (Z * Z)).

(** Cache and hidden rows are those of the tokens processed so far. *)
Record aligned w ctx : Prop := {
  al_cells : causal_cells (cell (world_target w)) ctx;
  al_host : target_hidden_host (spec w) = hidden_rows (T := T) ctx;
  al_vocab : vocab_size (dconfig (spec w)) = tvocab (T := T);
  al_dim : hidden (dconfig (spec w)) = tdim (T := T);
  al_stride : num_extract (dconfig (spec w)) * hidden (dconfig (spec w)) = tstride (T := T);
  al_budget : (Z.of_nat (tree_budget (tree_mode (spec w))) ≤ 2147483648)%Z;
  al_caps : max_block_size (draft_model (spec w)) = cfg_block_size (dconfig (spec w)) ∧
    max_ctx_len (draft_model (spec w)) = spec_ctx_capacity (spec w);
  al_block : 2 ≤ cfg_block_size (dconfig (spec w)) }.

(** The buffers of the draft keep their sizes. *)
Definition same_caps (sp sp' : Dflash W S) : Prop := max_block_size (draft_model sp') = max_block_size (draft_model sp) ∧
  max_ctx_len (draft_model sp') = max_ctx_len (draft_model sp) ∧ spec_ctx_capacity sp' = spec_ctx_capacity sp.

(** The speculator after a call that used its scratch. *)
Definition scratched (w : World W S T) (s : S) (t : T) : World W S T :=
  mkWorld (with_state (spec w) (draft_model (spec w)) (Some s) (drng_state (spec w))) t.

Lemma wp_verify_call {A} (f : T → S → result string A * (T * S)) w (Q : A → World W S T → Prop) :
  (∀ s, match f (world_target w) s with (Ok a, (t', s')) => Q a (scratched w s' t') | (r, _) => r ≠ Panic end) → wp (verify_call f) w Q.
Proof.
  intros Hf. unfold wp, verify_call. destruct (verify_scratch (spec w)) as [s|]; [|done]. specialize (Hf s).
  destruct (f (world_target w) s) as [[a|e|] [t' s']]; done.
Qed.

Lemma wp_verify_block w ctx block position (Q : list Z * list f32 → World W S T → Prop) : causal_cells (cell (world_target w)) ctx → position = length ctx →
  (∀ s t', causal_cells (cell t') (ctx ++ entries_from (Z.of_nat position) block) →
    Q (tpick ∘ tmodel <$> block_contexts ctx position block, concat (thidden <$> block_contexts ctx position block)) (scratched w s t')) →
  wp (verify_call (λ t s, dt_verify_block t s block position)) w Q.
Proof.
  intros Hc Hp HQ. apply wp_verify_call. intros s. pose proof (dc_verify (world_target w) s block position ctx Hc Hp) as Hv.
  destruct (dt_verify_block (world_target w) s block position) as [[[picks rows]|e|] [t' s']]; [|done|done]. destruct Hv as (-> & -> & Hc'). by apply HQ.
Qed.

Lemma wp_verify_logits w ctx block position (Q : list f32 * list f32 → World W S T → Prop) : causal_cells (cell (world_target w)) ctx → position = length ctx →
  (∀ s t', causal_cells (cell t') (ctx ++ entries_from (Z.of_nat position) block) →
    Q (concat (tmodel <$> block_contexts ctx position block), concat (thidden <$> block_contexts ctx position block)) (scratched w s t')) →
  wp (verify_call (λ t s, dt_verify_block_logits t s block position)) w Q.
Proof.
  intros Hc Hp HQ. apply wp_verify_call. intros s. pose proof (dc_verify_logits (world_target w) s block position ctx Hc Hp) as Hv.
  destruct (dt_verify_block_logits (world_target w) s block position) as [[[logits rows]|e|] [t' s']]; [|done|done]. destruct Hv as (-> & -> & Hc'). by apply HQ.
Qed.

Lemma wp_commit w ctx block accept position (Q : unit → World W S T → Prop) : position = length ctx → accept < length block →
  causal_cells (cell (world_target w)) (ctx ++ entries_from (Z.of_nat position) (take (Datatypes.S accept) block)) →
  (∀ s t', causal_cells (cell t') (ctx ++ entries_from (Z.of_nat position) (take (Datatypes.S accept) block)) → Q tt (scratched w s t')) →
  wp (verify_call (λ t s, dt_commit_prefix t s block accept position)) w Q.
Proof.
  intros Hp Ha Hc HQ. apply wp_verify_call. intros s. pose proof (dc_commit (world_target w) s block accept position ctx Hp Ha Hc) as Hv.
  destruct (dt_commit_prefix (world_target w) s block accept position) as [[[]|e|] [t' s']]; [|done|done]. by apply HQ.
Qed.

Lemma contexts_length ctx position block : length (block_contexts ctx position block) = length block.
Proof. unfold block_contexts. by rewrite length_fmap, length_seq. Qed.

Lemma rows_stride ctx position block : length (concat (thidden (T := T) <$> block_contexts ctx position block)) = length block * tstride (T := T).
Proof. rewrite (rows_length _ (tstride (T := T))) by (intros; apply thidden_length). by rewrite contexts_length. Qed.

Lemma logits_stride ctx position block : length (concat (tmodel (T := T) <$> block_contexts ctx position block)) = length block * tvocab (T := T).
Proof. rewrite (rows_length _ (tvocab (T := T))) by (intros; apply tmodel_length). by rewrite contexts_length. Qed.

Lemma cap_emit_within st max_emit : length (emit st) ≤ max_emit → max_emit ≠ 0 → cap_emit st max_emit = st.
Proof. intros Hl Hm. unfold cap_emit. rewrite bool_decide_eq_false_2, bool_decide_eq_true_2 by done. done. Qed.

(** The tail of the chain arms appends the rows of the committed prefix. *)
Lemma finish_chain_exact w ctx (drafts : list Z) a (bonus seed : Z) ne h max_emit (Q : SpecStep → World W S T → Prop) :
  target_hidden_host (spec w) = hidden_rows (T := T) ctx → ne * h = tstride (T := T) → a ≤ length drafts → a < max_emit →
  Q (SpecStep_new (take a drafts ++ [bonus]) bonus (length drafts) a)
    (mkWorld (with_host (spec w) (hidden_rows (T := T) (ctx ++ entries_from (Z.of_nat (length ctx)) (take (Datatypes.S a) (seed :: drafts))))) (world_target w)) →
  wp (finish_chain (concat (thidden <$> block_contexts ctx (length ctx) (seed :: drafts))) drafts a bonus (length ctx) ne h max_emit) w Q.
Proof.
  intros Hhost Hstride Ha Hm HQ. unfold finish_chain, committed_block_hidden_elems, committed_host_len. rewrite <- !Nat.mul_assoc, Hstride.
  apply wp_bind. eapply wp_lift; [unfold sub_slice; rewrite bool_decide_eq_true_2 by (rewrite rows_stride; apply Nat.mul_le_mono_r; cbn [length]; lia); done|].
  rewrite drop_0, (rows_take _ (tstride (T := T))) by (intros; apply thidden_length). rewrite (Nat.add_1_r a), contexts_take.
  apply wp_seq. unfold wp at 1, extend_host. rewrite Hhost, <- hidden_rows_app. cbn [spec with_host target_hidden_host].
  apply wp_bind. unfold wp at 1, self. cbn [spec with_host target_hidden_host]. apply wp_seq, wp_check.
  { rewrite hidden_rows_length, length_app, entries_length, length_take. cbn [length]. rewrite Nat.min_l by lia. f_equal. lia. }
  apply wp_bind. eapply wp_lift; [unfold sub_slice; rewrite bool_decide_eq_true_2 by lia; done|]. rewrite drop_0. apply wp_seq.
  cbn [SpecStep_new emit]. unfold wp at 1, lift. rewrite bool_decide_eq_true_2, bool_decide_eq_false_2; [|by destruct (take a drafts)|rewrite length_app, length_take; cbn; lia]. cbn [andb negb assert].
  apply wp_ret. rewrite cap_emit_within; [exact HQ| |lia]. cbn. rewrite length_app, length_take. cbn. lia.
Qed.

(** What a step promises: a non-empty emission within the budget, whose last token is the
    next seed; cache and rows aligned with the committed tokens; and, for a draw that the
    target could have made alone, the tokens and the generator state it would have had. *)
Definition step_post w ctx (seed : Z) (draw : list f32 → Z → Z * Z) (max_emit : nat) (coupled : Prop) (st : SpecStep) w' : Prop :=
  ∃ (toks : list Z) (bonus : Z), emit st = toks ++ [bonus] ∧ next_seed st = bonus ∧ length toks < max_emit ∧
    aligned w' (ctx ++ entries_from (Z.of_nat (length ctx)) (seed :: toks)) ∧
    (coupled → sample_alone draw (tmodel (T := T)) (Datatypes.S (length toks)) (ctx ++ [(seed, Z.of_nat (length ctx))]) (Z.of_nat (length ctx) + 1) (drng_state (spec w)) =
      (toks ++ [bonus], drng_state (spec w'))).

(** The rows of a verified chain, counted from the seed. *)
Definition chain_row ctx (seed : Z) (drafts : list Z) (k : nat) : list f32 :=
  tmodel (T := T) ((ctx ++ [(seed, Z.of_nat (length ctx))]) ++ entries_from (Z.of_nat (length ctx) + 1) (take k drafts)).

Lemma contexts_rows {A} (g : list (Z * Z) → A) ctx seed drafts :
  g <$> block_contexts ctx (length ctx) (seed :: drafts) =
  (λ k, g ((ctx ++ [(seed, Z.of_nat (length ctx))]) ++ entries_from (Z.of_nat (length ctx) + 1) (take k drafts))) <$> seq 0 (Datatypes.S (length drafts)).
Proof. unfold block_contexts. rewrite <- list_fmap_compose. apply list_fmap_ext. intros i k _. cbn. by rewrite <- app_assoc. Qed.

Lemma wp_chain_walk w logits drafts vocab temp a bonus rng (Q : nat * Z → World W S T → Prop) :
  naive_sample_chain (E := string) exp logits drafts vocab temp (dsample_top_p (spec w)) (dsample_top_k (spec w)) (drng_state (spec w)) = Ok (a, bonus, rng) →
  Q (a, bonus) (mkWorld (with_state (spec w) (draft_model (spec w)) (verify_scratch (spec w)) rng) (world_target w)) → wp (chain_walk exp logits drafts vocab temp) w Q.
Proof. intros Hn HQ. unfold chain_walk. apply wp_bind. unfold wp at 1, self. apply wp_bind. eapply wp_lift; [exact Hn|]. exact HQ. Qed.

(** A committed prefix gives the promised state. *)
Lemma aligned_commit w ctx w' block : aligned w ctx → causal_cells (cell (world_target w')) (ctx ++ entries_from (Z.of_nat (length ctx)) block) →
  dconfig (spec w') = dconfig (spec w) → tree_mode (spec w') = tree_mode (spec w) → same_caps (spec w) (spec w') →
  target_hidden_host (spec w') = hidden_rows (T := T) (ctx ++ entries_from (Z.of_nat (length ctx)) block) →
  aligned w' (ctx ++ entries_from (Z.of_nat (length ctx)) block).
Proof. intros [] Hc Hd Ht (H1 & H2 & H3) Hh. split; rewrite ?Hd, ?Ht, ?H1, ?H2, ?H3; done. Qed.

Lemma chain_sampled_exact w ctx seed (drafts : list Z) temp max_emit : aligned w ctx → length drafts < max_emit →
  wp (chain_sampled exp (length ctx) (seed :: drafts) drafts (tvocab (T := T)) (Datatypes.S (length drafts)) (num_extract (dconfig (spec w))) (hidden (dconfig (spec w))) temp max_emit) w
    (step_post w ctx seed (chain_draw exp temp (dsample_top_p (spec w)) (dsample_top_k (spec w))) max_emit True).
Proof.
  intros Hal Hm. pose proof Hal as [Hc Hh Hv Hd Hs Hb Hcaps Hblk]. unfold chain_sampled. apply wp_bind. apply (wp_verify_logits w ctx); [done|done|]. intros s t' Hc'. cbn [fst snd].
  apply wp_seq, wp_check; [by rewrite logits_stride|]. apply wp_seq, wp_check; [by rewrite <- Nat.mul_assoc, Hs, rows_stride|].
  destruct (naive_chain_exact (E := string) exp (tmodel (T := T)) (tvocab (T := T)) drafts (ctx ++ [(seed, Z.of_nat (length ctx))]) (Z.of_nat (length ctx) + 1) temp (dsample_top_p (spec w)) (dsample_top_k (spec w)) (drng_state (spec w)) tmodel_length)
    as (a & bonus & rng' & Hwalk & Ha & Halone & _). cbn zeta in Hwalk. apply wp_bind. rewrite contexts_rows. eapply wp_chain_walk; [exact Hwalk|]. cbn [fst snd].
  apply wp_bind. rewrite bool_decide_eq_false_2 by lia. apply wp_ret. unfold clamp_accept_to_budget. rewrite bool_decide_eq_false_2 by lia.
  apply wp_seq, (wp_commit _ ctx); [done|cbn; lia|by apply causal_block_take|]. intros s2 t2 Hc2. apply finish_chain_exact; [done|done|done|lia|].
  exists (take a drafts), bonus. split; [done|]. split; [done|]. split; [rewrite length_take; lia|]. split; [apply (aligned_commit w); try done|].
  intros _. rewrite length_take, Nat.min_l by done. exact Halone.
Qed.

Lemma chain_greedy_exact w ctx seed (drafts : list Z) max_emit : aligned w ctx → length drafts < max_emit →
  wp (chain_greedy (length ctx) (seed :: drafts) drafts (Datatypes.S (length drafts)) (num_extract (dconfig (spec w))) (hidden (dconfig (spec w))) max_emit) w
    (step_post w ctx seed (λ row rng, (tpick row, rng)) max_emit True).
Proof.
  intros Hal Hm. pose proof Hal as [Hc Hh Hv Hd Hs Hb Hcaps Hblk]. unfold chain_greedy. apply wp_bind. apply (wp_verify_block w ctx); [done|done|]. intros s t' Hc'. cbn [fst snd].
  apply wp_seq, wp_check; [by rewrite length_fmap, contexts_length|]. apply wp_seq, wp_check; [by rewrite <- Nat.mul_assoc, Hs, rows_stride|].
  set (f := chain_row ctx seed drafts). assert (∀ k, length (f k) = tvocab (T := T)) as Hf by (intros; apply tmodel_length).
  destruct (chain_loop_exact (E := string) (λ row rng, (tpick row, rng)) (tmodel (T := T)) (tvocab (T := T)) f (Datatypes.S (length drafts)) Hf drafts 0 (ctx ++ [(seed, Z.of_nat (length ctx))]) (Z.of_nat (length ctx) + 1) (drng_state (spec w)) ltac:(lia) ltac:(done))
    as (a & bonus & rng' & Hloop & Ha & Halone).
  pose proof (chain_loop_pick (E := string) (λ row rng, (tpick row, rng)) tpick (tvocab (T := T)) f (Datatypes.S (length drafts)) ltac:(done) Hf drafts 0 (drng_state (spec w)) ltac:(lia)) as Hpick. cbn zeta in Hpick.
  rewrite Hloop, drop_0, !Nat.add_0_l in Hpick. apply Ok_inj in Hpick. injection Hpick as Hagree Hbonus Hrng.
  apply wp_bind. rewrite (contexts_rows (tpick ∘ tmodel)). eapply wp_lift; [apply (accept_picks tpick f drafts a); done|]. cbn [ga_committed ga_accepted].
  apply wp_bind. eapply wp_lift; [by rewrite last_snoc|]. apply wp_bind. rewrite bool_decide_eq_false_2 by lia. apply wp_ret. unfold clamp_accept_to_budget. rewrite bool_decide_eq_false_2 by lia.
  apply wp_seq, (wp_commit _ ctx); [done|cbn; lia|by apply causal_block_take|]. intros s2 t2 Hc2. apply finish_chain_exact; [done|done|done|lia|].
  exists (take a drafts), bonus. cbn [emit next_seed SpecStep_new]. rewrite Hbonus, <- Hagree. split; [done|]. split; [done|]. split; [rewrite length_take; lia|]. split; [apply (aligned_commit w); try done|].
  intros _. rewrite length_take, Nat.min_l by done. rewrite Halone, Hrng, Hbonus, <- Hagree. done.
Qed.

(** The draw of the chain arms. *)
Definition plain_draw (sp : Dflash W S) (temp : f32) : list f32 → Z → Z * Z :=
  if is_sampled temp then chain_draw exp temp (dsample_top_p sp) (dsample_top_k sp) else λ row rng, (tpick (T := T) row, rng).

(** The tail of a one-token window. *)
Lemma one_token_commit w0 w ctx (seed tok : Z) ne h draw : aligned w0 ctx → dconfig (spec w) = dconfig (spec w0) → tree_mode (spec w) = tree_mode (spec w0) → same_caps (spec w0) (spec w) →
  target_hidden_host (spec w) = hidden_rows (T := T) ctx → ne * h = tstride (T := T) → causal_cells (cell (world_target w)) (ctx ++ entries_from (Z.of_nat (length ctx)) [seed]) →
  sample_alone draw (tmodel (T := T)) 1 (ctx ++ [(seed, Z.of_nat (length ctx))]) (Z.of_nat (length ctx) + 1) (drng_state (spec w0)) = ([tok], drng_state (spec w)) →
  wp (verify_call (λ t s, dt_commit_prefix t s [seed] 0 (length ctx)) ;;
      rows ← lift (sub_slice (concat (thidden <$> block_contexts ctx (length ctx) [seed])) 0 (committed_block_hidden_elems 0 ne h));
      extend_host rows ;;
      sp ← self;
      lift (assert (bool_decide (length (target_hidden_host sp) = committed_host_len (length ctx) 0 ne h))) ;;
      mret (cap_emit (SpecStep_new [tok] tok 0 0) 1)) w (step_post w0 ctx seed draw 1 True).
Proof.
  intros Hal Hdc Htm Hcap Hh Hs Hc Halone. apply wp_seq, (wp_commit _ ctx [seed] 0); [done|cbn; lia|done|]. intros s2 t2 Hc2. unfold committed_block_hidden_elems, committed_host_len. rewrite <- !Nat.mul_assoc, Hs.
  apply wp_bind. eapply wp_lift; [unfold sub_slice; rewrite bool_decide_eq_true_2 by (rewrite rows_stride; cbn [length]; lia); done|].
  rewrite drop_0, take_ge by (rewrite rows_stride; cbn [length]; lia). apply wp_seq. unfold wp at 1, extend_host. cbn [spec scratched with_state target_hidden_host]. rewrite Hh, <- hidden_rows_app.
  apply wp_bind. unfold wp at 1, self. cbn [spec with_host target_hidden_host]. apply wp_seq, wp_check; [rewrite hidden_rows_length, length_app; cbn [length entries_from]; f_equal; lia|].
  apply wp_ret. exists [], tok. split; [done|]. split; [done|]. split; [cbn; lia|]. split; [by apply (aligned_commit w0 ctx _ [seed])|]. intros _. exact Halone.
Qed.

Lemma step_one_exact w ctx seed temp : aligned w ctx → wp (step_one_token exp (length ctx) seed temp) w (step_post w ctx seed (plain_draw (spec w) temp) 1 True).
Proof.
  intros Hal. pose proof Hal as [Hc Hh Hv Hd Hs Hb Hcaps Hblk]. unfold step_one_token. apply wp_bind. unfold wp at 1, self. rewrite <- !Nat.mul_assoc, Hs. apply wp_seq, wp_check; [by rewrite Hh, hidden_rows_length|].
  apply wp_bind. unfold plain_draw. destruct (is_sampled temp).
  - apply wp_bind, (wp_verify_logits w ctx); [done|done|]. intros s t' Hc'. cbn [fst snd]. apply wp_seq, wp_check; [rewrite logits_stride, Hv; cbn; lia|].
    destruct (naive_chain_exact (E := string) exp (tmodel (T := T)) (tvocab (T := T)) [] (ctx ++ [(seed, Z.of_nat (length ctx))]) (Z.of_nat (length ctx) + 1) temp (dsample_top_p (spec w)) (dsample_top_k (spec w)) (drng_state (spec w)) tmodel_length)
      as (a & bonus & rng' & Hwalk & Ha & Halone & _). cbn [length] in Ha. assert (a = 0) as -> by lia. apply wp_bind. rewrite (contexts_rows tmodel), Hv. eapply wp_chain_walk; [exact Hwalk|]. cbn [fst snd].
    apply wp_seq, wp_check; [done|]. apply wp_ret. cbn [fst snd]. apply wp_seq, wp_check; [rewrite rows_stride; cbn; lia|]. by apply (one_token_commit w).
  - apply wp_bind, (wp_verify_block w ctx); [done|done|]. intros s t' Hc'. cbn [fst snd]. apply wp_seq, wp_check; [by rewrite length_fmap, contexts_length|].
    apply wp_bind. eapply wp_lift; [unfold index; rewrite (contexts_rows (tpick ∘ tmodel)); done|]. apply wp_ret. cbn [fst snd]. apply wp_seq, wp_check; [rewrite rows_stride; cbn; lia|].
    apply (one_token_commit w); try done. cbn. by rewrite app_nil_r.
Qed.

(** ** The tree arm *)

(** The slots of a path, and what the target computed at each of them. *)
Lemma path_contexts t ctx seed path : tree_wf t → slot_chain (nodes t) (last_slot 0 path) (0 :: (Datatypes.S <$> path)) →
  (λ i, ctx ++ attended (block t seed (Z.of_nat (length ctx))) i) <$> (0 :: (Datatypes.S <$> path)) = block_contexts ctx (length ctx) (seed :: (node_token t <$> path)).
Proof.
  intros Ht Hc. unfold block_contexts. apply list_eq. intros i. rewrite !list_lookup_fmap. destruct (decide (i ≤ length path)) as [Hi|Hi].
  - destruct (chain_take _ _ _ (Datatypes.S i) Hc) as (s' & Hc' & Hl); [cbn; rewrite length_fmap; lia|]. rewrite lookup_seq_lt by (cbn; rewrite length_fmap; lia).
    assert ((0 :: (Datatypes.S <$> path)) !! i = Some s') as ->.
    { rewrite last_lookup, length_take in Hl. cbn [length] in Hl. rewrite length_fmap, Nat.min_l in Hl by lia. cbn [pred] in Hl. by rewrite lookup_take_lt in Hl by lia. }
    cbn [fmap option_fmap option_map]. f_equal. f_equal. assert (s' ≤ length (nodes t)) as Hs'.
    { apply (chain_in_range _ _ _ Hc'). rewrite last_lookup in Hl. by eapply list_elem_of_lookup_2. }
    destruct (attended_path t seed (Z.of_nat (length ctx)) s' _ Ht Hc' Hs') as (rest & Hrest & ->). cbn [take] in Hrest. injection Hrest as Hrest.
    rewrite path_entries_from. f_equal. rewrite <- Hrest. cbn [take Nat.add]. f_equal. rewrite !fmap_take. f_equal. rewrite <- !list_fmap_compose. by apply list_fmap_ext.
  - rewrite !(proj2 (lookup_ge_None _ _)); [done| |]; cbn; rewrite ?length_seq, ?length_fmap; cbn; rewrite ?length_fmap; lia.
Qed.

Lemma path_short t D path : tree_wf t → (∀ i n, nodes t !! i = Some n → (1 ≤ node_depth n ≤ Z.of_nat D)%Z) →
  slot_chain (nodes t) (last_slot 0 path) (0 :: (Datatypes.S <$> path)) → length path ≤ D.
Proof.
  intros Ht Hd Hc. pose proof (chain_depth _ _ _ (tw_nodes _ Ht) Hc) as Hs. cbn [length] in Hs. rewrite length_fmap in Hs. inversion Hc as [Hl|i n c Hn Hc' Hi]; [destruct path; [cbn; lia|done]|].
  rewrite <- Hi in Hs. cbn [slot_depth] in Hs. rewrite Hn in Hs. cbn in Hs. injection Hs as Hs. specialize (Hd i n Hn). lia.
Qed.

Lemma path_tokens t path : slot_chain (nodes t) (last_slot 0 path) (0 :: (Datatypes.S <$> path)) →
  try_map (E := string) (λ ni, node ← index (nodes t) ni; Ok (token node)) path = Ok (node_token t <$> path).
Proof.
  intros Hc. apply try_map_Ok, Forall2_fmap_r, Forall_Forall2_diag, Forall_forall. intros ni Hni. unfold compose, index, node_token.
  assert (Datatypes.S ni ≤ length (nodes t)) as Hlt by (apply (chain_in_range _ _ _ Hc); right; apply list_elem_of_fmap; by exists ni).
  destruct (lookup_lt_is_Some_2 (nodes t) ni ltac:(lia)) as [n Hn]. by rewrite Hn.
Qed.

Lemma path_rows t path (f : nat → list f32) stride : (∀ i, length (f i) = stride) → slot_chain (nodes t) (last_slot 0 path) (0 :: (Datatypes.S <$> path)) →
  try_map (E := string) (λ slot, sub_slice (concat (f <$> seq 0 (Datatypes.S (length (nodes t))))) (slot * stride) stride) (0 :: (Datatypes.S <$> path)) = Ok (f <$> (0 :: (Datatypes.S <$> path))).
Proof.
  intros Hf Hc. apply try_map_Ok, Forall2_fmap_r, Forall_Forall2_diag, Forall_forall. intros i Hi. unfold compose, sub_slice.
  destruct (concat_slice stride (f <$> seq 0 (Datatypes.S (length (nodes t)))) (rows_lengths f stride _ Hf) i (f i)) as [-> Hl].
  { rewrite list_lookup_fmap, lookup_seq_lt; [done|]. pose proof (chain_in_range _ _ _ Hc i Hi). lia. }
  by rewrite bool_decide_eq_true_2 by lia.
Qed.

(** A path along the spine was written where the committed tokens belong. *)
Lemma spine_causal t ctx seed path cl : tree_wf t → slot_chain (nodes t) (last_slot 0 path) (0 :: (Datatypes.S <$> path)) → path = seq 0 (length path) →
  causal_cells cl ctx → (∀ i, i < Datatypes.S (length (nodes t)) → cl (length ctx + i) = Some (ctx ++ attended (block t seed (Z.of_nat (length ctx))) i)) →
  causal_cells cl (ctx ++ entries_from (Z.of_nat (length ctx)) (seed :: (node_token t <$> path))).
Proof.
  intros Ht Hc Hspine Hctx Hcells k Hk. rewrite length_app, entries_length in Hk. cbn [length] in Hk. rewrite length_fmap in Hk. destruct (decide (k < length ctx)) as [Hlt|Hge]; [rewrite take_app_le by lia; by apply Hctx|].
  replace k with (length ctx + (k - length ctx)) by lia. set (i := k - length ctx). assert (i ≤ length path) as Hi by lia. rewrite <- Nat.add_succ_r, take_app_add, entries_take.
  pose proof (path_contexts t ctx seed path Ht Hc) as Hp. apply (f_equal (lookup i)) in Hp. rewrite list_lookup_fmap in Hp.
  assert ((0 :: (Datatypes.S <$> path)) !! i = Some i) as Hslot by (rewrite Hspine, fmap_S_seq; change (0 :: seq 1 (length path)) with (seq 0 (Datatypes.S (length path))); rewrite lookup_seq_lt; [done|lia]).
  rewrite Hslot in Hp. unfold block_contexts in Hp. rewrite list_lookup_fmap, lookup_seq_lt in Hp by (cbn; rewrite length_fmap; lia). cbn [fmap option_fmap option_map Nat.add] in Hp. injection Hp as Hp.
  rewrite Hcells, Hp; [done|]. pose proof (chain_in_range _ _ _ Hc i ltac:(by eapply list_elem_of_lookup_2)). lia.
Qed.

Lemma tree_walk_exact w t ctx seed draft_logits depth topk temp (Q : list nat * Z → World W S T → Prop) : tree_wf t → length draft_logits = depth * tvocab (T := T) →
  (∀ path bonus rng', slot_chain (nodes t) (last_slot 0 path) (0 :: (Datatypes.S <$> path)) →
    (is_greedy temp = true → sample_alone (λ row rng, (argmax row, rng)) (tmodel (T := T)) (Datatypes.S (length path)) (ctx ++ [(seed, Z.of_nat (length ctx))]) (Z.of_nat (length ctx) + 1) (drng_state (spec w)) =
      ((node_token t <$> path) ++ [bonus], rng')) →
    Q (path, bonus) (mkWorld (with_state (spec w) (draft_model (spec w)) (verify_scratch (spec w)) rng') (world_target w))) →
  wp (tree_walk exp t (block_logits tmodel ctx (block t seed (Z.of_nat (length ctx)))) draft_logits depth topk (tvocab (T := T)) temp) w Q.
Proof.
  intros Ht Hdl HQ. set (logits := block_logits tmodel ctx (block t seed (Z.of_nat (length ctx)))).
  assert (length logits = Datatypes.S (length (nodes t)) * tvocab (T := T)) as Hll.
  { unfold logits, block_logits. cbn [block lin_tokens length]. rewrite length_fmap. apply rows_total. intros; apply tmodel_length. }
  unfold tree_walk. apply wp_bind. unfold wp at 1, self. destruct (is_greedy temp).
  - destruct (tree_loop_exact (E := string) t Ht seed (Z.of_nat (length ctx)) (λ row rng, (argmax row, rng)) tmodel ctx (tvocab (T := T)) tmodel_length (1 + length (nodes t)) 0 [0] 0 [] (drng_state (spec w)) (chain_root _) eq_refl ltac:(lia) ltac:(lia))
      as (path & bonus & rng' & Hloop & Halone & Hchain & _). rewrite (attended_root t Ht), Z.add_0_r in Halone.
    apply wp_bind, (wp_lift _ (path, bonus, rng')); [|by apply (HQ path bonus rng')]. unfold sample_verified_tree. rewrite bool_decide_eq_true_2 by exact Hll. cbn [assert mbind result_bind].
    rewrite (tree_loop_ext _ _ t _ _ (tree_draw_greedy exp f32_zero eq_refl)). exact Hloop.
  - destruct (candidates_exact (E := string) exp draft_logits depth (tvocab (T := T)) topk temp (drng_state (spec w)) Hdl) as (dq & pc & rng1 & Hcand & Hdq & Hpc).
    apply wp_bind. eapply wp_lift; [exact Hcand|]. cbn [fst snd]. apply wp_seq. unfold wp at 1, set_rng.
    destruct (swor_walk_path (E := string) t Ht exp logits dq pc depth topk (tvocab (T := T)) temp rng1 Hll Hdq Hpc) as (path & bonus & rng' & Hwalk & Hchain).
    apply wp_bind, (wp_lift _ (path, bonus, rng')); [exact Hwalk|]. by apply (HQ path bonus rng').
Qed.

(** Committing an accepted path: the cache is fixed, the rows appended, the step built. *)
Lemma tree_commit w0 w t ctx seed depth path (bonus : Z) ne h max_emit draw coupled : aligned w0 ctx → dconfig (spec w) = dconfig (spec w0) → tree_mode (spec w) = tree_mode (spec w0) → same_caps (spec w0) (spec w) →
  target_hidden_host (spec w) = hidden_rows (T := T) ctx → ne * h = tstride (T := T) → tree_wf t → slot_chain (nodes t) (last_slot 0 path) (0 :: (Datatypes.S <$> path)) → length path < max_emit →
  causal_cells (cell (world_target w)) ctx →
  (∀ i, i < Datatypes.S (length (nodes t)) → cell (world_target w) (length ctx + i) = Some (ctx ++ attended (block t seed (Z.of_nat (length ctx))) i)) →
  (coupled → sample_alone draw (tmodel (T := T)) (Datatypes.S (length path)) (ctx ++ [(seed, Z.of_nat (length ctx))]) (Z.of_nat (length ctx) + 1) (drng_state (spec w0)) =
    ((node_token t <$> path) ++ [bonus], drng_state (spec w))) →
  wp (let committed_block := seed :: (node_token t <$> path) in
      (if bool_decide (path = seq 0 (length path)) then mret tt else verify_call (λ t s, dt_verify_block t s committed_block (length ctx)) ;; mret tt) ;;
      verify_call (λ t s, dt_commit_prefix t s committed_block (length path) (length ctx)) ;;
      rows ← lift (try_map (λ slot, sub_slice (concat ((λ i, thidden (ctx ++ attended (block t seed (Z.of_nat (length ctx))) i)) <$> seq 0 (Datatypes.S (length (nodes t))))) (slot * (ne * h)) (ne * h)) (0 :: (Datatypes.S <$> path)));
      extend_host (concat rows) ;;
      sp ← self;
      lift (assert (bool_decide (length (target_hidden_host sp) = committed_host_len (length ctx) (length path) ne h))) ;;
      let step := SpecStep_new ((node_token t <$> path) ++ [bonus]) bonus depth (length path) in
      lift (assert (bool_decide (length (emit step) ≤ max_emit) && negb (bool_decide (emit step = [])))) ;;
      mret (cap_emit step max_emit)) w (step_post w0 ctx seed draw max_emit coupled).
Proof.
  intros Hal Hdc Htm Hcap Hh Hs Ht Hchain Hlen Hc Hcells Halone. cbn zeta. set (toks := node_token t <$> path). assert (length toks = length path) as Htl by (unfold toks; apply length_fmap).
  apply wp_seq. eapply wp_mono with (Q := λ _ w1, spec w1 = with_state (spec w) (draft_model (spec w)) (verify_scratch (spec w1)) (drng_state (spec w)) ∧
    causal_cells (cell (world_target w1)) (ctx ++ entries_from (Z.of_nat (length ctx)) (seed :: toks))).
  { case_bool_decide as Hspine; [apply wp_ret; split; [by destruct w as [[]]|by apply spine_causal]|]. apply wp_seq, (wp_verify_block w ctx); [done|done|]. intros s' t' Hc'. apply wp_ret. by split. }
  intros _ w1 [Hw1 Hc1]. apply wp_seq, (wp_commit _ ctx); [done|cbn; rewrite Htl; lia|rewrite take_ge by (cbn; rewrite Htl; lia); exact Hc1|]. rewrite take_ge by (cbn; rewrite Htl; lia). intros s2 t2 Hc2.
  assert ((λ i, thidden (ctx ++ attended (block t seed (Z.of_nat (length ctx))) i)) <$> (0 :: (Datatypes.S <$> path)) = thidden <$> block_contexts ctx (length ctx) (seed :: toks)) as Hrows
    by (unfold toks; rewrite <- (path_contexts t ctx seed path Ht Hchain); by rewrite <- list_fmap_compose).
  apply wp_bind. rewrite Hs. eapply wp_lift; [rewrite (path_rows t path (λ i, thidden (ctx ++ attended (block t seed (Z.of_nat (length ctx))) i))), Hrows; [done|intros; apply thidden_length|exact Hchain]|].
  apply wp_seq. unfold wp at 1, extend_host. cbn [spec scratched with_state target_hidden_host]. rewrite Hw1. cbn [with_state target_hidden_host]. rewrite Hh, <- hidden_rows_app.
  apply wp_bind. unfold wp at 1, self. cbn [spec with_host target_hidden_host]. unfold committed_host_len. rewrite <- Nat.mul_assoc, Hs.
  apply wp_seq, wp_check; [rewrite hidden_rows_length, length_app, entries_length; cbn [length]; rewrite Htl; f_equal; lia|]. apply wp_seq. cbn [SpecStep_new emit]. unfold wp at 1, lift.
  rewrite bool_decide_eq_true_2, bool_decide_eq_false_2; [|by destruct toks|unfold Spec.token; rewrite length_app, Htl; cbn; lia]. cbn [andb negb assert].
  apply wp_ret. rewrite cap_emit_within; [|cbn; unfold Spec.token; rewrite length_app, Htl; cbn; lia|lia]. exists toks, bonus. split; [done|]. split; [done|]. split; [by rewrite Htl|].
  split; [by apply (aligned_commit w0)|]. rewrite Htl. intros Hcp. exact (Halone Hcp).
Qed.

Lemma wp_verify_tree w ctx (l : Linearized) position (Q : list f32 * list f32 → World W S T → Prop) : causal_cells (cell (world_target w)) ctx → position = length ctx →
  (∀ s t', causal_cells (cell t') ctx → (∀ i, i < length (lin_tokens l) → cell t' (position + i) = Some (ctx ++ attended l i)) →
    Q (block_logits tmodel ctx l, concat ((λ i, thidden (ctx ++ attended l i)) <$> seq 0 (length (lin_tokens l)))) (scratched w s t')) →
  wp (verify_call (λ t s, dt_verify_tree_logits t s (lin_tokens l) (mask_block l) (lin_positions l) position)) w Q.
Proof.
  intros Hc Hp HQ. apply wp_verify_call. intros s. pose proof (dc_verify_tree (world_target w) s (lin_tokens l) (mask_block l) (lin_positions l) position ctx Hc Hp) as Hv. cbn zeta in Hv.
  destruct (dt_verify_tree_logits (world_target w) s (lin_tokens l) (mask_block l) (lin_positions l) position) as [[[logits rows]|e|] [t' s']]; [|done|done].
  destruct Hv as (-> & -> & Hc' & Hcells). by apply HQ.
Qed.

Lemma step_tree_exact w ctx seed draft_logits b temp max_emit : aligned w ctx → 2 ≤ b ≤ max_emit → 1 ≤ tvocab (T := T) → length draft_logits = (b - 1) * tvocab (T := T) →
  (Z.of_nat (length ctx + b) < 2147483648)%Z →
  wp (step_tree exp exp64 ln64 (length ctx) seed draft_logits (tvocab (T := T)) b temp max_emit) w (step_post w ctx seed (λ row rng, (argmax row, rng)) max_emit (is_greedy temp = true)).
Proof.
  intros Hal Hb Hvoc Hdl Hroom. pose proof Hal as [Hc Hh Hv Hd Hs Hbud Hcaps Hblk]. unfold step_tree. apply wp_bind. unfold wp at 1, self. set (topk := Nat.max (Nat.min (tree_topk (tree_mode (spec w))) tvocab) 1).
  destruct (topk_table (E := string) exp64 ln64 draft_logits (b - 1) tvocab topk Hdl ltac:(unfold topk; lia)) as (tt_ & lp & Htop & Htt & Hlp & _). apply wp_bind. eapply wp_lift; [exact Htop|]. cbn [fst snd].
  destruct (tree_build_exact (E := string) tt_ lp (b - 1) topk 0 (tree_budget (tree_mode (spec w))) NEG_INFINITY Htt Hlp ltac:(unfold U32_MAX; lia) ltac:(unfold topk; lia) Hbud) as (t & Hbuild & Ht & _ & Hsize & _ & Hdep).
  apply wp_bind. eapply wp_lift; [exact Hbuild|]. apply wp_bind. eapply wp_lift.
  { replace (wrap32 (Z.of_nat (length ctx))) with (Z.of_nat (length ctx)) by (unfold wrap32; rewrite Z.mod_small; lia). apply (linearize_exact t Ht seed _ (b - 1) Hdep); lia. }
  apply wp_bind, (wp_verify_tree w ctx); [done|done|]. intros s t' Hc' Hcells. cbn [fst snd]. assert (length (lin_tokens (block t seed (Z.of_nat (length ctx)))) = Datatypes.S (length (nodes t))) as Hbl by (cbn; by rewrite length_fmap).
  apply wp_seq, wp_check; [unfold block_logits; apply rows_total; intros; apply tmodel_length|].
  apply wp_seq, wp_check; [rewrite <- Nat.mul_assoc, Hs; apply (rows_total (λ i, thidden (ctx ++ attended (block t seed (Z.of_nat (length ctx))) i))); intros; apply thidden_length|].
  rewrite Hbl in *. apply wp_bind, tree_walk_exact; [done|done|]. intros path bonus rng' Hchain Hgreedy. pose proof (path_short t (b - 1) path Ht Hdep Hchain) as Hshort.
  apply wp_bind. eapply wp_lift; [unfold clamp_path; cbn [fst]; rewrite bool_decide_eq_false_2 by lia; done|]. cbn [fst snd]. apply wp_bind. eapply wp_lift; [by apply path_tokens|].
  apply (tree_commit w _ t ctx seed (b - 1) path bonus); try done. lia.
Qed.

Lemma rows_replicate_length (row : list f32) n k : length row = n → length (concat (replicate k row)) = k * n.
Proof. intros Hr. induction k as [|k IH]; [done|]. cbn [replicate concat]. rewrite length_app, IH, Hr. lia. Qed.

(** The checks pass on inputs of the right sizes. *)
Lemma draft_forward_exact cfg (scratch : DflashScratch W) noise rows pq pk b position : b ≤ max_block_size scratch → position ≤ max_ctx_len scratch →
  length noise = b * hidden cfg → length rows = position * num_extract cfg * hidden cfg → length pq = b → length pk = position + b →
  (draft_forward cfg scratch noise rows pq pk b position).1 ≠ Panic ∧
  max_block_size (draft_forward cfg scratch noise rows pq pk b position).2 = max_block_size scratch ∧
  max_ctx_len (draft_forward cfg scratch noise rows pq pk b position).2 = max_ctx_len scratch.
Proof.
  intros H1 H2 H3 H4 H5 H6. assert (draft_checks cfg scratch noise rows pq pk b position = Ok tt) as Hok
    by (unfold draft_checks; rewrite !bool_decide_eq_true_2 by done; done).
  unfold draft_forward. rewrite Hok. pose proof (draft_no_panic cfg scratch noise rows pq pk b position Hok) as Hnp.
  destruct (draft_kernels _ _ _ _ _ _ _) as [x device]. done.
Qed.

Lemma i32_range_length a n : (Z.of_nat (a + n) < 2147483648)%Z → length (i32_range (as_i32 (Z.of_nat a)) (as_i32 (Z.of_nat (a + n)))) = n.
Proof. intros Hn. unfold i32_range. rewrite length_fmap, length_seq, !as_i32_small by lia. lia. Qed.

(** The draft of a block has the block's shape and leaves cache and rows alone. *)
Lemma propose_exact w ctx seed b (Q : list f32 * list Z → World W S T → Prop) : aligned w ctx → 1 ≤ b ≤ cfg_block_size (dconfig (spec w)) →
  length ctx ≤ spec_ctx_capacity (spec w) → (Z.of_nat (length ctx + b) < 2147483648)%Z →
  (∀ m t' logits drafts, max_block_size m = max_block_size (draft_model (spec w)) → max_ctx_len m = max_ctx_len (draft_model (spec w)) → causal_cells (cell t') ctx → length logits = (b - 1) * tvocab (T := T) → length drafts = b - 1 →
    Q (logits, drafts) (mkWorld (with_state (spec w) m (verify_scratch (spec w)) (drng_state (spec w))) t')) →
  wp (propose_block (length ctx) seed b) w Q.
Proof.
  intros [Hc Hh Hv Hd Hs Hb [Hcap1 Hcap2] Hblk] Hbsz Hctx Hroom HQ. unfold propose_block. apply wp_bind. unfold wp at 1, self. apply wp_bind. unfold wp at 1, target_call.
  pose proof (dc_embed (world_target w) (mask_token_id (dconfig (spec w))) ctx Hc) as H1. destruct (dt_embed_row (world_target w) (mask_token_id (dconfig (spec w)))) as [[r1|e|] t1]; [|done|done]. destruct H1 as [Hr1 Hc1].
  apply wp_bind. unfold wp at 1, target_call. cbn [world_target spec]. pose proof (dc_embed t1 seed ctx Hc1) as H2. destruct (dt_embed_row t1 seed) as [[r2|e|] t2]; [|done|done]. destruct H2 as [Hr2 Hc2].
  apply wp_seq, wp_check; [by rewrite Hr1, Hd|]. apply wp_seq, wp_check; [by rewrite <- Nat.mul_assoc, Hs, Hh, hidden_rows_length|].
  apply wp_bind. unfold wp at 1, draft_call. cbn [spec world_target].
  match goal with |- context [draft_forward ?c ?m ?n ?r ?pq ?pk ?b ?p] => pose proof (draft_forward_exact c m n r pq pk b p) as Hf;
    destruct (draft_forward c m n r pq pk b p) as [x m'] end.
  destruct Hf as (Hnp & Hm1 & Hm2); [lia|lia| | | | |].
  { rewrite length_app, Hr2, (rows_replicate_length _ _ _ Hr1), Hd. destruct b; cbn; lia. }
  { rewrite length_take, Hh, hidden_rows_length, <- Nat.mul_assoc, Hs. lia. }
  { by apply i32_range_length. }
  { change 0%Z with (Z.of_nat 0) at 1. rewrite <- (as_i32_small (Z.of_nat 0)) by lia. apply (i32_range_length 0 (length ctx + b)). lia. }
  cbn [fst snd] in *. destruct x as [x|e|]; cbn [map_err]; [|done|done].
  apply wp_bind. unfold wp at 1, target_call. cbn [spec world_target]. match goal with |- context [dt_lm_head_logits t2 ?x ?n] => pose proof (dc_lm_head t2 x n ctx Hc2) as H3; destruct (dt_lm_head_logits t2 x n) as [[lg|e|] t3] end; [|done|done].
  destruct H3 as [Hlg Hc3]. rewrite Hv. apply wp_seq, wp_check; [done|].
  destruct (try_map_exists (E := string) (λ i, row ← logits_row lg tvocab i; Ok (llama_argmax row)) (λ _ _, True) (seq 0 (b - 1))) as (drafts & Hdr & Hf2).
  { intros i Hi%elem_of_seq. destruct (logits_row_Ok (E := string) lg tvocab (b - 1) i Hlg ltac:(lia)) as (row & -> & _). by eexists. }
  apply wp_bind. eapply wp_lift; [exact Hdr|]. apply wp_ret. apply Forall2_length in Hf2. rewrite length_seq in Hf2. by apply HQ.
Qed.

(** How a step of this speculator draws: the tree arm compares all entries of a row, the
    others leave the greedy pick to the target. *)
Definition step_draw (sp : Dflash W S) (temp : f32) (max_emit : nat) : list f32 → Z → Z * Z :=
  if tree_enabled (tree_mode sp) && bool_decide (2 ≤ max_emit) then λ row rng, (argmax row, rng) else plain_draw sp temp.

(** The position is within the context capacity, and the block a step verifies fits the
    positions of the device. *)
Definition step_room (sp : Dflash W S) (position max_emit : nat) : Prop := position ≤ spec_ctx_capacity sp ∧
  (Z.of_nat (position + Nat.max (Nat.min (Nat.max (cfg_block_size (dconfig sp)) 2) max_emit) 2) < 2147483648)%Z.

Lemma dflash_step_aligned w ctx seed temp max_emit : aligned w ctx → 1 ≤ tvocab (T := T) → step_room (spec w) (length ctx) max_emit →
  wp (dflash_step exp exp64 ln64 (length ctx) seed temp max_emit) w
    (step_post w ctx seed (step_draw (spec w) temp max_emit) max_emit (tree_enabled (tree_mode (spec w)) = false ∨ max_emit = 1 ∨ is_greedy temp = true)).
Proof.
  intros Hal Hvoc [Hctx Hroom]. pose proof Hal as [Hc Hh Hv Hd Hs Hb Hcaps Hblk]. unfold dflash_step, step_draw in *. apply wp_bind. unfold wp at 1, self.
  case_bool_decide as H0; [done|]. case_bool_decide as H1.
  { subst max_emit. rewrite bool_decide_eq_false_2, andb_false_r by lia. eapply wp_mono; [by apply step_one_exact|]. intros st w' (toks & bonus & ? & ? & ? & ? & ?). exists toks, bonus. split_and!; auto. }
  rewrite bool_decide_eq_true_2, andb_true_r by lia. set (b := Nat.max (Nat.min (Nat.max (cfg_block_size (dconfig (spec w))) 2) max_emit) 2) in *.
  apply wp_bind, (propose_exact w ctx); [done|unfold b; lia|done|done|]. intros m t' logits drafts Hm1 Hm2 Hc' Hll Hdl. cbn [fst snd]. set (w1 := mkWorld (with_state (spec w) m (verify_scratch (spec w)) (drng_state (spec w))) t').
  assert (aligned w1 ctx) as Hal1 by (split; try done; cbn; by rewrite Hm1, Hm2). rewrite Hv. destruct (tree_enabled (tree_mode (spec w))).
  { eapply wp_mono; [apply (step_tree_exact w1 ctx); [done|unfold b; lia|done|done|done]|]. intros st w' (toks & bonus & ? & ? & ? & ? & Hcp). exists toks, bonus. split_and!; auto. intros [|[|]]; [done|lia|]. by apply Hcp. }
  replace b with (Datatypes.S (length drafts)) by lia. unfold plain_draw. destruct (is_sampled temp).
  - eapply wp_mono; [apply (chain_sampled_exact w1 ctx); [done|unfold b in *; lia]|]. intros st w' (toks & bonus & ? & ? & ? & ? & ?). exists toks, bonus. split_and!; auto.
  - eapply wp_mono; [apply (chain_greedy_exact w1 ctx); [done|unfold b in *; lia]|]. intros st w' (toks & bonus & ? & ? & ? & ? & ?). exists toks, bonus. split_and!; auto.
Qed.

(** Advancing the target over given tokens. *)
Lemma advance_exact w ctx tokens start (reset : bool) (Q : SpecAdvance → World W S T → Prop) :
  (reset = false → causal_cells (cell (world_target w)) ctx) → start = length (if reset then [] else ctx) → target_hidden_host (spec w) = hidden_rows (T := T) (if reset then [] else ctx) →
  (∀ w', Q AdvanceAborted w') →
  (∀ t' am lg, let ctx' := (if reset then [] else ctx) ++ entries_from (Z.of_nat start) tokens in
    causal_cells (cell t') ctx' → (tokens ≠ [] → am = tpick (tmodel ctx') ∧ (lg = None ∨ lg = Some (tmodel ctx'))) →
    Q (AdvanceReady am lg) (mkWorld (with_host (spec w) (hidden_rows (T := T) ctx')) t')) →
  wp (advance_call tokens start reset) w Q.
Proof.
  intros Hc Hst Hh Hab HQ. unfold wp, advance_call.
  assert (match dt_advance (world_target w) tokens start reset with
    | (Ok (AdvanceReady am lg), (t', rows)) => causal_cells (cell t') ((if reset then [] else ctx) ++ entries_from (Z.of_nat start) tokens) ∧
        rows = concat (thidden <$> block_contexts (if reset then [] else ctx) start tokens) ∧
        (tokens ≠ [] → am = tpick (tmodel ((if reset then [] else ctx) ++ entries_from (Z.of_nat start) tokens)) ∧ (lg = None ∨ lg = Some (tmodel ((if reset then [] else ctx) ++ entries_from (Z.of_nat start) tokens))))
    | (r, _) => r ≠ Panic end) as Ha.
  { destruct reset; [|by apply (dc_advance (world_target w) tokens start false ctx); [apply Hc|]]. apply (dc_advance (world_target w) tokens start true []); [|done]. intros k Hk. cbn in Hk. lia. }
  destruct (dt_advance (world_target w) tokens start reset) as [[[am lg| ]|e|] [t' rows]]; [|apply Hab|done|done].
  destruct Ha as (Hc' & -> & Ham). rewrite Hh. subst start. rewrite <- hidden_rows_app. by apply HQ.
Qed.

(** The configuration of a speculator built for its target. *)
Definition configured w : Prop := vocab_size (dconfig (spec w)) = tvocab (T := T) ∧ hidden (dconfig (spec w)) = tdim (T := T) ∧
  num_extract (dconfig (spec w)) * hidden (dconfig (spec w)) = tstride (T := T) ∧ (Z.of_nat (tree_budget (tree_mode (spec w))) ≤ 2147483648)%Z ∧
  (max_block_size (draft_model (spec w)) = cfg_block_size (dconfig (spec w)) ∧ max_ctx_len (draft_model (spec w)) = spec_ctx_capacity (spec w)) ∧
  2 ≤ cfg_block_size (dconfig (spec w)).

Lemma aligned_configured w ctx : aligned w ctx → configured w.
Proof. by intros []. Qed.

(** The first token after a prompt. *)
Lemma first_token w c (Q : nat * Z → World W S T → Prop) temp : (∀ tok rng, chain_draw exp temp (dsample_top_p (spec w)) (dsample_top_k (spec w)) (tmodel c) (drng_state (spec w)) = (tok, rng) →
    Q (0, tok) (mkWorld (with_state (spec w) (draft_model (spec w)) (verify_scratch (spec w)) rng) (world_target w))) →
  wp (chain_walk exp (tmodel (T := T) c) [] (tvocab (T := T)) temp) w Q.
Proof.
  intros HQ. destruct (chain_draw exp temp (dsample_top_p (spec w)) (dsample_top_k (spec w)) (tmodel c) (drng_state (spec w))) as [tok rng] eqn:Hd. apply (wp_chain_walk w _ [] _ temp 0 tok rng); [|by apply HQ].
  unfold naive_sample_chain. rewrite bool_decide_eq_true_2 by (rewrite tmodel_length; cbn; lia). cbn [assert mbind result_bind chain_loop]. unfold logits_row. rewrite bool_decide_eq_true_2 by (rewrite tmodel_length; lia).
  cbn [mbind result_bind Nat.mul]. rewrite drop_0, take_ge by (by rewrite tmodel_length). by rewrite Hd.
Qed.

Lemma prefill_aligned w ctx prompt suffix start (hit : bool) : configured w → (hit = true → aligned w ctx ∧ start = length ctx) → (if hit then suffix else prompt) ≠ [] →
  let base := if hit then ctx else [] in
  let ctx' := base ++ entries_from (Z.of_nat (length base)) (if hit then suffix else prompt) in
  wp (dflash_prefill exp prompt suffix start hit) w (λ out w', match out with
    | PrefillAborted => True
    | PrefillReady tok => aligned w' ctx' ∧
        if is_greedy (dsample_temp (spec w)) then tok = tpick (tmodel (T := T) ctx')
        else chain_draw exp (dsample_temp (spec w)) (dsample_top_p (spec w)) (dsample_top_k (spec w)) (tmodel (T := T) ctx') (drng_state (spec w)) = (tok, drng_state (spec w'))
    end).
Proof.
  intros (Hv & Hd & Hs & Hb & Hcaps & Hblk) Hhit Hne base ctx'. unfold dflash_prefill.
  set (ready (m : DflashScratch W) (t1 : T) := mkWorld (with_host (with_state (spec w) m (verify_scratch (spec w)) (drng_state (spec w))) (hidden_rows (T := T) base)) t1).
  assert (∀ m t1 toks st, max_block_size m = max_block_size (draft_model (spec w)) → max_ctx_len m = max_ctx_len (draft_model (spec w)) →
    (hit = true → causal_cells (cell t1) ctx) → toks = (if hit then suffix else prompt) → st = length base →
    wp (adv ← advance_call toks st (negb hit);
      match adv with
      | AdvanceReady last_argmax last_logits =>
          sp ← self;
          if is_greedy (dsample_temp sp) then mret (PrefillReady last_argmax) else
          logits ← lift (ok_or "GenericDflashSpeculator: temp>0 prefill needs last_logits from SpecTarget::spec_advance (target only exposed GPU argmax)" last_logits);
          let vocab := vocab_size (dconfig sp) in
          lift (err_if (negb (bool_decide (length logits = vocab))) "GenericDflashSpeculator: last_logits len != vocab") ;;
          walk ← chain_walk exp logits [] vocab (dsample_temp sp);
          lift (assert (bool_decide (walk.1 = 0))) ;;
          mret (PrefillReady walk.2)
      | AdvanceAborted => mret PrefillAborted
      end) (ready m t1) (λ out w', match out with
        | PrefillAborted => True
        | PrefillReady tok => aligned w' ctx' ∧
            if is_greedy (dsample_temp (spec w)) then tok = tpick (tmodel (T := T) ctx')
            else chain_draw exp (dsample_temp (spec w)) (dsample_top_p (spec w)) (dsample_top_k (spec w)) (tmodel (T := T) ctx') (drng_state (spec w)) = (tok, drng_state (spec w'))
        end)) as Hrest.
  { intros m t1 toks st Hm1 Hm2 Hc1 -> ->. apply wp_bind, (advance_exact (ready m t1) ctx); [by destruct hit; [intros _; apply Hc1|]|by destruct hit|by destruct hit|done|].
    intros t' am lg c1 Hc' Ham. assert (c1 = ctx') as Hbase by (unfold c1, ctx', base; by destruct hit). rewrite Hbase in *. clear c1 Hbase. destruct (Ham Hne) as [-> Hlg].
    apply wp_bind. unfold wp at 1, self. cbn [spec ready with_host with_state dsample_temp dconfig]. destruct (is_greedy (dsample_temp (spec w))) eqn:Hg; [apply wp_ret; split; [split; try done; cbn; by rewrite Hm1, Hm2|done]|].
    destruct Hlg as [->| ->]; [done|]. apply wp_bind. eapply wp_lift; [done|]. rewrite Hv. apply wp_seq. unfold wp at 1, lift. rewrite bool_decide_eq_true_2 by apply tmodel_length. cbn [negb err_if].
    apply wp_bind, first_token. intros tok rng Hdraw. cbn [fst snd]. apply wp_seq, wp_check; [done|]. apply wp_ret. split; [split; try done; cbn; by rewrite Hm1, Hm2|exact Hdraw]. }
  destruct hit.
  - destruct (Hhit eq_refl) as [Hal ->]. apply wp_seq, wp_ret. replace w with (ready (draft_model (spec w)) (world_target w)) at 1 by (unfold ready; change base with ctx; pose proof (al_host _ _ Hal) as Hhost; rewrite <- Hhost; by destruct w as [[] ?]).
    apply Hrest; [done|done|intros _; apply Hal|done|done].
  - apply wp_seq. unfold wp at 1, dflash_reset. by apply (Hrest (reset_upload_tracking (draft_model (spec w))) (world_target w)).
Qed.

Lemma forced_advance_aligned w ctx tokens : aligned w ctx →
  wp (on_forced_advance tokens (length ctx)) w (λ r w', r = true ∧
    (aligned w' (ctx ++ entries_from (Z.of_nat (length ctx)) tokens) ∨ (dt_advance (world_target w) tokens (length ctx) false).1 = Ok AdvanceAborted)).
Proof.
  intros Hal. pose proof Hal as [Hc Hh Hv Hd Hs Hb Hcaps Hblk]. unfold on_forced_advance. case_bool_decide as He; [apply wp_ret; split; [done|]; left; subst; cbn; by rewrite app_nil_r|].
  apply wp_bind. unfold wp at 1. apply wp_seq. unfold wp at 1, lift, err_if. case_bool_decide; [done|]. apply wp_bind. unfold wp at 1, self. apply wp_seq. unfold wp at 1, lift.
  rewrite <- !Nat.mul_assoc, Hs, Hh, hidden_rows_length, bool_decide_eq_true_2 by done. cbn [negb err_if]. apply wp_bind.
  unfold wp at 1. pose proof (advance_exact w ctx tokens (length ctx) false (λ adv w', adv ≠ AdvanceAborted → aligned w' (ctx ++ entries_from (Z.of_nat (length ctx)) tokens)) (λ _, Hc) eq_refl Hh ltac:(done)) as Hadv.
  specialize (Hadv ltac:(intros t' am lg c' Hc' _ _; by split)). unfold wp, advance_call in *. destruct (dt_advance (world_target w) tokens (length ctx) false) as [[adv|e|] [t' rows]]; [|done|done].
  destruct adv as [am lg|]; [|split; [done|by right]]. specialize (Hadv ltac:(done)). pose proof (al_host _ _ Hadv) as Hh'. cbn [spec with_host target_hidden_host] in Hh'.
  unfold mbind, M_bind, self, lift, mret, M_ret. cbn [spec with_host target_hidden_host]. rewrite Hh', hidden_rows_length, length_app, entries_length, bool_decide_eq_true_2 by lia.
  cbn [negb err_if]. split; [done|]. left. rewrite <- Hh'. exact Hadv.
Qed.

(** C7: a speculative step is as good as decoding one token at a time. From a state whose
    cache and hidden rows are those of the tokens so far, at a position within the context
    capacity and with a draft of blocks of at least two tokens, a step over a chain, a tree
    or a single token does not panic: what it hands to the draft passes the draft's own
    checks of block size, context length, embedding, hidden rows and positions. When it
    succeeds it emits at least one token and at most the budget, leaves cache and hidden
    rows exactly as if the seed and the emitted tokens but the last had been processed one
    by one, wherever the tree forward had put them, and, unless a tree is sampled without
    replacement, the tokens and the generator state are those of the target drawing
    alone. *)
Theorem dflash_step_exact w ctx seed temp max_emit : aligned w ctx → 1 ≤ tvocab (T := T) → step_room (spec w) (length ctx) max_emit →
  (dflash_step exp exp64 ln64 (length ctx) seed temp max_emit w).1 ≠ Panic ∧
  ∀ st w', dflash_step exp exp64 ln64 (length ctx) seed temp max_emit w = (Ok st, w') →
    step_post w ctx seed (step_draw (spec w) temp max_emit) max_emit (tree_enabled (tree_mode (spec w)) = false ∨ max_emit = 1 ∨ is_greedy temp = true) st w'.
Proof.
  intros Hal Hv Hr. pose proof (dflash_step_aligned w ctx seed temp max_emit Hal Hv Hr) as Hwp. unfold wp in Hwp.
  destruct (dflash_step exp exp64 ln64 (length ctx) seed temp max_emit w) as [[st|e|] w1]; (split; [done|intros st' w' [= <- <-]; done]) || done.
Qed.

(** A draft of smaller blocks is of no use: the step asks for two tokens, its buffers hold
    one, and the check panics or the target has failed before. *)
Lemma small_block_never_steps w position seed temp max_emit : max_block_size (draft_model (spec w)) = cfg_block_size (dconfig (spec w)) →
  cfg_block_size (dconfig (spec w)) < 2 → 2 ≤ max_emit → ∀ st w', dflash_step exp exp64 ln64 position seed temp max_emit w ≠ (Ok st, w').
Proof.
  intros Hcap Hblk Hm st w'. unfold dflash_step, mbind, M_bind. cbn [self]. rewrite bool_decide_eq_false_2, bool_decide_eq_false_2 by lia.
  replace (Nat.max (Nat.min (Nat.max (cfg_block_size (dconfig (spec w))) 2) max_emit) 2) with 2 by lia.
  assert (∀ a w1, propose_block position seed 2 w ≠ (Ok a, w1)) as Hno.
  2:{ destruct (propose_block position seed 2 w) as [[a|e|] w1]; [by exfalso; eapply Hno|done|done]. }
  intros a w1. unfold propose_block, mbind, M_bind, target_call. cbn [self]. destruct (dt_embed_row _ _) as [[r1|e|] t1]; [|done|done]. cbn [world_target spec].
  destruct (dt_embed_row _ _) as [[r2|e|] t2]; [|done|done]. unfold lift, assert. case_bool_decide; [|done]. case_bool_decide; [|done].
  unfold draft_call, draft_forward, draft_checks, assert. cbn [spec]. rewrite (bool_decide_eq_false_2 (2 ≤ max_block_size _)) by lia. done.
Qed.

(** A session: operations that succeeded, each at the position the last one left. *)
Inductive session (w0 : World W S T) : World W S T → list (Z * Z) → Prop :=
| session_start : session w0 w0 []
| session_prefill w ctx prompt suffix (hit : bool) tok w' : session w0 w ctx → (if hit then suffix else prompt) ≠ [] →
    dflash_prefill exp prompt suffix (length ctx) hit w = (Ok (PrefillReady tok), w') →
    session w0 w' ((if hit then ctx else []) ++ entries_from (Z.of_nat (length (if hit then ctx else []))) (if hit then suffix else prompt))
| session_step w ctx seed temp max_emit st toks bonus w' : session w0 w ctx → step_room (spec w) (length ctx) max_emit →
    dflash_step exp exp64 ln64 (length ctx) seed temp max_emit w = (Ok st, w') → emit st = toks ++ [bonus] →
    session w0 w' (ctx ++ entries_from (Z.of_nat (length ctx)) (seed :: toks))
| session_forced w ctx tokens w' : session w0 w ctx → on_forced_advance tokens (length ctx) w = (Ok true, w') →
    (dt_advance (world_target w) tokens (length ctx) false).1 ≠ Ok AdvanceAborted → session w0 w' (ctx ++ entries_from (Z.of_nat (length ctx)) tokens)
| session_sampling w ctx temp top_p top_k w' : session w0 w ctx → dflash_set_sampling temp top_p top_k w = (Ok tt, w') → session w0 w' ctx.

Lemma session_aligned w0 w ctx : configured w0 → target_hidden_host (spec w0) = [] → 1 ≤ tvocab (T := T) → session w0 w ctx → aligned w ctx.
Proof.
  intros Hcfg Hhost Hvoc. induction 1 as [|w ctx prompt suffix hit tok w' Hs IH Hne Hop|w ctx seed temp max_emit st toks bonus w' Hs IH Hroom Hop Hemit|w ctx tokens w' Hs IH Hop Hnab|w ctx temp top_p top_k w' Hs IH Hop].
  - destruct Hcfg as (? & ? & ? & ? & ? & ?). split; try done. intros k Hk. cbn in Hk. lia.
  - pose proof (prefill_aligned w ctx prompt suffix (length ctx) hit (aligned_configured _ _ IH) ltac:(done) Hne) as Hwp. cbn zeta in Hwp. unfold wp in Hwp. rewrite Hop in Hwp. apply Hwp.
  - pose proof (dflash_step_aligned w ctx seed temp max_emit IH Hvoc Hroom) as Hwp. unfold wp in Hwp. rewrite Hop in Hwp. destruct Hwp as (toks' & bonus' & Hemit' & _ & _ & Hal & _).
    rewrite Hemit' in Hemit. apply app_inj_tail in Hemit as [-> _]. done.
  - pose proof (forced_advance_aligned w ctx tokens IH) as Hwp. unfold wp in Hwp. rewrite Hop in Hwp. by destruct Hwp as [_ [?|?]].
  - injection Hop as <-. destruct IH. by split.
Qed.

(** C31: the speculator and its target never drift apart. After any sequence of successful
    prefills, steps, forced tokens and sampling changes from a fresh speculator, the cache
    holds exactly the tokens processed and the host copy exactly their hidden rows. A step
    at a position within the context capacity does not panic, given that the draft was
    trained for blocks of at least two tokens and its buffers were made for its block size
    and that capacity, as the constructor makes them. *)
Theorem dflash_stays_aligned w0 w ctx : configured w0 → target_hidden_host (spec w0) = [] → 1 ≤ tvocab (T := T) → session w0 w ctx →
  aligned w ctx ∧ length (target_hidden_host (spec w)) = length ctx * tstride (T := T) ∧
  ∀ seed temp max_emit, step_room (spec w) (length ctx) max_emit → (dflash_step exp exp64 ln64 (length ctx) seed temp max_emit w).1 ≠ Panic.
Proof.
  intros Hcfg Hhost Hvoc Hs. pose proof (session_aligned w0 w ctx Hcfg Hhost Hvoc Hs) as Hal. split; [done|]. split; [by rewrite (al_host _ _ Hal), hidden_rows_length|].
  intros seed temp max_emit Hroom. pose proof (dflash_step_aligned w ctx seed temp max_emit Hal Hvoc Hroom) as Hwp. unfold wp in Hwp.
  by destruct (dflash_step exp exp64 ln64 (length ctx) seed temp max_emit w) as [[st|e|] w1].
Qed.
End Exact.

(** ** The two greedy picks *)

Lemma pick_fold (items : list (nat * f32)) : ∀ best, Forall (λ iv : nat * f32, f32_is_finite iv.2 = true) items →
  foldl (λ best (iv : nat * f32), if f32_is_finite iv.2 && f32_lt best.2 iv.2 then iv else best) best items = foldl argmax_step best items.
Proof.
  induction items as [|iv items IH]; intros best Hf; [done|]. apply Forall_cons in Hf as [Hi Hf]. cbn [foldl]. rewrite IH by done. f_equal. unfold argmax_step. by rewrite Hi.
Qed.

(** C32: the tree arm and the chain arm pick the same greedy token on rows of finite
    logits, and only there: on a row with a positive infinity the walk of a tree selects
    it while the target's own selection, which skips what is not finite, does not. *)
Theorem greedy_picks_agree_on_finite_rows :
  (∀ row, Forall (λ v, f32_is_finite v = true) row → llama_argmax row = argmax row) ∧
  llama_argmax [f32_one; S754_infinity false] = 0%Z ∧ argmax [f32_one; S754_infinity false] = 1%Z.
Proof.
  split; [|done]. intros row Hr. unfold llama_argmax, argmax. rewrite pick_fold; [done|]. apply Forall_forall. intros iv Hiv%enumerate_elem. rewrite Forall_forall in Hr. apply Hr. by eapply list_elem_of_lookup_2.
Qed.

(** ** A target that satisfies the contract *)

(** The cache as the list of what each slot was computed from. *)
Module Toy.
(** What the slots below [position] were computed from, as a whole. *)
Definition prefix (t : (list (list (Z * Z)))) (position : nat) : list (Z * Z) := match position with 0 => [] | S k => default [] (t !! k) end.
Definition hid (c : list (Z * Z)) : list f32 := [f32_of_Z (Z.of_nat (length c))].
Definition write (t : (list (list (Z * Z)))) (position : nat) (cells : (list (list (Z * Z)))) : (list (list (Z * Z))) := take position t ++ cells.
Definition chain (t : (list (list (Z * Z)))) (block : list Z) (position : nat) : (list (list (Z * Z))) := block_contexts (prefix t position) position block.
#[global] Instance target : DflashTarget (list (list (Z * Z))) unit := {|
  dt_extract_layers _ := [0];
  dt_advance t tokens start reset :=
    let t := if reset then [] else t in
    let cells := chain t tokens start in
    let c := prefix t start ++ entries_from (Z.of_nat start) tokens in
    (Ok (AdvanceReady (llama_argmax (Demo.model c)) (Some (Demo.model c))), (write t start cells, concat (hid <$> cells)));
  dt_verify_block t s block position :=
    (Ok (llama_argmax ∘ Demo.model <$> chain t block position, concat (hid <$> chain t block position)), (write t position (chain t block position), s));
  dt_verify_block_logits t s block position :=
    (Ok (concat (Demo.model <$> chain t block position), concat (hid <$> chain t block position)), (write t position (chain t block position), s));
  dt_verify_tree_logits t s tokens mask positions position :=
    let l := mkLinearized tokens positions mask [] in
    let cells := (λ i, prefix t position ++ attended l i) <$> seq 0 (length tokens) in
    (Ok (block_logits Demo.model (prefix t position) l, concat (hid <$> cells)), (write t position cells, s));
  dt_commit_prefix t s block accept position := (Ok tt, (t, s));
  dt_embed_row t _ := (Ok [f32_one], t);
  dt_lm_head_logits t _ batch := (Ok (concat (replicate batch (Demo.one_hot 6))), t) |}.
#[global] Instance draft_dev : DraftModel unit := {|
  draft_kernels m _ _ _ _ b _ := (Ok (replicate b f32_zero), m);
  reset_device_tracking m := m |}.
#[global] Instance draft_ok : DraftContract unit.
Proof. by split. Qed.

Lemma prefix_causal t ctx : causal_cells (λ k, t !! k) ctx → prefix t (length ctx) = ctx.
Proof. intros Hc. destruct (length ctx) as [|k] eqn:Hl; cbn; [by destruct ctx|]. rewrite (Hc k) by lia. cbn. rewrite take_ge by lia. done. Qed.

Lemma write_causal t ctx cells : causal_cells (λ k, t !! k) ctx → causal_cells (λ k, write t (length ctx) cells !! k) ctx ∧
  ∀ i, i < length cells → write t (length ctx) cells !! (length ctx + i) = cells !! i.
Proof.
  intros Hc. assert (length (take (length ctx) t) = length ctx) as Hl.
  { rewrite length_take. destruct (decide (length ctx = 0)); [lia|]. pose proof (Hc (length ctx - 1) ltac:(lia)) as Hk. apply lookup_lt_Some in Hk. lia. }
  split.
  - intros k Hk. cbn beta. unfold write. rewrite lookup_app_l by lia. rewrite lookup_take_lt by done. by apply Hc.
  - intros i Hi. unfold write. rewrite lookup_app_r, Hl by lia. f_equal. lia.
Qed.

Lemma chain_causal t ctx block : causal_cells (λ k, t !! k) ctx →
  causal_cells (λ k, write t (length ctx) (chain t block (length ctx)) !! k) (ctx ++ entries_from (Z.of_nat (length ctx)) block).
Proof.
  intros Hc k Hk. cbn beta. destruct (write_causal t ctx (chain t block (length ctx)) Hc) as [Hlow Hhigh]. rewrite length_app, entries_length in Hk. unfold chain in *. rewrite (prefix_causal t ctx Hc) in *.
  destruct (decide (k < length ctx)); [rewrite take_app_le by lia; by apply Hlow|]. replace k with (length ctx + (k - length ctx)) by lia. rewrite Hhigh by (unfold block_contexts; rewrite length_fmap, length_seq; lia).
  unfold block_contexts. rewrite list_lookup_fmap, lookup_seq_lt by lia. cbn. by rewrite <- Nat.add_succ_r, take_app_add, entries_take.
Qed.
End Toy.

#[global] Instance toy_contract : DflashContract (list (list (Z * Z))) unit.
Proof.
  refine {| cell := λ (t : (list (list (Z * Z)))) k, t !! k; tmodel := Demo.model; thidden := Toy.hid; tpick := llama_argmax; tvocab := 10; tdim := 1; tstride := 1 |}.
  - intros c. unfold Demo.model, Demo.one_hot. by rewrite length_insert.
  - done.
  - intros t s block position ctx Hc ->. cbn. split_and!; [unfold Toy.chain; by rewrite (Toy.prefix_causal t ctx Hc)..|by apply Toy.chain_causal].
  - intros t s block position ctx Hc ->. cbn. split_and!; [unfold Toy.chain; by rewrite (Toy.prefix_causal t ctx Hc)..|by apply Toy.chain_causal].
  - intros t s tokens mask positions position ctx Hc ->. cbn. rewrite (Toy.prefix_causal t ctx Hc). split_and!; [done|by rewrite <- list_fmap_compose| |].
    + by apply Toy.write_causal.
    + intros i Hi. rewrite (proj2 (Toy.write_causal t ctx _ Hc)) by (by rewrite length_fmap, length_seq). by rewrite list_lookup_fmap, lookup_seq_lt.
  - intros t s block accept position ctx -> Ha Hc. exact Hc.
  - intros t tokens start reset ctx Hc ->. cbn. destruct reset; cbn.
    + assert (causal_cells (λ k, ([] : (list (list (Z * Z)))) !! k) []) as Hnil by (intros k Hk; cbn in Hk; lia). split_and!; [exact (Toy.chain_causal [] [] tokens Hnil)|done|intros _; by split; [|right]].
    + rewrite (Toy.prefix_causal t ctx Hc). split_and!; [by apply Toy.chain_causal|unfold Toy.chain; by rewrite (Toy.prefix_causal t ctx Hc)|intros _; by split; [|right]].
  - intros t x ctx Hc. by split.
  - intros t x batch ctx Hc. cbn. split; [|done]. induction batch as [|batch IH]; [done|]. cbn [replicate concat]. rewrite length_app, IH. done.
Defined.

(** ** Evaluation at a concrete target *)

Module Run.
(** A fresh speculator of one hidden dimension, ten tokens and blocks of four. *)
Definition fresh (tree : bool) : World unit unit (list (list (Z * Z))) :=
  mkWorld (mkDflash (mkDflashScratch 4 100 tt) (mkDflashConfig 1 10 4 0 [0]) [] (Some tt) 4 100 (mkTreeMode tree 14 2) 7 f32_zero f32_one 0) [].
Definition id32 (x : f32) : f32 := x.
Definition id64 (x : f64) : f64 := x.
Definition prompted (tree : bool) := (dflash_prefill id32 [3; 4]%Z [] 0 false (fresh tree)).2.
Definition stepped (tree : bool) (seed : Z) := dflash_step id32 id64 id64 (length (entries_from 0 [3; 4]%Z)) seed f32_zero 4 (prompted tree).

Lemma prompted_session tree : session id32 id64 id64 (fresh tree) (prompted tree) (entries_from 0 [3; 4]%Z).
Proof.
  apply (session_prefill _ _ _ _ (fresh tree) [] [3; 4]%Z [] false 9%Z); [constructor|done|]. destruct tree; by vm_compute.
Qed.

(** A seed the first candidate follows, one that only the second candidate of a tree
    follows (which the step verifies again as a chain), and the same two on a chain. *)
Example steps_evaluate :
  (λ r : result string SpecStep * _, (r.1, world_target r.2 !! 3)) <$> [stepped true 1; stepped true 5; stepped false 1; stepped false 5] =
  [(Ok (mkSpecStep [6; 7] 7 3 1), Some [(3, 0); (4, 1); (1, 2); (6, 3)]);
   (Ok (mkSpecStep [9; 9; 9; 9] 9 3 3), Some [(3, 0); (4, 1); (5, 2); (9, 3)]);
   (Ok (mkSpecStep [6; 7] 7 3 1), Some [(3, 0); (4, 1); (1, 2); (6, 3)]);
   (Ok (mkSpecStep [9] 9 3 0), Some [(3, 0); (4, 1); (5, 2); (6, 3)])]%Z.
Proof. by vm_compute. Qed.
End Run.

(** A detour of a tree is committed as if its tokens had been decoded one by one. *)
Lemma dflash_step_exact_witness :
  ∃ st w', Run.stepped true 5 = (Ok st, w') ∧ emit st = [9; 9; 9; 9]%Z ∧
  step_post (Run.prompted true) (entries_from 0 [3; 4]%Z) 5 (step_draw Run.id32 (spec (Run.prompted true)) f32_zero 4) 4 True st w'.
Proof.
  destruct (dflash_step_exact Run.id32 Run.id64 Run.id64 (Run.prompted true) (entries_from 0 [3; 4]%Z) 5 f32_zero 4) as [_ Hpost];
    [apply (session_aligned Run.id32 Run.id64 Run.id64 (Run.fresh true)); [split_and!; [done..|cbn; lia]|done|cbn; lia|apply Run.prompted_session]|cbn; lia|split; [vm_compute; lia|by vm_compute]|].
  unfold Run.stepped. destruct (dflash_step _ _ _ _ _ _ _ _) as [[st|e|] w'] eqn:Hs; [|by vm_compute in Hs..]. exists st, w'. split_and!; [done|by vm_compute in Hs; simplify_eq|].
  destruct (Hpost st w' eq_refl) as (toks & bonus & He & Hn & Hlt & Hal & Hc). exists toks, bonus. split_and!; [exact He|exact Hn|exact Hlt|exact Hal|]. intros _. apply Hc. right. right. reflexivity.
Defined.

Lemma dflash_stays_aligned_witness :
  aligned (Run.prompted true) (entries_from 0 [3; 4]%Z) ∧ length (target_hidden_host (spec (Run.prompted true))) = 2.
Proof.
  destruct (dflash_stays_aligned Run.id32 Run.id64 Run.id64 (Run.fresh true) (Run.prompted true) (entries_from 0 [3; 4]%Z)) as (Ha & Hl & _);
    [split_and!; [done..|cbn; lia]|done|cbn; lia|apply Run.prompted_session|]. split; [exact Ha|exact Hl].
Defined.
