(* ===== verification/Text.v ===== *)
(** Strings and JSON documents.

    What the code uses of [str] and of [serde_json::Value]. A string is the list of its
    characters ([Utf8]); prefixes, suffixes and substrings of characters are those of the
    bytes, since UTF-8 is a prefix code. Numbers that [as_u64] does not accept are not
    told apart. The parser is a parameter of the functions that use it. *)

From S2P Require Import Prelude Utf8.

#[local] Set Warnings "-register-all".


Abbreviation str := (list Z).
(** String literals of the code. *)
Definition lit (s : string) : str := str_bytes s.

(** [str::starts_with], [str::ends_with] *)
Definition starts_with (s p : str) : bool := bool_decide (take (length p) s = p).
Definition ends_with (s p : str) : bool := bool_decide (length p ≤ length s ∧ drop (length s - length p) s = p).

(** [str::find] *)
Fixpoint find_str (s p : str) : option nat :=
  if starts_with s p then Some 0 else match s with [] => None | _ :: s => S <$> find_str s p end.

(** [str::contains] *)
Definition contains (s p : str) : bool := bool_decide (is_Some (find_str s p)).

(** ** JSON *)

(** A parsed document, keys in order; [VUint] is a number that [as_u64] accepts. *)
Inductive Value : Type :=
| VNull
| VBool (b : bool)
| VUint (n : Z)
| VNumber
| VString (s : str)
| VArray (l : list Value)
| VObject (m : list (str * Value)).

Definition json_get (v : Value) (key : str) : option Value :=
  match v with VObject m => snd ∘ snd <$> list_find (λ e, e.1 = key) m | _ => None end.
Definition as_str (v : Value) : option str := match v with VString s => Some s | _ => None end.
Definition as_array (v : Value) : option (list Value) := match v with VArray l => Some l | _ => None end.
Definition as_object (v : Value) : option (list (str * Value)) := match v with VObject m => Some m | _ => None end.
Definition as_u64 (v : Value) : option Z := match v with VUint n => Some n | _ => None end.
Definition as_bool (v : Value) : option bool := match v with VBool b => Some b | _ => None end.
Definition is_null (v : Value) : bool := match v with VNull => true | _ => false end.

(** [v[key]] when it is read: what is not there is null. *)
Definition json_index (v : Value) (key : str) : Value := default VNull (json_get v key).
(** [v[key] = x]: null becomes an object, and only objects have keys. *)
Definition json_set {E} (v : Value) (key : str) (x : Value) : result E Value :=
  match v with
  | VNull => Ok (VObject [(key, x)])
  | VObject m => Ok (VObject (if bool_decide (is_Some (json_get v key)) then (λ e, if bool_decide (e.1 = key) then (key, x) else e) <$> m else m ++ [(key, x)]))
  | _ => Panic
  end.
