(* ===== verification/Bpe.v ===== *)
(** Byte-pair encoding of one chunk (src/crates/hipfire-runtime/src/tokenizer.rs).

    [encode_gpt2_chunk] merges adjacent symbols in order of rank. It keeps the symbols in
    a doubly linked list over array slots and the mergeable pairs in a priority queue whose
    entries are never removed: an entry is recognised as stale by the generation its left
    slot had when it was pushed.

    Proved here: the queue computes exactly what the plain algorithm computes, which scans
    the whole sequence for the leftmost pair of least rank and merges it, again and again.
    The assertion of the code on popped ranks never fails, no index is out of range, no
    generation counter overflows, and the loop ends after at most three pops per byte. *)

From S2P Require Import Prelude F32.

(** An entry of the queue: rank, left slot, generation of that slot at the push. *)
Definition PairEntry : Type := Z * nat * Z.
(** [Reverse<(u32, usize, u32)>] *)
Definition pair_entry_cmp (a b : PairEntry) : comparison := kcmp b a.

(** The arrays of [encode_gpt2_chunk]; [-1] ends the list in both directions. *)
Record Bpe := mkBpe {
  syms : list Z;
  prev : list Z;
  next : list Z;
  dead : list bool;
  gen : list Z;
  queue : list PairEntry }.

Section Encoder.
Context {E : Type} (merges : list Z) (merge_pair_rank : gmap (Z * Z) Z).

(** The closure [push_pair]. *)
Definition push_pair (queue : list PairEntry) (syms gen : list Z) (l r : nat) : result E (list PairEntry) :=
  sl ← index syms l;
  sr ← index syms r;
  match merge_pair_rank !! (sl, sr) with
  | Some rank => g ← index gen l; Ok ((rank, l, g) :: queue)
  | None => Ok queue
  end.

(** [gen[i] += 1] *)
Definition bump_generation (gen : list Z) (i : nat) : result E (list Z) :=
  g ← index gen i;
  g ← expect (checked_add U32_MAX g 1);
  store gen i g.

(** The body of the loop for a pair that is still there: [l] absorbs [r]. *)
Definition merge_pair (st : Bpe) (rank : Z) (l r : nat) : result E Bpe :=
  sl ← index (syms st) l;
  sr ← index (syms st) r;
  assert (bool_decide (merge_pair_rank !! (sl, sr) = Some rank)) ;;
  merged ← index merges (Z.to_nat rank);
  syms ← store (syms st) l merged;
  dead ← store (dead st) r true;
  gen ← bump_generation (gen st) l;
  nr ← index (next st) r;
  next ← store (next st) l nr;
  prev ← (if (0 <=? nr)%Z then store (prev st) (Z.to_nat nr) (as_i32 (Z.of_nat l)) else Ok (prev st));
  pl ← index prev l;
  gq ← (if (0 <=? pl)%Z then
      gen ← bump_generation gen (Z.to_nat pl);
      queue ← push_pair (queue st) syms gen (Z.to_nat pl) l;
      Ok (gen, queue)
    else Ok (gen, queue st));
  nl ← index next l;
  queue ← (if (0 <=? nl)%Z then push_pair gq.2 syms gq.1 l (Z.to_nat nl) else Ok gq.2);
  Ok (mkBpe syms prev next dead gq.1 queue).

(** [while let Some(Reverse((rank, l, gen_at_push))) = heap.pop()] *)
Fixpoint merge_loop (fuel : nat) (st : Bpe) : result E Bpe :=
  match fuel with
  | 0 => Panic
  | S fuel =>
      match heap_pop pair_entry_cmp (queue st) with
      | None => Ok st
      | Some ((rank, l, gen_at_push), rest) =>
          let st := mkBpe (syms st) (prev st) (next st) (dead st) (gen st) rest in
          dl ← index (dead st) l;
          gl ← index (gen st) l;
          if dl || negb (gl =? gen_at_push)%Z then merge_loop fuel st else
          r ← index (next st) l;
          if (r <? 0)%Z then merge_loop fuel st else
          st ← merge_pair st rank l (Z.to_nat r);
          merge_loop fuel st
      end
  end.

(** The linked list of [n] fresh symbols and the queue of their pairs. *)
Definition start_chunk (syms : list Z) : result E Bpe :=
  let n := length syms in
  let prev := (λ i, (i - 1)%Z) <$> i32_range 0 (as_i32 (Z.of_nat n)) in
  let next := (λ i, if (i + 1 <? as_i32 (Z.of_nat n))%Z then (i + 1)%Z else (-1)%Z) <$> i32_range 0 (as_i32 (Z.of_nat n)) in
  let dead := replicate n false in
  let gen := replicate n 0%Z in
  queue ← try_fold (λ queue i, push_pair queue syms gen i (i + 1)) [] (seq 0 (n - 1));
  Ok (mkBpe syms prev next dead gen queue).

(** [(0..n).find(|&i| prev[i] == -1 && !dead[i])] *)
Fixpoint find_head (st : Bpe) (slots : list nat) : result E (option nat) :=
  match slots with
  | [] => Ok None
  | i :: slots =>
      p ← index (prev st) i;
      if (p =? -1)%Z then
        d ← index (dead st) i;
        if negb d then Ok (Some i) else find_head st slots
      else find_head st slots
  end.

(** [while p >= 0]: the symbols in list order. *)
Fixpoint collect (fuel : nat) (st : Bpe) (p : Z) : result E (list Z) :=
  if (p <? 0)%Z then Ok [] else
  match fuel with
  | 0 => Panic
  | S fuel =>
      s ← index (syms st) (Z.to_nat p);
      q ← index (next st) (Z.to_nat p);
      rest ← collect fuel st q;
      Ok (s :: rest)
  end.

(** [encode_gpt2_chunk] *)
Definition encode_gpt2_chunk (byte_to_id : option (list Z)) (chunk_bytes out : list Z) : result E (list Z) :=
  byte_to_id ← expect byte_to_id;
  syms ← try_map (λ b, index byte_to_id (Z.to_nat b)) chunk_bytes;
  let n := length syms in
  match syms with
  | [] => Ok out
  | [s] => Ok (out ++ [s])
  | _ =>
      st ← start_chunk syms;
      st ← merge_loop (3 * n) st;
      head ← find_head st (seq 0 n);
      rest ← collect n st (match head with Some i => as_i32 (Z.of_nat i) | None => (-1)%Z end);
      Ok (out ++ rest)
  end.
End Encoder.

(** ** The plain algorithm *)

Section Plain.
Context (merges : list Z) (merge_pair_rank : gmap (Z * Z) Z).

(** The rank of the pair at position [k]. *)
Definition rank_at (l : list Z) (k : nat) : option Z := x ← l !! k; y ← l !! S k; merge_pair_rank !! (x, y).

(** The leftmost pair of least rank. *)
Fixpoint best_pair (l : list Z) : option (Z * nat) :=
  match l with
  | [] => None
  | x :: l' =>
      match rank_at l 0, best_pair l' with
      | None, None => None
      | Some r, None => Some (r, 0)
      | None, Some (r', k) => Some (r', S k)
      | Some r, Some (r', k) => if (r <=? r')%Z then Some (r, 0) else Some (r', S k)
      end
  end.

(** The pair at position [k] becomes one symbol. *)
Definition merge_at (l : list Z) (k : nat) (merged : Z) : list Z := <[k := merged]> (delete (S k) l).

Fixpoint merge_all (fuel : nat) (l : list Z) : list Z :=
  match fuel with
  | 0 => l
  | S fuel => match best_pair l with None => l | Some (rank, k) => merge_all fuel (merge_at l k (nth (Z.to_nat rank) merges 0%Z)) end
  end.
(** Every merge removes a symbol, so no sequence allows more merges than it has symbols. *)
Definition bpe_reference (l : list Z) : list Z := merge_all (length l) l.
End Plain.

(** ** The leftmost pair of least rank *)

Section PlainFacts.
Context (merges : list Z) (table : gmap (Z * Z) Z).

Lemma rank_at_lt l k r : rank_at table l k = Some r → S k < length l.
Proof. unfold rank_at. intros (x & Hx & (y & Hy & _)%bind_Some)%bind_Some. by apply lookup_lt_Some in Hy. Qed.

Lemma best_pair_None l : best_pair table l = None ↔ ∀ k, rank_at table l k = None.
Proof.
  induction l as [|x l IH]; [by split|]. cbn [best_pair]. split.
  - intros Hb k. destruct (rank_at table (x :: l) 0) eqn:H0; [destruct (best_pair table l) as [[r' k']|]; [destruct (_ <=? _)%Z|]; done|].
    destruct (best_pair table l) as [[r' k']|]; [done|]. destruct k as [|k]; [done|]. exact (proj1 IH eq_refl k).
  - intros Hn. rewrite (Hn 0). assert (best_pair table l = None) as -> by (apply IH; intros k; exact (Hn (S k))). done.
Qed.

Lemma best_pair_Some l : ∀ r k, rank_at table l k = Some r → (∀ j r', rank_at table l j = Some r' → (r < r')%Z ∨ (r = r' ∧ k ≤ j)) →
  best_pair table l = Some (r, k).
Proof.
  induction l as [|x l IH]; intros r k Hr Hmin; [by destruct k|]. cbn [best_pair]. destruct k as [|k].
  - rewrite Hr. destruct (best_pair table l) as [[r' k']|] eqn:Hb; [|done].
    assert (∃ k'', rank_at table l k'' = Some r') as (k'' & Hk'').
    { clear -Hb. revert r' k' Hb. induction l as [|y l IH]; intros r' k' Hb; [done|]. cbn [best_pair] in Hb. destruct (rank_at table (y :: l) 0) as [q|] eqn:H0, (best_pair table l) as [[q' j]|].
      - destruct (_ <=? _)%Z; simplify_eq; [by exists 0|]. destruct (IH _ _ eq_refl) as [i Hi]. by exists (S i).
      - simplify_eq. by exists 0.
      - simplify_eq. destruct (IH _ _ eq_refl) as [i Hi]. by exists (S i).
      - done. }
    destruct (Hmin (S k'') r' Hk'') as [?|[? ?]]; rewrite (proj2 (Z.leb_le r r')) by lia; done.
  - rewrite (IH r k); [|exact Hr|].
    + destruct (rank_at table (x :: l) 0) as [q|] eqn:H0; [|done]. destruct (Hmin 0 q H0) as [?|[? ?]]; [|lia]. by rewrite (proj2 (Z.leb_gt q r)).
    + intros j r' Hj. destruct (Hmin (S j) r' Hj) as [?|[? ?]]; [by left|right; lia].
Qed.

Lemma best_pair_rank l r k : best_pair table l = Some (r, k) → rank_at table l k = Some r.
Proof.
  revert r k. induction l as [|x l IH]; intros r k Hb; [done|]. cbn [best_pair] in Hb.
  destruct (rank_at table (x :: l) 0) as [q|] eqn:H0, (best_pair table l) as [[q' j]|]; [destruct (_ <=? _)%Z| | |]; simplify_eq; try done; exact (IH _ _ eq_refl).
Qed.

Lemma merge_at_length l k m : S k < length l → S (length (merge_at l k m)) = length l.
Proof. intros Hk. unfold merge_at. rewrite length_insert, length_delete by (apply lookup_lt_is_Some; lia). lia. Qed.

(** The plain algorithm has nothing left to merge when it stops. *)
Lemma merge_all_done fuel : ∀ l, length l ≤ fuel → best_pair table (merge_all merges table fuel l) = None.
Proof.
  induction fuel as [|fuel IH]; intros l Hl; [destruct l; [done|cbn in Hl; lia]|]. cbn [merge_all]. destruct (best_pair table l) as [[r k]|] eqn:Hb; [|done].
  apply best_pair_rank, rank_at_lt in Hb as Hk. apply IH. pose proof (merge_at_length l k (nth (Z.to_nat r) merges 0%Z) Hk). lia.
Qed.

Lemma merge_all_fuel fuel fuel' l : length l ≤ fuel → length l ≤ fuel' → merge_all merges table fuel l = merge_all merges table fuel' l.
Proof.
  revert fuel' l. induction fuel as [|fuel IH]; intros fuel' l Hl Hl'; [destruct l; [by destruct fuel'|cbn in Hl; lia]|]. destruct fuel' as [|fuel']; [destruct l; [done|cbn in Hl'; lia]|].
  cbn [merge_all]. destruct (best_pair table l) as [[r k]|] eqn:Hb; [|done]. apply best_pair_rank, rank_at_lt in Hb as Hk. pose proof (merge_at_length l k (nth (Z.to_nat r) merges 0%Z) Hk). apply IH; lia.
Qed.

(** Where a merge leaves the symbols. *)
Lemma merge_at_lookup l k m j : S k < length l → merge_at l k m !! j = if decide (j = k) then Some m else if decide (j < k) then l !! j else l !! S j.
Proof.
  intros Hk. unfold merge_at. destruct (decide (j = k)) as [->|Hjk].
  - apply list_lookup_insert_eq. rewrite length_delete by (apply lookup_lt_is_Some; lia). lia.
  - rewrite list_lookup_insert_ne by done. destruct (decide (j < k)); [by rewrite list_lookup_delete_lt by lia|by rewrite list_lookup_delete_ge by lia].
Qed.

Lemma rank_at_merged l k m j : S k < length l → j ≠ k → S j ≠ k → rank_at table (merge_at l k m) j = rank_at table l (if decide (j < k) then j else S j).
Proof. intros Hk Hj Hj'. unfold rank_at. rewrite !merge_at_lookup by done. repeat case_decide; try lia; done. Qed.
End PlainFacts.

(** ** The linked list and the queue *)

(** The ranks of the table point into the list of merge results. *)
Definition table_ok (merges : list Z) (table : gmap (Z * Z) Z) : Prop := ∀ p r, table !! p = Some r → (0 ≤ r)%Z ∧ Z.to_nat r < length merges.

Section Invariant.
Context {E : Type} (table : gmap (Z * Z) Z) (n : nat).

Definition slot_z (o : option nat) : Z := match o with Some i => Z.of_nat i | None => (-1)%Z end.
Definition pred_slot (order : list nat) (k : nat) : option nat := match k with 0 => None | S k => order !! k end.
Definition live_syms (sy : list Z) (order : list nat) : list Z := (λ i, nth i sy 0%Z) <$> order.

(** The slots of [order] are alive and linked in this order; all others are dead. *)
Record links (sy pr ne : list Z) (de : list bool) (order : list nat) : Prop := {
  lk_syms : length sy = n; lk_prev : length pr = n; lk_next : length ne = n; lk_dead : length de = n;
  lk_sorted j k a b : order !! j = Some a → order !! k = Some b → j < k → a < b;
  lk_first : order !! 0 = Some 0;
  lk_live k i : order !! k = Some i → i < n ∧ de !! i = Some false ∧ ne !! i = Some (slot_z (order !! S k)) ∧ pr !! i = Some (slot_z (pred_slot order k));
  lk_gone i : i < n → i ∉ order → de !! i = Some true }.

(** An entry with the current generation of a live slot describes the pair that starts
    there, and every pair with a rank has such an entry. *)
Record queued (sy ge : list Z) (de : list bool) (order : list nat) (q : list PairEntry) : Prop := {
  qu_gen : length ge = n;
  qu_bound i g : ge !! i = Some g → (0 ≤ g)%Z ∧ (g + Z.of_nat (length order) ≤ Z.of_nat n)%Z;
  qu_sound rank l g : (rank, l, g) ∈ q → ∃ g', ge !! l = Some g' ∧ (g ≤ g')%Z ∧
    (g = g' → de !! l = Some false → ∃ k, order !! k = Some l ∧ rank_at table (live_syms sy order) k = Some rank);
  qu_complete k l rank g : order !! k = Some l → rank_at table (live_syms sy order) k = Some rank → ge !! l = Some g → (rank, l, g) ∈ q }.

Lemma order_inj sy pr ne de order j k a : links sy pr ne de order → order !! j = Some a → order !! k = Some a → j = k.
Proof. intros Hl Hj Hk. destruct (Nat.lt_total j k) as [Hlt|[Heq|Hlt]]; [pose proof (lk_sorted _ _ _ _ _ Hl _ _ _ _ Hj Hk Hlt)|done|pose proof (lk_sorted _ _ _ _ _ Hl _ _ _ _ Hk Hj Hlt)]; lia. Qed.

Lemma live_lookup sy order k i : order !! k = Some i → i < length sy → ∃ s, sy !! i = Some s ∧ live_syms sy order !! k = Some s.
Proof. intros Hk Hi. destruct (lookup_lt_is_Some_2 sy i Hi) as [s Hs]. exists s. split; [done|]. unfold live_syms. rewrite list_lookup_fmap, Hk. cbn. f_equal. by apply nth_lookup_Some. Qed.

Lemma delete_lookup (order : list nat) k j : delete (S k) order !! j = if decide (j ≤ k) then order !! j else order !! S j.
Proof. case_decide; [by rewrite list_lookup_delete_lt by lia|by rewrite list_lookup_delete_ge by lia]. Qed.

Section Merge.
Context (sy pr ne : list Z) (de : list bool) (order : list nat) (k l r : nat) (merged : Z).
Context (Hlinks : links sy pr ne de order) (Hl : order !! k = Some l) (Hr : order !! S k = Some r).

Lemma live_merged : live_syms (<[l := merged]> sy) (delete (S k) order) = merge_at (live_syms sy order) k merged.
Proof.
  destruct Hlinks. pose proof (lk_live0 k l Hl) as (Hln & _). apply list_eq. intros j. assert (length (live_syms sy order) = length order) as Hlen by apply length_fmap. pose proof (lookup_lt_Some _ _ _ Hr) as HSk.
  rewrite merge_at_lookup by lia. unfold live_syms. rewrite !list_lookup_fmap, delete_lookup. destruct (decide (j = k)) as [->|Hjk].
  - rewrite decide_True by lia. rewrite Hl. cbn. f_equal. apply nth_lookup_Some, list_lookup_insert_eq. lia.
  - assert (∀ i a, order !! i = Some a → i ≠ k → nth a (<[l := merged]> sy) 0%Z = nth a sy 0%Z) as Hother.
    { intros i a Ha Hik. rewrite !nth_lookup, list_lookup_insert_ne; [done|]. intros <-. apply Hik. by eapply order_inj. }
    destruct (decide (j < k)); [rewrite decide_True by lia|rewrite decide_False by lia].
    + destruct (order !! j) eqn:Ha; [|done]. cbn. f_equal. by eapply Hother.
    + destruct (order !! S j) eqn:Ha; [|done]. cbn. f_equal. eapply Hother; [done|lia].
Qed.

Lemma links_merge : links (<[l := merged]> sy) (match order !! S (S k) with Some x => <[x := Z.of_nat l]> pr | None => pr end)
  (<[l := slot_z (order !! S (S k))]> ne) (<[r := true]> de) (delete (S k) order).
Proof.
  pose proof (order_inj _ _ _ _ _ k (S k) l Hlinks Hl) as Hlr. destruct Hlinks as [Hs1 Hs2 Hs3 Hs4 Hsort Hfirst Hlive Hgone]. pose proof (Hlive k l Hl) as (Hln & _). pose proof (Hlive (S k) r Hr) as (Hrn & _).
  assert (∀ i j a, order !! i = Some a → order !! j = Some a → i = j) as Hinj by (intros; by eapply order_inj).
  split; [by rewrite length_insert|destruct (order !! S (S k)); by rewrite ?length_insert|by rewrite length_insert..| | | |].
  - intros i j a b. rewrite !delete_lookup. intros Ha Hb Hij. repeat case_decide; (eapply Hsort; [exact Ha|exact Hb|lia]).
  - rewrite delete_lookup, decide_True by lia. done.
  - intros j i. rewrite !delete_lookup. intros Hi. set (j' := if decide (j ≤ k) then j else S j). assert (order !! j' = Some i) as Hj' by (subst j'; by case_decide). destruct (Hlive j' i Hj') as (Hin & Hd & Hnx & Hpv).
    assert (i ≠ r) as Hir by (intros ->; pose proof (Hinj _ _ _ Hj' Hr); subst j'; case_decide; lia). split; [done|]. split; [by rewrite list_lookup_insert_ne|]. split.
    + destruct (decide (i = l)) as [->|Hil].
      * pose proof (Hinj _ _ _ Hj' Hl) as Hjk. subst j'. rewrite list_lookup_insert_eq by lia. do 2 f_equal. case_decide; [|lia]. subst j. by rewrite decide_False by lia.
      * rewrite list_lookup_insert_ne, Hnx by done. do 2 f_equal. assert (j' ≠ k) by (intros ->; naive_solver). subst j'. repeat case_decide; try lia; done.
    + destruct (decide (j' = S (S k))) as [Hx|Hx].
      * rewrite Hx in Hj'. rewrite Hj', list_lookup_insert_eq by lia. do 2 f_equal. subst j'. case_decide; [lia|]. assert (j = S k) as -> by lia. cbn [pred_slot]. by rewrite delete_lookup, decide_True, Hl by lia.
      * assert ((match order !! S (S k) with Some x => <[x := Z.of_nat l]> pr | None => pr end) !! i = pr !! i) as ->.
        { destruct (order !! S (S k)) as [x|] eqn:Hxx; [|done]. apply list_lookup_insert_ne. intros <-. apply Hx. by eapply Hinj. }
        rewrite Hpv. do 2 f_equal. subst j'. case_decide as Hjk; destruct j as [|j]; cbn [pred_slot]; rewrite ?delete_lookup; try done; repeat case_decide; try lia; done.
  - intros i Hi Hni. destruct (decide (i = r)) as [->|Hir]; [by apply list_lookup_insert_eq; lia|]. rewrite list_lookup_insert_ne by done. apply Hgone; [done|]. intros [j Hj]%list_elem_of_lookup. apply Hni, list_elem_of_lookup.
    assert (j ≠ S k) by (intros ->; naive_solver). exists (if decide (j ≤ k) then j else j - 1). rewrite delete_lookup. repeat case_decide; try lia; [done|]. by replace (S (j - 1)) with j by lia.
Qed.
(** The generations after the merge, and the queue: the old entries and those of the two
    pairs the merged symbol is part of. *)
Lemma queued_merge ge ge' (q q' rest : list PairEntry) rank0 g0 : queued sy ge de order q → (∀ x, x ∈ q ↔ x = (rank0, l, g0) ∨ x ∈ rest) → length ge' = n →
  (∀ i, ge' !! i = (λ g, if decide (i = l ∨ pred_slot order k = Some i) then (g + 1)%Z else g) <$> ge !! i) →
  (∀ x, x ∈ q' ↔ x ∈ rest ∨ ∃ j a rank g, x = (rank, a, g) ∧ (j = k ∨ S j = k) ∧ delete (S k) order !! j = Some a ∧
    rank_at table (merge_at (live_syms sy order) k merged) j = Some rank ∧ ge' !! a = Some g) →
  queued (<[l := merged]> sy) ge' (<[r := true]> de) (delete (S k) order) q'.
Proof.
  intros [Hg Hb Hs Hc] Hq Hg' Hge Hq'. pose proof (lookup_lt_Some _ _ _ Hr) as HSk. assert (length (live_syms sy order) = length order) as Hlen by apply length_fmap.
  assert (∀ i j a, order !! i = Some a → order !! j = Some a → i = j) as Hinj by (intros; by eapply order_inj).
  assert (length (delete (S k) order) = length order - 1) as Hlen' by (rewrite length_delete by (by eexists); lia).
  split; rewrite ?live_merged; [done| | |].
  - intros i g Hi. rewrite Hge in Hi. destruct (ge !! i) as [g1|] eqn:H1; [|done]. cbn in Hi. destruct (Hb i g1 H1) as [? ?]. rewrite Hlen'. case_decide; simplify_eq; lia.
  - intros rank a g [Hin|(j & a' & rank' & g' & [= -> -> ->] & Hj & Ha & Hrank & Hg1)]%Hq'; [|exists g'; split_and!; [done|done|intros _ _; by exists j]].
    destruct (Hs rank a g) as (g1 & Hg1 & Hle & Hlive); [by apply Hq; right|]. rewrite Hge, Hg1. cbn. case_decide as Hbump; [exists (g1 + 1)%Z; split_and!; [done|lia|lia]|].
    exists g1. split_and!; [done|done|]. intros -> Hd. assert (a ≠ r) as Har by (intros ->; rewrite list_lookup_insert_eq in Hd by (rewrite (lk_dead _ _ _ _ _ Hlinks); by apply (lk_live _ _ _ _ _ Hlinks (S k))); done).
    rewrite list_lookup_insert_ne in Hd by done. destruct (Hlive eq_refl Hd) as (j & Hj & Hrank). assert (j ≠ k ∧ S j ≠ k ∧ j ≠ S k) as (Hjk & HjSk & Hjr).
    { split_and!; intros Hjk; [naive_solver| |naive_solver]. apply Hbump. right. by rewrite <- Hjk. }
    exists (if decide (j ≤ k) then j else j - 1). rewrite delete_lookup, rank_at_merged by (try lia; case_decide; lia). repeat case_decide; try lia; [done|]. by replace (S (j - 1)) with j by lia.
  - intros j a rank g Ha Hrank Hg1. apply Hq'. destruct (decide (j = k ∨ S j = k)) as [Hnew|Hold]; [right; by exists j, a, rank, g|left].
    rewrite rank_at_merged in Hrank by (try lia; naive_solver). rewrite delete_lookup in Ha. set (j' := if decide (j < k) then j else S j) in *.
    assert (order !! j' = Some a) as Hj' by (subst j'; repeat case_decide; try lia; try done; naive_solver lia). assert (j' ≠ k ∧ S j' ≠ k ∧ j' ≠ S k) as (? & ? & ?) by (subst j'; case_decide; split_and!; naive_solver lia).
    rewrite Hge in Hg1. destruct (ge !! a) as [g1|] eqn:Hg2; [|done]. cbn in Hg1. rewrite decide_False in Hg1.
    + simplify_eq. destruct (proj1 (Hq (rank, a, g)) (Hc j' a rank g Hj' Hrank Hg2)) as [[= -> -> ->]|?]; [|done]. naive_solver.
    + intros [->|Hp]; [naive_solver|]. destruct k as [|k0]; [done|]. cbn in Hp. naive_solver.
Qed.
End Merge.

Lemma index_Some {A} (l : list A) i a : l !! i = Some a → index (E := E) l i = Ok a.
Proof. apply index_Ok. Qed.
Lemma store_lt {A} (l : list A) i a : i < length l → store (E := E) l i a = Ok (<[i := a]> l).
Proof. intros Hi. by apply store_Ok. Qed.
Lemma bump_Ok ge i g : ge !! i = Some g → (g < U32_MAX)%Z → bump_generation (E := E) ge i = Ok (<[i := (g + 1)%Z]> ge).
Proof.
  intros Hg Hlt. unfold bump_generation. rewrite (index_Some _ _ _ Hg). cbn [mbind result_bind]. unfold checked_add. rewrite (proj2 (Z.leb_le _ _)) by ulia. cbn. apply store_lt. by apply lookup_lt_Some in Hg.
Qed.

Lemma push_pair_Ok q sy ge a b x y g : sy !! a = Some x → sy !! b = Some y → ge !! a = Some g →
  push_pair (E := E) table q sy ge a b = Ok (match table !! (x, y) with Some rank => (rank, a, g) :: q | None => q end).
Proof. intros Hx Hy Hg. unfold push_pair. rewrite (index_Some _ _ _ Hx), (index_Some _ _ _ Hy). cbn. destruct (table !! (x, y)); [|done]. by rewrite (index_Some _ _ _ Hg). Qed.

Lemma rank_at_Some l k x y : l !! k = Some x → l !! S k = Some y → rank_at table l k = table !! (x, y).
Proof. intros Hx Hy. unfold rank_at. by rewrite Hx, Hy. Qed.

(** The push for position [j] of the merged list, if there is a pair. *)
Lemma push_at sy ge order j a b q : order !! j = Some a → order !! S j = Some b → a < length sy → b < length sy → a < length ge →
  ∃ q', push_pair (E := E) table q sy ge a b = Ok q' ∧ length q' ≤ S (length q) ∧
  ∀ x, x ∈ q' ↔ x ∈ q ∨ ∃ rank g, x = (rank, a, g) ∧ rank_at table (live_syms sy order) j = Some rank ∧ ge !! a = Some g.
Proof.
  intros Ha Hb Hla Hlb Hg. destruct (live_lookup sy order j a Ha Hla) as (x & Hx & Hlx), (live_lookup sy order (S j) b Hb Hlb) as (y & Hy & Hly), (lookup_lt_is_Some_2 ge a Hg) as [g Hge].
  rewrite (push_pair_Ok q sy ge a b x y g) by done. eexists. split; [done|]. rewrite (rank_at_Some _ j x y) by done. destruct (table !! (x, y)) as [rank|]; [|split; [lia|naive_solver]].
  split; [done|]. intros z. rewrite elem_of_cons. naive_solver.
Qed.

(** The pushes for the pair that ends with the merged symbol and the one that starts with it. *)
Lemma push_left sy ge order k l q : order !! k = Some l → (∀ j a, order !! j = Some a → a < n) → length sy = n → length ge = n →
  (∀ i g, ge !! i = Some g → pred_slot order k = Some i → (g < U32_MAX)%Z) →
  ∃ ge' q', (if (0 <=? slot_z (pred_slot order k))%Z then
      gen ← bump_generation ge (Z.to_nat (slot_z (pred_slot order k)));
      queue ← push_pair table q sy gen (Z.to_nat (slot_z (pred_slot order k))) l;
      Ok (gen, queue)
    else Ok (E := E) (ge, q)) = Ok (ge', q') ∧ length ge' = n ∧ (∀ i, ge' !! i = (λ g, if decide (pred_slot order k = Some i) then (g + 1)%Z else g) <$> ge !! i) ∧ length q' ≤ S (length q) ∧
    ∀ x, x ∈ q' ↔ x ∈ q ∨ ∃ j a rank g, x = (rank, a, g) ∧ S j = k ∧ order !! j = Some a ∧ rank_at table (live_syms sy order) j = Some rank ∧ ge' !! a = Some g.
Proof.
  intros Hl Hord Hsy Hge Hb. destruct (pred_slot order k) as [p|] eqn:Hp; cbn [slot_z].
  - destruct k as [|j]; [done|]. cbn in Hp. pose proof (Hord _ _ Hp). pose proof (Hord _ _ Hl). destruct (lookup_lt_is_Some_2 ge p ltac:(lia)) as [g Hg]. rewrite (proj2 (Z.leb_le _ _)), Nat2Z.id, (bump_Ok _ _ g Hg) by naive_solver lia. cbn [mbind result_bind].
    destruct (push_at sy (<[p := (g + 1)%Z]> ge) order j p l q) as (q' & -> & Hlq & Hq'); try done; rewrite ?length_insert; try lia. eexists _, q'. split; [done|]. split_and!; [by rewrite length_insert| |done|].
    + intros i. case_decide as Hi; simplify_eq; [rewrite list_lookup_insert_eq, Hg by lia; done|]. rewrite list_lookup_insert_ne by naive_solver. by destruct (ge !! i).
    + intros x. rewrite Hq'. split; [|naive_solver]. intros [?|(rank & g' & -> & ? & ?)]; [by left|right]. by exists j, p, rank, g'.
  - exists ge, q. split; [done|]. split_and!; [done| |lia|].
    + intros i. destruct (ge !! i); [|done]. cbn. by rewrite decide_False by done.
    + intros x. split; [by left|]. intros [?|(j & a & rank & g & _ & <- & Ha & _)]; [done|]. cbn in Hp. congruence.
Qed.

Lemma push_right sy ge order k l q : order !! k = Some l → (∀ j a, order !! j = Some a → a < n) → length sy = n → length ge = n →
  ∃ q', (if (0 <=? slot_z (order !! S k))%Z then push_pair (E := E) table q sy ge l (Z.to_nat (slot_z (order !! S k))) else Ok q) = Ok q' ∧ length q' ≤ S (length q) ∧
    ∀ x, x ∈ q' ↔ x ∈ q ∨ ∃ rank g, x = (rank, l, g) ∧ rank_at table (live_syms sy order) k = Some rank ∧ ge !! l = Some g.
Proof.
  intros Hl Hord Hsy Hge. pose proof (Hord _ _ Hl). destruct (order !! S k) as [r|] eqn:Hr; cbn [slot_z].
  - rewrite (proj2 (Z.leb_le _ _)), Nat2Z.id by lia. pose proof (Hord _ _ Hr). apply push_at; try done; lia.
  - exists q. split; [done|]. split; [lia|]. intros x. split; [by left|]. intros [?|(rank & g & _ & Hrank & _)]; [done|]. apply rank_at_lt in Hrank. apply lookup_ge_None in Hr. unfold live_syms in Hrank. rewrite length_fmap in Hrank. lia.
Qed.

Lemma order_length sy pr ne de order : links sy pr ne de order → length order ≤ n.
Proof.
  intros Hl. assert (∀ k a, order !! k = Some a → k ≤ a) as Hge.
  { induction k as [|k IH]; intros a Ha; [lia|]. destruct (lookup_lt_is_Some_2 order k) as [b Hb]; [apply lookup_lt_Some in Ha; lia|]. pose proof (IH b Hb). pose proof (lk_sorted _ _ _ _ _ Hl _ _ _ _ Hb Ha). lia. }
  destruct (decide (length order = 0)) as [|Hne]; [lia|]. destruct (lookup_lt_is_Some_2 order (length order - 1)) as [a Ha]; [lia|]. pose proof (Hge _ _ Ha). pose proof (lk_live _ _ _ _ _ Hl _ _ Ha). lia.
Qed.

Section Loop.
Context (merges : list Z) (Htable : table_ok merges table) (Hn : (Z.of_nat n < 2147483648)%Z).

Lemma merge_pair_exact st order q k l r rank g0 : links (syms st) (prev st) (next st) (dead st) order → queued (syms st) (gen st) (dead st) order q →
  (∀ x, x ∈ q ↔ x = (rank, l, g0) ∨ x ∈ queue st) → order !! k = Some l → order !! S k = Some r → rank_at table (live_syms (syms st) order) k = Some rank →
  ∃ st', merge_pair (E := E) merges table st rank l r = Ok st' ∧ links (syms st') (prev st') (next st') (dead st') (delete (S k) order) ∧
    queued (syms st') (gen st') (dead st') (delete (S k) order) (queue st') ∧ live_syms (syms st') (delete (S k) order) = merge_at (live_syms (syms st) order) k (nth (Z.to_nat rank) merges 0%Z) ∧
    length (queue st') ≤ length (queue st) + 2.
Proof.
  intros Hlinks Hqu Hq Hl Hr Hrank. set (merged := nth (Z.to_nat rank) merges 0%Z). pose proof (live_merged _ _ _ _ _ k l r merged Hlinks Hl Hr) as Hlive. pose proof (links_merge _ _ _ _ _ k l r merged Hlinks Hl Hr) as Hlinks'.
  pose proof (queued_merge _ _ _ _ _ k l r merged Hlinks Hl Hr) as Hqueued. pose proof (lookup_lt_Some _ _ _ Hr) as HSk. pose proof Hlinks as [Hs1 Hs2 Hs3 Hs4 _ _ Hlv _].
  destruct (Hlv k l Hl) as (Hln & _ & Hnl & Hpl), (Hlv (S k) r Hr) as (Hrn & _ & Hnr & _). pose proof Hqu as [Hg Hb _ _].
  destruct (live_lookup (syms st) order k l Hl ltac:(lia)) as (sl & Hsl & Hll), (live_lookup (syms st) order (S k) r Hr ltac:(lia)) as (sr & Hsr & Hlr). rewrite (rank_at_Some _ _ _ _ Hll Hlr) in Hrank.
  destruct (lookup_lt_is_Some_2 (gen st) l ltac:(lia)) as [gl Hgl]. destruct (Hb l gl Hgl) as [Hgl0 Hglb]. assert (length order ≤ n ∨ n < length order) as [Hon|Hon] by lia; [|lia].
  unfold merge_pair. rewrite (index_Some _ _ _ Hsl), (index_Some _ _ _ Hsr). cbn [mbind result_bind]. rewrite bool_decide_eq_true_2 by done. cbn [assert mbind result_bind].
  assert (merges !! Z.to_nat rank = Some merged) as Hm by (destruct (lookup_lt_is_Some_2 merges (Z.to_nat rank) (proj2 (Htable _ _ Hrank))) as [m Hm]; rewrite Hm; f_equal; symmetry; by apply nth_lookup_Some).
  rewrite (index_Some _ _ _ Hm). cbn [mbind result_bind]. rewrite (store_lt (syms st) l merged), (store_lt (dead st) r true), (bump_Ok (gen st) l gl Hgl), (index_Some _ _ _ Hnr) by ulia. cbn [mbind result_bind]. rewrite (store_lt (next st) l) by lia. cbn [mbind result_bind].
  set (pr' := match order !! S (S k) with Some x => <[x := Z.of_nat l]> (prev st) | None => prev st end) in *.
  assert ((if (0 <=? slot_z (order !! S (S k)))%Z then store (E := E) (prev st) (Z.to_nat (slot_z (order !! S (S k)))) (as_i32 (Z.of_nat l)) else Ok (prev st)) = Ok pr') as ->.
  { subst pr'. rewrite as_i32_small by lia. destruct (order !! S (S k)) as [x|] eqn:Hx; [|done]. cbn [slot_z]. rewrite (proj2 (Z.leb_le _ _)) by lia. rewrite Nat2Z.id. apply store_lt. destruct (Hlv _ _ Hx). lia. }
  cbn [mbind result_bind]. pose proof (lk_live _ _ _ _ _ Hlinks' k l ltac:(rewrite delete_lookup, decide_True by lia; done)) as (_ & _ & Hnl' & Hpl'). rewrite (index_Some _ _ _ Hpl'). cbn [mbind result_bind].
  assert (∀ j a, delete (S k) order !! j = Some a → a < n) as Hord by (intros j a Ha; by apply (lk_live _ _ _ _ _ Hlinks' j)). assert (delete (S k) order !! k = Some l) as Hl' by (rewrite delete_lookup, decide_True by lia; done).
  assert (pred_slot (delete (S k) order) k = pred_slot order k) as Hps by (destruct k; [done|]; cbn [pred_slot]; by rewrite delete_lookup, decide_True by lia).
  destruct (push_left (<[l := merged]> (syms st)) (<[l := (gl + 1)%Z]> (gen st)) (delete (S k) order) k l (queue st)) as (ge' & q1 & -> & Hlge & Hge' & Hlq1 & Hq1); try done; rewrite ?length_insert; try done.
  { intros i g Hi Hpi. rewrite Hps in Hpi. assert (i ≠ l) as Hil by (intros ->; destruct k; [done|]; cbn in Hpi; pose proof (order_inj _ _ _ _ _ _ _ _ Hlinks Hpi Hl); lia). rewrite list_lookup_insert_ne in Hi by done. destruct (Hb _ _ Hi). ulia. }
  cbn [mbind result_bind fst snd]. rewrite (index_Some _ _ _ Hnl'). cbn [mbind result_bind].
  destruct (push_right (<[l := merged]> (syms st)) ge' (delete (S k) order) k l q1) as (q2 & -> & Hlq2 & Hq2); try done; rewrite ?length_insert; try done. cbn [mbind result_bind].
  eexists. split; [done|]. cbn [syms prev next dead gen queue]. split_and!; [exact Hlinks'| |done|lia]. rewrite Hlive in *. apply (Hqueued (gen st) ge' q q2 (queue st) rank g0 Hqu Hq Hlge).
  - intros i. rewrite Hge', Hps. destruct (decide (i = l)) as [->|Hil].
    + rewrite list_lookup_insert_eq, Hgl by lia. cbn. rewrite (decide_True (P := l = l ∨ _)) by tauto. rewrite decide_False; [done|]. intros Hpi. destruct k; [done|]; cbn in Hpi; pose proof (order_inj _ _ _ _ _ _ _ _ Hlinks Hpi Hl); lia.
    + rewrite list_lookup_insert_ne by done. destruct (gen st !! i); [|done]. cbn. f_equal. repeat case_decide; naive_solver.
  - intros x. rewrite Hq2, Hq1. split.
    + intros [[?|(j & a & rk & g & -> & <- & ?)]|(rk & g & -> & ?)]; [by left|right; exists j, a, rk, g; naive_solver|right; exists k, l, rk, g; naive_solver].
    + intros [?|(j & a & rk & g & -> & [->|<-] & Ha & ?)]; [by do 2 left| |left; right; exists j, a, rk, g; naive_solver]. right. exists rk, g. naive_solver.
Qed.

Lemma entry_order (rank rank' : Z) (l l' : nat) (g g' : Z) : kcmp (rank', l', g') (rank, l, g) ≠ Lt → (rank < rank')%Z ∨ (rank = rank' ∧ l ≤ l').
Proof.
  cbn. destruct (Z.compare_spec rank' rank) as [->|?|?]; cbn; [|done|by left]. destruct (Nat.compare_spec l' l) as [->|?|?]; cbn; [|done|]; right; lia.
Qed.

Lemma merge_loop_exact fuel : ∀ st order, links (syms st) (prev st) (next st) (dead st) order → queued (syms st) (gen st) (dead st) order (queue st) →
  length (queue st) + 2 * length order < fuel →
  ∃ st' order', merge_loop (E := E) merges table fuel st = Ok st' ∧ links (syms st') (prev st') (next st') (dead st') order' ∧
    live_syms (syms st') order' = merge_all merges table (length order) (live_syms (syms st) order).
Proof.
  induction fuel as [|fuel IH]; intros st order Hlk Hqu Hfuel; [lia|]. cbn [merge_loop]. destruct (heap_pop pair_entry_cmp (queue st)) as [[[[rank l] g] rest]|] eqn:Hpop.
  2: { apply heap_pop_None in Hpop. exists st, order. split_and!; [done..|]. assert (best_pair table (live_syms (syms st) order) = None) as Hnone.
       - apply best_pair_None. intros k. destruct (rank_at _ _ k) as [rank|] eqn:Hrank; [|done]. pose proof (rank_at_lt _ _ _ _ Hrank) as Hk. unfold live_syms in Hk. rewrite length_fmap in Hk.
         destruct (lookup_lt_is_Some_2 order k ltac:(lia)) as [a Ha]. destruct (lookup_lt_is_Some_2 (gen st) a) as [g Hg]; [rewrite (qu_gen _ _ _ _ _ Hqu); by apply (lk_live _ _ _ _ _ Hlk k)|].
         pose proof (qu_complete _ _ _ _ _ Hqu k a rank g Ha Hrank Hg) as Hin. rewrite Hpop in Hin. by apply not_elem_of_nil in Hin.
       - destruct (length order); [done|]. cbn [merge_all]. by rewrite Hnone. }
  pose proof (heap_pop_Permutation _ _ _ _ Hpop) as Hperm. pose proof (heap_pop_least _ _ _ Hpop) as Hleast. pose proof (Permutation_length Hperm) as Hlen. cbn in Hlen.
  assert (∀ x, x ∈ queue st ↔ x = (rank, l, g) ∨ x ∈ rest) as Hq by (intros x; by rewrite Hperm, elem_of_cons).
  destruct (qu_sound _ _ _ _ _ Hqu rank l g) as (gl & Hgl & Hle & Hsound); [by apply Hq; left|]. cbn [dead gen next]. destruct (lookup_lt_is_Some_2 (dead st) l) as [dl Hdl]; [rewrite (lk_dead _ _ _ _ _ Hlk), <- (qu_gen _ _ _ _ _ Hqu); by apply lookup_lt_Some in Hgl|].
  rewrite (index_Some _ _ _ Hdl), (index_Some _ _ _ Hgl). cbn [mbind result_bind]. destruct (dl || negb (gl =? g)%Z) eqn:Hstale.
  - apply (IH (mkBpe (syms st) (prev st) (next st) (dead st) (gen st) rest) order Hlk); [|cbn; lia]. cbn [syms gen dead queue]. destruct Hqu as [H1 H2 H3 H4]. split; [done|done|intros; apply H3, Hq; by right|].
    intros k a rank' g' Ha Hrank Hg'. destruct (proj1 (Hq _) (H4 k a rank' g' Ha Hrank Hg')) as [[= -> -> ->]|?]; [|done]. destruct (lk_live _ _ _ _ _ Hlk k l Ha) as (_ & Hd & _).
    rewrite Hd in Hdl. simplify_eq. rewrite Z.eqb_refl in Hstale. done.
  - apply orb_false_iff in Hstale as [-> Hgg]. apply negb_false_iff, Z.eqb_eq in Hgg as ->. destruct (Hsound eq_refl Hdl) as (k & Hk & Hrank). pose proof (rank_at_lt _ _ _ _ Hrank) as HSk. unfold live_syms in HSk. rewrite length_fmap in HSk.
    destruct (lookup_lt_is_Some_2 order (S k) HSk) as [r Hr]. destruct (lk_live _ _ _ _ _ Hlk k l Hk) as (_ & _ & Hnx & _). rewrite Hr in Hnx. rewrite (index_Some _ _ _ Hnx). cbn [mbind result_bind slot_z]. rewrite (proj2 (Z.ltb_ge _ _)), Nat2Z.id by lia.
    destruct (merge_pair_exact (mkBpe (syms st) (prev st) (next st) (dead st) (gen st) rest) order (queue st) k l r rank g) as (st1 & -> & Hlk1 & Hqu1 & Hlive1 & Hlq1); try done. cbn [mbind result_bind syms queue] in *.
    assert (length (delete (S k) order) = length order - 1) as Hd by (rewrite length_delete by (by eexists); lia). destruct (IH st1 (delete (S k) order) Hlk1 Hqu1 ltac:(lia)) as (st' & order' & -> & Hlk' & Hlive'). exists st', order'. split_and!; [done..|].
    rewrite Hlive', Hd, Hlive1. destruct (length order) as [|m]; [lia|]. cbn [merge_all]. rewrite (best_pair_Some _ _ rank k Hrank); [f_equal; lia|]. intros j rank' Hj. pose proof (rank_at_lt _ _ _ _ Hj) as Hjl. unfold live_syms in Hjl. rewrite length_fmap in Hjl.
    destruct (lookup_lt_is_Some_2 order j ltac:(lia)) as [a Ha]. destruct (lookup_lt_is_Some_2 (gen st) a) as [ga Hga]; [rewrite (qu_gen _ _ _ _ _ Hqu); by apply (lk_live _ _ _ _ _ Hlk j)|].
    destruct (entry_order rank rank' l a g ga) as [?|[-> Hla]]; [apply Hleast; by eapply qu_complete|by left|right]. split; [done|]. destruct (Nat.lt_ge_cases j k) as [Hjk|?]; [|done]. pose proof (lk_sorted _ _ _ _ _ Hlk j k a l Ha Hk Hjk). lia.
Qed.

End Loop.

Lemma collect_exact st order : links (syms st) (prev st) (next st) (dead st) order → ∀ fuel k, length order ≤ k + fuel →
  collect (E := E) fuel st (slot_z (order !! k)) = Ok (drop k (live_syms (syms st) order)).
Proof.
  intros Hlk. assert (length (live_syms (syms st) order) = length order) as Hlen by apply length_fmap. induction fuel as [|fuel IH]; intros k Hk.
  - rewrite lookup_ge_None_2, drop_ge by lia. done.
  - cbn [collect]. destruct (order !! k) as [a|] eqn:Ha; [|apply lookup_ge_None in Ha; rewrite drop_ge by lia; done]. cbn [slot_z]. rewrite (proj2 (Z.ltb_ge _ _)), Nat2Z.id by lia. destruct (lk_live _ _ _ _ _ Hlk k a Ha) as (Han & _ & Hnx & _).
    destruct (live_lookup (syms st) order k a Ha) as (s & Hs & Hls); [by rewrite (lk_syms _ _ _ _ _ Hlk)|]. rewrite (index_Some _ _ _ Hs), (index_Some _ _ _ Hnx). cbn [mbind result_bind]. rewrite IH by lia. cbn. by rewrite (drop_S _ _ _ Hls).
Qed.

Lemma find_head_zero st order : links (syms st) (prev st) (next st) (dead st) order → find_head (E := E) st (seq 0 n) = Ok (Some 0).
Proof.
  intros Hlk. destruct (lk_live _ _ _ _ _ Hlk 0 0 (lk_first _ _ _ _ _ Hlk)) as (H0 & Hd & _ & Hp). destruct n as [|m]; [lia|]. cbn [seq find_head]. rewrite (index_Some _ _ _ Hp). cbn. by rewrite (index_Some _ _ _ Hd).
Qed.
End Invariant.

Lemma i32_range_seq n : (Z.of_nat n < 2147483648)%Z → i32_range 0 (as_i32 (Z.of_nat n)) = Z.of_nat <$> seq 0 n.
Proof. intros Hn. unfold i32_range. rewrite as_i32_small by lia. replace (Z.to_nat (Z.of_nat n - 0)) with n by lia. apply list_fmap_ext. intros ? k _. lia. Qed.

Section Start.
Context {E : Type} (table : gmap (Z * Z) Z) (sy : list Z).
Local Abbreviation n := (length sy).

Lemma live_start : live_syms sy (seq 0 n) = sy.
Proof.
  apply list_eq. intros i. unfold live_syms. rewrite list_lookup_fmap. destruct (decide (i < n)) as [Hi|Hi].
  - rewrite lookup_seq_lt by done. cbn. destruct (lookup_lt_is_Some_2 sy i Hi) as [s Hs]. rewrite Hs. f_equal. by apply nth_lookup_Some.
  - rewrite !lookup_ge_None_2; [done|lia|rewrite length_seq; lia].
Qed.

Lemma start_queue : 0 < n → ∃ q, try_fold (λ q i, push_pair (E := E) table q sy (replicate n 0%Z) i (i + 1)) [] (seq 0 (n - 1)) = Ok q ∧ length q ≤ n - 1 ∧
  ∀ x, x ∈ q ↔ ∃ i rank, x = (rank, i, 0%Z) ∧ rank_at table sy i = Some rank.
Proof.
  intros Hn. destruct (try_fold_total (E := E) (λ done q, length q ≤ length done ∧ ∀ x, x ∈ q ↔ ∃ i rank, x = (rank, i, 0%Z) ∧ i ∈ done ∧ rank_at table sy i = Some rank)
      (λ q i, push_pair table q sy (replicate n 0%Z) i (i + 1)) (seq 0 (n - 1)) [] []) as (q & Hq & Hlq & Hin).
  - split; [done|]. intros x. split; [by intros ?%not_elem_of_nil|]. intros (i & rank & _ & Hi & _). by apply not_elem_of_nil in Hi.
  - intros d i r q Hd [Hlq Hin]. cbn [app] in Hd. assert (i < n - 1) as Hi. { assert (i ∈ seq 0 (n - 1)) as Hs by (rewrite Hd; set_solver). apply elem_of_seq in Hs. lia. }
    destruct (push_at (E := E) table sy (replicate n 0%Z) (seq 0 n) i i (i + 1) q) as (q' & Hq' & Hlq' & Hin'); [rewrite lookup_seq_lt by lia; done|rewrite lookup_seq_lt by lia; f_equal; lia|lia|lia|rewrite length_replicate; lia|].
    exists q'. rewrite length_app. cbn [length]. split; [done|]. split; [lia|]. rewrite live_start in Hin'. intros x. rewrite Hin', Hin. setoid_rewrite elem_of_app. setoid_rewrite list_elem_of_singleton. split.
    + intros [(j & rank & -> & ? & ?)|(rank & g & -> & ? & Hg)]; [exists j, rank; by split_and!; [|left|]|]. exists i, rank. apply lookup_replicate in Hg as [-> _]. by split_and!; [|right|].
    + intros (j & rank & -> & [?| ->] & ?); [left; by exists j, rank|right; exists rank, 0%Z]. split_and!; [done..|]. apply lookup_replicate. split; [done|lia].
  - exists q. cbn [app] in *. rewrite length_seq in Hlq. split_and!; [done..|]. intros x. rewrite Hin. split; [intros (i & rank & -> & _ & ?); by exists i, rank|]. intros (i & rank & -> & Hr). exists i, rank. split_and!; [done| |done].
    apply elem_of_seq. apply rank_at_lt in Hr. lia.
Qed.

Lemma start_exact : 0 < n → (Z.of_nat n < 2147483648)%Z → ∃ st, start_chunk (E := E) table sy = Ok st ∧ syms st = sy ∧ length (queue st) ≤ n - 1 ∧
  links n (syms st) (prev st) (next st) (dead st) (seq 0 n) ∧ queued table n (syms st) (gen st) (dead st) (seq 0 n) (queue st).
Proof.
  intros Hn Hi32. destruct (start_queue Hn) as (q & Hq & Hlq & Hin). unfold start_chunk. rewrite Hq. cbn [mbind result_bind]. eexists. split; [done|]. cbn [syms prev next dead gen queue]. split; [done|]. split; [done|].
  rewrite i32_range_seq by done. split; split.
  - done.
  - by rewrite !length_fmap, length_seq.
  - by rewrite !length_fmap, length_seq.
  - apply length_replicate.
  - intros j k a b [-> _]%lookup_seq [-> _]%lookup_seq. lia.
  - by rewrite lookup_seq_lt.
  - intros k i [-> Hk]%lookup_seq. cbn. split_and!; [lia|apply lookup_replicate; split; [done|lia]| |].
    + rewrite !list_lookup_fmap, lookup_seq_lt by lia. cbn. rewrite as_i32_small by lia. f_equal. destruct (decide (S k < n)) as [Hlast|Hlast].
      * rewrite lookup_seq_lt, (proj2 (Z.ltb_lt _ _)) by lia. cbn. lia.
      * rewrite (lookup_ge_None_2 (seq 0 n)), (proj2 (Z.ltb_ge _ _)) by (rewrite ?length_seq; lia). done.
    + rewrite !list_lookup_fmap, lookup_seq_lt by lia. cbn. f_equal. destruct k as [|k]; [done|]. cbn. rewrite lookup_seq_lt by lia. cbn. lia.
  - intros i Hi Hni. exfalso. apply Hni, elem_of_seq. lia.
  - apply length_replicate.
  - intros i g [-> _]%lookup_replicate. rewrite length_seq. lia.
  - intros rank l g (i & rank' & [= -> -> ->] & Hr)%Hin. exists 0%Z. rewrite live_start. apply rank_at_lt in Hr as Hil. split_and!; [apply lookup_replicate; split; [done|lia]|done|]. intros _ _. exists i. rewrite lookup_seq_lt by lia. done.
  - intros k l rank g [-> Hk]%lookup_seq Hr [-> _]%lookup_replicate. rewrite live_start in Hr. apply Hin. by exists k, rank.
Qed.
End Start.

(** The symbols of a chunk before any merge. *)
Definition byte_symbols (table : list Z) (bytes : list Z) : list Z := (λ b, nth (Z.to_nat b) table 0%Z) <$> bytes.

Lemma byte_symbols_Ok {E} table bytes : length table = 256 → Forall is_u8 bytes → try_map (E := E) (λ b, index table (Z.to_nat b)) bytes = Ok (byte_symbols table bytes).
Proof.
  intros Ht Hb. apply try_map_Ok, Forall2_fmap_r, Forall_Forall2_diag. eapply Forall_impl; [exact Hb|]. intros b Hu. apply index_Ok. destruct (lookup_lt_is_Some_2 table (Z.to_nat b)) as [s Hs]; [unfold is_u8 in Hu; lia|]. rewrite Hs. f_equal. symmetry. by apply nth_lookup_Some.
Qed.

Lemma chunk_exact {E} merges table byte_table bytes out : table_ok merges table → length byte_table = 256 → Forall is_u8 bytes → (Z.of_nat (length bytes) < 2147483648)%Z →
  encode_gpt2_chunk (E := E) merges table (Some byte_table) bytes out = Ok (out ++ bpe_reference merges table (byte_symbols byte_table bytes)).
Proof.
  intros Htab Hlt Hb Hlen. unfold encode_gpt2_chunk. cbn [expect mbind result_bind]. rewrite byte_symbols_Ok by done. cbn [mbind result_bind]. assert (length (byte_symbols byte_table bytes) = length bytes) as Hls by apply length_fmap.
  set (sy := byte_symbols byte_table bytes) in *. rewrite <- Hls in Hlen. clearbody sy. clear bytes Hb Hls. destruct sy as [|s [|s' sy']] eqn:Hsy; [by rewrite app_nil_r|done|]. rewrite <- Hsy in *. assert (0 < length sy) as Hpos by (subst; cbn; lia). clear Hsy.
  destruct (start_exact (E := E) table sy Hpos Hlen) as (st & -> & Hst & Hlq & Hlk & Hqu). cbn [mbind result_bind].
  destruct (merge_loop_exact (E := E) table (length sy) merges Htab Hlen (3 * length sy) st (seq 0 (length sy)) Hlk Hqu) as (st' & order & -> & Hlk' & Hlive); [rewrite length_seq; lia|]. cbn [mbind result_bind].
  rewrite (find_head_zero _ _ order Hlk'). cbn [mbind result_bind]. rewrite as_i32_small by lia. pose proof (collect_exact (E := E) _ st' order Hlk' (length sy) 0) as Hc. rewrite (lk_first _ _ _ _ _ _ Hlk') in Hc. cbn [slot_z] in Hc.
  rewrite Hc by (pose proof (order_length _ _ _ _ _ _ Hlk'); lia). cbn [mbind result_bind drop]. rewrite Hlive, length_seq, Hst, live_start. done.
Qed.
