(* ===== verification/Gguf.v ===== *)
(** The GGUF reader (src/crates/hipfire-runtime/src/gguf.rs).

    [open] reads header, metadata and tensor table of a model file through a cursor over
    its bytes. A reader is a function from the bytes left to a value and the bytes left
    after it; the ways it can fail are [IoError], and [Panic] is a capacity overflow or a
    division by zero. How many bytes the compiler gives a [MetaValue] or a [TensorInfo] is
    a parameter, since the capacity of a vector is limited in bytes. [String]s are lists of
    characters, floats are their bits.

    Proved here: the reader accepts exactly the files of the format and returns what they
    say, and when it panics. *)

From S2P Require Import Prelude Utf8.

#[local] Set Warnings "-register-all".

Definition GGUF_MAGIC : Z := 0x46554747.
Definition ISIZE_MAX : Z := 9223372036854775807.

Inductive GgmlType : Type :=
| GF32 | GF16 | GQ4_0 | GQ4_1 | GQ5_0 | GQ5_1 | GQ8_0 | GQ8_1 | GQ2K | GQ3K | GQ4K | GQ5K | GQ6K | GQ8K
| GIQ2XXS | GIQ2XS | GIQ3XXS | GIQ1S | GIQ4NL | GIQ3S | GIQ2S | GIQ4XS | GI8 | GI16 | GI32 | GI64 | GF64 | GIQ1M | GBF16.
#[export] Instance GgmlType_eq_dec : EqDecision GgmlType.
Proof. solve_decision. Defined.

(** [GgmlType::from_u32] *)
Definition GgmlType_from_u32 (v : Z) : option GgmlType :=
  match v with
  | 0 => Some GF32 | 1 => Some GF16 | 2 => Some GQ4_0 | 3 => Some GQ4_1 | 6 => Some GQ5_0 | 7 => Some GQ5_1 | 8 => Some GQ8_0 | 9 => Some GQ8_1
  | 10 => Some GQ2K | 11 => Some GQ3K | 12 => Some GQ4K | 13 => Some GQ5K | 14 => Some GQ6K | 15 => Some GQ8K | 30 => Some GBF16
  | _ => None
  end%Z.

(** [GgmlType::block_size] *)
Definition ggml_block_size (t : GgmlType) : Z :=
  match t with
  | GF32 | GF16 | GBF16 => 1
  | GQ4_0 | GQ4_1 | GQ5_0 | GQ5_1 | GQ8_0 | GQ8_1 => 32
  | GQ2K | GQ3K | GQ4K | GQ5K | GQ6K | GQ8K => 256
  | _ => 32
  end.

(** [GgmlType::block_bytes] *)
Definition ggml_block_bytes (t : GgmlType) : Z :=
  match t with
  | GF32 => 4 | GF16 | GBF16 => 2 | GQ4_0 => 18 | GQ4_1 => 20 | GQ5_0 => 22 | GQ5_1 => 24 | GQ8_0 => 34 | GQ8_1 => 40
  | GQ2K => 2 + 2 + 16 + 64 | GQ3K => 2 + 32 + 12 + 64 | GQ4K => 2 + 2 + 12 + 128 | GQ5K => 2 + 2 + 12 + 128 + 32
  | GQ6K => 128 + 64 + 16 + 2 | GQ8K => 256 + 2 + 32
  | _ => 0
  end%Z.

Inductive MetaValue : Type :=
| MU8 (v : Z) | MI8 (v : Z) | MU16 (v : Z) | MI16 (v : Z) | MU32 (v : Z) | MI32 (v : Z) | MF32 (bits : Z) | MBool (b : bool)
| MString (s : list Z) | MU64 (v : Z) | MI64 (v : Z) | MF64 (bits : Z) | MArray (l : list MetaValue).

(** [MetaValue::as_u32], [as_f32], [as_str] *)
Definition meta_as_u32 (v : MetaValue) : option Z :=
  match v with MU32 v => Some v | MI32 v => Some (wrap32 v) | MU64 v => Some (wrap32 v) | _ => None end.
Definition meta_as_f32 (v : MetaValue) : option Z := match v with MF32 bits => Some bits | _ => None end.
Definition meta_as_str (v : MetaValue) : option (list Z) := match v with MString s => Some s | _ => None end.

Record TensorInfo := mkTensorInfo { tensor_name : list Z; shape : list Z; dtype : GgmlType; tensor_offset : Z }.

Record GgufFile := mkGgufFile {
  gguf_version : Z;
  metadata : gmap (list Z) MetaValue;
  tensors : list TensorInfo;
  tensor_data_offset : Z;
  mmap : list Z }.

Inductive IoError : Type :=
| UnexpectedEof
| InvalidMagic (magic : Z)
| UnsupportedVersion (version : Z)
| InvalidUtf8
| UnknownGgmlType (raw : Z)
| UnknownMetaType (vtype : Z).

(** ** Readers *)

Definition reader (A : Type) : Type := list Z → result IoError (A * list Z).
#[export] Instance reader_ret : MRet reader := λ A a bs, Ok (a, bs).
#[export] Instance reader_bind : MBind reader := λ A B f m bs,
  match m bs with Ok (a, bs) => f a bs | Err e => Err e | Panic => Panic end.
Definition fail {A} (e : IoError) : reader A := λ _, Err e.

(** [Cursor::read_exact] *)
Definition read_exact (n : Z) : reader (list Z) := λ bs,
  if (n <=? Z.of_nat (length bs))%Z then Ok (take (Z.to_nat n) bs, drop (Z.to_nat n) bs) else Err UnexpectedEof.
(** [read_u8], [read_u16::<LittleEndian>] and so on, by the width in bytes. *)
Definition read_uint (w : nat) : reader Z := bs ← read_exact (Z.of_nat w); mret (le_value bs).
(** Two's complement of the same width. *)
Definition signed (w : nat) (x : Z) : Z := if (x <? 2 ^ (8 * Z.of_nat w - 1))%Z then x else (x - 2 ^ (8 * Z.of_nat w))%Z.
Definition read_sint (w : nat) : reader Z := x ← read_uint w; mret (signed w x).

(** [Vec::with_capacity(count)] of elements of [size] bytes. *)
Definition reserve (count size : Z) : reader unit := λ bs, if (ISIZE_MAX <? count * size)%Z then Panic else Ok (tt, bs).

(** [for _ in 0..count { v.push(read()?) }]; an element takes at least a byte. *)
Fixpoint read_times {A} (read : reader A) (fuel : nat) (count : Z) : reader (list A) := λ bs,
  if (count =? 0)%Z then Ok ([], bs) else
  match fuel with
  | 0 => Panic
  | S fuel => (x ← read; xs ← read_times read fuel (count - 1); mret (x :: xs)) bs
  end.
Definition read_many {A} (read : reader A) (count : Z) : reader (list A) := λ bs, read_times read (S (length bs)) count bs.

(** [read_string] *)
Definition read_string : reader (list Z) :=
  len ← read_uint 8;
  reserve len 1 ;;
  buf ← read_exact len;
  match from_utf8 buf with Some s => mret s | None => fail InvalidUtf8 end.

Section Gguf.
Context (meta_value_size tensor_info_size : Z).

(** [read_typed_value]; arrays may hold arrays. *)
Fixpoint read_typed_value (fuel : nat) (vtype : Z) : reader MetaValue :=
  match fuel with
  | 0 => λ _, Panic
  | S fuel =>
      match vtype with
      | 0 => v ← read_uint 1; mret (MU8 v)
      | 1 => v ← read_sint 1; mret (MI8 v)
      | 2 => v ← read_uint 2; mret (MU16 v)
      | 3 => v ← read_sint 2; mret (MI16 v)
      | 4 => v ← read_uint 4; mret (MU32 v)
      | 5 => v ← read_sint 4; mret (MI32 v)
      | 6 => v ← read_uint 4; mret (MF32 v)
      | 7 => v ← read_uint 1; mret (MBool (negb (v =? 0)%Z))
      | 8 => s ← read_string; mret (MString s)
      | 9 =>
          elem_type ← read_uint 4;
          count ← read_uint 8;
          reserve count meta_value_size ;;
          arr ← read_many (read_typed_value fuel elem_type) count;
          mret (MArray arr)
      | 10 => v ← read_uint 8; mret (MU64 v)
      | 11 => v ← read_sint 8; mret (MI64 v)
      | 12 => v ← read_uint 8; mret (MF64 v)
      | _ => fail (UnknownMetaType vtype)
      end%Z
  end.

(** [read_meta_value] *)
Definition read_meta_value : reader MetaValue :=
  vtype ← read_uint 4;
  (λ bs, read_typed_value (S (length bs)) vtype bs) : reader MetaValue.

(** One entry of the metadata and one of the tensor table. *)
Definition read_entry : reader (list Z * MetaValue) := key ← read_string; value ← read_meta_value; mret (key, value).
Definition read_tensor_info : reader TensorInfo :=
  name ← read_string;
  n_dims ← read_uint 4;
  shape ← read_many (read_uint 8) n_dims;
  dtype_raw ← read_uint 4;
  dtype ← match GgmlType_from_u32 dtype_raw with Some t => mret t | None => fail (UnknownGgmlType dtype_raw) end;
  offset ← read_uint 8;
  mret (mkTensorInfo name shape dtype offset).

(** The rounding of the start of the tensor data. *)
Definition align_offset (pos alignment : Z) : result IoError Z :=
  if (alignment =? 0)%Z then Panic else Ok ((pos + alignment - 1) / alignment * alignment)%Z.

Definition ALIGNMENT_KEY : list Z := str_bytes "general.alignment".

(** Header, metadata and tensor table, as [GgufFile::open] reads them. *)
Definition read_header : reader (Z * list (list Z * MetaValue) * list TensorInfo) :=
  magic ← read_uint 4;
  (if (magic =? GGUF_MAGIC)%Z then mret tt else fail (InvalidMagic magic)) ;;
  version ← read_uint 4;
  (if ((version <? 2) || (3 <? version))%Z then fail (UnsupportedVersion version) else mret tt) ;;
  tensor_count ← read_uint 8;
  metadata_kv_count ← read_uint 8;
  entries ← read_many read_entry metadata_kv_count;
  reserve tensor_count tensor_info_size ;;
  tensors ← read_many read_tensor_info tensor_count;
  mret (version, entries, tensors).

(** [metadata.insert(key, value)] for every entry: the last one of a key stays. *)
Definition metadata_of (entries : list (list Z * MetaValue)) : gmap (list Z) MetaValue := foldl (λ m e, <[e.1 := e.2]> m) ∅ entries.
Definition alignment_of (metadata : gmap (list Z) MetaValue) : Z := default 32%Z (metadata !! ALIGNMENT_KEY ≫= meta_as_u32).

(** [GgufFile::open], from the mapped bytes. *)
Definition GgufFile_open (data : list Z) : result IoError GgufFile :=
  '(header, rest) ← read_header data;
  let '(version, entries, tensors) := header in
  let metadata := metadata_of entries in
  let pos := Z.of_nat (length data - length rest) in
  offset ← align_offset pos (alignment_of metadata);
  Ok (mkGgufFile version metadata tensors offset data).
End Gguf.

(** [GgufFile::meta], [meta_u32], [meta_f32], [meta_str], [find_tensor] *)
Definition gguf_meta (f : GgufFile) (key : list Z) : option MetaValue := metadata f !! key.
Definition gguf_meta_u32 (f : GgufFile) (key : list Z) : option Z := gguf_meta f key ≫= meta_as_u32.
Definition gguf_meta_f32 (f : GgufFile) (key : list Z) : option Z := gguf_meta f key ≫= meta_as_f32.
Definition gguf_meta_str (f : GgufFile) (key : list Z) : option (list Z) := gguf_meta f key ≫= meta_as_str.
Definition find_tensor (f : GgufFile) (name : list Z) : option TensorInfo := snd <$> list_find (λ t, tensor_name t = name) (tensors f).

(** [TensorInfo::numel] and [byte_size]: products and sums of [usize] that panic on
    overflow; [tensor_bytes] rounds up to whole blocks. *)
Definition mul_usize (a b : Z) : result IoError Z := expect (checked_mul U64_MAX a b).
Definition add_usize (a b : Z) : result IoError Z := expect (checked_add U64_MAX a b).
Definition numel (t : TensorInfo) : result IoError Z := try_fold mul_usize 1%Z (shape t).
Definition tensor_bytes (t : GgmlType) (n : Z) : result IoError Z :=
  let bs := ggml_block_size t in
  sum ← add_usize n bs;
  mul_usize ((sum - 1) / bs) (ggml_block_bytes t).
Definition byte_size (t : TensorInfo) : result IoError Z := n ← numel t; tensor_bytes (dtype t) n.

(** [GgufFile::tensor_data]: the slice of the mapping. *)
Definition tensor_data (f : GgufFile) (info : TensorInfo) : result IoError (list Z) :=
  start ← add_usize (tensor_data_offset f) (tensor_offset info);
  size ← byte_size info;
  end_ ← add_usize start size;
  if (end_ <=? Z.of_nat (length (mmap f)))%Z then Ok (take (Z.to_nat size) (drop (Z.to_nat start) (mmap f))) else Panic.

(** ** The format *)

(** [R a pre]: the bytes [pre] say [a]. A reader is complete when it reads what the format
    allows, and sound when what it reads is in the format. *)
Definition complete {A} (m : reader A) (R : A → list Z → Prop) : Prop := ∀ a pre rest, R a pre → m (pre ++ rest) = Ok (a, rest).
Definition sound {A} (m : reader A) (R : A → list Z → Prop) : Prop := ∀ bs a rest, Forall is_u8 bs → m bs = Ok (a, rest) → ∃ pre, bs = pre ++ rest ∧ R a pre.

Definition uint_bytes (w : nat) (x : Z) (bs : list Z) : Prop := length bs = w ∧ x = le_value bs.
Definition sint_bytes (w : nat) (x : Z) (bs : list Z) : Prop := ∃ u, uint_bytes w u bs ∧ x = signed w u.
(** A string: its length in bytes and its UTF-8. *)
Definition string_bytes (s : list Z) (bs : list Z) : Prop := ∃ lb, uint_bytes 8 (Z.of_nat (length (utf8 s))) lb ∧ (Z.of_nat (length (utf8 s)) ≤ ISIZE_MAX)%Z ∧ Forall is_char s ∧ bs = lb ++ utf8 s.
(** Elements one after another. *)
Definition many_bytes {A} (R : A → list Z → Prop) (count : Z) (xs : list A) (bs : list Z) : Prop := Z.of_nat (length xs) = count ∧ ∃ pieces, Forall2 R xs pieces ∧ bs = concat pieces.

Section Format.
Context (meta_value_size tensor_info_size : Z).

Inductive value_bytes : Z → MetaValue → list Z → Prop :=
| vb_u8 v bs : uint_bytes 1 v bs → value_bytes 0 (MU8 v) bs
| vb_i8 v bs : sint_bytes 1 v bs → value_bytes 1 (MI8 v) bs
| vb_u16 v bs : uint_bytes 2 v bs → value_bytes 2 (MU16 v) bs
| vb_i16 v bs : sint_bytes 2 v bs → value_bytes 3 (MI16 v) bs
| vb_u32 v bs : uint_bytes 4 v bs → value_bytes 4 (MU32 v) bs
| vb_i32 v bs : sint_bytes 4 v bs → value_bytes 5 (MI32 v) bs
| vb_f32 v bs : uint_bytes 4 v bs → value_bytes 6 (MF32 v) bs
| vb_bool v bs : uint_bytes 1 v bs → value_bytes 7 (MBool (negb (v =? 0)%Z)) bs
| vb_string s bs : string_bytes s bs → value_bytes 8 (MString s) bs
| vb_array elem_type l tb cb pieces : uint_bytes 4 elem_type tb → uint_bytes 8 (Z.of_nat (length l)) cb → (Z.of_nat (length l) * meta_value_size ≤ ISIZE_MAX)%Z →
    Forall2 (value_bytes elem_type) l pieces → value_bytes 9 (MArray l) (tb ++ cb ++ concat pieces)
| vb_u64 v bs : uint_bytes 8 v bs → value_bytes 10 (MU64 v) bs
| vb_i64 v bs : sint_bytes 8 v bs → value_bytes 11 (MI64 v) bs
| vb_f64 v bs : uint_bytes 8 v bs → value_bytes 12 (MF64 v) bs.

Definition entry_bytes (e : list Z * MetaValue) (bs : list Z) : Prop := ∃ kb tb vb vtype, string_bytes e.1 kb ∧ uint_bytes 4 vtype tb ∧ value_bytes vtype e.2 vb ∧ bs = kb ++ tb ++ vb.
Definition tensor_bytes_of (t : TensorInfo) (bs : list Z) : Prop :=
  ∃ nb db sb raw rb ob, string_bytes (tensor_name t) nb ∧ uint_bytes 4 (Z.of_nat (length (shape t))) db ∧ many_bytes (uint_bytes 8) (Z.of_nat (length (shape t))) (shape t) sb ∧
    uint_bytes 4 raw rb ∧ GgmlType_from_u32 raw = Some (dtype t) ∧ uint_bytes 8 (tensor_offset t) ob ∧ bs = nb ++ db ++ sb ++ rb ++ ob.

(** Header, metadata and tensor table. *)
Definition file_bytes (version : Z) (entries : list (list Z * MetaValue)) (infos : list TensorInfo) (bs : list Z) : Prop :=
  ∃ mb vb tb kb eb ib, uint_bytes 4 GGUF_MAGIC mb ∧ uint_bytes 4 version vb ∧ (version = 2 ∨ version = 3)%Z ∧ uint_bytes 8 (Z.of_nat (length infos)) tb ∧ uint_bytes 8 (Z.of_nat (length entries)) kb ∧
    many_bytes entry_bytes (Z.of_nat (length entries)) entries eb ∧ (Z.of_nat (length infos) * tensor_info_size ≤ ISIZE_MAX)%Z ∧ many_bytes tensor_bytes_of (Z.of_nat (length infos)) infos ib ∧
    bs = mb ++ vb ++ tb ++ kb ++ eb ++ ib.
End Format.

(** ** Readers are exact *)

Lemma le_value_nonneg bs : Forall is_u8 bs → (0 ≤ le_value bs)%Z.
Proof. induction 1 as [|b bs Hb _ IH]; cbn; [lia|]. ulia. Qed.

Section Readers.
Context {A B : Type}.

Lemma run_bind (m : reader A) (f : A → reader B) bs : (m ≫= f) bs = match m bs with Ok (a, bs) => f a bs | Err e => Err e | Panic => Panic end.
Proof. done. Qed.

(** Reading the bytes of the first part leaves the second reader with the others. *)
Lemma run_complete (m : reader A) (f : A → reader B) R a pre rest : complete m R → R a pre → (m ≫= f) (pre ++ rest) = f a rest.
Proof. intros Hm Ha. rewrite run_bind, (Hm a pre rest Ha). done. Qed.

(** Inversion of a successful sequence. *)
Lemma run_sound (m : reader A) (f : A → reader B) R bs b rest : sound m R → Forall is_u8 bs → (m ≫= f) bs = Ok (b, rest) →
  ∃ a pre mid, bs = pre ++ mid ∧ R a pre ∧ Forall is_u8 pre ∧ Forall is_u8 mid ∧ f a mid = Ok (b, rest).
Proof.
  intros Hm Hu. rewrite run_bind. destruct (m bs) as [[a mid]|e|] eqn:Ha; [|done..]. intros Hf. destruct (Hm _ _ _ Hu Ha) as (pre & -> & HR). apply Forall_app in Hu as [? ?]. by exists a, pre, mid.
Qed.

Lemma sound_ret_map (m : reader A) (g : A → B) R R' : sound m R → (∀ a pre, R a pre → R' (g a) pre) → sound (a ← m; mret (g a)) R'.
Proof.
  intros Hm HR bs b rest Hu Hb. destruct (run_sound _ _ _ _ _ _ Hm Hu Hb) as (a & pre & mid & -> & Ha & _ & _ & [= <- <-]). exists pre. split; [done|]. by apply HR.
Qed.
Lemma complete_ret_map (m : reader A) (g : A → B) R a pre rest : complete m R → R a pre → (a ← m; mret (g a)) (pre ++ rest) = Ok (g a, rest).
Proof. intros Hm Ha. by rewrite (run_complete _ _ _ _ _ _ Hm Ha). Qed.
End Readers.

Lemma read_uint_complete w : complete (read_uint w) (uint_bytes w).
Proof.
  intros x pre rest [Hl ->]. unfold read_uint, read_exact. rewrite run_bind. rewrite length_app. rewrite (proj2 (Z.leb_le _ _)) by lia. rewrite Nat2Z.id, take_app_le, drop_app_le by lia. rewrite take_ge, drop_ge by lia. done.
Qed.
Lemma read_uint_sound w : sound (read_uint w) (uint_bytes w).
Proof.
  intros bs x rest _. unfold read_uint, read_exact. rewrite run_bind. destruct (Z.leb_spec (Z.of_nat w) (Z.of_nat (length bs))) as [Hl|]; [|done]. rewrite Nat2Z.id. intros [= <- <-]. exists (take w bs). rewrite take_drop. split; [done|]. split; [|done]. rewrite length_take. lia.
Qed.
Lemma read_sint_complete w : complete (read_sint w) (sint_bytes w).
Proof. intros x pre rest (u & Hu & ->). exact (complete_ret_map _ _ _ _ _ _ (read_uint_complete w) Hu). Qed.
Lemma read_sint_sound w : sound (read_sint w) (sint_bytes w).
Proof. apply (sound_ret_map _ _ (uint_bytes w)); [apply read_uint_sound|]. intros u pre Hu. by exists u. Qed.

Lemma reserve_Ok count size bs u rest : reserve count size bs = Ok (u, rest) → (count * size ≤ ISIZE_MAX)%Z ∧ rest = bs.
Proof. unfold reserve. destruct (Z.ltb_spec ISIZE_MAX (count * size)); [done|]. by intros [= <-]. Qed.
Lemma run_reserve {A} (k : reader A) count size bs : (count * size ≤ ISIZE_MAX)%Z → (reserve count size ;; k) bs = k bs.
Proof. intros H. rewrite run_bind. unfold reserve. by rewrite (proj2 (Z.ltb_ge _ _)). Qed.
Lemma run_reserve_Ok {A} (k : reader A) count size bs a rest : (reserve count size ;; k) bs = Ok (a, rest) → (count * size ≤ ISIZE_MAX)%Z ∧ k bs = Ok (a, rest).
Proof. rewrite run_bind. destruct (reserve count size bs) as [[u mid]|e|] eqn:Hr; [|done..]. by apply reserve_Ok in Hr as [? ->]. Qed.

Lemma read_string_complete : complete read_string string_bytes.
Proof.
  intros s pre rest (lb & Hlb & Hmax & Hs & ->). unfold read_string. rewrite <- app_assoc, (run_complete _ _ _ _ _ _ (read_uint_complete 8) Hlb), run_reserve, run_bind by lia. unfold read_exact. rewrite length_app, (proj2 (Z.leb_le _ _)), Nat2Z.id by lia.
  rewrite take_app_length, drop_app_length, from_utf8_utf8 by done. done.
Qed.
Lemma read_string_sound : sound read_string string_bytes.
Proof.
  intros bs s rest Hu Hok. destruct (run_sound _ _ _ _ _ _ (read_uint_sound 8) Hu Hok) as (len & lb & mid & -> & Hlb & Hulb & _ & [Hmax Hrest]%run_reserve_Ok). rewrite run_bind in Hrest. unfold read_exact in Hrest. destruct (Z.leb_spec len (Z.of_nat (length mid))) as [Hl|]; [|done].
  destruct (from_utf8 (take (Z.to_nat len) mid)) as [s'|] eqn:Hf; [|done]. injection Hrest as <- <-. apply from_utf8_sound in Hf as [Hf Hc]. exists (lb ++ utf8 s'). rewrite <- Hf, <- app_assoc, take_drop. split; [done|].
  assert (0 ≤ len)%Z as Hpos by (destruct Hlb as [_ ->]; by apply le_value_nonneg). assert (Z.of_nat (length (utf8 s')) = len) as Heq by (rewrite <- Hf, length_take; lia). exists lb. rewrite Heq, Hf. split_and!; [done|lia|done|done].
Qed.

(** Repeated readers, whose elements are not empty. *)
Section Many.
Context {A : Type} (read : reader A) (R : A → list Z → Prop).

Lemma read_times_complete : (∀ a pre, R a pre → pre ≠ []) → ∀ xs pieces fuel rest, Forall2 R xs pieces → (∀ a pre rest, R a pre → pre ∈ pieces → read (pre ++ rest) = Ok (a, rest)) →
  length (concat pieces) < fuel → read_times read fuel (Z.of_nat (length xs)) (concat pieces ++ rest) = Ok (xs, rest).
Proof.
  intros Hne xs pieces fuel rest Hall. revert fuel rest. induction Hall as [|x p xs pieces Hx Hall IH]; intros fuel rest Hread Hf; [by destruct fuel|]. cbn [concat] in *. rewrite length_app in Hf. assert (length p ≠ 0) by (pose proof (Hne _ _ Hx); by destruct p).
  destruct fuel as [|fuel]; [lia|]. cbn [read_times length]. rewrite (proj2 (Z.eqb_neq _ _)) by lia. rewrite <- app_assoc, run_bind, (Hread x p) by (try done; set_solver). rewrite run_bind. replace (Z.of_nat (S (length xs)) - 1)%Z with (Z.of_nat (length xs)) by lia.
  rewrite IH; [done| |lia]. intros a q rest' Hq Hin. apply Hread; [done|set_solver].
Qed.

Lemma read_times_sound : sound read R → ∀ fuel bs xs rest count, Forall is_u8 bs → (0 ≤ count)%Z → read_times read fuel count bs = Ok (xs, rest) → ∃ pre, bs = pre ++ rest ∧ many_bytes R count xs pre.
Proof.
  intros Hs. induction fuel as [|fuel IH]; intros bs xs rest count Hu Hc Hok; cbn [read_times] in Hok; (destruct (Z.eqb_spec count 0) as [->|Hne]; [injection Hok as <- <-; exists []; split; [done|]; split; [done|]; exists []; by split|]); [done|].
  destruct (run_sound _ _ _ _ _ _ Hs Hu Hok) as (x & pre & mid & -> & Hx & _ & Hum & Hrest). rewrite run_bind in Hrest. destruct (read_times read fuel (count - 1) mid) as [[ys mid']|e|] eqn:Hr; [|done..]. injection Hrest as <- <-.
  destruct (IH mid ys mid' (count - 1)%Z Hum ltac:(lia) Hr) as (pre' & -> & Hl & pieces & Hall & ->). exists (pre ++ concat pieces). rewrite app_assoc. split; [done|]. split; [cbn; lia|]. exists (pre :: pieces). by split; [constructor|].
Qed.

Lemma read_many_complete count xs pre rest : (∀ a pre, R a pre → pre ≠ []) → complete read R → many_bytes R count xs pre → read_many read count (pre ++ rest) = Ok (xs, rest).
Proof.
  intros Hne Hc (<- & pieces & Hall & ->). unfold read_many. apply read_times_complete; [done|done| |rewrite length_app; lia]. intros a p rest' Ha _. by apply Hc.
Qed.
Lemma read_many_sound count : (0 ≤ count)%Z → sound read R → sound (read_many read count) (many_bytes R count).
Proof. intros Hc Hs bs xs rest Hu Hok. by eapply read_times_sound. Qed.
End Many.

Lemma uint_nonempty w x bs : 1 ≤ w → uint_bytes w x bs → bs ≠ [].
Proof. intros Hw [Hl _] ->. cbn in Hl. lia. Qed.
Lemma string_nonempty s bs : string_bytes s bs → bs ≠ [].
Proof. intros (lb & Hlb & _ & _ & ->). pose proof (uint_nonempty 8 _ _ ltac:(lia) Hlb). by destruct lb. Qed.

Section Exact.
Context (meta_value_size tensor_info_size : Z).
Local Abbreviation value_bytes := (value_bytes meta_value_size).

Lemma value_nonempty t v bs : value_bytes t v bs → bs ≠ [].
Proof.
  destruct 1 as [v bs H|v bs (u & H & _)|v bs H|v bs (u & H & _)|v bs H|v bs (u & H & _)|v bs H|v bs H|s bs H|et l tb cb pieces H|v bs H|v bs (u & H & _)|v bs H]; try (eapply uint_nonempty; [|exact H]; lia).
  - by eapply string_nonempty.
  - pose proof (uint_nonempty 4 _ _ ltac:(lia) H). by destruct tb.
Qed.

Lemma read_value_complete fuel : ∀ t v pre rest, value_bytes t v pre → length pre < fuel → read_typed_value meta_value_size fuel t (pre ++ rest) = Ok (v, rest).
Proof.
  induction fuel as [|fuel IH]; intros t v pre rest Hv Hf; [lia|].
  destruct Hv; cbn [read_typed_value]; try (eapply (complete_ret_map _ (λ v, _)); [first [apply read_uint_complete|apply read_sint_complete|apply read_string_complete]|done]).
  rewrite <- !app_assoc, (run_complete _ _ _ _ _ _ (read_uint_complete 4) H), (run_complete _ _ _ _ _ _ (read_uint_complete 8) H0). lazy beta. rewrite run_reserve, run_bind by done. unfold read_many. rewrite !length_app in Hf.
  rewrite (read_times_complete _ (value_bytes elem_type)); [done|intros; by eapply value_nonempty|done| |rewrite length_app; lia]. intros a p rest' Ha Hin. apply IH; [done|].
  apply list_elem_of_split in Hin as (l1 & l2 & ->). rewrite concat_app in Hf. cbn [concat] in Hf. rewrite !length_app in Hf. destruct H as [Ht _]. lia.
Qed.

Lemma read_value_sound fuel : ∀ t, sound (read_typed_value meta_value_size fuel t) (value_bytes t).
Proof.
  induction fuel as [|fuel IH]; intros t; [by intros bs a rest _ H|].
  assert (∀ z, sound (fail z) (value_bytes t)) as Hfail by (intros z bs a rest _ H; done).
  cbn [read_typed_value]. repeat (case_match; [|try apply Hfail..]); try apply Hfail; subst;
    try (eapply sound_ret_map; [first [apply read_uint_sound|apply read_sint_sound|apply read_string_sound]|intros; by constructor]).
  intros bs v rest Hu Hok. destruct (run_sound _ _ _ _ _ _ (read_uint_sound 4) Hu Hok) as (et & tb & mid & -> & Ht & _ & Hum & Hok1). destruct (run_sound _ _ _ _ _ _ (read_uint_sound 8) Hum Hok1) as (count & cb & mid' & -> & Hc & Hucb & Hum' & [Hmax Hok2]%run_reserve_Ok).
  assert (0 ≤ count)%Z as Hpos by (destruct Hc as [_ ->]; by apply le_value_nonneg). rewrite run_bind in Hok2. destruct (read_many _ count mid') as [[l rest']|e|] eqn:Hl; [|done..]. injection Hok2 as <- <-.
  destruct (read_many_sound _ _ count Hpos (IH et) _ _ _ Hum' Hl) as (pre & -> & <- & pieces & Hall & ->). exists (tb ++ cb ++ concat pieces). rewrite <- !app_assoc. split; [done|]. by econstructor.
Qed.

Lemma read_entry_complete : complete (read_entry meta_value_size) (entry_bytes meta_value_size).
Proof.
  intros [k v] pre rest (kb & tb & vb & vtype & Hk & Ht & Hv & ->). cbn [fst snd] in *. unfold read_entry, read_meta_value. rewrite <- !app_assoc, (run_complete _ _ _ _ _ _ read_string_complete Hk). lazy beta. rewrite run_bind, (run_complete _ _ _ _ _ _ (read_uint_complete 4) Ht). lazy beta.
  rewrite read_value_complete with (v := v); [done|done|rewrite length_app; lia].
Qed.
Lemma read_entry_sound : sound (read_entry meta_value_size) (entry_bytes meta_value_size).
Proof.
  intros bs e rest Hu Hok. destruct (run_sound _ _ _ _ _ _ read_string_sound Hu Hok) as (k & kb & mid & -> & Hk & _ & Hum & Hok1). rewrite run_bind in Hok1. destruct (read_meta_value _ mid) as [[v rest']|er|] eqn:Hv; [|done..]. injection Hok1 as <- <-.
  destruct (run_sound _ _ _ _ _ _ (read_uint_sound 4) Hum Hv) as (t & tb & mid' & -> & Ht & _ & Hum' & Hval). destruct (read_value_sound _ _ _ _ _ Hum' Hval) as (vb & -> & Hvb). exists (kb ++ tb ++ vb). rewrite <- !app_assoc. split; [done|]. by exists kb, tb, vb, t.
Qed.

Lemma read_tensor_complete : complete read_tensor_info tensor_bytes_of.
Proof.
  intros [name sh dt off] pre rest (nb & db & sb & raw & rb & ob & Hn & Hd & Hs & Hr & Hty & Ho & ->). cbn [tensor_name shape dtype tensor_offset] in *. unfold read_tensor_info.
  rewrite <- !app_assoc, (run_complete _ _ _ _ _ _ read_string_complete Hn), (run_complete _ _ _ _ _ _ (read_uint_complete 4) Hd). lazy beta. rewrite run_bind, (read_many_complete _ _ _ _ _ _ (λ a pre, uint_nonempty 8 a pre ltac:(lia)) (read_uint_complete 8) Hs).
  rewrite (run_complete _ _ _ _ _ _ (read_uint_complete 4) Hr), Hty. lazy beta. rewrite run_bind. exact (complete_ret_map _ _ _ _ _ _ (read_uint_complete 8) Ho).
Qed.
Lemma read_tensor_sound : sound read_tensor_info tensor_bytes_of.
Proof.
  intros bs t rest Hu Hok. destruct (run_sound _ _ _ _ _ _ read_string_sound Hu Hok) as (name & nb & m1 & -> & Hn & _ & Hu1 & Hok1). destruct (run_sound _ _ _ _ _ _ (read_uint_sound 4) Hu1 Hok1) as (nd & db & m2 & -> & Hd & Hudb & Hu2 & Hok2).
  assert (0 ≤ nd)%Z as Hpos by (destruct Hd as [_ ->]; by apply le_value_nonneg). destruct (run_sound _ _ _ _ _ _ (read_many_sound _ _ nd Hpos (read_uint_sound 8)) Hu2 Hok2) as (sh & sb & m3 & -> & Hs & _ & Hu3 & Hok3).
  destruct (run_sound _ _ _ _ _ _ (read_uint_sound 4) Hu3 Hok3) as (raw & rb & m4 & -> & Hr & _ & Hu4 & Hok4). rewrite run_bind in Hok4. destruct (GgmlType_from_u32 raw) as [dt|] eqn:Hty; [|done].
  destruct (run_sound _ _ _ _ _ _ (read_uint_sound 8) Hu4 Hok4) as (off & ob & m5 & -> & Ho & _ & _ & [= <- <-]). exists (nb ++ db ++ sb ++ rb ++ ob). rewrite <- !app_assoc. split; [done|]. pose proof Hs as [Hl _]. exists nb, db, sb, raw, rb, ob. cbn [tensor_name shape dtype tensor_offset]. rewrite Hl. done.
Qed.

Local Abbreviation file_bytes := (file_bytes meta_value_size tensor_info_size).
Local Abbreviation header_reader := (read_header meta_value_size tensor_info_size).

Lemma entry_nonempty e bs : entry_bytes meta_value_size e bs → bs ≠ [].
Proof. intros (kb & tb & vb & t & Hk & _ & _ & ->). pose proof (string_nonempty _ _ Hk). by destruct kb. Qed.
Lemma tensor_nonempty t bs : tensor_bytes_of t bs → bs ≠ [].
Proof. intros (nb & db & sb & raw & rb & ob & Hn & _ & _ & _ & _ & _ & ->). pose proof (string_nonempty _ _ Hn). by destruct nb. Qed.

Lemma read_header_complete version entries infos pre rest : file_bytes version entries infos pre → header_reader (pre ++ rest) = Ok ((version, entries, infos), rest).
Proof.
  intros (mb & vb & tb & kb & eb & ib & Hm & Hv & Hver & Ht & Hk & He & Hmax & Hi & ->). unfold read_header. rewrite <- !app_assoc, (run_complete _ _ _ _ _ _ (read_uint_complete 4) Hm), Z.eqb_refl. lazy beta. rewrite run_bind. cbn [mret reader_ret].
  rewrite (run_complete _ _ _ _ _ _ (read_uint_complete 4) Hv). assert (((version <? 2) || (3 <? version))%Z = false) as -> by (destruct Hver as [-> | ->]; done). lazy beta. rewrite run_bind. cbn [mret reader_ret].
  rewrite (run_complete _ _ _ _ _ _ (read_uint_complete 8) Ht), (run_complete _ _ _ _ _ _ (read_uint_complete 8) Hk). lazy beta. rewrite run_bind, (read_many_complete _ _ _ _ _ _ entry_nonempty read_entry_complete He), run_reserve by done.
  rewrite run_bind, (read_many_complete _ _ _ _ _ _ tensor_nonempty read_tensor_complete Hi). done.
Qed.

Lemma read_header_sound bs version entries infos rest : Forall is_u8 bs → header_reader bs = Ok ((version, entries, infos), rest) → ∃ pre, bs = pre ++ rest ∧ file_bytes version entries infos pre.
Proof.
  intros Hu Hok. destruct (run_sound _ _ _ _ _ _ (read_uint_sound 4) Hu Hok) as (magic & mb & m1 & -> & Hm & _ & Hu1 & Hok1). rewrite run_bind in Hok1. destruct (Z.eqb_spec magic GGUF_MAGIC) as [->|]; [|done]. cbn [mret reader_ret] in Hok1.
  destruct (run_sound _ _ _ _ _ _ (read_uint_sound 4) Hu1 Hok1) as (ver & vb & m2 & -> & Hv & _ & Hu2 & Hok2). rewrite run_bind in Hok2. destruct ((ver <? 2) || (3 <? ver))%Z eqn:Hver; [done|]. cbn [mret reader_ret] in Hok2.
  destruct (run_sound _ _ _ _ _ _ (read_uint_sound 8) Hu2 Hok2) as (tc & tb & m3 & -> & Ht & Hutb & Hu3 & Hok3). destruct (run_sound _ _ _ _ _ _ (read_uint_sound 8) Hu3 Hok3) as (kc & kb & m4 & -> & Hk & Hukb & Hu4 & Hok4).
  assert (0 ≤ tc ∧ 0 ≤ kc)%Z as [Htc Hkc] by (destruct Ht as [_ ->], Hk as [_ ->]; split; by apply le_value_nonneg).
  destruct (run_sound _ _ _ _ _ _ (read_many_sound _ _ kc Hkc read_entry_sound) Hu4 Hok4) as (es & eb & m5 & -> & He & _ & Hu5 & [Hmax Hok5]%run_reserve_Ok).
  destruct (run_sound _ _ _ _ _ _ (read_many_sound _ _ tc Htc read_tensor_sound) Hu5 Hok5) as (ts & ib & m6 & -> & Hi & _ & _ & [= <- <- <- <-]). exists (mb ++ vb ++ tb ++ kb ++ eb ++ ib). rewrite <- !app_assoc. split; [done|].
  pose proof He as [Hle _]. pose proof Hi as [Hli _]. exists mb, vb, tb, kb, eb, ib. rewrite Hle, Hli. split_and!; try done. apply orb_false_iff in Hver as [?%Z.ltb_ge ?%Z.ltb_ge]. lia.
Qed.

(** C33: a file is opened exactly when it has the format, and what is opened is what it
    says: version, the last value of every key, the tensor table, and the start of the
    tensor data, which is the first multiple of the alignment behind the table. *)
Theorem gguf_open_exact data f : Forall is_u8 data →
  GgufFile_open meta_value_size tensor_info_size data = Ok f ↔
  ∃ version entries infos pre rest, file_bytes version entries infos pre ∧ data = pre ++ rest ∧ alignment_of (metadata_of entries) ≠ 0%Z ∧
    let a := alignment_of (metadata_of entries) in
    f = mkGgufFile version (metadata_of entries) infos ((Z.of_nat (length pre) + a - 1) / a * a) data.
Proof.
  intros Hu. unfold GgufFile_open. split.
  - destruct (header_reader data) as [[[[version entries] infos] rest]|e|] eqn:Hh; [|done..]. cbn [mbind result_bind]. destruct (read_header_sound _ _ _ _ _ Hu Hh) as (pre & -> & Hpre). unfold align_offset. destruct (Z.eqb_spec (alignment_of (metadata_of entries)) 0) as [|Ha]; [done|].
    cbn [mbind result_bind]. intros [= <-]. exists version, entries, infos, pre, rest. split_and!; try done. cbn zeta. do 5 f_equal. rewrite length_app. lia.
  - intros (version & entries & infos & pre & rest & Hpre & -> & Ha & ->). rewrite (read_header_complete _ _ _ _ _ Hpre). cbn [mbind result_bind]. unfold align_offset. rewrite (proj2 (Z.eqb_neq _ _)) by done. cbn [mbind result_bind]. do 6 f_equal. rewrite length_app. lia.
Qed.
End Exact.

(** ** Panics *)

(** [after R Q bs]: the bytes start with something [R] reads, and [Q] holds of the rest. *)
Definition after {A} (R Q : A → list Z → Prop) (bs : list Z) : Prop := ∃ a pre rest, bs = pre ++ rest ∧ R a pre ∧ Q a rest.

(** Where a file asks for too large a vector: the format up to a length or count whose
    elements need more memory than a vector may have. *)
Section Over.
Context (meta_value_size tensor_info_size : Z).

Definition string_over : list Z → Prop := after (uint_bytes 8) (λ len _, ISIZE_MAX < len)%Z.
(** Some elements, fewer than announced, and then the offending one. *)
Definition many_over {A} (R : A → list Z → Prop) (over : list Z → Prop) (count : Z) (bs : list Z) : Prop :=
  ∃ xs pieces rest, (Z.of_nat (length xs) < count)%Z ∧ Forall2 R xs pieces ∧ bs = concat pieces ++ rest ∧ over rest.

Inductive value_over : Z → list Z → Prop :=
| over_string bs : string_over bs → value_over 8 bs
| over_array elem_type tb count cb rest : uint_bytes 4 elem_type tb → uint_bytes 8 count cb → (ISIZE_MAX < count * meta_value_size)%Z → value_over 9 (tb ++ cb ++ rest)
| over_element elem_type tb count cb l pieces rest : uint_bytes 4 elem_type tb → uint_bytes 8 count cb → (count * meta_value_size ≤ ISIZE_MAX)%Z →
    (Z.of_nat (length l) < count)%Z → Forall2 (value_bytes meta_value_size elem_type) l pieces → value_over elem_type rest → value_over 9 (tb ++ cb ++ concat pieces ++ rest).

Definition entry_over (bs : list Z) : Prop := string_over bs ∨ after string_bytes (λ _, after (uint_bytes 4) value_over) bs.

Definition file_over (data : list Z) : Prop :=
  ∃ mb vb version tb tensor_count kb kv_count rest, uint_bytes 4 GGUF_MAGIC mb ∧ uint_bytes 4 version vb ∧ (version = 2 ∨ version = 3)%Z ∧
    uint_bytes 8 tensor_count tb ∧ uint_bytes 8 kv_count kb ∧ data = mb ++ vb ++ tb ++ kb ++ rest ∧
    (many_over (entry_bytes meta_value_size) entry_over kv_count rest ∨
     after (many_bytes (entry_bytes meta_value_size) kv_count)
       (λ _ rest, (ISIZE_MAX < tensor_count * tensor_info_size)%Z ∨ many_over tensor_bytes_of string_over tensor_count rest) rest).
End Over.

(** Over fewer than [n] bytes, a reader panics exactly on [P], and reads what the format
    allows. *)
Definition panics_on {A} (n : nat) (m : reader A) (P : list Z → Prop) : Prop := ∀ bs, length bs < n → Forall is_u8 bs → m bs = Panic ↔ P bs.
Definition reads_on {A} (n : nat) (m : reader A) (R : A → list Z → Prop) : Prop :=
  sound m R ∧ ∀ a pre rest, R a pre → length (pre ++ rest) < n → m (pre ++ rest) = Ok (a, rest).

Lemma reads_exact {A} n (m : reader A) R : sound m R → complete m R → reads_on n m R.
Proof. intros Hs Hc. split; [done|]. intros a pre rest Ha _. by apply Hc. Qed.

Lemma panics_bind {A B} n (m : reader A) (f : A → reader B) R P Q : reads_on n m R → panics_on n m P →
  (∀ a pre, R a pre → Forall is_u8 pre → panics_on (n - length pre) (f a) (Q a)) → panics_on n (m ≫= f) (λ bs, P bs ∨ after R Q bs).
Proof.
  intros [Hs Hc] Hm Hf bs Hn Hu. rewrite run_bind. specialize (Hm bs Hn Hu). destruct (m bs) as [[a rest]|e|] eqn:Hb.
  - destruct (Hs _ _ _ Hu Hb) as (pre & -> & Ha). pose proof Hu as [Hup Hur]%Forall_app. pose proof Hn as Hn'. rewrite length_app in Hn'. specialize (Hf a pre Ha Hup rest ltac:(lia) Hur). rewrite Hf. split.
    + intros Hp. right. by exists a, pre, rest.
    + intros [HP|(a' & pre' & rest' & Heq & Ha' & HQ)]; [by apply Hm in HP|]. rewrite Heq in Hb, Hn. rewrite (Hc a' pre' rest') in Hb by done. by injection Hb as -> ->.
  - split; [done|]. intros [HP|(a' & pre' & rest' & -> & Ha' & HQ)]; [by apply Hm in HP|]. by rewrite (Hc a' pre' rest') in Hb.
  - split; [intros _; left; by apply Hm|done].
Qed.
Lemma panics_map {A B} n (m : reader A) (g : A → B) P : panics_on n m P → panics_on n (a ← m; mret (g a)) P.
Proof. intros Hm bs Hn Hu. rewrite run_bind, <- (Hm bs Hn Hu). destruct (m bs) as [[a rest]|e|]; split; done. Qed.
Lemma panics_iff {A} n (m : reader A) (P P' : list Z → Prop) : panics_on n m P → (∀ bs, P bs ↔ P' bs) → panics_on n m P'.
Proof. intros Hm HP bs Hn Hu. rewrite <- HP. by apply Hm. Qed.
Lemma panics_less {A} n n' (m : reader A) P : n' ≤ n → panics_on n m P → panics_on n' m P.
Proof. intros Hle Hm bs Hn Hu. apply Hm; [lia|done]. Qed.
Lemma reads_less {A} n n' (m : reader A) R : n' ≤ n → reads_on n m R → reads_on n' m R.
Proof. intros Hle [Hs Hc]. split; [done|]. intros a pre rest Ha Hn. apply Hc; [done|lia]. Qed.

Lemma panics_uint n w : panics_on n (read_uint w) (λ _, False).
Proof. intros bs _ _. unfold read_uint, read_exact. rewrite run_bind. by destruct (_ <=? _)%Z. Qed.
Lemma panics_reserve n count size {B} (k : reader B) P : panics_on n k P → panics_on n (reserve count size ;; k) (λ bs, (ISIZE_MAX < count * size)%Z ∨ ((count * size ≤ ISIZE_MAX)%Z ∧ P bs)).
Proof.
  intros Hk bs Hn Hu. rewrite run_bind. unfold reserve. destruct (Z.ltb_spec ISIZE_MAX (count * size)); [split; [by left|done]|]. rewrite (Hk bs Hn Hu). split; [by right|]. intros [?|[_ ?]]; [lia|done].
Qed.
Lemma uint_nonneg w x pre : uint_bytes w x pre → Forall is_u8 pre → (0 ≤ x)%Z.
Proof. intros [_ ->]. apply le_value_nonneg. Qed.
Lemma reads_uint n w : reads_on n (read_uint w) (uint_bytes w).
Proof. apply reads_exact; [apply read_uint_sound|apply read_uint_complete]. Qed.

(** A reader that starts with a number panics where the rest does. *)
Lemma panics_after_uint {A} n w (f : Z → reader A) Q : (∀ x pre, uint_bytes w x pre → (0 ≤ x)%Z → panics_on (n - w) (f x) (Q x)) → panics_on n (x ← read_uint w; f x) (after (uint_bytes w) Q).
Proof.
  intros Hf. eapply panics_iff; [apply (panics_bind n _ _ (uint_bytes w) (λ _, False) Q); [apply reads_uint|apply panics_uint|]|naive_solver].
  intros x pre Hx Hu. pose proof Hx as [<- _]. apply (Hf x pre); [done|by eapply uint_nonneg].
Qed.

Lemma panics_string n : panics_on n read_string string_over.
Proof.
  eapply panics_iff; [apply (panics_after_uint n 8 _ (λ len bs, (ISIZE_MAX < len * 1)%Z ∨ ((len * 1 ≤ ISIZE_MAX)%Z ∧ False)))|].
  - intros len pre _ _. apply panics_reserve. intros bs _ _. rewrite run_bind. unfold read_exact. destruct (_ <=? _)%Z; [|done]. by destruct (from_utf8 _).
  - intros bs. unfold string_over, after. setoid_rewrite Z.mul_1_r. naive_solver.
Qed.

Section PanicTimes.
Context {A : Type} (n : nat) (read : reader A) (R : A → list Z → Prop) (over : list Z → Prop).
Context (Hne : ∀ a pre, R a pre → pre ≠ []) (Hread : reads_on n read R) (Hover : panics_on n read over).

(** An element that was read takes one from the count. *)
Lemma many_over_cons x pre rest count : R x pre → read (pre ++ rest) = Ok (x, rest) → length (pre ++ rest) < n → Forall is_u8 (pre ++ rest) →
  many_over R over (count - 1) rest ↔ many_over R over count (pre ++ rest).
Proof.
  intros Hx Hb Hn Hu. split.
  - intros (xs & pieces & rest' & Hl & Hall & -> & Ho). exists (x :: xs), (pre :: pieces), rest'. cbn [concat length]. rewrite <- app_assoc. split_and!; [lia|by constructor|done|done].
  - intros (xs & pieces & rest' & Hl & Hall & Heq & Ho). destruct Hall as [|y p ys ps Hy Hall].
    + cbn in Heq. subst rest'. apply Hover in Ho; [congruence|done..].
    + cbn [concat] in Heq. rewrite <- app_assoc in Heq. rewrite Heq in Hb, Hn. rewrite (proj2 Hread y p) in Hb by done. injection Hb as -> <-. exists ys, ps, rest'. cbn in Hl. split_and!; [lia|done..].
Qed.

Lemma panics_times fuel : ∀ count bs, (0 ≤ count)%Z → length bs < fuel → length bs < n → Forall is_u8 bs → read_times read fuel count bs = Panic ↔ many_over R over count bs.
Proof.
  induction fuel as [|fuel IH]; intros count bs Hcount Hf Hn Hu; [lia|]. cbn [read_times]. destruct (Z.eqb_spec count 0) as [->|Hpos].
  { split; [done|]. intros (xs & ? & ? & ? & _). lia. }
  rewrite run_bind. pose proof (Hover bs Hn Hu) as Ho. destruct (read bs) as [[x rest]|e|] eqn:Hb.
  - destruct (proj1 Hread _ _ _ Hu Hb) as (pre & -> & Hx). pose proof (Hne _ _ Hx). assert (0 < length pre) by (destruct pre; [done|cbn; lia]).
    rewrite <- (many_over_cons x pre rest count Hx Hb Hn Hu). rewrite length_app in Hf, Hn. pose proof Hu as [_ Hur]%Forall_app.
    rewrite <- (IH (count - 1)%Z rest ltac:(lia) ltac:(lia) ltac:(lia) Hur), run_bind. by destruct (read_times read fuel (count - 1) rest) as [[ys rest']|e|].
  - split; [done|]. intros (xs & pieces & rest' & Hl & Hall & -> & Hr). destruct Hall as [|y p ys ps Hy Hall]; [by apply Ho in Hr|]. cbn [concat] in Hb, Hn. rewrite <- app_assoc in Hb, Hn. by rewrite (proj2 Hread y p) in Hb.
  - split; [|done]. intros _. exists [], [], bs. split_and!; [cbn; lia|constructor|done|by apply Ho].
Qed.
Lemma panics_many count : (0 ≤ count)%Z → panics_on n (read_many read count) (many_over R over count).
Proof. intros Hcount bs Hn Hu. apply panics_times; [done|lia|done|done]. Qed.
End PanicTimes.

Section PanicExact.
Context (meta_value_size tensor_info_size : Z).
Local Abbreviation value_bytes := (value_bytes meta_value_size).
Local Abbreviation value_over := (value_over meta_value_size).

Lemma value_over_array bs : value_over 9 bs ↔ after (uint_bytes 4) (λ et, after (uint_bytes 8) (λ count bs, (ISIZE_MAX < count * meta_value_size)%Z ∨
  ((count * meta_value_size ≤ ISIZE_MAX)%Z ∧ many_over (value_bytes et) (value_over et) count bs))) bs.
Proof.
  split.
  - inversion 1 as [|et tb count cb rest Ht Hc Hm|et tb count cb l pieces rest Ht Hc Hm Hl Hall Ho]; subst.
    + exists et, tb, (cb ++ rest). split_and!; [done..|]. exists count, cb, rest. split_and!; [done..|by left].
    + exists et, tb, (cb ++ concat pieces ++ rest). split_and!; [done..|]. exists count, cb, (concat pieces ++ rest). split_and!; [done..|]. right. split; [done|]. by exists l, pieces, rest.
  - intros (et & tb & mid & -> & Ht & count & cb & rest & -> & Hc & [Hm|(Hm & l & pieces & rest' & Hl & Hall & -> & Ho)]); [by econstructor|by eapply over_element].
Qed.

Lemma panics_value fuel : ∀ t, panics_on fuel (read_typed_value meta_value_size fuel t) (value_over t).
Proof.
  induction fuel as [|fuel IH]; intros t; [intros bs Hn; lia|].
  assert (∀ m : reader MetaValue, t ≠ 8%Z → t ≠ 9%Z → panics_on (S fuel) m (λ _, False) → panics_on (S fuel) m (value_over t)) as Hplain.
  { intros m H8 H9 Hm. eapply panics_iff; [exact Hm|]. intros bs. split; [done|]. by destruct 1. }
  assert (∀ e, panics_on (S fuel) (fail (A := MetaValue) e) (λ _, False)) as Hfail by done.
  cbn [read_typed_value]. repeat (case_match; [|try (by apply Hplain)..]); try (by apply Hplain); subst;
    try (apply Hplain; [done..|]; apply panics_map; first [apply panics_uint|apply panics_map, panics_uint]).
  - eapply panics_iff; [|intros bs; symmetry; apply value_over_array]. apply panics_after_uint. intros et tb _ _. apply panics_after_uint. intros count cb _ Hc. apply panics_reserve, panics_map.
    apply panics_many; [intros; by eapply value_nonempty| | |done].
    + apply (reads_less fuel); [lia|]. split; [apply read_value_sound|]. intros a pre rest Ha Hl. rewrite length_app in Hl. apply read_value_complete; [done|lia].
    + apply (panics_less fuel); [lia|]. apply IH.
  - eapply panics_iff; [apply panics_map, panics_string|]. intros bs. split; [by constructor|]. by inversion 1.
Qed.

Lemma panics_entry n : panics_on n (read_entry meta_value_size) (entry_over meta_value_size).
Proof.
  apply (panics_bind n _ _ string_bytes string_over (λ _, after (uint_bytes 4) value_over)); [apply reads_exact; [apply read_string_sound|apply read_string_complete]|apply panics_string|].
  intros key kb _ _. apply panics_map, panics_after_uint. intros t tb _ _. intros bs _ Hu. apply panics_value; [lia|done].
Qed.

Lemma panics_tensor n : panics_on n read_tensor_info string_over.
Proof.
  eapply panics_iff; [apply (panics_bind n _ _ string_bytes string_over (λ _, after (uint_bytes 4) (λ nd bs, many_over (uint_bytes 8) (λ _, False) nd bs ∨ after (many_bytes (uint_bytes 8) nd) (λ _, after (uint_bytes 4) (λ _ _, False)) bs)));
    [apply reads_exact; [apply read_string_sound|apply read_string_complete]|apply panics_string|]|].
  - intros name nb _ _. apply panics_after_uint. intros nd db _ Hnd. apply panics_bind.
    + apply reads_exact; [by apply read_many_sound, read_uint_sound|]. intros xs pre rest Hxs. eapply read_many_complete; [|apply read_uint_complete|exact Hxs]. intros a p. apply uint_nonempty. lia.
    + apply panics_many; [intros a p; apply uint_nonempty; lia|apply reads_uint|apply panics_uint|done].
    + intros sh sb _ _. apply panics_after_uint. intros raw rb _ _. case_match; [|done]. intros bs Hn Hu. rewrite run_bind. cbn [mret reader_ret]. by apply (panics_map _ _ _ _ (panics_uint (S (length bs)) 8)); [lia|].
  - intros bs. split; [|by left]. intros [?|(a & pre & rest & _ & _ & nd & db & r & _ & _ & [(xs & ps & r' & _ & _ & _ & [])|(b & q & r' & _ & _ & x & y & z & _ & _ & [])])]. done.
Qed.

(** A check that fails with an error. *)
Lemma panics_guard {A} n (G : Prop) (check : reader unit) (k : reader A) P : G ∧ check = mret tt ∨ ¬ G ∧ (∃ e, check = fail e) → panics_on n k P → panics_on n (check ;; k) (λ bs, G ∧ P bs).
Proof. intros [[HG ->]|[HG [e ->]]] Hk bs Hn Hu; rewrite run_bind; cbn.
  - rewrite (Hk bs Hn Hu). split; [done|by intros [_ ?]].
  - split; [done|by intros [? _]].
Qed.

(** The tables behind the fixed part of the header. *)
Definition tables_over (tensor_count kv_count : Z) (bs : list Z) : Prop :=
  many_over (entry_bytes meta_value_size) (entry_over meta_value_size) kv_count bs ∨
  after (many_bytes (entry_bytes meta_value_size) kv_count)
    (λ _ rest, (ISIZE_MAX < tensor_count * tensor_info_size)%Z ∨ ((tensor_count * tensor_info_size ≤ ISIZE_MAX)%Z ∧ many_over tensor_bytes_of string_over tensor_count rest)) bs.

Lemma panics_tables {B} n tensor_count kv_count (g : list (list Z * MetaValue) → list TensorInfo → B) : (0 ≤ tensor_count)%Z → (0 ≤ kv_count)%Z →
  panics_on n (entries ← read_many (read_entry meta_value_size) kv_count; reserve tensor_count tensor_info_size ;; infos ← read_many read_tensor_info tensor_count; mret (g entries infos)) (tables_over tensor_count kv_count).
Proof.
  intros Htc Hkc. apply (panics_bind _ _ _ (many_bytes (entry_bytes meta_value_size) kv_count)).
  - apply reads_exact; [by apply read_many_sound, read_entry_sound|]. intros xs pre rest Hxs. eapply read_many_complete; [|apply read_entry_complete|exact Hxs]. apply entry_nonempty.
  - apply panics_many; [apply entry_nonempty|apply reads_exact; [apply read_entry_sound|apply read_entry_complete]|apply panics_entry|done].
  - intros es eb _ _. apply panics_reserve, panics_map. apply panics_many; [apply tensor_nonempty|apply reads_exact; [apply read_tensor_sound|apply read_tensor_complete]|apply panics_tensor|done].
Qed.

Lemma file_over_tables data : file_over meta_value_size tensor_info_size data ↔
  after (uint_bytes 4) (λ magic bs, magic = GGUF_MAGIC ∧ after (uint_bytes 4) (λ version bs, (version = 2 ∨ version = 3)%Z ∧
    after (uint_bytes 8) (λ tc, after (uint_bytes 8) (λ kc, tables_over tc kc)) bs) bs) data.
Proof.
  unfold file_over, tables_over. split.
  - intros (mb & vb & version & tb & tc & kb & kc & rest & Hm & Hv & Hver & Ht & Hk & -> & Hover). exists GGUF_MAGIC, mb, (vb ++ tb ++ kb ++ rest). split_and!; [done..|].
    exists version, vb, (tb ++ kb ++ rest). split_and!; [done..|]. exists tc, tb, (kb ++ rest). split_and!; [done..|]. exists kc, kb, rest. split_and!; [done..|].
    destruct Hover as [?|(es & pre & rest' & -> & He & Ho)]; [by left|right]. exists es, pre, rest'. split_and!; [done..|].
    destruct (decide (ISIZE_MAX < tc * tensor_info_size)%Z); [by left|right]. split; [lia|]. by destruct Ho.
  - intros (magic & mb & r1 & -> & Hm & -> & version & vb & r2 & -> & Hv & Hver & tc & tb & r3 & -> & Ht & kc & kb & rest & -> & Hk & Hover). exists mb, vb, version, tb, tc, kb, kc, rest. split_and!; try done.
    destruct Hover as [?|(es & pre & rest' & -> & He & Ho)]; [by left|right]. exists es, pre, rest'. split_and!; [done..|]. destruct Ho as [?|[_ ?]]; [by left|by right].
Qed.

Lemma panics_header n : panics_on n (read_header meta_value_size tensor_info_size) (file_over meta_value_size tensor_info_size).
Proof.
  eapply panics_iff; [|intros bs; symmetry; apply file_over_tables]. apply panics_after_uint. intros magic mb _ _. apply panics_guard.
  { destruct (Z.eqb_spec magic GGUF_MAGIC); [by left|right; split; [done|by eexists]]. }
  apply panics_after_uint. intros version vb _ _. apply panics_guard.
  { destruct (Z.ltb_spec version 2); [right; split; [lia|by eexists]|]. destruct (Z.ltb_spec 3 version); [right; split; [lia|by eexists]|]. left. split; [lia|done]. }
  apply panics_after_uint. intros tc tb _ Htc. apply panics_after_uint. intros kc kb _ Hkc. by apply panics_tables.
Qed.

(** C34: opening a file panics exactly in two cases: the file has the format up to a length
    or count (of a string, of the elements of an array, at any depth, or of the tensors)
    whose elements need more memory than a vector may have, or it has the format and
    declares an alignment of zero. Every other malformed file is refused with an error. *)
Theorem gguf_open_panics data : Forall is_u8 data →
  GgufFile_open meta_value_size tensor_info_size data = Panic ↔ file_over meta_value_size tensor_info_size data ∨
    ∃ version entries infos pre rest, file_bytes meta_value_size tensor_info_size version entries infos pre ∧ data = pre ++ rest ∧ alignment_of (metadata_of entries) = 0%Z.
Proof.
  intros Hu. pose proof (panics_header (S (length data)) data ltac:(lia) Hu) as Hp. rewrite <- Hp. unfold GgufFile_open. split.
  - destruct (read_header _ _ data) as [[[[version entries] infos] rest]|e|] eqn:Hh; [|done|by left].
    cbn [mbind result_bind]. unfold align_offset. destruct (Z.eqb_spec (alignment_of (metadata_of entries)) 0) as [Ha|]; [|done]. intros _. right. destruct (read_header_sound _ _ _ _ _ _ _ Hu Hh) as (pre & -> & Hpre). by exists version, entries, infos, pre, rest.
  - intros [->|(version & entries & infos & pre & rest & Hpre & -> & Ha)]; [done|]. rewrite (read_header_complete _ _ _ _ _ _ _ Hpre). cbn [mbind result_bind]. unfold align_offset. by rewrite Ha.
Qed.
End PanicExact.

(** ** A small file *)

Module GgufDemo.
Definition text (s : string) : list Z := le_bytes 8 (Z.of_nat (String.length s)) ++ str_bytes s.
(** One metadata entry, the alignment, and one tensor of two numbers. *)
Definition file (alignment : Z) : list Z :=
  le_bytes 4 GGUF_MAGIC ++ le_bytes 4 3 ++ le_bytes 8 1 ++ le_bytes 8 1 ++
  text "general.alignment" ++ le_bytes 4 4 ++ le_bytes 4 alignment ++
  text "w" ++ le_bytes 4 1 ++ le_bytes 8 2 ++ le_bytes 4 0 ++ le_bytes 8 0 ++ replicate 64 7%Z.
Definition opened : GgufFile := mkGgufFile 3 {[ str_bytes "general.alignment" := MU32 64 ]} [mkTensorInfo (str_bytes "w") [2%Z] GF32 0] 128 (file 64).
Example opens : GgufFile_open 32 72 (file 64) = Ok opened ∧ tensor_data opened (mkTensorInfo (str_bytes "w") [2%Z] GF32 0) = Ok (replicate 8 7%Z).
Proof. by split; vm_compute. Qed.
(** A key of 2^63 bytes. *)
Definition long_key : list Z := le_bytes 4 GGUF_MAGIC ++ le_bytes 4 3 ++ le_bytes 8 0 ++ le_bytes 8 1 ++ le_bytes 8 (2 ^ 63).
Lemma long_key_u8 : Forall is_u8 long_key.
Proof. unfold long_key. repeat (apply Forall_app; split; [apply le_bytes_u8|]). apply le_bytes_u8. Qed.
Lemma file_u8 a : Forall is_u8 (file a).
Proof.
  assert (∀ s, Forall is_u8 (text s)) as Htext by (intros s; apply Forall_app; split; [apply le_bytes_u8|apply str_bytes_u8]). unfold file.
  repeat (apply Forall_app; split; [apply le_bytes_u8 || apply Htext|]). apply Forall_replicate. ulia.
Qed.
End GgufDemo.

Lemma gguf_open_exact_witness : ∃ version entries infos pre rest, file_bytes 32 72 version entries infos pre ∧ GgufDemo.file 64 = pre ++ rest ∧ alignment_of (metadata_of entries) ≠ 0%Z ∧
  let a := alignment_of (metadata_of entries) in
  GgufDemo.opened = mkGgufFile version (metadata_of entries) infos ((Z.of_nat (length pre) + a - 1) / a * a) (GgufDemo.file 64).
Proof. apply (gguf_open_exact 32 72 (GgufDemo.file 64) GgufDemo.opened (GgufDemo.file_u8 64)). exact (proj1 GgufDemo.opens). Defined.

(** A file that declares alignment 0, and one whose first key has 2^63 bytes. *)
Lemma gguf_open_panics_witness :
  (∃ version entries infos pre rest, file_bytes 32 72 version entries infos pre ∧ GgufDemo.file 0 = pre ++ rest ∧ alignment_of (metadata_of entries) = 0%Z) ∧
  file_over 32 72 GgufDemo.long_key ∧ ¬ file_over 32 72 (GgufDemo.file 64).
Proof.
  assert (GgufFile_open 32 72 (GgufDemo.file 0) = Panic) as Hp by (vm_compute; reflexivity). assert (GgufFile_open 32 72 GgufDemo.long_key = Panic) as Hl by (vm_compute; reflexivity).
  apply (gguf_open_panics 32 72) in Hp; [|apply GgufDemo.file_u8]. apply (gguf_open_panics 32 72) in Hl; [|apply GgufDemo.long_key_u8].
  assert (read_header 32 72 (GgufDemo.file 0) ≠ Panic) as Hn by (vm_compute; discriminate). assert (read_header 32 72 GgufDemo.long_key = Panic) as Hr by (vm_compute; reflexivity).
  split_and!.
  - destruct Hp as [Hp|Hp]; [|exact Hp]. exfalso. apply Hn. eapply (panics_header 32 72 (S (length (GgufDemo.file 0)))); [lia|apply GgufDemo.file_u8|exact Hp].
  - eapply (panics_header 32 72 (S (length GgufDemo.long_key))); [lia|apply GgufDemo.long_key_u8|exact Hr].
  - intros Ho. assert (GgufFile_open 32 72 (GgufDemo.file 64) = Panic) as Hc by (apply (gguf_open_panics 32 72); [apply GgufDemo.file_u8|by left]). rewrite (proj1 GgufDemo.opens) in Hc. discriminate.
Defined.
