(* ===== verification/Tokenizer.v ===== *)
(** The tokenizer (src/crates/hipfire-runtime/src/tokenizer.rs).

    Vocabulary, merge rules and special tokens are read from a GGUF file, from a
    Hugging Face [tokenizer.json] or from the metadata of a quantised model; text is split
    at special tokens and encoded by byte-pair merges (GPT-2 family) or by longest match
    (SentencePiece family); tokens are decoded to bytes. A [String] is the list of its
    characters ([Utf8]); positions in it are counted in characters, which orders and
    compares them as the byte offsets of the code do. The regular expression that cuts text
    into chunks and the JSON parser belong to other packages and are parameters. *)

From S2P Require Import Prelude Utf8 Text F32 Bpe Gguf.

Inductive Side : Type := LeftSide | RightSide.

Inductive TokenizerError : Type :=
| MetadataMissing (field : string)
| MalformedJson
| MissingByteSymbol (byte char : Z)
| MissingMergeOperand (rank : nat) (left right : str) (missing_side : Side)
| MissingMergeResult (rank : nat) (expected : str).

Record Tokenizer := mkTokenizer {
  vocab : list str;
  token_to_id : gmap str Z;
  merges : list Z;
  merge_pair_rank : gmap (Z * Z) Z;
  byte_to_id : option (list Z);
  special_tokens : list (str * Z);
  bos_id : Z;
  add_bos : bool;
  eos_id : Z;
  eot_id : option Z;
  is_gpt2_bpe : bool;
  sp_dummy_prefix : bool }.

(** ** Bytes as GPT-2 characters *)

Definition gpt2_printable (b : Z) : bool := within 0x21 0x7E b || within 0xA1 0xAC b || within 0xAE 0xFF b.

(** The loops that fill the two tables. *)
Definition GPT2_BYTE_TO_OFFSET : list Z :=
  (foldl (λ '(table, n) b, if gpt2_printable (Z.of_nat b) then (table, n) else (<[b := n]> table, n + 1)%Z) (replicate 256 0xFF%Z, 0%Z) (seq 0 256)).1.
Definition GPT2_OFFSET_TO_BYTE : list Z :=
  (foldl (λ '(table, n) b, if gpt2_printable (Z.of_nat b) then (table, n) else (<[n := Z.of_nat b]> table, S n)) (replicate 68 0%Z, 0) (seq 0 256)).1.

Definition byte_to_gpt2_char (b : Z) : Z := if gpt2_printable b then b else (256 + nth (Z.to_nat b) GPT2_BYTE_TO_OFFSET 0)%Z.
Definition gpt2_char_to_byte (c : Z) : option Z :=
  if gpt2_printable c then Some c
  else if ((256 <=? c) && (c <? 256 + 68))%Z then GPT2_OFFSET_TO_BYTE !! Z.to_nat (c - 256)
  else None.

(** ** Merge rules *)

Definition resolve_one (token_to_id : gmap str Z) (acc : list Z * gmap (Z * Z) Z) (rule : nat * (str * str)) : result TokenizerError (list Z * gmap (Z * Z) Z) :=
  let '(merges, ranks) := acc in
  let '(rank, (l_str, r_str)) := rule in
  left ← ok_or (MissingMergeOperand rank l_str r_str LeftSide) (token_to_id !! l_str);
  right ← ok_or (MissingMergeOperand rank l_str r_str RightSide) (token_to_id !! r_str);
  merged ← ok_or (MissingMergeResult rank (l_str ++ r_str)) (token_to_id !! (l_str ++ r_str));
  Ok (merges ++ [merged], match ranks !! (left, right) with Some _ => ranks | None => <[(left, right) := wrap32 (Z.of_nat rank)]> ranks end).
Definition resolve_merges (merges_strings : list (str * str)) (token_to_id : gmap str Z) : result TokenizerError (list Z * gmap (Z * Z) Z) :=
  try_fold (resolve_one token_to_id) ([], ∅) (enumerate merges_strings).

Definition build_byte_to_id (token_to_id : gmap str Z) : result TokenizerError (list Z) :=
  try_map (λ b, let ch := byte_to_gpt2_char (Z.of_nat b) in ok_or (MissingByteSymbol (Z.of_nat b) ch) (token_to_id !! [ch])) (seq 0 256).

(** [s.splitn(2, ' ')] with two parts. *)
Fixpoint split_space (s : str) : option (str * str) :=
  match s with
  | [] => None
  | c :: s => if (c =? 32)%Z then Some ([], s) else '(a, b) ← split_space s; Some (c :: a, b)
  end.

(** [sort_by(|a, b| b.0.len().cmp(&a.0.len()))]: stable, longest in bytes first. *)
Fixpoint insert_special (x : str * Z) (l : list (str * Z)) : list (str * Z) :=
  match l with
  | [] => [x]
  | y :: l' => if bool_decide (str_len y.1 ≤ str_len x.1) then x :: l else y :: insert_special x l'
  end.
Definition sort_specials (l : list (str * Z)) : list (str * Z) := foldr insert_special [] l.

(** [token_to_id.insert(tok.clone(), i as u32)] for every entry. *)
Definition index_vocab (vocab : list str) : gmap str Z := foldl (λ m e, <[e.2 := wrap32 (Z.of_nat e.1)]> m) ∅ (enumerate vocab).

(** Entries of a GGUF vocabulary that look like markers. *)
Definition looks_special (tok : str) : bool :=
  (starts_with tok (lit "<|") && ends_with tok (lit "|>")) ||
  (starts_with tok (lit "<") && ends_with tok (lit ">") && bool_decide (3 < str_len tok) && negb (bool_decide (32%Z ∈ tok))).
Definition gguf_specials (vocab : list str) : list (str * Z) :=
  sort_specials ((λ e : nat * str, (e.2, wrap32 (Z.of_nat e.1))) <$> filter (λ e, looks_special e.2 = true) (enumerate vocab)).

(** The auxiliary terminator; both arms of the match give the same answer. *)
Definition pick_eot (token_to_id : gmap str Z) (eos_id : Z) : option Z :=
  match token_to_id !! lit "<|endoftext|>" with
  | Some et => if bool_decide (et = eos_id) then None else Some et
  | None => None
  end.

(** The end of every constructor. *)
Definition finish_tokenizer (vocab : list str) (token_to_id : gmap str Z) (merges_strings : list (str * str)) (special_tokens : list (str * Z))
    (bos_id eos_id : Z) (eot_id : option Z) (is_gpt2_bpe sp_dummy_prefix : bool) : result TokenizerError Tokenizer :=
  '(merges, ranks) ← resolve_merges merges_strings token_to_id;
  byte_to_id ← (if is_gpt2_bpe then table ← build_byte_to_id token_to_id; Ok (Some table) else Ok None);
  Ok (mkTokenizer vocab token_to_id merges ranks byte_to_id special_tokens bos_id false eos_id eot_id is_gpt2_bpe sp_dummy_prefix).

(** ** From a GGUF file *)

(** [Tokenizer::from_gguf] *)
Definition from_gguf (g : GgufFile) : result TokenizerError Tokenizer :=
  tokens ← ok_or (MetadataMissing "tokenizer.ggml.tokens") (gguf_meta g (lit "tokenizer.ggml.tokens"));
  vocab ← match tokens with
    | MArray arr => Ok ((λ v, match v with MString s => s | _ => [] end) <$> arr)
    | _ => Err (MetadataMissing "tokenizer.ggml.tokens")
    end;
  let token_to_id := index_vocab vocab in
  let merges_strings := match gguf_meta g (lit "tokenizer.ggml.merges") with
    | Some (MArray arr) => omap (λ v, match v with MString s => split_space s | _ => None end) arr
    | _ => []
    end in
  let bos_id := default 1%Z (gguf_meta_u32 g (lit "tokenizer.ggml.bos_token_id")) in
  let eos_id := default 2%Z (gguf_meta_u32 g (lit "tokenizer.ggml.eos_token_id")) in
  let model_type := default (lit "llama") (gguf_meta_str g (lit "tokenizer.ggml.model")) in
  let sp_dummy_prefix := match gguf_meta g (lit "tokenizer.ggml.add_space_prefix") with Some (MBool b) => b | _ => true end in
  finish_tokenizer vocab token_to_id merges_strings (gguf_specials vocab) bos_id eos_id (pick_eot token_to_id eos_id) (bool_decide (model_type = lit "gpt2")) sp_dummy_prefix.

(** ** From JSON *)

(** [sp_dummy_prefix_from_hf_json] *)
Definition type_of (v : Value) : option str := json_get v (lit "type") ≫= as_str.
(** The members of a sequence stage are smaller than the stage, so its depth bounds the recursion. *)
Fixpoint value_depth (v : Value) : nat :=
  match v with
  | VArray l => S (max_list (value_depth <$> l))
  | VObject m => S (max_list ((λ e, value_depth e.2) <$> m))
  | _ => 0
  end.
Fixpoint normalizer_prepends (fuel : nat) (n : Value) : bool :=
  match fuel with
  | 0 => false
  | S fuel =>
      if bool_decide (type_of n = Some (lit "Prepend")) then true
      else if bool_decide (type_of n = Some (lit "Sequence")) then
        match json_get n (lit "normalizers") ≫= as_array with Some arr => existsb (normalizer_prepends fuel) arr | None => false end
      else false
  end.
Fixpoint pretokenizer_prepends (fuel : nat) (p : Value) : bool :=
  match fuel with
  | 0 => false
  | S fuel =>
      if bool_decide (type_of p = Some (lit "Metaspace")) then
        match json_get p (lit "prepend_scheme") ≫= as_str with
        | Some s => bool_decide (s = lit "always") || bool_decide (s = lit "first")
        | None => default true (json_get p (lit "add_prefix_space") ≫= as_bool)
        end
      else if bool_decide (type_of p = Some (lit "Sequence")) then
        match json_get p (lit "pretokenizers") ≫= as_array with Some arr => existsb (pretokenizer_prepends fuel) arr | None => false end
      else false
  end.
Definition present (o : option Value) : option Value := v ← o; if is_null v then None else Some v.
Definition sp_dummy_prefix_from_hf_json (tok : Value) : bool :=
  let normalizer := present (json_get tok (lit "normalizer")) in
  let pre_tokenizer := present (json_get tok (lit "pre_tokenizer")) in
  match normalizer, pre_tokenizer with
  | None, None => true
  | _, _ => from_option (λ v, normalizer_prepends (S (value_depth v)) v) false normalizer || from_option (λ v, pretokenizer_prepends (S (value_depth v)) v) false pre_tokenizer
  end.

(** [vocab.resize(id + 1, String::new())] when the id is past the end, then [vocab[id] = token]. *)
Definition set_vocab (vocab : list str) (id : Z) (token : str) : list str :=
  let i := Z.to_nat id in
  let vocab := if bool_decide (length vocab ≤ i) then vocab ++ replicate (i + 1 - length vocab) [] else vocab in
  <[i := token]> vocab.

(** One entry of [model.vocab] and one of [added_tokens]. *)
Definition add_vocab_entry (acc : list str * gmap str Z) (e : str * Value) : result TokenizerError (list str * gmap str Z) :=
  id ← ok_or (MetadataMissing "model.vocab[*]: non-integer id") (as_u64 e.2);
  let id := wrap32 id in
  Ok (set_vocab acc.1 id e.1, <[e.1 := id]> acc.2).
Definition add_added_token (acc : list str * gmap str Z * list (str * Z)) (at_ : Value) : list str * gmap str Z * list (str * Z) :=
  match json_get at_ (lit "content") ≫= as_str, json_get at_ (lit "id") ≫= as_u64 with
  | Some content, Some id =>
      let id := wrap32 id in
      (set_vocab acc.1.1 id content, <[content := id]> acc.1.2, acc.2 ++ [(content, id)])
  | _, _ => acc
  end.

(** A merge rule: a pair of strings or one string with a space. *)
Definition hf_merge (v : Value) : option (str * str) :=
  match v with
  | VString s => split_space s
  | VArray [VString a; VString b] => Some (a, b)
  | _ => None
  end.

Definition G_CHAR : Z := 0x120.
Definition SP_CHAR : Z := 0x2581.
Definition count_starting (c : Z) (m : gmap str Z) : nat := length (filter (λ e, starts_with e.1 [c] = true) (map_to_list m)).

Section Constructors.
(** [serde_json::from_str] *)
Context (parse_json : str → option Value).

(** [Tokenizer::from_hf_json] *)
Definition from_hf_json (json_str : str) : result TokenizerError Tokenizer :=
  tok ← ok_or MalformedJson (parse_json json_str);
  model ← ok_or (MetadataMissing "model") (json_get tok (lit "model"));
  vocab_map ← ok_or (MetadataMissing "model.vocab") (json_get model (lit "vocab") ≫= as_object);
  read ← try_fold add_vocab_entry (replicate (length vocab_map + 100) [], ∅) vocab_map;
  let merges_strings := match json_get model (lit "merges") ≫= as_array with Some arr => omap hf_merge arr | None => [] end in
  let '(vocab, token_to_id, special_tokens) :=
    match json_get tok (lit "added_tokens") ≫= as_array with Some added => foldl add_added_token (read, []) added | None => (read, []) end in
  let first_of (names : list string) (d : Z) : Z := default d (head (omap (λ s, token_to_id !! lit s) names)) in
  let bos_id := first_of ["<|endoftext|>"; "<s>"] 1%Z in
  let eos_id := first_of ["<|im_end|>"; "<|endoftext|>"; "</s>"] 2%Z in
  let is_gpt2_bpe := bool_decide (is_Some (token_to_id !! (G_CHAR :: lit "the"))) ||
    (bool_decide (is_Some (token_to_id !! [G_CHAR])) && bool_decide (count_starting SP_CHAR token_to_id < count_starting G_CHAR token_to_id)) in
  finish_tokenizer vocab token_to_id merges_strings (sort_specials special_tokens) bos_id eos_id (pick_eot token_to_id eos_id) is_gpt2_bpe (sp_dummy_prefix_from_hf_json tok).

(** [Tokenizer::from_tokenizer_json], from what reading the file gave. *)
Definition from_tokenizer_json (read_to_string : option str) : result TokenizerError (option Tokenizer) :=
  match read_to_string with
  | Some json_str => t ← from_hf_json json_str; Ok (Some t)
  | None => Ok None
  end.

(** [Tokenizer::from_gguf_meta_json] *)
Definition from_gguf_meta_json (meta : Value) : result TokenizerError Tokenizer :=
  tokens_arr ← ok_or (MetadataMissing "tokenizer.ggml.tokens") (json_get meta (lit "tokenizer.ggml.tokens") ≫= as_array);
  let vocab := (λ v, default [] (as_str v)) <$> tokens_arr in
  let token_to_id := index_vocab vocab in
  let merges_strings := match json_get meta (lit "tokenizer.ggml.merges") ≫= as_array with Some arr => omap (λ s, as_str s ≫= split_space) arr | None => [] end in
  let bos_id := wrap32 (default 1%Z (json_get meta (lit "tokenizer.ggml.bos_token_id") ≫= as_u64)) in
  let eos_id := wrap32 (default 2%Z (json_get meta (lit "tokenizer.ggml.eos_token_id") ≫= as_u64)) in
  let model_type := default (lit "llama") (json_get meta (lit "tokenizer.ggml.model") ≫= as_str) in
  let sp_dummy_prefix := default true (json_get meta (lit "tokenizer.ggml.add_space_prefix") ≫= as_bool) in
  finish_tokenizer vocab token_to_id merges_strings (gguf_specials vocab) bos_id eos_id (pick_eot token_to_id eos_id) (bool_decide (model_type = lit "gpt2")) sp_dummy_prefix.

Definition with_ids (t : Tokenizer) (bos eos : Z) (add : bool) : Tokenizer :=
  mkTokenizer (vocab t) (token_to_id t) (merges t) (merge_pair_rank t) (byte_to_id t) (special_tokens t) bos add eos (eot_id t) (is_gpt2_bpe t) (sp_dummy_prefix t).

(** [Tokenizer::from_hfq_metadata] *)
Definition from_hfq_metadata (metadata_json : str) : result TokenizerError Tokenizer :=
  meta ← ok_or MalformedJson (parse_json metadata_json);
  match json_get meta (lit "tokenizer") ≫= as_str with
  | Some tok_str =>
      t ← from_hf_json tok_str;
      let override (key : string) (old : Z) : Z :=
        match (json_get meta (lit "generation_config") ≫= λ gc, json_get gc (lit key)) ≫= as_u64 with
        | Some b => if (b <? Z.of_nat (length (vocab t)))%Z then wrap32 b else old
        | None => old
        end in
      let add := match (json_get meta (lit "tokenizer_config") ≫= λ tc, json_get tc (lit "add_bos_token")) ≫= as_bool with
        | Some ab => ab
        | None =>
            match json_get meta (lit "architecture") ≫= as_str with
            | Some arch => bool_decide (arch = lit "lfm2") || bool_decide (arch = lit "lfm2_moe")
            | None => false
            end
        end in
      Ok (with_ids t (override "bos_token_id" (bos_id t)) (override "eos_token_id" (eos_id t)) add)
  | None =>
      match json_get meta (lit "gguf_meta") with
      | Some gguf_meta => from_gguf_meta_json gguf_meta
      | None => Err (MetadataMissing "tokenizer | gguf_meta")
      end
  end.
End Constructors.

(** ** Decoding *)

(** [Tokenizer::is_terminator], [Tokenizer::special_token_id] *)
Definition is_terminator (t : Tokenizer) (id : Z) : bool := bool_decide (id = eos_id t) || bool_decide (eot_id t = Some id).
Definition special_token_id (t : Tokenizer) (content : str) : option Z := snd ∘ snd <$> list_find (λ e, e.1 = content) (special_tokens t).

(** One character of a GPT-2 token. *)
Definition gpt2_decode_char (c : Z) : list Z :=
  if (c =? 0x120)%Z then [32%Z]
  else if (c =? 0x10A)%Z then [10%Z]
  else if (c =? 0x109)%Z then [9%Z]
  else if (c <? 0x80)%Z then [c]
  else match gpt2_char_to_byte c with Some b => [b] | None => encode_utf8 c end.

Definition is_hexdigit (c : Z) : bool := within 48 57 c || within 65 70 c || within 97 102 c.
Definition hex_digit (c : Z) : Z := if within 48 57 c then c - 48 else if within 65 70 c then c - 55 else c - 87.
(** [u8::from_str_radix(hex, 16)] of a non-empty string of digits. *)
Definition u8_from_hex (hex : str) : option Z :=
  let v := foldl (λ acc c, acc * 16 + hex_digit c)%Z 0%Z hex in if (v <=? 255)%Z then Some v else None.
Fixpoint take_hex (cs : str) : str * str :=
  match cs with
  | c :: cs' => if is_hexdigit c then let '(h, r) := take_hex cs' in (c :: h, r) else ([], cs)
  | [] => ([], [])
  end.

(** What follows a [<]: the bytes to emit and the characters left. *)
Definition hex_escape (cs : str) : list Z * str :=
  match cs with
  | c :: cs1 =>
      if (c =? 48)%Z then
        match cs1 with
        | x :: cs2 =>
            if (x =? 120)%Z || (x =? 88)%Z then
              let '(hex, rest) := take_hex cs2 in
              let temp := utf8 (60 :: 48 :: x :: hex)%Z in
              match rest with
              | g :: rest' =>
                  if (g =? 62)%Z && negb (bool_decide (hex = [])) then
                    match u8_from_hex hex with Some byte => ([byte], rest') | None => (temp, rest') end
                  else (temp, rest)
              | [] => (temp, rest)
              end
            else (utf8 [60; 48]%Z, cs1)
        | [] => (utf8 [60; 48]%Z, cs1)
        end
      else (utf8 [60]%Z, cs)
  | [] => (utf8 [60]%Z, cs)
  end.

(** [decode_hex_escapes_bytes]; every round consumes a character. *)
Fixpoint hex_loop (fuel : nat) (cs : str) : list Z :=
  match fuel, cs with
  | S fuel, c :: cs => if (c =? 60)%Z then let '(out, rest) := hex_escape cs in out ++ hex_loop fuel rest else encode_utf8 c ++ hex_loop fuel cs
  | _, _ => []
  end.
Definition decode_hex_escapes_bytes (s : str) : list Z := hex_loop (length s) s.

(** [tok.replace('▁', " ")] *)
Definition sp_to_space (tok : str) : str := (λ c, if (c =? SP_CHAR)%Z then 32%Z else c) <$> tok.

(** The bytes of one token. *)
Definition token_bytes (t : Tokenizer) (id : Z) : list Z :=
  match vocab t !! Z.to_nat id with
  | Some tok => if is_gpt2_bpe t then concat (gpt2_decode_char <$> tok) else decode_hex_escapes_bytes (sp_to_space tok)
  | None => []
  end.
(** [Tokenizer::decode_bytes], [Tokenizer::decode] *)
Definition decode_bytes (t : Tokenizer) (tokens : list Z) : list Z := concat (token_bytes t <$> tokens).
Definition tok_decode (t : Tokenizer) (tokens : list Z) : str := from_utf8_lossy (decode_bytes t tokens).

(** ** Encoding *)

Section Encode.
(** [gpt2_pretok_re().find_iter]: the chunks of a text. *)
Context {E : Type} (find_iter : str → list str).

(** [encode_gpt2_bpe] *)
Definition encode_gpt2_bpe (t : Tokenizer) (text : str) : result E (list Z) :=
  try_fold (λ out m, encode_gpt2_chunk (merges t) (merge_pair_rank t) (byte_to_id t) (utf8 m) out) [] (find_iter text).

(** The longest prefix of at most [k] characters in the vocabulary. *)
Fixpoint scan_down (ids : gmap str Z) (k : nat) (rest : str) : option (nat * Z) :=
  match k with
  | 0 => None
  | S k' => match ids !! take k rest with Some id => Some (k, id) | None => scan_down ids k' rest end
  end.
Definition max_tok_chars (ids : gmap str Z) : nat := if decide (ids = ∅) then 1 else max_list ((λ e : str * Z, length e.1) <$> map_to_list ids).
(** [while pos < n_chars] *)
Fixpoint sp_loop (ids : gmap str Z) (cap fuel : nat) (rest : str) : list Z :=
  match fuel, rest with
  | S fuel, _ :: rest' =>
      match scan_down ids (Nat.min cap (length rest)) rest with
      | None => match ids !! take 1 rest with Some id => id :: sp_loop ids cap fuel rest' | None => sp_loop ids cap fuel rest' end
      | Some (best_len, best_id) => best_id :: sp_loop ids cap fuel (drop best_len rest)
      end
  | _, _ => []
  end.
Definition sp_text (t : Tokenizer) (text : str) : str :=
  (if sp_dummy_prefix t then [SP_CHAR] else []) ++ ((λ c, if (c =? 32)%Z then SP_CHAR else c) <$> text).
(** [encode_sentencepiece] *)
Definition encode_sentencepiece (t : Tokenizer) (text : str) : list Z :=
  let chars := sp_text t text in
  sp_loop (token_to_id t) (max_tok_chars (token_to_id t)) (length chars) chars.

(** [encode_raw] *)
Definition encode_raw (t : Tokenizer) (text : str) : result E (list Z) :=
  if is_gpt2_bpe t then encode_gpt2_bpe t text else Ok (encode_sentencepiece t text).

(** Where the next special token starts. *)
Definition next_special (specials : list (str * Z)) (remaining : str) : nat :=
  foldl (λ next st, match find_str remaining st.1 with Some pos => if bool_decide (pos < next) then pos else next | None => next end) (length remaining) specials.

(** [while !remaining.is_empty()] *)
Fixpoint encode_loop (t : Tokenizer) (fuel : nat) (remaining : str) : result E (list Z) :=
  match remaining with
  | [] => Ok []
  | _ =>
      match fuel with
      | 0 => Panic
      | S fuel =>
          match list_find (λ st : str * Z, starts_with remaining st.1 = true) (special_tokens t) with
          | Some (_, (st, id)) => rest ← encode_loop t fuel (drop (length st) remaining); Ok (id :: rest)
          | None =>
              let next := next_special (special_tokens t) remaining in
              let segment := take next remaining in
              ids ← (if bool_decide (segment = []) then Ok [] else encode_raw t segment);
              rest ← encode_loop t fuel (drop next remaining);
              Ok (ids ++ rest)
          end
      end
  end.

(** The BOS token, unless the text spells it out. *)
Definition bos_prefix (t : Tokenizer) (text : str) : list Z :=
  if add_bos t then
    let bos_str := default [] (vocab t !! Z.to_nat (bos_id t)) in
    if bool_decide (bos_str = []) || negb (starts_with text bos_str) then [bos_id t] else []
  else [].

(** [Tokenizer::encode] *)
Definition tok_encode (t : Tokenizer) (text : str) : result E (list Z) :=
  ids ← (if bool_decide (special_tokens t = []) then encode_raw t text else encode_loop t (length text) text);
  Ok (bos_prefix t text ++ ids).
End Encode.

(** ** Signature *)

(** The closure [mix] over one byte string. *)
Definition FNV_PRIME : Z := 0x100000001b3.
Definition fnv_byte (h b : Z) : Z := wrap64 (Z.lxor h b * FNV_PRIME).
Definition mix (h : Z) (bytes : list Z) : Z := fnv_byte (foldl fnv_byte h bytes) 0xff.
(** [Tokenizer::signature] *)
Definition signature (t : Tokenizer) : Z :=
  let h := foldl (λ h tok, mix h (utf8 tok)) 0xcbf29ce484222325%Z (vocab t) in
  let h := foldl (λ h st, mix (mix h (utf8 st.1)) (le_bytes 4 st.2)) h (special_tokens t) in
  mix (mix (mix h (le_bytes 4 (bos_id t))) (le_bytes 4 (eos_id t))) (le_bytes 4 (default U32_MAX (eot_id t))).
