(* ===== verification/Pretok.v ===== *)
(** The pre-tokenisation pattern (src/crates/hipfire-runtime/src/tokenizer.rs).

    GPT-2 tokenizers cut text into chunks with a regular expression. The engine is the
    [regex] crate; what it documents is leftmost-first matching: of all matches at the
    leftmost position, the one a backtracking search prefers. [lengths] enumerates the
    matches at the front of a text in this order, [find_all] the successive matches. The
    Unicode classes are parameters.

    Proved here: the pattern of the code matches at every position, so the chunks make up
    the whole text; and the look-ahead that its comment calls redundant is not. *)

From S2P Require Import Prelude Utf8.

Inductive regex : Type :=
| RClass (p : Z → bool)
| RSeq (r s : regex)
| RAlt (r s : regex)
| ROpt (r : regex)
| RPlus (r : regex)
| RNotBefore (p : Z → bool). (** (?!..) with one character *)
Definition RStar (r : regex) : regex := ROpt (RPlus r).

(** One or more repetitions, each not empty, longest first. *)
Fixpoint repeats (step : list Z → list nat) (fuel : nat) (s : list Z) : list nat :=
  match fuel with
  | 0 => []
  | S fuel => n ← filter (λ n, 0 < n) (step s); ((λ k, n + k) <$> repeats step fuel (drop n s)) ++ [n]
  end.

(** The lengths of the matches at the front, the preferred one first. *)
Fixpoint lengths (r : regex) (s : list Z) : list nat :=
  match r with
  | RClass p => match s with c :: _ => if p c then [1] else [] | [] => [] end
  | RSeq r1 r2 => n ← lengths r1 s; (λ k, n + k) <$> lengths r2 (drop n s)
  | RAlt r1 r2 => lengths r1 s ++ lengths r2 s
  | ROpt r => lengths r s ++ [0]
  | RPlus r => repeats (lengths r) (length s) s
  | RNotBefore p => match s with c :: _ => if p c then [] else [0] | [] => [0] end
  end.

(** [Regex::find_iter]: where nothing matches, the search moves on by a character. *)
Fixpoint find_all (r : regex) (fuel : nat) (s : list Z) : list (list Z) :=
  match fuel, s with
  | S fuel, _ :: s' =>
      match lengths r s with
      | S n :: _ => take (S n) s :: find_all r fuel (drop (S n) s)
      | _ => find_all r fuel s'
      end
  | _, _ => []
  end.

Section Pattern.
(** [\p{L}], [\p{N}], [\s], and equality up to case. *)
Context (letter number white : Z → bool) (same_letter : Z → Z → bool).

Definition char (c : Z) : regex := RClass (λ x, (x =? c)%Z).
(** A contraction: an apostrophe and letters. *)
Definition contraction (letters : list Z) : regex := foldr (λ c r, RSeq (RClass (same_letter c)) r) (ROpt (RClass (λ _, false))) letters.
Definition newline (x : Z) : bool := (x =? 13)%Z || (x =? 10)%Z.
Definition contractions : regex :=
  RSeq (char 39) (foldr RAlt (contraction (str_bytes "d")) (contraction ∘ str_bytes <$> ["s"; "t"; "re"; "ve"; "m"; "ll"])).
Definition word : regex := RSeq (ROpt (RClass (λ x, negb (newline x || letter x || number x)))) (RPlus (RClass letter)).
Definition digits : regex := RSeq (RClass number) (ROpt (RSeq (RClass number) (ROpt (RClass number)))).
Definition symbols : regex := RSeq (ROpt (char 32)) (RSeq (RPlus (RClass (λ x, negb (white x || letter x || number x)))) (RStar (RClass newline))).
Definition line_ends : regex := RSeq (RStar (RClass white)) (RPlus (RClass newline)).
Definition spaces : regex := RPlus (RClass white).

(** [GPT2_PRETOK_PATTERN] *)
Definition GPT2_PRETOK_PATTERN : regex := RAlt contractions (RAlt word (RAlt digits (RAlt symbols (RAlt line_ends spaces)))).
(** The pattern its comment derives it from, with [\s+(?!\S)] before [\s+]. *)
Definition canonical_pattern : regex :=
  RAlt contractions (RAlt word (RAlt digits (RAlt symbols (RAlt line_ends (RAlt (RSeq (RPlus (RClass white)) (RNotBefore (λ x, negb (white x)))) spaces))))).
End Pattern.

(** ** Matches are not empty and inside the text *)

Fixpoint never_empty (r : regex) : bool :=
  match r with
  | RClass _ | RPlus _ => true
  | RSeq r1 r2 => never_empty r1 || never_empty r2
  | RAlt r1 r2 => never_empty r1 && never_empty r2
  | ROpt _ | RNotBefore _ => false
  end.

Lemma repeats_bounds step : (∀ s n, n ∈ step s → n ≤ length s) → ∀ fuel s n, n ∈ repeats step fuel s → 1 ≤ n ≤ length s.
Proof.
  intros Hstep. induction fuel as [|fuel IH]; intros s n Hn; [by apply not_elem_of_nil in Hn|]. cbn [repeats] in Hn. apply list_elem_of_bind in Hn as (m & Hn & [Hm Hin]%list_elem_of_filter). apply Hstep in Hin.
  apply elem_of_app in Hn as [(k & -> & Hk)%list_elem_of_fmap|Hn%list_elem_of_singleton]; [|lia]. apply IH in Hk. rewrite length_drop in Hk. lia.
Qed.

Lemma lengths_bounds r : ∀ s n, n ∈ lengths r s → n ≤ length s ∧ (never_empty r = true → 1 ≤ n).
Proof.
  induction r as [p|r1 IH1 r2 IH2|r1 IH1 r2 IH2|r IH|r IH|p]; intros s n Hn; cbn [lengths never_empty] in *.
  - destruct s as [|c s]; [by apply not_elem_of_nil in Hn|]. destruct (p c); [|by apply not_elem_of_nil in Hn]. apply list_elem_of_singleton in Hn as ->. cbn. lia.
  - apply list_elem_of_bind in Hn as (m & (k & -> & Hk)%list_elem_of_fmap & Hm). destruct (IH1 _ _ Hm) as [? H1], (IH2 _ _ Hk) as [Hl H2]. rewrite length_drop in Hl. split; [lia|]. intros [?%H1|?%H2]%orb_true_iff; lia.
  - apply elem_of_app in Hn as [Hn|Hn]; [destruct (IH1 _ _ Hn) as [? H]|destruct (IH2 _ _ Hn) as [? H]]; (split; [done|]); intros [? ?]%andb_true_iff; by apply H.
  - apply elem_of_app in Hn as [Hn| ->%list_elem_of_singleton]; [|split; [lia|done]]. split; [by apply IH|done].
  - apply repeats_bounds in Hn; [split; lia|]. intros s' k Hk. by apply IH.
  - destruct s as [|c s]; [|destruct (p c); [by apply not_elem_of_nil in Hn|]]; apply list_elem_of_singleton in Hn as ->; (split; [lia|done]).
Qed.

(** Ways to have a match. *)
Lemma matches_class p c s : p c = true → 1 ∈ lengths (RClass p) (c :: s).
Proof. cbn. intros ->. by constructor. Qed.
Lemma matches_opt r s : 0 ∈ lengths (ROpt r) s.
Proof. cbn. apply elem_of_app. right. by constructor. Qed.
Lemma matches_plus r s n : n ∈ lengths r s → 0 < n → n ∈ lengths (RPlus r) s.
Proof.
  intros Hn Hpos. cbn. destruct (lengths_bounds r s n Hn) as [Hl _]. destruct (length s) as [|fuel]; [lia|]. cbn [repeats]. apply list_elem_of_bind. exists n. split; [apply elem_of_app; right; by constructor|by apply list_elem_of_filter].
Qed.
Lemma matches_seq r1 r2 s n k : n ∈ lengths r1 s → k ∈ lengths r2 (drop n s) → n + k ∈ lengths (RSeq r1 r2) s.
Proof. intros Hn Hk. cbn. apply list_elem_of_bind. exists n. split; [|done]. apply list_elem_of_fmap. by exists k. Qed.
Lemma matches_alt_l r1 r2 s n : n ∈ lengths r1 s → n ∈ lengths (RAlt r1 r2) s.
Proof. intros Hn. cbn. apply elem_of_app. by left. Qed.
Lemma matches_alt_r r1 r2 s n : n ∈ lengths r2 s → n ∈ lengths (RAlt r1 r2) s.
Proof. intros Hn. cbn. apply elem_of_app. by right. Qed.

(** A pattern that never matches the empty text and always matches something cuts a text
    into chunks without gaps. *)
Lemma find_all_covers r : never_empty r = true → (∀ c s, ∃ n, n ∈ lengths r (c :: s)) → ∀ fuel s, length s ≤ fuel → concat (find_all r fuel s) = s ∧ Forall (λ m, m ≠ []) (find_all r fuel s).
Proof.
  intros Hne Hall. induction fuel as [|fuel IH]; intros s Hl; [destruct s; [done|cbn in Hl; lia]|]. destruct s as [|c s]; [done|]. cbn [find_all]. destruct (Hall c s) as [n Hn]. pose proof (λ k H, lengths_bounds r (c :: s) k H) as Hb.
  destruct (lengths r (c :: s)) as [|k l]; [by apply not_elem_of_nil in Hn|]. destruct (Hb k) as [Hk Hpos]; [by constructor|]. destruct k as [|k]; [specialize (Hpos Hne); lia|].
  destruct (IH (drop (S k) (c :: s))) as [Hc Hf]; [rewrite length_drop; cbn in *; lia|]. split; [cbn [concat]; by rewrite Hc, take_drop|by constructor].
Qed.

Section Cover.
Context (letter number white : Z → bool) (same_letter : Z → Z → bool).
Local Abbreviation pattern := (GPT2_PRETOK_PATTERN letter number white same_letter).

(** Every character starts a match: a letter a word, a digit a number, white space a run
    of white space, and anything else a run of symbols. *)
Lemma pattern_matches c s : ∃ n, n ∈ lengths pattern (c :: s).
Proof.
  destruct (letter c) eqn:Hl; [|destruct (number c) eqn:Hn; [|destruct (white c) eqn:Hw]]; eexists; unfold GPT2_PRETOK_PATTERN.
  - apply matches_alt_r, matches_alt_l. eapply matches_seq; [apply matches_opt|]. rewrite drop_0. eapply matches_plus; [by apply matches_class|lia].
  - apply matches_alt_r, matches_alt_r, matches_alt_l. eapply matches_seq; [by apply matches_class|apply matches_opt].
  - do 5 apply matches_alt_r. eapply matches_plus; [by apply matches_class|lia].
  - do 3 apply matches_alt_r. apply matches_alt_l. eapply matches_seq; [apply matches_opt|]. rewrite drop_0. eapply matches_seq; [eapply matches_plus; [apply matches_class|lia]|apply matches_opt]. by rewrite Hl, Hn, Hw.
Qed.

(** The chunks of a text. *)
Definition pretok_chunks (text : list Z) : list (list Z) := find_all pattern (length text) text.

Lemma chunks_cover text : concat (pretok_chunks text) = text.
Proof. apply find_all_covers; [done|apply pattern_matches|done]. Qed.
End Cover.

(** ** The look-ahead *)

Module AsciiClasses.
Definition letter (c : Z) : bool := within 65 90 c || within 97 122 c.
Definition number (c : Z) : bool := within 48 57 c.
Definition white (c : Z) : bool := within 9 13 c || (c =? 32)%Z.
Definition same_letter (c x : Z) : bool := (x =? c)%Z || (x =? c - 32)%Z.
End AsciiClasses.

(** C37: the chunks of a text, joined, are the text, whatever the character classes are; but
    dropping the look-ahead of the canonical pattern changes the chunks: of two spaces
    before a word, the canonical pattern leaves one to the word, and this one none. *)
Theorem lookahead_not_redundant :
  (∀ letter number white same_letter text, concat (pretok_chunks letter number white same_letter text) = text) ∧
  let chunks (pattern : regex) := find_all pattern 4 (str_bytes "a  b") in
  chunks (GPT2_PRETOK_PATTERN AsciiClasses.letter AsciiClasses.number AsciiClasses.white AsciiClasses.same_letter) = str_bytes <$> ["a"; "  "; "b"] ∧
  chunks (canonical_pattern AsciiClasses.letter AsciiClasses.number AsciiClasses.white AsciiClasses.same_letter) = str_bytes <$> ["a"; " "; " b"].
Proof. split; [intros; apply chunks_cover|]. by vm_compute. Qed.
