(* ===== verification/TokenSound.v ===== *)
(** Encoding and decoding of text.

    Proved here: what the constructors guarantee about vocabulary, merge rules and byte
    table; that byte-pair encoding with the queue equals the plain algorithm on every
    tokenizer they return; that decoding an encoded text gives it back; that the longest
    match of the SentencePiece encoder is not affected by its cap; and where the code
    differs from its documentation. *)

From S2P Require Import Prelude Utf8 Text F32 Bpe Gguf Tokenizer Pretok.

(** ** Well-formed tokenizers *)

Definition token (t : Tokenizer) (id : Z) : option str := vocab t !! Z.to_nat id.

(** Ids lead back to their strings, merge rules join the strings of their operands, and a
    byte-level vocabulary has a token for every byte. *)
Record token_wf (t : Tokenizer) : Prop := {
  tw_ids s id : token_to_id t !! s = Some id → token t id = Some s;
  tw_table : table_ok (merges t) (merge_pair_rank t);
  tw_merge a b r m : merge_pair_rank t !! (a, b) = Some r → merges t !! Z.to_nat r = Some m → ∃ sa sb, token t a = Some sa ∧ token t b = Some sb ∧ token t m = Some (sa ++ sb);
  tw_bytes : is_gpt2_bpe t = true → ∃ table, byte_to_id t = Some table ∧ length table = 256 ∧ ∀ b, b < 256 → ∃ id, table !! b = Some id ∧ token t id = Some [byte_to_gpt2_char (Z.of_nat b)] }.

(** The part of it that needs no promise about ids: every id has an entry, the table ranks
    existing rules over ids of the vocabulary, and the bytes have ids. *)
Record linked (t : Tokenizer) : Prop := {
  lk_ids s id : token_to_id t !! s = Some id → is_Some (token t id);
  lk_merge a b r : merge_pair_rank t !! (a, b) = Some r → (0 ≤ r)%Z ∧ ∃ sa sb m, merges t !! Z.to_nat r = Some m ∧
    token_to_id t !! sa = Some a ∧ token_to_id t !! sb = Some b ∧ token_to_id t !! (sa ++ sb) = Some m;
  lk_bytes : is_gpt2_bpe t = true → ∃ table, byte_to_id t = Some table ∧ length table = 256 ∧
    ∀ b, b < 256 → ∃ id, table !! b = Some id ∧ token_to_id t !! [byte_to_gpt2_char (Z.of_nat b)] = Some id }.

(** The inverse of a vocabulary. *)
Definition ids_ok (vocab : list str) (ids : gmap str Z) : Prop := ∀ s id, ids !! s = Some id → vocab !! Z.to_nat id = Some s.
Definition ids_in (vocab : list str) (ids : gmap str Z) : Prop := ∀ s id, ids !! s = Some id → is_Some (vocab !! Z.to_nat id).

Lemma linked_wf t : linked t → ids_ok (vocab t) (token_to_id t) → token_wf t.
Proof.
  intros [_ Hm Hb] Hids. split.
  - intros s id Hs. by apply Hids.
  - intros [a b] r Hab. destruct (Hm a b r Hab) as (? & sa & sb & m & Hms & _). split; [done|]. by eapply lookup_lt_Some.
  - intros a b r m Hab Hms. destruct (Hm a b r Hab) as (_ & sa & sb & m' & Hms' & Ha & Hbb & Hab'). simplify_eq. exists sa, sb. split_and!; by apply Hids.
  - intros Hg. destruct (Hb Hg) as (table & ? & ? & Hbyte). exists table. split_and!; [done..|]. intros b Hlt. destruct (Hbyte b Hlt) as (id & ? & ?). exists id. split; [done|]. by apply Hids.
Qed.

Lemma wrap32_nat i : (Z.of_nat i ≤ U32_MAX)%Z → Z.to_nat (wrap32 (Z.of_nat i)) = i.
Proof. intros Hi. unfold wrap32. rewrite Z.mod_small by ulia. lia. Qed.

Lemma enumerate_app {A} (l : list A) x : enumerate (l ++ [x]) = enumerate l ++ [(length l, x)].
Proof. unfold enumerate. rewrite imap_app. cbn. by rewrite Nat.add_0_r. Qed.

Lemma index_vocab_ok vocab : (Z.of_nat (length vocab) ≤ U32_MAX)%Z → ids_ok vocab (index_vocab vocab).
Proof.
  induction vocab as [|tok vocab IH] using rev_ind; intros Hl s id; [done|]. unfold index_vocab in *. rewrite enumerate_app, foldl_app. cbn [foldl fst snd]. rewrite length_app in Hl. cbn in Hl. destruct (decide (tok = s)) as [->|Hne].
  - rewrite lookup_insert_eq. intros [= <-]. rewrite wrap32_nat by lia. by rewrite lookup_app_r, Nat.sub_diag by lia.
  - rewrite lookup_insert_ne by done. intros Hs%IH; [|lia]. by apply lookup_app_l_Some.
Qed.

(** Resolved rules: the list of results has one entry per rule, and a rank in the table
    is that of a rule whose operands and result are in the vocabulary. *)
Lemma resolve_merges_ok rules ids ms ranks : (Z.of_nat (length rules) ≤ U32_MAX)%Z → resolve_merges rules ids = Ok (ms, ranks) →
  ∀ a b r, ranks !! (a, b) = Some r → (0 ≤ r)%Z ∧ ∃ sa sb m, ms !! Z.to_nat r = Some m ∧ ids !! sa = Some a ∧ ids !! sb = Some b ∧ ids !! (sa ++ sb) = Some m.
Proof.
  intros Hl Hok. unfold resolve_merges in Hok.
  assert (length ms = length (enumerate rules) ∧ ∀ a b r, ranks !! (a, b) = Some r → (0 ≤ r)%Z ∧ ∃ sa sb m, ms !! Z.to_nat r = Some m ∧ ids !! sa = Some a ∧ ids !! sb = Some b ∧ ids !! (sa ++ sb) = Some m) as [_ H]; [|exact H].
  refine (try_fold_inv (E := TokenizerError) (λ (done : list (nat * (str * str))) (acc : list Z * gmap (Z * Z) Z), length acc.1 = length done ∧ ∀ a b r, acc.2 !! (a, b) = Some r → (0 ≤ r)%Z ∧ ∃ sa sb m, acc.1 !! Z.to_nat r = Some m ∧ ids !! sa = Some a ∧ ids !! sb = Some b ∧ ids !! (sa ++ sb) = Some m)
    (resolve_one ids) (enumerate rules) [] ([], ∅) (ms, ranks) _ _ Hok); [by split|].
  intros d [rank [l r]] rest [ms1 rk1] [ms2 rk2] Hsplit [Hlen Hinv] Hone. cbn [fst snd app] in *. unfold resolve_one in Hone. apply bind_Ok in Hone as (x & Hx%ok_or_Ok & (y & Hy%ok_or_Ok & (m & Hm%ok_or_Ok & [= <- <-])%bind_Ok)%bind_Ok).
  assert (enumerate rules !! length d = Some (rank, (l, r))) as Hr by (rewrite Hsplit, list_lookup_middle by done; done). unfold enumerate in Hr. rewrite list_lookup_imap in Hr. destruct (rules !! length d) eqn:Hd; [|done]. cbn in Hr. simplify_eq. apply lookup_lt_Some in Hd.
  rewrite !length_app. cbn [length]. split; [lia|]. intros a b r0 Hab. assert (∀ m0, ms1 !! Z.to_nat r0 = Some m0 → (ms1 ++ [m]) !! Z.to_nat r0 = Some m0) as Hmono by (intros; by apply lookup_app_l_Some).
  assert (rk1 !! (a, b) = Some r0 ∨ (a, b) = (x, y) ∧ r0 = wrap32 (Z.of_nat (length d))) as [Hold|[[= -> ->] ->]].
  { case_match; [by left|]. destruct (decide ((x, y) = (a, b))) as [[= -> ->]|]; [rewrite lookup_insert_eq in Hab; simplify_eq; by right|rewrite lookup_insert_ne in Hab by done; by left]. }
  - destruct (Hinv a b r0 Hold) as (? & sa & sb & m0 & ? & ? & ? & ?). split; [done|]. exists sa, sb, m0. by split_and!; [apply Hmono|..].
  - split; [unfold wrap32; apply Z.mod_pos_bound; lia|]. exists l, r, m. rewrite wrap32_nat by lia. rewrite lookup_app_r, Hlen, Nat.sub_diag by lia. done.
Qed.

Lemma build_byte_to_id_ok ids table : build_byte_to_id ids = Ok table → length table = 256 ∧ ∀ b, b < 256 → ∃ id, table !! b = Some id ∧ ids !! [byte_to_gpt2_char (Z.of_nat b)] = Some id.
Proof.
  unfold build_byte_to_id. intros Hall%try_map_Ok. assert (length table = 256) as Hl by (apply Forall2_length in Hall; by rewrite length_seq in Hall). split; [done|]. intros b Hb.
  destruct (lookup_lt_is_Some_2 table b ltac:(lia)) as [id Hid]. exists id. split; [done|]. assert (seq 0 256 !! b = Some b) as Hs by (apply lookup_seq; lia). pose proof (Forall2_lookup_lr _ _ _ _ _ _ Hall Hs Hid) as Hok. by apply ok_or_Ok in Hok.
Qed.

Lemma finish_linked vocab ids rules specials bos eos eot gpt2 dummy t : ids_in vocab ids → (Z.of_nat (length rules) ≤ U32_MAX)%Z → finish_tokenizer vocab ids rules specials bos eos eot gpt2 dummy = Ok t →
  linked t ∧ special_tokens t = specials ∧ Tokenizer.vocab t = vocab ∧ token_to_id t = ids.
Proof.
  intros Hids Hl Hok. unfold finish_tokenizer in Hok. apply bind_Ok in Hok as ([ms ranks] & Hm & (bytes & Hb & [= <-])%bind_Ok). pose proof (resolve_merges_ok _ _ _ _ Hl Hm) as Hr. split; [|done]. split; cbn.
  - exact Hids.
  - exact Hr.
  - intros ->. apply bind_Ok in Hb as (table & Ht & [= <-]). destruct (build_byte_to_id_ok _ _ Ht) as [Hlen Hbyte]. by exists table.
Qed.

(** ** Special tokens and constructors *)

(** Special tokens are entries of the vocabulary. *)
Definition specials_ok (vocab : list str) (specials : list (str * Z)) : Prop := ∀ st id, (st, id) ∈ specials → vocab !! Z.to_nat id = Some st.

Lemma insert_special_perm x l : insert_special x l ≡ₚ x :: l.
Proof. induction l as [|y l IH]; [done|]. cbn. case_bool_decide; [done|]. rewrite IH. apply Permutation_swap. Qed.
Lemma sort_specials_perm l : sort_specials l ≡ₚ l.
Proof. induction l as [|x l IH]; [done|]. cbn. by rewrite insert_special_perm, IH. Qed.

Lemma gguf_specials_ok vocab : (Z.of_nat (length vocab) ≤ U32_MAX)%Z → specials_ok vocab (gguf_specials vocab).
Proof.
  intros Hl. assert (∀ st id, (st, id) ∈ gguf_specials vocab → ∃ i, vocab !! i = Some st ∧ id = wrap32 (Z.of_nat i) ∧ looks_special st = true) as H.
  { intros st id Hin. unfold gguf_specials in Hin. rewrite sort_specials_perm in Hin. apply list_elem_of_fmap in Hin as ([i s] & [= -> ->] & [Hsp Hi%elem_of_enumerate]%list_elem_of_filter). by exists i. }
  intros st id (i & Hi & -> & Hs)%H. apply lookup_lt_Some in Hi as ?. by rewrite wrap32_nat by lia.
Qed.

(** The arrays of a file have fewer than 2^32 entries, as GGUF ids require. *)
Definition arrays_fit (g : GgufFile) : Prop := ∀ key arr, gguf_meta g key = Some (MArray arr) → (Z.of_nat (length arr) ≤ U32_MAX)%Z.
Definition json_arrays_fit (v : Value) : Prop := ∀ key arr, json_get v key ≫= as_array = Some arr → (Z.of_nat (length arr) ≤ U32_MAX)%Z.

Lemma omap_length_le {A B} (f : A → option B) l : length (omap f l) ≤ length l.
Proof. induction l as [|x l IH]; [done|]. cbn. destruct (f x); cbn; lia. Qed.

Lemma ids_ok_in vb ids : ids_ok vb ids → ids_in vb ids.
Proof. intros H s id Hs. by rewrite (H s id Hs). Qed.

(** What the constructors establish: always, and if the ids of the document are distinct. *)
Definition loaded (distinct : Prop) (t : Tokenizer) : Prop :=
  (linked t ∧ ∀ st id, (st, id) ∈ special_tokens t → is_Some (token t id)) ∧ (distinct → token_wf t ∧ specials_ok (vocab t) (special_tokens t)).

Lemma finish_loaded vocab ids rules specials bos eos eot gpt2 dummy t : ids_ok vocab ids → specials_ok vocab specials → (Z.of_nat (length rules) ≤ U32_MAX)%Z →
  finish_tokenizer vocab ids rules specials bos eos eot gpt2 dummy = Ok t → loaded True t.
Proof.
  intros Hids Hsp Hl Hok. apply finish_linked in Hok as (Hlk & Hs & Hv & Hi); [|by apply ids_ok_in|done]. split; [split; [done|]|intros _; split].
  - rewrite Hs. intros st id Hin%Hsp. unfold token. by rewrite Hv, Hin.
  - apply linked_wf; [done|]. by rewrite Hv, Hi.
  - by rewrite Hs, Hv.
Qed.

Lemma from_gguf_wf g t : arrays_fit g → from_gguf g = Ok t → loaded True t.
Proof.
  intros Hfit Hok. unfold from_gguf in Hok. apply bind_Ok in Hok as (tokens & Htok%ok_or_Ok & (vb & Hv & Hok)%bind_Ok). destruct tokens as [| | | | | | | | | | | |arr]; try done. injection Hv as <-. pose proof (Hfit _ _ Htok) as Hl. set (vb := _ <$> arr) in Hok. assert (Z.of_nat (length vb) ≤ U32_MAX)%Z as Hlv by (unfold vb; by rewrite length_fmap).
  eapply finish_loaded; [by apply index_vocab_ok|by apply gguf_specials_ok| |exact Hok]. clear Hok.
  destruct (gguf_meta g (lit "tokenizer.ggml.merges")) as [[| | | | | | | | | | | |ms]|] eqn:Hm; cbn; try (unfold U32_MAX; lia). pose proof (Hfit _ _ Hm). pose proof (omap_length_le (λ v, match v with MString s => split_space s | _ => None end) ms). lia.
Qed.

Lemma from_gguf_meta_json_wf meta t : json_arrays_fit meta → from_gguf_meta_json meta = Ok t → loaded True t.
Proof.
  intros Hfit Hok. unfold from_gguf_meta_json in Hok. apply bind_Ok in Hok as (arr & Htok%ok_or_Ok & Hok). pose proof (Hfit _ _ Htok) as Hl. set (vb := _ <$> arr) in Hok. assert (Z.of_nat (length vb) ≤ U32_MAX)%Z as Hlv by (unfold vb; by rewrite length_fmap).
  eapply finish_loaded; [by apply index_vocab_ok|by apply gguf_specials_ok| |exact Hok]. clear Hok.
  destruct (json_get meta (lit "tokenizer.ggml.merges") ≫= as_array) as [ms|] eqn:Hm; [|done]. pose proof (Hfit _ _ Hm). pose proof (omap_length_le (λ s, as_str s ≫= split_space) ms). lia.
Qed.

(** The pairs of string and id a [tokenizer.json] lists, in the order they are read. *)
Definition vocab_pair (e : str * Value) : option (str * Z) := id ← as_u64 e.2; Some (e.1, wrap32 id).
Definition added_pair (v : Value) : option (str * Z) := content ← json_get v (lit "content") ≫= as_str; id ← json_get v (lit "id") ≫= as_u64; Some (content, wrap32 id).
Definition hf_added (tok : Value) : list Value := default [] (json_get tok (lit "added_tokens") ≫= as_array).
Definition hf_pairs (tok : Value) : list (str * Z) :=
  omap vocab_pair (default [] (json_get tok (lit "model") ≫= λ model, json_get model (lit "vocab") ≫= as_object)) ++ omap added_pair (hf_added tok).
(** No id is given to two strings. *)
Definition ids_distinct (pairs : list (str * Z)) : Prop := ∀ s1 s2 id, (s1, id) ∈ pairs → (s2, id) ∈ pairs → s1 = s2.

Lemma set_vocab_same vb id s : set_vocab vb id s !! Z.to_nat id = Some s.
Proof. unfold set_vocab. apply list_lookup_insert_eq. case_bool_decide; [rewrite length_app, length_replicate|]; lia. Qed.
Lemma set_vocab_other vb id s i x : vb !! i = Some x → i ≠ Z.to_nat id → set_vocab vb id s !! i = Some x.
Proof. intros Hi Hne. unfold set_vocab. rewrite list_lookup_insert_ne by done. case_bool_decide; [by apply lookup_app_l_Some|done]. Qed.

(** The pairs read so far are in the vocabulary, and ids come from them. *)
Definition pairs_read (done : list (str * Z)) (vb : list str) (ids : gmap str Z) : Prop :=
  (∀ s id, (s, id) ∈ done → (0 ≤ id)%Z ∧ vb !! Z.to_nat id = Some s) ∧ ∀ s id, ids !! s = Some id → (s, id) ∈ done.
Lemma read_pair done vb ids s id : ids_distinct (done ++ [(s, id)]) → (0 ≤ id)%Z → pairs_read done vb ids → pairs_read (done ++ [(s, id)]) (set_vocab vb id s) (<[s := id]> ids).
Proof.
  intros Hd Hpos [Hok Hin]. split; intros s' id'.
  - intros [Hold|[= -> ->]%list_elem_of_singleton]%elem_of_app; [|by rewrite set_vocab_same]. destruct (Hok _ _ Hold) as [Hpos' Hs']. split; [done|]. destruct (decide (id' = id)) as [->|Hne].
    + rewrite (Hd s s' id); [apply set_vocab_same|set_solver..].
    + apply set_vocab_other; [done|lia].
  - destruct (decide (s = s')) as [<-|Hne]; [rewrite lookup_insert_eq; intros [= <-]; set_solver|rewrite lookup_insert_ne by done; intros Hs'%Hin; set_solver].
Qed.

(** Without a promise about ids, every id read still has an entry. *)
Lemma set_vocab_in vb id s i : is_Some (vb !! i) → is_Some (set_vocab vb id s !! i).
Proof. intros [x Hx]. destruct (decide (i = Z.to_nat id)) as [->|Hne]; [by rewrite set_vocab_same|]. by rewrite (set_vocab_other _ _ _ _ x). Qed.
Lemma read_in vb ids s id : ids_in vb ids → ids_in (set_vocab vb id s) (<[s := id]> ids).
Proof.
  intros Hin s' id'. destruct (decide (s = s')) as [<-|Hne]; [rewrite lookup_insert_eq; intros [= <-]; by rewrite set_vocab_same|].
  rewrite lookup_insert_ne by done. intros Hs'%Hin. by apply set_vocab_in.
Qed.
Lemma vocab_entries_in entries : ∀ vb ids vb' ids', ids_in vb ids → try_fold add_vocab_entry (vb, ids) entries = Ok (vb', ids') → ids_in vb' ids'.
Proof.
  induction entries as [|[s v] entries IH]; intros vb ids vb' ids' Hin Hok; cbn [try_fold] in Hok; [by injection Hok as <- <-|].
  apply bind_Ok in Hok as ([vb1 ids1] & (id & _ & [= <- <-])%bind_Ok & Hok). eapply IH; [|exact Hok]. by apply read_in.
Qed.

Lemma ids_distinct_prefix l k : ids_distinct (l ++ k) → ids_distinct l.
Proof. intros H s1 s2 id H1 H2. apply (H s1 s2 id); set_solver. Qed.

Lemma wrap32_nonneg x : (0 ≤ wrap32 x)%Z.
Proof. unfold wrap32. apply Z.mod_pos_bound. lia. Qed.

Lemma vocab_entries_ok entries : ∀ done vb ids vb' ids', ids_distinct (done ++ omap vocab_pair entries) → pairs_read done vb ids → try_fold add_vocab_entry (vb, ids) entries = Ok (vb', ids') →
  pairs_read (done ++ omap vocab_pair entries) vb' ids'.
Proof.
  induction entries as [|[s v] entries IH]; intros done vb ids vb' ids' Hd Hr Hok; cbn [try_fold omap list_omap] in *; [injection Hok as <- <-; by rewrite app_nil_r|].
  apply bind_Ok in Hok as ([vb1 ids1] & (id & Hid%ok_or_Ok & [= <- <-])%bind_Ok & Hok). cbn [fst snd] in *. unfold vocab_pair in *. cbn [fst snd] in *. rewrite Hid in *. cbn [mbind option_bind] in *. rewrite cons_middle, app_assoc in Hd |- *.
  eapply IH; [done| |exact Hok]. apply read_pair; [by eapply ids_distinct_prefix|apply wrap32_nonneg|done].
Qed.

Lemma add_added_token_pair acc v : add_added_token acc v = match added_pair v with Some (content, id) => (set_vocab acc.1.1 id content, <[content := id]> acc.1.2, acc.2 ++ [(content, id)]) | None => acc end ∧
  (∀ content id, added_pair v = Some (content, id) → (0 ≤ id)%Z).
Proof.
  unfold add_added_token, added_pair. destruct (json_get v (lit "content") ≫= as_str) as [content|]; [|done]. destruct (json_get v (lit "id") ≫= as_u64) as [id|]; [|done]. split; [done|]. intros ? ? [= <- <-]. apply wrap32_nonneg.
Qed.

Lemma added_tokens_ok added : ∀ done vb ids sp, ids_distinct (done ++ omap added_pair added) → pairs_read done vb ids →
  let '(vb', ids', sp') := foldl add_added_token (vb, ids, sp) added in
  pairs_read (done ++ omap added_pair added) vb' ids' ∧ sp' = sp ++ omap added_pair added.
Proof.
  induction added as [|v added IH]; intros done vb ids sp Hd Hr; cbn [foldl omap list_omap] in *; [by rewrite !app_nil_r|].
  destruct (add_added_token_pair (vb, ids, sp) v) as [-> Hpos]. cbn [fst snd]. destruct (added_pair v) as [[content id]|]; [|by apply IH]. specialize (Hpos content id eq_refl). rewrite cons_middle, app_assoc in Hd.
  specialize (IH (done ++ [(content, id)]) (set_vocab vb id content) (<[content := id]> ids) (sp ++ [(content, id)]) Hd). pose proof (read_pair done vb ids content id (ids_distinct_prefix _ _ Hd) Hpos Hr) as Hr'. specialize (IH Hr').
  destruct (foldl add_added_token _ added) as [[vb' ids'] sp']. destruct IH as [IH ->]. rewrite <- !app_assoc in *. done.
Qed.

Lemma added_tokens_in added : ∀ vb ids (sp : list (str * Z)), ids_in vb ids → (∀ st id, (st, id) ∈ sp → is_Some (vb !! Z.to_nat id)) →
  let '(vb', ids', sp') := foldl add_added_token (vb, ids, sp) added in ids_in vb' ids' ∧ ∀ st id, (st, id) ∈ sp' → is_Some (vb' !! Z.to_nat id).
Proof.
  induction added as [|v added IH]; intros vb ids sp Hin Hsp; cbn [foldl]; [done|]. destruct (add_added_token_pair (vb, ids, sp) v) as [-> _]. cbn [fst snd].
  destruct (added_pair v) as [[content id]|]; [|by apply IH]. apply IH; [by apply read_in|].
  intros st i [Hold|[= -> ->]%list_elem_of_singleton]%elem_of_app; [|by rewrite set_vocab_same]. apply set_vocab_in. by eapply Hsp.
Qed.

(** The vocabulary of a [tokenizer.json]. *)
Lemma from_hf_json_wf parse s t tok : parse s = Some tok → (∀ model, json_get tok (lit "model") = Some model → json_arrays_fit model) → from_hf_json parse s = Ok t →
  loaded (ids_distinct (hf_pairs tok)) t.
Proof.
  intros Hp Hfit Hok. unfold from_hf_json in Hok. rewrite Hp in Hok. cbn [ok_or mbind result_bind] in Hok. apply bind_Ok in Hok as (model & Hm%ok_or_Ok & (entries & He%ok_or_Ok & ([vb ids] & Hr & Hok)%bind_Ok)%bind_Ok).
  assert (match json_get tok (lit "added_tokens") ≫= as_array with Some added => foldl add_added_token (vb, ids, []) added | None => (vb, ids, []) end = foldl add_added_token (vb, ids, []) (hf_added tok)) as Heq by (unfold hf_added; by destruct (json_get tok (lit "added_tokens") ≫= as_array)).
  rewrite Heq in Hok. clear Heq. pose proof (vocab_entries_in entries (replicate (length entries + 100) []) ∅ vb ids ltac:(by intros ? ? ?%lookup_empty_Some) Hr) as Hin0. pose proof (added_tokens_in (hf_added tok) vb ids [] Hin0 ltac:(intros ? ? []%not_elem_of_nil)) as Hin.
  assert (ids_distinct (hf_pairs tok) → let '(vb', ids', sp') := foldl add_added_token (vb, ids, []) (hf_added tok) in pairs_read (hf_pairs tok) vb' ids' ∧ sp' = omap added_pair (hf_added tok)) as Hadded.
  { unfold hf_pairs. rewrite Hm. cbn [mbind option_bind] in He |- *. rewrite He. cbn [default]. intros Hd. apply (added_tokens_ok (hf_added tok) (omap vocab_pair entries) vb ids []); [done|].
    exact (vocab_entries_ok entries [] (replicate (length entries + 100) []) ∅ vb ids (ids_distinct_prefix _ _ Hd) ltac:(split; [intros ? ? []%not_elem_of_nil|done]) Hr). }
  destruct (foldl add_added_token (vb, ids, []) (hf_added tok)) as [[vb' ids'] sp']. destruct Hin as [Hin Hspin].
  apply finish_linked in Hok as (Hlk & Hsp & Hvb & Hids); [|done|].
  - split.
    + split; [done|]. rewrite Hsp. intros st id. rewrite sort_specials_perm. unfold token. rewrite Hvb. apply Hspin.
    + intros Hd. destruct (Hadded Hd) as [[Hpairs Hfrom] ->]. split; [apply linked_wf; [done|]; rewrite Hvb, Hids; intros x id Hx; by apply Hpairs, Hfrom|].
      rewrite Hsp, Hvb. intros st id Hin'. rewrite sort_specials_perm in Hin'. apply Hpairs, elem_of_app. by right.
  - destruct (json_get model (lit "merges") ≫= as_array) as [ms|] eqn:Hms; [|done]. pose proof (Hfit _ Hm _ _ Hms). pose proof (omap_length_le hf_merge ms). lia.
Qed.

(** The arrays of a [tokenizer.json] have fewer than 2^32 entries. *)
Definition hf_fits (tok : Value) : Prop := ∀ model, json_get tok (lit "model") = Some model → json_arrays_fit model.

(** [constructed parse_json distinct t]: a constructor returned [t]; [distinct] says that
    the document gives no id to two strings, which a GGUF vocabulary cannot do. *)
Inductive constructed (parse_json : str → option Value) : Prop → Tokenizer → Prop :=
| constructed_gguf g t : arrays_fit g → from_gguf g = Ok t → constructed parse_json True t
| constructed_hf s tok t : parse_json s = Some tok → hf_fits tok → from_hf_json parse_json s = Ok t → constructed parse_json (ids_distinct (hf_pairs tok)) t
| constructed_hfq_hf s meta tok_str tok t : parse_json s = Some meta → json_get meta (lit "tokenizer") ≫= as_str = Some tok_str → parse_json tok_str = Some tok → hf_fits tok →
    from_hfq_metadata parse_json s = Ok t → constructed parse_json (ids_distinct (hf_pairs tok)) t
| constructed_hfq_gguf s meta gm t : parse_json s = Some meta → json_get meta (lit "tokenizer") ≫= as_str = None → json_get meta (lit "gguf_meta") = Some gm → json_arrays_fit gm →
    from_hfq_metadata parse_json s = Ok t → constructed parse_json True t.

(** Tokenizers from documents with distinct ids. *)
Definition built (parse_json : str → option Value) (t : Tokenizer) : Prop := ∃ distinct : Prop, distinct ∧ constructed parse_json distinct t.

Lemma loaded_with_ids distinct t bos eos add : loaded distinct t → loaded distinct (with_ids t bos eos add).
Proof.
  intros [[Hlk Hin] Hd]. split; [split; [by destruct Hlk|done]|]. intros [Hwf Hsp]%Hd. split; [by destruct Hwf|done].
Qed.

Lemma constructed_loaded parse distinct t : constructed parse distinct t → loaded distinct t.
Proof.
  destruct 1 as [g t Hfit Hok|s tok t Hp Hfit Hok|s meta tok_str tok t Hp Htok Hp' Hfit Hok|s meta gm t Hp Htok Hgm Hfit Hok]; [by eapply from_gguf_wf|by eapply from_hf_json_wf|..];
    unfold from_hfq_metadata in Hok; rewrite Hp in Hok; cbn [ok_or mbind result_bind] in Hok, Htok; rewrite Htok in Hok.
  - apply bind_Ok in Hok as (t0 & Ht0 & [= <-]). apply loaded_with_ids. by eapply from_hf_json_wf.
  - rewrite Hgm in Hok. by eapply from_gguf_meta_json_wf.
Qed.

Lemma built_loaded parse t : built parse t → token_wf t ∧ specials_ok (vocab t) (special_tokens t).
Proof. intros (distinct & Hd & [_ H]%constructed_loaded). by apply H. Qed.

(** ** Merges keep the bytes *)

Lemma decode_bytes_app t l k : decode_bytes t (l ++ k) = decode_bytes t l ++ decode_bytes t k.
Proof. unfold decode_bytes. by rewrite fmap_app, concat_app. Qed.
Lemma decode_bytes_cons t x l : decode_bytes t (x :: l) = token_bytes t x ++ decode_bytes t l.
Proof. done. Qed.

(** Splitting a sequence at the pair that is merged. *)
Lemma merge_at_split l k (m : Z) : S k < length l → ∃ x y, l !! k = Some x ∧ l !! S k = Some y ∧ l = take k l ++ x :: y :: drop (S (S k)) l ∧ merge_at l k m = take k l ++ m :: drop (S (S k)) l.
Proof.
  intros Hk. destruct (lookup_lt_is_Some_2 l k ltac:(lia)) as [x Hx], (lookup_lt_is_Some_2 l (S k) Hk) as [y Hy]. exists x, y. split_and!; [done..| |].
  - rewrite <- (take_drop k l) at 1. by rewrite (drop_S _ _ _ Hx), (drop_S _ _ _ Hy).
  - unfold merge_at. rewrite delete_take_drop, (take_S_r _ _ _ Hx), <- app_assoc. cbn [app]. rewrite insert_app_r_alt by (rewrite length_take; lia). rewrite length_take, Nat.min_l, Nat.sub_diag by lia. done.
Qed.

(** Every byte is the decoding of the character that stands for it. *)
Lemma gpt2_byte_roundtrip b : b < 256 → gpt2_decode_char (byte_to_gpt2_char (Z.of_nat b)) = [Z.of_nat b].
Proof.
  assert (forallb (λ b, bool_decide (gpt2_decode_char (byte_to_gpt2_char (Z.of_nat b)) = [Z.of_nat b])) (seq 0 256) = true) as Hall by (vm_compute; reflexivity).
  intros Hb. rewrite forallb_forall in Hall. specialize (Hall b ltac:(apply in_seq; lia)). by apply bool_decide_eq_true in Hall.
Qed.

Section Gpt2.
Context (t : Tokenizer) (Hwf : token_wf t) (Hgpt2 : is_gpt2_bpe t = true).

Lemma token_bytes_gpt2 id s : token t id = Some s → token_bytes t id = concat (gpt2_decode_char <$> s).
Proof. unfold token, token_bytes. intros ->. by rewrite Hgpt2. Qed.

Lemma merge_all_bytes fuel : ∀ l, decode_bytes t (merge_all (merges t) (merge_pair_rank t) fuel l) = decode_bytes t l.
Proof.
  induction fuel as [|fuel IH]; intros l; [done|]. cbn [merge_all]. destruct (best_pair (merge_pair_rank t) l) as [[r k]|] eqn:Hb; [|done]. apply best_pair_rank in Hb. pose proof (rank_at_lt _ _ _ _ Hb) as Hk. rewrite IH.
  destruct (merge_at_split l k (nth (Z.to_nat r) (merges t) 0%Z) Hk) as (x & y & Hx & Hy & Hl & ->). rewrite Hl at 3. unfold rank_at in Hb. rewrite Hx, Hy in Hb. cbn in Hb.
  destruct (tw_table t Hwf _ _ Hb) as [_ Hr]. destruct (lookup_lt_is_Some_2 _ _ Hr) as [m Hm]. rewrite (nth_lookup_Some _ _ _ _ Hm). destruct (tw_merge t Hwf _ _ _ _ Hb Hm) as (sx & sy & Hsx & Hsy & Hsm).
  rewrite !decode_bytes_app, !decode_bytes_cons, (token_bytes_gpt2 _ _ Hsx), (token_bytes_gpt2 _ _ Hsy), (token_bytes_gpt2 _ _ Hsm), fmap_app, concat_app. by rewrite <- app_assoc.
Qed.

(** The queue computes what the plain algorithm computes, and loses no byte. *)
Lemma chunk_roundtrip {E} bytes out : Forall is_u8 bytes → (Z.of_nat (length bytes) < 2147483648)%Z → ∃ table ids, byte_to_id t = Some table ∧
  encode_gpt2_chunk (E := E) (merges t) (merge_pair_rank t) (byte_to_id t) bytes out = Ok (out ++ ids) ∧ ids = bpe_reference (merges t) (merge_pair_rank t) (byte_symbols table bytes) ∧ decode_bytes t ids = bytes.
Proof.
  intros Hu Hl. destruct (tw_bytes t Hwf Hgpt2) as (table & Htab & Hlen & Hbyte). rewrite Htab. exists table. eexists. split; [done|]. split; [by apply chunk_exact; [apply (tw_table t Hwf)|..]|]. split; [done|].
  unfold bpe_reference. rewrite merge_all_bytes. clear Hl. unfold decode_bytes, byte_symbols. induction Hu as [|b bytes Hb _ IH]; [done|]. cbn [fmap list_fmap concat]. rewrite IH. unfold is_u8 in Hb. destruct (Hbyte (Z.to_nat b) ltac:(lia)) as (id & Hid & Htok).
  rewrite (nth_lookup_Some _ _ _ _ Hid), (token_bytes_gpt2 _ _ Htok). cbn [fmap list_fmap concat]. rewrite gpt2_byte_roundtrip by lia. rewrite Z2Nat.id by lia. done.
Qed.

Lemma chunks_roundtrip {E} chunks : ∀ out, Forall is_char (concat chunks) → (Z.of_nat (length (utf8 (concat chunks))) < 2147483648)%Z →
  ∃ ids, try_fold (λ out m, encode_gpt2_chunk (E := E) (merges t) (merge_pair_rank t) (byte_to_id t) (utf8 m) out) out chunks = Ok (out ++ ids) ∧ decode_bytes t ids = utf8 (concat chunks).
Proof.
  induction chunks as [|m chunks IH]; intros out Hc Hl; [exists []; by rewrite app_nil_r|]. cbn [concat] in *. apply Forall_app in Hc as [Hm Hc]. rewrite utf8_app, length_app in Hl. cbn [try_fold].
  destruct (chunk_roundtrip (E := E) (utf8 m) out (utf8_bytes m Hm) ltac:(lia)) as (table & ids & _ & -> & _ & Hd). cbn [mbind result_bind]. destruct (IH (out ++ ids) Hc ltac:(lia)) as (ids' & -> & Hd'). exists (ids ++ ids'). rewrite app_assoc, decode_bytes_app, Hd, Hd', utf8_app. done.
Qed.
End Gpt2.

(** ** Splitting at special tokens *)

Lemma starts_with_true s p : starts_with s p = true ↔ s = p ++ drop (length p) s.
Proof.
  unfold starts_with. rewrite bool_decide_eq_true. split; [intros Hp; rewrite <- Hp at 1; by rewrite take_drop|]. intros Hs. rewrite Hs at 1. by rewrite take_app_length.
Qed.
Lemma find_str_pos s p k : starts_with s p = false → find_str s p = Some k → 0 < k.
Proof. intros Hs Hf. destruct s as [|c s]; cbn [find_str] in Hf; rewrite Hs in Hf; [done|]. destruct (find_str s p); [|done]. injection Hf as <-. lia. Qed.

Lemma next_special_bounds specials s : (∀ st, st ∈ specials → starts_with s st.1 = false) → s ≠ [] → 0 < next_special specials s ≤ length s.
Proof.
  intros Hsp Hne. unfold next_special. assert (0 < length s) as Hlen by (destruct s; [done|cbn; lia]).
  cut (∀ next, 0 < next ≤ length s → 0 < foldl (λ next (st : str * Z), match find_str s st.1 with Some pos => if bool_decide (pos < next) then pos else next | None => next end) next specials ≤ length s); [intros H; apply H; lia|].
  clear Hlen. revert Hsp. induction specials as [|st specials IH]; intros Hsp next Hn; [done|]. cbn [foldl]. apply IH; [intros; apply Hsp; set_solver|]. destruct (find_str s st.1) as [pos|] eqn:Hf; [|done]. pose proof (find_str_pos _ _ _ (Hsp st ltac:(set_solver)) Hf). case_bool_decide; lia.
Qed.

Section Loop.
Context {E : Type} (find_iter : str → list str) (t : Tokenizer).
Context (Hspecial : ∀ st id, (st, id) ∈ special_tokens t → st ≠ [] ∧ token_bytes t id = utf8 st).
Context (Hraw : ∀ s, Forall is_char s → (Z.of_nat (length (utf8 s)) < 2147483648)%Z → ∃ ids, encode_raw (E := E) find_iter t s = Ok ids ∧ decode_bytes t ids = utf8 s).

Lemma encode_loop_roundtrip fuel : ∀ s, length s ≤ fuel → Forall is_char s → (Z.of_nat (length (utf8 s)) < 2147483648)%Z → ∃ ids, encode_loop (E := E) find_iter t fuel s = Ok ids ∧ decode_bytes t ids = utf8 s.
Proof.
  induction fuel as [|fuel IH]; intros s Hl Hc Hb; (destruct s as [|c s0] eqn:Hs; [by exists []|]); [cbn in Hl; lia|]. rewrite <- Hs in *. assert (encode_loop (E := E) find_iter t (S fuel) s =
    match list_find (λ st : str * Z, starts_with s st.1 = true) (special_tokens t) with
    | Some (_, (st, id)) => rest ← encode_loop find_iter t fuel (drop (length st) s); Ok (id :: rest)
    | None => ids ← (if bool_decide (take (next_special (special_tokens t) s) s = []) then Ok [] else encode_raw find_iter t (take (next_special (special_tokens t) s) s));
        rest ← encode_loop find_iter t fuel (drop (next_special (special_tokens t) s) s); Ok (ids ++ rest)
    end) as -> by (subst s; done).
  destruct (list_find _ (special_tokens t)) as [[i [st id]]|] eqn:Hf.
  - apply list_find_Some in Hf as (Hin%list_elem_of_lookup_2 & Hst%starts_with_true & _). cbn [fst] in Hst. destruct (Hspecial st id Hin) as [Hne Htok]. rewrite Hst in Hc, Hb. apply Forall_app in Hc as [_ Hc]. rewrite utf8_app, length_app in Hb.
    assert (0 < length st) by (destruct st; [done|cbn; lia]). destruct (IH (drop (length st) s)) as (ids & -> & Hd); [rewrite length_drop; lia|done|lia|]. exists (id :: ids). split; [done|]. rewrite decode_bytes_cons, Htok, Hd, <- utf8_app. by rewrite <- Hst.
  - apply list_find_None in Hf. rewrite Forall_forall in Hf. destruct (next_special_bounds (special_tokens t) s) as [Hpos Hle]; [intros st Hin; destruct (starts_with s st.1) eqn:Hst; [by destruct (Hf st Hin)|done]|by subst|].
    set (next := next_special (special_tokens t) s) in *. pose proof (take_drop next s) as Htd. rewrite <- Htd in Hc, Hb. apply Forall_app in Hc as [Hc1 Hc2]. rewrite utf8_app, length_app in Hb. rewrite bool_decide_eq_false_2 by (intros Hnil; apply (f_equal length) in Hnil; rewrite length_take in Hnil; cbn in Hnil; lia).
    destruct (Hraw (take next s) Hc1 ltac:(lia)) as (ids & -> & Hd). cbn [mbind result_bind]. destruct (IH (drop next s)) as (ids' & -> & Hd'); [rewrite length_drop; lia|done|lia|]. exists (ids ++ ids'). split; [done|]. by rewrite decode_bytes_app, Hd, Hd', <- utf8_app, Htd.
Qed.
End Loop.

(** ** Text through a byte-level tokenizer *)

Lemma encode_ascii c : (0 ≤ c < 0x80)%Z → encode_utf8 c = [c].
Proof. intros Hc. unfold encode_utf8. rewrite (proj2 (Z.ltb_lt c 0x80)) by lia. done. Qed.

(** Characters of plain markers stand for themselves. *)
Lemma decode_ascii c : (0 ≤ c < 0x80)%Z → gpt2_decode_char c = encode_utf8 c.
Proof.
  intros Hc. rewrite encode_ascii by done. unfold gpt2_decode_char. rewrite !(proj2 (Z.eqb_neq c _)) by lia. rewrite (proj2 (Z.ltb_lt c 0x80)) by lia. done.
Qed.

Definition plain_text (s : str) : Prop := Forall (λ c, 0 ≤ c < 0x80)%Z s.
#[global] Instance plain_text_decision s : Decision (plain_text s).
Proof. unfold plain_text. apply _. Defined.

Lemma plain_is_char s : plain_text s → Forall is_char s.
Proof. intros Hs. eapply Forall_impl; [exact Hs|]. intros c Hc. left. cbn in Hc. lia. Qed.
Lemma plain_bytes s : plain_text s → concat (gpt2_decode_char <$> s) = utf8 s.
Proof. induction 1 as [|c s Hc _ IH]; [done|]. cbn [fmap list_fmap concat]. by rewrite decode_ascii, IH. Qed.

Section Regex.
Context {E : Type} (letter number white : Z → bool) (same_letter : Z → Z → bool).
Context (find_iter : str → list str) (Hregex : ∀ s, find_iter s = pretok_chunks letter number white same_letter s).

Lemma encode_raw_gpt2 t s : token_wf t → is_gpt2_bpe t = true → Forall is_char s → (Z.of_nat (length (utf8 s)) < 2147483648)%Z →
  ∃ ids, encode_raw (E := E) find_iter t s = Ok ids ∧ decode_bytes t ids = utf8 s.
Proof.
  intros Hwf Hg Hc Hl. unfold encode_raw, encode_gpt2_bpe. rewrite Hg, Hregex. pose proof (chunks_cover letter number white same_letter s) as Hcov.
  destruct (chunks_roundtrip (E := E) t Hwf Hg (pretok_chunks letter number white same_letter s) []) as (ids & -> & Hd); [by rewrite Hcov..|]. exists ids. by rewrite Hd, Hcov.
Qed.

(** The string of the BOS token, where it is added. *)
Definition bos_text (t : Tokenizer) (text : str) : str :=
  match bos_prefix t text with [] => [] | _ => default [] (token t (bos_id t)) end.

Lemma bos_bytes t text : is_gpt2_bpe t = true → plain_text (bos_text t text) → decode_bytes t (bos_prefix t text) = utf8 (bos_text t text).
Proof.
  intros Hg. unfold bos_text, bos_prefix. destruct (add_bos t); [|done]. destruct (bool_decide _ || _); [|done]. unfold token, decode_bytes, token_bytes. cbn. rewrite Hg, app_nil_r.
  destruct (vocab t !! Z.to_nat (bos_id t)); [|done]. by intros <-%plain_bytes.
Qed.

Lemma tok_encode_gpt2 t s : token_wf t → is_gpt2_bpe t = true → specials_ok (vocab t) (special_tokens t) → (∀ st id, (st, id) ∈ special_tokens t → st ≠ [] ∧ plain_text st) →
  Forall is_char s → (Z.of_nat (length (utf8 s)) < 2147483648)%Z → ∃ ids, tok_encode (E := E) find_iter t s = Ok (bos_prefix t s ++ ids) ∧ tok_decode t ids = s ∧
    (plain_text (bos_text t s) → tok_decode t (bos_prefix t s ++ ids) = bos_text t s ++ s).
Proof.
  intros Hwf Hg Hsp Hplain Hc Hl. assert (∃ ids, (if bool_decide (special_tokens t = []) then encode_raw (E := E) find_iter t s else encode_loop find_iter t (length s) s) = Ok ids ∧ decode_bytes t ids = utf8 s) as (ids & Hids & Hd).
  { case_bool_decide; [by apply encode_raw_gpt2|]. apply encode_loop_roundtrip; [|intros; by apply encode_raw_gpt2|done..].
    intros st id Hin. destruct (Hplain st id Hin) as [Hne Hp]. split; [done|]. rewrite <- plain_bytes by done. apply token_bytes_gpt2; [done|]. by apply Hsp. }
  exists ids. unfold tok_encode. rewrite Hids. unfold tok_decode. split_and!; [done|by rewrite Hd, from_utf8_lossy_utf8|].
  intros Hb. rewrite decode_bytes_app, Hd, bos_bytes, <- utf8_app by done. apply from_utf8_lossy_utf8, Forall_app. split; [by apply plain_is_char|done].
Qed.
End Regex.

(** ** Longest match *)

Lemma max_list_le l (x : nat) : x ∈ l → x ≤ max_list l.
Proof. induction 1 as [|x y l _ IH]; cbn; lia. Qed.

(** No key of the vocabulary is longer than the cap. *)
Lemma max_tok_chars_le ids s id : ids !! s = Some id → length s ≤ max_tok_chars ids.
Proof.
  intros Hs. unfold max_tok_chars. destruct (decide (ids = ∅)) as [->|_]; [done|]. apply max_list_le, list_elem_of_fmap. exists (s, id). split; [done|]. by apply elem_of_map_to_list.
Qed.

(** The scan finds the longest prefix in the vocabulary. *)
Lemma scan_down_Some ids k rest n id : scan_down ids k rest = Some (n, id) → 0 < n ≤ k ∧ ids !! take n rest = Some id ∧ ∀ m, n < m ≤ k → ids !! take m rest = None.
Proof.
  induction k as [|k IH]; intros Hs; [done|]. cbn [scan_down] in Hs. destruct (ids !! take (S k) rest) as [id'|] eqn:Ht.
  - injection Hs as <- <-. split_and!; [lia|lia|done|intros; lia].
  - destruct (IH Hs) as (Hn & Hid & Hmax). split_and!; [lia|lia|done|]. intros m Hm. destruct (decide (m = S k)) as [->|]; [done|]. apply Hmax. lia.
Qed.
Lemma scan_down_None ids k rest : scan_down ids k rest = None → ∀ m, 0 < m ≤ k → ids !! take m rest = None.
Proof.
  induction k as [|k IH]; intros Hs m Hm; [lia|]. cbn [scan_down] in Hs. destruct (ids !! take (S k) rest) eqn:Ht; [done|]. destruct (decide (m = S k)) as [->|]; [done|]. apply IH; [done|lia].
Qed.

(** Without a [<] there is no escape. *)
Lemma decode_hex_plain s : 60%Z ∉ s → decode_hex_escapes_bytes s = utf8 s.
Proof.
  unfold decode_hex_escapes_bytes. induction s as [|c s IH]; intros Hs; [done|]. cbn [length hex_loop]. rewrite (proj2 (Z.eqb_neq c 60)) by (intros ->; apply Hs; by constructor). rewrite IH by (intros Hin; apply Hs; by constructor). by rewrite utf8_cons.
Qed.

Section SentencePiece.
Context (t : Tokenizer) (Hwf : token_wf t) (Hsp : is_gpt2_bpe t = false).

Lemma sp_to_space_lt s : 60%Z ∉ s → 60%Z ∉ sp_to_space s.
Proof. intros Hs (c & Hc & Hin)%list_elem_of_fmap. destruct (c =? SP_CHAR)%Z; [done|]. by subst. Qed.

Lemma token_bytes_sp id s : token t id = Some s → 60%Z ∉ s → token_bytes t id = utf8 (sp_to_space s).
Proof. unfold token, token_bytes. intros -> Hs. rewrite Hsp. by apply decode_hex_plain, sp_to_space_lt. Qed.

(** The bytes of the tokens are those of the text, if each character is a token. *)
Lemma sp_loop_roundtrip cap fuel : (∀ s id, token_to_id t !! s = Some id → length s ≤ cap) → ∀ rest, length rest ≤ fuel → 60%Z ∉ rest → (∀ c, c ∈ rest → is_Some (token_to_id t !! [c])) → decode_bytes t (sp_loop (token_to_id t) cap fuel rest) = utf8 (sp_to_space rest).
Proof.
  intros Hcap. induction fuel as [|fuel IH]; intros rest Hl Hlt Hv; [destruct rest; [done|cbn in Hl; lia]|]. destruct rest as [|c rest]; [done|]. cbn [sp_loop].
  destruct (scan_down (token_to_id t) (cap `min` length (c :: rest)) (c :: rest)) as [[n id]|] eqn:Hs.
  - apply scan_down_Some in Hs as (Hn & Hid & _). rewrite decode_bytes_cons. rewrite (IH (drop n (c :: rest))).
    + rewrite (token_bytes_sp id (take n (c :: rest))); [|by apply (tw_ids t Hwf)|intros Hin%list_elem_of_In; apply Hlt; rewrite <- (take_drop n (c :: rest)); apply elem_of_app; left; by apply list_elem_of_In].
      unfold sp_to_space. by rewrite <- utf8_app, <- fmap_app, take_drop.
    + rewrite length_drop. lia.
    + intros Hin. apply Hlt. rewrite <- (take_drop n (c :: rest)). apply elem_of_app. by right.
    + intros d Hin. apply Hv. rewrite <- (take_drop n (c :: rest)). apply elem_of_app. by right.
  - exfalso. destruct (Hv c) as [id Hid]; [by constructor|]. assert (token_to_id t !! take 1 (c :: rest) = None) as Hnone; [|change (take 1 (c :: rest)) with [c] in Hnone; congruence]. eapply scan_down_None; [exact Hs|]. apply Hcap in Hid. cbn [length] in *. lia.
Qed.
End SentencePiece.

(** The encoding of [rest] that takes the longest entry at each position. *)
Inductive longest_match (ids : gmap str Z) : str → list Z → Prop :=
| match_end : longest_match ids [] []
| match_entry rest n id out : 0 < n ≤ length rest → ids !! take n rest = Some id → (∀ m, n < m ≤ length rest → ids !! take m rest = None) →
    longest_match ids (drop n rest) out → longest_match ids rest (id :: out)
| match_none c rest out : (∀ m, 0 < m ≤ length (c :: rest) → ids !! take m (c :: rest) = None) → longest_match ids rest out → longest_match ids (c :: rest) out.

Lemma longest_match_unique ids rest out : longest_match ids rest out → ∀ out', longest_match ids rest out' → out = out'.
Proof.
  induction 1 as [|rest n id out Hn Hid Hmax Hm IH|c rest out Hnone Hm IH]; intros out' Hout'; inversion Hout' as [|rest' n' id' out1 Hn' Hid' Hmax' Hm'|c' rest' out1 Hnone' Hm']; subst; try done; cbn [length] in *; try lia.
  - assert (n = n') as <-. { destruct (decide (n < n')); [rewrite Hmax in Hid' by lia; done|]. destruct (decide (n' < n)); [rewrite Hmax' in Hid by lia; done|]. lia. }
    simplify_eq. f_equal. by apply IH.
  - by rewrite Hnone' in Hid by lia.
  - by rewrite Hnone in Hid' by lia.
  - by apply IH.
Qed.

(** An entry at most as long as the cap is the longest one. *)
Lemma capped_none (ids : gmap str Z) cap (rest : str) n : (∀ s id, ids !! s = Some id → length s ≤ cap) → (∀ m, n < m ≤ Nat.min cap (length rest) → ids !! take m rest = None) →
  ∀ m, n < m ≤ length rest → ids !! take m rest = None.
Proof.
  intros Hcap Hmax m Hm. destruct (ids !! take m rest) as [id|] eqn:Ht; [|done]. pose proof (Hcap _ _ Ht) as Hle. rewrite length_take in Hle. rewrite Hmax in Ht; [done|lia].
Qed.

Lemma sp_loop_longest (ids : gmap str Z) cap fuel : (∀ s id, ids !! s = Some id → length s ≤ cap) → ∀ rest, length rest ≤ fuel → longest_match ids rest (sp_loop ids cap fuel rest).
Proof.
  intros Hcap. induction fuel as [|fuel IH]; intros rest Hl; [destruct rest; [constructor|cbn in Hl; lia]|]. destruct rest as [|c rest]; [constructor|]. cbn [sp_loop].
  destruct (scan_down ids (cap `min` length (c :: rest)) (c :: rest)) as [[n id]|] eqn:Hs.
  - apply scan_down_Some in Hs as (Hn & Hid & Hmax). apply (match_entry ids (c :: rest) n id); [lia|done|by eapply capped_none|]. apply IH. rewrite length_drop. lia.
  - pose proof (scan_down_None _ _ _ Hs) as Hnone. pose proof (capped_none ids cap (c :: rest) 0 Hcap Hnone) as Hall.
    destruct (ids !! take 1 (c :: rest)) eqn:H1; [rewrite Hall in H1 by (cbn; lia); done|]. constructor; [done|]. apply IH. cbn in Hl. lia.
Qed.

Lemma sp_text_space t text : SP_CHAR ∉ text → sp_to_space (sp_text t text) = (if sp_dummy_prefix t then [32%Z] else []) ++ text.
Proof.
  intros Hsp. unfold sp_to_space, sp_text. rewrite fmap_app. f_equal; [by destruct (sp_dummy_prefix t)|]. rewrite <- list_fmap_compose. transitivity (id <$> text); [|by rewrite list_fmap_id].
  apply list_fmap_ext. intros i c Hi%list_elem_of_lookup_2. cbn. destruct (c =? 32)%Z eqn:H32; [by apply Z.eqb_eq in H32 as ->|]. rewrite (proj2 (Z.eqb_neq c SP_CHAR)); [done|]. by intros ->.
Qed.
Lemma sp_text_lt t text : 60%Z ∉ text → 60%Z ∉ sp_text t text.
Proof.
  intros Hlt. unfold sp_text. intros [Hin|(c & Hc' & Hin)%list_elem_of_fmap]%elem_of_app; [destruct (sp_dummy_prefix t); [by apply list_elem_of_singleton in Hin|by apply not_elem_of_nil in Hin]|].
  destruct (c =? 32)%Z; [done|]. by subst.
Qed.

(** ** Claims *)

(** C35: what a constructor's success guarantees, if the arrays of the document can be
    indexed with 32 bits. Always: every id, special tokens included, has a vocabulary
    entry; the rank table ranks existing merge rules over ids of the vocabulary; and a
    byte-level tokenizer has an id for every byte. If moreover the document gives no id
    to two strings, which holds of every GGUF vocabulary and is not checked for a
    [tokenizer.json]: ids lead back to their strings, each merge result spells its two
    operands, special tokens are the entries of their ids and the byte ids those of the
    characters that stand for the bytes. *)
Theorem built_tokenizers_sound parse_json distinct t : constructed parse_json distinct t →
  (linked t ∧ ∀ st id, (st, id) ∈ special_tokens t → is_Some (token t id)) ∧ (distinct → token_wf t ∧ specials_ok (vocab t) (special_tokens t)).
Proof. apply constructed_loaded. Qed.

(** C10: on these tokenizers the priority-queue encoder of a chunk never panics and appends
    exactly the tokens of the plain algorithm (merge the leftmost pair of least rank until
    none is left); no pair of adjacent tokens of the result has a merge rule; and
    decoding the tokens gives the bytes of the chunk. *)
Theorem chunk_encoding_exact {E} parse_json t bytes out : built parse_json t → is_gpt2_bpe t = true → Forall is_u8 bytes → (Z.of_nat (length bytes) < 2147483648)%Z → ∃ table ids, byte_to_id t = Some table ∧
  encode_gpt2_chunk (E := E) (merges t) (merge_pair_rank t) (byte_to_id t) bytes out = Ok (out ++ ids) ∧ ids = bpe_reference (merges t) (merge_pair_rank t) (byte_symbols table bytes) ∧
  best_pair (merge_pair_rank t) ids = None ∧ decode_bytes t ids = bytes.
Proof.
  intros [Hwf _]%built_loaded Hg Hu Hl. destruct (chunk_roundtrip (E := E) t Hwf Hg bytes out Hu Hl) as (table & ids & Htab & Henc & Hids & Hd). exists table, ids. split_and!; [done..| |done]. rewrite Hids. by apply merge_all_done.
Qed.

(** C9: a byte-level tokenizer gives every text back. For a tokenizer a constructor returns
    from a document with distinct ids, whose special tokens are non-empty ASCII strings,
    and a regular expression engine that cuts text as its documentation says: encoding a
    text under 2 GiB never fails, and decoding the tokens, after the BOS token where one
    is added, gives the text back character by character, whatever special tokens it
    contains. Decoding the whole result gives the text after the BOS token's string, if
    that is ASCII. *)
Theorem text_roundtrip {E} letter number white same_letter find_iter parse_json t text : (∀ s, find_iter s = pretok_chunks letter number white same_letter s) → built parse_json t → is_gpt2_bpe t = true →
  (∀ st id, (st, id) ∈ special_tokens t → st ≠ [] ∧ plain_text st) → Forall is_char text → (Z.of_nat (str_len text) < 2147483648)%Z →
  ∃ ids, tok_encode (E := E) find_iter t text = Ok (bos_prefix t text ++ ids) ∧ tok_decode t ids = text ∧
    (plain_text (bos_text t text) → tok_decode t (bos_prefix t text ++ ids) = bos_text t text ++ text).
Proof. intros Hregex [Hwf Hsp]%built_loaded Hg Hplain Hc Hl. by eapply tok_encode_gpt2. Qed.

(** C36: the SentencePiece encoder is the longest-match encoder: for every tokenizer and
    text its result is the one that takes at each position the longest vocabulary entry
    and leaves out a character where none starts; its cap on the length changes nothing.
    And if every character of the text is a token, the ids are distinct and the text has
    neither [<] nor the character that stands for a space, decoding gives the text back,
    after the dummy space where the tokenizer adds one. *)
Theorem sentencepiece_exact parse_json t text :
  (∀ out, encode_sentencepiece t text = out ↔ longest_match (token_to_id t) (sp_text t text) out) ∧
  (built parse_json t → is_gpt2_bpe t = false → (∀ c, c ∈ sp_text t text → is_Some (token_to_id t !! [c])) → 60%Z ∉ text → SP_CHAR ∉ text → Forall is_char text →
    tok_decode t (encode_sentencepiece t text) = (if sp_dummy_prefix t then [32%Z] else []) ++ text).
Proof.
  split; [intros out; split|].
  - intros <-. by apply sp_loop_longest; [apply max_tok_chars_le|].
  - intros Hout. eapply longest_match_unique; [|exact Hout]. by apply sp_loop_longest; [apply max_tok_chars_le|].
  - intros [Hwf _]%built_loaded Hg Hv Hlt Hsp Hc.
    unfold tok_decode, encode_sentencepiece. rewrite sp_loop_roundtrip; [|done|done|apply max_tok_chars_le|done|by apply sp_text_lt|done].
    rewrite sp_text_space by done. apply from_utf8_lossy_utf8, Forall_app. split; [|done]. destruct (sp_dummy_prefix t); [|done]. repeat constructor. unfold is_char. lia.
Qed.

(** ** Examples *)

Module TokenDemo.
(** A byte-level vocabulary with two merged tokens and a marker. *)
Definition byte_tokens : list str := (λ b, [byte_to_gpt2_char (Z.of_nat b)]) <$> seq 0 256.
Definition gpt2_file : GgufFile := mkGgufFile 3 (list_to_map
  [(lit "tokenizer.ggml.tokens", MArray (MString <$> byte_tokens ++ (lit <$> ["ab"; "abc"; "<|eot|>"])));
   (lit "tokenizer.ggml.merges", MArray [MString (lit "a b"); MString (lit "ab c")]);
   (lit "tokenizer.ggml.model", MString (lit "gpt2"))]) [] 0 [].
(** A SentencePiece vocabulary. *)
Definition sp_file : GgufFile := mkGgufFile 3 (list_to_map
  [(lit "tokenizer.ggml.tokens", MArray (MString <$> [[SP_CHAR]; lit "a"; lit "b"; SP_CHAR :: lit "ab"]))]) [] 0 [].

Definition empty_tokenizer : Tokenizer := mkTokenizer [] ∅ [] ∅ None [] 0 false 0 None false false.
Definition loaded_from (g : GgufFile) : Tokenizer := match from_gguf g with Ok t => t | _ => empty_tokenizer end.
Definition loads (g : GgufFile) : bool := match from_gguf g with Ok _ => true | _ => false end.
Definition fits (g : GgufFile) : bool := forallb (λ e : str * MetaValue, match e.2 with MArray arr => (Z.of_nat (length arr) <=? U32_MAX)%Z | _ => true end) (map_to_list (metadata g)).

Lemma constructed_from parse g : loads g = true → fits g = true → constructed parse True (loaded_from g).
Proof.
  unfold loads, loaded_from, fits. rewrite forallb_forall. intros Hl Hf. destruct (from_gguf g) as [t| |] eqn:Hg; [|done..]. apply (constructed_gguf parse g t); [|done].
  intros key arr Hkey. unfold gguf_meta in Hkey. specialize (Hf (key, MArray arr)). cbn in Hf. apply Z.leb_le, Hf. by apply list_elem_of_In, elem_of_map_to_list.
Qed.
Lemma built_from parse g : loads g = true → fits g = true → built parse (loaded_from g).
Proof. intros. exists True. split; [done|]. by apply constructed_from. Qed.

Definition gpt2 : Tokenizer := loaded_from gpt2_file.
Definition sp : Tokenizer := loaded_from sp_file.
Lemma gpt2_built : built (λ _, None) gpt2.
Proof. apply built_from; vm_compute; reflexivity. Qed.
Lemma sp_built : built (λ _, None) sp.
Proof. apply built_from; vm_compute; reflexivity. Qed.
Definition demo_chunks (s : str) : list str := pretok_chunks AsciiClasses.letter AsciiClasses.number AsciiClasses.white AsciiClasses.same_letter s.
(** The same vocabulary without merge rules. *)
Definition gpt2_unmerged : Tokenizer := loaded_from (mkGgufFile 3 (delete (lit "tokenizer.ggml.merges") (metadata gpt2_file)) [] 0 []).
(** A [tokenizer.json] with an empty added token. *)
Definition empty_added : Value := VObject
  [(lit "model", VObject [(lit "vocab", VObject [(lit "a", VUint 0)])]);
   (lit "added_tokens", VArray [VObject [(lit "content", VString []); (lit "id", VUint 1)]])].
Definition hf : Tokenizer := match from_hf_json (λ _, Some empty_added) [] with Ok t => t | _ => empty_tokenizer end.
(** A [tokenizer.json] with one id for two strings. *)
Definition shared_ids : Value := VObject [(lit "model", VObject [(lit "vocab", VObject [(lit "a", VUint 0); (lit "b", VUint 0)])])].
Definition shared : Tokenizer := match from_hf_json (λ _, Some shared_ids) [] with Ok t => t | _ => empty_tokenizer end.
Lemma shared_constructed : constructed (λ _, Some shared_ids) (ids_distinct (hf_pairs shared_ids)) shared.
Proof.
  apply (constructed_hf _ []); [done| |].
  - intros model Hm key arr Harr. vm_compute in Hm. injection Hm as <-. unfold json_get in Harr. cbn in Harr. repeat case_match; simplify_eq; done.
  - assert (match from_hf_json (λ _, Some shared_ids) [] with Ok _ => true | _ => false end = true) as Hok by (vm_compute; reflexivity). unfold shared. by destruct (from_hf_json _ _).
Qed.
Example encodes : tok_encode (E := TokenizerError) demo_chunks gpt2 (lit "abcab<|eot|> b") = Ok [257; 256; 258; 32; 98]%Z ∧ encode_sentencepiece sp (lit "ab b") = [3; 0; 2]%Z.
Proof. by split; vm_compute. Qed.
End TokenDemo.

(** A byte-level GGUF vocabulary, and a [tokenizer.json] that gives one id to two strings. *)
Lemma built_tokenizers_sound_witness : (linked TokenDemo.gpt2 ∧ token_wf TokenDemo.gpt2 ∧ specials_ok (vocab TokenDemo.gpt2) (special_tokens TokenDemo.gpt2)) ∧
  linked TokenDemo.shared ∧ token_to_id TokenDemo.shared !! lit "a" = Some 0%Z ∧ token TokenDemo.shared 0 = Some (lit "b").
Proof.
  split.
  - destruct (built_tokenizers_sound (λ _, None) True TokenDemo.gpt2) as [[Hl _] Hd]; [by apply TokenDemo.constructed_from; vm_compute|]. destruct (Hd I). done.
  - destruct (built_tokenizers_sound (λ _, Some TokenDemo.shared_ids) (ids_distinct (hf_pairs TokenDemo.shared_ids)) TokenDemo.shared) as [[Hl _] _]; [exact TokenDemo.shared_constructed|].
    split_and!; [done|by vm_compute|by vm_compute].
Defined.

Lemma chunk_encoding_exact_witness : let t := TokenDemo.gpt2 in ∃ table ids, byte_to_id t = Some table ∧
  encode_gpt2_chunk (E := TokenizerError) (merges t) (merge_pair_rank t) (byte_to_id t) (lit "abcab") [] = Ok ([] ++ ids) ∧ ids = bpe_reference (merges t) (merge_pair_rank t) (byte_symbols table (lit "abcab")) ∧
  best_pair (merge_pair_rank t) ids = None ∧ decode_bytes t ids = lit "abcab".
Proof.
  intros t. apply (chunk_encoding_exact (λ _, None) t); [exact TokenDemo.gpt2_built|vm_compute; reflexivity|apply str_bytes_u8|vm_compute; reflexivity].
Defined.

Lemma text_roundtrip_witness : ∃ ids, tok_encode (E := TokenizerError) TokenDemo.demo_chunks TokenDemo.gpt2 (lit "abcab<|eot|> b") = Ok (bos_prefix TokenDemo.gpt2 (lit "abcab<|eot|> b") ++ ids) ∧
  tok_decode TokenDemo.gpt2 ids = lit "abcab<|eot|> b" ∧
  (plain_text (bos_text TokenDemo.gpt2 (lit "abcab<|eot|> b")) → tok_decode TokenDemo.gpt2 (bos_prefix TokenDemo.gpt2 (lit "abcab<|eot|> b") ++ ids) = bos_text TokenDemo.gpt2 (lit "abcab<|eot|> b") ++ lit "abcab<|eot|> b").
Proof.
  apply (text_roundtrip AsciiClasses.letter AsciiClasses.number AsciiClasses.white AsciiClasses.same_letter TokenDemo.demo_chunks (λ _, None)); [reflexivity|exact TokenDemo.gpt2_built|vm_compute; reflexivity| | |vm_compute; reflexivity].
  - assert (special_tokens TokenDemo.gpt2 = [(lit "<|eot|>", 258%Z)]) as -> by (vm_compute; reflexivity). intros st id [= -> ->]%list_elem_of_singleton. split; [done|]. apply (bool_decide_unpack _). vm_compute. exact I.
  - apply plain_is_char, (bool_decide_unpack _). vm_compute. exact I.
Defined.

Lemma sentencepiece_exact_witness : let t := TokenDemo.sp in
  longest_match (token_to_id t) (sp_text t (lit "ab bz")) [3; 0; 2]%Z ∧
  tok_decode t (encode_sentencepiece t (lit "ab b")) = (if sp_dummy_prefix t then [32%Z] else []) ++ lit "ab b".
Proof.
  intros t. split; [by apply (sentencepiece_exact (λ _, None) t (lit "ab bz")); vm_compute|].
  apply (sentencepiece_exact (λ _, None) t (lit "ab b")); [exact TokenDemo.sp_built|vm_compute; reflexivity| | | |].
  - assert (Forall (λ c, is_Some (token_to_id t !! [c])) (sp_text t (lit "ab b"))) as Hall; [|by rewrite Forall_forall in Hall]. apply (bool_decide_unpack _). vm_compute. exact I.
  - apply (bool_decide_unpack _). vm_compute. exact I.
  - apply (bool_decide_unpack _). vm_compute. exact I.
  - apply plain_is_char, (bool_decide_unpack _). vm_compute. exact I.
Defined.

Lemma empty_special_loops {E} find_iter t id text : special_tokens t = [([], id)] → text ≠ [] → ∀ fuel,
  encode_loop (E := E) find_iter t (S fuel) text = (rest ← encode_loop find_iter t fuel text; Ok (id :: rest)) ∧ ∀ ids, encode_loop (E := E) find_iter t fuel text ≠ Ok ids.
Proof.
  intros Hs Hne. assert (∀ fuel, encode_loop (E := E) find_iter t (S fuel) text = (rest ← encode_loop find_iter t fuel text; Ok (id :: rest))) as Hround by (intros fuel; destruct text as [|c text]; [done|]; cbn [encode_loop]; by rewrite Hs).
  intros fuel. split; [apply Hround|]. induction fuel as [|fuel IH]; intros ids; [by destruct text|]. rewrite Hround. intros (rest & Hrest & _)%bind_Ok. by eapply IH.
Qed.

(** Three limits of the code. A hexadecimal escape above a byte loses its closing
    bracket when decoded. Two tokenizers that differ in their merge rules have the same
    signature and encode a text drawn from the shared vocabulary differently. And an
    empty added token is accepted, after which encoding a text never ends: a round of
    the loop emits a token and consumes nothing, so no number of rounds gives a result. *)
Example tokenizer_limits :
  decode_hex_escapes_bytes (lit "<0x100>") = lit "<0x100" ∧
  (signature TokenDemo.gpt2 = signature TokenDemo.gpt2_unmerged ∧
   tok_encode (E := TokenizerError) TokenDemo.demo_chunks TokenDemo.gpt2 (lit "ab") = Ok [256%Z] ∧ tok_encode (E := TokenizerError) TokenDemo.demo_chunks TokenDemo.gpt2_unmerged (lit "ab") = Ok [97; 98]%Z) ∧
  (from_hf_json (λ _, Some TokenDemo.empty_added) [] = Ok TokenDemo.hf ∧ ∀ find_iter fuel,
   encode_loop (E := TokenizerError) find_iter TokenDemo.hf (S fuel) (lit "a") = (rest ← encode_loop find_iter TokenDemo.hf fuel (lit "a"); Ok (1%Z :: rest)) ∧
   ∀ ids, encode_loop (E := TokenizerError) find_iter TokenDemo.hf fuel (lit "a") ≠ Ok ids).
Proof.
  split_and!; [vm_compute; reflexivity..| |intros; apply empty_special_loops; [vm_compute; reflexivity|done]].
  assert (match from_hf_json (λ _, Some TokenDemo.empty_added) [] with Ok _ => true | _ => false end = true) as Hok by (vm_compute; reflexivity). unfold TokenDemo.hf. by destruct (from_hf_json _ _).
Qed.
