(* ===== verification/PromptNorm.v ===== *)
(** Prompt normalisation and merge ranks (src/crates/hipfire-runtime/src/tokenizer.rs).

    Before a prompt is encoded, line endings, no-break spaces, blanks before a newline and
    runs of newlines are rewritten to forms that common tokens cover. Every rewrite is
    guarded by a scan of the bytes, so that a clean prompt is not copied. The second part
    is the rank that diagnostics give a token.

    Proved here: the scans, which look at bytes, are exact for the characters; the whole
    pipeline equals the composition of its rewrites, leaves nothing to rewrite, borrows
    exactly when nothing changes, and keeps the visible characters and the blanks a
    completion prompt ends with. *)

From S2P Require Import Prelude Utf8 Text F32 Bpe Gguf Tokenizer.

(** ** The rewrites *)

(** [collapse_newline_runs]; [nl_run] newlines precede. *)
Fixpoint collapse (nl_run : nat) (s : str) : str :=
  match s with
  | [] => []
  | ch :: s =>
      if (ch =? 10)%Z then
        let nl_run := nl_run + 1 in
        if bool_decide (nl_run ≤ 2) then 10%Z :: collapse nl_run s else collapse nl_run s
      else ch :: collapse 0 s
  end.
Definition collapse_newline_runs (s : str) : str := collapse 0 s.

(** [normalize_line_endings] *)
Fixpoint normalize_line_endings (s : str) : str :=
  match s with
  | [] => []
  | c :: s =>
      if (c =? 13)%Z then
        10%Z :: match s with
          | d :: s' => if (d =? 10)%Z then normalize_line_endings s' else normalize_line_endings s
          | [] => []
          end
      else c :: normalize_line_endings s
  end.

(** [replace_nbsp_with_space] *)
Definition NBSP : Z := 0xA0.
Definition replace_nbsp_with_space (s : str) : str := (λ c, if (c =? NBSP)%Z then 32%Z else c) <$> s.

(** [strip_trailing_line_ws]; [pending] blanks precede. *)
Definition line_blank (c : Z) : bool := (c =? 32)%Z || (c =? 9)%Z.
Fixpoint strip (pending s : str) : str :=
  match s with
  | [] => pending
  | ch :: s =>
      if line_blank ch then strip (pending ++ [ch]) s
      else if (ch =? 10)%Z then 10%Z :: strip [] s
      else pending ++ ch :: strip [] s
  end.
Definition strip_trailing_line_ws (s : str) : str := strip [] s.

(** ** The scans *)

(** [needs_newline_collapse] *)
Fixpoint nl_scan (nl_run : nat) (bytes : list Z) : bool :=
  match bytes with
  | [] => false
  | b :: bytes => if (b =? 10)%Z then bool_decide (3 ≤ nl_run + 1) || nl_scan (nl_run + 1) bytes else nl_scan 0 bytes
  end.
Definition needs_newline_collapse (s : str) : bool := nl_scan 0 (utf8 s).

(** [needs_line_ending_normalize] *)
Definition needs_line_ending_normalize (s : str) : bool := existsb (λ b, (b =? 13)%Z) (utf8 s).

(** [needs_nbsp_replace] *)
Definition needs_nbsp_replace (s : str) : bool :=
  let b := utf8 s in
  existsb (λ i, (nth i b 0 =? 0xC2)%Z && (nth (i + 1) b 0 =? 0xA0)%Z) (seq 0 (length b - 1)).

(** [needs_trailing_ws_strip] *)
Definition needs_trailing_ws_strip (s : str) : bool :=
  let bytes := utf8 s in
  existsb (λ i, (nth i bytes 0 =? 10)%Z && bool_decide (0 < i) && line_blank (nth (i - 1) bytes 0%Z)) (seq 0 (length bytes)).

(** ** The pipeline *)

Inductive Cow : Type := Borrowed (s : str) | Owned (s : str).
Definition as_ref (c : Cow) : str := match c with Borrowed s | Owned s => s end.

(** [normalize_prompt_with] *)
Definition rewrite_if (needs : str → bool) (f : str → str) (cur : Cow) : Cow := if needs (as_ref cur) then Owned (f (as_ref cur)) else cur.
Definition normalize_prompt_with (s : str) (enabled : bool) : Cow :=
  if negb enabled then Borrowed s
  else
    let cur := rewrite_if needs_line_ending_normalize normalize_line_endings (Borrowed s) in
    let cur := rewrite_if needs_nbsp_replace replace_nbsp_with_space cur in
    let cur := rewrite_if needs_trailing_ws_strip strip_trailing_line_ws cur in
    rewrite_if needs_newline_collapse collapse_newline_runs cur.

(** ** Neighbours in a list *)

Fixpoint has_pair (f : Z → Z → bool) (l : list Z) : bool :=
  match l with
  | x :: l' => match l' with y :: _ => f x y || has_pair f l' | [] => false end
  | [] => false
  end.

Lemma has_pair_true f l : has_pair f l = true ↔ ∃ i x y, l !! i = Some x ∧ l !! S i = Some y ∧ f x y = true.
Proof.
  induction l as [|a l IH]; [split; [done|by intros (i & x & y & Hx & _)]|]. destruct l as [|b l]; [split; [done|by intros (i & x & y & _ & Hy & _)]|]. change (has_pair f (a :: b :: l)) with (f a b || has_pair f (b :: l)). rewrite orb_true_iff, IH. split.
  - intros [Hf|(i & x & y & Hx & Hy & Hf)]; [by exists 0, a, b|by exists (S i), x, y].
  - intros ([|i] & x & y & Hx & Hy & Hf); [left; cbn in *; congruence|right; by exists i, x, y].
Qed.

Lemma has_pair_cons f x l : has_pair f (x :: l) = match l with y :: _ => f x y | [] => false end || has_pair f l.
Proof. by destruct l. Qed.

(** Between two parts, only the last element of one and the first of the other are new. *)
Lemma has_pair_app f l k : has_pair f (l ++ k) = has_pair f l || match last l, k with Some x, y :: _ => f x y | _, _ => false end || has_pair f k.
Proof.
  induction l as [|x l IH]; [done|]. rewrite <- app_comm_cons, !has_pair_cons, IH. destruct l as [|x' l]; [by destruct k|]. rewrite last_cons_cons. cbn [app]. by rewrite !orb_assoc.
Qed.

Lemma existsb_pair f l (n : nat) (g : nat → bool) : (∀ i, i ∈ seq 0 n → g i = true → ∃ j x y, l !! j = Some x ∧ l !! S j = Some y ∧ f x y = true) →
  (∀ j x y, l !! j = Some x → l !! S j = Some y → f x y = true → ∃ i, i ∈ seq 0 n ∧ g i = true) → existsb g (seq 0 n) = has_pair f l.
Proof.
  intros H1 H2. apply eq_true_iff_eq. rewrite has_pair_true, existsb_exists. split.
  - intros (i & Hi%list_elem_of_In & Hg). by eapply H1.
  - intros (j & x & y & Hx & Hy & Hf). destruct (H2 j x y Hx Hy Hf) as (i & Hi & Hg). exists i. by split; [apply list_elem_of_In|].
Qed.

Definition nbsp_bytes (x y : Z) : bool := (x =? 0xC2)%Z && (y =? 0xA0)%Z.
Definition blank_newline (x y : Z) : bool := line_blank x && (y =? 10)%Z.

Lemma lookup_nth (l : list Z) i : i < length l → l !! i = Some (nth i l 0%Z).
Proof. intros Hi. destruct (lookup_lt_is_Some_2 l i Hi) as [x Hx]. by rewrite (nth_lookup_Some _ _ _ _ Hx). Qed.

Lemma needs_nbsp_pairs s : needs_nbsp_replace s = has_pair nbsp_bytes (utf8 s).
Proof.
  unfold needs_nbsp_replace. apply existsb_pair.
  - intros i Hi%elem_of_seq Hg. rewrite Nat.add_1_r in Hg. exists i. eexists _, _. split; [apply lookup_nth; lia|]. split; [apply lookup_nth; lia|done].
  - intros j x y Hx Hy Hf. exists j. apply lookup_lt_Some in Hy as ?. split; [apply elem_of_seq; lia|]. by rewrite Nat.add_1_r, (nth_lookup_Some _ _ _ _ Hx), (nth_lookup_Some _ _ _ _ Hy).
Qed.

Lemma needs_strip_pairs s : needs_trailing_ws_strip s = has_pair blank_newline (utf8 s).
Proof.
  unfold needs_trailing_ws_strip. apply existsb_pair.
  - intros [|i] Hi%elem_of_seq [[Hnl Hpos]%andb_true_iff Hb]%andb_true_iff; [by apply bool_decide_eq_true in Hpos; lia|]. cbn [Nat.sub] in Hb. rewrite Nat.sub_0_r in Hb. exists i. eexists _, _. split; [apply lookup_nth; lia|]. split; [apply lookup_nth; lia|]. unfold blank_newline. by rewrite Hb, Hnl.
  - intros j x y Hx Hy [Hb Hnl]%andb_true_iff. exists (S j). apply lookup_lt_Some in Hy as ?. split; [apply elem_of_seq; lia|]. cbn [Nat.sub]. rewrite Nat.sub_0_r, (nth_lookup_Some _ _ _ _ Hx), (nth_lookup_Some _ _ _ _ Hy), Hnl, Hb. by rewrite bool_decide_eq_true_2 by lia.
Qed.

(** ** From bytes to characters *)

(** An encoded character is an ASCII byte or consists of others, and ends in a byte that
    starts no other character. *)
Lemma encode_shape c : is_char c → encode_utf8 c = [c] ∧ (0 ≤ c < 0x80)%Z ∨
  (0x80 ≤ c)%Z ∧ Forall (λ b, 0x80 ≤ b)%Z (encode_utf8 c) ∧ (∃ x, last (encode_utf8 c) = Some x ∧ (0x80 ≤ x < 0xC0)%Z) ∧ has_pair nbsp_bytes (encode_utf8 c) = (c =? NBSP)%Z.
Proof.
  intros Hc. unfold nbsp_bytes, NBSP. destruct (encode_cases c Hc) as [(? & ->)|[(a & b & -> & ? & ? & ->)|[(a & b & d & -> & ? & ? & ? & -> & H1 & H2)|(a & b & d & e & -> & ? & ? & ? & ? & -> & H1 & H2)]]]; [by left|right..];
    (split; [lia|]; split; [repeat constructor; lia|]; split; [eexists; split; [reflexivity|lia]|]; cbn [has_pair]; apply eq_true_iff_eq; rewrite ?orb_true_iff, ?andb_true_iff, ?orb_false_r, ?andb_true_iff, ?Z.eqb_eq; lia).
Qed.

Lemma scan_ascii s x : Forall is_char s → (x < 0x80)%Z → existsb (λ b, (b =? x)%Z) (utf8 s) = bool_decide (x ∈ s).
Proof.
  intros Hs Hx. induction Hs as [|c s' Hc _ IH]; [by rewrite bool_decide_eq_false_2 by apply not_elem_of_nil|]. rewrite utf8_cons, existsb_app, IH. apply eq_true_iff_eq. rewrite orb_true_iff, !bool_decide_eq_true, elem_of_cons, existsb_exists.
  destruct (encode_shape c Hc) as [[-> _]|(Hge & Hall & _)]; [split; intros [H|H]; try tauto|].
  - destruct H as (b & [<-|[]] & ->%Z.eqb_eq). by left.
  - subst. left. exists c. split; [by left|]. by apply Z.eqb_eq.
  - split; intros [H|H]; [|tauto|lia|tauto]. destruct H as (b & Hb & ->%Z.eqb_eq). rewrite Forall_forall in Hall. apply list_elem_of_In, Hall in Hb. lia.
Qed.

Lemma scan_nbsp s : Forall is_char s → has_pair nbsp_bytes (utf8 s) = bool_decide (NBSP ∈ s).
Proof.
  induction 1 as [|c s' Hc _ IH]; [by rewrite bool_decide_eq_false_2 by apply not_elem_of_nil|]. rewrite utf8_cons, has_pair_app, IH.
  assert (match last (encode_utf8 c), utf8 s' with Some x, y :: _ => nbsp_bytes x y | _, _ => false end = false) as ->.
  { destruct (encode_shape c Hc) as [[-> Hlt]|(_ & _ & (x & -> & Hx) & _)]; (destruct (utf8 s') as [|y l]; [done|]); unfold nbsp_bytes; cbn [last]; rewrite (proj2 (Z.eqb_neq _ 0xC2)) by lia; done. }
  rewrite orb_false_r. assert (has_pair nbsp_bytes (encode_utf8 c) = (c =? NBSP)%Z) as -> by (destruct (encode_shape c Hc) as [[-> Hlt]|(_ & _ & _ & ->)]; [|done]; cbn; symmetry; apply Z.eqb_neq; unfold NBSP; lia).
  apply eq_true_iff_eq. rewrite orb_true_iff, !bool_decide_eq_true, elem_of_cons, Z.eqb_eq. naive_solver.
Qed.

(** Pairs of ASCII bytes. *)
Lemma scan_pairs s f : Forall is_char s → (∀ x y, f x y = true → (x < 0x80)%Z ∧ (y < 0x80)%Z) → has_pair f (utf8 s) = has_pair f s.
Proof.
  intros Hs Hf. assert (∀ x y, (0x80 ≤ x)%Z ∨ (0x80 ≤ y)%Z → f x y = false) as Hno by (intros x y Hxy; destruct (f x y) eqn:Hfxy; [apply Hf in Hfxy; lia|done]).
  induction Hs as [|c s' Hc Hs' IH]; [done|]. rewrite utf8_cons, has_pair_app, has_pair_cons, IH. f_equal.
  assert (has_pair f (encode_utf8 c) = false) as ->.
  { destruct (encode_shape c Hc) as [[-> _]|(_ & Hall & _)]; [done|]. apply not_true_iff_false. rewrite has_pair_true. intros (i & x & y & Hx & _ & Hfxy). rewrite Forall_lookup in Hall. apply Hall in Hx. rewrite Hno in Hfxy; [done|by left]. }
  cbn [orb]. assert (match s' with y :: _ => f c y | [] => false end = match utf8 s' with y :: _ => f c y | [] => false end) as ->.
  { destruct Hs' as [|d s'' Hd _]; [done|]. rewrite utf8_cons. destruct (encode_shape d Hd) as [[-> _]|(Hge & Hall & (x & Hx & _) & _)]; [done|]. destruct (encode_utf8 d) as [|b l]; [done|]. cbn [app]. inversion Hall; subst. rewrite !Hno by (right; lia). done. }
  destruct (encode_shape c Hc) as [[-> _]|(Hge & _ & (x & -> & Hx) & _)]; [done|]. destruct (utf8 s'); [done|]. rewrite !Hno by (left; lia). done.
Qed.

Lemma scan_newlines s : Forall is_char s → ∀ run, nl_scan run (utf8 s) = nl_scan run s.
Proof.
  induction 1 as [|c s' Hc _ IH]; intros run; [done|]. rewrite utf8_cons. destruct (encode_shape c Hc) as [[-> _]|(Hge & Hall & (x & Hx & _) & _)]; [cbn [app nl_scan]; by rewrite !IH|].
  cbn [nl_scan]. rewrite (proj2 (Z.eqb_neq c 10)) by lia. destruct (encode_utf8 c) as [|b l]; [done|]. clear Hx. revert b Hall run. induction l as [|b' l IHl]; intros b Hall run; inversion Hall; subst; cbn [app nl_scan]; rewrite (proj2 (Z.eqb_neq b 10)) by lia; [apply IH|]. by apply (IHl b').
Qed.

(** The scans, on characters. *)
Lemma scans s : Forall is_char s → needs_line_ending_normalize s = bool_decide (13%Z ∈ s) ∧ needs_nbsp_replace s = bool_decide (NBSP ∈ s) ∧
  needs_trailing_ws_strip s = has_pair blank_newline s ∧ needs_newline_collapse s = nl_scan 0 s.
Proof.
  intros Hs. split_and!; [by apply scan_ascii|rewrite needs_nbsp_pairs; by apply scan_nbsp| |by apply scan_newlines]. rewrite needs_strip_pairs. apply scan_pairs; [done|].
  unfold blank_newline, line_blank. intros x y [[Hx%Z.eqb_eq|Hx%Z.eqb_eq]%orb_true_iff Hy%Z.eqb_eq]%andb_true_iff; lia.
Qed.

(** ** A rewrite that is not needed changes nothing *)

Lemma normalize_id s : 13%Z ∉ s → normalize_line_endings s = s.
Proof. induction s as [|c s IH]; intros Hs; [done|]. apply not_elem_of_cons in Hs as [Hc Hs]. cbn. rewrite (proj2 (Z.eqb_neq c 13)) by done. by rewrite IH. Qed.
Lemma replace_id s : NBSP ∉ s → replace_nbsp_with_space s = s.
Proof. unfold replace_nbsp_with_space. induction s as [|c s IH]; intros Hs; [done|]. apply not_elem_of_cons in Hs as [Hc Hs]. rewrite fmap_cons, IH by done. by rewrite (proj2 (Z.eqb_neq c NBSP)). Qed.
Lemma collapse_id s : ∀ run, nl_scan run s = false → collapse run s = s.
Proof.
  induction s as [|c s IH]; intros run Hs; [done|]. cbn [nl_scan collapse] in *. destruct (c =? 10)%Z eqn:Hc; [|by rewrite IH]. apply Z.eqb_eq in Hc as ->. apply orb_false_iff in Hs as [Hr%bool_decide_eq_false Hs]. rewrite bool_decide_eq_true_2 by lia. by rewrite IH.
Qed.
Lemma strip_id s : ∀ pending, Forall (λ c, line_blank c = true) pending → has_pair blank_newline (pending ++ s) = false → strip pending s = pending ++ s.
Proof.
  induction s as [|c s IH]; intros pending Hp Hs; cbn [strip]; [by rewrite app_nil_r|]. destruct (line_blank c) eqn:Hb.
  - rewrite IH; [by rewrite <- app_assoc|apply Forall_app; by repeat constructor|by rewrite <- app_assoc].
  - rewrite has_pair_app, has_pair_cons in Hs. apply orb_false_iff in Hs as [[_ Hlast]%orb_false_iff [_ Hs]%orb_false_iff]. rewrite IH by done. destruct (c =? 10)%Z eqn:Hc; [|done]. apply Z.eqb_eq in Hc as ->. destruct pending as [|x pending _] using rev_ind; [done|].
    rewrite last_snoc in Hlast. apply Forall_app in Hp as [_ Hx]. inversion Hx; subst. unfold blank_newline in Hlast. by rewrite H1 in Hlast.
Qed.

(** ** What a rewrite removes, and what it keeps *)

Lemma normalize_spec s : 13%Z ∉ normalize_line_endings s ∧ ∀ c, c ∈ normalize_line_endings s → c ∈ s ∨ c = 10%Z.
Proof.
  induction s as [s IH] using (induction_ltof1 _ length). unfold ltof in IH. destruct s as [|c s]; [split; [apply not_elem_of_nil|by left]|]. cbn [normalize_line_endings]. destruct (c =? 13)%Z eqn:Hc.
  - assert (∃ k, (match s with [] => [] | d :: s' => if (d =? 10)%Z then normalize_line_endings s' else normalize_line_endings s end) = normalize_line_endings k ∧ length k ≤ length s ∧ ∀ x, x ∈ k → x ∈ s) as (k & -> & Hl & Hk).
    { destruct s as [|d s]; [by exists []|]. destruct (d =? 10)%Z; [exists s|exists (d :: s)]; (split; [done|]); split; [cbn; lia|set_solver|cbn; lia|done]. }
    destruct (IH k) as [H1 H2]; [cbn; lia|]. split; [by apply not_elem_of_cons|]. intros x [->|Hx%H2]%elem_of_cons; [by right|]. destruct Hx as [Hx%Hk|]; [left; by constructor|by right].
  - destruct (IH s) as [H1 H2]; [cbn; lia|]. apply Z.eqb_neq in Hc. split; [by apply not_elem_of_cons|]. intros x [->|Hx%H2]%elem_of_cons; [left; by constructor|]. destruct Hx; [left; by constructor|by right].
Qed.

Lemma replace_spec s : NBSP ∉ replace_nbsp_with_space s ∧ ∀ c, c ∈ replace_nbsp_with_space s → c ∈ s ∨ c = 32%Z.
Proof.
  split; [intros Hin|intros x Hin]; apply list_elem_of_fmap in Hin as (c & Hx & Hc); destruct (c =? NBSP)%Z eqn:Hn.
  - done.
  - apply Z.eqb_neq in Hn. congruence.
  - by right.
  - left. by subst.
Qed.

Lemma blanks_have_no_pair p k : Forall (λ c, line_blank c = true) p → match k with y :: _ => (y =? 10)%Z = false | [] => True end → has_pair blank_newline k = false → has_pair blank_newline (p ++ k) = false.
Proof.
  intros Hp Hk Hpair. induction Hp as [|x p Hx Hp IH]; [done|]. cbn [app]. rewrite has_pair_cons, IH, orb_false_r. destruct (p ++ k) as [|y l] eqn:Hl; [done|]. unfold blank_newline. rewrite Hx. cbn [andb].
  destruct Hp as [|x' p Hx' _]; cbn [app] in Hl; [by subst|]. injection Hl as <- _. unfold line_blank in Hx'. apply orb_true_iff in Hx' as [->%Z.eqb_eq| ->%Z.eqb_eq]; done.
Qed.

Lemma strip_spec s : ∀ pending, Forall (λ c, line_blank c = true) pending → has_pair blank_newline (strip pending s) = false ∧ ∀ c, c ∈ strip pending s → c ∈ pending ++ s.
Proof.
  induction s as [|c s IH]; intros pending Hp; cbn [strip].
  - rewrite app_nil_r. split; [|done]. rewrite <- (app_nil_r pending). by apply blanks_have_no_pair.
  - destruct (line_blank c) eqn:Hb; [destruct (IH (pending ++ [c])) as [H1 H2]; [apply Forall_app; by repeat constructor|]; split; [done|]; intros x Hx%H2; by rewrite <- app_assoc in Hx|].
    destruct (IH []) as [H1 H2]; [constructor|]. cbn [app] in H2. destruct (c =? 10)%Z eqn:Hc.
    + rewrite has_pair_cons, H1, orb_false_r. split; [by destruct (strip [] s)|]. apply Z.eqb_eq in Hc as ->. intros x [->|Hx%H2]%elem_of_cons; set_solver.
    + split; [|set_solver]. apply blanks_have_no_pair; [done..|]. rewrite has_pair_cons, H1, orb_false_r. unfold blank_newline. rewrite Hb. by destruct (strip [] s).
Qed.

Lemma collapse_elem s : ∀ run c, c ∈ collapse run s → c ∈ s.
Proof.
  induction s as [|d s IH]; intros run c Hc; [done|]. cbn [collapse] in Hc. destruct (d =? 10)%Z eqn:Hd; [apply Z.eqb_eq in Hd as ->; case_bool_decide|]; [apply elem_of_cons in Hc as [->|Hc%IH]| apply IH in Hc|apply elem_of_cons in Hc as [->|Hc%IH]]; by constructor.
Qed.
Lemma collapse_runs s : ∀ run, nl_scan (Nat.min run 2) (collapse run s) = false.
Proof.
  induction s as [|c s IH]; intros run; [done|]. cbn [collapse]. destruct (c =? 10)%Z eqn:Hc; [|cbn [nl_scan]; rewrite Hc; apply (IH 0)]. case_bool_decide as Hr.
  - cbn [nl_scan]. rewrite Z.eqb_refl, bool_decide_eq_false_2 by lia. rewrite Nat.min_l by lia. specialize (IH (run + 1)). by rewrite Nat.min_l in IH by lia.
  - specialize (IH (run + 1)). by rewrite Nat.min_r in IH |- * by lia.
Qed.
(** A newline is only dropped after a newline. *)
Lemma collapse_pairs s : ∀ run prev, (0 < run → prev = 10%Z) → has_pair blank_newline (prev :: s) = false → has_pair blank_newline (prev :: collapse run s) = false.
Proof.
  induction s as [|c s IH]; intros run prev Hr Hs; [done|]. rewrite has_pair_cons in Hs. apply orb_false_iff in Hs as [Hf Hs]. cbn [collapse]. destruct (c =? 10)%Z eqn:Hc; [apply Z.eqb_eq in Hc as ->; case_bool_decide|].
  - rewrite has_pair_cons, Hf, (IH (run + 1) 10%Z); done.
  - rewrite Hr by lia. by apply IH.
  - rewrite has_pair_cons, Hf, (IH 0 c); [done|lia|done].
Qed.

(** ** Visible characters and trailing blanks *)

Definition invisible (c : Z) : bool := line_blank c || (c =? 10)%Z || (c =? 13)%Z || (c =? NBSP)%Z.
Definition visible (s : str) : str := filter (λ c, invisible c = false) s.

Lemma visible_cons c s : visible (c :: s) = (if invisible c then [] else [c]) ++ visible s.
Proof. unfold visible. rewrite filter_cons. by destruct (invisible c). Qed.
Lemma visible_app s k : visible (s ++ k) = visible s ++ visible k.
Proof. apply filter_app. Qed.
Lemma visible_blanks p : Forall (λ c, line_blank c = true) p → visible p = [].
Proof. induction 1 as [|c p Hc _ IH]; [done|]. rewrite visible_cons, IH. unfold invisible. by rewrite Hc. Qed.

Lemma normalize_visible s : visible (normalize_line_endings s) = visible s.
Proof.
  induction s as [s IH] using (induction_ltof1 _ length). unfold ltof in IH. destruct s as [|c s]; [done|]. cbn [normalize_line_endings]. destruct (c =? 13)%Z eqn:Hc; [|rewrite !visible_cons, IH by (cbn; lia); done].
  apply Z.eqb_eq in Hc as ->. rewrite !visible_cons. change (invisible 13) with true. change (invisible 10) with true. cbn [app]. destruct s as [|d s]; [done|]. destruct (d =? 10)%Z eqn:Hd; [|by rewrite IH by (cbn; lia)]. apply Z.eqb_eq in Hd as ->. rewrite IH by (cbn; lia). by rewrite visible_cons.
Qed.
Lemma replace_visible s : visible (replace_nbsp_with_space s) = visible s.
Proof. unfold replace_nbsp_with_space. induction s as [|c s IH]; [done|]. rewrite fmap_cons, !visible_cons, IH. destruct (c =? NBSP)%Z eqn:Hc; [|done]. by apply Z.eqb_eq in Hc as ->. Qed.
Lemma strip_visible s : ∀ pending, Forall (λ c, line_blank c = true) pending → visible (strip pending s) = visible s.
Proof.
  induction s as [|c s IH]; intros pending Hp; cbn [strip]; [by apply visible_blanks|]. destruct (line_blank c) eqn:Hb.
  - rewrite IH by (apply Forall_app; by repeat constructor). rewrite visible_cons. unfold invisible. by rewrite Hb.
  - destruct (c =? 10)%Z eqn:Hc; [apply Z.eqb_eq in Hc as ->; by rewrite !visible_cons, IH|]. by rewrite visible_app, visible_blanks, !visible_cons, IH.
Qed.
Lemma collapse_visible s : ∀ run, visible (collapse run s) = visible s.
Proof.
  induction s as [|c s IH]; intros run; [done|]. cbn [collapse]. destruct (c =? 10)%Z eqn:Hc; [|by rewrite !visible_cons, IH]. apply Z.eqb_eq in Hc as ->. case_bool_decide; rewrite !visible_cons, IH; done.
Qed.

Lemma strip_blanks p : Forall (λ c, line_blank c = true) p → ∀ pending, strip pending p = pending ++ p.
Proof. induction 1 as [|c q Hc _ IH]; intros pending; [by rewrite app_nil_r|]. cbn [strip]. rewrite Hc, IH. by rewrite <- app_assoc. Qed.
Lemma collapse_blanks p : Forall (λ c, line_blank c = true) p → ∀ run, collapse run p = p.
Proof. induction 1 as [|c q Hc _ IH]; intros run; [done|]. cbn [collapse]. rewrite (proj2 (Z.eqb_neq c 10)); [|by intros ->]. by rewrite IH. Qed.

Section Trailing.
Context (p : str) (Hp : Forall (λ c, line_blank c = true) p).

Lemma blank_cases c : c ∈ p → c = 32%Z ∨ c = 9%Z.
Proof. rewrite Forall_forall in Hp. intros [->%Z.eqb_eq| ->%Z.eqb_eq]%Hp%orb_true_iff; [by left|by right]. Qed.
Lemma blanks_are_blank c : c = 13%Z ∨ c = 10%Z ∨ c = NBSP → c ∉ p.
Proof. intros Hc [->| ->]%blank_cases; destruct Hc as [|[|]]; done. Qed.

Lemma normalize_trailing s : normalize_line_endings (s ++ p) = normalize_line_endings s ++ p.
Proof.
  assert (13%Z ∉ p ∧ 10%Z ∉ p) as [H13 H10] by (split; apply blanks_are_blank; tauto). induction s as [s IH] using (induction_ltof1 _ length). unfold ltof in IH. destruct s as [|c s]; [by apply normalize_id|]. cbn [app normalize_line_endings]. destruct (c =? 13)%Z; [|by rewrite IH by (cbn; lia)].
  cbn [app]. f_equal. destruct s as [|d s]; cbn [app].
  - destruct p as [|d q]; [done|]. rewrite (proj2 (Z.eqb_neq d 10)); [by apply normalize_id|]. intros ->. apply H10. by constructor.
  - destruct (d =? 10)%Z; [by rewrite IH by (cbn; lia)|]. exact (IH (d :: s) ltac:(cbn; lia)).
Qed.
Lemma replace_trailing s : replace_nbsp_with_space (s ++ p) = replace_nbsp_with_space s ++ p.
Proof. unfold replace_nbsp_with_space. rewrite fmap_app. f_equal. apply replace_id, blanks_are_blank. tauto. Qed.
Lemma strip_trailing s : ∀ pending, strip pending (s ++ p) = strip pending s ++ p.
Proof.
  induction s as [|c s IH]; intros pending; cbn [app strip]; [|destruct (line_blank c); [apply IH|]; destruct (c =? 10)%Z; rewrite IH; [done|by rewrite <- app_assoc]].
  by apply strip_blanks.
Qed.
Lemma collapse_trailing s : ∀ run, collapse run (s ++ p) = collapse run s ++ p.
Proof.
  induction s as [|c s IH]; intros run; cbn [app collapse]; [|destruct (c =? 10)%Z; [case_bool_decide; by rewrite IH|by rewrite IH]].
  by apply collapse_blanks.
Qed.
End Trailing.

(** ** The pipeline is the composition of its rewrites *)

Definition rewrite_all (s : str) : str := collapse_newline_runs (strip_trailing_line_ws (replace_nbsp_with_space (normalize_line_endings s))).

Lemma rewrite_if_ref needs f cur : (needs (as_ref cur) = false → f (as_ref cur) = as_ref cur) → as_ref (rewrite_if needs f cur) = f (as_ref cur).
Proof. unfold rewrite_if. destruct (needs (as_ref cur)); [done|]. intros H. symmetry. by apply H. Qed.

Lemma chars_subset (s k : str) : Forall is_char s → (∀ c, c ∈ k → c ∈ s ∨ is_char c) → Forall is_char k.
Proof. rewrite !Forall_forall. intros Hs Hk c Hc. destruct (Hk c Hc); [by apply Hs|done]. Qed.

(** Characters stay characters, step by step. *)
Lemma steps_chars s : Forall is_char s → Forall is_char (normalize_line_endings s) ∧ Forall is_char (replace_nbsp_with_space (normalize_line_endings s)) ∧ Forall is_char (strip_trailing_line_ws (replace_nbsp_with_space (normalize_line_endings s))) ∧ Forall is_char (rewrite_all s).
Proof.
  intros H0. assert (is_char 10 ∧ is_char 32) as [H10 H32] by (unfold is_char; lia).
  assert (Forall is_char (normalize_line_endings s)) as H1 by (eapply chars_subset; [exact H0|]; intros c [| ->]%(proj2 (normalize_spec s)); tauto).
  assert (Forall is_char (replace_nbsp_with_space (normalize_line_endings s))) as H2 by (eapply chars_subset; [exact H1|]; intros c [| ->]%(proj2 (replace_spec _)); tauto).
  assert (Forall is_char (strip_trailing_line_ws (replace_nbsp_with_space (normalize_line_endings s)))) as H3 by (eapply chars_subset; [exact H2|]; intros c Hc%(proj2 (strip_spec _ [] (Forall_nil_2 _))); tauto).
  split_and!; [done..|]. eapply chars_subset; [exact H3|]. intros c Hc%collapse_elem. by left.
Qed.

Lemma steps_id s : Forall is_char s → (needs_line_ending_normalize s = false → normalize_line_endings s = s) ∧ (needs_nbsp_replace s = false → replace_nbsp_with_space s = s) ∧
  (needs_trailing_ws_strip s = false → strip_trailing_line_ws s = s) ∧ (needs_newline_collapse s = false → collapse_newline_runs s = s).
Proof.
  intros Hs. destruct (scans s Hs) as (-> & -> & -> & ->). split_and!; [intros H%bool_decide_eq_false; by apply normalize_id|intros H%bool_decide_eq_false; by apply replace_id|intros H; by apply strip_id|apply collapse_id].
Qed.

Lemma pipeline_exact s : Forall is_char s → as_ref (normalize_prompt_with s true) = rewrite_all s.
Proof.
  intros H0. destruct (steps_chars s H0) as (H1 & H2 & H3 & _). unfold normalize_prompt_with, rewrite_all. cbn [negb].
  assert (as_ref (rewrite_if needs_line_ending_normalize normalize_line_endings (Borrowed s)) = normalize_line_endings s) as E1 by (apply rewrite_if_ref, (steps_id s H0)). set (c1 := rewrite_if _ _ (Borrowed s)) in *.
  assert (as_ref (rewrite_if needs_nbsp_replace replace_nbsp_with_space c1) = replace_nbsp_with_space (normalize_line_endings s)) as E2 by (rewrite rewrite_if_ref; rewrite E1; [done|apply (steps_id _ H1)]). set (c2 := rewrite_if _ _ c1) in *.
  assert (as_ref (rewrite_if needs_trailing_ws_strip strip_trailing_line_ws c2) = strip_trailing_line_ws (replace_nbsp_with_space (normalize_line_endings s))) as E3 by (rewrite rewrite_if_ref; rewrite E2; [done|apply (steps_id _ H2)]). set (c3 := rewrite_if _ _ c2) in *.
  rewrite rewrite_if_ref; rewrite E3; [done|apply (steps_id _ H3)].
Qed.

(** Nothing is left to rewrite. *)
Definition clean_prompt (s : str) : Prop := needs_line_ending_normalize s = false ∧ needs_nbsp_replace s = false ∧ needs_trailing_ws_strip s = false ∧ needs_newline_collapse s = false.

Lemma rewrite_all_clean s : Forall is_char s → clean_prompt (rewrite_all s).
Proof.
  intros H0. destruct (steps_chars s H0) as (_ & _ & _ & H4). unfold clean_prompt. destruct (scans _ H4) as (-> & -> & -> & ->). rewrite !bool_decide_eq_false. unfold rewrite_all, collapse_newline_runs, strip_trailing_line_ws.
  destruct (normalize_spec s) as [N1 N2]. set (s1 := normalize_line_endings s) in *. destruct (replace_spec s1) as [R1 R2]. set (s2 := replace_nbsp_with_space s1) in *. destruct (strip_spec s2 [] (Forall_nil_2 _)) as [S1 S2]. cbn [app] in S2. split_and!.
  - intros [H|H]%collapse_elem%S2%R2; [done|discriminate].
  - intros H%collapse_elem%S2. done.
  - pose proof (collapse_pairs (strip [] s2) 0 0%Z ltac:(lia)) as Hp. rewrite !has_pair_cons, S1, orb_false_r in Hp. apply orb_false_iff in Hp as [_ Hp]; [done|]. by destruct (strip [] s2).
  - apply (collapse_runs _ 0).
Qed.

Lemma clean_borrowed s : clean_prompt s → normalize_prompt_with s true = Borrowed s.
Proof. intros (H1 & H2 & H3 & H4). unfold normalize_prompt_with, rewrite_if. cbn [negb as_ref]. rewrite H1. cbn [as_ref]. rewrite H2. cbn [as_ref]. rewrite H3. cbn [as_ref]. by rewrite H4. Qed.

Lemma borrowed_only_clean s : normalize_prompt_with s true = Borrowed (as_ref (normalize_prompt_with s true)) → clean_prompt s.
Proof.
  unfold normalize_prompt_with, rewrite_if. cbn [negb as_ref]. destruct (needs_line_ending_normalize s) eqn:H1; [repeat case_match; done|]. cbn [as_ref]. destruct (needs_nbsp_replace s) eqn:H2; [repeat case_match; done|]. cbn [as_ref].
  destruct (needs_trailing_ws_strip s) eqn:H3; [repeat case_match; done|]. cbn [as_ref]. by destruct (needs_newline_collapse s) eqn:H4.
Qed.

(** C38: the guarded pipeline gives the composition of its four rewrites, although the
    guards scan bytes; the result has nothing left to rewrite, so a second pass borrows
    it; a prompt is borrowed if and only if it is unchanged; visible characters are all
    kept in order; and the blanks at the end of a completion prompt survive. The example
    of the doc comment comes out differently from what it says. *)
Theorem prompt_normalization_exact s p : Forall is_char s → Forall (λ c, line_blank c = true) p →
  let r := as_ref (normalize_prompt_with s true) in
  r = rewrite_all s ∧ clean_prompt r ∧ normalize_prompt_with r true = Borrowed r ∧ (normalize_prompt_with s true = Borrowed r ↔ r = s) ∧
  visible r = visible s ∧ as_ref (normalize_prompt_with (s ++ p) true) = r ++ p ∧ normalize_prompt_with s false = Borrowed s ∧
  as_ref (normalize_prompt_with ((lit "a   ") ++ [10; 10] ++ (lit "   ") ++ [10] ++ lit "   b") true)%Z = (lit "a" ++ [10; 10] ++ lit "   b")%Z.
Proof.
  intros Hs Hp r. assert (r = rewrite_all s) as Hr by by apply pipeline_exact. pose proof (rewrite_all_clean s Hs) as Hc. rewrite <- Hr in Hc. split_and!; [done|done|by apply clean_borrowed| | | |done|vm_compute; reflexivity].
  - split; [intros Hb%borrowed_only_clean; unfold r; by rewrite (clean_borrowed s Hb)|intros Heq]. rewrite Heq in Hc |- *. by apply clean_borrowed.
  - rewrite Hr. unfold rewrite_all, collapse_newline_runs, strip_trailing_line_ws. by rewrite collapse_visible, strip_visible, replace_visible, normalize_visible.
  - rewrite pipeline_exact, Hr; [|apply Forall_app; split; [done|]; eapply Forall_impl; [exact Hp|]; intros c [->%Z.eqb_eq| ->%Z.eqb_eq]%orb_true_iff; unfold is_char; lia].
    unfold rewrite_all, collapse_newline_runs, strip_trailing_line_ws. by rewrite normalize_trailing, replace_trailing, strip_trailing, collapse_trailing.
Qed.

Lemma prompt_normalization_exact_witness : let s := (lit "x  " ++ [13; 10; 13; 10; 10; NBSP])%Z in let p := lit "  " in
  let r := as_ref (normalize_prompt_with s true) in
  r = rewrite_all s ∧ clean_prompt r ∧ normalize_prompt_with r true = Borrowed r ∧ (normalize_prompt_with s true = Borrowed r ↔ r = s) ∧
  visible r = visible s ∧ as_ref (normalize_prompt_with (s ++ p) true) = r ++ p ∧ normalize_prompt_with s false = Borrowed s ∧
  as_ref (normalize_prompt_with ((lit "a   ") ++ [10; 10] ++ (lit "   ") ++ [10] ++ lit "   b") true)%Z = (lit "a" ++ [10; 10] ++ lit "   b")%Z.
Proof.
  intros s p. apply (prompt_normalization_exact s p); [|repeat constructor]. apply (bool_decide_unpack _). vm_compute. exact I.
Defined.

(** ** Merge ranks *)

Inductive HeatClass : Type := Base | Hot | Warm | Cold | Frozen | Unknown.
Definition from_rank (rank : option nat) : HeatClass :=
  match rank with
  | None => Unknown
  | Some 0 => Base
  | Some r => if (Z.of_nat r <? 1000)%Z then Hot else if (Z.of_nat r <? 10000)%Z then Warm else if (Z.of_nat r <? 100000)%Z then Cold else Frozen
  end.

(** [build_merge_rank_table] *)
Definition build_merge_rank_table (t : Tokenizer) : gmap Z nat :=
  foldl (λ out e, match out !! e.2 with Some _ => out | None => <[e.2 := e.1]> out end) ∅ (enumerate (merges t)).
(** [merge_rank] *)
Definition merge_rank (t : Tokenizer) (id : Z) : option nat :=
  s ← vocab t !! Z.to_nat id;
  if bool_decide (str_len s ≤ 1) then Some 0 else fst <$> list_find (λ m, m = id) (merges t).
(** [token_rank_of] *)
Definition token_rank_of (t : Tokenizer) (id : Z) (table : gmap Z nat) : option nat :=
  match table !! id with
  | Some r => Some r
  | None => s ← vocab t !! Z.to_nat id; if bool_decide (str_len s ≤ 1) then Some 0 else None
  end.

Lemma rank_table_lookup t id : build_merge_rank_table t !! id = fst <$> list_find (λ m, m = id) (merges t).
Proof.
  unfold build_merge_rank_table. generalize (merges t) as l. induction l as [|m l IH] using rev_ind; [done|]. unfold enumerate in *. rewrite imap_app, foldl_app. cbn [imap foldl fst snd]. rewrite Nat.add_0_r. set (table := foldl _ ∅ _) in *.
  destruct (list_find (λ m, m = id) l) as [[i x]|] eqn:Hf.
  - rewrite (list_find_app_l _ l [m] i x Hf). cbn in *. case_match; [done|]. destruct (decide (m = id)) as [->|]; [congruence|by rewrite lookup_insert_ne].
  - rewrite list_find_app_r by done. cbn in *. destruct (decide (m = id)) as [->|Hne]; [rewrite IH; rewrite lookup_insert_eq; cbn; done|]. case_match; [done|by rewrite lookup_insert_ne].
Qed.

(** The cached table and the linear scan give the same rank to every token of more than
    one byte. *)
Lemma cached_rank_exact t id s : vocab t !! Z.to_nat id = Some s → 1 < str_len s → token_rank_of t id (build_merge_rank_table t) = merge_rank t id.
Proof. intros Hs Hl. unfold token_rank_of, merge_rank. rewrite rank_table_lookup, Hs. cbn. rewrite bool_decide_eq_false_2 by lia. by destruct (fst <$> _). Qed.
