(* ===== verification/Reap.v ===== *)
(** Expert pruning (src/crates/hipfire-reap).

    A plan beside a mixture-of-experts model says which routed experts of each layer are
    kept, in which order, and which tensors are quantised differently. Plans are read from
    [reap_plan.json] or from the older [keep_by_layer.json] and checked against the model;
    loaders then gather the rows of the kept experts from per-expert tensors.

    Proved here: a plan that loads is usable (rows of one length, distinct experts of the
    model, overrides inside the model), so that gathering never fails and puts the row of
    the right expert into each slot; and two documents that are not treated as the code
    means to. The file system, the configuration and the JSON parser are parameters. *)

From stdpp Require Import pretty.
From S2P Require Import Prelude Utf8 Text.

(** ** Plans *)

Inductive Role : Type := RoutedExperts | SharedExpert | Attention | Router | LmHead | Embed.
#[export] Instance Role_eq_dec : EqDecision Role.
Proof. solve_decision. Defined.

Inductive ReapError : Type :=
| UnknownRole (s : str)
| ReadFailed (file : string)
| ParseFailed (file : string)
| OriginalExperts (found expected : Z)
| NumLayers (found expected : Z)
| KeepLayers (found expected : Z)
| KeepsNone
| KeepNotArray (l : nat)
| KeepLength (l : nat) (found expected : Z)
| KeepNonInteger (l : nat)
| KeepRange (l : nat) (idx original : Z)
| KeepDuplicate (l : nat) (idx : Z)
| MissingLayer (i : nat)
| LayerRange (i : nat) (layer num_layers : Z)
| MissingRole (i : nat)
| ExpertNonInteger (i j : nat)
| ExpertRange (i : nat) (n original : Z)
| ExpertsOnRole (i : nat)
| TensorNotString (i j : nat)
| TensorEmpty (i j : nat)
| TensorLayer (i : nat) (name : str) (layer : Z)
| TensorDuplicate (i : nat) (name : str)
| MissingTier (i : nat)
| MissingKept
| MissingKeep
| DenseCheckpoint
| RowsDontDivide (rows len : Z)
| KeepRow (oe rows : Z).

Record QuantOverride := mkQuantOverride {
  ov_layer : Z;
  ov_role : Role;
  ov_experts : list Z;
  ov_tensors : list str;
  ov_tier : str }.

Record ReapPlan := mkReapPlan {
  model_arch : option str;
  num_layers : Z;
  original_experts : Z;
  rp_keep : option (list (list Z));
  quant_overrides : list QuantOverride;
  rp_dir : str }.

(** [Role::parse] *)
Definition Role_parse (s : str) : result ReapError Role :=
  if bool_decide (s = lit "routed_experts") then Ok RoutedExperts
  else if bool_decide (s = lit "shared_expert") then Ok SharedExpert
  else if bool_decide (s = lit "attention") then Ok Attention
  else if bool_decide (s = lit "router") then Ok Router
  else if bool_decide (s = lit "lm_head") then Ok LmHead
  else if bool_decide (s = lit "embed") then Ok Embed
  else Err (UnknownRole s).

(** [ReapPlan::kept_per_layer] *)
Definition kept_per_layer (p : ReapPlan) : Z :=
  match rp_keep p with
  | Some k => match k with r :: _ => Z.of_nat (length r) | [] => 0 end
  | None => original_experts p
  end.

(** ** Reading a plan *)

(** One index of a row; the set [seen] holds what was pushed. *)
Definition keep_index (l : nat) (original : Z) (v32 : list Z) (x : Value) : result ReapError (list Z) :=
  n ← ok_or (KeepNonInteger l) (as_u64 x);
  let idx := wrap32 n in
  err_if (original <=? idx)%Z (KeepRange l idx original) ;;
  err_if (bool_decide (idx ∈ v32)) (KeepDuplicate l idx) ;;
  Ok (v32 ++ [idx]).
(** One layer. *)
Definition keep_row (kept original : Z) (row : nat * Value) : result ReapError (list Z) :=
  let '(l, row) := row in
  r ← ok_or (KeepNotArray l) (as_array row);
  err_if (negb (Z.of_nat (length r) =? kept)%Z) (KeepLength l (Z.of_nat (length r)) kept) ;;
  try_fold (keep_index l original) [] r.

(** [keep.per_layer] *)
Definition parse_keep (v : Value) (layers original : Z) : result ReapError (option (list (list Z))) :=
  match as_array (json_index (json_index v (lit "keep")) (lit "per_layer")) with
  | None => Ok None
  | Some arr =>
      err_if (negb (Z.of_nat (length arr) =? layers)%Z) (KeepLayers (Z.of_nat (length arr)) layers) ;;
      let kept := match head arr ≫= as_array with Some r => Z.of_nat (length r) | None => 0%Z end in
      err_if (kept =? 0)%Z KeepsNone ;;
      rows ← try_map (keep_row kept original) (enumerate arr);
      Ok (Some rows)
  end.

(** [format!("layers.{layer}.")] *)
Definition layer_tok (layer : Z) : str := lit ("layers." +:+ pretty (Z.to_N layer) +:+ ".").
Definition global_role (role : Role) : bool := bool_decide (role = LmHead) || bool_decide (role = Embed).

Definition override_expert (i : nat) (original : Z) (e : nat * Value) : result ReapError Z :=
  n ← ok_or (ExpertNonInteger i e.1) (as_u64 e.2);
  let n := wrap32 n in
  err_if (original <=? n)%Z (ExpertRange i n original) ;;
  Ok n.
Definition override_tensor (i : nat) (layer : Z) (role : Role) (seen : list str) (e : nat * Value) : result ReapError (list str) :=
  name ← ok_or (TensorNotString i e.1) (as_str e.2);
  err_if (bool_decide (name = [])) (TensorEmpty i e.1) ;;
  err_if (negb (global_role role) && negb (contains name (layer_tok layer))) (TensorLayer i name layer) ;;
  err_if (bool_decide (name ∈ seen)) (TensorDuplicate i name) ;;
  Ok (seen ++ [name]).
(** One entry of [quant_overrides]. *)
Definition parse_override (layers original : Z) (e : nat * Value) : result ReapError QuantOverride :=
  let '(i, o) := e in
  layer ← ok_or (MissingLayer i) (as_u64 (json_index o (lit "layer")));
  err_if (layers <=? layer)%Z (LayerRange i layer layers) ;;
  role_str ← ok_or (MissingRole i) (as_str (json_index o (lit "role")));
  role ← Role_parse role_str;
  experts ← match as_array (json_index o (lit "experts")) with Some a => try_map (override_expert i original) (enumerate a) | None => Ok [] end;
  err_if (negb (bool_decide (experts = [])) && negb (bool_decide (role = RoutedExperts))) (ExpertsOnRole i) ;;
  tensors ← match as_array (json_index o (lit "tensors")) with Some a => try_fold (override_tensor i layer role) [] (enumerate a) | None => Ok [] end;
  tier ← ok_or (MissingTier i) (as_str (json_index o (lit "tier")));
  Ok (mkQuantOverride layer role experts tensors tier).

(** [ReapPlan::parse_value] *)
Definition parse_value (v : Value) (dir : str) : result ReapError ReapPlan :=
  let original := default 0%Z (as_u64 (json_index v (lit "original_experts"))) in
  let layers := default 0%Z (as_u64 (json_index v (lit "num_layers"))) in
  keep ← parse_keep v layers original;
  overrides ← match as_array (json_index v (lit "quant_overrides")) with Some arr => try_map (parse_override layers original) (enumerate arr) | None => Ok [] end;
  Ok (mkReapPlan (as_str (json_index v (lit "model_arch"))) layers original keep overrides dir).

Section Load.
(** The files of a plan directory, [serde_json::from_str], and the configuration. *)
Context (read_to_string : str → string → option str) (exists_file : str → string → bool) (parse_json : str → option Value).
Context (developer_var : string → option str).

(** [ReapPlan::read_plan_value] *)
Definition read_plan_value (dir : str) : result ReapError Value :=
  txt ← ok_or (ReadFailed "reap_plan.json") (read_to_string dir "reap_plan.json");
  ok_or (ParseFailed "reap_plan.json") (parse_json txt).

(** [v[key] = json!(expected)] when the count is absent. *)
Definition restore_count (v : Value) (key : string) (expected : Z) : result ReapError Value :=
  match as_u64 (json_index v (lit key)) with Some _ => Ok v | None => json_set v (lit key) (VUint expected) end.

(** [ReapPlan::load] *)
Definition load (dir : str) (num_layers_expected orig_experts_expected : Z) : result ReapError ReapPlan :=
  v ← read_plan_value dir;
  let original := default orig_experts_expected (as_u64 (json_index v (lit "original_experts"))) in
  err_if (negb (original =? orig_experts_expected)%Z) (OriginalExperts original orig_experts_expected) ;;
  let layers := default num_layers_expected (as_u64 (json_index v (lit "num_layers"))) in
  err_if (negb (layers =? num_layers_expected)%Z) (NumLayers layers num_layers_expected) ;;
  v ← restore_count v "original_experts" orig_experts_expected;
  v ← restore_count v "num_layers" num_layers_expected;
  parse_value v dir.

(** [ReapPlan::load_unchecked] *)
Definition load_unchecked (dir : str) : result ReapError ReapPlan := v ← read_plan_value dir; parse_value v dir.

(** [ReapPlan::load_legacy_keepmap] *)
Definition load_legacy_keepmap (dir : str) (num_layers_expected orig_experts_expected : Z) : result ReapError ReapPlan :=
  txt ← ok_or (ReadFailed "keep_by_layer.json") (read_to_string dir "keep_by_layer.json");
  v ← ok_or (ParseFailed "keep_by_layer.json") (parse_json txt);
  kept ← ok_or MissingKept (as_u64 (json_index v (lit "kept_per_layer")));
  err_if (kept =? 0)%Z KeepsNone ;;
  let original := default orig_experts_expected (as_u64 (json_index v (lit "original_experts"))) in
  err_if (negb (original =? orig_experts_expected)%Z) (OriginalExperts original orig_experts_expected) ;;
  keep_arr ← ok_or MissingKeep (as_array (json_index v (lit "keep")));
  err_if (negb (Z.of_nat (length keep_arr) =? num_layers_expected)%Z) (KeepLayers (Z.of_nat (length keep_arr)) num_layers_expected) ;;
  keep ← try_map (keep_row kept original) (enumerate keep_arr);
  Ok (mkReapPlan None num_layers_expected original (Some keep) [] dir).

(** [ReapPlan::load_any] *)
Definition load_any (dir : str) (num_layers_expected orig_experts_expected : Z) : result ReapError ReapPlan :=
  if exists_file dir "reap_plan.json" then load dir num_layers_expected orig_experts_expected
  else load_legacy_keepmap dir num_layers_expected orig_experts_expected.

(** [ReapPlan::from_config] *)
Definition from_config (legacy_alias_env : option string) (layers orig_experts : Z) : result ReapError (option ReapPlan) :=
  match (match developer_var "HIPFIRE_REAP_PLAN" with Some d => Some d | None => legacy_alias_env ≫= developer_var end) with
  | None => Ok None
  | Some dir =>
      err_if (orig_experts =? 0)%Z DenseCheckpoint ;;
      plan ← load_any dir layers orig_experts;
      Ok (Some plan)
  end.
End Load.

(** ** Using a plan *)

(** [ExpertPlan] *)
Record ExpertPlan := mkExpertPlan { ep_keep : option (list Z) }.
(** [ReapPlan::expert_plan]; the layer is an index. *)
Definition expert_plan (p : ReapPlan) (layer : nat) : result ReapError ExpertPlan :=
  match rp_keep p with Some k => row ← index k layer; Ok (mkExpertPlan (Some row)) | None => Ok (mkExpertPlan None) end.
(** [ExpertPlan::src], [ExpertPlan::n_slots] *)
Definition src (ep : ExpertPlan) (slot : nat) : result ReapError Z :=
  match ep_keep ep with Some k => index k slot | None => Ok (Z.of_nat slot) end.
Definition n_slots (ep : ExpertPlan) (full : Z) : Z := match ep_keep ep with Some k => Z.of_nat (length k) | None => full end.

(** [&bytes[a..b]] *)
Definition byte_range (bytes : list Z) (a b : Z) : result ReapError (list Z) :=
  if ((a <=? b) && (b <=? Z.of_nat (length bytes)))%Z then Ok (take (Z.to_nat (b - a)) (drop (Z.to_nat a) bytes)) else Panic.

(** [gather_rows] *)
Definition gather_row (bytes : list Z) (orig_rows rowstride : Z) (out : list Z) (oe : Z) : result ReapError (list Z) :=
  err_if (orig_rows <=? oe)%Z (KeepRow oe orig_rows) ;;
  row ← byte_range bytes (oe * rowstride) ((oe + 1) * rowstride);
  Ok (out ++ row).
Definition gather_rows (shape bytes keep : list Z) : result ReapError (list Z * list Z) :=
  let orig_rows := default 0%Z (head shape) in
  let len := Z.of_nat (length bytes) in
  err_if ((orig_rows =? 0) || negb (len `mod` orig_rows =? 0))%Z (RowsDontDivide orig_rows len) ;;
  let rowstride := (len / orig_rows)%Z in
  out ← try_fold (gather_row bytes orig_rows rowstride) [] keep;
  new_shape ← store shape 0 (Z.of_nat (length keep));
  Ok (new_shape, out).

(** [gather_weight_rows], from the tensor the file has under the name. *)
Definition gather_weight_rows (tensor : option (list Z * Z * list Z)) (missing : ReapError) (keep : list Z) : result ReapError (Z * list Z) :=
  '(shape, quant_type, data) ← ok_or missing tensor;
  let orig := default 0%Z (head shape) in
  '(_, sub) ← gather_rows [orig] data keep;
  Ok (quant_type, sub).

(** ** What loading establishes *)

Definition row_ok (kept original : Z) (row : list Z) : Prop := Z.of_nat (length row) = kept ∧ NoDup row ∧ Forall (λ e, 0 ≤ e < original)%Z row.
Definition override_ok (layers original : Z) (ov : QuantOverride) : Prop :=
  (ov_layer ov < layers)%Z ∧ Forall (λ e, 0 ≤ e < original)%Z (ov_experts ov) ∧ (ov_experts ov = [] ∨ ov_role ov = RoutedExperts) ∧ NoDup (ov_tensors ov) ∧
  ∀ name, name ∈ ov_tensors ov → name ≠ [] ∧ (global_role (ov_role ov) = true ∨ contains name (layer_tok (ov_layer ov)) = true).
(** A usable plan: one row of distinct experts of the model per layer, all of the length
    that becomes the expert count; overrides inside the model. *)
Record plan_wf (p : ReapPlan) : Prop := {
  pw_keep rows : rp_keep p = Some rows → Z.of_nat (length rows) = num_layers p ∧ Forall (row_ok (kept_per_layer p) (original_experts p)) rows;
  pw_overrides : Forall (override_ok (num_layers p) (original_experts p)) (quant_overrides p) }.

Lemma wrap32_pos n : (0 ≤ wrap32 n)%Z.
Proof. unfold wrap32. apply Z.mod_pos_bound. lia. Qed.

Lemma keep_row_ok kept original lr row : keep_row kept original lr = Ok row → row_ok kept original row.
Proof.
  destruct lr as [l v]. unfold keep_row. intros (r & _ & (u & Hl%err_if_Ok & Hf)%bind_Ok)%bind_Ok. apply negb_false_iff, Z.eqb_eq in Hl.
  refine (_ (try_fold_inv (E := ReapError) (λ done v32, length v32 = length done ∧ NoDup v32 ∧ Forall (λ e, 0 ≤ e < original)%Z v32) (keep_index l original) r [] [] row _ _ Hf)).
  - intros (Hlen & Hnd & Hall). split_and!; [cbn in Hlen; lia|done..].
  - split_and!; [done|constructor..].
  - intros d x rest acc acc' _ (Hlen & Hnd & Hall) (n & _ & (u1 & Hr%err_if_Ok & (u2 & Hd%err_if_Ok & [= <-])%bind_Ok)%bind_Ok)%bind_Ok. apply Z.leb_gt in Hr. apply bool_decide_eq_false in Hd. rewrite !length_app. split_and!; [cbn; lia| |].
    + apply NoDup_app. split_and!; [done|set_solver|apply NoDup_singleton].
    + apply Forall_app. split; [done|]. repeat constructor; [apply wrap32_pos|done].
Qed.

Lemma keep_rows_ok kept original arr rows : try_map (keep_row kept original) (enumerate arr) = Ok rows → length rows = length arr ∧ Forall (row_ok kept original) rows.
Proof.
  intros Hall%try_map_Ok. split; [apply Forall2_length in Hall; by rewrite length_enumerate in Hall|]. apply Forall_lookup. intros i row Hi. destruct (Forall2_lookup_r _ _ _ _ _ Hall Hi) as (lr & _ & Hr). by eapply keep_row_ok.
Qed.

(** Rows that all have the length of the first. *)
Lemma kept_first rows kept original p : rp_keep p = Some rows → original_experts p = original → Forall (row_ok kept original) rows → Forall (row_ok (kept_per_layer p) (original_experts p)) rows.
Proof. intros Hk -> Hall. unfold kept_per_layer. rewrite Hk. destruct Hall as [|row rows [Hl Hr] Hrows]; [constructor|]. rewrite Hl. by constructor. Qed.

Lemma parse_keep_ok v layers original rows : parse_keep v layers original = Ok (Some rows) → Z.of_nat (length rows) = layers ∧ ∃ kept, Forall (row_ok kept original) rows.
Proof.
  unfold parse_keep. destruct (as_array _) as [arr|]; [|done]. intros (u & Hl%err_if_Ok & (u' & _ & (rows' & Hr & [= ->])%bind_Ok)%bind_Ok)%bind_Ok. apply negb_false_iff, Z.eqb_eq in Hl. destruct (keep_rows_ok _ _ _ _ Hr) as [-> Hall]. split; [done|]. by eexists.
Qed.

Lemma parse_override_ok layers original e ov : parse_override layers original e = Ok ov → override_ok layers original ov.
Proof.
  destruct e as [i o]. unfold parse_override. intros (layer & _ & (u & Hl%err_if_Ok & (rs & _ & (role & _ & (experts & He & (u' & Hr%err_if_Ok & (tensors & Ht & (tier & _ & [= <-])%bind_Ok)%bind_Ok)%bind_Ok)%bind_Ok)%bind_Ok)%bind_Ok)%bind_Ok)%bind_Ok.
  apply Z.leb_gt in Hl. split_and!; cbn [ov_layer ov_experts ov_role ov_tensors]; [done| | | |].
  - destruct (as_array (json_index o (lit "experts"))) as [a|]; [|injection He as <-; constructor]. apply try_map_Ok in He. apply Forall_lookup. intros k n Hk. destruct (Forall2_lookup_r _ _ _ _ _ He Hk) as (x & _ & (m & _ & (u1 & Hn%err_if_Ok & [= <-])%bind_Ok)%bind_Ok). apply Z.leb_gt in Hn. split; [apply wrap32_pos|done].
  - apply andb_false_iff in Hr as [Hr|Hr]; apply negb_false_iff, bool_decide_eq_true in Hr; tauto.
  - destruct (as_array (json_index o (lit "tensors"))) as [a|]; [|injection Ht as <-; constructor]. eapply (try_fold_inv (E := ReapError) (λ _ seen, NoDup seen) _ _ []); [constructor| |exact Ht].
    intros d x rest acc acc' _ Hnd (name & _ & (u1 & _ & (u2 & _ & (u3 & Hd%err_if_Ok & [= <-])%bind_Ok)%bind_Ok)%bind_Ok)%bind_Ok. apply bool_decide_eq_false in Hd. apply NoDup_app. split_and!; [done|set_solver|apply NoDup_singleton].
  - destruct (as_array (json_index o (lit "tensors"))) as [a|]; [|injection Ht as <-; by intros name ?%not_elem_of_nil]. eapply (try_fold_inv (E := ReapError) (λ _ seen, ∀ name, name ∈ seen → name ≠ [] ∧ (global_role role = true ∨ contains name (layer_tok layer) = true)) _ _ []); [by intros name ?%not_elem_of_nil| |exact Ht].
    intros d x rest acc acc' _ Hin (name & _ & (u1 & Hne%err_if_Ok & (u2 & Hc%err_if_Ok & (u3 & _ & [= <-])%bind_Ok)%bind_Ok)%bind_Ok)%bind_Ok. apply bool_decide_eq_false in Hne. intros name' [| ->%list_elem_of_singleton]%elem_of_app; [by apply Hin|]. split; [done|]. apply andb_false_iff in Hc as [Hc|Hc]; apply negb_false_iff in Hc; tauto.
Qed.

Lemma parse_value_ok v dir p : parse_value v dir = Ok p → plan_wf p ∧ original_experts p = default 0%Z (as_u64 (json_index v (lit "original_experts"))) ∧ num_layers p = default 0%Z (as_u64 (json_index v (lit "num_layers"))).
Proof.
  unfold parse_value. intros (keep & Hk & (ovs & Ho & [= <-])%bind_Ok)%bind_Ok. split; [|done]. split; cbn [rp_keep quant_overrides num_layers original_experts].
  - intros rows ->. destruct (parse_keep_ok _ _ _ _ Hk) as [Hl [kept Hall]]. split; [done|]. by eapply kept_first.
  - destruct (as_array (json_index v (lit "quant_overrides"))) as [arr|]; [|injection Ho as <-; constructor]. apply try_map_Ok in Ho. apply Forall_lookup. intros i ov Hi. destruct (Forall2_lookup_r _ _ _ _ _ Ho Hi) as (e & _ & He). by eapply parse_override_ok.
Qed.

(** ** Keys of a document *)

Lemma json_get_cons e m k : json_get (VObject (e :: m)) k = if decide (e.1 = k) then Some e.2 else json_get (VObject m) k.
Proof. cbn. destruct (decide (e.1 = k)); [done|]. by destruct (list_find _ m) as [[]|]. Qed.

Definition replace_key (k : str) (x : Value) (e : str * Value) : str * Value := if bool_decide (e.1 = k) then (k, x) else e.
Lemma replace_key_same k x m : is_Some (json_get (VObject m) k) → json_get (VObject (replace_key k x <$> m)) k = Some x.
Proof.
  induction m as [|e m IH]; [by intros []|]. rewrite fmap_cons, !json_get_cons. assert (replace_key k x e = if decide (e.1 = k) then (k, x) else e) as -> by (unfold replace_key; by case_bool_decide; destruct (decide (e.1 = k))).
  destruct (decide (e.1 = k)) as [He|He]; cbn [fst snd]; [by rewrite decide_True|]. by rewrite decide_False.
Qed.
Lemma replace_key_other k x m k' : k' ≠ k → json_get (VObject (replace_key k x <$> m)) k' = json_get (VObject m) k'.
Proof.
  intros Hne. induction m as [|e m IH]; [done|]. rewrite fmap_cons, !json_get_cons, IH. unfold replace_key. case_bool_decide as He; [|done]. cbn [fst snd]. by rewrite !decide_False by congruence.
Qed.
Lemma append_key m k x k' : json_get (VObject m) k = None → json_get (VObject (m ++ [(k, x)])) k' = if decide (k = k') then Some x else json_get (VObject m) k'.
Proof.
  induction m as [|e m IH]; intros Hn; cbn [app]; [by rewrite json_get_cons|]. rewrite json_get_cons in Hn. rewrite !json_get_cons. destruct (decide (e.1 = k)); [done|]. rewrite IH by done. by destruct (decide (e.1 = k')), (decide (k = k')); congruence.
Qed.

Lemma json_set_get {E} v k x v' : json_set (E := E) v k x = Ok v' → json_get v' k = Some x ∧ ∀ k', k' ≠ k → json_get v' k' = json_get v k'.
Proof.
  destruct v as [| | | | | |m]; try done; cbn [json_set].
  - intros [= <-]. rewrite json_get_cons. cbn. rewrite decide_True by done. split; [done|]. intros k' Hne. by rewrite decide_False.
  - case_bool_decide as Hs; intros [= <-]; [split; [by apply replace_key_same|intros; by apply replace_key_other]|]. apply eq_None_not_Some in Hs. split; [by rewrite append_key, decide_True|]. intros k' Hne. by rewrite append_key, decide_False.
Qed.

(** A count that was checked is in the document afterwards. *)
Lemma restore_count_ok v key expected v' : default expected (as_u64 (json_index v (lit key))) = expected → restore_count v key expected = Ok v' →
  as_u64 (json_index v' (lit key)) = Some expected ∧ ∀ k', k' ≠ lit key → json_index v' k' = json_index v k'.
Proof.
  unfold restore_count, json_index. destruct (as_u64 (default VNull (json_get v (lit key)))) as [n|] eqn:Hn; cbn [default from_option id].
  - intros -> [= <-]. by rewrite Hn.
  - intros _ [H1 H2]%json_set_get. rewrite H1. split; [done|]. intros k' Hne. by rewrite H2.
Qed.

(** Literals that differ. *)
Ltac lit_ne := let H := fresh in intros H; vm_compute in H; discriminate H.

Section Loaded.
Context (read_to_string : str → string → option str) (exists_file : str → string → bool) (parse_json : str → option Value).

Lemma load_ok dir layers experts p : load read_to_string parse_json dir layers experts = Ok p → plan_wf p ∧ num_layers p = layers ∧ original_experts p = experts.
Proof.
  unfold load. intros (v & _ & (u1 & H1%err_if_Ok & (u2 & H2%err_if_Ok & (v1 & Hr1 & (v2 & Hr2 & Hp)%bind_Ok)%bind_Ok)%bind_Ok)%bind_Ok)%bind_Ok. apply negb_false_iff, Z.eqb_eq in H1, H2.
  destruct (restore_count_ok _ _ _ _ H1 Hr1) as [E1 O1]. rewrite <- O1 in H2 by lit_ne. destruct (restore_count_ok _ _ _ _ H2 Hr2) as [E2 O2]. destruct (parse_value_ok _ _ _ Hp) as (Hwf & Ho & Hn). rewrite E2 in Hn. rewrite O2, E1 in Ho by lit_ne. done.
Qed.

Lemma load_legacy_ok dir layers experts p : load_legacy_keepmap read_to_string parse_json dir layers experts = Ok p → plan_wf p ∧ num_layers p = layers ∧ original_experts p = experts.
Proof.
  unfold load_legacy_keepmap. intros (txt & _ & (v & _ & (kept & _ & (u1 & _ & (u2 & H2%err_if_Ok & (arr & _ & (u3 & H3%err_if_Ok & (rows & Hr & [= <-])%bind_Ok)%bind_Ok)%bind_Ok)%bind_Ok)%bind_Ok)%bind_Ok)%bind_Ok)%bind_Ok. apply negb_false_iff, Z.eqb_eq in H2, H3.
  destruct (keep_rows_ok _ _ _ _ Hr) as [Hl Hall]. split; [|done]. split; [|constructor]. intros rows' [= <-]. split; [cbn; lia|]. eapply kept_first; [done|reflexivity|exact Hall].
Qed.

Lemma load_any_ok dir layers experts p : load_any read_to_string exists_file parse_json dir layers experts = Ok p → plan_wf p ∧ num_layers p = layers ∧ original_experts p = experts.
Proof. unfold load_any. destruct (exists_file dir "reap_plan.json"); [apply load_ok|apply load_legacy_ok]. Qed.
End Loaded.

(** Distinct numbers below [n] are at most [n]. *)
Lemma distinct_below (row : list Z) n : NoDup row → Forall (λ e, 0 ≤ e < n)%Z row → (Z.of_nat (length row) ≤ Z.max 0 n)%Z.
Proof.
  intros Hnd Hall. assert (length row ≤ length (seqZ 0 n)) as Hle; [|rewrite length_seqZ in Hle; lia]. apply submseteq_length, NoDup_submseteq; [done|]. intros e He. rewrite Forall_forall in Hall. apply elem_of_seqZ. specialize (Hall e He). lia.
Qed.

(** ** Gathering *)

Section Gather.
Context (bytes : list Z) (rows stride : Z) (Hrows : (0 < rows)%Z) (Hlen : Z.of_nat (length bytes) = (rows * stride)%Z).

(** The bytes of one row. *)
Definition row_bytes (data : list Z) (e : nat) : list Z := take (Z.to_nat stride) (drop (e * Z.to_nat stride) data).

Lemma stride_pos : (0 ≤ stride)%Z.
Proof. nia. Qed.

Lemma gather_row_ok out e : (0 ≤ e < rows)%Z → gather_row bytes rows stride out e = Ok (out ++ row_bytes bytes (Z.to_nat e)) ∧ length (row_bytes bytes (Z.to_nat e)) = Z.to_nat stride.
Proof.
  intros He. pose proof stride_pos as Hs. unfold gather_row, byte_range, row_bytes. rewrite (proj2 (Z.leb_gt rows e)) by lia. cbn [err_if mbind result_bind].
  rewrite (proj2 (Z.leb_le (e * stride) ((e + 1) * stride))) by nia. rewrite (proj2 (Z.leb_le ((e + 1) * stride) (Z.of_nat (length bytes)))) by nia. cbn [andb mbind result_bind]. replace ((e + 1) * stride - e * stride)%Z with stride by lia. rewrite Z2Nat.inj_mul by lia. split; [done|].
  rewrite length_take, length_drop. assert (Z.to_nat e * Z.to_nat stride + Z.to_nat stride ≤ length bytes); [|lia]. apply Nat2Z.inj_le. rewrite Nat2Z.inj_add, Nat2Z.inj_mul, !Z2Nat.id by lia. nia.
Qed.

Lemma gather_loop keep : Forall (λ e, 0 ≤ e < rows)%Z keep → ∀ out, ∃ sub, try_fold (gather_row bytes rows stride) out keep = Ok (out ++ sub) ∧ length sub = length keep * Z.to_nat stride ∧
  ∀ slot e, keep !! slot = Some e → row_bytes sub slot = row_bytes bytes (Z.to_nat e).
Proof.
  induction 1 as [|e keep He Hk IH]; intros out; [exists []; by rewrite app_nil_r|]. destruct (gather_row_ok out e He) as [Hg Hl]. cbn [try_fold]. rewrite Hg. cbn [mbind result_bind]. set (row := row_bytes bytes (Z.to_nat e)) in *. destruct (IH (out ++ row)) as (sub & -> & Hsub & Hrow). exists (row ++ sub).
  split; [by rewrite app_assoc|]. split; [rewrite length_app; cbn; lia|]. intros [|slot] e'; cbn [lookup list_lookup].
  - intros [= <-]. unfold row_bytes at 1. cbn [Nat.mul]. rewrite drop_0, take_app_le by lia. by rewrite take_ge by lia.
  - intros Hs. rewrite <- (Hrow slot e' Hs). unfold row_bytes. cbn [Nat.mul]. rewrite <- Hl at 2. by rewrite <- drop_drop, drop_app_length.
Qed.

Lemma gather_rows_ok dims keep : Forall (λ e, 0 ≤ e < rows)%Z keep → ∃ sub, gather_rows (rows :: dims) bytes keep = Ok (Z.of_nat (length keep) :: dims, sub) ∧ length sub = length keep * Z.to_nat stride ∧
  ∀ slot e, keep !! slot = Some e → row_bytes sub slot = row_bytes bytes (Z.to_nat e).
Proof.
  intros Hk. unfold gather_rows. cbn [head default from_option id]. rewrite Hlen, (Z.mul_comm rows stride), Z.mod_mul, Z.div_mul by lia. rewrite (proj2 (Z.eqb_neq rows 0)) by lia. cbn [orb negb Z.eqb err_if mbind result_bind].
  destruct (gather_loop keep Hk []) as (sub & Hf & Hl & Hrow). rewrite Hf. exists sub. done.
Qed.
End Gather.

(** ** Claims *)

Lemma wf_layer p layer rows : plan_wf p → rp_keep p = Some rows → (Z.of_nat layer < num_layers p)%Z → ∃ row, rows !! layer = Some row ∧ row_ok (kept_per_layer p) (original_experts p) row.
Proof.
  intros Hwf Hk Hl. destruct (pw_keep p Hwf rows Hk) as [Hn Hall]. destruct (lookup_lt_is_Some_2 rows layer ltac:(lia)) as [row Hr]. exists row. split; [done|]. rewrite Forall_lookup in Hall. by eapply Hall.
Qed.

(** C39: a plan the configuration names and that loads fits the model: counts agree, each
    layer keeps the same number of distinct experts of the model and no more than it has,
    and overrides stay inside it. Every layer then has a slice whose slots lead to experts
    of the model, and gathering a per-expert tensor never fails and puts into each slot the
    bytes of the expert the slice names. *)
Theorem pruned_model_exact read_to_string exists_file parse_json developer_var alias layers experts p layer : from_config read_to_string exists_file parse_json developer_var alias layers experts = Ok (Some p) → (Z.of_nat layer < layers)%Z →
  plan_wf p ∧ num_layers p = layers ∧ original_experts p = experts ∧ (0 < experts → kept_per_layer p ≤ experts)%Z ∧
  ∃ ep, expert_plan p layer = Ok ep ∧ n_slots ep experts = kept_per_layer p ∧ (∀ slot, (Z.of_nat slot < n_slots ep experts)%Z → ∃ e, src ep slot = Ok e ∧ (0 ≤ e < experts)%Z) ∧
  ∀ k bytes stride dims, ep_keep ep = Some k → (0 < experts)%Z → Z.of_nat (length bytes) = (experts * stride)%Z →
    ∃ sub, gather_rows (experts :: dims) bytes k = Ok (kept_per_layer p :: dims, sub) ∧ ∀ slot e, src ep slot = Ok e → row_bytes stride sub slot = row_bytes stride bytes (Z.to_nat e).
Proof.
  unfold from_config. destruct (match developer_var "HIPFIRE_REAP_PLAN" with Some d => Some d | None => _ end) as [dir|]; [|done]. intros (u & _ & (p' & Hp & [= ->])%bind_Ok)%bind_Ok Hlayer. destruct (load_any_ok _ _ _ _ _ _ _ Hp) as (Hwf & Hn & Ho). split_and!; [done..| |].
  - intros Hpos. destruct (rp_keep p) as [rows|] eqn:Hk; [|unfold kept_per_layer; rewrite Hk; lia]. destruct (wf_layer p layer rows Hwf Hk ltac:(lia)) as (row & _ & Hlen & Hnd & Hall). rewrite <- Hlen. pose proof (distinct_below _ _ Hnd Hall). lia.
  - unfold expert_plan. destruct (rp_keep p) as [rows|] eqn:Hk.
    + destruct (wf_layer p layer rows Hwf Hk ltac:(lia)) as (row & Hr & Hlen & Hnd & Hall). unfold index. rewrite Hr. cbn [mbind result_bind expect]. eexists. split; [reflexivity|]. unfold src, n_slots. cbn [ep_keep]. rewrite Ho in Hall. split; [done|]. split.
      * intros slot Hs. destruct (lookup_lt_is_Some_2 row slot ltac:(lia)) as [e He]. exists e. unfold index. rewrite He. split; [done|]. rewrite Forall_lookup in Hall. by eapply Hall.
      * intros k bytes stride dims [= <-] Hpos Hb. destruct (gather_rows_ok bytes experts stride Hpos Hb dims row Hall) as (sub & Hg & _ & Hrow). exists sub. rewrite Hlen in Hg. split; [done|]. intros slot e He. apply Hrow. unfold index in He. destruct (row !! slot); [by injection He as ->|done].
    + eexists. split; [reflexivity|]. unfold kept_per_layer, src, n_slots. rewrite Hk. cbn [ep_keep]. split; [done|]. split; [|done]. intros slot Hs. exists (Z.of_nat slot). split; [done|lia].
Qed.

Module ReapDemo.
Definition num (n : Z) : Value := VUint n.
(** A plan for one layer of four experts that keeps two, and documents that are no plans. *)
Definition plan_doc (a b : Z) : Value := VObject
  [(lit "num_layers", num 1); (lit "original_experts", num 4); (lit "keep", VObject [(lit "per_layer", VArray [VArray [num a; num b]])]);
   (lit "quant_overrides", VArray [VObject [(lit "layer", num 0); (lit "role", VString (lit "router")); (lit "tensors", VArray [VString (lit "layers.0.gate.weight")]); (lit "tier", VString (lit "q8"))]])].
Definition loaded (a b : Z) : ReapPlan := mkReapPlan None 1 4 (Some [[a; b]]) [mkQuantOverride 0 Router [] [lit "layers.0.gate.weight"] (lit "q8")] [].
Definition file (dir : str) (name : string) : option str := Some [].
Example loads : load file (λ _, Some (plan_doc 2 0)) [] 1 4 = Ok (loaded 2 0) ∧ gather_rows [4; 3]%Z [0; 0; 0; 1; 1; 1; 2; 2; 2; 3; 3; 3]%Z [2; 0; 3]%Z = Ok ([3; 3]%Z, [2; 2; 2; 0; 0; 0; 3; 3; 3]%Z).
Proof. by split; vm_compute. Qed.
End ReapDemo.

Lemma pruned_model_exact_witness : let p := ReapDemo.loaded 2 0 in
  plan_wf p ∧ num_layers p = 1%Z ∧ original_experts p = 4%Z ∧ (0 < 4 → kept_per_layer p ≤ 4)%Z ∧
  ∃ ep, expert_plan p 0 = Ok ep ∧ n_slots ep 4 = kept_per_layer p ∧ (∀ slot, (Z.of_nat slot < n_slots ep 4)%Z → ∃ e, src ep slot = Ok e ∧ (0 ≤ e < 4)%Z) ∧
  ∀ k bytes stride dims, ep_keep ep = Some k → (0 < 4)%Z → Z.of_nat (length bytes) = (4 * stride)%Z →
    ∃ sub, gather_rows (4%Z :: dims) bytes k = Ok (kept_per_layer p :: dims, sub) ∧ ∀ slot e, src ep slot = Ok e → row_bytes stride sub slot = row_bytes stride bytes (Z.to_nat e).
Proof.
  apply (pruned_model_exact ReapDemo.file (λ _ _, true) (λ _, Some (ReapDemo.plan_doc 2 0)) (λ _, Some []) None 1 4 (ReapDemo.loaded 2 0) 0); [vm_compute; reflexivity|lia].
Defined.

(** Two documents that loading does not treat as it means to. A document that is not an
    object is no error but a panic, when the absent counts are restored. And an index is
    cut to 32 bits before its range is checked, so that an index far outside the model
    is taken for one inside it. *)
Example reap_plan_limits :
  load ReapDemo.file (λ _, Some (VArray [])) [] 1 4 = Panic ∧
  load ReapDemo.file (λ _, Some (ReapDemo.plan_doc (2 ^ 32 + 2) 0)) [] 1 4 = Ok (ReapDemo.loaded 2 0).
Proof. by split; vm_compute. Qed.
