(* ===== verification/BlockCtl.v ===== *)
(** The draft-block controller (src/crates/hipfire-runtime/src/dspark_block_controller.rs).

    Chooses how many tokens are drafted per window. A request starts at a default, sweeps
    through all block sizes to measure acceptance and cost, and then stays at the size
    that maximises expected tokens per millisecond. Counts, times and scores are single
    precision, as in the code.

    Proved here: the controller never panics and always asks for a block between its
    bounds, whatever it observes; the sweep visits every size for two windows; and after
    it the block is the default until the cost is known, then the first size of greatest
    score among those tried. *)

From Stdlib Require Import SpecFloat.
From S2P Require Import Prelude F32.

Record BlockController := mkBlockController {
  block : nat;
  default_block : nat;
  min_block : nat;
  max_block : nat;
  max_tried : nat;
  s_hit : list f32;
  s_tot : list f32;
  windows_seen : Z;
  timing_samples : Z;
  t_window_by_n : list f32;
  calibrated : bool;
  dt : f32;
  t_ar : f32;
  cost_ready : bool;
  max_cost_ratio : f32 }.

Definition WARMUP_WINDOWS : Z := 6.
Definition TIMING_WARMUP : Z := 16.
Definition RAMP_HOLD : Z := 2.

Section Controller.
Context {E : Type}.

(** [Ord::clamp] *)
Definition clamp (lo hi x : nat) : result E nat := assert (bool_decide (lo ≤ hi)) ;; Ok (if bool_decide (x < lo) then lo else if bool_decide (hi < x) then hi else x).

(** [BlockController::new] *)
Definition BlockController_new (default min max : nat) (p_star ratio : f32) : result E BlockController :=
  default ← clamp min max default;
  Ok (mkBlockController default default min max default (replicate 9 f32_zero) (replicate 9 f32_zero) 0 0 (replicate 10 f32_zero) false
    (f32_mul p_star (f32_of_Z 100)) (f32_of_Z 100) false ratio).

(** [BlockController::reset] *)
Definition controller_reset (c : BlockController) : BlockController :=
  mkBlockController (default_block c) (default_block c) (min_block c) (max_block c) (default_block c) (replicate 9 f32_zero) (replicate 9 f32_zero) 0
    (timing_samples c) (t_window_by_n c) (calibrated c) (dt c) (t_ar c) (cost_ready c) (max_cost_ratio c).

(** ** Timing *)

Definition f32_eqb (a b : f32) : bool := SFeqb a b.
Definition f32_tenth (n : Z) : f32 := f32_div (f32_of_Z n) (f32_of_Z 10).
(** The moving average of one slot. *)
Definition ema (slot t : f32) : f32 := if f32_eqb slot f32_zero then t else f32_add (f32_mul (f32_tenth 7) slot) (f32_mul (f32_tenth 3) t).
Definition record_time (c : BlockController) (t : f32) (n : nat) : result E (list f32) :=
  if bool_decide (2 ≤ n < 10) && f32_lt f32_zero t then slot ← index (t_window_by_n c) n; store (t_window_by_n c) n (ema slot t) else Ok (t_window_by_n c).

(** [range.find(|&n| self.t_window_by_n[n] > 0.0)] *)
Fixpoint find_timed (times : list f32) (slots : list nat) : result E (option nat) :=
  match slots with
  | [] => Ok None
  | n :: slots => t ← index times n; if f32_lt f32_zero t then Ok (Some n) else find_timed times slots
  end.

(** The line through the two outermost measured points. *)
Definition fit (c : BlockController) (n_lo n_hi : nat) (t_lo t_hi : f32) : BlockController :=
  let slope := f32_div (f32_sub t_hi t_lo) (f32_of_Z (Z.of_nat (n_hi - n_lo))) in
  let d := f32_max slope f32_zero in
  let a := f32_sub t_lo (f32_mul d (f32_sub (f32_of_Z (Z.of_nat n_lo)) f32_one)) in
  if f32_lt f32_zero a && f32_le (f32_div d a) (max_cost_ratio c) then
    mkBlockController (block c) (default_block c) (min_block c) (max_block c) (max_tried c) (s_hit c) (s_tot c) (windows_seen c) (timing_samples c) (t_window_by_n c) true d a true (max_cost_ratio c)
  else c.

Definition with_times (c : BlockController) (samples : Z) (times : list f32) : BlockController :=
  mkBlockController (block c) (default_block c) (min_block c) (max_block c) (max_tried c) (s_hit c) (s_tot c) (windows_seen c) samples times (calibrated c) (dt c) (t_ar c) (cost_ready c) (max_cost_ratio c).

(** [BlockController::observe_timing] *)
Definition observe_timing (c : BlockController) (t_window_ms : f32) (n_verify : nat) : result E BlockController :=
  times ← record_time c t_window_ms n_verify;
  let c := with_times c (saturating_add U32_MAX (timing_samples c) 1) times in
  if calibrated c || (timing_samples c <? TIMING_WARMUP)%Z then Ok c else
  lo ← find_timed times (seq 2 8);
  hi ← find_timed times (rev (seq 2 8));
  match lo, hi with
  | Some n_lo, Some n_hi =>
      if bool_decide (n_lo < n_hi) then
        t_hi ← index times n_hi;
        t_lo ← index times n_lo;
        Ok (fit c n_lo n_hi t_lo t_hi)
      else Ok c
  | _, _ => Ok c
  end.

(** ** Acceptance *)

(** [f32::MIN] *)
Definition F32_MIN : f32 := S754_finite true 16777215 104.

(** The survival of a depth and the cost of a window. *)
Definition survival (c : BlockController) (n : nat) : result E f32 :=
  tot ← index (s_tot c) n;
  if f32_lt f32_zero tot then hit ← index (s_hit c) n; Ok (f32_div hit tot) else Ok f32_zero.
Definition window_ms (c : BlockController) (n : nat) : f32 := f32_add (t_ar c) (f32_mul (f32_sub (f32_of_Z (Z.of_nat n)) f32_one) (dt c)).
(** The body of the loop: accumulated depth, best size, best score. *)
Definition block_step (c : BlockController) (st : f32 * nat * f32) (n : nat) : result E (f32 * nat * f32) :=
  let '(tau, best_n, best_score) := st in
  s ← survival c n;
  let tau := f32_add tau s in
  let score := f32_div tau (window_ms c n) in
  Ok (if f32_lt best_score score then (tau, n, score) else (tau, best_n, best_score)).
(** [BlockController::argmax_block] *)
Definition argmax_block (c : BlockController) : result E nat :=
  if f32_le (t_ar c) f32_zero || f32_lt (dt c) f32_zero then Ok (default_block c) else
  st ← try_fold (block_step c) (f32_one, 1, F32_MIN) (seq 1 (Nat.min (max_tried c) 8));
  clamp (min_block c) (max_block c) st.1.2.

(** The counts of one depth. *)
Definition count_depth (accept_len : nat) (counts : list f32 * list f32) (k : nat) : result E (list f32 * list f32) :=
  tot ← index counts.2 k;
  s_tot ← store counts.2 k (f32_add tot f32_one);
  s_hit ← (if bool_decide (k ≤ accept_len) then hit ← index counts.1 k; store counts.1 k (f32_add hit f32_one) else Ok counts.1);
  Ok (s_hit, s_tot).

Definition with_block (c : BlockController) (b tried : nat) : BlockController :=
  mkBlockController b (default_block c) (min_block c) (max_block c) tried (s_hit c) (s_tot c) (windows_seen c) (timing_samples c) (t_window_by_n c) (calibrated c) (dt c) (t_ar c) (cost_ready c) (max_cost_ratio c).
Definition with_counts (c : BlockController) (hit tot : list f32) (windows : Z) : BlockController :=
  mkBlockController (block c) (default_block c) (min_block c) (max_block c) (max_tried c) hit tot windows (timing_samples c) (t_window_by_n c) (calibrated c) (dt c) (t_ar c) (cost_ready c) (max_cost_ratio c).

(** [BlockController::observe] *)
Definition observe_window (c : BlockController) (accept_len n_proposed : nat) : result E BlockController :=
  counts ← try_fold (count_depth accept_len) (s_hit c, s_tot c) (seq 1 (Nat.min n_proposed 8));
  windows ← expect (checked_add U32_MAX (windows_seen c) 1);
  let c := with_counts c counts.1 counts.2 windows in
  if (windows_seen c <? WARMUP_WINDOWS)%Z then Ok c else
  twice ← expect (checked_mul U32_MAX 2 (wrap32 (Z.of_nat (max_block c))));
  ramp_end ← expect (checked_add U32_MAX WARMUP_WINDOWS twice);
  if (windows_seen c <? ramp_end)%Z then
    let step := ((windows_seen c - WARMUP_WINDOWS) / RAMP_HOLD)%Z in
    let b := Nat.min (min_block c + Z.to_nat step) (max_block c) in
    Ok (with_block c b (Nat.max b (max_tried c)))
  else if cost_ready c then b ← argmax_block c; Ok (with_block c b (max_tried c))
  else Ok (with_block c (default_block c) (max_tried c)).
End Controller.

(** ** The best score *)

Section Best.
Context (c : BlockController) (Hhit : length (s_hit c) = 9) (Htot : length (s_tot c) = 9).

(** The survival of a depth, the expected tokens of a window and its score. *)
Definition survival_at (n : nat) : f32 := match survival (E := unit) c n with Ok s => s | _ => f32_zero end.
Definition expected_tokens (n : nat) : f32 := foldl f32_add f32_one (survival_at <$> seq 1 n).
Definition block_score (n : nat) : f32 := f32_div (expected_tokens n) (window_ms c n).

(** [n] is the first size of greatest score up to [k]. *)
Definition best_block (k n : nat) : Prop :=
  1 ≤ n ≤ k ∧ (∀ m, 1 ≤ m ≤ k → f32_lt (block_score n) (block_score m) = false) ∧ ∀ m, 1 ≤ m < n → f32_le (block_score n) (block_score m) = false.

Lemma survival_Ok {E} n : n ≤ 8 → survival (E := E) c n = Ok (survival_at n).
Proof.
  intros Hn. unfold survival_at, survival, index. destruct (lookup_lt_is_Some_2 (s_tot c) n ltac:(lia)) as [tot ->]. cbn [mbind result_bind]. destruct (f32_lt f32_zero tot); [|done]. by destruct (lookup_lt_is_Some_2 (s_hit c) n ltac:(lia)) as [hit ->].
Qed.

Lemma expected_tokens_S k : expected_tokens (S k) = f32_add (expected_tokens k) (survival_at (S k)).
Proof. unfold expected_tokens. by rewrite seq_S, fmap_app, foldl_app. Qed.

(** A greater score that stays below none. *)
Lemma f32_lt_le_trans x y z : f32_lt x y = true → f32_le y z = true → f32_lt x z = true.
Proof.
  intros Hxy Hyz. destruct (f32_lt_not_nan _ _ Hxy) as [Hx Hy]. assert (is_nan z = false) as Hz by (destruct y, z; done). rewrite f32_lt_key in * by done. pose proof (partial_cmp_key y z Hy Hz) as Hk. unfold f32_le, SFleb, partial_cmp in *.
  destruct (SFcompare y z) as [[]|]; [by rewrite <- Hk| |done|done]. destruct (f32_key x) as [[x1 x2] x3], (f32_key y) as [[y1 y2] y3], (f32_key z) as [[z1 z2] z3]. cbn in *. lia.
Qed.

Lemma argmax_loop {E} k : k ≤ 8 → ∃ n sc, try_fold (block_step (E := E) c) (f32_one, 1, F32_MIN) (seq 1 k) = Ok (expected_tokens k, n, sc) ∧
  (n = 1 ∧ sc = F32_MIN ∧ (∀ m, 1 ≤ m ≤ k → f32_lt F32_MIN (block_score m) = false) ∨ sc = block_score n ∧ f32_lt F32_MIN sc = true ∧ best_block k n).
Proof.
  induction k as [|k IH]; intros Hk; [exists 1, F32_MIN; split; [done|]; left; split_and!; [done..|lia]|]. destruct IH as (n & sc & Hf & Hb); [lia|]. rewrite seq_S, try_fold_app, Hf. cbn [mbind result_bind try_fold Nat.add]. unfold block_step. rewrite survival_Ok by lia. cbn [mbind result_bind]. rewrite <- expected_tokens_S. fold (block_score (S k)).
  destruct (f32_lt sc (block_score (S k))) eqn:Hlt; eexists _, _; (split; [reflexivity|]).
  - right. split; [done|]. split; [destruct Hb as [(_ & -> & _)|(_ & Hmin & _)]; [done|by eapply f32_lt_trans]|]. split; [lia|]. split.
    + intros m Hm. destruct (decide (m = S k)) as [->|]; [by destruct (f32_lt (block_score (S k)) (block_score (S k))) eqn:Hself; [apply f32_lt_not_nan in Hself as ?; rewrite f32_lt_key in Hself by tauto; destruct (f32_key _) as [[? ?] ?]; cbn in Hself; lia|]|].
      destruct (f32_lt (block_score (S k)) (block_score m)) eqn:Hm'; [|done]. pose proof (f32_lt_trans _ _ _ Hlt Hm') as Hcontra. destruct Hb as [(_ & -> & Hall)|(-> & _ & _ & Hall & _)]; rewrite Hall in Hcontra by lia; done.
    + intros m Hm. destruct (f32_le (block_score (S k)) (block_score m)) eqn:Hm'; [|done]. pose proof (f32_lt_le_trans _ _ _ Hlt Hm') as Hcontra. destruct Hb as [(_ & -> & Hall)|(-> & _ & _ & Hall & _)]; rewrite Hall in Hcontra by lia; done.
  - destruct Hb as [(-> & -> & Hall)|(-> & Hmin & Hn & Hall & Hfirst)]; [left; split; [done|]; split; [done|]|right; split; [done|]; split; [done|]; split; [lia|]; split; [|done]].
    all: intros m Hm; destruct (decide (m = S k)) as [->|]; [done|apply Hall; lia].
Qed.
End Best.

(** ** Every sequence of observations *)

Inductive event : Type := Observed (accept_len n_proposed : nat) | Timed (t_window_ms : f32) (n_verify : nat) | NewRequest.
Definition handle {E} (c : BlockController) (e : event) : result E BlockController :=
  match e with Observed a p => observe_window c a p | Timed t n => observe_timing c t n | NewRequest => Ok (controller_reset c) end.

(** The block before the sweep and during it, by the windows of the request. *)
Definition ramp_windows (c : BlockController) : Z := WARMUP_WINDOWS + 2 * Z.of_nat (max_block c).
Definition sweep_ok (c : BlockController) : Prop :=
  ((windows_seen c < WARMUP_WINDOWS)%Z → block c = default_block c) ∧
  ((WARMUP_WINDOWS ≤ windows_seen c < ramp_windows c)%Z → block c = Nat.min (min_block c + Z.to_nat ((windows_seen c - WARMUP_WINDOWS) / RAMP_HOLD)) (max_block c)) ∧
  ((WARMUP_WINDOWS + 2 * Z.of_nat (max_block c - min_block c) ≤ windows_seen c)%Z → max_tried c = max_block c).

Record controller_ok (lo hi d : nat) (n : Z) (c : BlockController) : Prop := {
  co_bounds : min_block c = lo ∧ max_block c = hi ∧ default_block c = d ∧ 1 ≤ lo ∧ lo ≤ d ≤ hi;
  co_block : lo ≤ block c ≤ hi;
  co_tried : d ≤ max_tried c ≤ hi;
  co_lengths : length (s_hit c) = 9 ∧ length (s_tot c) = 9 ∧ length (t_window_by_n c) = 10;
  co_windows : (0 ≤ windows_seen c ≤ n)%Z;
  co_cost : cost_ready c = true → f32_lt f32_zero (t_ar c) = true ∧ f32_lt (dt c) f32_zero = false;
  co_sweep : sweep_ok c }.

Lemma counts_Ok {E} a k : k ≤ 8 → ∀ counts : list f32 * list f32, length counts.1 = 9 → length counts.2 = 9 → ∃ counts', try_fold (count_depth (E := E) a) counts (seq 1 k) = Ok counts' ∧ length counts'.1 = 9 ∧ length counts'.2 = 9.
Proof.
  induction k as [|k IH]; intros Hk counts H1 H2; [by exists counts|]. destruct (IH ltac:(lia) counts H1 H2) as (counts' & Hf & L1 & L2). rewrite seq_S, try_fold_app, Hf. cbn [mbind result_bind try_fold Nat.add]. unfold count_depth, index, store.
  destruct (lookup_lt_is_Some_2 counts'.2 (S k) ltac:(lia)) as [tot ->]. destruct (lookup_lt_is_Some_2 counts'.1 (S k) ltac:(lia)) as [hit ->]. rewrite L1, L2. cbn [mbind result_bind]. rewrite !(bool_decide_eq_true_2 (S k < 9)) by lia. cbn [mbind result_bind].
  case_bool_decide; (eexists; split; [reflexivity|]); cbn; by rewrite ?length_insert.
Qed.

Lemma clamp_Ok {E} lo hi x : lo ≤ hi → ∃ y, clamp (E := E) lo hi x = Ok y ∧ lo ≤ y ≤ hi ∧ (lo ≤ x ≤ hi → y = x).
Proof.
  intros Hle. unfold clamp. rewrite (bool_decide_eq_true_2 (lo ≤ hi)) by done. cbn [assert mbind result_bind]. eexists. split; [reflexivity|]. repeat case_bool_decide; split_and!; try intros ?; lia.
Qed.

Lemma find_timed_Ok {E} times slots : (∀ n, n ∈ slots → n < length times) → ∃ o, find_timed (E := E) times slots = Ok o ∧ ∀ n, o = Some n → n ∈ slots.
Proof.
  induction slots as [|n slots IH]; intros Hs; [by exists None|]. cbn [find_timed]. unfold index. destruct (lookup_lt_is_Some_2 times n (Hs n ltac:(by constructor))) as [t ->]. cbn [mbind result_bind]. destruct (f32_lt f32_zero t); [exists (Some n); split; [done|]; intros ? [= <-]; by constructor|].
  destruct IH as (o & Ho & Hin); [intros; apply Hs; by constructor|]. exists o. split; [done|]. intros m Hm. constructor. by apply Hin.
Qed.

(** A fitted line has a positive base and no negative slope. *)
Lemma f32_max_zero a : f32_lt (f32_max a f32_zero) f32_zero = false.
Proof. unfold f32_max. destruct (is_nan a || f32_lt a f32_zero) eqn:H; [done|]. by apply orb_false_iff in H as [_ ?]. Qed.

Lemma timing_keeps {E} lo hi d n c t k : controller_ok lo hi d n c → ∃ c', observe_timing (E := E) c t k = Ok c' ∧ controller_ok lo hi d n c'.
Proof.
  intros Hc. destruct (co_lengths _ _ _ _ _ Hc) as (L1 & L2 & L3). unfold observe_timing. assert (∃ times, record_time (E := E) c t k = Ok times ∧ length times = 10) as (times & -> & Lt).
  { unfold record_time. case_bool_decide as Hk; cbn [andb]; [|by eexists]. destruct (f32_lt f32_zero t); [|by eexists]. unfold index, store. destruct (lookup_lt_is_Some_2 (t_window_by_n c) k ltac:(lia)) as [slot ->]. cbn [mbind result_bind]. rewrite bool_decide_eq_true_2 by lia. eexists. split; [reflexivity|]. by rewrite length_insert. }
  cbn [mbind result_bind]. set (samples := saturating_add U32_MAX (timing_samples c) 1). assert (controller_ok lo hi d n (with_times c samples times)) as Hc1 by (destruct Hc; by split). destruct (calibrated _ || _); [by eexists|].
  destruct (find_timed_Ok (E := E) times (seq 2 8)) as (o1 & -> & Ho1); [intros m ?%elem_of_seq; lia|]. destruct (find_timed_Ok (E := E) times (rev (seq 2 8))) as (o2 & -> & Ho2); [intros m Hm; apply list_elem_of_In, in_rev, list_elem_of_In, elem_of_seq in Hm; lia|]. cbn [mbind result_bind].
  destruct o1 as [n1|], o2 as [n2|]; try by eexists. case_bool_decide; [|by eexists]. specialize (Ho1 n1 eq_refl). specialize (Ho2 n2 eq_refl). apply elem_of_seq in Ho1. apply list_elem_of_In, in_rev, list_elem_of_In, elem_of_seq in Ho2. unfold index.
  destruct (lookup_lt_is_Some_2 times n2 ltac:(lia)) as [t2 ->], (lookup_lt_is_Some_2 times n1 ltac:(lia)) as [t1 ->]. cbn [mbind result_bind]. eexists. split; [reflexivity|]. unfold fit. destruct (f32_lt f32_zero _ && _) eqn:Hfit; [|done]. apply andb_true_iff in Hfit as [Hpos _]. destruct Hc1. split; try done. intros _. cbn. split; [done|apply f32_max_zero].
Qed.

(** Behind the sweep: the default without a cost, else the best size within the bounds;
    sizes above eight have no counts. *)
Definition settled_ok (c : BlockController) : Prop := (ramp_windows c ≤ windows_seen c)%Z →
  if cost_ready c then ∃ n, clamp (E := unit) (min_block c) (max_block c) n = Ok (block c) ∧
    (n = 1 ∧ (∀ m, 1 ≤ m ≤ Nat.min (max_block c) 8 → f32_lt F32_MIN (block_score c m) = false) ∨ best_block c (Nat.min (max_block c) 8) n)
  else block c = default_block c.

Lemma argmax_Ok {E} lo hi d n c : controller_ok lo hi d n c → cost_ready c = true → ∃ m b, argmax_block (E := E) c = Ok b ∧ clamp (E := unit) lo hi m = Ok b ∧ lo ≤ b ≤ hi ∧
  (m = 1 ∧ (∀ k, 1 ≤ k ≤ Nat.min (max_tried c) 8 → f32_lt F32_MIN (block_score c k) = false) ∨ best_block c (Nat.min (max_tried c) 8) m).
Proof.
  intros Hc Hready. destruct (co_bounds _ _ _ _ _ Hc) as (Hlo & Hhi & _ & H1 & Hd). destruct (co_cost _ _ _ _ _ Hc Hready) as [Hpos Hneg], (co_lengths _ _ _ _ _ Hc) as (L1 & L2 & _). unfold argmax_block. assert (f32_le (t_ar c) f32_zero = false) as -> by (destruct (t_ar c) as [[]|[]| |[] ? ?]; done). rewrite Hneg. cbn [orb].
  destruct (argmax_loop (E := E) c L1 L2 (Nat.min (max_tried c) 8) ltac:(lia)) as (m & sc & -> & Hb). cbn [mbind result_bind fst snd]. rewrite Hlo, Hhi. unfold clamp. rewrite !(bool_decide_eq_true_2 (lo ≤ hi)) by lia. cbn [assert mbind result_bind]. eexists m, _. split; [reflexivity|]. split; [reflexivity|].
  split; [repeat case_bool_decide; lia|]. destruct Hb as [(-> & _ & Hall)|(_ & _ & Hb)]; [by left|by right].
Qed.

Lemma observe_keeps {E} lo hi d n c a p : controller_ok lo hi d n c → (n < U32_MAX)%Z → (WARMUP_WINDOWS + 2 * Z.of_nat hi ≤ U32_MAX)%Z → ∃ c', observe_window (E := E) c a p = Ok c' ∧ controller_ok lo hi d (n + 1) c' ∧ settled_ok c'.
Proof.
  intros Hc Hn Hhi. destruct (co_bounds _ _ _ _ _ Hc) as (Elo & Ehi & Ed & H1 & Hd). destruct (co_lengths _ _ _ _ _ Hc) as (L1 & L2 & L3). pose proof (co_windows _ _ _ _ _ Hc) as Hw. pose proof (co_tried _ _ _ _ _ Hc) as Ht. pose proof (co_block _ _ _ _ _ Hc) as Hb. destruct (co_sweep _ _ _ _ _ Hc) as (S1 & S2 & S3). unfold ramp_windows, WARMUP_WINDOWS, RAMP_HOLD in *.
  unfold observe_window. destruct (counts_Ok (E := E) a (Nat.min p 8) ltac:(lia) (s_hit c, s_tot c) L1 L2) as (counts & -> & L1' & L2'). cbn [mbind result_bind]. assert (checked_add U32_MAX (windows_seen c) 1 = Some (windows_seen c + 1)%Z) as -> by (unfold checked_add; by rewrite (proj2 (Z.leb_le _ _)) by lia). cbn [expect mbind result_bind]. set (c1 := with_counts c counts.1 counts.2 (windows_seen c + 1)). change (windows_seen c1) with (windows_seen c + 1)%Z. change (max_block c1) with (max_block c). unfold WARMUP_WINDOWS.
  destruct (Z.ltb_spec (windows_seen c + 1) 6) as [Hlt|Hge].
  { exists c1. split; [done|]. split; [|intros Hr; unfold ramp_windows, WARMUP_WINDOWS in Hr; cbn in Hr; lia]. destruct Hc. split; try done; [cbn; lia|]. unfold sweep_ok, ramp_windows, WARMUP_WINDOWS. cbn. split_and!; intros; [apply S1; lia|lia|lia]. }
  assert (wrap32 (Z.of_nat (max_block c)) = Z.of_nat (max_block c)) as -> by (unfold wrap32; apply Z.mod_small; ulia). assert (checked_mul U32_MAX 2 (Z.of_nat (max_block c)) = Some (2 * Z.of_nat (max_block c))%Z) as -> by (unfold checked_mul; by rewrite (proj2 (Z.leb_le _ _)) by lia). cbn [expect mbind result_bind]. assert (checked_add U32_MAX 6 (2 * Z.of_nat (max_block c)) = Some (6 + 2 * Z.of_nat (max_block c))%Z) as -> by (unfold checked_add; by rewrite (proj2 (Z.leb_le _ _)) by lia). cbn [expect mbind result_bind].
  destruct (Z.ltb_spec (windows_seen c + 1) (6 + 2 * Z.of_nat (max_block c))) as [Hlt|Hend].
  - eexists. split; [reflexivity|]. change (min_block c1) with (min_block c). change (max_tried c1) with (max_tried c). unfold RAMP_HOLD. pose proof (Z.div_pos (windows_seen c + 1 - 6) 2 ltac:(lia) ltac:(lia)) as Hq. split; [|intros Hr; unfold ramp_windows, WARMUP_WINDOWS in Hr; cbn in Hr; lia].
    destruct Hc. split; try done; [cbn; lia|cbn; lia|cbn; lia|]. unfold sweep_ok, ramp_windows, WARMUP_WINDOWS, RAMP_HOLD. cbn [with_block with_counts c1 windows_seen block min_block max_block max_tried default_block]. split_and!; intros; [lia|done|]. pose proof (Z.div_le_mono (2 * Z.of_nat (max_block c - min_block c)) (windows_seen c + 1 - 6) 2 ltac:(lia) ltac:(lia)) as Hm. rewrite (Z.mul_comm 2), Z.div_mul in Hm by lia. lia.
  - assert (max_tried c = max_block c) as Htried by (apply S3; lia). assert (controller_ok lo hi d (n + 1) (with_block c1 (default_block c) (max_tried c))) as Hc1.
    { destruct Hc. split; try done; [cbn; lia|cbn; lia|]. unfold sweep_ok, ramp_windows, WARMUP_WINDOWS. cbn. split_and!; intros; [lia|lia|done]. }
    change (cost_ready c1) with (cost_ready c). destruct (cost_ready c) eqn:Hready; [|eexists; split; [reflexivity|]; split; [exact Hc1|]; intros _; change (cost_ready (with_block c1 (default_block c1) (max_tried c1))) with (cost_ready c); by rewrite Hready].
    destruct (argmax_Ok (E := E) _ _ _ _ _ Hc1 Hready) as (m & b & Harg & Hcl & Hbb & Hbest). change (argmax_block (E := E) (with_block c1 (default_block c) (max_tried c))) with (argmax_block (E := E) c1) in Harg. rewrite Harg. cbn [mbind result_bind]. eexists. split; [reflexivity|]. split.
    + destruct Hc1 as [B1 B2 B3 B4 B5 B6 B7]. split; [exact B1|exact Hbb|exact B3|exact B4|exact B5|exact B6|]. unfold sweep_ok, ramp_windows, WARMUP_WINDOWS. cbn. split_and!; intros; [lia|lia|done].
    + intros _. change (cost_ready (with_block c1 b (max_tried c1))) with (cost_ready c). rewrite Hready. exists m. cbn [with_block with_counts c1 min_block max_block block]. rewrite Elo, Ehi. split; [exact Hcl|]. change (max_tried (with_block c1 (default_block c) (max_tried c))) with (max_tried c) in Hbest. rewrite Htried, Ehi in Hbest. exact Hbest.
Qed.

Lemma new_ok {E} default lo hi p_star ratio : 1 ≤ lo ≤ hi → ∃ d c, BlockController_new (E := E) default lo hi p_star ratio = Ok c ∧ controller_ok lo hi d 0 c.
Proof.
  intros Hb. unfold BlockController_new. destruct (clamp_Ok (E := E) lo hi default ltac:(lia)) as (d & -> & Hd & _). cbn [mbind result_bind]. eexists d, _. split; [reflexivity|]. split; cbn; try done; [lia|lia|]. unfold sweep_ok, ramp_windows, WARMUP_WINDOWS. cbn. split_and!; intros; [done|lia|lia].
Qed.
Lemma reset_keeps lo hi d n c : (0 ≤ n)%Z → controller_ok lo hi d n c → controller_ok lo hi d n (controller_reset c).
Proof.
  intros Hn Hc. destruct Hc as [(? & ? & Hd & ? & ?) ? ? (? & ? & ?) ? ? ?]. split; cbn; try done; [lia|lia|]. unfold sweep_ok, ramp_windows, WARMUP_WINDOWS. cbn. split_and!; intros; [done|lia|lia].
Qed.
Lemma controller_mono lo hi d n n' c : (n ≤ n')%Z → controller_ok lo hi d n c → controller_ok lo hi d n' c.
Proof. intros Hle [? ? ? ? Hw ? ?]. split; try done. lia. Qed.

Lemma events_ok {E} lo hi d events : ∀ n c, controller_ok lo hi d n c → (0 ≤ n)%Z → (n + Z.of_nat (length events) ≤ U32_MAX)%Z → (WARMUP_WINDOWS + 2 * Z.of_nat hi ≤ U32_MAX)%Z →
  ∃ c', try_fold (handle (E := E)) c events = Ok c' ∧ controller_ok lo hi d (n + Z.of_nat (length events)) c'.
Proof.
  induction events as [|e events IH]; intros n c Hc Hn Hl Hhi; [exists c; split; [done|]; by rewrite Z.add_0_r|]. cbn [length] in *. assert (∃ c', handle (E := E) c e = Ok c' ∧ controller_ok lo hi d (n + 1) c') as (c1 & He & Hc1).
  { destruct e as [a p|t k|]; cbn [handle].
    - destruct (observe_keeps (E := E) lo hi d n c a p Hc ltac:(lia) Hhi) as (c' & ? & ? & _). by exists c'.
    - destruct (timing_keeps (E := E) lo hi d n c t k Hc) as (c' & ? & Hc'). exists c'. split; [done|]. eapply controller_mono; [|exact Hc']. lia.
    - eexists. split; [done|]. eapply controller_mono; [|apply reset_keeps; [exact Hn|exact Hc]]. lia. }
  cbn [try_fold]. rewrite He. cbn [mbind result_bind]. destruct (IH (n + 1)%Z c1 Hc1 ltac:(lia) ltac:(lia) Hhi) as (c' & ? & Hc'). exists c'. split; [done|]. by replace (n + Z.of_nat (S (length events)))%Z with (n + 1 + Z.of_nat (length events))%Z by lia.
Qed.

(** C40: whatever acceptance and times it observes, over any number of requests, the
    controller does not panic and asks for a block between its bounds. In each request it
    keeps the default for the first windows, then holds every size for two windows from
    the smallest to the largest; after that a window leaves it at the default if no cost
    was fitted, and else at the first size of greatest expected tokens per millisecond,
    over all sizes with counts, within the bounds. *)
Theorem block_controller_exact {E} default lo hi p_star ratio events : 1 ≤ lo ≤ hi → (WARMUP_WINDOWS + 2 * Z.of_nat hi ≤ U32_MAX)%Z → (Z.of_nat (length events) < U32_MAX)%Z →
  ∃ c0 c, BlockController_new (E := E) default lo hi p_star ratio = Ok c0 ∧ try_fold (handle (E := E)) c0 events = Ok c ∧ min_block c = lo ∧ max_block c = hi ∧ lo ≤ block c ≤ hi ∧ sweep_ok c ∧
  ∀ accept_len n_proposed, ∃ c', observe_window (E := E) c accept_len n_proposed = Ok c' ∧ lo ≤ block c' ≤ hi ∧ settled_ok c'.
Proof.
  intros Hb Hhi Hl. destruct (new_ok (E := E) default lo hi p_star ratio Hb) as (d & c0 & Hnew & Hc0). destruct (events_ok (E := E) lo hi d events 0 c0 Hc0 ltac:(lia) ltac:(lia) Hhi) as (c & Hrun & Hc). exists c0, c. destruct (co_bounds _ _ _ _ _ Hc) as (? & ? & _).
  split_and!; try done; [apply (co_block _ _ _ _ _ Hc)..|apply (co_sweep _ _ _ _ _ Hc)|]. intros a p. destruct (observe_keeps (E := E) lo hi d _ c a p Hc ltac:(lia) Hhi) as (c' & ? & Hc' & ?). exists c'. split_and!; try done; apply (co_block _ _ _ _ _ Hc').
Qed.

Module BlockDemo.
(** Drafts of the asked length are all accepted; times grow slowly with the block. *)
Fixpoint request (n : nat) (c : BlockController) : result unit BlockController :=
  match n with
  | 0 => Ok c
  | S n => c ← observe_timing c (f32_of_Z (50 + Z.of_nat (block c))) (S (block c)); c ← observe_window c (block c) (block c); request n c
  end.
Example climbs : (c ← BlockController_new 2 1 7 f32_zero f32_one; c ← request 30 c; Ok (block c, cost_ready c)) = Ok (7, true).
Proof. by vm_compute. Qed.
End BlockDemo.

Lemma block_controller_exact_witness : ∃ c0 c, BlockController_new (E := unit) 2 1 7 f32_zero f32_one = Ok c0 ∧ try_fold (handle (E := unit)) c0 [Observed 1 2; Timed f32_one 3; NewRequest] = Ok c ∧ min_block c = 1 ∧ max_block c = 7 ∧ 1 ≤ block c ≤ 7 ∧ sweep_ok c ∧
  ∀ accept_len n_proposed, ∃ c', observe_window (E := unit) c accept_len n_proposed = Ok c' ∧ 1 ≤ block c' ≤ 7 ∧ settled_ok c'.
Proof. apply (block_controller_exact 2 1 7 f32_zero f32_one [Observed 1 2; Timed f32_one 3; NewRequest]); [lia|vm_compute; congruence|vm_compute; reflexivity]. Defined.
